(* ===== verification/_CoqProject ===== *)
-Q . S2P
Prelude.v
Order.v
Endian.v
Varint.v
Delta.v
DiffDelta.v
DeltaRoundtrip.v
PackHeader.v
BlockHash.v
Hashfile.v
HashLookup.v
Sha1.v
Sha256.v
PackIndex.v
Sort.v
Revindex.v
PackTheorems.v
Ewah.v
EwahSpec.v
EwahBits.v
EwahIter.v
Bitmap.v
BitmapSpec.v
EwahXor.v
EwahIO.v
BitmapTheorems.v
PrioQueue.v
Hashmap.v
HashmapOps.v
StringList.v
OidArray.v
CbTree.v
OidTree.v
ContainerTheorems.v
Hex.v
Base85.v
Ctype.v
Quote.v
TextTheorems.v
Refname.v
Wildmatch.v
XdlUtils.v
Frontier.v
XdlSplit.v
XdlDiff.v
XdlPrepare.v
XdlCompact.v
XdlMyers.v
XdlRegion.v
XdlHistogram.v
XdlPatience.v
XdlScript.v
XdlEmit.v
XdlPatch.v
XdlMerge.v
XdlMergeChunks.v
XdlMergeOut.v
XdlTheorems.v
Commit.v
CommitReach.v
CommitPaint.v
CommitBases.v
CommitRedundant.v
CommitSearch.v
CommitGeneration.v
CommitCounts.v
CommitTheorems.v
LineLog.v
LineLogSpec.v
LineLogTheorems.v
