(* ===== verification/Prelude.v ===== *)
(** * A verification development for the core of Git

    The program is Git (the tree under [src/], written in C).  Git stores its
    history as objects named by their hash; packs hold objects as deltas of
    each other, bitmaps say which objects are reachable, and the commands look
    names up in sorted tables, hash tables and priority queues and exchange
    them as quoted or hexadecimal text.  This library models the
    data-structure and codec layer that all of these parts stand on: the code
    that is pure computation on memory.

    ** The model of C

    This file fixes how C is read.  An unsigned [w]-bit integer is a [Z] with
    its wrap-around written out ([u8] ... [u64], [i32]); memory is a [list Z]
    of bytes read and written through [rd], [wr] and their ranges, which give
    [UB] out of bounds; a function returns an [outcome]: [Ret], [Die] (the code
    calls [die] or [BUG], or an assertion fails), [UB], or [NoFuel] for a loop
    that used up the model's fuel.  Every theorem about a function concludes
    [Ret] of something, or uses [wp], which excludes [UB] and [NoFuel]: no
    theorem is vacuous on a run that goes wrong or does not end.  The fuel of a
    loop is a bound on its iterations that the same theorem shows to be enough
    (the bytes left, the entries left, the bits of a word, ...).  [Order] holds
    comparison functions in the three-way convention of C and the ascending
    lists they define.

    ** The parts, and the files that model them

    - Deltas. [Varint] is [varint.c].  [Delta] is [delta.h] and
      [patch-delta.c]; [DiffDelta] is [diff-delta.c] (Rabin index, encoder);
      [DeltaRoundtrip] proves that the decoder inverts the encoder.
    - Hashes and checksummed files. [Endian] is [compat/bswap.h]; [BlockHash]
      is what the two block-wise hashes share, with the interface (a class)
      that a running hash offers; [Sha1] is [block-sha1/sha1.c] and [Sha256] is
      [sha256/block/sha256.c], each with the standard's definition as its
      specification; [Hashfile] is [csum-file.c] over any hash of the interface.
    - Packs. [PackHeader] is the object header and delta-base codec of
      [pack-write.c], [packfile.c] and [builtin/pack-objects.c]; [PackIndex] is
      the index files of [pack-write.c] and [packfile.c]; [Revindex] is
      [pack-revindex.c]; [PackTheorems] states the results.
    - Bitmaps. [Ewah] is [ewah/ewah_bitmap.c] and [ewah/ewok_rlw.h] (building
      compressed words, the pool); [EwahSpec] gives a compressed buffer its
      meaning as a sequence of words and [EwahBits] as a set of positions;
      [EwahIter] has the iterators and [EwahXor] the run-length iterator and
      [ewah_xor]; [Bitmap] is [ewah/bitmap.c] with [BitmapSpec] its meaning;
      [EwahIO] is [ewah/ewah_io.c]; [BitmapTheorems] states the results.
    - Look-up structures. [HashLookup] is [hash-lookup.c]; [PrioQueue] is
      [prio-queue.c]; [Sort] is [compat/qsort_s.c] and the merge sort of
      [mergesort.h]; [Hashmap] and [HashmapOps] are [hashmap.c] over an explicit
      heap of linked entries; [StringList] is [string-list.c]; [OidArray] is
      [oid-array.c]; [ContainerTheorems] states the results.  [CbTree] is
      [cbtree.c], crit-bit trees in a heap of cells, and [OidTree] is
      [oidtree.c] on top of it.
    - Text. [Hex] is [hex.c] and [hex-ll.c]; [Base85] is [base85.c]; [Ctype] is
      [ctype.c]; [Quote] is [quote.c]; [TextTheorems] states the results.
      [Refname] is the name check of [refs.c]; [Wildmatch] is [wildmatch.c].
    - Line diff. [XdlUtils] is [xdiff/xutils.c] (matching and hashing lines),
      [XdlPrepare] is [xdiff/xprepare.c] (records, classes, trimming),
      [XdlSplit] and [XdlDiff] are the linear-space comparison of
      [xdiff/xdiffi.c] with [Frontier] the geometry of furthest-reaching points
      that it rests on, [XdlCompact] slides the groups of changes, [XdlMyers]
      is the default algorithm as a whole, [XdlRegion] what the others share
      (with the interface, a class, that an algorithm offers), [XdlHistogram] is
      [xdiff/xhistogram.c], [XdlPatience] is [xdiff/xpatience.c], [XdlScript]
      puts the three together and builds the edit script, [XdlEmit] is [xdiff/xemit.c] and [xdl_diff], and
      [XdlPatch] is the reader of a diff that serves as its specification.
      [XdlMerge] is [xdiff/xmerge.c], the three-way merge of files, on top of
      the edit scripts of the two sides; [XdlMergeChunks] shows that its chunks
      stay aligned in the three files through joining, refining and
      simplifying, and [XdlMergeOut] specifies the text of a merge and shows
      that it is what the code writes.  [XdlTheorems] states the results.
    - Commits. [Commit] is what [commit.c] keeps of commits in memory (lists,
      orders, flags and clearing them); reading a commit is a lookup in the
      [store] of the repository, which is a parameter.  [CommitReach] is
      [commit-reach.c]: merge bases, ancestry, independent heads, by painting and
      by depth-first search.  [CommitPaint] has history as a relation and the
      invariant of the painting walk, [CommitBases], [CommitRedundant] and
      [CommitSearch] the proofs about the two ways of removing redundant commits
      and about the search.  [CommitGeneration] computes generation numbers
      ([commit-graph.c]), and [CommitCounts] is [ahead_behind], on top of them
      and of the bitmaps.  [CommitTheorems] states the results.
    - Line tracking. [LineLog] is the range sets of [line-log.c] and their way
      across a diff, which comes from [XdlScript] through [xdiff-interface.c];
      [LineLogSpec] reads range sets as sets of lines, [LineLogTheorems] has the
      diff, lists of files and the results.
    Inside a file the definitions keep the names of the C functions; a loop of
    a function [f] is [f_loop] or is named after what it does, and carries the
    function's local variables as arguments or as a record.

    ** What the theorems show

    - Round trips: what an encoder of the program writes, its decoder reads
      back (deltas, pack headers, pack indexes, compressed bitmaps, shell and C
      quoting, hexadecimal and base-85 text); a diff, applied as a patch, gives
      the second file.
    - Merge: the result of a three-way merge takes every line from a side that
      changed it, or writes a conflict where both sides changed neighbouring
      lines; the count it returns is the number of conflicts written.  The sizes
      are [int]s, and a bound on files and markers keeps them from overflowing.
    - Reachability: for every acyclic history, whatever the dates say, merge
      bases, ancestry and independent heads are exactly what the relation between
      commits and parents defines, and the flags are restored; generation numbers
      grow from the parents to the children while they stay below 2^32, and under
      the same bound the numbers of commits ahead and behind are exact.
    - Line tracking: mapping ranges to the parent follows exactly the unchanged
      lines and takes the other side of the hunks that touch, except at a
      boundary that the code misses.
    - Safety and bounds: on arbitrary input the decoders stay within their
      buffers, end, and report errors as values, with the exceptions under Limits
      (what [patch_delta] does is described exactly, for any bytes); the search of
      the diff stays inside its box and a hunk header inside its buffer.
    - Refinement: the hash table, the string list, the object id array, the
      crit-bit and object id trees, the bitmaps and the priority queue implement
      the collection, set or queue they stand for, through every growth,
      shrinking and relinking; the unrolled hashes compute the hashes of the
      standard, and a checksummed file is the bytes written and their hash.
    - Exactness: binary and interpolating search, the sorts (permutation, order
      and stability), population counts, subset tests, enumeration, the grammar
      of reference names, the language of a wildcard pattern.
    - Limits: the inputs on which the code does not do what it means to do
      (an over-wide shift, a one-byte over-read, a loop that does not end, a
      64-bit number kept in 32 bits, a size that overflows).

    The fuel of the larger loops: [xdl_recs_cmp] recurses at most as often as
    its box has lines, because a split cuts off something on both sides;
    [xdl_split] ends within as many rounds, because the two searches must have
    met by then; the compaction visits at most (n + 2)^2 groups of a file of n
    lines, because the marked lines behind the group never grow; the patience
    and histogram algorithms recurse at most as often as their regions have
    lines, because a common line is taken out in between.  The painting walk
    puts a commit into its queue once for each of three marks it can get, and
    the depth-first walks push and pop each commit once; clearing marks follows
    each parent of a marked commit once.

    ** Not modelled

    The commands, the file formats read through mmap and zlib, the network
    protocol, configuration, the platform layer, the algorithms over trees
    (tree diff, rename detection, merge of trees) and the options of revision
    walking.  They are I/O around this layer, or need a model of the object
    store that this library does not have.  Allocation does not fail in the model except where the code
    handles the failure itself (a parameter in [DiffDelta]); [free] has no effect
    except where a later access would show it. *)
From stdpp Require Import prelude.
From stdpp Require Export sorting.
From coqutil Require Export Z.bitblast.
#[global] Open Scope Z_scope.

(** ** Machine integers

    A [w]-bit unsigned integer is a [Z] in [0, 2^w); every operation of the
    code that can leave that range is followed by the wrap-around written
    here.  [i32] is the two's complement reading of a C [int]. *)
Definition u8 (x : Z) : Z := x mod 2 ^ 8.
Definition u16 (x : Z) : Z := x mod 2 ^ 16.
Definition u32 (x : Z) : Z := x mod 2 ^ 32.
Definition u64 (x : Z) : Z := x mod 2 ^ 64.
Definition i32 (x : Z) : Z := (x + 2 ^ 31) mod 2 ^ 32 - 2 ^ 31.

Definition byte_ok (b : Z) : Prop := 0 <= b < 256.
Definition bytes_ok (l : list Z) : Prop := Forall byte_ok l.

(** ** Outcomes

    A C function either returns, or stops the program ([die], [BUG] or a
    failed [assert]), or performs an access the C standard does not define
    (out of bounds, over-wide shift).  [NoFuel] is the model's own: the fuel of
    a loop ran out.  Theorems that conclude [Ret _] exclude the other three. *)
Inductive outcome (A : Type) : Type :=
| Ret (a : A)
| Die
| UB
| NoFuel.
Arguments Ret {A} a.
Arguments Die {A}.
Arguments UB {A}.
Arguments NoFuel {A}.

Definition obind {A B} (m : outcome A) (k : A → outcome B) : outcome B :=
  match m with
  | Ret a => k a
  | Die => Die
  | UB => UB
  | NoFuel => NoFuel
  end.

Declare Scope outcome_scope.
Delimit Scope outcome_scope with outcome.
Notation "'let!' x := m 'in' k" := (obind m (λ x, k))
  (at level 10, x pattern, m at level 100, k at level 200) : outcome_scope.
#[global] Open Scope outcome_scope.

Lemma obind_Ret_inv {A B} (m : outcome A) (k : A → outcome B) b :
  obind m k = Ret b → ∃ a, m = Ret a ∧ k a = Ret b.
Proof. destruct m; simpl; naive_solver. Qed.

(** The sum of two [int]s: signed overflow is undefined.  A value stored in an
    [int] from a wider type is converted with [i32] instead. *)
Definition int_add (a b : Z) : outcome Z :=
  if (- 2 ^ 31 <=? a + b) && (a + b <? 2 ^ 31) then Ret (a + b) else UB.
Lemma int_add_ok a b : - 2 ^ 31 <= a + b < 2 ^ 31 → int_add a b = Ret (a + b).
Proof. intros H. unfold int_add. destruct (Z.leb_spec (- 2 ^ 31) (a + b)), (Z.ltb_spec (a + b) (2 ^ 31)); try lia; done. Qed.
Lemma i32_small x : 0 <= x < 2 ^ 31 → i32 x = x.
Proof. intros. unfold i32. rewrite Z.mod_small; lia. Qed.

(** [assert(c)] of the code. *)
Definition oassert {A} (c : bool) (k : outcome A) : outcome A :=
  if c then k else Die.

(** ** Weakest preconditions

    [wp d m Q]: [m] returns a value that satisfies [Q]; stopping the program is
    acceptable only when [d] holds; undefined behaviour and exhausted fuel
    never are. *)
Definition wp {A} (d : Prop) (m : outcome A) (Q : A → Prop) : Prop :=
  match m with
  | Ret a => Q a
  | Die => d
  | UB | NoFuel => False
  end.
Abbreviation returns := (wp False).
Abbreviation safe := (wp True).

Section wp.
Context {A B : Type}.
Implicit Types (m : outcome A) (d : Prop).

Lemma wp_bind d m (k : A → outcome B) Q :
  wp d m (λ a, wp d (k a) Q) → wp d (obind m k) Q.
Proof. by destruct m. Qed.
Lemma wp_mono d m (Q Q' : A → Prop) : (∀ a, Q a → Q' a) → wp d m Q → wp d m Q'.
Proof. destruct m; naive_solver. Qed.
Lemma wp_conseq d d' m (Q Q' : A → Prop) : (d → d') → (∀ a, Q a → Q' a) → wp d m Q → wp d' m Q'.
Proof. destruct m; naive_solver. Qed.
Lemma wp_weaken d m (Q : A → Prop) : returns m Q → wp d m Q.
Proof. by destruct m. Qed.
Lemma returns_eq m (Q : A → Prop) : returns m Q ↔ ∃ a, m = Ret a ∧ Q a.
Proof. destruct m; naive_solver. Qed.
Lemma wp_assert d (c : bool) m Q : c = true → wp d m Q → wp d (oassert c m) Q.
Proof. by intros ->. Qed.
End wp.

(** ** Loops

    [iter fuel body s] runs [body] from [s] until it answers [inr]. *)
Fixpoint iter {S R} (fuel : nat) (body : S → outcome (S + R)) (s : S) : outcome R :=
  match fuel with
  | O => NoFuel
  | Datatypes.S fuel =>
      let! r := body s in
      match r with
      | inl s' => iter fuel body s'
      | inr x => Ret x
      end
  end.

(** The loop rule: an invariant, a measure that decreases, a postcondition. *)
Lemma iter_wp {S R} (I : S → Prop) (m : S → nat) d (body : S → outcome (S + R)) Q :
  (∀ s, I s → wp d (body s) (λ r,
    match r with inl s' => I s' ∧ (m s' < m s)%nat | inr x => Q x end)) →
  ∀ s fuel, I s → (m s < fuel)%nat → wp d (iter fuel body s) Q.
Proof.
  intros Hstep s fuel; revert s; induction fuel as [|fuel IH]; intros s HI Hm; [lia|].
  simpl; apply wp_bind. eapply wp_mono; [|by apply Hstep].
  intros [s'|x] Hr; [|done]. destruct Hr as [HI' Hlt]. apply IH; [done|lia].
Qed.

(** ** Arrays: lists indexed by [Z], out of range is undefined behaviour *)
Section arrays.
Context {A : Type}.
Implicit Types (l : list A) (i : Z) (v : A).

Definition zlen l : Z := Z.of_nat (length l).

Definition znth l i : option A :=
  if 0 <=? i then l !! Z.to_nat i else None.

Definition rd l i : outcome A :=
  match znth l i with Some v => Ret v | None => UB end.

Definition wr l i v : outcome (list A) :=
  if (0 <=? i) && (i <? zlen l) then Ret (<[Z.to_nat i := v]> l) else UB.

Definition ztake i l : list A := take (Z.to_nat i) l.
Definition zdrop i l : list A := drop (Z.to_nat i) l.
(** [len] elements from position [from] on. *)
Definition zslice (from len : Z) l : list A := ztake len (zdrop from l).
Definition zrep (n : Z) v : list A := replicate (Z.to_nat n) v.

Lemma zlen_nonneg l : 0 <= zlen l.
Proof. unfold zlen; lia. Qed.
Lemma zlen_nil : zlen [] = 0.
Proof. done. Qed.
Lemma zlen_cons v l : zlen (v :: l) = 1 + zlen l.
Proof. unfold zlen; simpl; lia. Qed.
Lemma zlen_app l1 l2 : zlen (l1 ++ l2) = zlen l1 + zlen l2.
Proof. unfold zlen; rewrite length_app; lia. Qed.
Lemma zlen_zrep n v : 0 <= n → zlen (zrep n v) = n.
Proof. intros; unfold zlen, zrep; rewrite length_replicate; lia. Qed.
Lemma zlen_ztake i l : 0 <= i <= zlen l → zlen (ztake i l) = i.
Proof. unfold zlen, ztake; intros; rewrite length_take; lia. Qed.
Lemma zlen_zdrop i l : 0 <= i <= zlen l → zlen (zdrop i l) = zlen l - i.
Proof. unfold zlen, zdrop; intros; rewrite length_drop; lia. Qed.
Lemma zlen_zdrop_max i l : zlen (zdrop i l) = Z.max 0 (zlen l - Z.max 0 i).
Proof. unfold zlen, zdrop. rewrite length_drop. lia. Qed.
Lemma zlen_insert n v l : zlen (<[n := v]> l) = zlen l.
Proof. unfold zlen; by rewrite length_insert. Qed.
Lemma zlen_reverse l : zlen (reverse l) = zlen l.
Proof. unfold zlen; by rewrite length_reverse. Qed.
Lemma zlen_zslice from len l :
  0 <= from → 0 <= len → from + len <= zlen l → zlen (zslice from len l) = len.
Proof.
  intros; unfold zslice; rewrite zlen_ztake; [done|].
  rewrite zlen_zdrop; lia.
Qed.

Lemma znth_Some_lt l i v : znth l i = Some v → 0 <= i < zlen l.
Proof.
  unfold znth, zlen; destruct (Z.leb_spec 0 i); [|done].
  intros ?%lookup_lt_Some; lia.
Qed.
Lemma znth_is_Some l i : 0 <= i < zlen l → ∃ v, znth l i = Some v.
Proof.
  unfold znth, zlen; intros; destruct (Z.leb_spec 0 i); [|lia].
  apply lookup_lt_is_Some; lia.
Qed.
Lemma znth_of_nat l (n : nat) : znth l (Z.of_nat n) = l !! n.
Proof.
  unfold znth; destruct (Z.leb_spec 0 (Z.of_nat n)); [|lia].
  by rewrite Nat2Z.id.
Qed.
Lemma rd_znth l i v : znth l i = Some v → rd l i = Ret v.
Proof. unfold rd; by intros ->. Qed.
Lemma rd_inv l i v : rd l i = Ret v → znth l i = Some v.
Proof. unfold rd; destruct (znth l i); naive_solver. Qed.
Lemma wr_ok l i v : 0 <= i < zlen l → wr l i v = Ret (<[Z.to_nat i := v]> l).
Proof.
  unfold wr; intros; destruct (Z.leb_spec 0 i), (Z.ltb_spec i (zlen l)); simpl; lia || done.
Qed.
Lemma wr_inv l i v l' :
  wr l i v = Ret l' → 0 <= i < zlen l ∧ l' = <[Z.to_nat i := v]> l.
Proof.
  unfold wr; destruct (Z.leb_spec 0 i), (Z.ltb_spec i (zlen l)); simpl; naive_solver lia.
Qed.

Lemma znth_app_l l1 l2 i : i < zlen l1 → znth (l1 ++ l2) i = znth l1 i.
Proof.
  unfold znth, zlen; intros; destruct (Z.leb_spec 0 i); [|done].
  rewrite lookup_app_l; [done|lia].
Qed.
Lemma znth_app_r l1 l2 i : zlen l1 <= i → znth (l1 ++ l2) i = znth l2 (i - zlen l1).
Proof.
  unfold znth, zlen; intros; destruct (Z.leb_spec 0 i); [|lia].
  destruct (Z.leb_spec 0 (i - Z.of_nat (length l1))); [|lia].
  rewrite lookup_app_r by lia; f_equal; lia.
Qed.
Lemma znth_app_len l1 v l2 : znth (l1 ++ v :: l2) (zlen l1) = Some v.
Proof. rewrite znth_app_r by lia. by rewrite Z.sub_diag. Qed.
Lemma znth_elem_of l i v : znth l i = Some v → v ∈ l.
Proof. unfold znth. destruct (0 <=? i); [|done]. apply list_elem_of_lookup_2. Qed.
Lemma znth_cons v l i : 0 < i → znth (v :: l) i = znth l (i - 1).
Proof.
  intros. unfold znth. destruct (Z.leb_spec 0 i), (Z.leb_spec 0 (i - 1)); try lia.
  replace (Z.to_nat i) with (S (Z.to_nat (i - 1))) by lia. done.
Qed.
Lemma znth_ztake l n i : i < n → znth (ztake n l) i = znth l i.
Proof.
  unfold znth, ztake; intros; destruct (Z.leb_spec 0 i); [|done].
  rewrite lookup_take_lt; [done|lia].
Qed.
Lemma znth_zdrop l n i : 0 <= n → 0 <= i → znth (zdrop n l) i = znth l (n + i).
Proof.
  unfold znth, zdrop; intros.
  destruct (Z.leb_spec 0 i), (Z.leb_spec 0 (n + i)); try lia.
  rewrite lookup_drop; f_equal; lia.
Qed.
Lemma znth_insert_eq l i v : 0 <= i < zlen l → znth (<[Z.to_nat i := v]> l) i = Some v.
Proof.
  unfold znth, zlen; intros; destruct (Z.leb_spec 0 i); [|lia].
  rewrite list_lookup_insert_eq; [done|lia].
Qed.
Lemma znth_insert_ne l i j v :
  0 <= i → i ≠ j → znth (<[Z.to_nat i := v]> l) j = znth l j.
Proof.
  unfold znth; intros; destruct (Z.leb_spec 0 j); [|done].
  rewrite list_lookup_insert_ne; [done|lia].
Qed.

Lemma ztake_0 l : ztake 0 l = [].
Proof. done. Qed.
Lemma zdrop_0 l : zdrop 0 l = l.
Proof. done. Qed.
Lemma ztake_all l n : zlen l <= n → ztake n l = l.
Proof. unfold ztake, zlen; intros; apply take_ge; lia. Qed.
Lemma zdrop_all l n : zlen l <= n → zdrop n l = [].
Proof. unfold zdrop, zlen; intros; apply drop_ge; lia. Qed.
Lemma ztake_zdrop n l : ztake n l ++ zdrop n l = l.
Proof. apply take_drop. Qed.
Lemma zdrop_zdrop l m n : 0 <= m → 0 <= n → zdrop m (zdrop n l) = zdrop (n + m) l.
Proof. unfold zdrop; intros; rewrite drop_drop; f_equal; lia. Qed.
Lemma ztake_app_len l1 l2 : ztake (zlen l1) (l1 ++ l2) = l1.
Proof. unfold ztake, zlen; rewrite Nat2Z.id; apply take_app_length. Qed.
Lemma zdrop_app_len l1 l2 : zdrop (zlen l1) (l1 ++ l2) = l2.
Proof. unfold zdrop, zlen; rewrite Nat2Z.id; apply drop_app_length. Qed.
Lemma ztake_app_len' n l1 l2 : n = zlen l1 → ztake n (l1 ++ l2) = l1.
Proof. intros ->; apply ztake_app_len. Qed.
Lemma zdrop_app_len' n l1 l2 : n = zlen l1 → zdrop n (l1 ++ l2) = l2.
Proof. intros ->; apply zdrop_app_len. Qed.
Lemma ztake_succ l n v : 0 <= n → znth l n = Some v → ztake (n + 1) l = ztake n l ++ [v].
Proof.
  unfold znth, ztake; intros ?; destruct (Z.leb_spec 0 n); [|lia]; intros.
  replace (Z.to_nat (n + 1)) with (S (Z.to_nat n)) by lia.
  by apply take_S_r.
Qed.
Lemma zdrop_cons l n v : 0 <= n → znth l n = Some v → zdrop n l = v :: zdrop (n + 1) l.
Proof.
  unfold znth, zdrop; intros ?; destruct (Z.leb_spec 0 n); [|lia]; intros.
  replace (Z.to_nat (n + 1)) with (S (Z.to_nat n)) by lia.
  by apply drop_S.
Qed.
Lemma ztake_insert l n i v : n <= i → ztake n (<[Z.to_nat i := v]> l) = ztake n l.
Proof.
  unfold ztake; intros; destruct (decide (0 <= n)).
  - apply take_insert_ge; lia.
  - replace (Z.to_nat n) with 0%nat by lia; done.
Qed.
Lemma ztake_insert_snoc l n v :
  0 <= n < zlen l → ztake (n + 1) (<[Z.to_nat n := v]> l) = ztake n l ++ [v].
Proof.
  intros; rewrite (ztake_succ _ n v), ztake_insert; [done|lia..|].
  by apply znth_insert_eq.
Qed.
Lemma ztake_ztake l m n : m <= n → ztake m (ztake n l) = ztake m l.
Proof. unfold ztake; intros; rewrite take_take; f_equal; lia. Qed.
Lemma zrep_S n v : 0 <= n → zrep (n + 1) v = v :: zrep n v.
Proof.
  intros; unfold zrep; replace (Z.to_nat (n + 1)) with (S (Z.to_nat n)) by lia; done.
Qed.
Lemma zrep_add n m v : 0 <= n → 0 <= m → zrep (n + m) v = zrep n v ++ zrep m v.
Proof. intros; unfold zrep; rewrite Z2Nat.inj_add by lia; apply replicate_add. Qed.
Lemma zrep_0 v : zrep 0 v = [].
Proof. done. Qed.
Lemma zlist_eq l1 l2 :
  zlen l1 = zlen l2 → (∀ i, 0 <= i < zlen l1 → znth l1 i = znth l2 i) → l1 = l2.
Proof.
  unfold zlen; intros Hlen H; apply list_eq; intros n.
  destruct (decide (n < length l1)%nat).
  - rewrite <- !znth_of_nat; apply H; lia.
  - rewrite !lookup_ge_None_2 by lia; done.
Qed.
Lemma zslice_app l from m n :
  0 <= from → 0 <= m → 0 <= n → zslice from (m + n) l = zslice from m l ++ zslice (from + m) n l.
Proof.
  intros. unfold zslice. rewrite <- zdrop_zdrop by lia.
  rewrite <- (ztake_zdrop m (ztake (m + n) (zdrop from l))). f_equal.
  - rewrite ztake_ztake by lia. done.
  - unfold ztake, zdrop. rewrite skipn_firstn_comm. f_equal. lia.
Qed.

Lemma zdrop_app_ge n (a b : list A) : zlen a <= n → zdrop n (a ++ b) = zdrop (n - zlen a) b.
Proof.
  intros. unfold zdrop, zlen in *. rewrite drop_app_ge by lia. f_equal. lia.
Qed.
Lemma zdrop_app_le n (a b : list A) : 0 <= n <= zlen a → zdrop n (a ++ b) = zdrop n a ++ b.
Proof. intros. unfold zdrop, zlen in *. by rewrite drop_app_le by lia. Qed.
End arrays.

Lemma zlen_fmap {A B} (f : A → B) (l : list A) : zlen (f <$> l) = zlen l.
Proof. unfold zlen. by rewrite length_fmap. Qed.
Lemma znth_fmap_Some {A B} (f : A → B) (l : list A) i y :
  znth (f <$> l) i = Some y → ∃ x, znth l i = Some x ∧ y = f x.
Proof.
  unfold znth. destruct (0 <=? i); [|done]. rewrite list_lookup_fmap.
  destruct (l !! Z.to_nat i) as [x|]; [|done]. intros [= <-]. by exists x.
Qed.

(** [memcpy(dst + at, bytes, len)] and a read of [len] bytes. *)
Definition memcpy {A} (dst : list A) (at_ : Z) (bytes : list A) : outcome (list A) :=
  if (0 <=? at_) && (at_ + zlen bytes <=? zlen dst)
  then Ret (ztake at_ dst ++ bytes ++ zdrop (at_ + zlen bytes) dst) else UB.

Definition rd_range {A} (src : list A) (from len : Z) : outcome (list A) :=
  if (0 <=? from) && (0 <=? len) && (from + len <=? zlen src)
  then Ret (zslice from len src) else UB.

Section array_wp.
Context {A : Type}.
Implicit Types (l : list A).

Lemma rd_wp d l i (Q : A → Prop) :
  0 <= i < zlen l → (∀ v, znth l i = Some v → Q v) → wp d (rd l i) Q.
Proof.
  intros Hi HQ. destruct (znth_is_Some l i Hi) as [v Hv].
  rewrite (rd_znth _ _ _ Hv). by apply HQ.
Qed.
Lemma wr_wp d l i v (Q : list A → Prop) :
  0 <= i < zlen l → Q (<[Z.to_nat i := v]> l) → wp d (wr l i v) Q.
Proof. intros; by rewrite wr_ok. Qed.
Lemma memcpy_wp d l i bytes (Q : list A → Prop) :
  0 <= i → i + zlen bytes <= zlen l →
  Q (ztake i l ++ bytes ++ zdrop (i + zlen bytes) l) → wp d (memcpy l i bytes) Q.
Proof.
  intros. unfold memcpy. destruct (Z.leb_spec 0 i), (Z.leb_spec (i + zlen bytes) (zlen l));
    simpl; lia || done.
Qed.
(** Reading and writing at the end of a known prefix. *)
Lemma rd_at l pre v post i : l = pre ++ v :: post → i = zlen pre → rd l i = Ret v.
Proof. intros -> ->. apply rd_znth, znth_app_len. Qed.
Lemma wr_at l pre x post i v :
  l = pre ++ x :: post → i = zlen pre → wr l i v = Ret (pre ++ v :: post).
Proof.
  intros -> ->. rewrite wr_ok.
  - f_equal. unfold zlen. rewrite Nat2Z.id.
    rewrite insert_app_r_alt by lia. by rewrite Nat.sub_diag.
  - rewrite zlen_app, zlen_cons. pose proof (zlen_nonneg pre). pose proof (zlen_nonneg post). lia.
Qed.
Lemma rd_range_at l pre mid post from len :
  l = pre ++ mid ++ post → from = zlen pre → len = zlen mid → rd_range l from len = Ret mid.
Proof.
  intros -> -> ->. unfold rd_range, zslice.
  pose proof (zlen_nonneg pre). pose proof (zlen_nonneg mid). pose proof (zlen_nonneg post).
  rewrite !zlen_app.
  destruct (Z.leb_spec 0 (zlen pre)), (Z.leb_spec 0 (zlen mid)),
    (Z.leb_spec (zlen pre + zlen mid) (zlen pre + (zlen mid + zlen post))); try lia. cbn.
  by rewrite zdrop_app_len, ztake_app_len.
Qed.
Lemma rd_range_sub l at_ len big from k :
  rd_range l at_ len = Ret big → 0 <= from → 0 <= k → from + k <= len →
  rd_range l (at_ + from) k = Ret (zslice from k big).
Proof.
  unfold rd_range. destruct (Z.leb_spec 0 at_), (Z.leb_spec 0 len), (Z.leb_spec (at_ + len) (zlen l)); cbn [andb]; try done.
  intros [= <-] Hf Hk Hfk. destruct (Z.leb_spec 0 (at_ + from)), (Z.leb_spec 0 k), (Z.leb_spec (at_ + from + k) (zlen l));
    try lia. cbn [andb]. f_equal. apply zlist_eq.
  - rewrite !zlen_zslice; rewrite ?zlen_zslice; lia.
  - intros j Hj. rewrite zlen_zslice in Hj by lia. unfold zslice. rewrite !znth_ztake, !znth_zdrop by lia.
    rewrite znth_ztake, znth_zdrop by lia. f_equal. lia.
Qed.
Lemma rd_range_wp d l from len (Q : list A → Prop) :
  0 <= from → 0 <= len → from + len <= zlen l → Q (zslice from len l) →
  wp d (rd_range l from len) Q.
Proof.
  intros. unfold rd_range.
  destruct (Z.leb_spec 0 from), (Z.leb_spec 0 len), (Z.leb_spec (from + len) (zlen l));
    simpl; lia || done.
Qed.
End array_wp.

(** git-compat-util.h: [alloc_nr] and the size [ALLOC_GROW] settles on.  The
    allocation itself stops the program when it fails, so that only the size is
    kept. *)
Definition alloc_nr (x : Z) : Z := (x + 16) * 3 / 2.
Definition alloc_grow (nr alloc : Z) : Z :=
  if alloc <? nr then (if alloc_nr alloc <? nr then nr else alloc_nr alloc) else alloc.

Lemma alloc_grow_ge nr alloc : nr <= alloc_grow nr alloc ∧ alloc <= alloc_grow nr alloc ∨ alloc < 0.
Proof.
  unfold alloc_grow, alloc_nr. destruct (Z.ltb_spec alloc nr); [|lia].
  destruct (Z.ltb_spec ((alloc + 16) * 3 / 2) nr); Z.div_mod_to_equations; lia.
Qed.

(** git-compat-util.h: sums and products of sizes that overflow stop the
    program. *)
Definition st_add (a b : Z) : outcome Z := if 2 ^ 64 - 1 - a <? b then Die else Ret (a + b).
Definition st_mult (a b : Z) : outcome Z :=
  if negb (a =? 0) && ((2 ^ 64 - 1) / a <? b) then Die else Ret (a * b).

Lemma st_add_ok a b : a + b < 2 ^ 64 → st_add a b = Ret (a + b).
Proof. intros. unfold st_add. destruct (Z.ltb_spec (2 ^ 64 - 1 - a) b); [lia|done]. Qed.
Lemma st_mult_ok a b : 0 <= a → 0 <= b → a * b < 2 ^ 64 → st_mult a b = Ret (a * b).
Proof.
  intros. unfold st_mult. destruct (Z.eqb_spec a 0); [done|]. cbn [negb andb].
  destruct (Z.ltb_spec ((2 ^ 64 - 1) / a) b); [|done].
  pose proof (Z.mul_succ_div_gt (2 ^ 64 - 1) a). nia.
Qed.

(** ** Tactics *)

(** Unfold the shared length of list expressions and finish with [lia]. *)
Ltac zlen_simpl :=
  rewrite ?zlen_app, ?zlen_cons, ?zlen_nil, ?zlen_insert, ?zlen_reverse in *.

(** Lengths of list expressions, by rewriting ([zlen]) and by the bounds that
    hold of every length ([zlen_pos]); [zlia] is [lia] after both. *)
Create HintDb zlen.
#[export] Hint Rewrite @zlen_app @zlen_cons @zlen_nil @zlen_insert @zlen_reverse : zlen.
#[export] Hint Rewrite @zlen_zrep @zlen_ztake @zlen_zdrop @zlen_zslice using lia : zlen.

Ltac zlen_pos :=
  repeat match goal with
  | |- context [zlen ?l] =>
      lazymatch goal with H : 0 <= zlen l |- _ => fail | _ => pose proof (zlen_nonneg l) end
  | H : context [zlen ?l] |- _ =>
      lazymatch goal with H : 0 <= zlen l |- _ => fail | _ => pose proof (zlen_nonneg l) end
  end.
Ltac zlia := zlen_pos; autorewrite with zlen in *; zlen_pos; lia.

(** Safety of the memory accesses: [safe_db] discharges the side conditions of
    reads and writes that lie in the array. *)
Create HintDb safe_db.
#[export] Hint Resolve wp_bind wp_weaken : safe_db.
#[export] Hint Extern 1 (_ <= _) => zlia : safe_db.
#[export] Hint Extern 1 (_ < _) => zlia : safe_db.

(** Equality of lists up to the association of [++]. *)
Ltac solve_app := repeat (progress (rewrite <- ?app_assoc; cbn [app])); reflexivity.

(** Case analysis on the boolean comparisons that guard a branch. *)
Ltac bcase :=
  repeat match goal with
  | |- context [?a <=? ?b] => destruct (Z.leb_spec a b)
  | |- context [?a <? ?b] => destruct (Z.ltb_spec a b)
  | |- context [?a =? ?b] => destruct (Z.eqb_spec a b)
  | H : context [?a <=? ?b] |- _ => destruct (Z.leb_spec a b)
  | H : context [?a <? ?b] |- _ => destruct (Z.ltb_spec a b)
  | H : context [?a =? ?b] |- _ => destruct (Z.eqb_spec a b)
  end.

(** Evaluate one comparison of the goal that [lia] decides. *)
Ltac eval_ltb a b :=
  first [rewrite (proj2 (Z.ltb_lt a b)) by lia | rewrite (proj2 (Z.ltb_ge a b)) by lia].
Ltac eval_leb a b :=
  first [rewrite (proj2 (Z.leb_le a b)) by lia | rewrite (proj2 (Z.leb_gt a b)) by lia].
Ltac eval_eqb a b :=
  first [rewrite (proj2 (Z.eqb_eq a b)) by lia | rewrite (proj2 (Z.eqb_neq a b)) by lia].

(** Split a hypothesis that a chain of [let!] returned. *)
Ltac obind_inv :=
  repeat match goal with
  | H : obind _ _ = Ret _ |- _ =>
      let a := fresh "a" in let Ha := fresh "Ha" in
      apply obind_Ret_inv in H; destruct H as (a & Ha & H)
  | H : Ret _ = Ret _ |- _ => injection H as H; subst
  | H : Die = Ret _ |- _ => discriminate H
  | H : UB = Ret _ |- _ => discriminate H
  | H : NoFuel = Ret _ |- _ => discriminate H
  end.

(** ** Bits *)
Lemma land_ones_mod a n m : m = Z.ones n → 0 <= n → Z.land a m = a mod 2 ^ n.
Proof. intros -> ?; by apply Z.land_ones. Qed.

Lemma land_ff a : Z.land a 255 = a mod 256.
Proof. by apply (land_ones_mod a 8). Qed.
Lemma land_7f a : Z.land a 127 = a mod 128.
Proof. by apply (land_ones_mod a 7). Qed.

Lemma testbit_above x n i : 0 <= x < 2 ^ n → n <= i → Z.testbit x i = false.
Proof.
  intros [H0 Hx] Hi; destruct (decide (x = 0)) as [->|]; [apply Z.testbit_0_l|].
  apply Z.bits_above_log2; [done|].
  apply Z.log2_lt_pow2 in Hx; lia.
Qed.

(** [a lor b] of numbers whose set bits do not meet is their sum. *)
Lemma lor_disjoint_add a b n :
  0 <= n → 0 <= b < 2 ^ n → Z.lor (Z.shiftl a n) b = a * 2 ^ n + b.
Proof.
  intros Hn Hb; rewrite <- Z.shiftl_mul_pow2 by done.
  symmetry; apply Z.add_nocarry_lor, Z.bits_inj'; intros i Hi.
  rewrite Z.land_spec, Z.testbit_0_l, Z.shiftl_spec by done.
  destruct (Z.ltb_spec i n).
  - by rewrite (Z.testbit_neg_r a) by lia.
  - rewrite (testbit_above b n) by lia; apply andb_false_r.
Qed.

Lemma lt_pow2_bits x n :
  0 <= n → 0 <= x → (∀ i, n <= i → Z.testbit x i = false) → x < 2 ^ n.
Proof.
  intros Hn Hx H. destruct (decide (x = 0)) as [->|]; [by apply Z.pow_pos_nonneg|].
  apply Z.log2_lt_pow2; [lia|]. apply Z.nle_gt. intros Hle.
  specialize (H _ Hle). rewrite Z.bit_log2 in H; [done|lia].
Qed.

Lemma lxor_lt_pow2 a b n : 0 <= n → 0 <= a < 2 ^ n → 0 <= b < 2 ^ n → 0 <= Z.lxor a b < 2 ^ n.
Proof.
  intros Hn Ha Hb. assert (0 <= Z.lxor a b) by (apply Z.lxor_nonneg; lia).
  split; [done|]. apply lt_pow2_bits; [done..|]. intros i Hi.
  rewrite Z.lxor_spec, !(testbit_above _ n) by done. done.
Qed.

Lemma lor_lt_pow2 a b n : 0 <= n → 0 <= a < 2 ^ n → 0 <= b < 2 ^ n → 0 <= Z.lor a b < 2 ^ n.
Proof.
  intros Hn Ha Hb. assert (0 <= Z.lor a b) by (apply Z.lor_nonneg; lia).
  split; [done|]. apply lt_pow2_bits; [done..|]. intros i Hi.
  rewrite Z.lor_spec, !(testbit_above _ n) by done. done.
Qed.

Lemma land_lt_pow2 a b n : 0 <= n → 0 <= a < 2 ^ n → 0 <= Z.land a b < 2 ^ n.
Proof.
  intros Hn Ha. assert (0 <= Z.land a b) by (apply Z.land_nonneg; lia).
  split; [done|]. apply lt_pow2_bits; [done..|]. intros i Hi.
  by rewrite Z.land_spec, (testbit_above _ n).
Qed.

(** A property of all bytes is decided by evaluating it on the 256 of them. *)
Lemma byte_forall (P : Z → bool) :
  forallb P (map Z.of_nat (List.seq 0 256)) = true → ∀ c, byte_ok c → P c = true.
Proof.
  rewrite forallb_forall. intros H c Hc. apply H, in_map_iff.
  exists (Z.to_nat c). unfold byte_ok in Hc. split; [lia|]. apply in_seq. lia.
Qed.

Lemma byte_forall_eq (f g : Z → Z) :
  forallb (λ c, f c =? g c) (map Z.of_nat (List.seq 0 256)) = true →
  ∀ c, byte_ok c → f c = g c.
Proof. intros H c Hc. apply Z.eqb_eq. by apply (byte_forall (λ c, f c =? g c)). Qed.

(** Close an equation (or a boolean test) about one byte by evaluation. *)
Ltac solve_byte c Hc :=
  revert c Hc;
  match goal with
  | |- ∀ c, byte_ok c → @?P c = true => apply (byte_forall P)
  | |- ∀ c, byte_ok c → @?f c = @?g c => apply (byte_forall_eq f g)
  end;
  vm_compute; reflexivity.

(** Decide [bytes_ok] on concrete data. *)
Lemma bytes_ok_dec l : forallb (λ b, (0 <=? b) && (b <? 256)) l = true → bytes_ok l.
Proof.
  intros Hl. apply Forall_forall. intros b Hb. rewrite forallb_forall in Hl.
  apply list_elem_of_In, Hl, andb_true_iff in Hb as [??]. unfold byte_ok. lia.
Qed.

Lemma bytes_ok_znth l i b : bytes_ok l → znth l i = Some b → byte_ok b.
Proof.
  unfold znth. destruct (0 <=? i); [|done]. intros Hl Hb. by eapply Forall_lookup_1.
Qed.
Lemma rd_byte_wp d l i (Q : Z → Prop) :
  bytes_ok l → 0 <= i < zlen l → (∀ b, znth l i = Some b → byte_ok b → Q b) → wp d (rd l i) Q.
Proof. intros Hl Hi HQ. apply rd_wp; [done|]. intros b Hb. by eapply HQ, bytes_ok_znth. Qed.

(** ** Lists: filtering, mapping and ascending sequences *)
Lemma filter_map {A B} (f : A → B) (P : B → Prop) `{∀ x, Decision (P x)} (l : list A) :
  filter P (f <$> l) = f <$> filter (λ x, P (f x)) l.
Proof.
  induction l as [|x l IH]; [done|]. rewrite fmap_cons, !filter_cons.
  destruct (decide (P (f x))); by rewrite ?fmap_cons, IH.
Qed.

Lemma filter_ext_in {A} (P Q : A → Prop) `{∀ x, Decision (P x), ∀ x, Decision (Q x)} (l : list A) :
  (∀ x, x ∈ l → P x ↔ Q x) → filter P l = filter Q l.
Proof.
  induction l as [|x l IH]; intros Hl; [done|]. rewrite !filter_cons, IH by set_solver.
  pose proof (Hl x ltac:(set_solver)). destruct (decide (P x)), (decide (Q x)); naive_solver.
Qed.

Lemma fmap_ext_in {A B} (f g : A → B) (l : list A) :
  (∀ x, x ∈ l → f x = g x) → f <$> l = g <$> l.
Proof. intros Hl. apply Forall_fmap_ext, Forall_forall. exact Hl. Qed.

Lemma filter_all_in {A} (P : A → Prop) `{∀ x, Decision (P x)} (l : list A) :
  (∀ x, x ∈ l → P x) → filter P l = l.
Proof.
  intros Hl. rewrite (filter_ext_in P (λ _, True)) by naive_solver.
  induction l as [|x l IH]; [done|]. rewrite filter_cons_True by done. f_equal. apply IH. set_solver.
Qed.

Lemma filter_none_in {A} (P : A → Prop) `{∀ x, Decision (P x)} (l : list A) :
  (∀ x, x ∈ l → ¬ P x) → filter P l = [].
Proof.
  induction l as [|x l IH]; intros Hl; [done|]. rewrite filter_cons, decide_False by (apply Hl; set_solver).
  apply IH. set_solver.
Qed.
Lemma StronglySorted_filter_sub {A} (R : relation A) (P : A → Prop) `{∀ x, Decision (P x)} (l : list A) :
  StronglySorted R l → StronglySorted R (filter P l).
Proof.
  induction 1 as [|x l Hl IH Hx]; [constructor|]. rewrite filter_cons.
  destruct (decide (P x)); [|done]. constructor; [done|].
  rewrite Forall_forall in *. intros y [_ Hy]%list_elem_of_filter. auto.
Qed.

Lemma sorted_seq n : ∀ k, StronglySorted Z.lt (Z.of_nat <$> seq k n).
Proof.
  induction n as [|n IH]; intros k; cbn; constructor; [apply IH|].
  apply Forall_fmap, Forall_forall. intros j Hj%elem_of_seq. cbn. lia.
Qed.

Lemma StronglySorted_lt_NoDup l : StronglySorted Z.lt l → NoDup l.
Proof.
  induction 1 as [|x l Hl IH Hx]; constructor; [|done].
  intros Hin. rewrite Forall_forall in Hx. specialize (Hx _ Hin). lia.
Qed.

(** An ascending list is determined by its elements. *)
Lemma sorted_lt_ext l1 l2 :
  StronglySorted Z.lt l1 → StronglySorted Z.lt l2 → (∀ x, x ∈ l1 ↔ x ∈ l2) → l1 = l2.
Proof.
  intros H1 H2 Hl. apply (StronglySorted_unique_strong Z.lt l1 l2); [|done|done|].
  - intros; lia.
  - apply NoDup_Permutation; [by apply StronglySorted_lt_NoDup..|done].
Qed.
