(* ===== verification/Order.v ===== *)
(** * Comparison functions and sorted tables

    The code orders its data with [int]-valued comparison callbacks.  [CmpOrder]
    is what such a callback promises to the containers that call it; [memcmp]
    (which is also [strcmp] on strings without NUL) is the main instance. *)
From stdpp Require Import prelude.
From S2P Require Import Prelude.

(** The result's sign is that of "[a] minus [b]" in a total preorder. *)
Class CmpOrder {A} (cmp : A → A → Z) : Prop := {
  cmp_flip a b : cmp a b < 0 ↔ 0 < cmp b a;
  cmp_le_trans a b c : cmp a b <= 0 → cmp b c <= 0 → cmp a c <= 0;
}.
(** Moreover only equal things compare equal. *)
Class CmpEq {A} (cmp : A → A → Z) : Prop := cmp_eq a b : cmp a b = 0 → a = b.

Section cmp.
Context {A} (cmp : A → A → Z) `{!CmpOrder cmp}.

Lemma cmp_refl a : cmp a a = 0.
Proof. pose proof (cmp_flip a a). lia. Qed.
Lemma cmp_zero_sym a b : cmp a b = 0 → cmp b a = 0.
Proof. pose proof (cmp_flip a b). pose proof (cmp_flip b a). lia. Qed.
Lemma cmp_lt_le_trans a b c : cmp a b < 0 → cmp b c <= 0 → cmp a c < 0.
Proof.
  intros H1 H2. pose proof (cmp_flip a b). pose proof (cmp_flip a c). pose proof (cmp_flip c a).
  destruct (decide (cmp a c < 0)); [done|].
  pose proof (cmp_le_trans b c a H2). lia.
Qed.
Lemma cmp_le_lt_trans a b c : cmp a b <= 0 → cmp b c < 0 → cmp a c < 0.
Proof.
  intros H1 H2. pose proof (cmp_flip b c). pose proof (cmp_flip a c). pose proof (cmp_flip c a).
  destruct (decide (cmp a c < 0)); [done|].
  pose proof (cmp_le_trans c a b). lia.
Qed.
Lemma cmp_lt_trans a b c : cmp a b < 0 → cmp b c < 0 → cmp a c < 0.
Proof. intros. eapply cmp_lt_le_trans; [done|lia]. Qed.

(** A strictly ascending table. *)
Definition ascending (l : list A) : Prop := StronglySorted (λ a b, cmp a b < 0) l.

Lemma sorted_lookup (R : relation A) (l : list A) (i j : nat) a b :
  StronglySorted R l → l !! i = Some a → l !! j = Some b → (i < j)%nat → R a b.
Proof.
  intros Hl. revert i j. induction Hl as [|x l Hl IH Hx]; intros i j Hi Hj Hij; [done|].
  destruct j as [|j]; [lia|]. destruct i as [|i]; cbn in Hi, Hj.
  - injection Hi as ->. rewrite Forall_forall in Hx. by eapply Hx, list_elem_of_lookup_2.
  - eapply IH; [done..|lia].
Qed.
Lemma ascending_lookup (l : list A) (i j : nat) a b :
  ascending l → l !! i = Some a → l !! j = Some b → (i < j)%nat → cmp a b < 0.
Proof. apply sorted_lookup. Qed.
Lemma ascending_znth (l : list A) i j a b :
  ascending l → znth l i = Some a → znth l j = Some b → i < j → cmp a b < 0.
Proof.
  unfold znth. intros Hl Hi Hj Hij.
  destruct (Z.leb_spec 0 i); [|done]. destruct (Z.leb_spec 0 j); [|done].
  eapply (ascending_lookup l (Z.to_nat i) (Z.to_nat j)); [done..|lia].
Qed.

(** A sorted table that may hold duplicates. *)
Definition nondec (l : list A) : Prop := StronglySorted (λ a b, cmp a b <= 0) l.
Lemma ascending_nondec l : ascending l → nondec l.
Proof.
  induction 1 as [|x l Hl IH Hx]; constructor; [done|]. eapply Forall_impl; [exact Hx|]. cbn. lia.
Qed.
Lemma nondec_znth (l : list A) i j a b :
  nondec l → znth l i = Some a → znth l j = Some b → i < j → cmp a b <= 0.
Proof.
  unfold znth. intros Hl Hi Hj Hij.
  destruct (Z.leb_spec 0 i); [|done]. destruct (Z.leb_spec 0 j); [|done].
  apply (sorted_lookup _ l (Z.to_nat i) (Z.to_nat j) a b Hl Hi Hj ltac:(lia)).
Qed.

(** [split_at l x lo hi]: what lies below [lo] sorts before [x], what lies at
    [hi] or above sorts after it.  This is the invariant of every binary
    search of the code. *)
Definition split_at (l : list A) (x : A) (lo hi : Z) : Prop :=
  (∀ i y, i < lo → znth l i = Some y → cmp y x < 0) ∧
  (∀ i y, hi <= i → znth l i = Some y → 0 < cmp y x).

Lemma split_at_init l x : split_at l x 0 (zlen l).
Proof. split; intros i y Hi Hy%znth_Some_lt; lia. Qed.
Lemma split_at_hi l x lo hi mi y :
  nondec l → split_at l x lo hi → znth l mi = Some y → 0 < cmp y x → split_at l x lo mi.
Proof.
  intros Hl [H1 H2] Hy Hc. split; [done|]. intros i z Hi Hz.
  destruct (decide (i = mi)) as [->|]; [congruence|].
  assert (cmp y z <= 0) by (eapply nondec_znth; [done..|lia]).
  apply cmp_flip. eapply cmp_lt_le_trans; [|done]. by apply cmp_flip.
Qed.
Lemma split_at_lo l x lo hi mi y :
  nondec l → split_at l x lo hi → znth l mi = Some y → cmp y x < 0 → split_at l x (mi + 1) hi.
Proof.
  intros Hl [H1 H2] Hy Hc. split; [|done]. intros i z Hi Hz.
  destruct (decide (i = mi)) as [->|]; [congruence|].
  assert (cmp z y <= 0) by (eapply nondec_znth; [done..|lia]). by eapply cmp_le_lt_trans.
Qed.

(** Where the two bounds meet, [x] is absent and that is its place. *)
Lemma split_at_absent l x p : split_at l x p p → ∀ y, y ∈ l → cmp y x ≠ 0.
Proof.
  intros [H1 H2] y [i Hi]%list_elem_of_lookup.
  destruct (decide (Z.of_nat i < p)) as [Hp|Hp].
  - specialize (H1 (Z.of_nat i) y Hp). rewrite znth_of_nat in H1. specialize (H1 Hi). lia.
  - specialize (H2 (Z.of_nat i) y ltac:(lia)). rewrite znth_of_nat in H2. specialize (H2 Hi). lia.
Qed.

Lemma znth_take_lookup (l : list A) (p : Z) y : 0 <= p → y ∈ ztake p l → ∃ i, i < p ∧ znth l i = Some y.
Proof.
  intros Hp [k Hk]%list_elem_of_lookup. exists (Z.of_nat k).
  unfold ztake in Hk. apply lookup_take_Some in Hk as [Hk Hlt]. rewrite znth_of_nat. split; [lia|done].
Qed.
Lemma znth_drop_lookup (l : list A) (p : Z) y : 0 <= p → y ∈ zdrop p l → ∃ i, p <= i ∧ znth l i = Some y.
Proof.
  intros Hp [k Hk]%list_elem_of_lookup. exists (p + Z.of_nat k). split; [lia|].
  rewrite <- znth_zdrop by lia. by rewrite znth_of_nat.
Qed.

(** Inserting at the place found, and removing, keep the table ascending. *)
Lemma ascending_insert l x p :
  ascending l → 0 <= p → split_at l x p p → ascending (ztake p l ++ x :: zdrop p l).
Proof.
  intros Hl Hp [H1 H2]. unfold ascending in *. rewrite <- (ztake_zdrop p l) in Hl.
  apply StronglySorted_app in Hl as (Hcross & Ht & Hd). apply StronglySorted_app. split_and!; [|done|].
  - intros a b Ha Hb. apply elem_of_cons in Hb as [->|Hb]; [|by apply Hcross].
    destruct (znth_take_lookup l p a Hp Ha) as (i & Hi & Hz). by eapply H1.
  - apply StronglySorted_cons. split; [|done]. apply Forall_forall. intros b Hb.
    destruct (znth_drop_lookup l p b Hp Hb) as (i & Hi & Hz). apply cmp_flip. by eapply H2.
Qed.
Lemma ascending_app_sub a b c : ascending (a ++ b ++ c) → ascending (a ++ c).
Proof.
  unfold ascending. rewrite !StronglySorted_app. intros (H1 & H2 & H3 & H4 & H5).
  split_and!; [|done|done]. intros x y Hx Hy. apply H1; [done|]. apply elem_of_app. by right.
Qed.
End cmp.

(** ** [memcmp] and [strcmp] *)
Fixpoint memcmp (a b : list Z) : Z :=
  match a, b with
  | [], [] => 0
  | [], _ => -1
  | _, [] => 1
  | x :: a, y :: b => if x <? y then -1 else if y <? x then 1 else memcmp a b
  end.

#[export] Instance memcmp_order : CmpOrder memcmp.
Proof.
  split.
  - intros a. induction a as [|x a IH]; intros [|y b]; cbn; try lia.
    specialize (IH b). destruct (Z.ltb_spec x y), (Z.ltb_spec y x); lia.
  - intros a. induction a as [|x a IH]; intros [|y b] [|z c]; cbn; try lia.
    specialize (IH b c).
    destruct (Z.ltb_spec x y), (Z.ltb_spec y z), (Z.ltb_spec x z); try lia;
    destruct (Z.ltb_spec y x), (Z.ltb_spec z y), (Z.ltb_spec z x); lia.
Qed.
#[export] Instance memcmp_eq : CmpEq memcmp.
Proof.
  intros a. induction a as [|x a IH]; intros [|y b]; cbn; try lia; try done.
  destruct (Z.ltb_spec x y), (Z.ltb_spec y x); try lia. intros E. f_equal; [lia|auto].
Qed.

Lemma memcmp_range a b : memcmp a b = -1 ∨ memcmp a b = 0 ∨ memcmp a b = 1.
Proof.
  revert b. induction a as [|x a IH]; intros [|y b]; cbn; auto.
  destruct (x <? y), (y <? x); auto.
Qed.
Lemma memcmp_app p a b : memcmp (p ++ a) (p ++ b) = memcmp a b.
Proof. induction p as [|x p IH]; [done|]. cbn. by rewrite Z.ltb_irrefl, IH. Qed.

(** ** The [qsort] of the C library

    It is only promised to return the elements in some order that the comparison
    function accepts. *)
Class Qsort : Type := qsort : ∀ {A : Type}, (A → A → Z) → list A → list A.
Class QsortLaws (Q : Qsort) : Prop := {
  qsort_perm {A} (cmp : A → A → Z) l : qsort cmp l ≡ₚ l;
  qsort_sorted {A} (cmp : A → A → Z) `{!CmpOrder cmp} l : StronglySorted (λ a b, cmp a b <= 0) (qsort cmp l);
}.

(** One that satisfies the promise, to instantiate the interface with. *)
Fixpoint cmp_insert {A} (cmp : A → A → Z) (x : A) (l : list A) : list A :=
  match l with
  | [] => [x]
  | y :: l => if cmp x y <=? 0 then x :: y :: l else y :: cmp_insert cmp x l
  end.
Definition insertion_qsort : Qsort := λ A cmp, foldr (cmp_insert cmp) [].

Lemma cmp_insert_perm {A} (cmp : A → A → Z) x l : cmp_insert cmp x l ≡ₚ x :: l.
Proof.
  induction l as [|y l IH]; [done|]. cbn. destruct (cmp x y <=? 0); [done|]. rewrite IH. apply Permutation_swap.
Qed.
Lemma cmp_insert_sorted {A} (cmp : A → A → Z) `{!CmpOrder cmp} x l :
  StronglySorted (λ a b, cmp a b <= 0) l → StronglySorted (λ a b, cmp a b <= 0) (cmp_insert cmp x l).
Proof.
  induction l as [|y l IH]; intros Hs; [repeat constructor|]. cbn.
  apply StronglySorted_inv in Hs as [Hs Hy]. destruct (Z.leb_spec (cmp x y) 0) as [Hle|Hgt].
  - constructor; [by constructor|]. constructor; [done|].
    eapply Forall_impl; [exact Hy|]. cbn. intros z Hz. eapply cmp_le_trans; done.
  - constructor; [auto|]. rewrite cmp_insert_perm. constructor; [pose proof (cmp_flip y x); lia|done].
Qed.
Lemma insertion_qsort_laws : QsortLaws insertion_qsort.
Proof.
  split; intros A cmp.
  - intros l. induction l as [|x l IH]; [done|]. cbn. rewrite cmp_insert_perm. by constructor.
  - intros Hc l. induction l as [|x l IH]; [constructor|]. by apply cmp_insert_sorted.
Qed.
