(* ===== verification/Endian.v ===== *)
(** * Big-endian integers (compat/bswap.h)

    The on-disk formats store integers in network byte order; [be32] and [be64]
    are what [htonl]/[put_be32] and [htonll]/[put_be64] leave in memory, [of_be]
    what [get_be32], [ntohl] and [get_be64] read. *)
From stdpp Require Import prelude.
From S2P Require Import Prelude.

Module Endian.

(** The bytes of [htonl(x)] and [htonll(x)] in memory. *)
Definition be_bytes (n : nat) (x : Z) : list Z :=
  (λ k, u8 (Z.shiftr x (8 * (Z.of_nat n - 1 - Z.of_nat k)))) <$> seq 0 n.
Definition be32 (x : Z) : list Z := be_bytes 4 (u32 x).
Definition be64 (x : Z) : list Z := be_bytes 8 x.

(** [get_be32] and [ntohll] read them back. *)
Definition of_be (bytes : list Z) : Z := foldl (λ acc b, Z.lor (Z.shiftl acc 8) b) 0 bytes.

(** ** Lemmas *)
Lemma of_be_snoc bs b : of_be (bs ++ [b]) = Z.lor (Z.shiftl (of_be bs) 8) b.
Proof. unfold of_be. by rewrite foldl_app. Qed.

Lemma be_bytes_S n x : be_bytes (S n) x = be_bytes n (x / 2 ^ 8) ++ [u8 x].
Proof.
  unfold be_bytes. rewrite seq_S, fmap_app. f_equal.
  - apply fmap_ext_in. intros k Hk%elem_of_seq. f_equal.
    rewrite <- Z.shiftr_div_pow2, Z.shiftr_shiftr by lia. f_equal. lia.
  - cbn [fmap list_fmap Nat.add]. do 2 f_equal. replace (8 * _) with 0 by lia. apply Z.shiftr_0_r.
Qed.

Lemma of_be_bytes n x : 0 <= x < 2 ^ (8 * Z.of_nat n) → of_be (be_bytes n x) = x.
Proof.
  revert x. induction n as [|n IH]; intros x Hx.
  { cbn in *. change (2 ^ (8 * 0)) with 1 in Hx. unfold of_be. cbn. lia. }
  rewrite be_bytes_S, of_be_snoc, IH.
  - unfold u8. rewrite lor_disjoint_add by (try apply Z.mod_pos_bound; lia).
    pose proof (Z.div_mod x (2 ^ 8)). lia.
  - rewrite Nat2Z.inj_succ, Z.mul_succ_r, Z.pow_add_r in Hx by lia. split; [apply Z.div_pos; lia|].
    apply Z.div_lt_upper_bound; lia.
Qed.

Lemma zlen_be_bytes n x : zlen (be_bytes n x) = Z.of_nat n.
Proof. unfold be_bytes, zlen. by rewrite length_fmap, length_seq. Qed.

Lemma be_bytes_ok n x : bytes_ok (be_bytes n x).
Proof.
  apply Forall_fmap, Forall_true. intros k. unfold byte_ok, u8. cbn. apply Z.mod_pos_bound. lia.
Qed.

Lemma of_be_bound bs : bytes_ok bs → 0 <= of_be bs < 2 ^ (8 * zlen bs).
Proof.
  induction bs as [|b bs IH] using rev_ind; intros Hbs.
  { change (zlen ([] : list Z)) with 0. unfold of_be. cbn. lia. }
  apply Forall_app in Hbs as [Hbs [Hb _]%Forall_cons]. specialize (IH Hbs).
  rewrite of_be_snoc, lor_disjoint_add by (done || lia). rewrite zlen_app.
  change (zlen [b]) with 1. rewrite Z.mul_add_distr_l, Z.pow_add_r by (pose proof (zlen_nonneg bs); lia).
  unfold byte_ok in Hb. lia.
Qed.

#[export] Hint Rewrite zlen_be_bytes : zlen.
Lemma zlen_be32 x : zlen (be32 x) = 4.
Proof. apply zlen_be_bytes. Qed.
Lemma zlen_be64 x : zlen (be64 x) = 8.
Proof. apply zlen_be_bytes. Qed.
#[export] Hint Rewrite zlen_be32 zlen_be64 : zlen.
Lemma of_be32 x : 0 <= x < 2 ^ 32 → of_be (be32 x) = x.
Proof. intros. unfold be32, u32. rewrite Z.mod_small by lia. by apply of_be_bytes. Qed.
Lemma of_be64 x : 0 <= x < 2 ^ 64 → of_be (be64 x) = x.
Proof. intros. by apply of_be_bytes. Qed.

End Endian.
