(* ===== verification/Varint.v ===== *)
(** * Variable-length integers (varint.c)

    [decode_varint] and [encode_varint]: the offset-by-one base-128 code used
    for the prefix-compressed names of the index and elsewhere. *)
From stdpp Require Import prelude.
From S2P Require Import Prelude.

Module Varint.

(** [*bufp] is the list of the bytes still to read. *)
Fixpoint decode_loop (buf : list Z) (c val : Z) : option (outcome (Z * list Z)) :=
  if Z.land c 128 =? 0 then Some (Ret (val, buf))
  else
    let val := u64 (val + 1) in
    if (val =? 0) || negb (Z.land val (Z.shiftl 127 57) =? 0) then None
    else
      match buf with
      | [] => Some UB
      | c :: buf => decode_loop buf c (u64 (u64 (Z.shiftl val 7) + Z.land c 127))
      end.

(** On overflow the code returns 0 and leaves [*bufp] where it was. *)
Definition decode_varint (bufp : list Z) : outcome (Z * list Z) :=
  match bufp with
  | [] => UB
  | c :: buf =>
      match decode_loop buf c (Z.land c 127) with
      | None => Ret (0, bufp)
      | Some r => r
      end
  end.

(** The loop [while (value >>= 7)] fills [varint] downwards from [pos]; [pos]
    is unsigned, so that a decrement of 0 wraps and the write is out of
    bounds. *)
Fixpoint encode_loop (fuel : nat) (varint : list Z) (pos value : Z) : outcome (list Z * Z) :=
  match fuel with
  | O => NoFuel
  | S fuel =>
      let value := Z.shiftr value 7 in
      if value =? 0 then Ret (varint, pos)
      else
        let pos := u32 (pos - 1) in
        let value := u64 (value - 1) in
        let! varint := wr varint pos (Z.lor 128 (Z.land value 127)) in
        encode_loop fuel varint pos value
  end.

(** The bytes written to [buf]; their number is the returned [int]. *)
Definition encode_varint (value : Z) : outcome (list Z) :=
  let varint := zrep 16 0 in
  let pos := 15 in
  let! varint := wr varint pos (Z.land value 127) in
  let! (varint, pos) := encode_loop 11 varint pos value in
  Ret (zdrop pos varint).

(** ** The code as a pure function

    [ref_bytes fuel v acc] puts in front of [acc] the bytes that stand for the
    part of [v] above its low seven bits. *)
Fixpoint ref_bytes (fuel : nat) (v : Z) (acc : list Z) : list Z :=
  match fuel with
  | O => acc
  | S fuel =>
      let v := Z.shiftr v 7 in
      if v =? 0 then acc
      else ref_bytes fuel (v - 1) (Z.lor 128 (Z.land (v - 1) 127) :: acc)
  end.

Lemma shiftr7 v : Z.shiftr v 7 = v / 128.
Proof. by rewrite Z.shiftr_div_pow2 by lia. Qed.
Lemma shiftl7 v : Z.shiftl v 7 = v * 128.
Proof. by rewrite Z.shiftl_mul_pow2 by lia. Qed.
Lemma cont_bit x : Z.lor 128 (Z.land x 127) = 128 + x mod 128.
Proof.
  rewrite land_7f. pose proof (Z.mod_pos_bound x 128).
  change 128 with (Z.shiftl 1 7) at 1. rewrite lor_disjoint_add; lia.
Qed.
Lemma cont_bit_set x : Z.land (Z.lor 128 (Z.land x 127)) 128 = 128.
Proof. Z.bitblast. Qed.
Lemma no_cont_bit x : Z.land (Z.land x 127) 128 = 0.
Proof. rewrite <- Z.land_assoc; apply Z.land_0_r. Qed.
Lemma cont_low x : Z.land (Z.lor 128 (Z.land x 127)) 127 = Z.land x 127.
Proof. rewrite cont_bit, !land_7f. Z.div_mod_to_equations; lia. Qed.

Lemma byte_split c : byte_ok c → c = Z.land c 128 + Z.land c 127.
Proof. intros Hc. solve_byte c Hc. Qed.
Lemma byte_cont c :
  byte_ok c → Z.land c 128 ≠ 0 → c = Z.lor 128 (Z.land c 127).
Proof.
  intros Hc Hbit. rewrite (byte_split c Hc) at 1. rewrite cont_bit, land_7f.
  apply Z.add_cancel_r.
  apply Z.eqb_neq in Hbit. revert c Hc Hbit. clear.
  enough (∀ c, byte_ok c → implb (negb (Z.land c 128 =? 0)) (Z.land c 128 =? 128) = true) as H.
  { intros c Hc Hb; specialize (H c Hc). rewrite Hb in H. by apply Z.eqb_eq in H. }
  apply byte_forall; vm_compute; reflexivity.
Qed.

Lemma ref_bytes_app fuel v acc rest :
  ref_bytes fuel v acc ++ rest = ref_bytes fuel v (acc ++ rest).
Proof.
  revert v acc; induction fuel as [|fuel IH]; intros v acc; simpl; [done|].
  case_match; [done|]. by rewrite IH.
Qed.

(** The array loop writes exactly the pure code's bytes, and its index stays in
    bounds. *)
Lemma encode_loop_ref fuel varint pos v acc :
  zlen varint < 2 ^ 32 → Z.of_nat fuel <= pos < zlen varint →
  0 <= v < 2 ^ (7 * Z.of_nat fuel) → v < 2 ^ 64 →
  zdrop pos varint = acc →
  ∃ varint' pos', encode_loop (S fuel) varint pos v = Ret (varint', pos') ∧
    zdrop pos' varint' = ref_bytes (S fuel) v acc.
Proof.
  revert varint pos v acc.
  induction fuel as [|fuel IH]; intros varint pos v acc Hlen Hpos Hv Hv64 Hacc.
  { assert (v = 0) as -> by lia. by exists varint, pos. }
  remember (S fuel) as fuel' eqn:E. simpl encode_loop. simpl ref_bytes. rewrite shiftr7.
  destruct (Z.eqb_spec (v / 128) 0); [by exists varint, pos|].
  assert (0 < v / 128 < 2 ^ 64) by (Z.div_mod_to_equations; lia).
  assert (v / 128 < 2 ^ (7 * Z.of_nat fuel)).
  { apply Z.div_lt_upper_bound; [lia|].
    change 128 with (2 ^ 7). rewrite <- Z.pow_add_r by lia.
    replace (7 + 7 * Z.of_nat fuel) with (7 * Z.of_nat fuel') by lia. lia. }
  unfold u64, u32. rewrite !Z.mod_small by lia.
  rewrite wr_ok by lia; simpl obind. subst fuel'. apply IH; rewrite ?zlen_insert; try lia.
  rewrite (zdrop_cons _ _ (Z.lor 128 (Z.land (v / 128 - 1) 127)));
    [|lia|apply znth_insert_eq; lia].
  f_equal. replace (pos - 1 + 1) with pos by lia. rewrite <- Hacc.
  unfold zdrop; rewrite drop_insert_lt; [done|lia].
Qed.

Lemma encode_varint_ref v :
  0 <= v < 2 ^ 64 → encode_varint v = Ret (ref_bytes 11 v [Z.land v 127]).
Proof.
  intros Hv. unfold encode_varint. rewrite wr_ok by (vm_compute; split; congruence).
  cbn [obind].
  destruct (encode_loop_ref 10 (<[Z.to_nat 15 := Z.land v 127]> (zrep 16 0)) 15 v
    [Z.land v 127]) as (varint' & pos' & -> & <-); done || lia.
Qed.

(** The test [MSB(val, 7)] of the decoders. *)
Lemma msb7_zero x : 0 <= x < 2 ^ 57 → Z.land x (Z.shiftl 127 57) = 0.
Proof.
  intros Hx. apply Z.bits_inj'; intros i Hi. rewrite Z.land_spec, Z.testbit_0_l, Z.shiftl_spec by lia.
  destruct (Z.ltb_spec i 57); [rewrite (Z.testbit_neg_r 127) by lia; apply andb_false_r|].
  by rewrite (testbit_above x 57) by lia.
Qed.
Lemma msb7_small x : 0 <= x < 2 ^ 64 → Z.land x (Z.shiftl 127 57) = 0 → x < 2 ^ 57.
Proof.
  intros Hx Hmsb. apply Z.nle_gt; intros Hge.
  assert (x / 2 ^ 57 = 0); [|Z.div_mod_to_equations; lia].
  rewrite <- Z.shiftr_div_pow2 by lia. apply Z.bits_inj'; intros i Hi.
  rewrite Z.testbit_0_l, Z.shiftr_spec by lia.
  destruct (decide (i < 7)); [|apply (testbit_above _ 64); lia].
  apply (f_equal (λ y, Z.testbit y (i + 57))) in Hmsb.
  rewrite Z.land_spec, Z.testbit_0_l, Z.shiftl_spec in Hmsb by lia.
  change 127 with (Z.ones 7) in Hmsb.
  rewrite Z.ones_spec_low, andb_true_r in Hmsb by lia. done.
Qed.

(** Reading back the bytes of [v] in front of a byte [b] reaches the loop of the
    decoder with [b] as the current byte and [v] as the accumulated value. *)
Lemma decode_ref fuel v b tl rest :
  0 <= v < 2 ^ (7 * Z.of_nat fuel) → v < 2 ^ 64 → Z.land b 127 = Z.land v 127 →
  decode_varint (ref_bytes fuel v (b :: tl) ++ rest) =
  match decode_loop (tl ++ rest) b v with
  | None => Ret (0, ref_bytes fuel v (b :: tl) ++ rest)
  | Some r => r
  end.
Proof.
  revert v b tl; induction fuel as [|fuel IH]; intros v b tl Hv Hv64 Hb.
  { assert (v = 0) as -> by lia. simpl in *. by rewrite Hb. }
  simpl ref_bytes; rewrite shiftr7.
  destruct (Z.eqb_spec (v / 128) 0).
  { simpl. rewrite Hb, land_7f, Z.mod_small by (Z.div_mod_to_equations; lia). done. }
  assert (0 < v / 128 < 2 ^ 57) by (Z.div_mod_to_equations; lia).
  rewrite IH; [|..].
  2:{ split; [lia|]. enough (v / 128 < 2 ^ (7 * Z.of_nat fuel)) by lia.
      apply Z.div_lt_upper_bound; [lia|].
      change 128 with (2 ^ 7). rewrite <- Z.pow_add_r by lia.
      replace (7 + 7 * Z.of_nat fuel) with (7 * Z.of_nat (S fuel)) by lia. lia. }
  2: lia. 2: apply cont_low.
  cbn [app decode_loop]. rewrite cont_bit_set. simpl (128 =? 0).
  replace (u64 (v / 128 - 1 + 1)) with (v / 128) by (unfold u64; rewrite Z.mod_small; lia).
  destruct (Z.eqb_spec (v / 128) 0); [done|].
  rewrite msb7_zero by lia.
  simpl orb. cbn [negb Z.eqb].
  replace (u64 (u64 (Z.shiftl (v / 128) 7) + Z.land b 127)) with v; [done|].
  rewrite Hb, shiftl7, land_7f. unfold u64.
  rewrite (Z.mod_small (_ * _)) by lia. rewrite Z.mod_small; Z.div_mod_to_equations; lia.
Qed.

(** The bytes a successful decode consumed are the code of the value it
    returned: [p] is what was consumed before the current byte [c]. *)
Lemma decode_loop_canonical fuel buf c val rest v p :
  byte_ok c → bytes_ok buf → 0 <= val < 2 ^ 64 → Z.land c 127 = Z.land val 127 →
  (∀ k, fuel <= k → p ++ [c] = ref_bytes k val [c])%nat →
  decode_loop buf c val = Some (Ret (v, rest)) →
  ∃ q, p ++ c :: buf = q ++ rest ∧ q ≠ [] ∧ 0 <= v < 2 ^ 64 ∧
    ∃ k0, (∀ k, k0 <= k → q = ref_bytes k v [Z.land v 127])%nat.
Proof.
  revert fuel c val p; induction buf as [|c2 buf IH]; intros fuel c val p Hc Hbuf Hval Hlow Hp;
    simpl; destruct (Z.eqb_spec (Z.land c 128) 0) as [E|E].
  1, 3: intros [= -> <-]; exists (p ++ [c]); rewrite <- app_assoc; split; [done|];
    split; [by destruct p|]; split; [done|]; exists fuel; intros k ?; rewrite <- Hlow;
    replace (Z.land c 127) with c by (pose proof (byte_split c Hc); lia); auto.
  - by repeat case_match.
  - set (val1 := u64 (val + 1)). destruct ((val1 =? 0) || _) eqn:Eov; [done|].
    apply orb_false_iff in Eov as [Hv1 Hmsb]. apply Z.eqb_neq in Hv1.
    apply negb_false_iff, Z.eqb_eq in Hmsb.
    apply Forall_cons in Hbuf as [Hc2 Hbuf].
    assert (0 <= val1 < 2 ^ 64) by (apply Z.mod_pos_bound; lia).
    assert (val1 = val + 1) as Ev1.
    { unfold val1, u64 in *. destruct (decide (val + 1 = 2 ^ 64)) as [e|]; [by rewrite e in Hv1|].
      apply Z.mod_small; lia. }
    pose proof (msb7_small val1 ltac:(done) Hmsb) as Hlt.
    set (val2 := u64 _). assert (val2 = val1 * 128 + Z.land c2 127) as Ev2.
    { pose proof (Z.mod_pos_bound c2 128).
      unfold val2, u64. rewrite shiftl7, land_7f, (Z.mod_small (_ * _)), Z.mod_small; lia. }
    assert (0 <= Z.land c2 127 < 128) by (rewrite land_7f; apply Z.mod_pos_bound; lia).
    intros Hdec. destruct (IH (S fuel) c2 val2 (p ++ [c])) as (q & Hq & Hrest); try done.
    + lia.
    + rewrite Ev2, !land_7f. rewrite Z.add_comm, Z.mod_add, Z.mod_mod; lia.
    + intros [|k] Hk; [lia|]. simpl. rewrite shiftr7.
      replace (val2 / 128) with (val + 1) by (Z.div_mod_to_equations; lia).
      destruct (Z.eqb_spec (val + 1) 0); [lia|]. replace (val + 1 - 1) with val by lia.
      rewrite <- Hlow, <- (byte_cont c Hc E). rewrite (Hp k) by lia.
      by rewrite ref_bytes_app.
    + exists q. rewrite <- Hq, <- app_assoc. done.
Qed.

Lemma ref_bytes_enough n m v acc :
  0 <= v < 2 ^ (7 * Z.of_nat n) → (n <= m)%nat → ref_bytes m v acc = ref_bytes n v acc.
Proof.
  revert m v acc; induction n as [|n IH]; intros [|m] v acc Hv Hm; try lia; try done.
  - assert (v = 0) as -> by lia. done.
  - simpl. rewrite shiftr7. destruct (Z.eqb_spec (v / 128) 0); [done|].
    apply IH; [|lia]. split; [Z.div_mod_to_equations; lia|].
    enough (v / 128 < 2 ^ (7 * Z.of_nat n)) by lia. apply Z.div_lt_upper_bound; [lia|].
    change 128 with (2 ^ 7). rewrite <- Z.pow_add_r by lia.
    replace (7 + 7 * Z.of_nat n) with (7 * Z.of_nat (S n)) by lia. lia.
Qed.

Lemma ref_bytes_ok k v acc : bytes_ok acc → bytes_ok (ref_bytes k v acc).
Proof.
  revert v acc. induction k as [|k IH]; intros v acc Hacc; simpl; [done|].
  case_match; [done|]. apply IH. constructor; [|done].
  rewrite cont_bit. unfold byte_ok. pose proof (Z.mod_pos_bound (Z.shiftr v 7 - 1) 128). lia.
Qed.
Lemma ref_decodes v rest :
  0 <= v < 2 ^ 64 → decode_varint (ref_bytes 11 v [Z.land v 127] ++ rest) = Ret (v, rest).
Proof.
  intros. rewrite decode_ref by (simpl; try rewrite !land_7f, ?Z.mod_mod; lia).
  destruct rest; cbn [app decode_loop]; by rewrite no_cont_bit.
Qed.
Lemma zlen_ref_bytes k v acc : zlen acc <= zlen (ref_bytes k v acc) <= zlen acc + Z.of_nat k.
Proof.
  revert v acc. induction k as [|k IH]; intros v acc; simpl; [lia|].
  case_match; [lia|]. match goal with |- _ <= zlen (ref_bytes _ ?v ?a) <= _ => pose proof (IH v a) end. zlia.
Qed.

(** ** Properties *)

(** Round trip of the offset encoding: every 64-bit value is encoded, into
    bytes, and decoding them gives the value back and stops right after them. *)
Theorem varint_roundtrip v rest :
  0 <= v < 2 ^ 64 →
  ∃ bytes, encode_varint v = Ret bytes ∧ bytes_ok bytes ∧
    decode_varint (bytes ++ rest) = Ret (v, rest).
Proof.
  intros Hv. exists (ref_bytes 11 v [Z.land v 127]). split; [by apply encode_varint_ref|]. split.
  - apply ref_bytes_ok. constructor; [|constructor]. rewrite land_7f.
    pose proof (Z.mod_pos_bound v 128). unfold byte_ok; lia.
  - by apply ref_decodes.
Qed.

Lemma varint_roundtrip_witness :
  ∃ bytes, encode_varint 1234567 = Ret bytes ∧ bytes_ok bytes ∧
    decode_varint (bytes ++ [1; 2]) = Ret (1234567, [1; 2]).
Proof. apply varint_roundtrip. vm_compute. split; congruence. Defined.

(** The encoding is canonical: bytes that decode to a value are the encoding
    of that value, so no value has two encodings ([decode_varint] reports a value
    that does not fit by not consuming anything). *)
Theorem varint_canonical buf v rest :
  bytes_ok buf → decode_varint buf = Ret (v, rest) → rest ≠ buf →
  ∃ bytes, buf = bytes ++ rest ∧ encode_varint v = Ret bytes.
Proof.
  destruct buf as [|c buf]; [done|]. intros [Hc Hbuf]%Forall_cons; simpl.
  destruct (decode_loop _ _ _) as [r|] eqn:E; [|naive_solver]. intros -> Hne.
  destruct (decode_loop_canonical 0 buf c (Z.land c 127) rest v []) as (q & Hq & _ & Hv & k0 & Hk);
    try done.
  - pose proof (Z.mod_pos_bound c 128). rewrite land_7f; lia.
  - rewrite !land_7f, Z.mod_mod; lia.
  - intros [|k] _; [done|]. simpl.
    rewrite shiftr7, land_7f, (Z.div_small (c mod 128)) by (apply Z.mod_pos_bound; lia). done.
  - exists q; split; [by rewrite <- Hq|]. rewrite encode_varint_ref by done. f_equal.
    rewrite (Hk (k0 + 11)%nat) by lia. symmetry; apply (ref_bytes_enough 11); [simpl; lia|lia].
Qed.

Lemma varint_canonical_witness :
  ∃ bytes, [0x80; 0x01; 9] = bytes ++ [9] ∧ encode_varint 129 = Ret bytes.
Proof.
  apply varint_canonical; [apply bytes_ok_dec; reflexivity|reflexivity|discriminate].
Defined.

End Varint.
