(* ===== verification/Delta.v ===== *)
(** * Replaying deltas (delta.h, patch-delta.c)

    [get_delta_hdr_size] reads the two size headers of a delta, [patch_delta]
    replays its commands.  The second half of the file gives deltas an abstract
    syntax ([dcmd]) with a semantics ([exec_cmds]) and shows that [patch_delta]
    implements it. *)
From stdpp Require Import prelude.
From S2P Require Import Prelude.

Module Delta.

Definition DELTA_SIZE_MIN : Z := 4.

(** git-compat-util.h: the shift is only checked for widths below 64; a wider
    one is not defined in C. *)
Definition st_left_shift (a shift : Z) : outcome Z :=
  if (shift <? 64) && (Z.shiftr (2 ^ 64 - 1) shift <? a) then Die
  else if 64 <=? shift then UB
  else Ret (u64 (Z.shiftl a shift)).

(** [unsigned long] has 64 bits. *)
Definition cast_size_t_to_ulong (a : Z) : outcome Z :=
  if negb (a =? u64 a) then Die else Ret (u64 a).

(** [data] and [top] are offsets into [buf], which may be longer than [top]. *)
Fixpoint hdr_loop (fuel : nat) (buf : list Z) (data top size i : Z) : outcome (Z * Z) :=
  match fuel with
  | O => NoFuel
  | S fuel =>
      let! cmd := rd buf data in
      let data := data + 1 in
      let! sh := st_left_shift (Z.land cmd 127) i in
      let size := Z.lor size sh in
      let i := i + 7 in
      if negb (Z.land cmd 128 =? 0) && (data <? top)
      then hdr_loop fuel buf data top size i
      else Ret (size, data)
  end.

Definition get_delta_hdr_size (buf : list Z) (data top : Z) : outcome (Z * Z) :=
  let! (size, data) := hdr_loop (S (Z.to_nat (top - data))) buf data top 0 0 in
  let! size := cast_size_t_to_ulong size in
  Ret (size, data).

(** The macro [PARSE_CP_PARAM]; [None] is its [goto bad_length]. *)
Definition parse_cp_param (buf : list Z) (top cmd bit shift : Z) (st : option (Z * Z))
  : outcome (option (Z * Z)) :=
  match st with
  | None => Ret None
  | Some (var, data) =>
      if negb (Z.land cmd bit =? 0) then
        if top <=? data then Ret None
        else
          let! b := rd buf data in
          Ret (Some (Z.lor var (u32 (Z.shiftl b shift)), data + 1))
      else Ret (Some (var, data))
  end.

(** The two parameters of a copy command: four offset bytes, three size bytes. *)
Definition parse_cp_off (buf : list Z) (top cmd data : Z) : outcome (option (Z * Z)) :=
  let! st := parse_cp_param buf top cmd 1 0 (Some (0, data)) in
  let! st := parse_cp_param buf top cmd 2 8 st in
  let! st := parse_cp_param buf top cmd 4 16 st in
  parse_cp_param buf top cmd 8 24 st.

Definition parse_cp_size (buf : list Z) (top cmd data : Z) : outcome (option (Z * Z)) :=
  let! st := parse_cp_param buf top cmd 16 0 (Some (0, data)) in
  let! st := parse_cp_param buf top cmd 32 8 st in
  parse_cp_param buf top cmd 64 16 st.

(** The state of the command loop: position in the delta, destination buffer,
    position in it, bytes the result still misses. *)
Record pstate := PState {
  p_data : Z;
  p_dst : list Z;
  p_out : Z;
  p_size : Z;
}.

(** One command; [inr None] is the [goto bad_length]/[bad] exit and [inr (Some
    _)] the regular end of the loop. *)
Definition patch_step (src_buf : list Z) (src_size : Z) (delta_buf : list Z) (top : Z)
    (st : pstate) : outcome (pstate + option pstate) :=
  let '(PState data dst out size) := st in
  if data <? top then
    let! cmd := rd delta_buf data in
    let data := data + 1 in
    if negb (Z.land cmd 128 =? 0) then
      let! off := parse_cp_off delta_buf top cmd data in
      match off with
      | None => Ret (inr None)
      | Some (cp_off, data) =>
          let! sz := parse_cp_size delta_buf top cmd data in
          match sz with
          | None => Ret (inr None)
          | Some (cp_size, data) =>
              let cp_size := if cp_size =? 0 then 65536 else cp_size in
              if (2 ^ 64 - 1 - cp_off <? cp_size) || (src_size <? cp_off + cp_size)
                 || (size <? cp_size)
              then Ret (inr None)
              else
                let! bytes := rd_range src_buf cp_off cp_size in
                let! dst := memcpy dst out bytes in
                Ret (inl (PState data dst (out + cp_size) (size - cp_size)))
          end
      end
    else if negb (cmd =? 0) then
      if (size <? cmd) || (top - data <? cmd) then Ret (inr None)
      else
        let! bytes := rd_range delta_buf data cmd in
        let! dst := memcpy dst out bytes in
        Ret (inl (PState (data + cmd) dst (out + cmd) (size - cmd)))
    else Ret (inr None)
  else Ret (inr (Some st)).

(** [None] is the [NULL] the function returns for a delta it rejects; the
    buffer [xmallocz] allocates has a byte more than asked for. *)
Definition patch_delta (src_buf : list Z) (src_size : Z) (delta_buf : list Z) (delta_size : Z)
  : outcome (option (list Z)) :=
  if delta_size <? DELTA_SIZE_MIN then Ret None
  else
    let top := delta_size in
    let! (size, data) := get_delta_hdr_size delta_buf 0 top in
    if negb (size =? src_size) then Ret None
    else
      let! (size, data) := get_delta_hdr_size delta_buf data top in
      if size =? 2 ^ 64 - 1 then Die
      else
        let dst_buf := zrep (size + 1) 0 in
        let! r := iter (S (Z.to_nat (top - data))) (patch_step src_buf src_size delta_buf top)
                    (PState data dst_buf 0 size) in
        match r with
        | None => Ret None
        | Some (PState data dst out size) =>
            if negb (data =? top) || negb (size =? 0) then Ret None
            else Ret (Some (ztake out dst))
        end.

(** ** Abstract deltas *)
Inductive dcmd : Type :=
| DCopy (off size : Z)
| DInsert (l : list Z).

Definition exec_cmd (src : list Z) (c : dcmd) : list Z :=
  match c with
  | DCopy off size => zslice off size src
  | DInsert l => l
  end.
Definition exec_cmds (src : list Z) (cs : list dcmd) : list Z := concat (exec_cmd src <$> cs).
Lemma exec_cmds_snoc src cs c : exec_cmds src (cs ++ [c]) = exec_cmds src cs ++ exec_cmd src c.
Proof. unfold exec_cmds. rewrite fmap_app, concat_app. cbn. by rewrite app_nil_r. Qed.

Definition cmd_ok (src_size : Z) (c : dcmd) : Prop :=
  match c with
  | DCopy off size => 0 <= off < 2 ^ 32 ∧ 1 <= size <= 65536 ∧ off + size <= src_size
  | DInsert l => 1 <= zlen l <= 127 ∧ bytes_ok l
  end.

(** The bytes of one command: the parameter bytes that are zero are left out,
    and so is the size 65536. *)
Definition param (bit byte : Z) : Z * list Z := if byte =? 0 then (0, []) else (bit, [byte]).
Definition copy_params (off size : Z) : list (Z * list Z) :=
  [ param 1 (u8 off); param 2 (u8 (Z.shiftr off 8)); param 4 (u8 (Z.shiftr off 16));
    param 8 (u8 (Z.shiftr off 24)); param 16 (u8 size); param 32 (u8 (Z.shiftr size 8)) ].
Definition enc_cmd (c : dcmd) : list Z :=
  match c with
  | DCopy off size =>
      let ps := copy_params off size in
      foldr (λ p acc, Z.lor p.1 acc) 128 ps :: concat (snd <$> ps)
  | DInsert l => zlen l :: l
  end.
Definition enc_cmds (cs : list dcmd) : list Z := concat (enc_cmd <$> cs).

(** A size header: base 128, least significant digit first. *)
Fixpoint enc_size (fuel : nat) (l : Z) : list Z :=
  match fuel with
  | O => [l]
  | S fuel => if 128 <=? l then Z.lor (u8 l) 128 :: enc_size fuel (Z.shiftr l 7) else [l]
  end.

Definition enc_delta (src_size trg_size : Z) (cs : list dcmd) : list Z :=
  enc_size 10 src_size ++ enc_size 10 trg_size ++ enc_cmds cs.

Example patch_small :
  let src := [104; 101; 108; 108; 111; 32; 119; 111] in
  let d := enc_delta 8 7 [DCopy 1 4; DInsert [33; 63]; DCopy 0 1] in
  patch_delta src 8 d (zlen d) = Ret (Some [101; 108; 108; 111; 33; 63; 104]).
Proof. vm_compute. reflexivity. Qed.

(** ** Reading a size header *)

Lemma st_left_shift_ok a i :
  0 <= a → 0 <= i < 64 → a * 2 ^ i < 2 ^ 64 → st_left_shift a i = Ret (a * 2 ^ i).
Proof.
  intros Ha Hi Hlt. unfold st_left_shift. assert (0 < 2 ^ i) by (apply Z.pow_pos_nonneg; lia).
  rewrite Z.shiftr_div_pow2, Z.shiftl_mul_pow2 by lia.
  destruct (Z.ltb_spec ((2 ^ 64 - 1) / 2 ^ i) a) as [H'|].
  { pose proof (Z.mul_succ_div_gt (2 ^ 64 - 1) (2 ^ i)). nia. }
  rewrite andb_false_r. destruct (Z.leb_spec 64 i); [lia|].
  unfold u64. rewrite Z.mod_small by nia. done.
Qed.

(** The head of a slice of the buffer. *)
Lemma rd_zdrop {A} (buf : list A) i x tl :
  0 <= i → zdrop i buf = x :: tl → rd buf i = Ret x ∧ zdrop (i + 1) buf = tl.
Proof.
  intros Hi H. assert (znth buf i = Some x) as Hx.
  { rewrite <- (Z.add_0_r i), <- znth_zdrop, H by lia. done. }
  split; [by apply rd_znth|]. rewrite (zdrop_cons _ _ _ Hi Hx) in H. by injection H.
Qed.

Lemma zdrop_app_inv {A} (buf : list A) i l1 l2 :
  0 <= i → zdrop i buf = l1 ++ l2 → zdrop (i + zlen l1) buf = l2.
Proof.
  intros Hi H. rewrite <- zdrop_zdrop, H by (pose proof (zlen_nonneg l1); lia).
  by apply zdrop_app_len'.
Qed.

Lemma lor_low_high a b i : 0 <= i → 0 <= a < 2 ^ i → 0 <= b → Z.lor a (b * 2 ^ i) = a + b * 2 ^ i.
Proof.
  intros. rewrite Z.lor_comm, <- Z.shiftl_mul_pow2, lor_disjoint_add by lia.
  rewrite Z.shiftl_mul_pow2; lia.
Qed.

Lemma high_bit_byte l : Z.land (Z.lor (u8 l) 128) 127 = l mod 128 ∧
  Z.land (Z.lor (u8 l) 128) 128 = 128.
Proof.
  split; [|Z.bitblast].
  assert (byte_ok (u8 l)) as Hb by (unfold u8, byte_ok; apply Z.mod_pos_bound; lia).
  transitivity (u8 l mod 128); [generalize (u8 l), Hb; intros c Hc; solve_byte c Hc|].
  unfold u8. change (2 ^ 8) with 256. Z.div_mod_to_equations; lia.
Qed.

Lemma hdr_loop_enc fuel k buf data top size i v rest :
  0 <= data → zdrop data buf = enc_size k v ++ rest → data + zlen (enc_size k v) <= top →
  zlen (enc_size k v) <= Z.of_nat fuel → 0 <= i → 0 <= size < 2 ^ i →
  0 <= v < 2 ^ (7 * Z.of_nat k + 7) → (v = 0 → i < 64) → size + v * 2 ^ i < 2 ^ 64 →
  hdr_loop fuel buf data top size i = Ret (size + v * 2 ^ i, data + zlen (enc_size k v)).
Proof.
  revert fuel data size i v; induction k as [|k IH];
    intros fuel data size i v Hd Hbuf Htop Hfuel Hi Hsize Hv Hi64 Hlt.
  all: assert (i < 64) by (destruct (decide (v = 0)); [by auto|];
    apply Z.nle_gt; intros Hge; assert (2 ^ 64 <= 2 ^ i) by (apply Z.pow_le_mono_r; lia); nia).
  all: assert (0 < 2 ^ i) by (apply Z.pow_pos_nonneg; lia).
  - destruct fuel as [|fuel]; [cbn [enc_size] in Hfuel; zlen_simpl; lia|]. cbn [enc_size app hdr_loop] in *.
    destruct (rd_zdrop _ _ _ _ Hd Hbuf) as [-> Hrest]. cbn [obind].
    rewrite land_7f, Z.mod_small by lia.
    rewrite st_left_shift_ok by lia. cbn [obind]. rewrite lor_low_high by lia.
    assert (Z.land v 128 = 0) as ->.
    { rewrite <- (Z.mod_small v 128), <- land_7f, <- Z.land_assoc by lia. apply Z.land_0_r. }
    done.
  - simpl enc_size in *. destruct fuel as [|fuel].
    { pose proof (zlen_nonneg (enc_size k (Z.shiftr v 7))).
      destruct (128 <=? v); zlen_simpl; lia. }
    cbn [hdr_loop].
    destruct (Z.leb_spec 128 v).
    + cbn [app] in Hbuf. destruct (rd_zdrop _ _ _ _ Hd Hbuf) as [-> Hrest]. cbn [obind].
      destruct (high_bit_byte v) as [-> ->].
      assert (Z.shiftr v 7 = v / 128) as Esh by (by rewrite Z.shiftr_div_pow2 by lia).
      rewrite Esh in *.
      rewrite st_left_shift_ok by (Z.div_mod_to_equations; nia).
      cbn [obind]. rewrite lor_low_high by (Z.div_mod_to_equations; lia).
      simpl (negb (128 =? 0)). rewrite zlen_cons in *.
      assert (1 <= zlen (enc_size k (v / 128))) by
        (destruct k; simpl; [done|case_match; rewrite zlen_cons;
          [pose proof (zlen_nonneg (enc_size k (Z.shiftr (v / 128) 7))); lia|done]]).
      destruct (Z.ltb_spec (data + 1) top); [|lia]. cbn [andb].
      assert (2 ^ (i + 7) = 128 * 2 ^ i) by (rewrite Z.pow_add_r by lia; lia).
      assert (v = 128 * (v / 128) + v mod 128) by (Z.div_mod_to_equations; lia).
      assert (0 <= v mod 128 < 128) by (Z.div_mod_to_equations; lia).
      rewrite (IH fuel (data + 1) _ (i + 7) (v / 128));
        [f_equal; f_equal; [nia|lia]|try done; try lia; try nia..].
      split; [lia|]. apply Z.div_lt_upper_bound; [lia|].
      change 128 with (2 ^ 7). rewrite <- Z.pow_add_r by lia.
      replace (7 + (7 * Z.of_nat k + 7)) with (7 * Z.of_nat (S k) + 7) by lia. lia.
    + cbn [app] in Hbuf. destruct (rd_zdrop _ _ _ _ Hd Hbuf) as [-> Hrest]. cbn [obind].
      rewrite land_7f, Z.mod_small by lia.
      rewrite st_left_shift_ok by lia. cbn [obind]. rewrite lor_low_high by lia.
      assert (Z.land v 128 = 0) as ->.
      { rewrite <- (Z.mod_small v 128), <- land_7f, <- Z.land_assoc by lia. apply Z.land_0_r. }
      done.
Qed.

Lemma get_delta_hdr_size_enc buf data top v rest :
  0 <= data → 0 <= v < 2 ^ 64 → zdrop data buf = enc_size 10 v ++ rest →
  data + zlen (enc_size 10 v) <= top →
  get_delta_hdr_size buf data top = Ret (v, data + zlen (enc_size 10 v)).
Proof.
  intros Hd Hv Hbuf Htop. unfold get_delta_hdr_size.
  rewrite (hdr_loop_enc _ 10 _ _ _ _ _ v rest); try done; try lia.
  cbn [obind]. rewrite Z.add_0_l, Z.pow_0_r, Z.mul_1_r. unfold cast_size_t_to_ulong, u64.
  rewrite Z.mod_small by lia. by rewrite Z.eqb_refl.
Qed.

(** ** Reading a command *)

Lemma parse_cp_param_enc buf top cmd bit shift var data byte rest :
  0 <= data → byte_ok byte → 0 <= shift <= 24 →
  (Z.land cmd bit =? 0) = (byte =? 0) →
  zdrop data buf = (param bit byte).2 ++ rest → data + zlen (param bit byte).2 <= top →
  parse_cp_param buf top cmd bit shift (Some (var, data)) =
    Ret (Some (Z.lor var (Z.shiftl byte shift), data + zlen (param bit byte).2)).
Proof.
  intros Hd Hbyte Hsh Hbit Hbuf Htop. unfold parse_cp_param, param in *. rewrite Hbit.
  destruct (Z.eqb_spec byte 0) as [->|]; cbn [negb snd] in *.
  { by rewrite Z.shiftl_0_l, Z.lor_0_r, zlen_nil, Z.add_0_r. }
  rewrite zlen_cons, zlen_nil in *. destruct (Z.leb_spec top data); [lia|].
  cbn [app] in Hbuf. destruct (rd_zdrop _ _ _ _ Hd Hbuf) as [-> _]. cbn [obind].
  unfold u32. rewrite Z.mod_small; [done|]. rewrite Z.shiftl_mul_pow2 by lia.
  assert (0 < 2 ^ shift <= 2 ^ 24) by (split; [apply Z.pow_pos_nonneg|apply Z.pow_le_mono_r]; lia).
  unfold byte_ok in Hbyte. nia.
Qed.

Lemma param_len bit b : 0 <= zlen (param bit b).2 <= 1.
Proof. unfold param; destruct (b =? 0); vm_compute; split; congruence. Qed.

(** The opcode byte tells which parameters follow. *)
Definition opcode (off size : Z) : Z := foldr (λ p acc, Z.lor p.1 acc) 128 (copy_params off size).

Lemma opcode_bits off size :
  (Z.land (opcode off size) 1 =? 0) = (u8 off =? 0) ∧
  (Z.land (opcode off size) 2 =? 0) = (u8 (Z.shiftr off 8) =? 0) ∧
  (Z.land (opcode off size) 4 =? 0) = (u8 (Z.shiftr off 16) =? 0) ∧
  (Z.land (opcode off size) 8 =? 0) = (u8 (Z.shiftr off 24) =? 0) ∧
  (Z.land (opcode off size) 16 =? 0) = (u8 size =? 0) ∧
  (Z.land (opcode off size) 32 =? 0) = (u8 (Z.shiftr size 8) =? 0) ∧
  Z.land (opcode off size) 64 = 0 ∧ Z.land (opcode off size) 128 = 128 ∧
  byte_ok (opcode off size).
Proof.
  unfold opcode, copy_params, param, byte_ok. cbn [foldr].
  destruct (u8 off =? 0), (u8 (Z.shiftr off 8) =? 0), (u8 (Z.shiftr off 16) =? 0),
    (u8 (Z.shiftr off 24) =? 0), (u8 size =? 0), (u8 (Z.shiftr size 8) =? 0);
    vm_compute; intuition congruence.
Qed.

Lemma opcode_64 off size : Z.land (opcode off size) 64 = 0.
Proof. apply opcode_bits. Qed.
Lemma opcode_cp off size : Z.land (opcode off size) 128 = 128.
Proof. apply opcode_bits. Qed.

Lemma u8_byte x : byte_ok (u8 x).
Proof. unfold u8, byte_ok. apply Z.mod_pos_bound. lia. Qed.

Lemma shiftl0 x : Z.shiftl x 0 = x * 2 ^ 0.
Proof. rewrite Z.shiftl_0_r. lia. Qed.

Lemma recombine_off off :
  0 <= off < 2 ^ 32 →
  Z.lor (Z.lor (Z.lor (Z.lor 0 (Z.shiftl (u8 off) 0)) (Z.shiftl (u8 (Z.shiftr off 8)) 8))
    (Z.shiftl (u8 (Z.shiftr off 16)) 16)) (Z.shiftl (u8 (Z.shiftr off 24)) 24) = off.
Proof.
  intros H. rewrite Z.lor_0_l, Z.shiftl_0_r, !Z.shiftr_div_pow2, !Z.shiftl_mul_pow2 by lia.
  unfold u8. rewrite (lor_low_high _ _ 8), (lor_low_high _ _ 16), (lor_low_high _ _ 24);
    Z.div_mod_to_equations; lia.
Qed.

Lemma recombine_size size :
  1 <= size <= 65536 →
  let x := Z.lor (Z.lor 0 (Z.shiftl (u8 size) 0)) (Z.shiftl (u8 (Z.shiftr size 8)) 8) in
  (if x =? 0 then 65536 else x) = size.
Proof.
  intros H. cbv zeta. rewrite Z.lor_0_l, Z.shiftl_0_r, !Z.shiftr_div_pow2, !Z.shiftl_mul_pow2 by lia.
  unfold u8. rewrite !lor_low_high by (Z.div_mod_to_equations; lia). change (2 ^ 8) with 256.
  destruct (Z.eqb_spec (size mod 256 + (size / 256) mod 256 * 256) 0);
    Z.div_mod_to_equations; lia.
Qed.

Ltac split_buf Hbuf :=
  let H1 := fresh "Hnext" in
  match type of Hbuf with
  | zdrop ?d ?b = ?l1 ++ ?l2 =>
      assert (zdrop (d + zlen l1) b = l2) as H1 by (apply zdrop_app_inv; [lia|done])
  end.

Lemma patch_copy src src_size buf top data dst out size off len rest :
  0 <= data → zlen src = src_size → src_size < 2 ^ 64 →
  cmd_ok src_size (DCopy off len) → len <= size →
  0 <= out → out + size < zlen dst →
  zdrop data buf = enc_cmd (DCopy off len) ++ rest →
  data + zlen (enc_cmd (DCopy off len)) <= top →
  ∃ dst', patch_step src src_size buf top (PState data dst out size) =
    Ret (inl (PState (data + zlen (enc_cmd (DCopy off len))) dst' (out + len) (size - len))) ∧
    zlen dst' = zlen dst ∧ ztake (out + len) dst' = ztake out dst ++ zslice off len src.
Proof.
  intros Hd Hsrc Hsz (Hoff & Hlen & Hin) Hle Hout Hdst Hbuf Htop.
  cbn [enc_cmd] in *. change (foldr _ _ _) with (opcode off len) in *.
  unfold patch_step. rewrite zlen_cons in *.
  set (params := concat _) in *.
  assert (0 <= zlen params) by apply zlen_nonneg.
  eval_ltb data top. rewrite <- app_comm_cons in Hbuf.
  destruct (rd_zdrop _ _ _ _ Hd Hbuf) as [-> Hb]. cbn [obind]. rewrite opcode_cp. cbn [Z.eqb negb].
  unfold params, copy_params in *. cbn [fmap list_fmap concat snd] in *.
  rewrite !zlen_app, zlen_nil in *. rewrite <- !app_assoc in Hb.
  repeat match goal with |- context [param ?b ?x] =>
    lazymatch goal with _ : 0 <= zlen (param b x).2 <= 1 |- _ => fail
    | _ => pose proof (param_len b x) end end.
  unfold parse_cp_off, parse_cp_size.
  erewrite (parse_cp_param_enc _ _ _ 1); [|lia|apply u8_byte|lia|apply opcode_bits|exact Hb|lia].
  split_buf Hb. cbn [obind].
  erewrite (parse_cp_param_enc _ _ _ 2); [|lia|apply u8_byte|lia|apply opcode_bits|exact Hnext|lia].
  split_buf Hnext. cbn [obind].
  erewrite (parse_cp_param_enc _ _ _ 4); [|lia|apply u8_byte|lia|apply opcode_bits|exact Hnext0|lia].
  split_buf Hnext0. cbn [obind].
  erewrite (parse_cp_param_enc _ _ _ 8); [|lia|apply u8_byte|lia|apply opcode_bits|exact Hnext1|lia].
  split_buf Hnext1. cbn [obind].
  erewrite (parse_cp_param_enc _ _ _ 16); [|lia|apply u8_byte|lia|apply opcode_bits|exact Hnext2|lia].
  split_buf Hnext2. cbn [obind].
  erewrite (parse_cp_param_enc _ _ _ 32); [|lia|apply u8_byte|lia|apply opcode_bits|exact Hnext3|lia].
  cbn [obind]. unfold parse_cp_param at 1. rewrite opcode_64. cbn [Z.eqb negb obind].
  rewrite recombine_off by done. pose proof (recombine_size len Hlen) as Hrs. cbv zeta in Hrs.
  rewrite Hrs.
  eval_ltb (2 ^ 64 - 1 - off) len. eval_ltb src_size (off + len). eval_ltb size len. cbn [orb].
  assert (zlen (zslice off len src) = len) as Hsl by (apply zlen_zslice; lia).
  unfold rd_range, memcpy. rewrite Hsrc.
  eval_leb 0 off. eval_leb 0 len. eval_leb (off + len) src_size.
  cbn [andb obind]. rewrite Hsl.
  eval_leb 0 out. eval_leb (out + len) (zlen dst). cbn [andb obind].
  eexists. split; [do 3 f_equal; rewrite ?zlen_nil; lia|]. split.
  - rewrite !zlen_app, zlen_ztake, Hsl, zlen_zdrop by lia. lia.
  - rewrite app_assoc. apply ztake_app_len'. rewrite zlen_app, zlen_ztake, Hsl; lia.
Qed.

Lemma patch_insert src src_size buf top data dst out size l rest :
  0 <= data → cmd_ok src_size (DInsert l) → zlen l <= size →
  0 <= out → out + size < zlen dst →
  zdrop data buf = enc_cmd (DInsert l) ++ rest →
  data + zlen (enc_cmd (DInsert l)) <= top →
  ∃ dst', patch_step src src_size buf top (PState data dst out size) =
    Ret (inl (PState (data + zlen (enc_cmd (DInsert l))) dst' (out + zlen l) (size - zlen l))) ∧
    zlen dst' = zlen dst ∧ ztake (out + zlen l) dst' = ztake out dst ++ l.
Proof.
  intros Hd (Hl & Hbytes) Hle Hout Hdst Hbuf Htop. cbn [enc_cmd] in *.
  rewrite <- app_comm_cons in Hbuf. rewrite zlen_cons in *.
  unfold patch_step. eval_ltb data top.
  destruct (rd_zdrop _ _ _ _ Hd Hbuf) as [-> Hb]. cbn [obind].
  assert (Z.land (zlen l) 128 = 0) as ->.
  { rewrite <- (Z.mod_small (zlen l) 128), <- land_7f, <- Z.land_assoc by lia. apply Z.land_0_r. }
  cbn [Z.eqb negb]. eval_eqb (zlen l) 0. cbn [negb].
  eval_ltb size (zlen l). eval_ltb (top - (data + 1)) (zlen l). cbn [orb].
  assert (zslice (data + 1) (zlen l) buf = l) as Esl.
  { unfold zslice. rewrite Hb. by apply ztake_app_len'. }
  assert (data + 1 + zlen l <= zlen buf).
  { destruct (decide (zlen buf <= data + 1)) as [Hge|Hlt].
    - rewrite zdrop_all in Hb by done. destruct l; [rewrite zlen_nil in Hl; lia|done].
    - apply (f_equal zlen) in Hb. rewrite zlen_zdrop, zlen_app in Hb by lia.
      pose proof (zlen_nonneg rest). lia. }
  unfold rd_range, memcpy. eval_leb 0 (data + 1). eval_leb 0 (zlen l).
  eval_leb (data + 1 + zlen l) (zlen buf). cbn [andb obind]. rewrite Esl.
  eval_leb 0 out. eval_leb (out + zlen l) (zlen dst). cbn [andb obind].
  eexists. split; [do 3 f_equal; lia|]. split.
  - rewrite !zlen_app, zlen_ztake, zlen_zdrop by lia. lia.
  - rewrite app_assoc. apply ztake_app_len'. rewrite zlen_app, zlen_ztake; lia.
Qed.

Lemma exec_cmd_len src c : cmd_ok (zlen src) c → 1 <= zlen (exec_cmd src c) <= 65536.
Proof.
  destruct c as [off size|l]; cbn; intros H; [|lia].
  rewrite zlen_zslice; lia.
Qed.

(** One command of the loop, whichever it is. *)
Lemma patch_cmd src buf top data dst out size c rest :
  0 <= data → zlen src < 2 ^ 64 → cmd_ok (zlen src) c → zlen (exec_cmd src c) <= size →
  0 <= out → out + size < zlen dst →
  zdrop data buf = enc_cmd c ++ rest → data + zlen (enc_cmd c) <= top →
  ∃ dst', patch_step src (zlen src) buf top (PState data dst out size) =
    Ret (inl (PState (data + zlen (enc_cmd c)) dst'
           (out + zlen (exec_cmd src c)) (size - zlen (exec_cmd src c)))) ∧
    zlen dst' = zlen dst ∧
    ztake (out + zlen (exec_cmd src c)) dst' = ztake out dst ++ exec_cmd src c.
Proof.
  intros Hd Hsz Hc Hle Hout Hdst Hbuf Htop. destruct c as [off len|l].
  - pose proof Hc as (? & ? & ?). cbn [exec_cmd] in *.
    rewrite zlen_zslice in * by lia. by eapply patch_copy.
  - by eapply patch_insert.
Qed.

Lemma enc_cmd_pos c : 1 <= zlen (enc_cmd c).
Proof.
  destruct c as [off len|l]; cbn [enc_cmd]; rewrite zlen_cons;
    match goal with |- context [zlen ?x] => pose proof (zlen_nonneg x) end; lia.
Qed.

Lemma patch_cmds src buf top data dst out size cs fuel :
  0 <= data → zlen src < 2 ^ 64 → Forall (cmd_ok (zlen src)) cs →
  zlen (exec_cmds src cs) = size → 0 <= out → out + size < zlen dst →
  data + zlen (enc_cmds cs) = top → ztake (top - data) (zdrop data buf) = enc_cmds cs →
  zlen (enc_cmds cs) < Z.of_nat fuel →
  ∃ dst', iter fuel (patch_step src (zlen src) buf top) (PState data dst out size) =
    Ret (Some (PState top dst' (out + size) 0)) ∧
    ztake (out + size) dst' = ztake out dst ++ exec_cmds src cs.
Proof.
  revert data dst out size fuel. induction cs as [|c cs IH];
    intros data dst out size fuel Hd Hsz Hcs Hsize Hout Hdst Htop Hbuf Hfuel;
    (destruct fuel as [|fuel]; [pose proof (zlen_nonneg (enc_cmds [])); try pose proof
       (zlen_nonneg (enc_cmds (c :: cs))); lia|]).
  - cbn [enc_cmds exec_cmds concat fmap list_fmap] in *. rewrite zlen_nil in *.
    exists dst. cbn [iter]. unfold patch_step at 1. eval_ltb data top. cbn [obind].
    rewrite app_nil_r. subst size. rewrite Z.add_0_r. split; [|done]. do 3 f_equal; lia.
  - apply Forall_cons in Hcs as [Hc Hcs]. cbn [enc_cmds exec_cmds concat fmap list_fmap] in *.
    change (concat (enc_cmd <$> cs)) with (enc_cmds cs) in *.
    change (concat (exec_cmd src <$> cs)) with (exec_cmds src cs) in *.
    rewrite !zlen_app in *.
    pose proof (enc_cmd_pos c). pose proof (zlen_nonneg (enc_cmds cs)).
    pose proof (zlen_nonneg (exec_cmds src cs)). pose proof (exec_cmd_len _ _ Hc).
    assert (zdrop data buf = enc_cmd c ++ (enc_cmds cs ++ zdrop (top - data) (zdrop data buf))) as Hb.
    { rewrite app_assoc, <- Hbuf, ztake_zdrop. done. }
    destruct (patch_cmd src buf top data dst out size c _ Hd Hsz Hc ltac:(lia) Hout Hdst Hb ltac:(lia))
      as (dst1 & Hstep & Hlen1 & Hout1).
    cbn [iter]. rewrite Hstep. cbn [obind].
    destruct (IH (data + zlen (enc_cmd c)) dst1 (out + zlen (exec_cmd src c))
      (size - zlen (exec_cmd src c)) fuel) as (dst2 & -> & Hdst2); try done; try lia.
    + apply (f_equal (zdrop (zlen (enc_cmd c)))) in Hb.
      rewrite zdrop_zdrop, zdrop_app_len in Hb by lia. rewrite Hb.
      apply ztake_app_len'. lia.
    + exists dst2. rewrite <- Z.add_assoc, Zplus_minus in *. split; [done|].
      by rewrite Hdst2, Hout1, app_assoc.
Qed.

Lemma enc_delta_min src cs :
  zlen src < 2 ^ 64 → Forall (cmd_ok (zlen src)) cs → 0 < zlen (exec_cmds src cs) →
  4 <= zlen (enc_delta (zlen src) (zlen (exec_cmds src cs)) cs).
Proof.
  intros Hsz Hcs Hpos. unfold enc_delta. rewrite !zlen_app.
  assert (∀ k v, 1 <= zlen (enc_size k v)) as H1.
  { intros k; induction k as [|k IH]; intros v; cbn [enc_size]; [done|].
    case_match; rewrite zlen_cons; [specialize (IH (Z.shiftr v 7))|pose proof (@zlen_nil Z)]; lia. }
  assert (∀ v, 128 <= v → 2 <= zlen (enc_size 10 v)) as H2.
  { intros v Hv. change (enc_size 10 v) with
      (if 128 <=? v then Z.lor (u8 v) 128 :: enc_size 9 (Z.shiftr v 7) else [v]).
    eval_leb 128 v. rewrite zlen_cons. pose proof (H1 9%nat (Z.shiftr v 7)). lia. }
  pose proof (H1 10%nat (zlen src)). pose proof (H1 10%nat (zlen (exec_cmds src cs))).
  destruct cs as [|c cs]; [done|]. apply Forall_cons in Hcs as [Hc _].
  cbn [enc_cmds exec_cmds concat fmap list_fmap] in *. rewrite !zlen_app in *.
  change (concat (enc_cmd <$> cs)) with (enc_cmds cs) in *.
  change (concat (exec_cmd src <$> cs)) with (exec_cmds src cs) in *.
  pose proof (zlen_nonneg (enc_cmds cs)). pose proof (zlen_nonneg (exec_cmds src cs)).
  pose proof (enc_cmd_pos c).
  destruct (decide (2 <= zlen (enc_cmd c))); [lia|].
  destruct c as [off len|l]; cbn [enc_cmd] in *; rewrite zlen_cons in *; [|cbn in Hc; lia].
  destruct Hc as (Hoff & Hlen & Hin).
  enough (128 <= len); [pose proof (H2 (zlen src)); cbn [exec_cmd] in *;
    rewrite zlen_zslice in * by lia; pose proof (H2 (len + zlen (exec_cmds src cs))); lia|].
  apply Z.nlt_ge. intros Hlt.
  cut (1 <= zlen (concat (copy_params off len).*2)); [lia|].
  unfold copy_params. cbn [fmap list_fmap concat]. rewrite !zlen_app, zlen_nil.
  pose proof (param_len 1 (u8 off)). pose proof (param_len 2 (u8 (Z.shiftr off 8))).
  pose proof (param_len 4 (u8 (Z.shiftr off 16))). pose proof (param_len 8 (u8 (Z.shiftr off 24))).
  pose proof (param_len 32 (u8 (Z.shiftr len 8))).
  assert (zlen (param 16 (u8 len)).2 = 1).
  { unfold param, u8. rewrite Z.mod_small by lia. by eval_eqb len 0. }
  lia.
Qed.

(** ** Properties of [patch_delta] *)

Lemma patch_delta_enc src cs extra :
  let trg := exec_cmds src cs in
  let d := enc_delta (zlen src) (zlen trg) cs in
  zlen src < 2 ^ 64 → 0 < zlen trg < 2 ^ 64 - 1 → Forall (cmd_ok (zlen src)) cs →
  patch_delta src (zlen src) (d ++ extra) (zlen d) = Ret (Some trg).
Proof.
  intros trg d Hsz Htrg Hcs. pose proof (enc_delta_min src cs Hsz Hcs (proj1 Htrg)) as Hmin.
  fold trg d in Hmin. unfold patch_delta, DELTA_SIZE_MIN. eval_ltb (zlen d) 4.
  pose proof (zlen_nonneg src). pose proof (zlen_nonneg (enc_cmds cs)).
  assert (zlen d = zlen (enc_size 10 (zlen src)) + (zlen (enc_size 10 (zlen trg)) +
    zlen (enc_cmds cs))) as Hlen by (unfold d, enc_delta; by rewrite !zlen_app).
  pose proof (zlen_nonneg (enc_size 10 (zlen src))). pose proof (zlen_nonneg (enc_size 10 (zlen trg))).
  assert (zdrop 0 (d ++ extra) = enc_size 10 (zlen src) ++
    (enc_size 10 (zlen trg) ++ enc_cmds cs ++ extra)) as Hb0.
  { rewrite zdrop_0. unfold d, enc_delta. by rewrite <- !app_assoc. }
  rewrite (get_delta_hdr_size_enc _ 0 _ (zlen src) _ ltac:(lia) ltac:(lia) Hb0) by lia.
  cbn [obind]. rewrite Z.eqb_refl. cbn [negb].
  assert (Hb1 := zdrop_app_inv _ 0 _ _ ltac:(lia) Hb0).
  rewrite (get_delta_hdr_size_enc _ (0 + zlen (enc_size 10 (zlen src))) _ (zlen trg) _
    ltac:(lia) ltac:(lia) Hb1) by lia.
  cbn [obind]. eval_eqb (zlen trg) (2 ^ 64 - 1).
  assert (Hb2 := zdrop_app_inv _ (0 + zlen (enc_size 10 (zlen src))) _ _ ltac:(lia) Hb1).
  set (data := 0 + _ + _) in *.
  destruct (patch_cmds src (d ++ extra) (zlen d) data (zrep (zlen trg + 1) 0) 0 (zlen trg) cs
    (S (Z.to_nat (zlen d - data)))) as (dst & -> & Hdst); try done; try lia.
  - rewrite zlen_zrep; lia.
  - rewrite Hb2. apply ztake_app_len'. lia.
  - cbn [obind]. rewrite !Z.eqb_refl. cbn [negb orb].
    rewrite Hdst, ztake_0. done.
Qed.

(** ** Arbitrary deltas

    What the bytes of any delta mean, read from the front: [header] is a size in
    base 128 (the last byte of the delta ends it in any case), at most ten bytes
    and below 2^64; [decode] is the sequence of commands. *)
Fixpoint header_at (n : nat) (l : list Z) : option (Z * list Z) :=
  match n, l with
  | S n, b :: rest =>
      if b <? 128 then Some (b, rest)
      else
        match rest with
        | [] => Some (b - 128, [])
        | _ => match header_at n rest with Some (v, r) => Some (b - 128 + 128 * v, r) | None => None end
        end
  | _, _ => None
  end.
Definition header (l : list Z) : option (Z * list Z) :=
  match header_at 10 l with
  | Some (v, r) => if v <? 2 ^ 64 then Some (v, r) else None
  | None => None
  end.
(** A parameter byte is there when its bit of the opcode is set. *)
Definition read_param (cmd bit : Z) (l : list Z) : option (Z * list Z) :=
  if Z.testbit cmd bit then match l with x :: l => Some (x, l) | [] => None end else Some (0, l).
Definition read_copy (cmd : Z) (l : list Z) : option (Z * Z * list Z) :=
  '(o0, l) ← read_param cmd 0 l; '(o1, l) ← read_param cmd 1 l; '(o2, l) ← read_param cmd 2 l; '(o3, l) ← read_param cmd 3 l;
  '(s0, l) ← read_param cmd 4 l; '(s1, l) ← read_param cmd 5 l; '(s2, l) ← read_param cmd 6 l;
  Some (o0 + o1 * 2 ^ 8 + o2 * 2 ^ 16 + o3 * 2 ^ 24, s0 + s1 * 2 ^ 8 + s2 * 2 ^ 16, l).
Fixpoint decode (n : nat) (l : list Z) : option (list dcmd) :=
  match l with
  | [] => Some []
  | cmd :: l =>
      match n with
      | O => None
      | S n =>
          if Z.testbit cmd 7 then
            '(off, size, l) ← read_copy cmd l;
            cs ← decode n l;
            Some (DCopy off (if size =? 0 then 65536 else size) :: cs)
          else if (cmd =? 0) || (zlen l <? cmd) then None
          else
            cs ← decode n (zdrop cmd l);
            Some (DInsert (ztake cmd l) :: cs)
      end
  end.
Definition in_source (src_size : Z) (c : dcmd) : bool :=
  match c with DCopy off size => off + size <=? src_size | DInsert _ => true end.
(** The target: the commands must stay inside the source and give the announced
    number of bytes. *)
Definition replay (src : list Z) (tsize : Z) (body : list Z) : option (list Z) :=
  match decode (length body) body with
  | Some cs => if forallb (in_source (zlen src)) cs && (zlen (exec_cmds src cs) =? tsize) then Some (exec_cmds src cs) else None
  | None => None
  end.
(** Undefined behaviour, or the end of the program. *)
Definition fails {A} (m : outcome A) : Prop := m = UB ∨ m = Die.

Lemma land_testbit c k : 0 <= k → (Z.land c (2 ^ k) =? 0) = negb (Z.testbit c k).
Proof.
  intros Hk. destruct (Z.testbit c k) eqn:E; cbn [negb].
  - apply Z.eqb_neq. intros H. apply (f_equal (λ x, Z.testbit x k)) in H. rewrite Z.land_spec, E, Z.pow2_bits_true, Z.bits_0 in H by lia. done.
  - apply Z.eqb_eq, Z.bits_inj'. intros i Hi. rewrite Z.land_spec, Z.pow2_bits_eqb, Z.bits_0 by lia. destruct (Z.eqb_spec k i) as [<-|]; [by rewrite E|by rewrite andb_false_r].
Qed.
Lemma hdr_byte_split b : byte_ok b → Z.land b 127 = (if b <? 128 then b else b - 128) ∧ (Z.land b 128 =? 0) = (b <? 128).
Proof. intros Hb. unfold byte_ok in Hb. rewrite land_7f. split; [destruct (Z.ltb_spec b 128); Z.div_mod_to_equations; lia|]. pose proof (byte_forall (λ b, Bool.eqb (Z.land b 128 =? 0) (b <? 128)) eq_refl b Hb) as H. by apply Bool.eqb_prop. Qed.
(** The loop over a header, from its byte at shift [i] on. *)
Lemma hdr_loop_exact n : ∀ fuel pre l size i, bytes_ok l → i = 7 * (10 - Z.of_nat n) → (n <= 10)%nat → 0 <= size < 2 ^ i → (n = 10%nat ∨ l ≠ []) → (length l < fuel)%nat →
  let r := hdr_loop fuel (pre ++ l) (zlen pre) (zlen (pre ++ l)) size i in
  match header_at n l with
  | Some (v, rest) => 0 <= v ∧ (∃ h, l = h ++ rest) ∧ if size + v * 2 ^ i <? 2 ^ 64 then r = Ret (size + v * 2 ^ i, zlen (pre ++ l) - zlen rest) else fails r
  | None => fails r
  end.
Proof.
  induction n as [|n IH]; intros fuel pre l size i Hb Hi Hn Hsz Hne Hf; cbn zeta; (destruct fuel as [|fuel]; [lia|]); cbn [hdr_loop header_at].
  { destruct Hne as [?|Hne]; [done|]. destruct l as [|b l]; [done|]. rewrite (rd_at _ pre b l) by done. cbn [obind]. left. unfold st_left_shift. assert (i = 70) as -> by lia. done. }
  destruct l as [|b l]. { left. unfold rd. rewrite app_nil_r. replace (znth pre (zlen pre)) with (@None Z); [done|]. symmetry. apply eq_None_not_Some. intros [x Hx%znth_Some_lt]. lia. }
  rewrite (rd_at _ pre b l) by done. cbn [obind]. apply Forall_cons in Hb as [Hbb Hb]. destruct (hdr_byte_split b Hbb) as [-> ->]. unfold byte_ok in Hbb.
  assert (0 <= i < 64) as Hi64 by lia. assert (0 < 2 ^ i) as Hpi by (apply Z.pow_pos_nonneg; lia). set (d := if b <? 128 then b else b - 128). assert (0 <= d < 128) as Hd by (unfold d; destruct (Z.ltb_spec b 128); lia).
  destruct (Z.ltb_spec (size + d * 2 ^ i) (2 ^ 64)) as [Hfit|Hover].
  - assert (st_left_shift d i = Ret (d * 2 ^ i)) as -> by (apply st_left_shift_ok; lia). cbn [obind]. rewrite lor_low_high by lia. unfold d in *. clear d. destruct (Z.ltb_spec b 128) as [Hlt|Hge]; cbn [negb andb].
    { split_and!; [lia|by exists [b]|]. destruct (Z.ltb_spec (size + b * 2 ^ i) (2 ^ 64)); [|lia]. repeat f_equal. rewrite zlen_app, zlen_cons. lia. }
    rewrite zlen_app, zlen_cons. destruct l as [|b' l].
    { change (zlen (@nil Z)) with 0. destruct (Z.ltb_spec (zlen pre + 1) (zlen pre + (1 + 0))); [lia|]. split_and!; [lia|by exists [b]|]. destruct (Z.ltb_spec (size + (b - 128) * 2 ^ i) (2 ^ 64)); [|lia]. repeat f_equal. lia. }
    set (l' := b' :: l) in *. assert (0 < zlen l') as Hl' by (unfold l'; rewrite zlen_cons; zlen_pos; lia). destruct (Z.ltb_spec (zlen pre + 1) (zlen pre + (1 + zlen l'))); [|lia].
    specialize (IH fuel (pre ++ [b]) l' (size + (b - 128) * 2 ^ i) (i + 7) Hb ltac:(lia) ltac:(lia)). rewrite <-app_assoc in IH. cbn [app] in IH. rewrite !zlen_app, !zlen_cons in IH. change (1 + zlen (@nil Z)) with 1 in IH.
    assert (2 ^ (i + 7) = 128 * 2 ^ i) as E7 by (rewrite Z.pow_add_r by lia; lia). rewrite E7 in IH. specialize (IH ltac:(nia) ltac:(right; done) ltac:(cbn in Hf |- *; lia)). cbn zeta in IH.
    destruct (header_at n l') as [[v rest]|]; [|done]. destruct IH as (Hv & (h & Eh) & IH). split_and!; [lia|exists (b :: h); cbn; by rewrite Eh|].
    replace (size + (b - 128 + 128 * v) * 2 ^ i) with (size + (b - 128) * 2 ^ i + v * (128 * 2 ^ i)) by lia. by destruct (_ <? 2 ^ 64).
  - assert (fails (let! sh := st_left_shift d i in let size := Z.lor size sh in let i := i + 7 in
      if negb (b <? 128) && (zlen pre + 1 <? zlen (pre ++ b :: l)) then hdr_loop fuel (pre ++ b :: l) (zlen pre + 1) (zlen (pre ++ b :: l)) size i else Ret (size, zlen pre + 1))) as Hfail.
    { right. unfold st_left_shift. destruct (Z.ltb_spec i 64); [|lia]. cbn [andb]. rewrite Z.shiftr_div_pow2 by lia. destruct (Z.ltb_spec ((2 ^ 64 - 1) / 2 ^ i) d) as [Hlt|Hge]; [done|]. exfalso.
      pose proof (Z.mul_div_le (2 ^ 64 - 1) (2 ^ i) Hpi) as Hm. assert (2 ^ i * 2 ^ (64 - i) = 2 ^ 64) as Epow by (rewrite <-Z.pow_add_r by lia; f_equal; lia).
      assert (0 < 2 ^ (64 - i)) by (apply Z.pow_pos_nonneg; lia). assert (d < 2 ^ (64 - i)) by nia. nia. }
    unfold d in *. destruct (Z.ltb_spec b 128) as [Hlt|Hge]; cbn [negb andb] in *.
    { split_and!; [lia|by exists [b]|]. by destruct (Z.ltb_spec (size + b * 2 ^ i) (2 ^ 64)); [lia|]. }
    destruct l as [|b' l]; [split_and!; [lia|by exists [b]|]; by destruct (Z.ltb_spec (size + (b - 128) * 2 ^ i) (2 ^ 64)); [lia|]|].
    destruct (header_at n (b' :: l)) as [[v rest]|] eqn:Eh; [|done].
    assert (0 <= v ∧ ∃ h, b' :: l = h ++ rest) as [Hv (h & El)].
    { clear -Eh Hb. revert Eh Hb. generalize (b' :: l). intros k. clear l b'. revert k v. induction n as [|n IH]; intros k v; [done|]. destruct k as [|x k]; [done|]. cbn [header_at]. intros E [Hx Hk]%Forall_cons. unfold byte_ok in Hx. destruct (Z.ltb_spec x 128).
      { injection E as <- <-. split; [lia|by exists [x]]. } destruct k as [|y k]; [injection E as <- <-; split; [lia|by exists [x]]|]. destruct (header_at n (y :: k)) as [[v' r']|] eqn:E'; [|done]. injection E as <- <-. destruct (IH (y :: k) v' E' Hk) as [? (h & ->)]. split; [lia|by exists (x :: h)]. }
    split_and!; [lia|exists (b :: h); cbn; by rewrite El|]. by destruct (Z.ltb_spec (size + (b - 128 + 128 * v) * 2 ^ i) (2 ^ 64)); [nia|].
Qed.
Lemma get_delta_hdr_size_exact pre l : bytes_ok l →
  match header l with
  | Some (v, rest) => 0 <= v < 2 ^ 64 ∧ (∃ h, l = h ++ rest) ∧ get_delta_hdr_size (pre ++ l) (zlen pre) (zlen (pre ++ l)) = Ret (v, zlen (pre ++ l) - zlen rest)
  | None => fails (get_delta_hdr_size (pre ++ l) (zlen pre) (zlen (pre ++ l)))
  end.
Proof.
  intros Hb. unfold header, get_delta_hdr_size. pose proof (hdr_loop_exact 10 (S (Z.to_nat (zlen (pre ++ l) - zlen pre))) pre l 0 0 Hb ltac:(lia) ltac:(lia) ltac:(lia) (or_introl eq_refl)) as H.
  specialize (H ltac:(rewrite zlen_app; unfold zlen; lia)). cbn zeta in H. assert (∀ (m : outcome (Z * Z)), fails m → fails (let! (size, data) := m in let! size := cast_size_t_to_ulong size in Ret (size, data))) as Hf. { by intros m [->| ->]; [left|right]. }
  destruct (header_at 10 l) as [[v rest]|]; [|by apply Hf]. rewrite Z.pow_0_r, Z.mul_1_r, Z.add_0_l in H. destruct H as (Hv & Hh & H). destruct (Z.ltb_spec v (2 ^ 64)); [|by apply Hf]. split_and!; [lia|lia|done|]. rewrite H. cbn [obind].
  unfold cast_size_t_to_ulong, u64. rewrite Z.mod_small by lia. by rewrite Z.eqb_refl.
Qed.

(** Parameters, with [l] the rest of the delta. *)
Lemma parse_cp_param_exact buf l cmd bit k shift var : l `suffix_of` buf → bytes_ok l → 0 <= k → bit = 2 ^ k → 0 <= shift <= 24 →
  parse_cp_param buf (zlen buf) cmd bit shift (Some (var, zlen buf - zlen l)) =
    Ret (match read_param cmd k l with Some (x, l') => Some (Z.lor var (x * 2 ^ shift), zlen buf - zlen l') | None => None end).
Proof.
  intros [pre ->] Hb Hk -> Hs. unfold parse_cp_param, read_param. rewrite land_testbit by done. destruct (Z.testbit cmd k); cbn [negb]; [|by rewrite Z.mul_0_l, Z.lor_0_r].
  rewrite zlen_app. destruct l as [|x l]. { change (zlen (@nil Z)) with 0. destruct (Z.leb_spec (zlen pre + 0) (zlen pre + 0 - 0)); [done|lia]. }
  rewrite zlen_cons. pose proof (zlen_nonneg l). destruct (Z.leb_spec (zlen pre + (1 + zlen l)) (zlen pre + (1 + zlen l) - (1 + zlen l))); [lia|]. rewrite (rd_at _ pre x l) by first [done|lia]. cbn [obind].
  apply Forall_cons in Hb as [Hx _]. unfold byte_ok in Hx. rewrite Z.shiftl_mul_pow2 by lia. assert (0 < 2 ^ shift <= 2 ^ 24) by (split; [apply Z.pow_pos_nonneg|apply Z.pow_le_mono_r]; lia).
  unfold u32. rewrite Z.mod_small by nia. repeat f_equal; lia.
Qed.
Lemma read_param_ok cmd k l x l' buf : read_param cmd k l = Some (x, l') → bytes_ok l → l `suffix_of` buf → 0 <= x < 256 ∧ bytes_ok l' ∧ l' `suffix_of` buf ∧ l' `suffix_of` l.
Proof.
  unfold read_param. destruct (Z.testbit cmd k); [|intros [= <- <-] ? ?; split_and!; [lia|lia|done|done|done]]. destruct l as [|y l]; [done|]. intros [= <- <-] [Hy Hl]%Forall_cons Hs. unfold byte_ok in Hy.
  split_and!; [lia|lia|done|by eapply suffix_cons_l|by apply suffix_cons_r].
Qed.
Lemma parse_cp_param_None buf top cmd bit shift : parse_cp_param buf top cmd bit shift None = Ret None.
Proof. done. Qed.
Lemma parse_cp_param_bind {B} buf l cmd bit k shift var (K : option (Z * Z) → outcome B) : l `suffix_of` buf → bytes_ok l → 0 <= k → bit = 2 ^ k → 0 <= shift <= 24 →
  obind (parse_cp_param buf (zlen buf) cmd bit shift (Some (var, zlen buf - zlen l))) K = K (match read_param cmd k l with Some (x, l') => Some (Z.lor var (x * 2 ^ shift), zlen buf - zlen l') | None => None end).
Proof. intros. by rewrite (parse_cp_param_exact buf l cmd bit k). Qed.
(** One parameter in the code and in the specification. *)
Ltac next_param k l' :=
  match goal with |- context [read_param ?c k ?l] =>
    let E := fresh "E" in let x := fresh "x" in
    first [rewrite (parse_cp_param_bind _ l _ _ k) by first [assumption|reflexivity|lia]|rewrite (parse_cp_param_exact _ l _ _ k) by first [assumption|reflexivity|lia]];
    destruct (read_param c k l) as [[x l']|] eqn:E; [cbn [mbind option_bind obind]; destruct (read_param_ok _ _ _ _ _ _ E ltac:(eassumption) ltac:(eassumption)) as (? & ? & ? & _)|done]
  end.
Lemma parse_cp_exact buf cmd l : l `suffix_of` buf → bytes_ok l →
  (let! off := parse_cp_off buf (zlen buf) cmd (zlen buf - zlen l) in
   match off with None => Ret None | Some (cp_off, data) => let! sz := parse_cp_size buf (zlen buf) cmd data in
     match sz with None => Ret None | Some (cp_size, data) => Ret (Some (cp_off, cp_size, data)) end end) =
  Ret (match read_copy cmd l with Some (off, size, l') => Some (off, size, zlen buf - zlen l') | None => None end).
Proof.
  intros Hs Hb. unfold parse_cp_off, parse_cp_size, read_copy.
  next_param 0 l0. next_param 1 l1. next_param 2 l2. next_param 3 l3. next_param 4 l4. next_param 5 l5. next_param 6 l6.
  rewrite !Z.lor_0_l, !Z.pow_0_r, !Z.mul_1_r. rewrite (lor_low_high x x0 8), (lor_low_high (x + x0 * 2 ^ 8) x1 16), (lor_low_high (x + x0 * 2 ^ 8 + x1 * 2 ^ 16) x2 24), (lor_low_high x3 x4 8), (lor_low_high (x3 + x4 * 2 ^ 8) x5 16) by lia. done.
Qed.
Lemma read_copy_ok cmd l off size l' : read_copy cmd l = Some (off, size, l') → bytes_ok l → 0 <= off < 2 ^ 32 ∧ 0 <= size < 2 ^ 24 ∧ bytes_ok l' ∧ l' `suffix_of` l.
Proof.
  intros E Hb. unfold read_copy in E. assert (l `suffix_of` l) as Hs by done.
  do 7 (match type of E with context [read_param ?c ?k ?x] => let Er := fresh "Er" in destruct (read_param c k x) as [[? ?]|] eqn:Er; cbn [mbind option_bind] in E; [|done];
    destruct (read_param_ok _ _ _ _ _ _ Er ltac:(eassumption) ltac:(eassumption)) as (? & ? & ? & _) end). simplify_eq. split_and!; try done; lia.
Qed.
Lemma memcpy_exact (dst bytes : list Z) out : 0 <= out → out + zlen bytes <= zlen dst →
  ∃ dst', memcpy dst out bytes = Ret dst' ∧ zlen dst' = zlen dst ∧ ztake (out + zlen bytes) dst' = ztake out dst ++ bytes.
Proof.
  intros H1 H2. pose proof (zlen_nonneg bytes). assert (returns (memcpy dst out bytes) (λ dst', zlen dst' = zlen dst ∧ ztake (out + zlen bytes) dst' = ztake out dst ++ bytes)) as W.
  { apply memcpy_wp; [lia..|]. split; [rewrite !zlen_app, zlen_ztake, zlen_zdrop by lia; lia|]. rewrite app_assoc. apply ztake_app_len'. rewrite zlen_app, zlen_ztake; lia. }
  by apply returns_eq in W.
Qed.
Lemma rd_range_slice (l : list Z) from len : 0 <= from → 0 <= len → from + len <= zlen l → rd_range l from len = Ret (zslice from len l).
Proof. intros. unfold rd_range. destruct (Z.leb_spec 0 from), (Z.leb_spec 0 len), (Z.leb_spec (from + len) (zlen l)); try lia. done. Qed.
(** Running the rest of the loop gives what the rest of the commands, if it can
    be read, says. *)
Section replays.
Context (src buf : list Z).
Abbreviation loop fuel st := (iter fuel (patch_step src (zlen src) buf (zlen buf)) st).
Definition replays (commands : option (list dcmd)) (dst : list Z) (out size : Z) (run : outcome (option pstate)) : Prop :=
  match commands with
  | Some cs => let made := exec_cmds src cs in
      if forallb (in_source (zlen src)) cs && (zlen made <=? size)
      then ∃ dst', run = Ret (Some (PState (zlen buf) dst' (out + zlen made) (size - zlen made))) ∧ ztake (out + zlen made) dst' = ztake out dst ++ made
      else run = Ret None
  | None => run = Ret None
  end.
Lemma exec_cmds_cons c cs : exec_cmds src (c :: cs) = exec_cmd src c ++ exec_cmds src cs.
Proof. done. Qed.
Lemma replays_cons c rest dst out size dst1 k : in_source (zlen src) c = true → zlen (exec_cmd src c) <= size → ztake (out + zlen (exec_cmd src c)) dst1 = ztake out dst ++ exec_cmd src c →
  replays rest dst1 (out + zlen (exec_cmd src c)) (size - zlen (exec_cmd src c)) k → replays (cs ← rest; Some (c :: cs)) dst out size k.
Proof.
  intros Hin Hfit Ht H. destruct rest as [cs|]; cbn [mbind option_bind]; [|done]. unfold replays in *. cbn zeta in *. rewrite exec_cmds_cons, zlen_app. cbn [forallb]. rewrite Hin. cbn [andb].
  set (a := zlen (exec_cmd src c)) in *. set (b := zlen (exec_cmds src cs)) in *. replace (a + b <=? size) with (b <=? size - a) by (destruct (Z.leb_spec b (size - a)), (Z.leb_spec (a + b) size); lia || done).
  destruct (_ && _); [|done]. destruct H as (dst' & -> & Ht'). exists dst'. rewrite !Z.add_assoc, Z.sub_add_distr. split; [done|]. by rewrite Ht', Ht, <-app_assoc.
Qed.
Lemma replays_bad c rest dst out size : in_source (zlen src) c = false ∨ size < zlen (exec_cmd src c) → replays (cs ← rest; Some (c :: cs)) dst out size (Ret None).
Proof.
  intros H. destruct rest as [cs|]; cbn [mbind option_bind]; [|done]. unfold replays. cbn zeta. cbn [forallb]. destruct H as [->|H]; [done|]. rewrite exec_cmds_cons, zlen_app. pose proof (zlen_nonneg (exec_cmds src cs)).
  destruct (Z.leb_spec (zlen (exec_cmd src c) + zlen (exec_cmds src cs)) size); [lia|]. by rewrite andb_false_r.
Qed.
(** A command that is carried out. *)
Lemma replays_step c rest l' fuel dst out size tsize : in_source (zlen src) c = true → zlen (exec_cmd src c) <= size → zlen dst = tsize + 1 → 0 <= out → out + size = tsize →
  (∀ dst1, zlen dst1 = tsize + 1 → replays rest dst1 (out + zlen (exec_cmd src c)) (size - zlen (exec_cmd src c)) (loop fuel (PState l' dst1 (out + zlen (exec_cmd src c)) (size - zlen (exec_cmd src c))))) →
  replays (cs ← rest; Some (c :: cs)) dst out size (let! r := (let! dst := memcpy dst out (exec_cmd src c) in Ret (inl (PState l' dst (out + zlen (exec_cmd src c)) (size - zlen (exec_cmd src c))))) in
    match r with inl s' => loop fuel s' | inr x => Ret x end).
Proof.
  intros Hin Hfit Hd Ho Hsum H. destruct (memcpy_exact dst (exec_cmd src c) out Ho ltac:(lia)) as (dst1 & -> & Hd1 & Ht1). cbn [obind]. eapply replays_cons; [done|done|exact Ht1|]. apply H. lia.
Qed.
Lemma patch_loop_exact tsize n : ∀ fuel l dst out size, l `suffix_of` buf → bytes_ok l → (length l <= n)%nat → (length l < fuel)%nat →
  zlen dst = tsize + 1 → 0 <= out → 0 <= size → out + size = tsize → replays (decode n l) dst out size (loop fuel (PState (zlen buf - zlen l) dst out size)).
Proof.
  assert (∀ n fuel l dst out size, l = [] → 0 <= size → replays (decode n l) dst out size (loop (S fuel) (PState (zlen buf - zlen l) dst out size))) as Hnil.
  { intros k fuel l dst out size -> Hsz. assert (decode k [] = Some []) as -> by (by destruct k). change (zlen (@nil Z)) with 0. cbn [iter]. unfold patch_step, replays. rewrite Z.sub_0_r, Z.ltb_irrefl. cbn [obind forallb andb exec_cmds fmap list_fmap concat].
    change (zlen (@nil Z)) with 0. destruct (Z.leb_spec 0 size); [|lia]. exists dst. by rewrite Z.add_0_r, Z.sub_0_r, app_nil_r. }
  induction n as [|n IH]; intros fuel l dst out size Hs Hb Hn Hf Hd Ho Hsz Hsum; (destruct fuel as [|fuel]; [lia|]); (destruct l as [|cmd l]; [by apply Hnil|]); [cbn in Hn; lia|]. clear Hnil. cbn [length] in *.
  pose proof Hb as [Hc Hbl]%Forall_cons. unfold byte_ok in Hc. destruct Hs as [pre Hpre].
  assert (l `suffix_of` buf) as Hs by (exists (pre ++ [cmd]); by rewrite <-app_assoc). assert (zlen buf = zlen pre + (1 + zlen l)) as Hlb by (by rewrite Hpre, zlen_app, zlen_cons).
  pose proof (zlen_nonneg l). pose proof (zlen_nonneg pre). cbn [iter decode]. unfold patch_step at 1. rewrite zlen_cons. destruct (Z.ltb_spec (zlen buf - (1 + zlen l)) (zlen buf)); [|lia].
  rewrite (rd_at buf pre cmd l) by first [done|lia]. cbn [obind]. replace (zlen buf - (1 + zlen l) + 1) with (zlen buf - zlen l) by lia. assert ((Z.land cmd 128 =? 0) = negb (Z.testbit cmd 7)) as -> by (by apply (land_testbit cmd 7)). rewrite negb_involutive. destruct (Z.testbit cmd 7) eqn:E7.
  - pose proof (parse_cp_exact buf cmd l Hs Hbl) as P. destruct (read_copy cmd l) as [[[off sz] l']|] eqn:Er; cbn [mbind option_bind].
    2: { destruct (parse_cp_off _ _ _ _) as [[[o d]|]| | |]; cbn [obind] in *; try done. destruct (parse_cp_size _ _ _ _) as [[[s d']|]| | |]; cbn [obind] in *; done. }
    destruct (read_copy_ok _ _ _ _ _ Er Hbl) as (Hoff & Hsz' & Hbl' & Hsl).
    destruct (parse_cp_off _ _ _ _) as [[[o d]|]| | |]; cbn [obind] in *; try done. destruct (parse_cp_size _ _ _ _) as [[[s d']|]| | |]; cbn [obind] in *; try done. injection P as -> -> ->.
    set (len := if sz =? 0 then 65536 else sz). assert (0 < len < 2 ^ 24) as Hlen by (unfold len; destruct (Z.eqb_spec sz 0); lia). destruct (Z.ltb_spec (2 ^ 64 - 1 - off) len); [lia|]. cbn [orb].
    destruct (Z.ltb_spec (zlen src) (off + len)) as [Hout|Hin]; cbn [orb]. { apply replays_bad. left. cbn. lia. }
    assert (zlen (exec_cmd src (DCopy off len)) = len) as El by (apply zlen_zslice; lia). destruct (Z.ltb_spec size len); [apply replays_bad; right; lia|]. rewrite rd_range_slice by lia. cbn [obind].
    pose proof (replays_step (DCopy off len) (decode n l') (zlen buf - zlen l') fuel dst out size tsize) as S. rewrite El in S. apply S; [cbn; lia|lia|done|done|done|]. intros dst1 Hd1.
    apply IH; [by etrans|done|destruct Hsl as [h ->]; rewrite length_app in Hn; lia|destruct Hsl as [h ->]; rewrite length_app in Hf; lia|done|lia|lia|lia].
  - destruct (Z.eqb_spec cmd 0) as [->|Hc0]; cbn [negb orb]; [done|]. replace (zlen buf - (zlen buf - zlen l)) with (zlen l) by lia. destruct (Z.ltb_spec (zlen l) cmd) as [Hshort|Hlong]; [by rewrite orb_true_r|]. rewrite orb_false_r.
    assert (zlen (exec_cmd src (DInsert (ztake cmd l))) = cmd) as El by (cbn; rewrite zlen_ztake; lia). destruct (Z.ltb_spec size cmd); [apply replays_bad; right; lia|].
    assert (rd_range buf (zlen buf - zlen l) cmd = Ret (ztake cmd l)) as ->. { rewrite rd_range_slice by lia. f_equal. unfold zslice. f_equal. destruct Hs as [h ->]. apply zdrop_app_len'. rewrite zlen_app. lia. }
    cbn [obind]. pose proof (replays_step (DInsert (ztake cmd l)) (decode n (zdrop cmd l)) (zlen buf - zlen l + cmd) fuel dst out size tsize) as S. rewrite El in S. apply S; [done|lia|done|done|done|]. intros dst1 Hd1.
    assert (zlen (zdrop cmd l) = zlen l - cmd) as Ez by (rewrite zlen_zdrop; lia). replace (zlen buf - zlen l + cmd) with (zlen buf - zlen (zdrop cmd l)) by lia. unfold zlen in Ez.
    apply IH; [|by apply Forall_drop|lia|lia|done|lia|lia|lia]. etrans; [|exact Hs]. exists (ztake cmd l). symmetry. apply ztake_zdrop.
Qed.
End replays.

(** C2. [patch_delta] on arbitrary delta bytes, described exactly: a delta of
    fewer than four bytes, or for a source of another size, is refused; if both
    sizes can be read ([header]: at most ten bytes, below 2^64, and the delta not
    used up by the first), the result is the target that the commands of the rest
    ([decode]) make ([replay]), or an error if they cannot be read, leave the
    source or do not add up to the announced size, and no memory access is out of
    bounds.  Only a delta whose sizes cannot be read makes the program end or
    its behaviour undefined, and this it always does; a target announced with
    2^64 - 1 bytes has no room for the byte behind it, and ends the program. *)
Theorem patch_delta_exact (src delta : list Z) : bytes_ok delta →
  let run := patch_delta src (zlen src) delta (zlen delta) in
  if zlen delta <? DELTA_SIZE_MIN then run = Ret None
  else
    match header delta with
    | None => fails run
    | Some (ssize, rest) =>
        if negb (ssize =? zlen src) then run = Ret None
        else
          match header rest with
          | None => fails run
          | Some (tsize, body) => if tsize =? 2 ^ 64 - 1 then run = Die else run = Ret (replay src tsize body)
          end
    end.
Proof.
  intros Hb. cbn zeta. unfold patch_delta. destruct (zlen delta <? DELTA_SIZE_MIN); [done|]. assert (∀ {A B} (m : outcome A) (k : A → outcome B), fails m → fails (obind m k)) as Hf. { by intros A B m k [->| ->]; [left|right]. }
  pose proof (get_delta_hdr_size_exact [] delta Hb) as H1. cbn [app] in H1. change (zlen (@nil Z)) with 0 in H1. destruct (header delta) as [[ssize rest]|]; [|by apply Hf]. destruct H1 as (_ & (h & ->) & ->). cbn [obind].
  destruct (negb (ssize =? zlen src)); [done|]. assert (bytes_ok rest) as Hbr by (by apply Forall_app in Hb as [_ ?]). replace (zlen (h ++ rest) - zlen rest) with (zlen h) by (rewrite zlen_app; lia).
  pose proof (get_delta_hdr_size_exact h rest Hbr) as H2. destruct (header rest) as [[tsize body]|]; [|by apply Hf]. destruct H2 as (Ht & (h' & E) & ->). cbn [obind]. destruct (tsize =? 2 ^ 64 - 1); [done|].
  set (buf := h ++ rest). assert (body `suffix_of` buf) as Hs by (exists (h ++ h'); unfold buf; by rewrite E, app_assoc). assert (bytes_ok body) as Hbb by (rewrite E in Hbr; by apply Forall_app in Hbr as [_ ?]).
  pose proof (zlen_nonneg body). replace (zlen buf - (zlen buf - zlen body)) with (zlen body) by lia. assert (S (Z.to_nat (zlen body)) = S (length body)) as -> by (unfold zlen; lia).
  pose proof (patch_loop_exact src buf tsize (length body) (S (length body)) body (zrep (tsize + 1) 0) 0 tsize Hs Hbb ltac:(lia) ltac:(lia) ltac:(apply zlen_zrep; lia) ltac:(lia) ltac:(lia) ltac:(lia)) as L.
  unfold replay, replays in *. cbn zeta in L. destruct (decode (length body) body) as [cs|]; [|by rewrite L]. set (made := exec_cmds src cs) in *. destruct (forallb (in_source (zlen src)) cs); cbn [andb] in *; [|by rewrite L].
  destruct (Z.leb_spec (zlen made) tsize), (Z.eqb_spec (zlen made) tsize); try lia; [| |by rewrite L].
  - destruct L as (dst & -> & E'). cbn [obind]. rewrite Z.eqb_refl. cbn [negb orb]. destruct (Z.eqb_spec (tsize - zlen made) 0); [|lia]. cbn [negb]. by rewrite E', ztake_0.
  - destruct L as (dst & -> & E'). cbn [obind]. rewrite Z.eqb_refl. cbn [negb orb]. destruct (Z.eqb_spec (tsize - zlen made) 0); [lia|]. done.
Qed.
(** A copy of the bytes 2 and 3 behind an insertion. *)
Lemma patch_delta_exact_witness : patch_delta [1; 2; 3; 4] 4 [4; 5; 3; 7; 8; 9; 0x91; 1; 2] 9 = Ret (Some [7; 8; 9; 2; 3]).
Proof. apply (patch_delta_exact [1; 2; 3; 4] [4; 5; 3; 7; 8; 9; 0x91; 1; 2]). apply bytes_ok_dec. reflexivity. Defined.

(** The header of a delta is not bounded: eleven continuation bytes make
    [get_delta_hdr_size] shift a 64-bit value by 70 bits, which C leaves
    undefined, because the overflow check of [st_left_shift] only accounts for
    shifts below the width. *)
Theorem get_delta_hdr_size_overlong :
  get_delta_hdr_size (zrep 10 0x80 ++ [0x81; 0]) 0 12 = UB.
Proof. reflexivity. Qed.

(** When the first size takes all the bytes of the delta, the second call of
    [get_delta_hdr_size] reads the byte after the end of it. *)
Theorem patch_delta_header_overread :
  patch_delta [7] 1 [0x81; 0x80; 0x80; 0x00] 4 = UB.
Proof. reflexivity. Qed.

End Delta.
