(* ===== verification/DiffDelta.v ===== *)
(** * Computing deltas (diff-delta.c)

    The Rabin fingerprint tables, [create_delta_index] and [create_delta]. *)
From stdpp Require Import prelude.
From S2P Require Import Prelude Delta.
Import Delta.

Module DiffDelta.

(** ** Constants and tables *)
Definition HASH_LIMIT : Z := 64.
Definition RABIN_SHIFT : Z := 23.
Definition RABIN_WINDOW : Z := 16.
Definition MAX_OP_SIZE : Z := 5 + 5 + 1 + RABIN_WINDOW + 7.

Definition T : list Z := [
  0x00000000; 0xab59b4d1; 0x56b369a2; 0xfdeadd73; 0x063f6795; 0xad66d344;
  0x508c0e37; 0xfbd5bae6; 0x0c7ecf2a; 0xa7277bfb; 0x5acda688; 0xf1941259;
  0x0a41a8bf; 0xa1181c6e; 0x5cf2c11d; 0xf7ab75cc; 0x18fd9e54; 0xb3a42a85;
  0x4e4ef7f6; 0xe5174327; 0x1ec2f9c1; 0xb59b4d10; 0x48719063; 0xe32824b2;
  0x1483517e; 0xbfdae5af; 0x423038dc; 0xe9698c0d; 0x12bc36eb; 0xb9e5823a;
  0x440f5f49; 0xef56eb98; 0x31fb3ca8; 0x9aa28879; 0x6748550a; 0xcc11e1db;
  0x37c45b3d; 0x9c9defec; 0x6177329f; 0xca2e864e; 0x3d85f382; 0x96dc4753;
  0x6b369a20; 0xc06f2ef1; 0x3bba9417; 0x90e320c6; 0x6d09fdb5; 0xc6504964;
  0x2906a2fc; 0x825f162d; 0x7fb5cb5e; 0xd4ec7f8f; 0x2f39c569; 0x846071b8;
  0x798aaccb; 0xd2d3181a; 0x25786dd6; 0x8e21d907; 0x73cb0474; 0xd892b0a5;
  0x23470a43; 0x881ebe92; 0x75f463e1; 0xdeadd730; 0x63f67950; 0xc8afcd81;
  0x354510f2; 0x9e1ca423; 0x65c91ec5; 0xce90aa14; 0x337a7767; 0x9823c3b6;
  0x6f88b67a; 0xc4d102ab; 0x393bdfd8; 0x92626b09; 0x69b7d1ef; 0xc2ee653e;
  0x3f04b84d; 0x945d0c9c; 0x7b0be704; 0xd05253d5; 0x2db88ea6; 0x86e13a77;
  0x7d348091; 0xd66d3440; 0x2b87e933; 0x80de5de2; 0x7775282e; 0xdc2c9cff;
  0x21c6418c; 0x8a9ff55d; 0x714a4fbb; 0xda13fb6a; 0x27f92619; 0x8ca092c8;
  0x520d45f8; 0xf954f129; 0x04be2c5a; 0xafe7988b; 0x5432226d; 0xff6b96bc;
  0x02814bcf; 0xa9d8ff1e; 0x5e738ad2; 0xf52a3e03; 0x08c0e370; 0xa39957a1;
  0x584ced47; 0xf3155996; 0x0eff84e5; 0xa5a63034; 0x4af0dbac; 0xe1a96f7d;
  0x1c43b20e; 0xb71a06df; 0x4ccfbc39; 0xe79608e8; 0x1a7cd59b; 0xb125614a;
  0x468e1486; 0xedd7a057; 0x103d7d24; 0xbb64c9f5; 0x40b17313; 0xebe8c7c2;
  0x16021ab1; 0xbd5bae60; 0x6cb54671; 0xc7ecf2a0; 0x3a062fd3; 0x915f9b02;
  0x6a8a21e4; 0xc1d39535; 0x3c394846; 0x9760fc97; 0x60cb895b; 0xcb923d8a;
  0x3678e0f9; 0x9d215428; 0x66f4eece; 0xcdad5a1f; 0x3047876c; 0x9b1e33bd;
  0x7448d825; 0xdf116cf4; 0x22fbb187; 0x89a20556; 0x7277bfb0; 0xd92e0b61;
  0x24c4d612; 0x8f9d62c3; 0x7836170f; 0xd36fa3de; 0x2e857ead; 0x85dcca7c;
  0x7e09709a; 0xd550c44b; 0x28ba1938; 0x83e3ade9; 0x5d4e7ad9; 0xf617ce08;
  0x0bfd137b; 0xa0a4a7aa; 0x5b711d4c; 0xf028a99d; 0x0dc274ee; 0xa69bc03f;
  0x5130b5f3; 0xfa690122; 0x0783dc51; 0xacda6880; 0x570fd266; 0xfc5666b7;
  0x01bcbbc4; 0xaae50f15; 0x45b3e48d; 0xeeea505c; 0x13008d2f; 0xb85939fe;
  0x438c8318; 0xe8d537c9; 0x153feaba; 0xbe665e6b; 0x49cd2ba7; 0xe2949f76;
  0x1f7e4205; 0xb427f6d4; 0x4ff24c32; 0xe4abf8e3; 0x19412590; 0xb2189141;
  0x0f433f21; 0xa41a8bf0; 0x59f05683; 0xf2a9e252; 0x097c58b4; 0xa225ec65;
  0x5fcf3116; 0xf49685c7; 0x033df00b; 0xa86444da; 0x558e99a9; 0xfed72d78;
  0x0502979e; 0xae5b234f; 0x53b1fe3c; 0xf8e84aed; 0x17bea175; 0xbce715a4;
  0x410dc8d7; 0xea547c06; 0x1181c6e0; 0xbad87231; 0x4732af42; 0xec6b1b93;
  0x1bc06e5f; 0xb099da8e; 0x4d7307fd; 0xe62ab32c; 0x1dff09ca; 0xb6a6bd1b;
  0x4b4c6068; 0xe015d4b9; 0x3eb80389; 0x95e1b758; 0x680b6a2b; 0xc352defa;
  0x3887641c; 0x93ded0cd; 0x6e340dbe; 0xc56db96f; 0x32c6cca3; 0x999f7872;
  0x6475a501; 0xcf2c11d0; 0x34f9ab36; 0x9fa01fe7; 0x624ac294; 0xc9137645;
  0x26459ddd; 0x8d1c290c; 0x70f6f47f; 0xdbaf40ae; 0x207afa48; 0x8b234e99;
  0x76c993ea; 0xdd90273b; 0x2a3b52f7; 0x8162e626; 0x7c883b55; 0xd7d18f84;
  0x2c043562; 0x875d81b3; 0x7ab75cc0; 0xd1eee811
].

Definition U : list Z := [
  0x00000000; 0x7eb5200d; 0x5633f4cb; 0x2886d4c6; 0x073e5d47; 0x798b7d4a;
  0x510da98c; 0x2fb88981; 0x0e7cba8e; 0x70c99a83; 0x584f4e45; 0x26fa6e48;
  0x0942e7c9; 0x77f7c7c4; 0x5f711302; 0x21c4330f; 0x1cf9751c; 0x624c5511;
  0x4aca81d7; 0x347fa1da; 0x1bc7285b; 0x65720856; 0x4df4dc90; 0x3341fc9d;
  0x1285cf92; 0x6c30ef9f; 0x44b63b59; 0x3a031b54; 0x15bb92d5; 0x6b0eb2d8;
  0x4388661e; 0x3d3d4613; 0x39f2ea38; 0x4747ca35; 0x6fc11ef3; 0x11743efe;
  0x3eccb77f; 0x40799772; 0x68ff43b4; 0x164a63b9; 0x378e50b6; 0x493b70bb;
  0x61bda47d; 0x1f088470; 0x30b00df1; 0x4e052dfc; 0x6683f93a; 0x1836d937;
  0x250b9f24; 0x5bbebf29; 0x73386bef; 0x0d8d4be2; 0x2235c263; 0x5c80e26e;
  0x740636a8; 0x0ab316a5; 0x2b7725aa; 0x55c205a7; 0x7d44d161; 0x03f1f16c;
  0x2c4978ed; 0x52fc58e0; 0x7a7a8c26; 0x04cfac2b; 0x73e5d470; 0x0d50f47d;
  0x25d620bb; 0x5b6300b6; 0x74db8937; 0x0a6ea93a; 0x22e87dfc; 0x5c5d5df1;
  0x7d996efe; 0x032c4ef3; 0x2baa9a35; 0x551fba38; 0x7aa733b9; 0x041213b4;
  0x2c94c772; 0x5221e77f; 0x6f1ca16c; 0x11a98161; 0x392f55a7; 0x479a75aa;
  0x6822fc2b; 0x1697dc26; 0x3e1108e0; 0x40a428ed; 0x61601be2; 0x1fd53bef;
  0x3753ef29; 0x49e6cf24; 0x665e46a5; 0x18eb66a8; 0x306db26e; 0x4ed89263;
  0x4a173e48; 0x34a21e45; 0x1c24ca83; 0x6291ea8e; 0x4d29630f; 0x339c4302;
  0x1b1a97c4; 0x65afb7c9; 0x446b84c6; 0x3adea4cb; 0x1258700d; 0x6ced5000;
  0x4355d981; 0x3de0f98c; 0x15662d4a; 0x6bd30d47; 0x56ee4b54; 0x285b6b59;
  0x00ddbf9f; 0x7e689f92; 0x51d01613; 0x2f65361e; 0x07e3e2d8; 0x7956c2d5;
  0x5892f1da; 0x2627d1d7; 0x0ea10511; 0x7014251c; 0x5facac9d; 0x21198c90;
  0x099f5856; 0x772a785b; 0x4c921c31; 0x32273c3c; 0x1aa1e8fa; 0x6414c8f7;
  0x4bac4176; 0x3519617b; 0x1d9fb5bd; 0x632a95b0; 0x42eea6bf; 0x3c5b86b2;
  0x14dd5274; 0x6a687279; 0x45d0fbf8; 0x3b65dbf5; 0x13e30f33; 0x6d562f3e;
  0x506b692d; 0x2ede4920; 0x06589de6; 0x78edbdeb; 0x5755346a; 0x29e01467;
  0x0166c0a1; 0x7fd3e0ac; 0x5e17d3a3; 0x20a2f3ae; 0x08242768; 0x76910765;
  0x59298ee4; 0x279caee9; 0x0f1a7a2f; 0x71af5a22; 0x7560f609; 0x0bd5d604;
  0x235302c2; 0x5de622cf; 0x725eab4e; 0x0ceb8b43; 0x246d5f85; 0x5ad87f88;
  0x7b1c4c87; 0x05a96c8a; 0x2d2fb84c; 0x539a9841; 0x7c2211c0; 0x029731cd;
  0x2a11e50b; 0x54a4c506; 0x69998315; 0x172ca318; 0x3faa77de; 0x411f57d3;
  0x6ea7de52; 0x1012fe5f; 0x38942a99; 0x46210a94; 0x67e5399b; 0x19501996;
  0x31d6cd50; 0x4f63ed5d; 0x60db64dc; 0x1e6e44d1; 0x36e89017; 0x485db01a;
  0x3f77c841; 0x41c2e84c; 0x69443c8a; 0x17f11c87; 0x38499506; 0x46fcb50b;
  0x6e7a61cd; 0x10cf41c0; 0x310b72cf; 0x4fbe52c2; 0x67388604; 0x198da609;
  0x36352f88; 0x48800f85; 0x6006db43; 0x1eb3fb4e; 0x238ebd5d; 0x5d3b9d50;
  0x75bd4996; 0x0b08699b; 0x24b0e01a; 0x5a05c017; 0x728314d1; 0x0c3634dc;
  0x2df207d3; 0x534727de; 0x7bc1f318; 0x0574d315; 0x2acc5a94; 0x54797a99;
  0x7cffae5f; 0x024a8e52; 0x06852279; 0x78300274; 0x50b6d6b2; 0x2e03f6bf;
  0x01bb7f3e; 0x7f0e5f33; 0x57888bf5; 0x293dabf8; 0x08f998f7; 0x764cb8fa;
  0x5eca6c3c; 0x207f4c31; 0x0fc7c5b0; 0x7172e5bd; 0x59f4317b; 0x27411176;
  0x1a7c5765; 0x64c97768; 0x4c4fa3ae; 0x32fa83a3; 0x1d420a22; 0x63f72a2f;
  0x4b71fee9; 0x35c4dee4; 0x1400edeb; 0x6ab5cde6; 0x42331920; 0x3c86392d;
  0x133eb0ac; 0x6d8b90a1; 0x450d4467; 0x3bb8646a
].

(** [val = ((val << 8) | c) ^ T[val >> RABIN_SHIFT]] on an [unsigned int]. *)
Definition rabin (val c : Z) : outcome Z :=
  let! t := rd T (Z.shiftr val RABIN_SHIFT) in
  Ret (Z.lxor (Z.lor (u32 (Z.shiftl val 8)) c) t).

(** The fingerprint of the [n] bytes of [buf] from [from] on, starting at [val]. *)
Fixpoint rabin_bytes (n : nat) (buf : list Z) (from val : Z) : outcome Z :=
  match n with
  | O => Ret val
  | S n =>
      let! c := rd buf from in
      let! val := rabin val c in
      rabin_bytes n buf (from + 1) val
  end.

(** ** The index *)

(** [ptr] is an offset into the indexed buffer. *)
Record index_entry := IndexEntry { ptr : Z; val : Z }.

(** The packed index: [hash] holds, for each bucket, the position of its first
    entry in [entries], and one position more as a sentinel. *)
Record delta_index := DeltaIndex {
  memsize : Z;
  src_buf : list Z;
  src_size : Z;
  hash_mask : Z;
  hash : list Z;
  packed : list index_entry;
}.

(** [for (i = 4; (1u << i) < hsize; i++)]; an [unsigned int] shifted by 32 or
    more is not defined. *)
Fixpoint size_bits (fuel : nat) (i hsize : Z) : outcome Z :=
  match fuel with
  | O => NoFuel
  | S fuel =>
      if 32 <=? i then UB
      else if u32 (Z.shiftl 1 i) <? hsize then size_bits fuel (i + 1) hsize else Ret i
  end.

(** The state of the loop that fills the index.  A bucket is the list of its
    entries, the most recent first; [prev] is the bucket that holds the entry
    created last ([entry[-1]] of the code). *)
Record istate := IState {
  is_hash : list (list index_entry);
  is_count : list Z;
  is_entries : Z;
  is_prev_val : Z;
  is_prev : Z;
}.

(** One block: fingerprint of [data[1..16]]. *)
Definition index_block (buf : list Z) (hmask : Z) (st : istate) (data : Z) : outcome istate :=
  let! v := rabin_bytes 16 buf (data + 1) 0 in
  if v =? is_prev_val st then
    let! bucket := rd (is_hash st) (is_prev st) in
    match bucket with
    | [] => UB
    | e :: rest =>
        let! h := wr (is_hash st) (is_prev st)
                    (IndexEntry (data + RABIN_WINDOW) (val e) :: rest) in
        Ret (IState h (is_count st) (u32 (is_entries st - 1)) (is_prev_val st) (is_prev st))
    end
  else
    let i := Z.land v hmask in
    let! bucket := rd (is_hash st) i in
    let! n := rd (is_count st) i in
    let! h := wr (is_hash st) i (IndexEntry (data + RABIN_WINDOW) v :: bucket) in
    let! c := wr (is_count st) i (u32 (n + 1)) in
    Ret (IState h c (is_entries st) v i).

(** [for (data = buffer + entries * 16 - 16; data >= buffer; data -= 16)];
    [n] blocks are left. *)
Fixpoint index_blocks (n : nat) (buf : list Z) (hmask : Z) (st : istate) : outcome istate :=
  match n with
  | O => Ret st
  | S n =>
      let! st := index_block buf hmask st (Z.of_nat n * RABIN_WINDOW) in
      index_blocks n buf hmask st
  end.

(** The inner [do .. while (acc > 0)] of the culling loop: what follows the
    entry to keep is skipped; running off the list dereferences [NULL]. *)
Fixpoint cull_skip (l : list index_entry) (acc : Z) : outcome (Z * list index_entry) :=
  match l with
  | [] => UB
  | _ :: l =>
      let acc := acc - HASH_LIMIT in
      if 0 <? acc then cull_skip l acc else Ret (acc, l)
  end.

(** The outer loop on a list that is not empty; [count] is [hash_count[i]]. *)
Fixpoint cull_loop (fuel : nat) (count acc : Z) (l : list index_entry) : outcome (list index_entry) :=
  match fuel with
  | O => NoFuel
  | S fuel =>
      match l with
      | [] => UB
      | e :: rest =>
          let acc := acc + (count - HASH_LIMIT) in
          let! (acc, rest) := (if 0 <? acc then cull_skip rest acc else Ret (acc, rest)) in
          match rest with
          | [] => Ret [e]
          | _ => let! rest := cull_loop fuel count acc rest in Ret (e :: rest)
          end
      end
  end.

(** The loop over the buckets that culls those that are too long. *)
Fixpoint cull (h : list (list index_entry)) (counts : list Z) (entries : Z)
  : outcome (list (list index_entry) * Z) :=
  match h, counts with
  | [], _ => Ret ([], entries)
  | _ :: _, [] => UB
  | b :: h, n :: counts =>
      if n <=? HASH_LIMIT then
        let! (h, entries) := cull h counts entries in
        Ret (b :: h, entries)
      else
        let! b := cull_loop (S (length b)) n 0 b in
        let! (h, entries) := cull h counts (u32 (entries - (n - HASH_LIMIT))) in
        Ret (b :: h, entries)
  end.

(** The packed arrays: bucket starts (with the sentinel) and entries. *)
Fixpoint pack (h : list (list index_entry)) (at_ : Z) : list Z * list index_entry :=
  match h with
  | [] => ([at_], [])
  | b :: h =>
      let '(starts, es) := pack h (at_ + zlen b) in
      (at_ :: starts, b ++ es)
  end.

Section index.
(** Whether [malloc]/[calloc] grants a request of this many bytes. *)
Context (malloc_ok : Z → bool).

(** Sizes of the structures on a 64-bit platform: a pointer has 8 bytes, an
    unpacked entry 24, a packed one 16, the fixed part of the index 32. *)
Definition create_delta_index (buf : list Z) (bufsize : Z) : outcome (option delta_index) :=
  if bufsize =? 0 then Ret None
  else
    let entries := u32 ((bufsize - 1) / RABIN_WINDOW) in
    let entries := if 0xffffffff <=? bufsize then 0xfffffffe / RABIN_WINDOW else entries in
    let! i := size_bits 32 4 (entries / 4) in
    let hsize := Z.shiftl 1 i in
    let hmask := hsize - 1 in
    if negb (malloc_ok (8 * hsize + 24 * entries)) then Ret None
    else if negb (malloc_ok (4 * hsize)) then Ret None
    else
      let! st := index_blocks (Z.to_nat entries) buf hmask
                   (IState (zrep hsize []) (zrep hsize 0) entries (2 ^ 32 - 1) 0) in
      let! (h, entries) := cull (is_hash st) (is_count st) (is_entries st) in
      let memsize := 32 + 8 * (hsize + 1) + 16 * entries in
      if negb (malloc_ok memsize) then Ret None
      else
        let '(starts, es) := pack h 0 in
        oassert (zlen es =? entries)
          (Ret (Some (DeltaIndex memsize buf bufsize hmask starts es))).

Definition sizeof_delta_index (index : option delta_index) : Z :=
  match index with
  | Some index => memsize index
  | None => 0
  end.
End index.

(** ** The delta *)

(** [out[outpos++] = v] on a buffer of bytes. *)
Definition put (out : list Z) (outpos v : Z) : outcome (list Z * Z) :=
  let! out := wr out outpos (u8 v) in
  Ret (out, outpos + 1).

(** [while (l >= 0x80) { out[outpos++] = l | 0x80; l >>= 7; } out[outpos++] = l]. *)
Fixpoint store_size (fuel : nat) (out : list Z) (outpos l : Z) : outcome (list Z * Z) :=
  match fuel with
  | O => NoFuel
  | S fuel =>
      if 128 <=? l then
        let! (out, outpos) := put out outpos (Z.lor l 128) in
        store_size fuel out outpos (Z.shiftr l 7)
      else put out outpos l
  end.

(** [for (i = 0; i < RABIN_WINDOW && data < top; i++, data++)]; [n] rounds are
    left; the result is [(out, outpos, data, val)]. *)
Fixpoint first_literals (n : nat) (trg : list Z) (top : Z) (out : list Z) (outpos data v : Z)
  : outcome (list Z * Z * Z * Z) :=
  match n with
  | O => Ret (out, outpos, data, v)
  | S n =>
      if data <? top then
        let! c := rd trg data in
        let! (out, outpos) := put out outpos c in
        let! v := rabin v c in
        first_literals n trg top out outpos (data + 1) v
      else Ret (out, outpos, data, v)
  end.

(** [while (ref_size-- && *src++ == *ref) ref++]: how far [ref] moves. *)
Fixpoint match_len (ref_size : nat) (trg : list Z) (s : Z) (ref_data : list Z) (ref : Z) : outcome Z :=
  match ref_size with
  | O => Ret 0
  | S n =>
      let! a := rd trg s in
      let! b := rd ref_data ref in
      if a =? b then
        let! k := match_len n trg (s + 1) ref_data (ref + 1) in
        Ret (k + 1)
      else Ret 0
  end.

(** The loop over the entries of one bucket, from position [entry] up to
    [stop]; the result is the best [(moff, msize)]. *)
Fixpoint find_match (fuel : nat) (index : delta_index) (trg : list Z) (top data v : Z)
    (entry stop moff msize : Z) : outcome (Z * Z) :=
  match fuel with
  | O => NoFuel
  | S fuel =>
      if entry <? stop then
        let! e := rd (packed index) entry in
        let ref_size := u32 (src_size index - ptr e) in
        if negb (val e =? v) then
          find_match fuel index trg top data v (entry + 1) stop moff msize
        else
          let ref_size := if top - data <? ref_size then u32 (top - data) else ref_size in
          if ref_size <=? msize then Ret (moff, msize)
          else
            let! k := match_len (Z.to_nat ref_size) trg data (src_buf index) (ptr e) in
            if msize <? k then
              if 4096 <=? k then Ret (ptr e, k)
              else find_match fuel index trg top data v (entry + 1) stop (ptr e) k
            else find_match fuel index trg top data v (entry + 1) stop moff msize
      else Ret (moff, msize)
  end.

(** [while (moff && ref_data[moff-1] == data[-1])]: literals that the copy can
    absorb; the result is [(data, outpos, moff, msize, inscnt)]. *)
Fixpoint match_back (fuel : nat) (ref_data trg : list Z) (data outpos moff msize inscnt : Z)
  : outcome (Z * Z * Z * Z * Z) :=
  match fuel with
  | O => NoFuel
  | S fuel =>
      if moff =? 0 then Ret (data, outpos, moff, msize, inscnt)
      else
        let! a := rd ref_data (moff - 1) in
        let! b := rd trg (data - 1) in
        if a =? b then
          let msize := msize + 1 in
          let moff := moff - 1 in
          let data := data - 1 in
          let outpos := outpos - 1 in
          let inscnt := inscnt - 1 in
          if negb (inscnt =? 0) then
            match_back fuel ref_data trg data outpos moff msize inscnt
          else Ret (data, outpos - 1, moff, msize, inscnt - 1)
        else Ret (data, outpos, moff, msize, inscnt)
  end.

(** [if (x & mask) out[outpos++] = x >> shift, i |= bit]. *)
Definition put_param (st : list Z * Z * Z) (x mask shift bit : Z) : outcome (list Z * Z * Z) :=
  let '(out, outpos, i) := st in
  if negb (Z.land x mask =? 0) then
    let! (out, outpos) := put out outpos (Z.shiftr x shift) in
    Ret (out, outpos, Z.lor i bit)
  else Ret st.

(** The copy command: its opcode byte is written last, at the slot it left. *)
Definition put_copy (out : list Z) (outpos moff msize : Z) : outcome (list Z * Z) :=
  let op := outpos in
  let! st := put_param (out, outpos + 1, 128) moff 0x000000ff 0 1 in
  let! st := put_param st moff 0x0000ff00 8 2 in
  let! st := put_param st moff 0x00ff0000 16 4 in
  let! st := put_param st moff 0xff000000 24 8 in
  let! st := put_param st msize 0x00ff 0 16 in
  let! (out, outpos, i) := put_param st msize 0xff00 8 32 in
  let! out := wr out op (u8 i) in
  Ret (out, outpos).

Record dstate := DState {
  d_out : list Z;
  d_outpos : Z;
  d_outsize : Z;
  d_data : Z;
  d_val : Z;
  d_moff : Z;
  d_msize : Z;
  d_inscnt : Z;
}.

(** The search at the head of the loop: [(val, moff, msize)]. *)
Definition search (index : delta_index) (trg : list Z) (top : Z) (st : dstate)
  : outcome (Z * Z * Z) :=
  if d_msize st <? 4096 then
    let! old := rd trg (d_data st - RABIN_WINDOW) in
    let! u := rd U old in
    let! c := rd trg (d_data st) in
    let! v := rabin (Z.lxor (d_val st) u) c in
    let i := Z.land v (hash_mask index) in
    let! start := rd (hash index) i in
    let! stop := rd (hash index) (i + 1) in
    let! (moff, msize) := find_match (S (Z.to_nat (stop - start))) index trg top (d_data st) v
                            start stop (d_moff st) (d_msize st) in
    Ret (v, moff, msize)
  else Ret (d_val st, d_moff st, d_msize st).

(** The branch that emits one literal byte. *)
Definition literal (trg : list Z) (st : dstate) : outcome dstate :=
  let '(DState out outpos outsize data v moff msize inscnt) := st in
  let outpos := if inscnt =? 0 then outpos + 1 else outpos in
  let! c := rd trg data in
  let! (out, outpos) := put out outpos c in
  let inscnt := inscnt + 1 in
  if inscnt =? 127 then
    let! out := wr out (outpos - inscnt - 1) (u8 inscnt) in
    Ret (DState out outpos outsize (data + 1) v moff 0 0)
  else Ret (DState out outpos outsize (data + 1) v moff 0 inscnt).

(** The branch that emits a copy command. *)
Definition copy (ref_data trg : list Z) (st : dstate) : outcome dstate :=
  let '(DState out outpos outsize data v moff msize inscnt) := st in
  let! (out, outpos, data, moff, msize) :=
    (if negb (inscnt =? 0) then
       let! (data, outpos, moff, msize, inscnt) :=
         match_back (S (Z.to_nat inscnt)) ref_data trg data outpos moff msize inscnt in
       let! out := wr out (outpos - inscnt - 1) (u8 inscnt) in
       Ret (out, outpos, data, moff, msize)
     else Ret (out, outpos, data, moff, msize)) in
  let left := u32 (if msize <? 65536 then 0 else msize - 65536) in
  let msize := msize - left in
  let! (out, outpos) := put_copy out outpos moff msize in
  let data := data + msize in
  let moff := moff + msize in
  let msize := left in
  let msize := if 0xffffffff <? moff then 0 else msize in
  if msize <? 4096 then
    let! v := rabin_bytes 16 trg (data - RABIN_WINDOW) 0 in
    Ret (DState out outpos outsize data v moff msize 0)
  else Ret (DState out outpos outsize data v moff msize 0).

(** [realloc] keeps the bytes and leaves the new ones undetermined. *)
Definition realloc (out : list Z) (n : Z) : list Z := ztake n out ++ zrep (n - zlen out) 0.

Section create.
Context (malloc_ok : Z → bool).

(** One round of [while (data < top)]; [inr None] is the return of [NULL]
    when memory runs out, [inr (Some _)] the end of the loop or its [break]. *)
Definition delta_step (index : delta_index) (trg : list Z) (top max_size : Z) (st : dstate)
  : outcome (dstate + option dstate) :=
  if d_data st <? top then
    let! (v, moff, msize) := search index trg top st in
    let st := DState (d_out st) (d_outpos st) (d_outsize st) (d_data st) v moff msize
                (d_inscnt st) in
    let! st := (if msize <? 4 then literal trg st else copy (src_buf index) trg st) in
    if d_outsize st - MAX_OP_SIZE <=? d_outpos st then
      let outsize := u64 (d_outsize st * 3) / 2 in
      let outsize := if negb (max_size =? 0) && (max_size <=? outsize)
                     then max_size + MAX_OP_SIZE + 1 else outsize in
      let st' := DState (d_out st) (d_outpos st) outsize (d_data st) (d_val st) (d_moff st)
                   (d_msize st) (d_inscnt st) in
      if negb (max_size =? 0) && (max_size <? d_outpos st) then Ret (inr (Some st'))
      else if negb (malloc_ok outsize) then Ret (inr None)
      else Ret (inl (DState (realloc (d_out st) outsize) (d_outpos st) outsize (d_data st)
                       (d_val st) (d_moff st) (d_msize st) (d_inscnt st)))
    else Ret (inl st)
  else Ret (inr (Some st)).

(** The buffer and [*delta_size]; [None] is [NULL]. *)
Definition create_delta (index : delta_index) (trg_buf : list Z) (trg_size max_size : Z)
  : outcome (option (list Z * Z)) :=
  if trg_size =? 0 then Ret None
  else
    let outsize := 8192 in
    let outsize := if negb (max_size =? 0) && (max_size <=? outsize)
                   then max_size + MAX_OP_SIZE + 1 else outsize in
    if negb (malloc_ok outsize) then Ret None
    else
      let out := zrep outsize 0 in
      let! (out, outpos) := store_size 10 out 0 (src_size index) in
      let! (out, outpos) := store_size 10 out outpos trg_size in
      let! (out, outpos, data, v) := first_literals 16 trg_buf trg_size out (outpos + 1) 0 0 in
      let! r := iter (S (Z.to_nat (trg_size - data)))
                  (delta_step index trg_buf trg_size max_size)
                  (DState out outpos outsize data v 0 0 data) in
      match r with
      | None => Ret None
      | Some st =>
          let! out := (if negb (d_inscnt st =? 0)
                       then wr (d_out st) (d_outpos st - d_inscnt st - 1) (u8 (d_inscnt st))
                       else Ret (d_out st)) in
          if negb (max_size =? 0) && (max_size <? d_outpos st) then Ret None
          else Ret (Some (out, d_outpos st))
      end.

(** delta.h; freeing the index has no counterpart here. *)
Definition diff_delta (src : list Z) (src_bufsize : Z) (trg : list Z) (trg_bufsize max_size : Z)
  : outcome (option (list Z * Z)) :=
  let! index := create_delta_index malloc_ok src src_bufsize in
  match index with
  | Some index => create_delta index trg trg_bufsize max_size
  | None => Ret None
  end.
End create.

(** A run on a source of 64 bytes whose second half reappears in the target. *)
Definition sample_src : list Z := map (λ n, Z.of_nat n * 7 mod 256) (List.seq 0 64).
Definition sample_trg : list Z := ztake 20 sample_src ++ [1; 2; 3] ++ zdrop 24 sample_src ++ [9].

Example diff_delta_run :
  (let! r := diff_delta (λ _, true) sample_src 64 sample_trg 64 0 in
   match r with
   | Some (d, n) => patch_delta sample_src 64 d n
   | None => Ret None
   end) = Ret (Some sample_trg).
Proof. vm_compute. reflexivity. Qed.

Example diff_delta_size :
  (let! r := diff_delta (λ _, true) sample_src 64 sample_trg 64 0 in
   Ret (snd <$> r)) = Ret (Some 13).
Proof. vm_compute. reflexivity. Qed.

(** ** Fingerprints stay below 2^31, so that the tables are read in bounds *)

Definition fp_ok (v : Z) : Prop := 0 <= v < 2 ^ 31.

Lemma T_table j : 0 <= j < 256 →
  ∃ t, znth T j = Some t ∧ 0 <= t < 2 ^ 32 ∧ Z.testbit t 31 = Z.testbit j 0.
Proof.
  intros Hj.
  assert (forallb (λ j, match znth T j with
    | Some t => (0 <=? t) && (t <? 2 ^ 32) && Bool.eqb (Z.testbit t 31) (Z.testbit j 0)
    | None => false end) (map Z.of_nat (List.seq 0 256)) = true) as H by (vm_compute; reflexivity).
  pose proof (byte_forall _ H j Hj) as H'. cbv beta in H'.
  destruct (znth T j) as [t|]; [|done]. exists t. split; [done|].
  apply andb_true_iff in H' as [[??]%andb_true_iff ?%Bool.eqb_prop].
  split; [lia|done].
Qed.

Lemma U_table j : byte_ok j → ∃ u, znth U j = Some u ∧ fp_ok u.
Proof.
  intros Hj.
  assert (forallb (λ j, match znth U j with
    | Some u => (0 <=? u) && (u <? 2 ^ 31) | None => false end)
    (map Z.of_nat (List.seq 0 256)) = true) as H by (vm_compute; reflexivity).
  pose proof (byte_forall _ H j Hj) as H'. cbv beta in H'.
  destruct (znth U j) as [u|]; [|done]. exists u. split; [done|].
  apply andb_true_iff in H' as [??]. unfold fp_ok. lia.
Qed.

Lemma rabin_wp v c : fp_ok v → byte_ok c → returns (rabin v c) fp_ok.
Proof.
  intros Hv Hc. unfold rabin, RABIN_SHIFT.
  assert (0 <= Z.shiftr v 23 < 256) as Hj.
  { rewrite Z.shiftr_div_pow2 by lia. unfold fp_ok in Hv. Z.div_mod_to_equations; lia. }
  destruct (T_table _ Hj) as (t & Ht & Htr & Hbit). rewrite (rd_znth _ _ _ Ht). cbn.
  assert (0 <= u32 (Z.shiftl v 8) < 2 ^ 32) by (apply Z.mod_pos_bound; lia).
  assert (0 <= Z.lor (u32 (Z.shiftl v 8)) c < 2 ^ 32).
  { apply lor_lt_pow2; [lia..|]. unfold byte_ok in Hc. lia. }
  destruct (lxor_lt_pow2 (Z.lor (u32 (Z.shiftl v 8)) c) t 32) as [Hx0 Hx1]; [lia..|].
  split; [done|]. apply lt_pow2_bits; [lia|done|]. intros i Hi.
  destruct (decide (i = 31)) as [->|]; [|apply (testbit_above _ 32); [done|lia]].
  rewrite Z.lxor_spec, Z.lor_spec, Hbit, Z.shiftr_spec by lia.
  rewrite (testbit_above c 8) by (unfold byte_ok in Hc; lia).
  unfold u32. rewrite Z.mod_pow2_bits_low, Z.shiftl_spec by lia.
  rewrite orb_false_r. apply xorb_nilpotent.
Qed.

Lemma rabin_bytes_wp n buf from v :
  bytes_ok buf → 0 <= from → from + Z.of_nat n <= zlen buf → fp_ok v →
  returns (rabin_bytes n buf from v) fp_ok.
Proof.
  revert from v; induction n as [|n IH]; intros from v Hbuf Hf Hn Hv; [done|]. cbn [rabin_bytes].
  apply wp_bind, rd_byte_wp; [done|lia|]. intros c _ Hc. apply wp_bind.
  eapply wp_mono; [|by apply rabin_wp]. intros v' Hv'. apply IH; try done; lia.
Qed.

(** ** What the index promises *)

Definition entry_ok (buf : list Z) (e : index_entry) : Prop :=
  rabin_bytes 16 buf (ptr e - 15) 0 = Ret (val e) ∧ fp_ok (val e) ∧
  RABIN_WINDOW <= ptr e < zlen buf ∧ ptr e < 2 ^ 32.

(** A bucket holds well-formed entries that hash to its number. *)
Definition bucket_ok (buf : list Z) (hmask i : Z) (b : list index_entry) : Prop :=
  Forall (λ e, entry_ok buf e ∧ Z.land (val e) hmask = i) b.

Definition buckets_ok (buf : list Z) (hmask : Z) (h : list (list index_entry)) : Prop :=
  ∀ i b, znth h i = Some b → bucket_ok buf hmask i b.

Record index_ok (index : delta_index) : Prop := {
  ok_size : src_size index = zlen (src_buf index);
  ok_mask : ∃ k, 0 <= k < 32 ∧ hash_mask index = 2 ^ k - 1 ∧ zlen (hash index) = 2 ^ k + 1;
  ok_bucket : ∀ i, 0 <= i <= hash_mask index →
    ∃ start stop, znth (hash index) i = Some start ∧ znth (hash index) (i + 1) = Some stop ∧
      0 <= start <= stop ∧ stop <= zlen (packed index) ∧ stop - start <= HASH_LIMIT ∧
      bucket_ok (src_buf index) (hash_mask index) i (zslice start (stop - start) (packed index));
}.

(** ** Culling leaves exactly [HASH_LIMIT] entries *)

Lemma cull_skip_wp l acc :
  0 < acc → acc <= HASH_LIMIT * zlen l →
  returns (cull_skip l acc) (λ '(acc', rest), - HASH_LIMIT < acc' <= 0 ∧
    acc' = acc - HASH_LIMIT * (zlen l - zlen rest) ∧ rest `suffix_of` l).
Proof.
  unfold HASH_LIMIT. revert acc; induction l as [|e l IH]; intros acc Hacc Hl.
  { rewrite (zlen_nil (A:=index_entry)) in Hl. lia. }
  cbn [cull_skip]. unfold HASH_LIMIT. rewrite zlen_cons in *.
  destruct (Z.ltb_spec 0 (acc - 64)).
  - eapply wp_mono; [|apply IH; lia]. intros [acc' rest] (H1 & H2 & H3).
    split_and!; [lia..|]. by apply suffix_cons_r.
  - cbn. split_and!; [lia..|]. by apply suffix_cons_r.
Qed.

Lemma cull_loop_wp fuel d acc k l (P : index_entry → Prop) :
  0 < d → 1 <= k → - HASH_LIMIT < acc <= 0 → acc = HASH_LIMIT * (zlen l - k) - k * d →
  zlen l < Z.of_nat fuel → Forall P l →
  returns (cull_loop fuel (HASH_LIMIT + d) acc l) (λ r, zlen r = k ∧ Forall P r).
Proof.
  unfold HASH_LIMIT. revert acc k l.
  induction fuel as [|fuel IH]; intros acc k l Hd Hk Hacc Heq Hfuel HP.
  { pose proof (zlen_nonneg l). lia. }
  cbn [cull_loop]. destruct l as [|e rest]; [rewrite zlen_nil in *; nia|].
  apply Forall_cons in HP as [He HP]. rewrite zlen_cons in *.
  replace (acc + (64 + d - HASH_LIMIT)) with (acc + d) by (unfold HASH_LIMIT; lia).
  apply wp_bind. apply wp_mono with (Q := λ '(acc', rest'), - 64 < acc' <= 0 ∧
    acc' = 64 * (zlen rest' - (k - 1)) - (k - 1) * d ∧ rest' `suffix_of` rest).
  2:{ destruct (Z.ltb_spec 0 (acc + d)).
      - eapply wp_mono; [|apply cull_skip_wp; unfold HASH_LIMIT; nia].
        intros [acc' rest']. unfold HASH_LIMIT. intros (H1 & H2 & H3). split_and!; [lia|lia|nia|done].
      - cbn. split_and!; [lia|lia|nia|done]. }
  intros [acc' rest'] (H1 & H2 & [pre ->]). apply Forall_app in HP as [_ HP].
  rewrite zlen_app in *. pose proof (zlen_nonneg pre). destruct rest' as [|e' rest'].
  - rewrite (zlen_nil (A:=index_entry)) in *. assert (k = 1) as -> by nia.
    split; [done|by constructor].
  - apply wp_bind. eapply wp_mono; [|apply (IH acc' (k - 1))]; try done.
    + cbn. intros r [Hr HPr]. rewrite zlen_cons. split; [lia|by constructor].
    + rewrite zlen_cons in *. pose proof (zlen_nonneg rest').
      destruct (decide (k = 1)); [subst k|]; nia.
    + lia.
Qed.

Lemma zlen_concat_cons {A} (b : list A) h : zlen (concat (b :: h)) = zlen b + zlen (concat h).
Proof. cbn. apply zlen_app. Qed.

(** After culling: no bucket exceeds the limit, entries keep whatever property
    [P] they had in their bucket, and [entries] is their number. *)
Lemma cull_wp h counts (P : Z → index_entry → Prop) from entries :
  counts = zlen <$> h → zlen (concat h) <= entries < 2 ^ 32 →
  (∀ i b, znth h i = Some b → Forall (P (from + i)) b) →
  returns (cull h counts entries) (λ '(h', entries'),
    zlen h' = zlen h ∧ entries' = entries - zlen (concat h) + zlen (concat h') ∧
    zlen (concat h') <= zlen (concat h) ∧
    ∀ i b, znth h' i = Some b → zlen b <= HASH_LIMIT ∧ Forall (P (from + i)) b).
Proof.
  intros ->. revert from entries. induction h as [|b h IH]; intros from entries Hent HP.
  { cbn. split_and!; [done|lia|done|]. intros i b Hi%znth_Some_lt. unfold zlen in Hi; cbn [length] in Hi; lia. }
  cbn [cull fmap list_fmap]. rewrite zlen_concat_cons in *.
  pose proof (zlen_nonneg (concat h)). pose proof (zlen_nonneg b).
  assert (∀ i b', znth h i = Some b' → Forall (P (from + 1 + i)) b') as HPh.
  { intros i b' Hi. pose proof (znth_Some_lt _ _ _ Hi).
    replace (from + 1 + i) with (from + (i + 1)) by lia. apply HP.
    change (b :: h) with ([b] ++ h). rewrite znth_app_r; change (zlen [b]) with 1; [|lia].
    by replace (i + 1 - 1) with i by lia. }
  assert (Forall (P (from + 0)) b) as HPb by (by apply HP).
  assert (∀ b', zlen b' <= HASH_LIMIT → Forall (P (from + 0)) b' → ∀ h',
    (∀ i b, znth h' i = Some b → zlen b <= HASH_LIMIT ∧ Forall (P (from + 1 + i)) b) →
    ∀ i b, znth (b' :: h') i = Some b → zlen b <= HASH_LIMIT ∧ Forall (P (from + i)) b) as Hcons.
  { intros b' ?? h' Hh' i b0 Hi. pose proof (znth_Some_lt _ _ _ Hi).
    destruct (decide (i = 0)) as [->|]; [injection Hi as <-; done|].
    change (b' :: h') with ([b'] ++ h') in Hi. rewrite znth_app_r in Hi by (change (zlen [b']) with 1; lia).
    change (zlen [b']) with 1 in Hi. apply Hh' in Hi.
    by replace (from + 1 + (i - 1)) with (from + i) in Hi by lia. }
  destruct (Z.leb_spec (zlen b) HASH_LIMIT).
  - apply wp_bind. eapply wp_mono; [|apply (IH (from + 1)); [lia|done]].
    intros [h' e'] (Ha1 & Ha2 & Ha3 & Ha4). cbn -[concat]. rewrite zlen_concat_cons, !zlen_cons.
    split_and!; [lia..|]. by apply Hcons.
  - apply wp_bind. unfold HASH_LIMIT in *.
    eapply wp_mono; [|replace (zlen b) with (HASH_LIMIT + (zlen b - 64)) by (unfold HASH_LIMIT; lia);
      apply (cull_loop_wp _ (zlen b - 64) 0 64 b (P (from + 0)))]; unfold HASH_LIMIT; try done; try lia.
    2: unfold zlen; lia.
    intros b' [Hb' HPb']. apply wp_bind. unfold u32. rewrite Z.mod_small by lia.
    eapply wp_mono; [|apply (IH (from + 1)); [lia|done]].
    intros [h' e'] (Ha1 & Ha2 & Ha3 & Ha4). cbn -[concat]. rewrite zlen_concat_cons, !zlen_cons.
    split_and!; [lia..|]. apply Hcons; [unfold HASH_LIMIT; lia|done..].
Qed.

(** ** Packing *)

Lemma pack_spec h at_ :
  (pack h at_).2 = concat h ∧ zlen (pack h at_).1 = zlen h + 1 ∧
  ∀ i b, znth h i = Some b → ∃ start,
    znth (pack h at_).1 i = Some start ∧ znth (pack h at_).1 (i + 1) = Some (start + zlen b) ∧
    at_ <= start ∧ start + zlen b <= at_ + zlen (concat h) ∧
    zslice (start - at_) (zlen b) (concat h) = b.
Proof.
  revert at_. induction h as [|b h IH]; intros at_.
  { split_and!; [done..|]. intros i b Hi%znth_Some_lt. unfold zlen in Hi; cbn [length] in Hi; lia. }
  cbn [pack]. specialize (IH (at_ + zlen b)). destruct (pack h (at_ + zlen b)) as [starts es] eqn:E.
  destruct IH as (Hes & Hlen & IH). cbn [fst snd] in *. subst es.
  pose proof (zlen_nonneg b). pose proof (zlen_nonneg (concat h)).
  split_and!; [done|rewrite !zlen_cons; lia|]. intros i b' Hi.
  pose proof (znth_Some_lt _ _ _ Hi) as Hr. rewrite zlen_cons in Hr. rewrite zlen_concat_cons.
  assert (∀ x, 0 <= x → znth (at_ :: starts) (x + 1) = znth starts x) as Hsh.
  { intros x Hx. change (at_ :: starts) with ([at_] ++ starts).
    rewrite znth_app_r; change (zlen [at_]) with 1; [f_equal; lia|lia]. }
  destruct (decide (i = 0)) as [->|].
  - injection Hi as <-. exists at_. split_and!; [done| |lia..|].
    + change 1 with (0 + 1). rewrite Hsh by lia.
      destruct h as [|b2 h]; [by injection E as <-|].
      cbn in E. destruct (pack h _); by injection E as <-.
    + rewrite Z.sub_diag. unfold zslice. rewrite zdrop_0. apply ztake_app_len.
  - assert (znth h (i - 1) = Some b') as Hi'.
    { change (b :: h) with ([b] ++ h) in Hi. rewrite znth_app_r in Hi; change (zlen [b]) with 1 in *;
        [done|lia]. }
    destruct (IH _ _ Hi') as (start & Hs1 & Hs2 & Hge & Hle & Hsl). exists start.
    replace i with (i - 1 + 1) by lia. rewrite !Hsh by lia.
    split_and!; [done|done|lia|lia|].
    unfold zslice in *. cbn [concat]. rewrite <- Hsl at 2. f_equal.
    replace (start - at_) with (zlen b + (start - (at_ + zlen b))) by lia.
    rewrite <- zdrop_zdrop by lia. by rewrite zdrop_app_len.
Qed.

(** ** Filling the index *)

Lemma zlen_concat_insert {A} (h : list (list A)) i b b' :
  znth h i = Some b →
  zlen (concat (<[Z.to_nat i := b']> h)) = zlen (concat h) - zlen b + zlen b'.
Proof.
  intros Hi. pose proof (znth_Some_lt _ _ _ Hi). unfold znth in Hi.
  rewrite (proj2 (Z.leb_le 0 i)) in Hi by lia.
  rewrite <- (take_drop_middle _ _ _ Hi) at 2. rewrite insert_take_drop by (unfold zlen in *; lia).
  rewrite !concat_app. cbn [concat]. rewrite !zlen_app. lia.
Qed.

Lemma fmap_insert_count (h : list (list index_entry)) i b :
  zlen <$> <[i := b]> h = <[i := zlen b]> (zlen <$> h).
Proof. apply list_fmap_insert. Qed.

Record filling (buf : list Z) (hsize left : Z) (st : istate) : Prop := {
  fill_len : zlen (is_hash st) = hsize;
  fill_count : is_count st = zlen <$> is_hash st;
  fill_ok : buckets_ok buf (hsize - 1) (is_hash st);
  fill_entries : is_entries st = zlen (concat (is_hash st)) + left;
  fill_bound : is_entries st < 2 ^ 32;
  fill_prev : fp_ok (is_prev_val st) →
    ∃ e rest, znth (is_hash st) (is_prev st) = Some (e :: rest) ∧ val e = is_prev_val st ∧
      Z.land (is_prev_val st) (hsize - 1) = is_prev st;
}.

Lemma buckets_ok_insert buf hmask h i b :
  0 <= i → buckets_ok buf hmask h → bucket_ok buf hmask i b →
  buckets_ok buf hmask (<[Z.to_nat i := b]> h).
Proof.
  intros Hi Hh Hb j b' Hj. destruct (decide (i = j)) as [<-|].
  - rewrite znth_insert_eq in Hj; [by injection Hj as <-|].
    apply znth_Some_lt in Hj. by rewrite zlen_insert in Hj.
  - rewrite znth_insert_ne in Hj by done. by apply Hh.
Qed.

Lemma index_block_wp buf k left st data :
  bytes_ok buf → 0 <= k < 32 → 0 < left → 0 <= data → data + 16 < zlen buf → data + 16 < 2 ^ 32 →
  filling buf (2 ^ k) left st →
  returns (index_block buf (2 ^ k - 1) st data) (filling buf (2 ^ k) (left - 1)).
Proof.
  intros Hbuf Hk Hleft Hd Hlen H32 [Hl Hc Hok He Hb Hp].
  pose proof (zlen_nonneg (concat (is_hash st))).
  assert (0 < 2 ^ k) by (apply Z.pow_pos_nonneg; lia).
  unfold index_block, RABIN_WINDOW.
  pose proof (rabin_bytes_wp 16 buf (data + 1) 0 Hbuf ltac:(lia) ltac:(lia) ltac:(done)) as Hr.
  apply returns_eq in Hr as (v & Hv & Hfp). rewrite Hv. cbn [obind].
  assert (∀ i, Z.land v (2 ^ k - 1) = i → entry_ok buf (IndexEntry (data + 16) v) ∧
    Z.land v (2 ^ k - 1) = i) as Hnew.
  { intros i Hi. split; [|done]. unfold entry_ok, RABIN_WINDOW. cbn.
    replace (data + 16 - 15) with (data + 1) by lia. split_and!; try done; lia. }
  destruct (Z.eqb_spec v (is_prev_val st)) as [->|Hne].
  - destruct (Hp Hfp) as (e & rest & Hb0 & Hve & Hpr). rewrite (rd_znth _ _ _ Hb0). cbn [obind].
    pose proof (znth_Some_lt _ _ _ Hb0). apply wp_bind, wr_wp; [lia|]. cbn [wp].
    pose proof (Hok _ _ Hb0) as [_ Hrest]%Forall_cons. rewrite Hve.
    pose proof (zlen_concat_insert _ _ _ (IndexEntry (data + 16) (is_prev_val st) :: rest) Hb0) as Hcat.
    rewrite !zlen_cons in Hcat.
    split; cbn.
    + by rewrite zlen_insert.
    + rewrite fmap_insert_count, Hc, zlen_cons, list_insert_id; [done|].
      rewrite list_lookup_fmap. unfold znth in Hb0.
      rewrite (proj2 (Z.leb_le 0 (is_prev st))) in Hb0 by lia. rewrite Hb0. cbn. by rewrite zlen_cons.
    + apply buckets_ok_insert; [lia|done|]. constructor; [by apply Hnew|done].
    + unfold u32. rewrite Z.mod_small by lia. lia.
    + unfold u32. apply Z.mod_pos_bound. lia.
    + intros _. eexists _, _. split; [by apply znth_insert_eq|]. done.
  - set (i := Z.land v (2 ^ k - 1)) in *.
    assert (0 <= i < 2 ^ k) as Hi.
    { unfold i. rewrite (land_ones_mod _ k) by (rewrite ?Z.ones_equiv; lia).
      by apply Z.mod_pos_bound. }
    destruct (znth_is_Some (is_hash st) i ltac:(lia)) as [b0 Hb0].
    rewrite (rd_znth _ _ _ Hb0). cbn [obind].
    assert (znth (is_count st) i = Some (zlen b0)) as Hn.
    { rewrite Hc. unfold znth in *. destruct (0 <=? i); [|done].
      by rewrite list_lookup_fmap, Hb0. }
    rewrite (rd_znth _ _ _ Hn). cbn [obind].
    apply wp_bind, wr_wp; [lia|]. apply wp_bind, wr_wp; [by eapply znth_Some_lt|]. cbn [wp].
    pose proof (zlen_concat_insert _ _ _ (IndexEntry (data + 16) v :: b0) Hb0) as Hcat.
    rewrite zlen_cons in Hcat.
    pose proof (zlen_nonneg b0).
    split; cbn.
    + by rewrite zlen_insert.
    + rewrite fmap_insert_count, Hc, zlen_cons. f_equal.
      assert (zlen b0 <= zlen (concat (is_hash st))).
      { pose proof (zlen_concat_insert _ _ _ [] Hb0) as Hd0.
        pose proof (zlen_nonneg (concat (<[Z.to_nat i := []]> (is_hash st)))).
        rewrite (zlen_nil (A:=index_entry)) in Hd0. lia. }
      unfold u32. rewrite Z.mod_small by lia. lia.
    + apply buckets_ok_insert; [lia|done|]. constructor; [by apply Hnew|by apply Hok].
    + lia.
    + done.
    + intros _. eexists _, _. split; [apply znth_insert_eq; lia|]. done.
Qed.

Lemma index_blocks_wp n buf k st :
  bytes_ok buf → 0 <= k < 32 → Z.of_nat n * 16 < zlen buf → Z.of_nat n * 16 < 2 ^ 32 →
  filling buf (2 ^ k) (Z.of_nat n) st →
  returns (index_blocks n buf (2 ^ k - 1) st) (filling buf (2 ^ k) 0).
Proof.
  revert st. induction n as [|n IH]; intros st Hbuf Hk Hlen H32 Hst; [done|].
  cbn [index_blocks]. apply wp_bind. unfold RABIN_WINDOW.
  eapply wp_mono; [|apply (index_block_wp _ _ (Z.of_nat (S n))); try done; lia].
  intros st' Hst'. apply IH; try done; try lia.
  by replace (Z.of_nat (S n) - 1) with (Z.of_nat n) in Hst' by lia.
Qed.

Lemma size_bits_wp fuel i hsize :
  0 <= i → hsize <= 2 ^ 28 → i <= 28 → 28 - i < Z.of_nat fuel →
  returns (size_bits fuel i hsize) (λ k, i <= k <= 28).
Proof.
  revert i. induction fuel as [|fuel IH]; intros i Hi Hh Hle Hf; [lia|]. cbn [size_bits].
  eval_leb 32 i. rewrite Z.shiftl_mul_pow2, Z.mul_1_l by lia.
  assert (2 ^ i <= 2 ^ 28) by (apply Z.pow_le_mono_r; lia).
  assert (0 < 2 ^ i) by (apply Z.pow_pos_nonneg; lia).
  unfold u32. rewrite Z.mod_small by lia.
  destruct (Z.ltb_spec (2 ^ i) hsize); [|cbn; lia].
  assert (i ≠ 28) by (intros ->; lia).
  eapply wp_mono; [|apply IH; lia]. cbn. lia.
Qed.

Lemma create_delta_index_ok malloc_ok buf :
  bytes_ok buf → zlen buf < 2 ^ 64 →
  returns (create_delta_index malloc_ok buf (zlen buf)) (λ r,
    match r with
    | None => zlen buf = 0 ∨ ∃ n, malloc_ok n = false
    | Some index => index_ok index ∧ src_buf index = buf
    end).
Proof.
  intros Hbuf Hlen. pose proof (zlen_nonneg buf). unfold create_delta_index.
  destruct (Z.eqb_spec (zlen buf) 0) as [|Hne]; [by left|]. unfold RABIN_WINDOW.
  set (entries := if 0xffffffff <=? zlen buf then _ else _).
  assert (0 <= entries < 2 ^ 28 ∧ entries * 16 < zlen buf) as [Hent Hin].
  { unfold entries, u32. destruct (Z.leb_spec 0xffffffff (zlen buf)).
    - change (0xfffffffe / 16) with 268435455. lia.
    - rewrite Z.mod_small; Z.div_mod_to_equations; lia. }
  clearbody entries. assert (entries / 4 <= 2 ^ 28) by (apply Z.div_le_upper_bound; lia).
  apply wp_bind. eapply wp_mono; [|apply (size_bits_wp 32 4); lia].
  cbv beta. intros k Hk. rewrite Z.shiftl_mul_pow2, Z.mul_1_l by lia.
  assert (0 < 2 ^ k) by (apply Z.pow_pos_nonneg; lia).
  destruct (malloc_ok (8 * 2 ^ k + 24 * entries)) eqn:?; [|by right; eexists].
  destruct (malloc_ok (4 * 2 ^ k)) eqn:?; [|by right; eexists]. cbn [negb]. apply wp_bind.
  eapply wp_mono; [|apply index_blocks_wp; try done; try lia].
  2:{ split; cbn.
      - apply zlen_zrep. lia.
      - unfold zrep. by rewrite fmap_replicate.
      - intros i b Hi. pose proof (znth_Some_lt _ _ _ Hi). unfold znth, zrep in Hi.
        destruct (0 <=? i); [|done]. apply lookup_replicate in Hi as [-> _]. constructor.
      - assert (concat (zrep (2 ^ k) ([] : list index_entry)) = []) as ->; [|unfold zlen; cbn; lia].
        unfold zrep. generalize (Z.to_nat (2 ^ k)). intros m; by induction m.
      - lia.
      - unfold fp_ok. lia. }
  intros st [Hl Hc Hok He Hb _]. apply wp_bind.
  eapply wp_mono; [|apply (cull_wp _ _ (λ i e, entry_ok buf e ∧ Z.land (val e) (2 ^ k - 1) = i) 0);
    [done|lia|]; intros i b Hi; exact (Hok _ _ Hi)].
  intros [h' entries'] (Hlen' & Hent' & _ & Hbk).
  destruct (malloc_ok (32 + _ + _)) eqn:?; [|by right; eexists]. cbn [negb].
  destruct (pack_spec h' 0) as (Hes & Hst & Hpk).
  destruct (pack h' 0) as [starts es]. cbn [fst snd] in *. subst es.
  apply wp_assert; [apply Z.eqb_eq; lia|]. cbn. split; [|done]. split; cbn.
  - done.
  - exists k. split_and!; [lia..|]. lia.
  - intros i Hi. destruct (znth_is_Some h' i ltac:(lia)) as [b Hb0].
    destruct (Hpk _ _ Hb0) as (start & Hs1 & Hs2 & Hge & Hle & Hsl).
    destruct (Hbk _ _ Hb0) as [Hlim Hb1]. pose proof (zlen_nonneg b).
    exists start, (start + zlen b). rewrite Z.sub_0_r in Hsl.
    replace (start + zlen b - start) with (zlen b) by lia.
    split_and!; try done; try lia. by rewrite Hsl.
Qed.

(** Invariant of the delta index: for every buffer [create_delta_index]
    returns an index whose buckets hold at most [HASH_LIMIT] entries each, every
    entry being the fingerprint of the window that ends at its position and
    living in the bucket of that fingerprint; it returns none only for an empty
    buffer or when an allocation fails. *)
Theorem delta_index_correct malloc_ok buf :
  bytes_ok buf → zlen buf < 2 ^ 64 →
  returns (create_delta_index malloc_ok buf (zlen buf)) (λ r,
    match r with
    | None => zlen buf = 0 ∨ ∃ n, malloc_ok n = false
    | Some index => index_ok index ∧ src_buf index = buf
    end).
Proof. apply create_delta_index_ok. Qed.

Lemma delta_index_correct_witness :
  returns (create_delta_index (λ _, true) sample_src (zlen sample_src)) (λ r,
    match r with
    | None => zlen sample_src = 0 ∨ ∃ n : Z, (λ _ : Z, true) n = false
    | Some index => index_ok index ∧ src_buf index = sample_src
    end).
Proof.
  apply delta_index_correct; [apply bytes_ok_dec; vm_compute; reflexivity|vm_compute; reflexivity].
Defined.

End DiffDelta.
