(* ===== verification/DeltaRoundtrip.v ===== *)
(** * The delta a target is turned into reproduces it

    [create_delta] and [patch_delta] composed: the loop of [create_delta] is
    shown to emit, command by command, an abstract delta ([Delta.dcmd]) of the
    part of the target it has consumed, never to write past its buffer, and to
    respect the caller's size limit. *)
From stdpp Require Import prelude.
From S2P Require Import Prelude Delta DiffDelta.
Import Delta DiffDelta.

Module DeltaRoundtrip.

Ltac dst := cbn [d_out d_outpos d_outsize d_data d_val d_moff d_msize d_inscnt].

(** ** Writing into the output buffer *)

Lemma slot_write (out : list Z) n pre j tl x :
  0 <= n <= zlen out → ztake n out = pre ++ j :: tl →
  ztake n (<[Z.to_nat (zlen pre) := x]> out) = pre ++ x :: tl.
Proof.
  intros Hn H. pose proof (f_equal zlen H) as Hlen.
  rewrite zlen_ztake, zlen_app, zlen_cons in Hlen by done.
  pose proof (zlen_nonneg tl). pose proof (zlen_nonneg pre). unfold ztake in *.
  rewrite take_insert_lt, H by lia. unfold zlen. rewrite Nat2Z.id.
  by rewrite insert_app_r_alt, Nat.sub_diag by lia.
Qed.

Lemma reserve_slot (out : list Z) n : 0 <= n < zlen out → ∃ j, ztake (n + 1) out = ztake n out ++ [j].
Proof. intros Hn. destruct (znth_is_Some out n Hn) as [j Hj]. exists j. apply ztake_succ; [lia|done]. Qed.

Lemma put_byte_wp out outpos v :
  0 <= outpos < zlen out →
  returns (put out outpos v) (λ '(out', outpos'), outpos' = outpos + 1 ∧ zlen out' = zlen out ∧
    ztake outpos' out' = ztake outpos out ++ [u8 v]).
Proof.
  intros H. unfold put. apply wp_bind, wr_wp; [done|]. cbn.
  rewrite zlen_insert, ztake_insert_snoc; done.
Qed.

Lemma u8_id c : byte_ok c → u8 c = c.
Proof. intros. unfold u8. apply Z.mod_small. done. Qed.

Lemma u8_high l : u8 (Z.lor l 128) = Z.lor (u8 l) 128.
Proof.
  unfold u8. rewrite <- !Z.land_ones by lia. rewrite Z.land_lor_distr_l. done.
Qed.

Lemma store_size_wp k out outpos l :
  0 <= l < 2 ^ (7 * Z.of_nat k + 7) → 0 <= outpos → outpos + zlen (enc_size k l) <= zlen out →
  returns (store_size (S k) out outpos l) (λ '(out', outpos'),
    outpos' = outpos + zlen (enc_size k l) ∧ zlen out' = zlen out ∧
    ztake outpos' out' = ztake outpos out ++ enc_size k l).
Proof.
  revert out outpos l. induction k as [|k IH]; intros out outpos l Hl Hpos Hroom.
  - cbn [store_size enc_size] in *. change (zlen [l]) with 1 in *. eval_leb 128 l.
    eapply wp_mono; [|apply put_byte_wp; lia]. intros [o p] (-> & Ho & Ht).
    rewrite u8_id in Ht by (unfold byte_ok; lia). done.
  - remember (S k) as k' eqn:Ek. cbn [store_size]. rewrite Ek in *. cbn [enc_size] in *.
    destruct (Z.leb_spec 128 l).
    + rewrite zlen_cons in *. pose proof (zlen_nonneg (enc_size k (Z.shiftr l 7))).
      apply wp_bind. eapply wp_mono; [|apply put_byte_wp; lia]. intros [o p] (-> & Ho & Ht).
      eapply wp_mono; [|apply IH; [|lia..]].
      * intros [o' p'] (-> & Ho' & Ht'). split_and!; [lia..|].
        rewrite Ht', Ht, u8_high, <- app_assoc. done.
      * rewrite Z.shiftr_div_pow2 by lia. split; [apply Z.div_pos; lia|].
        apply Z.div_lt_upper_bound; [lia|]. rewrite <- Z.pow_add_r by lia.
        replace (7 + (7 * Z.of_nat k + 7)) with (7 * Z.of_nat (S k) + 7) by lia. lia.
    + change (zlen [l]) with 1 in *. eapply wp_mono; [|apply put_byte_wp; lia].
      intros [o p] (-> & Ho & Ht). rewrite u8_id in Ht by (unfold byte_ok; lia). done.
Qed.

Lemma enc_size_stable k l : 0 <= l < 2 ^ (7 * Z.of_nat k + 7) → enc_size (S k) l = enc_size k l.
Proof.
  revert l. induction k as [|k IH]; intros l Hl.
  - cbn [enc_size]. by eval_leb 128 l.
  - assert (∀ m, enc_size (S m) l = if 128 <=? l then Z.lor (u8 l) 128 :: enc_size m (Z.shiftr l 7)
      else [l]) as Heq by done.
    rewrite !Heq. destruct (Z.leb_spec 128 l); [|done]. f_equal. apply IH.
    rewrite Z.shiftr_div_pow2 by lia. split; [apply Z.div_pos; lia|].
    apply Z.div_lt_upper_bound; [lia|]. rewrite <- Z.pow_add_r by lia.
    replace (7 + (7 * Z.of_nat k + 7)) with (7 * Z.of_nat (S k) + 7) by lia. lia.
Qed.

Lemma enc_size_len k n l : 0 <= l < 2 ^ (7 * Z.of_nat n + 7) → zlen (enc_size k l) <= Z.of_nat n + 1.
Proof.
  revert k l. induction n as [|n IH]; intros [|k] l Hl; cbn [enc_size].
  1, 3: change (zlen [l]) with 1; lia.
  all: destruct (Z.leb_spec 128 l); [|change (zlen [l]) with 1; lia].
  - lia.
  - rewrite zlen_cons. cut (zlen (enc_size k (Z.shiftr l 7)) <= Z.of_nat n + 1); [lia|]. apply IH.
    rewrite Z.shiftr_div_pow2 by lia. split; [apply Z.div_pos; lia|].
    apply Z.div_lt_upper_bound; [lia|]. rewrite <- Z.pow_add_r by lia.
    replace (7 + (7 * Z.of_nat n + 7)) with (7 * Z.of_nat (S n) + 7) by lia. lia.
Qed.

(** ** The copy command *)

Lemma mask_byte x shift : 0 <= shift →
  (Z.land x (Z.shiftl 255 shift) =? 0) = (u8 (Z.shiftr x shift) =? 0).
Proof.
  intros Hs. assert (Z.shiftr (Z.land x (Z.shiftl 255 shift)) shift = u8 (Z.shiftr x shift)) as E.
  { rewrite Z.shiftr_land, Z.shiftr_shiftl_l, Z.sub_diag, Z.shiftl_0_r by lia.
    unfold u8. change (2 ^ 8) with 256. by rewrite land_ff. }
  destruct (Z.eqb_spec (Z.land x (Z.shiftl 255 shift)) 0) as [H|H].
  - rewrite H, Z.shiftr_0_l in E. by rewrite <- E.
  - symmetry. apply Z.eqb_neq. rewrite <- E. intros H0. apply H.
    apply Z.bits_inj'. intros i Hi. rewrite Z.testbit_0_l.
    destruct (Z.ltb_spec i shift).
    + rewrite Z.land_spec, Z.shiftl_spec, (Z.testbit_neg_r 255) by lia. apply andb_false_r.
    + apply (f_equal (λ y, Z.testbit y (i - shift))) in H0.
      rewrite Z.shiftr_spec, Z.testbit_0_l in H0 by lia. by replace (i - shift + shift) with i in H0 by lia.
Qed.

Lemma put_param_wp out outpos i x mask shift bit :
  0 <= shift → mask = Z.shiftl 255 shift → 0 <= outpos < zlen out →
  let p := param bit (u8 (Z.shiftr x shift)) in
  returns (put_param (out, outpos, i) x mask shift bit) (λ '(out', outpos', i'),
    i' = Z.lor i p.1 ∧ outpos' = outpos + zlen p.2 ∧ zlen out' = zlen out ∧
    ztake outpos' out' = ztake outpos out ++ p.2).
Proof.
  intros Hs -> Hpos p. unfold put_param. rewrite mask_byte by done. unfold p, param.
  destruct (u8 (Z.shiftr x shift) =? 0); cbn [negb fst snd].
  - cbn. rewrite Z.lor_0_r, Z.add_0_r, app_nil_r. done.
  - apply wp_bind. eapply wp_mono; [|by apply put_byte_wp]. intros [o q] (-> & Ho & Ht). done.
Qed.

Lemma put_copy_wp out outpos moff msize :
  0 <= outpos → outpos + 7 <= zlen out →
  returns (put_copy out outpos moff msize) (λ '(out', outpos'),
    outpos' = outpos + zlen (enc_cmd (DCopy moff msize)) ∧ outpos' <= outpos + 7 ∧
    zlen out' = zlen out ∧
    ztake outpos' out' = ztake outpos out ++ enc_cmd (DCopy moff msize)).
Proof.
  intros Hpos Hroom. unfold put_copy. cbn [enc_cmd copy_params foldr fmap list_fmap concat].
  rewrite zlen_cons, !zlen_app.
  destruct (reserve_slot out outpos ltac:(lia)) as [j Hj].
  repeat match goal with |- context [param ?b ?x] =>
    lazymatch goal with _ : 0 <= zlen (param b x).2 <= 1 |- _ => fail
    | _ => pose proof (param_len b x) end end.
  apply wp_bind. eapply wp_mono; [|apply put_param_wp; [lia|done|lia]].
  intros [[o1 p1] i1] (Ei1 & Ep1 & Eo1 & Et1). rewrite Z.shiftr_0_r in *.
  apply wp_bind. eapply wp_mono; [|apply put_param_wp; [lia|done|lia]].
  intros [[o2 p2] i2] (Ei2 & Ep2 & Eo2 & Et2).
  apply wp_bind. eapply wp_mono; [|apply put_param_wp; [lia|done|lia]].
  intros [[o3 p3] i3] (Ei3 & Ep3 & Eo3 & Et3).
  apply wp_bind. eapply wp_mono; [|apply put_param_wp; [lia|done|lia]].
  intros [[o4 p4] i4] (Ei4 & Ep4 & Eo4 & Et4).
  apply wp_bind. eapply wp_mono; [|apply put_param_wp; [lia|done|lia]].
  intros [[o5 p5] i5] (Ei5 & Ep5 & Eo5 & Et5). rewrite Z.shiftr_0_r in *.
  apply wp_bind. eapply wp_mono; [|apply put_param_wp; [lia|done|lia]].
  intros [[o6 p6] i6] (Ei6 & Ep6 & Eo6 & Et6).
  apply wp_bind, wr_wp; [lia|]. cbn [wp]. rewrite zlen_insert, zlen_nil.
  rewrite Et5, Et4, Et3, Et2, Et1, Hj, <- !app_assoc in Et6. cbn [app] in Et6.
  pose proof (slot_write o6 p6 _ _ _ (u8 i6) ltac:(lia) Et6) as Hw.
  rewrite zlen_ztake in Hw by lia. split_and!; [lia..|]. rewrite Hw. f_equal. f_equal.
  - rewrite Ei6, Ei5, Ei4, Ei3, Ei2, Ei1. fold (copy_params moff msize).
    transitivity (u8 (opcode moff msize)).
    + f_equal. unfold opcode, copy_params. cbn [foldr fst]. Z.bitblast.
    + apply u8_id. apply opcode_bits.
  - by rewrite app_nil_r, <- ?app_assoc.
Qed.

(** ** Matches *)

Lemma zslice_1 {A} (l : list A) from v : 0 <= from → znth l from = Some v → zslice from 1 l = [v].
Proof. intros Hf Hv. unfold zslice. by rewrite (zdrop_cons _ _ _ Hf Hv). Qed.

Lemma ztake_zslice {A} (l : list A) m n : 0 <= m → 0 <= n → ztake (m + n) l = ztake m l ++ zslice m n l.
Proof. intros. apply (zslice_app l 0 m n); lia. Qed.

Lemma match_len_wp n trg s ref_data r :
  0 <= s → s + Z.of_nat n <= zlen trg → 0 <= r → r + Z.of_nat n <= zlen ref_data →
  returns (match_len n trg s ref_data r) (λ k,
    0 <= k <= Z.of_nat n ∧ zslice s k trg = zslice r k ref_data).
Proof.
  revert s r. induction n as [|n IH]; intros s r Hs Hsn Hr Hrn; [done|]. cbn [match_len].
  apply wp_bind, rd_wp; [lia|]. intros a Ha. apply wp_bind, rd_wp; [lia|]. intros b Hb.
  destruct (Z.eqb_spec a b) as [->|]; [|cbn; split; [lia|done]].
  apply wp_bind. eapply wp_mono; [|apply (IH (s + 1) (r + 1)); lia]. intros k [Hk He]. cbn.
  split; [lia|]. rewrite !(Z.add_comm k 1), !zslice_app by lia.
  by rewrite (zslice_1 _ _ _ Hs Ha), (zslice_1 _ _ _ Hr Hb), He.
Qed.

(** [msize] bytes of the target from [data] on are those of the source from
    [moff] on, if [msize] is not 0. *)
Definition matched (src trg : list Z) (data moff msize : Z) : Prop :=
  msize = 0 ∨
  0 <= moff < 2 ^ 32 ∧ 0 < msize < 2 ^ 32 ∧ moff + msize <= zlen src ∧
  data + msize <= zlen trg ∧ zslice moff msize src = zslice data msize trg.

Section loop.
Context (malloc_ok : Z → bool) (index : delta_index) (trg : list Z) (max_size : Z).
Context (Hindex : index_ok index) (Htrg : bytes_ok trg).
Context (Hsrc_len : zlen (src_buf index) < 2 ^ 42) (Htrg_len : zlen trg < 2 ^ 42).
Context (Hmax : 0 <= max_size).

Local Abbreviation src := (src_buf index).
Local Abbreviation top := (zlen trg).

Lemma find_match_wp fuel data v entry stop moff msize :
  0 <= data < top → 0 <= entry → stop <= zlen (packed index) →
  (∀ i e, entry <= i < stop → znth (packed index) i = Some e → entry_ok src e) →
  (Z.to_nat (stop - entry) < fuel)%nat → 0 <= msize → matched src trg data moff msize →
  returns (find_match fuel index trg top data v entry stop moff msize) (λ '(moff', msize'),
    0 <= msize' ∧ matched src trg data moff' msize').
Proof.
  revert entry moff msize. induction fuel as [|fuel IH];
    intros entry moff msize Hd Hent Hstop Hok Hfuel Hm HM; [lia|]. cbn [find_match].
  destruct (Z.ltb_spec entry stop); [|by cbn].
  apply wp_bind, rd_wp; [lia|]. intros e He. cbv zeta.
  destruct (Hok entry e ltac:(lia) He) as (_ & _ & Hptr & H32). unfold RABIN_WINDOW in Hptr.
  assert (∀ moff msize, 0 <= msize → matched src trg data moff msize →
    returns (find_match fuel index trg top data v (entry + 1) stop moff msize) (λ '(moff', msize'),
      0 <= msize' ∧ matched src trg data moff' msize')) as Hnext.
  { intros. apply IH; try done; try lia. intros i e' Hi. apply Hok; lia. }
  destruct (negb (val e =? v)); [by apply Hnext|].
  rewrite (ok_size _ Hindex).
  set (rs := if _ <? _ then _ else _).
  assert (0 <= rs < 2 ^ 32 ∧ rs <= top - data ∧ rs <= zlen src - ptr e) as (Hr1 & Hr2 & Hr3).
  { assert (0 <= u32 (zlen src - ptr e) <= zlen src - ptr e) by
      (split; [apply Z.mod_pos_bound|apply Z.mod_le]; lia).
    assert (u32 (zlen src - ptr e) < 2 ^ 32) by (apply Z.mod_pos_bound; lia).
    unfold rs. destruct (Z.ltb_spec (top - data) (u32 (zlen src - ptr e))); [|lia].
    assert (u32 (top - data) = top - data) as -> by (apply Z.mod_small; lia). lia. }
  clearbody rs. destruct (Z.leb_spec rs msize); [by cbn|].
  apply wp_bind. eapply wp_mono; [|apply match_len_wp; lia]. intros k [Hk Heq].
  destruct (Z.ltb_spec msize k); [|by apply Hnext].
  assert (matched src trg data (ptr e) k) as HM'.
  { right. rewrite Heq. split_and!; try done; lia. }
  destruct (4096 <=? k); [cbn; split; [lia|done]|]. apply Hnext; [lia|done].
Qed.

Lemma search_wp st :
  16 <= d_data st < top → fp_ok (d_val st) → 0 <= d_msize st →
  matched src trg (d_data st) (d_moff st) (d_msize st) →
  returns (search index trg top st) (λ '(v, moff, msize),
    fp_ok v ∧ 0 <= msize ∧ matched src trg (d_data st) moff msize).
Proof.
  intros Hd Hv Hm HM. unfold search, RABIN_WINDOW.
  destruct (d_msize st <? 4096); [|by cbn].
  apply wp_bind, rd_byte_wp; [done|lia|]. intros old _ Hold.
  destruct (U_table old Hold) as (u & Hu & Hfu). rewrite (rd_znth _ _ _ Hu). cbn [obind].
  apply wp_bind, rd_byte_wp; [done|lia|]. intros c _ Hc.
  apply wp_bind. eapply wp_mono; [|apply rabin_wp; [apply lxor_lt_pow2; try done|done]].
  intros v' Hv'. destruct (ok_mask _ Hindex) as (k & Hk & Hmask & Hlen).
  assert (0 < 2 ^ k) by (apply Z.pow_pos_nonneg; lia).
  assert (0 <= Z.land v' (hash_mask index) <= hash_mask index) as Hi.
  { rewrite Hmask, (land_ones_mod _ k) by (rewrite ?Z.ones_equiv; lia).
    pose proof (Z.mod_pos_bound v' (2 ^ k)). lia. }
  destruct (ok_bucket _ Hindex _ Hi) as (start & stop & H1 & H2 & Hss & Hle & _ & Hb).
  rewrite (rd_znth _ _ _ H1), (rd_znth _ _ _ H2). cbn [obind]. apply wp_bind.
  eapply wp_mono; [|apply find_match_wp; try done; try lia].
  - intros [moff' msize'] [Hm' HM']. done.
  - intros i e Hie Hie'. unfold bucket_ok in Hb. rewrite Forall_forall in Hb.
    destruct (Hb e) as [He _]; [|done]. apply list_elem_of_lookup. exists (Z.to_nat (i - start)).
    unfold zslice, ztake, zdrop. rewrite lookup_take_lt by lia. rewrite lookup_drop.
    unfold znth in Hie'. rewrite (proj2 (Z.leb_le 0 i)) in Hie' by lia.
    rewrite <- Hie'. f_equal. lia.
Qed.

(** ** The state of the loop *)

Local Abbreviation header := (enc_size 10 (zlen src) ++ enc_size 10 top).

(** The buffer holds the header, the commands [cs], and the literals that have
    no count byte yet. *)
Definition pending (data inscnt : Z) (junk : Z) : list Z :=
  if inscnt =? 0 then [] else junk :: zslice (data - inscnt) inscnt trg.

Lemma pending_0 data junk : pending data 0 junk = [].
Proof. done. Qed.

Record emitted (out : list Z) (outpos data inscnt : Z) (cs : list dcmd) : Prop := {
  em_inscnt : 0 <= inscnt <= 127;
  em_data : inscnt <= data <= top;
  em_cs : Forall (cmd_ok (zlen src)) cs;
  em_exec : exec_cmds src cs = ztake (data - inscnt) trg;
  em_pos : 0 <= outpos <= zlen out;
  em_out : ∃ junk, ztake outpos out = header ++ enc_cmds cs ++ pending data inscnt junk;
}.

Lemma enc_cmds_snoc cs c : enc_cmds (cs ++ [c]) = enc_cmds cs ++ enc_cmd c.
Proof. unfold enc_cmds. rewrite fmap_app, concat_app. cbn. by rewrite app_nil_r. Qed.

Lemma zslice_bytes from n : bytes_ok (zslice from n trg).
Proof. unfold zslice, ztake, zdrop. by apply Forall_take, Forall_drop. Qed.

(** Writing the count of the pending literals turns them into a command. *)
Lemma flush_literals out outpos data inscnt cs :
  emitted out outpos data inscnt cs → 0 < inscnt →
  0 <= outpos - inscnt - 1 < zlen out ∧
  emitted (<[Z.to_nat (outpos - inscnt - 1) := inscnt]> out) outpos data 0
    (cs ++ [DInsert (zslice (data - inscnt) inscnt trg)]).
Proof.
  intros [Hi Hd Hcs Hex Hp [j Ho]] Hpos. unfold pending in Ho.
  rewrite (proj2 (Z.eqb_neq inscnt 0)) in Ho by lia.
  assert (zlen (zslice (data - inscnt) inscnt trg) = inscnt) as Hl by (apply zlen_zslice; lia).
  pose proof (f_equal zlen Ho) as HL. rewrite app_assoc in Ho.
  rewrite zlen_ztake in HL by done. rewrite !zlen_app, zlen_cons, Hl in HL.
  pose proof (zlen_nonneg (enc_size 10 (zlen src))). pose proof (zlen_nonneg (enc_size 10 top)).
  pose proof (zlen_nonneg (enc_cmds cs)). split; [lia|].
  pose proof (slot_write _ _ _ _ _ inscnt Hp Ho) as Hw. rewrite !zlen_app in Hw.
  replace (zlen (enc_size 10 (zlen src)) + zlen (enc_size 10 top) + zlen (enc_cmds cs))
    with (outpos - inscnt - 1) in Hw by lia.
  split; rewrite ?zlen_insert; try lia; try done.
  - apply Forall_app. split; [done|]. constructor; [|constructor]. cbn. rewrite Hl.
    split; [lia|apply zslice_bytes].
  - rewrite exec_cmds_snoc, Hex, Z.sub_0_r. cbn [exec_cmd].
    replace data with ((data - inscnt) + inscnt) at 3 by lia. rewrite ztake_zslice; [done|lia..].
  - exists 0. rewrite Hw, enc_cmds_snoc. cbn [enc_cmd]. rewrite Hl, pending_0.
    by rewrite app_nil_r, <- !app_assoc.
Qed.

(** ** One literal byte *)

Lemma literal_wp st cs :
  emitted (d_out st) (d_outpos st) (d_data st) (d_inscnt st) cs → d_inscnt st <= 126 →
  d_data st < top → d_outpos st + 2 <= zlen (d_out st) →
  returns (literal trg st) (λ st', (∃ cs',
    emitted (d_out st') (d_outpos st') (d_data st') (d_inscnt st') cs') ∧ d_inscnt st' <= 126 ∧
    zlen (d_out st') = zlen (d_out st) ∧ d_outsize st' = d_outsize st ∧ d_val st' = d_val st ∧
    d_data st' = d_data st + 1 ∧ d_outpos st' <= d_outpos st + 2 ∧ d_msize st' = 0).
Proof.
  destruct st as [out outpos outsize data v moff msize inscnt]. cbn.
  intros [Hi Hd Hcs Hex Hp [j Ho]] Hi126 Hdt Hroom. unfold literal. cbv zeta.
  set (outpos0 := if inscnt =? 0 then outpos + 1 else outpos).
  assert (0 <= outpos0 <= outpos + 1 ∧ ∃ j, ztake outpos0 out =
    header ++ enc_cmds cs ++ j :: zslice (data - inscnt) inscnt trg) as [Hp0 [j0 Hj0]].
  { unfold outpos0, pending in *. destruct (Z.eqb_spec inscnt 0) as [->|].
    - split; [lia|]. destruct (reserve_slot out outpos ltac:(lia)) as [j0 Hj0].
      exists j0. rewrite Hj0, Ho, app_nil_r, <- !app_assoc. done.
    - split; [lia|]. by exists j. }
  clearbody outpos0. apply wp_bind, rd_byte_wp; [done|lia|]. intros c Hc Hcb.
  apply wp_bind. eapply wp_mono; [|apply put_byte_wp; lia]. intros [o p] (-> & Hlo & Ht).
  rewrite u8_id in Ht by done.
  assert (emitted o (outpos0 + 1) (data + 1) (inscnt + 1) cs) as Hem.
  { split; try lia; try done.
    - by replace (data + 1 - (inscnt + 1)) with (data - inscnt) by lia.
    - exists j0. rewrite Ht, Hj0, <- !app_assoc. unfold pending. eval_eqb (inscnt + 1) 0.
      replace (data + 1 - (inscnt + 1)) with (data - inscnt) by lia.
      rewrite (zslice_app _ (data - inscnt) inscnt 1) by lia.
      replace (data - inscnt + inscnt) with data by lia.
      rewrite (zslice_1 _ data c) by (done || lia). done. }
  destruct (Z.eqb_spec (inscnt + 1) 127).
  - destruct (flush_literals _ _ _ _ _ Hem ltac:(lia)) as [Hw Hem'].
    apply wp_bind, wr_wp; [done|]. cbn. rewrite (u8_id (inscnt + 1)) by (unfold byte_ok; lia).
    split_and!; try done; try lia; [by eexists|by rewrite zlen_insert].
  - cbn. split_and!; try done; try lia. by eexists.
Qed.

(** ** Extending a match backwards over the pending literals *)

(** [k] literals were absorbed; if all of them, their count slot too. *)
Definition absorbed (data outpos moff msize inscnt : Z) (r : Z * Z * Z * Z * Z) : Prop :=
  let '(data', outpos', moff', msize', inscnt') := r in
  ∃ k, 0 <= k <= inscnt ∧ data' = data - k ∧ moff' = moff - k ∧ 0 <= moff' ∧
    msize' = msize + k ∧ zslice moff' msize' src = zslice data' msize' trg ∧
    ((inscnt' = inscnt - k ∧ 0 < inscnt' ∧ outpos' = outpos - k) ∨
     (k = inscnt ∧ inscnt' = -1 ∧ outpos' = outpos - inscnt - 1)).

Lemma match_back_wp fuel data outpos moff msize inscnt :
  0 < inscnt <= data → (Z.to_nat inscnt < fuel)%nat → 0 <= moff → 0 <= msize →
  moff + msize <= zlen src → data + msize <= top →
  zslice moff msize src = zslice data msize trg →
  returns (match_back fuel src trg data outpos moff msize inscnt)
    (absorbed data outpos moff msize inscnt).
Proof.
  revert data outpos moff msize inscnt.
  induction fuel as [|fuel IH]; intros data outpos moff msize inscnt Hi Hf Hmo Hms Hs Ht Heq; [lia|].
  cbn [match_back].
  assert (absorbed data outpos moff msize inscnt (data, outpos, moff, msize, inscnt)) as Hstop.
  { exists 0. rewrite !Z.sub_0_r, Z.add_0_r. split_and!; try done; try lia. }
  destruct (Z.eqb_spec moff 0); [done|].
  apply wp_bind, rd_wp; [lia|]. intros a Ha. apply wp_bind, rd_wp; [lia|]. intros b Hb.
  destruct (Z.eqb_spec a b) as [->|]; [|done].
  assert (zslice (moff - 1) (msize + 1) src = zslice (data - 1) (msize + 1) trg) as Heq'.
  { rewrite !(Z.add_comm msize 1), !zslice_app by lia.
    rewrite (zslice_1 src (moff - 1) b), (zslice_1 trg (data - 1) b) by (done || lia).
    replace (moff - 1 + 1) with moff by lia. replace (data - 1 + 1) with data by lia.
    by rewrite Heq. }
  destruct (Z.eqb_spec (inscnt - 1) 0); cbn [negb].
  - exists 1. split_and!; try done; lia.
  - eapply wp_mono; [|apply IH; try done; lia].
    intros [[[[d' o'] mo'] ms'] i'] (k & Hk & -> & -> & Hge & -> & Hsl & Hcase).
    exists (k + 1). split_and!; try lia. done.
Qed.

Lemma emitted_shrink out outpos data inscnt cs k :
  emitted out outpos data inscnt cs → 0 <= k < inscnt →
  emitted out (outpos - k) (data - k) (inscnt - k) cs.
Proof.
  intros [Hi Hd Hcs Hex Hp [j Ho]] Hk. unfold pending in Ho.
  rewrite (proj2 (Z.eqb_neq inscnt 0)) in Ho by lia.
  pose proof (f_equal zlen Ho) as HL. rewrite zlen_ztake in HL by done.
  rewrite !zlen_app, zlen_cons, zlen_zslice in HL by lia.
  pose proof (zlen_nonneg (enc_size 10 (zlen src))). pose proof (zlen_nonneg (enc_size 10 top)).
  pose proof (zlen_nonneg (enc_cmds cs)).
  split; try done; try lia.
  - by replace (data - k - (inscnt - k)) with (data - inscnt) by lia.
  - exists j. unfold pending. eval_eqb (inscnt - k) 0.
    replace (data - k - (inscnt - k)) with (data - inscnt) by lia.
    rewrite <- (ztake_ztake out _ outpos), Ho by lia.
    replace inscnt with ((inscnt - k) + k) at 2 by lia. rewrite zslice_app by lia.
    rewrite app_comm_cons, !app_assoc. apply ztake_app_len'.
    rewrite !zlen_app, zlen_cons, zlen_zslice by lia. lia.
Qed.

Lemma emitted_drop out outpos data inscnt cs :
  emitted out outpos data inscnt cs → 0 < inscnt →
  emitted out (outpos - inscnt - 1) (data - inscnt) 0 cs ∧ 0 <= outpos - inscnt - 1.
Proof.
  intros [Hi Hd Hcs Hex Hp [j Ho]] Hk. unfold pending in Ho.
  rewrite (proj2 (Z.eqb_neq inscnt 0)) in Ho by lia.
  pose proof (f_equal zlen Ho) as HL. rewrite zlen_ztake in HL by done.
  rewrite !zlen_app, zlen_cons, zlen_zslice in HL by lia.
  pose proof (zlen_nonneg (enc_size 10 (zlen src))). pose proof (zlen_nonneg (enc_size 10 top)).
  pose proof (zlen_nonneg (enc_cmds cs)). split; [|lia].
  split; try done; try lia.
  - by rewrite Z.sub_0_r.
  - exists j. rewrite pending_0, app_nil_r.
    rewrite <- (ztake_ztake out _ outpos), Ho by lia. rewrite app_assoc.
    apply ztake_app_len'. rewrite !zlen_app. lia.
Qed.

Lemma emitted_write_after out outpos data inscnt cs x :
  emitted out outpos data inscnt cs → emitted (<[Z.to_nat outpos := x]> out) outpos data inscnt cs.
Proof.
  intros [Hi Hd Hcs Hex Hp [j Ho]]. split; rewrite ?zlen_insert; try done.
  exists j. by rewrite ztake_insert.
Qed.

Lemma emitted_copy out outpos data cs out' outpos' moff msize :
  emitted out outpos data 0 cs → cmd_ok (zlen src) (DCopy moff msize) →
  data + msize <= top → zslice moff msize src = zslice data msize trg →
  0 <= outpos' <= zlen out' →
  ztake outpos' out' = ztake outpos out ++ enc_cmd (DCopy moff msize) →
  emitted out' outpos' (data + msize) 0 (cs ++ [DCopy moff msize]).
Proof.
  intros [Hi Hd Hcs Hex Hp [j Ho]] Hc Hdm Hsl Hp' Ht. pose proof Hc as (? & ? & ?).
  split; try lia.
  - apply Forall_app. split; [done|by constructor].
  - rewrite exec_cmds_snoc, Hex, !Z.sub_0_r. cbn [exec_cmd]. rewrite Hsl.
    rewrite ztake_zslice; [done|lia..].
  - exists 0. rewrite Ht, Ho, enc_cmds_snoc. rewrite pending_0.
    by rewrite !app_nil_r, <- !app_assoc.
Qed.

(** ** One copy command *)

Lemma absorb_literals out outpos data moff msize inscnt cs :
  emitted out outpos data inscnt cs → 16 <= data → outpos + 1 <= zlen out →
  0 <= moff < 2 ^ 32 → 0 < msize < 2 ^ 32 → moff + msize <= zlen src → data + msize <= top →
  zslice moff msize src = zslice data msize trg →
  returns (if negb (inscnt =? 0) then
      let! (data, outpos, moff, msize, inscnt) :=
        match_back (S (Z.to_nat inscnt)) src trg data outpos moff msize inscnt in
      let! out := wr out (outpos - inscnt - 1) (u8 inscnt) in
      Ret (out, outpos, data, moff, msize)
    else Ret (out, outpos, data, moff, msize))
    (λ '(out', outpos', data', moff', msize'), ∃ k cs', 0 <= k <= 127 ∧
      data' = data - k ∧ outpos' <= outpos - k ∧ 0 <= moff' < 2 ^ 32 ∧ msize' = msize + k ∧
      moff' + msize' <= zlen src ∧ zlen out' = zlen out ∧
      zslice moff' msize' src = zslice data' msize' trg ∧
      emitted out' outpos' data' 0 cs').
Proof.
  intros Hem Hd Hroom Hmo Hms Hs Ht Heq. pose proof Hem as [Hi Hdt _ _ Hp _].
  destruct (Z.eqb_spec inscnt 0) as [->|Hne]; cbn [negb].
  { cbn. exists 0, cs. rewrite Z.sub_0_r, Z.add_0_r. split_and!; try done; lia. }
  apply wp_bind. eapply wp_mono; [|apply match_back_wp; try done; lia].
  intros [[[[d' o'] mo'] ms'] i'] (k & Hk & -> & -> & Hge & -> & Hsl & [(-> & Hpos & ->)|(-> & -> & ->)]).
  - pose proof (emitted_shrink _ _ _ _ _ k Hem ltac:(lia)) as Hem1.
    destruct (flush_literals _ _ _ _ _ Hem1 ltac:(lia)) as [Hw Hem2].
    apply wp_bind, wr_wp; [done|]. cbn. rewrite u8_id by (unfold byte_ok; lia).
    exists k. eexists. rewrite zlen_insert. split_and!; [lia..|done|done|exact Hem2].
  - destruct (emitted_drop _ _ _ _ _ Hem ltac:(lia)) as [Hem1 H0].
    replace (outpos - inscnt - 1 - -1 - 1) with (outpos - inscnt - 1) by lia.
    apply wp_bind, wr_wp; [lia|]. cbn. exists inscnt, cs. rewrite zlen_insert.
    split_and!; [lia..|done|done|]. by apply emitted_write_after.
Qed.

Lemma copy_wp st cs :
  emitted (d_out st) (d_outpos st) (d_data st) (d_inscnt st) cs → fp_ok (d_val st) →
  16 <= d_data st → d_outpos st + 7 <= zlen (d_out st) → 4 <= d_msize st →
  matched src trg (d_data st) (d_moff st) (d_msize st) →
  returns (copy src trg st) (λ st', (∃ cs',
    emitted (d_out st') (d_outpos st') (d_data st') (d_inscnt st') cs') ∧ d_inscnt st' = 0 ∧
    zlen (d_out st') = zlen (d_out st) ∧ d_outsize st' = d_outsize st ∧ fp_ok (d_val st') ∧
    d_data st + 4 <= d_data st' ∧ d_outpos st' <= d_outpos st + 7 ∧ 0 <= d_msize st' ∧
    matched src trg (d_data st') (d_moff st') (d_msize st')).
Proof.
  destruct st as [out outpos outsize data v moff msize inscnt]. dst.
  intros Hem Hv Hd Hroom Hms [->|(Hmo & Hms32 & Hs & Ht & Heq)]; [lia|].
  unfold copy. apply wp_bind.
  eapply wp_mono; [|eapply absorb_literals; try done; lia].
  intros [[[[o1 p1] d1] mo1] ms1] (k & cs1 & Hk & -> & Hp1 & Hmo1 & -> & Hs1 & Hl1 & Hsl1 & Hem1).
  pose proof Hem1 as [_ Hd1 _ _ Hp1' _]. cbv zeta.
  set (left := u32 (if msize + k <? 65536 then 0 else msize + k - 65536)).
  assert (left = Z.max 0 (msize + k - 65536)) as Hleft.
  { unfold left, u32. destruct (Z.ltb_spec (msize + k) 65536); rewrite Z.mod_small; lia. }
  clearbody left. set (m := msize + k - left).
  assert (4 <= m <= 65536 ∧ k + 4 <= m ∧ m + left = msize + k ∧ 0 <= left < 2 ^ 32)
    as (Hm & Hkm & Hml & Hlr) by lia.
  clearbody m. apply wp_bind. eapply wp_mono; [|apply put_copy_wp; lia].
  intros [o2 p2] (Hp2 & Hp7 & Hl2 & Ht2).
  rewrite <- Hml, !zslice_app in Hsl1 by lia. apply app_inj_1 in Hsl1 as [Hsla Hslb].
  2:{ assert (zlen (zslice mo1 m src) = zlen (zslice (data - k) m trg)) as E
        by (rewrite !zlen_zslice; lia). unfold zlen in E. lia. }
  pose proof (zlen_nonneg (enc_cmd (DCopy mo1 m))).
  assert (emitted o2 p2 (data - k + m) 0 (cs1 ++ [DCopy mo1 m])) as Hem2.
  { eapply emitted_copy; try done; try lia. cbn. lia. }
  set (ms2 := if 0xffffffff <? mo1 + m then 0 else left).
  assert (0 <= ms2 ∧ matched src trg (data - k + m) (mo1 + m) ms2) as [Hms2 HM2].
  { unfold ms2. destruct (Z.ltb_spec 0xffffffff (mo1 + m)); [split; [done|by left]|].
    split; [lia|]. destruct (decide (left = 0)); [by left|]. right. split_and!; try done; lia. }
  clearbody ms2. destruct (ms2 <? 4096).
  - apply wp_bind. pose proof Hem2 as [_ Hd2 _ _ _ _]. unfold RABIN_WINDOW.
    eapply wp_mono; [|apply rabin_bytes_wp; try done; lia].
    intros v' Hv'. cbn [wp]. dst. split_and!; try done; try lia. by eexists.
  - cbn [wp]. dst. split_and!; try done; try lia. by eexists.
Qed.

(** ** The loop *)

Record linv (st : dstate) : Prop := {
  li_em : ∃ cs, emitted (d_out st) (d_outpos st) (d_data st) (d_inscnt st) cs;
  li_ins : d_inscnt st <= 126;
  li_val : fp_ok (d_val st);
  li_msize : 0 <= d_msize st;
  li_match : matched src trg (d_data st) (d_moff st) (d_msize st);
  li_data : 16 <= d_data st ∨ d_data st = top;
  li_len : zlen (d_out st) = d_outsize st;
  li_size : 36 <= d_outsize st <= 8300 + 3 * d_data st;
  li_room : d_outpos st + 7 <= d_outsize st;
  li_pos : d_outpos st <= 12 + 2 * d_data st;
}.

Definition final (st : dstate) : Prop :=
  (∃ cs, emitted (d_out st) (d_outpos st) (d_data st) (d_inscnt st) cs) ∧
  d_outpos st <= 12 + 2 * d_data st ∧
  (d_data st = top ∨ max_size ≠ 0 ∧ max_size < d_outpos st).

(** What either branch of the loop body leaves behind, before the buffer is
    grown. *)
Lemma body_wp st v moff msize :
  linv st → d_data st < top → fp_ok v → 0 <= msize → matched src trg (d_data st) moff msize →
  let st1 := DState (d_out st) (d_outpos st) (d_outsize st) (d_data st) v moff msize (d_inscnt st) in
  returns (if msize <? 4 then literal trg st1 else copy src trg st1) (λ st',
    (∃ cs, emitted (d_out st') (d_outpos st') (d_data st') (d_inscnt st') cs) ∧
    d_inscnt st' <= 126 ∧ fp_ok (d_val st') ∧ 0 <= d_msize st' ∧
    matched src trg (d_data st') (d_moff st') (d_msize st') ∧
    zlen (d_out st') = d_outsize st' ∧ d_outsize st' = d_outsize st ∧
    d_data st < d_data st' ∧ d_outpos st' <= d_outsize st' ∧
    d_outpos st' <= 12 + 2 * d_data st').
Proof.
  intros [[cs Hem] Hi _ _ _ Hd Hl Hsz Hr Hp] Hdt Hv Hm HM st1.
  destruct (Z.ltb_spec msize 4).
  - eapply wp_mono; [|apply (literal_wp st1 cs); unfold st1; dst; try done; lia]. unfold st1; dst.
    intros st' (Hem' & ? & ? & ? & Hv' & ? & ? & Hms'). rewrite Hv', Hms'.
    split_and!; try done; try lia. by left.
  - eapply wp_mono; [|apply (copy_wp st1 cs); unfold st1; dst; try done; lia]. unfold st1; dst.
    intros st' (Hem' & ? & ? & ? & ? & ? & ? & ? & ?). split_and!; try done; lia.
Qed.

Lemma emitted_realloc out outpos data inscnt cs n :
  emitted out outpos data inscnt cs → outpos <= n →
  emitted (realloc out n) outpos data inscnt cs ∧ zlen (realloc out n) = n.
Proof.
  intros [Hi Hd Hcs Hex Hp [j Ho]] Hn. unfold realloc.
  assert (zlen (ztake n out) = Z.min n (zlen out)) as Hl.
  { destruct (decide (zlen out <= n)); [rewrite ztake_all; lia|rewrite zlen_ztake; lia]. }
  assert (zlen (zrep (n - zlen out) (0:Z)) = Z.max 0 (n - zlen out)) as Hz.
  { unfold zlen, zrep. rewrite length_replicate. lia. }
  rewrite zlen_app, Hl, Hz. split; [|lia].
  split; try done; [rewrite zlen_app; lia|]. exists j. rewrite <- Ho.
  rewrite <- (ztake_ztake (_ ++ _) outpos (zlen (ztake n out))), ztake_app_len by lia.
  by apply ztake_ztake.
Qed.

Lemma delta_step_wp st :
  linv st →
  returns (delta_step malloc_ok index trg top max_size st) (λ r,
    match r with
    | inl st' => linv st' ∧ (Z.to_nat (top - d_data st') < Z.to_nat (top - d_data st))%nat
    | inr None => ∃ n, malloc_ok n = false
    | inr (Some st') => final st'
    end).
Proof.
  intros Hinv. pose proof Hinv as [[cs Hem] Hi Hv Hm HM Hd Hl Hsz Hr Hp].
  pose proof Hem as [_ Hdt _ _ _ _]. unfold delta_step.
  destruct (Z.ltb_spec (d_data st) top) as [Hlt|].
  2:{ cbn [wp]. split; [by exists cs|]. split; [done|]. left. lia. }
  apply wp_bind. eapply wp_mono; [|apply search_wp; try done; lia].
  intros [[v moff] msize] (Hv' & Hm' & HM'). apply wp_bind. cbv zeta.
  eapply wp_mono; [|by apply (body_wp st)].
  intros st1 ([cs1 Hem1] & Hi1 & Hv1 & Hm1 & HM1 & Hl1 & Hos & Hd1 & Hp1 & Hp2).
  pose proof Hem1 as [_ Hdt1 _ _ Hp0 _]. rewrite Hos in *.
  change MAX_OP_SIZE with 34.
  destruct (Z.leb_spec (d_outsize st - 34) (d_outpos st1)).
  2:{ cbn [wp]. split; [|lia]. split; first [done | lia | by exists cs1 | left; lia]. }
  assert (u64 (d_outsize st * 3) = d_outsize st * 3) as -> by (apply Z.mod_small; lia).
  assert (d_outsize st + 18 <= d_outsize st * 3 / 2 <= 3 * d_data st1 + 69) as Hhalf
    by (Z.div_mod_to_equations; lia).
  set (half := d_outsize st * 3 / 2) in *. clearbody half.
  set (os := if negb (max_size =? 0) && (max_size <=? half) then _ else half).
  destruct (negb (max_size =? 0) && (max_size <? d_outpos st1)) eqn:Eover.
  { cbn [wp]. apply andb_true_iff in Eover as [E1 E2]. unfold final. dst.
    split; [by exists cs1|]. split; [done|]. right. lia. }
  assert (d_outpos st1 + 7 <= os ∧ 36 <= os <= 8300 + 3 * d_data st1) as [Hos1 Hos2].
  { unfold os. destruct (Z.eqb_spec max_size 0); cbn [negb andb] in *; [lia|].
    apply Z.ltb_ge in Eover. destruct (Z.leb_spec max_size half); lia. }
  clearbody os. destruct (malloc_ok os) eqn:Emal; cbn [negb]; [|by exists os].
  destruct (emitted_realloc _ _ _ _ _ os Hem1 ltac:(lia)) as [Hem2 Hl2].
  cbn [wp]. dst. split; [|lia]. split; dst; first [done | lia | by exists cs1 | left; lia].
Qed.

(** ** Before the loop *)

Lemma first_literals_wp n out outpos data v :
  0 <= data <= top → 0 <= outpos → outpos + Z.of_nat n <= zlen out → fp_ok v →
  returns (first_literals n trg top out outpos data v) (λ '(out', outpos', data', v'),
    data' = Z.min (data + Z.of_nat n) top ∧ outpos' = outpos + (data' - data) ∧
    zlen out' = zlen out ∧ fp_ok v' ∧
    ztake outpos' out' = ztake outpos out ++ zslice data (data' - data) trg).
Proof.
  revert out outpos data v. induction n as [|n IH]; intros out outpos data v Hd Hp Hroom Hv.
  { cbn [first_literals wp]. change (Z.of_nat 0) with 0.
    rewrite Z.add_0_r, Z.min_l, Z.sub_diag, Z.add_0_r by lia.
    split_and!; try done. change (zslice data 0 trg) with (@nil Z). by rewrite app_nil_r. }
  cbn [first_literals]. destruct (Z.ltb_spec data top) as [Hlt|].
  2:{ cbn [wp]. rewrite Z.min_r, Z.sub_diag by lia.
      split_and!; try done; try lia.
      change (zslice data 0 trg) with (@nil Z). by rewrite app_nil_r. }
  apply wp_bind, rd_byte_wp; [done|lia|]. intros c Hc Hcb.
  apply wp_bind. eapply wp_mono; [|apply put_byte_wp; lia]. intros [o p] (-> & Hlo & Hto).
  apply wp_bind. eapply wp_mono; [|by apply rabin_wp]. intros v' Hv'.
  eapply wp_mono; [|apply IH; try done; lia].
  intros [[[o' p'] d'] v''] (Hd' & Hp' & Hl' & Hv'' & Ht'). split_and!; try done; try lia.
  rewrite Ht', Hto, u8_id, <- app_assoc by done. f_equal.
  replace (d' - data) with (1 + (d' - (data + 1))) by lia.
  rewrite zslice_app, (zslice_1 _ _ c) by (done || lia). done.
Qed.

Lemma create_delta_wp :
  returns (create_delta malloc_ok index trg top max_size) (λ r,
    match r with
    | None => top = 0 ∨ (∃ n, malloc_ok n = false) ∨ max_size ≠ 0
    | Some (out, n) => 0 < top ∧ n <= 12 + 2 * top ∧ (max_size ≠ 0 → n <= max_size) ∧
        0 <= n <= zlen out ∧
        ∃ cs, Forall (cmd_ok (zlen src)) cs ∧ exec_cmds src cs = trg ∧
          ztake n out = enc_delta (zlen src) top cs
    end).
Proof.
  unfold create_delta. pose proof (zlen_nonneg trg). pose proof (zlen_nonneg src).
  destruct (Z.eqb_spec top 0) as [|Hne]; [by left|]. change MAX_OP_SIZE with 34.
  set (outsize := if negb (max_size =? 0) && (max_size <=? 8192) then _ else 8192).
  assert (36 <= outsize <= 8227) as Hos.
  { unfold outsize. destruct (Z.eqb_spec max_size 0); cbn [negb andb]; [lia|].
    destruct (Z.leb_spec max_size 8192); lia. }
  clearbody outsize. destruct (malloc_ok outsize) eqn:?; cbn [negb]; [|by right; left; eexists].
  assert (∀ l, 0 <= l < 2 ^ 42 → zlen (enc_size 10 l) <= 6) as H6.
  { intros l Hl. apply (enc_size_len 10 5). cbn. lia. }
  pose proof (H6 (zlen src) ltac:(lia)). pose proof (H6 top ltac:(lia)).
  pose proof (zlen_nonneg (enc_size 10 (zlen src))). pose proof (zlen_nonneg (enc_size 10 top)).
  assert (∀ l, 0 <= l < 2 ^ 42 → enc_size 9 l = enc_size 10 l) as Hst.
  { intros l Hl. symmetry. apply enc_size_stable. cbn. lia. }
  rewrite (ok_size _ Hindex). pose proof (zlen_zrep outsize (0:Z) ltac:(lia)) as Hz.
  apply wp_bind. eapply wp_mono; [|apply (store_size_wp 9); rewrite ?Hst by lia; try lia].
  rewrite Hst by lia. intros [o1 p1] (Hp1 & Hl1 & Ht1).
  apply wp_bind. eapply wp_mono; [|apply (store_size_wp 9); rewrite ?Hst by lia; try lia].
  rewrite Hst by lia. intros [o2 p2] (Hp2 & Hl2 & Ht2).
  destruct (reserve_slot o2 p2 ltac:(lia)) as [j Hj].
  apply wp_bind. eapply wp_mono; [|apply first_literals_wp; try done; lia].
  intros [[[o3 p3] d3] v3] (Hd3 & Hp3 & Hl3 & Hv3 & Ht3). rewrite Z.sub_0_r in *.
  apply wp_bind.
  eapply wp_mono; [|apply (iter_wp linv (λ st, Z.to_nat (top - d_data st)) False
    (delta_step malloc_ok index trg top max_size)
    (λ r, match r with None => ∃ n, malloc_ok n = false | Some st => final st end));
    [|split; dst|dst; lia]].
  - intros [st|]; [|by intros; right; left].
    intros ([cs Hem] & Hpos & Hend).
    set (fin := if negb (d_inscnt st =? 0) then wr _ _ _ else _).
    assert (returns fin (λ out, zlen out = zlen (d_out st) ∧ ∃ cs,
      emitted out (d_outpos st) (d_data st) 0 cs)) as Hfin.
    { unfold fin. destruct (Z.eqb_spec (d_inscnt st) 0) as [E|E]; cbn [negb].
      - rewrite E in Hem. cbn [wp]. split; [done|by exists cs].
      - destruct (flush_literals _ _ _ _ _ Hem) as [Hw Hem2]; [pose proof (em_inscnt _ _ _ _ _ Hem); lia|].
        apply wr_wp; [done|].
        rewrite u8_id by (pose proof (em_inscnt _ _ _ _ _ Hem); unfold byte_ok; lia).
        rewrite zlen_insert. split; [done|by eexists]. }
    apply wp_bind. eapply wp_mono; [|exact Hfin]. intros out (Hlo & cs' & [_ Hdt Hcs Hex Hp [j' Ho]]).
    destruct (Z.eqb_spec max_size 0) as [->|Hmne]; cbn [negb andb].
    + destruct Hend as [Hend|[]]; [|lia..]. cbn [wp]. rewrite Hend in *.
      split_and!; try done; try lia. exists cs'. split_and!; try done.
      * rewrite Hex, Z.sub_0_r. apply ztake_all. lia.
      * rewrite Ho, pending_0, app_nil_r. unfold enc_delta. by rewrite <- app_assoc.
    + destruct (Z.ltb_spec max_size (d_outpos st)); [by right; right|].
      destruct Hend as [Hend|[]]; [|lia..]. cbn [wp]. rewrite Hend in *.
      split_and!; try done; try lia. exists cs'. split_and!; try done.
      * rewrite Hex, Z.sub_0_r. apply ztake_all. lia.
      * rewrite Ho, pending_0, app_nil_r. unfold enc_delta. by rewrite <- app_assoc.
  - intros st Hst'. eapply wp_mono; [|by apply delta_step_wp]. by intros [|[|]].
  - exists []. split; try lia.
    + constructor.
    + by rewrite Z.sub_diag.
    + exists j. unfold pending. eval_eqb d3 0. rewrite Z.sub_diag, Ht3, Hj, Ht2, Ht1.
      cbn [app enc_cmds concat fmap list_fmap]. by rewrite ztake_0, <- !app_assoc.
  - lia.
  - done.
  - done.
  - by left.
  - lia.
  - lia.
  - lia.
  - lia.
  - lia.
Qed.

End loop.

(** ** Properties *)

(** The client of an index, against what the index promises. *)
Lemma create_delta_correct malloc_ok index trg max_size :
  index_ok index → bytes_ok trg →
  zlen (src_buf index) < 2 ^ 42 → zlen trg < 2 ^ 42 → 0 <= max_size →
  returns (create_delta malloc_ok index trg (zlen trg) max_size) (λ r,
    match r with
    | None => zlen trg = 0 ∨ (∃ n, malloc_ok n = false) ∨ max_size ≠ 0
    | Some (out, n) =>
        patch_delta (src_buf index) (zlen (src_buf index)) out n = Ret (Some trg) ∧
        n <= 12 + 2 * zlen trg ∧ (max_size ≠ 0 → n <= max_size)
    end).
Proof.
  intros Hix Htrg Hs Ht Hmax. eapply wp_mono; [|by apply create_delta_wp].
  intros [[out n]|]; [|done]. intros (Hpos & Hn & Hm & Hr & cs & Hcs & Hex & Henc).
  split_and!; try done. subst trg.
  pose proof (patch_delta_enc (src_buf index) cs (zdrop n out) ltac:(lia) ltac:(lia) Hcs) as Hp.
  cbv zeta in Hp. rewrite <- Henc, ztake_zdrop, zlen_ztake in Hp by done. done.
Qed.

(** C1. Delta round trip: whenever [diff_delta] produces a delta of [trg]
    against [src], both below 2^42 bytes, [patch_delta] applied to [src] and that delta returns [trg];
    the delta respects [max_size]; no delta is produced only for an empty
    buffer, an allocation that failed, or a size limit.  No read or write of the
    encoder or the decoder is out of bounds, and both terminate. *)
Theorem diff_delta_roundtrip malloc_ok src trg max_size :
  bytes_ok src → bytes_ok trg → zlen src < 2 ^ 42 → zlen trg < 2 ^ 42 → 0 <= max_size →
  returns (diff_delta malloc_ok src (zlen src) trg (zlen trg) max_size) (λ r,
    match r with
    | None => zlen src = 0 ∨ zlen trg = 0 ∨ (∃ n, malloc_ok n = false) ∨ max_size ≠ 0
    | Some (out, n) =>
        patch_delta src (zlen src) out n = Ret (Some trg) ∧
        n <= 12 + 2 * zlen trg ∧ (max_size ≠ 0 → n <= max_size)
    end).
Proof.
  intros Hsrc Htrg Hs Ht Hmax. unfold diff_delta. apply wp_bind.
  eapply wp_mono; [|apply create_delta_index_ok; [done|lia]].
  intros [index|]; [|naive_solver]. intros [Hix <-].
  eapply wp_mono; [|by apply create_delta_correct]. intros [[out n]|]; [done|naive_solver].
Qed.

Lemma diff_delta_roundtrip_witness :
  bytes_ok sample_src ∧
  returns (diff_delta (λ _, true) sample_src (zlen sample_src) sample_trg (zlen sample_trg) 0) (λ r,
    match r with
    | None => zlen sample_src = 0 ∨ zlen sample_trg = 0 ∨ (∃ n, (λ _ : Z, true) n = false) ∨ 0 ≠ 0
    | Some (out, n) =>
        patch_delta sample_src (zlen sample_src) out n = Ret (Some sample_trg) ∧
        n <= 12 + 2 * zlen sample_trg ∧ (0 ≠ 0 → n <= 0)
    end).
Proof.
  split; [apply bytes_ok_dec; vm_compute; reflexivity|].
  apply diff_delta_roundtrip; [apply bytes_ok_dec; vm_compute; reflexivity..| | |];
    vm_compute; congruence.
Defined.

End DeltaRoundtrip.
