(* ===== verification/PackHeader.v ===== *)
(** * Object headers of a pack (pack-write.c, packfile.c, builtin/pack-objects.c)

    Every object of a pack starts with its type and size; an offset delta goes
    on with the distance back to its base.  The writers are
    [encode_in_pack_object_header] and the loop in [write_no_reuse_object]; the
    readers [unpack_object_header_buffer] and [get_delta_base]. *)
From stdpp Require Import prelude.
From S2P Require Import Prelude Varint Delta.

Module PackHeader.

(** object.h *)
Definition OBJ_COMMIT : Z := 1.
Definition OBJ_OFS_DELTA : Z := 6.
Definition OBJ_REF_DELTA : Z := 7.

(** pack.h *)
Definition MAX_PACK_OBJECT_HEADER : Z := 10.

(** [hdr] is the caller's buffer, [n] the bytes written or about to be; the
    fuel is the number of bytes of a 64-bit size. *)
Fixpoint encode_header_loop (fuel : nat) (hdr : list Z) (hdr_len n c size : Z)
  : outcome (list Z * Z) :=
  match fuel with
  | O => NoFuel
  | S fuel =>
      if size =? 0 then
        let! hdr := wr hdr (n - 1) c in
        Ret (hdr, n)
      else if n =? hdr_len then Die
      else
        let! hdr := wr hdr (n - 1) (Z.lor c 128) in
        encode_header_loop fuel hdr hdr_len (n + 1) (Z.land size 127) (Z.shiftr size 7)
  end.

Definition encode_in_pack_object_header (hdr : list Z) (hdr_len type size : Z)
  : outcome (list Z * Z) :=
  if (type <? OBJ_COMMIT) || (OBJ_REF_DELTA <? type) then Die
  else
    let c := u8 (Z.lor (Z.shiftl type 4) (Z.land size 15)) in
    encode_header_loop 10 hdr hdr_len 1 c (Z.shiftr size 4).

(** The answer is [(used, type, size)]; a bad header gives 0 for the first and
    the last. *)
Fixpoint unpack_header_loop (fuel : nat) (buf : list Z) (len c size used shift : Z)
  : outcome (Z * Z) :=
  match fuel with
  | O => NoFuel
  | S fuel =>
      if Z.land c 128 =? 0 then Ret (size, used)
      else if (len <=? used) || (64 - 7 <? shift) then Ret (0, 0)
      else
        let! c := rd buf used in
        let used := used + 1 in
        let! s := Delta.st_left_shift (Z.land c 127) shift in
        let! size := st_add size s in
        unpack_header_loop fuel buf len c size used (shift + 7)
  end.

Definition unpack_object_header_buffer (buf : list Z) (len : Z) : outcome (Z * Z * Z) :=
  let! c := rd buf 0 in
  let type := Z.land (Z.shiftr c 4) 7 in
  let! (size, used) := unpack_header_loop 10 buf len c (Z.land c 15) 1 4 in
  let! size := Delta.cast_size_t_to_ulong size in
  Ret (used, type, size).

(** ** The distance to the base of an offset delta

    [off_t] is signed, with 64 bits; its arithmetic wraps. *)
Definition i64 (x : Z) : Z := (x + 2 ^ 63) mod 2 ^ 64 - 2 ^ 63.

(** [while (ofs >>= 7) dheader[--pos] = 128 | (--ofs & 127);] *)
Fixpoint ofs_loop (fuel : nat) (dheader : list Z) (pos ofs : Z) : outcome (list Z * Z) :=
  match fuel with
  | O => NoFuel
  | S fuel =>
      let ofs := Z.shiftr ofs 7 in
      if ofs =? 0 then Ret (dheader, pos)
      else
        let pos := u32 (pos - 1) in
        let ofs := i64 (ofs - 1) in
        let! dheader := wr dheader pos (Z.lor 128 (Z.land ofs 127)) in
        ofs_loop fuel dheader pos ofs
  end.

(** The bytes [dheader + pos, ...) that are written to the pack. *)
Definition encode_ofs_delta (offset base_offset : Z) : outcome (list Z) :=
  let dheader := zrep MAX_PACK_OBJECT_HEADER 0 in
  let ofs := i64 (offset - base_offset) in
  let pos := MAX_PACK_OBJECT_HEADER - 1 in
  let! dheader := wr dheader pos (Z.land ofs 127) in
  let! (dheader, pos) := ofs_loop 10 dheader pos ofs in
  Ret (zdrop pos dheader).

(** [MSB(base_offset, 7)]: the upper seven bits. *)
Definition MSB7 (x : Z) : Z := Z.land (x mod 2 ^ 64) (Z.shiftl 127 57).

(** [base_info] is the window that [use_pack] returned.  [None] is the early
    [return 0] on overflow. *)
Fixpoint delta_base_loop (fuel : nat) (base_info : list Z) (c base_offset used : Z)
  : outcome (option (Z * Z)) :=
  match fuel with
  | O => NoFuel
  | S fuel =>
      if Z.land c 128 =? 0 then Ret (Some (base_offset, used))
      else
        let base_offset := i64 (base_offset + 1) in
        if (base_offset =? 0) || negb (MSB7 base_offset =? 0) then Ret None
        else
          let! c := rd base_info used in
          delta_base_loop fuel base_info c (i64 (Z.shiftl base_offset 7 + Z.land c 127)) (used + 1)
  end.

(** [find_base oid] is [find_pack_entry_one] on the pack; [rawsz] the size of
    its hashes.  The answer is the offset of the base and the new [*curpos]. *)
Definition get_delta_base (find_base : list Z → outcome Z) (rawsz : Z)
    (base_info : list Z) (curpos type delta_obj_offset : Z) : outcome (Z * Z) :=
  if type =? OBJ_OFS_DELTA then
    let! c := rd base_info 0 in
    let! r := delta_base_loop 11 base_info c (Z.land c 127) 1 in
    match r with
    | None => Ret (0, curpos)
    | Some (base_offset, used) =>
        let base_offset := i64 (delta_obj_offset - base_offset) in
        if (base_offset <=? 0) || (delta_obj_offset <=? base_offset) then Ret (0, curpos)
        else Ret (base_offset, curpos + used)
    end
  else if type =? OBJ_REF_DELTA then
    let! oid := rd_range base_info 0 rawsz in
    let! base_offset := find_base oid in
    Ret (base_offset, curpos + rawsz)
  else Die.

(** ** The header code as a pure function *)
Fixpoint hdr_bytes (k : nat) (c size : Z) : list Z :=
  match k with
  | O => [c]
  | S k =>
      if size =? 0 then [c]
      else Z.lor c 128 :: hdr_bytes k (Z.land size 127) (Z.shiftr size 7)
  end.

Lemma zlen_hdr_bytes k c size : 1 <= zlen (hdr_bytes k c size) <= 1 + Z.of_nat k.
Proof.
  revert c size. induction k as [|k IH]; intros c size; cbn [hdr_bytes]; [zlia|].
  destruct (size =? 0); [zlia|]. rewrite zlen_cons.
  specialize (IH (Z.land size 127) (Z.shiftr size 7)). lia.
Qed.

(** The bits above the low seven of a number below [2 ^ (7 * S k)]. *)
Lemma shiftr7_lt size k :
  0 <= size < 2 ^ (7 * Z.of_nat (S k)) → 0 <= Z.shiftr size 7 < 2 ^ (7 * Z.of_nat k).
Proof.
  intros Hs. rewrite Varint.shiftr7. split; [apply Z.div_pos; lia|]. apply Z.div_lt_upper_bound; [lia|].
  change 128 with (2 ^ 7). rewrite <- Z.pow_add_r by lia.
  replace (7 + 7 * Z.of_nat k) with (7 * Z.of_nat (S k)) by lia. lia.
Qed.

Lemma encode_header_loop_ok k pre post hl n c size :
  0 <= size < 2 ^ (7 * Z.of_nat k) → hl = zlen pre + zlen post → n = zlen pre + 1 →
  zlen (hdr_bytes k c size) <= zlen post →
  ∃ post', zlen post' = zlen post - zlen (hdr_bytes k c size) ∧
    encode_header_loop (S k) (pre ++ post) hl n c size =
    Ret (pre ++ hdr_bytes k c size ++ post', zlen pre + zlen (hdr_bytes k c size)).
Proof.
  revert pre post n c size. induction k as [|k IH]; intros pre post n c size Hs -> -> Hp.
  - assert (size = 0) as -> by lia. cbn [hdr_bytes] in Hp. destruct post as [|x post]; [zlia|].
    exists post. split; [cbn [hdr_bytes]; zlia|]. cbn [encode_header_loop hdr_bytes]. change (0 =? 0) with true.
    cbn match. rewrite (wr_at _ pre x post) by (done || lia). done.
  - remember (S k) as k' eqn:Ek. cbn [encode_header_loop]. subst k'. cbn [hdr_bytes] in Hp |- *.
    destruct (Z.eqb_spec size 0) as [Hz|Hnz].
    + destruct post as [|x post]; [zlia|]. exists post. split; [zlia|].
      rewrite (wr_at _ pre x post) by (done || lia). done.
    + destruct post as [|x post]; [rewrite zlen_cons in Hp; zlia|].
      pose proof (zlen_hdr_bytes k (Z.land size 127) (Z.shiftr size 7)).
      rewrite !zlen_cons in Hp. destruct (Z.eqb_spec (zlen pre + 1) (zlen pre + zlen (x :: post))); [zlia|].
      rewrite (wr_at _ pre x post) by (done || lia). cbn [obind].
      destruct (IH (pre ++ [Z.lor c 128]) post (zlen pre + 1 + 1) (Z.land size 127) (Z.shiftr size 7))
        as (post' & L & E); [by apply shiftr7_lt|zlia..|].
      exists post'. split; [zlia|]. rewrite <- !app_assoc in E. cbn [app] in E. rewrite E.
      do 2 f_equal. zlia.
Qed.

(** The writer gives up exactly when the code does not fit. *)
Lemma encode_header_loop_die k pre post hl n c size :
  0 <= size < 2 ^ (7 * Z.of_nat k) → hl = zlen pre + zlen post → n = zlen pre + 1 →
  1 <= zlen post < zlen (hdr_bytes k c size) →
  encode_header_loop (S k) (pre ++ post) hl n c size = Die.
Proof.
  revert pre post n c size. induction k as [|k IH]; intros pre post n c size Hs -> -> Hp.
  { cbn [hdr_bytes] in Hp. zlia. }
  remember (S k) as k' eqn:Ek. cbn [encode_header_loop]. subst k'. cbn [hdr_bytes] in Hp.
  destruct (Z.eqb_spec size 0) as [Hz|Hnz]; [zlia|].
  destruct (Z.eqb_spec (zlen pre + 1) (zlen pre + zlen post)) as [|Hne]; [done|].
  destruct post as [|x post]; [zlia|]. rewrite !zlen_cons in Hp, Hne.
  rewrite (wr_at _ pre x post) by (done || lia). cbn [obind].
  change (Z.lor c 128 :: post) with ([Z.lor c 128] ++ post). rewrite app_assoc.
  apply IH; [by apply shiftr7_lt|zlia..].
Qed.

(** ** Reading a header back *)

(** A byte of the code with its continuation flag. *)
Definition cont (c size : Z) : Z := if size =? 0 then c else Z.lor c 128.

Lemma hdr_bytes_cont k c size :
  0 <= size < 2 ^ (7 * Z.of_nat k) →
  ∃ tl, hdr_bytes k c size = cont c size :: tl ∧
    (size ≠ 0 → ∃ k', k = S k' ∧ tl = hdr_bytes k' (Z.land size 127) (Z.shiftr size 7)).
Proof.
  unfold cont. destruct k as [|k]; intros Hs.
  { assert (size = 0) as -> by lia. by exists []. }
  cbn [hdr_bytes]. destruct (Z.eqb_spec size 0); eexists; split; try done. intros _. by eexists.
Qed.

Lemma cont_high c size : 0 <= c < 128 → cont c size = c + (if size =? 0 then 0 else 128).
Proof.
  intros Hc. unfold cont. destruct (size =? 0); [lia|]. rewrite Z.lor_comm.
  replace (c) with (Z.land c 127) at 1 by (rewrite land_7f, Z.mod_small; lia).
  rewrite Varint.cont_bit, Z.mod_small; lia.
Qed.
Lemma cont_flag c size : 0 <= c < 128 → (Z.land (cont c size) 128 =? 0) = (size =? 0).
Proof.
  intros Hc. unfold cont. destruct (size =? 0).
  - rewrite <- (Z.mod_small c 128), <- land_7f, Varint.no_cont_bit by lia. done.
  - rewrite Z.land_lor_distr_l. change (Z.land 128 128) with 128.
    rewrite <- (Z.mod_small c 128), <- land_7f, Varint.no_cont_bit by lia. done.
Qed.
Lemma cont_value c size : 0 <= c < 128 → Z.land (cont c size) 127 = c.
Proof. intros Hc. rewrite cont_high, land_7f by done. destruct (size =? 0); Z.div_mod_to_equations; lia. Qed.

Lemma pow_step j : 0 <= j → 2 ^ (4 + 7 * (j + 1)) = 128 * 2 ^ (4 + 7 * j).
Proof. intros. replace (4 + 7 * (j + 1)) with (7 + (4 + 7 * j)) by lia. rewrite Z.pow_add_r by lia. done. Qed.

Lemma unpack_header_loop_ok k j fuel buf len pre rest c size acc :
  0 <= size < 2 ^ (7 * Z.of_nat k) → 0 <= c < 128 →
  0 <= j <= 8 → 0 <= acc < 2 ^ (4 + 7 * j) → (9 - j < Z.of_nat fuel) →
  buf = pre ++ hdr_bytes k c size ++ rest → zlen buf <= len →
  unpack_header_loop fuel buf len (cont c size) acc (zlen pre + 1) (4 + 7 * j) =
  Ret (let total := acc + size * 2 ^ (4 + 7 * j) in
       if total <? 2 ^ 60 then (total, zlen pre + zlen (hdr_bytes k c size)) else (0, 0)).
Proof.
  revert k pre c size acc j. induction fuel as [|fuel IH]; intros k pre c size acc j Hs Hc Hj Ha Hf Hb Hl; [lia|].
  destruct (hdr_bytes_cont k c size Hs) as (tl & Ht & Htl).
  cbn [unpack_header_loop]. rewrite cont_flag by done.
  destruct (Z.eqb_spec size 0) as [->|Hnz].
  { assert (2 ^ (4 + 7 * j) <= 2 ^ 60) by (apply Z.pow_le_mono_r; lia).
    eval_ltb (acc + 0 * 2 ^ (4 + 7 * j)) (2 ^ 60). destruct k; cbn [hdr_bytes]; do 2 f_equal; zlia. }
  destruct (Htl Hnz) as (k' & -> & ->). cbn zeta.
  pose proof (zlen_hdr_bytes k' (Z.land size 127) (Z.shiftr size 7)) as Hk'.
  assert (zlen pre + 1 < len). { subst buf. rewrite Ht in Hl. zlia. }
  eval_leb len (zlen pre + 1). cbn [orb].
  destruct (Z.ltb_spec (64 - 7) (4 + 7 * j)).
  { assert (j = 8) as -> by lia. change (4 + 7 * 8) with 60. destruct (Z.ltb_spec (acc + size * 2 ^ 60) (2 ^ 60)); [nia|done]. }
  apply shiftr7_lt in Hs as Hs'.
  assert (0 <= Z.land size 127 < 128) as Hc' by (rewrite land_7f; apply Z.mod_pos_bound; lia).
  destruct (hdr_bytes_cont k' (Z.land size 127) (Z.shiftr size 7) Hs') as (tl' & Ht' & _).
  rewrite (rd_at buf (pre ++ [cont c size]) (cont (Z.land size 127) (Z.shiftr size 7)) (tl' ++ rest));
    [|subst buf; rewrite Ht, Ht'; solve_app|zlia].
  cbn [obind]. rewrite cont_value by done.
  assert (0 < 2 ^ (4 + 7 * j) <= 2 ^ 53) by (split; [apply Z.pow_pos_nonneg; lia|apply Z.pow_le_mono_r; lia]).
  pose proof (pow_step j ltac:(lia)) as E7.
  rewrite Delta.st_left_shift_ok by nia. cbn [obind]. unfold st_add.
  destruct (Z.ltb_spec (2 ^ 64 - 1 - acc) (Z.land size 127 * 2 ^ (4 + 7 * j))); [nia|]. cbn [obind].
  replace (4 + 7 * j + 7) with (4 + 7 * (j + 1)) by lia.
  replace (zlen pre + 1 + 1) with (zlen (pre ++ [cont c size]) + 1) by zlia.
  rewrite (IH k'); [|done..|lia|nia|lia| |done].
  2:{ subst buf. rewrite Ht. solve_app. }
  cbn zeta. rewrite E7, Varint.shiftr7, land_7f in *.
  replace (acc + size mod 128 * 2 ^ (4 + 7 * j) + size / 128 * (128 * 2 ^ (4 + 7 * j)))
    with (acc + size * 2 ^ (4 + 7 * j)) by (pose proof (Z.div_mod size 128); nia).
  destruct (_ <? _); [|done]. rewrite Ht. do 2 f_equal. zlia.
Qed.

(** The first byte: the type above the low four bits of the size. *)
Lemma first_byte type size flag :
  1 <= type <= 7 → 0 <= size →
  u8 (Z.lor (Z.shiftl type 4) (Z.land size 15)) = 16 * type + size mod 16 ∧
  0 <= 16 * type + size mod 16 < 128 ∧
  Z.land (Z.shiftr (cont (16 * type + size mod 16) flag) 4) 7 = type ∧
  Z.land (cont (16 * type + size mod 16) flag) 15 = size mod 16.
Proof.
  intros Ht Hs. rewrite (land_ones_mod size 4 15) by (done || lia). change (2 ^ 4) with 16.
  pose proof (Z.mod_pos_bound size 16). rewrite lor_disjoint_add by lia. change (2 ^ 4) with 16.
  split_and!; [unfold u8; rewrite Z.mod_small; lia|lia|lia|..]; rewrite cont_high by lia.
  - rewrite (land_ones_mod _ 3 7), Z.shiftr_div_pow2 by (done || lia). change (2 ^ 4) with 16. change (2 ^ 3) with 8.
    destruct (flag =? 0); Z.div_mod_to_equations; lia.
  - rewrite (land_ones_mod _ 4 15) by (done || lia). change (2 ^ 4) with 16.
    destruct (flag =? 0); Z.div_mod_to_equations; lia.
Qed.

(** What [encode_in_pack_object_header] writes, and what is read from it. *)
Lemma encode_header_bytes hdr type size :
  OBJ_COMMIT <= type <= OBJ_REF_DELTA → 0 <= size < 2 ^ 64 → MAX_PACK_OBJECT_HEADER <= zlen hdr →
  let bytes := hdr_bytes 9 (16 * type + size mod 16) (Z.shiftr size 4) in
  1 <= zlen bytes <= 10 ∧
  ∃ post, zlen bytes + zlen post = zlen hdr ∧
    encode_in_pack_object_header hdr (zlen hdr) type size = Ret (bytes ++ post, zlen bytes).
Proof.
  intros Ht Hs Hl bytes. unfold OBJ_COMMIT, OBJ_REF_DELTA, MAX_PACK_OBJECT_HEADER in *.
  pose proof (zlen_hdr_bytes 9 (16 * type + size mod 16) (Z.shiftr size 4)) as Hb. fold bytes in Hb.
  split; [lia|]. unfold encode_in_pack_object_header, OBJ_COMMIT, OBJ_REF_DELTA.
  eval_ltb type 1. eval_ltb 7 type. cbn [orb]. cbn zeta.
  destruct (first_byte type size 0) as [-> _]; [lia..|].
  destruct (encode_header_loop_ok 9 [] hdr (zlen hdr) 1 (16 * type + size mod 16) (Z.shiftr size 4))
    as (post & L & E); [|done..|unfold bytes in Hb; lia|].
  - rewrite Z.shiftr_div_pow2 by lia. change (2 ^ 4) with 16. change (2 ^ (7 * Z.of_nat 9)) with (2 ^ 63).
    Z.div_mod_to_equations; lia.
  - exists post. split; [unfold bytes; lia|]. exact E.
Qed.

Lemma unpack_header_bytes type size rest len :
  OBJ_COMMIT <= type <= OBJ_REF_DELTA → 0 <= size < 2 ^ 64 →
  let bytes := hdr_bytes 9 (16 * type + size mod 16) (Z.shiftr size 4) in
  zlen (bytes ++ rest) <= len →
  unpack_object_header_buffer (bytes ++ rest) len =
  Ret (if size <? 2 ^ 60 then (zlen bytes, type, size) else (0, type, 0)).
Proof.
  intros Ht Hs bytes Hl. unfold OBJ_COMMIT, OBJ_REF_DELTA in *.
  destruct (first_byte type size (Z.shiftr size 4)) as (_ & Hc & Etype & Elow); [lia..|].
  assert (0 <= Z.shiftr size 4 < 2 ^ (7 * Z.of_nat 9)) as Hs4.
  { rewrite Z.shiftr_div_pow2 by lia. change (2 ^ 4) with 16. change (2 ^ (7 * Z.of_nat 9)) with (2 ^ 63).
    Z.div_mod_to_equations; lia. }
  unfold unpack_object_header_buffer. unfold bytes in *.
  destruct (hdr_bytes_cont 9 (16 * type + size mod 16) (Z.shiftr size 4) Hs4) as (tl & Et & _).
  rewrite (rd_at _ [] (cont (16 * type + size mod 16) (Z.shiftr size 4)) (tl ++ rest));
    [|by rewrite Et|done].
  cbn [obind]. rewrite Etype, Elow. pose proof (Z.mod_pos_bound size 16).
  pose proof (unpack_header_loop_ok 9 0 10 _ len [] rest (16 * type + size mod 16) (Z.shiftr size 4) (size mod 16)
    Hs4 Hc ltac:(lia) ltac:(change (2 ^ (4 + 7 * 0)) with 16; lia) ltac:(lia) eq_refl Hl) as Hloop.
  cbn [app] in Hloop. change (zlen (@nil Z) + 1) with 1 in Hloop. change (4 + 7 * 0) with 4 in Hloop.
  rewrite Hloop. cbn zeta. cbn [obind].
  replace (size mod 16 + Z.shiftr size 4 * 2 ^ 4) with size
    by (rewrite Z.shiftr_div_pow2 by lia; change (2 ^ 4) with 16; pose proof (Z.div_mod size 16); lia).
  unfold Delta.cast_size_t_to_ulong, u64.
  destruct (size <? 2 ^ 60); [|done]. cbn [obind]. rewrite Z.mod_small by lia. rewrite Z.eqb_refl. done.
Qed.

(** The reader on arbitrary bytes. *)
Lemma unpack_header_loop_safe fuel buf len c size used j :
  bytes_ok buf → byte_ok c → 1 <= used <= len → len <= zlen buf → 0 <= j <= 8 → 9 - j < Z.of_nat fuel →
  0 <= size < 2 ^ (4 + 7 * j) →
  returns (unpack_header_loop fuel buf len c size used (4 + 7 * j)) (λ '(size, used'),
    0 <= size < 2 ^ 60 ∧ (size = 0 ∧ used' = 0 ∨ used <= used' <= len)).
Proof.
  revert c size used j. induction fuel as [|fuel IH]; intros c size used j Hb Hc Hu Hl Hj Hf Hs; [lia|].
  cbn [unpack_header_loop].
  assert (2 ^ (4 + 7 * j) <= 2 ^ 60) by (apply Z.pow_le_mono_r; lia).
  destruct (Z.land c 128 =? 0); [cbn; lia|].
  destruct (Z.leb_spec len used); [cbn; lia|]. cbn [orb].
  destruct (Z.ltb_spec (64 - 7) (4 + 7 * j)); [cbn; lia|].
  apply wp_bind, rd_byte_wp; [done|lia|]. intros c' _ Hc'.
  assert (0 <= Z.land c' 127 < 128) by (rewrite land_7f; apply Z.mod_pos_bound; lia).
  assert (0 < 2 ^ (4 + 7 * j) <= 2 ^ 53) by (split; [apply Z.pow_pos_nonneg; lia|apply Z.pow_le_mono_r; lia]).
  rewrite Delta.st_left_shift_ok by nia. cbn [obind]. unfold st_add.
  destruct (Z.ltb_spec (2 ^ 64 - 1 - size) (Z.land c' 127 * 2 ^ (4 + 7 * j))); [nia|]. cbn [obind].
  replace (4 + 7 * j + 7) with (4 + 7 * (j + 1)) by lia.
  eapply wp_mono; [|apply IH; try done; try lia].
  - intros [size' used'] [? Hu']. cbv beta. split; [done|]. lia.
  - rewrite pow_step by lia. assert (0 <= Z.land c' 127 * 2 ^ (4 + 7 * j) <= 127 * 2 ^ (4 + 7 * j)) by nia. lia.
Qed.

Lemma unpack_object_header_buffer_wp buf len :
  bytes_ok buf → 1 <= len <= zlen buf →
  returns (unpack_object_header_buffer buf len) (λ '(used, type, size),
    0 <= type < 8 ∧ 0 <= size < 2 ^ 60 ∧ 0 <= used <= len ∧ (used = 0 → size = 0)).
Proof.
  intros Hb Hl. unfold unpack_object_header_buffer. apply wp_bind, rd_byte_wp; [done|lia|]. intros c _ Hc.
  assert (0 <= Z.land c 15 < 2 ^ 4) by (rewrite (land_ones_mod c 4 15) by (done || lia); by apply Z.mod_pos_bound).
  apply wp_bind. eapply wp_mono; [|apply (unpack_header_loop_safe 10 buf len c _ 1 0); try done; lia].
  intros [size used] [Hs Hu]. cbv beta. unfold Delta.cast_size_t_to_ulong, u64.
  rewrite Z.mod_small, Z.eqb_refl by lia. cbn.
  rewrite (land_ones_mod _ 3 7) by (done || lia). split_and!; try lia; apply Z.mod_pos_bound; lia.
Qed.

(** ** The distance code is the offset varint *)
Lemma i64_small x : - 2 ^ 63 <= x < 2 ^ 63 → i64 x = x.
Proof. intros. unfold i64. rewrite Z.mod_small; lia. Qed.

Lemma ofs_loop_varint fuel dheader pos ofs :
  0 <= ofs < 2 ^ 63 → ofs_loop fuel dheader pos ofs = Varint.encode_loop fuel dheader pos ofs.
Proof.
  revert dheader pos ofs. induction fuel as [|fuel IH]; intros dheader pos ofs Ho; [done|].
  cbn [ofs_loop Varint.encode_loop]. rewrite Varint.shiftr7.
  destruct (Z.eqb_spec (ofs / 128) 0); [done|].
  assert (0 < ofs / 128 < 2 ^ 63) by (Z.div_mod_to_equations; lia).
  rewrite i64_small by lia. unfold u64. rewrite Z.mod_small by lia.
  destruct (wr _ _ _); cbn [obind]; [|done..]. apply IH. lia.
Qed.

Lemma encode_ofs_delta_ref offset base_offset :
  0 < base_offset < offset → offset < 2 ^ 63 →
  encode_ofs_delta offset base_offset =
  Ret (Varint.ref_bytes 10 (offset - base_offset) [Z.land (offset - base_offset) 127]).
Proof.
  intros Hb Ho. unfold encode_ofs_delta, MAX_PACK_OBJECT_HEADER. rewrite i64_small by lia.
  set (v := offset - base_offset). assert (0 <= v < 2 ^ 63) by lia. clearbody v.
  rewrite wr_ok by (vm_compute; split; congruence). cbn [obind].
  rewrite ofs_loop_varint by lia.
  destruct (Varint.encode_loop_ref 9 (<[Z.to_nat (10 - 1) := Z.land v 127]> (zrep 10 0)) (10 - 1) v
    [Z.land v 127]) as (varint' & pos' & E & E'); try done; try lia.
  rewrite E. cbn [obind]. by rewrite E'.
Qed.


Lemma decode_step c2 buf c val :
  0 <= val < 2 ^ 64 → Z.land c 128 ≠ 0 →
  Varint.decode_loop (c2 :: buf) c val =
  if val + 1 <? 2 ^ 57 then Varint.decode_loop buf c2 ((val + 1) * 128 + Z.land c2 127) else None.
Proof.
  intros Hv Hc. cbn [Varint.decode_loop]. destruct (Z.eqb_spec (Z.land c 128) 0); [done|].
  assert (0 <= Z.land c2 127 < 128) by (rewrite land_7f; apply Z.mod_pos_bound; lia).
  destruct (decide (val = 2 ^ 64 - 1)) as [->|]; [done|].
  replace (u64 (val + 1)) with (val + 1) by (unfold u64; rewrite Z.mod_small; lia).
  destruct (Z.eqb_spec (val + 1) 0); [lia|]. destruct (Z.ltb_spec (val + 1) (2 ^ 57)).
  - rewrite Varint.msb7_zero by lia. cbn [orb negb Z.eqb]. f_equal.
    unfold u64. rewrite Varint.shiftl7, (Z.mod_small (_ * _)), Z.mod_small; lia.
  - destruct (Z.eqb_spec (Z.land (val + 1) (Z.shiftl 127 57)) 0) as [E|]; [|done].
    apply Varint.msb7_small in E; lia.
Qed.

(** A successful decode consumes part of its input, and its value only grows. *)
Lemma decode_loop_mono buf c val v rest :
  0 <= val < 2 ^ 64 → Varint.decode_loop buf c val = Some (Ret (v, rest)) →
  zlen rest <= zlen buf ∧ val <= v.
Proof.
  revert c val. induction buf as [|c2 buf IH]; intros c val Hval.
  { cbn [Varint.decode_loop]. destruct (Z.land c 128 =? 0); [by intros [= -> <-]|by destruct (_ || _)]. }
  destruct (decide (Z.land c 128 = 0)) as [E|E].
  { cbn [Varint.decode_loop]. rewrite E. by intros [= -> <-]. }
  rewrite decode_step by done. destruct (Z.ltb_spec (val + 1) (2 ^ 57)); [|done].
  assert (0 <= Z.land c2 127 < 128) by (rewrite land_7f; apply Z.mod_pos_bound; lia).
  intros [??]%IH; [split; zlia|lia].
Qed.

(** Where the unsigned varint decoder succeeds with a value that fits [off_t],
    the loop of [get_delta_base] computes the same value. *)
Lemma delta_base_loop_varint fuel base_info pre buf rest c val v :
  base_info = pre ++ buf → 0 <= val → v < 2 ^ 63 → zlen buf - zlen rest < Z.of_nat fuel →
  0 <= val < 2 ^ 64 → Varint.decode_loop buf c val = Some (Ret (v, rest)) →
  delta_base_loop fuel base_info c val (zlen pre) = Ret (Some (v, zlen pre + (zlen buf - zlen rest))).
Proof.
  revert pre c val fuel. induction buf as [|c2 buf IH]; intros pre c val fuel Hb Hval Hv Hf Hv64 Hd;
    destruct (decode_loop_mono _ _ _ _ _ Hv64 Hd) as [Hlen Hle]; (destruct fuel as [|fuel]; [lia|]);
    cbn [delta_base_loop]; destruct (Z.eqb_spec (Z.land c 128) 0) as [E|E].
  1, 3: revert Hd; cbn [Varint.decode_loop]; rewrite E; intros [= -> <-]; rewrite Z.sub_diag, Z.add_0_r; done.
  { revert Hd. cbn [Varint.decode_loop]. destruct (Z.eqb_spec (Z.land c 128) 0); [done|]. by destruct (_ || _). }
  rewrite decode_step in Hd by done. destruct (Z.ltb_spec (val + 1) (2 ^ 57)); [|done].
  assert (0 <= Z.land c2 127 < 128) by (rewrite land_7f; apply Z.mod_pos_bound; lia).
  apply decode_loop_mono in Hd as Hm; [|lia]. destruct Hm as [Hlen' Hle'].
  rewrite i64_small by lia. eval_eqb (val + 1) 0. unfold MSB7. rewrite (Z.mod_small (val + 1)), Varint.msb7_zero by lia.
  cbn [orb negb Z.eqb]. rewrite (rd_at _ pre c2 buf) by done. cbn [obind].
  rewrite Varint.shiftl7, i64_small by lia.
  replace (zlen pre + 1) with (zlen (pre ++ [c2])) by zlia.
  rewrite (IH (pre ++ [c2])); try done; try lia.
  - do 2 f_equal. f_equal. zlia.
  - subst base_info. solve_app.
  - zlia.
Qed.


Lemma ofs_delta_decodes v rest :
  0 <= v < 2 ^ 63 →
  let bytes := Varint.ref_bytes 10 v [Z.land v 127] in
  1 <= zlen bytes <= 11 ∧
  ∃ c tl, bytes = c :: tl ∧
    Varint.decode_loop (tl ++ rest) c (Z.land c 127) = Some (Ret (v, rest)).
Proof.
  intros Hv bytes. pose proof (Varint.zlen_ref_bytes 10 v [Z.land v 127]) as Hl. fold bytes in Hl.
  change (zlen [Z.land v 127]) with 1 in Hl. split; [lia|].
  pose proof (Varint.ref_decodes v rest ltac:(lia)) as Hd.
  rewrite (Varint.ref_bytes_enough 10 11) in Hd by (try lia; change (2 ^ (7 * Z.of_nat 10)) with (2 ^ 70); lia).
  fold bytes in Hd. clearbody bytes. destruct bytes as [|c tl]; [zlia|]. exists c, tl. split; [done|].
  cbn [app Varint.decode_varint] in Hd. destruct (Varint.decode_loop _ _ _) as [r|] eqn:E; [by subst r|].
  injection Hd as _ Hd. apply (f_equal zlen) in Hd. zlia.
Qed.

Lemma get_delta_base_ofs find rawsz v rest curpos offset :
  0 < v < offset → offset < 2 ^ 63 →
  let bytes := Varint.ref_bytes 10 v [Z.land v 127] in
  get_delta_base find rawsz (bytes ++ rest) curpos OBJ_OFS_DELTA offset =
  Ret (offset - v, curpos + zlen bytes).
Proof.
  intros Hv Ho bytes. destruct (ofs_delta_decodes v rest) as (Hl & c & tl & E & Hd); [lia|].
  fold bytes in Hl, E. rewrite E. rewrite E in Hl. cbn [app]. unfold get_delta_base.
  cbn [Z.eqb OBJ_OFS_DELTA Pos.eqb]. rewrite (rd_at _ [] c (tl ++ rest)) by done. cbn [obind].
  pose proof (delta_base_loop_varint 11 (c :: tl ++ rest) [c] (tl ++ rest) rest c (Z.land c 127) v eq_refl) as Hb.
  assert (0 <= Z.land c 127 < 128) by (rewrite land_7f; apply Z.mod_pos_bound; lia).
  change (zlen [c]) with 1 in Hb. rewrite Hb; [|lia..|zlia|lia|done]. cbn [obind].
  rewrite i64_small by lia. eval_leb (offset - v) 0. eval_leb offset (offset - v). cbn [orb].
  do 2 f_equal. zlia.
Qed.

(** On arbitrary bytes: at most ten are read before the value overflows. *)
Lemma delta_base_loop_safe fuel base_info c base_offset used :
  bytes_ok base_info → 10 <= zlen base_info →
  1 <= used <= 9 ∧ 2 ^ (7 * (used - 1)) <= base_offset + (if used =? 1 then 1 else 0) ∧ 0 <= base_offset < 2 ^ 63 ∨
  2 <= used <= 10 ∧ - 2 ^ 63 <= base_offset < 0 →
  11 <= used + Z.of_nat fuel → (1 <= fuel)%nat →
  returns (delta_base_loop fuel base_info c base_offset used) (λ r,
    match r with Some (b, u) => - 2 ^ 63 <= b < 2 ^ 63 ∧ used <= u <= 10 | None => True end).
Proof.
  intros Hok Hlen. revert c base_offset used. induction fuel as [|fuel IH]; intros c b used Hinv Hf Hf1; [lia|].
  cbn [delta_base_loop]. destruct (Z.land c 128 =? 0); [cbn; lia|].
  destruct Hinv as [(Hu & Hlow & Hb)|(Hu & Hb)].
  2:{ rewrite i64_small by lia. destruct (Z.eqb_spec (b + 1) 0); [done|]. cbn [orb]. unfold MSB7.
      destruct (Z.eqb_spec (Z.land ((b + 1) mod 2 ^ 64) (Z.shiftl 127 57)) 0) as [E|]; [|done].
      apply Varint.msb7_small in E; [|apply Z.mod_pos_bound; lia].
      replace ((b + 1) mod 2 ^ 64) with (b + 1 + 2 ^ 64) in E; [lia|].
      apply (Z.mod_unique_pos _ _ (-1)); lia. }
  destruct (decide (b + 1 < 2 ^ 57)) as [Hlt|Hge].
  2:{ assert ((i64 (b + 1) =? 0) || negb (MSB7 (i64 (b + 1)) =? 0) = true) as ->; [|done].
      apply orb_true_iff. right. apply negb_true_iff, Z.eqb_neq. unfold MSB7, i64. intros E.
      rewrite Zminus_mod_idemp_l in E. replace (b + 1 + 2 ^ 63 - 2 ^ 63) with (b + 1) in E by lia.
      rewrite Z.mod_small in E by lia. apply Varint.msb7_small in E; lia. }
  rewrite i64_small by lia. eval_eqb (b + 1) 0. unfold MSB7. rewrite (Z.mod_small (b + 1)), Varint.msb7_zero by lia.
  cbn [orb negb Z.eqb]. apply wp_bind, rd_byte_wp; [done|lia|]. intros c' _ Hc'.
  assert (0 <= Z.land c' 127 < 128) by (rewrite land_7f; apply Z.mod_pos_bound; lia).
  rewrite Varint.shiftl7.
  assert (2 ^ (7 * (used + 1 - 1)) = 128 * 2 ^ (7 * (used - 1))) as E7.
  { replace (7 * (used + 1 - 1)) with (7 + 7 * (used - 1)) by lia. rewrite Z.pow_add_r by lia. done. }
  assert (128 * 2 ^ (7 * (used - 1)) <= (b + 1) * 128) as Hgrow.
  { destruct (used =? 1); lia. }
  destruct fuel as [|fuel]; [lia|].
  eapply wp_mono; [|apply IH; [|lia..]].
  { intros [[b' u]|] Hr; [|done]. lia. }
  destruct (decide ((b + 1) * 128 + Z.land c' 127 < 2 ^ 63)) as [Hs|Hs].
  - left. rewrite i64_small by lia. eval_eqb (used + 1) 1. split_and!; try lia.
    apply Z.nlt_ge. intros H9. assert (used = 9) as -> by lia. change (2 ^ (7 * (9 - 1))) with (2 ^ 56) in *. lia.
  - right. unfold i64. replace (((b + 1) * 128 + Z.land c' 127 + 2 ^ 63) mod 2 ^ 64)
      with ((b + 1) * 128 + Z.land c' 127 - 2 ^ 63); [lia|].
    apply (Z.mod_unique_pos _ _ 1); lia.
Qed.

Lemma get_delta_base_wp find rawsz base_info curpos type delta_obj_offset :
  bytes_ok base_info → 20 <= zlen base_info → type = OBJ_OFS_DELTA ∨ type = OBJ_REF_DELTA →
  0 <= rawsz <= zlen base_info → 0 <= delta_obj_offset < 2 ^ 63 →
  (∀ oid, zlen oid = rawsz → returns (find oid) (λ off, 0 <= off)) →
  returns (get_delta_base find rawsz base_info curpos type delta_obj_offset) (λ '(base, curpos'),
    0 <= base ∧ curpos <= curpos' <= curpos + Z.max 10 rawsz ∧
    (type = OBJ_OFS_DELTA → base = 0 ∧ curpos' = curpos ∨ 0 < base < delta_obj_offset)).
Proof.
  intros Hok Hlen Hty Hr Hd Hfind. unfold get_delta_base.
  destruct Hty as [-> | ->]; cbn [Z.eqb OBJ_OFS_DELTA OBJ_REF_DELTA Pos.eqb].
  - apply wp_bind, rd_byte_wp; [done|lia|]. intros c _ Hc.
    assert (0 <= Z.land c 127 < 128) by (rewrite land_7f; apply Z.mod_pos_bound; lia).
    apply wp_bind. eapply wp_mono; [|apply (delta_base_loop_safe 11); try done; [lia| |lia]].
    2:{ left. change (1 =? 1) with true. change (2 ^ (7 * (1 - 1))) with 1. cbn match. lia. }
    intros [[b u]|]; [intros [Hb Hu]|intros _; cbn; lia]. cbv beta.
    destruct (Z.leb_spec (i64 (delta_obj_offset - b)) 0); [cbn; lia|].
    destruct (Z.leb_spec delta_obj_offset (i64 (delta_obj_offset - b))); cbn; lia.
  - apply wp_bind, rd_range_wp; [lia..|]. apply wp_bind. eapply wp_mono; [|apply Hfind; zlia].
    cbv beta. intros off Hoff. cbn. split_and!; try lia. intros [=].
Qed.


(** ** Properties *)

(** C25. The object header: for every object type and every 64-bit size, ten bytes
    of room are enough, and reading what was written gives back the type, the
    size and the length of the header, whatever follows it, provided the size is
    below [2 ^ 60]; the writer also formats larger sizes, which the reader
    reports as a bad header. *)
Theorem pack_header_roundtrip hdr type size rest :
  OBJ_COMMIT <= type <= OBJ_REF_DELTA → 0 <= size < 2 ^ 64 → MAX_PACK_OBJECT_HEADER <= zlen hdr →
  returns (encode_in_pack_object_header hdr (zlen hdr) type size) (λ '(hdr', n),
    zlen hdr' = zlen hdr ∧ 1 <= n <= MAX_PACK_OBJECT_HEADER ∧
    let buf := ztake n hdr' ++ rest in
    unpack_object_header_buffer buf (zlen buf) =
    Ret (if size <? 2 ^ 60 then (n, type, size) else (0, type, 0))).
Proof.
  intros Ht Hs Hl. destruct (encode_header_bytes hdr type size Ht Hs Hl) as (Hn & post & Hp & ->).
  cbn [wp]. unfold MAX_PACK_OBJECT_HEADER. rewrite zlen_app, ztake_app_len. split_and!; try lia.
  by apply unpack_header_bytes.
Qed.

Lemma pack_header_roundtrip_witness :
  returns (encode_in_pack_object_header (zrep 10 0) (zlen (zrep 10 0)) 3 70000) (λ '(hdr', n),
    zlen hdr' = zlen (zrep 10 0) ∧ 1 <= n <= MAX_PACK_OBJECT_HEADER ∧
    let buf := ztake n hdr' ++ [120; 156] in
    unpack_object_header_buffer buf (zlen buf) =
    Ret (if 70000 <? 2 ^ 60 then (n, 3, 70000) else (0, 3, 0))).
Proof. apply pack_header_roundtrip; [unfold OBJ_COMMIT, OBJ_REF_DELTA; lia|lia|vm_compute; discriminate]. Defined.

(** An offset-delta entry: the header followed by the distance to the base is
    read back by [unpack_object_header_buffer] and [get_delta_base] as the same
    size, base offset and position of the data that follows. *)
Theorem ofs_delta_roundtrip find rawsz hdr size offset base_offset rest :
  0 <= size < 2 ^ 60 → 0 < base_offset < offset → offset < 2 ^ 63 → MAX_PACK_OBJECT_HEADER <= zlen hdr →
  returns (let! (hdr', n) := encode_in_pack_object_header hdr (zlen hdr) OBJ_OFS_DELTA size in
           let! dheader := encode_ofs_delta offset base_offset in
           Ret (n, ztake n hdr' ++ dheader))
    (λ '(n, entry), returns
      (let! (used, type, size') := unpack_object_header_buffer (entry ++ rest) (zlen (entry ++ rest)) in
       let! (base, curpos) := get_delta_base find rawsz (zdrop used (entry ++ rest)) used type offset in
       Ret (type, size', base, curpos))
      (λ r, r = (OBJ_OFS_DELTA, size, base_offset, zlen entry))).
Proof.
  intros Hs Hb Ho Hl.
  assert (OBJ_COMMIT <= OBJ_OFS_DELTA <= OBJ_REF_DELTA) as Ht by (unfold OBJ_COMMIT, OBJ_OFS_DELTA, OBJ_REF_DELTA; lia).
  destruct (encode_header_bytes hdr OBJ_OFS_DELTA size Ht ltac:(lia) Hl) as (Hn & post & Hp & ->).
  cbn [obind]. rewrite encode_ofs_delta_ref by lia. cbn [obind wp].
  rewrite ztake_app_len, <- app_assoc. rewrite unpack_header_bytes by (done || lia).
  eval_ltb size (2 ^ 60). cbn [obind]. rewrite zdrop_app_len.
  rewrite get_delta_base_ofs by lia. cbn [obind wp]. rewrite zlen_app. do 2 f_equal. lia.
Qed.

Lemma ofs_delta_roundtrip_witness :
  returns (let! (hdr', n) := encode_in_pack_object_header (zrep 10 0) (zlen (zrep 10 0)) OBJ_OFS_DELTA 1234 in
           let! dheader := encode_ofs_delta 100000 12 in
           Ret (n, ztake n hdr' ++ dheader))
    (λ '(n, entry), returns
      (let! (used, type, size') := unpack_object_header_buffer (entry ++ [1]) (zlen (entry ++ [1])) in
       let! (base, curpos) := get_delta_base (λ _, Ret 0) 20 (zdrop used (entry ++ [1])) used type 100000 in
       Ret (type, size', base, curpos))
      (λ r, r = (OBJ_OFS_DELTA, 1234, 12, zlen entry))).
Proof. apply ofs_delta_roundtrip; [lia|lia|lia|vm_compute; discriminate]. Defined.

(** On arbitrary pack bytes the two readers stay inside the window, end, and
    answer with a size below [2 ^ 60] and, for an offset delta, with 0 (a corrupt
    entry) or an offset that lies strictly before the object.  Twenty bytes are
    what [use_pack] guarantees. *)
Theorem pack_entry_parse_safe find rawsz window len curpos delta_obj_offset :
  bytes_ok window → 1 <= len <= zlen window → 20 <= zlen window → 0 <= rawsz <= zlen window →
  0 <= delta_obj_offset < 2 ^ 63 → (∀ oid, zlen oid = rawsz → returns (find oid) (λ off, 0 <= off)) →
  returns (unpack_object_header_buffer window len) (λ '(used, type, size),
    0 <= type < 8 ∧ 0 <= size < 2 ^ 60 ∧ 0 <= used <= len ∧ (used = 0 → size = 0)) ∧
  returns (get_delta_base find rawsz window curpos OBJ_OFS_DELTA delta_obj_offset) (λ '(base, curpos'),
    0 <= base ∧ curpos <= curpos' <= curpos + Z.max 10 rawsz ∧
    (base = 0 ∧ curpos' = curpos ∨ 0 < base < delta_obj_offset)) ∧
  returns (get_delta_base find rawsz window curpos OBJ_REF_DELTA delta_obj_offset) (λ '(base, curpos'),
    0 <= base ∧ curpos <= curpos' <= curpos + Z.max 10 rawsz).
Proof.
  intros Hb Hl H20 Hr Hd Hf. split; [by apply unpack_object_header_buffer_wp|].
  split; (eapply wp_mono; [|by apply get_delta_base_wp; auto]); intros [base cur'] (H1 & H2 & H3); auto.
Qed.

Lemma pack_entry_parse_safe_witness :
  returns (unpack_object_header_buffer (zrep 24 255) 24) (λ '(used, type, size),
    0 <= type < 8 ∧ 0 <= size < 2 ^ 60 ∧ 0 <= used <= 24 ∧ (used = 0 → size = 0)) ∧
  returns (get_delta_base (λ _, Ret 7) 20 (zrep 24 255) 100 OBJ_OFS_DELTA 5000) (λ '(base, curpos'),
    0 <= base ∧ 100 <= curpos' <= 100 + Z.max 10 20 ∧
    (base = 0 ∧ curpos' = 100 ∨ 0 < base < 5000)) ∧
  returns (get_delta_base (λ _, Ret 7) 20 (zrep 24 255) 100 OBJ_REF_DELTA 5000) (λ '(base, curpos'),
    0 <= base ∧ 100 <= curpos' <= 100 + Z.max 10 20).
Proof.
  apply pack_entry_parse_safe; try (change (zlen (zrep 24 255)) with 24; lia); try lia.
  - apply bytes_ok_dec. reflexivity.
  - intros oid _. cbn. lia.
Defined.

End PackHeader.
