(* ===== verification/BlockHash.v ===== *)
(** * Hashing in blocks of 64 bytes (the update and final functions of
      block-sha1/sha1.c and sha256/block/sha256.c)

    The two implementations share the text of their update and final functions
    up to the names: data is collected in a buffer of one block, full blocks go
    to the compression function straight from the caller's memory where
    possible.  This file has them once, over the compression function, and shows
    that they compute the padded Merkle-Damgard iteration whatever the pieces
    the data comes in. *)
From stdpp Require Import prelude.
From S2P Require Import Prelude Endian.
Import Endian.

Module BlockHash.

Section block_hash.
(** The chaining value, and the compression function, which reads the block at
    the start of the given memory. *)
Context {H : Type} (compress : H → list Z → outcome H).

Record blk_ctx := Blk_ctx { size : Z; state : H; buf : list Z }.

(** [while (len >= 64)] *)
Fixpoint blocks_loop (fuel : nat) (st : H) (data : list Z) : outcome (H * list Z) :=
  match fuel with
  | O => NoFuel
  | S fuel =>
      if zlen data <? 64 then Ret (st, data)
      else
        let! st := compress st data in
        blocks_loop fuel st (zdrop 64 data)
  end.

(** The first part of the update function: filling up the buffer.  [None] is
    the early return. *)
Definition fill_buffer (lenW : Z) (st : H) (b data : list Z) : outcome (H * list Z * option (list Z)) :=
  if lenW =? 0 then Ret (st, b, Some data)
  else
    let left := 64 - lenW in
    let left := if zlen data <? left then zlen data else left in
    let! b := memcpy b lenW (ztake left data) in
    let lenW := Z.land (lenW + left) 63 in
    let data := zdrop left data in
    if negb (lenW =? 0) then Ret (st, b, None)
    else
      let! st := compress st b in
      Ret (st, b, Some data).

Definition update (ctx : blk_ctx) (data : list Z) : outcome blk_ctx :=
  let lenW := Z.land (size ctx) 63 in
  let size' := u64 (size ctx + zlen data) in
  let! (st, b, r) := fill_buffer lenW (state ctx) (buf ctx) data in
  match r with
  | None => Ret (Blk_ctx size' st b)
  | Some data =>
      let! (st, data) := blocks_loop (S (length data)) st data in
      if zlen data =? 0 then Ret (Blk_ctx size' st b)
      else
        let! b := memcpy b 0 data in
        Ret (Blk_ctx size' st b)
  end.

(** [pad] and [padlen]. *)
Definition pad : list Z := 0x80 :: zrep 63 0.
Definition padlen (size : Z) : list Z :=
  be32 (u32 (Z.shiftr size 29)) ++ be32 (u32 (u64 (Z.shiftl size 3))).

(** The padding of the final function; the digest is in the state it ends with. *)
Definition final_state (ctx : blk_ctx) : outcome H :=
  let len := padlen (size ctx) in
  let i := Z.land (size ctx) 63 in
  let! padding := rd_range pad 0 (1 + Z.land 63 (55 - i)) in
  let! ctx := update ctx padding in
  let! ctx := update ctx len in
  Ret (state ctx).

End block_hash.
Arguments blk_ctx : clear implicits.
Arguments Blk_ctx {H} size state buf.
Arguments size {H} b.
Arguments state {H} b.
Arguments buf {H} b.

(** ** The specification: pad the message, then iterate over its blocks *)
Section spec.
Context {H : Type} (comp : H → list Z → H).

Fixpoint absorb_n (n : nat) (st : H) (l : list Z) : H :=
  match n with O => st | S n => absorb_n n (comp st (ztake 64 l)) (zdrop 64 l) end.
Definition absorb (st : H) (l : list Z) : H := absorb_n (Z.to_nat (zlen l / 64)) st l.

(** A one bit, as many zeroes as it takes, and the length in bits. *)
Definition padded (m : list Z) : list Z :=
  m ++ [0x80] ++ zrep ((55 - zlen m) mod 64) 0 ++ be64 (u64 (8 * zlen m)).

Lemma absorb_short st l : zlen l < 64 → absorb st l = st.
Proof.
  intros Hl. unfold absorb. rewrite Z.div_small; [done|]. zlen_pos. lia.
Qed.
Lemma absorb_cons st b l : zlen b = 64 → absorb st (b ++ l) = absorb (comp st b) l.
Proof.
  intros Hb. unfold absorb. rewrite zlen_app, Hb. zlen_pos.
  replace (64 + zlen l) with (zlen l + 1 * 64) by lia. rewrite Z.div_add by lia.
  pose proof (Z.div_pos (zlen l) 64).
  replace (Z.to_nat (zlen l / 64 + 1)) with (S (Z.to_nat (zlen l / 64))) by lia. cbn [absorb_n].
  by rewrite ztake_app_len', zdrop_app_len' by done.
Qed.
Lemma absorb_app k a : zlen a = 64 * k → ∀ st b, absorb st (a ++ b) = absorb (absorb st a) b.
Proof.
  intros Ha. assert (0 <= k) as Hk by zlia. revert a Ha. pattern k. apply Zlt_0_ind; [|done].
  intros x IH Hx a Ha st b. destruct (decide (x = 0)) as [->|].
  - destruct a; [|zlia]. done.
  - assert (∃ u v, a = u ++ v ∧ zlen u = 64) as (u & v & -> & Hu).
    { exists (ztake 64 a), (zdrop 64 a). rewrite ztake_zdrop. split; [done|]. zlia. }
    rewrite <- app_assoc, (absorb_cons st u), (absorb_cons st u v) by done. apply (IH (x - 1)); zlia.
Qed.
End spec.


(** ** Message schedules

    A schedule is a list of words that grows by a function of the words so far. *)
Section schedule.
Context (next : list Z → Z).

Definition word (ws : list Z) (t : Z) : Z := default 0 (znth ws t).
Fixpoint extend (n : nat) (ws : list Z) : list Z :=
  match n with O => ws | S n => extend n (ws ++ [next ws]) end.

Lemma zlen_extend n : ∀ ws, zlen (extend n ws) = zlen ws + Z.of_nat n.
Proof. induction n as [|n IH]; intros ws; cbn [extend]; [lia|]. rewrite IH. zlia. Qed.
Lemma ztake_extend n : ∀ ws, ztake (zlen ws) (extend n ws) = ws.
Proof.
  induction n as [|n IH]; intros ws; cbn [extend]; [by rewrite ztake_all|].
  rewrite <- (ztake_ztake _ (zlen ws) (zlen (ws ++ [next ws]))) by zlia. rewrite IH. apply ztake_app_len.
Qed.
Lemma word_ztake ws n t : t < n → word (ztake n ws) t = word ws t.
Proof. intros. unfold word. by rewrite znth_ztake. Qed.
Lemma word_extend_old n ws t : t < zlen ws → word (extend n ws) t = word ws t.
Proof. intros Ht. rewrite <- (ztake_extend n ws) at 2. by rewrite word_ztake. Qed.
Lemma word_extend_new n : ∀ ws t, zlen ws <= t < zlen ws + Z.of_nat n →
  word (extend n ws) t = next (ztake t (extend n ws)).
Proof.
  induction n as [|n IH]; intros ws t Ht; cbn [extend]; [lia|].
  destruct (decide (t = zlen ws)) as [->|].
  - rewrite word_extend_old by zlia. unfold word. rewrite znth_app_len. cbn [default from_option id].
    rewrite <- (ztake_ztake _ (zlen ws) (zlen (ws ++ [next ws]))) by zlia. by rewrite ztake_extend, ztake_app_len.
  - apply IH. zlia.
Qed.
End schedule.

(** ** Words

    The sixteen words of a block, and facts that both algorithms use. *)
Definition parse (block : list Z) : list Z := (λ t : Z, of_be (zslice (t * 4) 4 block)) <$> seqZ 0 16.
Lemma zlen_parse block : zlen (parse block) = 16.
Proof. unfold parse. rewrite zlen_fmap. unfold zlen. by rewrite length_seqZ. Qed.

Lemma rd_parse block t : 64 <= zlen block → 0 <= t < 16 →
  (let! b := rd_range block (t * 4) 4 in Ret (of_be b)) = Ret (word (parse block) t).
Proof.
  intros Hblock Ht.
  unfold rd_range. rewrite (proj2 (Z.leb_le 0 (t * 4))), (proj2 (Z.leb_le (t * 4 + 4) _)) by lia. cbn [andb obind Z.leb Z.compare].
  f_equal. unfold word, parse, znth. rewrite (proj2 (Z.leb_le 0 t)) by lia.
  rewrite list_lookup_fmap, lookup_seqZ_lt by lia. cbn [fmap option_fmap option_map default from_option id].
  replace (0 + Z.of_nat (Z.to_nat t)) with t by lia. done.
Qed.
Lemma parse_take m : 64 <= zlen m → parse (ztake 64 m) = parse m.
Proof.
  intros Hm. unfold parse. apply fmap_ext_in. intros t [? ?]%elem_of_seqZ. f_equal.
  assert (∀ l : list Z, 64 <= zlen l → zlen (zslice (t * 4) 4 l) = 4) as L by (intros; rewrite zlen_zslice; lia).
  assert (zlen (ztake 64 m) = 64) as L64 by (rewrite zlen_ztake; lia).
  apply zlist_eq; [rewrite !L; lia|]. intros i Hi. rewrite L in Hi by lia. unfold zslice.
  rewrite !znth_ztake, !znth_zdrop, znth_ztake by lia. done.
Qed.

Definition word_ok (x : Z) : Prop := 0 <= x < 2 ^ 32.

Lemma u32_ok x : word_ok (u32 x).
Proof. apply Z.mod_pos_bound. lia. Qed.
Lemma choose_eq b c d : Z.lxor (Z.land (Z.lxor c d) b) d = Z.lxor (Z.land b c) (Z.land (Z.lnot b) d).
Proof.
  apply Z.bits_inj'. intros n Hn. rewrite ?Z.lxor_spec, ?Z.land_spec, ?Z.lnot_spec, ?Z.lxor_spec by lia.
  by destruct (Z.testbit b n), (Z.testbit c n), (Z.testbit d n).
Qed.
Lemma foldl_app_concat (chunks : list (list Z)) : ∀ l, foldl app l chunks = l ++ concat chunks.
Proof.
  induction chunks as [|c chunks IH]; intros l; cbn [foldl concat]; [by rewrite app_nil_r|].
  by rewrite IH, app_assoc.
Qed.

(** ** The functions compute the specification *)
Section correct.
Context {H : Type} (compress : H → list Z → outcome H) (comp : H → list Z → H) (ok : H → Prop).
Hypothesis compress_ok : ∀ st m, ok st → bytes_ok m → 64 <= zlen m →
  compress st m = Ret (comp st (ztake 64 m)) ∧ ok (comp st (ztake 64 m)).
Implicit Types (st : H) (m data full rest : list Z) (ctx : blk_ctx H).

(** The context after the message [m]: the full blocks are in the state, the rest
    is in the buffer. *)
Definition repr (st0 : H) ctx m : Prop :=
  ∃ full rest k, m = full ++ rest ∧ zlen full = 64 * k ∧ zlen rest < 64 ∧ size ctx = u64 (zlen m) ∧
    state ctx = absorb comp st0 full ∧ ok (state ctx) ∧ zlen (buf ctx) = 64 ∧ bytes_ok (buf ctx) ∧
    ztake (zlen rest) (buf ctx) = rest.

Lemma bytes_ok_zdrop n m : bytes_ok m → bytes_ok (zdrop n m).
Proof. apply Forall_drop. Qed.
Lemma bytes_ok_ztake n m : bytes_ok m → bytes_ok (ztake n m).
Proof. apply Forall_take. Qed.

Lemma memcpy_head b data : zlen data <= zlen b →
  memcpy b 0 data = Ret (data ++ zdrop (zlen data) b).
Proof. intros Hl. unfold memcpy. by rewrite !Z.add_0_l, (proj2 (Z.leb_le (zlen data) _)) by done. Qed.

Lemma blocks_loop_ok st0 : ∀ fuel full k st data,
  zlen full = 64 * k → st = absorb comp st0 full → ok st → bytes_ok data → (length data < fuel)%nat →
  ∃ full' rest k', full ++ data = full' ++ rest ∧ zlen full' = 64 * k' ∧ zlen rest < 64 ∧ bytes_ok rest ∧
    blocks_loop compress fuel st data = Ret (absorb comp st0 full', rest) ∧ ok (absorb comp st0 full').
Proof.
  induction fuel as [|fuel IH]; intros full k st data Hf Hst Hok Hd Hfuel; [lia|]. cbn [blocks_loop].
  destruct (Z.ltb_spec (zlen data) 64).
  - exists full, data, k. subst st. done.
  - destruct (compress_ok st data) as [-> Hok']; [done..|]. cbn [obind].
    destruct (IH (full ++ ztake 64 data) (k + 1) (comp st (ztake 64 data)) (zdrop 64 data))
      as (full' & rest & k' & E & ?); try done.
    + zlia.
    + rewrite (absorb_app comp k) by done. rewrite <- Hst.
      rewrite <- (app_nil_r (ztake 64 data)) at 2. rewrite absorb_cons by zlia. by rewrite absorb_short.
    + by apply bytes_ok_zdrop.
    + unfold zdrop. rewrite length_drop. unfold zlen in *. lia.
    + exists full', rest, k'. by rewrite <- E, <- app_assoc, ztake_zdrop.
Qed.

Lemma u64_land_63 x : Z.land (u64 x) 63 = x mod 64.
Proof.
  unfold u64. rewrite <- Z.land_ones, <- Z.land_assoc by lia. change (Z.land (Z.ones 64) 63) with (Z.ones 6).
  by rewrite Z.land_ones.
Qed.

Lemma tail_mod full rest k : zlen full = 64 * k → zlen rest < 64 → zlen (full ++ rest) mod 64 = zlen rest.
Proof.
  intros Hf Hr. zlen_pos. rewrite zlen_app, Hf, Z.add_comm, Z.mul_comm, Z.mod_add by lia. by apply Z.mod_small.
Qed.

(** Filling up the buffer either ends with it not yet full, or leaves a whole
    number of blocks behind. *)
Lemma fill_buffer_ok st0 full rest k b data :
  zlen full = 64 * k → zlen rest < 64 → ok (absorb comp st0 full) → zlen b = 64 → bytes_ok b → bytes_ok data →
  ztake (zlen rest) b = rest →
  (zlen rest + zlen data < 64 ∧ rest ≠ [] ∧ ∃ b', zlen b' = 64 ∧ bytes_ok b' ∧
     ztake (zlen (rest ++ data)) b' = rest ++ data ∧
     fill_buffer compress (zlen rest) (absorb comp st0 full) b data = Ret (absorb comp st0 full, b', None)) ∨
  ∃ full' k' b' data', full ++ rest ++ data = full' ++ data' ∧ zlen full' = 64 * k' ∧ ok (absorb comp st0 full') ∧
    zlen b' = 64 ∧ bytes_ok b' ∧ bytes_ok data' ∧
    fill_buffer compress (zlen rest) (absorb comp st0 full) b data = Ret (absorb comp st0 full', b', Some data').
Proof.
  intros Hf Hr Hok Hb Hbb Hd Hrest. unfold fill_buffer. zlen_pos.
  destruct (Z.eqb_spec (zlen rest) 0) as [E0|E0].
  { right. destruct rest; [|zlia]. exists full, k, b, data. done. }
  set (left := if zlen data <? 64 - zlen rest then zlen data else 64 - zlen rest).
  assert (0 < left ∨ data = [] ∧ left = 0) as Hleft0.
  { unfold left. destruct (Z.ltb_spec (zlen data) (64 - zlen rest)); [|left; lia].
    destruct data; [right; done|left; zlia]. }
  assert (0 <= left <= zlen data ∧ zlen rest + left <= 64) as [Hl1 Hl2].
  { unfold left. destruct (Z.ltb_spec (zlen data) (64 - zlen rest)); lia. }
  unfold memcpy. rewrite zlen_ztake by lia.
  rewrite (proj2 (Z.leb_le 0 _)), (proj2 (Z.leb_le (zlen rest + left) _)) by lia. cbn [andb obind]. rewrite Hrest.
  set (b' := rest ++ ztake left data ++ zdrop (zlen rest + left) b).
  assert (zlen b' = 64) as Hb' by (unfold b'; zlia).
  assert (bytes_ok b') as Hbb'.
  { unfold b'. rewrite <- Hrest at 1. apply Forall_app. split; [by apply bytes_ok_ztake|].
    apply Forall_app. split; [by apply bytes_ok_ztake|by apply bytes_ok_zdrop]. }
  rewrite (land_ones_mod _ 6) by (done || lia). change (2 ^ 6) with 64.
  destruct (Z.ltb_spec (zlen data) (64 - zlen rest)) as [Hlt|Hge]; subst left.
  - left. rewrite Z.mod_small by lia. rewrite (proj2 (Z.eqb_neq _ 0)) by lia. cbn [negb].
    split; [lia|]. split; [by intros ->|]. exists b'. split_and!; try done. unfold b'.
    rewrite (ztake_all data) by lia. rewrite app_assoc. apply ztake_app_len.
  - right. replace (zlen rest + (64 - zlen rest)) with (1 * 64) by lia. rewrite Z_mod_mult. cbn [negb Z.eqb].
    destruct (compress_ok (absorb comp st0 full) b') as [-> Hok']; [done|done|lia|]. cbn [obind].
    rewrite (ztake_all b') in Hok' |- * by lia.
    assert (b' = rest ++ ztake (64 - zlen rest) data) as Eb.
    { unfold b'. rewrite (zdrop_all b) by lia. by rewrite app_nil_r. }
    exists (full ++ b'), (k + 1), b', (zdrop (64 - zlen rest) data).
    assert (absorb comp st0 (full ++ b') = comp (absorb comp st0 full) b') as ->.
    { rewrite (absorb_app comp k) by done. rewrite <- (app_nil_r b') at 1. rewrite absorb_cons by done.
      by rewrite absorb_short. }
    split_and!; try done; [|zlia|by apply bytes_ok_zdrop].
    rewrite Eb, <- !app_assoc. by rewrite ztake_zdrop.
Qed.

Lemma update_ok st0 ctx m data : repr st0 ctx m → bytes_ok data →
  returns (update compress ctx data) (λ ctx', repr st0 ctx' (m ++ data)).
Proof.
  intros (full & rest & k & -> & Hf & Hr & Hsz & Hst & Hok & Hb & Hbb & Hrest) Hd.
  unfold update. rewrite Hsz, u64_land_63, (tail_mod _ _ k) by done. rewrite Hst in Hok |- *.
  assert (u64 (u64 (zlen (full ++ rest)) + zlen data) = u64 (zlen ((full ++ rest) ++ data))) as ->.
  { unfold u64. rewrite Zplus_mod_idemp_l. by rewrite <- zlen_app. }
  destruct (fill_buffer_ok st0 full rest k (buf ctx) data) as [(Hlt & Hne & b' & Hb' & Hbb' & Htk & ->)|
    (full' & k' & b' & data' & E & Hf' & Hok' & Hb' & Hbb' & Hd' & ->)]; try done; cbn [obind].
  - exists full, (rest ++ data), k. rewrite <- app_assoc. cbn. split_and!; try done. by rewrite zlen_app.
  - destruct (blocks_loop_ok st0 (S (length data')) full' k' _ data' Hf' eq_refl Hok' Hd') as
      (full2 & rest2 & k2 & E2 & Hf2 & Hr2 & Hrb & -> & Hok2); [lia|]. cbn [obind].
    destruct (Z.eqb_spec (zlen rest2) 0) as [E0|E0].
    + exists full2, rest2, k2. rewrite <- app_assoc, E, E2. cbn. split_and!; try done. by destruct rest2; [|zlia].
    + rewrite memcpy_head by lia. cbn [obind wp]. exists full2, rest2, k2. rewrite <- app_assoc, E, E2. cbn [size state buf].
      split_and!; try done; [zlia| |apply ztake_app_len].
      apply Forall_app. split; [done|]. by apply bytes_ok_zdrop.
Qed.

Lemma u8_shiftr_u32 x k : 0 <= k <= 24 → u8 (Z.shiftr (u32 x) k) = u8 (Z.shiftr x k).
Proof. intros Hk. unfold u8, u32. Z.bitblast. Qed.

Lemma be64_halves x : be64 x = be32 (Z.shiftr x 32) ++ be32 x.
Proof.
  unfold be64, be32, be_bytes. cbn [seq fmap list_fmap app].
  rewrite !u8_shiftr_u32 by lia. rewrite !Z.shiftr_shiftr by lia. done.
Qed.

Lemma padlen_be64 n : padlen (u64 n) = be64 (u64 (8 * n)).
Proof.
  unfold padlen. rewrite be64_halves. replace (8 * n) with (Z.shiftl n 3) by (rewrite Z.shiftl_mul_pow2; lia).
  assert (u32 (Z.shiftr (u64 n) 29) = u32 (Z.shiftr (u64 (Z.shiftl n 3)) 32)) as -> by (unfold u32, u64; Z.bitblast).
  assert (u32 (u64 (Z.shiftl (u64 n) 3)) = u32 (u64 (Z.shiftl n 3))) as -> by (unfold u32, u64; Z.bitblast).
  unfold be32. f_equal; f_equal; unfold u32; by rewrite Zmod_mod.
Qed.

Lemma padding_bytes i : rd_range pad 0 (1 + Z.land 63 (55 - i mod 64)) = Ret ([0x80] ++ zrep ((55 - i) mod 64) 0).
Proof.
  rewrite Z.land_comm, (land_ones_mod _ 6) by (done || lia). change (2 ^ 6) with 64. rewrite Zminus_mod_idemp_r.
  pose proof (Z.mod_pos_bound (55 - i) 64). set (z := (55 - i) mod 64) in *.
  apply (rd_range_at _ [] _ (zrep (63 - z) 0)); [|done|zlia]. unfold pad. cbn [app].
  rewrite <- zrep_add by lia. do 2 f_equal. lia.
Qed.

(** The final function's state, and the whole message in pieces. *)
Lemma final_state_ok st0 ctx m : repr st0 ctx m →
  returns (final_state compress ctx) (λ st, st = absorb comp st0 (padded m) ∧ ok st).
Proof.
  intros Hr. pose proof Hr as (full & rest & k & -> & _ & _ & Hsz & _). set (m := full ++ rest) in *.
  unfold final_state. rewrite Hsz, u64_land_63, padding_bytes, padlen_be64. cbn [obind]. apply wp_bind.
  eapply wp_mono; [|apply (update_ok st0 _ m); [done|apply Forall_app; split]].
  2: { constructor; [unfold byte_ok; lia|constructor]. }
  2: { apply Forall_replicate. unfold byte_ok. lia. }
  intros c1 Hc1. apply wp_bind. eapply wp_mono; [|apply (update_ok st0 c1 _ _ Hc1), be_bytes_ok].
  intros c2 (full' & rest' & k' & E & Hf' & Hr' & _ & Hst' & Hok' & _). cbn.
  rewrite <- !app_assoc in E. change (full ++ rest ++ _) with (m ++ [0x80] ++ zrep ((55 - zlen m) mod 64) 0 ++ be64 (u64 (8 * zlen m))) in E.
  fold (padded m) in E.
  assert (rest' = []) as ->; [|by rewrite app_nil_r in E; rewrite E].
  pose proof (f_equal zlen E) as El. unfold padded in El.
  pose proof (Z.mod_pos_bound (55 - zlen m) 64). pose proof (Z.div_mod (55 - zlen m) 64). 
  autorewrite with zlen in El. destruct rest'; [done|]. exfalso. revert El Hr'. zlen_simpl. zlen_pos. intros. lia.
Qed.

Fixpoint update_all (ctx : blk_ctx H) (chunks : list (list Z)) : outcome (blk_ctx H) :=
  match chunks with
  | [] => Ret ctx
  | data :: chunks => let! ctx := update compress ctx data in update_all ctx chunks
  end.

Lemma update_all_ok st0 chunks : Forall bytes_ok chunks → ∀ ctx m, repr st0 ctx m →
  returns (update_all ctx chunks) (λ ctx', repr st0 ctx' (m ++ concat chunks)).
Proof.
  induction 1 as [|d chunks Hd Hc IH]; intros ctx m Hm; cbn [update_all concat].
  - cbn. by rewrite app_nil_r.
  - apply wp_bind. eapply wp_mono; [|by apply update_ok]. intros ctx' Hctx'. rewrite app_assoc. by apply IH.
Qed.

Lemma init_repr st0 b : ok st0 → zlen b = 64 → bytes_ok b → repr st0 (Blk_ctx 0 st0 b) [].
Proof. intros. exists [], [], 0. split_and!; try done. Qed.

Lemma digest_ok st0 b chunks : ok st0 → zlen b = 64 → bytes_ok b → Forall bytes_ok chunks →
  returns (let! ctx := update_all (Blk_ctx 0 st0 b) chunks in final_state compress ctx)
    (λ st, st = absorb comp st0 (padded (concat chunks)) ∧ ok st).
Proof.
  intros H0 Hb Hbb Hc. apply wp_bind. eapply wp_mono; [|apply (update_all_ok st0); [done|by apply init_repr]].
  intros ctx Hctx. by apply final_state_ok.
Qed.

End correct.

End BlockHash.
