(* ===== verification/Hashfile.v ===== *)
(** * Checksummed output files (csum-file.c)

    A hashfile buffers what is written to it, hashes it on the way out, and ends
    with the hash of everything before it.  In check mode it writes nothing but
    compares with an existing file.  The hash algorithm is the table of function
    pointers [git_hash_algo] of the code: a class here, with its law. *)
From stdpp Require Import prelude.
From S2P Require Import Prelude Endian.

(** hash.h: [struct git_hash_algo]. *)
Class HashAlgo : Type := {
  rawsz : Z;
  hash_ctx : Type;
  init_fn : hash_ctx;
  update_fn : hash_ctx → list Z → hash_ctx;
  final_fn : hash_ctx → list Z;
}.
(** Feeding data in pieces is feeding it at once; a hash has [rawsz] bytes, 20
    or 32 of them in the two algorithms of the program. *)
Class HashLaws (algop : HashAlgo) : Prop := {
  update_nil c : update_fn c [] = c;
  update_app c a b : update_fn (update_fn c a) b = update_fn c (a ++ b);
  final_len c : zlen (final_fn c) = rawsz;
  final_bytes c : bytes_ok (final_fn c);
  rawsz_range : 20 <= rawsz <= 32;
}.

Module Hashfile.

Section hashfile.
Context {algop : HashAlgo}.
(** zlib's [crc32(crc, buf, len)]. *)
Context (crc32_fn : Z → list Z → Z).

(** [file] is what was written to [fd]; [check] the part of the file behind
    [check_fd] not yet compared, if there is one; [buffer_len] is the length of
    [buffer]. *)
Record hashfile := Hashfile {
  file : list Z;
  check : option (list Z);
  offset : Z;
  ctx : hash_ctx;
  total : Z;
  do_crc : bool;
  crc32 : Z;
  buffer : list Z;
  skip_hash : bool;
}.

Definition hash_update (f : hashfile) (data : list Z) : hash_ctx :=
  if skip_hash f then ctx f else update_fn (ctx f) data.

(** The rest of the checked file after a comparison. *)
Definition verify_buffer_or_die (check : list Z) (buf : list Z) : outcome (list Z) :=
  let got := ztake (zlen buf) check in
  if negb (zlen got =? zlen buf) then Die
  else if negb (bool_decide (buf = got)) then Die
  else Ret (zdrop (zlen buf) check).

Definition flush (f : hashfile) (ctx' : hash_ctx) (buf : list Z) : outcome hashfile :=
  let! check' :=
    match check f with
    | Some c => if 0 <? zlen buf then (let! c' := verify_buffer_or_die c buf in Ret (Some c')) else Ret (Some c)
    | None => Ret None
    end in
  Ret (Hashfile (file f ++ buf) check' (offset f) ctx' (total f + zlen buf) (do_crc f) (crc32 f) (buffer f) (skip_hash f)).

Definition set_offset (f : hashfile) (o : Z) : hashfile :=
  Hashfile (file f) (check f) o (ctx f) (total f) (do_crc f) (crc32 f) (buffer f) (skip_hash f).

Definition hashflush (f : hashfile) : outcome hashfile :=
  if negb (offset f =? 0) then
    let! data := rd_range (buffer f) 0 (offset f) in
    let! f := flush f (hash_update f data) data in
    Ret (set_offset f 0)
  else Ret f.

(** One round of the loop: [nr] is the part of [buf] that fits. *)
Definition hashwrite_step (f : hashfile) (buf : list Z) : outcome (hashfile * list Z) :=
  let left := zlen (buffer f) - offset f in
  let nr := if left <? zlen buf then left else zlen buf in
  let data := ztake nr buf in
  let crc := if do_crc f then crc32_fn (crc32 f) data else crc32 f in
  let f := Hashfile (file f) (check f) (offset f) (ctx f) (total f) (do_crc f) crc (buffer f) (skip_hash f) in
  let! f :=
    if nr =? zlen (buffer f) then flush f (hash_update f data) data
    else
      let! b := memcpy (buffer f) (offset f) data in
      let f := Hashfile (file f) (check f) (offset f + nr) (ctx f) (total f) (do_crc f) (crc32 f) b (skip_hash f) in
      if left - nr =? 0 then hashflush f else Ret f in
  Ret (f, zdrop nr buf).

Fixpoint hashwrite_loop (fuel : nat) (f : hashfile) (buf : list Z) : outcome hashfile :=
  match fuel with
  | O => NoFuel
  | S fuel =>
      if zlen buf =? 0 then Ret f
      else
        let! (f, buf) := hashwrite_step f buf in
        hashwrite_loop fuel f buf
  end.
(** The caller's length goes into an [unsigned int count]. *)
Definition hashwrite (f : hashfile) (buf : list Z) : outcome hashfile :=
  let count := u32 (zlen buf) in
  hashwrite_loop (S (Z.to_nat count)) f (ztake count buf).

(** csum-file.h *)
Definition hashwrite_u8 (f : hashfile) (data : Z) : outcome hashfile := hashwrite f [data].
Definition hashwrite_be32 (f : hashfile) (data : Z) : outcome hashfile := hashwrite f (Endian.be32 data).
Definition hashwrite_be64 (f : hashfile) (data : Z) : outcome hashfile := hashwrite f (Endian.be64 data).

(** The first contents of the buffer, which do not matter, are the start of
    [mem]; [name] is the file that [hashfd_check] compares with. *)
Definition hashfd_internal (mem : list Z) (buffer_len : Z) : hashfile := Hashfile [] None 0 init_fn 0 false 0 (ztake buffer_len mem) false.
Definition hashfd (mem : list Z) : hashfile := hashfd_internal mem (128 * 1024).
Definition hashfd_check (mem name : list Z) : hashfile :=
  let f := hashfd mem in
  Hashfile (file f) (Some name) (offset f) (ctx f) (total f) (do_crc f) (crc32 f) (buffer f) (skip_hash f).
Definition hashfd_throughput (mem : list Z) : hashfile := hashfd_internal mem (8 * 1024).

Definition CSUM_HASH_IN_STREAM : Z := 4.

(** The file that is left behind, and the hash ([*result]).  [hashclr] writes
    zeroes. *)
Definition finalize_hashfile (f : hashfile) (flags : Z) : outcome (list Z * list Z) :=
  let! f := hashflush f in
  let hash := if skip_hash f then zrep rawsz 0 else final_fn (ctx f) in
  let! b := memcpy (buffer f) 0 hash in
  let f := Hashfile (file f) (check f) (offset f) (ctx f) (total f) (do_crc f) (crc32 f) b (skip_hash f) in
  let! f := if negb (Z.land flags CSUM_HASH_IN_STREAM =? 0)
            then (let! h := rd_range (buffer f) 0 rawsz in flush f (ctx f) h) else Ret f in
  match check f with
  | Some (_ :: _) => Die
  | _ => Ret (file f, hash)
  end.

Definition hashfile_total (f : hashfile) : Z := total f + offset f.

Definition crc32_begin (f : hashfile) : hashfile :=
  Hashfile (file f) (check f) (offset f) (ctx f) (total f) true (crc32_fn 0 []) (buffer f) (skip_hash f).
Definition crc32_end (f : hashfile) : hashfile * Z :=
  (Hashfile (file f) (check f) (offset f) (ctx f) (total f) false (crc32 f) (buffer f) (skip_hash f), crc32 f).

(** A checkpoint is a file offset and a hash state. *)
Definition hashfile_checkpoint_init : Z * hash_ctx := (0, init_fn).
Definition hashfile_checkpoint (f : hashfile) : outcome (hashfile * (Z * hash_ctx)) :=
  let! f := hashflush f in Ret (f, (total f, ctx f)).
(** [ftruncate] and [lseek] succeed. *)
Definition hashfile_truncate (f : hashfile) (checkpoint : Z * hash_ctx) : hashfile :=
  let (o, c) := checkpoint in
  Hashfile (ztake o (file f)) (check f) 0 c o (do_crc f) (crc32 f) (buffer f) (skip_hash f).

Definition hashfile_checksum_valid (data : list Z) : outcome bool :=
  let total_len := zlen data in
  if total_len <? rawsz then Ret false
  else
    let data_len := total_len - rawsz in
    let! d := rd_range data 0 data_len in
    let got := final_fn (update_fn init_fn d) in
    let! h := rd_range data data_len rawsz in
    Ret (bool_decide (got = h)).
End hashfile.
Arguments hashfile _ : clear implicits.


Section spec.
Context {algop : HashAlgo} `{!HashLaws algop} (crc32_fn : Z → list Z → Z).
Context (crc_app : ∀ c a b, crc32_fn (crc32_fn c a) b = crc32_fn c (a ++ b)) (crc_nil : ∀ c, crc32_fn c [] = c).
Implicit Types (f : hashfile algop) (K : option (list Z)).

(** [D] was written so far, and [K] is the file to compare with. *)
Definition agrees K f : Prop :=
  match K, check f with
  | None, None => True
  | Some k, Some rest => k = file f ++ rest
  | _, _ => False
  end.
Record wf K (D : list Z) f : Prop := {
  wf_data : file f ++ ztake (offset f) (buffer f) = D;
  wf_offset : 0 <= offset f <= zlen (buffer f);
  wf_total : total f = zlen (file f);
  wf_ctx : skip_hash f = false → ctx f = update_fn init_fn (file f);
  wf_check : agrees K f;
}.
(** The checked file cannot start with [D]. *)
Definition mismatch K (D : list Z) : Prop := match K with None => False | Some k => ¬ D `prefix_of` k end.

Lemma mismatch_app K D E : mismatch K D → mismatch K (D ++ E).
Proof. destruct K; [|done]. intros H [x ->]. apply H. exists (E ++ x). by rewrite app_assoc. Qed.

Lemma flush_wp K f c buf :
  agrees K f →
  wp (mismatch K (file f ++ buf)) (flush f c buf) (λ f', agrees K f' ∧
    ∃ ch, f' = Hashfile (file f ++ buf) ch (offset f) c (total f + zlen buf) (do_crc f) (crc32 f) (buffer f) (skip_hash f)).
Proof.
  unfold flush, agrees, mismatch. intros Ha. destruct (check f) as [rest|] eqn:Ec, K as [k|]; try done.
  2:{ cbn. by eauto. }
  destruct (Z.ltb_spec 0 (zlen buf)).
  2:{ assert (buf = []) as ->. { destruct buf; [done|zlia]. }
      cbn. rewrite app_nil_r. split; [done|]. by eauto. }
  unfold verify_buffer_or_die. destruct (Z.eqb_spec (zlen (ztake (zlen buf) rest)) (zlen buf)) as [El|El]; cbn [negb].
  2:{ cbn. intros [x Hx]. subst k. rewrite <- app_assoc in Hx. apply app_inv_head in Hx. subst rest.
      by rewrite ztake_app_len in El. }
  case_bool_decide as Eb; cbn.
  - split; [|by eauto]. subst k. rewrite <- app_assoc. f_equal. rewrite Eb at 1. by rewrite ztake_zdrop.
  - intros [x Hx]. subst k. rewrite <- app_assoc in Hx. apply app_inv_head in Hx. subst rest.
    by rewrite ztake_app_len in Eb.
Qed.

(** What a write leaves alone. *)
Definition same_mode f f' : Prop :=
  do_crc f' = do_crc f ∧ skip_hash f' = skip_hash f ∧ zlen (buffer f') = zlen (buffer f) ∧
  file f `prefix_of` file f'.

Lemma hash_update_app f data :
  (skip_hash f = false → ctx f = update_fn init_fn (file f)) →
  skip_hash f = false → hash_update f data = update_fn init_fn (file f ++ data).
Proof. intros Hc Hs. unfold hash_update. by rewrite Hs, Hc, update_app by done. Qed.

Lemma hashflush_wp K D f :
  wf K D f →
  wp (mismatch K D) (hashflush f) (λ f', wf K D f' ∧ offset f' = 0 ∧ same_mode f f' ∧ crc32 f' = crc32 f).
Proof.
  intros [Hd Ho Ht Hc Ha]. unfold hashflush, same_mode. destruct (Z.eqb_spec (offset f) 0) as [E|E]; cbn [negb].
  { cbn. split; [by split|]. by repeat split. }
  apply wp_bind, rd_range_wp; [lia..|]. change (zslice 0 (offset f) (buffer f)) with (ztake (offset f) (buffer f)).
  apply wp_bind. subst D. eapply wp_mono; [|by apply flush_wp]. intros f' [Ha' [ch ->]]. cbn.
  split; [|split_and!; done || by eexists]. split; cbn; try done; [by rewrite app_nil_r|zlen_pos; lia|rewrite zlen_app; lia|].
  by apply hash_update_app.
Qed.

Lemma hashwrite_step_wp K D f buf :
  wf K D f → offset f < zlen (buffer f) → 0 < zlen buf →
  wp (mismatch K (D ++ buf)) (hashwrite_step crc32_fn f buf) (λ '(f', rest), ∃ done, buf = done ++ rest ∧
    0 < zlen done ∧ wf K (D ++ done) f' ∧ offset f' < zlen (buffer f') ∧ same_mode f f' ∧
    crc32 f' = if do_crc f then crc32_fn (crc32 f) done else crc32 f).
Proof.
  intros [Hd Ho Ht Hc Ha] Hroom Hb. unfold hashwrite_step, same_mode.
  set (nr := if zlen (buffer f) - offset f <? zlen buf then _ else _).
  assert (0 < nr <= zlen buf ∧ nr <= zlen (buffer f) - offset f) as Hnr.
  { unfold nr. destruct (Z.ltb_spec (zlen (buffer f) - offset f) (zlen buf)); lia. }
  clearbody nr. apply wp_bind.
  pose proof (zlen_ztake nr buf ltac:(lia)) as Ln. cbn [buffer offset].
  assert (∀ X, mismatch K (D ++ ztake nr buf) → X = D ++ buf → mismatch K X) as Hmis.
  { intros X HX ->. rewrite <- (ztake_zdrop nr buf), app_assoc. by apply mismatch_app. }
  destruct (Z.eqb_spec nr (zlen (buffer f))) as [E|E].
  - assert (offset f = 0) as Eo by lia. rewrite Eo, ztake_0, app_nil_r in Hd. subst D.
    eapply wp_conseq; [| |by apply flush_wp]; [cbn; intros HX; by apply (Hmis _ HX)|].
    intros f' [Ha' [ch ->]]. cbn [wp obind]. exists (ztake nr buf). rewrite ztake_zdrop.
    split_and!; cbn; try done; try lia; [|by eexists]. split; cbn; try done.
    + by rewrite Eo, ztake_0, app_nil_r.
    + rewrite zlen_app. lia.
    + apply (hash_update_app f); done.
  - apply wp_bind, memcpy_wp; [lia..|]. rewrite Ln. cbn [skip_hash crc32 do_crc total ctx check file buffer offset].
    set (b := ztake (offset f) (buffer f) ++ _).
    set (crc := if do_crc f then _ else _).
    set (f1 := Hashfile _ _ _ _ _ _ _ _ _).
    assert (zlen b = zlen (buffer f)) as Lb by (unfold b; rewrite !zlen_app, Ln, zlen_ztake, zlen_zdrop; lia).
    assert (wf K (D ++ ztake nr buf) f1) as Hwf.
    { split; cbn; try done; try lia. rewrite <- Hd, <- app_assoc. f_equal. unfold b.
      rewrite app_assoc. apply ztake_app_len'. rewrite zlen_app, zlen_ztake; lia. }
    destruct (Z.eqb_spec (zlen (buffer f) - offset f - nr) 0).
    + eapply wp_conseq; [| |by apply hashflush_wp]; [intros HX; by apply (Hmis _ HX)|].
      intros f' (Hwf' & Ho' & (Hm1 & Hm2 & Hm3 & Hm4) & Hcrc). cbn [wp]. exists (ztake nr buf). rewrite ztake_zdrop.
      cbn in Hm1, Hm2, Hm3, Hm4, Hcrc. split_and!; try done; lia.
    + cbn [wp]. exists (ztake nr buf). rewrite ztake_zdrop. split_and!; cbn; try done; lia.
Qed.

Lemma hashwrite_loop_wp fuel K D f buf :
  (length buf < fuel)%nat → wf K D f → offset f < zlen (buffer f) →
  wp (mismatch K (D ++ buf)) (hashwrite_loop crc32_fn fuel f buf) (λ f', wf K (D ++ buf) f' ∧
    offset f' < zlen (buffer f') ∧ same_mode f f' ∧
    crc32 f' = if do_crc f then crc32_fn (crc32 f) buf else crc32 f).
Proof.
  revert D f buf. induction fuel as [|fuel IH]; intros D f buf Hf Hwf Hroom; [lia|].
  cbn [hashwrite_loop]. destruct (Z.eqb_spec (zlen buf) 0) as [E|E].
  { assert (buf = []) as -> by (destruct buf; [done|zlia]). cbn. rewrite app_nil_r, crc_nil.
    split_and!; try done. by destruct (do_crc f). }
  apply wp_bind. eapply wp_mono; [|apply hashwrite_step_wp; [done..|zlen_pos; lia]].
  intros [f1 rest] (data & -> & Hd & Hwf1 & Hroom1 & (M1 & M2 & M3 & M4) & Hcrc). cbv beta match.
  rewrite app_assoc. eapply wp_mono; [|apply IH; try done].
  - intros f2 (Hwf2 & Hroom2 & (M1' & M2' & M3' & M4') & Hcrc'). unfold same_mode.
    split_and!; try done; try congruence; [by etrans|].
    rewrite Hcrc', Hcrc, M1. destruct (do_crc f); [apply crc_app|done].
  - unfold zlen in Hd. rewrite length_app in Hf. lia.
Qed.
Lemma hashwrite_wp K D f buf :
  zlen buf < 2 ^ 32 → wf K D f → offset f < zlen (buffer f) →
  wp (mismatch K (D ++ buf)) (hashwrite crc32_fn f buf) (λ f', wf K (D ++ buf) f' ∧
    offset f' < zlen (buffer f') ∧ same_mode f f' ∧
    crc32 f' = if do_crc f then crc32_fn (crc32 f) buf else crc32 f).
Proof.
  intros Hb. unfold hashwrite, u32. rewrite Z.mod_small, ztake_all by (zlen_pos; lia). apply hashwrite_loop_wp. unfold zlen. lia.
Qed.

(** A fresh hashfile is empty and has room. *)
Lemma hashfd_internal_wf mem n : 32 <= n <= zlen mem →
  wf None [] (hashfd_internal mem n) ∧ offset (hashfd_internal mem n) < zlen (buffer (hashfd_internal mem n)) ∧ 32 <= zlen (buffer (hashfd_internal mem n)).
Proof.
  intros Hm. unfold hashfd_internal. cbn [buffer offset]. pose proof (zlen_ztake n mem ltac:(lia)) as Hl.
  generalize dependent (ztake n mem). intros b Hl. split; [|lia]. split; cbn; try done; [lia|]. intros _. symmetry. apply update_nil.
Qed.
Lemma hashfd_check_wf mem k :
  128 * 1024 <= zlen mem →
  wf (Some k) [] (hashfd_check mem k) ∧ offset (hashfd_check mem k) < zlen (buffer (hashfd_check mem k)) ∧
  32 <= zlen (buffer (hashfd_check mem k)).
Proof.
  intros Hm. destruct (hashfd_internal_wf mem (128 * 1024)) as ([Hd Ho Ht Hc Ha] & Hr & H32); [lia|]. unfold hashfd_check. fold (hashfd mem) in *.
  generalize dependent (hashfd mem). intros f Hd Ho Ht Hc Ha Hr H32. apply app_eq_nil in Hd as [Hf Hb]. split; [|done]. split; cbn; try done; [by rewrite Hf|by rewrite Hf].
Qed.

(** The file a hashfile leaves behind: the data, then its hash. *)
Definition sealed (D : list Z) : list Z := D ++ final_fn (update_fn init_fn D).

Lemma finalize_hashfile_wp K D f :
  wf K D f → 32 <= zlen (buffer f) → skip_hash f = false →
  wp (∃ k, K = Some k ∧ k ≠ sealed D) (finalize_hashfile f CSUM_HASH_IN_STREAM) (λ '(out, hash),
    out = sealed D ∧ hash = final_fn (update_fn init_fn D) ∧ (∀ k, K = Some k → k = sealed D)).
Proof.
  intros Hwf Hb Hs. unfold finalize_hashfile.
  assert (∀ X, mismatch K X → X `prefix_of` sealed D → ∃ k, K = Some k ∧ k ≠ sealed D) as Hmis.
  { unfold mismatch. destruct K as [k|]; [|done]. intros X HX HP. exists k. split; [done|]. intros ->. done. }
  apply wp_bind. eapply wp_conseq; [| |by apply hashflush_wp].
  { intros HX. apply (Hmis _ HX). by eexists. }
  intros f1 ([Hd Ho Ht Hc Ha] & E0 & (_ & M2 & M3 & _) & _). cbv beta. rewrite M2, Hs, (Hc ltac:(congruence)).
  rewrite E0, ztake_0, app_nil_r in Hd. subst D. pose proof rawsz_range. set (hash := final_fn _).
  assert (zlen hash = rawsz) as Lh by apply final_len.
  apply wp_bind, memcpy_wp; [lia..|]. cbn [Z.land CSUM_HASH_IN_STREAM Pos.land Z.eqb negb].
  apply wp_bind. cbn [buffer]. apply wp_bind. rewrite Lh. apply rd_range_wp; [lia..| |].
  { rewrite !zlen_app, Lh, ztake_0. zlen_pos. zlen_simpl. lia. }
  rewrite ztake_0. unfold zslice. rewrite zdrop_0. cbn [app]. rewrite ztake_app_len' by done.
  eapply wp_conseq; [| |by apply (flush_wp K)].
  { cbn. intros HX. apply (Hmis _ HX). by exists []; rewrite app_nil_r. }
  intros f2 [Ha2 [ch ->]]. cbn [file check]. unfold agrees in Ha2. cbn in Ha2.
  destruct ch as [[|x rest]|], K as [k|]; try done; cbn.
  - split_and!; try done. intros k' [= <-]. by rewrite Ha2, app_nil_r.
  - exists k. split; [done|]. intros ->. unfold sealed in Ha2. fold hash in Ha2.
    apply (f_equal zlen) in Ha2. rewrite !zlen_app, zlen_cons in Ha2. zlen_pos. lia.
Qed.

Lemma checksum_sealed D : hashfile_checksum_valid (sealed D) = Ret true.
Proof.
  unfold hashfile_checksum_valid, sealed. set (h := final_fn _).
  assert (zlen h = rawsz) as Lh by apply final_len. pose proof rawsz_range.
  rewrite zlen_app. destruct (Z.ltb_spec (zlen D + zlen h) rawsz); [zlen_pos; lia|].
  rewrite (rd_range_at _ [] D h) by (done || lia). cbn [obind].
  rewrite (rd_range_at _ D h []) by (rewrite ?app_nil_r; done || lia). cbn [obind].
  by rewrite bool_decide_true.
Qed.

(** Going back to a checkpoint undoes the writes since. *)
Lemma checkpoint_wp D f :
  wf None D f → skip_hash f = false →
  returns (hashfile_checkpoint f) (λ '(f', cp), wf None D f' ∧ file f' = D ∧ same_mode f f' ∧
    offset f' = 0 ∧ cp = (zlen D, update_fn init_fn D)).
Proof.
  intros Hwf Hs. unfold hashfile_checkpoint. apply wp_bind. eapply wp_mono; [|by apply (hashflush_wp None)].
  intros f' (Hwf' & E0 & Hm & _). cbn. pose proof Hwf' as [Hd _ Ht Hc _]. rewrite E0, ztake_0, app_nil_r in Hd.
  split_and!; try done. rewrite Ht, Hd, Hc, Hd by (destruct Hm as (_ & -> & _); done). done.
Qed.
Lemma truncate_wf D E f :
  wf None (D ++ E) f → D `prefix_of` file f → 0 < zlen (buffer f) →
  wf None D (hashfile_truncate f (zlen D, update_fn init_fn D)).
Proof.
  intros [Hd Ho Ht Hc Ha] [X HX] Hb. cbn. split; cbn; try done; try lia; rewrite HX, ztake_app_len; [by rewrite app_nil_r|done..].
Qed.
End spec.

(** ** What the writers of files rely on

    [opened D f]: [f] was opened for writing and [D] went into it. *)
Section client.
Context {algop : HashAlgo} `{!HashLaws algop} (crc32_fn : Z → list Z → Z).
Context (crc_app : ∀ c a b, crc32_fn (crc32_fn c a) b = crc32_fn c (a ++ b)) (crc_nil : ∀ c, crc32_fn c [] = c).

Definition opened (D : list Z) (f : hashfile algop) : Prop :=
  wf None D f ∧ offset f < zlen (buffer f) ∧ skip_hash f = false ∧ 32 <= zlen (buffer f).

Lemma hashfd_opened mem : 128 * 1024 <= zlen mem → opened [] (hashfd mem).
Proof. intros Hm. destruct (hashfd_internal_wf mem (128 * 1024)) as (? & ? & ?); [lia|]. by split_and!. Qed.
Lemma hashwrite_opened D f buf : zlen buf < 2 ^ 32 → opened D f → returns (hashwrite crc32_fn f buf) (opened (D ++ buf)).
Proof.
  intros Hlen (Hwf & Hr & Hs & Hb). eapply wp_mono; [|by apply (hashwrite_wp crc32_fn crc_app crc_nil None D)].
  intros f' (Hwf' & Hr' & (_ & M2 & M3 & _) & _). split_and!; [done..|congruence|lia].
Qed.
Lemma finalize_opened D f :
  opened D f → returns (finalize_hashfile f CSUM_HASH_IN_STREAM) (λ '(out, hash), out = sealed D).
Proof.
  intros (Hwf & Hr & Hs & Hb). eapply wp_conseq; [| |by apply (finalize_hashfile_wp None D)].
  - by intros (k & [=] & _).
  - by intros [out hash] (-> & _).
Qed.
End client.

(** ** Properties *)
Fixpoint hashwrite_all {algop : HashAlgo} (crc32_fn : Z → list Z → Z) (f : hashfile algop) (bufs : list (list Z))
  : outcome (hashfile algop) :=
  match bufs with
  | [] => Ret f
  | buf :: bufs => let! f := hashwrite crc32_fn f buf in hashwrite_all crc32_fn f bufs
  end.

(** The law of zlib's running checksum. *)
Class CrcLaws (crc32_fn : Z → list Z → Z) : Prop := {
  crc_app c a b : crc32_fn (crc32_fn c a) b = crc32_fn c (a ++ b);
  crc_nil c : crc32_fn c [] = c;
}.

Section properties.
Context {algop : HashAlgo} `{!HashLaws algop} (crc32_fn : Z → list Z → Z) `{!CrcLaws crc32_fn}.

(** Each write has a length that the count can hold. *)
Definition counts (bufs : list (list Z)) : Prop := Forall (λ buf, zlen buf < 2 ^ 32) bufs.
Lemma hashwrite_all_wp K D (f : hashfile algop) bufs :
  counts bufs → wf K D f → offset f < zlen (buffer f) →
  wp (mismatch K (D ++ concat bufs)) (hashwrite_all crc32_fn f bufs) (λ f', wf K (D ++ concat bufs) f' ∧
    offset f' < zlen (buffer f') ∧ same_mode f f' ∧
    crc32 f' = if do_crc f then crc32_fn (crc32 f) (concat bufs) else crc32 f).
Proof.
  intros Hb. revert D f. induction Hb as [|buf bufs Hbuf Hb IH]; intros D f Hwf Hroom.
  { cbn. rewrite app_nil_r, crc_nil. unfold same_mode. split_and!; try done. by destruct (do_crc f). }
  cbn [hashwrite_all concat]. apply wp_bind.
  eapply wp_conseq; [| |apply (hashwrite_wp crc32_fn crc_app crc_nil K D); done].
  { rewrite app_assoc. apply mismatch_app. }
  intros f1 (Hwf1 & Hroom1 & (M1 & M2 & M3 & M4) & Hcrc). rewrite app_assoc. eapply wp_mono; [|by apply IH].
  intros f2 (Hwf2 & Hroom2 & (N1 & N2 & N3 & N4) & Hcrc'). unfold same_mode.
  split_and!; try done; try congruence; [by etrans|]. rewrite Hcrc', Hcrc, M1.
  destruct (do_crc f); [apply crc_app|done].
Qed.

(** C16. Buffering is transparent: for a buffer of any length that holds a hash
    (128 KiB with [hashfd], 8 KiB with [hashfd_throughput]) and whatever the sizes
    of the writes, each below 2^32 bytes as its count must be, the file ends up as
    the data in order followed by the hash of all of it, which
    [hashfile_checksum_valid] accepts.  In check mode ([hashfd_check], 128 KiB)
    the same calls end normally exactly when the existing file is that one, and
    stop the program otherwise. *)
Theorem hashfile_seals mem n bufs name :
  32 <= n < 2 ^ 32 → n <= zlen mem → 128 * 1024 <= zlen mem → counts bufs →
  returns (let! f := hashwrite_all crc32_fn (hashfd_internal mem n) bufs in finalize_hashfile f CSUM_HASH_IN_STREAM)
    (λ '(out, hash), out = concat bufs ++ hash ∧ hash = final_fn (update_fn init_fn (concat bufs)) ∧
      hashfile_checksum_valid out = Ret true) ∧
  wp (name ≠ sealed (concat bufs))
    (let! f := hashwrite_all crc32_fn (hashfd_check mem name) bufs in finalize_hashfile f CSUM_HASH_IN_STREAM)
    (λ _, name = sealed (concat bufs)).
Proof.
  intros Hn Hmn Hm Hcounts. split; apply wp_bind.
  - destruct (hashfd_internal_wf mem n ltac:(lia)) as (Hwf & Hr & H32).
    eapply wp_mono; [|by apply (hashwrite_all_wp None [])].
    intros f (Hwf' & _ & (_ & M2 & M3 & _) & _). cbn [app] in Hwf'. change (skip_hash (hashfd_internal mem n)) with false in M2.
    eapply wp_conseq; [| |apply (finalize_hashfile_wp None); [done|lia|done]].
    + by intros (k & [=] & _).
    + intros [out hash] (-> & -> & _). split_and!; try done. apply checksum_sealed.
  - destruct (hashfd_check_wf mem name Hm) as (Hwf & Hr & H32).
    eapply wp_conseq; [| |by apply (hashwrite_all_wp (Some name) [])].
    + cbn. intros HX ->. apply HX. by eexists.
    + intros f (Hwf' & _ & (_ & M2 & M3 & _) & _). cbn [app] in Hwf'.
      change (skip_hash (hashfd_check mem name)) with false in M2.
      eapply wp_conseq; [| |apply (finalize_hashfile_wp (Some name)); [done|lia|done]].
      * by intros (k & [= <-] & ?).
      * intros [out hash] (_ & _ & Hk). by apply Hk.
Qed.

(** Rolling back: writes between a checkpoint and the return to it leave no
    trace in the file, its hash or the running totals, whatever was buffered when. *)
Theorem hashfile_rollback mem before discarded after :
  128 * 1024 <= zlen mem → counts before → counts discarded → counts after →
  returns (let! f := hashwrite_all crc32_fn (hashfd mem) before in
           let! (f, cp) := hashfile_checkpoint f in
           let! f := hashwrite_all crc32_fn f discarded in
           let f := hashfile_truncate f cp in
           let! f := hashwrite_all crc32_fn f after in
           let! r := finalize_hashfile f CSUM_HASH_IN_STREAM in
           Ret (hashfile_total f, r))
    (λ '(total, (out, _)), total = zlen (concat before ++ concat after) ∧
      out = sealed (concat before ++ concat after)).
Proof.
  intros Hm Hb Hd Ha. destruct (hashfd_internal_wf mem (128 * 1024) ltac:(lia)) as (Hwf & Hr & H32). fold (hashfd mem) in *.
  apply wp_bind. eapply wp_mono; [|by apply (hashwrite_all_wp None [])].
  intros f1 (W1 & R1 & (A1 & A2 & A3 & A4) & _). cbn [app] in W1. change (skip_hash (hashfd mem)) with false in A2.
  apply wp_bind. eapply wp_mono; [|by apply checkpoint_wp].
  intros [f2 cp] (W2 & F2 & (B1 & B2 & B3 & B4) & O2 & ->). cbv beta match.
  apply wp_bind. eapply wp_mono; [|apply (hashwrite_all_wp None (concat before)); [done|done|lia]].
  intros f3 (W3 & R3 & (C1 & C2 & C3 & C4) & _). cbn zeta. rewrite F2 in C4.
  pose proof (truncate_wf _ _ _ W3 C4 ltac:(lia)) as W4.
  apply wp_bind. eapply wp_mono; [|apply (hashwrite_all_wp None (concat before)); [done|done|cbn; lia]].
  intros f5 (W5 & R5 & (D1 & D2 & D3 & D4) & _). cbn in D2, D3.
  apply wp_bind. eapply wp_conseq; [| |apply (finalize_hashfile_wp None); [exact W5|lia|congruence]].
  { by intros (k & [=] & _). }
  intros [out hash] (-> & _ & _). cbn. split; [|done].
  destruct W5 as [Hfd Ho Ht _ _]. unfold hashfile_total. rewrite <- Hfd, zlen_app, zlen_ztake; lia.
Qed.
End properties.

(** A small algorithm to instantiate the interface with. *)
#[local] Instance sum_algo : HashAlgo := {
  rawsz := 20; hash_ctx := Z; init_fn := 7;
  update_fn c data := foldl (λ c b, c * 31 + b) c data;
  final_fn c := zrep 20 (c mod 256);
}.
#[local] Instance sum_laws : HashLaws sum_algo.
Proof.
  split; intros; try done.
  - symmetry. apply foldl_app.
  - apply Forall_replicate. unfold byte_ok. apply Z.mod_pos_bound. lia.
Qed.
#[local] Instance sum_crc_laws : CrcLaws (foldl (λ c b, c * 33 + b)).
Proof. split; intros; [symmetry; apply foldl_app|done]. Qed.

Lemma hashfile_seals_witness :
  returns (let! f := hashwrite_all (foldl (λ c b, c * 33 + b)) (hashfd_throughput (zrep (128 * 1024) 0)) [[1; 2]; []; [3]] in
           finalize_hashfile f CSUM_HASH_IN_STREAM)
    (λ '(out, hash), out = concat [[1; 2]; []; [3]] ++ hash ∧
      hash = final_fn (update_fn init_fn (concat [[1; 2]; []; [3]])) ∧ hashfile_checksum_valid out = Ret true) ∧
  wp ([9] ≠ sealed (concat [[1; 2]; []; [3]]))
    (let! f := hashwrite_all (foldl (λ c b, c * 33 + b)) (hashfd_check (zrep (128 * 1024) 0) [9]) [[1; 2]; []; [3]] in
     finalize_hashfile f CSUM_HASH_IN_STREAM)
    (λ _, [9] = sealed (concat [[1; 2]; []; [3]])).
Proof. apply (hashfile_seals (foldl (λ c b, c * 33 + b)) (zrep (128 * 1024) 0) (8 * 1024)); [lia|rewrite zlen_zrep; lia|rewrite zlen_zrep; lia|by repeat constructor]. Defined.

Lemma hashfile_rollback_witness :
  returns (let! f := hashwrite_all (foldl (λ c b, c * 33 + b)) (hashfd (zrep (128 * 1024) 0)) [[1; 2]] in
           let! (f, cp) := hashfile_checkpoint f in
           let! f := hashwrite_all (foldl (λ c b, c * 33 + b)) f [[5; 5]; [6]] in
           let f := hashfile_truncate f cp in
           let! f := hashwrite_all (foldl (λ c b, c * 33 + b)) f [[3]] in
           let! r := finalize_hashfile f CSUM_HASH_IN_STREAM in
           Ret (hashfile_total f, r))
    (λ '(total, (out, _)), total = zlen (concat [[1; 2]] ++ concat [[3]]) ∧
      out = sealed (concat [[1; 2]] ++ concat [[3]])).
Proof. apply (hashfile_rollback (foldl (λ c b, c * 33 + b))); [rewrite zlen_zrep; lia|by repeat constructor..]. Defined.


End Hashfile.
