(* ===== verification/HashLookup.v ===== *)
(** * Looking up object names in sorted tables (hash-lookup.c, read-cache-ll.h)

    [oid_pos] guesses a first position by interpolation on the first pair of
    bytes that tells the ends of the table apart, then bisects; [bsearch_hash]
    bisects the interval a fan-out table gives.  Both are shown to find the
    element, or the place where it would be inserted, and to stay in bounds. *)
From stdpp Require Import prelude.
From S2P Require Import Prelude Order.

Module HashLookup.

Definition GIT_MAX_RAWSZ : Z := 32.

(** The [hash] array of an [object_id]. *)
Definition oid_ok (oid : list Z) : Prop := zlen oid = GIT_MAX_RAWSZ ∧ bytes_ok oid.

Definition oidcmp (oid1 oid2 : list Z) : Z := memcmp oid1 oid2.

Definition index_pos_to_insert_pos (pos : Z) : outcome Z :=
  if 2 ^ 31 - 1 <? pos then Die else Ret (-1 - pos).

Definition take2 (oid : list Z) (ofs : Z) : outcome Z :=
  let! a := rd oid ofs in
  let! b := rd oid (ofs + 1) in
  Ret (u32 (Z.lor (Z.shiftl a 8) b)).

Section oid_pos.
(** [fn(i, table)], and the number of bytes of a name in [the_hash_algo]. *)
Context (fn : Z → outcome (list Z)) (rawsz : Z).

(** The [for] loop: [inl] is a [return] in it, [inr] the value of [mi] after it. *)
Fixpoint interpolate (fuel : nat) (oid : list Z) (nr ofs : Z) : outcome (Z + Z) :=
  match fuel with
  | O => NoFuel
  | S fuel =>
      if ofs <? rawsz - 2 then
        let! first := fn 0 in
        let! lov := take2 first ofs in
        let! last := fn (nr - 1) in
        let! hiv := take2 last ofs in
        let! miv := take2 oid ofs in
        if miv <? lov then Ret (inl (-1))
        else if hiv <? miv then
          let! r := index_pos_to_insert_pos nr in Ret (inl r)
        else if negb (lov =? hiv) then
          let mi := u64 ((nr - 1) * (miv - lov)) / (hiv - lov) in
          if (0 <=? mi) && (mi <? nr) then Ret (inr mi) else Die
        else interpolate fuel oid nr (ofs + 2)
      else Ret (inr 0)
  end.

(** The [do ... while (lo < hi)] loop. *)
Fixpoint bisect (fuel : nat) (oid : list Z) (lo hi mi : Z) : outcome Z :=
  match fuel with
  | O => NoFuel
  | S fuel =>
      let! e := fn mi in
      let cmp := oidcmp e oid in
      if cmp =? 0 then Ret (i32 mi)
      else
        let '(lo, hi) := if 0 <? cmp then (lo, mi) else (mi + 1, hi) in
        let mi := lo + (hi - lo) / 2 in
        if lo <? hi then bisect fuel oid lo hi mi else index_pos_to_insert_pos lo
  end.

Definition oid_pos (oid : list Z) (nr : Z) : outcome Z :=
  if nr =? 0 then Ret (-1)
  else
    let! r := (if negb (nr =? 1) then interpolate (S (Z.to_nat rawsz)) oid nr 0 else Ret (inr 0)) in
    match r with
    | inl r => Ret r
    | inr mi => bisect (Z.to_nat nr) oid 0 nr mi
    end.
End oid_pos.

(** [entry mi] reads the name at [table + mi * stride], and [fanout i] the
    entry [ntohl(fanout_nbo[i])]: the callers say how their memory is laid out. *)
Fixpoint bsearch_loop (fuel : nat) (hash : list Z) (entry : Z → outcome (list Z)) (lo hi : Z) : outcome (Z * Z) :=
  match fuel with
  | O => NoFuel
  | S fuel =>
      if lo <? hi then
        let mi := u32 (lo + (hi - lo) / 2) in
        let! e := entry mi in
        let cmp := memcmp e hash in
        if cmp =? 0 then Ret (1, mi)
        else if 0 <? cmp then bsearch_loop fuel hash entry lo mi
        else bsearch_loop fuel hash entry (u32 (mi + 1)) hi
      else Ret (0, lo)
  end.

(** The result and [*result]. *)
Definition bsearch_hash (hash : list Z) (fanout : Z → outcome Z) (entry : Z → outcome (list Z)) : outcome (Z * Z) :=
  let! h0 := rd hash 0 in
  let! hi := fanout h0 in
  let! lo := (if h0 =? 0 then Ret 0 else fanout (h0 - 1)) in
  bsearch_loop (S (Z.to_nat hi)) hash entry lo hi.

(** ** Two bytes at a time *)
Lemma take2_wp oid ofs :
  oid_ok oid → 0 <= ofs → ofs + 1 < GIT_MAX_RAWSZ →
  ∃ a b, znth oid ofs = Some a ∧ znth oid (ofs + 1) = Some b ∧ byte_ok a ∧ byte_ok b ∧
    take2 oid ofs = Ret (256 * a + b).
Proof.
  intros [Hl Hb] Ho Hm.
  destruct (znth_is_Some oid ofs) as [a Ha]; [lia|].
  destruct (znth_is_Some oid (ofs + 1)) as [b Hb']; [lia|].
  pose proof (bytes_ok_znth _ _ _ Hb Ha) as Hba. pose proof (bytes_ok_znth _ _ _ Hb Hb') as Hbb.
  exists a, b. split_and!; try done. unfold take2. rewrite (rd_znth _ _ _ Ha), (rd_znth _ _ _ Hb').
  cbn [obind]. unfold byte_ok in *. rewrite lor_disjoint_add by lia. unfold u32. rewrite Z.mod_small by lia.
  f_equal. lia.
Qed.

(** With a common prefix, the next pair decides. *)
Lemma memcmp_pair (x y : list Z) ofs a b c d :
  ztake ofs x = ztake ofs y → 0 <= ofs →
  znth x ofs = Some a → znth x (ofs + 1) = Some b → znth y ofs = Some c → znth y (ofs + 1) = Some d →
  byte_ok b → byte_ok d →
  256 * a + b < 256 * c + d → memcmp x y < 0.
Proof.
  intros Hp Ho Ha Hb Hc Hd Hbb Hbd Hlt. unfold byte_ok in *.
  rewrite <- (ztake_zdrop ofs x), <- (ztake_zdrop ofs y), Hp, memcmp_app.
  rewrite (zdrop_cons x _ _ Ho Ha), (zdrop_cons y _ _ Ho Hc).
  rewrite (zdrop_cons x (ofs + 1) b), (zdrop_cons y (ofs + 1) d) by (done || lia). cbn.
  destruct (Z.ltb_spec a c); [lia|]. destruct (Z.ltb_spec c a); [lia|]. destruct (Z.ltb_spec b d); lia.
Qed.
Lemma prefix_pair (x y : list Z) ofs a b :
  ztake ofs x = ztake ofs y → 0 <= ofs →
  znth x ofs = Some a → znth x (ofs + 1) = Some b → znth y ofs = Some a → znth y (ofs + 1) = Some b →
  ztake (ofs + 2) x = ztake (ofs + 2) y.
Proof.
  intros Hp Ho Hxa Hxb Hya Hyb. replace (ofs + 2) with (ofs + 1 + 1) by lia.
  rewrite (ztake_succ x (ofs + 1) b), (ztake_succ y (ofs + 1) b) by (done || lia).
  by rewrite (ztake_succ x ofs a), (ztake_succ y ofs a), Hp by done.
Qed.

Section correct.
Context (fn : Z → outcome (list Z)) (rawsz : Z) (table : list (list Z)) (oid : list Z).
Hypothesis Hfn : ∀ i, 0 <= i < zlen table → fn i = rd table i.
Hypothesis Hraw : 2 <= rawsz <= GIT_MAX_RAWSZ.
Hypothesis Htable : Forall oid_ok table.
Hypothesis Hsorted : nondec memcmp table.
Hypothesis Hoid : oid_ok oid.
Hypothesis Hnr : zlen table < 2 ^ 31.

(** The answer is the position of [oid], or -1 minus its place. *)
Definition pos_post (r : Z) : Prop :=
  0 <= r ∧ znth table r = Some oid ∨
  ∃ p, 0 <= p <= zlen table ∧ r = -1 - p ∧ split_at memcmp table oid p p.

Lemma fn_wp i : 0 <= i < zlen table → ∃ e, fn i = Ret e ∧ znth table i = Some e ∧ oid_ok e.
Proof using Hfn Htable.
  intros Hi. destruct (znth_is_Some table i Hi) as [e He]. exists e.
  rewrite Hfn by done. split_and!; [by apply rd_znth|done|].
  unfold znth in He. destruct (0 <=? i); [|done]. by eapply Forall_lookup_1.
Qed.

Lemma insert_pos_wp p : 0 <= p <= zlen table → index_pos_to_insert_pos p = Ret (-1 - p).
Proof using Hnr. intros. unfold index_pos_to_insert_pos. by eval_ltb (2 ^ 31 - 1) p. Qed.

Lemma interpolate_wp fuel ofs first last :
  znth table 0 = Some first → znth table (zlen table - 1) = Some last →
  0 <= ofs → Z.max 0 (rawsz - ofs) < Z.of_nat fuel →
  ztake ofs first = ztake ofs oid → ztake ofs last = ztake ofs oid →
  returns (interpolate fn rawsz fuel oid (zlen table) ofs) (λ r,
    match r with inl r => pos_post r | inr mi => 0 <= mi < zlen table end).
Proof using Hfn Htable Hsorted Hoid Hraw Hnr.
  intros Hfirst Hlast. revert ofs. induction fuel as [|fuel IH]; intros ofs Ho Hfuel Hpf Hpl; [lia|].
  pose proof (znth_Some_lt _ _ _ Hfirst) as Hlen. cbn [interpolate].
  destruct (Z.ltb_spec ofs (rawsz - 2)); [|cbn; lia].
  destruct (fn_wp 0 Hlen) as (f' & -> & Hf & Hokf). rewrite Hfirst in Hf. injection Hf as <-.
  destruct (fn_wp (zlen table - 1) ltac:(lia)) as (l' & -> & Hl & Hokl). rewrite Hlast in Hl. injection Hl as <-.
  assert (ofs + 1 < GIT_MAX_RAWSZ) by lia. cbn [obind].
  destruct (take2_wp first ofs Hokf Ho) as (a1 & b1 & Ha1 & Hb1 & Hba1 & Hbb1 & ->); [done|].
  destruct (take2_wp last ofs Hokl Ho) as (a2 & b2 & Ha2 & Hb2 & Hba2 & Hbb2 & ->); [done|].
  destruct (take2_wp oid ofs Hoid Ho) as (a & b & Ha & Hb & Hba & Hbb & ->); [done|]. cbn [obind].
  destruct (Z.ltb_spec (256 * a + b) (256 * a1 + b1)).
  { cbn [wp]. right. exists 0. split_and!; [lia..|]. eapply (split_at_hi memcmp); [done|apply split_at_init|done|].
    apply cmp_flip. eapply (memcmp_pair oid first ofs); done. }
  destruct (Z.ltb_spec (256 * a2 + b2) (256 * a + b)).
  { rewrite insert_pos_wp by lia. cbn [obind wp]. right. exists (zlen table). split_and!; [lia..|].
    replace (zlen table) with (zlen table - 1 + 1) at 1 by lia.
    eapply (split_at_lo memcmp); [done|apply split_at_init|done|]. eapply (memcmp_pair last oid ofs); done. }
  unfold byte_ok in *. destruct (Z.eqb_spec (256 * a1 + b1) (256 * a2 + b2)); cbn [negb].
  - assert (a1 = a ∧ b1 = b ∧ a2 = a ∧ b2 = b) as (-> & -> & -> & ->) by lia.
    apply IH; [lia|lia|by eapply prefix_pair..].
  - set (lov := 256 * a1 + b1) in *. set (hiv := 256 * a2 + b2) in *. set (miv := 256 * a + b) in *.
    assert (0 <= lov ∧ hiv < 65536) by (unfold lov, hiv; lia).
    unfold u64. rewrite Z.mod_small by nia.
    assert (0 <= (zlen table - 1) * (miv - lov) / (hiv - lov) <= zlen table - 1) as Hmi.
    { split; [apply Z.div_pos; nia|]. apply Z.div_le_upper_bound; nia. }
    rewrite (proj2 (Z.leb_le _ _)), (proj2 (Z.ltb_lt _ _)) by lia. cbn. lia.
Qed.

Lemma bisect_wp fuel lo hi mi :
  hi - lo <= Z.of_nat fuel → 0 <= lo <= mi → mi < hi <= zlen table → split_at memcmp table oid lo hi →
  returns (bisect fn fuel oid lo hi mi) pos_post.
Proof using Hfn Htable Hsorted Hnr.
  revert lo hi mi. induction fuel as [|fuel IH]; intros lo hi mi Hf Hlo Hhi Hsplit; [lia|].
  cbn [bisect]. destruct (fn_wp mi ltac:(lia)) as (e & -> & He & _). cbn [obind]. unfold oidcmp.
  destruct (Z.eqb_spec (memcmp e oid) 0) as [E|E].
  { cbn [wp]. left. unfold i32. rewrite Z.mod_small by lia. replace (mi + 2 ^ 31 - 2 ^ 31) with mi by lia.
    apply memcmp_eq in E as ->. split; [lia|done]. }
  destruct (Z.ltb_spec 0 (memcmp e oid)) as [Hc|Hc].
  - assert (split_at memcmp table oid lo mi) as Hs by (by eapply split_at_hi; eauto using memcmp_order).
    destruct (Z.ltb_spec lo mi).
    + apply IH; try done; Z.div_mod_to_equations; lia.
    + assert (mi = lo) as -> by lia. rewrite insert_pos_wp by lia. cbn. right. exists lo. split_and!; lia || done.
  - assert (split_at memcmp table oid (mi + 1) hi) as Hs by (eapply split_at_lo; eauto using memcmp_order; lia).
    destruct (Z.ltb_spec (mi + 1) hi).
    + apply IH; try done; Z.div_mod_to_equations; lia.
    + assert (hi = mi + 1) as -> by lia. rewrite insert_pos_wp by lia. cbn. right. exists (mi + 1).
      split_and!; lia || done.
Qed.

Lemma oid_pos_wp : returns (oid_pos fn rawsz oid (zlen table)) pos_post.
Proof using Hfn Htable Hsorted Hoid Hraw Hnr.
  unfold oid_pos. pose proof (zlen_nonneg table). destruct (Z.eqb_spec (zlen table) 0) as [E|E].
  { cbn. right. exists 0. rewrite E. split_and!; [lia..|]. rewrite <- E at 2. apply split_at_init. }
  apply wp_bind, (wp_mono _ _ (λ r, match r with inl r => pos_post r | inr mi => 0 <= mi < zlen table end)).
  - intros [r|mi] Hr; [done|]. apply bisect_wp; [lia|lia|lia|apply split_at_init].
  - destruct (Z.eqb_spec (zlen table) 1); cbn [negb]; [cbn; lia|].
    destruct (znth_is_Some table 0 ltac:(lia)) as [first Hfirst].
    destruct (znth_is_Some table (zlen table - 1) ltac:(lia)) as [last Hlast].
    eapply interpolate_wp; [done..|lia|lia|done|done].
Qed.
End correct.

(** Entry [c] of the fan-out table counts the names whose first byte is at most
    [c]. *)
Definition fanout_ok (fanout : list Z) (table : list (list Z)) : Prop :=
  ∀ c, byte_ok c → ∃ n, znth fanout c = Some n ∧ 0 <= n <= zlen table ∧
    ∀ k e, znth table k = Some e → k < n ↔ ∃ h t, e = h :: t ∧ h <= c.

(** [f] reads the table [l]. *)
Definition reads {A} (f : Z → outcome A) (l : list A) : Prop := ∀ i v, znth l i = Some v → f i = Ret v.
Lemma reads_rd {A} (l : list A) : reads (rd l) l.
Proof. intros i v. apply rd_znth. Qed.

Lemma bsearch_loop_wp fuel hash entry table lo hi :
  reads entry table → nondec memcmp table → zlen table < 2 ^ 32 →
  Z.max 0 (hi - lo) < Z.of_nat fuel → 0 <= lo <= hi → hi <= zlen table → split_at memcmp table hash lo hi →
  returns (bsearch_loop fuel hash entry lo hi) (λ '(found, p),
    found = 1 ∧ znth table p = Some hash ∨
    found = 0 ∧ 0 <= p <= zlen table ∧ split_at memcmp table hash p p).
Proof.
  intros Hread Hsorted Hn. revert lo hi. induction fuel as [|fuel IH]; intros lo hi Hf Hlo Hhi Hsplit; [lia|].
  cbn [bsearch_loop]. destruct (Z.ltb_spec lo hi).
  2:{ cbn. right. assert (hi = lo) as -> by lia. split_and!; lia || done. }
  unfold u32. rewrite Z.mod_small by (Z.div_mod_to_equations; lia).
  set (mi := lo + (hi - lo) / 2). assert (lo <= mi < hi) by (unfold mi; Z.div_mod_to_equations; lia).
  clearbody mi. destruct (znth_is_Some table mi) as [e He]; [lia|]. rewrite (Hread _ _ He). cbn [obind].
  destruct (Z.eqb_spec (memcmp e hash) 0) as [E|E].
  { cbn. left. apply memcmp_eq in E as ->. done. }
  destruct (Z.ltb_spec 0 (memcmp e hash)).
  - apply IH; [lia..|]. by eapply split_at_hi; eauto using memcmp_order.
  - rewrite Z.mod_small by lia. apply IH; [lia..|]. eapply split_at_lo; eauto using memcmp_order; lia.
Qed.

Lemma table_entry table k e :
  Forall (λ e, bytes_ok e ∧ e ≠ []) table → znth table k = Some e →
  ∃ h t, e = h :: t ∧ byte_ok h.
Proof.
  unfold znth. destruct (0 <=? k); [|done]. intros Ht Hk. eapply Forall_lookup_1 in Ht as [Hb Hne]; [|done].
  destruct e as [|h t]; [done|]. apply Forall_cons in Hb as [Hb _]. eauto.
Qed.

Lemma fanout_split h t fanout table lo hi :
  fanout_ok fanout table → Forall (λ e, bytes_ok e ∧ e ≠ []) table → byte_ok h →
  znth fanout h = Some hi → (if h =? 0 then lo = 0 else znth fanout (h - 1) = Some lo) →
  0 <= lo <= hi ∧ hi <= zlen table ∧ split_at memcmp table (h :: t) lo hi.
Proof.
  intros Hfan Htab Hh Hhi Hlo. unfold byte_ok in Hh.
  destruct (Hfan h Hh) as (n & Hn & Hnb & Hnk). rewrite Hhi in Hn. injection Hn as <-.
  assert (0 <= lo <= zlen table ∧ ∀ k e, znth table k = Some e → k < lo ↔ ∃ h' t, e = h' :: t ∧ h' < h)
    as [Hlob Hlok].
  { destruct (Z.eqb_spec h 0) as [->|].
    - subst lo. split; [pose proof (zlen_nonneg table); lia|]. intros k e Hk.
      pose proof (znth_Some_lt _ _ _ Hk). split; [lia|]. intros (h' & t' & -> & Hlt).
      destruct (table_entry _ _ _ Htab Hk) as (? & ? & [= <- <-] & Hb). unfold byte_ok in Hb. lia.
    - destruct (Hfan (h - 1)) as (m & Hm & Hmb & Hmk); [unfold byte_ok; lia|].
      rewrite Hlo in Hm. injection Hm as <-. split; [done|]. intros k e Hk. rewrite (Hmk k e Hk).
      split; intros (h' & t' & -> & Hle); exists h', t'; (split; [done|lia]). }
  assert (lo <= hi) as Hle.
  { destruct (Z.le_gt_cases lo hi) as [|Hgt]; [done|].
    destruct (znth_is_Some table hi ltac:(lia)) as [e He].
    destruct (proj1 (Hlok hi e He) ltac:(lia)) as (h' & t' & -> & Hlt).
    assert (hi < hi); [|lia]. apply (Hnk hi _ He). exists h', t'. split; [done|lia]. }
  split_and!; [lia..|]. split; intros k e Hk He.
  - destruct (proj1 (Hlok k e He) Hk) as (h' & t' & -> & Hlt). cbn. by rewrite (proj2 (Z.ltb_lt h' h)).
  - destruct (table_entry _ _ _ Htab He) as (h' & t' & -> & _). cbn.
    destruct (Z.le_gt_cases h' h).
    + assert (k < hi); [|lia]. apply (Hnk k _ He). exists h', t'. done.
    + eval_ltb h' h. eval_ltb h h'. done.
Qed.

Lemma bsearch_hash_wp hash fan entry fanout table :
  reads fan fanout → reads entry table → fanout_ok fanout table → Forall (λ e, bytes_ok e ∧ e ≠ []) table → nondec memcmp table →
  zlen table < 2 ^ 32 → bytes_ok hash → hash ≠ [] →
  returns (bsearch_hash hash fan entry) (λ '(found, p),
    found = 1 ∧ znth table p = Some hash ∨
    found = 0 ∧ 0 <= p <= zlen table ∧ split_at memcmp table hash p p).
Proof.
  intros Hrf Hre Hfan Htab Hsorted Hn Hhash Hne. destruct hash as [|h t]; [done|].
  apply Forall_cons in Hhash as [Hh _]. unfold bsearch_hash. rewrite (rd_znth _ _ h) by done. cbn [obind].
  destruct (Hfan h Hh) as (hi & Hhi & _). rewrite (Hrf _ _ Hhi). cbn [obind].
  assert (∃ lo, (if h =? 0 then Ret 0 else fan (h - 1)) = Ret lo ∧
    if h =? 0 then lo = 0 else znth fanout (h - 1) = Some lo) as (lo & -> & Hlo).
  { destruct (Z.eqb_spec h 0); [by exists 0|]. unfold byte_ok in *.
    destruct (Hfan (h - 1)) as (lo & Hlo & _); [unfold byte_ok; lia|]. exists lo. by rewrite (Hrf _ _ Hlo). }
  destruct (fanout_split h t fanout table lo hi) as (Hb1 & Hb2 & Hs); [done..|]. cbn [obind].
  apply bsearch_loop_wp; try done; lia.
Qed.

End HashLookup.
