(* ===== verification/Sha1.v ===== *)
(** * SHA-1 (block-sha1/sha1.c)

    The compression function is unrolled in the code: the five registers change
    roles instead of places, and the message schedule lives in a ring of sixteen
    words that starts uninitialized.  It is transcribed here line by line and
    proved equal to the definition of FIPS 180-4, where the registers move and
    the schedule has eighty words.  With the block-wise update and final
    functions this gives the whole hash, an instance of the interface the
    checksummed files are written against. *)
From stdpp Require Import prelude.
From S2P Require Import Prelude Endian BlockHash Hashfile.
Import Endian.

Module Sha1.

(** ** The macros *)
Definition SHA_ROT (X l r : Z) : Z := Z.lor (u32 (Z.shiftl X l)) (Z.shiftr X r).
Definition SHA_ROL (X n : Z) : Z := SHA_ROT X n (32 - n).
Definition SHA_ROR (X n : Z) : Z := SHA_ROT X (32 - n) n.

(** [unsigned int array[16]]; [None] is a word not yet written. *)
Definition W (array : list (option Z)) (x : Z) : outcome Z :=
  let! w := rd array (Z.land x 15) in
  match w with Some w => Ret w | None => UB end.
Definition setW (array : list (option Z)) (x val : Z) : outcome (list (option Z)) :=
  wr array (Z.land x 15) (Some val).

Definition SHA_SRC (block : list Z) (t : Z) : outcome Z :=
  let! b := rd_range block (t * 4) 4 in Ret (of_be b).
Definition SHA_MIX (array : list (option Z)) (t : Z) : outcome Z :=
  let! w13 := W array (t + 13) in
  let! w8 := W array (t + 8) in
  let! w2 := W array (t + 2) in
  let! w0 := W array t in
  Ret (SHA_ROL (Z.lxor (Z.lxor (Z.lxor w13 w8) w2) w0) 1).

(** One round, given what [input(t)] is; it changes the array, [E] and [B]. *)
Definition SHA_ROUND (array : list (option Z)) (t : Z) (input : outcome Z) (fn constant A B E : Z)
  : outcome (list (option Z) * Z * Z) :=
  let! TEMP := input in
  let! array := setW array t TEMP in
  Ret (array, u32 (E + u32 (TEMP + SHA_ROL A 5 + fn + constant)), SHA_ROR B 2).

Definition T_0_15 (block : list Z) array (t A B C D E : Z) :=
  SHA_ROUND array t (SHA_SRC block t) (Z.lxor (Z.land (Z.lxor C D) B) D) 0x5a827999 A B E.
Definition T_16_19 array (t A B C D E : Z) :=
  SHA_ROUND array t (SHA_MIX array t) (Z.lxor (Z.land (Z.lxor C D) B) D) 0x5a827999 A B E.
Definition T_20_39 array (t A B C D E : Z) :=
  SHA_ROUND array t (SHA_MIX array t) (Z.lxor (Z.lxor B C) D) 0x6ed9eba1 A B E.
Definition T_40_59 array (t A B C D E : Z) :=
  SHA_ROUND array t (SHA_MIX array t) (u32 (Z.land B C + Z.land D (Z.lxor B C))) 0x8f1bbcdc A B E.
Definition T_60_79 array (t A B C D E : Z) :=
  SHA_ROUND array t (SHA_MIX array t) (Z.lxor (Z.lxor B C) D) 0xca62c1d6 A B E.

(** [ctx->H] *)
Record sha1_state := Sha1_state { H0 : Z; H1 : Z; H2 : Z; H3 : Z; H4 : Z }.

Definition blk_SHA1_Block (H : sha1_state) (block : list Z) : outcome sha1_state :=
  let A := H0 H in
  let B := H1 H in
  let C := H2 H in
  let D := H3 H in
  let E := H4 H in
  let array := replicate 16 None in
  let! (array, E, B) := T_0_15 block array 0 A B C D E in
  let! (array, D, A) := T_0_15 block array 1 E A B C D in
  let! (array, C, E) := T_0_15 block array 2 D E A B C in
  let! (array, B, D) := T_0_15 block array 3 C D E A B in
  let! (array, A, C) := T_0_15 block array 4 B C D E A in
  let! (array, E, B) := T_0_15 block array 5 A B C D E in
  let! (array, D, A) := T_0_15 block array 6 E A B C D in
  let! (array, C, E) := T_0_15 block array 7 D E A B C in
  let! (array, B, D) := T_0_15 block array 8 C D E A B in
  let! (array, A, C) := T_0_15 block array 9 B C D E A in
  let! (array, E, B) := T_0_15 block array 10 A B C D E in
  let! (array, D, A) := T_0_15 block array 11 E A B C D in
  let! (array, C, E) := T_0_15 block array 12 D E A B C in
  let! (array, B, D) := T_0_15 block array 13 C D E A B in
  let! (array, A, C) := T_0_15 block array 14 B C D E A in
  let! (array, E, B) := T_0_15 block array 15 A B C D E in
  let! (array, D, A) := T_16_19 array 16 E A B C D in
  let! (array, C, E) := T_16_19 array 17 D E A B C in
  let! (array, B, D) := T_16_19 array 18 C D E A B in
  let! (array, A, C) := T_16_19 array 19 B C D E A in
  let! (array, E, B) := T_20_39 array 20 A B C D E in
  let! (array, D, A) := T_20_39 array 21 E A B C D in
  let! (array, C, E) := T_20_39 array 22 D E A B C in
  let! (array, B, D) := T_20_39 array 23 C D E A B in
  let! (array, A, C) := T_20_39 array 24 B C D E A in
  let! (array, E, B) := T_20_39 array 25 A B C D E in
  let! (array, D, A) := T_20_39 array 26 E A B C D in
  let! (array, C, E) := T_20_39 array 27 D E A B C in
  let! (array, B, D) := T_20_39 array 28 C D E A B in
  let! (array, A, C) := T_20_39 array 29 B C D E A in
  let! (array, E, B) := T_20_39 array 30 A B C D E in
  let! (array, D, A) := T_20_39 array 31 E A B C D in
  let! (array, C, E) := T_20_39 array 32 D E A B C in
  let! (array, B, D) := T_20_39 array 33 C D E A B in
  let! (array, A, C) := T_20_39 array 34 B C D E A in
  let! (array, E, B) := T_20_39 array 35 A B C D E in
  let! (array, D, A) := T_20_39 array 36 E A B C D in
  let! (array, C, E) := T_20_39 array 37 D E A B C in
  let! (array, B, D) := T_20_39 array 38 C D E A B in
  let! (array, A, C) := T_20_39 array 39 B C D E A in
  let! (array, E, B) := T_40_59 array 40 A B C D E in
  let! (array, D, A) := T_40_59 array 41 E A B C D in
  let! (array, C, E) := T_40_59 array 42 D E A B C in
  let! (array, B, D) := T_40_59 array 43 C D E A B in
  let! (array, A, C) := T_40_59 array 44 B C D E A in
  let! (array, E, B) := T_40_59 array 45 A B C D E in
  let! (array, D, A) := T_40_59 array 46 E A B C D in
  let! (array, C, E) := T_40_59 array 47 D E A B C in
  let! (array, B, D) := T_40_59 array 48 C D E A B in
  let! (array, A, C) := T_40_59 array 49 B C D E A in
  let! (array, E, B) := T_40_59 array 50 A B C D E in
  let! (array, D, A) := T_40_59 array 51 E A B C D in
  let! (array, C, E) := T_40_59 array 52 D E A B C in
  let! (array, B, D) := T_40_59 array 53 C D E A B in
  let! (array, A, C) := T_40_59 array 54 B C D E A in
  let! (array, E, B) := T_40_59 array 55 A B C D E in
  let! (array, D, A) := T_40_59 array 56 E A B C D in
  let! (array, C, E) := T_40_59 array 57 D E A B C in
  let! (array, B, D) := T_40_59 array 58 C D E A B in
  let! (array, A, C) := T_40_59 array 59 B C D E A in
  let! (array, E, B) := T_60_79 array 60 A B C D E in
  let! (array, D, A) := T_60_79 array 61 E A B C D in
  let! (array, C, E) := T_60_79 array 62 D E A B C in
  let! (array, B, D) := T_60_79 array 63 C D E A B in
  let! (array, A, C) := T_60_79 array 64 B C D E A in
  let! (array, E, B) := T_60_79 array 65 A B C D E in
  let! (array, D, A) := T_60_79 array 66 E A B C D in
  let! (array, C, E) := T_60_79 array 67 D E A B C in
  let! (array, B, D) := T_60_79 array 68 C D E A B in
  let! (array, A, C) := T_60_79 array 69 B C D E A in
  let! (array, E, B) := T_60_79 array 70 A B C D E in
  let! (array, D, A) := T_60_79 array 71 E A B C D in
  let! (array, C, E) := T_60_79 array 72 D E A B C in
  let! (array, B, D) := T_60_79 array 73 C D E A B in
  let! (array, A, C) := T_60_79 array 74 B C D E A in
  let! (array, E, B) := T_60_79 array 75 A B C D E in
  let! (array, D, A) := T_60_79 array 76 E A B C D in
  let! (array, C, E) := T_60_79 array 77 D E A B C in
  let! (array, B, D) := T_60_79 array 78 C D E A B in
  let! (array, A, C) := T_60_79 array 79 B C D E A in
  Ret (Sha1_state (u32 (H0 H + A)) (u32 (H1 H + B)) (u32 (H2 H + C)) (u32 (H3 H + D)) (u32 (H4 H + E))).

(** ** The functions of sha1.h

    [buf] of the context is [ctx->W] as bytes, whose content before the first
    update is [mem]. *)
Definition sha1_init : sha1_state := Sha1_state 0x67452301 0xefcdab89 0x98badcfe 0x10325476 0xc3d2e1f0.
Definition blk_SHA1_Init (mem : list Z) : BlockHash.blk_ctx sha1_state := BlockHash.Blk_ctx 0 sha1_init mem.
Definition blk_SHA1_Update (ctx : BlockHash.blk_ctx sha1_state) (data : list Z) : outcome (BlockHash.blk_ctx sha1_state) :=
  BlockHash.update blk_SHA1_Block ctx data.
Definition hashout (H : sha1_state) : list Z :=
  be32 (H0 H) ++ be32 (H1 H) ++ be32 (H2 H) ++ be32 (H3 H) ++ be32 (H4 H).
Definition blk_SHA1_Final (ctx : BlockHash.blk_ctx sha1_state) : outcome (list Z) :=
  let! H := BlockHash.final_state blk_SHA1_Block ctx in Ret (hashout H).

(** ** FIPS 180-4 *)
Module FIPS.
Import BlockHash(word, extend, parse).

(** Section 6.1.2: the schedule of eighty words, *)
Definition mix (ws : list Z) : Z :=
  let t := zlen ws in
  SHA_ROL (Z.lxor (Z.lxor (Z.lxor (word ws (t - 3)) (word ws (t - 8))) (word ws (t - 14))) (word ws (t - 16))) 1.
Definition schedule (block : list Z) : list Z := extend mix 64 (parse block).

(** the functions and constants of the four stages, *)
Definition f (t b c d : Z) : Z :=
  if t <? 20 then Z.lxor (Z.land b c) (Z.land (Z.lnot b) d)
  else if t <? 40 then Z.lxor (Z.lxor b c) d
  else if t <? 60 then Z.lxor (Z.lxor (Z.land b c) (Z.land b d)) (Z.land c d)
  else Z.lxor (Z.lxor b c) d.
Definition K (t : Z) : Z :=
  if t <? 20 then 0x5a827999 else if t <? 40 then 0x6ed9eba1 else if t <? 60 then 0x8f1bbcdc else 0xca62c1d6.

(** and the eighty steps. *)
Fixpoint steps (n : nat) (ws : list Z) (t : Z) (s : sha1_state) : sha1_state :=
  match n with
  | O => s
  | S n =>
      let '(Sha1_state a b c d e) := s in
      let T := u32 (SHA_ROL a 5 + f t b c d + e + K t + word ws t) in
      steps n ws (t + 1) (Sha1_state T a (SHA_ROL b 30) c d)
  end.
Definition compress (s : sha1_state) (block : list Z) : sha1_state :=
  let '(Sha1_state a b c d e) := steps 80 (schedule block) 0 s in
  Sha1_state (u32 (H0 s + a)) (u32 (H1 s + b)) (u32 (H2 s + c)) (u32 (H3 s + d)) (u32 (H4 s + e)).
Definition sha1 (m : list Z) : list Z := hashout (BlockHash.absorb compress sha1_init (BlockHash.padded m)).

End FIPS.

(** The digest of ["abc"], by the code and by the definition. *)
Example sha1_abc : FIPS.sha1 [97; 98; 99] =
  [0xa9; 0x99; 0x3e; 0x36; 0x47; 0x06; 0x81; 0x6a; 0xba; 0x3e; 0x25; 0x71; 0x78; 0x50; 0xc2; 0x6c; 0x9c; 0xd0; 0xd8; 0x9d].
Proof. vm_compute. reflexivity. Qed.
Example blk_sha1_abc :
  (let! ctx := blk_SHA1_Update (blk_SHA1_Init (zrep 64 0)) [97; 98; 99] in blk_SHA1_Final ctx) = Ret (FIPS.sha1 [97; 98; 99]).
Proof. vm_compute. reflexivity. Qed.

(** ** The rounds, as a loop *)
Section rounds.
Import BlockHash.
Context (block : list Z).
Definition T array (t A B C D E : Z) :=
  if t <? 16 then T_0_15 block array t A B C D E
  else if t <? 20 then T_16_19 array t A B C D E
  else if t <? 40 then T_20_39 array t A B C D E
  else if t <? 60 then T_40_59 array t A B C D E
  else T_60_79 array t A B C D E.
Fixpoint rounds (n : nat) array (t A B C D E : Z) (k : Z → Z → Z → Z → Z → outcome sha1_state) : outcome sha1_state :=
  match n with
  | O => k A B C D E
  | S n =>
      let! (array, E, B) := T array t A B C D E in
      rounds n array (t + 1) E A B C D k
  end.

Lemma block_rounds H : blk_SHA1_Block H block =
  rounds 80 (replicate 16 None) 0 (H0 H) (H1 H) (H2 H) (H3 H) (H4 H) (λ A B C D E,
    Ret (Sha1_state (u32 (H0 H + A)) (u32 (H1 H + B)) (u32 (H2 H + C)) (u32 (H3 H + D)) (u32 (H4 H + E)))).
Proof. reflexivity. Qed.

(** The ring holds the last sixteen words of the schedule. *)
Definition holds array (t : Z) : Prop :=
  zlen array = 16 ∧ ∀ j, 0 <= j → t - 16 <= j < t →
    znth array (j mod 16) = Some (Some (word (FIPS.schedule block) j)).

Lemma land_15 x : Z.land x 15 = x mod 16.
Proof. by rewrite (land_ones_mod _ 4). Qed.

Lemma W_ok array t x : holds array t → 16 <= t → 0 <= x - t < 16 →
  W array x = Ret (word (FIPS.schedule block) (x - 16)).
Proof.
  intros [_ Hh] Ht Hx. unfold W. rewrite land_15.
  replace (x mod 16) with ((x - 16) mod 16) by (replace x with (x - 16 + 1 * 16) at 2 by lia; by rewrite Z_mod_plus_full).
  rewrite (rd_znth _ _ _ (Hh (x - 16) ltac:(lia) ltac:(lia))). done.
Qed.

Lemma setW_ok array t : holds array t → 0 <= t → ∃ array',
  setW array t (word (FIPS.schedule block) t) = Ret array' ∧ holds array' (t + 1).
Proof.
  intros [Hl Hh] Ht. unfold setW. rewrite land_15. pose proof (Z.mod_pos_bound t 16).
  rewrite wr_ok by lia. eexists. split; [done|]. split; [by rewrite zlen_insert|]. intros j Hj0 Hj.
  destruct (decide (j = t)) as [->|]; [by rewrite znth_insert_eq by lia|].
  rewrite znth_insert_ne; [apply Hh; lia|lia|]. intros E.
  pose proof (Z.div_mod t 16). pose proof (Z.div_mod j 16). lia.
Qed.

Hypothesis Hblock : 64 <= zlen block.

Lemma SHA_SRC_ok t : 0 <= t < 16 → SHA_SRC block t = Ret (word (FIPS.schedule block) t).
Proof.
  intros Ht. unfold SHA_SRC, FIPS.schedule. rewrite BlockHash.word_extend_old by (rewrite zlen_parse; lia).
  by apply rd_parse.
Qed.

Lemma SHA_MIX_ok array t : holds array t → 16 <= t < 80 → SHA_MIX array t = Ret (word (FIPS.schedule block) t).
Proof.
  intros Hh Ht. unfold SHA_MIX. rewrite (W_ok array t (t + 13)), (W_ok array t (t + 8)), (W_ok array t (t + 2)), (W_ok array t t) by (done || lia).
  cbn [obind]. f_equal.
  unfold FIPS.schedule. rewrite (BlockHash.word_extend_new _ _ _ t) by (rewrite zlen_parse; lia).
  unfold FIPS.mix. rewrite zlen_ztake by (rewrite BlockHash.zlen_extend, zlen_parse; lia).
  rewrite !BlockHash.word_ztake by lia. replace (t + 13 - 16) with (t - 3) by lia.
  replace (t + 8 - 16) with (t - 8) by lia. by replace (t + 2 - 16) with (t - 14) by lia.
Qed.

(** ** The Boolean functions *)
Lemma SHA_ROL_ok x n : 0 < n < 32 → word_ok x → word_ok (SHA_ROL x n).
Proof.
  intros Hn Hx. unfold SHA_ROL, SHA_ROT. apply lor_lt_pow2; [lia|apply u32_ok|]. unfold word_ok in Hx.
  rewrite Z.shiftr_div_pow2 by lia. split; [apply Z.div_pos; lia|].
  apply Z.div_lt_upper_bound; [lia|]. nia.
Qed.
Lemma majority_eq b c d : word_ok b → word_ok c → word_ok d →
  u32 (Z.land b c + Z.land d (Z.lxor b c)) = Z.lxor (Z.lxor (Z.land b c) (Z.land b d)) (Z.land c d).
Proof.
  intros Hb Hc Hd. rewrite Z.add_nocarry_lxor.
  - assert (Z.lxor (Z.land b c) (Z.land d (Z.lxor b c)) = Z.lxor (Z.lxor (Z.land b c) (Z.land b d)) (Z.land c d)) as <-.
    { apply Z.bits_inj'. intros n Hn. rewrite ?Z.lxor_spec, ?Z.land_spec, ?Z.lxor_spec, ?Z.land_spec.
      by destruct (Z.testbit b n), (Z.testbit c n), (Z.testbit d n). }
    unfold u32. apply Z.mod_small, lxor_lt_pow2; [lia|by apply land_lt_pow2|by apply land_lt_pow2].
  - apply Z.bits_inj'. intros n Hn. rewrite ?Z.land_spec, ?Z.lxor_spec, Z.bits_0.
    by destruct (Z.testbit b n), (Z.testbit c n), (Z.testbit d n).
Qed.

(** ** One round, and all of them *)
Lemma SHA_ROUND_ok array t input fn constant A B E : holds array t → 0 <= t →
  input = Ret (word (FIPS.schedule block) t) → ∃ array', holds array' (t + 1) ∧
  SHA_ROUND array t input fn constant A B E =
    Ret (array', u32 (SHA_ROL A 5 + fn + E + constant + word (FIPS.schedule block) t), SHA_ROL B 30).
Proof.
  intros Hh Ht ->. unfold SHA_ROUND. cbn [obind]. destruct (setW_ok array t Hh Ht) as (array' & -> & Hh').
  exists array'. split; [done|]. cbn [obind]. do 3 f_equal. unfold u32. rewrite Zplus_mod_idemp_r. f_equal. lia.
Qed.

Lemma T_ok array t A B C D E : holds array t → 0 <= t < 80 → word_ok B → word_ok C → word_ok D →
  ∃ array', holds array' (t + 1) ∧
  T array t A B C D E =
    Ret (array', u32 (SHA_ROL A 5 + FIPS.f t B C D + E + FIPS.K t + word (FIPS.schedule block) t), SHA_ROL B 30).
Proof.
  intros Hh Ht HB HC HD. unfold T, T_0_15, T_16_19, T_20_39, T_40_59, T_60_79, FIPS.f, FIPS.K.
  destruct (Z.ltb_spec t 16).
  - rewrite (proj2 (Z.ltb_lt t 20)), choose_eq by lia. apply SHA_ROUND_ok; [done|lia|apply SHA_SRC_ok; lia].
  - assert (SHA_MIX array t = Ret (word (FIPS.schedule block) t)) as Hm by (apply SHA_MIX_ok; [done|lia]).
    destruct (Z.ltb_spec t 20); [rewrite choose_eq; apply SHA_ROUND_ok; (done || lia)|].
    destruct (Z.ltb_spec t 40); [apply SHA_ROUND_ok; (done || lia)|].
    destruct (Z.ltb_spec t 60); [rewrite majority_eq by done|]; apply SHA_ROUND_ok; (done || lia).
Qed.

Definition state_ok (s : sha1_state) : Prop :=
  word_ok (H0 s) ∧ word_ok (H1 s) ∧ word_ok (H2 s) ∧ word_ok (H3 s) ∧ word_ok (H4 s).

Lemma rounds1_ok k n : ∀ array t A B C D E, holds array t → 0 <= t → t + Z.of_nat n <= 80 →
  state_ok (Sha1_state A B C D E) →
  rounds n array t A B C D E k =
  let '(Sha1_state a b c d e) := FIPS.steps n (FIPS.schedule block) t (Sha1_state A B C D E) in k a b c d e.
Proof.
  induction n as [|n IH]; intros array t A B C D E Hh Ht Hn (HA & HB & HC & HD & HE); cbn [rounds FIPS.steps]; [done|].
  cbn [H0 H1 H2 H3 H4] in *. destruct (T_ok array t A B C D E) as (array' & Hh' & ->); [done|lia|done..|]. cbn [obind].
  apply IH; [done|lia|lia|]. split_and!; try done; [apply u32_ok|by apply SHA_ROL_ok].
Qed.

Lemma block_ok s : state_ok s → blk_SHA1_Block s block = Ret (FIPS.compress s block) ∧ state_ok (FIPS.compress s block).
Proof.
  intros Hs. rewrite block_rounds. unfold FIPS.compress. destruct s as [a b c d e].
  rewrite rounds1_ok; [|split; [done|intros j ? ?; lia]|lia|lia|done].
  destruct (FIPS.steps 80 _ _ _). split; [done|]. split_and!; apply u32_ok.
Qed.
End rounds.

Lemma schedule_take m : 64 <= zlen m → FIPS.schedule (ztake 64 m) = FIPS.schedule m.
Proof. intros Hm. unfold FIPS.schedule. by rewrite BlockHash.parse_take. Qed.

Lemma compress1_take st m : 64 <= zlen m → FIPS.compress st (ztake 64 m) = FIPS.compress st m.
Proof. intros Hm. unfold FIPS.compress. by rewrite schedule_take. Qed.

Lemma blk_SHA1_Block_ok st m : state_ok st → bytes_ok m → 64 <= zlen m →
  blk_SHA1_Block st m = Ret (FIPS.compress st (ztake 64 m)) ∧ state_ok (FIPS.compress st (ztake 64 m)).
Proof. intros Hs _ Hm. rewrite compress1_take by done. by apply block_ok. Qed.

(** ** The interface

    SHA-1 as a [HashAlgo]: the context is the data fed so far. *)
#[global] Instance sha1_algo : HashAlgo := {|
  rawsz := 20;
  hash_ctx := list Z;
  init_fn := [];
  update_fn := app;
  final_fn := FIPS.sha1;
|}.

Lemma hashout_len H : zlen (hashout H) = 20.
Proof. unfold hashout. zlia. Qed.
Lemma hashout_bytes H : bytes_ok (hashout H).
Proof. unfold hashout. repeat (apply Forall_app; split); apply be_bytes_ok. Qed.

#[global] Instance sha1_laws : HashLaws sha1_algo.
Proof.
  split.
  - apply app_nil_r.
  - intros c a b. symmetry. apply app_assoc.
  - intros c. apply hashout_len.
  - intros c. apply hashout_bytes.
  - cbn. lia.
Qed.

(** ** Property *)

(** C34. The block-wise SHA-1 of the program, with its unrolled rounds, ring of
    sixteen schedule words and partial buffer, computes the SHA-1 of FIPS 180-4
    of all the data, in whatever pieces it is given and whatever the buffer held
    before; it implements the hash interface that the checksummed files are
    verified against. *)
Theorem blk_sha1_refines mem chunks :
  zlen mem = 64 → bytes_ok mem → Forall bytes_ok chunks →
  returns (let! ctx := BlockHash.update_all blk_SHA1_Block (blk_SHA1_Init mem) chunks in blk_SHA1_Final ctx)
    (λ hash, hash = FIPS.sha1 (concat chunks) ∧
             hash = final_fn (foldl update_fn init_fn chunks)).
Proof.
  intros Hm Hmb Hc. apply wp_bind. eapply wp_mono; [|by apply (BlockHash.update_all_ok blk_SHA1_Block FIPS.compress state_ok
    blk_SHA1_Block_ok sha1_init chunks Hc _ []), BlockHash.init_repr].
  intros ctx Hctx. unfold blk_SHA1_Final. apply wp_bind.
  eapply wp_mono; [|by apply (BlockHash.final_state_ok blk_SHA1_Block FIPS.compress state_ok blk_SHA1_Block_ok sha1_init _ _ Hctx)].
  intros st [-> _]. cbn [wp app]. split; [done|].
  transitivity (FIPS.sha1 (foldl app [] chunks)); [by rewrite BlockHash.foldl_app_concat|reflexivity].
Qed.

Lemma blk_sha1_refines_witness :
  returns (let! ctx := BlockHash.update_all blk_SHA1_Block (blk_SHA1_Init (zrep 64 7)) [[97]; [98; 99]] in blk_SHA1_Final ctx)
    (λ hash, hash = FIPS.sha1 (concat [[97]; [98; 99]]) ∧
             hash = final_fn (foldl update_fn init_fn [[97]; [98; 99]])).
Proof.
  apply blk_sha1_refines; [done|apply bytes_ok_dec; reflexivity|].
  repeat (constructor; [apply bytes_ok_dec; reflexivity|]). constructor.
Defined.

End Sha1.
