(* ===== verification/Sha256.v ===== *)
(** * SHA-256 (sha256/block/sha256.c)

    The compression function with its unrolled rounds, in which the eight
    variables change roles instead of places, is transcribed line by line and
    proved equal to the definition of FIPS 180-4.  Update and final functions
    are those of [BlockHash]. *)
From stdpp Require Import prelude.
From S2P Require Import Prelude Endian BlockHash Hashfile.
Import Endian.

Module Sha256.

(** ** The inline functions *)
Definition ror (x n : Z) : Z := Z.lor (Z.shiftr x n) (u32 (Z.shiftl x (32 - n))).
Definition ch (x y z : Z) : Z := Z.lxor z (Z.land x (Z.lxor y z)).
Definition maj (x y z : Z) : Z := Z.lor (Z.land (Z.lor x y) z) (Z.land x y).
Definition sigma0 (x : Z) : Z := Z.lxor (Z.lxor (ror x 2) (ror x 13)) (ror x 22).
Definition sigma1 (x : Z) : Z := Z.lxor (Z.lxor (ror x 6) (ror x 11)) (ror x 25).
Definition gamma0 (x : Z) : Z := Z.lxor (Z.lxor (ror x 7) (ror x 18)) (Z.shiftr x 3).
Definition gamma1 (x : Z) : Z := Z.lxor (Z.lxor (ror x 17) (ror x 19)) (Z.shiftr x 10).

(** ** The compression function

    The two loops that write [W], whose words are appended in order. *)
Fixpoint copy_loop (n : nat) (block : list Z) (i : Z) (W : list Z) : outcome (list Z) :=
  match n with
  | O => Ret W
  | S n =>
      let! w := (let! b := rd_range block (i * 4) 4 in Ret (of_be b)) in
      copy_loop n block (i + 1) (W ++ [w])
  end.
Fixpoint fill_loop (n : nat) (i : Z) (W : list Z) : outcome (list Z) :=
  match n with
  | O => Ret W
  | S n =>
      let! w2 := rd W (i - 2) in
      let! w7 := rd W (i - 7) in
      let! w15 := rd W (i - 15) in
      let! w16 := rd W (i - 16) in
      fill_loop n (i + 1) (W ++ [u32 (gamma1 w2 + w7 + gamma0 w15 + w16)])
  end.

(** It changes [d] and [h]. *)
Definition RND (W : list Z) (a b c d e f g h i ki : Z) : outcome (Z * Z) :=
  let! w := rd W i in
  let t0 := u32 (h + sigma1 e + ch e f g + ki + w) in
  let t1 := u32 (sigma0 a + maj a b c) in
  Ret (u32 (d + t0), u32 (t0 + t1)).

Record sha256_state := Sha256_state
  { st0 : Z; st1 : Z; st2 : Z; st3 : Z; st4 : Z; st5 : Z; st6 : Z; st7 : Z }.

Definition blk_SHA256_Transform (ctx : sha256_state) (block : list Z) : outcome sha256_state :=
  let '(Sha256_state S0 S1 S2 S3 S4 S5 S6 S7) := ctx in
  let! W := copy_loop 16 block 0 [] in
  let! W := fill_loop 48 16 W in
  let! (S3, S7) := RND W S0 S1 S2 S3 S4 S5 S6 S7 0 0x428a2f98 in
  let! (S2, S6) := RND W S7 S0 S1 S2 S3 S4 S5 S6 1 0x71374491 in
  let! (S1, S5) := RND W S6 S7 S0 S1 S2 S3 S4 S5 2 0xb5c0fbcf in
  let! (S0, S4) := RND W S5 S6 S7 S0 S1 S2 S3 S4 3 0xe9b5dba5 in
  let! (S7, S3) := RND W S4 S5 S6 S7 S0 S1 S2 S3 4 0x3956c25b in
  let! (S6, S2) := RND W S3 S4 S5 S6 S7 S0 S1 S2 5 0x59f111f1 in
  let! (S5, S1) := RND W S2 S3 S4 S5 S6 S7 S0 S1 6 0x923f82a4 in
  let! (S4, S0) := RND W S1 S2 S3 S4 S5 S6 S7 S0 7 0xab1c5ed5 in
  let! (S3, S7) := RND W S0 S1 S2 S3 S4 S5 S6 S7 8 0xd807aa98 in
  let! (S2, S6) := RND W S7 S0 S1 S2 S3 S4 S5 S6 9 0x12835b01 in
  let! (S1, S5) := RND W S6 S7 S0 S1 S2 S3 S4 S5 10 0x243185be in
  let! (S0, S4) := RND W S5 S6 S7 S0 S1 S2 S3 S4 11 0x550c7dc3 in
  let! (S7, S3) := RND W S4 S5 S6 S7 S0 S1 S2 S3 12 0x72be5d74 in
  let! (S6, S2) := RND W S3 S4 S5 S6 S7 S0 S1 S2 13 0x80deb1fe in
  let! (S5, S1) := RND W S2 S3 S4 S5 S6 S7 S0 S1 14 0x9bdc06a7 in
  let! (S4, S0) := RND W S1 S2 S3 S4 S5 S6 S7 S0 15 0xc19bf174 in
  let! (S3, S7) := RND W S0 S1 S2 S3 S4 S5 S6 S7 16 0xe49b69c1 in
  let! (S2, S6) := RND W S7 S0 S1 S2 S3 S4 S5 S6 17 0xefbe4786 in
  let! (S1, S5) := RND W S6 S7 S0 S1 S2 S3 S4 S5 18 0x0fc19dc6 in
  let! (S0, S4) := RND W S5 S6 S7 S0 S1 S2 S3 S4 19 0x240ca1cc in
  let! (S7, S3) := RND W S4 S5 S6 S7 S0 S1 S2 S3 20 0x2de92c6f in
  let! (S6, S2) := RND W S3 S4 S5 S6 S7 S0 S1 S2 21 0x4a7484aa in
  let! (S5, S1) := RND W S2 S3 S4 S5 S6 S7 S0 S1 22 0x5cb0a9dc in
  let! (S4, S0) := RND W S1 S2 S3 S4 S5 S6 S7 S0 23 0x76f988da in
  let! (S3, S7) := RND W S0 S1 S2 S3 S4 S5 S6 S7 24 0x983e5152 in
  let! (S2, S6) := RND W S7 S0 S1 S2 S3 S4 S5 S6 25 0xa831c66d in
  let! (S1, S5) := RND W S6 S7 S0 S1 S2 S3 S4 S5 26 0xb00327c8 in
  let! (S0, S4) := RND W S5 S6 S7 S0 S1 S2 S3 S4 27 0xbf597fc7 in
  let! (S7, S3) := RND W S4 S5 S6 S7 S0 S1 S2 S3 28 0xc6e00bf3 in
  let! (S6, S2) := RND W S3 S4 S5 S6 S7 S0 S1 S2 29 0xd5a79147 in
  let! (S5, S1) := RND W S2 S3 S4 S5 S6 S7 S0 S1 30 0x06ca6351 in
  let! (S4, S0) := RND W S1 S2 S3 S4 S5 S6 S7 S0 31 0x14292967 in
  let! (S3, S7) := RND W S0 S1 S2 S3 S4 S5 S6 S7 32 0x27b70a85 in
  let! (S2, S6) := RND W S7 S0 S1 S2 S3 S4 S5 S6 33 0x2e1b2138 in
  let! (S1, S5) := RND W S6 S7 S0 S1 S2 S3 S4 S5 34 0x4d2c6dfc in
  let! (S0, S4) := RND W S5 S6 S7 S0 S1 S2 S3 S4 35 0x53380d13 in
  let! (S7, S3) := RND W S4 S5 S6 S7 S0 S1 S2 S3 36 0x650a7354 in
  let! (S6, S2) := RND W S3 S4 S5 S6 S7 S0 S1 S2 37 0x766a0abb in
  let! (S5, S1) := RND W S2 S3 S4 S5 S6 S7 S0 S1 38 0x81c2c92e in
  let! (S4, S0) := RND W S1 S2 S3 S4 S5 S6 S7 S0 39 0x92722c85 in
  let! (S3, S7) := RND W S0 S1 S2 S3 S4 S5 S6 S7 40 0xa2bfe8a1 in
  let! (S2, S6) := RND W S7 S0 S1 S2 S3 S4 S5 S6 41 0xa81a664b in
  let! (S1, S5) := RND W S6 S7 S0 S1 S2 S3 S4 S5 42 0xc24b8b70 in
  let! (S0, S4) := RND W S5 S6 S7 S0 S1 S2 S3 S4 43 0xc76c51a3 in
  let! (S7, S3) := RND W S4 S5 S6 S7 S0 S1 S2 S3 44 0xd192e819 in
  let! (S6, S2) := RND W S3 S4 S5 S6 S7 S0 S1 S2 45 0xd6990624 in
  let! (S5, S1) := RND W S2 S3 S4 S5 S6 S7 S0 S1 46 0xf40e3585 in
  let! (S4, S0) := RND W S1 S2 S3 S4 S5 S6 S7 S0 47 0x106aa070 in
  let! (S3, S7) := RND W S0 S1 S2 S3 S4 S5 S6 S7 48 0x19a4c116 in
  let! (S2, S6) := RND W S7 S0 S1 S2 S3 S4 S5 S6 49 0x1e376c08 in
  let! (S1, S5) := RND W S6 S7 S0 S1 S2 S3 S4 S5 50 0x2748774c in
  let! (S0, S4) := RND W S5 S6 S7 S0 S1 S2 S3 S4 51 0x34b0bcb5 in
  let! (S7, S3) := RND W S4 S5 S6 S7 S0 S1 S2 S3 52 0x391c0cb3 in
  let! (S6, S2) := RND W S3 S4 S5 S6 S7 S0 S1 S2 53 0x4ed8aa4a in
  let! (S5, S1) := RND W S2 S3 S4 S5 S6 S7 S0 S1 54 0x5b9cca4f in
  let! (S4, S0) := RND W S1 S2 S3 S4 S5 S6 S7 S0 55 0x682e6ff3 in
  let! (S3, S7) := RND W S0 S1 S2 S3 S4 S5 S6 S7 56 0x748f82ee in
  let! (S2, S6) := RND W S7 S0 S1 S2 S3 S4 S5 S6 57 0x78a5636f in
  let! (S1, S5) := RND W S6 S7 S0 S1 S2 S3 S4 S5 58 0x84c87814 in
  let! (S0, S4) := RND W S5 S6 S7 S0 S1 S2 S3 S4 59 0x8cc70208 in
  let! (S7, S3) := RND W S4 S5 S6 S7 S0 S1 S2 S3 60 0x90befffa in
  let! (S6, S2) := RND W S3 S4 S5 S6 S7 S0 S1 S2 61 0xa4506ceb in
  let! (S5, S1) := RND W S2 S3 S4 S5 S6 S7 S0 S1 62 0xbef9a3f7 in
  let! (S4, S0) := RND W S1 S2 S3 S4 S5 S6 S7 S0 63 0xc67178f2 in
  Ret (Sha256_state (u32 (st0 ctx + S0)) (u32 (st1 ctx + S1)) (u32 (st2 ctx + S2)) (u32 (st3 ctx + S3))
                    (u32 (st4 ctx + S4)) (u32 (st5 ctx + S5)) (u32 (st6 ctx + S6)) (u32 (st7 ctx + S7))).

(** ** The functions of sha256.h; [offset] of the context is not used *)
Definition sha256_init : sha256_state :=
  Sha256_state 0x6a09e667 0xbb67ae85 0x3c6ef372 0xa54ff53a 0x510e527f 0x9b05688c 0x1f83d9ab 0x5be0cd19.
Definition blk_SHA256_Init (mem : list Z) : BlockHash.blk_ctx sha256_state := BlockHash.Blk_ctx 0 sha256_init mem.
Definition blk_SHA256_Update (ctx : BlockHash.blk_ctx sha256_state) (data : list Z)
  : outcome (BlockHash.blk_ctx sha256_state) := BlockHash.update blk_SHA256_Transform ctx data.
Definition digest (s : sha256_state) : list Z :=
  be32 (st0 s) ++ be32 (st1 s) ++ be32 (st2 s) ++ be32 (st3 s) ++
  be32 (st4 s) ++ be32 (st5 s) ++ be32 (st6 s) ++ be32 (st7 s).
Definition blk_SHA256_Final (ctx : BlockHash.blk_ctx sha256_state) : outcome (list Z) :=
  let! s := BlockHash.final_state blk_SHA256_Transform ctx in Ret (digest s).

(** ** FIPS 180-4 *)
Module FIPS.
Import BlockHash(word, extend, parse).

(** Section 4.1.2 *)
Definition Ch (x y z : Z) : Z := Z.lxor (Z.land x y) (Z.land (Z.lnot x) z).
Definition Maj (x y z : Z) : Z := Z.lxor (Z.lxor (Z.land x y) (Z.land x z)) (Z.land y z).
(** Section 4.2.2: the first 32 bits of the fractional parts of the cube roots
    of the first 64 primes.  [cube_root] finds the integer root bit by bit. *)
Fixpoint cube_root (bits : nat) (n r : Z) : Z :=
  match bits with
  | O => r
  | S k => let r' := Z.lor r (2 ^ Z.of_nat k) in cube_root k n (if r' * r' * r' <=? n then r' else r)
  end.
Definition is_prime (n : Z) : bool := forallb (λ d, negb (n mod d =? 0)) (seqZ 2 (n - 2)).
Definition primes : list Z := ztake 64 (List.filter is_prime (seqZ 2 310)).
Definition K : list Z := Eval vm_compute in (λ p, cube_root 36 (p * 2 ^ 96) 0 mod 2 ^ 32) <$> primes.
(** Section 6.2.2 *)
Definition next (ws : list Z) : Z :=
  let t := zlen ws in
  u32 (gamma1 (word ws (t - 2)) + word ws (t - 7) + gamma0 (word ws (t - 15)) + word ws (t - 16)).
Definition schedule (block : list Z) : list Z := extend next 48 (parse block).
Definition step (w k : Z) (s : sha256_state) : sha256_state :=
  let '(Sha256_state a b c d e f g h) := s in
  let T1 := u32 (h + sigma1 e + Ch e f g + k + w) in
  let T2 := u32 (sigma0 a + Maj a b c) in
  Sha256_state (u32 (T1 + T2)) a b c (u32 (d + T1)) e f g.
Fixpoint steps (ks : list Z) (ws : list Z) (t : Z) (s : sha256_state) : sha256_state :=
  match ks with
  | [] => s
  | k :: ks => steps ks ws (t + 1) (step (word ws t) k s)
  end.
Definition compress (s : sha256_state) (block : list Z) : sha256_state :=
  let '(Sha256_state a b c d e f g h) := steps K (schedule block) 0 s in
  Sha256_state (u32 (st0 s + a)) (u32 (st1 s + b)) (u32 (st2 s + c)) (u32 (st3 s + d))
               (u32 (st4 s + e)) (u32 (st5 s + f)) (u32 (st6 s + g)) (u32 (st7 s + h)).
Definition sha256 (m : list Z) : list Z := digest (BlockHash.absorb compress sha256_init (BlockHash.padded m)).

End FIPS.

(** The digest of ["abc"], by the code and by the definition. *)
Example sha256_abc : FIPS.sha256 [97; 98; 99] =
  [0xba; 0x78; 0x16; 0xbf; 0x8f; 0x01; 0xcf; 0xea; 0x41; 0x41; 0x40; 0xde; 0x5d; 0xae; 0x22; 0x23;
   0xb0; 0x03; 0x61; 0xa3; 0x96; 0x17; 0x7a; 0x9c; 0xb4; 0x10; 0xff; 0x61; 0xf2; 0x00; 0x15; 0xad].
Proof. vm_compute. reflexivity. Qed.
Example blk_sha256_abc :
  (let! ctx := blk_SHA256_Update (blk_SHA256_Init (zrep 64 0)) [97; 98; 99] in blk_SHA256_Final ctx) =
  Ret (FIPS.sha256 [97; 98; 99]).
Proof. vm_compute. reflexivity. Qed.

(** ** The rounds, as a loop *)
Section rounds.
Import BlockHash.
Context (block : list Z).

Fixpoint rounds (ks : list Z) (W : list Z) (i a b c d e f g h : Z)
    (k : Z → Z → Z → Z → Z → Z → Z → Z → outcome sha256_state) : outcome sha256_state :=
  match ks with
  | [] => k a b c d e f g h
  | ki :: ks =>
      let! (d, h) := RND W a b c d e f g h i ki in
      rounds ks W (i + 1) h a b c d e f g k
  end.

Lemma transform_rounds s : blk_SHA256_Transform s block =
  (let! W := copy_loop 16 block 0 [] in
   let! W := fill_loop 48 16 W in
   rounds FIPS.K W 0 (st0 s) (st1 s) (st2 s) (st3 s) (st4 s) (st5 s) (st6 s) (st7 s) (λ a b c d e f g h,
     Ret (Sha256_state (u32 (st0 s + a)) (u32 (st1 s + b)) (u32 (st2 s + c)) (u32 (st3 s + d))
                       (u32 (st4 s + e)) (u32 (st5 s + f)) (u32 (st6 s + g)) (u32 (st7 s + h))))).
Proof. destruct s. reflexivity. Qed.

Lemma ch_eq x y z : ch x y z = FIPS.Ch x y z.
Proof. unfold ch, FIPS.Ch. rewrite Z.lxor_comm, Z.land_comm. apply choose_eq. Qed.
Lemma maj_eq x y z : maj x y z = FIPS.Maj x y z.
Proof.
  apply Z.bits_inj'. intros n Hn. unfold maj, FIPS.Maj.
  rewrite ?Z.lxor_spec, ?Z.lor_spec, ?Z.land_spec, ?Z.lor_spec.
  by destruct (Z.testbit x n), (Z.testbit y n), (Z.testbit z n).
Qed.

Lemma rounds256_ok k W ks : ∀ i a b c d e f g h, 0 <= i → i + zlen ks <= zlen W →
  rounds ks W i a b c d e f g h k =
  let '(Sha256_state a b c d e f g h) := FIPS.steps ks W i (Sha256_state a b c d e f g h) in k a b c d e f g h.
Proof.
  induction ks as [|ki ks IH]; intros i a b c d e f g h Hi Hl; cbn [rounds FIPS.steps FIPS.step]; [done|].
  rewrite zlen_cons in Hl. zlen_pos. unfold RND. destruct (znth_is_Some W i) as [w Hw]; [lia|].
  rewrite (rd_znth _ _ _ Hw). cbn [obind]. unfold word. rewrite Hw, ch_eq, maj_eq. cbn [default from_option id].
  apply IH; lia.
Qed.

Hypothesis Hblock : 64 <= zlen block.

Lemma copy_loop_ok n i : i + Z.of_nat n = 16 → 0 <= i →
  copy_loop n block i (ztake i (parse block)) = Ret (parse block).
Proof.
  revert i. induction n as [|n IH]; intros i Hi H0; cbn [copy_loop].
  - rewrite ztake_all by (rewrite zlen_parse; lia). done.
  - rewrite rd_parse by lia. cbn [obind]. destruct (znth_is_Some (parse block) i) as [w Hw]; [rewrite zlen_parse; lia|].
    unfold word. rewrite Hw. cbn [default from_option id]. rewrite <- (ztake_succ _ i w) by done. apply IH; lia.
Qed.

Lemma schedule_fill_ok n : ∀ W, 16 <= zlen W → fill_loop n (zlen W) W = Ret (extend FIPS.next n W).
Proof.
  induction n as [|n IH]; intros W HW; cbn [fill_loop extend]; [done|].
  assert (∀ j, 0 <= j < zlen W → rd W j = Ret (word W j)) as R.
  { intros j Hj. destruct (znth_is_Some W j Hj) as [w Hw]. unfold word. rewrite Hw. by apply rd_znth. }
  rewrite !R by lia. cbn [obind]. fold (FIPS.next W).
  replace (zlen W + 1) with (zlen (W ++ [FIPS.next W])) by zlia. apply IH. zlia.
Qed.

Lemma transform_ok s : blk_SHA256_Transform s block = Ret (FIPS.compress s block).
Proof.
  rewrite transform_rounds. pose proof (copy_loop_ok 16 0 eq_refl ltac:(lia)) as E. rewrite ztake_0 in E. rewrite E.
  cbn [obind]. pose proof (schedule_fill_ok 48 (parse block)) as F. rewrite zlen_parse in F. rewrite F by lia.
  cbn [obind]. rewrite rounds256_ok; [|lia|rewrite zlen_extend, zlen_parse; done].
  unfold FIPS.compress, FIPS.schedule. destruct s. by destruct (FIPS.steps FIPS.K _ _ _).
Qed.
End rounds.

Lemma compress256_take st m : 64 <= zlen m → FIPS.compress st (ztake 64 m) = FIPS.compress st m.
Proof. intros Hm. unfold FIPS.compress, FIPS.schedule. by rewrite BlockHash.parse_take. Qed.

Definition any_state (s : sha256_state) : Prop := True.
Lemma blk_SHA256_Transform_ok st m : any_state st → bytes_ok m → 64 <= zlen m →
  blk_SHA256_Transform st m = Ret (FIPS.compress st (ztake 64 m)) ∧ any_state (FIPS.compress st (ztake 64 m)).
Proof. intros _ _ Hm. rewrite compress256_take by done. split; [by apply transform_ok|done]. Qed.

(** ** The interface *)
#[global] Instance sha256_algo : HashAlgo := {|
  rawsz := 32;
  hash_ctx := list Z;
  init_fn := [];
  update_fn := app;
  final_fn := FIPS.sha256;
|}.

Lemma digest_len s : zlen (digest s) = 32.
Proof. unfold digest. zlia. Qed.
Lemma digest_bytes s : bytes_ok (digest s).
Proof. unfold digest. repeat (apply Forall_app; split); apply be_bytes_ok. Qed.

#[global] Instance sha256_laws : HashLaws sha256_algo.
Proof.
  split.
  - apply app_nil_r.
  - intros c a b. symmetry. apply app_assoc.
  - intros c. apply digest_len.
  - intros c. apply digest_bytes.
  - cbn. lia.
Qed.

(** ** Property *)

(** C35. The block-wise SHA-256 of the program computes the SHA-256 of FIPS 180-4
    of all the data, in whatever pieces it is given and whatever the buffer held
    before; it implements the hash interface that the checksummed files are
    verified against. *)
Theorem blk_sha256_refines mem chunks :
  zlen mem = 64 → bytes_ok mem → Forall bytes_ok chunks →
  returns (let! ctx := BlockHash.update_all blk_SHA256_Transform (blk_SHA256_Init mem) chunks in blk_SHA256_Final ctx)
    (λ hash, hash = FIPS.sha256 (concat chunks) ∧
             hash = final_fn (foldl update_fn init_fn chunks)).
Proof.
  intros Hm Hmb Hc. apply wp_bind. eapply wp_mono; [|by apply (BlockHash.update_all_ok blk_SHA256_Transform FIPS.compress
    any_state blk_SHA256_Transform_ok sha256_init chunks Hc _ []), BlockHash.init_repr].
  intros ctx Hctx. unfold blk_SHA256_Final. apply wp_bind.
  eapply wp_mono; [|by apply (BlockHash.final_state_ok blk_SHA256_Transform FIPS.compress any_state
    blk_SHA256_Transform_ok sha256_init _ _ Hctx)].
  intros st [-> _]. cbn [wp app]. split; [done|].
  transitivity (FIPS.sha256 (foldl app [] chunks)); [by rewrite BlockHash.foldl_app_concat|reflexivity].
Qed.

Lemma blk_sha256_refines_witness :
  returns (let! ctx := BlockHash.update_all blk_SHA256_Transform (blk_SHA256_Init (zrep 64 7)) [[97]; [98; 99]] in
           blk_SHA256_Final ctx)
    (λ hash, hash = FIPS.sha256 (concat [[97]; [98; 99]]) ∧
             hash = final_fn (foldl update_fn init_fn [[97]; [98; 99]])).
Proof.
  apply blk_sha256_refines; [done|apply bytes_ok_dec; reflexivity|].
  repeat (constructor; [apply bytes_ok_dec; reflexivity|]). constructor.
Defined.

End Sha256.
