(* ===== verification/PackIndex.v ===== *)
(** * The index of a pack (pack-write.c, packfile.c)

    [write_idx_file] writes, through a hashfile, the fan-out table, the sorted
    object names, their checksums and their offsets in the pack; [load_idx]
    checks such a file, and [find_pack_entry_one] looks a name up in it with the
    binary search of hash-lookup.c. *)
From stdpp Require Import prelude.
From S2P Require Import Prelude Order Endian Hashfile HashLookup PackHeader.
Import Endian Hashfile HashLookup.

Module PackIndex.

(** pack.h *)
Record pack_idx_entry := Pack_idx_entry {
  oid : list Z;
  idx_crc32 : Z;
  idx_offset : Z;
}.
Record pack_idx_option := Pack_idx_option {
  flags : Z;
  version : Z;
  off32_limit : Z;
  anomaly : list Z;
}.
Definition WRITE_IDX_VERIFY : Z := 1.
Definition WRITE_IDX_STRICT : Z := 2.
Definition PACK_IDX_SIGNATURE : Z := 0xff744f63.

Section write.
Context {algop : HashAlgo} (crc32_fn : Z → list Z → Z) `{!Qsort}.

Definition sha1_compare (a b : pack_idx_entry) : Z := oidcmp (oid a) (oid b).
Definition cmp_uint32 (a b : Z) : Z := if a <? b then -1 else if a =? b then 0 else 1.

(** libc's [bsearch] in a table of [uint32_t], between [lo] and [hi]. *)
Fixpoint bsearch_uint32 (fuel : nat) (key : Z) (base : list Z) (lo hi : Z) : bool :=
  match fuel with
  | O => false
  | S fuel =>
      if lo <? hi then
        let mid := (lo + hi) / 2 in
        match znth base mid with
        | Some x =>
            let c := cmp_uint32 key x in
            if c <? 0 then bsearch_uint32 fuel key base lo mid
            else if 0 <? c then bsearch_uint32 fuel key base (mid + 1) hi
            else true
        | None => false
        end
      else false
  end.
Definition need_large_offset (offset : Z) (opts : pack_idx_option) : bool :=
  if negb (Z.shiftr offset 31 =? 0) || (off32_limit opts <? offset) then true
  else if zlen (anomaly opts) =? 0 then false
  else bsearch_uint32 (S (length (anomaly opts))) (u32 offset) (anomaly opts) 0 (zlen (anomaly opts)).

Definition last_obj_offset (objects : list pack_idx_entry) : Z :=
  foldl (λ last obj, if last <? idx_offset obj then idx_offset obj else last) 0 objects.

(** The inner loop: the entries from [list] on that start with the byte [i], and
    the index of the first one after them. *)
Fixpoint fanout_next (i : Z) (list_ : list pack_idx_entry) (next : Z) : outcome (list pack_idx_entry * Z) :=
  match list_ with
  | [] => Ret ([], next)
  | obj :: rest =>
      let! h := rd (oid obj) 0 in
      if negb (h =? i) then Ret (list_, next) else fanout_next i rest (next + 1)
  end.
Fixpoint write_fanout (n : nat) (f : hashfile algop) (i : Z) (list_ : list pack_idx_entry) (next : Z)
  : outcome (hashfile algop) :=
  match n with
  | O => Ret f
  | S n =>
      let! (list_, next) := fanout_next i list_ next in
      let! f := hashwrite_be32 crc32_fn f next in
      write_fanout n f (i + 1) list_ next
  end.

(** [prev] is [list[-2]], absent in the first round. *)
Fixpoint write_names (f : hashfile algop) (index_version : Z) (strict : bool) (prev : option pack_idx_entry)
    (list_ : list pack_idx_entry) : outcome (hashfile algop) :=
  match list_ with
  | [] => Ret f
  | obj :: rest =>
      let! f := if index_version <? 2 then hashwrite_be32 crc32_fn f (idx_offset obj) else Ret f in
      let! name := rd_range (oid obj) 0 rawsz in
      let! f := hashwrite crc32_fn f name in
      if strict && match prev with Some p => bool_decide (oid p = oid obj) | None => false end then Die
      else write_names f index_version strict (Some obj) rest
  end.

Fixpoint write_crcs (f : hashfile algop) (list_ : list pack_idx_entry) : outcome (hashfile algop) :=
  match list_ with
  | [] => Ret f
  | obj :: rest =>
      let! f := hashwrite_be32 crc32_fn f (idx_crc32 obj) in
      write_crcs f rest
  end.

Fixpoint write_offsets (f : hashfile algop) (opts : pack_idx_option) (nr_large_offset : Z)
    (list_ : list pack_idx_entry) : outcome (hashfile algop * Z) :=
  match list_ with
  | [] => Ret (f, nr_large_offset)
  | obj :: rest =>
      let large := need_large_offset (idx_offset obj) opts in
      let offset := if large then Z.lor 0x80000000 nr_large_offset else idx_offset obj in
      let! f := hashwrite_be32 crc32_fn f offset in
      write_offsets f opts (if large then u32 (nr_large_offset + 1) else nr_large_offset) rest
  end.

Fixpoint write_large_offsets (f : hashfile algop) (opts : pack_idx_option) (nr_large_offset : Z)
    (list_ : list pack_idx_entry) : outcome (hashfile algop) :=
  if nr_large_offset =? 0 then Ret f
  else
    match list_ with
    | [] => UB
    | obj :: rest =>
        if negb (need_large_offset (idx_offset obj) opts) then write_large_offsets f opts nr_large_offset rest
        else
          let! f := hashwrite_be64 crc32_fn f (idx_offset obj) in
          write_large_offsets f opts (nr_large_offset - 1) rest
    end.

(** The objects as they are left (sorted) and the file written, or in check mode
    the one compared with [index_file]; [mem] is the memory of the hashfile. *)
Definition write_idx_file (mem index_file : list Z) (objects : list pack_idx_entry)
    (opts : pack_idx_option) (sha1 : list Z) : outcome (list pack_idx_entry * list Z) :=
  let last := last_obj_offset objects in
  let sorted_by_sha := if 1 <? zlen objects then qsort sha1_compare objects else objects in
  let f := if negb (Z.land (flags opts) WRITE_IDX_VERIFY =? 0) then hashfd_check mem index_file else hashfd mem in
  let index_version := if need_large_offset last opts then 2 else version opts in
  let! f :=
    if 2 <=? index_version then hashwrite crc32_fn f (be32 PACK_IDX_SIGNATURE ++ be32 index_version) else Ret f in
  let! f := write_fanout 256 f 0 sorted_by_sha 0 in
  let! f := write_names f index_version (negb (Z.land (flags opts) WRITE_IDX_STRICT =? 0)) None sorted_by_sha in
  let! f :=
    if 2 <=? index_version then
      let! f := write_crcs f sorted_by_sha in
      let! (f, nr_large_offset) := write_offsets f opts 0 sorted_by_sha in
      write_large_offsets f opts nr_large_offset sorted_by_sha
    else Ret f in
  let! h := rd_range sha1 0 rawsz in
  let! f := hashwrite crc32_fn f h in
  let! (out, _) := finalize_hashfile f CSUM_HASH_IN_STREAM in
  Ret (sorted_by_sha, out).
End write.

(** packfile.h, the part of [struct packed_git] that the index uses. *)
Record packed_git := Packed_git {
  index_data : option (list Z);
  index_size : Z;
  num_objects : Z;
  crc_offset : Z;
  index_version : Z;
  pack_size : Z;
}.

(** [ntohl] of the 32-bit word at a byte position, and [get_be64]. *)
Definition rd_be32 (mem : list Z) (at_ : Z) : outcome Z := let! b := rd_range mem at_ 4 in Ret (of_be b).
Definition rd_be64 (mem : list Z) (at_ : Z) : outcome Z := let! b := rd_range mem at_ 8 in Ret (of_be b).

(** [None] is the error for a table that is not monotonic. *)
Fixpoint check_fanout (n : nat) (idx_map : list Z) (index i nr : Z) : outcome (option Z) :=
  match n with
  | O => Ret (Some nr)
  | S n =>
      let! v := rd_be32 idx_map (index + 4 * i) in
      if v <? nr then Ret None else check_fanout n idx_map index (i + 1) v
  end.

(** [None] stands for the [return error(...)]s. *)
Definition load_idx (hashsz : Z) (idx_map : list Z) (p : packed_git) : outcome (option packed_git) :=
  let idx_size := zlen idx_map in
  if idx_size <? 4 * 256 + hashsz + hashsz then Ret None
  else
    let! signature := rd_be32 idx_map 0 in
    let! version :=
      if signature =? PACK_IDX_SIGNATURE then
        (let! version := rd_be32 idx_map 4 in
         if (version <? 2) || (2 <? version) then Ret None else Ret (Some version))
      else Ret (Some 1) in
    match version with
    | None => Ret None
    | Some version =>
        let! nr := check_fanout 256 idx_map (if 1 <? version then 8 else 0) 0 0 in
        match nr with
        | None => Ret None
        | Some nr =>
            let done := λ crc, Ret (Some (Packed_git (Some idx_map) idx_size nr crc version (pack_size p))) in
            if version =? 1 then
              let! m := st_mult nr (hashsz + 4) in
              let! size := st_add (4 * 256 + hashsz + hashsz) m in
              if negb (idx_size =? size) then Ret None else done (crc_offset p)
            else
              let! m := st_mult nr (hashsz + 4 + 4) in
              let! min_size := st_add (8 + 4 * 256 + hashsz + hashsz) m in
              let! max_size := if negb (nr =? 0) then (let! m := st_mult (nr - 1) 8 in st_add min_size m) else Ret min_size in
              if (idx_size <? min_size) || (max_size <? idx_size) then Ret None
              else
                let! m := st_mult nr hashsz in
                let! crc := st_add (8 + 4 * 256) m in
                done crc
        end
    end.

Section lookup.
Context {algop : HashAlgo}.
(** [open_pack_index] reads the index from disk. *)
Context (open_pack_index : packed_git → outcome (option packed_git)).

Definition get_pack_fanout (p : packed_git) (value : Z) : outcome Z :=
  let! p := match index_data p with Some _ => Ret (Some p) | None => open_pack_index p end in
  match p with
  | None => Ret 0
  | Some p =>
      match index_data p with
      | None => UB
      | Some index => rd_be32 index ((if 1 <? index_version p then 8 else 0) + 4 * value)
      end
  end.

Definition bsearch_pack (oid : list Z) (p : packed_git) : outcome (Z * Z) :=
  match index_data p with
  | None => Die
  | Some index =>
      let '(index_fanout, index_lookup, index_lookup_width) :=
        if index_version p =? 1 then (0, 4 * 256 + 4, rawsz + 4) else (8, 4 * 256 + 8, rawsz) in
      let! hash := rd_range oid 0 rawsz in
      bsearch_hash hash (λ i, rd_be32 index (index_fanout + 4 * i))
        (λ mi, rd_range index (index_lookup + mi * index_lookup_width) rawsz)
  end.

(** [None] is the result -1. *)
Definition nth_packed_object_id (p : packed_git) (n : Z) : outcome (option (list Z)) :=
  let! p := match index_data p with Some _ => Ret (Some p) | None => open_pack_index p end in
  match p with
  | None => Ret None
  | Some p =>
      match index_data p with
      | None => UB
      | Some index =>
          if num_objects p <=? n then Ret None
          else
            let! ofs :=
              if index_version p =? 1
              then (let! m := st_mult (rawsz + 4) n in let! m := st_add m 4 in Ret (4 * 256 + m))
              else (let! m := st_mult rawsz n in Ret (4 * 256 + 8 + m)) in
            let! h := rd_range index ofs rawsz in
            Ret (Some (h ++ zrep (GIT_MAX_RAWSZ - rawsz) 0))
      end
  end.

(** [ptr] is an offset into the index; [false] stops the program. *)
Definition check_pack_index_ptr (p : packed_git) (ptr : Z) : bool :=
  negb (ptr <? 0) && negb (index_size p - 8 <=? ptr).

Definition nth_packed_object_offset (p : packed_git) (n : Z) : outcome Z :=
  match index_data p with
  | None => UB
  | Some index =>
      if index_version p =? 1 then
        let! m := st_mult (rawsz + 4) n in
        rd_be32 index (4 * 256 + m)
      else
        let! m := st_mult (num_objects p) (rawsz + 4) in
        let! m := st_add 8 m in
        let base := 4 * 256 + m in
        let! m := st_mult 4 n in
        let! off := rd_be32 index (base + m) in
        if Z.land off 0x80000000 =? 0 then Ret off
        else
          let! a := st_mult (num_objects p) 4 in
          let! b := st_mult (Z.land off 0x7fffffff) 8 in
          let! m := st_add a b in
          let ptr := base + m in
          if negb (check_pack_index_ptr p ptr) then Die
          else
            let! off := rd_be64 index ptr in
            Ret (PackHeader.i64 off)
  end.

Definition find_pack_entry_one (oid : list Z) (p : packed_git) : outcome Z :=
  let! p := match index_data p with Some _ => Ret (Some p) | None => open_pack_index p end in
  match p with
  | None => Ret 0
  | Some p =>
      let! (found, result) := bsearch_pack oid p in
      if negb (found =? 0) then nth_packed_object_offset p result else Ret 0
  end.
End lookup.

(** ** The layout of the file *)
Section layout.
Context {algop : HashAlgo} `{!HashLaws algop}.
Implicit Types (o : pack_idx_entry) (l : list pack_idx_entry).

(** The name in an entry is padded with zeroes to the largest size. *)
Definition name o : list Z := ztake rawsz (oid o).
Definition entry_ok o : Prop :=
  (∃ h, zlen h = rawsz ∧ bytes_ok h ∧ oid o = h ++ zrep (GIT_MAX_RAWSZ - rawsz) 0) ∧
  0 <= idx_crc32 o < 2 ^ 32 ∧ 0 < idx_offset o < 2 ^ 63.

Definition first o : Z := default 0 (head (oid o)).
Definition fan l : list Z := (λ c, zlen (filter (λ o, first o <= c) l)) <$> seqZ 0 256.
(** In a table in ascending order it finds exactly the elements. *)
Lemma bsearch_uint32_exact key base fuel : (∀ i j x y, i <= j → znth base i = Some x → znth base j = Some y → x <= y) → ∀ lo hi, 0 <= lo → hi <= zlen base → hi - lo < Z.of_nat fuel →
  bsearch_uint32 fuel key base lo hi = true ↔ ∃ i, lo <= i < hi ∧ znth base i = Some key.
Proof.
  intros Hs. induction fuel as [|fuel IH]; intros lo hi Hlo Hhi Hf; cbn [bsearch_uint32]; [split; [done|]; intros (i & Hi & _); lia|].
  destruct (Z.ltb_spec lo hi) as [Hlt|]; [|split; [done|]; intros (i & Hi & _); lia]. set (mid := (lo + hi) / 2). assert (lo <= mid < hi) as Hm by (unfold mid; split; [apply Z.div_le_lower_bound|apply Z.div_lt_upper_bound]; lia).
  destruct (znth_is_Some base mid) as [x Ex]; [lia|]. rewrite Ex. unfold cmp_uint32. cbn zeta. destruct (Z.ltb_spec key x) as [Hkx|Hkx].
  - cbn. rewrite IH by lia. split; intros (i & Hi & E); exists i; (split; [|done]); [lia|]. destruct (Z.leb_spec mid i) as [Hmi|]; [|lia]. pose proof (Hs mid i x key Hmi Ex E). lia.
  - destruct (Z.eqb_spec key x) as [->|Hne]; cbn; [split; [intros _; by exists mid|done]|]. rewrite IH by lia. split; intros (i & Hi & E); exists i; (split; [|done]); [lia|].
    destruct (Z.leb_spec i mid) as [Him|]; [|lia]. pose proof (Hs i mid key x Him E Ex). lia.
Qed.
Definition large opts o : Prop := need_large_offset (idx_offset o) opts = true.
#[global] Instance large_dec opts o : Decision (large opts o).
Proof. unfold large. apply _. Defined.

(** The words of the 32-bit table: an offset, or the number of a large one. *)
Fixpoint off32 opts (nr : Z) l : list Z :=
  match l with
  | [] => []
  | o :: l => if decide (large opts o) then (2 ^ 31 + nr) :: off32 opts (nr + 1) l
              else idx_offset o :: off32 opts nr l
  end.
Definition off64 opts l : list Z := idx_offset <$> filter (large opts) l.

Definition row_v1 o : list Z := be32 (idx_offset o) ++ name o.
Definition words (ws : list Z) : list Z := concat (be32 <$> ws).
Definition idx_version opts l : Z := if need_large_offset (last_obj_offset l) opts then 2 else version opts.
Definition body opts l (sha1 : list Z) : list Z :=
  if 2 <=? idx_version opts l then
    (be32 PACK_IDX_SIGNATURE ++ be32 2) ++ words (fan l) ++ concat (name <$> l) ++ words (idx_crc32 <$> l) ++
    words (off32 opts 0 l) ++ concat (be64 <$> off64 opts l) ++ ztake rawsz sha1
  else
    words (fan l) ++ concat (row_v1 <$> l) ++ ztake rawsz sha1.

Lemma entry_name o : entry_ok o → zlen (name o) = rawsz ∧ bytes_ok (name o) ∧ rd_range (oid o) 0 rawsz = Ret (name o).
Proof.
  intros [(h & Hl & Hb & Ho) _]. pose proof rawsz_range. unfold name. rewrite Ho, ztake_app_len' by done.
  split_and!; try done. by eapply (rd_range_at _ [] h).
Qed.
Lemma entry_first o : entry_ok o → rd (oid o) 0 = Ret (first o) ∧ byte_ok (first o) ∧ ∃ t, name o = first o :: t.
Proof.
  intros Ho. destruct (entry_name o Ho) as (Hl & Hb & _). destruct Ho as [(h & Hh & Hhb & Eo) _].
  pose proof rawsz_range. destruct h as [|x h]; [zlia|]. unfold name, first in *. rewrite Eo in *.
  split_and!; [done|by apply Forall_cons in Hhb as [? _]|].
  rewrite ztake_app_len' by done. by exists h.
Qed.

(** *** Tables of fixed-width rows *)
Lemma zlen_rows {A} (row : A → list Z) w (l : list A) :
  (∀ y, y ∈ l → zlen (row y) = w) → zlen (concat (row <$> l)) = zlen l * w.
Proof.
  intros Hw. induction l as [|y l IH]; [done|]. cbn [fmap list_fmap concat]. rewrite zlen_app, zlen_cons, IH.
  - rewrite (Hw y) by set_solver. lia.
  - intros z Hz. apply Hw. set_solver.
Qed.
Lemma rd_row {A} (row : A → list Z) w (l : list A) mem pre post i x :
  (∀ y, y ∈ l → zlen (row y) = w) → mem = pre ++ concat (row <$> l) ++ post → znth l i = Some x →
  rd_range mem (zlen pre + i * w) w = Ret (row x).
Proof.
  intros Hw -> Hi. pose proof (znth_Some_lt _ _ _ Hi). revert Hi. unfold znth. rewrite (proj2 (Z.leb_le 0 i)) by lia.
  intros Hi. apply list_elem_of_split_length in Hi as (l1 & l2 & -> & Hn).
  assert (zlen (concat (row <$> l1)) = zlen l1 * w) as Hl1 by (apply zlen_rows; intros y Hy; apply Hw; set_solver).
  rewrite fmap_app, fmap_cons, concat_app. cbn [concat].
  apply (rd_range_at _ (pre ++ concat (row <$> l1)) _ (concat (row <$> l2) ++ post)).
  - by rewrite <- !app_assoc.
  - rewrite zlen_app, Hl1. assert (zlen l1 = i) as -> by (unfold zlen; lia). lia.
  - symmetry. apply Hw. set_solver.
Qed.
Lemma zlen_words ws : zlen (words ws) = zlen ws * 4.
Proof. apply zlen_rows. intros. apply zlen_be32. Qed.
Lemma rd_word mem pre ws post i x :
  mem = pre ++ words ws ++ post → znth ws i = Some x → 0 <= x < 2 ^ 32 → rd_be32 mem (zlen pre + 4 * i) = Ret x.
Proof.
  intros Hm Hi Hx. unfold rd_be32. rewrite (Z.mul_comm 4).
  rewrite (rd_row be32 4 ws mem pre post i x) by (done || intros; apply zlen_be32). cbn [obind]. by rewrite of_be32.
Qed.
End layout.

(** ** The order of the entries *)
Section order.
Context {algop : HashAlgo} `{!HashLaws algop}.
Implicit Types (o : pack_idx_entry) (l : list pack_idx_entry).

#[export] Instance sha1_compare_order : CmpOrder sha1_compare.
Proof.
  unfold sha1_compare, oidcmp. split.
  - intros a b. apply cmp_flip.
  - intros a b c. apply cmp_le_trans.
Qed.

Lemma sorted_strict l :
  StronglySorted (λ a b, sha1_compare a b <= 0) l → NoDup (oid <$> l) →
  StronglySorted (λ a b, sha1_compare a b < 0) l.
Proof.
  induction 1 as [|o l Hs IH Ho]; intros Hnd; [constructor|]. rewrite fmap_cons in Hnd.
  apply NoDup_cons in Hnd as [Hni Hnd]. constructor; [auto|].
  apply Forall_forall. intros x Hx. pose proof (proj1 (Forall_forall _ _) Ho x Hx). cbn in *.
  destruct (decide (sha1_compare o x = 0)) as [E|]; [|lia]. exfalso. apply Hni.
  apply (memcmp_eq (oid o)) in E. rewrite E. by apply list_elem_of_fmap_2.
Qed.

Lemma memcmp_app_same_len a b z : zlen a = zlen b → memcmp (a ++ z) (b ++ z) = memcmp a b.
Proof.
  revert b. induction a as [|x a IH]; intros [|y b] Hl; try zlia.
  - cbn [app]. apply cmp_refl. apply _.
  - cbn [app memcmp]. rewrite IH by zlia. done.
Qed.
Lemma sha1_compare_name a b : entry_ok a → entry_ok b → sha1_compare a b = memcmp (name a) (name b).
Proof.
  intros Ha Hb. destruct Ha as [(h & Hl & _ & Ea) _], Hb as [(k & Kl & _ & Eb) _].
  unfold sha1_compare, oidcmp, name. rewrite Ea, Eb, !ztake_app_len' by done. apply memcmp_app_same_len. lia.
Qed.
Lemma compare_first a b : entry_ok a → entry_ok b → sha1_compare a b <= 0 → first a <= first b.
Proof.
  intros Ha Hb. rewrite sha1_compare_name by done.
  destruct (entry_first a Ha) as (_ & _ & s & ->), (entry_first b Hb) as (_ & _ & t & ->). cbn [memcmp].
  destruct (Z.ltb_spec (first a) (first b)), (Z.ltb_spec (first b) (first a)); lia.
Qed.
Lemma StronglySorted_impl_in {A} (R R' : relation A) (l : list A) :
  (∀ a b, a ∈ l → b ∈ l → R a b → R' a b) → StronglySorted R l → StronglySorted R' l.
Proof.
  intros Hi. induction 1 as [|o l Hs IH Ho]; [constructor|]. constructor.
  - apply IH. intros a b Ha Hb. apply Hi; by constructor.
  - apply Forall_forall. intros x Hx. apply Hi; [constructor|by constructor|].
    by apply (proj1 (Forall_forall _ _) Ho).
Qed.
Lemma names_ascending l :
  Forall entry_ok l → StronglySorted (λ a b, sha1_compare a b < 0) l → ascending memcmp (name <$> l).
Proof.
  intros Hok Hs. unfold ascending. induction Hs as [|o l Hs IH Ho]; [constructor|].
  apply Forall_cons in Hok as [Hoo Hok]. cbn. constructor; [auto|]. apply Forall_fmap, Forall_forall.
  intros x Hx. cbn. rewrite <- sha1_compare_name by (done || by apply (proj1 (Forall_forall _ _) Hok)).
  by apply (proj1 (Forall_forall _ _) Ho).
Qed.

(** [last_obj_offset] is the largest offset, in whatever order the objects are. *)
Lemma last_obj_offset_spec l :
  0 <= last_obj_offset l ∧ (∀ o, o ∈ l → idx_offset o <= last_obj_offset l) ∧
  (last_obj_offset l = 0 ∨ ∃ o, o ∈ l ∧ idx_offset o = last_obj_offset l).
Proof.
  induction l as [|o l IH] using rev_ind; [cbn; set_solver by lia|].
  unfold last_obj_offset. rewrite foldl_app. cbn. fold (last_obj_offset l). destruct IH as (H1 & H2 & H3).
  destruct (Z.ltb_spec (last_obj_offset l) (idx_offset o)).
  - split_and!; [lia| |right; exists o; set_solver]. intros x [Hx | Hx%list_elem_of_singleton]%elem_of_app; [|by subst].
    pose proof (H2 x Hx). lia.
  - split_and!; [done| |]. { intros x [Hx | Hx%list_elem_of_singleton]%elem_of_app; [auto|by subst]. }
    destruct H3 as [|(x & Hx & Ex)]; [by left|right; exists x; set_solver].
Qed.
Lemma last_obj_offset_perm l l' : l ≡ₚ l' → last_obj_offset l = last_obj_offset l'.
Proof.
  intros HP. destruct (last_obj_offset_spec l) as (A1 & A2 & A3), (last_obj_offset_spec l') as (B1 & B2 & B3).
  apply Z.le_antisymm.
  - destruct A3 as [|(o & Ho & Eo)]; [lia|]. rewrite <- Eo. apply B2. by rewrite <- HP.
  - destruct B3 as [|(o & Ho & Eo)]; [lia|]. rewrite <- Eo. apply A2. by rewrite HP.
Qed.
End order.

(** ** The writer *)
Section writer.
Context {algop : HashAlgo} `{!HashLaws algop} (crc32_fn : Z → list Z → Z) `{!CrcLaws crc32_fn}.
Implicit Types (o : pack_idx_entry) (l : list pack_idx_entry) (f : hashfile algop).

Lemma write_opened D f buf : zlen buf < 2 ^ 32 → opened D f → returns (hashwrite crc32_fn f buf) (opened (D ++ buf)).
Proof. apply hashwrite_opened; [apply crc_app|apply crc_nil]. Qed.

Lemma fanout_next_ok i l next :
  Forall entry_ok l → Forall (λ o, i <= first o) l → StronglySorted (λ a b, first a <= first b) l →
  fanout_next i l next = Ret (filter (λ o, i < first o) l, next + zlen (filter (λ o, first o <= i) l)).
Proof.
  intros Hok. revert next. induction Hok as [|o l Ho Hok IH]; intros next Hge Hs.
  { cbn [fanout_next]. by rewrite !filter_nil, zlen_nil, Z.add_0_r. }
  apply Forall_cons in Hge as [Hge0 Hge]. apply StronglySorted_inv in Hs as [Hs Hmin].
  destruct (entry_first o Ho) as (E & _ & _). cbn [fanout_next]. rewrite E. cbn [obind]. rewrite !filter_cons.
  destruct (Z.eqb_spec (first o) i) as [->|Hne]; cbn [negb].
  - rewrite IH by done. rewrite decide_False, decide_True by lia. rewrite zlen_cons. do 2 f_equal. lia.
  - rewrite decide_True, decide_False by lia.
    rewrite (filter_all_in _ l), (filter_none_in _ l).
    + rewrite Z.add_0_r. done.
    + intros x Hx. pose proof (proj1 (Forall_forall _ _) Hmin x Hx). cbn in *. lia.
    + intros x Hx. pose proof (proj1 (Forall_forall _ _) Hmin x Hx). cbn in *. lia.
Qed.

(** The number of entries up to [c], over the entries left after those up to [i]. *)
Lemma count_split i c l :
  i <= c → zlen (filter (λ o, first o <= c) l) =
  zlen (filter (λ o, first o <= i) l) + zlen (filter (λ o, first o <= c) (filter (λ o, i < first o) l)).
Proof.
  intros Hc. induction l as [|o l IH]; [done|]. rewrite !filter_cons.
  destruct (decide (first o <= i)); [rewrite decide_True, decide_False by lia; zlen_simpl; lia|].
  rewrite (decide_True (P := i < first o)) by lia. rewrite filter_cons.
  destruct (decide (first o <= c)); zlen_simpl; lia.
Qed.

Lemma write_fanout_wp n D f i l next :
  opened D f → Forall entry_ok l → Forall (λ o, i <= first o) l → StronglySorted (λ a b, first a <= first b) l →
  returns (write_fanout crc32_fn n f i l next)
    (opened (D ++ words ((λ c, next + zlen (filter (λ o, first o <= c) l)) <$> seqZ i (Z.of_nat n)))).
Proof.
  revert D f i l next. induction n as [|n IH]; intros D f i l next Hf Hok Hge Hs.
  { cbn. by rewrite app_nil_r. }
  cbn [write_fanout]. rewrite fanout_next_ok by done. cbn [obind].
  apply wp_bind. eapply wp_mono; [|by apply write_opened]. intros f' Hf'. cbv beta.
  eapply wp_mono; [|apply IH; [exact Hf'|..|by apply StronglySorted_filter_sub]].
  2:{ apply Forall_forall. intros x [_ Hx]%list_elem_of_filter. by apply (proj1 (Forall_forall _ _) Hok). }
  2:{ apply Forall_forall. intros x [Hx _]%list_elem_of_filter. lia. }
  intros f2. rewrite <- app_assoc. rewrite Nat2Z.inj_succ, (seqZ_cons i (Z.succ (Z.of_nat n))) by lia.
  unfold words. cbn [fmap list_fmap concat]. rewrite Z.pred_succ. replace (Z.succ i) with (i + 1) by lia.
  erewrite (fmap_ext_in _ (λ c, next + zlen (filter (λ o, first o <= c) l))); [done|].
  intros c Hc%elem_of_seqZ. cbv beta. rewrite (count_split i c l) by lia. lia.
Qed.

Lemma write_names_wp D f v strict prev l :
  opened D f → Forall entry_ok l → (strict = true → StronglySorted (λ a b, oid a ≠ oid b) (option_list prev ++ l)) →
  returns (write_names crc32_fn f v strict prev l)
    (opened (D ++ concat ((λ o, (if v <? 2 then be32 (idx_offset o) else []) ++ name o) <$> l))).
Proof.
  intros Hf Hok. revert D f prev Hf. induction Hok as [|o l Ho Hok IH]; intros D f prev Hf Hne.
  { cbn. by rewrite app_nil_r. }
  cbn [write_names fmap list_fmap concat].
  apply wp_bind. eapply (wp_mono _ _ (opened (D ++ if v <? 2 then be32 (idx_offset o) else []))).
  2:{ destruct (v <? 2); [by apply write_opened|]. cbn. by rewrite app_nil_r. }
  intros f1 Hf1. destruct (entry_name o Ho) as (Hlen & _ & ->). cbn [obind]. pose proof rawsz_range.
  apply wp_bind. eapply wp_mono; [|apply write_opened; [lia|done]]. intros f2 Hf2. cbv beta.
  assert (strict && match prev with Some p => bool_decide (oid p = oid o) | None => false end = false) as ->.
  { destruct strict; [|done]. cbn [andb]. destruct prev as [p|]; [|done]. specialize (Hne eq_refl).
    apply bool_decide_false. cbn in Hne. apply StronglySorted_inv in Hne as [_ [? _]%Forall_cons]. done. }
  rewrite !app_assoc. eapply wp_mono; [|apply IH; [exact Hf2|]].
  - done.
  - intros E. specialize (Hne E). destruct prev; cbn in Hne |- *; [by apply StronglySorted_inv in Hne as [? _]|done].
Qed.

Lemma write_crcs_wp D f l : opened D f → returns (write_crcs crc32_fn f l) (opened (D ++ words (idx_crc32 <$> l))).
Proof.
  revert D f. induction l as [|o l IH]; intros D f Hf; [cbn; by rewrite app_nil_r|].
  cbn [write_crcs]. apply wp_bind. eapply wp_mono; [|by apply write_opened]. intros f1 Hf1. cbv beta.
  eapply wp_mono; [|by apply IH]. intros f2. by rewrite <- app_assoc.
Qed.

Lemma zlen_filter_le {A} (P : A → Prop) `{∀ x, Decision (P x)} (l : list A) : zlen (filter P l) <= zlen l.
Proof. unfold zlen. pose proof (length_filter P l). lia. Qed.

Lemma write_offsets_wp opts D f nr l :
  opened D f → 0 <= nr → nr + zlen l < 2 ^ 31 →
  returns (write_offsets crc32_fn f opts nr l) (λ '(f', nr'),
    opened (D ++ words (off32 opts nr l)) f' ∧ nr' = nr + zlen (filter (large opts) l)).
Proof.
  revert D f nr. induction l as [|o l IH]; intros D f nr Hf Hnr Hl.
  { cbn. rewrite app_nil_r. split; [done|]. rewrite Z.add_0_r. done. }
  cbn [write_offsets off32]. rewrite filter_cons. rewrite zlen_cons in Hl. zlen_pos.
  destruct (decide (large opts o)) as [E|E]; unfold large in E; [|apply not_true_is_false in E]; rewrite E.
  - replace (Z.lor 0x80000000 nr) with (2 ^ 31 + nr).
    2:{ change 0x80000000 with (Z.shiftl 1 31). rewrite lor_disjoint_add; lia. }
    apply wp_bind. eapply wp_mono; [|by apply write_opened]. intros f1 Hf1. cbv beta.
    unfold u32. rewrite Z.mod_small by lia. eapply wp_mono; [|apply IH; [done|lia..]].
    intros [f2 nr'] [Hf2 ->]. rewrite <- app_assoc in Hf2. split; [done|]. rewrite zlen_cons. lia.
  - apply wp_bind. eapply wp_mono; [|by apply write_opened]. intros f1 Hf1. cbv beta.
    eapply wp_mono; [|apply IH; [done|lia..]].
    intros [f2 nr'] [Hf2 ->]. rewrite <- app_assoc in Hf2. split; [done|]. done.
Qed.

Lemma write_large_offsets_wp opts D f l :
  opened D f →
  returns (write_large_offsets crc32_fn f opts (zlen (filter (large opts) l)) l)
    (opened (D ++ concat (be64 <$> off64 opts l))).
Proof.
  revert D f. induction l as [|o l IH]; intros D f Hf.
  { cbn. by rewrite app_nil_r. }
  cbn [write_large_offsets]. unfold off64. rewrite filter_cons. destruct (decide (large opts o)) as [E|E].
  - rewrite zlen_cons. zlen_pos. eval_eqb (1 + zlen (filter (large opts) l)) 0. unfold large in E. rewrite E. cbn [negb].
    apply wp_bind. eapply wp_mono; [|by apply write_opened]. intros f1 Hf1. cbv beta.
    replace (1 + zlen (filter (large opts) l) - 1) with (zlen (filter (large opts) l)) by lia.
    eapply wp_mono; [|by apply IH]. intros f2. by rewrite <- app_assoc.
  - destruct (Z.eqb_spec (zlen (filter (large opts) l)) 0) as [E0|].
    { assert (filter (large opts) l = []) as -> by (destruct (filter (large opts) l); [done|zlia]).
      cbn. by rewrite app_nil_r. }
    apply not_true_is_false in E. rewrite E. cbn [negb]. by apply IH.
Qed.

(** *** The whole file *)
Context `{Q : !Qsort} `{!QsortLaws Q}.

Lemma write_idx_file_wp mem file objects opts sha1 :
  128 * 1024 <= zlen mem → Z.land (flags opts) WRITE_IDX_VERIFY = 0 → version opts = 1 ∨ version opts = 2 →
  Forall entry_ok objects → NoDup (oid <$> objects) → zlen objects < 2 ^ 31 → rawsz <= zlen sha1 →
  returns (write_idx_file crc32_fn mem file objects opts sha1) (λ '(l, out),
    l ≡ₚ objects ∧ StronglySorted (λ a b, sha1_compare a b < 0) l ∧ out = sealed (body opts l sha1)).
Proof.
  intros Hmem Hv Hver Hok Hnd Hn Hsha. unfold write_idx_file.
  set (l := if 1 <? zlen objects then _ else _). rewrite Hv. cbn [negb Z.eqb].
  assert (l ≡ₚ objects) as HP. { unfold l. destruct (1 <? zlen objects); [apply qsort_perm|done]. }
  assert (StronglySorted (λ a b, sha1_compare a b < 0) l) as Hs.
  { apply sorted_strict; [|by rewrite HP]. unfold l. destruct (Z.ltb_spec 1 (zlen objects)); [apply qsort_sorted; apply _|].
    destruct objects as [|o1 [|o2 r]]; [repeat constructor..|zlia]. }
  clearbody l. assert (Forall entry_ok l) as Hokl by by rewrite HP.
  assert (zlen l < 2 ^ 31) as Hnl. { unfold zlen in *. by rewrite HP. }
  rewrite (last_obj_offset_perm objects l) by done. fold (idx_version opts l). unfold body.
  assert (idx_version opts l = 1 ∨ idx_version opts l = 2) as Hiv by (unfold idx_version; destruct (need_large_offset _ _); auto).
  assert (StronglySorted (λ a b, first a <= first b) l) as Hfirst.
  { eapply StronglySorted_impl_in; [|exact Hs]. intros a b Ha Hb Hlt.
    apply compare_first; try (by apply (proj1 (Forall_forall _ _) Hokl)). cbv beta in Hlt. lia. }
  pose proof rawsz_range.
  set (hdr := if 2 <=? idx_version opts l then be32 PACK_IDX_SIGNATURE ++ be32 2 else []).
  apply wp_bind. eapply (wp_mono _ _ (opened hdr)).
  2:{ unfold hdr. destruct (Z.leb_spec 2 (idx_version opts l)).
      - assert (idx_version opts l = 2) as -> by lia. apply (write_opened []); [done|]. apply hashfd_opened, Hmem.
      - apply hashfd_opened, Hmem. }
  intros f1 Hf1. apply wp_bind. eapply wp_mono; [|apply (write_fanout_wp 256 hdr); try done].
  2:{ apply Forall_forall. intros x Hx. apply (proj1 (Forall_forall _ _) Hokl) in Hx.
      destruct (entry_first x Hx) as (_ & Hb & _). unfold byte_ok in Hb. lia. }
  intros f2 Hf2. apply wp_bind. eapply wp_mono; [|apply write_names_wp; [exact Hf2|done|]].
  2:{ intros _. cbn. eapply StronglySorted_impl_in; [|exact Hs]. intros a b _ _ Hlt E. cbv beta in Hlt.
      unfold sha1_compare, oidcmp in Hlt. rewrite E, cmp_refl in Hlt by apply _. lia. }
  change (λ c, 0 + zlen (filter (λ o, first o <= c) l)) with (λ c, zlen (filter (λ o, first o <= c) l)).
  fold (fan l). intros f3 Hf3. cbv beta.
  set (tail := if 2 <=? idx_version opts l then words (idx_crc32 <$> l) ++ words (off32 opts 0 l) ++ concat (be64 <$> off64 opts l) else []).
  apply wp_bind. eapply (wp_mono _ _ (opened (((hdr ++ words (fan l)) ++ _) ++ tail))).
  2:{ unfold tail. destruct (Z.leb_spec 2 (idx_version opts l)); [|cbn; by rewrite app_nil_r].
      apply wp_bind. eapply wp_mono; [|by apply write_crcs_wp]. intros f4 Hf4. cbv beta.
      apply wp_bind. eapply wp_mono; [|apply write_offsets_wp; [exact Hf4|lia..]].
      intros [f5 nr] [Hf5 ->]. cbv beta match. rewrite Z.add_0_l. rewrite !app_assoc.
      eapply wp_mono; [|by apply write_large_offsets_wp]. done. }
  intros f4 Hf4. cbv beta. rewrite (rd_range_at sha1 [] (ztake rawsz sha1) (zdrop rawsz sha1));
    [|by rewrite ztake_zdrop|done|by rewrite zlen_ztake by lia].
  cbn [obind]. apply wp_bind. eapply wp_mono; [|apply write_opened; [rewrite zlen_ztake; lia|exact Hf4]]. intros f5 Hf5. cbv beta.
  apply wp_bind. eapply wp_mono; [|apply finalize_opened; exact Hf5]. intros [out hash] ->. cbn [wp].
  split_and!; [done..|]. f_equal. unfold hdr, tail. destruct (Z.leb_spec 2 (idx_version opts l)).
  - eval_ltb (idx_version opts l) 2. cbn [app]. by rewrite <- !app_assoc.
  - eval_ltb (idx_version opts l) 2. cbn [app]. by rewrite app_nil_r, <- !app_assoc.
Qed.
End writer.

(** ** The readers on such a file *)
Section reader.
Context {algop : HashAlgo} `{!HashLaws algop}.
Implicit Types (o : pack_idx_entry) (l : list pack_idx_entry).

Lemma znth_fan l c : 0 <= c < 256 → znth (fan l) c = Some (zlen (filter (λ o, first o <= c) l)).
Proof.
  intros Hc. unfold znth, fan. rewrite (proj2 (Z.leb_le 0 c)) by lia. rewrite list_lookup_fmap.
  assert (seqZ 0 256 !! Z.to_nat c = Some c) as -> by (apply lookup_seqZ; lia). done.
Qed.
Lemma zlen_fan l : zlen (fan l) = 256.
Proof. unfold fan, zlen. rewrite length_fmap, length_seqZ. done. Qed.
Lemma fan_bound l c x : zlen l < 2 ^ 31 → znth (fan l) c = Some x → 0 <= x < 2 ^ 31.
Proof.
  intros Hl Hx. pose proof (znth_Some_lt _ _ _ Hx) as Hc. rewrite zlen_fan in Hc. rewrite znth_fan in Hx by lia.
  injection Hx as <-. pose proof (zlen_filter_le (λ o, first o <= c) l). zlen_pos. lia.
Qed.
Lemma fan_mono l c d x y : c <= d → znth (fan l) c = Some x → znth (fan l) d = Some y → x <= y.
Proof.
  intros Hcd Hx Hy. pose proof (znth_Some_lt _ _ _ Hx). pose proof (znth_Some_lt _ _ _ Hy). rewrite zlen_fan in *.
  rewrite znth_fan in Hx, Hy by lia. injection Hx as <-. injection Hy as <-. rewrite (count_split c d) by done. zlen_pos. lia.
Qed.

(** The fan-out table is right for the sorted names. *)
Lemma filter_split_sorted l c :
  StronglySorted (λ a b, first a <= first b) l →
  l = filter (λ o, first o <= c) l ++ filter (λ o, c < first o) l.
Proof.
  induction 1 as [|o l Hs IH Ho]; [done|]. rewrite !filter_cons. destruct (decide (first o <= c)).
  - rewrite decide_False by lia. cbn. by rewrite <- IH.
  - rewrite decide_True by lia. rewrite (filter_none_in _ l), (filter_all_in _ l); [done|..];
      intros x Hx; pose proof (proj1 (Forall_forall _ _) Ho x Hx); cbn in *; lia.
Qed.
Lemma fan_ok l :
  Forall entry_ok l → StronglySorted (λ a b, first a <= first b) l → fanout_ok (fan l) (name <$> l).
Proof.
  intros Hok Hs c Hc. unfold byte_ok in Hc. eexists. split; [by apply znth_fan|].
  assert (zlen (name <$> l) = zlen l) as -> by (unfold zlen; by rewrite length_fmap).
  pose proof (zlen_filter_le (λ o, first o <= c) l). zlen_pos. split; [lia|].
  intros k e Hk. pose proof (znth_Some_lt _ _ _ Hk) as Hlt.
  apply znth_fmap_Some in Hk as (o & Ho & ->).
  pose proof (proj1 (Forall_forall _ _) Hok o (znth_elem_of _ _ _ Ho)) as Hoo.
  destruct (entry_first o Hoo) as (_ & _ & t & Et).
  rewrite (filter_split_sorted l c Hs) in Ho. split.
  - intros Hkn. rewrite znth_app_l in Ho by done. exists (first o), t. split; [done|].
    apply znth_elem_of in Ho. by apply list_elem_of_filter in Ho as [? _].
  - intros (h & t' & Eh & Hh). rewrite Et in Eh. injection Eh as <- <-. apply Z.nle_gt. intros Hge.
    rewrite znth_app_r in Ho by done. apply znth_elem_of in Ho. apply list_elem_of_filter in Ho as [? _]. lia.
Qed.

Lemma check_fanout_ok mem pre post l n i nr :
  mem = pre ++ words (fan l) ++ post → zlen l < 2 ^ 31 → 0 <= i → i + Z.of_nat n = 256 →
  (∀ x, znth (fan l) i = Some x → nr <= x) →
  ∃ r, check_fanout n mem (zlen pre) i nr = Ret (Some r) ∧ (n ≠ O → znth (fan l) 255 = Some r) ∧ (n = O → r = nr).
Proof.
  intros Hm Hl. revert i nr. induction n as [|n IH]; intros i nr Hi Hn Hnr.
  { cbn. by exists nr. }
  cbn [check_fanout]. destruct (znth_is_Some (fan l) i) as [x Hx]; [rewrite zlen_fan; lia|].
  pose proof (fan_bound l i x Hl Hx). rewrite (rd_word mem pre (fan l) post i x) by (done || lia). cbn [obind].
  pose proof (Hnr _ Hx). eval_ltb x nr. destruct (IH (i + 1) x) as (r & -> & H1 & H2); [lia..| |].
  { intros y Hy. eapply fan_mono; [|done..]. lia. }
  exists r. split; [done|]. split; [|done]. intros _. destruct n as [|n]; [|by apply H1].
  rewrite H2 by done. by assert (i = 255) as <- by lia.
Qed.
Lemma fan_last l : Forall entry_ok l → znth (fan l) 255 = Some (zlen l).
Proof.
  intros Hok. rewrite znth_fan by lia. rewrite filter_all_in; [done|]. intros x Hx.
  apply (proj1 (Forall_forall _ _) Hok) in Hx. destruct (entry_first x Hx) as (_ & Hb & _). unfold byte_ok in Hb. lia.
Qed.

(** *** The offset tables *)
Lemma land_no_bit31 x : 0 <= x < 2 ^ 31 → Z.land x 0x80000000 = 0.
Proof.
  intros Hx. change 0x80000000 with (2 ^ 31). apply Z.bits_inj'. intros j Hj.
  rewrite Z.land_spec, Z.testbit_0_l. destruct (decide (j = 31)) as [->|]; [rewrite (testbit_above x 31) by lia; done|].
  rewrite Z.pow2_bits_false by lia. apply andb_false_r.
Qed.
Lemma land_bit31 k : 0 <= k < 2 ^ 31 → Z.land (2 ^ 31 + k) 0x80000000 = 2 ^ 31.
Proof.
  intros Hk. rewrite <- (Z.mul_1_l (2 ^ 31)) at 1. rewrite <- (lor_disjoint_add 1 k 31), Z.land_lor_distr_l by lia.
  rewrite (land_no_bit31 k) by done. rewrite Z.lor_0_r. done.
Qed.
Lemma small_offset opts x : 0 <= x → need_large_offset x opts = false → x < 2 ^ 31.
Proof.
  intros Hx. unfold need_large_offset. destruct (Z.eqb_spec (Z.shiftr x 31) 0) as [E|]; [|done]. intros _.
  rewrite Z.shiftr_div_pow2 in E by lia. change (2 ^ 31) with 2147483648 in *. Z.div_mod_to_equations; lia.
Qed.

Lemma zlen_off32 opts nr l : zlen (off32 opts nr l) = zlen l.
Proof. revert nr. induction l as [|o l IH]; intros nr; [done|]. cbn [off32]. destruct (decide _); zlen_simpl; rewrite IH; lia. Qed.

(** The [i]-th entry of the 32-bit table leads to the [i]-th offset. *)
Lemma off32_lookup opts nr l i o :
  znth l i = Some o → 0 <= nr →
  ∃ w, znth (off32 opts nr l) i = Some w ∧
    (large opts o → ∃ k, w = 2 ^ 31 + (nr + k) ∧ 0 <= k < zlen (off64 opts l) ∧ znth (off64 opts l) k = Some (idx_offset o)) ∧
    (¬ large opts o → w = idx_offset o).
Proof.
  intros Hi. pose proof (znth_Some_lt _ _ _ Hi) as Hlt. revert nr i Hi Hlt.
  induction l as [|x l IH]; intros nr i Hi Hlt Hnr; [zlia|]. destruct (decide (i = 0)) as [->|Hne].
  - injection Hi as ->. unfold off64. rewrite filter_cons. cbn [off32]. destruct (decide (large opts o)).
    + eexists. split; [done|]. split; [|done]. intros _. exists 0. cbn [fmap list_fmap]. zlen_simpl.
      change (znth (idx_offset o :: (idx_offset <$> filter (large opts) l)) 0) with (Some (idx_offset o)). zlen_pos. split_and!; lia || done.
    + eexists. split; [done|]. split; [done|]. done.
  - rewrite zlen_cons in Hlt. rewrite znth_cons in Hi by lia. unfold off64. rewrite filter_cons. cbn [off32].
    destruct (decide (large opts x)); rewrite znth_cons by lia.
    + destruct (IH (nr + 1) (i - 1) Hi ltac:(lia) ltac:(lia)) as (w & Hw & H1 & H2). exists w. split; [done|]. split; [|done].
      intros Ho. destruct (H1 Ho) as (k & -> & Hk & Hz'). exists (k + 1). cbn [fmap list_fmap]. rewrite zlen_cons.
      split_and!; [lia|lia|unfold off64 in *; lia|]. rewrite znth_cons by lia. by replace (k + 1 - 1) with k by lia.
    + destruct (IH nr (i - 1) Hi ltac:(lia) ltac:(lia)) as (w & Hw & H1 & H2). exists w. split; [done|]. split; [|done]. done.
Qed.

(** *** The file as a whole *)
Context (opts : pack_idx_option) (l : list pack_idx_entry) (sha1 : list Z).
Context (Hok : Forall entry_ok l) (Hs : StronglySorted (λ a b, sha1_compare a b < 0) l) (Hn : zlen l < 2 ^ 31).
Context (Hver : version opts = 1 ∨ version opts = 2) (Hsha : rawsz <= zlen sha1).
Context (Hsmall : l = [] ∨ ∃ o, o ∈ l ∧ ¬ large opts o).

Local Abbreviation M := (sealed (body opts l sha1)).
Local Abbreviation V := (idx_version opts l).

Lemma zlen_off64 : zlen (off64 opts l) <= Z.max 0 (zlen l - 1).
Proof.
  assert (zlen (off64 opts l) = zlen (filter (large opts) l)) as -> by (unfold off64, zlen; by rewrite length_fmap).
  destruct Hsmall as [->|(o & Ho & Hlo)]; [done|]. apply list_elem_of_split in Ho as (l1 & l2 & ->).
  rewrite filter_app, filter_cons, decide_False by done. rewrite !zlen_app, zlen_cons.
  pose proof (zlen_filter_le (large opts) l1). pose proof (zlen_filter_le (large opts) l2). lia.
Qed.

Lemma version_cases : V = 1 ∧ (∀ o, o ∈ l → ¬ large opts o ∨ 0 < idx_offset o < 2 ^ 31) ∨ V = 2.
Proof.
  unfold idx_version. destruct (need_large_offset _ _) eqn:E; [by right|]. destruct Hver as [-> | ->]; [|by right].
  left. split; [done|]. intros o Ho. right. destruct (last_obj_offset_spec l) as (H1 & H2 & _).
  apply small_offset in E; [|done]. pose proof (H2 _ Ho). apply (proj1 (Forall_forall _ _) Hok) in Ho as (_ & _ & ?). lia.
Qed.

Local Abbreviation trailer := (final_fn (update_fn init_fn (body opts l sha1))).
Local Abbreviation hdr := (be32 PACK_IDX_SIGNATURE ++ be32 2).

Lemma file_v1 : V = 1 → M = words (fan l) ++ concat (row_v1 <$> l) ++ ztake rawsz sha1 ++ trailer.
Proof. intros E. unfold sealed, body at 1. rewrite E. change (2 <=? 1) with false. by rewrite <- !app_assoc. Qed.
Lemma file_v2 :
  V = 2 → M = hdr ++ words (fan l) ++ concat (name <$> l) ++ words (idx_crc32 <$> l) ++ words (off32 opts 0 l) ++
    concat (be64 <$> off64 opts l) ++ ztake rawsz sha1 ++ trailer.
Proof. intros E. unfold sealed, body at 1. rewrite E. change (2 <=? 2) with true. by rewrite <- !app_assoc. Qed.

Lemma zlen_trailer : zlen trailer = rawsz.
Proof. apply final_len. Qed.
Lemma name_in o : o ∈ l → zlen (name o) = rawsz.
Proof. intros Ho. by apply entry_name, (proj1 (Forall_forall _ _) Hok). Qed.
Lemma row_in o : o ∈ l → zlen (row_v1 o) = rawsz + 4.
Proof. intros Ho. unfold row_v1. rewrite zlen_app, zlen_be32, name_in by done. lia. Qed.
Lemma zlen_file_v1 : V = 1 → zlen M = 1024 + zlen l * (rawsz + 4) + rawsz + rawsz.
Proof.
  intros E. pose proof rawsz_range. rewrite file_v1, !zlen_app, zlen_words, zlen_fan, zlen_trailer, zlen_ztake by (done || lia).
  rewrite (zlen_rows row_v1 (rawsz + 4)) by apply row_in. lia.
Qed.
Lemma zlen_file_v2 :
  V = 2 → zlen M = 1032 + zlen l * (rawsz + 8) + zlen (off64 opts l) * 8 + rawsz + rawsz.
Proof.
  intros E. pose proof rawsz_range. rewrite file_v2 by done.
  rewrite !zlen_app, !zlen_words, zlen_fan, zlen_trailer, zlen_ztake, zlen_off32, zlen_fmap by lia.
  rewrite (zlen_rows name rawsz) by apply name_in.
  rewrite (zlen_rows be64 8) by (intros; apply zlen_be64). rewrite !zlen_be32. lia.
Qed.

Definition loaded (p : packed_git) : packed_git :=
  Packed_git (Some M) (zlen M) (zlen l) (if V =? 1 then crc_offset p else 8 + 4 * 256 + zlen l * rawsz) V (pack_size p).

Lemma load_idx_ok p : load_idx rawsz M p = Ret (Some (loaded p)).
Proof.
  pose proof rawsz_range as Hr. pose proof zlen_off64 as H64. unfold load_idx, loaded. zlen_pos.
  assert (0 <= zlen l * rawsz <= zlen l * 32) by nia.
  destruct version_cases as [[E _]|E]; rewrite E.
  - pose proof (zlen_file_v1 E) as Hlen. rewrite Hlen.
    destruct (Z.ltb_spec (1024 + zlen l * (rawsz + 4) + rawsz + rawsz) (4 * 256 + rawsz + rawsz)); [lia|].
    destruct (znth_is_Some (fan l) 0) as [x Hx]; [rewrite zlen_fan; lia|]. pose proof (fan_bound l 0 x Hn Hx).
    rewrite (rd_word M [] (fan l) (concat (row_v1 <$> l) ++ ztake rawsz sha1 ++ trailer) 0 x
      (file_v1 E) Hx ltac:(lia) : rd_be32 M 0 = Ret x). cbn [obind].
    unfold PACK_IDX_SIGNATURE. eval_eqb x 0xff744f63. cbn [obind]. change (1 <? 1) with false. cbn match.
    destruct (check_fanout_ok M [] _ l 256 0 0 (file_v1 E) Hn ltac:(lia) ltac:(lia)) as (r & Hc & H255 & _).
    { intros y Hy. pose proof (fan_bound l 0 y Hn Hy). lia. }
    change (check_fanout 256 M 0 0 0 = Ret (Some r)) in Hc. rewrite Hc. cbn [obind].
    specialize (H255 ltac:(done)). rewrite fan_last in H255 by done. injection H255 as <-.
    change (1 =? 1) with true. cbn match. rewrite st_mult_ok by lia. cbn [obind]. rewrite st_add_ok by lia. cbn [obind].
    eval_eqb (1024 + zlen l * (rawsz + 4) + rawsz + rawsz) (4 * 256 + rawsz + rawsz + zlen l * (rawsz + 4)). done.
  - pose proof (zlen_file_v2 E) as Hlen. rewrite Hlen.
    set (size := 1032 + _ + _ + _ + _). assert (size = 1032 + zlen l * (rawsz + 8) + zlen (off64 opts l) * 8 + rawsz + rawsz) as Esz by done.
    clearbody size. destruct (Z.ltb_spec size (4 * 256 + rawsz + rawsz)); [lia|].
    assert (rd_be32 M 0 = Ret PACK_IDX_SIGNATURE) as ->.
    { unfold rd_be32. rewrite (file_v2 E), <- !app_assoc.
      rewrite (rd_range_at _ [] (be32 PACK_IDX_SIGNATURE) (be32 2 ++ words (fan l) ++ concat (name <$> l) ++
        words (idx_crc32 <$> l) ++ words (off32 opts 0 l) ++ concat (be64 <$> off64 opts l) ++ ztake rawsz sha1 ++ trailer)) by done.
      done. }
    assert (rd_be32 M 4 = Ret 2) as Hv4.
    { unfold rd_be32. rewrite (file_v2 E), <- !app_assoc.
      rewrite (rd_range_at _ (be32 PACK_IDX_SIGNATURE) (be32 2) (words (fan l) ++ concat (name <$> l) ++
        words (idx_crc32 <$> l) ++ words (off32 opts 0 l) ++ concat (be64 <$> off64 opts l) ++ ztake rawsz sha1 ++ trailer)) by done.
      done. }
    cbn [obind]. rewrite Z.eqb_refl, Hv4. cbn [obind]. change ((2 <? 2) || (2 <? 2)) with false. cbn match. cbn [obind].
    change (1 <? 2) with true. cbn match.
    destruct (check_fanout_ok M hdr _ l 256 0 0 (file_v2 E) Hn ltac:(lia) ltac:(lia)) as (r & Hc & H255 & _).
    { intros y Hy. pose proof (fan_bound l 0 y Hn Hy). lia. }
    change (check_fanout 256 M 8 0 0 = Ret (Some r)) in Hc. rewrite Hc. cbn [obind].
    specialize (H255 ltac:(done)). rewrite fan_last in H255 by done. injection H255 as <-.
    change (2 =? 1) with false. cbn match.
    rewrite st_mult_ok by lia. cbn [obind]. rewrite st_add_ok by lia. cbn [obind].
    assert (∃ max, (if negb (zlen l =? 0)
      then let! m := st_mult (zlen l - 1) 8 in st_add (8 + 4 * 256 + rawsz + rawsz + zlen l * (rawsz + 4 + 4)) m
      else Ret (8 + 4 * 256 + rawsz + rawsz + zlen l * (rawsz + 4 + 4))) = Ret max ∧ size <= max) as (max & -> & Hmax).
    { destruct (Z.eqb_spec (zlen l) 0); cbn [negb]; [eexists; split; [done|lia]|].
      rewrite st_mult_ok by lia. cbn [obind]. rewrite st_add_ok by lia. eexists. split; [done|lia]. }
    cbn [obind]. destruct (Z.ltb_spec size (8 + 4 * 256 + rawsz + rawsz + zlen l * (rawsz + 4 + 4))); [lia|].
    eval_ltb max size. cbn [orb]. rewrite st_mult_ok by lia. cbn [obind]. rewrite st_add_ok by lia. done.
Qed.

Lemma row_reads o i :
  V = 1 → znth l i = Some o → rd_range M (1024 + i * (rawsz + 4)) (rawsz + 4) = Ret (row_v1 o).
Proof.
  intros E Hi. rewrite <- (rd_row row_v1 (rawsz + 4) l M (words (fan l)) (ztake rawsz sha1 ++ trailer) i o row_in (file_v1 E) Hi).
  by rewrite zlen_words, zlen_fan.
Qed.

Lemma name_reads o i :
  znth l i = Some o →
  rd_range M ((if V =? 1 then 4 * 256 + 4 else 4 * 256 + 8) + i * (if V =? 1 then rawsz + 4 else rawsz)) rawsz = Ret (name o).
Proof.
  intros Hi. pose proof rawsz_range. destruct version_cases as [[E _]|E]; rewrite E; cbn [Z.eqb Pos.eqb].
  - replace (4 * 256 + 4 + i * (rawsz + 4)) with (1024 + i * (rawsz + 4) + 4) by lia.
    rewrite (rd_range_sub _ _ _ _ 4 rawsz (row_reads o i E Hi)) by lia. f_equal. unfold row_v1, zslice.
    rewrite zdrop_app_len' by done. apply ztake_all. rewrite name_in; [done|].
    by eapply znth_elem_of.
  - rewrite <- (rd_row name rawsz l M (hdr ++ words (fan l)) (words (idx_crc32 <$> l) ++ words (off32 opts 0 l) ++
      concat (be64 <$> off64 opts l) ++ ztake rawsz sha1 ++ trailer) i o name_in ltac:(rewrite file_v2 by done; by rewrite <- !app_assoc) Hi).
    by rewrite zlen_app, zlen_words, zlen_fan.
Qed.

Lemma fan_reads c x : znth (fan l) c = Some x → rd_be32 M ((if V =? 1 then 0 else 8) + 4 * c) = Ret x.
Proof.
  intros Hx. pose proof (fan_bound l c x Hn Hx). destruct version_cases as [[E _]|E]; rewrite E; cbn [Z.eqb Pos.eqb].
  - exact (rd_word M [] _ _ c x (file_v1 E) Hx ltac:(lia)).
  - exact (rd_word M hdr _ _ c x (file_v2 E) Hx ltac:(lia)).
Qed.

Lemma first_sorted : StronglySorted (λ a b, first a <= first b) l.
Proof.
  eapply StronglySorted_impl_in; [|exact Hs]. intros a b Ha Hb Hlt. cbv beta in Hlt.
  apply compare_first; try (by apply (proj1 (Forall_forall _ _) Hok)). lia.
Qed.

Lemma bsearch_pack_wp p oid_ h :
  zlen h = rawsz → bytes_ok h → oid_ = h ++ zrep (GIT_MAX_RAWSZ - rawsz) 0 →
  returns (bsearch_pack oid_ (loaded p)) (λ '(found, pos),
    found = 1 ∧ znth (name <$> l) pos = Some h ∨ found = 0 ∧ h ∉ name <$> l).
Proof.
  intros Hl Hb ->. pose proof rawsz_range. unfold bsearch_pack. cbn [index_data loaded index_version].
  rewrite (rd_range_at _ [] h (zrep (GIT_MAX_RAWSZ - rawsz) 0)) by done.
  set (e := λ mi, rd_range M ((if V =? 1 then 4 * 256 + 4 else 4 * 256 + 8) + mi * (if V =? 1 then rawsz + 4 else rawsz)) rawsz).
  set (g := λ i, rd_be32 M ((if V =? 1 then 0 else 8) + 4 * i)).
  assert (returns (bsearch_hash h g e) (λ '(found, pos),
    found = 1 ∧ znth (name <$> l) pos = Some h ∨ found = 0 ∧ h ∉ name <$> l)) as Hr.
  2:{ unfold g, e in Hr. clear -Hr. destruct (V =? 1); exact Hr. }
  eapply wp_mono; [|apply (bsearch_hash_wp h g e (fan l) (name <$> l)); try done].
  - intros [found pos] [?|(-> & Hp & Hsp)]; [by left|right]. split; [done|]. intros Hin. eapply (split_at_absent memcmp); [exact Hsp|exact Hin|]. apply cmp_refl, _.
  - exact fan_reads.
  - intros i v Hi. apply znth_fmap_Some in Hi as (o & Ho & ->).
    by apply name_reads.
  - apply fan_ok; [done|apply first_sorted].
  - apply Forall_fmap. eapply Forall_impl; [exact Hok|]. intros o Ho. destruct (entry_name o Ho) as (? & ? & _).
    split; [done|]. cbn. intros E. rewrite E in *. zlia.
  - by apply ascending_nondec, names_ascending.
  - rewrite zlen_fmap. lia.
  - intros ->. zlia.
Qed.

Lemma offset_v1 p o i : V = 1 → znth l i = Some o → nth_packed_object_offset (loaded p) i = Ret (idx_offset o).
Proof.
  intros E Hi. pose proof rawsz_range. pose proof (znth_Some_lt _ _ _ Hi).
  unfold nth_packed_object_offset. cbn [index_data loaded index_version]. rewrite E. change (1 =? 1) with true. cbn match.
  assert (0 <= (rawsz + 4) * i <= 36 * i) by nia. rewrite st_mult_ok by lia. cbn [obind]. unfold rd_be32.
  replace (4 * 256 + (rawsz + 4) * i) with (1024 + i * (rawsz + 4) + 0) by lia.
  rewrite (rd_range_sub _ _ _ _ 0 4 (row_reads o i E Hi)) by lia. cbn [obind].
  unfold row_v1, zslice. rewrite zdrop_0, ztake_app_len' by done. f_equal. apply of_be32.
  pose proof (znth_elem_of _ _ _ Hi) as Ho.
  destruct version_cases as [[_ Hc]|E2]; [|lia]. destruct (Hc o Ho) as [Hlo|]; [|lia].
  apply (proj1 (Forall_forall _ _) Hok) in Ho as (_ & _ & ?). unfold large in Hlo. apply not_true_is_false in Hlo.
  apply small_offset in Hlo; lia.
Qed.

Lemma offset_v2 p o i : V = 2 → znth l i = Some o → nth_packed_object_offset (loaded p) i = Ret (idx_offset o).
Proof.
  intros E Hi. pose proof rawsz_range. pose proof (znth_Some_lt _ _ _ Hi). pose proof zlen_off64 as H64.
  pose proof (znth_elem_of _ _ _ Hi) as Ho.
  apply (proj1 (Forall_forall _ _) Hok) in Ho as (_ & _ & Hoff).
  destruct (off32_lookup opts 0 l i o Hi ltac:(lia)) as (w & Hw & Hlarge & Hsm).
  unfold nth_packed_object_offset. cbn [index_data loaded index_version num_objects]. rewrite E. change (2 =? 1) with false. cbn match.
  assert (0 <= zlen l * (rawsz + 4) <= zlen l * 36) by nia.
  rewrite st_mult_ok by lia. cbn [obind]. rewrite st_add_ok by lia. cbn [obind]. rewrite st_mult_ok by lia. cbn [obind].
  set (pre := hdr ++ words (fan l) ++ concat (name <$> l) ++ words (idx_crc32 <$> l)).
  assert (zlen pre = 4 * 256 + (8 + zlen l * (rawsz + 4))) as Hpre.
  { unfold pre. rewrite !zlen_app, !zlen_words, zlen_fan, zlen_fmap, (zlen_rows name rawsz) by apply name_in.
    rewrite !zlen_be32. lia. }
  assert (0 <= w < 2 ^ 32) as Hwb.
  { destruct (decide (large opts o)) as [Hlo|Hlo].
    - destruct (Hlarge Hlo) as (k & -> & Hk & _). lia.
    - rewrite Hsm by done. unfold large in Hlo. apply not_true_is_false, small_offset in Hlo; lia. }
  rewrite <- Hpre.
  rewrite (rd_word M pre (off32 opts 0 l) (concat (be64 <$> off64 opts l) ++ ztake rawsz sha1 ++ trailer) i w);
    [|rewrite file_v2 by done; unfold pre; by rewrite <- !app_assoc|done|lia].
  cbn [obind]. destruct (decide (large opts o)) as [Hlo|Hlo].
  - destruct (Hlarge Hlo) as (k & -> & Hk & Hk64). rewrite Z.add_0_l.
    rewrite land_bit31 by lia.
    assert (Z.land (2 ^ 31 + k) 0x7fffffff = k) as ->.
    { rewrite (land_ones_mod _ 31 0x7fffffff) by (done || lia). rewrite <- (Z.mul_1_l (2 ^ 31)) at 1.
      rewrite Z.add_comm, Z.mod_add, Z.mod_small; lia. }
    change (2 ^ 31 =? 0) with false. cbn match.
    rewrite st_mult_ok by lia. cbn [obind]. rewrite st_mult_ok by lia. cbn [obind]. rewrite st_add_ok by lia. cbn [obind].
    unfold check_pack_index_ptr. cbn [index_size loaded]. rewrite (zlen_file_v2 E).
    set (ptr := zlen pre + (zlen l * 4 + k * 8)). eval_ltb ptr 0.
    destruct (Z.leb_spec (1032 + zlen l * (rawsz + 8) + zlen (off64 opts l) * 8 + rawsz + rawsz - 8) ptr); [lia|].
    cbn [negb andb]. unfold rd_be64.
    replace ptr with (zlen (pre ++ words (off32 opts 0 l)) + k * 8)
      by (unfold ptr; rewrite zlen_app, zlen_words, zlen_off32; lia).
    rewrite (rd_row be64 8 (off64 opts l) M (pre ++ words (off32 opts 0 l)) (ztake rawsz sha1 ++ trailer) k (idx_offset o));
      [|intros; apply zlen_be64|rewrite file_v2 by done; unfold pre; by rewrite <- !app_assoc|done].
    cbn [obind]. rewrite of_be64, PackHeader.i64_small by lia. done.
  - rewrite Hsm by done. unfold large in Hlo. apply not_true_is_false, small_offset in Hlo; [|lia].
    by rewrite land_no_bit31 by lia.
Qed.

Lemma nth_packed_object_offset_ok p o i :
  znth l i = Some o → nth_packed_object_offset (loaded p) i = Ret (idx_offset o).
Proof. destruct version_cases as [[E _]|E]; [by apply offset_v1|by apply offset_v2]. Qed.

Lemma nth_packed_object_id_ok opn p o i :
  znth l i = Some o → nth_packed_object_id opn (loaded p) i = Ret (Some (oid o)).
Proof.
  intros Hi. pose proof rawsz_range. pose proof (znth_Some_lt _ _ _ Hi). pose proof (name_reads o i Hi) as Hr.
  unfold nth_packed_object_id. cbn [index_data loaded obind num_objects index_version]. eval_leb (zlen l) i.
  assert (0 <= rawsz * i <= 32 * i) by nia. assert (0 <= (rawsz + 4) * i <= 36 * i) by nia.
  assert (name o ++ zrep (GIT_MAX_RAWSZ - rawsz) 0 = oid o) as Eo.
  { pose proof (znth_elem_of _ _ _ Hi) as Ho.
    apply (proj1 (Forall_forall _ _) Hok) in Ho as [(h & Hh & _ & Eo) _]. unfold name. rewrite Eo.
    by rewrite ztake_app_len' by done. }
  destruct version_cases as [[E _]|E]; rewrite E in Hr |- *; cbn [Z.eqb Pos.eqb] in Hr |- *.
  - rewrite st_mult_ok by lia. cbn [obind]. rewrite st_add_ok by lia. cbn [obind].
    replace (4 * 256 + ((rawsz + 4) * i + 4)) with (4 * 256 + 4 + i * (rawsz + 4)) by lia. rewrite Hr. cbn [obind].
    by rewrite Eo.
  - rewrite st_mult_ok by lia. cbn [obind]. rewrite (Z.mul_comm rawsz), Hr. cbn [obind]. by rewrite Eo.
Qed.

Lemma find_pack_entry_one_ok opn p o : o ∈ l → find_pack_entry_one opn (oid o) (loaded p) = Ret (idx_offset o).
Proof.
  intros Ho. pose proof (proj1 (Forall_forall _ _) Hok o Ho) as [(h & Hh & Hb & Eo) _].
  unfold find_pack_entry_one. cbn [index_data loaded obind].
  pose proof (bsearch_pack_wp p (oid o) h Hh Hb Eo) as Hw. apply returns_eq in Hw as ([found pos] & Ew & Hw).
  rewrite Ew. cbn [obind].
  assert (name o = h) as En by (unfold name; by rewrite Eo, ztake_app_len').
  destruct Hw as [[-> Hpos]|[-> Hni]].
  2:{ exfalso. apply Hni. rewrite <- En. by apply list_elem_of_fmap_2. }
  cbn [Z.eqb negb].
  apply znth_fmap_Some in Hpos as (o' & Ho' & En'). symmetry in En'.
  rewrite (nth_packed_object_offset_ok p o' pos Ho').
  pose proof (znth_elem_of _ _ _ Ho') as Hin.
  assert (o' = o) as ->; [|done]. clear -Hs Hin Ho En En' Hok HashLaws0.
  assert (sha1_compare o o' = 0) as E0.
  { rewrite sha1_compare_name by (by apply (proj1 (Forall_forall _ _) Hok)). rewrite En, En'. apply cmp_refl, _. }
  apply list_elem_of_lookup in Ho as [i Hi]. apply list_elem_of_lookup in Hin as [j Hj].
  destruct (decide (i = j)) as [->|]; [congruence|]. exfalso.
  pose proof (ascending_lookup sha1_compare l) as HA. unfold ascending in HA.
  assert (i < j ∨ j < i)%nat as [Hlt|Hlt] by lia.
  - specialize (HA i j o o' Hs Hi Hj Hlt). lia.
  - specialize (HA j i o' o Hs Hj Hi Hlt). pose proof (cmp_zero_sym sha1_compare o o' E0). lia.
Qed.
Lemma find_pack_entry_one_absent opn p oid_ h :
  zlen h = rawsz → bytes_ok h → oid_ = h ++ zrep (GIT_MAX_RAWSZ - rawsz) 0 → h ∉ name <$> l →
  find_pack_entry_one opn oid_ (loaded p) = Ret 0.
Proof.
  intros Hh Hb Eo Hni. unfold find_pack_entry_one. cbn [index_data loaded obind].
  pose proof (bsearch_pack_wp p oid_ h Hh Hb Eo) as Hw. apply returns_eq in Hw as ([found pos] & Ew & Hw).
  rewrite Ew. cbn [obind]. destruct Hw as [[-> Hpos]|[-> _]]; [|done]. exfalso. apply Hni.
  by eapply znth_elem_of.
Qed.
End reader.

End PackIndex.
