(* ===== verification/Sort.v ===== *)
(** * Merge sorts (compat/qsort_s.c, mergesort.h)

    [git_qsort_s] sorts an array with the help of a second one; the list sort
    that [DEFINE_LIST_SORT] generates keeps sorted sublists whose lengths are the
    powers of two in the number of items taken so far.  Both are shown to return
    a stable sort of their input. *)
From stdpp Require Import prelude.
From S2P Require Import Prelude Order.

Module Sort.

Section sort.
Context {A : Type} (cmp : A → A → Z).

(** ** The array sort *)

(** [while (n1 > 0 && n2 > 0)]: [tmp], and what is left at [b1] and [b2]. *)
Fixpoint merge_loop (fuel : nat) (tmp b1 b2 : list A) : outcome (list A * list A * list A) :=
  match fuel with
  | O => NoFuel
  | S fuel =>
      match b1, b2 with
      | x :: b1', y :: b2' =>
          if cmp x y <=? 0 then merge_loop fuel (tmp ++ [x]) b1' b2
          else merge_loop fuel (tmp ++ [y]) b1 b2'
      | _, _ => Ret (tmp, b1, b2)
      end
  end.

(** [b] is the array of [n] elements at the pointer; the last [n2] elements are
    already in place when the loop stops. *)
Fixpoint msort_with_tmp (fuel : nat) (b : list A) : outcome (list A) :=
  match fuel with
  | O => NoFuel
  | S fuel =>
      let n := zlen b in
      if n <=? 1 then Ret b
      else
        let n1 := n / 2 in
        let! b1 := msort_with_tmp fuel (ztake n1 b) in
        let! b2 := msort_with_tmp fuel (zdrop n1 b) in
        let! (tmp, b1, b2) := merge_loop (S (length b)) [] b1 b2 in
        let tmp := if 0 <? zlen b1 then tmp ++ b1 else tmp in
        Ret (tmp ++ b2)
  end.

(** The result 0; [st_mult] stops the program when [n * s] does not fit.  A NULL
    array or callback, for which the result is -1, does not arise here. *)
Definition git_qsort_s (s : Z) (b : list A) : outcome (list A) :=
  if 2 ^ 64 <=? zlen b * s then Die
  else if zlen b =? 0 then Ret b
  else msort_with_tmp (length b) b.

(** ** The list sort *)

(** The loop of [name##__merge]: [acc] is the result up to [tail]. *)
Fixpoint list_merge_loop (fuel : nat) (acc l other : list A) (prefer_list : Z) : outcome (list A) :=
  match fuel with
  | O => NoFuel
  | S fuel =>
      match l with
      | [] => UB
      | x :: l =>
          let acc := acc ++ [x] in
          match l, other with
          | [], _ => Ret (acc ++ other)
          | y :: _, o :: _ =>
              if cmp y o <? prefer_list then list_merge_loop fuel acc l other prefer_list
              else list_merge_loop fuel acc other l (Z.lxor prefer_list 1)
          | _, [] => UB
          end
      end
  end.

Definition list_merge_ (l other : list A) : outcome (list A) :=
  let! x := rd l 0 in
  let! y := rd other 0 in
  let prefer_list := if cmp x y <=? 0 then 1 else 0 in
  let fuel := (length l + length other)%nat in
  if prefer_list =? 0 then list_merge_loop fuel [] other l prefer_list
  else list_merge_loop fuel [] l other prefer_list.

(** The inner [for (i = 0, m = n;; i++, m >>= 1)]: [inl] is the [return], [inr]
    the [break]. *)
Fixpoint rank_loop (fuel : nat) (ranks : list (list A)) (next : bool) (l : list A) (i m : Z)
  : outcome (list A + Z * list A) :=
  match fuel with
  | O => NoFuel
  | S fuel =>
      if negb (Z.land m 1 =? 0) then
        let! r := rd ranks i in
        let! l := list_merge_ r l in
        rank_loop fuel ranks next l (i + 1) (Z.shiftr m 1)
      else if next then Ret (inr (i, l))
      else if m =? 0 then Ret (inl l)
      else rank_loop fuel ranks next l (i + 1) (Z.shiftr m 1)
  end.

(** The outer loop: [list] is the first item, [next] the others. *)
Fixpoint list_sort_loop (ranks : list (list A)) (n : Z) (x : A) (next : list A) : outcome (list A) :=
  let! r := rank_loop 66 ranks (match next with [] => false | _ => true end) [x] 0 n in
  match r with
  | inl l => Ret l
  | inr (i, l) =>
      match next with
      | [] => UB
      | y :: next =>
          let! ranks := wr ranks i l in
          list_sort_loop ranks (u64 (n + 1)) y next
      end
  end.

(** [ranks] has an element per bit of a pointer. *)
Definition list_sort (l : list A) : outcome (list A) :=
  match l with
  | [] => Ret []
  | x :: next => list_sort_loop (replicate 64 []) 0 x next
  end.

(** ** Stable sorting *)
Context `{!CmpOrder cmp}.

Definition le (x y : A) : Prop := cmp x y <= 0.
#[local] Instance le_dec x y : Decision (le x y).
Proof. unfold le. apply _. Defined.
#[local] Instance le_trans : Transitive le.
Proof using CmpOrder0. intros x y z. apply cmp_le_trans. Qed.
#[local] Instance le_total : Total le.
Proof using CmpOrder0. intros x y. unfold le. pose proof (cmp_flip x y). pose proof (cmp_flip y x). lia. Qed.

(** The elements that compare equal to [k], in order. *)
Definition class (k : A) (l : list A) : list A := filter (λ x, cmp k x = 0) l.

Definition stable_sort_of (l r : list A) : Prop :=
  StronglySorted le r ∧ r ≡ₚ l ∧ ∀ k, class k r = class k l.

Lemma class_app k a b : class k (a ++ b) = class k a ++ class k b.
Proof. apply filter_app. Qed.

Lemma class_none k y a : cmp k y = 0 → Forall (λ x, cmp y x < 0) a → class k a = [].
Proof using CmpOrder0.
  intros Hk Ha. induction Ha as [|x a Hx Ha IH]; [done|]. unfold class in *.
  rewrite filter_cons_False; [done|]. pose proof (cmp_le_lt_trans cmp k y x). lia.
Qed.

Abbreviation merged := (list_merge le).

Lemma class_merged k a b : StronglySorted le a → class k (merged a b) = class k a ++ class k b.
Proof using CmpOrder0.
  intros Ha. revert b. induction Ha as [|x a Ha IHa Hx].
  { intros b. by rewrite list_merge_nil_l. }
  induction b as [|y b IHb]; [by rewrite list_merge_nil_r, app_nil_r|].
  rewrite list_merge_cons. destruct (decide (le x y)) as [Hle|Hgt].
  - change (x :: merged a (y :: b)) with ([x] ++ merged a (y :: b)).
    change (x :: a) with ([x] ++ a). by rewrite !class_app, IHa, app_assoc.
  - change (y :: merged (x :: a) b) with ([y] ++ merged (x :: a) b).
    rewrite class_app, IHb. change (y :: b) with ([y] ++ b). rewrite class_app.
    destruct (decide (cmp k y = 0)) as [Hk|Hk].
    + assert (cmp y x < 0) as Hyx by (unfold le in Hgt; apply cmp_flip; lia).
      rewrite (class_none k y (x :: a)); [done|done|]. constructor; [done|].
      eapply Forall_impl; [exact Hx|]. intros z Hz. by eapply cmp_lt_le_trans.
    + assert (class k [y] = []) as -> by (unfold class; by rewrite filter_cons_False). done.
Qed.

Lemma merged_stable la a lb b :
  stable_sort_of la a → stable_sort_of lb b → stable_sort_of (la ++ lb) (merged a b).
Proof using CmpOrder0.
  intros (Ha & Hpa & Hka) (Hb & Hpb & Hkb). split_and!.
  - apply Sorted_StronglySorted; [apply _|].
    apply Sorted_list_merge; [apply _|by apply StronglySorted_Sorted..].
  - by rewrite merge_Permutation, Hpa, Hpb.
  - intros k. by rewrite class_merged, Hka, Hkb, class_app.
Qed.

Lemma single_stable x : stable_sort_of [x] [x].
Proof. split_and!; [|done..]. repeat constructor. Qed.

(** ** The array sort is one *)
Lemma merge_loop_wp fuel tmp b1 b2 :
  (length b1 + length b2 < fuel)%nat →
  returns (merge_loop fuel tmp b1 b2) (λ '(t, r1, r2),
    t ++ r1 ++ r2 = tmp ++ merged b1 b2 ∧ (r1 = [] ∨ r2 = [])).
Proof.
  revert tmp b1 b2. induction fuel as [|fuel IH]; intros tmp b1 b2 Hf; [lia|]. cbn [merge_loop].
  destruct b1 as [|x b1].
  { cbn. rewrite list_merge_nil_l. auto. }
  destruct b2 as [|y b2].
  { cbn. rewrite app_nil_r. auto. }
  rewrite list_merge_cons. destruct (Z.leb_spec (cmp x y) 0).
  - rewrite decide_True by done. eapply wp_mono; [|apply IH; cbn in *; lia].
    intros [[t r1] r2] [E Hr]. split; [|done]. by rewrite E, <- app_assoc.
  - rewrite decide_False by (unfold le; lia). eapply wp_mono; [|apply IH; cbn in *; lia].
    intros [[t r1] r2] [E Hr]. split; [|done]. by rewrite E, <- app_assoc.
Qed.

Lemma msort_wp fuel b :
  (length b <= fuel)%nat → (0 < fuel)%nat →
  returns (msort_with_tmp fuel b) (stable_sort_of b).
Proof using CmpOrder0.
  revert b. induction fuel as [|fuel IH]; intros b Hf Hf0; [lia|]. cbn [msort_with_tmp].
  destruct (Z.leb_spec (zlen b) 1) as [Hle|Hgt].
  { cbn. destruct b as [|x [|y b]]; [split_and!; [constructor|done..]|apply single_stable|].
    rewrite !zlen_cons in Hle. pose proof (zlen_nonneg b). lia. }
  assert (0 < zlen b / 2 < zlen b) as Hn by (Z.div_mod_to_equations; lia).
  unfold zlen in Hn, Hgt.
  apply wp_bind. eapply wp_mono; [|apply IH; unfold ztake; rewrite ?length_take; unfold zlen in *; lia].
  intros b1 H1. apply wp_bind.
  eapply wp_mono; [|apply IH; unfold zdrop; rewrite ?length_drop; unfold zlen in *; lia].
  intros b2 H2. pose proof (merged_stable _ _ _ _ H1 H2) as Hm. rewrite ztake_zdrop in Hm.
  assert (length b1 + length b2 = length b)%nat as Hlen.
  { destruct H1 as (_ & Hp1 & _), H2 as (_ & Hp2 & _).
    rewrite Hp1, Hp2, <- length_app, ztake_zdrop. done. }
  apply wp_bind. eapply wp_mono; [|apply (merge_loop_wp _ [] b1 b2); lia].
  intros [[t r1] r2] [E Hr]. cbn [wp app] in *. rewrite <- E in Hm.
  destruct (Z.ltb_spec 0 (zlen r1)); [by rewrite <- app_assoc|].
  destruct r1 as [|z r1]; [done|]. rewrite zlen_cons in *. pose proof (zlen_nonneg r1). lia.
Qed.

Lemma git_qsort_s_wp s b :
  zlen b * s < 2 ^ 64 → returns (git_qsort_s s b) (stable_sort_of b).
Proof using CmpOrder0.
  intros Hs. unfold git_qsort_s. eval_leb (2 ^ 64) (zlen b * s).
  destruct (Z.eqb_spec (zlen b) 0) as [E|E].
  - destruct b as [|x b]; [split_and!; [constructor|done..]|].
    rewrite zlen_cons in E. pose proof (zlen_nonneg b). lia.
  - apply msort_wp; [done|]. unfold zlen in E. lia.
Qed.

(** ** The list sort is one *)
Lemma list_merge_loop_eq fuel : ∀ acc x l o other,
  (length (x :: l) + length (o :: other) <= fuel)%nat →
  (cmp x o <= 0 → list_merge_loop fuel acc (x :: l) (o :: other) 1 = Ret (acc ++ merged (x :: l) (o :: other))) ∧
  (cmp x o < 0 → list_merge_loop fuel acc (x :: l) (o :: other) 0 = Ret (acc ++ merged (o :: other) (x :: l))).
Proof using CmpOrder0.
  induction fuel as [|fuel IH]; intros acc x l o other Hf; [cbn in Hf; lia|]. cbn [list_merge_loop].
  split; intros Hc; rewrite list_merge_cons.
  - rewrite decide_True by done. destruct l as [|y l].
    { by rewrite list_merge_nil_l, <- app_assoc. }
    destruct (Z.ltb_spec (cmp y o) 1).
    + rewrite (proj1 (IH (acc ++ [x]) y l o other ltac:(cbn in *; lia))) by lia. by rewrite <- app_assoc.
    + change (Z.lxor 1 1) with 0.
      rewrite (proj2 (IH (acc ++ [x]) o other y l ltac:(cbn in *; lia))) by (apply cmp_flip; lia).
      by rewrite <- app_assoc.
  - assert (0 < cmp o x) as Hox by (by apply cmp_flip).
    rewrite decide_False by (unfold le; lia). destruct l as [|y l].
    { by rewrite list_merge_nil_r, <- app_assoc. }
    destruct (Z.ltb_spec (cmp y o) 0).
    + rewrite (proj2 (IH (acc ++ [x]) y l o other ltac:(cbn in *; lia))) by lia. by rewrite <- app_assoc.
    + change (Z.lxor 0 1) with 1.
      rewrite (proj1 (IH (acc ++ [x]) o other y l ltac:(cbn in *; lia))).
      * by rewrite <- app_assoc.
      * pose proof (cmp_flip y o). pose proof (cmp_flip o y). lia.
Qed.

Lemma list_merge_eq l other : l ≠ [] → other ≠ [] → list_merge_ l other = Ret (merged l other).
Proof using CmpOrder0.
  destruct l as [|x l], other as [|o other]; try done. intros _ _. unfold list_merge_.
  rewrite (rd_znth _ _ x), (rd_znth _ _ o) by done. cbn [obind].
  destruct (Z.leb_spec (cmp x o) 0); cbn [Z.eqb].
  - by rewrite (proj1 (list_merge_loop_eq _ [] x l o other ltac:(done))).
  - by rewrite (proj2 (list_merge_loop_eq (length (x :: l) + length (o :: other)) [] o other x l ltac:(cbn; lia))) by (apply cmp_flip; lia).
Qed.

(** [ranks] from [i] on, with the bits of [m], hold stable sorts of the pieces of
    [pre], the later pieces at the lower positions. *)
Inductive ranks_ok (ranks : list (list A)) : Z → Z → list A → Prop :=
| ranks_zero i : ranks_ok ranks i 0 []
| ranks_even i m pre : 0 < m → ranks_ok ranks (i + 1) m pre → ranks_ok ranks i (2 * m) pre
| ranks_odd i m pre part l :
    0 <= m → znth ranks i = Some l → l ≠ [] → stable_sort_of part l → ranks_ok ranks (i + 1) m pre →
    ranks_ok ranks i (2 * m + 1) (pre ++ part).

Lemma ranks_ok_nonneg ranks i m pre : ranks_ok ranks i m pre → 0 <= m.
Proof. induction 1; lia. Qed.

Lemma ranks_ok_zero ranks i m pre : ranks_ok ranks i m pre → m = 0 → pre = [].
Proof. destruct 1; intros; try lia. done. Qed.

Lemma ranks_ok_half ranks i m pre :
  ranks_ok ranks i m pre → m mod 2 = 0 → ranks_ok ranks (i + 1) (m / 2) pre.
Proof.
  destruct 1; intros Hm.
  - constructor.
  - by replace (2 * m / 2) with m by (Z.div_mod_to_equations; lia).
  - Z.div_mod_to_equations; lia.
Qed.

Lemma ranks_ok_insert ranks i j l m pre :
  0 <= j < i → ranks_ok ranks i m pre → ranks_ok (<[Z.to_nat j := l]> ranks) i m pre.
Proof.
  intros Hj Hr. induction Hr as [i|i m pre Hm Hr IH|i m pre part l' Hm Hl Hne Hst Hr IH].
  - constructor.
  - constructor; [done|apply IH; lia].
  - econstructor; [done| |done|done|apply IH; lia]. by rewrite znth_insert_ne by lia.
Qed.

Lemma ranks_ok_shift ranks i m pre :
  0 <= i → 0 < m → ranks_ok ranks i m pre → ranks_ok ranks 0 (m * 2 ^ i) pre.
Proof.
  intros Hi. revert m. pattern i. apply natlike_ind; [| |done]; clear i Hi.
  - intros m _. by rewrite Z.mul_1_r.
  - intros i Hi IH m Hm Hr. rewrite Z.pow_succ_r by done. replace (m * (2 * 2 ^ i)) with (2 * m * 2 ^ i) by lia.
    apply IH; [lia|]. constructor; [done|]. by rewrite Z.add_1_r.
Qed.

(** What the inner loop leaves: the merge of everything, or a free rank. *)
Lemma rank_loop_wp fuel : ∀ ranks next l part i m pre n,
  ranks_ok ranks i m pre → stable_sort_of part l → l ≠ [] → 0 <= i → m < 2 ^ (Z.of_nat fuel - 1) → 1 <= Z.of_nat fuel →
  n + 1 = (m + 1) * 2 ^ i →
  returns (rank_loop fuel ranks next l i m) (λ r,
    match r with
    | inl l' => next = false ∧ stable_sort_of (pre ++ part) l'
    | inr (j, l') => next = true ∧ 0 <= j ∧ l' ≠ [] ∧ ∃ m' pre' part', stable_sort_of part' l' ∧
        pre' ++ part' = pre ++ part ∧ ranks_ok ranks (j + 1) m' pre' ∧ 0 <= m' ∧ n + 1 = (2 * m' + 1) * 2 ^ j
    end).
Proof using CmpOrder0.
  induction fuel as [|fuel IH]; intros ranks next l part i m pre n Hr Hst Hne Hi Hm Hfu Hn; [lia|].
  pose proof (ranks_ok_nonneg _ _ _ _ Hr) as Hm0. cbn [rank_loop].
  rewrite (land_ones_mod m 1), Z.pow_1_r, Z.shiftr_div_pow2, Z.pow_1_r by done.
  assert (m < 2 ^ Z.of_nat fuel) as Hmf.
  { eapply Z.lt_le_trans; [exact Hm|]. apply Z.pow_le_mono_r; lia. }
  destruct (Z.eqb_spec (m mod 2) 0) as [E|E]; cbn [negb].
  - destruct next.
    { cbn. split_and!; [done..|]. exists (m / 2), pre, part. split_and!; try done.
      - by apply ranks_ok_half.
      - apply Z.div_pos; lia.
      - rewrite Hn. f_equal. Z.div_mod_to_equations; lia. }
    destruct (Z.eqb_spec m 0) as [->|Hmz].
    { cbn. split; [done|]. by rewrite (ranks_ok_zero _ _ _ _ Hr) by done. }
    assert (1 <= Z.of_nat fuel) as Hf1.
    { destruct fuel; [|lia]. change (2 ^ Z.of_nat 0) with 1 in Hmf. lia. }
    eapply wp_mono; [|apply (IH ranks false l part (i + 1) (m / 2) pre ((m / 2 + 1) * 2 ^ (i + 1) - 1))];
      [|by apply ranks_ok_half|done|done|lia| |done|lia].
    + intros [l'|[j l']] H; [done|]. by destruct H.
    + apply Z.div_lt_upper_bound; [lia|]. rewrite <- Z.pow_succ_r by lia.
      replace (Z.succ (Z.of_nat fuel - 1)) with (Z.of_nat fuel) by lia. done.
  - destruct Hr as [i|i m pre Hm' Hr|i m pre part' l' Hm' Hl' Hne' Hst' Hr].
    { done. }
    { exfalso. Z.div_mod_to_equations; lia. }
    rewrite (rd_znth _ _ _ Hl'). cbn [obind]. rewrite list_merge_eq by done. cbn [obind].
    assert (1 <= Z.of_nat fuel) as Hf1.
    { destruct fuel; [|lia]. change (2 ^ Z.of_nat 0) with 1 in Hmf. lia. }
    replace ((2 * m + 1) / 2) with m by (Z.div_mod_to_equations; lia).
    eapply wp_mono; [|apply (IH ranks next _ (part' ++ part) (i + 1) m pre n)].
    + cbv beta. rewrite app_assoc. done.
    + done.
    + by apply merged_stable.
    + destruct l', l; try done. rewrite list_merge_cons. by destruct (decide _).
    + lia.
    + assert (2 * m + 1 < 2 * 2 ^ (Z.of_nat fuel - 1)); [|lia].
      rewrite <- Z.pow_succ_r by lia. by replace (Z.succ (Z.of_nat fuel - 1)) with (Z.of_nat fuel) by lia.
    + done.
    + rewrite Hn, Z.pow_add_r by lia. lia.
Qed.

Lemma list_sort_loop_wp next : ∀ ranks n x pre,
  zlen ranks = 64 → ranks_ok ranks 0 n pre → 0 <= n → n + 1 + zlen next < 2 ^ 64 →
  returns (list_sort_loop ranks n x next) (stable_sort_of (pre ++ x :: next)).
Proof using CmpOrder0.
  induction next as [|y next IH]; intros ranks n x pre Hl Hr Hn Hmax; cbn [list_sort_loop].
  - apply wp_bind. change (zlen ([] : list A)) with 0 in Hmax.
    eapply wp_mono; [|apply (rank_loop_wp 66 ranks false [x] [x] 0 n pre n); try done; [apply single_stable|lia|lia]].
    intros [l|[j l]] H; [|by destruct H]. cbn. by destruct H.
  - rewrite zlen_cons in Hmax. pose proof (zlen_nonneg next).
    apply wp_bind. eapply wp_mono;
      [|apply (rank_loop_wp 66 ranks true [x] [x] 0 n pre n); try done; [apply single_stable|lia|lia]].
    intros [l|[j l]] H'; [by destruct H'|]. destruct H' as (_ & Hj & Hne & m & pre' & part & Hst & Hpp & Hr' & Hm & En).
    assert (j < 64) as Hj64.
    { apply (Z.pow_lt_mono_r_iff 2); [lia|lia|]. nia. }
    apply wp_bind, wr_wp; [lia|]. unfold u64. rewrite Z.mod_small by lia.
    replace (pre ++ x :: y :: next) with ((pre ++ [x]) ++ y :: next) by (by rewrite <- app_assoc).
    rewrite <- Hpp. apply IH; [by rewrite zlen_insert| |lia|lia].
    rewrite En. apply ranks_ok_shift; [done|lia|]. econstructor; [done| |done|done|].
    + apply znth_insert_eq. lia.
    + apply ranks_ok_insert; [lia|done].
Qed.

Lemma list_sort_wp l : zlen l < 2 ^ 64 → returns (list_sort l) (stable_sort_of l).
Proof using CmpOrder0.
  intros Hl. destruct l as [|x next]; cbn [list_sort].
  - split_and!; [constructor|done..].
  - rewrite zlen_cons in Hl. apply (list_sort_loop_wp next _ 0 x []); [done|constructor|done|lia].
Qed.

End sort.
End Sort.
