(* ===== verification/Revindex.v ===== *)
(** * The reverse index of a pack (pack-revindex.c)

    The index orders the objects by name; the reverse index orders them by their
    offset in the pack.  [sort_revindex] is a radix sort with 16-bit digits;
    [create_pack_revindex] fills the table from the index file, and
    [offset_to_pack_pos] searches it. *)
From stdpp Require Import prelude.
From S2P Require Import Prelude Order Endian Hashfile HashLookup PackHeader PackIndex Sort.
Import Endian Hashfile PackIndex.

Module Revindex.

Record revindex_entry := Revindex_entry { offset : Z; nr : Z }.

Definition DIGIT_SIZE : Z := 16.
Definition BUCKETS : Z := 65536.

(** [BUCKET_FOR(a, i, bits)] of the element [a[i]]. *)
Definition BUCKET_FOR (e : revindex_entry) (bits : Z) : Z := Z.land (Z.shiftr (offset e) bits) (BUCKETS - 1).

(** [for (i = 0; i < n; i++) pos[BUCKET_FOR(from, i, bits)]++] *)
Fixpoint count_loop (k : nat) (from : list revindex_entry) (bits i : Z) (pos : list Z) : outcome (list Z) :=
  match k with
  | O => Ret pos
  | S k =>
      let! e := rd from i in
      let b := BUCKET_FOR e bits in
      let! c := rd pos b in
      let! pos := wr pos b (u32 (c + 1)) in
      count_loop k from bits (i + 1) pos
  end.

(** [for (i = 1; i < BUCKETS; i++) pos[i] += pos[i-1]] *)
Fixpoint cumulate (prev : Z) (pos : list Z) : list Z :=
  match pos with
  | [] => []
  | c :: pos => let c := u32 (c + prev) in c :: cumulate c pos
  end.

(** [for (i = n - 1; i != UINT_MAX; i--) to[--pos[BUCKET_FOR(from, i, bits)]] = from[i]] *)
Fixpoint fill_loop (k : nat) (from : list revindex_entry) (bits : Z) (pos : list Z) (to : list revindex_entry)
  : outcome (list revindex_entry) :=
  match k with
  | O => Ret to
  | S k =>
      let! e := rd from (Z.of_nat k) in
      let b := BUCKET_FOR e bits in
      let! c := rd pos b in
      let c := u32 (c - 1) in
      let! pos := wr pos b c in
      let! to := wr to c e in
      fill_loop k from bits pos to
  end.

(** One round, from [from] to [to]. *)
Definition radix_pass (n : nat) (from to : list revindex_entry) (bits : Z) : outcome (list revindex_entry) :=
  let pos := zrep BUCKETS 0 in
  let! pos := count_loop n from bits 0 pos in
  let pos := cumulate 0 pos in
  fill_loop n from bits pos to.

(** The outer loop, which swaps [from] and [to]; it ends with [from].  A shift by
    the width of [off_t] is not defined. *)
Fixpoint sort_loop (fuel : nat) (n : nat) (from to : list revindex_entry) (max bits : Z) : outcome (list revindex_entry) :=
  match fuel with
  | O => NoFuel
  | S fuel =>
      if 64 <=? bits then UB
      else if Z.shiftr max bits =? 0 then Ret from
      else
        let! to := radix_pass n from to bits in
        sort_loop fuel n to from max (bits + DIGIT_SIZE)
  end.

(** Whether the data ended in [entries] or had to be copied back, it is in
    [entries] at the end; [tmp] is the fresh memory of [n] elements. *)
Definition sort_revindex (entries : list revindex_entry) (n max : Z) (tmp : list revindex_entry) : outcome (list revindex_entry) :=
  let! from := rd_range entries 0 n in
  let! sorted := sort_loop 6 (Z.to_nat n) from tmp max 0 in
  Ret (sorted ++ zdrop n entries).

Section create.
Context {algop : HashAlgo}.

(** The loop over a version 2 index; [off_64] is a byte position. *)
Fixpoint read_offsets_v2 (k : nat) (index : list Z) (off_32 off_64 i : Z) : outcome (list revindex_entry) :=
  match k with
  | O => Ret []
  | S k =>
      let! off := rd_be32 index off_32 in
      if Z.land off 0x80000000 =? 0 then
        let! r := read_offsets_v2 k index (off_32 + 4) off_64 (i + 1) in
        Ret (Revindex_entry off i :: r)
      else
        let! off := rd_be64 index off_64 in
        let! r := read_offsets_v2 k index (off_32 + 4) (off_64 + 8) (i + 1) in
        Ret (Revindex_entry (PackHeader.i64 off) i :: r)
  end.
(** Version 1: the position is computed with 32-bit arithmetic. *)
Fixpoint read_offsets_v1 (k : nat) (index : list Z) (i : Z) : outcome (list revindex_entry) :=
  match k with
  | O => Ret []
  | S k =>
      let! hl := rd_be32 index (4 * 256 + u32 ((rawsz + 4) * i)) in
      let! r := read_offsets_v1 k index (i + 1) in
      Ret (Revindex_entry hl i :: r)
  end.

(** The new [p->revindex]. *)
Definition create_pack_revindex (p : packed_git) (tmp : list revindex_entry) : outcome (list revindex_entry) :=
  match index_data p with
  | None => UB
  | Some index =>
      let num_ent := num_objects p in
      let! entries :=
        if 1 <? index_version p then
          let off_32 := 4 * 256 + 8 + num_ent * (rawsz + 4) in
          read_offsets_v2 (Z.to_nat num_ent) index off_32 (off_32 + 4 * num_ent) 0
        else read_offsets_v1 (Z.to_nat num_ent) index 0 in
      sort_revindex (entries ++ [Revindex_entry (pack_size p - rawsz) (u32 (-1))]) num_ent (pack_size p) tmp
  end.
End create.

(** Accesses to the table in memory. *)
Definition pack_pos_to_index (p : packed_git) (revindex : list revindex_entry) (pos : Z) : outcome Z :=
  if num_objects p <=? pos then Die
  else let! e := rd revindex pos in Ret (nr e).
Definition pack_pos_to_offset (p : packed_git) (revindex : list revindex_entry) (pos : Z) : outcome Z :=
  if num_objects p <? pos then Die
  else let! e := rd revindex pos in Ret (offset e).

(** [None] is the result -1. *)
Fixpoint pos_loop (fuel : nat) (p : packed_git) (revindex : list revindex_entry) (ofs lo hi : Z) : outcome (option Z) :=
  match fuel with
  | O => NoFuel
  | S fuel =>
      let mi := u32 (lo + (hi - lo) / 2) in
      let! got := pack_pos_to_offset p revindex mi in
      if got =? ofs then Ret (Some mi)
      else
        let '(lo, hi) := if ofs <? got then (lo, mi) else (u32 (mi + 1), hi) in
        if lo <? hi then pos_loop fuel p revindex ofs lo hi else Ret None
  end.
Definition offset_to_pack_pos (p : packed_git) (revindex : list revindex_entry) (ofs : Z) : outcome (option Z) :=
  pos_loop (S (Z.to_nat (num_objects p + 1))) p revindex ofs 0 (u32 (num_objects p + 1)).

(** ** Tables indexed by a range *)
Section tables.
Context {A : Type}.
Implicit Types (g : Z → A).

Lemma znth_table g n i : 0 <= i < n → znth (g <$> seqZ 0 n) i = Some (g i).
Proof.
  intros Hi. unfold znth. rewrite (proj2 (Z.leb_le 0 i)) by lia. rewrite list_lookup_fmap.
  assert (seqZ 0 n !! Z.to_nat i = Some i) as -> by (apply lookup_seqZ; lia). done.
Qed.
Lemma zlen_table g n : 0 <= n → zlen (g <$> seqZ 0 n) = n.
Proof. intros. unfold zlen. rewrite length_fmap, length_seqZ. lia. Qed.
Lemma wr_table g n i v :
  0 <= i < n → wr (g <$> seqZ 0 n) i v = Ret ((λ j, if decide (j = i) then v else g j) <$> seqZ 0 n).
Proof.
  intros Hi. rewrite wr_ok by (rewrite zlen_table; lia). f_equal. apply zlist_eq; [rewrite zlen_insert, !zlen_table; lia|].
  intros j Hj. rewrite zlen_insert, zlen_table in Hj by lia. rewrite (znth_table _ n j) by lia. destruct (decide (j = i)) as [->|].
  - apply znth_insert_eq. rewrite zlen_table; lia.
  - rewrite znth_insert_ne, znth_table by lia. done.
Qed.
Lemma zrep_table n (v : A) : zrep n v = (λ _, v) <$> seqZ 0 n.
Proof.
  destruct (decide (0 <= n)).
  - apply zlist_eq; [by rewrite zlen_zrep, zlen_table by lia|]. intros i Hi. rewrite zlen_zrep in Hi by lia.
    rewrite znth_table by lia.
    unfold znth, zrep. rewrite (proj2 (Z.leb_le 0 i)) by lia. apply lookup_replicate_2. lia.
  - unfold zrep. rewrite seqZ_nil by lia. by rewrite Z2Nat.nonpos by lia.
Qed.
End tables.

(** ** One pass is a bucket sort *)
Section pass.
Context (bits n : Z) (from : list revindex_entry).
Context (Hn : zlen from = n) (Hn32 : n < 2 ^ 32).
Local Abbreviation digit := (λ e, BUCKET_FOR e bits).
Implicit Types (e : revindex_entry) (l : list revindex_entry).

Lemma digit_range e : 0 <= BUCKET_FOR e bits < BUCKETS.
Proof.
  unfold BUCKET_FOR, BUCKETS. rewrite (land_ones_mod _ 16) by (done || lia). apply Z.mod_pos_bound. lia.
Qed.

(** The elements of one bucket, in order, and those of the first buckets, bucket
    by bucket. *)
Definition bucket l (b : Z) : list revindex_entry := filter (λ e, BUCKET_FOR e bits = b) l.
Definition upto l (b : Z) : list revindex_entry := concat (bucket l <$> seqZ 0 b).

Lemma upto_succ l b : 0 <= b → upto l (b + 1) = upto l b ++ bucket l b.
Proof.
  intros Hb. unfold upto. rewrite (seqZ_app 0 b 1) by lia. rewrite fmap_app, concat_app. f_equal.
  replace (seqZ (0 + b) 1) with [b] by (rewrite seqZ_cons by lia; rewrite Z.add_0_l, seqZ_nil by lia; done).
  cbn. by rewrite app_nil_r.
Qed.

Lemma bucketed_perm l : upto l BUCKETS ≡ₚ l.
Proof.
  assert (∀ b, 0 <= b → upto l b ≡ₚ filter (λ e, BUCKET_FOR e bits < b) l) as H.
  { intros b Hb. pattern b. apply natlike_ind; [| |done]; clear b Hb.
    - cbn. rewrite filter_none_in; [done|]. intros e _. pose proof (digit_range e). lia.
    - intros b Hb IH. unfold Z.succ. rewrite upto_succ, IH by done. unfold bucket. clear IH.
      induction l as [|e l IH]; [done|]. rewrite !filter_cons. destruct (decide (BUCKET_FOR e bits < b)).
      + rewrite decide_False, decide_True by lia. cbn. by rewrite IH.
      + destruct (decide (BUCKET_FOR e bits = b)).
        * rewrite decide_True by lia. by rewrite <- Permutation_middle, IH.
        * rewrite decide_False by lia. done. }
  rewrite H by (unfold BUCKETS; lia). rewrite filter_all_in; [done|]. intros e _. apply digit_range.
Qed.
Lemma zlen_perm {A} (l l' : list A) : l ≡ₚ l' → zlen l = zlen l'.
Proof. intros HP. unfold zlen. by rewrite HP. Qed.

Lemma upto_le l b : 0 <= b <= BUCKETS → zlen (upto l b) <= zlen l.
Proof.
  intros Hb. rewrite <- (zlen_perm _ _ (bucketed_perm l)). unfold upto.
  replace BUCKETS with (b + (BUCKETS - b)) by lia. rewrite (seqZ_app 0 b) by lia.
  rewrite fmap_app, concat_app, zlen_app. zlen_pos. lia.
Qed.

Lemma count_loop_ok k i :
  0 <= i → i + Z.of_nat k = n →
  count_loop k from bits i ((λ b, zlen (bucket (ztake i from) b)) <$> seqZ 0 BUCKETS) =
  Ret ((λ b, zlen (bucket from b)) <$> seqZ 0 BUCKETS).
Proof.
  revert i. induction k as [|k IH]; intros i Hi Hk.
  { cbn [count_loop]. rewrite ztake_all by lia. done. }
  cbn [count_loop]. destruct (znth_is_Some from i) as [e He]; [lia|]. rewrite (rd_znth _ _ _ He). cbn [obind].
  pose proof (digit_range e). rewrite (rd_znth _ _ _ (znth_table _ _ _ (digit_range e))). cbn [obind].
  rewrite wr_table by done. cbn [obind]. rewrite <- (IH (i + 1)) by lia. f_equal. apply fmap_ext_in.
  intros b Hb. rewrite (ztake_succ _ _ _ Hi He). unfold bucket. rewrite filter_app, filter_cons.
  destruct (decide (b = BUCKET_FOR e bits)) as [->|Hne].
  - rewrite decide_True by done. rewrite zlen_app. change (zlen (e :: filter _ [])) with 1.
    pose proof (zlen_filter_le (λ e0, BUCKET_FOR e0 bits = BUCKET_FOR e bits) (ztake i from)).
    rewrite zlen_ztake in * by lia. zlen_pos. unfold u32. apply Z.mod_small. lia.
  - rewrite decide_False by done. by rewrite filter_nil, app_nil_r.
Qed.

Lemma cumulate_ok m b :
  0 <= b → b + Z.of_nat m = BUCKETS →
  cumulate (zlen (upto from b)) ((λ c, zlen (bucket from c)) <$> seqZ b (Z.of_nat m)) =
  (λ c, zlen (upto from (c + 1))) <$> seqZ b (Z.of_nat m).
Proof.
  revert b. induction m as [|m IH]; intros b Hb Hm; [done|].
  rewrite (seqZ_cons b) by lia. cbn [fmap list_fmap cumulate].
  pose proof (upto_le from (b + 1) ltac:(lia)) as Hle. rewrite upto_succ, zlen_app in Hle by lia.
  replace (u32 (zlen (bucket from b) + zlen (upto from b))) with (zlen (upto from (b + 1))).
  2:{ rewrite upto_succ, zlen_app by lia. unfold u32. zlen_pos. rewrite Z.mod_small; lia. }
  f_equal. replace (Z.pred (Z.of_nat (S m))) with (Z.of_nat m) by lia. replace (Z.succ b) with (b + 1) by lia.
  apply IH; lia.
Qed.

(** While the buckets are filled from their ends, [J b] is the part of bucket [b]
    that still waits for its elements. *)
Definition filling (J : Z → list revindex_entry) (k : Z) : list (list revindex_entry) :=
  (λ b, J b ++ bucket (zdrop k from) b) <$> seqZ 0 BUCKETS.

Lemma bucket_split k b : bucket from b = bucket (ztake k from) b ++ bucket (zdrop k from) b.
Proof. unfold bucket. by rewrite <- filter_app, ztake_zdrop. Qed.

Lemma table_split {A} (g : Z → A) d :
  0 <= d < BUCKETS → g <$> seqZ 0 BUCKETS = (g <$> seqZ 0 d) ++ g d :: (g <$> seqZ (d + 1) (BUCKETS - d - 1)).
Proof.
  intros Hd. replace BUCKETS with (d + (BUCKETS - d)) at 1 by lia. rewrite (seqZ_app 0 d), fmap_app by lia. f_equal.
  rewrite Z.add_0_l, (seqZ_cons d) by lia. cbn [fmap list_fmap].
  replace (Z.succ d) with (d + 1) by lia. by replace (Z.pred (BUCKETS - d)) with (BUCKETS - d - 1) by lia.
Qed.

Lemma zlen_concat_ext {A} (g h : Z → list A) i m :
  (∀ b, zlen (g b) = zlen (h b)) → zlen (concat (g <$> seqZ i m)) = zlen (concat (h <$> seqZ i m)).
Proof.
  intros Hgh. induction (seqZ i m) as [|b s IH]; [done|]. cbn [fmap list_fmap concat]. rewrite !zlen_app, Hgh.
  by rewrite IH.
Qed.

Lemma fill_loop_ok k J :
  Z.of_nat k <= n → (∀ b, zlen (J b) = zlen (bucket (ztake (Z.of_nat k) from) b)) →
  fill_loop k from bits ((λ b, zlen (upto from b) + zlen (J b)) <$> seqZ 0 BUCKETS) (concat (filling J (Z.of_nat k))) =
  Ret (upto from BUCKETS).
Proof.
  revert J. induction k as [|k IH]; intros J Hk HJ.
  { cbn [fill_loop]. f_equal. unfold filling, upto. f_equal. apply fmap_ext_in. intros b _.
    destruct (J b) as [|x t] eqn:E; [done|]. specialize (HJ b). rewrite E, zlen_cons in HJ.
    change (bucket (ztake (Z.of_nat 0) from) b) with (@nil revindex_entry) in HJ. zlia. }
  cbn [fill_loop]. destruct (znth_is_Some from (Z.of_nat k)) as [e He]; [lia|]. rewrite (rd_znth _ _ _ He). cbn [obind].
  set (d := BUCKET_FOR e bits). pose proof (digit_range e) as Hd. fold d in Hd.
  rewrite (rd_znth _ _ _ (znth_table _ _ _ Hd)). cbn [obind].
  replace (Z.of_nat (S k)) with (Z.of_nat k + 1) in HJ |- * by lia.
  assert (∀ b, bucket (ztake (Z.of_nat k + 1) from) b = bucket (ztake (Z.of_nat k) from) b ++ bucket [e] b) as Htake.
  { intros b. rewrite (ztake_succ from (Z.of_nat k) e ltac:(lia) He). unfold bucket. apply filter_app. }
  assert (∀ b, bucket (zdrop (Z.of_nat k) from) b = bucket [e] b ++ bucket (zdrop (Z.of_nat k + 1) from) b) as Hdrop.
  { intros b. rewrite (zdrop_cons from (Z.of_nat k) e ltac:(lia) He). unfold bucket.
    change (e :: zdrop (Z.of_nat k + 1) from) with ([e] ++ zdrop (Z.of_nat k + 1) from). apply filter_app. }
  assert (bucket [e] d = [e]) as Hed by (unfold bucket; by rewrite filter_cons, decide_True).
  assert (∀ b, b ≠ d → bucket [e] b = []) as Heb by (intros; unfold bucket; by rewrite filter_cons, decide_False).
  assert (∃ t x, J d = t ++ [x] ∧ zlen t = zlen (bucket (ztake (Z.of_nat k) from) d)) as (t & x & EJ & Ht).
  { pose proof (HJ d) as Hjd. rewrite Htake, Hed, zlen_app in Hjd. change (zlen [e]) with 1 in Hjd. zlen_pos.
    destruct (J d) as [|y t' _] using rev_ind; [zlia|]. exists t', y. split; [done|]. zlia. }
  pose proof (upto_le from (d + 1) ltac:(lia)) as Hup. rewrite upto_succ, zlen_app in Hup by lia.
  rewrite (bucket_split (Z.of_nat k + 1) d), zlen_app, <- HJ, EJ, zlen_app in Hup. change (zlen [x]) with 1 in Hup. zlen_pos.
  rewrite EJ, zlen_app. change (zlen [x]) with 1.
  replace (u32 (zlen (upto from d) + (zlen t + 1) - 1)) with (zlen (upto from d) + zlen t) by (unfold u32; rewrite Z.mod_small; lia).
  rewrite wr_table by done. cbn [obind].
  unfold filling. rewrite (table_split _ d Hd), concat_app. cbn [concat]. rewrite EJ.
  rewrite (wr_at _ (concat ((λ b, J b ++ bucket (zdrop (Z.of_nat k + 1) from) b) <$> seqZ 0 d) ++ t) x
    (bucket (zdrop (Z.of_nat k + 1) from) d ++ concat ((λ b, J b ++ bucket (zdrop (Z.of_nat k + 1) from) b) <$> seqZ (d + 1) (BUCKETS - d - 1))));
    [|solve_app|].
  2:{ rewrite zlen_app. f_equal. apply zlen_concat_ext. intros b.
      rewrite (bucket_split (Z.of_nat k + 1) b), !zlen_app, HJ. done. }
  cbn [obind]. rewrite <- (IH (λ b, if decide (b = d) then t else J b)).
  - f_equal.
    + apply fmap_ext_in. intros b _. destruct (decide (b = d)) as [->|]; done.
    + unfold filling. rewrite (table_split _ d Hd), concat_app. cbn [concat]. rewrite decide_True, Hdrop, Hed by done.
      assert (∀ i m, (d < i ∨ i + m <= d) → concat ((λ b, J b ++ bucket (zdrop (Z.of_nat k + 1) from) b) <$> seqZ i m) =
        concat ((λ b, (if decide (b = d) then t else J b) ++ bucket (zdrop (Z.of_nat k) from) b) <$> seqZ i m)) as Hext.
      { intros i m Hi. f_equal. apply fmap_ext_in. intros b Hb%elem_of_seqZ.
        rewrite decide_False, Hdrop, Heb by lia. done. }
      rewrite (Hext 0 d), (Hext (d + 1)) by lia. solve_app.
  - lia.
  - intros b. destruct (decide (b = d)) as [->|Hne]; [done|]. rewrite HJ, Htake, Heb, app_nil_r by done. done.
Qed.

Lemma bucket_out l b : ¬ 0 <= b < BUCKETS → bucket l b = [].
Proof. intros Hb. unfold bucket. apply filter_none_in. intros e _ <-. apply Hb, digit_range. Qed.

Lemma slices (to : list revindex_entry) b :
  zlen to = n → 0 <= b <= BUCKETS →
  concat ((λ c, zslice (zlen (upto from c)) (zlen (bucket from c)) to) <$> seqZ 0 b) = ztake (zlen (upto from b)) to.
Proof.
  intros Hto [Hb HB]. revert HB. pattern b. apply natlike_ind; [done| |done]; clear b Hb.
  intros b Hb IH HB. unfold Z.succ in *. rewrite (seqZ_app 0 b 1), fmap_app, concat_app, IH by lia.
  replace (seqZ (0 + b) 1) with [b] by (rewrite seqZ_cons by lia; rewrite Z.add_0_l, seqZ_nil by lia; done).
  cbn [fmap list_fmap concat]. rewrite app_nil_r, upto_succ, zlen_app by lia.
  pose proof (upto_le from (b + 1) ltac:(lia)) as Hle. rewrite upto_succ, zlen_app in Hle by lia. zlen_pos.
  unfold ztake, zdrop, zslice. rewrite Z2Nat.inj_add by lia. unfold ztake, zdrop.
  rewrite <- (take_drop (Z.to_nat (zlen (upto from b))) to) at 3. rewrite take_app_add'; [done|].
  rewrite length_take. unfold zlen in *. lia.
Qed.

Lemma count_loop_all :
  count_loop (Z.to_nat n) from bits 0 (zrep BUCKETS 0) = Ret ((λ b, zlen (bucket from b)) <$> seqZ 0 BUCKETS).
Proof.
  assert (0 <= n) by (zlen_pos; lia). rewrite <- (count_loop_ok (Z.to_nat n) 0) by lia.
  rewrite zrep_table. apply (f_equal (count_loop (Z.to_nat n) from bits 0)), fmap_ext_in. done.
Qed.
Lemma cumulate_all :
  cumulate 0 ((λ b, zlen (bucket from b)) <$> seqZ 0 BUCKETS) = (λ b, zlen (upto from (b + 1))) <$> seqZ 0 BUCKETS.
Proof.
  assert (Z.of_nat (Z.to_nat BUCKETS) = BUCKETS) as E by (unfold BUCKETS; lia).
  pose proof (cumulate_ok (Z.to_nat BUCKETS) 0 ltac:(lia) ltac:(lia)) as Hc. rewrite E in Hc. exact Hc.
Qed.

(** Any memory of the right size can be cut into the waiting buckets. *)
Definition waiting (to : list revindex_entry) (b : Z) : list revindex_entry :=
  if decide (0 <= b < BUCKETS) then zslice (zlen (upto from b)) (zlen (bucket from b)) to else [].

Lemma zlen_waiting to b : zlen to = n → zlen (waiting to b) = zlen (bucket from b).
Proof.
  intros Hto. unfold waiting. destruct (decide _) as [Hb|Hb]; [|by rewrite bucket_out].
  pose proof (upto_le from (b + 1) ltac:(lia)) as Hle. rewrite upto_succ, zlen_app in Hle by lia. zlen_pos.
  rewrite zlen_zslice; lia.
Qed.
Lemma zlen_upto_all : zlen (upto from BUCKETS) = n.
Proof. rewrite <- Hn. apply zlen_perm, bucketed_perm. Qed.
Lemma concat_waiting to : zlen to = n → concat (filling (waiting to) n) = to.
Proof.
  intros Hto. rewrite <- (ztake_all to n) at 2 by lia. rewrite <- zlen_upto_all at 2.
  rewrite <- (slices to BUCKETS Hto) by (unfold BUCKETS; lia).
  unfold filling. rewrite zdrop_all by lia. apply (f_equal (@concat revindex_entry)), fmap_ext_in.
  intros b Hb%elem_of_seqZ. unfold waiting. rewrite decide_True by lia. apply app_nil_r.
Qed.

Lemma radix_pass_ok to : zlen to = n → radix_pass (Z.to_nat n) from to bits = Ret (upto from BUCKETS).
Proof.
  intros Hto. unfold radix_pass. assert (Z.of_nat (Z.to_nat n) = n) as En by (zlen_pos; lia).
  rewrite count_loop_all. cbn [obind]. rewrite cumulate_all.
  rewrite <- (concat_waiting to Hto) at 1. rewrite <- (fill_loop_ok (Z.to_nat n) (waiting to)); rewrite En.
  - apply (f_equal2 (fill_loop (Z.to_nat n) from bits)); [|done].
    apply fmap_ext_in. intros b Hb%elem_of_seqZ. rewrite zlen_waiting, upto_succ, zlen_app by (done || lia). done.
  - lia.
  - intros b. rewrite zlen_waiting, ztake_all by (done || lia). done.
Qed.
End pass.

(** ** The passes sort *)
Definition key (m : Z) (e : revindex_entry) : Z := offset e mod 2 ^ m.
Definition cmp_key (m : Z) (a b : revindex_entry) : Z := key m a - key m b.
Definition cmp_offset (a b : revindex_entry) : Z := offset a - offset b.
#[export] Instance cmp_key_order m : CmpOrder (cmp_key m).
Proof. split; unfold cmp_key; lia. Qed.
#[export] Instance cmp_offset_order : CmpOrder cmp_offset.
Proof. split; unfold cmp_offset; lia. Qed.

Lemma key_split m e : 0 <= m → key (m + DIGIT_SIZE) e = BUCKET_FOR e m * 2 ^ m + key m e ∧ 0 <= key m e < 2 ^ m.
Proof.
  intros Hm. assert (0 < 2 ^ m) by (apply Z.pow_pos_nonneg; lia). unfold key, BUCKET_FOR, BUCKETS, DIGIT_SIZE.
  split; [|by apply Z.mod_pos_bound].
  rewrite (land_ones_mod _ 16) by (done || lia). rewrite Z.shiftr_div_pow2 by lia.
  rewrite Z.pow_add_r by lia. rewrite Z.rem_mul_r by lia. lia.
Qed.

Section step.
Context (m : Z) (Hm : 0 <= m).
Implicit Types (e : revindex_entry) (l E : list revindex_entry).

Lemma elem_of_upto l b e : 0 <= b → e ∈ upto m l b → e ∈ l ∧ BUCKET_FOR e m < b.
Proof.
  intros Hb. revert e. pattern b. apply natlike_ind; [| |done]; clear b Hb.
  { intros e. cbn. set_solver. }
  intros b Hb IH e. unfold Z.succ. rewrite upto_succ by done. intros [He|He]%elem_of_app.
  - apply IH in He. intuition lia.
  - unfold bucket in He. apply list_elem_of_filter in He as [<- He]. split; [done|lia].
Qed.

Lemma upto_sorted l b :
  0 <= b → StronglySorted (λ a c, cmp_key m a c <= 0) l →
  StronglySorted (λ a c, cmp_key (m + DIGIT_SIZE) a c <= 0) (upto m l b).
Proof.
  intros Hb Hl. pattern b. apply natlike_ind; [constructor| |done]; clear b Hb.
  intros b Hb IH. unfold Z.succ. rewrite upto_succ by done. apply StronglySorted_app_2; [|done|].
  - intros x y Hx Hy. apply elem_of_upto in Hx as [_ Hx]; [|done]. unfold bucket in Hy.
    apply list_elem_of_filter in Hy as [Hy _]. unfold cmp_key.
    destruct (key_split m x Hm) as [-> ?], (key_split m y Hm) as [-> ?]. nia.
  - eapply StronglySorted_impl_in; [|unfold bucket; by apply StronglySorted_filter_sub].
    intros x y Hx Hy Hxy. unfold bucket in *. apply list_elem_of_filter in Hx as [Hx _], Hy as [Hy _].
    unfold cmp_key in *. destruct (key_split m x Hm) as [-> ?], (key_split m y Hm) as [-> ?]. rewrite Hx, Hy. lia.
Qed.

Lemma upto_class k l b :
  0 <= b → Sort.class (cmp_key (m + DIGIT_SIZE)) k (upto m l b) =
  if decide (BUCKET_FOR k m < b) then Sort.class (cmp_key (m + DIGIT_SIZE)) k l else [].
Proof.
  intros Hb. pattern b. apply natlike_ind; [| |done]; clear b Hb.
  { rewrite decide_False; [done|]. pose proof (digit_range m k). lia. }
  intros b Hb IH. unfold Z.succ. rewrite upto_succ, Sort.class_app, IH by done. clear IH.
  assert (∀ e, cmp_key (m + DIGIT_SIZE) k e = 0 → BUCKET_FOR e m = BUCKET_FOR k m) as Hdig.
  { intros e. unfold cmp_key. destruct (key_split m k Hm) as [-> ?], (key_split m e Hm) as [-> ?]. nia. }
  unfold Sort.class, bucket. rewrite list_filter_filter.
  destruct (decide (BUCKET_FOR k m < b)).
  - rewrite (decide_True (P := BUCKET_FOR k m < b + 1)) by lia. rewrite (filter_none_in (λ x, cmp_key (m + DIGIT_SIZE) k x = 0 ∧ BUCKET_FOR x m = b) l); [apply app_nil_r|].
    intros x _ [H1%Hdig H2]. lia.
  - destruct (decide (BUCKET_FOR k m = b)).
    + rewrite decide_True by lia. cbn. apply filter_ext_in. intros x _. split; [tauto|]. intros Hx. split; [done|].
      apply Hdig in Hx. lia.
    + rewrite decide_False by lia. cbn. apply filter_none_in. intros x _ [H1%Hdig H2]. lia.
Qed.

Lemma radix_step E l :
  Sort.stable_sort_of (cmp_key m) E l → Sort.stable_sort_of (cmp_key (m + DIGIT_SIZE)) E (upto m l BUCKETS).
Proof.
  intros (Hs & HP & Hc). split_and!.
  - apply upto_sorted; [done|exact Hs].
  - by rewrite bucketed_perm.
  - intros k. rewrite upto_class by done. rewrite decide_True by apply digit_range.
    assert (∀ l', Sort.class (cmp_key (m + DIGIT_SIZE)) k l' =
      filter (λ x, cmp_key (m + DIGIT_SIZE) k x = 0) (Sort.class (cmp_key m) k l')) as Hsub.
    { intros l'. unfold Sort.class. rewrite list_filter_filter. apply filter_ext_in. intros x _. split; [|tauto].
      intros Hx. split; [done|]. revert Hx. unfold cmp_key.
      destruct (key_split m k Hm) as [-> ?], (key_split m x Hm) as [-> ?]. intros Hx.
      assert (BUCKET_FOR k m = BUCKET_FOR x m) as E' by nia. rewrite E' in Hx. lia. }
    by rewrite !Hsub, Hc.
Qed.
End step.

Lemma stable_sort_ext {A} (c c' : A → A → Z) (E l : list A) :
  (∀ a b, a ∈ E → b ∈ E → c a b = c' a b) →
  StronglySorted (λ a b, c a b <= 0) l → l ≡ₚ E → StronglySorted (λ a b, c' a b <= 0) l.
Proof.
  intros Hc Hs HP. eapply StronglySorted_impl_in; [|exact Hs]. intros a b Ha Hb. cbv beta. rewrite Hc; [done|by rewrite <- HP..].
Qed.

(** Once the remaining digits of the largest offset are zero, so are those of all. *)
Lemma sort_done bits E l max :
  0 <= bits → (∀ e, e ∈ E → 0 <= offset e <= max) → Z.shiftr max bits = 0 →
  Sort.stable_sort_of (cmp_key bits) E l → Sort.stable_sort_of cmp_offset E l.
Proof.
  intros Hb HE Hmax (Hs & HP & Hc). assert (0 < 2 ^ bits) by (apply Z.pow_pos_nonneg; lia).
  rewrite Z.shiftr_div_pow2 in Hmax by done.
  assert (∀ e, e ∈ E → 0 <= offset e < 2 ^ bits) as Hlt.
  { intros e He. pose proof (HE e He).
    destruct (Z.div_small_iff max (2 ^ bits)) as [Hd _]; [lia|]. specialize (Hd Hmax). lia. }
  assert (∀ e, 0 <= offset e < 2 ^ bits → key bits e = offset e) as Hkey by (intros; by apply Z.mod_small).
  split_and!; [|done|].
  - eapply (stable_sort_ext (cmp_key bits)); [|exact Hs|done]. intros a b Ha Hb'. unfold cmp_key, cmp_offset. by rewrite !Hkey by auto.
  - intros k. destruct (decide (0 <= offset k < 2 ^ bits)) as [Hk|Hk].
    + assert (∀ l', (∀ x, x ∈ l' → x ∈ E) → Sort.class cmp_offset k l' = Sort.class (cmp_key bits) k l') as Hcl.
      { intros l' Hl'. unfold Sort.class, cmp_key, cmp_offset. apply filter_ext_in. intros x Hx. by rewrite !Hkey by auto. }
      rewrite !Hcl; [done|done|]. intros x. by rewrite HP.
    + unfold Sort.class, cmp_offset. rewrite !filter_none_in; [done|..]; intros x Hx Ho; apply Hk.
      * pose proof (Hlt x Hx). lia.
      * rewrite HP in Hx. pose proof (Hlt x Hx). lia.
Qed.

Lemma sort_loop_wp E fuel from to max j :
  zlen E < 2 ^ 32 → (∀ e, e ∈ E → 0 <= offset e <= max) → 0 <= max < 2 ^ 48 → 0 <= j <= 3 → 4 <= Z.of_nat fuel + j →
  zlen to = zlen E → Sort.stable_sort_of (cmp_key (j * DIGIT_SIZE)) E from →
  returns (sort_loop fuel (length E) from to max (j * DIGIT_SIZE)) (Sort.stable_sort_of cmp_offset E).
Proof.
  intros Hn HE Hmax. revert from to j. induction fuel as [|fuel IH]; intros from to j Hj Hf Hto Hs; [lia|].
  cbn [sort_loop]. unfold DIGIT_SIZE in *. eval_leb 64 (j * 16).
  destruct (Z.eqb_spec (Z.shiftr max (j * 16)) 0) as [E0|E0].
  { cbn. eapply sort_done; [|exact HE|exact E0|exact Hs]. lia. }
  pose proof Hs as (_ & HP & _). pose proof (zlen_perm _ _ HP) as Hl.
  assert (length E = Z.to_nat (zlen E)) as -> by (unfold zlen; lia).
  rewrite (radix_pass_ok (j * 16) (zlen E) from Hl Hn to Hto). cbn [obind].
  assert (j ≠ 3) as Hj3.
  { intros ->. apply E0. rewrite Z.shiftr_div_pow2 by lia. apply Z.div_small. change (2 ^ (3 * 16)) with (2 ^ 48). lia. }
  replace (j * 16 + 16) with ((j + 1) * 16) by lia.
  replace (Z.to_nat (zlen E)) with (length E) by (unfold zlen; lia).
  apply IH; [lia..|done|].
  replace ((j + 1) * 16) with (j * 16 + 16) by lia. apply (radix_step (j * 16)); [lia|done].
Qed.

Lemma sort_revindex_wp E rest max tmp :
  zlen E < 2 ^ 32 → (∀ e, e ∈ E → 0 <= offset e <= max) → 0 <= max < 2 ^ 48 → zlen tmp = zlen E →
  returns (sort_revindex (E ++ rest) (zlen E) max tmp) (λ r, ∃ s, r = s ++ rest ∧ Sort.stable_sort_of cmp_offset E s).
Proof.
  intros Hn HE Hmax Htmp. unfold sort_revindex. rewrite (rd_range_at _ [] E rest) by done. cbn [obind].
  replace (Z.to_nat (zlen E)) with (length E) by (unfold zlen; lia).
  apply wp_bind. eapply wp_mono; [|apply (sort_loop_wp E 6 E tmp max 0); try done; [lia..|]].
  - intros s Hs. cbn. rewrite zdrop_app_len. by exists s.
  - split_and!; [|done|done]. clear. change (0 * DIGIT_SIZE) with 0.
    induction E as [|e E IH]; constructor; [done|]. apply Forall_forall. intros x _. unfold Sort.le, cmp_key, key.
    change (2 ^ 0) with 1. rewrite !Z.mod_1_r. done.
Qed.

(** ** Reading the offsets of an index *)
Section read.
Context {algop : HashAlgo} `{!HashLaws algop} (opts : pack_idx_option).
Implicit Types (l : list pack_idx_entry).

(** The entries in the order of the index, numbered from [i]. *)
Fixpoint by_name (i : Z) l : list revindex_entry :=
  match l with
  | [] => []
  | o :: l => Revindex_entry (idx_offset o) i :: by_name (i + 1) l
  end.

Lemma read_offsets_v2_ok mem l pre post pre64 post64 nr i :
  Forall entry_ok l → mem = pre ++ words (off32 opts nr l) ++ post →
  mem = pre64 ++ concat (be64 <$> off64 opts l) ++ post64 → 0 <= nr → nr + zlen l < 2 ^ 31 →
  read_offsets_v2 (length l) mem (zlen pre) (zlen pre64) i = Ret (by_name i l).
Proof.
  revert pre pre64 nr i. induction l as [|o l IH]; intros pre pre64 nr i Hok Hm Hm64 Hnr Hl; [done|].
  apply Forall_cons in Hok as [(_ & _ & Hoff) Hok]. cbn [length read_offsets_v2 by_name off32] in *.
  rewrite zlen_cons in Hl. zlen_pos. unfold off64 in Hm64. rewrite filter_cons in Hm64.
  destruct (decide (large opts o)) as [Hlo|Hlo].
  - assert (rd_be32 mem (zlen pre) = Ret (2 ^ 31 + nr)) as ->.
    { unfold rd_be32. rewrite (rd_range_at mem pre (be32 (2 ^ 31 + nr)) (words (off32 opts (nr + 1) l) ++ post)); [|rewrite Hm; unfold words; cbn [fmap list_fmap concat]; by rewrite <- app_assoc|done|done].
      cbn [obind]. by rewrite of_be32 by lia. }
    cbn [obind]. assert (Z.land (2 ^ 31 + nr) 0x80000000 = 2 ^ 31) as ->.
    { apply land_bit31; lia. }
    change (2 ^ 31 =? 0) with false. cbn match.
    assert (rd_be64 mem (zlen pre64) = Ret (idx_offset o)) as ->.
    { unfold rd_be64. rewrite (rd_range_at mem pre64 (be64 (idx_offset o)) (concat (be64 <$> off64 opts l) ++ post64)); [|rewrite Hm64; cbn [fmap list_fmap concat]; by rewrite <- app_assoc|done|done].
      cbn [obind]. by rewrite of_be64 by lia. }
    cbn [obind]. rewrite PackHeader.i64_small by lia.
    replace (zlen pre + 4) with (zlen (pre ++ be32 (2 ^ 31 + nr))) by (rewrite zlen_app; done).
    replace (zlen pre64 + 8) with (zlen (pre64 ++ be64 (idx_offset o))) by (rewrite zlen_app; done).
    rewrite (IH _ _ (nr + 1)); [done|done|rewrite Hm; unfold words; cbn [fmap list_fmap concat]; by rewrite <- !app_assoc| |lia|lia].
    rewrite Hm64. cbn [fmap list_fmap concat]. by rewrite <- !app_assoc.
  - assert (idx_offset o < 2 ^ 31) as Hs31. { unfold large in Hlo. apply not_true_is_false, small_offset in Hlo; lia. }
    assert (rd_be32 mem (zlen pre) = Ret (idx_offset o)) as ->.
    { unfold rd_be32. rewrite (rd_range_at mem pre (be32 (idx_offset o)) (words (off32 opts nr l) ++ post)); [|rewrite Hm; unfold words; cbn [fmap list_fmap concat]; by rewrite <- app_assoc|done|done].
      cbn [obind]. by rewrite of_be32 by lia. }
    cbn [obind]. rewrite land_no_bit31 by lia. change (0 =? 0) with true. cbn match.
    replace (zlen pre + 4) with (zlen (pre ++ be32 (idx_offset o))) by (rewrite zlen_app; done).
    rewrite (IH _ _ nr); [done|done|rewrite Hm; unfold words; cbn [fmap list_fmap concat]; by rewrite <- !app_assoc|done|lia|lia].
Qed.

Lemma read_offsets_v1_ok mem l pre post i :
  Forall entry_ok l → (∀ o, o ∈ l → idx_offset o < 2 ^ 32) → mem = pre ++ concat (row_v1 <$> l) ++ post →
  zlen pre = 4 * 256 + (rawsz + 4) * i → 0 <= i → (rawsz + 4) * (i + zlen l) < 2 ^ 32 →
  read_offsets_v1 (length l) mem i = Ret (by_name i l).
Proof.
  pose proof rawsz_range as Hr. revert pre i. induction l as [|o l IH]; intros pre i Hok Hsm Hm Hp Hi Hl; [done|].
  apply Forall_cons in Hok as [Ho Hok]. destruct (entry_name o Ho) as (Hn & _ & _). destruct Ho as (_ & _ & Hoff).
  cbn [length read_offsets_v1 by_name]. rewrite zlen_cons in Hl. zlen_pos.
  unfold u32. rewrite Z.mod_small by nia. rewrite <- Hp.
  pose proof (Hsm o ltac:(set_solver)). cbn [fmap list_fmap concat] in Hm.
  assert (rd_be32 mem (zlen pre) = Ret (idx_offset o)) as ->.
  { unfold rd_be32, row_v1 in *. rewrite (rd_range_at mem pre (be32 (idx_offset o)) (name o ++ concat (row_v1 <$> l) ++ post));
      [|rewrite Hm; by rewrite <- !app_assoc|done|done].
    cbn [obind]. by rewrite of_be32 by lia. }
  cbn [obind]. rewrite (IH (pre ++ row_v1 o)); [done|done|intros; apply Hsm; set_solver| | |lia|nia].
  - rewrite Hm. by rewrite <- !app_assoc.
  - unfold row_v1. rewrite !zlen_app, Hp, Hn, zlen_be32. lia.
Qed.
End read.

(** ** Searching the table *)
Definition below (r : list revindex_entry) (ofs lo hi : Z) : Prop :=
  (∀ k e, znth r k = Some e → k < lo → offset e < ofs) ∧ (∀ k e, znth r k = Some e → hi <= k → ofs < offset e).

Lemma ascending_znth_offset r i j a b :
  StronglySorted (λ x y, offset x < offset y) r → znth r i = Some a → znth r j = Some b → i < j → offset a < offset b.
Proof.
  intros Hs Hi Hj Hij. enough (cmp_offset a b < 0) by (unfold cmp_offset in *; lia).
  eapply (ascending_znth cmp_offset r i j); try done. unfold ascending. eapply StronglySorted_impl_in; [|exact Hs].
  unfold cmp_offset. cbv beta. lia.
Qed.

Lemma pos_loop_wp fuel p r ofs lo hi :
  StronglySorted (λ x y, offset x < offset y) r → zlen r = num_objects p + 1 → zlen r < 2 ^ 32 →
  0 <= lo < hi → hi <= zlen r → hi - lo < Z.of_nat fuel → below r ofs lo hi →
  returns (pos_loop fuel p r ofs lo hi) (λ res,
    match res with
    | Some m => ∃ e, znth r m = Some e ∧ offset e = ofs
    | None => ∀ e, e ∈ r → offset e ≠ ofs
    end).
Proof.
  intros Hs Hn H32. revert lo hi. induction fuel as [|fuel IH]; intros lo hi Hlo Hhi Hf [Hb1 Hb2]; [lia|].
  cbn [pos_loop]. unfold u32. rewrite Z.mod_small by (Z.div_mod_to_equations; lia).
  set (mi := lo + (hi - lo) / 2). assert (lo <= mi < hi) by (unfold mi; Z.div_mod_to_equations; lia). clearbody mi.
  destruct (znth_is_Some r mi) as [e He]; [lia|].
  unfold pack_pos_to_offset. eval_ltb (num_objects p) mi. rewrite (rd_znth _ _ _ He). cbn [obind].
  destruct (Z.eqb_spec (offset e) ofs) as [E|E]; [cbn; eauto|].
  assert (∀ lo' hi', lo' = hi' → below r ofs lo' hi' → ∀ x, x ∈ r → offset x ≠ ofs) as Hnone.
  { intros lo' hi' <- [H1 H2] x [k Hk]%list_elem_of_lookup Hx. rewrite <- znth_of_nat in Hk.
    destruct (decide (Z.of_nat k < lo')); [pose proof (H1 _ _ Hk); lia|pose proof (H2 _ _ Hk); lia]. }
  destruct (Z.ltb_spec ofs (offset e)).
  - assert (below r ofs lo mi) as Hb.
    { split; [done|]. intros k x Hk Hge. destruct (decide (k = mi)) as [->|]; [congruence|].
      pose proof (ascending_znth_offset r mi k e x Hs He Hk). lia. }
    destruct (Z.ltb_spec lo mi); [|cbn; apply (Hnone lo mi); [lia|done]]. apply IH; try done; lia.
  - assert (below r ofs (mi + 1) hi) as Hb.
    { split; [|done]. intros k x Hk Hge. destruct (decide (k = mi)) as [->|]; [rewrite He in Hk; injection Hk as <-; lia|].
      pose proof (ascending_znth_offset r k mi x e Hs Hk He). lia. }
    rewrite Z.mod_small by lia. destruct (Z.ltb_spec (mi + 1) hi); [|cbn; apply (Hnone (mi + 1) hi); [lia|done]].
    apply IH; try done; lia.
Qed.

Lemma offset_to_pack_pos_wp p r ofs :
  StronglySorted (λ x y, offset x < offset y) r → zlen r = num_objects p + 1 → zlen r < 2 ^ 32 → 0 <= num_objects p →
  returns (offset_to_pack_pos p r ofs) (λ res,
    match res with
    | Some m => ∃ e, znth r m = Some e ∧ offset e = ofs
    | None => ∀ e, e ∈ r → offset e ≠ ofs
    end).
Proof.
  intros Hs Hn H32 H0. unfold offset_to_pack_pos, u32. rewrite Z.mod_small by lia.
  apply pos_loop_wp; try done; try lia. split; intros k e Hk%znth_Some_lt; lia.
Qed.

(** ** The reverse index of a written index *)
Section created.
Context {algop : HashAlgo} `{!HashLaws algop}.
Implicit Types (l : list pack_idx_entry).

Lemma by_name_lookup i l k o : znth l k = Some o → znth (by_name i l) k = Some (Revindex_entry (idx_offset o) (i + k)).
Proof.
  intros Hk. pose proof (znth_Some_lt _ _ _ Hk) as Hlt. revert i k Hk Hlt.
  induction l as [|x l IH]; intros i k Hk Hlt; [zlia|]. cbn [by_name]. destruct (decide (k = 0)) as [->|].
  - injection Hk as ->. change (Some (Revindex_entry (idx_offset o) i) = Some (Revindex_entry (idx_offset o) (i + 0))).
    by rewrite Z.add_0_r.
  - rewrite zlen_cons in Hlt. rewrite znth_cons in Hk by lia. rewrite znth_cons by lia. rewrite (IH (i + 1) _ Hk) by lia. do 2 f_equal. lia.
Qed.
Lemma zlen_by_name i l : zlen (by_name i l) = zlen l.
Proof. revert i. induction l as [|o l IH]; intros i; [done|]. cbn [by_name]. by rewrite !zlen_cons, IH. Qed.
Lemma by_name_elem i l e :
  e ∈ by_name i l → ∃ k o, znth l k = Some o ∧ e = Revindex_entry (idx_offset o) (i + k).
Proof.
  intros [k Hk]%list_elem_of_lookup. rewrite <- znth_of_nat in Hk. pose proof (znth_Some_lt _ _ _ Hk) as Hlt.
  rewrite zlen_by_name in Hlt. destruct (znth_is_Some l (Z.of_nat k)) as [o Ho]; [done|].
  rewrite (by_name_lookup _ _ _ _ Ho) in Hk. injection Hk as <-. by exists (Z.of_nat k), o.
Qed.
Lemma by_name_offsets i l : offset <$> by_name i l = idx_offset <$> l.
Proof. revert i. induction l as [|o l IH]; intros i; [done|]. cbn [by_name fmap list_fmap]. f_equal. apply IH. Qed.

Lemma sorted_distinct (s : list revindex_entry) :
  StronglySorted (λ a b, cmp_offset a b <= 0) s → NoDup (offset <$> s) → StronglySorted (λ a b, offset a < offset b) s.
Proof.
  induction 1 as [|e s Hs IH He]; intros Hnd; [constructor|]. rewrite fmap_cons in Hnd.
  apply NoDup_cons in Hnd as [Hni Hnd]. constructor; [auto|]. apply Forall_forall. intros x Hx.
  pose proof (proj1 (Forall_forall _ _) He x Hx) as Hle. unfold cmp_offset in Hle. cbv beta in Hle.
  assert (offset e ≠ offset x); [|lia]. intros E. apply Hni. rewrite E. by apply list_elem_of_fmap_2.
Qed.
End created.

End Revindex.
