(* ===== verification/PackTheorems.v ===== *)
(** * Properties of the pack index and the reverse index

    The compositions of pack-write.c, csum-file.c, packfile.c, hash-lookup.c and
    pack-revindex.c: what one of them writes the others find again. *)
From stdpp Require Import prelude.
From S2P Require Import Prelude Order Endian Hashfile HashLookup PackHeader PackIndex Sort Revindex.
Import Endian Hashfile HashLookup PackIndex Revindex.

Module PackTheorems.

Section theorems.
Context {algop : HashAlgo} `{!HashLaws algop} (crc32_fn : Z → list Z → Z) `{!CrcLaws crc32_fn}.
Context `{Q : !Qsort} `{!QsortLaws Q}.
Context (open_pack_index : packed_git → outcome (option packed_git)).

(** What a caller of [write_idx_file] passes: padded names without duplicates,
    offsets of the pack, and at least one offset that fits 31 bits (the first
    object of a pack is at offset 12). *)
Record writable (mem : list Z) (objects : list pack_idx_entry) (opts : pack_idx_option) (sha1 : list Z) : Prop := {
  w_mem : 128 * 1024 <= zlen mem;
  w_flags : Z.land (flags opts) WRITE_IDX_VERIFY = 0;
  w_version : version opts = 1 ∨ version opts = 2;
  w_entries : Forall entry_ok objects;
  w_names : NoDup (oid <$> objects);
  w_count : zlen objects < 2 ^ 31;
  w_sha1 : rawsz <= zlen sha1;
  w_small : objects = [] ∨ ∃ o, o ∈ objects ∧ need_large_offset (idx_offset o) opts = false;
}.

(** The file, and what [load_idx] makes of it. *)
Lemma write_load mem file objects opts sha1 p :
  writable mem objects opts sha1 →
  returns (write_idx_file crc32_fn mem file objects opts sha1) (λ '(l, out),
    l ≡ₚ objects ∧ StronglySorted (λ a b, sha1_compare a b < 0) l ∧ Forall entry_ok l ∧ zlen l < 2 ^ 31 ∧
    (l = [] ∨ ∃ o, o ∈ l ∧ ¬ large opts o) ∧ out = sealed (body opts l sha1) ∧
    load_idx rawsz out p = Ret (Some (loaded opts l sha1 p))).
Proof.
  intros [H1 H2 H3 H4 H5 H6 H7 H8]. eapply wp_mono; [|by apply write_idx_file_wp].
  intros [l out] (HP & Hs & ->).
  assert (Forall entry_ok l) as Hok by by rewrite HP. assert (zlen l < 2 ^ 31) as Hn by (unfold zlen in *; by rewrite HP).
  assert (l = [] ∨ ∃ o, o ∈ l ∧ ¬ large opts o) as Hsm.
  { destruct H8 as [->|(o & Ho & E)]; [left; by apply Permutation_nil_r|right; exists o].
    rewrite HP. split; [done|]. unfold large. by rewrite E. }
  split_and!; try done. by apply load_idx_ok.
Qed.

(** C3. An index file written by [write_idx_file] is accepted by [load_idx], and
    [find_pack_entry_one] then returns the offset of every object that was
    written and 0 for every other name; the file holds all objects, in the order
    of their names, and ends with its own checksum.  This covers both versions
    and offsets that need 64 bits, as long as one of the offsets does not need
    them ([writable]: the 12 of a pack's first object does not, unless
    [off32_limit] is below it). *)
Theorem pack_idx_roundtrip mem file objects opts sha1 p :
  writable mem objects opts sha1 →
  returns (let! (l, out) := write_idx_file crc32_fn mem file objects opts sha1 in
           let! r := load_idx rawsz out p in
           Ret (l, out, r))
    (λ '(l, out, r), ∃ p', r = Some p' ∧ l ≡ₚ objects ∧ num_objects p' = zlen objects ∧
      hashfile_checksum_valid out = Ret true ∧
      (∀ i o, znth l i = Some o → nth_packed_object_id open_pack_index p' i = Ret (Some (oid o)) ∧
        nth_packed_object_offset p' i = Ret (idx_offset o)) ∧
      (∀ o, o ∈ objects → find_pack_entry_one open_pack_index (oid o) p' = Ret (idx_offset o)) ∧
      (∀ h, zlen h = rawsz → bytes_ok h → h ++ zrep (GIT_MAX_RAWSZ - rawsz) 0 ∉ oid <$> objects →
        find_pack_entry_one open_pack_index (h ++ zrep (GIT_MAX_RAWSZ - rawsz) 0) p' = Ret 0)).
Proof.
  intros Hw. apply wp_bind. eapply wp_mono; [|by apply (write_load mem file objects opts sha1 p)].
  intros [l out] (HP & Hs & Hok & Hn & Hsm & -> & Hload). cbv beta match. rewrite Hload. cbn [obind wp].
  destruct Hw as [_ _ Hver _ _ _ Hsha _]. exists (loaded opts l sha1 p). split_and!; try done.
  - cbn [num_objects loaded]. unfold zlen. by rewrite HP.
  - apply checksum_sealed.
  - intros i o Hi. split; [by apply nth_packed_object_id_ok|by apply nth_packed_object_offset_ok].
  - intros o Ho. apply find_pack_entry_one_ok; try done. by rewrite HP.
  - intros h Hh Hb Hni. eapply (find_pack_entry_one_absent opts l sha1); try done.
    intros (o & -> & Ho)%list_elem_of_fmap. apply Hni. rewrite <- HP. apply list_elem_of_fmap. exists o. split; [|done].
    apply (proj1 (Forall_forall _ _) Hok) in Ho as [(k & Hk & _ & E) _]. unfold name. by rewrite E, ztake_app_len'.
Qed.

(** *** The reverse index *)
Lemma create_pack_revindex_wp opts l sha1 p tmp :
  Forall entry_ok l → zlen l < 2 ^ 31 → version opts = 1 ∨ version opts = 2 → rawsz <= zlen sha1 →
  (rawsz + 4) * zlen l < 2 ^ 32 →
  NoDup (idx_offset <$> l) → (∀ o, o ∈ l → idx_offset o < pack_size p - rawsz) → rawsz <= pack_size p < 2 ^ 48 →
  zlen tmp = zlen l →
  returns (create_pack_revindex (loaded opts l sha1 p) tmp) (λ r,
    StronglySorted (λ a b, offset a < offset b) r ∧
    ∃ s, r = s ++ [Revindex_entry (pack_size p - rawsz) (u32 (-1))] ∧ s ≡ₚ by_name 0 l).
Proof.
  intros Hok Hn Hver Hsha H32 Hnd Hoff Hps Htmp. pose proof rawsz_range as Hr. unfold create_pack_revindex.
  cbn [index_data loaded num_objects index_version pack_size].
  assert ((if 1 <? idx_version opts l then
      read_offsets_v2 (Z.to_nat (zlen l)) (sealed (body opts l sha1)) (4 * 256 + 8 + zlen l * (rawsz + 4))
        (4 * 256 + 8 + zlen l * (rawsz + 4) + 4 * zlen l) 0
    else read_offsets_v1 (Z.to_nat (zlen l)) (sealed (body opts l sha1)) 0) = Ret (by_name 0 l)) as ->.
  { replace (Z.to_nat (zlen l)) with (length l) by (unfold zlen; lia).
    destruct (version_cases opts l Hok Hver) as [[E Hsm]|E]; rewrite E.
    - change (1 <? 1) with false. cbn match.
      apply (read_offsets_v1_ok _ l (words (fan l)) (ztake rawsz sha1 ++ final_fn (update_fn init_fn (body opts l sha1))));
        [done| |by apply file_v1|rewrite zlen_words, zlen_fan; lia|lia|rewrite Z.add_0_l; lia].
      intros o Ho. destruct (Hsm o Ho) as [Hlo|]; [|lia]. unfold large in Hlo. apply not_true_is_false, small_offset in Hlo; [lia|].
      apply (proj1 (Forall_forall _ _) Hok) in Ho as (_ & _ & ?). lia.
    - change (1 <? 2) with true. cbn match.
      set (pre := (be32 PACK_IDX_SIGNATURE ++ be32 2) ++ words (fan l) ++ concat (name <$> l) ++ words (idx_crc32 <$> l)).
      assert (zlen pre = 4 * 256 + 8 + zlen l * (rawsz + 4)) as Hpre.
      { unfold pre. rewrite !zlen_app, !zlen_words, zlen_fan, zlen_fmap, (zlen_rows name rawsz), !zlen_be32; [lia|].
        intros o Ho. by apply entry_name, (proj1 (Forall_forall _ _) Hok). }
      rewrite <- Hpre. replace (zlen pre + 4 * zlen l) with (zlen (pre ++ words (off32 opts 0 l)))
        by (rewrite zlen_app, zlen_words, zlen_off32; lia).
      eapply (read_offsets_v2_ok opts _ l pre _ (pre ++ words (off32 opts 0 l)) _ 0); [done|..|lia|lia];
        rewrite file_v2 by done; unfold pre; rewrite <- !app_assoc; reflexivity. }
  cbn [obind]. rewrite <- (zlen_by_name 0 l).
  eapply wp_mono; [|apply sort_revindex_wp; rewrite ?zlen_by_name; try lia].
  - intros r (s & -> & Hs & HP & _). split; [|by exists s].
    apply StronglySorted_app_2; [| |repeat constructor].
    + intros x y Hx Hy%list_elem_of_singleton. subst y. rewrite HP in Hx. apply by_name_elem in Hx as (k & o & Ho & ->).
      apply znth_elem_of in Ho. apply Hoff in Ho. cbn. lia.
    + apply sorted_distinct; [exact Hs|]. rewrite HP. by rewrite by_name_offsets.
  - intros e (k & o & Ho & ->)%by_name_elem. apply znth_elem_of in Ho. pose proof (Hoff o Ho).
    apply (proj1 (Forall_forall _ _) Hok) in Ho as (_ & _ & ?). cbn. lia.
Qed.

(** C23. The reverse index built from a written index is inverse to it: searching
    an object's offset finds a position whose entry gives back the object's place
    in the index and its offset; an offset at which no object starts (nor the
    pack's trailer) is reported as bad; and the positions are in the order of the
    offsets. *)
Theorem revindex_inverse mem file objects opts sha1 p tmp :
  writable mem objects opts sha1 → (rawsz + 4) * zlen objects < 2 ^ 32 → zlen tmp = zlen objects →
  NoDup (idx_offset <$> objects) → (∀ o, o ∈ objects → idx_offset o < pack_size p - rawsz) →
  rawsz <= pack_size p < 2 ^ 48 →
  returns (let! (l, out) := write_idx_file crc32_fn mem file objects opts sha1 in
           let! p' := load_idx rawsz out p in
           match p' with
           | None => Ret None
           | Some p' => let! r := create_pack_revindex p' tmp in Ret (Some (l, p', r))
           end)
    (λ res, ∃ l p' r, res = Some (l, p', r) ∧
      StronglySorted (λ a b, offset a < offset b) r ∧
      (∀ i o, znth l i = Some o → ∃ pos, offset_to_pack_pos p' r (idx_offset o) = Ret (Some pos) ∧
        pack_pos_to_index p' r pos = Ret i ∧ pack_pos_to_offset p' r pos = Ret (idx_offset o)) ∧
      (∀ ofs, ofs ∉ idx_offset <$> objects → ofs ≠ pack_size p - rawsz →
        offset_to_pack_pos p' r ofs = Ret None)).
Proof.
  intros Hw H32 Htmp Hnd Hoff Hps. pose proof rawsz_range as Hr.
  apply wp_bind. eapply wp_mono; [|by apply (write_load mem file objects opts sha1 p)].
  intros [l out] (HP & Hs & Hok & Hn & Hsm & -> & Hload). cbv beta match. rewrite Hload. cbn [obind].
  assert (zlen l = zlen objects) as Hl by (unfold zlen; by rewrite HP).
  destruct Hw as [_ _ Hver _ _ _ Hsha _].
  apply wp_bind. eapply wp_mono; [|apply create_pack_revindex_wp; try done; rewrite ?Hl; try done].
  2:{ by rewrite HP. } 2:{ intros o. rewrite HP. apply Hoff. }
  intros r (Hsort & s & -> & HPs). cbn [wp].
  assert (zlen s = zlen l) as Hsl by (rewrite <- (zlen_by_name 0 l); unfold zlen; by rewrite HPs).
  set (r := s ++ _) in *. set (p' := loaded opts l sha1 p).
  assert (zlen r = num_objects p' + 1) as Hrl by (unfold r; rewrite zlen_app, zlen_cons, zlen_nil; change (num_objects p') with (zlen l); lia).
  assert (∀ ofs, returns (offset_to_pack_pos p' r ofs) (λ res, match res with
    | Some m => ∃ e, znth r m = Some e ∧ offset e = ofs | None => ∀ e, e ∈ r → offset e ≠ ofs end)) as Hpos.
  { intros ofs. apply offset_to_pack_pos_wp; [done|done|change (num_objects p') with (zlen l) in Hrl; lia|].
    change (num_objects p') with (zlen l). zlen_pos. lia. }
  exists l, p', r. split_and!; try done.
  - intros i o Hi. pose proof (by_name_lookup 0 l i o Hi) as Hby. rewrite Z.add_0_l in Hby.
    assert (Revindex_entry (idx_offset o) i ∈ s) as Hin. { rewrite HPs. by eapply znth_elem_of. }
    apply list_elem_of_lookup in Hin as [q Hq]. rewrite <- znth_of_nat in Hq. pose proof (znth_Some_lt _ _ _ Hq) as Hqlt.
    assert (znth r (Z.of_nat q) = Some (Revindex_entry (idx_offset o) i)) as Hqr by (unfold r; rewrite znth_app_l by lia; done).
    destruct (proj1 (returns_eq _ _) (Hpos (idx_offset o))) as ([m|] & E & Hm).
    2:{ exfalso. apply (Hm _ (znth_elem_of _ _ _ Hqr)). done. }
    destruct Hm as (e & He & Heo).
    assert (m = Z.of_nat q) as ->.
    { destruct (Z.lt_trichotomy m (Z.of_nat q)) as [Hlt|[?|Hlt]]; [exfalso|done|exfalso].
      - pose proof (ascending_znth_offset r m (Z.of_nat q) e _ Hsort He Hqr Hlt) as Hx. cbn in Hx. lia.
      - pose proof (ascending_znth_offset r (Z.of_nat q) m _ e Hsort Hqr He Hlt) as Hx. cbn in Hx. lia. }
    exists (Z.of_nat q). split; [done|]. unfold pack_pos_to_index, pack_pos_to_offset.
    change (num_objects p') with (zlen l). eval_leb (zlen l) (Z.of_nat q). eval_ltb (zlen l) (Z.of_nat q).
    rewrite (rd_znth _ _ _ Hqr). done.
  - intros ofs Hni Hne. destruct (proj1 (returns_eq _ _) (Hpos ofs)) as ([m|] & E & Hm); [exfalso|done].
    destruct Hm as (e & He%znth_elem_of & Heo). unfold r in He. apply elem_of_app in He as [He|He%list_elem_of_singleton].
    + rewrite HPs in He. apply by_name_elem in He as (k & o & Ho & ->). cbn in Heo. apply Hni. rewrite <- HP, <- Heo.
      apply list_elem_of_fmap_2. by eapply znth_elem_of.
    + subst e. cbn in Heo. lia.
Qed.
End theorems.

(** *** The radix sort *)
Lemma sort_loop_overwide (E : list revindex_entry) fuel from to max j :
  zlen E < 2 ^ 32 → 2 ^ 48 <= max → 0 <= j <= 4 → 5 <= Z.of_nat fuel + j → zlen from = zlen E → zlen to = zlen E →
  sort_loop fuel (length E) from to max (j * DIGIT_SIZE) = UB.
Proof.
  intros Hn Hmax. revert from to j. induction fuel as [|fuel IH]; intros from to j Hj Hf Hfrom Hto; [lia|].
  cbn [sort_loop]. unfold DIGIT_SIZE in *. destruct (Z.leb_spec 64 (j * 16)); [done|].
  assert (0 < 2 ^ (j * 16) <= 2 ^ 48) by (split; [apply Z.pow_pos_nonneg; lia|apply Z.pow_le_mono_r; lia]).
  destruct (Z.eqb_spec (Z.shiftr max (j * 16)) 0) as [E0|E0].
  { rewrite Z.shiftr_div_pow2 in E0 by lia. apply Z.div_small_iff in E0; lia. }
  replace (length E) with (Z.to_nat (zlen E)) at 1 by (unfold zlen; lia).
  rewrite (radix_pass_ok (j * 16) (zlen E) from Hfrom Hn to Hto). cbn [obind].
  replace (j * 16 + 16) with ((j + 1) * 16) by lia. apply IH; try lia.
  rewrite <- Hfrom. apply zlen_perm, bucketed_perm.
Qed.

(** C24. [sort_revindex] is a stable sort by offset, equal to any other: the result
    is ordered, a permutation of the entries, and entries of equal offset keep
    their order; what lies behind the first [n] entries is left alone.  It needs
    no more than [n] elements of extra memory, whatever they hold.  For a pack of
    [2 ^ 48] bytes or more, the loop condition shifts by the width of [off_t]. *)
Theorem sort_revindex_stable E rest max tmp :
  zlen E < 2 ^ 32 → (∀ e, e ∈ E → 0 <= offset e <= max) → 0 <= max → zlen tmp = zlen E →
  (max < 2 ^ 48 → returns (sort_revindex (E ++ rest) (zlen E) max tmp)
    (λ r, ∃ s, r = s ++ rest ∧ Sort.stable_sort_of cmp_offset E s)) ∧
  (2 ^ 48 <= max → sort_revindex (E ++ rest) (zlen E) max tmp = UB).
Proof.
  intros Hn HE H0 Htmp. split; intros Hmax.
  - by apply sort_revindex_wp.
  - unfold sort_revindex. rewrite (rd_range_at _ [] E rest) by done. cbn [obind].
    replace (Z.to_nat (zlen E)) with (length E) by (unfold zlen; lia).
    change (sort_loop 6 (length E) E tmp max 0) with (sort_loop 6 (length E) E tmp max (0 * DIGIT_SIZE)).
    by rewrite sort_loop_overwide by (done || lia).
Qed.

Lemma sort_revindex_stable_witness :
  (2 ^ 20 < 2 ^ 48 → returns (sort_revindex ([Revindex_entry 900000 0; Revindex_entry 12 1] ++ []) (zlen [Revindex_entry 900000 0; Revindex_entry 12 1]) (2 ^ 20) [Revindex_entry 0 0; Revindex_entry 0 0])
    (λ r, ∃ s, r = s ++ [] ∧ Sort.stable_sort_of cmp_offset [Revindex_entry 900000 0; Revindex_entry 12 1] s)) ∧
  (2 ^ 48 <= 2 ^ 20 → sort_revindex ([Revindex_entry 900000 0; Revindex_entry 12 1] ++ []) (zlen [Revindex_entry 900000 0; Revindex_entry 12 1]) (2 ^ 20) [Revindex_entry 0 0; Revindex_entry 0 0] = UB).
Proof.
  apply sort_revindex_stable; [reflexivity| |lia|reflexivity].
  intros e [-> | ->%list_elem_of_singleton]%elem_of_cons; cbn; lia.
Defined.

(** ** Two objects to instantiate the theorems with: one of them lies beyond 4 GB. *)
#[local] Existing Instance sum_algo.
#[local] Existing Instance sum_laws.
#[local] Existing Instance sum_crc_laws.
#[local] Instance sample_qsort : Qsort := insertion_qsort.
#[local] Instance sample_qsort_laws : QsortLaws sample_qsort := insertion_qsort_laws.
Local Abbreviation sample_crc := (foldl (λ c b, c * 33 + b)).

Definition sample_oid (b : Z) : list Z := zrep 20 b ++ zrep 12 0.
Definition sample_objects : list pack_idx_entry :=
  [Pack_idx_entry (sample_oid 7) 5 (2 ^ 33); Pack_idx_entry (sample_oid 3) 6 12].
Definition sample_opts : pack_idx_option := Pack_idx_option 2 2 (2 ^ 31 - 1) [].
Definition sample_mem : list Z := zrep (128 * 1024) 0.
Definition sample_pack : packed_git := Packed_git None 0 0 0 0 (2 ^ 34).

Lemma sample_writable : writable sample_mem sample_objects sample_opts (zrep 20 9).
Proof.
  split.
  - unfold sample_mem. rewrite zlen_zrep; lia.
  - reflexivity.
  - by right.
  - repeat constructor; try (cbn; lia); cbn.
    + exists (zrep 20 7). split_and!; try done. apply bytes_ok_dec. reflexivity.
    + exists (zrep 20 3). split_and!; try done. apply bytes_ok_dec. reflexivity.
  - apply (NoDup_cons_2 (sample_oid 7) [sample_oid 3]); [|apply NoDup_singleton].
    intros H%list_elem_of_singleton. discriminate.
  - reflexivity.
  - vm_compute. discriminate.
  - right. exists (Pack_idx_entry (sample_oid 3) 6 12). split; [set_solver|reflexivity].
Qed.

Lemma pack_idx_roundtrip_witness :
  returns (let! (l, out) := write_idx_file sample_crc sample_mem [] sample_objects sample_opts (zrep 20 9) in
           let! r := load_idx rawsz out sample_pack in
           Ret (l, out, r))
    (λ '(l, out, r), ∃ p', r = Some p' ∧ l ≡ₚ sample_objects ∧ num_objects p' = zlen sample_objects ∧
      hashfile_checksum_valid out = Ret true ∧
      (∀ i o, znth l i = Some o → nth_packed_object_id (λ _, Ret None) p' i = Ret (Some (oid o)) ∧
        nth_packed_object_offset p' i = Ret (idx_offset o)) ∧
      (∀ o, o ∈ sample_objects → find_pack_entry_one (λ _, Ret None) (oid o) p' = Ret (idx_offset o)) ∧
      (∀ h, zlen h = rawsz → bytes_ok h → h ++ zrep (GIT_MAX_RAWSZ - rawsz) 0 ∉ oid <$> sample_objects →
        find_pack_entry_one (λ _, Ret None) (h ++ zrep (GIT_MAX_RAWSZ - rawsz) 0) p' = Ret 0)).
Proof. apply (pack_idx_roundtrip sample_crc), sample_writable. Defined.

Lemma revindex_inverse_witness :
  returns (let! (l, out) := write_idx_file sample_crc sample_mem [] sample_objects sample_opts (zrep 20 9) in
           let! p' := load_idx rawsz out sample_pack in
           match p' with
           | None => Ret None
           | Some p' => let! r := create_pack_revindex p' [Revindex_entry 0 0; Revindex_entry 0 0] in Ret (Some (l, p', r))
           end)
    (λ res, ∃ l p' r, res = Some (l, p', r) ∧
      StronglySorted (λ a b, offset a < offset b) r ∧
      (∀ i o, znth l i = Some o → ∃ pos, offset_to_pack_pos p' r (idx_offset o) = Ret (Some pos) ∧
        pack_pos_to_index p' r pos = Ret i ∧ pack_pos_to_offset p' r pos = Ret (idx_offset o)) ∧
      (∀ ofs, ofs ∉ idx_offset <$> sample_objects → ofs ≠ pack_size sample_pack - rawsz →
        offset_to_pack_pos p' r ofs = Ret None)).
Proof.
  apply (revindex_inverse sample_crc).
  - apply sample_writable.
  - reflexivity.
  - reflexivity.
  - apply (NoDup_cons_2 (2 ^ 33) [12]); [|apply NoDup_singleton]. intros H%list_elem_of_singleton. discriminate.
  - intros o [-> | ->%list_elem_of_singleton]%elem_of_cons; cbn; lia.
  - cbn. lia.
Defined.

End PackTheorems.
