(* ===== verification/Ewah.v ===== *)
(** * EWAH compressed bitmaps (ewah/ewok.h, ewah/ewok_rlw.h, ewah/ewah_bitmap.c)

    A compressed bitmap is a buffer of 64-bit words: each marker word holds a
    run bit, a run length and the number of literal words that follow it. *)
From stdpp Require Import prelude.
From S2P Require Import Prelude.

Module Ewah.

Definition BITS_IN_EWORD : Z := 64.
Definition EONES : Z := 2 ^ 64 - 1.

(** ** Marker words (ewok_rlw.h) *)
Definition RLW_RUNNING_BITS : Z := 32.
Definition RLW_LITERAL_BITS : Z := 64 - 1 - RLW_RUNNING_BITS.
Definition RLW_LARGEST_RUNNING_COUNT : Z := Z.shiftl 1 RLW_RUNNING_BITS - 1.
Definition RLW_LARGEST_LITERAL_COUNT : Z := Z.shiftl 1 RLW_LITERAL_BITS - 1.
Definition RLW_LARGEST_RUNNING_COUNT_SHIFT : Z := u64 (Z.shiftl RLW_LARGEST_RUNNING_COUNT 1).
Definition RLW_RUNNING_LEN_PLUS_BIT : Z := Z.shiftl 1 (RLW_RUNNING_BITS + 1) - 1.

(** [~x] on an [eword_t]. *)
Definition enot (x : Z) : Z := u64 (Z.lnot x).

Definition rlw_get_run_bit (word : Z) : Z := Z.land word 1.
Definition rlw_set_run_bit (word b : Z) : Z :=
  if negb (b =? 0) then Z.lor word 1 else Z.land word (enot 1).
Definition rlw_set_running_len (word l : Z) : Z :=
  let word := Z.lor word RLW_LARGEST_RUNNING_COUNT_SHIFT in
  Z.land word (Z.lor (u64 (Z.shiftl l 1)) (enot RLW_LARGEST_RUNNING_COUNT_SHIFT)).
Definition rlw_get_running_len (word : Z) : Z :=
  Z.land (Z.shiftr word 1) RLW_LARGEST_RUNNING_COUNT.
Definition rlw_get_literal_words (word : Z) : Z := Z.shiftr word (1 + RLW_RUNNING_BITS).
Definition rlw_set_literal_words (word l : Z) : Z :=
  let word := Z.lor word (enot RLW_RUNNING_LEN_PLUS_BIT) in
  Z.land word (Z.lor (u64 (Z.shiftl l (RLW_RUNNING_BITS + 1))) RLW_RUNNING_LEN_PLUS_BIT).
Definition rlw_size (word : Z) : Z :=
  u64 (rlw_get_running_len word + rlw_get_literal_words word).

(** ** The bitmap

    [buffer] holds the [buffer_size] words in use; [rlw] is the position of the
    current marker. *)
Record ewah_bitmap := Ewah_bitmap {
  buffer : list Z;
  alloc_size : Z;
  bit_size : Z;
  rlw : Z;
}.

Definition buffer_size (self : ewah_bitmap) : Z := zlen (buffer self).

Definition rlw_word (self : ewah_bitmap) : outcome Z := rd (buffer self) (rlw self).

(** Replace the current marker by [f] of it. *)
Definition upd_rlw (self : ewah_bitmap) (f : Z → Z) : outcome ewah_bitmap :=
  let! w := rlw_word self in
  let! b := wr (buffer self) (rlw self) (f w) in
  Ret (Ewah_bitmap b (alloc_size self) (bit_size self) (rlw self)).

Definition set_bit_size (self : ewah_bitmap) (n : Z) : ewah_bitmap :=
  Ewah_bitmap (buffer self) (alloc_size self) n (rlw self).

Definition min_size (a b : Z) : Z := if a <? b then a else b.
Definition max_size (a b : Z) : Z := if b <? a then a else b.

Definition buffer_grow (self : ewah_bitmap) (new_size : Z) : ewah_bitmap :=
  Ewah_bitmap (buffer self) (alloc_grow new_size (alloc_size self)) (bit_size self) (rlw self).

Definition buffer_push (self : ewah_bitmap) (value : Z) : ewah_bitmap :=
  let self := buffer_grow self (buffer_size self + 1) in
  Ewah_bitmap (buffer self ++ [value]) (alloc_size self) (bit_size self) (rlw self).

Definition buffer_push_rlw (self : ewah_bitmap) (value : Z) : ewah_bitmap :=
  let self := buffer_push self value in
  Ewah_bitmap (buffer self) (alloc_size self) (bit_size self) (buffer_size self - 1).

(** A new marker with run bit [v] (set only when [v] is not 0). *)
Definition push_run_bit (self : ewah_bitmap) (v : Z) : outcome ewah_bitmap :=
  let self := buffer_push_rlw self 0 in
  if negb (v =? 0) then upd_rlw self (λ w, rlw_set_run_bit w v) else Ret self.

(** [while (number >= RLW_LARGEST_RUNNING_COUNT)]. *)
Fixpoint add_full_runs (fuel : nat) (self : ewah_bitmap) (v number added : Z)
  : outcome (ewah_bitmap * Z * Z) :=
  match fuel with
  | O => NoFuel
  | S fuel =>
      if RLW_LARGEST_RUNNING_COUNT <=? number then
        let! self := push_run_bit self v in
        let! self := upd_rlw self (λ w, rlw_set_running_len w RLW_LARGEST_RUNNING_COUNT) in
        add_full_runs fuel self v (number - RLW_LARGEST_RUNNING_COUNT) (added + 1)
      else Ret (self, number, added)
  end.

Definition add_empty_words (self : ewah_bitmap) (v number : Z) : outcome (ewah_bitmap * Z) :=
  let! w := rlw_word self in
  let! (self, added) :=
    (if negb (rlw_get_run_bit w =? v) && (rlw_size w =? 0) then
       let! self := upd_rlw self (λ w, rlw_set_run_bit w v) in
       Ret (self, 0)
     else if negb (rlw_get_literal_words w =? 0) || negb (rlw_get_run_bit w =? v) then
       let! self := push_run_bit self v in
       Ret (self, 1)
     else Ret (self, 0)) in
  let! w := rlw_word self in
  let runlen := rlw_get_running_len w in
  let can_add := min_size number (RLW_LARGEST_RUNNING_COUNT - runlen) in
  let! self := upd_rlw self (λ w, rlw_set_running_len w (runlen + can_add)) in
  let number := number - can_add in
  let! (self, number, added) :=
    add_full_runs (S (Z.to_nat (number / RLW_LARGEST_RUNNING_COUNT))) self v number added in
  if 0 <? number then
    let! self := push_run_bit self v in
    let! self := upd_rlw self (λ w, rlw_set_running_len w number) in
    Ret (self, added + 1)
  else Ret (self, added).

Definition ewah_add_empty_words (self : ewah_bitmap) (v number : Z) : outcome (ewah_bitmap * Z) :=
  if number =? 0 then Ret (self, 0)
  else
    let self := set_bit_size self (u64 (bit_size self + number * BITS_IN_EWORD)) in
    add_empty_words self v number.

Definition add_literal (self : ewah_bitmap) (new_data : Z) : outcome (ewah_bitmap * Z) :=
  let! w := rlw_word self in
  let current_num := rlw_get_literal_words w in
  if RLW_LARGEST_LITERAL_COUNT <=? current_num then
    let self := buffer_push_rlw self 0 in
    let! self := upd_rlw self (λ w, rlw_set_literal_words w 1) in
    Ret (buffer_push self new_data, 2)
  else
    let! self := upd_rlw self (λ w, rlw_set_literal_words w (current_num + 1)) in
    let! w := rlw_word self in
    oassert (rlw_get_literal_words w =? current_num + 1)
      (Ret (buffer_push self new_data, 1)).

(** [words] are the [number] words at the pointer the caller passes. *)
Fixpoint ewah_add_dirty_words_loop (fuel : nat) (self : ewah_bitmap) (words : list Z) (negate : bool)
  : outcome ewah_bitmap :=
  match fuel with
  | O => NoFuel
  | S fuel =>
      let number := zlen words in
      let! w := rlw_word self in
      let literals := rlw_get_literal_words w in
      let can_add := min_size number (RLW_LARGEST_LITERAL_COUNT - literals) in
      let! self := upd_rlw self (λ w, rlw_set_literal_words w (literals + can_add)) in
      let self := buffer_grow self (buffer_size self + can_add) in
      let chunk := ztake can_add words in
      let chunk := if negate then enot <$> chunk else chunk in
      let self := Ewah_bitmap (buffer self ++ chunk) (alloc_size self)
                    (u64 (bit_size self + can_add * BITS_IN_EWORD)) (rlw self) in
      if number - can_add =? 0 then Ret self
      else ewah_add_dirty_words_loop fuel (buffer_push_rlw self 0) (zdrop can_add words) negate
  end.

Definition ewah_add_dirty_words (self : ewah_bitmap) (words : list Z) (negate : bool)
  : outcome ewah_bitmap :=
  ewah_add_dirty_words_loop (S (S (length words))) self words negate.

Definition add_empty_word (self : ewah_bitmap) (v : Z) : outcome (ewah_bitmap * Z) :=
  let! w := rlw_word self in
  let no_literal := rlw_get_literal_words w =? 0 in
  let run_len := rlw_get_running_len w in
  let! self :=
    (if no_literal && (run_len =? 0) then
       let! self := upd_rlw self (λ w, rlw_set_run_bit w v) in
       let! w := rlw_word self in
       oassert (rlw_get_run_bit w =? v) (Ret self)
     else Ret self) in
  let! w := rlw_word self in
  if no_literal && (rlw_get_run_bit w =? v) && (run_len <? RLW_LARGEST_RUNNING_COUNT) then
    let! self := upd_rlw self (λ w, rlw_set_running_len w (run_len + 1)) in
    let! w := rlw_word self in
    oassert (rlw_get_running_len w =? run_len + 1) (Ret (self, 0))
  else
    let self := buffer_push_rlw self 0 in
    let! w := rlw_word self in
    oassert ((rlw_get_running_len w =? 0) && (rlw_get_run_bit w =? 0) && (rlw_get_literal_words w =? 0))
      (let! self := upd_rlw self (λ w, rlw_set_run_bit w v) in
       let! w := rlw_word self in
       oassert (rlw_get_run_bit w =? v)
         (let! self := upd_rlw self (λ w, rlw_set_running_len w 1) in
          let! w := rlw_word self in
          oassert ((rlw_get_running_len w =? 1) && (rlw_get_literal_words w =? 0))
            (Ret (self, 1)))).

Definition ewah_add (self : ewah_bitmap) (word : Z) : outcome (ewah_bitmap * Z) :=
  let self := set_bit_size self (u64 (bit_size self + BITS_IN_EWORD)) in
  if word =? 0 then add_empty_word self 0
  else if word =? EONES then add_empty_word self 1
  else add_literal self word.

Definition div_round_up (n d : Z) : Z := u64 (n + d - 1) / d.

Definition ewah_set (self : ewah_bitmap) (i : Z) : outcome ewah_bitmap :=
  let dist := u64 (div_round_up (u64 (i + 1)) BITS_IN_EWORD - div_round_up (bit_size self) BITS_IN_EWORD) in
  oassert (bit_size self <=? i)
    (let self := set_bit_size self (u64 (i + 1)) in
     let mask := Z.shiftl 1 (i mod BITS_IN_EWORD) in
     if 0 <? dist then
       let! self := (if 1 <? dist then
                       let! (self, _) := add_empty_words self 0 (dist - 1) in Ret self
                     else Ret self) in
       let! (self, _) := add_literal self mask in
       Ret self
     else
       let! w := rlw_word self in
       if rlw_get_literal_words w =? 0 then
         let! self := upd_rlw self (λ w, rlw_set_running_len w (u64 (rlw_get_running_len w - 1))) in
         let! (self, _) := add_literal self mask in
         Ret self
       else
         let last := buffer_size self - 1 in
         let! x := rd (buffer self) last in
         let! b := wr (buffer self) last (Z.lor x mask) in
         if Z.lor x mask =? EONES then
           let self := Ewah_bitmap (ztake last b) (alloc_size self) (bit_size self) (rlw self) in
           let! self := upd_rlw self (λ w,
             rlw_set_literal_words w (u64 (rlw_get_literal_words w - 1))) in
           let! (self, _) := add_empty_word self 1 in
           Ret self
         else Ret (Ewah_bitmap b (alloc_size self) (bit_size self) (rlw self))).

(** Positions for which [callback] is called, in the order of the calls. *)
Definition run_positions (pos len : Z) : list Z :=
  (λ k, u64 (pos + Z.of_nat k)) <$> seq 0 (Z.to_nat len).

Definition word_positions (word pos : Z) : list Z :=
  (λ c, u64 (pos + Z.of_nat c)) <$>
    filter (λ c, negb (Z.land word (Z.shiftl 1 (Z.of_nat c)) =? 0) = true) (seq 0 64).

(** [for (k = 0; k < rlw_get_literal_words(word); ++k)]. *)
Fixpoint each_literal (k : nat) (buf : list Z) (pointer pos : Z) : outcome (list Z) :=
  match k with
  | O => Ret []
  | S k =>
      let! w := rd buf pointer in
      let! rest := each_literal k buf (pointer + 1) (u64 (pos + BITS_IN_EWORD)) in
      Ret (word_positions w pos ++ rest)
  end.

Fixpoint each_marker (fuel : nat) (buf : list Z) (pointer pos : Z) : outcome (list Z) :=
  match fuel with
  | O => NoFuel
  | S fuel =>
      if pointer <? zlen buf then
        let! w := rd buf pointer in
        let len := rlw_get_running_len w * BITS_IN_EWORD in
        let runs := if negb (rlw_get_run_bit w =? 0) then run_positions pos len else [] in
        let pos := u64 (pos + len) in
        let pointer := pointer + 1 in
        let lw := rlw_get_literal_words w in
        let! lits := each_literal (Z.to_nat lw) buf pointer pos in
        let! rest := each_marker fuel buf (pointer + lw) (u64 (pos + lw * BITS_IN_EWORD)) in
        Ret (runs ++ lits ++ rest)
      else Ret []
  end.

Definition ewah_each_bit (self : ewah_bitmap) : outcome (list Z) :=
  each_marker (S (length (buffer self))) (buffer self) 0 0.

Definition ewah_clear (self : ewah_bitmap) : ewah_bitmap :=
  Ewah_bitmap [0] (alloc_size self) 0 0.

Definition ewah_new : ewah_bitmap := ewah_clear (Ewah_bitmap [] 32 0 0).

(** The pool of recycled bitmaps, the one handed out next at the end. *)
Definition BITMAP_POOL_MAX : Z := 16.

Definition ewah_pool_new (bitmap_pool : list ewah_bitmap) : ewah_bitmap * list ewah_bitmap :=
  match last bitmap_pool with
  | Some b => (b, ztake (zlen bitmap_pool - 1) bitmap_pool)
  | None => (ewah_new, bitmap_pool)
  end.

Definition ewah_pool_free (bitmap_pool : list ewah_bitmap) (self : ewah_bitmap) : list ewah_bitmap :=
  if (zlen bitmap_pool =? BITMAP_POOL_MAX) || (alloc_size self =? 0) then bitmap_pool
  else bitmap_pool ++ [ewah_clear self].

Fixpoint checksum_bytes (bytes : list Z) (crc : Z) : Z :=
  match bytes with
  | [] => crc
  | b :: bytes => checksum_bytes bytes (u32 (u32 (u32 (Z.shiftl crc 5) - crc) + b))
  end.

(** The bytes of a word in memory on a little-endian machine. *)
Definition le64 (w : Z) : list Z := (λ k, u8 (Z.shiftr w (8 * Z.of_nat k))) <$> seq 0 8.

Definition ewah_checksum (self : ewah_bitmap) : Z :=
  checksum_bytes (concat (le64 <$> buffer self)) (u32 (bit_size self)).

End Ewah.
