(* ===== verification/EwahSpec.v ===== *)
(** * What the compressed bitmap stands for

    A well-formed buffer is a sequence of segments (a run and its literals); the
    words it stands for are the concatenation of theirs.  Every operation of
    [Ewah] is shown to keep the buffer well formed and to have its effect on
    the words. *)
From stdpp Require Import prelude.
From S2P Require Import Prelude Ewah.
Import Ewah.

Module EwahSpec.

Definition word_ok (w : Z) : Prop := 0 <= w < 2 ^ 64.

(** ** Markers *)
Definition marker (b r l : Z) : Z := b + 2 * r + 2 ^ 33 * l.

Definition fields_ok (b r l : Z) : Prop :=
  (b = 0 ∨ b = 1) ∧ 0 <= r <= RLW_LARGEST_RUNNING_COUNT ∧ 0 <= l <= RLW_LARGEST_LITERAL_COUNT.

Lemma consts :
  RLW_LARGEST_RUNNING_COUNT = 2 ^ 32 - 1 ∧ RLW_LARGEST_LITERAL_COUNT = 2 ^ 31 - 1 ∧
  RLW_LARGEST_RUNNING_COUNT_SHIFT = 2 ^ 33 - 2 ∧ RLW_RUNNING_LEN_PLUS_BIT = 2 ^ 33 - 1.
Proof. done. Qed.

Ltac fields :=
  unfold fields_ok in *;
  destruct consts as (Ec1 & Ec2 & Ec3 & Ec4); rewrite ?Ec1, ?Ec2 in *; clear Ec1 Ec2 Ec3 Ec4.

Lemma get_run_bit_marker b r l : fields_ok b r l → rlw_get_run_bit (marker b r l) = b.
Proof.
  intros H. fields. unfold rlw_get_run_bit, marker. rewrite (land_ones_mod _ 1) by done.
  Z.div_mod_to_equations; lia.
Qed.
Lemma get_running_len_marker b r l : fields_ok b r l → rlw_get_running_len (marker b r l) = r.
Proof.
  intros H. fields. unfold rlw_get_running_len, marker.
  rewrite (land_ones_mod _ 32), Z.shiftr_div_pow2 by done. Z.div_mod_to_equations; lia.
Qed.
Lemma get_literal_words_marker b r l : fields_ok b r l → rlw_get_literal_words (marker b r l) = l.
Proof.
  intros H. fields. unfold rlw_get_literal_words, marker, RLW_RUNNING_BITS.
  rewrite Z.shiftr_div_pow2 by done. change (2 ^ (1 + 32)) with (2 ^ 33).
  Z.div_mod_to_equations; lia.
Qed.

Lemma enot_spec x i : 0 <= i → Z.testbit (enot x) i = (i <? 64) && negb (Z.testbit x i).
Proof.
  intros Hi. unfold enot, u64. rewrite Z.testbit_mod_pow2 by lia. by rewrite Z.lnot_spec.
Qed.

(** Both setters of a bit field: the bits [n, m) of [w] become [x]. *)
Lemma set_field w x n m :
  word_ok w → 0 <= n <= m → m <= 64 → 0 <= x < 2 ^ (m - n) →
  let M := Z.shiftl (Z.ones (m - n)) n in
  Z.land (Z.lor w M) (Z.lor (Z.shiftl x n) (enot M)) = w mod 2 ^ n + x * 2 ^ n + w / 2 ^ m * 2 ^ m.
Proof.
  intros Hw Hn Hm Hx M.
  assert (0 < 2 ^ n) by (apply Z.pow_pos_nonneg; lia).
  assert (2 ^ m = 2 ^ n * 2 ^ (m - n)) as Epow by (rewrite <- Z.pow_add_r by lia; f_equal; lia).
  pose proof (Z.mod_pos_bound w (2 ^ n) ltac:(lia)).
  transitivity (Z.lor (Z.shiftl (w / 2 ^ m) m) (Z.lor (Z.shiftl x n) (w mod 2 ^ n))).
  2:{ rewrite (lor_disjoint_add x) by lia. rewrite lor_disjoint_add by nia. lia. }
  apply Z.bits_inj'. intros i Hi.
  rewrite Z.land_spec, !Z.lor_spec, enot_spec, Z.testbit_mod_pow2 by lia.
  unfold M. rewrite !Z.shiftl_spec by lia.
  destruct (Z.ltb_spec i n) as [Hin|Hin].
  { rewrite !(Z.testbit_neg_r _ (i - _)) by lia. rewrite (proj2 (Z.ltb_lt i 64)) by lia.
    by rewrite orb_false_r, andb_true_r. }
  destruct (Z.ltb_spec i m) as [Him|Him].
  { rewrite Z.ones_spec_low, (Z.testbit_neg_r _ (i - m)) by lia.
    by rewrite orb_true_r, andb_false_r, !orb_false_r. }
  rewrite Z.ones_spec_high, (testbit_above x (m - n)) by lia.
  rewrite <- Z.shiftr_div_pow2, Z.shiftr_spec by lia. replace (i - m + m) with i by lia.
  rewrite orb_false_r, andb_true_r, orb_false_r. cbn [orb].
  destruct (Z.ltb_spec i 64); [by rewrite andb_true_r|].
  by rewrite (testbit_above w 64) by done.
Qed.

Lemma marker_word b r l : fields_ok b r l → word_ok (marker b r l).
Proof. intros H. fields. unfold word_ok, marker. lia. Qed.

Lemma set_running_len_marker b r l r' :
  fields_ok b r l → 0 <= r' <= RLW_LARGEST_RUNNING_COUNT →
  rlw_set_running_len (marker b r l) r' = marker b r' l.
Proof.
  intros H Hr'. pose proof (marker_word _ _ _ H) as Hw. unfold rlw_set_running_len.
  fields. unfold u64. rewrite (Z.mod_small (Z.shiftl r' 1)) by (rewrite Z.shiftl_mul_pow2; lia).
  pose proof (set_field (marker b r l) r' 1 33 Hw ltac:(lia) ltac:(lia) ltac:(lia)) as E.
  cbv zeta in E. change (Z.shiftl (Z.ones (33 - 1)) 1) with RLW_LARGEST_RUNNING_COUNT_SHIFT in E.
  rewrite E. unfold marker. Z.div_mod_to_equations; lia.
Qed.

Lemma set_literal_words_marker b r l l' :
  fields_ok b r l → 0 <= l' <= RLW_LARGEST_LITERAL_COUNT →
  rlw_set_literal_words (marker b r l) l' = marker b r l'.
Proof.
  intros H Hl'. pose proof (marker_word _ _ _ H) as Hw. unfold rlw_set_literal_words, RLW_RUNNING_BITS.
  fields. change (32 + 1) with 33. unfold u64.
  rewrite (Z.mod_small (Z.shiftl l' 33)) by (rewrite Z.shiftl_mul_pow2; lia).
  pose proof (set_field (marker b r l) l' 33 64 Hw ltac:(lia) ltac:(lia) ltac:(lia)) as E.
  cbv zeta in E. 
  change (enot (Z.shiftl (Z.ones (64 - 33)) 33)) with RLW_RUNNING_LEN_PLUS_BIT in E.
  change (Z.shiftl (Z.ones (64 - 33)) 33) with (enot RLW_RUNNING_LEN_PLUS_BIT) in E.
  rewrite E. unfold marker. Z.div_mod_to_equations; lia.
Qed.

Lemma set_run_bit_marker b r l v :
  fields_ok b r l → v = 0 ∨ v = 1 → rlw_set_run_bit (marker b r l) v = marker v r l.
Proof.
  intros H Hv. pose proof (marker_word _ _ _ H) as Hw. unfold rlw_set_run_bit.
  pose proof (set_field (marker b r l) v 0 1 Hw ltac:(lia) ltac:(lia) ltac:(lia)) as E.
  cbv zeta in E. change (Z.shiftl (Z.ones (1 - 0)) 0) with 1 in E. rewrite Z.shiftl_0_r in E.
  transitivity (Z.land (Z.lor (marker b r l) 1) (Z.lor v (enot 1))).
  - fields. destruct Hv as [-> | ->]; cbn [Z.eqb negb].
    + rewrite Z.lor_0_l, Z.land_lor_distr_l. change (Z.land 1 (enot 1)) with 0.
      by rewrite Z.lor_0_r.
    + change (Z.lor 1 (enot 1)) with (Z.ones 64). rewrite Z.land_ones by lia.
      rewrite Z.mod_small; [done|]. apply lor_lt_pow2; [lia|done|lia].
  - rewrite E. fields. unfold marker. Z.div_mod_to_equations; lia.
Qed.

(** ** Segments *)
Record seg := Seg { s_bit : Z; s_run : Z; s_lits : list Z }.

Definition seg_ok (s : seg) : Prop :=
  fields_ok (s_bit s) (s_run s) (zlen (s_lits s)) ∧ Forall word_ok (s_lits s).

Definition fill (b : Z) : Z := if b =? 0 then 0 else EONES.

Definition enc_seg (s : seg) : list Z := marker (s_bit s) (s_run s) (zlen (s_lits s)) :: s_lits s.
Definition enc_segs (ss : list seg) : list Z := concat (enc_seg <$> ss).
Definition seg_words (s : seg) : list Z := zrep (s_run s) (fill (s_bit s)) ++ s_lits s.
Definition segs_words (ss : list seg) : list Z := concat (seg_words <$> ss).
Definition seg_size (s : seg) : Z := s_run s + zlen (s_lits s).

(** [repr self ws]: the buffer is well formed and stands for the words [ws].
    Only a marker that is alone may be empty. *)
Definition repr (self : ewah_bitmap) (ws : list Z) : Prop :=
  ∃ init last, buffer self = enc_segs (init ++ [last]) ∧ rlw self = zlen (enc_segs init) ∧
    Forall seg_ok (init ++ [last]) ∧ Forall (λ s, 0 < seg_size s) init ∧
    (init ≠ [] → 0 < seg_size last) ∧
    0 <= alloc_size self ∧ segs_words (init ++ [last]) = ws.

Lemma enc_segs_app a b : enc_segs (a ++ b) = enc_segs a ++ enc_segs b.
Proof. unfold enc_segs. by rewrite fmap_app, concat_app. Qed.
Lemma segs_words_app a b : segs_words (a ++ b) = segs_words a ++ segs_words b.
Proof. unfold segs_words. by rewrite fmap_app, concat_app. Qed.
Lemma enc_segs_1 s : enc_segs [s] = enc_seg s.
Proof. unfold enc_segs. cbn. by rewrite app_nil_r. Qed.
Lemma segs_words_1 s : segs_words [s] = seg_words s.
Proof. unfold segs_words. cbn. by rewrite app_nil_r. Qed.

Lemma length_enc_segs ss : (length ss <= length (enc_segs ss))%nat.
Proof.
  induction ss as [|s ss IH]; [done|]. change (enc_segs (s :: ss)) with (enc_seg s ++ enc_segs ss).
  rewrite length_app. cbn. lia.
Qed.

Lemma length_enc_pos ss : ss ≠ [] → 0 < zlen (enc_segs ss).
Proof.
  destruct ss as [|s ss]; [done|]. intros _. change (enc_segs (s :: ss)) with (enc_seg s ++ enc_segs ss).
  unfold enc_seg. rewrite zlen_app, zlen_cons.
  pose proof (zlen_nonneg (s_lits s)). pose proof (zlen_nonneg (enc_segs ss)). lia.
Qed.

(** A bitmap whose current marker may be about to get more literals than it has:
    [emk init b r l lits] is the state inside an operation. *)
Definition emk (init : list seg) (b r l : Z) (lits : list Z) (alloc bits : Z) : ewah_bitmap :=
  Ewah_bitmap (enc_segs init ++ marker b r l :: lits) alloc bits (zlen (enc_segs init)).

Lemma rlw_word_emk init b r l lits alloc bits :
  rlw_word (emk init b r l lits alloc bits) = Ret (marker b r l).
Proof. unfold rlw_word, emk. cbn [buffer rlw]. apply rd_znth, znth_app_len. Qed.

Lemma upd_rlw_emk init b r l lits alloc bits f b' r' l' :
  f (marker b r l) = marker b' r' l' →
  upd_rlw (emk init b r l lits alloc bits) f = Ret (emk init b' r' l' lits alloc bits).
Proof.
  intros Hf. unfold upd_rlw. rewrite rlw_word_emk. cbn [obind]. rewrite Hf.
  unfold emk. cbn [buffer rlw alloc_size bit_size]. rewrite wr_ok.
  - cbn [obind]. f_equal. f_equal. unfold zlen. rewrite Nat2Z.id.
    by rewrite insert_app_r_alt, Nat.sub_diag by lia.
  - rewrite zlen_app, zlen_cons. pose proof (zlen_nonneg (enc_segs init)).
    pose proof (zlen_nonneg lits). lia.
Qed.

Lemma buffer_push_emk init b r l lits alloc bits x :
  0 <= alloc → ∃ alloc', 0 <= alloc' ∧
  buffer_push (emk init b r l lits alloc bits) x = emk init b r l (lits ++ [x]) alloc' bits.
Proof.
  intros Ha. unfold buffer_push, buffer_grow, emk, buffer_size. cbn [buffer rlw alloc_size bit_size].
  eexists. split; [|by rewrite <- app_assoc].
  match goal with |- 0 <= alloc_grow ?n ?a => destruct (alloc_grow_ge n a); lia end.
Qed.

Lemma buffer_push_rlw_emk init b r lits alloc bits :
  0 <= alloc → ∃ alloc', 0 <= alloc' ∧
  buffer_push_rlw (emk init b r (zlen lits) lits alloc bits) 0 =
    emk (init ++ [Seg b r lits]) 0 0 0 [] alloc' bits.
Proof.
  intros Ha. unfold buffer_push_rlw.
  destruct (buffer_push_emk init b r (zlen lits) lits alloc bits 0 Ha) as (alloc' & Ha' & ->).
  exists alloc'. split; [done|]. unfold emk, buffer_size. cbn [buffer rlw alloc_size bit_size].
  rewrite enc_segs_app, enc_segs_1. unfold enc_seg. cbn [s_bit s_run s_lits]. f_equal.
  - by rewrite <- app_assoc.
  - rewrite !zlen_app, !zlen_cons, zlen_app. change (zlen [0]) with 1. lia.
Qed.

Lemma repr_emk init b r lits alloc bits ws :
  Forall seg_ok init → fields_ok b r (zlen lits) → Forall word_ok lits →
  Forall (λ s, 0 < seg_size s) init → (init ≠ [] → 0 < r + zlen lits) → 0 <= alloc →
  segs_words init ++ zrep r (fill b) ++ lits = ws →
  repr (emk init b r (zlen lits) lits alloc bits) ws.
Proof.
  intros. exists init, (Seg b r lits). unfold emk. cbn [buffer rlw alloc_size].
  rewrite enc_segs_app, segs_words_app, enc_segs_1, segs_words_1.
  split_and!; try done. apply Forall_app. split; [done|]. by constructor.
Qed.

Lemma repr_inv self ws :
  repr self ws → ∃ init b r lits alloc bits,
    self = emk init b r (zlen lits) lits alloc bits ∧
    Forall seg_ok init ∧ fields_ok b r (zlen lits) ∧ Forall word_ok lits ∧
    Forall (λ s, 0 < seg_size s) init ∧ (init ≠ [] → 0 < r + zlen lits) ∧ 0 <= alloc ∧
    segs_words init ++ zrep r (fill b) ++ lits = ws.
Proof.
  intros (init & [b r lits] & Hb & Hr & [Hok [[Hf Hl] _]%Forall_cons]%Forall_app & Hn & Hn' & Ha & <-).
  exists init, b, r, lits, (alloc_size self), (bit_size self).
  rewrite segs_words_app, segs_words_1. split_and!; try done.
  destruct self as [bf al bs rl]. cbn in Hb, Hr. subst. unfold emk.
  by rewrite enc_segs_app, enc_segs_1.
Qed.

Lemma Forall_snoc {A} (P : A → Prop) l x : Forall P l → P x → Forall P (l ++ [x]).
Proof. intros. apply Forall_app. split; [done|]. by constructor. Qed.

Lemma segs_snoc init b r lits :
  Forall seg_ok init → Forall (λ s, 0 < seg_size s) init →
  fields_ok b r (zlen lits) → Forall word_ok lits → 0 < r + zlen lits →
  Forall seg_ok (init ++ [Seg b r lits]) ∧ Forall (λ s, 0 < seg_size s) (init ++ [Seg b r lits]) ∧
  segs_words (init ++ [Seg b r lits]) = segs_words init ++ zrep r (fill b) ++ lits.
Proof.
  intros. split_and!; [by apply Forall_snoc..|]. by rewrite segs_words_app, segs_words_1.
Qed.

(** ** Runs *)

Lemma fill_bit v : v = 0 ∨ v = 1 → fields_ok v 0 0.
Proof. intros. fields. lia. Qed.

Lemma push_run_bit_emk init b r lits alloc bits v :
  0 <= alloc → v = 0 ∨ v = 1 → ∃ alloc', 0 <= alloc' ∧
  push_run_bit (emk init b r (zlen lits) lits alloc bits) v =
    Ret (emk (init ++ [Seg b r lits]) v 0 0 [] alloc' bits).
Proof.
  intros Ha Hv. unfold push_run_bit.
  destruct (buffer_push_rlw_emk init b r lits alloc bits Ha) as (alloc' & Ha' & ->).
  exists alloc'. split; [done|]. destruct Hv as [-> | ->]; cbn [Z.eqb negb]; [done|].
  by apply upd_rlw_emk.
Qed.

(** The current marker has run bit [v], no literals and [r] run words. *)
Definition running (self : ewah_bitmap) (v r bits : Z) (ws : list Z) : Prop :=
  ∃ init alloc, self = emk init v r 0 [] alloc bits ∧ Forall seg_ok init ∧
    0 <= r <= RLW_LARGEST_RUNNING_COUNT ∧ Forall (λ s, 0 < seg_size s) init ∧ 0 <= alloc ∧
    segs_words init ++ zrep r (fill v) = ws.

Lemma running_repr self v r bits ws :
  v = 0 ∨ v = 1 → 0 < r → running self v r bits ws → repr self ws ∧ bit_size self = bits.
Proof.
  intros Hv Hr (init & alloc & -> & Hok & Hrr & Hn & Ha & Hws). split; [|done].
  apply (repr_emk init v r []); try done.
  - fields. change (zlen ([] : list Z)) with 0. lia.
  - by rewrite app_nil_r.
Qed.

Lemma running_set self v r bits ws r' :
  v = 0 ∨ v = 1 → running self v r bits ws → r <= r' <= RLW_LARGEST_RUNNING_COUNT →
  returns (upd_rlw self (λ w, rlw_set_running_len w r'))
    (λ self', running self' v r' bits (ws ++ zrep (r' - r) (fill v))).
Proof.
  intros Hv (init & alloc & -> & Hok & Hrr & Hn & Ha & <-) Hr'.
  rewrite (upd_rlw_emk _ v r 0 _ _ _ _ v r' 0).
  2:{ apply set_running_len_marker; fields; lia. }
  cbn [wp]. exists init, alloc. split_and!; try done; try lia.
  rewrite <- app_assoc, <- zrep_add by lia. by replace (r + (r' - r)) with r' by lia.
Qed.

Lemma running_push self v r bits ws :
  v = 0 ∨ v = 1 → 0 < r → running self v r bits ws →
  returns (push_run_bit self v) (λ self', running self' v 0 bits ws).
Proof.
  intros Hv Hr (init & alloc & -> & Hok & Hrr & Hn & Ha & <-).
  destruct (push_run_bit_emk init v r [] alloc bits v Ha Hv) as (alloc' & Ha' & E).
  change (zlen ([] : list Z)) with 0 in E. rewrite E. cbn [wp].
  destruct (segs_snoc init v r []) as (? & ? & E'); [done|done| |constructor| |].
  { fields. change (zlen ([] : list Z)) with 0. lia. }
  { change (zlen ([] : list Z)) with 0. lia. }
  exists (init ++ [Seg v r []]), alloc'. split_and!; try done.
  by rewrite E', zrep_0, !app_nil_r.
Qed.

Lemma add_full_runs_wp fuel self v r number added bits ws :
  v = 0 ∨ v = 1 → (0 < number → 0 < r) → 0 <= number →
  number < Z.of_nat fuel * RLW_LARGEST_RUNNING_COUNT → running self v r bits ws →
  returns (add_full_runs fuel self v number added) (λ '(self', number', _),
    0 <= number' <= number ∧ (0 < number' → number' < RLW_LARGEST_RUNNING_COUNT) ∧
    ∃ r', (0 < r → 0 < r') ∧
      running self' v r' bits (ws ++ zrep (number - number') (fill v))).
Proof.
  intros Hv. revert self r number added ws.
  induction fuel as [|fuel IH]; intros self r number added ws Hr Hn Hf Hrun.
  { fields. lia. }
  cbn [add_full_runs]. destruct (Z.leb_spec RLW_LARGEST_RUNNING_COUNT number) as [Hle|].
  - assert (0 < number) by (fields; lia).
    apply wp_bind. eapply wp_mono; [|eapply (running_push self v r bits ws); [done|by apply Hr|exact Hrun]].
    intros self1 H1. apply wp_bind.
    eapply wp_mono; [|eapply (running_set self1 v 0); [done|exact H1|fields; lia]].
    intros self2 H2. rewrite Z.sub_0_r in H2.
    eapply wp_mono; [|eapply IH; [|fields; lia| |exact H2]]; [|fields; lia..].
    intros [[self' number'] added'] (Hn' & Hlt & r' & Hr' & Hrun'). split_and!; [fields; lia..|].
    exists r'. split; [intros; apply Hr'; fields; lia|].
    rewrite <- app_assoc, <- zrep_add in Hrun' by (fields; lia).
    by replace (RLW_LARGEST_RUNNING_COUNT + (number - RLW_LARGEST_RUNNING_COUNT - number'))
      with (number - number') in Hrun' by lia.
  - cbn [wp]. split_and!; [lia..|]. exists r. rewrite Z.sub_diag, zrep_0, app_nil_r. done.
Qed.

(** Whatever the current marker is, the first step of [add_empty_words] leaves
    one that can take a run of [v]. *)
Lemma prepare_run_wp self ws v :
  repr self ws → v = 0 ∨ v = 1 →
  returns (let! w := rlw_word self in
    if negb (rlw_get_run_bit w =? v) && (rlw_size w =? 0) then
      let! self := upd_rlw self (λ w, rlw_set_run_bit w v) in
      Ret (self, 0)
    else if negb (rlw_get_literal_words w =? 0) || negb (rlw_get_run_bit w =? v) then
      let! self := push_run_bit self v in
      Ret (self, 1)
    else Ret (self, 0)) (λ '(self', _), ∃ r, running self' v r (bit_size self) ws).
Proof.
  intros Hrepr Hv. apply repr_inv in Hrepr as
    (init & b & r & lits & alloc & bits & -> & Hok & Hf & Hl & Hn & Hne & Ha & <-).
  change (bit_size _) with bits. rewrite rlw_word_emk. cbn [obind].
  unfold rlw_size. rewrite get_run_bit_marker, get_literal_words_marker, get_running_len_marker by done.
  pose proof (zlen_nonneg lits). unfold u64. rewrite Z.mod_small by (fields; lia).
  destruct (Z.eqb_spec b v) as [->|Hbv]; cbn [negb andb].
  - destruct (Z.eqb_spec (zlen lits) 0) as [E|E]; cbn [negb orb].
    + destruct lits; [|rewrite zlen_cons in E; pose proof (zlen_nonneg lits); lia].
      cbn [wp]. exists r, init, alloc. rewrite app_nil_r. split_and!; try done; fields; lia.
    + destruct (push_run_bit_emk init v r lits alloc bits v Ha Hv) as (alloc' & Ha' & ->). cbn.
      destruct (segs_snoc init v r lits) as (? & ? & E'); [done|done|done|done|fields; lia|].
      exists 0, (init ++ [Seg v r lits]), alloc'. split_and!; try done. by rewrite app_nil_r.
  - destruct (Z.eqb_spec (r + zlen lits) 0) as [E|E].
    + assert (r = 0) as -> by (fields; lia).
      destruct lits; [|rewrite zlen_cons in E; pose proof (zlen_nonneg lits); lia].
      change (zlen ([] : list Z)) with 0 in *.
      rewrite (upd_rlw_emk _ b 0 0 _ _ _ _ v 0 0) by (by apply set_run_bit_marker).
      cbn [obind wp]. exists 0, init, alloc. split_and!; try done.
    + rewrite orb_true_r.
      destruct (push_run_bit_emk init b r lits alloc bits v Ha Hv) as (alloc' & Ha' & ->). cbn.
      destruct (segs_snoc init b r lits) as (? & ? & E'); [done|done|done|done|fields; lia|].
      exists 0, (init ++ [Seg b r lits]), alloc'. split_and!; try done. by rewrite app_nil_r.
Qed.

Lemma add_empty_words_wp self ws v number :
  repr self ws → v = 0 ∨ v = 1 → 0 < number →
  returns (add_empty_words self v number) (λ '(self', _),
    repr self' (ws ++ zrep number (fill v)) ∧ bit_size self' = bit_size self).
Proof.
  intros Hrepr Hv Hnum. unfold add_empty_words.
  pose proof (prepare_run_wp self ws v Hrepr Hv) as Hprep.
  destruct (rlw_word self) as [w| | |]; try done. cbn [obind] in *.
  apply wp_bind. eapply wp_mono; [|exact Hprep]. clear Hprep.
  intros [self1 added] (r & Hrun). set (bits := bit_size self) in *. clearbody bits.
  pose proof Hrun as (init & alloc & -> & Hok & Hr & _). rewrite rlw_word_emk. cbn [obind].
  rewrite get_running_len_marker by (fields; lia).
  set (can_add := min_size number (RLW_LARGEST_RUNNING_COUNT - r)).
  assert (0 <= can_add <= number ∧ r + can_add <= RLW_LARGEST_RUNNING_COUNT ∧
    (can_add < number → r + can_add = RLW_LARGEST_RUNNING_COUNT) ∧ 0 < r + can_add) as (Hca & Hcm & Hcf & Hcp).
  { unfold can_add, min_size. destruct (Z.ltb_spec number (RLW_LARGEST_RUNNING_COUNT - r)); fields; lia. }
  clearbody can_add. apply wp_bind. eapply wp_mono; [|eapply (running_set _ v r); [done|done|lia]].
  intros self2 H2. replace (r + can_add - r) with can_add in H2 by lia. apply wp_bind.
  eapply wp_mono; [|eapply (add_full_runs_wp _ self2 v (r + can_add)); [done|lia|lia| |exact H2]].
  2:{ rewrite Nat2Z.inj_succ, Z2Nat.id by (apply Z.div_pos; fields; lia).
      rewrite Z.mul_comm. apply Z.mul_succ_div_gt. fields. lia. }
  intros [[self3 number3] added3] (Hn3 & Hlt3 & r3 & Hr3 & H3).
  rewrite <- app_assoc, <- zrep_add in H3 by lia.
  destruct (Z.ltb_spec 0 number3).
  - apply wp_bind. eapply wp_mono; [|eapply (running_push self3); [done| |exact H3]; lia].
    intros self4 H4. apply wp_bind.
    eapply wp_mono; [|eapply (running_set self4); [done|exact H4|]; lia].
    intros self5 H5. cbn [wp]. rewrite Z.sub_0_r, <- app_assoc, <- zrep_add in H5 by lia.
    replace (can_add + (number - can_add - number3) + number3) with number in H5 by lia.
    by apply (running_repr _ v number3).
  - cbn [wp]. replace (can_add + (number - can_add - number3)) with number in H3 by lia.
    apply (running_repr _ v r3); [done|auto|done].
Qed.

(** ** Literals and single words

    [loose self ws]: as [repr], but the current marker may be empty. *)
Definition loose (self : ewah_bitmap) (bits : Z) (ws : list Z) : Prop :=
  ∃ init b r lits alloc,
    self = emk init b r (zlen lits) lits alloc bits ∧
    Forall seg_ok init ∧ fields_ok b r (zlen lits) ∧ Forall word_ok lits ∧
    Forall (λ s, 0 < seg_size s) init ∧ 0 <= alloc ∧
    segs_words init ++ zrep r (fill b) ++ lits = ws.

Lemma repr_loose self ws : repr self ws → loose self (bit_size self) ws.
Proof.
  intros (init & b & r & lits & alloc & bits & -> & Hok & Hf & Hl & Hn & _ & Ha & <-)%repr_inv.
  by exists init, b, r, lits, alloc.
Qed.

Lemma loose_literal init b r lits alloc bits x ws :
  Forall seg_ok init → fields_ok b r (zlen (lits ++ [x])) → Forall word_ok lits → word_ok x →
  Forall (λ s, 0 < seg_size s) init → 0 <= alloc →
  segs_words init ++ zrep r (fill b) ++ lits = ws →
  repr (buffer_push (emk init b r (zlen lits + 1) lits alloc bits) x) (ws ++ [x]) ∧
  bit_size (buffer_push (emk init b r (zlen lits + 1) lits alloc bits) x) = bits.
Proof.
  intros Hok Hf Hl Hx Hn Ha <-. split; [|done].
  destruct (buffer_push_emk init b r (zlen lits + 1) lits alloc bits x Ha) as (alloc' & Ha' & ->).
  replace (zlen lits + 1) with (zlen (lits ++ [x])) in * by (rewrite zlen_app; done).
  apply repr_emk; try done.
  - by apply Forall_snoc.
  - intros _. rewrite zlen_app. change (zlen [x]) with 1. pose proof (zlen_nonneg lits).
    fields. lia.
  - by rewrite <- !app_assoc.
Qed.

Lemma add_literal_wp self bits ws x :
  loose self bits ws → word_ok x →
  returns (add_literal self x) (λ '(self', _), repr self' (ws ++ [x]) ∧ bit_size self' = bits).
Proof.
  intros (init & b & r & lits & alloc & -> & Hok & Hf & Hl & Hn & Ha & Hws) Hx.
  unfold add_literal. rewrite rlw_word_emk. cbn [obind]. rewrite get_literal_words_marker by done.
  pose proof (zlen_nonneg lits).
  destruct (Z.leb_spec RLW_LARGEST_LITERAL_COUNT (zlen lits)).
  - destruct (buffer_push_rlw_emk init b r lits alloc bits Ha) as (alloc' & Ha' & ->).
    rewrite (upd_rlw_emk _ 0 0 0 _ _ _ _ 0 0 1) by done. cbn [obind wp].
    destruct (segs_snoc init b r lits) as (? & ? & E'); [done|done|done|done|fields; lia|].
    apply (loose_literal (init ++ [Seg b r lits]) 0 0 []); try done.
    + change (zlen ([] ++ [x])) with 1. fields. lia.
    + by rewrite E', zrep_0, !app_nil_r.
  - rewrite (upd_rlw_emk _ b r (zlen lits) _ _ _ _ b r (zlen lits + 1)).
    2:{ apply set_literal_words_marker; [done|]. lia. }
    assert (fields_ok b r (zlen lits + 1)) by (fields; lia).
    cbn [obind]. rewrite rlw_word_emk. cbn [obind]. rewrite get_literal_words_marker by done.
    apply wp_assert; [by rewrite Z.eqb_refl|]. cbn [wp]. apply loose_literal; try done.
    rewrite zlen_app. done.
Qed.

Lemma add_empty_word_tail self v bits ws :
  v = 0 ∨ v = 1 →
  (∃ init b r lits alloc, self = emk init b r (zlen lits) lits alloc bits ∧
    Forall seg_ok init ∧ fields_ok b r (zlen lits) ∧ Forall word_ok lits ∧
    Forall (λ s, 0 < seg_size s) init ∧ 0 < r + zlen lits ∧ 0 <= alloc ∧
    segs_words init ++ zrep r (fill b) ++ lits = ws) →
  returns (let self := buffer_push_rlw self 0 in
    let! w := rlw_word self in
    oassert ((rlw_get_running_len w =? 0) && (rlw_get_run_bit w =? 0) && (rlw_get_literal_words w =? 0))
      (let! self := upd_rlw self (λ w, rlw_set_run_bit w v) in
       let! w := rlw_word self in
       oassert (rlw_get_run_bit w =? v)
         (let! self := upd_rlw self (λ w, rlw_set_running_len w 1) in
          let! w := rlw_word self in
          oassert ((rlw_get_running_len w =? 1) && (rlw_get_literal_words w =? 0))
            (Ret (self, 1)))))
    (λ '(self', _), repr self' (ws ++ [fill v]) ∧ bit_size self' = bits).
Proof.
  intros Hv (init & b & r & lits & alloc & -> & Hok & Hf & Hl & Hn & Hne & Ha & <-). cbv zeta.
  destruct (buffer_push_rlw_emk init b r lits alloc bits Ha) as (alloc' & Ha' & ->).
  rewrite rlw_word_emk. cbn [obind].
  rewrite get_running_len_marker, get_run_bit_marker, get_literal_words_marker by (fields; lia).
  apply wp_assert; [done|].
  rewrite (upd_rlw_emk _ 0 0 0 _ _ _ _ v 0 0) by (apply set_run_bit_marker; [fields; lia|done]).
  cbn [obind]. rewrite rlw_word_emk. cbn [obind]. rewrite get_run_bit_marker by (fields; lia).
  apply wp_assert; [apply Z.eqb_refl|].
  rewrite (upd_rlw_emk _ v 0 0 _ _ _ _ v 1 0) by (apply set_running_len_marker; fields; lia).
  cbn [obind]. rewrite rlw_word_emk. cbn [obind].
  rewrite get_running_len_marker, get_literal_words_marker by (fields; lia).
  apply wp_assert; [done|]. cbn [wp]. split; [|done].
  destruct (segs_snoc init b r lits) as (? & ? & E'); [done|done|done|done|done|].
  apply (repr_emk _ v 1 []); try done. by rewrite E', app_nil_r.
Qed.

Lemma add_empty_word_wp self bits ws v :
  loose self bits ws → v = 0 ∨ v = 1 →
  returns (add_empty_word self v) (λ '(self', _),
    repr self' (ws ++ [fill v]) ∧ bit_size self' = bits).
Proof.
  intros (init & b & r & lits & alloc & -> & Hok & Hf & Hl & Hn & Ha & Hws) Hv.
  unfold add_empty_word. rewrite rlw_word_emk. cbn [obind].
  rewrite get_literal_words_marker, get_running_len_marker by done.
  pose proof (zlen_nonneg lits).
  apply wp_bind, (wp_mono _ _ (λ self', ∃ b', self' = emk init b' r (zlen lits) lits alloc bits ∧
    fields_ok b' r (zlen lits) ∧ zrep r (fill b') = zrep r (fill b) ∧
    (zlen lits = 0 → r = 0 → b' = v))).
  2:{ destruct (Z.eqb_spec (zlen lits) 0) as [El|]; cbn [andb].
      2:{ exists b. split_and!; done. }
      destruct (Z.eqb_spec r 0) as [->|]; [|exists b; split_and!; done || (fields; lia)].
      rewrite (upd_rlw_emk _ b 0 (zlen lits) _ _ _ _ v 0 (zlen lits)) by (by apply set_run_bit_marker).
      assert (fields_ok v 0 (zlen lits)) by (fields; lia).
      cbn [obind]. rewrite rlw_word_emk. cbn [obind]. rewrite get_run_bit_marker by done.
      apply wp_assert; [apply Z.eqb_refl|]. cbn [wp]. by exists v. }
  intros self' (b' & -> & Hf' & Efill & Hb'). rewrite rlw_word_emk. cbn [obind].
  rewrite get_run_bit_marker by done.
  destruct ((zlen lits =? 0) && (b' =? v) && (r <? RLW_LARGEST_RUNNING_COUNT)) eqn:Ec.
  - apply andb_true_iff in Ec as [[El Eb]%andb_true_iff Er].
    apply Z.eqb_eq in El, Eb. apply Z.ltb_lt in Er. subst b'.
    destruct lits; [|rewrite zlen_cons in El; pose proof (zlen_nonneg lits); lia].
    change (zlen ([] : list Z)) with 0 in *.
    rewrite (upd_rlw_emk _ v r 0 _ _ _ _ v (r + 1) 0) by (apply set_running_len_marker; [done|fields; lia]).
    cbn [obind]. rewrite rlw_word_emk. cbn [obind]. rewrite get_running_len_marker by (fields; lia).
    apply wp_assert; [apply Z.eqb_refl|]. cbn [wp]. split; [|done].
    apply (repr_emk _ v (r + 1) []); try done.
    + change (zlen ([] : list Z)) with 0. fields. lia.
    + intros _. change (zlen ([] : list Z)) with 0. fields. lia.
    + rewrite zrep_add by (fields; lia). rewrite Efill, <- Hws, !app_nil_r, app_assoc. done.
  - apply (add_empty_word_tail _ v bits ws Hv). exists init, b', r, lits, alloc.
    split_and!; try done; [|by rewrite Efill].
    assert (¬ (zlen lits = 0 ∧ r = 0)); [|fields; lia]. intros [El Er].
    rewrite El, (Hb' El Er), !Z.eqb_refl, Er in Ec. done.
Qed.

Lemma ewah_add_wp self ws word :
  repr self ws → word_ok word → 0 <= bit_size self → bit_size self + 64 < 2 ^ 64 →
  returns (ewah_add self word) (λ '(self', _),
    repr self' (ws ++ [word]) ∧ bit_size self' = bit_size self + 64).
Proof.
  intros Hr Hw Hb Hb'. unfold ewah_add, BITS_IN_EWORD, u64. rewrite Z.mod_small by lia.
  assert (loose (set_bit_size self (bit_size self + 64)) (bit_size self + 64) ws) as Hl.
  { apply (repr_loose (set_bit_size self _)). exact Hr. }
  destruct (Z.eqb_spec word 0) as [->|]; [by apply (add_empty_word_wp _ _ _ 0); [|left]|].
  destruct (Z.eqb_spec word EONES) as [->|]; [by apply (add_empty_word_wp _ _ _ 1); [|right]|].
  by apply add_literal_wp.
Qed.

Lemma ewah_add_empty_words_wp self ws v number :
  repr self ws → v = 0 ∨ v = 1 → 0 <= number → 0 <= bit_size self →
  bit_size self + 64 * number < 2 ^ 64 →
  returns (ewah_add_empty_words self v number) (λ '(self', _),
    repr self' (ws ++ zrep number (fill v)) ∧ bit_size self' = bit_size self + 64 * number).
Proof.
  intros Hr Hv Hn Hb Hb'. unfold ewah_add_empty_words.
  destruct (Z.eqb_spec number 0) as [->|].
  { cbn [wp]. rewrite zrep_0, app_nil_r. split; [done|lia]. }
  unfold BITS_IN_EWORD, u64. rewrite Z.mod_small by lia.
  replace (bit_size self + 64 * number) with (bit_size self + number * 64) by lia.
  apply (add_empty_words_wp (set_bit_size self _)); [exact Hr|done|lia].
Qed.

(** ** Blocks of literals *)
Definition negated (negate : bool) (ws : list Z) : list Z := if negate then enot <$> ws else ws.

Lemma negated_app n a b : negated n (a ++ b) = negated n a ++ negated n b.
Proof. destruct n; [apply fmap_app|done]. Qed.
Lemma zlen_negated n a : zlen (negated n a) = zlen a.
Proof. destruct n; [|done]. unfold zlen, negated. by rewrite length_fmap. Qed.
Lemma enot_word w : word_ok (enot w).
Proof. unfold word_ok, enot, u64. apply Z.mod_pos_bound. lia. Qed.
Lemma negated_ok n ws : Forall word_ok ws → Forall word_ok (negated n ws).
Proof. destruct n; [|done]. intros _. apply Forall_fmap, Forall_true. intros. apply enot_word. Qed.

Lemma add_chunk_emk init b r l lits alloc bits n chunk :
  0 <= alloc → 0 <= bits → 0 <= n → bits + 64 * n < 2 ^ 64 →
  let self := buffer_grow (emk init b r l lits alloc bits)
                (buffer_size (emk init b r l lits alloc bits) + n) in
  ∃ alloc', 0 <= alloc' ∧
  Ewah_bitmap (buffer self ++ chunk) (alloc_size self) (u64 (bit_size self + n * BITS_IN_EWORD)) (rlw self) =
    emk init b r l (lits ++ chunk) alloc' (bits + 64 * n).
Proof.
  intros Ha Hb Hn Hbits. unfold buffer_grow, emk, buffer_size, BITS_IN_EWORD, u64.
  cbn [buffer rlw alloc_size bit_size]. eexists. split.
  2:{ rewrite Z.mod_small, <- app_assoc by lia. do 2 f_equal. lia. }
  match goal with |- 0 <= alloc_grow ?n ?a => destruct (alloc_grow_ge n a); lia end.
Qed.

Lemma add_dirty_loop_wp fuel self bits ws words negate :
  (∃ w, rlw_word self = Ret w ∧
    (rlw_get_literal_words w < RLW_LARGEST_LITERAL_COUNT ∧ (length words < fuel)%nat ∨
     (S (length words) < fuel)%nat)) →
  loose self bits ws → (zlen words = 0 → repr self ws) → Forall word_ok words →
  0 <= bits → bits + 64 * zlen words < 2 ^ 64 →
  returns (ewah_add_dirty_words_loop fuel self words negate) (λ self',
    repr self' (ws ++ negated negate words) ∧ bit_size self' = bits + 64 * zlen words).
Proof.
  revert self bits ws words. induction fuel as [|fuel IH]; intros self bits ws words.
  { intros (w & _ & Hlt). lia. }
  intros (w0 & Hw0 & Hfuel) (init & b & r & lits & alloc & -> & Hok & Hf & Hl & Hn & Ha & Hws)
    Hrepr Hwords Hb Hbits.
  rewrite rlw_word_emk in Hw0. injection Hw0 as <-. rewrite get_literal_words_marker in Hfuel by done.
  cbn [ewah_add_dirty_words_loop]. rewrite rlw_word_emk. cbn [obind].
  rewrite get_literal_words_marker by done.
  pose proof (zlen_nonneg lits). pose proof (zlen_nonneg words).
  set (can_add := min_size (zlen words) (RLW_LARGEST_LITERAL_COUNT - zlen lits)).
  assert (0 <= can_add <= zlen words ∧ zlen lits + can_add <= RLW_LARGEST_LITERAL_COUNT ∧
    (can_add = zlen words ∨ zlen lits + can_add = RLW_LARGEST_LITERAL_COUNT)) as (Hc & Hmax & Hcase).
  { unfold can_add, min_size.
    destruct (Z.ltb_spec (zlen words) (RLW_LARGEST_LITERAL_COUNT - zlen lits)); fields; lia. }
  clearbody can_add.
  rewrite (upd_rlw_emk _ b r (zlen lits) _ _ _ _ b r (zlen lits + can_add)).
  2:{ apply set_literal_words_marker; [done|lia]. }
  cbn [obind]. change (if negate then enot <$> ztake can_add words else ztake can_add words)
    with (negated negate (ztake can_add words)).
  set (chunk := negated negate (ztake can_add words)).
  assert (zlen chunk = can_add) as Elen by (unfold chunk; rewrite zlen_negated; by apply zlen_ztake).
  assert (Forall word_ok chunk) as Hchunk by (by apply negated_ok, Forall_take).
  assert (negated negate words = chunk ++ negated negate (zdrop can_add words)) as ->.
  { unfold chunk. by rewrite <- negated_app, ztake_zdrop. }
  clearbody chunk.
  destruct (add_chunk_emk init b r (zlen lits + can_add) lits alloc bits can_add chunk)
    as (alloc' & Ha' & ->); [lia..|].
  replace (zlen lits + can_add) with (zlen (lits ++ chunk)) by (rewrite zlen_app; lia).
  assert (fields_ok b r (zlen (lits ++ chunk))) as Hf'.
  { rewrite zlen_app, Elen. fields. lia. }
  destruct (Z.eqb_spec (zlen words - can_add) 0) as [E|E].
  - cbn [wp]. split; [|cbn; lia]. rewrite (zdrop_all words) by lia.
    assert (negated negate [] = []) as -> by (by destruct negate). rewrite app_nil_r.
    destruct (decide (zlen words = 0)) as [E0|].
    + assert (chunk = []) as Ec by (destruct chunk; [done|rewrite zlen_cons in Elen; pose proof (zlen_nonneg chunk); lia]).
      destruct (Hrepr E0) as (init' & last & Hb1 & Hr1 & Hrest).
      rewrite Ec, !app_nil_r. exists init', last. split_and!; try apply Hrest; done.
    + apply repr_emk; try done.
      * by apply Forall_app.
      * rewrite zlen_app. fields. lia.
      * by rewrite <- Hws, <- !app_assoc.
  - destruct (buffer_push_rlw_emk init b r (lits ++ chunk) alloc' (bits + 64 * can_add) Ha')
      as (alloc2 & Ha2 & ->).
    destruct (segs_snoc init b r (lits ++ chunk)) as (? & ? & E'); [done|done|done|by apply Forall_app| |].
    { rewrite zlen_app. fields. lia. }
    eapply wp_mono; [|eapply (IH _ (bits + 64 * can_add) (ws ++ chunk))].
    + cbv beta. intros self' [Hs1 Hs2]. rewrite <- app_assoc in Hs1. split; [done|].
      rewrite Hs2, zlen_zdrop by lia. lia.
    + exists (marker 0 0 0). split; [apply rlw_word_emk|]. left. split; [done|].
      unfold zlen, zdrop in *. rewrite length_drop. fields. lia.
    + exists (init ++ [Seg b r (lits ++ chunk)]), 0, 0, [], alloc2. split_and!; try done.
      * change (zlen ([] : list Z)) with 0. fields. lia.
      * rewrite E', <- Hws, zrep_0, !app_nil_r, <- !app_assoc. done.
    + rewrite zlen_zdrop by lia. lia.
    + by apply Forall_drop.
    + lia.
    + rewrite zlen_zdrop by lia. lia.
Qed.

Lemma ewah_add_dirty_words_wp self ws words negate :
  repr self ws → Forall word_ok words → 0 <= bit_size self →
  bit_size self + 64 * zlen words < 2 ^ 64 →
  returns (ewah_add_dirty_words self words negate) (λ self',
    repr self' (ws ++ negated negate words) ∧ bit_size self' = bit_size self + 64 * zlen words).
Proof.
  intros Hr Hw Hb Hb'. pose proof (repr_loose _ _ Hr) as Hl. apply add_dirty_loop_wp; try done.
  destruct Hl as (init & b & r & lits & alloc & -> & _). exists (marker b r (zlen lits)).
  split; [apply rlw_word_emk|right; lia].
Qed.

End EwahSpec.
