(* ===== verification/EwahBits.v ===== *)
(** * Bits of a compressed bitmap: [ewah_set] and [ewah_each_bit] *)
From stdpp Require Import prelude.
From S2P Require Import Prelude Ewah EwahSpec.
Import Ewah EwahSpec.

Module EwahBits.

(** Bit [i] of a sequence of words; beyond its end every bit is clear. *)
Definition wbit (ws : list Z) (i : Z) : bool :=
  match znth ws (i / 64) with
  | Some w => Z.testbit w (i mod 64)
  | None => false
  end.

(** The positions below [64 * length ws] whose bit is set, in ascending order. *)
Definition positions (ws : list Z) : list Z :=
  filter (λ i, wbit ws i = true) (Z.of_nat <$> seq 0 (64 * length ws)).

(** The words of a bitmap of [n] bits: as many as needed, nothing set from [n] on. *)
Definition fits (n : Z) (ws : list Z) : Prop :=
  0 <= n ∧ zlen ws = (n + 63) / 64 ∧ ∀ j, n <= j → wbit ws j = false.

Lemma wbit_app_l ws ws' i : 0 <= i < 64 * zlen ws → wbit (ws ++ ws') i = wbit ws i.
Proof.
  intros. unfold wbit. rewrite znth_app_l; [done|]. Z.div_mod_to_equations; lia.
Qed.
Lemma wbit_app_r ws ws' i :
  64 * zlen ws <= i → wbit (ws ++ ws') i = wbit ws' (i - 64 * zlen ws).
Proof.
  intros. unfold wbit. rewrite znth_app_r by (Z.div_mod_to_equations; lia).
  replace (i - 64 * zlen ws) with (i + (- zlen ws) * 64) by lia.
  rewrite Z.div_add, Z.mod_add by lia. done.
Qed.
Lemma wbit_nil i : wbit [] i = false.
Proof. unfold wbit, znth. destruct (0 <=? i / 64); [by rewrite lookup_nil|done]. Qed.
Lemma wbit_beyond ws i : 64 * zlen ws <= i → wbit ws i = false.
Proof. intros. rewrite <- (app_nil_r ws), wbit_app_r by done. apply wbit_nil. Qed.
Lemma wbit_single w i : 0 <= i < 64 → wbit [w] i = Z.testbit w i.
Proof. intros. unfold wbit. by rewrite Z.div_small, Z.mod_small by lia. Qed.
Lemma wbit_zrep0 n i : wbit (zrep n 0) i = false.
Proof.
  unfold wbit, znth. destruct (0 <=? i / 64); [|done].
  destruct (zrep n 0 !! Z.to_nat (i / 64)) eqn:E; [|done].
  apply lookup_replicate in E as [-> _]. apply Z.testbit_0_l.
Qed.

Lemma wbit_snoc ws w j :
  0 <= j → wbit (ws ++ [w]) j =
    if j <? 64 * zlen ws then wbit ws j
    else if j <? 64 * zlen ws + 64 then Z.testbit w (j - 64 * zlen ws) else false.
Proof.
  intros. destruct (Z.ltb_spec j (64 * zlen ws)); [by apply wbit_app_l|].
  rewrite wbit_app_r by done. destruct (Z.ltb_spec j (64 * zlen ws + 64)).
  - apply wbit_single. lia.
  - apply wbit_beyond. change (zlen [w]) with 1. lia.
Qed.

Lemma testbit_mask i j : 0 <= i → 0 <= j → Z.testbit (Z.shiftl 1 i) j = (j =? i).
Proof.
  intros. rewrite Z.shiftl_spec by done. destruct (Z.eqb_spec j i) as [->|].
  - by rewrite Z.sub_diag.
  - destruct (Z.ltb_spec (j - i) 0); [by rewrite Z.testbit_neg_r|].
    rewrite testbit_above with (n := 1); [done|lia|lia].
Qed.
Lemma mask_word i : 0 <= i < 64 → word_ok (Z.shiftl 1 i).
Proof.
  intros. unfold word_ok. rewrite Z.shiftl_1_l. split; [apply Z.pow_nonneg; lia|].
  apply Z.pow_lt_mono_r; lia.
Qed.

(** [ws'] is [ws] with bit [i] added. *)
Definition bit_added (ws ws' : list Z) (i : Z) : Prop :=
  zlen ws' = (i + 64) / 64 ∧ ∀ j, 0 <= j → wbit ws' j = wbit ws j || (j =? i).

Lemma bit_added_fits n ws ws' i :
  fits n ws → n <= i → bit_added ws ws' i → fits (i + 1) ws'.
Proof.
  intros (Hn & Hlen & Hz) Hi [Hl' Hb]. split_and!; [lia|rewrite Hl'; f_equal; lia|].
  intros j Hj. rewrite Hb, Hz by lia. cbn. apply Z.eqb_neq. lia.
Qed.

(** The two ways to add a bit: in a new word, or in the last word. *)
Lemma bit_added_new n ws i :
  fits n ws → n <= i → zlen ws <= i / 64 →
  bit_added ws ((ws ++ zrep (i / 64 - zlen ws) 0) ++ [Z.shiftl 1 (i mod 64)]) i.
Proof.
  intros (Hn & Hlen & Hz) Hi Hd. pose proof (zlen_nonneg ws).
  assert (zlen (ws ++ zrep (i / 64 - zlen ws) 0) = i / 64) as El.
  { rewrite zlen_app, zlen_zrep by lia. lia. }
  split. { rewrite zlen_app, El. change (zlen [Z.shiftl 1 (i mod 64)]) with 1.
           Z.div_mod_to_equations; lia. }
  intros j Hj. rewrite wbit_snoc, El by done.
  assert (wbit (ws ++ zrep (i / 64 - zlen ws) 0) j = wbit ws j) as ->.
  { destruct (Z.ltb_spec j (64 * zlen ws)); [by apply wbit_app_l|].
    rewrite wbit_app_r, wbit_zrep0 by done. symmetry. by apply wbit_beyond. }
  destruct (Z.ltb_spec j (64 * (i / 64))) as [Hj1|Hj1].
  { assert ((j =? i) = false) as -> by (apply Z.eqb_neq; Z.div_mod_to_equations; lia).
    by rewrite orb_false_r. }
  rewrite (wbit_beyond ws j) by lia. cbn [orb].
  destruct (Z.ltb_spec j (64 * (i / 64) + 64)).
  - rewrite testbit_mask by (Z.div_mod_to_equations; lia).
    apply Bool.eq_iff_eq_true. rewrite !Z.eqb_eq. Z.div_mod_to_equations; lia.
  - symmetry. apply Z.eqb_neq. Z.div_mod_to_equations; lia.
Qed.

Lemma bit_added_last n ws w i :
  fits n (ws ++ [w]) → n <= i → i / 64 = zlen ws →
  bit_added (ws ++ [w]) (ws ++ [Z.lor w (Z.shiftl 1 (i mod 64))]) i.
Proof.
  intros (Hn & Hlen & Hz) Hi Hd. pose proof (zlen_nonneg ws).
  split. { rewrite zlen_app in *. change (zlen [w]) with 1 in Hlen.
           change (zlen [Z.lor w (Z.shiftl 1 (i mod 64))]) with 1. Z.div_mod_to_equations; lia. }
  intros j Hj. rewrite !wbit_snoc by done.
  destruct (Z.ltb_spec j (64 * zlen ws)).
  { assert ((j =? i) = false) as -> by (apply Z.eqb_neq; Z.div_mod_to_equations; lia).
    by rewrite orb_false_r. }
  destruct (Z.ltb_spec j (64 * zlen ws + 64)).
  - rewrite Z.lor_spec, testbit_mask by (Z.div_mod_to_equations; lia). f_equal.
    apply Bool.eq_iff_eq_true. rewrite !Z.eqb_eq. Z.div_mod_to_equations; lia.
  - symmetry. apply Z.eqb_neq. Z.div_mod_to_equations; lia.
Qed.

(** ** [ewah_set] *)
Definition set_post (n i : Z) (ws : list Z) (self' : ewah_bitmap) : Prop :=
  ∃ ws', repr self' ws' ∧ bit_size self' = i + 1 ∧ fits (i + 1) ws' ∧ bit_added ws ws' i.

Lemma set_post_intro n i ws self' ws' :
  fits n ws → n <= i → bit_added ws ws' i → repr self' ws' ∧ bit_size self' = i + 1 →
  set_post n i ws self'.
Proof. intros Hf Hi Hb [Hr Hbs]. exists ws'. eauto using bit_added_fits. Qed.

(** The bit falls in a word that does not exist yet. *)
Lemma set_new_word self n ws i :
  loose self (i + 1) ws → repr self ws → fits n ws → n <= i → zlen ws <= i / 64 →
  returns (let! self := (if 1 <? i / 64 + 1 - zlen ws then
                           let! (self, _) := add_empty_words self 0 (i / 64 + 1 - zlen ws - 1) in Ret self
                         else Ret self) in
           let! (self, _) := add_literal self (Z.shiftl 1 (i mod 64)) in
           Ret self) (set_post n i ws).
Proof.
  intros Hl Hr Hf Hi Hd. pose proof (bit_added_new n ws i Hf Hi Hd) as Hb.
  assert (bit_size self = i + 1) as Hbs.
  { by destruct Hl as (? & ? & ? & ? & ? & -> & _). }
  apply wp_bind, (wp_mono _ _ (λ self', loose self' (i + 1) (ws ++ zrep (i / 64 - zlen ws) 0))).
  2:{ destruct (Z.ltb_spec 1 (i / 64 + 1 - zlen ws)) as [Hlt|].
      - apply wp_bind. eapply wp_mono; [|apply (add_empty_words_wp self ws 0); [done|by left|lia]].
        intros [self' added] [Hr' Hbs']. cbn [wp]. rewrite <- Hbs, <- Hbs'. apply repr_loose.
        by replace (i / 64 + 1 - zlen ws - 1) with (i / 64 - zlen ws) in Hr' by lia.
      - cbn [wp]. replace (i / 64 - zlen ws) with 0 by lia. by rewrite zrep_0, app_nil_r. }
  intros self' Hl'. apply wp_bind. eapply wp_mono; [|apply (add_literal_wp _ _ _ _ Hl')].
  2:{ apply mask_word, Z.mod_pos_bound. lia. }
  intros [self'' k] Hpost. cbn [wp]. by eapply set_post_intro.
Qed.

(** The last word is the end of a run: it becomes a literal. *)
Lemma set_in_run init b r alloc bits n i ws :
  Forall seg_ok init → fields_ok b r 0 → Forall (λ s, 0 < seg_size s) init → 0 <= alloc →
  0 < r → segs_words init ++ zrep r (fill b) = ws →
  fits n ws → n <= i → i / 64 = zlen ws - 1 → bits = i + 1 →
  returns (let! self := upd_rlw (emk init b r 0 [] alloc bits)
             (λ w, rlw_set_running_len w (u64 (rlw_get_running_len w - 1))) in
           let! (self, _) := add_literal self (Z.shiftl 1 (i mod 64)) in
           Ret self) (set_post n i ws).
Proof.
  intros Hok Hf Hn Ha Hr Hws Hfits Hi Hd ->.
  set (ws0 := segs_words init ++ zrep (r - 1) (fill b)).
  assert (ws = ws0 ++ [fill b]) as Ews.
  { unfold ws0. rewrite <- Hws, <- app_assoc. f_equal.
    replace r with (r - 1 + 1) at 1 by lia. by rewrite zrep_add by lia. }
  assert (i / 64 = zlen ws0) as Hd0.
  { rewrite Hd, Ews, zlen_app. change (zlen [fill b]) with 1. lia. }
  assert (fill b = 0) as Eb.
  { destruct Hfits as (Hn0 & _ & Hz). specialize (Hz i Hi). rewrite Ews, wbit_snoc in Hz by lia.
    rewrite (proj2 (Z.ltb_ge i (64 * zlen ws0))) in Hz by (Z.div_mod_to_equations; lia).
    rewrite (proj2 (Z.ltb_lt i (64 * zlen ws0 + 64))) in Hz by (Z.div_mod_to_equations; lia).
    unfold fill in *. destruct (b =? 0); [done|]. exfalso.
    change EONES with (Z.ones 64) in Hz. rewrite Z.ones_spec_low in Hz; [done|].
    Z.div_mod_to_equations; lia. }
  rewrite (upd_rlw_emk _ b r 0 _ _ _ _ b (r - 1) 0).
  2:{ rewrite get_running_len_marker by done. unfold u64. rewrite Z.mod_small by (fields; lia).
      apply set_running_len_marker; [done|fields; lia]. }
  cbn [obind]. apply wp_bind. eapply wp_mono; [|apply (add_literal_wp _ (i + 1) ws0)].
  - intros [self' k] Hpost. cbn [wp]. rewrite Eb in Ews. rewrite Ews in *.
    eapply set_post_intro; [done..| |exact Hpost]. by apply (bit_added_last n ws0 0).
  - exists init, b, (r - 1), [], alloc. split_and!; try done.
    + change (zlen ([] : list Z)) with 0. fields. lia.
    + by rewrite app_nil_r.
  - apply mask_word, Z.mod_pos_bound. lia.
Qed.

(** The last word is a literal: the bit is set in it, and a word of ones moves
    to a run. *)
Lemma set_in_literal init b r lits x alloc bits n i ws :
  Forall seg_ok init → fields_ok b r (zlen (lits ++ [x])) → Forall word_ok (lits ++ [x]) →
  Forall (λ s, 0 < seg_size s) init → 0 <= alloc →
  segs_words init ++ zrep r (fill b) ++ lits ++ [x] = ws →
  fits n ws → n <= i → i / 64 = zlen ws - 1 → bits = i + 1 →
  let self := emk init b r (zlen (lits ++ [x])) (lits ++ [x]) alloc bits in
  let mask := Z.shiftl 1 (i mod 64) in
  let last := buffer_size self - 1 in
  returns (
    let! x := rd (buffer self) last in
    let! b := wr (buffer self) last (Z.lor x mask) in
    if Z.lor x mask =? EONES then
      let self := Ewah_bitmap (ztake last b) (alloc_size self) (bit_size self) (rlw self) in
      let! self := upd_rlw self (λ w, rlw_set_literal_words w (u64 (rlw_get_literal_words w - 1))) in
      let! (self, _) := add_empty_word self 1 in
      Ret self
    else Ret (Ewah_bitmap b (alloc_size self) (bit_size self) (rlw self))) (set_post n i ws).
Proof.
  intros Hok Hf Hl Hn Ha Hws Hfits Hi Hd -> self mask last.
  set (ws0 := segs_words init ++ zrep r (fill b) ++ lits).
  assert (ws = ws0 ++ [x]) as Ews by (unfold ws0; by rewrite <- Hws, <- !app_assoc).
  assert (i / 64 = zlen ws0) as Hd0.
  { rewrite Hd, Ews, zlen_app. change (zlen [x]) with 1. lia. }
  assert (bit_added ws (ws0 ++ [Z.lor x mask]) i) as Hb by (rewrite Ews in *; by eapply bit_added_last).
  set (pre := enc_segs init ++ marker b r (zlen (lits ++ [x])) :: lits).
  assert (buffer self = pre ++ [x]) as Ebuf by (unfold self, emk, pre; cbn; by rewrite <- app_assoc).
  assert (last = zlen pre) as El.
  { unfold last, buffer_size. rewrite Ebuf, zlen_app. change (zlen [x]) with 1. lia. }
  rewrite Ebuf, El, (rd_znth _ _ x) by apply znth_app_len. cbn [obind].
  rewrite wr_ok by (rewrite zlen_app; change (zlen [x]) with 1; pose proof (zlen_nonneg pre); lia).
  cbn [obind]. assert (<[Z.to_nat (zlen pre):=Z.lor x mask]> (pre ++ [x]) = pre ++ [Z.lor x mask]) as ->.
  { unfold zlen. by rewrite Nat2Z.id, insert_app_r_alt, Nat.sub_diag by lia. }
  apply Forall_app in Hl as [Hl [Hx _]%Forall_cons]. pose proof (zlen_nonneg lits).
  assert (zlen (lits ++ [x]) = zlen lits + 1) as Elx by (rewrite zlen_app; done).
  destruct (Z.eqb_spec (Z.lor x mask) EONES) as [E|E].
  - rewrite ztake_app_len. change (Ewah_bitmap pre _ _ _) with
      (emk init b r (zlen (lits ++ [x])) lits alloc (i + 1)).
    rewrite (upd_rlw_emk _ b r (zlen (lits ++ [x])) _ _ _ _ b r (zlen lits)).
    2:{ rewrite get_literal_words_marker by done. unfold u64. rewrite Z.mod_small by (fields; lia).
        rewrite Elx. replace (zlen lits + 1 - 1) with (zlen lits) by lia.
        apply set_literal_words_marker; [by rewrite <- Elx|fields; lia]. }
    cbn [obind]. apply wp_bind. eapply wp_mono; [|apply (add_empty_word_wp _ (i + 1) ws0 1)].
    + intros [self' k] Hpost. cbn [wp]. change (fill 1) with EONES in Hpost. rewrite <- E in Hpost.
      by eapply set_post_intro.
    + exists init, b, r, lits, alloc. split_and!; try done. rewrite Elx in Hf. fields. lia.
    + by right.
  - cbn [wp]. eapply set_post_intro; [done..|]. split; [|done].
    replace (Ewah_bitmap _ _ _ _) with
      (emk init b r (zlen (lits ++ [Z.lor x mask])) (lits ++ [Z.lor x mask]) alloc (i + 1)).
    2:{ unfold emk, self, pre. cbn. rewrite <- app_assoc, Elx, zlen_app. done. }
    apply repr_emk; try done.
    + rewrite zlen_app. change (zlen [Z.lor x mask]) with 1. by rewrite <- Elx.
    + apply Forall_snoc; [done|]. apply lor_lt_pow2; [lia|done|].
      apply mask_word, Z.mod_pos_bound. lia.
    + rewrite zlen_app. change (zlen [Z.lor x mask]) with 1. fields. lia.
    + unfold ws0. by rewrite <- !app_assoc.
Qed.

Lemma ewah_set_wp self ws i :
  repr self ws → fits (bit_size self) ws → bit_size self <= i → i + 64 < 2 ^ 64 →
  returns (ewah_set self i) (set_post (bit_size self) i ws).
Proof.
  intros Hr Hf Hi Hmax. unfold ewah_set, div_round_up, BITS_IN_EWORD, u64.
  pose proof Hf as (Hn & Hlen & _).
  rewrite !(Z.mod_small _ (2 ^ 64)) by (Z.div_mod_to_equations; lia).
  assert (loose (set_bit_size self (i + 1)) (i + 1) ws) as Hl.
  { apply (repr_loose (set_bit_size self _)). exact Hr. }
  replace ((i + 1 + 64 - 1) / 64 - (bit_size self + 64 - 1) / 64) with (i / 64 + 1 - zlen ws).
  2:{ rewrite Hlen. Z.div_mod_to_equations; lia. }
  apply wp_assert; [by apply Z.leb_le|].
  destruct (Z.ltb_spec 0 (i / 64 + 1 - zlen ws)).
  { apply set_new_word; try done. lia. }
  assert (i / 64 = zlen ws - 1) as Hd by (Z.div_mod_to_equations; lia).
  set (n := bit_size self) in *. clearbody n.
  apply repr_inv in Hr as
    (init & b & r & lits & alloc & bits & -> & Hok & Hff & Hll & Hns & Hne & Ha & Hws).
  change (set_bit_size _ _) with (emk init b r (zlen lits) lits alloc (i + 1)).
  rewrite rlw_word_emk. cbn [obind]. rewrite get_literal_words_marker by done.
  destruct lits as [|x lits _] using rev_ind.
  - change (zlen ([] : list Z)) with 0 in *. cbn [Z.eqb].
    rewrite app_nil_r in Hws. apply set_in_run; try done.
    destruct (decide (init = [])) as [->|]; [|rewrite Z.add_0_r in Hne; auto].
    destruct (decide (r = 0)) as [->|]; [|fields; lia].
    rewrite <- Hws in Hd. change (zlen _) with 0 in Hd. Z.div_mod_to_equations; lia.
  - rewrite (proj2 (Z.eqb_neq (zlen (lits ++ [x])) 0)).
    2:{ rewrite zlen_app. change (zlen [x]) with 1. pose proof (zlen_nonneg lits). lia. }
    by apply set_in_literal.
Qed.

(** ** [ewah_each_bit] *)
Definition word_bits (w p : Z) : list Z :=
  (λ c, p + Z.of_nat c) <$> filter (λ c, Z.testbit w (Z.of_nat c) = true) (seq 0 64).

(** The set bits of [ws] when its first bit has position [p]. *)
Fixpoint bits_at (p : Z) (ws : list Z) : list Z :=
  match ws with
  | [] => []
  | w :: ws => word_bits w p ++ bits_at (p + 64) ws
  end.

Lemma bits_at_app p a b : bits_at p (a ++ b) = bits_at p a ++ bits_at (p + 64 * zlen a) b.
Proof.
  revert p. induction a as [|w a IH]; intros p; cbn [bits_at app].
  - by replace (p + 64 * zlen ([] : list Z)) with p by (change (zlen ([] : list Z)) with 0; lia).
  - rewrite IH, app_assoc. f_equal. f_equal. rewrite zlen_cons. lia.
Qed.

Lemma bits_at_positions p ws :
  filter (λ i, wbit ws (i - p) = true) ((λ k, p + Z.of_nat k) <$> seq 0 (64 * length ws)) = bits_at p ws.
Proof.
  revert p. induction ws as [|w ws IH]; intros p; [done|].
  cbn [length bits_at]. replace (64 * S (length ws))%nat with (64 + 64 * length ws)%nat by lia.
  rewrite seq_app, fmap_app, filter_app. f_equal.
  - rewrite filter_map. unfold word_bits. f_equal. apply filter_ext_in.
    intros k Hk%elem_of_seq. replace (p + Z.of_nat k - p) with (Z.of_nat k) by lia.
    change (w :: ws) with ([w] ++ ws). rewrite wbit_app_l by (change (zlen [w]) with 1; lia).
    by rewrite wbit_single by lia.
  - rewrite <- IH. replace (0 + 64)%nat with (64 + 0)%nat by done. rewrite <- fmap_add_seq.
    rewrite <- list_fmap_compose, !filter_map.
    rewrite (list_fmap_ext ((λ k, p + Z.of_nat k) ∘ Nat.add 64) (λ k, p + 64 + Z.of_nat k))
      by (intros; unfold compose; lia).
    f_equal. apply filter_ext_in. intros k _. unfold compose.
    change (w :: ws) with ([w] ++ ws). rewrite wbit_app_r by (change (zlen [w]) with 1; lia).
    change (zlen [w]) with 1. f_equiv. f_equal. lia.
Qed.

Lemma positions_bits_at ws : positions ws = bits_at 0 ws.
Proof.
  rewrite <- bits_at_positions. unfold positions.
  rewrite (list_fmap_ext _ (λ k, 0 + Z.of_nat k)) by (intros; lia).
  apply filter_ext_in. intros. by rewrite Z.sub_0_r.
Qed.

Lemma land_mask w c : 0 <= c → negb (Z.land w (Z.shiftl 1 c) =? 0) = Z.testbit w c.
Proof.
  intros Hc. destruct (Z.testbit w c) eqn:E.
  - apply negb_true_iff, Z.eqb_neq. intros H0. apply (f_equal (λ z, Z.testbit z c)) in H0.
    by rewrite Z.land_spec, E, testbit_mask, Z.eqb_refl, Z.testbit_0_l in H0 by done.
  - apply negb_false_iff, Z.eqb_eq, Z.bits_inj'. intros i Hi.
    rewrite Z.land_spec, testbit_mask, Z.testbit_0_l by done.
    destruct (Z.eqb_spec i c) as [->|]; [by rewrite E|apply andb_false_r].
Qed.

Lemma word_positions_bits w p : 0 <= p → p + 64 <= 2 ^ 64 → word_positions w p = word_bits w p.
Proof.
  intros Hp Hp'. unfold word_positions, word_bits. 
  rewrite (filter_ext_in _ (λ c, Z.testbit w (Z.of_nat c) = true)).
  2:{ intros c _. by rewrite land_mask by lia. }
  apply fmap_ext_in. intros c [_ Hc%elem_of_seq]%list_elem_of_filter.
  unfold u64. rewrite Z.mod_small; lia.
Qed.

Lemma word_bits_0 p : word_bits 0 p = [].
Proof. done. Qed.

Lemma run_positions_ones p r :
  0 <= r → 0 <= p → p + r * 64 <= 2 ^ 64 → run_positions p (r * 64) = bits_at p (zrep r EONES).
Proof.
  intros Hr. revert p. pattern r. apply natlike_ind; [done| |done].
  clear r Hr. intros r Hr IH p Hp Hmax. rewrite <- Z.add_1_r, (Z.add_comm r 1), zrep_add by lia.
  rewrite bits_at_app, zlen_zrep by lia. replace (p + 64 * 1) with (p + 64) by lia.
  rewrite <- IH by lia. unfold run_positions.
  replace (Z.to_nat ((1 + r) * 64)) with (64 + Z.to_nat (r * 64))%nat by lia.
  rewrite seq_app, fmap_app. f_equal.
  - change (bits_at p (zrep 1 EONES)) with (word_bits EONES p ++ []). rewrite app_nil_r.
    unfold word_bits. rewrite filter_all_in.
    + apply fmap_ext_in. intros c Hc%elem_of_seq. unfold u64. rewrite Z.mod_small; lia.
    + intros c Hc%elem_of_seq. change EONES with (Z.ones 64).
      apply Z.ones_spec_low. lia.
  - replace (0 + 64)%nat with (64 + 0)%nat by done. rewrite <- fmap_add_seq, <- list_fmap_compose.
    apply list_fmap_ext. intros k c _. unfold compose. f_equal. lia.
Qed.

Lemma bits_at_zeros p r : bits_at p (zrep r 0) = [].
Proof.
  unfold zrep. generalize (Z.to_nat r) as n. intros n. revert p.
  induction n as [|n IH]; intros p; [done|]. cbn [replicate bits_at]. by rewrite IH.
Qed.

Lemma each_literal_bits pre lits post p :
  0 <= p → p + 64 * zlen lits < 2 ^ 64 →
  each_literal (length lits) (pre ++ lits ++ post) (zlen pre) p = Ret (bits_at p lits).
Proof.
  revert pre p. induction lits as [|w lits IH]; intros pre p Hp Hmax; [done|].
  rewrite zlen_cons in Hmax. pose proof (zlen_nonneg lits).
  cbn [length each_literal bits_at]. change ((w :: lits) ++ post) with (w :: (lits ++ post)).
  rewrite (rd_znth _ _ w) by apply znth_app_len. cbn [obind].
  specialize (IH (pre ++ [w]) (p + 64) ltac:(lia) ltac:(lia)).
  rewrite zlen_app, <- app_assoc in IH. change (zlen [w]) with 1 in IH.
  unfold u64, BITS_IN_EWORD. rewrite Z.mod_small by lia. cbn [app] in IH. rewrite IH. cbn [obind].
  by rewrite word_positions_bits by lia.
Qed.

Lemma each_marker_bits fuel done_ todo p :
  (length todo < fuel)%nat → Forall seg_ok todo → 0 <= p → p + 64 * zlen (segs_words todo) < 2 ^ 64 →
  each_marker fuel (enc_segs done_ ++ enc_segs todo) (zlen (enc_segs done_)) p =
    Ret (bits_at p (segs_words todo)).
Proof.
  revert done_ todo p. induction fuel as [|fuel IH]; [lia|].
  intros done_ todo p Hfuel Hok Hp Hmax. cbn [each_marker]. pose proof (zlen_nonneg (enc_segs done_)).
  destruct todo as [|[b r lits] todo].
  { change (enc_segs []) with (@nil Z). rewrite app_nil_r. by rewrite Z.ltb_irrefl. }
  apply Forall_cons in Hok as [[Hf Hl] Hok]. cbn [s_bit s_run s_lits] in *. cbn [length] in Hfuel.
  change (enc_segs (Seg b r lits :: todo)) with (marker b r (zlen lits) :: (lits ++ enc_segs todo)).
  change (segs_words (Seg b r lits :: todo)) with ((zrep r (fill b) ++ lits) ++ segs_words todo) in *.
  assert (0 <= r) by (fields; lia). pose proof (zlen_nonneg lits).
  pose proof (zlen_nonneg (enc_segs todo)). pose proof (zlen_nonneg (segs_words todo)).
  rewrite !zlen_app, zlen_zrep in Hmax by done.
  rewrite (proj2 (Z.ltb_lt _ _)) by (rewrite !zlen_app, zlen_cons, zlen_app; lia).
  rewrite (rd_znth _ _ _ (znth_app_len _ _ _)). cbn [obind].
  rewrite get_run_bit_marker, get_running_len_marker, get_literal_words_marker by done.
  unfold u64, BITS_IN_EWORD. rewrite (Z.mod_small (p + r * 64)) by lia.
  pose proof (each_literal_bits (enc_segs done_ ++ [marker b r (zlen lits)]) lits (enc_segs todo) (p + r * 64)
    ltac:(lia) ltac:(lia)) as El.
  rewrite zlen_app, <- app_assoc in El. change (zlen [marker b r (zlen lits)]) with 1 in El.
  change (Z.to_nat (zlen lits)) with (Z.to_nat (Z.of_nat (length lits))). rewrite Nat2Z.id.
  cbn [app] in El. rewrite El. cbn [obind]. rewrite Z.mod_small by lia.
  specialize (IH (done_ ++ [Seg b r lits]) todo (p + r * 64 + zlen lits * 64)
    ltac:(lia) Hok ltac:(lia) ltac:(lia)).
  rewrite enc_segs_app, enc_segs_1, zlen_app, <- app_assoc in IH.
  change (enc_seg (Seg b r lits)) with (marker b r (zlen lits) :: lits) in IH. cbn [app] in IH.
  rewrite zlen_cons in IH.
  replace (zlen (enc_segs done_) + 1 + zlen lits) with (zlen (enc_segs done_) + (1 + zlen lits)) by lia.
  rewrite IH. cbn [obind]. f_equal.
  rewrite !bits_at_app, <- app_assoc, zlen_app, zlen_zrep by done.
  replace (p + 64 * (r + zlen lits)) with (p + r * 64 + zlen lits * 64) by lia.
  replace (p + 64 * r) with (p + r * 64) by lia. f_equal.
  destruct Hf as [[-> | ->] _]; cbn [Z.eqb negb].
  - symmetry. apply bits_at_zeros.
  - apply run_positions_ones; lia.
Qed.

Lemma ewah_each_bit_eq self ws :
  repr self ws → 64 * zlen ws < 2 ^ 64 → ewah_each_bit self = Ret (positions ws).
Proof.
  intros (init & last & Hbuf & _ & Hok & _ & _ & _ & <-) Hmax. unfold ewah_each_bit.
  rewrite Hbuf, positions_bits_at. apply (each_marker_bits _ []); [|done..].
  pose proof (length_enc_segs (init ++ [last])). lia.
Qed.

(** ** Setting bits and reading them back *)
Fixpoint set_all (self : ewah_bitmap) (l : list Z) : outcome ewah_bitmap :=
  match l with
  | [] => Ret self
  | i :: l => let! self := ewah_set self i in set_all self l
  end.

Lemma elem_positions ws i : i ∈ positions ws ↔ 0 <= i ∧ wbit ws i = true.
Proof.
  unfold positions. rewrite list_elem_of_filter, list_elem_of_fmap. split.
  - intros [Hw (k & -> & _)]. split; [lia|done].
  - intros [Hi Hw]. split; [done|]. exists (Z.to_nat i). split; [lia|]. apply elem_of_seq.
    destruct (Z.ltb_spec i (64 * zlen ws)); [unfold zlen in *; lia|].
    by rewrite wbit_beyond in Hw.
Qed.

Lemma positions_sorted ws : StronglySorted Z.lt (positions ws).
Proof. apply StronglySorted_filter_sub, sorted_seq. Qed.

Lemma set_all_wp l self ws :
  StronglySorted Z.lt l → Forall (λ i, bit_size self <= i ∧ i + 64 < 2 ^ 64) l →
  repr self ws → fits (bit_size self) ws → bit_size self + 64 <= 2 ^ 64 →
  returns (set_all self l) (λ self', ∃ ws', repr self' ws' ∧ 64 * zlen ws' < 2 ^ 64 ∧
    ∀ i, 0 <= i → wbit ws' i = true ↔ wbit ws i = true ∨ i ∈ l).
Proof.
  revert self ws. induction l as [|i l IH]; intros self ws Hs Hl Hr Hf Hb; cbn [set_all].
  - cbn. exists ws. split_and!; [done| |set_solver].
    destruct Hf as (? & -> & _). Z.div_mod_to_equations; lia.
  - apply StronglySorted_inv in Hs as [Hs Hi]. apply Forall_cons in Hl as [[Hi1 Hi2] Hl].
    apply wp_bind. eapply wp_mono; [|by apply (ewah_set_wp _ ws)].
    intros self' (ws' & Hr' & Hbs & Hf' & _ & Hadd).
    eapply wp_mono; [|apply (IH self' ws'); [done| |done|by rewrite Hbs|lia]].
    + cbv beta. intros self2 (ws2 & Hr2 & Hm2 & Hw2). exists ws2. split_and!; [done..|].
      intros j Hj. rewrite Hw2, Hadd, orb_true_iff, Z.eqb_eq, elem_of_cons by done. tauto.
    + rewrite Forall_forall in *. intros j Hj. specialize (Hl _ Hj). specialize (Hi _ Hj). lia.
Qed.

Lemma ewah_new_repr : repr ewah_new [] ∧ fits (bit_size ewah_new) [].
Proof.
  split.
  - exists [], (Seg 0 0 []). split_and!; try done. constructor; [|done]. split; [|done].
    cbn. change (zlen ([] : list Z)) with 0. fields. lia.
  - split_and!; [done..|]. intros. apply wbit_nil.
Qed.

(** C18. Setting bits and listing them: starting from an empty compressed bitmap,
    [ewah_set] on ascending positions succeeds and [ewah_each_bit] then reports
    exactly those positions, in order. *)
Theorem ewah_set_each_bit l :
  StronglySorted Z.lt l → Forall (λ i, 0 <= i ∧ i + 64 < 2 ^ 64) l →
  ∃ self, set_all ewah_new l = Ret self ∧ ewah_each_bit self = Ret l.
Proof.
  intros Hs Hl. destruct ewah_new_repr as [Hr Hf].
  destruct (proj1 (returns_eq _ _) (set_all_wp l ewah_new [] Hs Hl Hr Hf ltac:(done)))
    as (self & E & ws & Hrepr & Hm & Hw).
  exists self. split; [done|]. rewrite (ewah_each_bit_eq _ ws) by done. f_equal.
  apply sorted_lt_ext; [apply positions_sorted|done|]. intros i. rewrite elem_positions.
  rewrite Forall_forall in Hl. split.
  - intros [Hi Hwi]. apply Hw in Hwi as [Hn|?]; [|done|done]. by rewrite wbit_nil in Hn.
  - intros Hi. destruct (Hl _ Hi). split; [done|]. apply Hw; auto.
Qed.

Lemma ewah_set_each_bit_witness :
  ∃ self, set_all ewah_new [0; 3; 63; 64; 200; 100000] = Ret self ∧
    ewah_each_bit self = Ret [0; 3; 63; 64; 200; 100000].
Proof.
  apply ewah_set_each_bit; repeat constructor; vm_compute; congruence.
Defined.

End EwahBits.
