(* ===== verification/EwahIter.v ===== *)
(** * The word iterator over a compressed bitmap (ewah/ewok.h, ewah/ewah_bitmap.c)

    [ewah_iterator_next] yields the words a buffer stands for, one at a time;
    [while_next] is the [while (ewah_iterator_next(&word, &it))] loop of its
    callers. *)
From stdpp Require Import prelude.
From S2P Require Import Prelude Ewah EwahSpec.
Import Ewah EwahSpec.

Module EwahIter.

Record ewah_iterator := Ewah_iterator {
  it_buffer : list Z;
  pointer : Z;
  compressed : Z;
  literals : Z;
  rl : Z;
  lw : Z;
  b : Z;
}.

Definition it_buffer_size (it : ewah_iterator) : Z := zlen (it_buffer it).

(** The [while (1)] of the function, which skips empty markers. *)
Fixpoint read_new_rlw_loop (fuel : nat) (buf : list Z) (p : Z) : outcome ewah_iterator :=
  match fuel with
  | O => NoFuel
  | S fuel =>
      let! word := rd buf p in
      let rl := rlw_get_running_len word in
      let lw := rlw_get_literal_words word in
      let b := rlw_get_run_bit word in
      if negb (rl =? 0) || negb (lw =? 0) then Ret (Ewah_iterator buf p 0 0 rl lw b)
      else if p <? zlen buf - 1 then read_new_rlw_loop fuel buf (p + 1)
      else Ret (Ewah_iterator buf (zlen buf) 0 0 rl lw b)
  end.

Definition read_new_rlw (it : ewah_iterator) : outcome ewah_iterator :=
  read_new_rlw_loop (length (it_buffer it)) (it_buffer it) (pointer it).

(** [None] is the result 0: no word left. *)
Definition ewah_iterator_next (it : ewah_iterator) : outcome (option (Z * ewah_iterator)) :=
  if it_buffer_size it <=? pointer it then Ret None
  else
    let! (next, it) :=
      (if compressed it <? rl it then
         let next := if negb (b it =? 0) then EONES else 0 in
         Ret (next, Ewah_iterator (it_buffer it) (pointer it) (compressed it + 1) (literals it)
                      (rl it) (lw it) (b it))
       else
         oassert (literals it <? lw it)
           (let it := Ewah_iterator (it_buffer it) (pointer it + 1) (compressed it) (literals it + 1)
                        (rl it) (lw it) (b it) in
            oassert (pointer it <? it_buffer_size it)
              (let! next := rd (it_buffer it) (pointer it) in
               Ret (next, it)))) in
    if (compressed it =? rl it) && (literals it =? lw it) then
      let it := Ewah_iterator (it_buffer it) (pointer it + 1) (compressed it) (literals it)
                  (rl it) (lw it) (b it) in
      if pointer it <? it_buffer_size it then
        let! it := read_new_rlw it in Ret (Some (next, it))
      else Ret (Some (next, it))
    else Ret (Some (next, it)).

Definition ewah_iterator_init (parent : ewah_bitmap) : outcome ewah_iterator :=
  let it := Ewah_iterator (buffer parent) 0 0 0 0 0 0 in
  if pointer it <? it_buffer_size it then read_new_rlw it else Ret it.

(** The loop of the callers; [body] answers [inr] where the caller returns. *)
Fixpoint while_next {A R} (fuel : nat) (it : ewah_iterator) (acc : A)
  (body : A → Z → outcome (A + R)) : outcome (A + R) :=
  match fuel with
  | O => NoFuel
  | S fuel =>
      let! r := ewah_iterator_next it in
      match r with
      | None => Ret (inl acc)
      | Some (word, it) =>
          let! s := body acc word in
          match s with
          | inl acc => while_next fuel it acc body
          | inr x => Ret (inr x)
          end
      end
  end.

(** ** What the iterator has left to yield *)
Definition at_end (it : ewah_iterator) : Prop := pointer it = it_buffer_size it.

Definition inside (it : ewah_iterator) (rest : list Z) : Prop :=
  ∃ pre bt r lits todo,
    it_buffer it = enc_segs pre ++ enc_segs (Seg bt r lits :: todo) ∧
    Forall seg_ok (Seg bt r lits :: todo) ∧
    pointer it = zlen (enc_segs pre) + literals it ∧
    rl it = r ∧ lw it = zlen lits ∧ b it = bt ∧
    0 <= compressed it <= r ∧ 0 <= literals it <= zlen lits ∧
    (compressed it < r → literals it = 0) ∧ compressed it + literals it < r + zlen lits ∧
    rest = zrep (r - compressed it) (fill bt) ++ zdrop (literals it) lits ++ segs_words todo.

Definition yields (it : ewah_iterator) (rest : list Z) : Prop :=
  at_end it ∧ rest = [] ∨ inside it rest.

Lemma read_new_rlw_loop_yields todo : ∀ fuel pre,
  (length todo <= fuel)%nat → todo ≠ [] → Forall seg_ok todo →
  returns (read_new_rlw_loop fuel (enc_segs pre ++ enc_segs todo) (zlen (enc_segs pre)))
    (λ it, yields it (segs_words todo) ∧ it_buffer it = enc_segs pre ++ enc_segs todo).
Proof.
  induction todo as [|[bt r lits] todo IH]; intros fuel pre Hfuel Hne Hok; [done|].
  destruct fuel as [|fuel]; [cbn in Hfuel; lia|]. cbn [read_new_rlw_loop].
  set (buf := enc_segs pre ++ enc_segs (Seg bt r lits :: todo)).
  assert (buf = enc_segs pre ++ marker bt r (zlen lits) :: lits ++ enc_segs todo) as Ebuf by done.
  rewrite (rd_znth buf _ (marker bt r (zlen lits))) by (rewrite Ebuf; apply znth_app_len).
  pose proof Hok as [[Hf Hl] Hok']%Forall_cons. cbn [s_bit s_run s_lits] in *. cbn [obind].
  rewrite get_run_bit_marker, get_running_len_marker, get_literal_words_marker by done.
  pose proof (zlen_nonneg lits). pose proof (zlen_nonneg (enc_segs pre)).
  destruct (negb (r =? 0) || negb (zlen lits =? 0)) eqn:E.
  - cbn [wp]. split; [|done]. right. exists pre, bt, r, lits, todo. cbn.
    assert (0 < r + zlen lits) by (destruct (Z.eqb_spec r 0), (Z.eqb_spec (zlen lits) 0); cbn in E; first [discriminate E | fields; lia]).
    split_and!; try done; try (fields; lia). rewrite Z.sub_0_r, zdrop_0, app_assoc. done.
  - apply orb_false_iff in E as [Er%negb_false_iff%Z.eqb_eq El%negb_false_iff%Z.eqb_eq]. subst r.
    destruct lits; [|rewrite zlen_cons in El; pose proof (zlen_nonneg lits); lia].
    change (zlen ([] : list Z)) with 0 in *.
    assert (zlen buf = zlen (enc_segs pre) + 1 + zlen (enc_segs todo)) as Elen.
    { rewrite Ebuf, zlen_app, zlen_cons. cbn [app]. lia. }
    pose proof (length_enc_pos todo) as Hpos. 
    destruct (Z.ltb_spec (zlen (enc_segs pre)) (zlen buf - 1)).
    + assert (buf = enc_segs (pre ++ [Seg bt 0 []]) ++ enc_segs todo) as Eb2.
      { rewrite Ebuf, enc_segs_app, enc_segs_1, <- app_assoc. done. }
      rewrite Eb2. replace (zlen (enc_segs pre) + 1) with (zlen (enc_segs (pre ++ [Seg bt 0 []]))).
      2:{ rewrite enc_segs_app, zlen_app, enc_segs_1. done. }
      apply IH; [cbn in Hfuel; lia| |done]. intros Et.
      rewrite Et in Elen. change (zlen (enc_segs [])) with 0 in Elen. lia.
    + cbn [wp]. split; [|done]. left. split; [done|].
      destruct todo as [|s todo]; [done|]. specialize (Hpos ltac:(done)). lia.
Qed.

Lemma read_new_rlw_yields pre todo it :
  todo ≠ [] → Forall seg_ok todo → it_buffer it = enc_segs pre ++ enc_segs todo →
  pointer it = zlen (enc_segs pre) →
  returns (read_new_rlw it) (λ it, yields it (segs_words todo)).
Proof.
  intros Hne Hok Hb Hp. unfold read_new_rlw. rewrite Hb, Hp.
  eapply wp_mono; [|apply read_new_rlw_loop_yields; [|done|done]].
  { by intros it' [Hy _]. }
  rewrite length_app. pose proof (length_enc_segs todo). lia.
Qed.

Lemma init_yields self ws :
  repr self ws → returns (ewah_iterator_init self) (λ it, yields it ws).
Proof.
  intros (init & last & Hbuf & _ & Hok & _ & _ & _ & <-). unfold ewah_iterator_init.
  unfold it_buffer_size. cbn [pointer it_buffer].
  pose proof (length_enc_pos (init ++ [last])). rewrite <- Hbuf in *.
  rewrite (proj2 (Z.ltb_lt 0 _)).
  2:{ apply H. by destruct init. }
  by apply (read_new_rlw_yields []); [destruct init| | |].
Qed.

(** The end of [ewah_iterator_next]: the marker is used up, or it is not. *)
Lemma next_tail it (next : Z) rest :
  (∃ pre bt r lits todo,
    it_buffer it = enc_segs pre ++ enc_segs (Seg bt r lits :: todo) ∧
    Forall seg_ok (Seg bt r lits :: todo) ∧
    pointer it = zlen (enc_segs pre) + literals it ∧
    rl it = r ∧ lw it = zlen lits ∧ b it = bt ∧
    0 <= compressed it <= r ∧ 0 <= literals it <= zlen lits ∧
    (compressed it < r → literals it = 0) ∧
    rest = zrep (r - compressed it) (fill bt) ++ zdrop (literals it) lits ++ segs_words todo) →
  returns (if (compressed it =? rl it) && (literals it =? lw it) then
      let it := Ewah_iterator (it_buffer it) (pointer it + 1) (compressed it) (literals it)
                  (rl it) (lw it) (b it) in
      if pointer it <? it_buffer_size it then
        let! it := read_new_rlw it in Ret (Some (next, it))
      else Ret (Some (next, it))
    else Ret (Some (next, it))) (λ x, ∃ it', x = Some (next, it') ∧ yields it' rest).
Proof.
  intros (pre & bt & r & lits & todo & Hb & Hok & Hp & Hrl & Hlw & Hbt & Hc & Hl & Hcl & Hrest).
  pose proof Hok as [[Hf _] Hok']%Forall_cons. cbn in Hf.
  destruct (Z.eqb_spec (compressed it) (rl it)) as [Ec|Ec]; cbn [andb].
  2:{ exists it. split; [done|]. right. exists pre, bt, r, lits, todo. split_and!; try done; try lia. }
  destruct (Z.eqb_spec (literals it) (lw it)) as [El|El].
  2:{ exists it. split; [done|]. right. exists pre, bt, r, lits, todo. split_and!; try done; try lia. }
  assert (rest = segs_words todo) as ->.
  { rewrite Hrest, Ec, Hrl, Z.sub_diag, zrep_0, zdrop_all by lia. done. }
  assert (it_buffer it = enc_segs (pre ++ [Seg bt r lits]) ++ enc_segs todo) as Hb'.
  { rewrite Hb, enc_segs_app, enc_segs_1, <- app_assoc. done. }
  assert (zlen (enc_segs (pre ++ [Seg bt r lits])) = pointer it + 1) as Hlen.
  { rewrite enc_segs_app, enc_segs_1, zlen_app. unfold enc_seg. cbn [s_lits]. rewrite zlen_cons. lia. }
  unfold it_buffer_size. cbn [pointer it_buffer].
  destruct (Z.ltb_spec (pointer it + 1) (zlen (it_buffer it))) as [Hlt|Hge].
  - apply wp_bind. eapply wp_mono; [|apply (read_new_rlw_yields (pre ++ [Seg bt r lits]) todo)]; try done.
    + intros it' Hy. cbn. by exists it'.
    + intros ->. rewrite Hb', zlen_app in Hlt. change (zlen (enc_segs [])) with 0 in Hlt. lia.
  - cbn. eexists. split; [done|]. left. split.
    + unfold at_end, it_buffer_size. cbn. rewrite Hb', zlen_app in *. pose proof (zlen_nonneg (enc_segs todo)). lia.
    + destruct todo as [|s todo]; [done|]. pose proof (length_enc_pos (s :: todo) ltac:(done)).
      rewrite Hb', zlen_app in Hge. lia.
Qed.

Lemma next_yields it rest :
  yields it rest →
  returns (ewah_iterator_next it) (λ x,
    match rest with
    | [] => x = None
    | w :: rest => ∃ it', x = Some (w, it') ∧ yields it' rest
    end).
Proof.
  unfold ewah_iterator_next. intros [[Hend ->]|Hin].
  { rewrite (proj2 (Z.leb_le _ _)); [done|]. rewrite Hend. lia. }
  destruct Hin as (pre & bt & r & lits & todo & Hb & Hok & Hp & Hrl & Hlw & Hbt & Hc & Hl & Hcl & Hsum & ->).
  pose proof Hok as [[Hf _] Hok']%Forall_cons. cbn in Hf.
  assert (it_buffer_size it = zlen (enc_segs pre) + 1 + zlen lits + zlen (enc_segs todo)) as Hsz.
  { unfold it_buffer_size. rewrite Hb, zlen_app.
    change (enc_segs (Seg bt r lits :: todo)) with (marker bt r (zlen lits) :: lits ++ enc_segs todo).
    rewrite zlen_cons, zlen_app. lia. }
  pose proof (zlen_nonneg (enc_segs todo)). pose proof (zlen_nonneg (enc_segs pre)).
  rewrite (proj2 (Z.leb_gt _ _)) by lia.
  destruct (Z.ltb_spec (compressed it) (rl it)).
  - cbn [obind]. replace (r - compressed it) with ((r - compressed it - 1) + 1) by lia.
    rewrite zrep_S by lia. cbn [app].
    assert ((if negb (b it =? 0) then EONES else 0) = fill bt) as ->.
    { rewrite Hbt. unfold fill. by destruct (bt =? 0). }
    apply next_tail. exists pre, bt, r, lits, todo. cbn. split_and!; try done; try lia.
    do 2 f_equal. lia.
  - assert (compressed it = r) as -> by lia. rewrite Z.sub_diag, zrep_0. cbn [app].
    destruct (znth_is_Some lits (literals it) ltac:(lia)) as [w Hw].
    rewrite (zdrop_cons _ _ w) by (done || lia). cbn [app].
    unfold oassert at 1. rewrite (proj2 (Z.ltb_lt (literals it) (lw it))) by lia.
    unfold it_buffer_size in *. cbn [pointer it_buffer]. unfold oassert.
    rewrite (proj2 (Z.ltb_lt (pointer it + 1) _)) by lia.
    rewrite (rd_znth _ _ w).
    + cbn [obind]. apply (next_tail (Ewah_iterator (it_buffer it) _ _ _ _ _ _)).
      exists pre, bt, r, lits, todo. cbn. split_and!; try done; try lia.
      by rewrite Z.sub_diag, zrep_0.
    + rewrite Hb, Hp, znth_app_r by lia.
      change (enc_segs (Seg bt r lits :: todo)) with ([marker bt r (zlen lits)] ++ lits ++ enc_segs todo).
      rewrite znth_app_r by (change (zlen [marker bt r (zlen lits)]) with 1; lia).
      change (zlen [marker bt r (zlen lits)]) with 1.
      rewrite znth_app_l by lia. by replace (zlen (enc_segs pre) + literals it + 1 - zlen (enc_segs pre) - 1)
        with (literals it) by lia.
Qed.

(** ** The loop is a fold over the words *)
Fixpoint fold_words {A R} (body : A → Z → outcome (A + R)) (ws : list Z) (acc : A) : outcome (A + R) :=
  match ws with
  | [] => Ret (inl acc)
  | w :: ws =>
      let! s := body acc w in
      match s with
      | inl acc => fold_words body ws acc
      | inr x => Ret (inr x)
      end
  end.

Lemma while_next_fold {A R} (body : A → Z → outcome (A + R)) ws : ∀ fuel it acc,
  yields it ws → (length ws < fuel)%nat → while_next fuel it acc body = fold_words body ws acc.
Proof.
  induction ws as [|w ws IH]; intros fuel it acc Hy Hf; destruct fuel as [|fuel]; try (cbn in Hf; lia);
    cbn [while_next fold_words]; pose proof (next_yields it _ Hy) as Hn.
  - apply returns_eq in Hn as (x & -> & ->). done.
  - apply returns_eq in Hn as (x & -> & it' & -> & Hy'). cbn [obind].
    destruct (body acc w) as [[acc'|x]| | |]; try done. cbn [obind]. apply IH; [done|cbn in Hf; lia].
Qed.

End EwahIter.
