(* ===== verification/Bitmap.v ===== *)
(** * Uncompressed bitmaps (ewah/bitmap.c, ewah/ewok.h)

    A [bitmap] is its allocated words; a bit beyond them is clear.  The
    theorems describe every operation by its effect on the bits, and the
    conversions to and from the compressed form. *)
From stdpp Require Import prelude.
From S2P Require Import Prelude Ewah EwahSpec EwahBits EwahIter.
Import Ewah EwahSpec EwahBits EwahIter.

Module Bitmap.

(** [word_alloc] is the number of words. *)
Record bitmap := Mk_bitmap { words : list Z }.
Definition word_alloc (m : bitmap) : Z := zlen (words m).

Definition EWAH_MASK (x : Z) : Z := Z.shiftl 1 (x mod BITS_IN_EWORD).
Definition EWAH_BLOCK (x : Z) : Z := x / BITS_IN_EWORD.

Definition bitmap_word_alloc (n : Z) : bitmap := Mk_bitmap (zrep n 0).
Definition bitmap_new : bitmap := bitmap_word_alloc 32.

Definition bitmap_dup (src : bitmap) : outcome bitmap :=
  let dst := bitmap_word_alloc (word_alloc src) in
  let! w := rd_range (words src) 0 (word_alloc src) in
  let! w := memcpy (words dst) 0 w in
  Ret (Mk_bitmap w).

(** The [memset] clears what [ALLOC_GROW] added. *)
Definition bitmap_grow (self : bitmap) (n : Z) : bitmap :=
  Mk_bitmap (words self ++ zrep (alloc_grow n (word_alloc self) - word_alloc self) 0).

Definition bitmap_set (self : bitmap) (pos : Z) : outcome bitmap :=
  let block := EWAH_BLOCK pos in
  let self := bitmap_grow self (block + 1) in
  let! w := rd (words self) block in
  let! ws := wr (words self) block (Z.lor w (EWAH_MASK pos)) in
  Ret (Mk_bitmap ws).

Definition bitmap_unset (self : bitmap) (pos : Z) : outcome bitmap :=
  let block := EWAH_BLOCK pos in
  if block <? word_alloc self then
    let! w := rd (words self) block in
    let! ws := wr (words self) block (Z.land w (enot (EWAH_MASK pos))) in
    Ret (Mk_bitmap ws)
  else Ret self.

Definition bitmap_get (self : bitmap) (pos : Z) : outcome bool :=
  let block := EWAH_BLOCK pos in
  if block <? word_alloc self then
    let! w := rd (words self) block in
    Ret (negb (Z.land w (EWAH_MASK pos) =? 0))
  else Ret false.

(** The [for] loop: [last_word] is the last non-zero word seen, which is still
    to be added, followed by the zero words counted since. *)
Fixpoint to_ewah_loop (ws : list Z) (ewah : ewah_bitmap) (running_empty_words last_word : Z)
  : outcome (ewah_bitmap * Z) :=
  match ws with
  | [] => Ret (ewah, last_word)
  | w :: ws =>
      if w =? 0 then to_ewah_loop ws ewah (running_empty_words + 1) last_word
      else
        let! ewah := (if negb (last_word =? 0) then
                        let! (ewah, _) := ewah_add ewah last_word in Ret ewah
                      else Ret ewah) in
        let! (ewah, running_empty_words) :=
          (if 0 <? running_empty_words then
             let! (ewah, _) := ewah_add_empty_words ewah 0 running_empty_words in Ret (ewah, 0)
           else Ret (ewah, running_empty_words)) in
        to_ewah_loop ws ewah running_empty_words w
  end.

Definition bitmap_to_ewah (m : bitmap) : outcome ewah_bitmap :=
  let! (ewah, last_word) := to_ewah_loop (words m) ewah_new 0 0 in
  let! (ewah, _) := ewah_add ewah last_word in
  Ret ewah.

(** [words] holds the words written so far; the array behind them is resized by
    [ALLOC_GROW] and cut to [i] at the end. *)
Definition ewah_to_bitmap (fuel : nat) (ewah : ewah_bitmap) : outcome bitmap :=
  let! it := ewah_iterator_init ewah in
  let! r := while_next (R := False) fuel it [] (λ acc blowup, Ret (inl (acc ++ [blowup]))) in
  match r with
  | inl acc => Ret (Mk_bitmap acc)
  | inr x => match x with end
  end.

Fixpoint and_not_loop (self other : list Z) : list Z :=
  match self, other with
  | s :: self, o :: other => Z.land s (enot o) :: and_not_loop self other
  | _, _ => self
  end.
Definition bitmap_and_not (self other : bitmap) : bitmap :=
  Mk_bitmap (and_not_loop (words self) (words other)).

(** [for (i = 0; i < other->word_alloc; i++) self->words[i] |= other->words[i]]. *)
Fixpoint or_loop (i : Z) (self other : list Z) : outcome (list Z) :=
  match other with
  | [] => Ret self
  | o :: other =>
      let! s := rd self i in
      let! self := wr self i (Z.lor s o) in
      or_loop (i + 1) self other
  end.
Definition bitmap_or (self other : bitmap) : outcome bitmap :=
  let! ws := or_loop 0 (words (bitmap_grow self (word_alloc other))) (words other) in
  Ret (Mk_bitmap ws).

(** The first loop of [ewah_bitmap_is_subset]: [Some] is a [return] in it. *)
Fixpoint ewah_subset_loop (it : ewah_iterator) (other : list Z) : outcome (option Z * ewah_iterator) :=
  match other with
  | [] => Ret (None, it)
  | o :: other =>
      let! r := ewah_iterator_next it in
      match r with
      | None => Ret (Some 1, it)
      | Some (word, it) =>
          if negb (Z.land word (enot o) =? 0) then Ret (Some 0, it)
          else ewah_subset_loop it other
      end
  end.

Definition ewah_bitmap_is_subset (fuel : nat) (self : ewah_bitmap) (other : bitmap) : outcome Z :=
  let! it := ewah_iterator_init self in
  let! (r, it) := ewah_subset_loop it (words other) in
  match r with
  | Some x => Ret x
  | None =>
      let! r := while_next fuel it tt (λ _ word,
                  if negb (word =? 0) then Ret (inr 0) else Ret (inl tt)) in
      match r with inl _ => Ret 1 | inr x => Ret x end
  end.

Definition bitmap_or_ewah (fuel : nat) (self : bitmap) (other : ewah_bitmap) : outcome bitmap :=
  let other_final := bit_size other / BITS_IN_EWORD + 1 in
  let ws := if word_alloc self <? other_final
            then words self ++ zrep (other_final - word_alloc self) 0 else words self in
  let! it := ewah_iterator_init other in
  let! r := while_next (R := False) fuel it (ws, 0) (λ '(ws, i) word,
              let! w := rd ws i in
              let! ws := wr ws i (Z.lor w word) in
              Ret (inl (ws, i + 1))) in
  match r with
  | inl (ws, _) => Ret (Mk_bitmap ws)
  | inr x => match x with end
  end.

Definition ewah_bit_popcount64 (x : Z) : Z :=
  let x := u64 (Z.land x 0x5555555555555555 + Z.land (Z.shiftr x 1) 0x5555555555555555) in
  let x := u64 (Z.land x 0x3333333333333333 + Z.land (Z.shiftr x 2) 0x3333333333333333) in
  let x := u64 (Z.land x 0x0F0F0F0F0F0F0F0F + Z.land (Z.shiftr x 4) 0x0F0F0F0F0F0F0F0F) in
  u32 (Z.shiftr (u64 (x * 0x0101010101010101)) 56).

Fixpoint popcount_loop (ws : list Z) (count : Z) : Z :=
  match ws with
  | [] => count
  | w :: ws => popcount_loop ws (u64 (count + ewah_bit_popcount64 w))
  end.
Definition bitmap_popcount (self : bitmap) : Z := popcount_loop (words self) 0.

Definition ewah_bitmap_popcount (fuel : nat) (self : ewah_bitmap) : outcome Z :=
  let! it := ewah_iterator_init self in
  let! r := while_next (R := False) fuel it 0 (λ count word,
              Ret (inl (u64 (count + ewah_bit_popcount64 word)))) in
  match r with
  | inl count => Ret count
  | inr x => match x with end
  end.

Definition bitmap_is_empty (self : bitmap) : Z :=
  if existsb (λ w, negb (w =? 0)) (words self) then 0 else 1.

Fixpoint equals_loop (small big : list Z) : Z :=
  match small, big with
  | s :: small, x :: big => if negb (s =? x) then 0 else equals_loop small big
  | _, _ => if existsb (λ w, negb (w =? 0)) big then 0 else 1
  end.
Definition bitmap_equals (self other : bitmap) : Z :=
  if word_alloc self <? word_alloc other then equals_loop (words self) (words other)
  else equals_loop (words other) (words self).

Definition bitmap_equals_ewah (fuel : nat) (self : bitmap) (other : ewah_bitmap) : outcome Z :=
  let! it := ewah_iterator_init other in
  let! r := while_next fuel it (words self) (λ rest word,
              let '(x, rest) := match rest with [] => (0, []) | x :: rest => (x, rest) end in
              if negb (word =? x) then Ret (inr 0) else Ret (inl rest)) in
  match r with
  | inl rest => Ret (if existsb (λ w, negb (w =? 0)) rest then 0 else 1)
  | inr x => Ret x
  end.

Fixpoint not_subset_loop (self other : list Z) : bool :=
  match self, other with
  | s :: self, o :: other => negb (Z.land s (enot o) =? 0) || not_subset_loop self other
  | _, _ => false
  end.
Definition bitmap_is_subset (self other : bitmap) : Z :=
  if word_alloc self <? word_alloc other then
    if not_subset_loop (words self) (words other) then 1 else 0
  else if existsb (λ w, negb (w =? 0)) (zdrop (word_alloc other) (words self)) then 1
  else if not_subset_loop (words self) (words other) then 1 else 0.

End Bitmap.
