(* ===== verification/BitmapSpec.v ===== *)
(** * The operations of [Bitmap] on bits

    Each operation is described by the bits of its result; the conversions and
    the mixed operations go through the words a compressed bitmap stands for. *)
From stdpp Require Import prelude.
From S2P Require Import Prelude Ewah EwahSpec EwahBits EwahIter Bitmap.
Import Ewah EwahSpec EwahBits EwahIter Bitmap.

Module BitmapSpec.

Definition words_ok (ws : list Z) : Prop := Forall word_ok ws.

(** Word [k], 0 beyond the end. *)
Definition wget (ws : list Z) (k : Z) : Z := default 0 (znth ws k).

Lemma wbit_wget ws i : wbit ws i = Z.testbit (wget ws (i / 64)) (i mod 64).
Proof. unfold wbit, wget. destruct (znth ws (i / 64)); [done|]. by rewrite Z.testbit_0_l. Qed.

Lemma wget_ok ws k : words_ok ws → word_ok (wget ws k).
Proof.
  intros Hws. unfold wget, znth. destruct (0 <=? k); [|done].
  destruct (ws !! Z.to_nat k) eqn:E; [|done]. cbn. by eapply Forall_lookup_1.
Qed.

Lemma wget_nil k : wget [] k = 0.
Proof. unfold wget, znth. destruct (0 <=? k); done. Qed.
Lemma wget_cons_0 w ws : wget (w :: ws) 0 = w.
Proof. done. Qed.
Lemma wget_cons_S w ws k : 0 <= k → wget (w :: ws) (k + 1) = wget ws k.
Proof.
  intros. unfold wget, znth. rewrite !(proj2 (Z.leb_le 0 _)) by lia.
  by replace (Z.to_nat (k + 1)) with (S (Z.to_nat k)) by lia.
Qed.
Lemma wget_beyond ws k : zlen ws <= k → wget ws k = 0.
Proof.
  intros. unfold wget. destruct (znth ws k) eqn:E; [|done]. apply znth_Some_lt in E. lia.
Qed.
Lemma wget_app_zeros ws n k : wget (ws ++ zrep n 0) k = wget ws k.
Proof.
  unfold wget, znth. destruct (0 <=? k); [|done]. destruct (decide (Z.to_nat k < length ws)%nat).
  - by rewrite lookup_app_l.
  - rewrite lookup_app_r, (lookup_ge_None_2 ws) by lia.
    destruct (zrep n 0 !! _) eqn:E; [|done]. by apply lookup_replicate in E as [-> _].
Qed.

Lemma wget_single_0 k : wget [0] k = wget [] k.
Proof. apply (wget_app_zeros [] 1). Qed.

(** ** Relations word by word are relations bit by bit *)
Definition words_rel (R : Z → Z → Prop) (a b : list Z) : Prop :=
  ∀ k, 0 <= k → R (wget a k) (wget b k).
Definition bits_rel (r : bool → bool → Prop) (a b : list Z) : Prop :=
  ∀ i, 0 <= i → r (wbit a i) (wbit b i).

Definition lifts (R : Z → Z → Prop) (r : bool → bool → Prop) : Prop :=
  ∀ x y, word_ok x → word_ok y → R x y ↔ ∀ c, 0 <= c < 64 → r (Z.testbit x c) (Z.testbit y c).

Lemma words_bits_rel R r a b :
  lifts R r → words_ok a → words_ok b → words_rel R a b ↔ bits_rel r a b.
Proof.
  intros HR Ha Hb. split.
  - intros Hw i Hi. rewrite !wbit_wget. apply HR; [by apply wget_ok..| |apply Z.mod_pos_bound; lia].
    apply Hw, Z.div_pos; lia.
  - intros Hbits k Hk. apply HR; [by apply wget_ok..|]. intros c Hc.
    specialize (Hbits (64 * k + c) ltac:(lia)). rewrite !wbit_wget in Hbits.
    replace ((64 * k + c) / 64) with k in Hbits by (Z.div_mod_to_equations; lia).
    by replace ((64 * k + c) mod 64) with c in Hbits by (Z.div_mod_to_equations; lia).
Qed.

Lemma words_rel_cons R x y a b : words_rel R (x :: a) (y :: b) ↔ R x y ∧ words_rel R a b.
Proof.
  split.
  - intros H. split; [apply (H 0); lia|]. intros k Hk.
    specialize (H (k + 1) ltac:(lia)). by rewrite !wget_cons_S in H.
  - intros [H0 H] k Hk. destruct (decide (k = 0)) as [->|]; [done|].
    replace k with (k - 1 + 1) by lia. rewrite !wget_cons_S by lia. apply H. lia.
Qed.
Lemma words_rel_nil_l R y b : words_rel R [] (y :: b) ↔ R 0 y ∧ words_rel R [] b.
Proof.
  rewrite <- (words_rel_cons R 0 y [] b).
  split; intros H k Hk; specialize (H k Hk); by rewrite wget_single_0 in *.
Qed.
Lemma words_rel_nil_r R x a : words_rel R (x :: a) [] ↔ R x 0 ∧ words_rel R a [].
Proof.
  rewrite <- (words_rel_cons R x 0 a []).
  split; intros H k Hk; specialize (H k Hk); by rewrite wget_single_0 in *.
Qed.
Lemma words_rel_nil R : R 0 0 → words_rel R [] [].
Proof. intros H k _. by rewrite !wget_nil. Qed.

Definition same_words := words_rel eq.
Definition sub_word (x y : Z) : Prop := Z.land x (enot y) = 0.

Lemma lifts_eq : lifts eq eq.
Proof.
  intros x y Hx Hy. split; [by intros ->|]. intros H. apply Z.bits_inj'. intros c Hc.
  destruct (decide (c < 64)); [apply H; lia|]. by rewrite !(testbit_above _ 64) by (done || lia).
Qed.
Lemma lifts_sub : lifts sub_word (λ a b, a = true → b = true).
Proof.
  intros x y Hx Hy. unfold sub_word. split.
  - intros H c Hc Hxc. apply (f_equal (λ z, Z.testbit z c)) in H.
    rewrite Z.land_spec, enot_spec, Hxc, Z.testbit_0_l in H by lia.
    rewrite (proj2 (Z.ltb_lt c 64)) in H by lia. by destruct (Z.testbit y c).
  - intros H. apply Z.bits_inj'. intros c Hc. rewrite Z.land_spec, enot_spec, Z.testbit_0_l by lia.
    destruct (Z.ltb_spec c 64); [|apply andb_false_r].
    specialize (H c ltac:(lia)). destruct (Z.testbit x c), (Z.testbit y c); naive_solver.
Qed.

(** ** One bit *)
Lemma bitmap_get_eq m i : 0 <= i → bitmap_get m i = Ret (wbit (words m) i).
Proof.
  intros Hi. unfold bitmap_get, EWAH_BLOCK, EWAH_MASK, BITS_IN_EWORD, wbit, word_alloc.
  assert (0 <= i / 64) by (apply Z.div_pos; lia).
  destruct (Z.ltb_spec (i / 64) (zlen (words m))).
  - destruct (znth_is_Some (words m) (i / 64)) as [w Hw]; [lia|].
    rewrite Hw, (rd_znth _ _ w) by done. cbn [obind]. f_equal.
    apply land_mask, Z.mod_pos_bound. lia.
  - destruct (znth (words m) (i / 64)) eqn:E; [apply znth_Some_lt in E; lia|done].
Qed.

Lemma wget_insert ws k x j :
  0 <= k < zlen ws → wget (<[Z.to_nat k := x]> ws) j = if j =? k then x else wget ws j.
Proof.
  intros Hk. unfold wget. destruct (Z.eqb_spec j k) as [->|].
  - by rewrite znth_insert_eq.
  - by rewrite znth_insert_ne by lia.
Qed.

(** A write to one word that changes a single bit of it. *)
Lemma wbit_insert ws pos x v j :
  0 <= pos → pos / 64 < zlen ws → 0 <= j →
  (∀ c, 0 <= c < 64 → Z.testbit x c = if c =? pos mod 64 then v else Z.testbit (wget ws (pos / 64)) c) →
  wbit (<[Z.to_nat (pos / 64) := x]> ws) j = if j =? pos then v else wbit ws j.
Proof.
  intros Hp Hlen Hj Hx. rewrite !wbit_wget, wget_insert by (split; [apply Z.div_pos; lia|done]).
  destruct (Z.eqb_spec (j / 64) (pos / 64)) as [E|E].
  - rewrite Hx by (apply Z.mod_pos_bound; lia). rewrite E.
    destruct (Z.eqb_spec (j mod 64) (pos mod 64)), (Z.eqb_spec j pos); try done.
    + exfalso. Z.div_mod_to_equations; lia.
    + subst. done.
  - destruct (Z.eqb_spec j pos) as [->|]; done.
Qed.

Lemma alloc_grow_le n a : 0 <= a → n <= alloc_grow n a ∧ a <= alloc_grow n a.
Proof. intros. destruct (alloc_grow_ge n a); lia. Qed.

Lemma bitmap_grow_spec m n :
  n <= word_alloc (bitmap_grow m n) ∧ (∀ i, wbit (words (bitmap_grow m n)) i = wbit (words m) i) ∧
  (words_ok (words m) → words_ok (words (bitmap_grow m n))).
Proof.
  unfold word_alloc, bitmap_grow. cbn [words]. fold (word_alloc m).
  destruct (alloc_grow_le n (word_alloc m)) as [H1 H2]; [apply zlen_nonneg|]. split_and!.
  - rewrite zlen_app, zlen_zrep by lia. unfold word_alloc in *. lia.
  - intros i. by rewrite !wbit_wget, wget_app_zeros.
  - intros Hok. apply Forall_app. split; [done|]. by apply Forall_replicate.
Qed.

Lemma bitmap_set_wp m pos :
  words_ok (words m) → 0 <= pos →
  returns (bitmap_set m pos) (λ m', words_ok (words m') ∧
    ∀ j, 0 <= j → wbit (words m') j = wbit (words m) j || (j =? pos)).
Proof.
  intros Hok Hp. unfold bitmap_set, EWAH_BLOCK, EWAH_MASK, BITS_IN_EWORD.
  destruct (bitmap_grow_spec m (pos / 64 + 1)) as (Hlen & Hbits & Hok').
  set (ws := words (bitmap_grow m (pos / 64 + 1))) in *. unfold word_alloc in Hlen. fold ws in Hlen.
  assert (0 <= pos / 64) by (apply Z.div_pos; lia).
  apply wp_bind, rd_wp; [lia|]. intros w Hw. apply wp_bind, wr_wp; [lia|]. cbn [wp words].
  assert (wget ws (pos / 64) = w) as Eg by (unfold wget; by rewrite Hw).
  split.
  - apply Forall_insert; [exact (Hok' Hok)|]. apply lor_lt_pow2; [lia| |apply mask_word, Z.mod_pos_bound; lia].
    rewrite <- Eg. by apply wget_ok, Hok'.
  - intros j Hj. rewrite <- Hbits. rewrite (wbit_insert ws pos _ true); try done; [|lia|].
    + destruct (j =? pos); by rewrite ?orb_true_r, ?orb_false_r.
    + intros c Hc. rewrite Eg, Z.lor_spec, testbit_mask by (apply Z.mod_pos_bound || lia; lia).
      destruct (c =? pos mod 64); by rewrite ?orb_true_r, ?orb_false_r.
Qed.

Lemma bitmap_unset_wp m pos :
  words_ok (words m) → 0 <= pos →
  returns (bitmap_unset m pos) (λ m', words_ok (words m') ∧
    ∀ j, 0 <= j → wbit (words m') j = wbit (words m) j && negb (j =? pos)).
Proof.
  intros Hok Hp. unfold bitmap_unset, EWAH_BLOCK, EWAH_MASK, BITS_IN_EWORD, word_alloc.
  assert (0 <= pos / 64) by (apply Z.div_pos; lia).
  destruct (Z.ltb_spec (pos / 64) (zlen (words m))).
  - apply wp_bind, rd_wp; [lia|]. intros w Hw. apply wp_bind, wr_wp; [lia|]. cbn [wp words].
    assert (wget (words m) (pos / 64) = w) as Eg by (unfold wget; by rewrite Hw).
    split.
    + apply Forall_insert; [done|]. apply land_lt_pow2; [lia|]. rewrite <- Eg. by apply wget_ok.
    + intros j Hj. rewrite (wbit_insert _ pos _ false); try done.
      * destruct (j =? pos); by rewrite ?andb_true_r, ?andb_false_r.
      * intros c Hc. rewrite Eg, Z.land_spec, enot_spec, testbit_mask by (apply Z.mod_pos_bound || lia; lia).
        rewrite (proj2 (Z.ltb_lt c 64)) by lia. cbn [andb].
        destruct (c =? pos mod 64); by rewrite ?andb_true_r, ?andb_false_r.
  - cbn [wp]. split; [done|]. intros j Hj. destruct (Z.eqb_spec j pos) as [->|]; cbn.
    + rewrite andb_false_r, wbit_wget, wget_beyond by done. apply Z.testbit_0_l.
    + by rewrite andb_true_r.
Qed.

(** ** All words *)
Lemma land_enot_0 x : word_ok x → Z.land x (enot 0) = x.
Proof.
  intros Hx. change (enot 0) with (Z.ones 64). rewrite Z.land_ones by lia. by apply Z.mod_small.
Qed.

(** Case analysis on a word index: the first word or a later one. *)
Lemma index_ind (P : Z → Prop) : P 0 → (∀ k, 0 <= k → P (k + 1)) → ∀ k, 0 <= k → P k.
Proof.
  intros H0 HS k Hk. destruct (decide (k = 0)) as [->|]; [done|].
  replace k with (k - 1 + 1) by lia. apply HS. lia.
Qed.

Lemma and_not_loop_wget a b :
  words_ok a → ∀ k, 0 <= k → wget (and_not_loop a b) k = Z.land (wget a k) (enot (wget b k)).
Proof.
  intros Ha. revert b. induction Ha as [|x a Hx Ha IH]; intros b k Hk.
  { cbn [and_not_loop]. by rewrite wget_nil. }
  destruct b as [|y b]; cbn [and_not_loop].
  { rewrite wget_nil. symmetry. apply land_enot_0, wget_ok. by constructor. }
  revert k Hk. apply index_ind; [done|]. intros k Hk. rewrite !wget_cons_S by done. by apply IH.
Qed.

Lemma bitmap_and_not_bits self other i :
  words_ok (words self) → words_ok (words other) → 0 <= i →
  wbit (words (bitmap_and_not self other)) i = wbit (words self) i && negb (wbit (words other) i).
Proof.
  intros Hs Ho Hi. unfold bitmap_and_not. cbn [words].
  rewrite !wbit_wget, and_not_loop_wget by (done || apply Z.div_pos; lia).
  rewrite Z.land_spec, enot_spec by (apply Z.mod_pos_bound; lia).
  by rewrite (proj2 (Z.ltb_lt (i mod 64) 64)) by (apply Z.mod_pos_bound; lia).
Qed.

Lemma or_loop_wp other : ∀ pre self,
  words_ok self → words_ok other → zlen other <= zlen self →
  returns (or_loop (zlen pre) (pre ++ self) other) (λ ws, ∃ self',
    ws = pre ++ self' ∧ zlen self' = zlen self ∧ words_ok self' ∧
    ∀ k, 0 <= k → wget self' k = Z.lor (wget self k) (wget other k)).
Proof.
  induction other as [|o other IH]; intros pre self Hs Ho Hlen; cbn [or_loop].
  { exists self. split_and!; try done. intros. by rewrite wget_nil, Z.lor_0_r. }
  apply Forall_cons in Ho as [Ho Hos]. rewrite zlen_cons in Hlen.
  destruct self as [|s self]; [change (zlen ([] : list Z)) with 0 in Hlen; pose proof (zlen_nonneg other); lia|].
  apply Forall_cons in Hs as [Hs Hss]. rewrite zlen_cons in Hlen.
  rewrite (rd_znth _ _ s) by apply znth_app_len. cbn [obind].
  rewrite wr_ok by (rewrite zlen_app, zlen_cons; pose proof (zlen_nonneg pre); pose proof (zlen_nonneg self); lia).
  cbn [obind]. replace (<[Z.to_nat (zlen pre):=Z.lor s o]> (pre ++ s :: self)) with
    ((pre ++ [Z.lor s o]) ++ self).
  2:{ unfold zlen. by rewrite Nat2Z.id, insert_app_r_alt, Nat.sub_diag, <- app_assoc by lia. }
  replace (zlen pre + 1) with (zlen (pre ++ [Z.lor s o])) by (rewrite zlen_app; done).
  eapply wp_mono; [|apply IH; [done..|lia]]. cbv beta.
  intros ws (self' & -> & Hl & Hok & Hk). exists (Z.lor s o :: self'). split_and!.
  - by rewrite <- app_assoc.
  - by rewrite !zlen_cons, Hl.
  - constructor; [by apply lor_lt_pow2|done].
  - apply index_ind; [done|]. intros k Hk0. rewrite !wget_cons_S by done. by apply Hk.
Qed.

Lemma bitmap_or_wp self other :
  words_ok (words self) → words_ok (words other) →
  returns (bitmap_or self other) (λ m, words_ok (words m) ∧
    ∀ i, 0 <= i → wbit (words m) i = wbit (words self) i || wbit (words other) i).
Proof.
  intros Hs Ho. unfold bitmap_or.
  destruct (bitmap_grow_spec self (word_alloc other)) as (Hlen & Hbits & Hok').
  apply wp_bind. eapply wp_mono; [|apply (or_loop_wp _ []); [by apply Hok'|done|done]].
  intros ws (self' & -> & _ & Hok & Hk). cbn [wp words app]. split; [done|]. intros i Hi.
  rewrite <- Hbits, !wbit_wget, Hk by (apply Z.div_pos; lia). apply Z.lor_spec.
Qed.

Lemma existsb_nonzero_true ws : existsb (λ w, negb (w =? 0)) ws = false ↔ words_rel eq ws [].
Proof.
  induction ws as [|w ws IH]; cbn [existsb].
  { split; [|done]. intros _. by apply words_rel_nil. }
  rewrite orb_false_iff, negb_false_iff, Z.eqb_eq, IH. symmetry. apply words_rel_nil_r.
Qed.

Lemma words_rel_eq_sym a b : words_rel eq a b ↔ words_rel eq b a.
Proof. unfold words_rel. split; intros H k Hk; symmetry; auto. Qed.

Lemma equals_loop_spec small big :
  zlen small <= zlen big → equals_loop small big = 1 ↔ words_rel eq small big.
Proof.
  assert (∀ ws, (if existsb (λ w, negb (w =? 0)) ws then 0 else 1) = 1 ↔ words_rel eq [] ws) as Hz.
  { intros ws. rewrite words_rel_eq_sym, <- existsb_nonzero_true.
    destruct (existsb _ ws); naive_solver. }
  revert big. induction small as [|s small IH]; intros big Hlen; cbn [equals_loop]; [apply Hz|].
  rewrite zlen_cons in Hlen. destruct big as [|x big].
  { change (zlen ([] : list Z)) with 0 in Hlen. pose proof (zlen_nonneg small). lia. }
  rewrite zlen_cons in Hlen. rewrite words_rel_cons, <- IH by lia.
  destruct (Z.eqb_spec s x); cbn [negb]; naive_solver.
Qed.

Lemma bitmap_equals_bits self other :
  words_ok (words self) → words_ok (words other) →
  bitmap_equals self other = 1 ↔ ∀ i, 0 <= i → wbit (words self) i = wbit (words other) i.
Proof.
  intros Hs Ho. change (∀ i, _) with (bits_rel eq (words self) (words other)).
  rewrite <- (words_bits_rel _ _ _ _ lifts_eq Hs Ho). unfold bitmap_equals, word_alloc.
  destruct (Z.ltb_spec (zlen (words self)) (zlen (words other))).
  - apply equals_loop_spec. lia.
  - rewrite equals_loop_spec by lia. apply words_rel_eq_sym.
Qed.

Lemma bitmap_is_empty_bits self :
  words_ok (words self) → bitmap_is_empty self = 1 ↔ ∀ i, 0 <= i → wbit (words self) i = false.
Proof.
  intros Hs. unfold bitmap_is_empty.
  transitivity (bits_rel eq (words self) []).
  2:{ unfold bits_rel. setoid_rewrite wbit_nil. done. }
  rewrite <- (words_bits_rel _ _ _ _ lifts_eq Hs) by constructor. rewrite <- existsb_nonzero_true.
  destruct (existsb _ _); naive_solver.
Qed.

(** [bitmap_is_subset] answers 1 exactly when [self] is {e not} contained in
    [other]. *)
Lemma sub_word_0_l x : sub_word 0 x.
Proof. done. Qed.
Lemma sub_word_0_r x : word_ok x → sub_word x 0 ↔ x = 0.
Proof. intros Hx. unfold sub_word. by rewrite land_enot_0. Qed.

Lemma sub_nil_l b : words_rel sub_word [] b.
Proof. intros k Hk. rewrite wget_nil. done. Qed.

Lemma sub_nil_r a : words_ok a → words_rel sub_word a [] ↔ existsb (λ w, negb (w =? 0)) a = false.
Proof.
  induction 1 as [|x a Hx Ha IH]; cbn [existsb].
  { split; [done|]. intros _. apply sub_nil_l. }
  rewrite words_rel_nil_r, IH, sub_word_0_r, orb_false_iff, negb_false_iff, Z.eqb_eq by done. done.
Qed.

Lemma not_subset_loop_spec a b :
  words_ok a → words_rel sub_word a b ↔
    not_subset_loop a b = false ∧ existsb (λ w, negb (w =? 0)) (zdrop (zlen b) a) = false.
Proof.
  intros Ha. revert b. induction Ha as [|x a Hx Ha IH]; intros b; cbn [not_subset_loop].
  { unfold zdrop. rewrite drop_nil. split; [done|]. intros _. apply sub_nil_l. }
  destruct b as [|y b].
  { rewrite zdrop_0, sub_nil_r by (by constructor). tauto. }
  rewrite words_rel_cons, IH, orb_false_iff, negb_false_iff, Z.eqb_eq.
  rewrite zlen_cons. replace (zdrop (1 + zlen b) (x :: a)) with (zdrop (zlen b) a).
  2:{ unfold zdrop, zlen. by replace (Z.to_nat (1 + Z.of_nat (length b))) with (S (length b)) by lia; rewrite Nat2Z.id. }
  unfold sub_word. tauto.
Qed.

Lemma bitmap_is_subset_bits self other :
  words_ok (words self) → words_ok (words other) →
  bitmap_is_subset self other = 0 ↔
    ∀ i, 0 <= i → wbit (words self) i = true → wbit (words other) i = true.
Proof.
  intros Hs Ho.
  change (∀ i, _) with (bits_rel (λ a b, a = true → b = true) (words self) (words other)).
  rewrite <- (words_bits_rel _ _ _ _ lifts_sub Hs Ho), (not_subset_loop_spec _ _ Hs).
  unfold bitmap_is_subset, word_alloc.
  destruct (Z.ltb_spec (zlen (words self)) (zlen (words other))).
  - rewrite (zdrop_all (words self)) by lia. cbn [existsb].
    destruct (not_subset_loop _ _); naive_solver.
  - destruct (existsb _ _), (not_subset_loop _ _); naive_solver.
Qed.

(** ** Conversions *)
Lemma fill_ok b : word_ok (fill b).
Proof. unfold fill. by destruct (b =? 0). Qed.

Lemma segs_words_ok ss : Forall seg_ok ss → words_ok (segs_words ss).
Proof.
  induction 1 as [|[b r lits] ss [_ Hl] Hss IH]; [constructor|].
  change (segs_words (Seg b r lits :: ss)) with ((zrep r (fill b) ++ lits) ++ segs_words ss).
  repeat (apply Forall_app; split); [|done|done]. apply Forall_replicate, fill_ok.
Qed.

Lemma repr_words_ok e ws : repr e ws → words_ok ws.
Proof. intros (init & last & _ & _ & Hok & _ & _ & _ & <-). by apply segs_words_ok. Qed.

(** The words read and not yet added to the result. *)
Definition pending (run last : Z) : list Z := (if last =? 0 then [] else [last]) ++ zrep run 0.

Lemma to_ewah_loop_wp ws : ∀ e done_ run last,
  words_ok ws → word_ok last → 0 <= run → repr e done_ → bit_size e = 64 * zlen done_ →
  (last = 0 → done_ = []) → 64 * (zlen done_ + 1 + run + zlen ws) < 2 ^ 64 →
  returns (to_ewah_loop ws e run last) (λ '(e', last'), ∃ done' run',
    repr e' done' ∧ bit_size e' = 64 * zlen done' ∧ 0 <= run' ∧ word_ok last' ∧
    (last' = 0 → done' = []) ∧ done_ ++ pending run last ++ ws = done' ++ pending run' last').
Proof.
  induction ws as [|w ws IH]; intros e done_ run last Hws Hlast Hrun Hr Hb Hl0 Hmax; cbn [to_ewah_loop].
  { cbn [wp]. exists done_, run. by rewrite app_nil_r. }
  apply Forall_cons in Hws as [Hw Hws]. rewrite zlen_cons in Hmax.
  pose proof (zlen_nonneg ws). pose proof (zlen_nonneg done_).
  destruct (Z.eqb_spec w 0) as [->|Hw0].
  { eapply wp_mono; [|apply (IH e done_ (run + 1) last); try done; lia].
    intros [e' last'] (done' & run' & ? & ? & ? & ? & ? & E). exists done', run'.
    split_and!; try done. rewrite <- E. unfold pending. rewrite zrep_add by lia.
    by rewrite <- !app_assoc. }
  apply wp_bind, (wp_mono _ _ (λ e', repr e' (done_ ++ (if last =? 0 then [] else [last])) ∧
    bit_size e' = 64 * zlen (done_ ++ (if last =? 0 then [] else [last])))).
  2:{ destruct (Z.eqb_spec last 0) as [->|]; cbn [negb]; [by rewrite app_nil_r|].
      apply wp_bind. eapply wp_mono; [|apply (ewah_add_wp e done_ last); [done|done|lia|lia]].
      intros [e' k] [Hr' Hb']. cbn [wp]. split; [done|]. rewrite zlen_app, Hb', Hb.
      change (zlen [last]) with 1. lia. }
  intros e1 [Hr1 Hb1]. set (d1 := done_ ++ (if last =? 0 then [] else [last])) in *.
  assert (zlen d1 <= zlen done_ + 1).
  { unfold d1. rewrite zlen_app. destruct (last =? 0); [change (zlen []) with 0|change (zlen [last]) with 1]; lia. }
  apply wp_bind, (wp_mono _ _ (λ '(e', run'), repr e' (d1 ++ zrep run 0) ∧
    bit_size e' = 64 * zlen (d1 ++ zrep run 0) ∧ run' = 0)).
  2:{ pose proof (zlen_nonneg d1). destruct (Z.ltb_spec 0 run).
      - apply wp_bind. eapply wp_mono; [|apply (ewah_add_empty_words_wp e1 d1 0 run); [done|by left|lia..]].
        intros [e' k] [Hr' Hb']. cbn [wp]. split_and!; [done| |done].
        rewrite zlen_app, zlen_zrep, Hb', Hb1 by lia. lia.
      - assert (run = 0) as -> by lia. cbn [wp]. rewrite zrep_0, app_nil_r. done. }
  intros [e2 run2] (Hr2 & Hb2 & ->). 
  eapply wp_mono; [|apply (IH e2 (d1 ++ zrep run 0) 0 w); try done].
  - intros [e' last'] (done' & run' & ? & ? & ? & ? & ? & E). exists done', run'.
    split_and!; try done. rewrite <- E. unfold pending, d1. rewrite (proj2 (Z.eqb_neq w 0)) by done.
    rewrite zrep_0. by rewrite <- !app_assoc.
  - rewrite zlen_app, zlen_zrep by lia. lia.
Qed.

Lemma wbit_app_zeros ws n i : wbit (ws ++ zrep n 0) i = wbit ws i.
Proof. by rewrite !wbit_wget, wget_app_zeros. Qed.

Lemma bitmap_to_ewah_wp m :
  words_ok (words m) → 64 * (zlen (words m) + 2) < 2 ^ 64 →
  returns (bitmap_to_ewah m) (λ e, ∃ ws, repr e ws ∧ bit_size e = 64 * zlen ws ∧
    zlen ws <= zlen (words m) + 1 ∧ ∀ i, wbit ws i = wbit (words m) i).
Proof.
  intros Hok Hmax. unfold bitmap_to_ewah. pose proof (zlen_nonneg (words m)).
  apply wp_bind. eapply wp_mono;
    [|apply (to_ewah_loop_wp (words m) ewah_new [] 0 0); try done; [apply ewah_new_repr|
      change (zlen ([] : list Z)) with 0; lia]].
  intros [e last] (done_ & run & Hr & Hb & Hrun & Hlast & Hl0 & E).
  cbn [app] in E. change (pending 0 0 ++ words m) with (words m) in E.
  pose proof (zlen_nonneg done_).
  assert (zlen done_ <= zlen (words m)).
  { rewrite E, zlen_app. pose proof (zlen_nonneg (pending run last)). lia. }
  apply wp_bind. eapply wp_mono; [|apply (ewah_add_wp e done_ last); [done|done|lia|lia]].
  intros [e' k] [Hr' Hb']. cbn [wp]. exists (done_ ++ [last]). split_and!; [done|..].
  - rewrite zlen_app, Hb', Hb. change (zlen [last]) with 1. lia.
  - rewrite zlen_app. change (zlen [last]) with 1. lia.
  - intros i. rewrite E. unfold pending. destruct (Z.eqb_spec last 0) as [->|].
    + rewrite Hl0 by done. cbn [app]. rewrite wbit_zrep0. apply (wbit_zrep0 1).
    + by rewrite app_assoc, wbit_app_zeros.
Qed.

Lemma ewah_to_bitmap_eq e ws fuel :
  repr e ws → (length ws < fuel)%nat → ewah_to_bitmap fuel e = Ret (Mk_bitmap ws).
Proof.
  intros Hr Hf. unfold ewah_to_bitmap.
  destruct (proj1 (returns_eq _ _) (init_yields e ws Hr)) as (it & -> & Hy). cbn [obind].
  rewrite (while_next_fold _ ws) by done.
  assert (∀ acc, fold_words (R := False) (λ acc blowup, Ret (inl (acc ++ [blowup]))) ws acc =
    Ret (inl (acc ++ ws))) as ->; [|done].
  clear. induction ws as [|w ws IH]; intros acc; cbn; [by rewrite app_nil_r|].
  rewrite IH, <- app_assoc. done.
Qed.

(** ** Mixed operations *)
Lemma or_ewah_fold other : ∀ ws i,
  fold_words (R := False) (λ '(ws, i) word,
      let! w := rd ws i in
      let! ws := wr ws i (Z.lor w word) in
      Ret (inl (ws, i + 1))) other (ws, i) =
    (let! ws := or_loop i ws other in Ret (inl (ws, i + zlen other))).
Proof.
  induction other as [|o other IH]; intros ws i; cbn [fold_words or_loop obind].
  { change (zlen ([] : list Z)) with 0. by rewrite Z.add_0_r. }
  destruct (rd ws i) as [s| | |]; try done. cbn [obind].
  destruct (wr ws i (Z.lor s o)) as [ws'| | |]; try done. cbn [obind].
  rewrite IH, zlen_cons. by replace (i + (1 + zlen other)) with (i + 1 + zlen other) by lia.
Qed.

Lemma bitmap_or_ewah_wp self e ws fuel :
  words_ok (words self) → repr e ws → zlen ws <= bit_size e / 64 + 1 → (length ws < fuel)%nat →
  returns (bitmap_or_ewah fuel self e) (λ m, words_ok (words m) ∧
    ∀ i, 0 <= i → wbit (words m) i = wbit (words self) i || wbit ws i).
Proof.
  intros Hs Hr Hlen Hf. unfold bitmap_or_ewah, word_alloc, BITS_IN_EWORD.
  set (self' := if zlen (words self) <? _ then _ else _).
  assert (words_ok self' ∧ zlen ws <= zlen self' ∧ ∀ i, wbit self' i = wbit (words self) i)
    as (Hok' & Hlen' & Hbits).
  { unfold self'. destruct (Z.ltb_spec (zlen (words self)) (bit_size e / 64 + 1)); [|by split_and!; [|lia|]].
    split_and!.
    - apply Forall_app. split; [done|]. by apply Forall_replicate.
    - rewrite zlen_app, zlen_zrep by lia. lia.
    - intros i. apply wbit_app_zeros. }
  clearbody self'.
  destruct (proj1 (returns_eq _ _) (init_yields e ws Hr)) as (it & -> & Hy). cbn [obind].
  rewrite (while_next_fold _ ws), or_ewah_fold by done.
  pose proof (or_loop_wp ws [] self' Hok' (repr_words_ok _ _ Hr) Hlen') as Hor.
  apply returns_eq in Hor as (ws' & E & self2 & -> & _ & Hok2 & Hk).
  change (zlen ([] : list Z)) with 0 in E. cbn [app] in E. rewrite E. cbn [obind wp words].
  split; [done|]. intros i Hi. rewrite <- Hbits, !wbit_wget, Hk by (apply Z.div_pos; lia).
  apply Z.lor_spec.
Qed.

(** The loop over the words of [other], then the loop over what is left. *)
Fixpoint subset_words (ws other : list Z) {struct other} : Z :=
  match other with
  | [] => if existsb (λ w, negb (w =? 0)) ws then 0 else 1
  | o :: other =>
      match ws with
      | [] => 1
      | w :: ws => if negb (Z.land w (enot o) =? 0) then 0 else subset_words ws other
      end
  end.

Lemma subset_tail_fold ws :
  fold_words (λ (_ : unit) word, if negb (word =? 0) then Ret (inr 0) else Ret (inl tt)) ws tt =
    Ret (if existsb (λ w, negb (w =? 0)) ws then inr 0 else inl tt).
Proof.
  induction ws as [|w ws IH]; cbn [fold_words existsb]; [done|]. by destruct (w =? 0); cbn.
Qed.

Lemma ewah_bitmap_is_subset_words fuel self other ws :
  repr self ws → (length ws < fuel)%nat →
  ewah_bitmap_is_subset fuel self other = Ret (subset_words ws (words other)).
Proof.
  intros Hr. unfold ewah_bitmap_is_subset.
  destruct (proj1 (returns_eq _ _) (init_yields self ws Hr)) as (it & -> & Hy). cbn [obind].
  clear Hr. revert it ws Hy. induction (words other) as [|o os IH]; intros it ws Hy Hf;
    cbn [ewah_subset_loop subset_words].
  - cbn [obind]. rewrite (while_next_fold _ ws), subset_tail_fold by done.
    by destruct (existsb _ ws).
  - destruct (proj1 (returns_eq _ _) (next_yields it ws Hy)) as (x & -> & Hx). cbn [obind].
    destruct ws as [|w ws]; [by rewrite Hx|]. destruct Hx as (it' & -> & Hy').
    destruct (negb _); [done|]. apply IH; [done|cbn in Hf; lia].
Qed.

Lemma subset_words_spec ws other : words_ok ws → subset_words ws other = 1 ↔ words_rel sub_word ws other.
Proof.
  revert ws. induction other as [|o other IH]; intros ws Hws; cbn [subset_words].
  - rewrite sub_nil_r by done. destruct (existsb _ ws); naive_solver.
  - destruct Hws as [|w ws Hw Hws].
    + split; [|done]. intros _. apply sub_nil_l.
    + rewrite words_rel_cons. unfold sub_word at 1.
      destruct (Z.eqb_spec (Z.land w (enot o)) 0); cbn [negb]; [|naive_solver].
      rewrite IH by done. naive_solver.
Qed.

Lemma ewah_bitmap_is_subset_bits fuel self other ws :
  repr self ws → words_ok (words other) → (length ws < fuel)%nat →
  ∃ r, ewah_bitmap_is_subset fuel self other = Ret r ∧
    (r = 1 ↔ ∀ i, 0 <= i → wbit ws i = true → wbit (words other) i = true).
Proof.
  intros Hr Ho Hf. eexists. split; [by apply ewah_bitmap_is_subset_words|].
  pose proof (repr_words_ok _ _ Hr) as Hws. rewrite subset_words_spec by done.
  by apply (words_bits_rel _ _ _ _ lifts_sub).
Qed.

(** [bitmap_equals_ewah] runs as [equals_loop] would on either order. *)
Lemma equals_ewah_spec ws : ∀ rest : list Z,
  returns (let! r := fold_words (λ rest word,
      let '(x, rest) := match rest with [] => (0, []) | x :: rest => (x, rest) end in
      if negb (word =? x) then Ret (inr 0) else Ret (inl rest)) ws rest in
    match r with
    | inl rest => Ret (if existsb (λ w, negb (w =? 0)) rest then 0 else 1)
    | inr x => Ret x
    end) (λ r, r = 1 ↔ words_rel eq rest ws).
Proof.
  induction ws as [|w ws IH]; intros rest; cbn [fold_words].
  - cbn [obind wp]. pose proof (existsb_nonzero_true rest) as Hz.
    destruct (existsb _ rest); naive_solver.
  - destruct rest as [|x rest].
    + apply (wp_mono _ _ (λ r, r = 1 ↔ 0 = w ∧ words_rel eq [] ws)).
      { intros r. by rewrite words_rel_nil_l. }
      destruct (Z.eqb_spec w 0) as [->|]; cbn [negb obind].
      * eapply wp_mono; [|apply (IH [])]. cbv beta. naive_solver.
      * cbn. split; [done|]. intros [? _]. congruence.
    + apply (wp_mono _ _ (λ r, r = 1 ↔ x = w ∧ words_rel eq rest ws)).
      { intros r. by rewrite words_rel_cons. }
      destruct (Z.eqb_spec w x) as [->|]; cbn [negb obind].
      * eapply wp_mono; [|apply (IH rest)]. cbv beta. naive_solver.
      * cbn. split; [done|]. intros [? _]. congruence.
Qed.

Lemma bitmap_equals_ewah_bits fuel self other ws :
  words_ok (words self) → repr other ws → (length ws < fuel)%nat →
  returns (bitmap_equals_ewah fuel self other) (λ r,
    r = 1 ↔ ∀ i, 0 <= i → wbit (words self) i = wbit ws i).
Proof.
  intros Hs Hr Hf. unfold bitmap_equals_ewah.
  destruct (proj1 (returns_eq _ _) (init_yields other ws Hr)) as (it & -> & Hy). cbn [obind].
  rewrite (while_next_fold _ ws) by done. eapply wp_mono; [|apply equals_ewah_spec].
  cbv beta. intros r ->. apply (words_bits_rel _ _ _ _ lifts_eq Hs). by eapply repr_words_ok.
Qed.

(** ** Population count *)
Fixpoint popc (n : nat) (x : Z) : Z :=
  match n with
  | O => 0
  | S n => x mod 2 + popc n (x / 2)
  end.

Lemma popc_add m n x : popc (m + n) x = popc m x + popc n (x / 2 ^ Z.of_nat m).
Proof.
  revert x. induction m as [|m IH]; intros x; cbn [popc Nat.add].
  - by rewrite Z.div_1_r.
  - rewrite IH, Z.div_div by (try apply Z.pow_pos_nonneg; lia).
    rewrite <- Z.pow_succ_r by lia. replace (Z.succ (Z.of_nat m)) with (Z.of_nat (S m)) by lia. lia.
Qed.

Lemma popc_mod m n x : Z.of_nat m <= n → popc m (x mod 2 ^ n) = popc m x.
Proof.
  revert n x. induction m as [|m IH]; intros n x Hn; cbn [popc]; [done|].
  assert (2 ^ n = 2 * 2 ^ (n - 1)) as E.
  { rewrite <- Z.pow_succ_r by lia. f_equal. lia. }
  assert (0 < 2 ^ (n - 1)) by (apply Z.pow_pos_nonneg; lia).
  assert (x mod 2 ^ n = x mod 2 + 2 * ((x / 2) mod 2 ^ (n - 1))) as -> by (by rewrite E, Z.rem_mul_r by lia).
  rewrite <- (IH (n - 1) (x / 2)) by lia. generalize ((x / 2) mod 2 ^ (n - 1)). intros q. f_equal.
  - Z.div_mod_to_equations; lia.
  - f_equal. Z.div_mod_to_equations; lia.
Qed.

(** [popc] counts the positions [word_bits] lists. *)
Lemma popc_word_bits w p : popc 64 w = zlen (word_bits w p).
Proof.
  unfold word_bits, zlen. rewrite length_fmap. generalize 64%nat as n. intros n. revert w.
  induction n as [|n IH]; intros w; [done|]. cbn [popc seq]. rewrite IH, filter_cons.
  assert (length (filter (λ c, Z.testbit w (Z.of_nat c) = true) (seq 1 n)) =
    length (filter (λ c, Z.testbit (w / 2) (Z.of_nat c) = true) (seq 0 n))) as <-.
  { rewrite <- (fmap_S_seq 0 n), filter_map, length_fmap. f_equal. apply filter_ext_in. intros c _.
    rewrite Z.div2_bits by lia. by replace (Z.succ (Z.of_nat c)) with (Z.of_nat (S c)) by lia. }
  assert (w mod 2 = Z.b2z (Z.testbit w 0)) as -> by (by rewrite Z.bit0_mod).
  change (Z.of_nat 0) with 0. destruct (decide _) as [E|E].
  - rewrite E. cbn [length Z.b2z]. lia.
  - apply not_true_is_false in E. rewrite E. cbn [Z.b2z]. lia.
Qed.

(** The additions of [ewah_bit_popcount64] work on the eight bytes of the word
    separately. *)
Fixpoint le (bs : list Z) : Z :=
  match bs with
  | [] => 0
  | b :: bs => b + 256 * le bs
  end.

Lemma testbit_cat b y i :
  byte_ok b → 0 <= i → Z.testbit (b + 256 * y) i = if i <? 8 then Z.testbit b i else Z.testbit y (i - 8).
Proof.
  intros Hb Hi. replace (b + 256 * y) with (y * 2 ^ 8 + b) by lia.
  rewrite <- (lor_disjoint_add y b 8) by (done || lia).
  rewrite Z.lor_spec, Z.shiftl_spec by done. destruct (Z.ltb_spec i 8).
  - by rewrite (Z.testbit_neg_r y) by lia.
  - rewrite (testbit_above b 8) by (done || lia). apply orb_false_r.
Qed.

Lemma land_cat b y m M :
  byte_ok b → byte_ok m → Z.land (b + 256 * y) (m + 256 * M) = Z.land b m + 256 * Z.land y M.
Proof.
  intros Hb Hm. apply Z.bits_inj'. intros i Hi.
  rewrite Z.land_spec, !testbit_cat, !Z.land_spec; try done.
  - by destruct (i <? 8).
  - unfold byte_ok. apply (land_lt_pow2 b m 8); [lia|done].
Qed.

Lemma land_shiftr_cat b y m M s :
  byte_ok b → byte_ok m → 0 <= s < 8 → m < 2 ^ (8 - s) →
  Z.land (Z.shiftr (b + 256 * y) s) (m + 256 * M) =
    Z.land (Z.shiftr b s) m + 256 * Z.land (Z.shiftr y s) M.
Proof.
  intros Hb Hm Hs Hms. apply Z.bits_inj'. intros i Hi.
  rewrite Z.land_spec, Z.shiftr_spec, !testbit_cat by (done || lia || (unfold byte_ok;
    rewrite Z.land_comm; apply (land_lt_pow2 m _ 8); [lia|done])).
  rewrite !Z.land_spec. destruct (Z.ltb_spec i 8).
  - rewrite Z.shiftr_spec by done. destruct (Z.ltb_spec (i + s) 8); [done|].
    unfold byte_ok in Hm. rewrite !(testbit_above m (8 - s)) by lia. by rewrite !andb_false_r.
  - rewrite (proj2 (Z.ltb_ge (i + s) 8)) by lia. rewrite Z.shiftr_spec by lia.
    by replace (i + s - 8) with (i - 8 + s) by lia.
Qed.

Definition step8 (s m b : Z) : Z := Z.land b m + Z.land (Z.shiftr b s) m.

Lemma swar_step s m bs :
  bytes_ok bs → byte_ok m → 0 <= s < 8 → m < 2 ^ (8 - s) →
  let M := le (replicate (length bs) m) in
  Z.land (le bs) M + Z.land (Z.shiftr (le bs) s) M = le (step8 s m <$> bs).
Proof.
  intros Hbs Hm Hs Hms. induction Hbs as [|b bs Hb Hbs IH]; cbn [le replicate length fmap list_fmap].
  { by rewrite !Z.land_0_r. }
  cbv zeta in *. rewrite land_cat, land_shiftr_cat by done.
  rewrite <- IH. unfold step8. lia.
Qed.

Lemma le_bound bs : bytes_ok bs → 0 <= le bs < 256 ^ zlen bs.
Proof.
  induction 1 as [|b bs Hb Hbs IH]; cbn [le].
  { change (zlen ([] : list Z)) with 0. lia. }
  unfold byte_ok in Hb.
  rewrite zlen_cons, Z.pow_add_r by (pose proof (zlen_nonneg bs); lia). lia.
Qed.

Lemma bytes_of_word x : word_ok x → ∃ bs, length bs = 8%nat ∧ bytes_ok bs ∧ x = le bs ∧
  popc 64 x = foldr (λ b acc, popc 8 b + acc) 0 bs.
Proof.
  intros Hx.
  assert (∀ n x, 0 <= x < 256 ^ Z.of_nat n → ∃ bs, length bs = n ∧ bytes_ok bs ∧ x = le bs ∧
    popc (8 * n) x = foldr (λ b acc, popc 8 b + acc) 0 bs) as H.
  2:{ apply (H 8%nat). unfold word_ok in Hx. lia. }
  clear. induction n as [|n IH]; intros x Hx.
  { change (256 ^ Z.of_nat 0) with 1 in Hx. exists []. split_and!; [done|constructor|cbn [le]; lia|done]. }
  destruct (IH (x / 256)) as (bs & Hl & Hbs & Ex & Ep).
  { rewrite Nat2Z.inj_succ, Z.pow_succ_r in Hx by lia. split; [apply Z.div_pos; lia|].
    apply Z.div_lt_upper_bound; lia. }
  exists (x mod 256 :: bs). split_and!; [by cbn; rewrite Hl|..].
  - constructor; [apply Z.mod_pos_bound; lia|done].
  - cbn [le]. rewrite <- Ex. Z.div_mod_to_equations; lia.
  - replace (8 * S n)%nat with (8 + 8 * n)%nat by lia. rewrite popc_add. cbn [foldr].
    change (2 ^ Z.of_nat 8) with 256. rewrite Ep. f_equal. symmetry. by apply (popc_mod 8 8).
Qed.

Lemma bytes_step s m bs :
  forallb (λ b, (0 <=? step8 s m b) && (step8 s m b <? 256)) (map Z.of_nat (List.seq 0 256)) = true →
  bytes_ok bs → bytes_ok (step8 s m <$> bs).
Proof.
  intros H Hbs. apply Forall_fmap. eapply Forall_impl; [exact Hbs|]. intros b Hb.
  apply (byte_forall _ H) in Hb. apply andb_true_iff in Hb as [??]. cbn. unfold byte_ok. lia.
Qed.

Definition swar8 (b : Z) : Z := step8 4 0x0F (step8 2 0x33 (step8 1 0x55 b)).

Lemma swar8_popc b : byte_ok b → swar8 b = popc 8 b.
Proof. intros Hb. solve_byte b Hb. Qed.

Lemma u64_le bs : length bs = 8%nat → bytes_ok bs → u64 (le bs) = le bs.
Proof.
  intros Hl Hbs. unfold u64. apply Z.mod_small. pose proof (le_bound bs Hbs) as H.
  unfold zlen in H. rewrite Hl in H. exact H.
Qed.

(** The multiplication sums the bytes into the highest one. *)
Lemma multiply_sum p0 p1 p2 p3 p4 p5 p6 p7 :
  0 <= p0 <= 8 → 0 <= p1 <= 8 → 0 <= p2 <= 8 → 0 <= p3 <= 8 →
  0 <= p4 <= 8 → 0 <= p5 <= 8 → 0 <= p6 <= 8 → 0 <= p7 <= 8 →
  u32 (Z.shiftr (u64 (le [p0; p1; p2; p3; p4; p5; p6; p7] * 0x0101010101010101)) 56) =
    p0 + (p1 + (p2 + (p3 + (p4 + (p5 + (p6 + (p7 + 0))))))).
Proof.
  intros. cbn [le].
  set (low := p0 + 256 * ((p0 + p1) + 256 * ((p0 + p1 + p2) + 256 * ((p0 + p1 + p2 + p3) +
    256 * ((p0 + p1 + p2 + p3 + p4) + 256 * ((p0 + p1 + p2 + p3 + p4 + p5) +
    256 * (p0 + p1 + p2 + p3 + p4 + p5 + p6))))))).
  set (high := p1 + p2 + p3 + p4 + p5 + p6 + p7 + 256 * (p2 + p3 + p4 + p5 + p6 + p7 +
    256 * (p3 + p4 + p5 + p6 + p7 + 256 * (p4 + p5 + p6 + p7 + 256 * (p5 + p6 + p7 +
    256 * (p6 + p7 + 256 * p7)))))).
  set (sum := p0 + p1 + p2 + p3 + p4 + p5 + p6 + p7).
  assert (0 <= low < 2 ^ 56) by (unfold low; lia). assert (0 <= sum <= 64) by (unfold sum; lia).
  match goal with |- u32 (Z.shiftr (u64 ?prod) 56) = _ =>
    replace prod with (sum * 2 ^ 56 + low + high * 2 ^ 64) by (unfold sum, low, high; lia) end.
  unfold u64, u32. rewrite Z.mod_add by lia. rewrite (Z.mod_small (sum * 2 ^ 56 + low)) by lia.
  rewrite Z.shiftr_div_pow2, Z.div_add_l, (Z.div_small low) by lia.
  rewrite Z.mod_small by lia. unfold sum. lia.
Qed.

Lemma popcount64_correct x : word_ok x → ewah_bit_popcount64 x = popc 64 x.
Proof.
  intros Hx. destruct (bytes_of_word x Hx) as (bs & Hl & Hbs & -> & ->). unfold ewah_bit_popcount64.
  assert (bytes_ok (step8 1 0x55 <$> bs)) as H1 by (by apply bytes_step).
  assert (bytes_ok (step8 2 0x33 <$> (step8 1 0x55 <$> bs))) as H2 by (by apply bytes_step).
  assert (bytes_ok (step8 4 0x0F <$> (step8 2 0x33 <$> (step8 1 0x55 <$> bs)))) as H3 by (by apply bytes_step).
  pose proof (swar_step 1 0x55 bs Hbs ltac:(done) ltac:(lia) ltac:(lia)) as E1.
  pose proof (swar_step 2 0x33 _ H1 ltac:(done) ltac:(lia) ltac:(lia)) as E2.
  pose proof (swar_step 4 0x0F _ H2 ltac:(done) ltac:(lia) ltac:(lia)) as E3.
  rewrite Hl in E1. rewrite length_fmap, Hl in E2. rewrite !length_fmap, Hl in E3. cbv zeta in E1, E2, E3.
  change (le (replicate 8 0x55)) with 0x5555555555555555 in E1.
  change (le (replicate 8 0x33)) with 0x3333333333333333 in E2.
  change (le (replicate 8 0x0F)) with 0x0F0F0F0F0F0F0F0F in E3.
  rewrite E1, u64_le by (rewrite ?length_fmap; done). rewrite E2, u64_le by (rewrite ?length_fmap; done).
  rewrite E3, u64_le by (rewrite ?length_fmap; done). clear E1 E2 E3 H1 H2 H3.
  rewrite <- !list_fmap_compose.
  assert (((step8 4 15 ∘ step8 2 51) ∘ step8 1 85) <$> bs = popc 8 <$> bs) as ->.
  { apply fmap_ext_in. intros b Hb. apply swar8_popc. by eapply Forall_forall in Hbs. }
  assert (∀ b, byte_ok b → 0 <= popc 8 b <= 8) as Hpop.
  { intros b Hb. assert ((0 <=? popc 8 b) && (popc 8 b <=? 8) = true) as E by (solve_byte b Hb).
    apply andb_true_iff in E as [??]. lia. }
  do 9 (destruct bs as [|? bs]; try done). unfold bytes_ok in Hbs. rewrite !Forall_cons in Hbs.
  destruct Hbs as (Hb0 & Hb1 & Hb2 & Hb3 & Hb4 & Hb5 & Hb6 & Hb7 & _).
  apply Hpop in Hb0, Hb1, Hb2, Hb3, Hb4, Hb5, Hb6, Hb7. cbn [fmap list_fmap le foldr].
  apply multiply_sum; done.
Qed.

Lemma popc_bound n x : 0 <= popc n x <= Z.of_nat n.
Proof.
  revert x. induction n as [|n IH]; intros x; cbn [popc]; [lia|].
  specialize (IH (x / 2)). pose proof (Z.mod_pos_bound x 2 ltac:(lia)). lia.
Qed.

Lemma popcount_loop_spec ws p : ∀ count,
  words_ok ws → 0 <= count → count + 64 * zlen ws < 2 ^ 64 →
  popcount_loop ws count = count + zlen (bits_at p ws) ∧
  fold_words (R := False) (λ count word, Ret (inl (u64 (count + ewah_bit_popcount64 word)))) ws count =
    Ret (inl (count + zlen (bits_at p ws))).
Proof.
  revert p. induction ws as [|w ws IH]; intros p count Hok Hc Hmax; cbn [popcount_loop fold_words bits_at].
  { change (zlen ([] : list Z)) with 0. by rewrite Z.add_0_r. }
  apply Forall_cons in Hok as [Hw Hok]. rewrite zlen_cons in Hmax. pose proof (zlen_nonneg ws).
  rewrite popcount64_correct by done. pose proof (popc_bound 64 w).
  unfold u64. rewrite Z.mod_small by lia. cbn [obind].
  rewrite zlen_app, <- popc_word_bits, Z.add_assoc. apply IH; [done|lia..].
Qed.

Lemma bitmap_popcount_count m :
  words_ok (words m) → 64 * zlen (words m) < 2 ^ 64 →
  bitmap_popcount m = zlen (positions (words m)).
Proof.
  intros Hok Hmax. rewrite positions_bits_at. by apply (popcount_loop_spec (words m) 0 0).
Qed.

Lemma ewah_bitmap_popcount_count fuel e ws :
  repr e ws → 64 * zlen ws < 2 ^ 64 → (length ws < fuel)%nat →
  ewah_bitmap_popcount fuel e = Ret (zlen (positions ws)).
Proof.
  intros Hr Hmax Hf. unfold ewah_bitmap_popcount.
  destruct (proj1 (returns_eq _ _) (init_yields e ws Hr)) as (it & -> & Hy). cbn [obind].
  rewrite (while_next_fold _ ws) by done. pose proof (repr_words_ok _ _ Hr) as Hok.
  rewrite positions_bits_at.
  destruct (popcount_loop_spec ws 0 0 Hok ltac:(lia) ltac:(lia)) as [_ ->]. done.
Qed.

Lemma bitmap_dup_eq m : bitmap_dup m = Ret m.
Proof.
  unfold bitmap_dup, word_alloc, bitmap_word_alloc. cbn [words]. pose proof (zlen_nonneg (words m)).
  unfold rd_range. rewrite !(proj2 (Z.leb_le _ _)) by lia. cbn [andb obind].
  replace (zslice 0 (zlen (words m)) (words m)) with (words m) by (unfold zslice; by rewrite zdrop_0, ztake_all).
  unfold memcpy. rewrite zlen_zrep, !(proj2 (Z.leb_le _ _)) by lia. cbn [andb obind].
  rewrite ztake_0, zdrop_all, app_nil_r by (rewrite zlen_zrep; lia). by destruct m.
Qed.

End BitmapSpec.
