(* ===== verification/EwahXor.v ===== *)
(** * Run iterators and exclusive or (ewah/ewok_rlw.h, ewah/ewah_rlw.c, ewah/ewah_bitmap.c)

    The iterator keeps the lengths of the current marker in C [int]s; the theorem
    is about bitmaps whose markers stand for fewer than [2^31] words. *)
From stdpp Require Import prelude.
From S2P Require Import Prelude Ewah EwahSpec EwahBits BitmapSpec.
Import Ewah EwahSpec EwahBits BitmapSpec.

Module EwahXor.

Record rlw_iterator := Rlw_iterator {
  it_buffer : list Z;
  size : Z;
  pointer : Z;
  literal_word_start : Z;
  literal_words : Z;
  running_len : Z;
  literal_word_offset : Z;
  running_bit : Z;
}.

Definition rlwit_word_size (it : rlw_iterator) : outcome Z :=
  let! s := int_add (running_len it) (literal_words it) in
  Ret (u64 s).

Definition rlwit_literal_words (it : rlw_iterator) : Z :=
  u64 (pointer it - literal_words it).

(** [None] is the result 0. *)
Definition next_word (it : rlw_iterator) : outcome (option rlw_iterator) :=
  if size it <=? pointer it then Ret None
  else
    let! word := rd (it_buffer it) (pointer it) in
    Ret (Some (Rlw_iterator (it_buffer it) (size it)
                 (u64 (pointer it + u64 (rlw_get_literal_words word + 1)))
                 (literal_word_start it)
                 (i32 (rlw_get_literal_words word))
                 (i32 (rlw_get_running_len word))
                 0
                 (rlw_get_run_bit word))).

Definition set_literal_word_start (it : rlw_iterator) : rlw_iterator :=
  Rlw_iterator (it_buffer it) (size it) (pointer it)
    (u64 (rlwit_literal_words it + literal_word_offset it))
    (literal_words it) (running_len it) (literal_word_offset it) (running_bit it).

(** The fields the function leaves unset have an arbitrary value; a bitmap always
    has a first marker, and then [next_word] sets them all. *)
Definition rlwit_init (from_ewah : ewah_bitmap) : outcome rlw_iterator :=
  let it := Rlw_iterator (buffer from_ewah) (buffer_size from_ewah) 0 0 0 0 0 0 in
  let! r := next_word it in
  match r with
  | Some it => Ret (set_literal_word_start it)
  | None => UB
  end.

Fixpoint rlwit_discard_first_words (fuel : nat) (it : rlw_iterator) (x : Z) : outcome rlw_iterator :=
  match fuel with
  | O => NoFuel
  | S fuel =>
      if 0 <? x then
        if x <? u64 (running_len it) then
          Ret (Rlw_iterator (it_buffer it) (size it) (pointer it) (literal_word_start it)
                 (literal_words it) (i32 (u64 (running_len it - x)))
                 (literal_word_offset it) (running_bit it))
        else
          let x := u64 (x - running_len it) in
          let discard := if u64 (literal_words it) <? x then u64 (literal_words it) else x in
          let it := Rlw_iterator (it_buffer it) (size it) (pointer it)
                      (u64 (literal_word_start it + discard))
                      (i32 (u64 (literal_words it - discard))) 0
                      (literal_word_offset it) (running_bit it) in
          let x := u64 (x - discard) in
          let! sz := rlwit_word_size it in
          if (0 <? x) || (sz =? 0) then
            let! r := next_word it in
            match r with
            | None => Ret it
            | Some it => rlwit_discard_first_words fuel (set_literal_word_start it) x
            end
          else rlwit_discard_first_words fuel it x
      else Ret it
  end.

Fixpoint rlwit_discharge_loop (fuel : nat) (it : rlw_iterator) (out : ewah_bitmap) (max negate index : Z)
  : outcome (rlw_iterator * ewah_bitmap * Z) :=
  match fuel with
  | O => NoFuel
  | S fuel =>
      let! sz := rlwit_word_size it in
      if (index <? max) && (0 <? sz) then
        let pl := u64 (running_len it) in
        let pl := if max <? u64 (index + pl) then u64 (max - index) else pl in
        let! (out, _) := ewah_add_empty_words out (Z.lxor (running_bit it) negate) pl in
        let index := u64 (index + pl) in
        let pd := u64 (literal_words it) in
        let pd := if max <? u64 (pd + index) then u64 (max - index) else pd in
        let! ws := rd_range (it_buffer it) (literal_word_start it) pd in
        let! out := ewah_add_dirty_words out ws (negb (negate =? 0)) in
        let! it := rlwit_discard_first_words fuel it (u64 (pd + pl)) in
        rlwit_discharge_loop fuel it out max negate (u64 (index + pd))
      else Ret (it, out, index)
  end.

Definition rlwit_discharge (fuel : nat) (it : rlw_iterator) (out : ewah_bitmap) (max negate : Z)
  : outcome (rlw_iterator * ewah_bitmap * Z) :=
  rlwit_discharge_loop fuel it out max negate 0.

(** The loop while one of the two is in a run: the longer run is the predator. *)
Fixpoint xor_runs (fuel : nat) (rlw_i rlw_j : rlw_iterator) (out : ewah_bitmap)
  : outcome (rlw_iterator * rlw_iterator * ewah_bitmap) :=
  match fuel with
  | O => NoFuel
  | S fuel =>
      if (0 <? running_len rlw_i) || (0 <? running_len rlw_j) then
        let i_is_prey := running_len rlw_i <? running_len rlw_j in
        let prey := if i_is_prey then rlw_i else rlw_j in
        let predator := if i_is_prey then rlw_j else rlw_i in
        let negate_words := if negb (running_bit predator =? 0) then 1 else 0 in
        let! (prey, out, index) :=
          rlwit_discharge fuel prey out (u64 (running_len predator)) negate_words in
        let! (out, _) :=
          ewah_add_empty_words out negate_words (u64 (running_len predator - index)) in
        let! predator := rlwit_discard_first_words fuel predator (u64 (running_len predator)) in
        if i_is_prey then xor_runs fuel prey predator out else xor_runs fuel predator prey out
      else Ret (rlw_i, rlw_j, out)
  end.

(** [for (k = 0; k < literals; ++k) ewah_add(out, ...)]. *)
Fixpoint xor_literals (n : nat) (buf_i : list Z) (start_i : Z) (buf_j : list Z) (start_j k : Z)
  (out : ewah_bitmap) : outcome ewah_bitmap :=
  match n with
  | O => Ret out
  | S n =>
      let! a := rd buf_i (start_i + k) in
      let! b := rd buf_j (start_j + k) in
      let! (out, _) := ewah_add out (Z.lxor a b) in
      xor_literals n buf_i start_i buf_j start_j (k + 1) out
  end.

Fixpoint xor_loop (fuel : nat) (rlw_i rlw_j : rlw_iterator) (out : ewah_bitmap)
  : outcome (rlw_iterator * rlw_iterator * ewah_bitmap) :=
  match fuel with
  | O => NoFuel
  | S fuel =>
      let! si := rlwit_word_size rlw_i in
      let! sj := rlwit_word_size rlw_j in
      if (0 <? si) && (0 <? sj) then
        let! (rlw_i, rlw_j, out) := xor_runs fuel rlw_i rlw_j out in
        let literals := min_size (u64 (literal_words rlw_i)) (u64 (literal_words rlw_j)) in
        if negb (literals =? 0) then
          let! out := xor_literals (Z.to_nat literals) (it_buffer rlw_i) (literal_word_start rlw_i)
                        (it_buffer rlw_j) (literal_word_start rlw_j) 0 out in
          let! rlw_i := rlwit_discard_first_words fuel rlw_i literals in
          let! rlw_j := rlwit_discard_first_words fuel rlw_j literals in
          xor_loop fuel rlw_i rlw_j out
        else xor_loop fuel rlw_i rlw_j out
      else Ret (rlw_i, rlw_j, out)
  end.

Definition ewah_xor (fuel : nat) (ewah_i ewah_j out : ewah_bitmap) : outcome ewah_bitmap :=
  let! rlw_i := rlwit_init ewah_i in
  let! rlw_j := rlwit_init ewah_j in
  let! (rlw_i, rlw_j, out) := xor_loop fuel rlw_i rlw_j out in
  let! si := rlwit_word_size rlw_i in
  let! (_, out, _) :=
    (if 0 <? si then rlwit_discharge fuel rlw_i out (2 ^ 64 - 1) 0
     else rlwit_discharge fuel rlw_j out (2 ^ 64 - 1) 0) in
  Ret (set_bit_size out (max_size (bit_size ewah_i) (bit_size ewah_j))).

(** ** What an iterator has left *)
Definition small (s : seg) : Prop := 0 < seg_size s < 2 ^ 31.

Record rest_pre (it : rlw_iterator) (lits : list Z) (todo : list seg) : Prop := Rest_pre {
  ro_todo : ∃ done_, it_buffer it = done_ ++ enc_segs todo ∧ pointer it = zlen done_;
  ro_size : size it = zlen (it_buffer it);
  ro_small_buf : size it < 2 ^ 63;
  ro_run : 0 <= running_len it;
  ro_lits : literal_words it = zlen lits;
  ro_int : running_len it + zlen lits < 2 ^ 31;
  ro_bit : running_bit it = 0 ∨ running_bit it = 1;
  ro_off : literal_word_offset it = 0;
  ro_start : 0 <= literal_word_start it;
  ro_end : literal_word_start it + zlen lits <= zlen (it_buffer it);
  ro_slice : zslice (literal_word_start it) (zlen lits) (it_buffer it) = lits;
  ro_words : words_ok lits;
  ro_segs : Forall seg_ok todo;
  ro_pos : Forall small todo;
}.

(** Between two operations an iterator is not at the end of a marker unless it
    is at the end of the buffer. *)
Definition rest_of (it : rlw_iterator) (lits : list Z) (todo : list seg) : Prop :=
  rest_pre it lits todo ∧ (running_len it + zlen lits = 0 → todo = []).

Definition left_words (it : rlw_iterator) (lits : list Z) (todo : list seg) : list Z :=
  zrep (running_len it) (fill (running_bit it)) ++ lits ++ segs_words todo.

Definition left (it : rlw_iterator) (rest : list Z) : Prop :=
  ∃ lits todo, rest_of it lits todo ∧ rest = left_words it lits todo.

Lemma u64_small x : 0 <= x < 2 ^ 64 → u64 x = x.
Proof. intros. by apply Z.mod_small. Qed.

Lemma word_size_eq it lits todo :
  rest_pre it lits todo → rlwit_word_size it = Ret (running_len it + zlen lits).
Proof.
  intros []. unfold rlwit_word_size, int_add. rewrite ro_lits0. pose proof (zlen_nonneg lits).
  rewrite (proj2 (Z.leb_le _ _)), (proj2 (Z.ltb_lt _ _)) by lia. cbn [andb obind].
  by rewrite u64_small by lia.
Qed.

Lemma zlen_segs_words todo : Forall seg_ok todo → Forall small todo →
  zlen todo <= zlen (segs_words todo).
Proof.
  intros Hok. induction Hok as [|[b r lits] todo [Hf _] Hok IH]; intros Hs; [done|].
  apply Forall_cons in Hs as [[Hs _] Hss]. specialize (IH Hss). unfold seg_size in Hs. cbn [s_run s_lits] in *.
  change (segs_words (Seg b r lits :: todo)) with ((zrep r (fill b) ++ lits) ++ segs_words todo).
  rewrite zlen_cons, !zlen_app, zlen_zrep by (fields; cbn in Hf; lia). lia.
Qed.

Lemma next_word_none it lits : rest_pre it lits [] → next_word it = Ret None.
Proof.
  intros []. destruct ro_todo0 as (done_ & Hb & Hp). unfold next_word.
  rewrite (proj2 (Z.leb_le _ _)); [done|]. rewrite ro_size0, Hb, Hp.
  change (enc_segs []) with (@nil Z). rewrite app_nil_r. lia.
Qed.

Lemma zslice_mid {A} (a m c : list A) : zslice (zlen a) (zlen m) (a ++ m ++ c) = m.
Proof. unfold zslice. by rewrite zdrop_app_len, ztake_app_len. Qed.

Lemma next_word_some it lits s todo :
  rest_pre it lits (s :: todo) →
  ∃ it', next_word it = Ret (Some it') ∧ rest_of (set_literal_word_start it') (s_lits s) todo ∧
    left_words (set_literal_word_start it') (s_lits s) todo = segs_words (s :: todo).
Proof.
  intros [(done_ & Hb & Hp)]. destruct s as [b r l]. cbn [s_lits].
  apply Forall_cons in ro_segs0 as [[Hf Hl] Hok]. cbn [s_bit s_run s_lits] in Hf, Hl.
  apply Forall_cons in ro_pos0 as [Hsm Hpos]. unfold small, seg_size in Hsm. cbn [s_run s_lits] in Hsm.
  assert (enc_segs (Seg b r l :: todo) = marker b r (zlen l) :: l ++ enc_segs todo) as Eenc by done.
  rewrite Eenc in Hb. pose proof (zlen_nonneg l). pose proof (zlen_nonneg done_).
  pose proof (zlen_nonneg (enc_segs todo)). 
  assert (size it = zlen done_ + 1 + zlen l + zlen (enc_segs todo)) as Hsz.
  { rewrite ro_size0, Hb, zlen_app, zlen_cons, zlen_app. lia. }
  unfold next_word. rewrite (proj2 (Z.leb_gt _ _)) by lia.
  rewrite (rd_znth _ _ (marker b r (zlen l))) by (rewrite Hb, Hp; apply znth_app_len). cbn [obind].
  rewrite get_run_bit_marker, get_running_len_marker, get_literal_words_marker by done.
  assert (0 <= r) by (fields; lia). rewrite !i32_small, !u64_small by (rewrite ?u64_small; lia).
  eexists. split; [done|].
  unfold set_literal_word_start, left_words, rlwit_literal_words.
  cbn [it_buffer size pointer literal_word_start literal_words running_len literal_word_offset running_bit].
  rewrite !u64_small by (rewrite ?u64_small; lia).
  split; [|by rewrite app_assoc]. split; [|cbn [running_len]; lia].
  constructor; cbn [it_buffer size pointer literal_word_start literal_words running_len literal_word_offset running_bit];
    try done; try lia.
  - exists (done_ ++ marker b r (zlen l) :: l). rewrite Hb, zlen_app, zlen_cons.
    split; [by rewrite <- app_assoc|lia].
  - by destruct Hf.
  - replace (pointer it + (zlen l + 1) - zlen l + 0) with (zlen (done_ ++ [marker b r (zlen l)])).
    2:{ rewrite zlen_app. change (zlen [marker b r (zlen l)]) with 1. lia. }
    rewrite Hb. change (marker b r (zlen l) :: l ++ enc_segs todo) with ([marker b r (zlen l)] ++ l ++ enc_segs todo).
    rewrite app_assoc. apply zslice_mid.
Qed.

Lemma zslice_zslice_drop {A} (l : list A) from n d :
  0 <= from → 0 <= d <= n → from + n <= zlen l →
  zslice (from + d) (n - d) l = zdrop d (zslice from n l).
Proof.
  intros Hf Hd Hn. unfold zslice, ztake, zdrop. rewrite skipn_firstn_comm, drop_drop.
  f_equal; [|f_equal]; lia.
Qed.
Lemma zslice_prefix {A} (l : list A) from n d :
  0 <= d <= n → zslice from d l = ztake d (zslice from n l).
Proof. intros. unfold zslice. by rewrite ztake_ztake by lia. Qed.

Lemma zdrop_zrep {A} n m (x : A) : 0 <= m <= n → zdrop m (zrep n x) = zrep (n - m) x.
Proof. intros. unfold zdrop, zrep. rewrite drop_replicate. f_equal. lia. Qed.

(** The whole run and [d] literals of the current marker are dropped. *)
Lemma drop_in_marker it lits todo d :
  rest_pre it lits todo → 0 <= d <= zlen lits →
  let it' := Rlw_iterator (it_buffer it) (size it) (pointer it) (u64 (literal_word_start it + d))
    (i32 (u64 (literal_words it - d))) 0 (literal_word_offset it) (running_bit it) in
  rest_pre it' (zdrop d lits) todo ∧
  left_words it' (zdrop d lits) todo = zdrop (running_len it + d) (left_words it lits todo).
Proof.
  intros [] Hd it'. assert (zlen (zdrop d lits) = zlen lits - d) as El by (by apply zlen_zdrop).
  pose proof (zlen_nonneg lits).
  unfold it', left_words. rewrite ro_lits0, !u64_small, i32_small by (rewrite ?u64_small; lia). split.
  - constructor; cbn; rewrite ?El; try done; try lia.
    + by rewrite zslice_zslice_drop, ro_slice0 by lia.
    + by apply Forall_drop.
  - cbn [running_len running_bit]. rewrite zdrop_app_ge by (rewrite zlen_zrep; lia).
    rewrite zlen_zrep by done. replace (running_len it + d - running_len it) with d by lia.
    by rewrite zdrop_app_le.
Qed.

Lemma discard_wp fuel : ∀ it lits todo x,
  rest_of it lits todo → 0 <= x < 2 ^ 64 → (S (length todo) < fuel)%nat →
  returns (rlwit_discard_first_words fuel it x) (λ it', left it' (zdrop x (left_words it lits todo))).
Proof.
  induction fuel as [|fuel IH]; intros it lits todo x [Hpre Hempty] Hx Hf; [lia|].
  cbn [rlwit_discard_first_words]. destruct (Z.ltb_spec 0 x) as [Hx0|].
  2:{ cbn [wp]. replace x with 0 by lia. rewrite zdrop_0. by exists lits, todo. }
  pose proof (ro_run _ _ _ Hpre) as Hrun. pose proof (ro_int _ _ _ Hpre) as Hint.
  pose proof (ro_lits _ _ _ Hpre) as Hlits. pose proof (zlen_nonneg lits).
  rewrite (u64_small (running_len it)) by lia.
  destruct (Z.ltb_spec x (running_len it)) as [Hlt|Hge].
  { cbn [wp]. exists lits, todo. rewrite u64_small, i32_small by (rewrite ?u64_small; lia).
    unfold left_words. cbn [running_len running_bit]. split.
    - destruct Hpre. split; [constructor; cbn; done || lia|cbn; lia].
    - rewrite zdrop_app_le by (rewrite zlen_zrep; lia). by rewrite zdrop_zrep by lia. }
  rewrite (u64_small (x - _)), Hlits, (u64_small (zlen lits)) by lia.
  set (x1 := x - running_len it).
  set (d := if zlen lits <? x1 then zlen lits else x1).
  assert (0 <= d <= zlen lits ∧ d <= x1 ∧ (d < x1 → d = zlen lits)) as (Hd & Hdx & Hdl).
  { unfold d. destruct (Z.ltb_spec (zlen lits) x1); lia. }
  destruct (drop_in_marker it lits todo d Hpre Hd) as [Hpre' Hleft]. rewrite Hlits in Hpre', Hleft.
  set (it' := Rlw_iterator _ _ _ _ _ _ _ _) in *.
  rewrite (word_size_eq _ _ _ Hpre'), (u64_small (x1 - d)) by lia. cbn [obind].
  assert (zdrop x (left_words it lits todo) = zdrop (x1 - d) (left_words it' (zdrop d lits) todo)) as ->.
  { rewrite Hleft, zdrop_zdrop by lia. f_equal. lia. }
  assert (zlen (zdrop d lits) = zlen lits - d) as Eld by (by apply zlen_zdrop).
  change (running_len it') with 0.
  destruct ((0 <? x1 - d) || (0 + zlen (zdrop d lits) =? 0)) eqn:E.
  - assert (zlen lits = d) as Ed.
    { apply orb_true_iff in E as [E%Z.ltb_lt|E%Z.eqb_eq]; [symmetry; apply Hdl|]; lia. }
    assert (zdrop d lits = []) as Enil by (apply zdrop_all; lia). rewrite Enil in *.
    destruct todo as [|s todo].
    + rewrite (next_word_none it' []) by done. cbn [obind wp]. exists [], []. split; [done|].
      change (left_words it' [] []) with (@nil Z). unfold zdrop. by rewrite drop_nil.
    + destruct (next_word_some it' [] s todo Hpre') as (it2 & -> & Hof & Hl2). cbn [obind].
      eapply wp_mono; [|apply (IH _ (s_lits s) todo); [done|lia|cbn in Hf; lia]].
      cbv beta. intros it3. rewrite Hl2. unfold left_words at 1. change (running_len it') with 0. done.
  - apply orb_false_iff in E as [E1%Z.ltb_ge E2%Z.eqb_neq].
    replace (x1 - d) with 0 by lia. rewrite zdrop_0. destruct fuel as [|fuel]; [lia|].
    cbn [rlwit_discard_first_words]. rewrite Z.ltb_irrefl. cbn [wp].
    exists (zdrop d lits), todo. split; [|done]. split; [done|].
    change (running_len it') with 0. lia.
Qed.

(** An output bitmap that holds exactly the words [w]. *)
Definition holds (out : ewah_bitmap) (w : list Z) : Prop := repr out w ∧ bit_size out = 64 * zlen w.

Lemma holds_empty_words out w v n :
  holds out w → v = 0 ∨ v = 1 → 0 <= n → 64 * (zlen w + n) < 2 ^ 64 →
  returns (ewah_add_empty_words out v n) (λ '(out', _), holds out' (w ++ zrep n (fill v))).
Proof.
  intros [Hr Hb] Hv Hn Hmax. pose proof (zlen_nonneg w).
  eapply wp_mono; [|apply (ewah_add_empty_words_wp out w v n); [done|done|done|lia|lia]].
  intros [out' k] [Hr' Hb']. split; [done|]. rewrite Hb', Hb, zlen_app, zlen_zrep by done. lia.
Qed.
Lemma holds_dirty_words out w words neg :
  holds out w → words_ok words → 64 * (zlen w + zlen words) < 2 ^ 64 →
  returns (ewah_add_dirty_words out words neg) (λ out', holds out' (w ++ negated neg words)).
Proof.
  intros [Hr Hb] Hw Hmax. pose proof (zlen_nonneg w).
  eapply wp_mono; [|apply (ewah_add_dirty_words_wp out w words neg); [done|done|lia|lia]].
  cbv beta. intros out' [Hr' Hb']. split; [done|]. rewrite Hb', Hb, zlen_app, zlen_negated. lia.
Qed.
Lemma holds_add out w x :
  holds out w → word_ok x → 64 * (zlen w + 1) < 2 ^ 64 →
  returns (ewah_add out x) (λ '(out', _), holds out' (w ++ [x])).
Proof.
  intros [Hr Hb] Hx Hmax. pose proof (zlen_nonneg w).
  eapply wp_mono; [|apply (ewah_add_wp out w x); [done|done|lia|lia]].
  intros [out' k] [Hr' Hb']. split; [done|]. rewrite Hb', Hb, zlen_app. change (zlen [x]) with 1. lia.
Qed.

Lemma negated_fill b neg n :
  b = 0 ∨ b = 1 → neg = 0 ∨ neg = 1 →
  negated (negb (neg =? 0)) (zrep n (fill b)) = zrep n (fill (Z.lxor b neg)) ∧
  (Z.lxor b neg = 0 ∨ Z.lxor b neg = 1).
Proof.
  intros [-> | ->] [-> | ->]; cbn [Z.lxor Z.eqb negb negated]; (split; [|naive_solver]);
    unfold zrep; rewrite ?fmap_replicate; done.
Qed.

Lemma ztake_app_ge {A} n (a b : list A) : zlen a <= n → ztake n (a ++ b) = a ++ ztake (n - zlen a) b.
Proof. intros. unfold ztake, zlen in *. rewrite take_app_ge by lia. do 2 f_equal. lia. Qed.
Lemma ztake_app_le {A} n (a b : list A) : n <= zlen a → ztake n (a ++ b) = ztake n a.
Proof. intros. unfold ztake, zlen in *. by rewrite take_app_le by lia. Qed.
Lemma ztake_zrep {A} n m (x : A) : 0 <= m <= n → ztake m (zrep n x) = zrep m x.
Proof. intros. unfold ztake, zrep. rewrite take_replicate. f_equal. lia. Qed.

Lemma ztake_split {A} n m (l : list A) :
  0 <= n → 0 <= m → ztake (n + m) l = ztake n l ++ ztake m (zdrop n l).
Proof.
  intros. unfold ztake, zdrop. rewrite Z2Nat.inj_add by done.
  rewrite <- (take_drop (Z.to_nat n) (take _ l)), take_take, skipn_firstn_comm.
  f_equal; f_equal; lia.
Qed.

(** The first [pl + pd] words left, when [pl] is the run or stops short of it
    and no literal is taken. *)
Lemma ztake_left it lits todo pl pd :
  0 <= running_len it → 0 <= pl <= running_len it → 0 <= pd <= zlen lits →
  pl = running_len it ∨ pd = 0 →
  ztake (pl + pd) (left_words it lits todo) =
    zrep pl (fill (running_bit it)) ++ ztake pd lits.
Proof.
  intros Hr Hpl Hpd [->| ->]; unfold left_words.
  - rewrite ztake_app_ge by (rewrite zlen_zrep; lia). rewrite zlen_zrep by lia.
    replace (running_len it + pd - running_len it) with pd by lia. by rewrite ztake_app_le by lia.
  - rewrite ztake_app_le by (rewrite zlen_zrep; lia). rewrite ztake_zrep by lia.
    by rewrite ztake_0, Z.add_0_r, app_nil_r.
Qed.

Lemma left_length it lits todo :
  rest_pre it lits todo →
  running_len it + zlen lits + zlen todo <= zlen (left_words it lits todo).
Proof.
  intros []. unfold left_words. rewrite !zlen_app, zlen_zrep by done.
  pose proof (zlen_segs_words todo ro_segs0 ro_pos0). lia.
Qed.

Lemma zlen_zdrop_le {A} n (l : list A) : 0 <= n → zlen (zdrop n l) = Z.max 0 (zlen l - n).
Proof. intros. unfold zlen, zdrop. rewrite length_drop. lia. Qed.

Definition discharged (rest w : list Z) (max neg index : Z) (r : rlw_iterator * ewah_bitmap * Z) : Prop :=
  let '(it', out', index') := r in
  let n := Z.min (max - index) (zlen rest) in
  index' = index + n ∧ left it' (zdrop n rest) ∧
  holds out' (w ++ negated (negb (neg =? 0)) (ztake n rest)).

Lemma discharge_loop_wp fuel : ∀ it out rest w max neg index,
  left it rest → holds out w → neg = 0 ∨ neg = 1 → 0 <= index <= max → max < 2 ^ 64 →
  64 * (zlen w + zlen rest) < 2 ^ 64 → 64 * (index + zlen rest) < 2 ^ 64 → zlen rest + 2 < Z.of_nat fuel →
  returns (rlwit_discharge_loop fuel it out max neg index) (discharged rest w max neg index).
Proof.
  induction fuel as [|fuel IH]; intros it out rest w max neg index (lits & todo & [Hpre Hempty] & ->)
    Hout Hneg Hindex Hmax Hbound Hbound2 Hfuel; [pose proof (zlen_nonneg (left_words it lits todo)); lia|].
  cbn [rlwit_discharge_loop]. rewrite (word_size_eq _ _ _ Hpre). cbn [obind].
  pose proof (left_length _ _ _ Hpre) as Hlen. pose proof (ro_run _ _ _ Hpre) as Hrun.
  pose proof (ro_lits _ _ _ Hpre) as Hlits. pose proof (ro_int _ _ _ Hpre) as Hint.
  pose proof (zlen_nonneg lits). pose proof (zlen_nonneg todo). pose proof (zlen_nonneg w).
  set (rest := left_words it lits todo) in *.
  destruct ((index <? max) && (0 <? running_len it + zlen lits)) eqn:E.
  2:{ cbn [wp]. assert (Z.min (max - index) (zlen rest) = 0) as En.
      { apply andb_false_iff in E as [E%Z.ltb_ge|E%Z.ltb_ge]; [pose proof (zlen_nonneg rest); lia|].
        assert (rest = []) as Er; [|rewrite Er; change (zlen ([] : list Z)) with 0; lia].
        assert (running_len it = 0) as Er by lia.
        unfold rest, left_words. rewrite Er, Hempty by lia.
        destruct lits as [|? lits]; [done|]. rewrite zlen_cons in *. pose proof (zlen_nonneg lits). lia. }
      unfold discharged. rewrite En, zdrop_0, ztake_0. split_and!; [lia|by exists lits, todo|].
      assert (negated (negb (neg =? 0)) [] = []) as -> by (by destruct neg). by rewrite app_nil_r. }
  apply andb_true_iff in E as [E1%Z.ltb_lt E2%Z.ltb_lt].
  rewrite (u64_small (running_len it)), (u64_small (index + running_len it)), (u64_small (max - index)) by lia.
  set (pl := if max <? index + running_len it then max - index else running_len it).
  assert (0 <= pl <= running_len it ∧ index + pl <= max ∧ (pl = running_len it ∨ index + pl = max))
    as (Hpl & Hplm & Hplc).
  { unfold pl. destruct (Z.ltb_spec max (index + running_len it)); lia. }
  clearbody pl. destruct (negated_fill (running_bit it) neg pl (ro_bit _ _ _ Hpre) Hneg) as [Efill Hbit].
  apply wp_bind. eapply wp_mono; [|apply (holds_empty_words out w); [done|done|lia|lia]].
  intros [out1 k] Hout1. rewrite Hlits, (u64_small (index + pl)), (u64_small (zlen lits)) by lia.
  rewrite (u64_small (zlen lits + (index + pl))), (u64_small (max - (index + pl))) by lia.
  set (pd := if max <? zlen lits + (index + pl) then max - (index + pl) else zlen lits).
  assert (0 <= pd <= zlen lits ∧ index + pl + pd <= max ∧
    (pd = zlen lits ∨ index + pl + pd = max) ∧ (pl = running_len it ∨ pd = 0)) as (Hpd & Hpdm & Hpdc & Hplpd).
  { unfold pd. destruct (Z.ltb_spec max (zlen lits + (index + pl))); lia. }
  clearbody pd. pose proof (ro_start _ _ _ Hpre). pose proof (ro_end _ _ _ Hpre).
  apply wp_bind, rd_range_wp; [lia..|].
  rewrite (zslice_prefix _ _ (zlen lits)), (ro_slice _ _ _ Hpre) by lia.
  assert (zlen (ztake pd lits) = pd) as Etk by (apply zlen_ztake; lia).
  apply wp_bind. eapply wp_mono; [|eapply (holds_dirty_words out1 _ (ztake pd lits) _ Hout1)].
  2:{ apply Forall_take, (ro_words _ _ _ Hpre). }
  2:{ rewrite zlen_app, zlen_zrep, Etk by lia. lia. }
  intros out2 Hout2. rewrite <- Efill, <- app_assoc, <- negated_app in Hout2.
  rewrite <- (ztake_left it lits todo pl pd) in Hout2 by (done || lia). fold rest in Hout2.
  rewrite (u64_small (pd + pl)), (u64_small (index + pl + pd)) by lia.
  apply wp_bind. eapply wp_mono; [|apply (discard_wp fuel it lits todo); [done|lia|unfold zlen in *; lia]].
  fold rest. intros it' Hleft'. cbv beta in Hleft'. rewrite (Z.add_comm pd pl) in Hleft'.
  assert (zlen (ztake (pl + pd) rest) = pl + pd) as Etk2 by (apply zlen_ztake; lia).
  assert (zlen (zdrop (pl + pd) rest) = zlen rest - (pl + pd)) as Edr by (apply zlen_zdrop; lia).
  assert (0 < pl + pd) by lia.
  eapply wp_mono; [|apply (IH it' out2 _ _ max neg (index + pl + pd) Hleft' Hout2); [done|lia|done| | |]].
  2,3,4: rewrite ?zlen_app, ?zlen_negated, ?Etk2, Edr; lia.
  intros [[it2 out3] index2] (Hi2 & Hl2 & Ho2). rewrite Edr in *. rewrite zdrop_zdrop in Hl2 by lia.
  assert (pl + pd + Z.min (max - (index + pl + pd)) (zlen rest - (pl + pd)) = Z.min (max - index) (zlen rest)) as Emin by lia.
  unfold discharged. split_and!; [lia|by rewrite <- Emin|].
  rewrite <- app_assoc, <- negated_app in Ho2.
  by rewrite <- Emin, ztake_split by lia.
Qed.

(** ** Exclusive or of word sequences, the shorter one padded with zeros *)
Fixpoint xor_words (a b : list Z) : list Z :=
  match a, b with
  | [], _ => b
  | _, [] => a
  | x :: a, y :: b => Z.lxor x y :: xor_words a b
  end.

Lemma xor_words_nil_r a : xor_words a [] = a.
Proof. by destruct a. Qed.
Lemma xor_words_comm a b : xor_words a b = xor_words b a.
Proof.
  revert b. induction a as [|x a IH]; intros [|y b]; cbn; try done. by rewrite IH, Z.lxor_comm.
Qed.
Lemma zlen_xor_words a b : zlen (xor_words a b) = Z.max (zlen a) (zlen b).
Proof.
  revert b. induction a as [|x a IH]; intros b; cbn [xor_words].
  { change (zlen ([] : list Z)) with 0. pose proof (zlen_nonneg b). lia. }
  destruct b as [|y b]; rewrite ?zlen_cons, ?IH; [|lia].
  change (zlen ([] : list Z)) with 0. pose proof (zlen_nonneg a). lia.
Qed.
Lemma xor_words_bits a b i : 0 <= i → wbit (xor_words a b) i = xorb (wbit a i) (wbit b i).
Proof.
  intros Hi. rewrite !wbit_wget, <- Z.lxor_spec. f_equal.
  assert (0 <= i / 64) as Hk by (apply Z.div_pos; lia). revert Hk. generalize (i / 64). intros k Hk.
  revert b k Hk. induction a as [|x a IH]; intros b k Hk; cbn [xor_words]; [by rewrite wget_nil|].
  destruct b as [|y b]; [by rewrite wget_nil, Z.lxor_0_r|].
  revert k Hk. apply index_ind; [done|]. intros k Hk. rewrite !wget_cons_S by done. by apply IH.
Qed.

Lemma lxor_fill v x : v = 0 ∨ v = 1 → word_ok x →
  Z.lxor (fill v) x = if negb (v =? 0) then enot x else x.
Proof.
  intros [-> | ->] Hx; cbn [Z.eqb negb]; [done|]. change (fill 1) with (Z.ones 64).
  apply Z.bits_inj'. intros i Hi. rewrite Z.lxor_spec, enot_spec by done.
  destruct (Z.ltb_spec i 64).
  - by rewrite Z.ones_spec_low by lia.
  - rewrite Z.ones_spec_high, (testbit_above x 64) by (done || lia). done.
Qed.

(** A run against anything. *)
Lemma xor_words_run n v a b :
  0 <= n → v = 0 ∨ v = 1 → words_ok b →
  xor_words (zrep n (fill v) ++ a) b =
    negated (negb (v =? 0)) (ztake n b) ++ zrep (n - Z.min n (zlen b)) (fill v) ++ xor_words a (zdrop n b).
Proof.
  intros Hn Hv. revert b. pattern n. apply natlike_ind; [| |done]; clear n Hn.
  - intros b Hb. rewrite Z.min_l by (apply zlen_nonneg).
    assert (negated (negb (v =? 0)) [] = []) as E by (by destruct v). by rewrite ztake_0, E.
  - intros n Hn IH b Hb. rewrite <- Z.add_1_r. rewrite zrep_S by done. cbn [app].
    destruct Hb as [|y b Hy Hb].
    + cbn [xor_words]. change (zlen ([] : list Z)) with 0. rewrite Z.min_r by lia.
      unfold ztake, zdrop. rewrite take_nil, drop_nil, xor_words_nil_r.
      assert (negated (negb (v =? 0)) [] = []) as -> by (by destruct v).
      cbn [app]. rewrite Z.sub_0_r, zrep_S by done. done.
    + cbn [xor_words]. rewrite IH by done. rewrite lxor_fill by done. rewrite zlen_cons.
      replace (n + 1 - Z.min (n + 1) (1 + zlen b)) with (n - Z.min n (zlen b)) by lia.
      replace (ztake (n + 1) (y :: b)) with (y :: ztake n b).
      2:{ unfold ztake. by replace (Z.to_nat (n + 1)) with (S (Z.to_nat n)) by lia. }
      replace (zdrop (n + 1) (y :: b)) with (zdrop n b).
      2:{ unfold zdrop. by replace (Z.to_nat (n + 1)) with (S (Z.to_nat n)) by lia. }
      by destruct (negb (v =? 0)).
Qed.

Lemma left_words_ok it rest : left it rest → words_ok rest.
Proof.
  intros (lits & todo & [[] _] & ->). unfold left_words. apply Forall_app. split.
  - apply Forall_replicate, fill_ok.
  - apply Forall_app. split; [done|]. by apply segs_words_ok.
Qed.

Lemma zdrop_min {A} n (l : list A) : zdrop (Z.min n (zlen l)) l = zdrop n l.
Proof.
  destruct (Z.le_gt_cases n (zlen l)); [by rewrite Z.min_l|].
  rewrite Z.min_r, !zdrop_all by lia. done.
Qed.
Lemma ztake_min {A} n (l : list A) : ztake (Z.min n (zlen l)) l = ztake n l.
Proof.
  destruct (Z.le_gt_cases n (zlen l)); [by rewrite Z.min_l|].
  rewrite Z.min_r, !ztake_all by lia. done.
Qed.

(** One round of [xor_runs]. *)
Lemma xor_round fuel prey predator out rq rp w :
  left prey rq → left predator rp → holds out w → 0 < running_len predator →
  64 * zlen (w ++ xor_words rp rq) < 2 ^ 64 → zlen rp + zlen rq + 2 < Z.of_nat fuel →
  let n := running_len predator in
  let negate_words := if negb (running_bit predator =? 0) then 1 else 0 in
  returns (
    let! (prey, out, index) := rlwit_discharge fuel prey out (u64 n) negate_words in
    let! (out, _) := ewah_add_empty_words out negate_words (u64 (n - index)) in
    let! predator := rlwit_discard_first_words fuel predator (u64 n) in
    Ret (prey, out, predator))
    (λ '(prey', out', predator'), ∃ w', left prey' (zdrop n rq) ∧ left predator' (zdrop n rp) ∧
      holds out' w' ∧ w' ++ xor_words (zdrop n rp) (zdrop n rq) = w ++ xor_words rp rq).
Proof.
  intros Hq Hp Hout Hn Hmax Hfuel n neg.
  pose proof (left_words_ok _ _ Hq) as Hrq.
  destruct Hp as (lits & todo & [Hpre Hempty] & ->).
  set (rp := left_words predator lits todo) in *.
  pose proof (ro_bit _ _ _ Hpre) as Hbit. pose proof (ro_int _ _ _ Hpre) as Hint.
  pose proof (left_length _ _ _ Hpre) as Hlen. fold rp in Hlen.
  assert (neg = running_bit predator) as -> by (unfold neg; by destruct Hbit as [-> | ->]).
  rewrite zlen_app, zlen_xor_words in Hmax. pose proof (zlen_nonneg lits). pose proof (zlen_nonneg todo).
  pose proof (zlen_nonneg w). pose proof (zlen_nonneg rq). fold n in Hn, Hint, Hlen.
  rewrite (u64_small n) by lia.
  apply wp_bind. eapply wp_mono;
    [|apply (discharge_loop_wp fuel prey out rq w n (running_bit predator) 0); done || lia].
  intros [[prey' out1] index] (Hi & Hprey & Hout1). rewrite Z.add_0_l, Z.sub_0_r in Hi.
  rewrite Z.sub_0_r in Hprey, Hout1. rewrite zdrop_min in Hprey. rewrite ztake_min in Hout1. subst index.
  rewrite u64_small by lia.
  assert (zlen (ztake n rq) = Z.min n (zlen rq)) as Etk.
  { rewrite <- ztake_min. apply zlen_ztake. lia. }
  apply wp_bind. eapply wp_mono; [|apply (holds_empty_words out1 _ (running_bit predator)
    (n - Z.min n (zlen rq)) Hout1 Hbit)]; [|lia|rewrite zlen_app, zlen_negated, Etk; lia].
  intros [out2 k] Hout2. apply wp_bind.
  eapply wp_mono; [|apply (discard_wp fuel predator lits todo n); [done|lia|unfold zlen in *; lia]].
  fold rp. cbv beta. intros predator' Hpred. cbn [wp]. eexists. split_and!; [done..|exact Hout2|].
  rewrite <- !app_assoc. f_equal. unfold rp at 2. unfold left_words.
  rewrite xor_words_run by (done || (unfold n; lia)). fold n. do 2 f_equal.
  unfold rp, left_words. f_equal. rewrite zdrop_app_ge, zlen_zrep by (rewrite ?zlen_zrep; unfold n in *; lia).
  by rewrite Z.sub_diag, zdrop_0.
Qed.

Lemma xor_runs_wp fuel : ∀ i j out ri rj w,
  left i ri → left j rj → holds out w → 64 * zlen (w ++ xor_words ri rj) < 2 ^ 64 →
  zlen ri + zlen rj + 3 < Z.of_nat fuel →
  returns (xor_runs fuel i j out) (λ '(i', j', out'), ∃ ri' rj' w',
    left i' ri' ∧ left j' rj' ∧ holds out' w' ∧ w' ++ xor_words ri' rj' = w ++ xor_words ri rj ∧
    running_len i' = 0 ∧ running_len j' = 0 ∧ zlen ri' + zlen rj' <= zlen ri + zlen rj ∧
    (0 < running_len i + running_len j → zlen ri' + zlen rj' < zlen ri + zlen rj)).
Proof.
  induction fuel as [|fuel IH]; intros i j out ri rj w Hi Hj Hout Hmax Hfuel.
  { pose proof (zlen_nonneg ri). pose proof (zlen_nonneg rj). lia. }
  cbn [xor_runs].
  assert (∀ it rest, left it rest → 0 <= running_len it <= zlen rest) as Hbound.
  { intros it rest (lits & todo & [Hpre _] & ->). pose proof (left_length _ _ _ Hpre).
    pose proof (ro_run _ _ _ Hpre). pose proof (zlen_nonneg lits). pose proof (zlen_nonneg todo). lia. }
  pose proof (Hbound _ _ Hi) as Hbi. pose proof (Hbound _ _ Hj) as Hbj.
  destruct ((0 <? running_len i) || (0 <? running_len j)) eqn:E.
  2:{ apply orb_false_iff in E as [E1%Z.ltb_ge E2%Z.ltb_ge]. cbn [wp]. exists ri, rj, w.
      split_and!; try done; lia. }
  apply orb_true_iff in E. rewrite !Z.ltb_lt in E.
  pose proof (zlen_nonneg ri). pose proof (zlen_nonneg rj).
  destruct (Z.ltb_spec (running_len i) (running_len j)) as [Hlt|Hge].
  - pose proof (xor_round fuel i j out ri rj w Hi Hj Hout ltac:(lia)
      ltac:(rewrite xor_words_comm; done) ltac:(lia)) as Hround. cbv zeta in Hround. revert Hround.
    set (n := running_len j) in *. set (neg := if negb (running_bit j =? 0) then 1 else 0).
    destruct (rlwit_discharge fuel i out (u64 n) neg) as [[[i1 out1] index]| | |]; try done. cbn [obind].
    destruct (ewah_add_empty_words out1 neg (u64 (n - index))) as [[out2 k]| | |]; try done. cbn [obind].
    destruct (rlwit_discard_first_words fuel j (u64 n)) as [j1| | |]; try done. cbn [obind wp].
    intros (w' & Hi' & Hj' & Hout' & Ew). rewrite !(xor_words_comm _ ri), (xor_words_comm _ (zdrop n ri)) in Ew.
    eapply wp_mono; [|apply (IH i1 j1 out2 _ _ _ Hi' Hj' Hout')].
    + intros [[i2 j2] out3] (ri2 & rj2 & w2 & ? & ? & ? & Ew2 & ? & ? & Hle & _). exists ri2, rj2, w2.
      rewrite !zlen_zdrop_le in Hle by lia. split_and!; try done; try lia. by rewrite Ew2.
    + by rewrite Ew.
    + rewrite !zlen_zdrop_le by lia. lia.
  - pose proof (xor_round fuel j i out rj ri w Hj Hi Hout ltac:(lia) Hmax ltac:(lia)) as Hround.
    cbv zeta in Hround. revert Hround.
    set (n := running_len i) in *. set (neg := if negb (running_bit i =? 0) then 1 else 0).
    destruct (rlwit_discharge fuel j out (u64 n) neg) as [[[j1 out1] index]| | |]; try done. cbn [obind].
    destruct (ewah_add_empty_words out1 neg (u64 (n - index))) as [[out2 k]| | |]; try done. cbn [obind].
    destruct (rlwit_discard_first_words fuel i (u64 n)) as [i1| | |]; try done. cbn [obind wp].
    intros (w' & Hj' & Hi' & Hout' & Ew).
    eapply wp_mono; [|apply (IH i1 j1 out2 _ _ _ Hi' Hj' Hout')].
    + intros [[i2 j2] out3] (ri2 & rj2 & w2 & ? & ? & ? & Ew2 & ? & ? & Hle & _). exists ri2, rj2, w2.
      rewrite !zlen_zdrop_le in Hle by lia. split_and!; try done; try lia. by rewrite Ew2.
    + by rewrite Ew.
    + rewrite !zlen_zdrop_le by lia. lia.
Qed.

Lemma xor_words_app a1 a2 b1 b2 :
  length a1 = length b1 → xor_words (a1 ++ a2) (b1 ++ b2) = xor_words a1 b1 ++ xor_words a2 b2.
Proof.
  revert b1. induction a1 as [|x a1 IH]; intros [|y b1] Hl; try done. cbn. by rewrite IH by (cbn in Hl; lia).
Qed.

Lemma znth_of_zdrop {A} (l : list A) n x r : 0 <= n → zdrop n l = x :: r → znth l n = Some x ∧ zdrop (n + 1) l = r.
Proof.
  intros Hn E. assert (znth (zdrop n l) 0 = Some x) as H0 by (by rewrite E).
  rewrite znth_zdrop, Z.add_0_r in H0 by lia. split; [done|].
  rewrite (zdrop_cons _ _ _ Hn H0) in E. by injection E.
Qed.

Lemma xor_literals_wp la : ∀ lb buf_i si buf_j sj k out w ra rb,
  length la = length lb → 0 <= si + k → 0 <= sj + k →
  zdrop (si + k) buf_i = la ++ ra → zdrop (sj + k) buf_j = lb ++ rb →
  words_ok la → words_ok lb → holds out w → 64 * (zlen w + zlen la) < 2 ^ 64 →
  returns (xor_literals (length la) buf_i si buf_j sj k out) (λ out', holds out' (w ++ xor_words la lb)).
Proof.
  induction la as [|x la IH]; intros [|y lb] buf_i si buf_j sj k out w ra rb Hl Hi Hj Ei Ej Hla Hlb Hout Hmax;
    try done; cbn [xor_literals length xor_words].
  { cbn [wp]. by rewrite app_nil_r. }
  apply Forall_cons in Hla as [Hx Hla]. apply Forall_cons in Hlb as [Hy Hlb].
  cbn [app] in Ei, Ej. apply znth_of_zdrop in Ei as [Ei Ei']; [|done]. apply znth_of_zdrop in Ej as [Ej Ej']; [|done].
  rewrite (rd_znth _ _ _ Ei), (rd_znth _ _ _ Ej). cbn [obind]. rewrite zlen_cons in Hmax.
  pose proof (zlen_nonneg la).
  apply wp_bind. eapply wp_mono; [|apply (holds_add out w); [done| |lia]].
  2:{ by apply lxor_lt_pow2. }
  intros [out1 c] Hout1. eapply wp_mono; [|eapply (IH lb _ _ _ _ (k + 1) out1 _ ra rb); try done].
  - cbv beta. intros out2 Hout2. by rewrite <- app_assoc in Hout2.
  - by injection Hl.
  - lia.
  - lia.
  - by rewrite Z.add_assoc.
  - by rewrite Z.add_assoc.
  - rewrite zlen_app. change (zlen [Z.lxor x y]) with 1. lia.
Qed.

(** Between runs: the literals left in the current marker. *)
Lemma left_literals it rest :
  left it rest → running_len it = 0 → ∃ lits todo, rest_of it lits todo ∧ rest = lits ++ segs_words todo ∧
    literal_words it = zlen lits ∧ 0 <= literal_word_start it ∧
    (∃ r, zdrop (literal_word_start it) (it_buffer it) = lits ++ r) ∧ words_ok lits.
Proof.
  intros (lits & todo & [Hpre Hempty] & ->) H0. exists lits, todo. unfold left_words. rewrite H0.
  pose proof Hpre as []. split_and!; try done.
  exists (zdrop (zlen lits) (zdrop (literal_word_start it) (it_buffer it))).
  transitivity (zslice (literal_word_start it) (zlen lits) (it_buffer it) ++
    zdrop (zlen lits) (zdrop (literal_word_start it) (it_buffer it))); [|by rewrite ro_slice0].
  unfold zslice. by rewrite ztake_zdrop.
Qed.

Lemma xor_literals_round i j out ri rj w :
  left i ri → left j rj → running_len i = 0 → running_len j = 0 → holds out w →
  64 * zlen (w ++ xor_words ri rj) < 2 ^ 64 →
  let n := min_size (u64 (literal_words i)) (u64 (literal_words j)) in
  0 <= n <= zlen ri ∧ n <= zlen rj ∧ (n = 0 → ri = [] ∨ rj = []) ∧
  returns (xor_literals (Z.to_nat n) (it_buffer i) (literal_word_start i) (it_buffer j) (literal_word_start j) 0 out)
    (λ out', ∃ w', holds out' w' ∧ w' ++ xor_words (zdrop n ri) (zdrop n rj) = w ++ xor_words ri rj).
Proof.
  intros Hi Hj Hri Hrj Hout Hmax n.
  destruct (left_literals _ _ Hi Hri) as (li & ti & [Hpi Hei] & -> & Hli & Hsi & (xi & Hzi) & Hoki).
  destruct (left_literals _ _ Hj Hrj) as (lj & tj & [Hpj Hej] & -> & Hlj & Hsj & (xj & Hzj) & Hokj).
  pose proof (ro_int _ _ _ Hpi). pose proof (ro_int _ _ _ Hpj). pose proof (ro_run _ _ _ Hpi).
  pose proof (ro_run _ _ _ Hpj). pose proof (zlen_nonneg li). pose proof (zlen_nonneg lj).
  pose proof (zlen_nonneg (segs_words ti)). pose proof (zlen_nonneg (segs_words tj)). pose proof (zlen_nonneg w).
  assert (n = Z.min (zlen li) (zlen lj)) as En.
  { unfold n, min_size. rewrite Hli, Hlj, !u64_small by lia.
    destruct (Z.ltb_spec (zlen li) (zlen lj)); lia. }
  clearbody n. rewrite zlen_app, zlen_xor_words, !zlen_app in Hmax. rewrite !zlen_app.
  assert (∀ l : list Z, zlen l = 0 → l = []) as Hnil.
  { intros [|? l]; [done|]. rewrite zlen_cons. pose proof (zlen_nonneg l). lia. }
  split; [lia|]. split; [lia|]. split.
  { intros Hz0. destruct (Z.le_gt_cases (zlen li) (zlen lj)).
    - left. rewrite (Hnil li), Hei by lia. done.
    - right. rewrite (Hnil lj), Hej by lia. done. }
  assert (zlen (ztake n li) = n ∧ zlen (ztake n lj) = n) as [E1 E2] by (split; apply zlen_ztake; lia).
  replace (Z.to_nat n) with (length (ztake n li)) by (unfold zlen in E1; lia).
  eapply wp_mono; [|apply (xor_literals_wp (ztake n li) (ztake n lj) (it_buffer i) (literal_word_start i) (it_buffer j)
    (literal_word_start j) 0 out w (zdrop n li ++ xi) (zdrop n lj ++ xj))]; try done; try lia.
  - cbv beta. intros out' Hout'. eexists. split; [exact Hout'|].
    rewrite <- app_assoc, <- xor_words_app by (unfold zlen in *; lia).
    rewrite !zdrop_app_le by lia. by rewrite (app_assoc (ztake n li)), (app_assoc (ztake n lj)), !ztake_zdrop.
  - unfold zlen in *. lia.
  - by rewrite Z.add_0_r, Hzi, app_assoc, ztake_zdrop.
  - by rewrite Z.add_0_r, Hzj, app_assoc, ztake_zdrop.
  - by apply Forall_take.
  - by apply Forall_take.
Qed.

Lemma left_size it rest : left it rest →
  ∃ sz, rlwit_word_size it = Ret sz ∧ 0 <= sz ∧ (sz = 0 → rest = []) ∧
    (0 < sz → running_len it = 0 → rest ≠ []) ∧ (sz = 0 ↔ rest = []).
Proof.
  intros (lits & todo & [Hpre Hempty] & ->). exists (running_len it + zlen lits).
  rewrite (word_size_eq _ _ _ Hpre). pose proof (ro_run _ _ _ Hpre). pose proof (zlen_nonneg lits).
  pose proof (left_length _ _ _ Hpre) as Hlen. pose proof (zlen_nonneg todo).
  assert (running_len it + zlen lits = 0 → left_words it lits todo = []) as Hz.
  { intros Hz0. unfold left_words. rewrite Hempty by done. replace (running_len it) with 0 by lia.
    destruct lits as [|? lits]; [done|]. rewrite zlen_cons in *. pose proof (zlen_nonneg lits). lia. }
  split_and!; try done; try lia.
  - intros Hs _ E. rewrite E in Hlen. change (zlen ([] : list Z)) with 0 in Hlen. lia.
  - split; [done|]. intros E. rewrite E in Hlen. change (zlen ([] : list Z)) with 0 in Hlen. lia.
Qed.

Lemma discard_left fuel it rest x :
  left it rest → 0 <= x < 2 ^ 64 → zlen rest + 1 < Z.of_nat fuel →
  returns (rlwit_discard_first_words fuel it x) (λ it', left it' (zdrop x rest)).
Proof.
  intros (lits & todo & [Hpre Hempty] & ->) Hx Hf. apply discard_wp; [done|done|].
  pose proof (left_length _ _ _ Hpre). pose proof (ro_run _ _ _ Hpre). pose proof (zlen_nonneg lits).
  unfold zlen in *. lia.
Qed.

Lemma xor_loop_wp fuel : ∀ i j out ri rj w,
  left i ri → left j rj → holds out w → 64 * zlen (w ++ xor_words ri rj) < 2 ^ 64 →
  zlen ri + zlen rj + 4 < Z.of_nat fuel →
  returns (xor_loop fuel i j out) (λ '(i', j', out'), ∃ ri' rj' w',
    left i' ri' ∧ left j' rj' ∧ holds out' w' ∧ w' ++ xor_words ri' rj' = w ++ xor_words ri rj ∧
    (ri' = [] ∨ rj' = []) ∧ zlen ri' + zlen rj' <= zlen ri + zlen rj).
Proof.
  induction fuel as [|fuel IH]; intros i j out ri rj w Hi Hj Hout Hmax Hfuel.
  { pose proof (zlen_nonneg ri). pose proof (zlen_nonneg rj). lia. }
  cbn [xor_loop].
  destruct (left_size _ _ Hi) as (si & -> & Hsi & Hsi0 & _). cbn [obind].
  destruct (left_size _ _ Hj) as (sj & -> & Hsj & Hsj0 & _). cbn [obind].
  destruct ((0 <? si) && (0 <? sj)) eqn:E.
  2:{ cbn [wp]. exists ri, rj, w. split_and!; try done.
      apply andb_false_iff in E as [E%Z.ltb_ge|E%Z.ltb_ge]; [left; apply Hsi0|right; apply Hsj0]; lia. }
  clear Hsi0 Hsj0 E. apply wp_bind. eapply wp_mono; [|apply (xor_runs_wp fuel i j out ri rj w); done || lia].
  intros [[i1 j1] out1] (ri1 & rj1 & w1 & Hi1 & Hj1 & Hout1 & Ew1 & Hr1 & Hr2 & Hle & _).
  rewrite <- Ew1 in Hmax.
  destruct (xor_literals_round i1 j1 out1 ri1 rj1 w1 Hi1 Hj1 Hr1 Hr2 Hout1 Hmax) as (Hn1 & Hn2 & Hn0 & Hlit).
  set (n := min_size _ _) in *. clearbody n.
  destruct (Z.eqb_spec n 0) as [->|Hn]; cbn [negb].
  { destruct fuel as [|fuel]; [pose proof (zlen_nonneg ri); pose proof (zlen_nonneg rj); lia|].
    cbn [xor_loop].
    destruct (left_size _ _ Hi1) as (si1 & -> & Hs1 & _ & _ & Hs1'). cbn [obind].
    destruct (left_size _ _ Hj1) as (sj1 & -> & Hs2 & _ & _ & Hs2'). cbn [obind].
    assert ((0 <? si1) && (0 <? sj1) = false) as ->.
    { apply andb_false_iff. rewrite !Z.ltb_ge. destruct (Hn0 ltac:(done)) as [Hz|Hz].
      - left. apply Hs1' in Hz. lia.
      - right. apply Hs2' in Hz. lia. }
    cbn [wp]. exists ri1, rj1, w1. split_and!; try done. by apply Hn0. }
  apply wp_bind. eapply wp_mono; [|exact Hlit]. intros out2 (w2 & Hout2 & Ew2). cbv beta in *.
  assert (n < 2 ^ 64).
  { rewrite zlen_app, zlen_xor_words in Hmax. pose proof (zlen_nonneg w1). lia. }
  pose proof (zlen_nonneg ri). pose proof (zlen_nonneg rj).
  apply wp_bind. eapply wp_mono; [|apply (discard_left fuel i1 ri1 n); [done|lia|lia]].
  intros i2 Hi2. apply wp_bind. eapply wp_mono; [|apply (discard_left fuel j1 rj1 n); [done|lia|lia]].
  intros j2 Hj2. cbv beta in *.
  eapply wp_mono; [|apply (IH i2 j2 out2 _ _ _ Hi2 Hj2 Hout2)].
  - intros [[i3 j3] out3] (ri3 & rj3 & w3 & ? & ? & ? & Ew3 & ? & Hle3).
    rewrite !zlen_zdrop in Hle3 by lia. exists ri3, rj3, w3. split_and!; try done; try lia.
    by rewrite Ew3, Ew2, Ew1.
  - by rewrite Ew2.
  - rewrite !zlen_zdrop by lia. lia.
Qed.

(** Every marker stands for fewer than [2^31] words. *)
Definition markers_small (self : ewah_bitmap) : Prop :=
  ∃ init last, buffer self = enc_segs (init ++ [last]) ∧ Forall seg_ok (init ++ [last]) ∧
    Forall (λ s, seg_size s < 2 ^ 31) (init ++ [last]) ∧ zlen (buffer self) < 2 ^ 63.

Lemma enc_segs_inj ss ss' :
  Forall seg_ok ss → Forall seg_ok ss' → enc_segs ss = enc_segs ss' → ss = ss'.
Proof.
  intros H. revert ss'. induction H as [|[b r l] ss [Hf _] Hss IH]; intros ss' H' E.
  - destruct H' as [|[b' r' l'] ss' _ _]; [done|]. discriminate E.
  - destruct H' as [|[b' r' l'] ss' [Hf' _] Hss']; [discriminate E|]. cbn in Hf, Hf'.
    change (marker b r (zlen l) :: l ++ enc_segs ss = marker b' r' (zlen l') :: l' ++ enc_segs ss') in E.
    injection E as Em E.
    assert (b = b' ∧ r = r' ∧ zlen l = zlen l') as (-> & -> & El).
    { split_and!.
      - rewrite <- (get_run_bit_marker b r (zlen l)), Em by done. by apply get_run_bit_marker.
      - rewrite <- (get_running_len_marker b r (zlen l)), Em by done. by apply get_running_len_marker.
      - rewrite <- (get_literal_words_marker b r (zlen l)), Em by done. by apply get_literal_words_marker. }
    apply app_inj_1 in E as [-> E]; [|unfold zlen in El; lia]. f_equal. by apply IH.
Qed.

Lemma rlwit_init_left self ws :
  repr self ws → markers_small self → returns (rlwit_init self) (λ it, left it ws).
Proof.
  intros (init & last & Hb & _ & Hok & Hpos & Hlast & _ & <-) (init' & last' & Hb' & Hok' & Hsm & Hlen).
  assert (init' ++ [last'] = init ++ [last]) as E.
  { apply enc_segs_inj; [done..|]. by rewrite <- Hb, <- Hb'. }
  rewrite E in Hsm. clear Hb' Hok' E init' last'. unfold rlwit_init.
  destruct (init ++ [last]) as [|[b r l] todo] eqn:Einit; [by destruct init|].
  apply Forall_cons in Hok as [[Hf Hl] Hok]. cbn [s_bit s_run s_lits] in Hf, Hl.
  apply Forall_cons in Hsm as [Hsm Hsms]. unfold seg_size in Hsm. cbn [s_run s_lits] in Hsm.
  assert (Forall small todo) as Hsmall.
  { assert (Forall (λ s, 0 < seg_size s) todo) as Hp.
    { destruct init as [|s init]; injection Einit as _ <-; [done|].
      apply Forall_cons in Hpos as [_ Hpos]. apply Forall_snoc; [done|]. by apply Hlast. }
    rewrite !Forall_forall in *. intros s Hs. split; [by apply Hp|by apply Hsms]. }
  assert (r + zlen l = 0 → todo = []) as Hempty.
  { intros H0. destruct init as [|s init]; [by injection Einit|]. injection Einit as Es _. subst s.
    apply Forall_cons in Hpos as [Hp _]. unfold seg_size in Hp. cbn in Hp. lia. }
  assert (enc_segs (Seg b r l :: todo) = marker b r (zlen l) :: l ++ enc_segs todo) as Eenc by done.
  pose proof (zlen_nonneg l). pose proof (zlen_nonneg (enc_segs todo)). assert (0 <= r) by (fields; lia).
  assert (buffer_size self = 1 + zlen l + zlen (enc_segs todo)) as Hsz.
  { unfold buffer_size. rewrite Hb, Eenc, zlen_cons, zlen_app. lia. }
  unfold buffer_size in *.
  unfold next_word. cbn [size pointer it_buffer]. rewrite (proj2 (Z.leb_gt _ _)) by lia.
  rewrite (rd_znth _ _ (marker b r (zlen l))) by (by rewrite Hb). cbn [obind wp].
  rewrite get_run_bit_marker, get_running_len_marker, get_literal_words_marker by done.
  rewrite !i32_small, !u64_small by (rewrite ?u64_small; lia).
  exists l, todo. unfold set_literal_word_start, left_words, rlwit_literal_words.
  cbn [it_buffer size pointer literal_word_start literal_words running_len literal_word_offset running_bit].
  rewrite !u64_small by (rewrite ?u64_small; lia).
  split; [|change (segs_words (Seg b r l :: todo)) with ((zrep r (fill b) ++ l) ++ segs_words todo);
           by rewrite app_assoc].
  split; [|done].
  constructor; cbn [it_buffer size pointer literal_word_start literal_words running_len literal_word_offset running_bit];
    try done; try lia.
  - exists (marker b r (zlen l) :: l). rewrite zlen_cons. split; [by rewrite Hb|lia].
  - by destruct Hf.
  - replace (0 + (zlen l + 1) - zlen l + 0) with (zlen [marker b r (zlen l)]) by (change (zlen [marker b r (zlen l)]) with 1; lia).
    rewrite Hb, Eenc. change (marker b r (zlen l) :: l ++ enc_segs todo) with ([marker b r (zlen l)] ++ l ++ enc_segs todo).
    apply zslice_mid.
Qed.

Lemma ewah_xor_wp fuel ewah_i ewah_j out wi wj :
  repr ewah_i wi → repr ewah_j wj → markers_small ewah_i → markers_small ewah_j → holds out [] →
  64 * zlen (xor_words wi wj) < 2 ^ 64 → zlen wi + zlen wj + 4 < Z.of_nat fuel →
  returns (ewah_xor fuel ewah_i ewah_j out) (λ out',
    repr out' (xor_words wi wj) ∧ bit_size out' = Z.max (bit_size ewah_i) (bit_size ewah_j)).
Proof.
  intros Hi Hj Hsi Hsj Hout Hmax Hfuel. unfold ewah_xor.
  apply wp_bind. eapply wp_mono; [|by apply (rlwit_init_left ewah_i wi)]. cbv beta. intros i Hleft_i.
  apply wp_bind. eapply wp_mono; [|by apply (rlwit_init_left ewah_j wj)]. cbv beta. intros j Hleft_j.
  apply wp_bind. eapply wp_mono; [|by apply (xor_loop_wp fuel i j out wi wj [])].
  intros [[i1 j1] out1] (ri & rj & w & Hi1 & Hj1 & Hout1 & Ew & Hnil & Hle). cbn [app] in Ew.
  rewrite <- Ew in *.
  destruct (left_size _ _ Hi1) as (sz & -> & Hs0 & Hsz0 & _ & Hsz). cbn [obind].
  rewrite zlen_app, zlen_xor_words in Hmax. pose proof (zlen_nonneg w). pose proof (zlen_nonneg ri). pose proof (zlen_nonneg rj).
  assert (∀ it rest, left it rest → zlen rest = Z.max (zlen ri) (zlen rj) → rest = xor_words ri rj →
    returns (let! (_, out, _) := rlwit_discharge fuel it out1 (2 ^ 64 - 1) 0 in
       Ret (set_bit_size out (max_size (bit_size ewah_i) (bit_size ewah_j))))
      (λ out', repr out' (w ++ xor_words ri rj) ∧ bit_size out' = Z.max (bit_size ewah_i) (bit_size ewah_j))) as Hfin.
  { intros it rest Hleft Hlen Hrest. apply wp_bind.
    eapply wp_mono; [|apply (discharge_loop_wp fuel it out1 rest w (2 ^ 64 - 1) 0 0); try done; [by left|lia..]].
    intros [[it' out'] index'] (_ & _ & [Hr _]). cbn [Z.eqb negb negated] in Hr.
    rewrite ztake_all, Hrest in Hr by lia. cbn [wp]. split; [exact Hr|].
    unfold max_size. cbn [set_bit_size bit_size]. destruct (Z.ltb_spec (bit_size ewah_j) (bit_size ewah_i)); lia. }
  destruct (Z.ltb_spec 0 sz) as [Hpos|Hz].
  - destruct Hnil as [->| ->]; [by rewrite (proj2 Hsz ltac:(done)) in Hpos|].
    apply (Hfin i1 ri Hi1); [|by rewrite xor_words_nil_r].
    change (zlen ([] : list Z)) with 0. lia.
  - assert (ri = []) as -> by (apply Hsz0; lia). apply (Hfin j1 rj Hj1); [|done].
    change (zlen ([] : list Z)) with 0. lia.
Qed.

End EwahXor.
