(* ===== verification/EwahIO.v ===== *)
(** * Serialisation of compressed bitmaps (ewah/ewah_io.c)

    On disk: the bit size, the number of words, the words and the position of
    the current marker, all big-endian. *)
From stdpp Require Import prelude.
From S2P Require Import Prelude Endian Ewah EwahSpec.
Import Endian Ewah EwahSpec.

Module EwahIO.

Section serialize.
(** [write_fun(data, buf, len)] changes the state behind [data] and says how
    many bytes it wrote. *)
Context {W : Type} (write_fun : W → list Z → outcome (W * Z)).

Definition words_per_dump : Z := 2048.

Fixpoint dump_loop (fuel : nat) (data : W) (buf : list Z) : outcome (W * option (list Z)) :=
  match fuel with
  | O => NoFuel
  | S fuel =>
      if words_per_dump <=? zlen buf then
        let dump := concat (be64 <$> ztake words_per_dump buf) in
        let! (data, n) := write_fun data dump in
        if negb (n =? zlen dump) then Ret (data, None)
        else dump_loop fuel data (zdrop words_per_dump buf)
      else Ret (data, Some buf)
  end.

(** The result is -1 when a write falls short. *)
Definition ewah_serialize_to (self : ewah_bitmap) (data : W) : outcome (W * Z) :=
  let! (data, n) := write_fun data (be32 (bit_size self)) in
  if negb (n =? 4) then Ret (data, -1) else
  let! (data, n) := write_fun data (be32 (buffer_size self)) in
  if negb (n =? 4) then Ret (data, -1) else
  let! (data, rest) := dump_loop (S (length (buffer self))) data (buffer self) in
  match rest with
  | None => Ret (data, -1)
  | Some words_left =>
      let! (data, ok) :=
        (if negb (zlen words_left =? 0) then
           let dump := concat (be64 <$> words_left) in
           let! (data, n) := write_fun data dump in
           Ret (data, n =? zlen dump)
         else Ret (data, true)) in
      if negb ok then Ret (data, -1) else
      let rlw_pos := u32 (rlw self * 8) in
      let! (data, n) := write_fun data (be32 (rlw_pos / 8)) in
      if negb (n =? 4) then Ret (data, -1) else
      Ret (data, i32 (u64 (3 * 4 + buffer_size self * 8)))
  end.
End serialize.

(** [strbuf_add]: the [strbuf] is its bytes. *)
Definition write_strbuf (sb data : list Z) : outcome (list Z * Z) := Ret (sb ++ data, i32 (zlen data)).

Definition ewah_serialize_strbuf (self : ewah_bitmap) (sb : list Z) : outcome (list Z * Z) :=
  ewah_serialize_to write_strbuf self sb.

(** The words at [ptr]: copied as a chunk and swapped in place. *)
Fixpoint ntohll_words (n : nat) (bytes : list Z) : list Z :=
  match n with
  | O => []
  | S n => of_be (ztake 8 bytes) :: ntohll_words n (zdrop 8 bytes)
  end.

(** [None] stands for the [error()] returns. *)
Definition ewah_read_mmap (map : list Z) (len : Z) : outcome (option (ewah_bitmap * Z)) :=
  let ptr := 0 in
  if len <? 4 then Ret None else
  let! b := rd_range map ptr 4 in
  let bit_size := of_be b in
  let ptr := ptr + 4 in
  let len := len - 4 in
  if len <? 4 then Ret None else
  let! b := rd_range map ptr 4 in
  let buffer_size := of_be b in
  let ptr := ptr + 4 in
  let len := len - 4 in
  if 2 ^ 64 <=? buffer_size * 8 then Die else
  let data_len := buffer_size * 8 in
  if len <? data_len then Ret None else
  let! data := rd_range map ptr data_len in
  let ptr := ptr + data_len in
  let len := len - data_len in
  let words := ntohll_words (Z.to_nat buffer_size) data in
  if len <? 4 then Ret None else
  let! b := rd_range map ptr 4 in
  let rlw := of_be b in
  let ptr := ptr + 4 in
  Ret (Some (Ewah_bitmap words buffer_size bit_size rlw, ptr)).

(** ** Lemmas *)
Lemma zlen_be64s ws : zlen (concat (be64 <$> ws)) = 8 * zlen ws.
Proof.
  induction ws as [|w ws IH]; [done|]. cbn [fmap list_fmap concat]. change (concat (be64 w :: (be64 <$> ws)))
    with (be64 w ++ concat (be64 <$> ws)). rewrite zlen_app, IH, zlen_cons.
  unfold be64. rewrite zlen_be_bytes. lia.
Qed.

Lemma ntohll_words_be64 ws :
  Forall word_ok ws → ntohll_words (length ws) (concat (be64 <$> ws)) = ws.
Proof.
  induction 1 as [|w ws Hw Hws IH]; [done|].
  change (concat (be64 <$> w :: ws)) with (be64 w ++ concat (be64 <$> ws)). cbn [length ntohll_words].
  assert (zlen (be64 w) = 8) as E by apply zlen_be_bytes.
  rewrite ztake_app_len', zdrop_app_len', IH by done. f_equal. by apply of_be_bytes.
Qed.

(** Writing to a [strbuf] never falls short of memory-sized data. *)
Lemma dump_loop_strbuf fuel sb ws :
  (length ws < fuel)%nat → ∃ rest sb',
  dump_loop write_strbuf fuel sb ws = Ret (sb', Some rest) ∧
    sb' ++ concat (be64 <$> rest) = sb ++ concat (be64 <$> ws).
Proof.
  revert sb ws. induction fuel as [|fuel IH]; intros sb ws Hf; [lia|].
  cbn [dump_loop]. unfold words_per_dump. destruct (Z.leb_spec 2048 (zlen ws)); [|by exists ws, sb].
  unfold write_strbuf at 1. cbn [obind].
  assert (zlen (concat (be64 <$> ztake 2048 ws)) = 16384) as E.
  { rewrite zlen_be64s, zlen_ztake by lia. done. }
  rewrite E. change (negb (i32 16384 =? 16384)) with false. cbn [negb].
  destruct (IH (sb ++ concat (be64 <$> ztake 2048 ws)) (zdrop 2048 ws)) as (rest & sb' & -> & Eq).
  { unfold zdrop, zlen in *. rewrite length_drop. lia. }
  exists rest, sb'. split; [done|]. rewrite Eq, <- app_assoc. f_equal.
  by rewrite <- concat_app, <- fmap_app, ztake_zdrop.
Qed.

Definition serialized (self : ewah_bitmap) : list Z :=
  be32 (bit_size self) ++ be32 (buffer_size self) ++ concat (be64 <$> buffer self) ++ be32 (u32 (rlw self * 8) / 8).

Lemma dump_loop_left fuel sb ws sb' rest :
  dump_loop write_strbuf fuel sb ws = Ret (sb', Some rest) → zlen rest < 2048.
Proof.
  revert sb ws. induction fuel as [|fuel IH]; intros sb ws; [done|]. cbn [dump_loop]. unfold words_per_dump.
  destruct (Z.leb_spec 2048 (zlen ws)); [|by intros [= _ <-]].
  unfold write_strbuf at 1. cbn [obind]. destruct (negb _); [done|]. apply IH.
Qed.

Lemma serialize_strbuf_eq self sb :
  ewah_serialize_strbuf self sb =
    Ret (sb ++ serialized self, i32 (u64 (3 * 4 + buffer_size self * 8))).
Proof.
  unfold ewah_serialize_strbuf, ewah_serialize_to.
  assert (∀ x sb, write_strbuf sb (be32 x) = Ret (sb ++ be32 x, 4)) as Hw.
  { intros x sb0. unfold write_strbuf, be32. by rewrite zlen_be_bytes. }
  rewrite !Hw. cbn [obind Z.eqb Pos.eqb negb]. rewrite Hw. cbn [obind Z.eqb Pos.eqb negb].
  destruct (dump_loop_strbuf (S (length (buffer self))) ((sb ++ be32 (bit_size self)) ++ be32 (buffer_size self))
    (buffer self) ltac:(lia)) as (rest & sb' & E & Eq).
  rewrite E. apply dump_loop_left in E. cbn [obind].
  assert (∀ k, ((let! (data, ok) :=
          (if negb (zlen rest =? 0) then
             let dump := concat (be64 <$> rest) in
             let! (data, n) := write_strbuf sb' dump in
             Ret (data, n =? zlen dump)
           else Ret (sb', true)) in k data ok) : outcome (list Z * Z)) = k (sb' ++ concat (be64 <$> rest)) true) as ->.
  { intros k. destruct (Z.eqb_spec (zlen rest) 0) as [E0|]; cbn [negb obind].
    - destruct rest; [by rewrite app_nil_r|]. rewrite zlen_cons in E0. pose proof (zlen_nonneg rest). lia.
    - unfold write_strbuf. cbn [obind]. rewrite zlen_be64s. pose proof (zlen_nonneg rest).
      unfold i32. rewrite Z.mod_small by lia. replace (8 * zlen rest + 2 ^ 31 - 2 ^ 31) with (8 * zlen rest) by lia.
      by rewrite Z.eqb_refl. }
  cbn [negb]. rewrite Hw. cbn [obind Z.eqb Pos.eqb negb]. rewrite Eq. unfold serialized.
  by rewrite <- !app_assoc.
Qed.

(** ** Reading *)
Lemma rd_range_ok {A} (l : list A) from n :
  0 <= from → 0 <= n → from + n <= zlen l → rd_range l from n = Ret (zslice from n l).
Proof.
  intros. unfold rd_range. by rewrite !(proj2 (Z.leb_le _ _)) by lia.
Qed.
Lemma zslice_app3 {A} (a m c : list A) k n : k = zlen a → n = zlen m → zslice k n (a ++ m ++ c) = m.
Proof. intros -> ->. unfold zslice. by rewrite zdrop_app_len, ztake_app_len. Qed.

(** What [ewah_read_mmap] does on [len] bytes of [map], read off in one step. *)
Lemma read_mmap_unfold map :
  bytes_ok map →
  let len := zlen map in
  let n := of_be (zslice 4 4 map) in
  ewah_read_mmap map len =
    if (len <? 8) || (len <? 12 + 8 * n) then Ret None
    else Ret (Some (Ewah_bitmap (ntohll_words (Z.to_nat n) (zslice 8 (8 * n) map)) n
                      (of_be (zslice 0 4 map)) (of_be (zslice (8 + 8 * n) 4 map)), 12 + 8 * n)).
Proof.
  intros Hmap len n. pose proof (zlen_nonneg map) as Hlen0. fold len in Hlen0. unfold ewah_read_mmap.
  destruct (Z.ltb_spec len 8) as [H8|H8]; cbn [orb].
  { destruct (Z.ltb_spec len 4); [done|].
    rewrite rd_range_ok by (fold len; lia). cbn [obind]. eval_ltb (len - 4) 4. done. }
  eval_ltb len 4. rewrite rd_range_ok by (fold len; lia). cbn [obind]. eval_ltb (len - 4) 4.
  rewrite rd_range_ok by (fold len; lia). cbn [obind]. change (0 + 4) with 4. fold n.
  assert (0 <= n < 2 ^ 32) as Hn.
  { pose proof (of_be_bound (zslice 4 4 map)) as Hb. rewrite zlen_zslice in Hb by (fold len; lia).
    apply Hb. by apply Forall_take, Forall_drop. }
  eval_leb (2 ^ 64) (n * 8). destruct (Z.ltb_spec len (12 + 8 * n)) as [Hl|Hl].
  - destruct (Z.ltb_spec (len - 4 - 4) (n * 8)); [done|]. rewrite rd_range_ok by (fold len; lia). cbn [obind].
    eval_ltb (len - 4 - 4 - n * 8) 4. done.
  - eval_ltb (len - 4 - 4) (n * 8). rewrite rd_range_ok by (fold len; lia). cbn [obind].
    eval_ltb (len - 4 - 4 - n * 8) 4. rewrite rd_range_ok by (fold len; lia). cbn [obind].
    replace (n * 8) with (8 * n) by lia. replace (4 + 4 + 8 * n + 4) with (12 + 8 * n) by lia. done.
Qed.

Lemma serialized_ok self : bytes_ok (serialized self).
Proof.
  unfold serialized. repeat (apply Forall_app; split); try apply be_bytes_ok.
  apply Forall_concat, Forall_fmap, Forall_true. intros w. apply be_bytes_ok.
Qed.
Lemma zlen_serialized self : zlen (serialized self) = 12 + 8 * buffer_size self.
Proof.
  unfold serialized. rewrite !zlen_app, zlen_be64s. unfold be32. rewrite !zlen_be_bytes.
  unfold buffer_size. lia.
Qed.

Lemma repr_buffer_ok self ws : repr self ws → Forall word_ok (buffer self) ∧ 0 <= rlw self < zlen (buffer self).
Proof.
  intros (init & last & -> & -> & Hok & _). split.
  - clear -Hok. induction Hok as [|[b r l] ss [Hf Hl] Hss IH]; [constructor|].
    change (enc_segs (Seg b r l :: ss)) with (marker b r (zlen l) :: l ++ enc_segs ss).
    constructor; [by apply marker_word|]. by apply Forall_app.
  - rewrite enc_segs_app, zlen_app. pose proof (zlen_nonneg (enc_segs init)).
    pose proof (length_enc_pos [last] ltac:(done)). lia.
Qed.

Lemma ewah_read_serialized self ws extra :
  repr self ws → 0 <= bit_size self < 2 ^ 32 → buffer_size self < 2 ^ 29 → bytes_ok extra →
  ewah_read_mmap (serialized self ++ extra) (zlen (serialized self ++ extra)) =
    Ret (Some (Ewah_bitmap (buffer self) (buffer_size self) (bit_size self) (rlw self),
               zlen (serialized self))).
Proof.
  intros Hr Hbits Hsz Hextra. destruct (repr_buffer_ok _ _ Hr) as [Hwords Hrlw].
  pose proof (zlen_nonneg (buffer self)). pose proof (zlen_nonneg extra). unfold buffer_size in Hsz.
  rewrite read_mmap_unfold by (apply Forall_app; split; [apply serialized_ok|done]). cbv zeta.
  assert (∀ x, zlen (be32 x) = 4) as L4 by (intros; apply zlen_be_bytes).
  assert (∀ x, 0 <= x < 2 ^ 32 → of_be (be32 x) = x) as V4.
  { intros x Hx. unfold be32, u32. rewrite Z.mod_small by done. by apply of_be_bytes. }
  assert (zslice 4 4 (serialized self ++ extra) = be32 (buffer_size self)) as ->.
  { unfold serialized. rewrite <- !app_assoc. by apply zslice_app3. }
  rewrite (V4 (buffer_size self)) by (unfold buffer_size; lia).
  rewrite zlen_app, zlen_serialized. unfold buffer_size.
  set (n := zlen (buffer self)) in *. eval_ltb (12 + 8 * n + zlen extra) 8.
  eval_ltb (12 + 8 * n + zlen extra) (12 + 8 * n). cbn [orb].
  assert (zslice 8 (8 * n) (serialized self ++ extra) = concat (be64 <$> buffer self)) as ->.
  { unfold serialized. rewrite <- !app_assoc, (app_assoc (be32 _)).
    apply zslice_app3; [by rewrite zlen_app, !L4|by rewrite zlen_be64s]. }
  assert (zslice 0 4 (serialized self ++ extra) = be32 (bit_size self)) as ->.
  { unfold serialized. rewrite <- !app_assoc. by apply (zslice_app3 []). }
  assert (zslice (8 + 8 * n) 4 (serialized self ++ extra) = be32 (u32 (rlw self * 8) / 8)) as ->.
  { unfold serialized. rewrite <- !app_assoc, (app_assoc (be32 _)), (app_assoc (_ ++ _)).
    apply zslice_app3; [|by rewrite L4]. rewrite !zlen_app, !L4, zlen_be64s. fold n. lia. }
  unfold u32. rewrite (Z.mod_small (rlw self * 8)) by lia. rewrite Z.div_mul by done.
  rewrite !V4 by lia. unfold n at 1. unfold zlen at 1. rewrite Nat2Z.id, ntohll_words_be64 by done. done.
Qed.

Lemma ewah_read_truncated self ws k :
  repr self ws → 0 <= bit_size self < 2 ^ 32 → buffer_size self < 2 ^ 29 →
  0 <= k < zlen (serialized self) →
  ewah_read_mmap (ztake k (serialized self)) k = Ret None.
Proof.
  intros Hr Hbits Hsz Hk. assert (zlen (ztake k (serialized self)) = k) as El by (apply zlen_ztake; lia).
  rewrite <- El at 2. rewrite read_mmap_unfold by apply Forall_take, serialized_ok. cbv zeta. rewrite El.
  destruct (Z.ltb_spec k 8) as [|H8]; [done|]. cbn [orb].
  assert (zslice 4 4 (ztake k (serialized self)) = be32 (buffer_size self)) as ->.
  { transitivity (zslice 4 4 (serialized self)).
    - unfold zslice, ztake, zdrop. rewrite skipn_firstn_comm, take_take. f_equal. lia.
    - unfold serialized. apply zslice_app3; [|]; symmetry; apply zlen_be_bytes. }
  unfold be32, u32. pose proof (zlen_nonneg (buffer self)). unfold buffer_size in *.
  rewrite Z.mod_small, of_be_bytes by lia. rewrite zlen_serialized in Hk. unfold buffer_size in Hk.
  by rewrite (proj2 (Z.ltb_lt _ _)) by lia.
Qed.

End EwahIO.
