(* ===== verification/BitmapTheorems.v ===== *)
(** * What the bitmap library promises its callers

    The statements about ewah/ that the rest of the program relies on, in terms
    of the bits of the bitmaps, with concrete instances. *)
From stdpp Require Import prelude.
From S2P Require Import Prelude Ewah EwahSpec EwahBits EwahIter Bitmap BitmapSpec EwahXor Endian EwahIO.
Import Ewah EwahSpec EwahBits EwahIter Bitmap BitmapSpec EwahXor Endian EwahIO.

Module BitmapTheorems.

(** ** Two compressed bitmaps to instantiate the theorems with *)
Definition sample_a : ewah_bitmap := Ewah_bitmap [marker 0 0 1; 5] 32 64 0.
Definition sample_b : ewah_bitmap := Ewah_bitmap [marker 1 2 1; 9] 32 192 0.

Lemma sample_a_repr : repr sample_a [5].
Proof.
  exists [], (Seg 0 0 [5]). split_and!; try reflexivity; try done; try lia.
  repeat constructor; vm_compute; try congruence; by left.
Qed.
Lemma sample_b_repr : repr sample_b [EONES; EONES; 9].
Proof.
  exists [], (Seg 1 2 [9]). split_and!; try reflexivity; try done; try lia.
  repeat constructor; vm_compute; try congruence; by right.
Qed.
Lemma sample_a_small : markers_small sample_a.
Proof.
  exists [], (Seg 0 0 [5]). split; [reflexivity|]. split.
  - repeat constructor; vm_compute; try congruence; by left.
  - split; [|vm_compute; reflexivity]. constructor; [vm_compute; reflexivity|constructor].
Qed.
Lemma sample_b_small : markers_small sample_b.
Proof.
  exists [], (Seg 1 2 [9]). split; [reflexivity|]. split.
  - repeat constructor; vm_compute; try congruence; by right.
  - split; [|vm_compute; reflexivity]. constructor; [vm_compute; reflexivity|constructor].
Qed.

Lemma positions_membership ws p : 0 <= p → p ∈ positions ws ↔ wbit ws p = true.
Proof. intros Hp. rewrite elem_positions. naive_solver. Qed.

(** ** Properties *)

(** C19. Compressing a bitmap with [bitmap_to_ewah] and expanding the result with
    [ewah_to_bitmap] gives a bitmap in which [bitmap_get] answers the same for
    every position; both conversions succeed. *)
Theorem bitmap_ewah_roundtrip m :
  words_ok (words m) → 64 * (zlen (words m) + 2) < 2 ^ 64 →
  ∃ e m', bitmap_to_ewah m = Ret e ∧
    ewah_to_bitmap (S (S (length (words m)))) e = Ret m' ∧
    ∀ i, 0 <= i → bitmap_get m' i = bitmap_get m i.
Proof.
  intros Hok Hmax. pose proof (bitmap_to_ewah_wp m Hok Hmax) as Hto.
  apply returns_eq in Hto as (e & He & ws & Hr & _ & Hlen & Hbits).
  exists e, (Mk_bitmap ws). split_and!; [done| |].
  - apply (ewah_to_bitmap_eq e ws); [done|]. unfold zlen in Hlen. lia.
  - intros i Hi. rewrite !bitmap_get_eq by done. cbn [words]. by rewrite Hbits.
Qed.

Lemma bitmap_ewah_roundtrip_witness :
  ∃ e m', bitmap_to_ewah (Mk_bitmap [5; 0; 0; EONES; 0]) = Ret e ∧
    ewah_to_bitmap 7 e = Ret m' ∧
    ∀ i, 0 <= i → bitmap_get m' i = bitmap_get (Mk_bitmap [5; 0; 0; EONES; 0]) i.
Proof.
  apply (bitmap_ewah_roundtrip (Mk_bitmap [5; 0; 0; EONES; 0])).
  - repeat constructor; vm_compute; congruence.
  - vm_compute. reflexivity.
Defined.

(** C20. [ewah_xor] of two compressed bitmaps whose markers count fewer than
    [2^31] words is a bitmap whose set bits are those set in exactly one of the
    operands. *)
Theorem ewah_xor_bits fuel ewah_i ewah_j wi wj :
  repr ewah_i wi → repr ewah_j wj → markers_small ewah_i → markers_small ewah_j →
  64 * Z.max (zlen wi) (zlen wj) < 2 ^ 64 → zlen wi + zlen wj + 4 < Z.of_nat fuel →
  ∃ out li lj lo, ewah_xor fuel ewah_i ewah_j ewah_new = Ret out ∧
    ewah_each_bit ewah_i = Ret li ∧ ewah_each_bit ewah_j = Ret lj ∧ ewah_each_bit out = Ret lo ∧
    ∀ p, 0 <= p → p ∈ lo ↔ (p ∈ li ∧ p ∉ lj) ∨ (p ∉ li ∧ p ∈ lj).
Proof.
  intros Hi Hj Hsi Hsj Hmax Hf. rewrite <- zlen_xor_words in Hmax.
  assert (holds ewah_new []) as Hnew by (split; [apply ewah_new_repr|done]).
  pose proof (ewah_xor_wp fuel ewah_i ewah_j ewah_new wi wj Hi Hj Hsi Hsj Hnew Hmax Hf) as Hx.
  apply returns_eq in Hx as (out & Ho & Hr & _).
  exists out, (positions wi), (positions wj), (positions (xor_words wi wj)).
  rewrite zlen_xor_words in Hmax.
  rewrite !(ewah_each_bit_eq _ _ Hr), (ewah_each_bit_eq _ _ Hi), (ewah_each_bit_eq _ _ Hj)
    by (rewrite ?zlen_xor_words; lia).
  split_and!; [done..|]. intros p Hp. rewrite !positions_membership, xor_words_bits by done.
  destruct (wbit wi p), (wbit wj p); cbn; naive_solver.
Qed.

Lemma ewah_xor_bits_witness :
  ∃ out li lj lo, ewah_xor 20 sample_a sample_b ewah_new = Ret out ∧
    ewah_each_bit sample_a = Ret li ∧ ewah_each_bit sample_b = Ret lj ∧ ewah_each_bit out = Ret lo ∧
    ∀ p, 0 <= p → p ∈ lo ↔ (p ∈ li ∧ p ∉ lj) ∨ (p ∉ li ∧ p ∈ lj).
Proof.
  apply (ewah_xor_bits 20 sample_a sample_b [5] [EONES; EONES; 9]).
  - apply sample_a_repr.
  - apply sample_b_repr.
  - apply sample_a_small.
  - apply sample_b_small.
  - vm_compute. reflexivity.
  - vm_compute. reflexivity.
Defined.

(** C21. Round trip of the on-disk form: reading back what
    [ewah_serialize_strbuf] appended, followed by any other bytes, gives the same
    buffer, size and marker position, and consumes exactly the bytes written. *)
Theorem ewah_io_roundtrip self ws sb extra :
  repr self ws → 0 <= bit_size self < 2 ^ 32 → buffer_size self < 2 ^ 29 → bytes_ok extra →
  ∃ bytes n, ewah_serialize_strbuf self sb = Ret (sb ++ bytes, n) ∧
    ewah_read_mmap (bytes ++ extra) (zlen (bytes ++ extra)) =
      Ret (Some (Ewah_bitmap (buffer self) (buffer_size self) (bit_size self) (rlw self), zlen bytes)).
Proof.
  intros Hr Hb Hs He. eexists _, _. split; [apply serialize_strbuf_eq|].
  by eapply ewah_read_serialized.
Qed.

Lemma ewah_io_roundtrip_witness :
  ∃ bytes n, ewah_serialize_strbuf sample_b [1; 2] = Ret ([1; 2] ++ bytes, n) ∧
    ewah_read_mmap (bytes ++ [7]) (zlen (bytes ++ [7])) =
      Ret (Some (Ewah_bitmap (buffer sample_b) 2 192 0, zlen bytes)).
Proof.
  apply (ewah_io_roundtrip sample_b [EONES; EONES; 9] [1; 2] [7]).
  - apply sample_b_repr.
  - vm_compute. split; congruence.
  - vm_compute. reflexivity.
  - apply bytes_ok_dec. reflexivity.
Defined.

(** C31. A serialized bitmap that was cut short, at any byte, is rejected. *)
Theorem ewah_read_cut_short self ws k :
  repr self ws → 0 <= bit_size self < 2 ^ 32 → buffer_size self < 2 ^ 29 →
  0 <= k < 12 + 8 * buffer_size self →
  ∃ bytes n, ewah_serialize_strbuf self [] = Ret (bytes, n) ∧
    zlen bytes = 12 + 8 * buffer_size self ∧ ewah_read_mmap (ztake k bytes) k = Ret None.
Proof.
  intros Hr Hb Hs Hk. eexists _, _. split; [apply serialize_strbuf_eq|]. cbn [app].
  split; [apply zlen_serialized|]. eapply ewah_read_truncated; [done..|]. by rewrite zlen_serialized.
Qed.

Lemma ewah_read_cut_short_witness :
  ∃ bytes n, ewah_serialize_strbuf sample_b [] = Ret (bytes, n) ∧
    zlen bytes = 28 ∧ ewah_read_mmap (ztake 27 bytes) 27 = Ret None.
Proof.
  apply (ewah_read_cut_short sample_b [EONES; EONES; 9] 27).
  - apply sample_b_repr.
  - vm_compute. split; congruence.
  - vm_compute. reflexivity.
  - vm_compute. split; congruence.
Defined.

(** [bitmap_or_ewah] sets in the bitmap exactly the bits of the compressed
    one, growing it as needed. *)
Theorem bitmap_or_ewah_bits self e ws fuel :
  words_ok (words self) → repr e ws → zlen ws <= bit_size e / 64 + 1 → (length ws < fuel)%nat →
  returns (bitmap_or_ewah fuel self e) (λ m, words_ok (words m) ∧
    ∀ i, 0 <= i → returns (bitmap_get m i) (λ b, b = wbit (words self) i || wbit ws i)).
Proof.
  intros Hs Hr Hl Hf. eapply wp_mono; [|by apply (bitmap_or_ewah_wp self e ws fuel)].
  intros m [Hok Hm]. split; [done|]. intros i Hi. rewrite bitmap_get_eq by done. by apply Hm.
Qed.

Lemma bitmap_or_ewah_bits_witness :
  returns (bitmap_or_ewah 9 (Mk_bitmap [8]) sample_b) (λ m, words_ok (words m) ∧
    ∀ i, 0 <= i → returns (bitmap_get m i) (λ b, b = wbit [8] i || wbit [EONES; EONES; 9] i)).
Proof.
  apply (bitmap_or_ewah_bits (Mk_bitmap [8]) sample_b [EONES; EONES; 9] 9).
  - repeat constructor; vm_compute; congruence.
  - apply sample_b_repr.
  - vm_compute. congruence.
  - vm_compute. lia.
Defined.

(** The bit-parallel population counts are exact: for an uncompressed and
    for a compressed bitmap they return the number of positions that are set. *)
Theorem popcounts_exact fuel m e ws :
  words_ok (words m) → 64 * zlen (words m) < 2 ^ 64 →
  repr e ws → 64 * zlen ws < 2 ^ 64 → (length ws < fuel)%nat →
  bitmap_popcount m = zlen (positions (words m)) ∧
  ewah_bitmap_popcount fuel e = Ret (zlen (positions ws)).
Proof.
  intros Hm Hmax He Hmax' Hf. split; [by apply bitmap_popcount_count|by apply ewah_bitmap_popcount_count].
Qed.

Lemma popcounts_exact_witness :
  bitmap_popcount (Mk_bitmap [EONES; 7]) = zlen (positions [EONES; 7]) ∧
  ewah_bitmap_popcount 9 sample_b = Ret (zlen (positions [EONES; EONES; 9])).
Proof.
  apply (popcounts_exact 9 (Mk_bitmap [EONES; 7]) sample_b [EONES; EONES; 9]).
  - repeat constructor; vm_compute; congruence.
  - vm_compute. reflexivity.
  - apply sample_b_repr.
  - vm_compute. reflexivity.
  - vm_compute. lia.
Defined.

(** Comparing a compressed with an uncompressed bitmap is exact:
    [ewah_bitmap_is_subset] answers 1 exactly for subsets and
    [bitmap_equals_ewah] exactly for equal sets of bits. *)
Theorem ewah_comparisons_exact fuel e ws m :
  repr e ws → words_ok (words m) → (length ws < fuel)%nat →
  (∃ r, ewah_bitmap_is_subset fuel e m = Ret r ∧
    (r = 1 ↔ ∀ i, 0 <= i → wbit ws i = true → wbit (words m) i = true)) ∧
  returns (bitmap_equals_ewah fuel m e) (λ r, r = 1 ↔ ∀ i, 0 <= i → wbit (words m) i = wbit ws i).
Proof.
  intros Hr Hm Hf. split; [by apply ewah_bitmap_is_subset_bits|by apply bitmap_equals_ewah_bits].
Qed.

Lemma ewah_comparisons_exact_witness :
  (∃ r, ewah_bitmap_is_subset 9 sample_a (Mk_bitmap [7; 1]) = Ret r ∧
    (r = 1 ↔ ∀ i, 0 <= i → wbit [5] i = true → wbit [7; 1] i = true)) ∧
  returns (bitmap_equals_ewah 9 (Mk_bitmap [7; 1]) sample_a)
    (λ r, r = 1 ↔ ∀ i, 0 <= i → wbit [7; 1] i = wbit [5] i).
Proof.
  apply (ewah_comparisons_exact 9 sample_a [5] (Mk_bitmap [7; 1])).
  - apply sample_a_repr.
  - repeat constructor; vm_compute; congruence.
  - vm_compute. lia.
Defined.

(** The bitmap is a set of positions: [bitmap_set], [bitmap_unset],
    [bitmap_or] and [bitmap_and_not] change exactly the bits they should, as
    [bitmap_get] sees them. *)
Theorem bitmap_set_operations self other pos i :
  words_ok (words self) → words_ok (words other) → 0 <= pos → 0 <= i →
  returns (let! m := bitmap_set self pos in bitmap_get m i)
    (λ b, b = wbit (words self) i || (i =? pos)) ∧
  returns (let! m := bitmap_unset self pos in bitmap_get m i)
    (λ b, b = wbit (words self) i && negb (i =? pos)) ∧
  returns (let! m := bitmap_or self other in bitmap_get m i)
    (λ b, b = wbit (words self) i || wbit (words other) i) ∧
  bitmap_get (bitmap_and_not self other) i = Ret (wbit (words self) i && negb (wbit (words other) i)).
Proof.
  intros Hs Ho Hp Hi. split_and!.
  - apply wp_bind. eapply wp_mono; [|by apply bitmap_set_wp]. intros m [_ Hm].
    rewrite bitmap_get_eq by done. by apply Hm.
  - apply wp_bind. eapply wp_mono; [|by apply bitmap_unset_wp]. intros m [_ Hm].
    rewrite bitmap_get_eq by done. by apply Hm.
  - apply wp_bind. eapply wp_mono; [|by apply bitmap_or_wp]. intros m [_ Hm].
    rewrite bitmap_get_eq by done. by apply Hm.
  - rewrite bitmap_get_eq by done. by rewrite bitmap_and_not_bits.
Qed.

Lemma bitmap_set_operations_witness :
  returns (let! m := bitmap_set (Mk_bitmap [5]) 1000 in bitmap_get m 1000)
    (λ b, b = wbit [5] 1000 || (1000 =? 1000)) ∧
  returns (let! m := bitmap_unset (Mk_bitmap [5]) 1000 in bitmap_get m 1000)
    (λ b, b = wbit [5] 1000 && negb (1000 =? 1000)) ∧
  returns (let! m := bitmap_or (Mk_bitmap [5]) (Mk_bitmap [2; 1]) in bitmap_get m 1000)
    (λ b, b = wbit [5] 1000 || wbit [2; 1] 1000) ∧
  bitmap_get (bitmap_and_not (Mk_bitmap [5]) (Mk_bitmap [2; 1])) 1000 =
    Ret (wbit [5] 1000 && negb (wbit [2; 1] 1000)).
Proof.
  apply (bitmap_set_operations (Mk_bitmap [5]) (Mk_bitmap [2; 1]) 1000 1000).
  - repeat constructor; vm_compute; congruence.
  - repeat constructor; vm_compute; congruence.
  - vm_compute. congruence.
  - vm_compute. congruence.
Defined.

(** Despite its name, [bitmap_is_subset] answers 0 exactly when every bit of
    the first bitmap is set in the second. *)
Theorem bitmap_is_subset_inverted self other :
  words_ok (words self) → words_ok (words other) →
  bitmap_is_subset self other = 0 ↔
    ∀ i, 0 <= i → wbit (words self) i = true → wbit (words other) i = true.
Proof. apply bitmap_is_subset_bits. Qed.

Lemma bitmap_is_subset_inverted_witness :
  bitmap_is_subset (Mk_bitmap [1]) (Mk_bitmap [3; 1]) = 0 ↔
    ∀ i, 0 <= i → wbit [1] i = true → wbit [3; 1] i = true.
Proof.
  apply (bitmap_is_subset_inverted (Mk_bitmap [1]) (Mk_bitmap [3; 1]));
    repeat constructor; vm_compute; congruence.
Defined.

(** The invariant of the pool: at most [BITMAP_POOL_MAX] bitmaps, all empty. *)
Definition pool_ok (pool : list ewah_bitmap) : Prop :=
  zlen pool <= BITMAP_POOL_MAX ∧ Forall (λ b, repr b [] ∧ bit_size b = 0) pool.

Lemma ewah_clear_repr self : 0 <= alloc_size self → repr (ewah_clear self) [] ∧ bit_size (ewah_clear self) = 0.
Proof.
  intros Ha. split; [|done]. destruct ewah_new_repr as [(init & last & H) _].
  exists init, last. cbn [ewah_clear buffer rlw alloc_size]. naive_solver.
Qed.

(** The bitmap pool: freeing into it and allocating from it keep it within
    its 16 slots, and a bitmap that comes out of it, recycled or new, is empty. *)
Theorem ewah_pool_clean pool self :
  pool_ok pool → 0 <= alloc_size self →
  pool_ok (ewah_pool_free pool self) ∧
  let '(b, pool') := ewah_pool_new pool in pool_ok pool' ∧ repr b [] ∧ ewah_each_bit b = Ret [].
Proof.
  intros [Hlen Hall] Ha. split.
  - unfold ewah_pool_free. destruct (Z.eqb_spec (zlen pool) BITMAP_POOL_MAX); [done|].
    destruct (alloc_size self =? 0); [done|]. cbn [orb]. split.
    + rewrite zlen_app. change (zlen [_]) with 1. lia.
    + apply Forall_app. split; [done|]. constructor; [by apply ewah_clear_repr|constructor].
  - assert (Hnil : ∀ b, repr b [] → ewah_each_bit b = Ret []) by (intros b Hb; by rewrite (ewah_each_bit_eq b [])).
    unfold ewah_pool_new. destruct (last pool) as [b|] eqn:Hl.
    + apply last_Some in Hl as [pool' ->]. rewrite zlen_app. change (zlen [b]) with 1.
      rewrite Z.add_simpl_r, ztake_app_len. apply Forall_app in Hall as [Hall [[Hb _] _]%Forall_cons].
      rewrite zlen_app in Hlen. change (zlen [b]) with 1 in Hlen.
      split; [split; [lia|done]|]. split; [done|by apply Hnil].
    + destruct ewah_new_repr as [Hr _]. split; [done|]. split; [done|by apply Hnil].
Qed.

Lemma ewah_pool_clean_witness :
  pool_ok (ewah_pool_free [ewah_new] sample_b) ∧
  let '(b, pool') := ewah_pool_new [ewah_new] in pool_ok pool' ∧ repr b [] ∧ ewah_each_bit b = Ret [].
Proof.
  apply (ewah_pool_clean [ewah_new] sample_b); [|vm_compute; congruence].
  split; [vm_compute; congruence|]. constructor; [|constructor]. split; [apply ewah_new_repr|reflexivity].
Defined.

End BitmapTheorems.
