(* ===== verification/PrioQueue.v ===== *)
(** * Priority queues (prio-queue.c)

    A binary heap ordered by a comparison callback and, among equals, by the
    order of insertion; without a callback, a stack. *)
From stdpp Require Import prelude.
From S2P Require Import Prelude Order.

Module PrioQueue.

Section prio_queue.
Context {A : Type}.

Record prio_queue_entry := Entry { ctr : Z; data : A }.

(** [array] holds the [nr] entries in use. *)
Record prio_queue := Prio_queue {
  pq_compare : option (A → A → Z);
  insertion_ctr : Z;
  alloc : Z;
  array : list prio_queue_entry;
}.

Definition nr (q : prio_queue) : Z := zlen (array q).
Definition set_array (q : prio_queue) (a : list prio_queue_entry) : prio_queue :=
  Prio_queue (pq_compare q) (insertion_ctr q) (alloc q) a.

(** The order of two entries: the callback, then the counters. *)
Definition entry_cmp (cmp : A → A → Z) (x y : prio_queue_entry) : Z :=
  let c := cmp (data x) (data y) in
  if c =? 0 then Z.b2z (ctr y <? ctr x) - Z.b2z (ctr x <? ctr y) else c.

Definition compare (cmp : A → A → Z) (a : list prio_queue_entry) (i j : Z) : outcome Z :=
  let! x := rd a i in
  let! y := rd a j in
  Ret (entry_cmp cmp x y).

Definition swap (a : list prio_queue_entry) (i j : Z) : outcome (list prio_queue_entry) :=
  let! x := rd a i in
  let! y := rd a j in
  let! a := wr a j x in
  wr a i y.

(** [for (i = 0; i < (j = (queue->nr - 1) - i); i++) swap(queue, i, j)]. *)
Fixpoint reverse_loop (fuel : nat) (a : list prio_queue_entry) (i : Z) : outcome (list prio_queue_entry) :=
  match fuel with
  | O => NoFuel
  | S fuel =>
      let j := zlen a - 1 - i in
      if i <? j then
        let! a := swap a i j in
        reverse_loop fuel a (i + 1)
      else Ret a
  end.

Definition prio_queue_reverse (q : prio_queue) : outcome prio_queue :=
  match pq_compare q with
  | Some _ => Die
  | None =>
      if nr q =? 0 then Ret q
      else
        let! a := reverse_loop (length (array q)) (array q) 0 in
        Ret (set_array q a)
  end.

Definition clear_prio_queue (q : prio_queue) : prio_queue :=
  Prio_queue (pq_compare q) 0 0 [].

(** [for (ix = queue->nr - 1; ix; ix = parent)]. *)
Fixpoint bubble_up (fuel : nat) (cmp : A → A → Z) (a : list prio_queue_entry) (ix : Z)
  : outcome (list prio_queue_entry) :=
  match fuel with
  | O => NoFuel
  | S fuel =>
      if ix =? 0 then Ret a
      else
        let parent := (ix - 1) / 2 in
        let! c := compare cmp a parent ix in
        if c <=? 0 then Ret a
        else
          let! a := swap a parent ix in
          bubble_up fuel cmp a parent
  end.

Definition prio_queue_put (q : prio_queue) (thing : A) : outcome prio_queue :=
  let a := array q ++ [Entry (insertion_ctr q) thing] in
  let al := alloc_grow (nr q + 1) (alloc q) in
  let ct := u64 (insertion_ctr q + 1) in
  match pq_compare q with
  | None => Ret (Prio_queue None ct al a)
  | Some cmp =>
      let! a := bubble_up (length a) cmp a (zlen a - 1) in
      Ret (Prio_queue (Some cmp) ct al a)
  end.

(** [for (ix = 0; ix * 2 + 1 < queue->nr; ix = child)]. *)
Fixpoint push_down (fuel : nat) (cmp : A → A → Z) (a : list prio_queue_entry) (ix : Z)
  : outcome (list prio_queue_entry) :=
  match fuel with
  | O => NoFuel
  | S fuel =>
      if ix * 2 + 1 <? zlen a then
        let child := ix * 2 + 1 in
        let! use_right := (if child + 1 <? zlen a then
                         let! c := compare cmp a child (child + 1) in Ret (0 <=? c)
                       else Ret false) in
        let child := if use_right : bool then child + 1 else child in
        let! c := compare cmp a ix child in
        if c <=? 0 then Ret a
        else
          let! a := swap a child ix in
          push_down fuel cmp a child
      else Ret a
  end.

(** [None] is the NULL of an empty queue. *)
Definition prio_queue_get (q : prio_queue) : outcome (option A * prio_queue) :=
  if nr q =? 0 then Ret (None, q)
  else
    match pq_compare q with
    | None =>
        let! e := rd (array q) (nr q - 1) in
        Ret (Some (data e), set_array q (ztake (nr q - 1) (array q)))
    | Some cmp =>
        let! e := rd (array q) 0 in
        let n := nr q - 1 in
        if n =? 0 then Ret (Some (data e), set_array q [])
        else
          let! l := rd (array q) n in
          let! a := wr (array q) 0 l in
          let a := ztake n a in
          let! a := push_down (length a) cmp a 0 in
          Ret (Some (data e), set_array q a)
    end.

Definition prio_queue_peek (q : prio_queue) : outcome (option A) :=
  if nr q =? 0 then Ret None
  else
    match pq_compare q with
    | None => let! e := rd (array q) (nr q - 1) in Ret (Some (data e))
    | Some _ => let! e := rd (array q) 0 in Ret (Some (data e))
    end.

(** ** The order on entries *)
Section order.
Context (cmp : A → A → Z) `{!CmpOrder cmp}.

#[local] Instance entry_cmp_order : CmpOrder (entry_cmp cmp).
Proof using CmpOrder0.
  unfold entry_cmp. split.
  - intros [c x] [d y]. cbn. pose proof (cmp_flip x y). pose proof (cmp_flip y x).
    destruct (Z.eqb_spec (cmp x y) 0), (Z.eqb_spec (cmp y x) 0); try lia;
      destruct (Z.ltb_spec d c), (Z.ltb_spec c d); cbn; lia.
  - intros [c x] [d y] [e z]. cbn.
    pose proof (cmp_le_trans x y z). pose proof (cmp_lt_le_trans cmp x y z).
    pose proof (cmp_le_lt_trans cmp x y z).
    destruct (Z.eqb_spec (cmp x y) 0), (Z.eqb_spec (cmp y z) 0), (Z.eqb_spec (cmp x z) 0); try lia.
    + destruct (Z.ltb_spec d c), (Z.ltb_spec c d), (Z.ltb_spec e d), (Z.ltb_spec d e),
        (Z.ltb_spec e c), (Z.ltb_spec c e); cbn; lia.
Qed.

Definition ele (x y : prio_queue_entry) : Prop := entry_cmp cmp x y <= 0.

Lemma ele_trans x y z : ele x y → ele y z → ele x z.
Proof using CmpOrder0. apply cmp_le_trans. Qed.
Lemma ele_refl x : ele x x.
Proof using CmpOrder0. unfold ele. rewrite (cmp_refl (entry_cmp cmp)). lia. Qed.
Lemma ele_total x y : ¬ ele x y → ele y x.
Proof using CmpOrder0. unfold ele. pose proof (cmp_flip (cmp := entry_cmp cmp) y x). lia. Qed.

(** ** Heaps *)
Definition heap (a : list prio_queue_entry) : Prop :=
  ∀ i x y, 0 < i → znth a ((i - 1) / 2) = Some x → znth a i = Some y → ele x y.

(** A heap but for the entry at [ix], which may be too small for its place. *)
Definition heap_up (a : list prio_queue_entry) (ix : Z) : Prop :=
  (∀ i x y, 0 < i → i ≠ ix → znth a ((i - 1) / 2) = Some x → znth a i = Some y → ele x y) ∧
  (∀ c x y, 0 < ix → (c - 1) / 2 = ix → 0 < c → znth a ((ix - 1) / 2) = Some x → znth a c = Some y → ele x y).

(** A heap but for the entry at [ix], which may be too large for its place. *)
Definition heap_down (a : list prio_queue_entry) (ix : Z) : Prop :=
  (∀ i x y, 0 < i → (i - 1) / 2 ≠ ix → znth a ((i - 1) / 2) = Some x → znth a i = Some y → ele x y) ∧
  (∀ c x y, 0 < ix → (c - 1) / 2 = ix → 0 < c → znth a ((ix - 1) / 2) = Some x → znth a c = Some y → ele x y).

Lemma heap_min a x : heap a → znth a 0 = Some x → ∀ y, y ∈ a → ele x y.
Proof using CmpOrder0.
  intros Hh Hx y [k Hk]%list_elem_of_lookup. revert y Hk.
  induction k as [k IH] using lt_wf_ind. intros y Hk. rewrite <- znth_of_nat in Hk.
  destruct (decide (k = 0%nat)) as [->|].
  { change (Z.of_nat 0) with 0 in Hk. rewrite Hx in Hk. injection Hk as ->. apply ele_refl. }
  pose proof (znth_Some_lt _ _ _ Hk).
  destruct (znth_is_Some a ((Z.of_nat k - 1) / 2)) as [p Hp]; [Z.div_mod_to_equations; lia|].
  apply (ele_trans _ p); [|eapply Hh; [|exact Hp|exact Hk]; lia].
  apply (IH (Z.to_nat ((Z.of_nat k - 1) / 2))); [Z.div_mod_to_equations; lia|].
  rewrite <- znth_of_nat, Z2Nat.id by (Z.div_mod_to_equations; lia). done.
Qed.

Lemma compare_wp a i j x y :
  znth a i = Some x → znth a j = Some y → compare cmp a i j = Ret (entry_cmp cmp x y).
Proof. intros Hx Hy. unfold compare. by rewrite (rd_znth _ _ _ Hx), (rd_znth _ _ _ Hy). Qed.

(** What [swap] does, at every index. *)
Lemma swap_wp a i j x y :
  znth a i = Some x → znth a j = Some y → i ≠ j →
  ∃ a', swap a i j = Ret a' ∧ a' ≡ₚ a ∧ zlen a' = zlen a ∧
    ∀ k, znth a' k = if k =? i then Some y else if k =? j then Some x else znth a k.
Proof.
  intros Hx Hy Hij. pose proof (znth_Some_lt _ _ _ Hx). pose proof (znth_Some_lt _ _ _ Hy).
  unfold swap. rewrite (rd_znth _ _ _ Hx), (rd_znth _ _ _ Hy). cbn [obind].
  rewrite wr_ok by done. cbn [obind]. rewrite wr_ok by (by rewrite zlen_insert).
  eexists. split; [done|]. split_and!.
  - unfold znth in Hx, Hy. destruct (0 <=? i), (0 <=? j); try done.
    by apply Permutation_insert_swap.
  - by rewrite !zlen_insert.
  - intros k. destruct (Z.eqb_spec k i) as [->|]; [by rewrite znth_insert_eq by (by rewrite zlen_insert)|].
    rewrite znth_insert_ne by lia. destruct (Z.eqb_spec k j) as [->|]; [by rewrite znth_insert_eq|].
    by rewrite znth_insert_ne by lia.
Qed.

(** Decide the equality tests of [swap_wp] that [lia] can decide. *)
Ltac decide_eqb :=
  repeat match goal with
  | H : context [?a =? ?b] |- _ => destruct (Z.eqb_spec a b)
  end; simplify_eq; try (Z.div_mod_to_equations; lia).

Lemma bubble_up_wp fuel a ix :
  0 <= ix < zlen a → ix < Z.of_nat fuel → heap_up a ix →
  returns (bubble_up fuel cmp a ix) (λ a', a' ≡ₚ a ∧ heap a').
Proof using CmpOrder0.
  revert a ix. induction fuel as [|fuel IH]; intros a ix Hix Hfuel [Hh1 Hh2]; [lia|]. cbn [bubble_up].
  destruct (Z.eqb_spec ix 0) as [->|Hne].
  { cbn. split; [done|]. intros i x y Hi. apply Hh1; lia. }
  assert (0 <= (ix - 1) / 2 < ix) as Hpar by (Z.div_mod_to_equations; lia).
  destruct (znth_is_Some a ((ix - 1) / 2)) as [p Hp]; [lia|].
  destruct (znth_is_Some a ix) as [e He]; [lia|].
  rewrite (compare_wp _ _ _ _ _ Hp He). cbn [obind]. destruct (Z.leb_spec (entry_cmp cmp p e) 0) as [Hle|Hgt].
  { cbn. split; [done|]. intros i x y Hi Hx Hy. destruct (decide (i = ix)) as [->|]; [|by eapply Hh1].
    rewrite Hp in Hx. rewrite He in Hy. by simplify_eq. }
  assert (ele e p) as Hep by (apply ele_total; unfold ele; lia).
  destruct (swap_wp a ((ix - 1) / 2) ix p e Hp He ltac:(lia)) as (a' & -> & Hperm & Hlen & Hk). cbn [obind].
  eapply wp_mono; [|apply (IH a' ((ix - 1) / 2)); [lia|lia|]].
  { cbv beta. intros a2 [Hp2 Hh3]. split; [by rewrite Hp2|done]. }
  split.
  - intros i x y Hi Hne2 Hx Hy. rewrite Hk in Hx, Hy. decide_eqb; try done.
    + eapply ele_trans; [exact Hep|]. eapply (Hh1 i); [done..| |done]. congruence.
    + eapply (Hh2 i); done || lia.
    + by eapply Hh1.
  - intros c x y Hpos Hc Hc0 Hx Hy. rewrite Hk in Hx, Hy. decide_eqb; try done.
    + eapply Hh1; [| |exact Hx|exact Hp]; lia.
    + eapply ele_trans; [eapply Hh1; [| |exact Hx|exact Hp]; lia|]. eapply Hh1; [| |rewrite Hc; exact Hp|]; done.
Qed.

(** The child [push_down] compares with: the smaller of the two. *)
Definition pick_child (a : list prio_queue_entry) (ix : Z) : outcome Z :=
  let child := ix * 2 + 1 in
  let! use_right := (if child + 1 <? zlen a then
                       let! c := compare cmp a child (child + 1) in Ret (0 <=? c)
                     else Ret false) in
  Ret (if use_right : bool then child + 1 else child).

Lemma pick_child_wp a ix :
  0 <= ix → ix * 2 + 1 < zlen a →
  returns (pick_child a ix) (λ c, ix < c < zlen a ∧ (c - 1) / 2 = ix ∧
    ∃ e, znth a c = Some e ∧ ∀ i y, 0 < i → (i - 1) / 2 = ix → znth a i = Some y → ele e y).
Proof using CmpOrder0.
  intros Hix Hc. unfold pick_child.
  destruct (znth_is_Some a (ix * 2 + 1)) as [l Hl]; [lia|].
  assert (∀ i, 0 < i → (i - 1) / 2 = ix → i = ix * 2 + 1 ∨ i = ix * 2 + 1 + 1) as Hch
    by (intros; Z.div_mod_to_equations; lia).
  destruct (Z.ltb_spec (ix * 2 + 1 + 1) (zlen a)) as [Hr|Hr].
  - destruct (znth_is_Some a (ix * 2 + 1 + 1)) as [r Hr']; [lia|].
    rewrite (compare_wp _ _ _ _ _ Hl Hr'). cbn [obind wp].
    destruct (Z.leb_spec 0 (entry_cmp cmp l r)) as [Hle|Hgt].
    + split_and!; [lia|lia|Z.div_mod_to_equations; lia|]. exists r. split; [done|].
      intros i y Hi Hp Hy. destruct (Hch i Hi Hp) as [-> | ->].
      * assert (y = l) as -> by congruence. unfold ele.
        pose proof (cmp_flip (cmp := entry_cmp cmp) l r). pose proof (cmp_flip (cmp := entry_cmp cmp) r l). lia.
      * assert (y = r) as -> by congruence. apply ele_refl.
    + split_and!; [lia|lia|Z.div_mod_to_equations; lia|]. exists l. split; [done|].
      intros i y Hi Hp Hy. destruct (Hch i Hi Hp) as [-> | ->]; [|unfold ele].
      * assert (y = l) as -> by congruence. apply ele_refl.
      * assert (y = r) as -> by congruence. lia.
  - cbn [obind wp]. split_and!; [lia|lia|Z.div_mod_to_equations; lia|]. exists l. split; [done|].
    intros i y Hi Hp Hy. destruct (Hch i Hi Hp) as [-> | ->].
    + assert (y = l) as -> by congruence. apply ele_refl.
    + apply znth_Some_lt in Hy. lia.
Qed.

Lemma push_down_unfold fuel a ix :
  push_down (S fuel) cmp a ix =
    if ix * 2 + 1 <? zlen a then
      let! child := pick_child a ix in
      let! c := compare cmp a ix child in
      if c <=? 0 then Ret a
      else
        let! a := swap a child ix in
        push_down fuel cmp a child
    else Ret a.
Proof.
  cbn [push_down]. destruct (_ <? _); [|done]. unfold pick_child.
  destruct (if _ <? _ then _ else _) as [[]| | |]; done.
Qed.

Lemma push_down_wp fuel a ix :
  0 <= ix → Z.max 0 (zlen a - ix) < Z.of_nat fuel + 1 → (0 < fuel)%nat → heap_down a ix →
  returns (push_down fuel cmp a ix) (λ a', a' ≡ₚ a ∧ heap a').
Proof using CmpOrder0.
  revert a ix. induction fuel as [|fuel IH]; intros a ix Hix Hfuel Hf0 [Hh1 Hh2]; [lia|].
  rewrite push_down_unfold. destruct (Z.ltb_spec (ix * 2 + 1) (zlen a)) as [Hlt|Hge].
  2:{ cbn. split; [done|]. intros i x y Hi Hx Hy. apply (Hh1 i); try done.
      intros E. apply znth_Some_lt in Hy. Z.div_mod_to_equations; lia. }
  apply wp_bind. eapply wp_mono; [|by apply pick_child_wp].
  intros c (Hc & Hpc & e & He & Hmin). destruct (znth_is_Some a ix ltac:(lia)) as [p Hp].
  rewrite (compare_wp _ _ _ _ _ Hp He). cbn [obind]. destruct (Z.leb_spec (entry_cmp cmp p e) 0) as [Hle|Hgt].
  { cbn. split; [done|]. intros i x y Hi Hx Hy. destruct (decide ((i - 1) / 2 = ix)) as [E|]; [|by eapply Hh1].
    rewrite E, Hp in Hx. injection Hx as <-. eapply ele_trans; [exact Hle|]. by eapply Hmin. }
  assert (ele e p) as Hep by (apply ele_total; unfold ele; lia).
  destruct (swap_wp a c ix e p He Hp ltac:(lia)) as (a' & -> & Hperm & Hlen & Hk). cbn [obind].
  eapply wp_mono; [|apply (IH a' c); [lia|lia|lia|]].
  { cbv beta. intros a2 [Hp2 Hh3]. split; [by rewrite Hp2|done]. }
  split.
  - intros i x y Hi Hne2 Hx Hy. rewrite Hk in Hx, Hy.
    rewrite (proj2 (Z.eqb_neq ((i - 1) / 2) c)) in Hx by done.
    destruct (Z.eqb_spec ((i - 1) / 2) ix) as [E1|E1].
    + injection Hx as <-. destruct (Z.eqb_spec i c) as [E2|E2]; [by injection Hy as <-|].
      rewrite (proj2 (Z.eqb_neq i ix)) in Hy by (Z.div_mod_to_equations; lia). by eapply (Hmin i).
    + destruct (Z.eqb_spec i c) as [E2|E2]; [by subst i|].
      destruct (Z.eqb_spec i ix) as [->|]; [|by eapply Hh1].
      injection Hy as <-. eapply (Hh2 c); [lia|done|lia|done|done].
  - intros c' x y Hpos Hpc' Hc'0 Hx Hy. rewrite Hk in Hx, Hy. rewrite Hpc in Hx.
    rewrite (proj2 (Z.eqb_neq ix c)), Z.eqb_refl in Hx by lia. injection Hx as <-.
    rewrite (proj2 (Z.eqb_neq c' c)), (proj2 (Z.eqb_neq c' ix)) in Hy by (Z.div_mod_to_equations; lia).
    eapply (Hh1 c'); [done|lia| |done]. by rewrite Hpc'.
Qed.

(** ** Operations on a heap *)
Definition wf (q : prio_queue) : Prop := pq_compare q = Some cmp ∧ heap (array q).

Lemma put_wp q x :
  wf q → returns (prio_queue_put q x) (λ q', wf q' ∧
    array q' ≡ₚ Entry (insertion_ctr q) x :: array q ∧ insertion_ctr q' = u64 (insertion_ctr q + 1)).
Proof using CmpOrder0.
  intros [Hc Hh]. unfold prio_queue_put. rewrite Hc. set (e := Entry _ x).
  pose proof (zlen_nonneg (array q)).
  assert (zlen (array q ++ [e]) = zlen (array q) + 1) as El by (rewrite zlen_app; done).
  apply wp_bind. eapply wp_mono; [|apply (bubble_up_wp _ _ (zlen (array q ++ [e]) - 1))].
  - cbv beta. intros a [Hp Hha]. cbn [wp]. split; [split; [done|exact Hha]|]. split; [|done]. cbn [array]. by rewrite Hp, Permutation_app_comm.
  - lia.
  - unfold zlen. lia.
  - rewrite El. replace (zlen (array q) + 1 - 1) with (zlen (array q)) by lia. split.
    + intros i y z Hi Hne Hy Hz. pose proof (znth_Some_lt _ _ _ Hz) as Hb. rewrite El in Hb.
      rewrite znth_app_l in Hy, Hz by (Z.div_mod_to_equations; lia). by eapply Hh.
    + intros c y z Hpos Hpc Hc0 Hy Hz. apply znth_Some_lt in Hz. rewrite El in Hz.
      Z.div_mod_to_equations; lia.
Qed.

(** [prio_queue_get] takes out an entry no other entry sorts before. *)
Lemma get_wp q :
  wf q → returns (prio_queue_get q) (λ '(r, q'), wf q' ∧ insertion_ctr q' = insertion_ctr q ∧
    match r with
    | None => array q = [] ∧ q' = q
    | Some x => ∃ e, data e = x ∧ array q ≡ₚ e :: array q' ∧ ∀ y, y ∈ array q → ele e y
    end).
Proof using CmpOrder0.
  intros [Hc Hh]. unfold prio_queue_get, nr. pose proof (zlen_nonneg (array q)).
  destruct (Z.eqb_spec (zlen (array q)) 0) as [E|E].
  { cbn. split_and!; try done. destruct (array q); [done|]. rewrite zlen_cons in E.
    pose proof (zlen_nonneg l). lia. }
  rewrite Hc. apply wp_bind, rd_wp; [lia|]. intros e He.
  pose proof (heap_min _ _ Hh He) as Hmin.
  destruct (Z.eqb_spec (zlen (array q) - 1) 0) as [E1|E1].
  { cbn [wp]. split; [split; [done|]|split; [done|]].
    - intros i x y Hi Hx. apply znth_Some_lt in Hx. cbn [array set_array] in Hx. unfold zlen in Hx. cbn in Hx. lia.
    - exists e. split_and!; [done| |done].
      destruct (array q) as [|e' [|? l]]; [done|..].
      + injection He as ->. done.
      + rewrite !zlen_cons in E1. pose proof (zlen_nonneg l). lia. }
  apply wp_bind, rd_wp; [lia|]. intros l Hl. apply wp_bind, wr_wp; [lia|].
  destruct (array q) as [|e' rest] eqn:Ea; [done|]. injection He as ->.
  rewrite zlen_cons in *. change (<[Z.to_nat 0 := l]> (e :: rest)) with (l :: rest).
  replace (1 + zlen rest - 1) with (zlen rest) in * by lia.
  destruct rest as [|last rest' _] using rev_ind; [done|].
  assert (zlen (rest' ++ [last]) = zlen rest' + 1) as Er by (rewrite zlen_app; done). rewrite Er in *.
  pose proof (zlen_nonneg rest').
  assert (l = last) as ->.
  { change (e :: rest' ++ [last]) with ((e :: rest') ++ [last]) in Hl.
    rewrite znth_app_r in Hl by (rewrite zlen_cons; lia). rewrite zlen_cons in Hl.
    replace (zlen rest' + 1 - (1 + zlen rest')) with 0 in Hl by lia. by injection Hl. }
  assert (ztake (zlen rest' + 1) (last :: rest' ++ [last]) = last :: rest') as ->.
  { change (last :: rest' ++ [last]) with ((last :: rest') ++ [last]). apply ztake_app_len'. rewrite zlen_cons. lia. }
  apply wp_bind. eapply wp_mono; [|apply (push_down_wp _ (last :: rest') 0)].
  - cbv beta. intros a [Hp Hha]. cbn [wp]. split; [split; [done|exact Hha]|]. split; [done|].
    exists e. split_and!; [done| |done]. cbn [array set_array]. rewrite Hp. by rewrite Permutation_app_comm.
  - lia.
  - rewrite zlen_cons. cbn [length]. unfold zlen. lia.
  - cbn. lia.
  - split; [|lia]. intros i x y Hi Hne Hx Hy.
    assert (0 < (i - 1) / 2) by (Z.div_mod_to_equations; lia).
    assert (∀ k z, 0 < k → znth (last :: rest') k = Some z → znth (e :: rest' ++ [last]) k = Some z) as Hsame.
    { intros k z Hk Hz. pose proof (znth_Some_lt _ _ _ Hz) as Hb. rewrite zlen_cons in Hb.
      replace k with (1 + (k - 1)) in * by lia. revert Hz.
      rewrite <- !(znth_zdrop _ 1) by lia. change (zdrop 1 (last :: rest')) with rest'.
      change (zdrop 1 (e :: rest' ++ [last])) with (rest' ++ [last]). intros Hz. by rewrite znth_app_l by lia. }
    eapply Hh; [exact Hi|by apply Hsame|by apply Hsame].
Qed.

Lemma peek_get q :
  wf q → returns (prio_queue_peek q) (λ r, returns (prio_queue_get q) (λ '(r', _), r' = r)).
Proof using CmpOrder0.
  intros Hwf. pose proof (get_wp q Hwf) as Hget. destruct Hwf as [Hc _].
  unfold prio_queue_peek. unfold prio_queue_get in *. destruct (nr q =? 0); [done|]. rewrite Hc in *.
  destruct (rd (array q) 0) as [e| | |]; try done. cbn [obind wp] in *.
  destruct (nr q - 1 =? 0); [done|]. destruct (rd (array q) (nr q - 1)) as [l| | |]; try done. cbn [obind] in *.
  destruct (wr (array q) 0 l) as [a| | |]; try done. cbn [obind] in *.
  by destruct (push_down _ _ _ _).
Qed.

(** ** Emptying a queue *)
Fixpoint put_all (q : prio_queue) (xs : list A) : outcome prio_queue :=
  match xs with
  | [] => Ret q
  | x :: xs => let! q := prio_queue_put q x in put_all q xs
  end.

Fixpoint get_all (fuel : nat) (q : prio_queue) : outcome (list A) :=
  match fuel with
  | O => NoFuel
  | S fuel =>
      let! (r, q) := prio_queue_get q in
      match r with
      | None => Ret []
      | Some x => let! xs := get_all fuel q in Ret (x :: xs)
      end
  end.

(** [x] comes out before [y]: it sorts before it, or compares equal and was
    put in first. *)
Definition precedes (x y : prio_queue_entry) : Prop :=
  cmp (data x) (data y) < 0 ∨ cmp (data x) (data y) = 0 ∧ ctr x < ctr y.

Lemma ele_precedes x y : ele x y → ctr x ≠ ctr y → precedes x y.
Proof.
  unfold ele, entry_cmp, precedes. destruct (Z.eqb_spec (cmp (data x) (data y)) 0); [|lia].
  destruct (Z.ltb_spec (ctr y) (ctr x)), (Z.ltb_spec (ctr x) (ctr y)); cbn; lia.
Qed.

Fixpoint numbered (n : Z) (xs : list A) : list prio_queue_entry :=
  match xs with
  | [] => []
  | x :: xs => Entry n x :: numbered (n + 1) xs
  end.

Lemma put_all_wp xs : ∀ q, wf q → 0 <= insertion_ctr q → insertion_ctr q + zlen xs < 2 ^ 64 →
  returns (put_all q xs) (λ q', wf q' ∧ array q' ≡ₚ array q ++ numbered (insertion_ctr q) xs).
Proof using CmpOrder0.
  induction xs as [|x xs IH]; intros q Hwf Hc Hmax; cbn [put_all numbered].
  { cbn. by rewrite app_nil_r. }
  rewrite zlen_cons in Hmax. pose proof (zlen_nonneg xs).
  apply wp_bind. eapply wp_mono; [|by apply put_wp]. intros q1 (Hwf1 & Hp1 & Hc1).
  unfold u64 in Hc1. rewrite Z.mod_small in Hc1 by lia.
  eapply wp_mono; [|apply IH; [done|lia|lia]]. cbv beta. intros q2 [Hwf2 Hp2]. split; [done|].
  rewrite Hp2, Hp1, Hc1. apply Permutation_middle.
Qed.

Lemma get_all_wp fuel : ∀ q, wf q → NoDup (ctr <$> array q) → (length (array q) < fuel)%nat →
  returns (get_all fuel q) (λ ys, ∃ es, ys = data <$> es ∧ es ≡ₚ array q ∧ StronglySorted precedes es).
Proof using CmpOrder0.
  induction fuel as [|fuel IH]; intros q Hwf Hnd Hf; [lia|]. cbn [get_all].
  apply wp_bind. eapply wp_mono; [|by apply get_wp]. intros [[x|] q'] (Hwf' & _ & Hr).
  2:{ destruct Hr as [Hnil _]. cbn. exists []. rewrite Hnil. split_and!; [done..|constructor]. }
  destruct Hr as (e & <- & Hp & Hmin). rewrite Hp in Hnd. cbn [fmap list_fmap] in Hnd.
  apply NoDup_cons in Hnd as [Hni Hnd]. pose proof (Permutation_length Hp) as Hlen. cbn in Hlen.
  apply wp_bind. eapply wp_mono; [|apply IH; [done|done|lia]]. cbv beta. intros ys (es & -> & Hes & Hs).
  cbn. exists (e :: es). split_and!; [done|by rewrite Hes, Hp|]. constructor; [done|].
  apply Forall_forall. intros y Hy. rewrite Hes in Hy. apply ele_precedes.
  - apply Hmin. rewrite Hp. set_solver.
  - intros E. apply Hni. rewrite E. by apply list_elem_of_fmap_2.
Qed.

Lemma numbered_ctr n xs c : c ∈ ctr <$> numbered n xs → n <= c.
Proof.
  revert n. induction xs as [|x xs IH]; intros n; cbn; [set_solver|].
  intros [->|Hc]%elem_of_cons; [lia|]. apply IH in Hc. lia.
Qed.
Lemma numbered_NoDup n xs : NoDup (ctr <$> numbered n xs).
Proof.
  revert n. induction xs as [|x xs IH]; intros n; cbn; constructor; [|apply IH].
  intros Hc%numbered_ctr. lia.
Qed.

Lemma put_all_get_all xs fuel :
  zlen xs < 2 ^ 64 → (length xs < fuel)%nat →
  returns (let! q := put_all (Prio_queue (Some cmp) 0 0 []) xs in get_all fuel q) (λ ys,
    ∃ es, ys = data <$> es ∧ es ≡ₚ numbered 0 xs ∧ StronglySorted precedes es).
Proof using CmpOrder0.
  intros Hn Hf. apply wp_bind. eapply wp_mono; [|apply put_all_wp; [|done|done]].
  - cbv beta. intros q [Hwf Hp]. cbn [array insertion_ctr app] in Hp.
    eapply wp_mono; [|apply get_all_wp; [done| |]].
    + cbv beta. intros ys (es & -> & He & Hs). exists es. split_and!; [done|by rewrite He|done].
    + rewrite Hp. apply numbered_NoDup.
    + rewrite Hp. replace (length (numbered 0 xs)) with (length xs); [done|].
      generalize 0. clear. induction xs as [|x xs IH]; intros n; [done|]. cbn. by rewrite <- IH.
  - split; [done|]. intros i x y Hi Hx. apply znth_Some_lt in Hx. unfold zlen in Hx. cbn in Hx. lia.
Qed.
End order.

(** ** The stack *)
Lemma lifo_put_get q x :
  pq_compare q = None → ∃ q', prio_queue_put q x = Ret q' ∧
    prio_queue_get q' = Ret (Some x, Prio_queue None (insertion_ctr q') (alloc q') (array q)).
Proof.
  intros Hc. unfold prio_queue_put. rewrite Hc. eexists. split; [done|].
  unfold prio_queue_get, nr. cbn [array pq_compare]. rewrite zlen_app. change (zlen [_]) with 1.
  pose proof (zlen_nonneg (array q)). rewrite (proj2 (Z.eqb_neq (zlen (array q) + 1) 0)) by lia.
  replace (zlen (array q) + 1 - 1) with (zlen (array q)) by lia.
  rewrite (rd_znth _ _ _ (znth_app_len _ _ _)). cbn [obind data]. unfold set_array.
  cbn [pq_compare insertion_ctr alloc]. by rewrite ztake_app_len.
Qed.

(** After [i] swaps the outer [i] entries on each side have changed places. *)
Lemma reverse_loop_wp fuel l m r :
  zlen l = zlen r → (length m < 2 * fuel)%nat →
  reverse_loop fuel (l ++ m ++ r) (zlen l) = Ret (l ++ reverse m ++ r).
Proof.
  revert l m r. induction fuel as [|fuel IH]; intros l m r Hl Hf; [lia|]. cbn [reverse_loop].
  pose proof (zlen_nonneg l). rewrite !zlen_app.
  destruct m as [|x m].
  { change (zlen (@nil prio_queue_entry)) with 0. eval_ltb (zlen l) (zlen l + (0 + zlen r) - 1 - zlen l). done. }
  destruct m as [|y m _] using rev_ind.
  { change (zlen [x]) with 1. eval_ltb (zlen l) (zlen l + (1 + zlen r) - 1 - zlen l). done. }
  pose proof (zlen_nonneg m).
  assert (zlen (x :: m ++ [y]) = zlen m + 2) as Em by (rewrite zlen_cons, zlen_app; change (zlen [y]) with 1; lia).
  rewrite Em. eval_ltb (zlen l) (zlen l + (zlen m + 2 + zlen r) - 1 - zlen l).
  set (j := zlen l + (zlen m + 2 + zlen r) - 1 - zlen l).
  assert (znth (l ++ (x :: m ++ [y]) ++ r) (zlen l) = Some x) as Hx by apply znth_app_len.
  assert (l ++ (x :: m ++ [y]) ++ r = (l ++ x :: m) ++ y :: r) as Ey.
  { by rewrite <- app_assoc, app_comm_cons, <- app_assoc. }
  assert (j = zlen (l ++ x :: m)) as Ej by (rewrite zlen_app, zlen_cons; unfold j; lia).
  assert (znth (l ++ (x :: m ++ [y]) ++ r) j = Some y) as Hy by (rewrite Ey, Ej; apply znth_app_len).
  unfold swap. rewrite (rd_znth _ _ _ Hx), (rd_znth _ _ _ Hy). cbn [obind].
  rewrite wr_ok by (by apply znth_Some_lt in Hy). cbn [obind].
  assert (<[Z.to_nat j := x]> (l ++ (x :: m ++ [y]) ++ r) = l ++ x :: (m ++ x :: r)) as ->.
  { rewrite Ey, Ej. unfold zlen. rewrite Nat2Z.id, insert_app_r_alt, Nat.sub_diag by lia. cbn.
    by rewrite <- app_assoc. }
  rewrite wr_ok by (rewrite zlen_app, zlen_cons; pose proof (zlen_nonneg (m ++ x :: r)); lia). cbn [obind].
  assert (<[Z.to_nat (zlen l) := y]> (l ++ x :: m ++ x :: r) = (l ++ [y]) ++ m ++ (x :: r)) as ->.
  { unfold zlen. rewrite Nat2Z.id, insert_app_r_alt, Nat.sub_diag by lia. cbn. by rewrite <- app_assoc. }
  replace (zlen l + 1) with (zlen (l ++ [y])) by (rewrite zlen_app; done).
  rewrite IH.
  - change (x :: m ++ [y]) with ([x] ++ m ++ [y]). rewrite !reverse_app, <- !app_assoc. done.
  - rewrite zlen_app, !zlen_cons, zlen_nil, Hl. lia.
  - cbn in Hf. rewrite length_app in Hf. cbn in Hf. lia.
Qed.

Lemma reverse_wp q :
  pq_compare q = None → prio_queue_reverse q = Ret (set_array q (reverse (array q))).
Proof.
  intros Hc. unfold prio_queue_reverse, nr. rewrite Hc. destruct (Z.eqb_spec (zlen (array q)) 0) as [E|E].
  - destruct (array q) as [|e l] eqn:Ea.
    + unfold set_array. destruct q; cbn in *. by subst.
    + rewrite zlen_cons in E. pose proof (zlen_nonneg l). lia.
  - pose proof (reverse_loop_wp (length (array q)) [] (array q) []) as H. cbn [app] in H.
    change (zlen (@nil prio_queue_entry)) with 0 in H. rewrite !app_nil_r in H.
    rewrite H; [done|done|]. destruct (array q); [done|]. cbn. lia.
Qed.

End prio_queue.
End PrioQueue.
