(* ===== verification/Hashmap.v ===== *)
(** * The intrusive hash table (hashmap.c, hashmap.h)

    Entries are cells of an explicit heap linked through their [next] fields,
    so that the pointer surgery of insertion, removal and rehashing is the
    subject of the proofs.  The abstract state of a table is the list of the
    entries of each bucket. *)
From stdpp Require Import prelude gmap.
From S2P Require Import Prelude Order.

Module Hashmap.

(** ** FNV-1 hashing *)
Definition FNV32_BASE : Z := 0x811c9dc5.
Definition FNV32_PRIME : Z := 0x01000193.

Definition fnv_step (hash c : Z) : Z := Z.lxor (u32 (hash * FNV32_PRIME)) c.

(** [if (c >= 'a' && c <= 'z') c -= 'a' - 'A']. *)
Definition fold_case (c : Z) : Z := if (97 <=? c) && (c <=? 122) then c - 32 else c.

(** A C string is its bytes, the terminating NUL included; running off the
    buffer is undefined. *)
Fixpoint strhash_loop (str : list Z) (hash : Z) : outcome Z :=
  match str with
  | [] => UB
  | c :: str => if c =? 0 then Ret hash else strhash_loop str (fnv_step hash c)
  end.
Definition strhash (str : list Z) : outcome Z := strhash_loop str FNV32_BASE.

Fixpoint strihash_loop (str : list Z) (hash : Z) : outcome Z :=
  match str with
  | [] => UB
  | c :: str => if c =? 0 then Ret hash else strihash_loop str (fnv_step hash (fold_case c))
  end.
Definition strihash (str : list Z) : outcome Z := strihash_loop str FNV32_BASE.

Fixpoint memhash_loop (ucbuf : list Z) (hash : Z) : Z :=
  match ucbuf with
  | [] => hash
  | c :: ucbuf => memhash_loop ucbuf (fnv_step hash c)
  end.
Definition memhash (buf : list Z) (len : Z) : outcome Z :=
  let! b := rd_range buf 0 len in Ret (memhash_loop b FNV32_BASE).

Fixpoint memihash_loop (ucbuf : list Z) (hash : Z) : Z :=
  match ucbuf with
  | [] => hash
  | c :: ucbuf => memihash_loop ucbuf (fnv_step hash (fold_case c))
  end.
Definition memihash (buf : list Z) (len : Z) : outcome Z :=
  let! b := rd_range buf 0 len in Ret (memihash_loop b FNV32_BASE).
Definition memihash_cont (hash_seed : Z) (buf : list Z) (len : Z) : outcome Z :=
  let! b := rd_range buf 0 len in Ret (memihash_loop b hash_seed).

(** ** The table *)
Definition HASHMAP_INITIAL_SIZE : Z := 64.
Definition HASHMAP_RESIZE_BITS : Z := 2.
Definition HASHMAP_LOAD_FACTOR : Z := 80.

Section hashmap.
(** [A] is the structure that contains the entry, [K] the caller's key data. *)
Context {A K : Type}.

(** Pointers are [Z], 0 is NULL. *)
Record hashmap_entry := Hashmap_entry { next : Z; hash : Z; data : A }.
Abbreviation heap := (gmap Z hashmap_entry).

Definition set_next (n : hashmap_entry) (p : Z) : hashmap_entry :=
  Hashmap_entry p (hash n) (data n).

Definition hashmap_cmp_fn : Type := A → A → option K → Z.

Record hashmap := Hashmap {
  table : option (list Z);
  cmpfn : option hashmap_cmp_fn;
  private_size : Z;
  tablesize : Z;
  grow_at : Z;
  shrink_at : Z;
  do_count_items : bool;
}.

Definition set_table (map : hashmap) (t : list Z) : hashmap :=
  Hashmap (Some t) (cmpfn map) (private_size map) (tablesize map) (grow_at map) (shrink_at map)
    (do_count_items map).
Definition set_size (map : hashmap) (n : Z) : hashmap :=
  Hashmap (table map) (cmpfn map) n (tablesize map) (grow_at map) (shrink_at map) (do_count_items map).

(** A dereference; a dangling or NULL pointer is undefined behaviour. *)
Definition load (h : heap) (p : Z) : outcome hashmap_entry :=
  match h !! p with Some n => Ret n | None => UB end.

(** [HASHMAP_INIT(fn, data)]. *)
Definition HASHMAP_INIT (fn : hashmap_cmp_fn) : hashmap := Hashmap None (Some fn) 0 0 0 0 true.

Definition hashmap_entry_init (h : heap) (e hash : Z) : outcome heap :=
  let! n := load h e in
  Ret (<[e := Hashmap_entry 0 hash (data n)]> h).

Definition alloc_table (map : hashmap) (size : Z) : hashmap :=
  let grow_at := u32 (u64 (size * HASHMAP_LOAD_FACTOR) / 100) in
  let shrink_at := if size <=? HASHMAP_INITIAL_SIZE then 0
                   else grow_at / (Z.shiftl 1 HASHMAP_RESIZE_BITS + 1) in
  Hashmap (Some (zrep size 0)) (cmpfn map) (private_size map) size grow_at shrink_at
    (do_count_items map).

Definition entry_equals (h : heap) (map : hashmap) (e1 e2 : Z) (keydata : option K) : outcome bool :=
  if e1 =? e2 then Ret true
  else
    let! n1 := load h e1 in
    let! n2 := load h e2 in
    if hash n1 =? hash n2 then
      match cmpfn map with
      | Some f => Ret (f (data n1) (data n2) keydata =? 0)
      | None => UB
      end
    else Ret false.

Definition bucket_of (size hash : Z) : Z := Z.land hash (u32 (size - 1)).
Definition bucket (h : heap) (map : hashmap) (key : Z) : outcome Z :=
  let! n := load h key in
  Ret (bucket_of (tablesize map) (hash n)).
Definition hashmap_bucket (map : hashmap) (hash : Z) : Z := i32 (bucket_of (tablesize map) hash).

(** [map->table[b]]; a table that is NULL is undefined behaviour. *)
Definition the_table (map : hashmap) : outcome (list Z) :=
  match table map with Some t => Ret t | None => UB end.

(** The [while (e)] loop of [rehash] on one chain. *)
Fixpoint rehash_chain (fuel : nat) (h : heap) (map : hashmap) (e : Z) : outcome (heap * hashmap) :=
  match fuel with
  | O => NoFuel
  | S fuel =>
      if e =? 0 then Ret (h, map)
      else
        let! n := load h e in
        let next := next n in
        let! b := bucket h map e in
        let! t := the_table map in
        let! first := rd t b in
        let h := <[e := set_next n first]> h in
        let! t := wr t b e in
        rehash_chain fuel h (set_table map t) next
  end.

(** The [for] loop over the old table. *)
Fixpoint rehash_table (h : heap) (map : hashmap) (oldtable : list Z) : outcome (heap * hashmap) :=
  match oldtable with
  | [] => Ret (h, map)
  | e :: oldtable =>
      let! (h, map) := rehash_chain (S (size h)) h map e in
      rehash_table h map oldtable
  end.

Definition rehash (h : heap) (map : hashmap) (newsize : Z) : outcome (heap * hashmap) :=
  let! oldtable := the_table map in
  let! oldtable := rd_range oldtable 0 (tablesize map) in
  rehash_table h (alloc_table map newsize) oldtable.

(** A [struct hashmap_entry **]: the head of a bucket or the [next] field of an entry. *)
Inductive slot := Bucket (b : Z) | Next_of (e : Z).

Definition load_slot (h : heap) (t : list Z) (s : slot) : outcome Z :=
  match s with
  | Bucket b => rd t b
  | Next_of e => let! n := load h e in Ret (next n)
  end.

Definition store_slot (h : heap) (t : list Z) (s : slot) (p : Z) : outcome (heap * list Z) :=
  match s with
  | Bucket b => let! t := wr t b p in Ret (h, t)
  | Next_of e => let! n := load h e in Ret (<[e := set_next n p]> h, t)
  end.

Fixpoint find_loop (fuel : nat) (h : heap) (map : hashmap) (t : list Z) (key : Z) (keydata : option K)
    (s : slot) : outcome slot :=
  match fuel with
  | O => NoFuel
  | S fuel =>
      let! e := load_slot h t s in
      if e =? 0 then Ret s
      else
        let! eq := entry_equals h map e key keydata in
        if eq then Ret s else find_loop fuel h map t key keydata (Next_of e)
  end.

Definition find_entry_ptr (h : heap) (map : hashmap) (key : Z) (keydata : option K) : outcome slot :=
  let! t := the_table map in
  let! b := bucket h map key in
  find_loop (S (size h)) h map t key keydata (Bucket b).

Definition always_equal : hashmap_cmp_fn := λ _ _ _, 0.

(** [while (initial_size > size) size <<= HASHMAP_RESIZE_BITS]. *)
Fixpoint init_size_loop (fuel : nat) (initial_size size : Z) : outcome Z :=
  match fuel with
  | O => NoFuel
  | S fuel =>
      if size <? initial_size
      then init_size_loop fuel initial_size (u32 (Z.shiftl size HASHMAP_RESIZE_BITS))
      else Ret size
  end.

Definition hashmap_init (fuel : nat) (equals_function : option hashmap_cmp_fn) (initial_size : Z)
  : outcome hashmap :=
  let map := Hashmap None (Some (default always_equal equals_function)) 0 0 0 0 false in
  let initial_size := u32 (u64 (initial_size * 100) / HASHMAP_LOAD_FACTOR) in
  let! size := init_size_loop fuel initial_size HASHMAP_INITIAL_SIZE in
  let map := alloc_table map size in
  Ret (Hashmap (table map) (cmpfn map) (private_size map) (tablesize map) (grow_at map)
         (shrink_at map) true).

(** ** Iteration *)
Record hashmap_iter := Hashmap_iter { it_map : hashmap; it_next : Z; tablepos : Z }.

Definition hashmap_iter_init (map : hashmap) : hashmap_iter := Hashmap_iter map 0 0.

(** The [for (;;)] loop, with [current] as its variable. *)
Fixpoint iter_next_loop (fuel : nat) (h : heap) (it : hashmap_iter) (current : Z)
  : outcome (Z * hashmap_iter) :=
  match fuel with
  | O => NoFuel
  | S fuel =>
      if negb (current =? 0) then
        let! n := load h current in
        Ret (current, Hashmap_iter (it_map it) (next n) (tablepos it))
      else if tablesize (it_map it) <=? tablepos it then Ret (0, it)
      else
        let! t := the_table (it_map it) in
        let! current := rd t (tablepos it) in
        iter_next_loop fuel h (Hashmap_iter (it_map it) (it_next it) (tablepos it + 1)) current
  end.

Definition hashmap_iter_next (h : heap) (it : hashmap_iter) : outcome (Z * hashmap_iter) :=
  iter_next_loop (S (S (Z.to_nat (tablesize (it_map it) - tablepos it)))) h it (it_next it).

Definition hashmap_iter_first (h : heap) (map : hashmap) : outcome (Z * hashmap_iter) :=
  hashmap_iter_next h (hashmap_iter_init map).

(** [free] of an entry: its cell is gone, a second [free] is undefined. *)
Definition free_entry (h : heap) (e : Z) : outcome heap :=
  match h !! e with Some _ => Ret (delete e h) | None => UB end.

Fixpoint free_loop (fuel : nat) (h : heap) (it : hashmap_iter) : outcome heap :=
  match fuel with
  | O => NoFuel
  | S fuel =>
      let! (e, it) := hashmap_iter_next h it in
      if e =? 0 then Ret h
      else let! h := free_entry h e in free_loop fuel h it
  end.

Definition free_individual_entries (h : heap) (map : hashmap) : outcome heap :=
  free_loop (S (size h)) h (hashmap_iter_init map).

Definition hashmap_partial_clear_ (h : heap) (map : hashmap) (entry_offset : Z)
  : outcome (heap * hashmap) :=
  match table map with
  | None => Ret (h, map)
  | Some t =>
      let! h := (if 0 <=? entry_offset then free_individual_entries h map else Ret h) in
      let! t := memcpy t 0 (zrep (tablesize map) 0) in
      Ret (h, Hashmap (Some t) (cmpfn map) 0 (tablesize map) (grow_at map) 0 (do_count_items map))
  end.

Definition hashmap_clear_ (h : heap) (map : hashmap) (entry_offset : Z) : outcome (heap * hashmap) :=
  match table map with
  | None => Ret (h, map)
  | Some _ =>
      let! h := (if 0 <=? entry_offset then free_individual_entries h map else Ret h) in
      Ret (h, Hashmap None None 0 0 0 0 false)
  end.

Definition hashmap_get_size (map : hashmap) : outcome Z :=
  if do_count_items map then Ret (private_size map) else Die.

(** ** Lookup and update *)
Definition hashmap_get (h : heap) (map : hashmap) (key : Z) (keydata : option K) : outcome Z :=
  match table map with
  | None => Ret 0
  | Some t => let! s := find_entry_ptr h map key keydata in load_slot h t s
  end.

Definition hashmap_get_from_hash (h : heap) (map : hashmap) (key_cell : Z) (hash : Z)
    (keydata : option K) : outcome Z :=
  let! h := hashmap_entry_init h key_cell hash in
  hashmap_get h map key_cell keydata.

Fixpoint get_next_loop (fuel : nat) (h : heap) (map : hashmap) (entry e : Z) : outcome Z :=
  match fuel with
  | O => NoFuel
  | S fuel =>
      if e =? 0 then Ret 0
      else
        let! eq := entry_equals h map entry e None in
        if eq then Ret e
        else let! n := load h e in get_next_loop fuel h map entry (next n)
  end.
Definition hashmap_get_next (h : heap) (map : hashmap) (entry : Z) : outcome Z :=
  let! n := load h entry in
  get_next_loop (S (size h)) h map entry (next n).

Definition hashmap_add (h : heap) (map : hashmap) (entry : Z) : outcome (heap * hashmap) :=
  let map := match table map with
             | None => alloc_table map HASHMAP_INITIAL_SIZE
             | Some _ => map
             end in
  let! b := bucket h map entry in
  let! t := the_table map in
  let! first := rd t b in
  let! n := load h entry in
  let h := <[entry := set_next n first]> h in
  let! t := wr t b entry in
  let map := set_table map t in
  if do_count_items map then
    let map := set_size map (u32 (private_size map + 1)) in
    if grow_at map <? private_size map
    then rehash h map (u32 (Z.shiftl (tablesize map) HASHMAP_RESIZE_BITS))
    else Ret (h, map)
  else Ret (h, map).

Definition hashmap_remove (h : heap) (map : hashmap) (key : Z) (keydata : option K)
  : outcome (Z * heap * hashmap) :=
  match table map with
  | None => Ret (0, h, map)
  | Some t =>
      let! e := find_entry_ptr h map key keydata in
      let! old := load_slot h t e in
      if old =? 0 then Ret (0, h, map)
      else
        let! n := load h old in
        let! (h, t) := store_slot h t e (next n) in
        let! n := load h old in
        let h := <[old := set_next n 0]> h in
        let map := set_table map t in
        if do_count_items map then
          let map := set_size map (u32 (private_size map - 1)) in
          if private_size map <? shrink_at map then
            let! (h, map) := rehash h map (Z.shiftr (tablesize map) HASHMAP_RESIZE_BITS) in
            Ret (old, h, map)
          else Ret (old, h, map)
        else Ret (old, h, map)
  end.

Definition hashmap_put (h : heap) (map : hashmap) (entry : Z) : outcome (Z * heap * hashmap) :=
  let! (old, h, map) := hashmap_remove h map entry None in
  let! (h, map) := hashmap_add h map entry in
  Ret (old, h, map).

(** All entries an iteration visits, in order. *)
Fixpoint drain_iter (fuel : nat) (h : heap) (it : hashmap_iter) : outcome (list Z) :=
  match fuel with
  | O => NoFuel
  | S fuel =>
      let! (e, it) := hashmap_iter_next h it in
      if e =? 0 then Ret []
      else let! rest := drain_iter fuel h it in Ret (e :: rest)
  end.

(** ** Chains *)

(** The cells reached from [p] through [next] are [l]. *)
Fixpoint chain (h : heap) (p : Z) (l : list Z) : Prop :=
  match l with
  | [] => p = 0
  | q :: l => p = q ∧ q ≠ 0 ∧ ∃ n, h !! q = Some n ∧ chain h (next n) l
  end.

Lemma chain_frame h h' p l : (∀ q, q ∈ l → h' !! q = h !! q) → chain h p l → chain h' p l.
Proof.
  revert p. induction l as [|q l IH]; intros p Hq; [done|].
  intros (-> & H0 & n & Hn & Hc). split_and!; [done..|]. exists n.
  rewrite Hq by set_solver. split; [done|]. apply IH; set_solver.
Qed.

Lemma chain_nonnull h p l : chain h p l → 0 ∉ l.
Proof.
  revert p. induction l as [|q l IH]; intros p; [set_solver|].
  intros (-> & H0 & n & Hn & Hc%IH). set_solver.
Qed.

Lemma chain_live h p l q : chain h p l → q ∈ l → is_Some (h !! q).
Proof.
  revert p. induction l as [|r l IH]; intros p; [set_solver|].
  intros (-> & H0 & n & Hn & Hc) [->|Hq]%elem_of_cons; [by eexists|]. by eapply IH.
Qed.

Lemma chain_length h p l : NoDup l → chain h p l → (length l <= size h)%nat.
Proof.
  intros Hnd Hc. rewrite <- size_dom.
  rewrite <- (size_list_to_set (C := gset Z) l) by done.
  apply subseteq_size. intros q Hq%elem_of_list_to_set.
  apply elem_of_dom. by eapply chain_live.
Qed.

(** The user-visible part of a cell: everything but [next]. *)
Definition info (h : heap) (q : Z) : option (Z * A) := (λ n, (hash n, data n)) <$> h !! q.
Definition same_info (h h' : heap) : Prop := ∀ q, info h' q = info h q.

#[local] Instance same_info_preorder : PreOrder same_info.
Proof. split; [done|]. intros h1 h2 h3 H12 H23 q. by rewrite H23, H12. Qed.

Lemma same_info_next h e n p : h !! e = Some n → same_info h (<[e := set_next n p]> h).
Proof.
  intros Hn q. unfold info. destruct (decide (q = e)) as [->|].
  - by rewrite lookup_insert_eq, Hn.
  - by rewrite lookup_insert_ne.
Qed.

(** Two heaps agree on everything but the cells [l]. *)
Definition frame (l : list Z) (h h' : heap) : Prop := ∀ q, q ∉ l → h' !! q = h !! q.

(** ** Tables *)
Definition pow_size (sz : Z) : Prop := ∃ j, 0 <= j <= 12 ∧ sz = 64 * 4 ^ j.

Lemma pow_size_pow2 sz : pow_size sz → ∃ k, 6 <= k <= 30 ∧ sz = 2 ^ k.
Proof.
  intros (j & Hj & ->). exists (6 + 2 * j). split; [lia|].
  rewrite Z.pow_add_r, Z.pow_mul_r by lia. done.
Qed.
Lemma pow_size_range sz : pow_size sz → 64 <= sz <= 2 ^ 30.
Proof.
  intros (k & Hk & ->)%pow_size_pow2. split.
  - apply (Z.pow_le_mono_r 2 6 k); lia.
  - apply Z.pow_le_mono_r; lia.
Qed.

Lemma bucket_range sz x : pow_size sz → 0 <= bucket_of sz x < sz.
Proof.
  intros Hsz. pose proof (pow_size_range _ Hsz). destruct (pow_size_pow2 _ Hsz) as (k & Hk & ->).
  unfold bucket_of, u32. rewrite Z.mod_small by lia.
  rewrite (land_ones_mod x k) by (rewrite ?Z.ones_equiv; lia). apply Z.mod_pos_bound. lia.
Qed.

(** The table [t] of [sz] buckets holds the chains [cs], each entry in the
    bucket of its hash code. *)
Record tbl (h : heap) (t : list Z) (sz : Z) (cs : list (list Z)) : Prop := Tbl {
  tbl_len : zlen t = sz;
  tbl_chains : Forall2 (chain h) t cs;
  tbl_nodup : NoDup (concat cs);
  tbl_home : ∀ b l p n, cs !! b = Some l → p ∈ l → h !! p = Some n →
    bucket_of sz (hash n) = Z.of_nat b;
}.

Lemma concat_update {B} (cs : list (list B)) b l l' : cs !! b = Some l →
  ∃ rest, concat cs ≡ₚ l ++ rest ∧ concat (<[b := l']> cs) ≡ₚ l' ++ rest.
Proof.
  intros Hb. exists (concat (take b cs) ++ concat (drop (S b) cs)).
  rewrite insert_take_drop by by eapply lookup_lt_Some.
  rewrite <- (take_drop_middle cs b l Hb) at 1. rewrite !concat_app. cbn [concat].
  split; solve_Permutation.
Qed.

Lemma elem_of_concat_lookup {B} (cs : list (list B)) x : x ∈ concat cs ↔ ∃ b l, cs !! b = Some l ∧ x ∈ l.
Proof.
  rewrite list_elem_of_In, in_concat. setoid_rewrite <- list_elem_of_In. split.
  - intros (l & [b Hb]%list_elem_of_lookup & Hx). eauto.
  - intros (b & l & Hb & Hx). exists l. split; [|done]. by eapply list_elem_of_lookup_2.
Qed.

Lemma chains_frame h h' t cs :
  (∀ q, q ∈ concat cs → h' !! q = h !! q) → Forall2 (chain h) t cs → Forall2 (chain h') t cs.
Proof.
  intros Hq Hc. apply Forall2_same_length_lookup in Hc as [Hlen Hc].
  apply Forall2_same_length_lookup. split; [done|]. intros i p l Hp Hl.
  eapply chain_frame; [|by eapply Hc]. intros q Hin. apply Hq. apply elem_of_concat_lookup. eauto.
Qed.

(** Replace the chain of one bucket. *)
Lemma tbl_update h h' t sz cs b l l' p :
  tbl h t sz cs → cs !! b = Some l → frame (l ++ l') h h' → same_info h h' → chain h' p l' →
  NoDup (concat (<[b := l']> cs)) →
  (∀ q n, q ∈ l' → h' !! q = Some n → bucket_of sz (hash n) = Z.of_nat b) →
  tbl h' (<[b := p]> t) sz (<[b := l']> cs).
Proof.
  intros [Hlen Hc Hnd Hhome] Hb Hf Hi Hp Hnd' Hh.
  assert (Hlt := lookup_lt_Some _ _ _ Hb). pose proof (Forall2_length _ _ _ Hc) as Hl.
  assert (Hother : ∀ i x q, cs !! i = Some x → i ≠ b → q ∈ x → q ∉ l ++ l').
  { intros i x q Hx Hne Hq. destruct (concat_update cs b l l' Hb) as (rest & Hcat & Hcat').
    rewrite Hcat in Hnd. rewrite Hcat' in Hnd'. rewrite NoDup_app in Hnd, Hnd'.
    assert (Hr : q ∈ rest).
    { assert (Hi' : (<[b := []]> cs) !! i = Some x) by by rewrite list_lookup_insert_ne.
      destruct (concat_update cs b l [] Hb) as (rest' & Hcat1 & Hcat2).
      assert (rest ≡ₚ rest') as ->.
      { apply (Permutation_app_inv_l l). by rewrite <- Hcat, Hcat1. }
      rewrite <- (app_nil_l rest'), <- Hcat2. apply elem_of_concat_lookup. eauto. }
    set_solver. }
  split.
  - by rewrite zlen_insert.
  - apply Forall2_same_length_lookup. split; [by rewrite !length_insert|]. intros i q x Hq Hx.
    destruct (decide (i = b)) as [->|Hne].
    + rewrite list_lookup_insert_eq in Hq by lia. rewrite list_lookup_insert_eq in Hx by lia. by simplify_eq.
    + rewrite list_lookup_insert_ne in Hq by done. rewrite list_lookup_insert_ne in Hx by done.
      eapply chain_frame; [|by eapply Forall2_lookup_lr]. intros r Hr. apply Hf. eauto.
  - done.
  - intros i x q n Hx Hq Hn. destruct (decide (i = b)) as [->|Hne].
    + rewrite list_lookup_insert_eq in Hx by lia. simplify_eq. eauto.
    + rewrite list_lookup_insert_ne in Hx by done. eapply Hhome; [done..|].
      rewrite <- Hn. symmetry. eauto.
Qed.

Lemma tbl_lookup h t sz cs b : tbl h t sz cs → 0 <= b < sz →
  ∃ l p, cs !! Z.to_nat b = Some l ∧ znth t b = Some p ∧ chain h p l.
Proof.
  intros [Hlen Hc _ _] Hb. destruct (znth_is_Some t b) as [p Hp]; [lia|].
  assert (Hp' := Hp). unfold znth in Hp'. destruct (0 <=? b); [|done].
  destruct (Forall2_lookup_l _ _ _ _ _ Hc Hp') as (l & Hl & Hch). eauto.
Qed.

(** Push the cell [e] in front of the chain of its bucket. *)
Lemma tbl_push h t sz cs e n :
  tbl h t sz cs → pow_size sz → h !! e = Some n → e ≠ 0 → e ∉ concat cs →
  let b := bucket_of sz (hash n) in
  ∃ first cs', rd t b = Ret first ∧ wr t b e = Ret (<[Z.to_nat b := e]> t) ∧
    tbl (<[e := set_next n first]> h) (<[Z.to_nat b := e]> t) sz cs' ∧ concat cs' ≡ₚ e :: concat cs.
Proof.
  intros Ht Hsz Hn He0 He b. pose proof (bucket_range sz (hash n) Hsz) as Hb.
  destruct (tbl_lookup h t sz cs b Ht Hb) as (l & p & Hl & Hp & Hch).
  assert (Hel : e ∉ l) by (intros ?; apply He, elem_of_concat_lookup; eauto).
  destruct (concat_update cs (Z.to_nat b) l (e :: l) Hl) as (rest & Hc1 & Hc2).
  exists p, (<[Z.to_nat b := e :: l]> cs). split_and!.
  - by apply rd_znth.
  - apply wr_ok. rewrite (tbl_len _ _ _ _ Ht). done.
  - eapply tbl_update; [done|done|..].
    + intros q Hq. apply lookup_insert_ne. set_solver.
    + by apply same_info_next.
    + cbn [chain]. split_and!; [done..|]. exists (set_next n p). rewrite lookup_insert_eq.
      split; [done|]. eapply chain_frame; [|done]. intros q Hq. apply lookup_insert_ne. set_solver.
    + rewrite Hc2, <- app_comm_cons, <- Hc1. constructor; [done|apply Ht].
    + intros q m [->|Hq]%elem_of_cons.
      * rewrite lookup_insert_eq. intros [= <-]. cbn [set_next hash]. fold b. lia.
      * rewrite lookup_insert_ne by set_solver. intros Hm. by eapply (tbl_home _ _ _ _ Ht).
  - by rewrite Hc2, Hc1.
Qed.

Lemma tbl_frame h h' t sz cs :
  tbl h t sz cs → (∀ q, q ∈ concat cs → h' !! q = h !! q) → tbl h' t sz cs.
Proof.
  intros [Hlen Hc Hnd Hhome] Hq. split; [done|by eapply chains_frame|done|].
  intros b l p n Hl Hp Hn. eapply Hhome; [done..|]. rewrite <- Hq; [done|].
  apply elem_of_concat_lookup. eauto.
Qed.

(** An empty table. *)
Lemma tbl_empty h sz : 0 <= sz → tbl h (zrep sz 0) sz (zrep sz []).
Proof.
  intros Hsz. assert (Hnil : concat (zrep sz ([] : list Z)) = []).
  { unfold zrep. generalize (Z.to_nat sz). intros k. by induction k. }
  split.
  - by rewrite zlen_zrep by done.
  - apply Forall2_same_length_lookup. unfold zrep. split; [by rewrite !length_replicate|].
    by intros i p l [-> _]%lookup_replicate [-> _]%lookup_replicate.
  - rewrite Hnil. constructor.
  - intros b l p n Hl Hp. exfalso. assert (Hin : p ∈ concat (zrep sz ([] : list Z))).
    { apply elem_of_concat_lookup. eauto. } rewrite Hnil in Hin. set_solver.
Qed.
Lemma concat_zrep_nil (sz : Z) : concat (zrep sz ([] : list Z)) = [].
Proof. unfold zrep. generalize (Z.to_nat sz). intros k. by induction k. Qed.

Lemma set_table_id map t : table map = Some t → set_table map t = map.
Proof. destruct map; cbn. by intros ->. Qed.

Lemma load_ok h p n : h !! p = Some n → load h p = Ret n.
Proof. unfold load. by intros ->. Qed.

(** [rehash] moves the cells of one chain to the new table. *)
Lemma rehash_chain_wp fuel h map t cs e l :
  table map = Some t → pow_size (tablesize map) → tbl h t (tablesize map) cs →
  chain h e l → NoDup (l ++ concat cs) → (length l < fuel)%nat →
  returns (rehash_chain fuel h map e) (λ r, ∃ h' t' cs', r = (h', set_table map t') ∧
    tbl h' t' (tablesize map) cs' ∧ concat cs' ≡ₚ l ++ concat cs ∧ same_info h h' ∧ frame l h h').
Proof.
  revert h map t cs e l. induction fuel as [|fuel IH]; intros h map t cs e l Ht Hsz Htbl Hch Hnd Hf; [lia|].
  cbn [rehash_chain]. destruct l as [|q l].
  - cbn [chain] in Hch. subst e. cbn. exists h, t, cs. by rewrite set_table_id.
  - destruct Hch as (-> & H0 & n & Hn & Hch). rewrite (proj2 (Z.eqb_neq _ _)) by done.
    unfold bucket. rewrite (load_ok _ _ _ Hn). cbn [obind].
    unfold the_table. rewrite Ht. cbn [obind].
    inversion_clear Hnd as [|? ? Hq Hnd'].
    destruct (tbl_push h t _ cs q n Htbl Hsz Hn H0 ltac:(set_solver))
      as (first & cs1 & -> & Hwr & Htbl1 & Hcs1).
    cbn [obind]. rewrite Hwr. cbn [obind].
    eapply wp_mono; [|eapply (IH _ (set_table map _) _ cs1 (next n) l); [done|done|done|..]].
    + cbv beta. intros r (h' & t' & cs' & -> & Htbl' & Hcs' & Hi & Hfr). exists h', t', cs'.
      split_and!; [done|done|by rewrite Hcs', Hcs1, <- Permutation_middle|..].
      * etrans; [|done]. by apply same_info_next.
      * intros r Hr. rewrite Hfr by set_solver. apply lookup_insert_ne. set_solver.
    + eapply chain_frame; [|done]. intros r Hr. apply lookup_insert_ne. set_solver.
    + rewrite Hcs1. rewrite <- Permutation_middle. constructor; set_solver.
    + cbn [length] in Hf. lia.
Qed.

Lemma rehash_table_wp h map t cs olds ocs :
  table map = Some t → pow_size (tablesize map) → tbl h t (tablesize map) cs →
  Forall2 (chain h) olds ocs → NoDup (concat ocs ++ concat cs) →
  returns (rehash_table h map olds) (λ r, ∃ h' t' cs', r = (h', set_table map t') ∧
    tbl h' t' (tablesize map) cs' ∧ concat cs' ≡ₚ concat ocs ++ concat cs ∧ same_info h h' ∧
    frame (concat ocs) h h').
Proof.
  revert h map t cs ocs. induction olds as [|e olds IH]; intros h map t cs ocs Ht Hsz Htbl Hch Hnd;
    cbn [rehash_table].
  - apply Forall2_nil_inv_l in Hch as ->. exists h, t, cs. by rewrite set_table_id.
  - apply Forall2_cons_inv_l in Hch as (l & ocs' & Hl & Hch & ->). cbn [concat] in *.
    rewrite <- app_assoc in Hnd.
    assert (Hnd' := Hnd). rewrite NoDup_app in Hnd'. destruct Hnd' as (Hndl & Hdis & Hndr).
    apply wp_bind. eapply wp_mono; [|eapply (rehash_chain_wp _ h map t cs e l); [done|done|done|done|..]].
    + cbv beta. intros r (h1 & t1 & cs1 & -> & Htbl1 & Hcs1 & Hi1 & Hfr1).
      eapply wp_mono; [|eapply (IH h1 (set_table map t1) t1 cs1 ocs'); [done|done|done|..]].
      * cbv beta. intros r (h2 & t2 & cs2 & -> & Htbl2 & Hcs2 & Hi2 & Hfr2). exists h2, t2, cs2.
        split_and!; [done|done|rewrite Hcs2, Hcs1; solve_Permutation|by etrans|].
        intros q Hq. rewrite Hfr2, Hfr1; [done|set_solver..].
      * eapply chains_frame; [|done]. intros q Hq. apply Hfr1. set_solver.
      * by rewrite Hcs1, Permutation_app_swap_app.
    + rewrite (Permutation_app_comm (concat ocs')), app_assoc in Hnd.
      by apply NoDup_app in Hnd as [? _].
    + apply chain_length in Hl; [lia|done].
Qed.

Lemma rehash_wp h map t cs newsize :
  table map = Some t → tbl h t (tablesize map) cs → pow_size newsize →
  returns (rehash h map newsize) (λ r, ∃ h' t' cs', r = (h', set_table (alloc_table map newsize) t') ∧
    tbl h' t' newsize cs' ∧ concat cs' ≡ₚ concat cs ∧ same_info h h' ∧ frame (concat cs) h h').
Proof.
  intros Ht Htbl Hsz. pose proof (pow_size_range _ Hsz). unfold rehash, the_table. rewrite Ht. cbn [obind].
  pose proof (tbl_len _ _ _ _ Htbl) as Hlen.
  apply wp_bind, rd_range_wp; [lia|pose proof (zlen_nonneg t); lia|lia|].
  rewrite <- Hlen. unfold zslice. rewrite zdrop_0, ztake_all by lia.
  eapply wp_mono; [|eapply (rehash_table_wp h (alloc_table map newsize) _ (zrep newsize []) t cs)].
  - cbv beta. intros r (h' & t' & cs' & -> & Htbl' & Hcs' & Hi & Hfr). exists h', t', cs'.
    rewrite concat_zrep_nil, app_nil_r in Hcs'. done.
  - done.
  - done.
  - apply tbl_empty. lia.
  - apply Htbl.
  - rewrite concat_zrep_nil, app_nil_r. apply Htbl.
Qed.

(** ** Lookup *)

(** Entry [p] is equal to the key: it is the key itself, or it has the key's
    hash code and the comparison function says so. *)
Definition matches (h : heap) (f : hashmap_cmp_fn) (key : Z) (kd : option K) (p : Z) : Prop :=
  p = key ∨ ∃ hc d d', info h p = Some (hc, d) ∧ info h key = Some (hc, d') ∧ f d d' kd = 0.

Lemma matches_same_info h h' f key kd p :
  same_info h h' → matches h' f key kd p ↔ matches h f key kd p.
Proof. intros Hi. unfold matches. by rewrite !Hi. Qed.

Lemma info_lookup h p n : h !! p = Some n → info h p = Some (hash n, data n).
Proof. unfold info. by intros ->. Qed.

Lemma entry_equals_wp h map f p n key kn kd :
  cmpfn map = Some f → h !! p = Some n → h !! key = Some kn →
  returns (entry_equals h map p key kd) (λ b, b = true ↔ matches h f key kd p).
Proof.
  intros Hf Hp Hk. unfold entry_equals, matches.
  rewrite (info_lookup _ _ _ Hp), (info_lookup _ _ _ Hk).
  destruct (Z.eqb_spec p key) as [->|Hne]; [naive_solver|].
  rewrite (load_ok _ _ _ Hp), (load_ok _ _ _ Hk), Hf. cbn [obind].
  destruct (Z.eqb_spec (hash n) (hash kn)) as [Heq|]; [|naive_solver].
  cbn [wp]. rewrite Z.eqb_eq. split; [intros ?; right; exists (hash kn), (data n), (data kn); by rewrite Heq|]. intros [?|(hc & d & d2 & Hd & Hd2 & ?)]; [done|]. by simplify_eq.
Qed.

(** A matching entry lives in the bucket of the key. *)
Lemma matches_bucket h t sz cs f key kn kd p :
  tbl h t sz cs → h !! key = Some kn → p ∈ concat cs → matches h f key kd p →
  ∃ l, cs !! Z.to_nat (bucket_of sz (hash kn)) = Some l ∧ p ∈ l.
Proof.
  intros Ht Hk (b & l & Hb & Hp)%elem_of_concat_lookup Hm. exists l.
  assert (Hch := tbl_chains _ _ _ _ Ht). destruct (Forall2_lookup_r _ _ _ _ _ Hch Hb) as (q & _ & Hq).
  destruct (chain_live _ _ _ _ Hq Hp) as [n Hn].
  assert (hash n = hash kn) as <-.
  { destruct Hm as [->|(hc & d & d' & Hi & Hi' & _)]; [congruence|].
    rewrite (info_lookup _ _ _ Hn) in Hi. rewrite (info_lookup _ _ _ Hk) in Hi'. congruence. }
  rewrite (tbl_home _ _ _ _ Ht _ _ _ _ Hb Hp Hn), Nat2Z.id. done.
Qed.

Definition slot_after (s : slot) (l : list Z) : slot :=
  match last l with None => s | Some e => Next_of e end.

Lemma slot_after_cons s e l : slot_after s (e :: l) = slot_after (Next_of e) l.
Proof. unfold slot_after. rewrite last_cons. by destruct (last l). Qed.

(** What [find_entry_ptr] found in the chain [l]: the entries before it do not
    match, the one it points to (if any) does. *)
Definition found (h : heap) (t : list Z) (f : hashmap_cmp_fn) (key : Z) (kd : option K) (s : slot)
    (l : list Z) (r : slot) : Prop :=
  ∃ l1 l2, l = l1 ++ l2 ∧ r = slot_after s l1 ∧ load_slot h t r = Ret (default 0 (head l2)) ∧
    (∀ p, p ∈ l1 → ¬ matches h f key kd p) ∧ (∀ p, head l2 = Some p → matches h f key kd p).

Lemma find_loop_wp fuel h map t f key kn kd s e l :
  cmpfn map = Some f → h !! key = Some kn → load_slot h t s = Ret e → chain h e l →
  (length l < fuel)%nat →
  returns (find_loop fuel h map t key kd s) (found h t f key kd s l).
Proof.
  intros Hf Hk. revert s e l. induction fuel as [|fuel IH]; intros s e l Hs Hch Hlen; [lia|].
  cbn [find_loop]. rewrite Hs. cbn [obind]. destruct l as [|p l].
  - cbn [chain] in Hch. subst e. cbn. exists [], []. split_and!; try done; set_solver.
  - destruct Hch as (-> & H0 & n & Hn & Hch). rewrite (proj2 (Z.eqb_neq _ _)) by done.
    apply wp_bind. eapply wp_mono; [|by eapply entry_equals_wp]. cbv beta. intros [|] Hm.
    + cbn. exists [], (p :: l). split_and!; [done|done|done|set_solver|].
      intros q [= <-]. by apply Hm.
    + eapply wp_mono; [|eapply (IH (Next_of p) (next n) l)].
      * intros r (l1 & l2 & -> & -> & Hr & Hno & Hyes). exists (p :: l1), l2.
        split_and!; [done|by rewrite slot_after_cons|done| |done].
        intros q [->|Hq]%elem_of_cons; [|by apply Hno]. by intros ?%Hm.
      * cbn [load_slot]. by rewrite (load_ok _ _ _ Hn).
      * done.
      * cbn [length] in Hlen. lia.
Qed.

(** ** The invariant *)

(** [map] is a table over the heap [h] whose entries are [es]. *)
Record wf (h : heap) (map : hashmap) (f : hashmap_cmp_fn) (es : list Z) : Prop := Wf {
  wf_cmp : cmpfn map = Some f;
  wf_table : match table map with
             | None => es = [] ∧ tablesize map = 0
             | Some t => pow_size (tablesize map) ∧
                 (∃ cs, tbl h t (tablesize map) cs ∧ es ≡ₚ concat cs) ∧
                 grow_at map = tablesize map * 80 / 100 ∧
                 (shrink_at map = 0 ∨ 64 < tablesize map)
             end;
  wf_count : do_count_items map = true → private_size map = zlen es;
  wf_small : zlen es < 2 ^ 32;
}.

Lemma find_entry_ptr_wp h map t cs f key kn kd :
  cmpfn map = Some f → table map = Some t → pow_size (tablesize map) →
  tbl h t (tablesize map) cs → h !! key = Some kn →
  returns (find_entry_ptr h map key kd) (λ r, ∃ l,
    let b := bucket_of (tablesize map) (hash kn) in
    cs !! Z.to_nat b = Some l ∧ found h t f key kd (Bucket b) l r).
Proof.
  intros Hf Ht Hsz Htbl Hk. unfold find_entry_ptr, the_table, bucket. rewrite Ht.
  rewrite (load_ok _ _ _ Hk). cbn [obind].
  destruct (tbl_lookup h t _ cs _ Htbl (bucket_range _ (hash kn) Hsz)) as (l & p & Hl & Hp & Hch).
  eapply wp_mono; [|eapply (find_loop_wp _ h map t f key kn kd _ p l); [done|done|..]].
  - intros r Hr. by exists l.
  - cbn [load_slot]. by apply rd_znth.
  - done.
  - apply chain_length in Hch; [lia|].
    destruct (concat_update cs _ l l Hl) as (rest & Hc & _). pose proof (tbl_nodup _ _ _ _ Htbl) as Hnd.
    rewrite Hc in Hnd. by apply NoDup_app in Hnd as [? _].
Qed.

Lemma hashmap_get_wp h map f es key kn kd :
  wf h map f es → h !! key = Some kn →
  returns (hashmap_get h map key kd) (λ r,
    (r ≠ 0 ∧ r ∈ es ∧ matches h f key kd r) ∨ (r = 0 ∧ ∀ p, p ∈ es → ¬ matches h f key kd p)).
Proof.
  intros [Hf Ht _ _] Hk. unfold hashmap_get. destruct (table map) as [t|] eqn:Et.
  - destruct Ht as (Hsz & (cs & Htbl & Hes) & _). apply wp_bind.
    eapply wp_mono; [|by eapply find_entry_ptr_wp]. cbv beta.
    intros r (l & Hl & l1 & l2 & -> & -> & -> & Hno & Hyes). cbn [wp].
    destruct l2 as [|p l2]; cbn [head hd_error default from_option id] in *.
    + right. split; [done|]. intros p Hp Hm. rewrite Hes in Hp.
      destruct (matches_bucket _ _ _ _ _ _ _ _ _ Htbl Hk Hp Hm) as (l & Hl' & Hin).
      rewrite Hl in Hl'. simplify_eq. rewrite app_nil_r in Hin. by eapply Hno.
    + left. assert (Hp : p ∈ concat cs) by (apply elem_of_concat_lookup; eexists _, _; split; [done|]; set_solver).
      split_and!; [|by rewrite Hes|by apply Hyes].
      intros ->. destruct (Forall2_lookup_r _ _ _ _ _ (tbl_chains _ _ _ _ Htbl) Hl) as (q & _ & Hq).
      apply chain_nonnull in Hq. set_solver.
  - destruct Ht as [-> _]. right. split; [done|]. set_solver.
Qed.

(** ** Insertion *)
Lemma alloc_grow_at map sz : pow_size sz → grow_at (alloc_table map sz) = sz * 80 / 100.
Proof.
  intros Hsz%pow_size_range. cbn [alloc_table grow_at]. unfold HASHMAP_LOAD_FACTOR, u32, u64.
  rewrite (Z.mod_small (sz * 80)) by lia. apply Z.mod_small. Z.div_mod_to_equations. lia.
Qed.
Lemma alloc_shrink_at map sz : shrink_at (alloc_table map sz) = 0 ∨ 64 < sz.
Proof.
  cbn [alloc_table shrink_at]. unfold HASHMAP_INITIAL_SIZE. destruct (Z.leb_spec sz 64); [by left|by right].
Qed.

Lemma pow_size_64 : pow_size 64.
Proof. exists 0. split; [lia|done]. Qed.
Lemma pow_size_grow sz : pow_size sz → sz * 80 / 100 < 858993459 →
  pow_size (u32 (Z.shiftl sz HASHMAP_RESIZE_BITS)).
Proof.
  intros (j & Hj & ->) Hg. assert (j ≠ 12) by (intros ->; by vm_compute in Hg).
  exists (j + 1). split; [lia|]. rewrite Z.shiftl_mul_pow2 by done. unfold u32, HASHMAP_RESIZE_BITS.
  rewrite Z.pow_add_r by lia. rewrite Z.mod_small; [lia|].
  pose proof (Z.pow_le_mono_r 4 j 11). pose proof (Z.pow_pos_nonneg 4 j). lia.
Qed.
Lemma pow_size_shrink sz : pow_size sz → 64 < sz → pow_size (Z.shiftr sz HASHMAP_RESIZE_BITS).
Proof.
  intros (j & Hj & ->) Hg. assert (j ≠ 0) by (intros ->; lia). exists (j - 1). split; [lia|].
  rewrite Z.shiftr_div_pow2 by done. unfold HASHMAP_RESIZE_BITS.
  replace j with (j - 1 + 1) at 1 by lia. rewrite Z.pow_add_r by lia.
  replace (64 * (4 ^ (j - 1) * 4 ^ 1)) with ((64 * 4 ^ (j - 1)) * 2 ^ 2) by lia. by rewrite Z.div_mul.
Qed.

(** A table after a rehash is well formed again. *)
Lemma wf_rehashed h h' map f es cs cs' t' sz :
  cmpfn map = Some f → pow_size sz → tbl h' t' sz cs' → concat cs' ≡ₚ concat cs → es ≡ₚ concat cs →
  (do_count_items map = true → private_size map = zlen es) → zlen es < 2 ^ 32 → same_info h h' →
  wf h' (set_table (alloc_table map sz) t') f es.
Proof.
  intros Hf Hsz Ht Hcs Hes Hn Hlt Hi. split; [done| |done|done].
  cbn [set_table table tablesize]. split_and!; [done|exists cs'; by rewrite Hcs| |].
  - by apply (alloc_grow_at map).
  - apply (alloc_shrink_at map).
Qed.

Lemma wf_allocated h map f es : wf h map f es →
  let map := match table map with None => alloc_table map HASHMAP_INITIAL_SIZE | Some _ => map end in
  wf h map f es ∧ is_Some (table map).
Proof.
  intros Hwf. destruct (table map) as [t|] eqn:Ht; [by split; [|eexists]|]. split; [|done].
  destruct Hwf as [Hf He Hc Hlt]. rewrite Ht in He. destruct He as [-> _]. split; [done| |done|done].
  cbn [alloc_table table tablesize]. split_and!; [apply pow_size_64| |apply alloc_grow_at, pow_size_64|].
  - exists (zrep 64 []). rewrite concat_zrep_nil. split; [by apply tbl_empty|done].
  - apply (alloc_shrink_at map).
Qed.

Lemma hashmap_add_wp h map f es e n :
  wf h map f es → h !! e = Some n → e ≠ 0 → e ∉ es → zlen es < 858993459 →
  returns (hashmap_add h map e) (λ r, ∃ h' map', r = (h', map') ∧
    wf h' map' f (e :: es) ∧ same_info h h' ∧ frame (e :: es) h h').
Proof.
  intros Hwf Hn H0 He Hsmall. unfold hashmap_add.
  destruct (wf_allocated _ _ _ _ Hwf) as [[Hf Ht Hc Hlt] [t Et]]. clear Hwf.
  set (m := match table map with None => _ | Some _ => _ end) in *. clearbody m. rewrite Et in Ht.
  destruct Ht as (Hsz & (cs & Htbl & Hes) & Hgrow & Hshrink).
  unfold bucket, the_table. rewrite (load_ok _ _ _ Hn), Et. cbn [obind].
  destruct (tbl_push h t _ cs e n Htbl Hsz Hn H0) as (first & cs' & -> & -> & Htbl' & Hcs').
  { by rewrite <- Hes. }
  cbn [obind]. set (t' := <[_ := e]> t) in *. set (h1 := <[e := _]> h) in *.
  assert (Hi : same_info h h1) by by apply same_info_next.
  assert (Hfr : frame (e :: es) h h1).
  { intros q Hq. apply lookup_insert_ne. set_solver. }
  assert (Hes' : e :: es ≡ₚ concat cs') by by rewrite Hcs', Hes.
  assert (Hz : zlen (e :: es) = zlen es + 1) by (rewrite zlen_cons; lia).
  cbn [set_table set_size do_count_items private_size grow_at tablesize].
  destruct (do_count_items m) eqn:Hcount.
  - rewrite (Hc eq_refl). pose proof (zlen_nonneg es).
    assert (u32 (zlen es + 1) = zlen es + 1) as -> by (apply Z.mod_small; lia). destruct (Z.ltb_spec (grow_at m) (zlen es + 1)).
    + eapply wp_mono; [|eapply (rehash_wp h1 _ t' cs'); [done|done|]].
      * cbv beta. intros r (h2 & t2 & cs2 & -> & Htbl2 & Hcs2 & Hi2 & Hfr2). eexists _, _.
        split; [done|]. split_and!.
        -- eapply (wf_rehashed h1); try done; [|lia]. apply pow_size_grow; [done|lia].
        -- by etrans.
        -- intros q Hq. rewrite Hfr2; [by apply Hfr|]. by rewrite <- Hes'.
      * apply pow_size_grow; [done|lia].
    + eexists _, _. split; [done|]. split; [|done]. split; [done| |done|lia].
      cbn [table tablesize grow_at shrink_at]. split_and!; eauto.
  - eexists _, _. split; [done|]. split; [|done]. split; [done| |cbn; congruence|lia].
    cbn [table tablesize grow_at shrink_at]. split_and!; eauto.
Qed.

(** ** Removal *)
Lemma chain_app_r h q l1 p l2 n : chain h q (l1 ++ p :: l2) → h !! p = Some n → chain h (next n) l2.
Proof.
  revert q. induction l1 as [|r l1 IH]; intros q; cbn [chain app].
  - intros (_ & _ & m & Hm & Hc) Hn. congruence.
  - intros (_ & _ & m & _ & Hc) Hn. by eapply IH.
Qed.

(** Redirecting the [next] field of the entry before [p] takes [p] out of the chain. *)
Lemma chain_unlink h q l1 e p l2 ne n :
  NoDup (l1 ++ e :: p :: l2) → chain h q (l1 ++ e :: p :: l2) → h !! e = Some ne → h !! p = Some n →
  chain (<[e := set_next ne (next n)]> h) q (l1 ++ e :: l2).
Proof.
  revert q. induction l1 as [|r l1 IH]; intros q Hnd Hc He Hp; cbn [chain app] in *.
  - destruct Hc as (-> & H0 & m & Hm & Hnx & Hp0 & n' & Hn' & Hc). split_and!; [done..|].
    exists (set_next ne (next n)). rewrite lookup_insert_eq. split; [done|].
    assert (n' = n) as -> by congruence. cbn [set_next next].
    eapply chain_frame; [|done]. intros x Hx. apply lookup_insert_ne.
    inversion_clear Hnd. set_solver.
  - destruct Hc as (-> & H0 & m & Hm & Hc). inversion_clear Hnd as [|? ? Hr Hnd'].
    split_and!; [done..|]. exists m. rewrite lookup_insert_ne by set_solver.
    split; [done|]. by apply IH.
Qed.

(** The two stores of [hashmap_remove] at the slot [find_entry_ptr] returned. *)
Lemma tbl_unlink h t sz cs b l1 p l2 n :
  tbl h t sz cs → 0 <= b < sz → cs !! Z.to_nat b = Some (l1 ++ p :: l2) → h !! p = Some n →
  ∃ h1 t1 n1, store_slot h t (slot_after (Bucket b) l1) (next n) = Ret (h1, t1) ∧
    h1 !! p = Some n1 ∧ let h2 := <[p := set_next n1 0]> h1 in
    tbl h2 t1 sz (<[Z.to_nat b := l1 ++ l2]> cs) ∧ same_info h h2 ∧ frame (l1 ++ p :: l2) h h2.
Proof.
  intros Ht Hb Hl Hp. destruct (tbl_lookup h t sz cs b Ht Hb) as (l & q & Hl' & Hq & Hch).
  rewrite Hl in Hl'. injection Hl' as <-.
  destruct (concat_update cs (Z.to_nat b) (l1 ++ p :: l2) (l1 ++ l2) Hl) as (rest & Hc1 & Hc2).
  pose proof (tbl_nodup _ _ _ _ Ht) as Hnd. rewrite Hc1 in Hnd.
  assert (Hnd' : NoDup (concat (<[Z.to_nat b := l1 ++ l2]> cs))).
  { rewrite Hc2. rewrite <- Permutation_middle, <- app_comm_cons in Hnd. by inversion Hnd. }
  assert (Hp12 : p ∉ l1 ++ l2).
  { rewrite <- Permutation_middle, <- app_comm_cons in Hnd. inversion_clear Hnd. set_solver. }
  apply NoDup_app in Hnd as (Hnd & _ & _).
  assert (Hhome : ∀ h2 x m, same_info h h2 → x ∈ l1 ++ l2 → h2 !! x = Some m →
    bucket_of sz (hash m) = Z.of_nat (Z.to_nat b)).
  { intros h2 x m Hi Hx Hm. assert (Hxl : x ∈ l1 ++ p :: l2) by set_solver.
    destruct (chain_live _ _ _ _ Hch Hxl) as [m' Hm']. specialize (Hi x).
    rewrite (info_lookup _ _ _ Hm), (info_lookup _ _ _ Hm') in Hi. injection Hi as Hi _. rewrite Hi.
    by eapply (tbl_home _ _ _ _ Ht). }
  unfold slot_after. destruct (last l1) as [e|] eqn:Hlast; cbn [store_slot].
  - apply last_Some in Hlast as [l1' ->].
    rewrite <- (app_assoc l1' [e] (p :: l2)) in *. rewrite <- (app_assoc l1' [e] l2) in *. cbn [app] in *.
    destruct (chain_live _ _ _ e Hch) as [ne He]; [set_solver|].
    rewrite (load_ok _ _ _ He). cbn [obind].
    assert (Hne : e ≠ p) by set_solver.
    eexists _, t, n. split; [done|]. rewrite lookup_insert_ne by done. split; [done|]. cbn zeta.
    set (h2 := <[p := _]> _).
    assert (Hi : same_info h h2).
    { etrans; [by apply same_info_next|]. apply same_info_next. by rewrite lookup_insert_ne. }
    assert (Hfr : frame (l1' ++ e :: p :: l2) h h2).
    { intros x Hx. unfold h2. rewrite !lookup_insert_ne; set_solver. }
    split_and!; [|done|done].
    rewrite <- (list_insert_id t (Z.to_nat b) q).
    + eapply tbl_update; [done|done| |done| |done|].
      * intros x Hx. apply Hfr. set_solver.
      * eapply chain_frame; [|by eapply chain_unlink]. intros x Hx. apply lookup_insert_ne. set_solver.
      * intros x m. by apply Hhome.
    + unfold znth in Hq. by destruct (0 <=? b).
  - apply last_None in Hlast as ->. cbn [app] in *.
    rewrite wr_ok by (rewrite (tbl_len _ _ _ _ Ht); done). cbn [obind].
    eexists h, _, n. split; [done|]. split; [done|]. cbn zeta.
    assert (Hi : same_info h (<[p := set_next n 0]> h)) by by apply same_info_next.
    assert (Hfr : frame (p :: l2) h (<[p := set_next n 0]> h)).
    { intros x Hx. apply lookup_insert_ne. set_solver. }
    split_and!; [|done|done]. eapply tbl_update; [done|done| |done| |done|].
    + intros x Hx. apply Hfr. set_solver.
    + apply (chain_app_r h q [] p l2 n) in Hch; [|done].
      eapply chain_frame; [|done]. intros x Hx. apply lookup_insert_ne. set_solver.
    + intros x m. by apply Hhome.
Qed.

Lemma hashmap_remove_wp h map f es key kn kd :
  wf h map f es → h !! key = Some kn →
  returns (hashmap_remove h map key kd) (λ '(r, h', map'),
    (r = 0 ∧ h' = h ∧ map' = map ∧ ∀ p, p ∈ es → ¬ matches h f key kd p) ∨
    (r ≠ 0 ∧ matches h f key kd r ∧ ∃ es', es ≡ₚ r :: es' ∧ wf h' map' f es' ∧
      same_info h h' ∧ frame es h h')).
Proof.
  intros Hwf Hk. pose proof (hashmap_get_wp h map f es key kn kd Hwf Hk) as Hget.
  unfold hashmap_remove. unfold hashmap_get in Hget. destruct Hwf as [Hf Ht Hc Hlt].
  destruct (table map) as [t|] eqn:Et; [|left; destruct Ht as [-> _]; by split_and!; try set_solver].
  destruct Ht as (Hsz & (cs & Htbl & Hes) & Hgrow & Hshrink).
  pose proof (find_entry_ptr_wp h map t cs f key kn kd Hf Et Hsz Htbl Hk) as Hfind.
  apply returns_eq in Hfind as (s & Hs & l & Hl & l1 & l2 & -> & -> & Hload & Hno & Hyes).
  rewrite Hs in *. cbn [obind] in *. rewrite Hload in *. cbn [obind wp] in *.
  destruct l2 as [|p l2]; cbn [head hd_error default from_option id] in *.
  { left. cbn. destruct Hget as [(? & _)|[_ Hget]]; [done|]. done. }
  destruct Hget as [(H0 & Hin & Hm)|[Habs _]].
  2:{ exfalso. destruct (Forall2_lookup_r _ _ _ _ _ (tbl_chains _ _ _ _ Htbl) Hl) as (q & _ & Hq).
      apply chain_nonnull in Hq. set_solver. }
  rewrite (proj2 (Z.eqb_neq _ _)) by done.
  destruct (Forall2_lookup_r _ _ _ _ _ (tbl_chains _ _ _ _ Htbl) Hl) as (q & _ & Hq).
  destruct (chain_live _ _ _ p Hq) as [n Hn]; [set_solver|]. rewrite (load_ok _ _ _ Hn). cbn [obind].
  destruct (tbl_unlink h t _ cs _ l1 p l2 n Htbl (bucket_range _ _ Hsz) Hl Hn)
    as (h1 & t1 & n1 & -> & Hn1 & Htbl' & Hi & Hfr).
  cbn [obind]. rewrite (load_ok _ _ _ Hn1). cbn [obind].
  set (h2 := <[p := set_next n1 0]> h1) in *.
  destruct (concat_update cs _ _ (l1 ++ l2) Hl) as (rest & Hc1 & Hc2).
  set (cs' := <[_ := l1 ++ l2]> cs) in *.
  assert (Hes' : es ≡ₚ p :: concat cs').
  { rewrite Hes, Hc1, Hc2, <- Permutation_middle. done. }
  assert (Hfr' : frame es h h2).
  { intros x Hx. apply Hfr. rewrite Hes, Hc1 in Hx. set_solver. }
  assert (Hz : zlen es = zlen (concat cs') + 1).
  { unfold zlen. rewrite (Permutation_length Hes'). cbn [length]. lia. }
  pose proof (zlen_nonneg (concat cs')).
  cbn [set_table set_size do_count_items private_size shrink_at tablesize].
  destruct (do_count_items map) eqn:Hcount.
  - rewrite (Hc eq_refl), Hz.
    assert (u32 (zlen (concat cs') + 1 - 1) = zlen (concat cs')) as ->.
    { unfold u32. rewrite Z.mod_small; lia. }
    destruct (Z.ltb_spec (zlen (concat cs')) (shrink_at map)).
    + assert (Hsz' := pow_size_shrink _ Hsz ltac:(lia)). apply wp_bind.
      eapply wp_mono; [|eapply (rehash_wp h2 _ t1 cs'); [done|done|done]].
      cbv beta. intros r (h3 & t3 & cs3 & -> & Htbl3 & Hcs3 & Hi3 & Hfr3). right.
      split_and!; [done|done|]. exists (concat cs'). split_and!; [done| |by etrans|].
      * eapply (wf_rehashed h2); try done. lia.
      * intros x Hx. rewrite Hfr3; [by apply Hfr'|]. rewrite Hes' in Hx. set_solver.
    + right. split_and!; [done|done|]. exists (concat cs'). split_and!; [done| |done|done].
      split; [done| |done|lia]. cbn [table tablesize grow_at shrink_at]. split_and!; eauto.
  - right. split_and!; [done|done|]. exists (concat cs'). split_and!; [done| |done|done].
    split; [done| |cbn; congruence|lia]. cbn [table tablesize grow_at shrink_at]. split_and!; eauto.
Qed.

(** [hashmap_put]: the entry replaces one equal entry, if there is one. *)
Lemma hashmap_put_wp h map f es e n :
  wf h map f es → h !! e = Some n → e ≠ 0 → e ∉ es → zlen es < 858993459 →
  returns (hashmap_put h map e) (λ '(r, h', map'), ∃ es',
    wf h' map' f (e :: es') ∧ same_info h h' ∧
    ((r = 0 ∧ es' = es ∧ ∀ p, p ∈ es → ¬ matches h f e None p) ∨
     (r ≠ 0 ∧ matches h f e None r ∧ es ≡ₚ r :: es'))).
Proof.
  intros Hwf Hn H0 He Hlt. unfold hashmap_put. apply wp_bind.
  eapply wp_mono; [|by eapply (hashmap_remove_wp h map f es e n None)].
  intros [[r h1] map1]. intros [(-> & -> & -> & Hno)|(Hr0 & Hm & es' & Hes & Hwf' & Hi & Hfr)];
    apply wp_bind.
  - eapply wp_mono; [|by eapply hashmap_add_wp]. cbv beta.
    intros r' (h' & map' & -> & Hw & Hi & _). exists es. split_and!; [done..|]. by left.
  - assert (Hn1 : h1 !! e = Some n) by by rewrite Hfr.
    assert (zlen es = zlen es' + 1).
    { unfold zlen. rewrite (Permutation_length Hes). cbn [length]. lia. }
    eapply wp_mono; [|eapply (hashmap_add_wp h1 map1 f es' e n); [done|done|done| |lia]].
    + cbv beta. intros r' (h' & map' & -> & Hw & Hi' & _). exists es'. split_and!; [done|by etrans|].
      by right.
    + rewrite Hes in He. set_solver.
Qed.

(** ** Iteration *)

(** The entries an iterator has still to visit. *)
Definition it_yields (h : heap) (it : hashmap_iter) (cur : Z) (es : list Z) : Prop :=
  0 <= tablepos it ∧
  match table (it_map it) with
  | None => cur = 0 ∧ es = [] ∧ tablesize (it_map it) = 0
  | Some t => zlen t = tablesize (it_map it) ∧ ∃ l cs, chain h cur l ∧
      Forall2 (chain h) (zdrop (tablepos it) t) cs ∧ es = l ++ concat cs
  end.

Lemma iter_next_loop_wp fuel h it cur es :
  it_yields h it cur es → tablesize (it_map it) - tablepos it + 1 < Z.of_nat fuel → 1 < Z.of_nat fuel →
  returns (iter_next_loop fuel h it cur) (λ '(r, it'),
    match es with
    | [] => r = 0
    | p :: es => r = p ∧ p ≠ 0 ∧ it_yields h it' (it_next it') es
    end).
Proof.
  revert it cur. induction fuel as [|fuel IH]; intros it cur [Hpos Hy] Hf Hf1; [lia|].
  cbn [iter_next_loop]. destruct (table (it_map it)) as [t|] eqn:Et.
  2:{ destruct Hy as (-> & -> & Hz). cbn [Z.eqb negb]. eval_leb (tablesize (it_map it)) (tablepos it). done. }
  destruct Hy as (Hlen & l & cs & Hc & Hcs & ->). destruct l as [|p l].
  - cbn [chain] in Hc. subst cur. cbn [Z.eqb negb app].
    destruct (Z.leb_spec (tablesize (it_map it)) (tablepos it)).
    + rewrite zdrop_all in Hcs by lia. apply Forall2_nil_inv_l in Hcs as ->. done.
    + unfold the_table. rewrite Et. cbn [obind]. apply wp_bind, rd_wp; [lia|]. intros q Hq.
      rewrite (zdrop_cons _ _ _ Hpos Hq) in Hcs.
      apply Forall2_cons_inv_l in Hcs as (l & cs' & Hl & Hcs & ->).
      apply IH; cbn [it_map tablepos]; [|lia|lia]. unfold it_yields. cbn [it_map tablepos].
      rewrite Et. split; [lia|]. split; [done|]. by exists l, cs'.
  - destruct Hc as (-> & H0 & n & Hn & Hc). rewrite (proj2 (Z.eqb_neq _ _)) by done.
    cbn [negb]. rewrite (load_ok _ _ _ Hn). cbn [obind wp app]. split_and!; [done..|].
    unfold it_yields. cbn [it_map tablepos it_next]. rewrite Et. split; [done|]. split; [done|].
    by exists l, cs.
Qed.

Lemma iter_next_wp h it es :
  it_yields h it (it_next it) es →
  returns (hashmap_iter_next h it) (λ '(r, it'),
    match es with
    | [] => r = 0
    | p :: es => r = p ∧ p ≠ 0 ∧ it_yields h it' (it_next it') es
    end).
Proof. intros Hy. apply iter_next_loop_wp; [done|lia|lia]. Qed.

(** A fresh iterator visits the entries of the table. *)
Lemma iter_init_yields h map f es : wf h map f es →
  ∃ es', es' ≡ₚ es ∧ NoDup es' ∧ it_yields h (hashmap_iter_init map) 0 es'.
Proof.
  intros [_ Ht _ _]. unfold it_yields. cbn [hashmap_iter_init it_map tablepos].
  destruct (table map) as [t|].
  - destruct Ht as (Hsz & (cs & Htbl & Hes) & _). exists (concat cs).
    split_and!; [by rewrite Hes|apply Htbl|done|apply Htbl|].
    exists [], cs. split_and!; [done|by apply Htbl|done].
  - destruct Ht as [-> Hz]. exists []. split_and!; try done. constructor.
Qed.

Lemma drain_iter_eq fuel h it es :
  it_yields h it (it_next it) es → (length es < fuel)%nat → drain_iter fuel h it = Ret es.
Proof.
  revert it es. induction fuel as [|fuel IH]; intros it es Hy Hf; [lia|]. cbn [drain_iter].
  apply iter_next_wp, returns_eq in Hy as ([r it'] & -> & Hr). cbn [obind].
  destruct es as [|p es]; [by subst r|]. destruct Hr as (-> & H0 & Hy).
  rewrite (proj2 (Z.eqb_neq _ _)) by done. cbn [length] in Hf. by rewrite (IH _ es) by (done || lia).
Qed.

Lemma it_yields_frame h h' it cur es :
  (∀ q, q ∈ es → h' !! q = h !! q) → it_yields h it cur es → it_yields h' it cur es.
Proof.
  intros Hq [Hpos Hy]. split; [done|]. destruct (table (it_map it)) as [t|]; [|done].
  destruct Hy as (Hlen & l & cs & Hc & Hcs & ->). split; [done|]. exists l, cs.
  split_and!; [|eapply chains_frame; [|done]; set_solver|done]. eapply chain_frame; [|done]. set_solver.
Qed.

Lemma it_yields_live h it cur es q : it_yields h it cur es → q ∈ es → is_Some (h !! q).
Proof.
  intros [Hpos Hy] Hq. destruct (table (it_map it)) as [t|]; [|destruct Hy as (_ & -> & _); set_solver].
  destruct Hy as (Hlen & l & cs & Hc & Hcs & ->). apply elem_of_app in Hq as [Hq|Hq].
  - by eapply chain_live.
  - apply elem_of_concat_lookup in Hq as (b & l' & Hl & Hq).
    destruct (Forall2_lookup_r _ _ _ _ _ Hcs Hl) as (p & _ & Hp). by eapply chain_live.
Qed.

(** [free_individual_entries] frees every entry once and touches none after. *)
Lemma free_loop_wp fuel h it es :
  it_yields h it (it_next it) es → NoDup es → (length es < fuel)%nat →
  returns (free_loop fuel h it) (λ h', (∀ q, q ∈ es → h' !! q = None) ∧ frame es h h').
Proof.
  revert h it es. induction fuel as [|fuel IH]; intros h it es Hy Hnd Hf; [lia|]. cbn [free_loop].
  assert (Hy' := Hy). apply iter_next_wp, returns_eq in Hy' as ([r it'] & -> & Hr). cbn [obind].
  destruct es as [|p es].
  - subst r. cbn. split; [set_solver|done].
  - destruct Hr as (-> & H0 & Hy'). rewrite (proj2 (Z.eqb_neq _ _)) by done.
    destruct (it_yields_live _ _ _ _ p Hy) as [n Hn]; [set_solver|].
    unfold free_entry. rewrite Hn. cbn [obind]. inversion_clear Hnd as [|? ? Hp Hnd'].
    eapply wp_mono; [|apply (IH _ _ es); [|done|cbn [length] in Hf; lia]].
    + intros h' [Hgone Hfr]. split.
      * intros q [->|Hq]%elem_of_cons; [|by apply Hgone]. rewrite Hfr by done. apply lookup_delete_eq.
      * intros q Hq. rewrite Hfr by set_solver. apply lookup_delete_ne. set_solver.
    + eapply it_yields_frame; [|done]. intros q Hq. apply lookup_delete_ne. set_solver.
Qed.

(** ** Clearing *)
Lemma free_individual_entries_wp h map f es : wf h map f es →
  returns (free_individual_entries h map) (λ h', (∀ q, q ∈ es → h' !! q = None) ∧ frame es h h').
Proof.
  intros Hwf. destruct (iter_init_yields _ _ _ _ Hwf) as (es' & Hes & Hnd & Hy).
  eapply wp_mono; [|eapply (free_loop_wp _ h _ es'); [done|done|]].
  - intros h' [Hgone Hfr]. split.
    + intros q Hq. apply Hgone. by rewrite Hes.
    + intros q Hq. apply Hfr. by rewrite Hes.
  - rewrite <- size_dom. unfold lt. rewrite <- Nat.succ_le_mono.
    rewrite <- (size_list_to_set (C := gset Z) es') by done. apply subseteq_size.
    intros q Hq%elem_of_list_to_set. apply elem_of_dom. by eapply it_yields_live.
Qed.

Lemma hashmap_partial_clear_wp h map f es off : wf h map f es →
  returns (hashmap_partial_clear_ h map off) (λ '(h', map'), wf h' map' f [] ∧ frame es h h' ∧
    (0 <= off → ∀ q, q ∈ es → h' !! q = None)).
Proof.
  intros Hwf. assert (Hfree := free_individual_entries_wp _ _ _ _ Hwf).
  destruct Hwf as [Hf Ht Hc Hlt]. unfold hashmap_partial_clear_. destruct (table map) as [t|] eqn:Et.
  - destruct Ht as (Hsz & (cs & Htbl & Hes) & Hgrow & Hshrink).
    pose proof (pow_size_range _ Hsz). pose proof (tbl_len _ _ _ _ Htbl) as Hlen.
    apply wp_bind.
    assert (Hh : returns (if 0 <=? off then free_individual_entries h map else Ret h)
      (λ h', frame es h h' ∧ (0 <= off → ∀ q, q ∈ es → h' !! q = None))).
    { destruct (Z.leb_spec 0 off).
      - eapply wp_mono; [|exact Hfree]. naive_solver.
      - cbn. split; [done|]. lia. }
    eapply wp_mono; [|exact Hh]. intros h' [Hfr Hgone].
    apply wp_bind, memcpy_wp; rewrite ?zlen_zrep by lia; [lia|lia|].
    rewrite zdrop_all, ztake_0, app_nil_r, app_nil_l by lia.
    split; [|by split]. split; [done| |cbn; done|done].
    cbn [table tablesize grow_at shrink_at]. split_and!; [done| |done|by left].
    exists (zrep (tablesize map) []). rewrite concat_zrep_nil. split; [|done]. apply tbl_empty. lia.
  - destruct Ht as [-> Hz]. cbn. split_and!; [|done|set_solver]. split; [done|by rewrite Et|done|done].
Qed.

Lemma hashmap_clear_wp h map f es off : wf h map f es →
  returns (hashmap_clear_ h map off) (λ '(h', map'), (table map' = None ∨ map' = map) ∧ frame es h h' ∧
    (0 <= off → ∀ q, q ∈ es → h' !! q = None)).
Proof.
  intros Hwf. assert (Hfree := free_individual_entries_wp _ _ _ _ Hwf). unfold hashmap_clear_.
  destruct (table map) as [t|] eqn:Et.
  - apply wp_bind. destruct (Z.leb_spec 0 off).
    + eapply wp_mono; [|exact Hfree]. intros h' [Hgone Hfr]. cbn. auto.
    + cbn. split_and!; [by left|done|lia].
  - pose proof (wf_table _ _ _ _ Hwf) as Ht. rewrite Et in Ht. destruct Ht as [-> _]. cbn.
    split_and!; [by right|done|set_solver].
Qed.

(** ** Creation *)
Lemma init_size_loop_wp fuel n j :
  0 <= j <= 12 → n <= 2 ^ 30 → 12 - j < Z.of_nat fuel →
  returns (init_size_loop fuel n (64 * 4 ^ j)) (λ sz, pow_size sz ∧ n <= sz).
Proof.
  revert j. induction fuel as [|fuel IH]; intros j Hj Hn Hf; [lia|]. cbn [init_size_loop].
  destruct (Z.ltb_spec (64 * 4 ^ j) n) as [Hlt|Hge].
  - assert (j ≠ 12) by (intros ->; lia).
    assert (u32 (Z.shiftl (64 * 4 ^ j) HASHMAP_RESIZE_BITS) = 64 * 4 ^ (j + 1)) as ->.
    { rewrite Z.shiftl_mul_pow2 by done. unfold u32, HASHMAP_RESIZE_BITS. rewrite Z.pow_add_r by lia.
      rewrite Z.mod_small; [lia|]. pose proof (Z.pow_pos_nonneg 4 j). lia. }
    apply IH; lia.
  - cbn. split; [|lia]. by exists j.
Qed.

Lemma hashmap_init_wp h fuel eqf n :
  0 <= n → n * 100 / 80 <= 2 ^ 30 → (13 <= fuel)%nat →
  returns (hashmap_init fuel eqf n) (λ map, wf h map (default always_equal eqf) [] ∧
    n * 100 / 80 <= tablesize map ∧ 64 <= tablesize map).
Proof.
  intros Hn Hmax Hf. unfold hashmap_init.
  assert (Hn' : u32 (u64 (n * 100) / HASHMAP_LOAD_FACTOR) = n * 100 / 80).
  { unfold u32, u64, HASHMAP_LOAD_FACTOR. rewrite (Z.mod_small (n * 100)).
    - apply Z.mod_small. Z.div_mod_to_equations. lia.
    - Z.div_mod_to_equations. lia. }
  rewrite Hn'. apply wp_bind. change HASHMAP_INITIAL_SIZE with (64 * 4 ^ 0).
  eapply wp_mono; [|apply init_size_loop_wp; lia]. intros sz [Hsz Hle]. cbn [wp].
  pose proof (pow_size_range _ Hsz). split; [|cbn; lia]. split; [done| |done|done].
  cbn [table tablesize]. split_and!; [done| |by apply (alloc_grow_at (HASHMAP_INIT always_equal))|].
  - exists (zrep sz []). rewrite concat_zrep_nil. split; [|done]. apply tbl_empty. lia.
  - apply (alloc_shrink_at (HASHMAP_INIT always_equal)).
Qed.

(** Above [2^30] buckets the doubling wraps to 0 and the loop never ends. *)
Lemma init_size_zero fuel n : 0 < n → init_size_loop fuel n 0 = NoFuel.
Proof.
  intros Hn. induction fuel as [|fuel IH]; [done|]. cbn [init_size_loop]. by eval_ltb 0 n.
Qed.
Lemma init_size_diverges fuel n j : 0 <= j <= 12 → 2 ^ 30 < n → init_size_loop fuel n (64 * 4 ^ j) = NoFuel.
Proof.
  intros Hj Hn. revert j Hj. induction fuel as [|fuel IH]; intros j Hj; [done|]. cbn [init_size_loop].
  pose proof (Z.pow_le_mono_r 4 j 12). eval_ltb (64 * 4 ^ j) n.
  destruct (decide (j = 12)) as [->|].
  - change (u32 _) with 0. apply init_size_zero. lia.
  - assert (u32 (Z.shiftl (64 * 4 ^ j) HASHMAP_RESIZE_BITS) = 64 * 4 ^ (j + 1)) as ->; [|apply IH; lia].
    rewrite Z.shiftl_mul_pow2 by done. unfold u32, HASHMAP_RESIZE_BITS. rewrite Z.pow_add_r by lia.
    rewrite Z.mod_small; [lia|]. pose proof (Z.pow_pos_nonneg 4 j). pose proof (Z.pow_le_mono_r 4 j 11). lia.
Qed.

End hashmap.
End Hashmap.
