(* ===== verification/HashmapOps.v ===== *)
(** * Sequences of hash table operations and the string pool (hashmap.c)

    The abstract specification of a hash table is a collection of entries with
    a nondeterministic choice among equal ones; every sequence of calls of the
    table refines it.  The pool behind [memintern] is a client. *)
From stdpp Require Import prelude gmap.
From S2P Require Import Prelude Order Hashmap.
Import Hashmap.

Module HashmapOps.

Section refinement.
Context {A K : Type} (f : A → A → option K → Z).
Abbreviation heap := (gmap Z (@hashmap_entry A)).

(** ** Calls and their specification *)
Inductive op :=
| Add (e : Z)
| Get (key : Z) (keydata : option K)
| Remove (key : Z) (keydata : option K)
| Put (e : Z).

Definition call (h : heap) (map : @hashmap A K) (o : op) : outcome (Z * heap * hashmap) :=
  match o with
  | Add e => let! (h, map) := hashmap_add h map e in Ret (0, h, map)
  | Get key kd => let! r := hashmap_get h map key kd in Ret (r, h, map)
  | Remove key kd => hashmap_remove h map key kd
  | Put e => hashmap_put h map e
  end.

Fixpoint calls (h : heap) (map : @hashmap A K) (os : list op) : outcome (list Z * heap * hashmap) :=
  match os with
  | [] => Ret ([], h, map)
  | o :: os =>
      let! (r, h, map) := call h map o in
      let! (rs, h, map) := calls h map os in
      Ret (r :: rs, h, map)
  end.

(** Some equal entry, or NULL when there is none. *)
Definition some_match (h : heap) (es : list Z) (key : Z) (kd : option K) (r : Z) : Prop :=
  (r ≠ 0 ∧ r ∈ es ∧ matches h f key kd r) ∨ (r = 0 ∧ ∀ p, p ∈ es → ¬ matches h f key kd p).

(** The abstract step: a collection of entries, up to order.  [h] gives the
    hash codes and the data of the entries, which no call changes. *)
Inductive astep (h : heap) : list Z → op → Z → list Z → Prop :=
| astep_add es e : astep h es (Add e) 0 (e :: es)
| astep_get es key kd r : some_match h es key kd r → astep h es (Get key kd) r es
| astep_remove_none es key kd :
    some_match h es key kd 0 → astep h es (Remove key kd) 0 es
| astep_remove es es' key kd r :
    r ≠ 0 → some_match h es key kd r → es ≡ₚ r :: es' → astep h es (Remove key kd) r es'
| astep_put_new es e :
    some_match h es e None 0 → astep h es (Put e) 0 (e :: es)
| astep_put es es' e r :
    r ≠ 0 → some_match h es e None r → es ≡ₚ r :: es' → astep h es (Put e) r (e :: es').

Inductive asteps (h : heap) : list Z → list op → list Z → list Z → Prop :=
| asteps_nil es : asteps h es [] [] es
| asteps_cons es o r es1 os rs es2 :
    astep h es o r es1 → asteps h es1 os rs es2 → asteps h es (o :: os) (r :: rs) es2.

(** What a caller owes: live cells, no entry added twice, fewer entries than
    the largest table takes. *)
Definition legal (h : heap) (es : list Z) (o : op) : Prop :=
  match o with
  | Add e | Put e => is_Some (h !! e) ∧ e ≠ 0 ∧ e ∉ es ∧ zlen es < 858993459
  | Get key _ | Remove key _ => is_Some (h !! key)
  end.
Fixpoint all_legal (h : heap) (es : list Z) (os : list op) : Prop :=
  match os with
  | [] => True
  | o :: os => legal h es o ∧ ∀ r es', astep h es o r es' → all_legal h es' os
  end.

(** The specification reads only the hash codes and the data of the cells. *)
Lemma some_match_info h h' es key kd r :
  same_info h h' → some_match h' es key kd r ↔ some_match h es key kd r.
Proof. intros Hi. unfold some_match. by setoid_rewrite (matches_same_info h h' f key kd _ Hi). Qed.
Lemma astep_info h h' es o r es' : same_info h h' → astep h' es o r es' → astep h es o r es'.
Proof.
  intros Hi. destruct 1; [apply astep_add|apply astep_get|apply astep_remove_none|
    eapply astep_remove|apply astep_put_new|eapply astep_put]; try done; by apply (some_match_info h h').
Qed.
Lemma live_info (h h' : heap) (p : Z) : same_info h h' → is_Some (h !! p) → is_Some (h' !! p).
Proof.
  intros Hi [n Hn]. specialize (Hi p). unfold info in Hi. rewrite Hn in Hi.
  destruct (h' !! p); [by eexists|done].
Qed.
Lemma same_info_sym (h h' : heap) : same_info h h' → same_info h' h.
Proof. intros Hi q. by rewrite Hi. Qed.
Lemma asteps_info h h' es os rs es' : same_info h h' → asteps h' es os rs es' → asteps h es os rs es'.
Proof. intros Hi. induction 1; econstructor; [by eapply astep_info|done]. Qed.
Lemma all_legal_info h h' es os : same_info h h' → all_legal h es os → all_legal h' es os.
Proof.
  intros Hi. revert es. induction os as [|o os IH]; intros es; [done|]. intros [Ho Hos]. split.
  - destruct o; cbn [legal] in *; repeat match goal with H : _ ∧ _ |- _ => destruct H end;
      split_and?; try done; by eapply live_info.
  - intros r es' Hr. apply IH. eapply Hos. by eapply astep_info.
Qed.

(** One call. *)
Lemma call_wp h map es o :
  wf h map f es → legal h es o →
  returns (call h map o) (λ '(r, h', map'), ∃ es', astep h es o r es' ∧ wf h' map' f es' ∧ same_info h h').
Proof.
  intros Hwf Ho. destruct o as [e|key kd|key kd|e]; cbn [call legal] in *.
  - destruct Ho as ([n Hn] & H0 & He & Hlt). apply wp_bind.
    eapply wp_mono; [|by eapply hashmap_add_wp]. intros r (h' & map' & -> & Hw & Hi & _). cbn.
    exists (e :: es). split_and!; [constructor|done|done].
  - destruct Ho as [n Hn]. apply wp_bind. eapply wp_mono; [|by eapply hashmap_get_wp].
    intros r Hr. cbn. exists es. split_and!; [by constructor|done|done].
  - destruct Ho as [n Hn]. eapply wp_mono; [|by eapply hashmap_remove_wp]. intros [[r h'] map'].
    intros [(-> & -> & -> & Hno)|(H0 & Hm & es' & Hes & Hw & Hi & _)].
    + exists es. split_and!; [|done|done]. apply astep_remove_none. by right.
    + exists es'. split_and!; [|done|done]. eapply astep_remove; [done| |done]. left.
      split_and!; [done| |done]. rewrite Hes. set_solver.
  - destruct Ho as ([n Hn] & H0 & He & Hlt). eapply wp_mono; [|by eapply hashmap_put_wp].
    intros [[r h'] map'] (es' & Hw & Hi & Hcase). exists (e :: es'). split_and!; [|done|done].
    destruct Hcase as [(-> & -> & Hno)|(Hr0 & Hm & Hes)].
    + apply astep_put_new. by right.
    + eapply astep_put; [done| |done]. left. split_and!; [done| |done]. rewrite Hes. set_solver.
Qed.

Lemma calls_wp h map es os :
  wf h map f es → all_legal h es os →
  returns (calls h map os) (λ '(rs, h', map'), ∃ es', asteps h es os rs es' ∧ wf h' map' f es' ∧
    same_info h h').
Proof.
  revert h map es. induction os as [|o os IH]; intros h map es Hwf Hl; cbn [calls].
  - cbn. exists es. split_and!; [constructor|done|done].
  - destruct Hl as [Ho Hos]. apply wp_bind. eapply wp_mono; [|by apply call_wp].
    intros [[r h1] map1] (es1 & Hstep & Hw1 & Hi1). apply wp_bind.
    eapply wp_mono; [|apply (IH h1 map1 es1); [done|]].
    + intros [[rs h2] map2] (es2 & Hsteps & Hw2 & Hi2). cbn. exists es2. split_and!; [|done|].
      * econstructor; [done|]. by eapply asteps_info.
      * intros q. by rewrite Hi2, Hi1.
    + eapply all_legal_info; [done|]. by eapply Hos.
Qed.
End refinement.

(** ** The string pool of [memintern] *)
Record pool_entry := Pool_entry { pe_ptr : Z; len : Z; pe_data : list Z }.

(** The key data is a pointer and the bytes there. *)
Definition pool_entry_cmp (e1 e2 : pool_entry) (keydata : option (Z * list Z)) : Z :=
  match keydata with
  | None => 1
  | Some (p, bytes) =>
      if negb (pe_ptr e1 =? p) &&
         (negb (len e1 =? len e2) ||
          negb (memcmp (ztake (len e1) (pe_data e1)) (ztake (len e1) bytes) =? 0))
      then 1 else 0
  end.

Abbreviation pool_heap := (gmap Z (@hashmap_entry pool_entry)).
Abbreviation pool_map := (@hashmap pool_entry (Z * list Z)).

(** [key] is the cell of the local variable, [fresh] the address [FLEX_ALLOC_MEM]
    would return; the result is the entry whose data the code returns. *)
Definition memintern (h : pool_heap) (map : pool_map) (key fresh : Z) (data : Z * list Z) (dlen : Z)
  : outcome (Z * pool_heap * pool_map) :=
  let! map := (if tablesize map =? 0 then hashmap_init 13 (Some pool_entry_cmp) 0 else Ret map) in
  let! hc := memhash data.2 dlen in
  let h := <[key := Hashmap_entry 0 hc (Pool_entry 0 dlen [])]> h in
  let! e := hashmap_get h map key (Some data) in
  if e =? 0 then
    let! bytes := rd_range data.2 0 dlen in
    let h := <[fresh := Hashmap_entry 0 hc (Pool_entry fresh dlen bytes)]> h in
    let! (h, map) := hashmap_add h map fresh in
    Ret (fresh, h, map)
  else Ret (e, h, map).

Lemma wf_frame {A K} (h h' : gmap Z (@hashmap_entry A)) (map : @hashmap A K) f es :
  wf h map f es → (∀ q, q ∈ es → h' !! q = h !! q) → wf h' map f es.
Proof.
  intros [Hf Ht Hc Hlt] Hq. split; [done| |done|done]. destruct (table map) as [t|]; [|done].
  destruct Ht as (Hsz & (cs & Htbl & Hes) & Hrest). split_and!; try apply Hrest; [done|].
  exists cs. split; [|done]. eapply tbl_frame; [done|]. intros q Hin. apply Hq. by rewrite Hes.
Qed.

(** The pool holds the strings [pc], each once, at the given entries. *)
Record pool (h : pool_heap) (map : pool_map) (pc : list (Z * list Z)) : Prop := Pool {
  pool_map_ok : (map = Hashmap None None 0 0 0 0 false ∧ pc = []) ∨
    (tablesize map ≠ 0 ∧ wf h map pool_entry_cmp pc.*1);
  pool_entries : ∀ e bytes, (e, bytes) ∈ pc →
    info h e = Some (memhash_loop bytes FNV32_BASE, Pool_entry e (zlen bytes) bytes);
  pool_once : NoDup pc.*2;
}.

Lemma memhash_eq buf n : 0 <= n <= zlen buf → memhash buf n = Ret (memhash_loop (ztake n buf) FNV32_BASE).
Proof.
  intros Hn. unfold memhash, rd_range. eval_leb 0 0. eval_leb 0 n. rewrite Z.add_0_l.
  eval_leb n (zlen buf). cbn [andb obind]. unfold zslice. by rewrite zdrop_0.
Qed.

(** A pooled string matches a key exactly when the bytes are the same. *)
Lemma pool_matches h e bytes key hc d n p :
  info h e = Some (memhash_loop bytes FNV32_BASE, Pool_entry e (zlen bytes) bytes) →
  info h key = Some (memhash_loop (ztake n d) FNV32_BASE, Pool_entry hc n []) →
  0 <= n <= zlen d → e ≠ key → e ≠ p →
  matches h pool_entry_cmp key (Some (p, d)) e ↔ bytes = ztake n d.
Proof.
  intros He Hk Hn Hne Hp. unfold matches. rewrite He, Hk.
  assert (Hlen : zlen (ztake n d) = n) by (apply zlen_ztake; lia). split.
  - intros [?|(h1 & d1 & d2 & [= <- <-] & [= _ <-] & Hcmp)]; [done|]. cbn [pool_entry_cmp pe_ptr len pe_data] in Hcmp.
    rewrite (proj2 (Z.eqb_neq e p)) in Hcmp by done. cbn [negb andb] in Hcmp.
    destruct (Z.eqb_spec (zlen bytes) n) as [<-|]; [|done]. cbn [negb orb] in Hcmp.
    rewrite ztake_all in Hcmp by lia. destruct (Z.eqb_spec (memcmp bytes (ztake (zlen bytes) d)) 0); [|done].
    by apply memcmp_eq.
  - intros ->. right. eexists _, _, _. split; [done|]. split; [done|].
    cbn [pool_entry_cmp pe_ptr len pe_data]. rewrite Hlen, Z.eqb_refl, ztake_all by lia.
    pose proof (cmp_refl memcmp (ztake n d)) as ->. by rewrite andb_false_r.
Qed.

Lemma memintern_wp h map pc key fresh p d n :
  pool h map pc → key ∉ pc.*1 → fresh ∉ pc.*1 → p ∉ pc.*1 → key ≠ 0 → fresh ≠ 0 → key ≠ fresh →
  0 <= n <= zlen d → zlen pc < 858993459 →
  returns (memintern h map key fresh (p, d) n) (λ '(r, h', map'), ∃ pc',
    pool h' map' pc' ∧ (r, ztake n d) ∈ pc' ∧
    (pc' = pc ∨ pc' = (fresh, ztake n d) :: pc)).
Proof.
  intros [Hmap Hent Honce] Hkey Hfresh Hp Hk0 Hf0 Hkf Hn Hsmall. unfold memintern. cbn [snd].
  apply wp_bind.
  assert (Hm : returns (if tablesize map =? 0 then hashmap_init 13 (Some pool_entry_cmp) 0 else Ret map)
    (λ m, tablesize m ≠ 0 ∧ wf h m pool_entry_cmp pc.*1)).
  { destruct Hmap as [[-> ->]|[Hsz Hwf]].
    - cbn [tablesize]. eapply wp_mono; [|by apply (hashmap_init_wp h 13 (Some pool_entry_cmp) 0)].
      intros m (Hwf & _ & Hsz). split; [lia|done].
    - by rewrite (proj2 (Z.eqb_neq _ _)). }
  eapply wp_mono; [|exact Hm]. clear Hm Hmap map. intros map [Hsz Hwf].
  rewrite memhash_eq by done. cbn [obind]. set (hc := memhash_loop _ _). set (h1 := <[key := _]> h).
  assert (Hh1 : ∀ q, q ∈ pc.*1 → h1 !! q = h !! q) by (intros q Hq; apply lookup_insert_ne; set_solver).
  assert (Hwf1 : wf h1 map pool_entry_cmp pc.*1) by by eapply wf_frame.
  assert (Hent1 : ∀ e bytes, (e, bytes) ∈ pc →
    info h1 e = Some (memhash_loop bytes FNV32_BASE, Pool_entry e (zlen bytes) bytes)).
  { intros e bytes He. unfold info. rewrite Hh1; [by apply Hent|]. by apply (list_elem_of_fmap_2 fst) in He. }
  assert (Hk1 : h1 !! key = Some (Hashmap_entry 0 hc (Pool_entry 0 n []))) by apply lookup_insert_eq.
  assert (Hmatch : ∀ e bytes, (e, bytes) ∈ pc →
    matches h1 pool_entry_cmp key (Some (p, d)) e ↔ bytes = ztake n d).
  { intros e bytes He. assert (He1 := list_elem_of_fmap_2 fst _ _ He).
    eapply pool_matches; [by apply Hent1|exact (info_lookup _ _ _ Hk1)|done|set_solver..]. }
  apply wp_bind. eapply wp_mono; [|by eapply hashmap_get_wp]. cbv beta.
  intros e [(H0 & Hin & Hm)|[-> Hno]].
  - rewrite (proj2 (Z.eqb_neq _ _)) by done. cbn [wp]. exists pc.
    apply list_elem_of_fmap in Hin as ([e' bytes] & -> & Hin). cbn [fst] in *.
    apply (Hmatch _ _ Hin) in Hm as ->. split_and!; [|done|by left]. split; [by right|done|done].
  - cbn [Z.eqb]. apply wp_bind, rd_range_wp; [lia..|]. unfold zslice. rewrite zdrop_0.
    set (h2 := <[fresh := _]> h1).
    assert (Hh2 : ∀ q, q ∈ pc.*1 → h2 !! q = h1 !! q) by (intros q Hq; apply lookup_insert_ne; set_solver).
    apply wp_bind. eapply wp_mono; [|eapply (hashmap_add_wp h2 map pool_entry_cmp pc.*1 fresh)].
    + cbv beta. intros r (h3 & map3 & -> & Hwf3 & Hi3 & _). cbn [wp].
      exists ((fresh, ztake n d) :: pc). split_and!; [|set_solver|by right]. split.
      * right. split; [|done]. pose proof (wf_table _ _ _ _ Hwf3) as Ht. destruct (table map3).
        -- destruct Ht as (Hsz3%pow_size_range & _). lia.
        -- by destruct Ht.
      * intros e bytes [[= -> ->]|He]%elem_of_cons; rewrite Hi3; unfold info.
        -- unfold h2. rewrite lookup_insert_eq. cbn. by rewrite zlen_ztake.
        -- rewrite Hh2; [by apply Hent1|]. by apply (list_elem_of_fmap_2 fst) in He.
      * cbn. constructor; [|done]. intros ([e bytes] & Heq & He)%list_elem_of_fmap. cbn in Heq. subst bytes.
        eapply (Hno e); [by apply (list_elem_of_fmap_2 fst) in He|]. by apply (Hmatch _ _ He).
    + eapply wf_frame; [done|]. done.
    + apply lookup_insert_eq.
    + done.
    + done.
    + unfold zlen in *. by rewrite length_fmap.
Qed.

End HashmapOps.
