(* ===== verification/StringList.v ===== *)
(** * String lists (string-list.c)

    An array of strings with a payload each, kept sorted by some of the
    functions and in any order by the others.  The sorted functions are shown to
    implement a set of strings (up to the comparison function); the splitting
    functions to be inverse to joining. *)
From stdpp Require Import prelude.
From S2P Require Import Prelude Order Sort.

Module StringList.

Section string_list.
Context {U : Type}.

(** A NUL-terminated string is its bytes, without the NUL. *)
Abbreviation cstring := (list Z).

Record string_list_item := Item { string : cstring; util : option U }.

Record string_list := String_list {
  items : list string_list_item;
  alloc : Z;
  strdup_strings : bool;
  cmp : option (cstring → cstring → Z);
}.

Definition nr (l : string_list) : Z := zlen (items l).
Definition set_items (l : string_list) (i : list string_list_item) : string_list :=
  String_list i (alloc l) (strdup_strings l) (cmp l).
Definition set_alloc (l : string_list) (n : Z) : string_list :=
  String_list (items l) n (strdup_strings l) (cmp l).
(** [list->cmp ? list->cmp : strcmp] *)
Definition cmp_fn (l : string_list) : cstring → cstring → Z :=
  match cmp l with Some f => f | None => memcmp end.

Definition string_list_init_nodup : string_list := String_list [] 0 false None.
Definition string_list_init_dup : string_list := String_list [] 0 true None.

Fixpoint entry_index_loop (fuel : nat) (l : string_list) (s : cstring) (left_ right_ : Z)
  : outcome (Z * bool) :=
  match fuel with
  | O => NoFuel
  | S fuel =>
      if left_ + 1 <? right_ then
        let middle := left_ + (right_ - left_) / 2 in
        let! e := rd (items l) middle in
        let compare := cmp_fn l s (string e) in
        if compare <? 0 then entry_index_loop fuel l s left_ middle
        else if 0 <? compare then entry_index_loop fuel l s middle right_
        else Ret (middle, true)
      else Ret (right_, false)
  end.

(** The index and [*exact_match]. *)
Definition get_entry_index (l : string_list) (s : cstring) : outcome (Z * bool) :=
  entry_index_loop (S (length (items l))) l s (-1) (nr l).

(** [MOVE_ARRAY] opens a gap at [index], which must not be beyond the end. *)
Definition add_entry (insert_at : Z) (l : string_list) (s : cstring) : outcome (Z * string_list) :=
  let! (index, exact_match) :=
    (if negb (insert_at =? -1) then Ret (insert_at, false) else get_entry_index l s) in
  if exact_match : bool then Ret (-1 - index, l)
  else
    let l := set_alloc l (alloc_grow (nr l + 1) (alloc l)) in
    if (0 <=? index) && (index <=? nr l) then
      Ret (index, set_items l (ztake index (items l) ++ Item s None :: zdrop index (items l)))
    else UB.

(** The result is the index of the item. *)
Definition string_list_insert (l : string_list) (s : cstring) : outcome (Z * string_list) :=
  let! (index, l) := add_entry (-1) l s in
  Ret (if index <? 0 then -1 - index else index, l).

Definition string_list_remove (l : string_list) (s : cstring) : outcome string_list :=
  let! (i, exact_match) := get_entry_index l s in
  if exact_match : bool then Ret (set_items l (ztake i (items l) ++ zdrop (i + 1) (items l)))
  else Ret l.

Definition string_list_has_string (l : string_list) (s : cstring) : outcome bool :=
  let! (_, exact_match) := get_entry_index l s in Ret exact_match.

Definition string_list_find_insert_index (l : string_list) (s : cstring) (negative_existing_index : bool)
  : outcome Z :=
  let! (index, exact_match) := get_entry_index l s in
  Ret (if exact_match : bool then -1 - (if negative_existing_index then index else 0) else index).

Definition string_list_lookup (l : string_list) (s : cstring) : outcome (option Z) :=
  let! (i, exact_match) := get_entry_index l s in
  Ret (if negb exact_match then None else Some i).

(** [dst] items are kept so far, the last of them [prev]. *)
Fixpoint remove_duplicates_loop (f : cstring → cstring → Z) (prev : string_list_item)
  (src : list string_list_item) : list string_list_item :=
  match src with
  | [] => []
  | x :: src =>
      if f (string prev) (string x) =? 0 then remove_duplicates_loop f prev src
      else x :: remove_duplicates_loop f x src
  end.
Definition string_list_remove_duplicates (l : string_list) : string_list :=
  if 1 <? nr l then
    match items l with
    | [] => l
    | x :: src => set_items l (x :: remove_duplicates_loop (cmp_fn l) x src)
    end
  else l.

(** Callbacks change the state behind [cb_data] and return an [int]. *)
Fixpoint for_each_string_list {S} (fn : S → string_list_item → outcome (S * Z))
  (l : list string_list_item) (cb_data : S) : outcome (S * Z) :=
  match l with
  | [] => Ret (cb_data, 0)
  | x :: l =>
      let! (cb_data, ret) := fn cb_data x in
      if negb (ret =? 0) then Ret (cb_data, ret) else for_each_string_list fn l cb_data
  end.

Fixpoint filter_items {S} (want : S → string_list_item → outcome (S * Z))
  (l : list string_list_item) (cb_data : S) : outcome (S * list string_list_item) :=
  match l with
  | [] => Ret (cb_data, [])
  | x :: l =>
      let! (cb_data, w) := want cb_data x in
      let! (cb_data, r) := filter_items want l cb_data in
      Ret (cb_data, if negb (w =? 0) then x :: r else r)
  end.
Definition filter_string_list {S} (l : string_list) (want : S → string_list_item → outcome (S * Z))
  (cb_data : S) : outcome (S * string_list) :=
  let! (cb_data, i) := filter_items want (items l) cb_data in
  Ret (cb_data, set_items l i).

Definition item_is_not_empty (data : unit) (item : string_list_item) : outcome (unit * Z) :=
  Ret (tt, if bool_decide (string item = []) then 0 else 1).
Definition string_list_remove_empty_items (l : string_list) : outcome string_list :=
  let! (_, l) := filter_string_list l item_is_not_empty tt in Ret l.

Definition string_list_clear (l : string_list) : string_list :=
  String_list [] 0 (strdup_strings l) (cmp l).

Definition string_list_setlen (l : string_list) (n : Z) : outcome string_list :=
  if strdup_strings l then Die
  else if nr l <? n then Die
  else Ret (set_items l (ztake n (items l))).

Definition string_list_append_nodup (l : string_list) (s : cstring) : string_list :=
  let l := set_alloc l (alloc_grow (nr l + 1) (alloc l)) in
  set_items l (items l ++ [Item s None]).
(** The copy that [strdup_strings] asks for has the same bytes. *)
Definition string_list_append (l : string_list) (s : cstring) : string_list :=
  string_list_append_nodup l s.

Definition cmp_items (f : cstring → cstring → Z) (one two : string_list_item) : Z :=
  f (string one) (string two).
(** [sizeof(struct string_list_item)] is 16: two pointers. *)
Definition string_list_sort (l : string_list) : outcome string_list :=
  let! i := Sort.git_qsort_s (cmp_items (cmp_fn l)) 16 (items l) in
  Ret (set_items l i).

Fixpoint unsorted_lookup_loop (f : cstring → cstring → Z) (s : cstring) (l : list string_list_item)
  : option string_list_item :=
  match l with
  | [] => None
  | x :: l => if f s (string x) =? 0 then Some x else unsorted_lookup_loop f s l
  end.
Definition unsorted_string_list_lookup (l : string_list) (s : cstring) : option string_list_item :=
  unsorted_lookup_loop (cmp_fn l) s (items l).
Definition unsorted_string_list_has_string (l : string_list) (s : cstring) : bool :=
  match unsorted_string_list_lookup l s with None => false | Some _ => true end.

Definition unsorted_string_list_delete_item (l : string_list) (i : Z) : outcome string_list :=
  let! last := rd (items l) (nr l - 1) in
  let! a := wr (items l) i last in
  Ret (set_items l (ztake (nr l - 1) a)).

(** ** Splitting *)

(** [strchr] and [strpbrk]: the position of the first byte that [isd] accepts. *)
Fixpoint find_byte (isd : Z → bool) (p : cstring) : option nat :=
  match p with
  | [] => None
  | c :: p => if isd c then Some O else S <$> find_byte isd p
  end.

(** The loop of both functions; [delim] is not NUL. *)
Fixpoint split_loop (fuel : nat) (isd : Z → bool) (l : string_list) (p : cstring) (maxsplit count : Z)
  : outcome (Z * string_list) :=
  match fuel with
  | O => NoFuel
  | S fuel =>
      let count := count + 1 in
      if (0 <=? maxsplit) && (maxsplit <? count) then Ret (count, string_list_append l p)
      else
        match find_byte isd p with
        | Some e => split_loop fuel isd (string_list_append_nodup l (take e p)) (drop (S e) p) maxsplit count
        | None => Ret (count, string_list_append l p)
        end
  end.

Definition string_list_split (l : string_list) (s : cstring) (delim maxsplit : Z)
  : outcome (Z * string_list) :=
  if negb (strdup_strings l) then Die
  else split_loop (S (length s)) (λ c, c =? delim) l s maxsplit 0.

Definition string_list_split_in_place (l : string_list) (s delim : cstring) (maxsplit : Z)
  : outcome (Z * string_list) :=
  if strdup_strings l then Die
  else split_loop (S (length s)) (λ c, bool_decide (c ∈ delim)) l s maxsplit 0.

(** ** Sorted lists *)
Section sorted.
Context (f : cstring → cstring → Z) `{!CmpOrder f}.

(** A sorted list for the comparison function [f]. *)
Definition wf (l : string_list) : Prop := cmp_fn l = f ∧ ascending f (string <$> items l).

(** Some item compares equal to [x]. *)
Definition has (l : string_list) (x : cstring) : Prop := ∃ e, e ∈ items l ∧ f (string e) x = 0.

Lemma znth_fmap {A B} (g : A → B) (l : list A) i : znth (g <$> l) i = g <$> znth l i.
Proof. unfold znth. destruct (0 <=? i); [apply list_lookup_fmap|done]. Qed.

Lemma entry_index_loop_wp fuel l s lo hi :
  wf l → -1 <= lo < hi → hi <= nr l → hi - lo <= Z.of_nat fuel →
  split_at f (string <$> items l) s (lo + 1) hi →
  returns (entry_index_loop fuel l s lo hi) (λ '(i, exact_match),
    if exact_match : bool then ∃ e, znth (items l) i = Some e ∧ f (string e) s = 0
    else 0 <= i <= nr l ∧ split_at f (string <$> items l) s i i).
Proof using CmpOrder0.
  intros [Hc Hs]. revert lo hi. induction fuel as [|fuel IH]; intros lo hi Hlo Hhi Hf Hsp; [lia|].
  cbn [entry_index_loop]. destruct (Z.ltb_spec (lo + 1) hi).
  2:{ cbn. replace hi with (lo + 1) in * by lia. split; [lia|done]. }
  set (mid := lo + (hi - lo) / 2). assert (lo < mid < hi) by (unfold mid; Z.div_mod_to_equations; lia).
  clearbody mid. unfold nr in *. apply wp_bind, rd_wp; [lia|]. intros e He. rewrite Hc.
  assert (znth (string <$> items l) mid = Some (string e)) as He' by (by rewrite znth_fmap, He).
  destruct (Z.ltb_spec (f s (string e)) 0) as [Hl|Hge].
  - apply IH; [lia..|]. eapply split_at_hi; [done|by apply ascending_nondec|done..|]. by apply cmp_flip.
  - destruct (Z.ltb_spec 0 (f s (string e))) as [Hg|Hle].
    + apply IH; [lia..|]. eapply split_at_lo; [done|by apply ascending_nondec|done..|]. by apply cmp_flip.
    + cbn. exists e. split; [done|]. apply cmp_zero_sym; [done|lia].
Qed.

Lemma get_entry_index_wp l s :
  wf l → returns (get_entry_index l s) (λ '(i, exact_match),
    if exact_match : bool then ∃ e, znth (items l) i = Some e ∧ f (string e) s = 0
    else 0 <= i <= nr l ∧ split_at f (string <$> items l) s i i).
Proof using CmpOrder0.
  intros Hwf. pose proof (zlen_nonneg (items l)). unfold get_entry_index, nr.
  apply entry_index_loop_wp; [done|lia|done|unfold zlen; lia|].
  rewrite <- (zlen_fmap string). apply split_at_init.
Qed.

Lemma has_absent l s p : wf l → split_at f (string <$> items l) s p p → ¬ has l s.
Proof using CmpOrder0.
  intros _ Hsp (e & He & Hc). eapply split_at_absent; [done..|exact Hsp| |exact Hc].
  by apply list_elem_of_fmap_2.
Qed.

Lemma has_found l s i e : znth (items l) i = Some e → f (string e) s = 0 → has l s.
Proof.
  intros He Hc. exists e. split; [|done]. unfold znth in He. destruct (0 <=? i); [|done].
  by eapply list_elem_of_lookup_2.
Qed.

Lemma has_string_wp l s :
  wf l → returns (string_list_has_string l s) (λ r, r = true ↔ has l s).
Proof using CmpOrder0.
  intros Hwf. apply wp_bind. eapply wp_mono; [|by apply get_entry_index_wp].
  intros [i [|]] Hr; cbn.
  - destruct Hr as (e & He & Hc). split; [|done]. intros _. by eapply has_found.
  - destruct Hr as [_ Hsp]. split; [done|]. intros Hh. by eapply has_absent in Hh.
Qed.

(** Insertion: an item equal to [s] is kept; otherwise one is added. *)
Lemma insert_wp l s :
  wf l → returns (string_list_insert l s) (λ '(i, l'), wf l' ∧
    (∃ e, znth (items l') i = Some e ∧ f (string e) s = 0) ∧
    (has l s ∧ l' = l ∨ ¬ has l s ∧ items l' ≡ₚ Item s None :: items l)).
Proof using CmpOrder0.
  intros Hwf. unfold string_list_insert, add_entry. cbn [Z.eqb Pos.eqb negb].
  pose proof (get_entry_index_wp l s Hwf) as Hg.
  apply returns_eq in Hg as ([i [|]] & -> & Hr); cbn [obind].
  - destruct Hr as (e & He & Hc). pose proof (znth_Some_lt _ _ _ He).
    eval_ltb (-1 - i) 0. cbn [wp]. replace (-1 - (-1 - i)) with i by lia. split_and!; [done|by exists e|].
    left. split; [by eapply has_found|done].
  - destruct Hr as [Hi Hsp]. unfold nr in *. cbn [items set_alloc].
    rewrite !(proj2 (Z.leb_le _ _)) by lia. cbn [andb obind wp]. eval_ltb i 0.
    destruct Hwf as [Hc Hs]. split_and!.
    + split; [done|]. cbn [items set_items]. rewrite fmap_app, fmap_cons.
      unfold ztake, zdrop. rewrite fmap_take, fmap_drop. apply (ascending_insert f); [done|lia|done].
    + exists (Item s None). split; [|by apply cmp_refl]. cbn [items set_items].
      assert (zlen (ztake i (items l)) = i) as El by (by apply zlen_ztake). pose proof (znth_app_len (ztake i (items l)) (Item s None) (zdrop i (items l))) as Hz. by rewrite El in Hz.
    + right. split; [by eapply has_absent|]. cbn [items set_items].
      by rewrite <- Permutation_middle, ztake_zdrop.
Qed.

(** Removal takes out the item equal to [s], if there is one. *)
Lemma remove_wp l s :
  wf l → returns (string_list_remove l s) (λ l', wf l' ∧ ¬ has l' s ∧
    (¬ has l s ∧ l' = l ∨ ∃ e, f (string e) s = 0 ∧ items l ≡ₚ e :: items l')).
Proof using CmpOrder0.
  intros Hwf. unfold string_list_remove. pose proof (get_entry_index_wp l s Hwf) as Hg.
  apply returns_eq in Hg as ([i [|]] & -> & Hr); cbn [obind wp].
  2:{ destruct Hr as [_ Hsp]. split_and!; [done|by eapply has_absent|left]. split; [by eapply has_absent|done]. }
  destruct Hr as (e & He & Hc). pose proof (znth_Some_lt _ _ _ He). destruct Hwf as [Hcf Hs].
  assert (items l = ztake i (items l) ++ [e] ++ zdrop (i + 1) (items l)) as Ei.
  { cbn [app]. rewrite <- (zdrop_cons (items l) i e ltac:(lia) He). by rewrite ztake_zdrop. }
  split_and!.
  - split; [done|]. cbn [items set_items]. rewrite Ei, !fmap_app in Hs.
    rewrite fmap_app. by eapply ascending_app_sub.
  - intros (e' & He' & Hc'). cbn [items set_items] in He'.
    assert (f (string e) (string e') = 0) as Hee.
    { apply cmp_zero_sym in Hc; [|done]. apply cmp_zero_sym in Hc'; [|done].
      pose proof (cmp_le_trans (string e) s (string e')) as Ht1. pose proof (cmp_le_trans (string e') s (string e)) as Ht2.
      apply cmp_zero_sym in Hc, Hc'; [|done..].
      pose proof (cmp_zero_sym f _ _ Hc). pose proof (cmp_zero_sym f _ _ Hc').
      pose proof (cmp_flip (string e) (string e')). pose proof (cmp_flip (string e') (string e)). lia. }
    apply elem_of_app in He' as [He'|He'].
    + destruct (znth_take_lookup _ i e' ltac:(lia) He') as (k & Hk & Hz).
      pose proof (ascending_znth f (string <$> items l) k i (string e') (string e) Hs) as Hlt.
      rewrite !znth_fmap, Hz, He in Hlt. specialize (Hlt eq_refl eq_refl Hk). apply cmp_zero_sym in Hee; [lia|done].
    + destruct (znth_drop_lookup _ (i + 1) e' ltac:(lia) He') as (k & Hk & Hz).
      pose proof (ascending_znth f (string <$> items l) i k (string e) (string e') Hs) as Hlt.
      rewrite !znth_fmap, Hz, He in Hlt. specialize (Hlt eq_refl eq_refl ltac:(lia)). lia.
  - right. exists e. split; [done|]. cbn [items set_items]. rewrite Permutation_middle.
    change (e :: zdrop (i + 1) (items l)) with ([e] ++ zdrop (i + 1) (items l)). by rewrite <- Ei.
Qed.

(** ** Sorting, and dropping duplicates of a sorted list *)
#[local] Instance cmp_items_order : CmpOrder (cmp_items f).
Proof using CmpOrder0.
  split.
  - intros a b. apply (cmp_flip (cmp := f)).
  - intros a b c. apply (cmp_le_trans (cmp := f)).
Qed.

Lemma sort_wp l :
  cmp_fn l = f → nr l * 16 < 2 ^ 64 →
  returns (string_list_sort l) (λ l', cmp_fn l' = f ∧
    Sort.stable_sort_of (cmp_items f) (items l) (items l')).
Proof using CmpOrder0.
  intros Hc Hn. apply wp_bind. rewrite Hc. eapply wp_mono; [|apply Sort.git_qsort_s_wp; [apply _|exact Hn]].
  cbv beta. intros i Hi. cbn. done.
Qed.

Lemma remove_duplicates_loop_spec prev src :
  StronglySorted (Sort.le (cmp_items f)) (prev :: src) →
  StronglySorted (λ a b, f (string a) (string b) < 0) (prev :: remove_duplicates_loop f prev src) ∧
  ∀ x, (∃ e, e ∈ prev :: remove_duplicates_loop f prev src ∧ f (string e) x = 0) ↔
       (∃ e, e ∈ prev :: src ∧ f (string e) x = 0).
Proof using CmpOrder0.
  revert prev. induction src as [|y src IH]; intros prev Hs; cbn [remove_duplicates_loop].
  { split; [repeat constructor|done]. }
  apply StronglySorted_cons in Hs as [[Hpy Hps]%Forall_cons Hs].
  unfold Sort.le, cmp_items in Hpy. destruct (Z.eqb_spec (f (string prev) (string y)) 0) as [E|E].
  - destruct (IH prev) as [IH1 IH2].
    { apply StronglySorted_cons. split; [done|]. by apply StronglySorted_cons in Hs as [_ Hs]. }
    split; [done|]. intros x. rewrite IH2. split; intros (e & He & Hx).
    + exists e. split; [set_solver|done].
    + apply elem_of_cons in He as [->|[->|He]%elem_of_cons].
      * exists prev. split; [set_solver|done].
      * exists prev. split; [set_solver|].
        pose proof (cmp_le_trans (string prev) (string y) x). pose proof (cmp_zero_sym f _ _ E).
        pose proof (cmp_zero_sym f _ _ Hx). pose proof (cmp_le_trans x (string y) (string prev)).
        pose proof (cmp_flip (string prev) x). pose proof (cmp_flip x (string prev)). lia.
      * exists e. split; [set_solver|done].
  - destruct (IH y Hs) as [IH1 IH2]. split.
    + apply StronglySorted_cons. split; [|done]. apply StronglySorted_cons in IH1 as [IH1 _].
      constructor; [lia|]. eapply Forall_impl; [exact IH1|]. cbv beta. intros z Hz.
      apply (cmp_le_lt_trans f _ (string y)); [lia|done].
    + intros x. split; intros (e & He & Hx); (apply elem_of_cons in He as [->|He]; [by exists prev; split; [set_solver|]|]).
      * destruct (proj1 (IH2 x)) as (e' & He' & Hx'); [by exists e|]. exists e'. split; [set_solver|done].
      * destruct (proj2 (IH2 x)) as (e' & He' & Hx'); [by exists e|]. exists e'. split; [set_solver|done].
Qed.

Lemma remove_duplicates_wf l :
  cmp_fn l = f → StronglySorted (Sort.le (cmp_items f)) (items l) →
  wf (string_list_remove_duplicates l) ∧ ∀ x, has (string_list_remove_duplicates l) x ↔ has l x.
Proof using CmpOrder0.
  intros Hc Hs. unfold string_list_remove_duplicates, nr.
  destruct (Z.ltb_spec 1 (zlen (items l))).
  - destruct (items l) as [|x src] eqn:Ei; [done|]. rewrite Hc.
    destruct (remove_duplicates_loop_spec x src Hs) as [H1 H2]. split.
    + split; [done|]. cbn [items set_items]. eapply StronglySorted_fmap; [|exact H1]. done.
    + intros y. unfold has. cbn [items set_items]. by rewrite H2, Ei.
  - split; [|done]. split; [done|]. destruct (items l) as [|x [|y src]]; [constructor|repeat constructor|].
    rewrite !zlen_cons in *. pose proof (zlen_nonneg src). lia.
Qed.

End sorted.

(** ** Splitting is inverse to joining *)
Fixpoint join (delim : Z) (pieces : list cstring) : cstring :=
  match pieces with
  | [] => []
  | [p] => p
  | p :: pieces => p ++ delim :: join delim pieces
  end.

Lemma find_byte_Some isd p e :
  find_byte isd p = Some e → ∃ c, p = take e p ++ c :: drop (S e) p ∧ isd c = true ∧
    Forall (λ c, isd c = false) (take e p) ∧ (e < length p)%nat.
Proof.
  revert e. induction p as [|c p IH]; intros e; cbn; [done|]. destruct (isd c) eqn:Ec.
  - intros [= <-]. exists c. split_and!; [done..|constructor|lia].
  - destruct (find_byte isd p) as [e'|] eqn:Ee; [|done]. intros [= <-].
    destruct (IH e' eq_refl) as (d & Hp & Hd & Hf & Hl). exists d. cbn. split_and!; [by f_equal|done|by constructor|lia].
Qed.
Lemma find_byte_None isd p : find_byte isd p = None → Forall (λ c, isd c = false) p.
Proof.
  induction p as [|c p IH]; cbn; [constructor|]. destruct (isd c) eqn:Ec; [done|].
  destruct (find_byte isd p); [done|]. intros _. constructor; auto.
Qed.

Lemma split_loop_wp fuel : ∀ l p delim maxsplit count,
  (length p < fuel)%nat →
  returns (split_loop fuel (λ c, c =? delim) l p maxsplit count) (λ '(count', l'), ∃ pieces,
    items l' = items l ++ ((λ s, Item s None) <$> pieces) ∧ join delim pieces = p ∧ pieces ≠ [] ∧
    count' = count + zlen pieces ∧ (0 <= maxsplit → count' <= Z.max (count + 1) (maxsplit + 1)) ∧
    (maxsplit < 0 → Forall (λ s, delim ∉ s) pieces)).
Proof.
  induction fuel as [|fuel IH]; intros l p delim maxsplit count Hf; [lia|]. cbn [split_loop].
  destruct ((0 <=? maxsplit) && (maxsplit <? count + 1)) eqn:Em.
  { cbn. exists [p]. apply andb_true_iff in Em as [Em1%Z.leb_le Em2%Z.ltb_lt].
    change (zlen [p]) with 1. split_and!; try done; lia. }
  destruct (find_byte _ p) as [e|] eqn:Ee.
  - destruct (find_byte_Some _ _ _ Ee) as (c & Hp & Hc%Z.eqb_eq & Hfa & Hl). subst c.
    eapply wp_mono; [|apply IH]. 2:{ rewrite length_drop. lia. }
    intros [count' l'] (pieces & Hi & Hj & Hne & Hcnt & Hmax & Hno). exists (take e p :: pieces).
    split_and!.
    + rewrite Hi. cbn. by rewrite <- app_assoc.
    + destruct pieces as [|q pieces]; [done|]. transitivity (take e p ++ delim :: drop (S e) p); [|done]. by rewrite <- Hj.
    + done.
    + rewrite zlen_cons. lia.
    + intros Hm. specialize (Hmax Hm). apply andb_false_iff in Em as [Em%Z.leb_gt|Em%Z.ltb_ge]; lia.
    + intros Hm. constructor; [|by apply Hno]. intros Hin. rewrite Forall_forall in Hfa.
      specialize (Hfa _ Hin). by rewrite Z.eqb_refl in Hfa.
  - cbn. exists [p]. change (zlen [p]) with 1. split_and!; try done; [lia|].
    intros _. constructor; [|constructor]. intros Hin. apply find_byte_None in Ee.
    rewrite Forall_forall in Ee. specialize (Ee _ Hin). by rewrite Z.eqb_refl in Ee.
Qed.

End string_list.
End StringList.
