(* ===== verification/OidArray.v ===== *)
(** * Arrays of object ids (oid-array.c, oid-array.h)

    An array that is appended to in any order and sorted when it is first
    searched; used as a multiset or, through the [unique] iteration, as a set. *)
From stdpp Require Import prelude.
From S2P Require Import Prelude Order HashLookup.
Import HashLookup.

Module OidArray.

(** hash.h *)
Record object_id := Object_id { hash : list Z; algo : Z }.
#[export] Instance object_id_eq_dec : EqDecision object_id.
Proof. solve_decision. Defined.

Definition oidcmp (a b : object_id) : Z := memcmp (hash a) (hash b).
Definition oideq (a b : object_id) : bool := memcmp (hash a) (hash b) =? 0.

(** [nr] is the length of [oid]; [alloc] the room it has. *)
Record oid_array := Oid_array { oid : list object_id; alloc : Z; sorted : bool }.
Definition OID_ARRAY_INIT : oid_array := Oid_array [] 0 false.
Definition nr (array : oid_array) : Z := zlen (oid array).

Section oid_array.
(** The index of [the_hash_algo] and the size of its hashes; the [qsort] of the
    library. *)
Context (the_hash_algo rawsz : Z) `{!Qsort}.

Definition oid_array_append (array : oid_array) (x : object_id) : oid_array :=
  let x := if algo x =? 0 then Object_id (hash x) the_hash_algo else x in
  Oid_array (oid array ++ [x]) (alloc_grow (nr array + 1) (alloc array)) false.

Definition void_hashcmp (a b : object_id) : Z :=
  if algo a =? algo b then oidcmp a b else if algo b <? algo a then 1 else -1.

Definition oid_array_sort (array : oid_array) : oid_array :=
  if sorted array then array
  else Oid_array (if 1 <? nr array then qsort void_hashcmp (oid array) else oid array) (alloc array) true.

Definition oid_access (table : list object_id) (index : Z) : outcome (list Z) :=
  let! x := rd table index in Ret (hash x).

Definition oid_array_lookup (array : oid_array) (x : object_id) : outcome (oid_array * Z) :=
  let array := oid_array_sort array in
  let! r := oid_pos (oid_access (oid array)) rawsz (hash x) (nr array) in
  Ret (array, r).

Definition oid_array_clear (array : oid_array) : oid_array := Oid_array [] 0 false.

(** A callback sees an id and its [data], which it may change; a result other
    than 0 ends the iteration. *)
Section callbacks.
Context {S : Type} (fn : object_id → S → S * Z).

Fixpoint for_each_loop (k : nat) (l : list object_id) (i : Z) (data : S) : outcome (S * Z) :=
  match k with
  | O => Ret (data, 0)
  | Datatypes.S k =>
      let! x := rd l i in
      let (data, ret) := fn x data in
      if negb (ret =? 0) then Ret (data, ret) else for_each_loop k l (i + 1) data
  end.
Definition oid_array_for_each (array : oid_array) (data : S) : outcome (S * Z) :=
  for_each_loop (length (oid array)) (oid array) 0 data.

(** oid-array.h *)
Fixpoint next_unique_loop (fuel : nat) (l : list object_id) (cur : Z) : outcome Z :=
  match fuel with
  | O => NoFuel
  | Datatypes.S fuel =>
      let cur := cur + 1 in
      if cur <? zlen l then
        let! a := rd l cur in
        let! b := rd l (cur - 1) in
        if oideq a b then next_unique_loop fuel l cur else Ret cur
      else Ret cur
  end.
Definition oid_array_next_unique (array : oid_array) (cur : Z) : outcome Z :=
  next_unique_loop (Datatypes.S (length (oid array))) (oid array) cur.

Fixpoint for_each_unique_loop (fuel : nat) (array : oid_array) (i : Z) (data : S) : outcome (S * Z) :=
  match fuel with
  | O => NoFuel
  | Datatypes.S fuel =>
      if i <? nr array then
        let! x := rd (oid array) i in
        let (data, ret) := fn x data in
        if negb (ret =? 0) then Ret (data, ret)
        else
          let! i := oid_array_next_unique array i in
          for_each_unique_loop fuel array i data
      else Ret (data, 0)
  end.
Definition oid_array_for_each_unique (array : oid_array) (data : S) : outcome (oid_array * (S * Z)) :=
  let array := oid_array_sort array in
  let! r := for_each_unique_loop (Datatypes.S (length (oid array))) array 0 data in
  Ret (array, r).

(** [src] runs ahead of [dst] in the same array. *)
Fixpoint filter_loop (k : nat) (oids : list object_id) (src dst : Z) (data : S) : outcome (list object_id * Z * S) :=
  match k with
  | O => Ret (oids, dst, data)
  | Datatypes.S k =>
      let! x := rd oids src in
      let (data, ret) := fn x data in
      if negb (ret =? 0) then
        let! oids := if negb (src =? dst) then wr oids dst x else Ret oids in
        filter_loop k oids (src + 1) (dst + 1) data
      else filter_loop k oids (src + 1) dst data
  end.
Definition oid_array_filter (array : oid_array) (data : S) : outcome (oid_array * S) :=
  let! (oids, dst, data) := filter_loop (length (oid array)) (oid array) 0 0 data in
  Ret (Oid_array (ztake dst oids) (alloc array) (sorted array), data).
End callbacks.
End oid_array.

(** ** The callbacks as folds

    [visit fn l data] calls [fn] on the elements of [l] until it refuses one. *)
Section spec.
Context {S : Type} (fn : object_id → S → S * Z).

Fixpoint visit (l : list object_id) (data : S) : S * Z :=
  match l with
  | [] => (data, 0)
  | x :: l => let (data, ret) := fn x data in if negb (ret =? 0) then (data, ret) else visit l data
  end.
(** The elements it wants, and its final state. *)
Fixpoint wanted (l : list object_id) (data : S) : list object_id * S :=
  match l with
  | [] => ([], data)
  | x :: l =>
      let (data, ret) := fn x data in
      let (r, data) := wanted l data in
      (if negb (ret =? 0) then x :: r else r, data)
  end.

Lemma for_each_loop_ok pre l data :
  for_each_loop fn (length l) (pre ++ l) (zlen pre) data = Ret (visit l data).
Proof.
  revert pre data. induction l as [|x l IH]; intros pre data; [done|]. cbn [length for_each_loop visit].
  rewrite (rd_at _ pre x l) by done. cbn [obind]. destruct (fn x data) as [data' ret]. destruct (negb (ret =? 0)); [done|].
  replace (zlen pre + 1) with (zlen (pre ++ [x])) by zlia.
  specialize (IH (pre ++ [x]) data'). rewrite <- app_assoc in IH. exact IH.
Qed.

Lemma filter_loop_ok kept junk l data :
  ∃ junk', filter_loop fn (length l) (kept ++ junk ++ l) (zlen kept + zlen junk) (zlen kept) data =
  Ret (kept ++ (wanted l data).1 ++ junk', zlen kept + zlen (wanted l data).1, (wanted l data).2).
Proof.
  revert kept junk data. induction l as [|x l IH]; intros kept junk data.
  { cbn. exists junk. by rewrite app_nil_r, Z.add_0_r. }
  cbn [length filter_loop wanted]. rewrite (rd_at _ (kept ++ junk) x l); [|by rewrite <- app_assoc|zlia]. cbn [obind].
  destruct (fn x data) as [data' ret]. destruct (ret =? 0) eqn:Er; cbn [negb].
  - destruct (IH kept (junk ++ [x]) data') as [junk' E]. destruct (wanted l data') as [r d]. cbn in *. exists junk'.
    rewrite <- E, <- !app_assoc. f_equal. zlia.
  - assert (∃ junk2, zlen junk2 = zlen junk ∧ (if negb (zlen kept + zlen junk =? zlen kept) then wr (kept ++ junk ++ x :: l) (zlen kept) x
      else Ret (kept ++ junk ++ x :: l)) = Ret ((kept ++ [x]) ++ junk2 ++ l)) as (junk2 & L2 & ->).
    { destruct junk as [|y junk]; [exists []; split; [done|]|].
      - rewrite zlen_nil, Z.add_0_r, Z.eqb_refl. cbn. by rewrite <- app_assoc.
      - exists (junk ++ [x]). split; [zlia|].
        destruct (Z.eqb_spec (zlen kept + zlen (y :: junk)) (zlen kept)); [zlia|]. cbn [negb].
        rewrite (wr_at _ kept y (junk ++ x :: l)) by done. f_equal. by rewrite <- !app_assoc. }
    cbn [obind]. destruct (IH (kept ++ [x]) junk2 data') as [junk' E]. destruct (wanted l data') as [r d]. cbn in *.
    exists junk'. replace (zlen kept + zlen junk + 1) with (zlen (kept ++ [x]) + zlen junk2) by zlia.
    replace (zlen kept + 1) with (zlen (kept ++ [x])) by zlia. rewrite E, <- !app_assoc. do 2 f_equal. f_equal. zlia.
Qed.

Lemma oid_array_filter_ok array data :
  oid_array_filter fn array data =
  Ret (Oid_array (wanted (oid array) data).1 (alloc array) (sorted array), (wanted (oid array) data).2).
Proof.
  unfold oid_array_filter. destruct (filter_loop_ok [] [] (oid array) data) as [junk' E]. cbn [app] in E.
  change (zlen [] + zlen []) with 0 in E. change (zlen (@nil object_id)) with 0 in E. rewrite E. cbn [obind].
  by rewrite Z.add_0_l, ztake_app_len.
Qed.
End spec.

(** ** The unique iteration *)
Fixpoint uniq_after (prev : object_id) (l : list object_id) : list object_id :=
  match l with
  | [] => []
  | y :: l => if oideq y prev then uniq_after y l else y :: uniq_after y l
  end.
Definition uniq (l : list object_id) : list object_id :=
  match l with [] => [] | x :: l => x :: uniq_after x l end.

Lemma next_unique_loop_ok fuel pre x l :
  (length l < fuel)%nat →
  ∃ skipped rest, l = skipped ++ rest ∧ uniq_after x l = uniq rest ∧
    next_unique_loop fuel (pre ++ x :: l) (zlen pre) = Ret (zlen pre + 1 + zlen skipped).
Proof.
  revert pre x l. induction fuel as [|fuel IH]; intros pre x l Hf; [lia|]. cbn [next_unique_loop].
  destruct l as [|y l].
  - exists [], []. split_and!; try done. destruct (Z.ltb_spec (zlen pre + 1) (zlen (pre ++ [x]))); [zlia|]. f_equal. rewrite zlen_nil. lia.
  - destruct (Z.ltb_spec (zlen pre + 1) (zlen (pre ++ x :: y :: l))); [|zlia].
    rewrite (rd_at _ (pre ++ [x]) y l); [|by rewrite <- app_assoc|zlia]. cbn [obind].
    rewrite (rd_at _ pre x (y :: l)) by (done || lia). cbn [obind uniq_after].
    destruct (oideq y x).
    + cbn in Hf. destruct (IH (pre ++ [x]) y l ltac:(lia)) as (skipped & rest & -> & Hu & E).
      exists (y :: skipped), rest. split_and!; try done. revert E. rewrite <- app_assoc. cbn [app].
      replace (zlen (pre ++ [x])) with (zlen pre + 1) by zlia. intros ->. f_equal. zlia.
    + exists [], (y :: l). split_and!; try done. f_equal. rewrite zlen_nil. lia.
Qed.

Lemma for_each_unique_loop_ok {S} (fn : object_id → S → S * Z) fuel array pre l data :
  oid array = pre ++ l → (length l < fuel)%nat →
  for_each_unique_loop fn fuel array (zlen pre) data = Ret (visit fn (uniq l) data).
Proof.
  revert pre l data. induction fuel as [|fuel IH]; intros pre l data Ho Hf; [lia|].
  cbn [for_each_unique_loop]. unfold nr. rewrite Ho. destruct l as [|x l].
  { rewrite app_nil_r. by rewrite (proj2 (Z.ltb_ge _ _)) by lia. }
  destruct (Z.ltb_spec (zlen pre) (zlen (pre ++ x :: l))); [|zlia].
  rewrite (rd_at _ pre x l) by done. cbn [obind uniq visit]. destruct (fn x data) as [data' ret].
  destruct (negb (ret =? 0)); [done|]. unfold oid_array_next_unique. rewrite Ho.
  destruct (next_unique_loop_ok (Datatypes.S (length (pre ++ x :: l))) pre x l) as (skipped & rest & -> & Hu & ->).
  { rewrite length_app. cbn. lia. }
  cbn [obind]. rewrite Hu. replace (zlen pre + 1 + zlen skipped) with (zlen (pre ++ x :: skipped)) by zlia.
  apply IH; [rewrite Ho; by rewrite <- app_assoc|]. cbn in Hf. rewrite length_app in Hf. lia.
Qed.

(** ** Sorted arrays of one algorithm *)
Section one_algo.
Context (a : Z).

Lemma uniq_after_sorted prev l :
  Forall (λ x, algo x = a) (prev :: l) → StronglySorted (λ x y, void_hashcmp x y <= 0) (prev :: l) →
  ascending memcmp (hash <$> (prev :: uniq_after prev l)) ∧ (∀ y, y ∈ prev :: uniq_after prev l ↔ y ∈ prev :: l).
Proof.
  revert prev. induction l as [|y l IH]; intros prev Ha Hs.
  { split; [repeat constructor|]. done. }
  apply Forall_cons in Ha as [Hp Ha]. pose proof Ha as [Hy _]%Forall_cons.
  apply StronglySorted_inv in Hs as [Hs Hmin]. destruct (IH y Ha Hs) as [IH1 IH2]. cbn [uniq_after].
  pose proof (proj1 (proj1 (Forall_cons _ _ _) Hmin)) as Hpy. cbv beta in Hpy. unfold void_hashcmp in Hpy.
  rewrite Hp, Hy, Z.eqb_refl in Hpy. unfold oidcmp in Hpy. unfold oideq.
  destruct (Z.eqb_spec (memcmp (hash y) (hash prev)) 0) as [E|E].
  - apply (memcmp_eq (hash y)) in E. assert (y = prev) as ->.
    { clear -E Hp Hy. destruct y as [h1 a1], prev as [h2 a2]. cbn in E, Hp, Hy. by subst. }
    split; [exact IH1|]. intros z. rewrite IH2. set_solver.
  - split.
    + rewrite fmap_cons. unfold ascending in *. constructor; [exact IH1|].
      assert (memcmp (hash prev) (hash y) < 0) as Hlt.
      { destruct (decide (memcmp (hash prev) (hash y) = 0)) as [E0|]; [|lia]. apply (cmp_zero_sym memcmp) in E0. lia. }
      apply Forall_cons. split; [done|]. apply StronglySorted_inv in IH1 as [_ IH1]. fold (hash <$> uniq_after y l).
      eapply Forall_impl; [exact IH1|]. intros h Hh. cbv beta in *. apply (cmp_lt_trans memcmp _ (hash y)); done.
    + intros z. split; intros [->|H]%elem_of_cons; apply elem_of_cons; auto; right; by apply IH2.
Qed.
Lemma uniq_sorted l :
  Forall (λ x, algo x = a) l → StronglySorted (λ x y, void_hashcmp x y <= 0) l →
  ascending memcmp (hash <$> uniq l) ∧ (∀ y, y ∈ uniq l ↔ y ∈ l).
Proof. destruct l as [|x l]; [split; [constructor|done]|]. apply uniq_after_sorted. Qed.
Lemma sorted_hashes l :
  Forall (λ x, algo x = a) l → StronglySorted (λ x y, void_hashcmp x y <= 0) l → nondec memcmp (hash <$> l).
Proof.
  intros Ha. unfold nondec. induction 1 as [|x l Hs IH Hx]; [constructor|]. apply Forall_cons in Ha as [Hax Ha].
  cbn. constructor; [auto|]. apply Forall_fmap, Forall_forall. intros y Hy.
  pose proof (proj1 (Forall_forall _ _) Hx y Hy) as Hle. pose proof (proj1 (Forall_forall _ _) Ha y Hy) as Hay. cbv beta in *.
  unfold void_hashcmp in Hle. rewrite Hax, Hay, Z.eqb_refl in Hle. exact Hle.
Qed.
End one_algo.

#[export] Instance void_hashcmp_order : CmpOrder void_hashcmp.
Proof.
  unfold void_hashcmp, oidcmp. split.
  - intros x y. destruct (Z.eqb_spec (algo x) (algo y)) as [->|]; [rewrite Z.eqb_refl; apply cmp_flip|].
    destruct (Z.eqb_spec (algo y) (algo x)); [lia|].
    destruct (Z.ltb_spec (algo y) (algo x)), (Z.ltb_spec (algo x) (algo y)); lia.
  - intros x y z.
    destruct (Z.eqb_spec (algo x) (algo y)), (Z.eqb_spec (algo y) (algo z)), (Z.eqb_spec (algo x) (algo z)); try lia;
      [apply cmp_le_trans|..]; destruct (Z.ltb_spec (algo y) (algo x)); destruct (Z.ltb_spec (algo z) (algo y));
      destruct (Z.ltb_spec (algo z) (algo x)); lia.
Qed.

(** ** An array filled by appending *)
Section filled.
Context (the_hash_algo rawsz : Z) `{Q : !Qsort} `{!QsortLaws Q}.
Implicit Types (xs : list object_id).

Definition append_all xs : oid_array := foldl (oid_array_append the_hash_algo) OID_ARRAY_INIT xs.
(** What [oid_array_append] stores: an id without algorithm gets the default one. *)
Definition stored (x : object_id) : object_id := if algo x =? 0 then Object_id (hash x) the_hash_algo else x.

Lemma append_all_oids xs : oid (append_all xs) = stored <$> xs ∧ sorted (append_all xs) = false.
Proof.
  induction xs as [|x xs [IH1 IH2]] using rev_ind; [done|]. unfold append_all in *. rewrite foldl_app. cbn.
  rewrite IH1, fmap_app. done.
Qed.

Lemma sort_append_all xs :
  oid (oid_array_sort (append_all xs)) ≡ₚ stored <$> xs ∧
  StronglySorted (λ a b, void_hashcmp a b <= 0) (oid (oid_array_sort (append_all xs))).
Proof.
  destruct (append_all_oids xs) as [E1 E2]. unfold oid_array_sort. rewrite E2. cbn [oid]. unfold nr. rewrite E1.
  destruct (Z.ltb_spec 1 (zlen (stored <$> xs))).
  - split; [apply qsort_perm|apply qsort_sorted, _].
  - split; [done|]. destruct (stored <$> xs) as [|x [|y l]]; [repeat constructor..|zlia].
Qed.

(** All ids use the default algorithm, or none. *)
Definition one_algorithm xs : Prop := Forall (λ x, oid_ok (hash x) ∧ (algo x = 0 ∨ algo x = the_hash_algo)) xs.

Lemma stored_algo x : algo x = 0 ∨ algo x = the_hash_algo → stored x = Object_id (hash x) the_hash_algo.
Proof.
  intros Hx. unfold stored. destruct (Z.eqb_spec (algo x) 0); [done|]. destruct Hx; [done|]. destruct x; cbn in *. by subst.
Qed.
Lemma stored_all xs : one_algorithm xs → Forall (λ x, algo x = the_hash_algo) (oid (oid_array_sort (append_all xs))).
Proof.
  intros Hx. rewrite (proj1 (sort_append_all xs)). apply Forall_fmap. eapply Forall_impl; [exact Hx|].
  intros x [_ Hx']. cbn. by rewrite stored_algo.
Qed.
Lemma stored_hashes xs h : one_algorithm xs → h ∈ hash <$> oid (oid_array_sort (append_all xs)) ↔ h ∈ hash <$> xs.
Proof.
  intros Hx. rewrite (proj1 (sort_append_all xs)), <- list_fmap_compose.
  rewrite (fmap_ext_in (hash ∘ stored) hash xs); [done|]. intros x Hin. cbn.
  apply (proj1 (Forall_forall _ _) Hx) in Hin as [_ ?]. by rewrite stored_algo.
Qed.

Lemma oid_array_lookup_wp xs x :
  one_algorithm xs → oid_ok (hash x) → 2 <= rawsz <= GIT_MAX_RAWSZ → zlen xs < 2 ^ 31 →
  returns (oid_array_lookup rawsz (append_all xs) x) (λ '(array, r),
    if 0 <=? r then (∃ y, znth (oid array) r = Some y ∧ hash y = hash x) ∧ hash x ∈ hash <$> xs
    else hash x ∉ hash <$> xs).
Proof.
  intros Hxs Hx Hr Hn. unfold oid_array_lookup. set (array := oid_array_sort (append_all xs)).
  destruct (sort_append_all xs) as [HP Hs]. fold array in HP, Hs.
  assert (zlen (oid array) = zlen xs) as Hl by (unfold zlen; by rewrite HP, length_fmap).
  assert (nr array = zlen (hash <$> oid array)) as -> by (unfold nr; by rewrite zlen_fmap).
  apply wp_bind. eapply wp_mono; [|apply (oid_pos_wp (oid_access (oid array)) rawsz (hash <$> oid array) (hash x)); try done].
  - intros r [[Hr0 Hz]|(p & Hp & -> & Hsp)]; cbn.
    + rewrite (proj2 (Z.leb_le 0 r)) by lia. apply znth_fmap_Some in Hz as Hz'. destruct Hz' as (y & Hy & E).
      split; [by exists y|]. apply (stored_hashes xs _ Hxs). by eapply znth_elem_of.
    + rewrite (proj2 (Z.leb_gt 0 (-1 - p))) by lia. rewrite <- (stored_hashes xs _ Hxs). intros Hin.
      eapply (split_at_absent memcmp); [exact Hsp|exact Hin|]. apply cmp_refl, _.
  - intros i Hi. rewrite zlen_fmap in Hi. unfold oid_access. destruct (znth_is_Some (oid array) i Hi) as [y Hy].
    rewrite (rd_znth _ _ _ Hy). cbn [obind]. symmetry. apply rd_znth. unfold znth in *.
    destruct (0 <=? i); [|done]. by rewrite list_lookup_fmap, Hy.
  - apply Forall_fmap. rewrite HP. apply Forall_fmap. eapply Forall_impl; [exact Hxs|]. intros y [Hy Ha]. cbn. by rewrite stored_algo.
  - apply (sorted_hashes the_hash_algo); [|exact Hs]. by apply stored_all.
  - rewrite zlen_fmap. lia.
Qed.
End filled.

End OidArray.
