(* ===== verification/CbTree.v ===== *)
(** * Crit-bit trees (cbtree.c, cbtree.h)

    A node of the tree is one memory cell that serves twice: as a leaf it holds a
    key, and as an inner node the number of a bit and two children; a pointer to
    it as an inner node has its lowest bit set.  The cells form an explicit heap
    here, so that the tagging, the double role and the pointer that insertion
    redirects are part of the model.  The tree implements a set of keys of equal
    length that is enumerated in order, by prefix. *)
From stdpp Require Import prelude gmap.
From S2P Require Import Prelude Order.

Module CbTree.

(** ** Cells and pointers *)
Record cb_node := Cb_node { child0 : Z; child1 : Z; byte : Z; otherbits : Z; k : list Z }.
Abbreviation heap := (gmap Z cb_node).

(** NULL is 0.  [1 & (uintptr_t)p] *)
Definition tagged (p : Z) : bool := negb (Z.land 1 p =? 0).
Definition cb_node_of (p : Z) : Z := p - 1.

Definition deref (h : heap) (p : Z) : outcome cb_node :=
  match h !! p with Some n => Ret n | None => UB end.
Definition child (n : cb_node) (direction : Z) : outcome Z :=
  if direction =? 0 then Ret (child0 n) else if direction =? 1 then Ret (child1 n) else UB.
Definition set_child (n : cb_node) (direction : Z) (p : Z) : outcome cb_node :=
  if direction =? 0 then Ret (Cb_node p (child1 n) (byte n) (otherbits n) (k n))
  else if direction =? 1 then Ret (Cb_node (child0 n) p (byte n) (otherbits n) (k n))
  else UB.

(** [q->byte < klen ? k[q->byte] : 0] and the side it leads to. *)
Definition key_byte (q : cb_node) (key : list Z) (klen : Z) : outcome Z :=
  if byte q <? klen then rd key (byte q) else Ret 0.
Definition direction_of (otherbits c : Z) : Z := Z.shiftr (1 + Z.lor otherbits c) 8.

(** ** Search *)
Fixpoint best_loop (fuel : nat) (h : heap) (p : Z) (key : list Z) (klen : Z) : outcome Z :=
  match fuel with
  | O => NoFuel
  | S fuel =>
      if tagged p then
        let! q := deref h (cb_node_of p) in
        let! c := key_byte q key klen in
        let! p := child q (direction_of (otherbits q) c) in
        best_loop fuel h p key klen
      else Ret p
  end.
(** No path has more inner nodes than there are cells. *)
Definition cb_internal_best_match (h : heap) (p : Z) (key : list Z) (klen : Z) : outcome Z :=
  best_loop (S (base.size h)) h p key klen.

(** [memcmp(p->k, k, klen)] *)
Definition key_cmp (pk key : list Z) (klen : Z) : outcome Z :=
  let! a := rd_range pk 0 klen in
  let! b := rd_range key 0 klen in
  Ret (memcmp a b).

Definition cb_lookup (h : heap) (root : Z) (key : list Z) (klen : Z) : outcome Z :=
  let! p := cb_internal_best_match h root key klen in
  if p =? 0 then Ret 0
  else
    let! n := deref h p in
    let! r := key_cmp (k n) key klen in
    Ret (if r =? 0 then p else 0).

(** ** Insertion

    The [for] loop that looks for the first differing byte; [None] when there is
    none. *)
Fixpoint differ_loop (fuel : nat) (pk key : list Z) (newbyte klen : Z) : outcome (option Z) :=
  match fuel with
  | O => NoFuel
  | S fuel =>
      if newbyte <? klen then
        let! a := rd pk newbyte in
        let! b := rd key newbyte in
        if negb (a =? b) then Ret (Some newbyte) else differ_loop fuel pk key (newbyte + 1) klen
      else Ret None
  end.

(** The highest bit in which the bytes differ, complemented. *)
Definition otherbits_of (a b : Z) : Z :=
  let x := Z.lxor a b in
  let x := Z.lor x (Z.shiftr x 1) in
  let x := Z.lor x (Z.shiftr x 2) in
  let x := Z.lor x (Z.shiftr x 4) in
  Z.lxor (Z.land x (Z.lnot (Z.shiftr x 1))) 255.

(** What [wherep] points to. *)
Inductive where_ := At_root | At_child (q direction : Z).

Definition load (h : heap) (root : Z) (w : where_) : outcome Z :=
  match w with
  | At_root => Ret root
  | At_child q d => let! n := deref h q in child n d
  end.
Definition store (h : heap) (root : Z) (w : where_) (p : Z) : outcome (heap * Z) :=
  match w with
  | At_root => Ret (h, p)
  | At_child q d => let! n := deref h q in let! n := set_child n d p in Ret (<[q := n]> h, root)
  end.

(** [find a place to insert it] *)
Fixpoint place_loop (fuel : nat) (h : heap) (root : Z) (wherep : where_) (key : list Z) (klen newbyte newotherbits : Z)
  : outcome where_ :=
  match fuel with
  | O => NoFuel
  | S fuel =>
      let! p := load h root wherep in
      if negb (tagged p) then Ret wherep
      else
        let! q := deref h (cb_node_of p) in
        if newbyte <? byte q then Ret wherep
        else if (byte q =? newbyte) && (newotherbits <? otherbits q) then Ret wherep
        else
          let! c := key_byte q key klen in
          place_loop fuel h root (At_child (cb_node_of p) (direction_of (otherbits q) c)) key klen newbyte newotherbits
  end.

(** [node->child[newdirection] = *wherep; *wherep = 1 + node] *)
Definition link (h : heap) (root node newdirection : Z) (wherep : where_) : outcome (heap * Z) :=
  let! p := load h root wherep in
  let! n := deref h node in
  let! n := set_child n newdirection p in
  store (<[node := n]> h) root wherep (1 + node).

(** The heap, the root and the answer: NULL, or the node that already exists. *)
Definition cb_insert (h : heap) (root node klen : Z) : outcome (heap * Z * Z) :=
  if negb (Z.land node 1 =? 0) then Die
  else if root =? 0 then Ret (h, node, 0)
  else
    let! n := deref h node in
    let! p := cb_internal_best_match h root (k n) klen in
    let! pn := deref h p in
    let! d := differ_loop (S (Z.to_nat klen)) (k pn) (k n) 0 klen in
    match d with
    | None => Ret (h, root, p)
    | Some newbyte =>
        let! a := rd (k pn) newbyte in
        let! b := rd (k n) newbyte in
        let newotherbits := otherbits_of a b in
        let newdirection := direction_of newotherbits a in
        let n := Cb_node (child0 n) (child1 n) (u32 newbyte) (u8 newotherbits) (k n) in
        let! n := set_child n (1 - newdirection) node in
        let h := <[node := n]> h in
        let! wherep := place_loop (S (base.size h)) h root At_root (k n) klen newbyte newotherbits in
        let! (h, root) := link h root node newdirection wherep in
        Ret (h, root, 0)
    end.

(** ** Enumeration *)
Definition CB_CONTINUE : Z := 0.
Definition CB_BREAK : Z := 1.

Section each.
(** The callback, which gets the node and its own state. *)
Context {S : Type} (fn : Z → cb_node → S → S * Z).

Fixpoint cb_descend (fuel : nat) (h : heap) (p : Z) (arg : S) : outcome (S * Z) :=
  match fuel with
  | O => NoFuel
  | Datatypes.S fuel =>
      if tagged p then
        let! q := deref h (cb_node_of p) in
        let! (arg, n) := cb_descend fuel h (child0 q) arg in
        if n =? CB_BREAK then Ret (arg, n) else cb_descend fuel h (child1 q) arg
      else
        let! n := deref h p in
        Ret (fn p n arg)
  end.

(** The walk to the best match, with the [top] pointer. *)
Fixpoint top_loop (fuel : nat) (h : heap) (p top : Z) (kpfx : list Z) (klen : Z) : outcome (Z * Z) :=
  match fuel with
  | O => NoFuel
  | Datatypes.S fuel =>
      if tagged p then
        let! q := deref h (cb_node_of p) in
        let! c := key_byte q kpfx klen in
        let! p := child q (direction_of (otherbits q) c) in
        top_loop fuel h p (if byte q <? klen then p else top) kpfx klen
      else Ret (p, top)
  end.

Definition cb_each (h : heap) (root : Z) (kpfx : list Z) (klen : Z) (arg : S) : outcome S :=
  if root =? 0 then Ret arg
  else
    let! (p, top) := top_loop (Datatypes.S (base.size h)) h root root kpfx klen in
    let! n := deref h p in
    let! d := differ_loop (Datatypes.S (Z.to_nat klen)) (k n) kpfx 0 klen in
    match d with
    | Some _ => Ret arg
    | None => let! (arg, _) := cb_descend (Datatypes.S (base.size h)) h top arg in Ret arg
    end.
End each.
(** ** Bits of keys

    The bits of a key are numbered from the most significant one of its first
    byte; bytes behind its end count as 0. *)
Definition bit (key : list Z) (c : Z) : bool := Z.testbit (default 0 (znth key (c / 8))) (7 - c mod 8).
Definition agree (x y : list Z) (c : Z) : Prop := ∀ j, 0 <= j < c → bit x j = bit y j.
Definition mask (i : Z) : Z := 255 - 2 ^ (7 - i).

Lemma bits8 (P : Z → Prop) : P 0 → P 1 → P 2 → P 3 → P 4 → P 5 → P 6 → P 7 → ∀ i, 0 <= i < 8 → P i.
Proof.
  intros. assert (i = 0 ∨ i = 1 ∨ i = 2 ∨ i = 3 ∨ i = 4 ∨ i = 5 ∨ i = 6 ∨ i = 7) as Hi by lia.
  naive_solver.
Qed.

Lemma direction_mask x i : byte_ok x → 0 <= i < 8 →
  direction_of (mask i) x = if Z.testbit x (7 - i) then 1 else 0.
Proof.
  intros Hx. revert i. apply bits8; unfold direction_of, mask; solve_byte x Hx.
Qed.

Definition spread (x : Z) : Z :=
  let x := Z.lor x (Z.shiftr x 1) in
  let x := Z.lor x (Z.shiftr x 2) in
  let x := Z.lor x (Z.shiftr x 4) in
  Z.lxor (Z.land x (Z.lnot (Z.shiftr x 1))) 255.

Lemma spread_mask x : byte_ok x → 0 < x → spread x = mask (7 - Z.log2 x).
Proof.
  intros Hx Hp. assert ((x =? 0) || (spread x =? mask (7 - Z.log2 x)) = true) as E by (clear Hp; solve_byte x Hx).
  apply orb_true_iff in E as [E|E]; [lia|by apply Z.eqb_eq in E].
Qed.

(** The complement of the mask names the first bit that differs. *)
Lemma otherbits_of_ok a b : byte_ok a → byte_ok b → a ≠ b → ∃ i, 0 <= i < 8 ∧
  otherbits_of a b = mask i ∧ Z.testbit a (7 - i) = negb (Z.testbit b (7 - i)) ∧
  ∀ j, 0 <= j < i → Z.testbit a (7 - j) = Z.testbit b (7 - j).
Proof.
  intros Ha Hb Hne. assert (byte_ok (Z.lxor a b)) as Hx by (apply (lxor_lt_pow2 a b 8); done || lia).
  assert (0 < Z.lxor a b) as Hp.
  { destruct (decide (Z.lxor a b = 0)) as [E|]; [by apply Z.lxor_eq in E|]. unfold byte_ok in Hx. lia. }
  assert (Z.log2 (Z.lxor a b) < 8) as Hl by (apply Z.log2_lt_pow2; [done|apply Hx]).
  pose proof (Z.log2_nonneg (Z.lxor a b)).
  exists (7 - Z.log2 (Z.lxor a b)). split; [lia|]. split; [by apply spread_mask|].
  replace (7 - (7 - Z.log2 (Z.lxor a b))) with (Z.log2 (Z.lxor a b)) by lia. split.
  - pose proof (Z.bit_log2 _ Hp) as E. rewrite Z.lxor_spec in E. by destruct (Z.testbit a _), (Z.testbit b _).
  - intros j Hj. pose proof (Z.bits_above_log2 (Z.lxor a b) (7 - j)) as E. rewrite Z.lxor_spec in E.
    specialize (E ltac:(lia) ltac:(lia)). by destruct (Z.testbit a _), (Z.testbit b _).
Qed.

(** The order of inner nodes: byte first, then mask. *)
Lemma crit_before c d : 0 <= c → 0 <= d →
  (d / 8 <? c / 8) || ((c / 8 =? d / 8) && (mask (d mod 8) <? mask (c mod 8))) = (d <? c).
Proof.
  intros Hc Hd. pose proof (Z.div_mod c 8). pose proof (Z.div_mod d 8).
  pose proof (Z.mod_pos_bound c 8). pose proof (Z.mod_pos_bound d 8).
  assert ((mask (d mod 8) <? mask (c mod 8)) = (d mod 8 <? c mod 8)) as ->.
  { unfold mask. destruct (Z.ltb_spec (d mod 8) (c mod 8)) as [L|L].
    - apply Z.ltb_lt. assert (2 ^ (7 - c mod 8) < 2 ^ (7 - d mod 8)) by (apply Z.pow_lt_mono_r; lia). lia.
    - apply Z.ltb_ge. assert (2 ^ (7 - d mod 8) <= 2 ^ (7 - c mod 8)) by (apply Z.pow_le_mono_r; lia). lia. }
  destruct (Z.ltb_spec (d / 8) (c / 8)), (Z.eqb_spec (c / 8) (d / 8)), (Z.ltb_spec (d mod 8) (c mod 8)),
    (Z.ltb_spec d c); cbn; try done; lia.
Qed.

(** ** Trees

    [Leaf p key] is the cell [p] as a leaf, [Node q c l r] the cell [q] as an
    inner node that tells its subtrees apart by bit [c]. *)
Inductive cbt := Leaf (p : Z) (key : list Z) | Node (q c : Z) (l r : cbt).

Fixpoint leaves (t : cbt) : list (Z * list Z) :=
  match t with Leaf p key => [(p, key)] | Node _ _ l r => leaves l ++ leaves r end.
Definition keys (t : cbt) : list (list Z) := snd <$> leaves t.
Definition cells (t : cbt) : list Z := fst <$> leaves t.
Fixpoint inners (t : cbt) : list Z :=
  match t with Leaf _ _ => [] | Node q _ l r => q :: inners l ++ inners r end.
Fixpoint depth (t : cbt) : nat :=
  match t with Leaf _ _ => 0%nat | Node _ _ l r => S (Nat.max (depth l) (depth r)) end.

Section trees.
(** The length of the keys. *)
Context (L : Z) (HL : 0 < L < 2 ^ 32).

(** All keys below an inner node agree up to its bit, which tells the two sides
    apart. *)
Fixpoint wf (t : cbt) : Prop :=
  match t with
  | Leaf p key => zlen key = L ∧ bytes_ok key
  | Node q c l r =>
      0 <= c < 8 * L ∧ wf l ∧ wf r ∧
      (∀ x, x ∈ keys l → bit x c = false) ∧ (∀ x, x ∈ keys r → bit x c = true) ∧
      (∀ x y, x ∈ keys (Node q c l r) → y ∈ keys (Node q c l r) → agree x y c)
  end.

Lemma keys_node q c l r : keys (Node q c l r) = keys l ++ keys r.
Proof. unfold keys. cbn [leaves]. apply fmap_app. Qed.
Lemma cells_node q c l r : cells (Node q c l r) = cells l ++ cells r.
Proof. unfold cells. cbn [leaves]. apply fmap_app. Qed.

Lemma wf_keys t : wf t → ∀ x, x ∈ keys t → zlen x = L ∧ bytes_ok x.
Proof.
  induction t as [p key|q c l IHl r IHr]; cbn [wf].
  - intros Hw x ->%list_elem_of_singleton. done.
  - intros (_ & Hl & Hr & _) x. rewrite keys_node, elem_of_app. naive_solver.
Qed.

Lemma agree_sym x y c : agree x y c → agree y x c.
Proof. intros H j Hj. symmetry. by apply H. Qed.
Lemma agree_trans x y z c : agree x y c → agree y z c → agree x z c.
Proof. intros H1 H2 j Hj. rewrite H1 by done. by apply H2. Qed.
Lemma agree_mono x y c d : d <= c → agree x y c → agree x y d.
Proof. intros Hd H j Hj. apply H. lia. Qed.

(** *** The best match *)
Fixpoint best (t : cbt) (key : list Z) : Z * list Z :=
  match t with
  | Leaf p kp => (p, kp)
  | Node _ c l r => if bit key c then best r key else best l key
  end.

Lemma best_leaf t key : best t key ∈ leaves t.
Proof.
  induction t as [p kp|q c l IHl r IHr]; cbn [best leaves]; [by apply list_elem_of_singleton|].
  rewrite elem_of_app. destruct (bit key c); auto.
Qed.
Lemma best_key t key : (best t key).2 ∈ keys t.
Proof. apply list_elem_of_fmap_2, best_leaf. Qed.

(** A key and its best match cannot be told apart by any inner node on the way. *)
Lemma best_in_tree t key : wf t → key ∈ keys t → (best t key).2 = key.
Proof.
  induction t as [p kp|q c l IHl r IHr]; cbn [best wf].
  - intros _ ->%list_elem_of_singleton. done.
  - intros (_ & Hl & Hr & H0 & H1 & _). rewrite keys_node, elem_of_app. intros [H|H].
    + rewrite (H0 key H). auto.
    + rewrite (H1 key H). auto.
Qed.

(** *** Insertion: [d] is the bit in which the new key and its best match differ *)
Definition attach (node d : Z) (key : list Z) (t : cbt) : cbt :=
  if bit key d then Node node d t (Leaf node key) else Node node d (Leaf node key) t.
Fixpoint ins (node d : Z) (key : list Z) (t : cbt) : cbt :=
  match t with
  | Leaf _ _ => attach node d key t
  | Node q c l r =>
      if d <? c then attach node d key t
      else if bit key c then Node q c l (ins node d key r) else Node q c (ins node d key l) r
  end.

Lemma keys_attach node d key t : keys (attach node d key t) ≡ₚ key :: keys t.
Proof. unfold attach. destruct (bit key d); rewrite keys_node; cbn; [by rewrite Permutation_app_comm|done]. Qed.
Lemma keys_ins node d key t : keys (ins node d key t) ≡ₚ key :: keys t.
Proof.
  induction t as [p kp|q c l IHl r IHr]; cbn [ins]; [apply keys_attach|].
  destruct (d <? c); [apply keys_attach|]. destruct (bit key c); rewrite !keys_node; [rewrite IHr|by rewrite IHl].
  by rewrite Permutation_middle.
Qed.

Lemma attach_wf node d key t :
  wf t → zlen key = L → bytes_ok key → 0 <= d < 8 * L →
  (∀ x, x ∈ keys t → agree x key d ∧ bit x d = negb (bit key d)) → wf (attach node d key t).
Proof.
  intros Ht Hk Hb Hd Hx. assert (∀ x, x ∈ key :: keys t → agree x key d) as Ha.
  { intros x [->|H]%elem_of_cons; [by intros ? ?|]. by apply Hx. }
  assert (∀ u v, u ∈ keys (attach node d key t) → v ∈ keys (attach node d key t) → agree u v d) as Hall.
  { intros u v. rewrite !keys_attach. intros Hu Hv. eapply agree_trans; [by apply Ha|]. by apply agree_sym, Ha. }
  unfold attach in *. destruct (bit key d) eqn:E; cbn [wf].
  - split_and!; try done; [lia|lia|..].
    + intros x H. destruct (Hx x H) as [_ ->]. done.
    + intros x ->%list_elem_of_singleton. done.
  - split_and!; try done; [lia|lia|..].
    + intros x ->%list_elem_of_singleton. done.
    + intros x H. destruct (Hx x H) as [_ ->]. done.
Qed.

Lemma ins_wf node d key t :
  wf t → zlen key = L → bytes_ok key → 0 <= d < 8 * L →
  agree (best t key).2 key d → bit (best t key).2 d = negb (bit key d) →
  wf (ins node d key t).
Proof.
  intros Ht Hk Hb Hd. revert Ht. induction t as [p kp|q c l IHl r IHr]; cbn [ins best].
  - intros Ht Ha Hn. apply attach_wf; try done. intros x ->%list_elem_of_singleton. done.
  - intros Ht Ha Hn. pose proof (best_key (Node q c l r) key) as Hbk. cbn [best] in Hbk.
    destruct (Z.ltb_spec d c) as [Hdc|Hdc].
    + apply attach_wf; try done. intros x Hx. destruct Ht as (Hc & _ & _ & _ & _ & Hag).
      pose proof (Hag _ _ Hx Hbk) as Hxb. split; [|rewrite <- Hn; apply Hxb; lia].
      eapply agree_trans; [|exact Ha]. eapply agree_mono; [|exact Hxb]. lia.
    + destruct Ht as (Hc & Hl & Hr & H0 & H1 & Hag).
      assert (∀ x, x ∈ keys l ++ keys r → agree x key c) as Hkey.
      { intros x Hx. eapply agree_trans; [apply Hag; [by rewrite keys_node|exact Hbk]|].
        eapply agree_mono; [|exact Ha]. lia. }
      assert (∀ t', keys t' ≡ₚ key :: keys l ++ keys r → ∀ x y, x ∈ keys t' → y ∈ keys t' → agree x y c) as Hall.
      { intros t' E x y. rewrite E. intros Hx Hy.
        assert (∀ z, z ∈ key :: keys l ++ keys r → agree z key c) as Hz.
        { intros z [->|H]%elem_of_cons; [by intros ? ?|by apply Hkey]. }
        eapply agree_trans; [by apply Hz|]. by apply agree_sym, Hz. }
      destruct (bit key c) eqn:Eb; cbn [wf].
      * split_and!; try done; [lia|lia|by apply IHr| |].
        -- intros x. rewrite keys_ins. intros [->|H]%elem_of_cons; [done|by apply H1].
        -- apply Hall. rewrite keys_node, keys_ins. by rewrite Permutation_middle.
      * split_and!; try done; [lia|lia|by apply IHl| |].
        -- intros x. rewrite keys_ins. intros [->|H]%elem_of_cons; [done|by apply H0].
        -- apply Hall. by rewrite keys_node, keys_ins.
Qed.

(** *** The order of the keys *)
Lemma lt_by_bit a b n : 0 <= n → Z.shiftr a (n + 1) = Z.shiftr b (n + 1) →
  Z.testbit a n = false → Z.testbit b n = true → a < b.
Proof.
  intros Hn E Ha Hb.
  assert (∀ x, Z.shiftr x n = 2 * Z.shiftr x (n + 1) + Z.b2z (Z.testbit x n)) as S.
  { intros x. rewrite <- Z.shiftr_shiftr, <- Z.div2_spec, Z.testbit_odd by lia. apply Z.div2_odd. }
  pose proof (S a) as Sa. pose proof (S b) as Sb. rewrite Ha in Sa. rewrite Hb, <- E in Sb. cbn in Sa, Sb.
  rewrite !Z.shiftr_div_pow2 in Sa, Sb by lia. apply Z.nle_gt. intros Hle.
  pose proof (Z.div_le_mono b a (2 ^ n) ltac:(lia) Hle). lia.
Qed.

Lemma byte_eq_bits a b : byte_ok a → byte_ok b → (∀ i, 0 <= i < 8 → Z.testbit a (7 - i) = Z.testbit b (7 - i)) → a = b.
Proof.
  intros Ha Hb H. apply Z.bits_inj'. intros n Hn. destruct (decide (n < 8)).
  - replace n with (7 - (7 - n)) by lia. apply H. lia.
  - rewrite !(testbit_above _ 8) by (done || lia). done.
Qed.

Lemma bit_at x b i : 0 <= i < 8 → bit x (8 * b + i) = Z.testbit (default 0 (znth x b)) (7 - i).
Proof.
  intros Hi. unfold bit. replace (8 * b + i) with (i + b * 8) by lia. rewrite Z.div_add, Z.mod_add by lia.
  by rewrite Z.div_small, Z.mod_small.
Qed.

(** Keys that agree on whole bytes share them. *)
Lemma agree_bytes x y m : bytes_ok x → bytes_ok y → 0 <= m <= zlen x → m <= zlen y →
  agree x y (8 * m) ↔ ztake m x = ztake m y.
Proof.
  intros Hx Hy Hm Hm'. split.
  - intros Ha. apply zlist_eq; [by rewrite !zlen_ztake by lia|]. intros b Hb. rewrite zlen_ztake in Hb by lia.
    rewrite !znth_ztake by lia. destruct (znth_is_Some x b) as [u Hu]; [lia|]. destruct (znth_is_Some y b) as [v Hv]; [lia|].
    rewrite Hu, Hv. f_equal. apply byte_eq_bits; [by apply (bytes_ok_znth x b)|by apply (bytes_ok_znth y b)|]. intros i Hi.
    pose proof (Ha (8 * b + i) ltac:(lia)) as E. rewrite !bit_at, Hu, Hv in E by lia. done.
  - intros E j Hj. unfold bit. assert (0 <= j / 8 < m) as Hb by (split; [apply Z.div_pos; lia|apply Z.div_lt_upper_bound; lia]).
    rewrite <- (znth_ztake x m), <- (znth_ztake y m) by lia. by rewrite E.
Qed.

Lemma memcmp_by_bit x y c : zlen x = L → zlen y = L → bytes_ok x → bytes_ok y → 0 <= c < 8 * L →
  agree x y c → bit x c = false → bit y c = true → memcmp x y < 0.
Proof.
  intros Lx Ly Hx Hy Hc Ha H0 H1. pose proof (Z.div_mod c 8). pose proof (Z.mod_pos_bound c 8).
  set (b := c / 8) in *. assert (0 <= b < L) as Hb by lia.
  destruct (znth_is_Some x b) as [u Hu]; [lia|]. destruct (znth_is_Some y b) as [v Hv]; [lia|].
  rewrite <- (ztake_zdrop b x), <- (ztake_zdrop b y), (zdrop_cons x b u), (zdrop_cons y b v) by (done || lia).
  assert (ztake b x = ztake b y) as ->.
  { apply agree_bytes; [done|done|lia|lia|]. eapply agree_mono; [|exact Ha]. lia. }
  rewrite memcmp_app. cbn [memcmp].
  assert (u < v) as Huv.
  { replace c with (8 * b + c mod 8) in H0, H1 by lia. rewrite bit_at, Hu in H0 by lia. rewrite bit_at, Hv in H1 by lia.
    apply (lt_by_bit u v (7 - c mod 8)); [lia| |done..].
    apply Z.bits_inj'. intros n Hn. rewrite !Z.shiftr_spec by lia. destruct (decide (n + (7 - c mod 8 + 1) < 8)).
    - pose proof (Ha (8 * b + (7 - (n + (7 - c mod 8 + 1)))) ltac:(lia)) as E. rewrite !bit_at, Hu, Hv in E by lia.
      cbn [default from_option id] in E. by replace (7 - (7 - (n + (7 - c mod 8 + 1)))) with (n + (7 - c mod 8 + 1)) in E by lia.
    - rewrite (testbit_above u 8), (testbit_above v 8); [done|by apply (bytes_ok_znth y b)|lia|by apply (bytes_ok_znth x b)|lia]. }
  rewrite (proj2 (Z.ltb_lt u v)) by lia. lia.
Qed.

Lemma keys_ascending t : wf t → ascending memcmp (keys t).
Proof.
  induction t as [p kp|q c l IHl r IHr]; cbn [wf].
  - intros _. repeat constructor.
  - intros (Hc & Hl & Hr & H0 & H1 & Hag). rewrite keys_node in *. unfold ascending.
    apply StronglySorted_app_2; [|by apply IHl|by apply IHr]. intros x y Hx Hy.
    destruct (wf_keys l Hl x Hx), (wf_keys r Hr y Hy).
    apply (memcmp_by_bit x y c); auto. apply Hag; apply elem_of_app; auto.
Qed.

(** *** Prefixes: the walk of [cb_each] *)
Fixpoint walk (m : Z) (t top : cbt) (pf : list Z) : (Z * list Z) * cbt :=
  match t with
  | Leaf p kp => ((p, kp), top)
  | Node _ c l r =>
      let s := if bit pf c then r else l in
      let top := if c / 8 <? m then s else top in
      if bit pf c then walk m r top pf else walk m l top pf
  end.

Lemma walk_best m pf t : ∀ top, (walk m t top pf).1 = best t pf.
Proof. induction t as [p kp|q c l IHl r IHr]; intros top; cbn [walk best]; [done|]. by destruct (bit pf c). Qed.

(** Below a node at which the prefix is used up, [top] stays. *)
Lemma walk_stays m pf t top : wf t → (∀ x y, x ∈ keys t → y ∈ keys t → agree x y (8 * m)) →
  (walk m t top pf).2 = top.
Proof.
  induction t as [p kp|q c l IHl r IHr]; cbn [walk]; [done|]. intros (Hc & Hl & Hr & H0 & H1 & _) Ha.
  rewrite keys_node in Ha.
  assert (c / 8 <? m = false) as ->.
  { apply Z.ltb_ge, Z.nlt_ge. intros Hlt. pose proof (best_key l []) as Bl. pose proof (best_key r []) as Br.
    pose proof (Ha _ _ (proj2 (elem_of_app _ _ _) (or_introl Bl)) (proj2 (elem_of_app _ _ _) (or_intror Br)) c) as E.
    rewrite (H0 _ Bl), (H1 _ Br) in E. pose proof (Z.div_mod c 8). pose proof (Z.mod_pos_bound c 8).
    discriminate E. lia. }
  destruct (bit pf c); [apply IHr|apply IHl]; try done; intros x y Hx Hy; apply Ha; apply elem_of_app; auto.
Qed.

Definition with_prefix (pf : list Z) (t : cbt) : list (Z * list Z) := filter (λ e, pf `prefix_of` e.2) (leaves t).

Lemma prefix_agree pf x : zlen x = L → bytes_ok x → bytes_ok pf → zlen pf <= L →
  pf `prefix_of` x ↔ agree x pf (8 * zlen pf).
Proof.
  intros Hx Hb Hp Hl. zlen_pos. rewrite agree_bytes by (done || lia). rewrite (ztake_all pf) by lia. split.
  - intros [k' ->]. apply ztake_app_len.
  - intros E. exists (zdrop (zlen pf) x). rewrite <- E at 1. by rewrite ztake_zdrop.
Qed.

Lemma with_prefix_none pf t : (∀ x, x ∈ keys t → ¬ pf `prefix_of` x) → with_prefix pf t = [].
Proof.
  intros H. apply filter_none_in. intros [p x] Hx. apply H. by apply (list_elem_of_fmap_2 snd) in Hx.
Qed.
Lemma with_prefix_all pf t : (∀ x, x ∈ keys t → pf `prefix_of` x) → with_prefix pf t = leaves t.
Proof.
  intros H. apply filter_all_in. intros [p x] Hx. apply H. by apply (list_elem_of_fmap_2 snd) in Hx.
Qed.

(** The walk ends at a leaf that has the prefix exactly when one does, and then
    the keys below [top] are those with the prefix. *)
Lemma walk_ok pf t : wf t → bytes_ok pf → zlen pf <= L →
  let '(b, top) := walk (zlen pf) t t pf in
  if decide (pf `prefix_of` b.2) then leaves top = with_prefix pf t else with_prefix pf t = [].
Proof.
  intros Ht Hp Hl. induction t as [p kp|q c l IHl r IHr].
  - cbn [walk]. unfold with_prefix. cbn [leaves]. rewrite filter_cons, filter_nil. cbn. by destruct (decide _).
  - pose proof Ht as (Hc & Wl & Wr & H0 & H1 & Hag). cbn [walk].
    pose proof (Z.div_mod c 8). pose proof (Z.mod_pos_bound c 8).
    destruct (Z.ltb_spec (c / 8) (zlen pf)) as [Hlt|Hge].
    + unfold with_prefix in *. cbn [leaves]. rewrite filter_app.
      assert (∀ x, x ∈ keys (Node q c l r) → pf `prefix_of` x → bit x c = bit pf c) as Hb.
      { intros x Hx Hpx. destruct (wf_keys _ Ht x Hx). apply prefix_agree in Hpx; [|done..]. apply Hpx. lia. }
      rewrite keys_node in Hb. destruct (bit pf c) eqn:E.
      * change (filter _ (leaves l)) with (with_prefix pf l). rewrite (with_prefix_none pf l); [by apply IHr|].
        intros x Hx Hpx. specialize (Hb x (proj2 (elem_of_app _ _ _) (or_introl Hx)) Hpx). by rewrite H0 in Hb.
      * change (filter _ (leaves r)) with (with_prefix pf r). rewrite (with_prefix_none pf r), app_nil_r; [by apply IHl|].
        intros x Hx Hpx. specialize (Hb x (proj2 (elem_of_app _ _ _) (or_intror Hx)) Hpx). by rewrite H1 in Hb.
    + assert (∀ x y, x ∈ keys (Node q c l r) → y ∈ keys (Node q c l r) → agree x y (8 * zlen pf)) as Hag'.
      { intros x y Hx Hy. eapply agree_mono; [|by apply Hag]. lia. }
      pose proof (walk_stays (zlen pf) pf _ (Node q c l r) Ht Hag') as E2.
      pose proof (walk_best (zlen pf) pf (Node q c l r) (Node q c l r)) as E1. cbn [walk] in E1, E2.
      rewrite (proj2 (Z.ltb_ge _ _) Hge) in E1, E2. pose proof (best_key (Node q c l r) pf) as Hbk.
      set (w := if bit pf c then _ else _) in *. destruct w as [b top]. cbn in E1, E2. subst b top.
      set (x := (best (Node q c l r) pf).2) in *. destruct (wf_keys _ Ht x Hbk) as [Lx Bx].
      assert (∀ y, y ∈ keys (Node q c l r) → pf `prefix_of` y ↔ pf `prefix_of` x) as Hsame.
      { intros y Hy. destruct (wf_keys _ Ht y Hy). rewrite !prefix_agree by done.
        split; intros Ha; (eapply agree_trans; [|exact Ha]); by apply Hag'. }
      destruct (decide (pf `prefix_of` x)) as [Hx|Hx]; unfold x in Hx.
      * rewrite decide_True by done. rewrite with_prefix_all; [done|]. intros y Hy. by apply Hsame.
      * rewrite decide_False by done. apply with_prefix_none. intros y Hy. by rewrite Hsame.
Qed.

End trees.


(** ** Trees in the heap *)
Fixpoint at_ (h : heap) (p : Z) (t : cbt) : Prop :=
  match t with
  | Leaf c key => p = c ∧ Z.even c = true ∧ c ≠ 0 ∧ ∃ n, h !! c = Some n ∧ k n = key
  | Node q c l r =>
      p = q + 1 ∧ Z.even q = true ∧ ∃ n, h !! q = Some n ∧ byte n = c / 8 ∧ otherbits n = mask (c mod 8) ∧
      at_ h (child0 n) l ∧ at_ h (child1 n) r
  end.

Definition same_links (n n' : cb_node) : Prop :=
  byte n' = byte n ∧ otherbits n' = otherbits n ∧ child0 n' = child0 n ∧ child1 n' = child1 n.

Lemma at_frame h h' t : ∀ p, at_ h p t →
  (∀ c n, c ∈ cells t → h !! c = Some n → ∃ n', h' !! c = Some n' ∧ k n' = k n) →
  (∀ q n, q ∈ inners t → h !! q = Some n → ∃ n', h' !! q = Some n' ∧ same_links n n') → at_ h' p t.
Proof.
  induction t as [c key|q c l IHl r IHr]; intros p; cbn [at_ inners].
  - intros (-> & He & H0 & n & Hn & <-) Hc _. split_and!; try done. apply (Hc c n); [by apply list_elem_of_singleton|done].
  - intros (-> & He & n & Hn & Eb & Eo & Al & Ar) Hc Hq. rewrite cells_node in Hc.
    destruct (Hq q n) as (n' & Hn' & E1 & E2 & E3 & E4); [by apply elem_of_cons; left|done|].
    split_and!; try done. exists n'. split_and!; try congruence.
    + rewrite E3. apply IHl; [done|intros; apply Hc; [by apply elem_of_app; left|done]|].
      intros; apply Hq; [apply elem_of_cons; right; by apply elem_of_app; left|done].
    + rewrite E4. apply IHr; [done|intros; apply Hc; [by apply elem_of_app; right|done]|].
      intros; apply Hq; [apply elem_of_cons; right; by apply elem_of_app; right|done].
Qed.

Lemma tagged_even p : Z.even p = true → tagged p = false ∧ tagged (p + 1) = true.
Proof.
  intros He. apply Z.even_spec in He as [x ->]. unfold tagged. rewrite !(Z.land_comm 1), !(land_ones_mod _ 1) by (done || lia).
  change (2 ^ 1) with 2. rewrite (Z.mul_comm 2), Z.mod_mul, Z.add_comm, Z.mod_add by lia. done.
Qed.

Lemma at_cells h p t : at_ h p t → ∀ c, c ∈ cells t → is_Some (h !! c).
Proof.
  revert p. induction t as [c key|q c l IHl r IHr]; intros p; cbn [at_].
  - intros (_ & _ & _ & n & Hn & _) x Hx%list_elem_of_singleton. cbn in Hx. subst x. by exists n.
  - intros (_ & _ & n & _ & _ & _ & Al & Ar) x. rewrite cells_node, elem_of_app. naive_solver.
Qed.
Lemma depth_leaves t : (depth t < length (leaves t))%nat.
Proof. induction t as [c key|q c l IHl r IHr]; cbn [depth leaves length]; [lia|]. rewrite length_app. lia. Qed.
Lemma leaves_size h p t : at_ h p t → NoDup (cells t) → (length (leaves t) <= base.size h)%nat.
Proof.
  intros Ha Hnd. rewrite <- (length_fmap fst). change (fst <$> leaves t) with (cells t).
  rewrite <- (size_dom (D := gset Z) h), <- (size_list_to_set (C := gset Z) (cells t)) by done.
  apply subseteq_size. intros c Hc%elem_of_list_to_set. apply elem_of_dom. by eapply at_cells.
Qed.
(** No tree in the heap is deeper than the heap has cells. *)
Lemma depth_size h p t : at_ h p t → NoDup (cells t) → (depth t < base.size h)%nat.
Proof. intros Ha Hnd. pose proof (depth_leaves t). pose proof (leaves_size h p t Ha Hnd). lia. Qed.


(** ** The operations on represented trees *)
Section operations.
Context (L : Z) (HL : 0 < L < 2 ^ 32).

Lemma key_byte_ok q key klen c : bytes_ok key → 0 <= klen <= zlen key → 0 <= c →
  byte q = c / 8 → otherbits q = mask (c mod 8) →
  ∃ x, key_byte q key klen = Ret x ∧ direction_of (otherbits q) x = if bit (ztake klen key) c then 1 else 0.
Proof.
  intros Hb Hk Hc Eb Eo. unfold key_byte, bit. rewrite Eb, Eo.
  assert (0 <= c mod 8 < 8) by (apply Z.mod_pos_bound; lia). assert (0 <= c / 8) by (apply Z.div_pos; lia).
  destruct (Z.ltb_spec (c / 8) klen).
  - destruct (znth_is_Some key (c / 8)) as [x Hx]; [lia|]. rewrite (rd_znth _ _ _ Hx), znth_ztake, Hx by lia.
    exists x. split; [done|]. apply direction_mask; [by apply (bytes_ok_znth key (c / 8))|lia].
  - exists 0. split; [done|]. assert (znth (ztake klen key) (c / 8) = None) as ->.
    { destruct (znth (ztake klen key) (c / 8)) eqn:E; [|done]. apply znth_Some_lt in E. rewrite zlen_ztake in E; lia. }
    apply (direction_mask 0); [unfold byte_ok; lia|lia].
Qed.

Lemma child_dir n (b : bool) : child n (if b then 1 else 0) = Ret (if b then child1 n else child0 n).
Proof. by destruct b. Qed.

Lemma best_loop_ok h key klen : bytes_ok key → 0 <= klen <= zlen key → ∀ fuel p t,
  at_ h p t → wf L t → (depth t < fuel)%nat →
  best_loop fuel h p key klen = Ret (best t (ztake klen key)).1.
Proof.
  intros Hb Hk. induction fuel as [|fuel IH]; intros p t Ha Hw Hf; [lia|]. cbn [best_loop].
  destruct t as [c kp|q c l r]; cbn [at_ wf best depth] in *.
  - destruct Ha as (-> & He & _). by rewrite (proj1 (tagged_even c He)).
  - destruct Ha as (-> & He & n & Hn & Eb & Eo & Al & Ar). destruct Hw as (Hc & Wl & Wr & _).
    rewrite (proj2 (tagged_even q He)). unfold cb_node_of, deref. rewrite Z.add_simpl_r, Hn. cbn [obind].
    destruct (key_byte_ok n key klen c) as (x & Ex & Ed); [done..|lia|done|done|]. rewrite Ex. cbn [obind]. rewrite Ed, child_dir. cbn [obind].
    destruct (bit (ztake klen key) c); apply IH; (done || lia).
Qed.

Lemma top_loop_ok h key klen : bytes_ok key → 0 <= klen <= zlen key → ∀ fuel p t ptop top,
  at_ h p t → wf L t → (depth t < fuel)%nat → at_ h ptop top →
  ∃ ptop', top_loop fuel h p ptop key klen = Ret ((best t (ztake klen key)).1, ptop') ∧
    at_ h ptop' (walk klen t top (ztake klen key)).2.
Proof.
  intros Hb Hk. induction fuel as [|fuel IH]; intros p t ptop top Ha Hw Hf Htop; [lia|]. cbn [top_loop].
  destruct t as [c kp|q c l r]; cbn [at_ wf best depth walk] in *.
  - destruct Ha as (-> & He & _). rewrite (proj1 (tagged_even c He)). by exists ptop.
  - destruct Ha as (-> & He & n & Hn & Eb & Eo & Al & Ar). destruct Hw as (Hc & Wl & Wr & _).
    rewrite (proj2 (tagged_even q He)). unfold cb_node_of, deref. rewrite Z.add_simpl_r, Hn. cbn [obind].
    destruct (key_byte_ok n key klen c) as (x & Ex & Ed); [done..|lia|done|done|]. rewrite Ex. cbn [obind]. rewrite Ed, child_dir, Eb. cbn [obind].
    destruct (bit (ztake klen key) c); apply IH; try done; try lia; by destruct (c / 8 <? klen).
Qed.

(** Enumeration, by the callback's answers. *)
Fixpoint visit {S} (fn : Z → cb_node → S → S * Z) (h : heap) (ps : list Z) (arg : S) : S * Z :=
  match ps with
  | [] => (arg, CB_CONTINUE)
  | p :: ps =>
      match h !! p with
      | Some n => let '(arg, r) := fn p n arg in if r =? CB_BREAK then (arg, r) else visit fn h ps arg
      | None => (arg, CB_CONTINUE)
      end
  end.

(** The callback answers [CB_CONTINUE] or [CB_BREAK]. *)
Definition answers {S} (fn : Z → cb_node → S → S * Z) : Prop :=
  ∀ p n arg, (fn p n arg).2 = CB_CONTINUE ∨ (fn p n arg).2 = CB_BREAK.

Lemma visit_app {S} (fn : Z → cb_node → S → S * Z) h ps ps' arg : answers fn → (∀ p, p ∈ ps → is_Some (h !! p)) →
  visit fn h (ps ++ ps') arg =
  let '(arg', r) := visit fn h ps arg in if r =? CB_BREAK then (arg', r) else visit fn h ps' arg'.
Proof.
  intros Hfn. revert arg. induction ps as [|p ps IH]; intros arg Hp; cbn [app visit]; [done|].
  destruct (Hp p) as [n ->]; [by apply elem_of_cons; left|].
  destruct (fn p n arg) as [arg' r]. destruct (r =? CB_BREAK) eqn:E; [by rewrite E|].
  apply IH. intros; apply Hp, elem_of_cons. by right.
Qed.

Lemma cb_descend_ok {S} (fn : Z → cb_node → S → S * Z) h : answers fn → ∀ fuel p t arg,
  at_ h p t → (depth t < fuel)%nat → cb_descend fn fuel h p arg = Ret (visit fn h (cells t) arg).
Proof.
  intros Hfn. induction fuel as [|fuel IH]; intros p t arg Ha Hf; [lia|]. cbn [cb_descend].
  destruct t as [c kp|q c l r]; cbn [at_ depth] in *.
  - destruct Ha as (-> & He & _ & n & Hn & _). rewrite (proj1 (tagged_even c He)). unfold deref. rewrite Hn. cbn [obind].
    cbn. rewrite Hn. destruct (Hfn c n arg) as [E|E], (fn c n arg) as [a r]; cbn in E; subst r; done.
  - destruct Ha as (-> & He & n & Hn & Eb & Eo & Al & Ar).
    rewrite (proj2 (tagged_even q He)). unfold cb_node_of, deref. rewrite Z.add_simpl_r, Hn. cbn [obind].
    rewrite (IH _ l) by (done || lia). cbn [obind]. rewrite cells_node, visit_app by (done || by eapply at_cells).
    destruct (visit fn h (cells l) arg) as [a r']. destruct (r' =? CB_BREAK); [done|]. apply IH; (done || lia).
Qed.

(** The comparison loop. *)
Lemma differ_loop_ok x y klen : klen <= zlen x → klen <= zlen y → ∀ fuel b, 0 <= b <= klen →
  klen - b < Z.of_nat fuel → ztake b x = ztake b y →
  returns (differ_loop fuel x y b klen) (λ r, match r with
    | None => ztake klen x = ztake klen y
    | Some i => 0 <= i < klen ∧ ztake i x = ztake i y ∧ znth x i ≠ znth y i
    end).
Proof.
  intros Hx Hy. induction fuel as [|fuel IH]; intros b Hb Hf E; [lia|]. cbn [differ_loop].
  destruct (Z.ltb_spec b klen); [|cbn; by replace klen with b by lia].
  destruct (znth_is_Some x b) as [u Hu]; [lia|]. destruct (znth_is_Some y b) as [v Hv]; [lia|].
  rewrite (rd_znth _ _ _ Hu), (rd_znth _ _ _ Hv). cbn [obind]. destruct (Z.eqb_spec u v) as [->|]; cbn [negb].
  - apply IH; [lia|lia|]. by rewrite !(ztake_succ _ b v), E by (done || lia).
  - cbn. split_and!; [lia|lia|done|]. rewrite Hu, Hv. congruence.
Qed.

(** *** Insertion *)
Section insert.
Context (h : heap) (root node d : Z) (key : list Z) (nn : cb_node).
Hypothesis (Heven : Z.even node = true) (Hnode : node ≠ 0) (Hnn : h !! node = Some nn) (Hk : k nn = key).
Hypothesis (Hbyte : byte nn = d / 8) (Hother : otherbits nn = mask (d mod 8)).
Hypothesis (Hkey : zlen key = L) (Hkb : bytes_ok key) (Hd : 0 <= d < 8 * L).
(** The child that the code has set before it looks for the place. *)
Hypothesis Hself : (if bit key d then child1 nn else child0 nn) = node.
Let newdirection : Z := if bit key d then 0 else 1.

(** The pointer is not one of the tree below it, nor one of the new node. *)
Definition apart (w : where_) (t : cbt) : Prop :=
  match w with At_root => True | At_child q dir => q ≠ node ∧ q ∉ inners t ∧ (dir = 0 ∨ dir = 1) end.

Definition keeps_keys (h' : heap) : Prop := ∀ x n, h !! x = Some n → ∃ n', h' !! x = Some n' ∧ k n' = k n.

Lemma link_here w p t : load h root w = Ret p → at_ h p t → node ∉ inners t → apart w t →
  ∃ nn' h' root', k nn' = k nn ∧ link h root node newdirection w = Ret (h', root') ∧
    store (<[node := nn']> h) root w (1 + node) = Ret (h', root') ∧
    at_ h' (node + 1) (attach node d key t) ∧ keeps_keys h'.
Proof.
  intros Hl Ha Hni Hw.
  set (nn' := if bit key d then Cb_node p (child1 nn) (byte nn) (otherbits nn) (k nn)
              else Cb_node (child0 nn) p (byte nn) (otherbits nn) (k nn)).
  assert (k nn' = k nn) as Hk' by (subst nn'; by destruct (bit key d)).
  assert (set_child nn newdirection p = Ret nn') as Hset by (subst newdirection nn'; by destruct (bit key d)).
  assert (∀ h' root', store (<[node := nn']> h) root w (1 + node) = Ret (h', root') →
    link h root node newdirection w = Ret (h', root')) as Hlink.
  { intros h' root' E. unfold link, deref. rewrite Hl, Hnn. cbn [obind]. rewrite Hset. cbn [obind]. done. }
  assert (∃ h' root', store (<[node := nn']> h) root w (1 + node) = Ret (h', root') ∧ keeps_keys h' ∧
    h' !! node = Some nn' ∧ ∀ q n, q ∈ inners t → h !! q = Some n → h' !! q = Some n) as (h' & root' & Hst & Hkeep & Hn' & Hin).
  { assert (keeps_keys (<[node := nn']> h)) as Hkeep.
    { intros x n Hx. destruct (decide (x = node)) as [->|].
      - exists nn'. rewrite lookup_insert_eq. split; [done|]. rewrite Hk'. congruence.
      - exists n. by rewrite lookup_insert_ne. }
    destruct w as [|q0 dir]; cbn [store load apart] in *.
    - eexists _, _. split_and!; [done|done|apply lookup_insert_eq|].
      intros q n Hq Hqn. rewrite lookup_insert_ne; [done|]. by intros ->.
    - destruct Hw as (Hq0 & Hq0i & Hdir). unfold deref in *. rewrite lookup_insert_ne by done.
      destruct (h !! q0) as [n0|] eqn:E0; [|done]. cbn [obind] in *.
      assert (∃ n0', set_child n0 dir (1 + node) = Ret n0' ∧ k n0' = k n0) as (n0' & E0' & Hk0).
      { destruct Hdir as [-> | ->]; by eexists. }
      rewrite E0'. cbn [obind]. eexists _, _. split_and!; [done| | |].
      + intros x n Hx. destruct (decide (x = q0)) as [->|].
        * exists n0'. rewrite lookup_insert_eq. split; [done|]. congruence.
        * rewrite lookup_insert_ne by done. by apply Hkeep.
      + rewrite lookup_insert_ne by done. apply lookup_insert_eq.
      + intros q n Hq Hqn. rewrite !lookup_insert_ne; [done|by intros ->|by intros ->]. }
  exists nn', h', root'. split_and!; try done; [by apply Hlink|].
  assert (at_ h' p t) as Hat.
  { eapply at_frame; [done| |].
    - intros c n _ Hc. by apply Hkeep.
    - intros q n Hq Hqn. exists n. split; [by apply Hin|done]. }
  assert (at_ h' node (Leaf node key)) as Hleaf.
  { split_and!; try done. exists nn'. split; [done|]. by rewrite Hk'. }
  pose proof Hself as Hs. unfold attach. subst nn'. destruct (bit key d); cbn [at_]; split_and!; try done; eexists;
    (split; [exact Hn'|]); cbn [byte otherbits child0 child1]; rewrite Hs; split_and!; try done; apply Hleaf.
Qed.

Lemma place_link t : ∀ fuel w p, load h root w = Ret p → at_ h p t → wf L t → NoDup (inners t) →
  node ∉ inners t → apart w t → (depth t < fuel)%nat →
  ∃ w' h' root', place_loop fuel h root w key L (d / 8) (mask (d mod 8)) = Ret w' ∧
    link h root node newdirection w' = Ret (h', root') ∧ keeps_keys h' ∧
    ((w' = w ∧ at_ h' (node + 1) (ins node d key t) ∧
      ∃ nn', k nn' = k nn ∧ store (<[node := nn']> h) root w (1 + node) = Ret (h', root')) ∨
     (root' = root ∧ at_ h' p (ins node d key t) ∧ ∀ x, x ≠ node → x ∉ inners t → h' !! x = h !! x)).
Proof.
  induction t as [c kp|q c l IHl r IHr]; intros fuel w p Hl Ha Hwf Hnd Hni Hw Hf;
    (destruct fuel as [|fuel]; [lia|]); cbn [place_loop]; rewrite Hl; cbn [obind ins].
  - pose proof Ha as (-> & He & _). rewrite (proj1 (tagged_even c He)). cbn [negb].
    destruct (link_here w c (Leaf c kp)) as (nn' & h' & root' & ? & ? & ? & ? & ?); try done. naive_solver.
  - pose proof Ha as (-> & He & n & Hn & Eb & Eo & Al & Ar). pose proof Hwf as (Hc & Wl & Wr & _).
    rewrite (proj2 (tagged_even q He)). cbn [negb]. unfold cb_node_of. rewrite Z.add_simpl_r.
    replace (deref h q) with (Ret n : outcome cb_node) by (unfold deref; by rewrite Hn). cbn [obind].
    rewrite Eb, Eo. pose proof (crit_before c d ltac:(lia) ltac:(lia)) as Ecd.
    destruct (Z.ltb_spec d c) as [Hdc|Hdc].
    { replace (if d / 8 <? c / 8 then _ else _) with (Ret w : outcome where_)
        by (destruct (d / 8 <? c / 8); [done|]; cbn [orb] in Ecd; by rewrite Ecd).
      destruct (link_here w (q + 1) (Node q c l r)) as (nn' & h' & root' & ? & ? & ? & ? & ?); try done. naive_solver. }
    apply orb_false_iff in Ecd as [-> ->].
    destruct (key_byte_ok n key L c) as (xb & Ex & Ed); [done|lia|lia|done|done|]. rewrite Ex. cbn [obind].
    rewrite <- Eo, Ed, ztake_all by lia. cbn [inners depth] in *.
    apply NoDup_cons in Hnd as [Hqi [Hndl [Hdisj Hndr]]%NoDup_app].
    assert (q ∉ inners l ∧ q ∉ inners r ∧ node ≠ q ∧ node ∉ inners l ∧ node ∉ inners r) as (Ql & Qr & Nq & Nl & Nr) by set_solver.
    assert (∀ h' s ps, keeps_keys h' → at_ h ps s → (∀ x, x ∈ inners s → h' !! x = h !! x) → at_ h' ps s) as Frame.
    { intros h' s ps Hkk Hs Hx. eapply at_frame; [done|intros; by apply Hkk|].
      intros x nx Hxs Hxn. exists nx. rewrite Hx by done. done. }
    destruct (bit key c).
    + destruct (IHr fuel (At_child q 1) (child1 n)) as (w' & h' & root' & Hpl & Hlk & Hkk & Hcase); try done; try lia.
      { cbn [load]. unfold deref. by rewrite Hn. } { cbn. auto. }
      exists w', h', root'. split_and!; try done. right. destruct Hcase as [(-> & Hat & nn' & Hk' & Hst)|(-> & Hat & Hfr)].
      * rewrite (Z.add_comm 1) in Hst. cbn [store] in Hst. unfold deref in Hst. rewrite lookup_insert_ne, Hn in Hst by done. cbn in Hst. injection Hst as <- <-.
        split_and!; [done| |].
        -- split_and!; try done. eexists. rewrite lookup_insert_eq. split; [done|]. cbn [byte otherbits child0 child1].
           split_and!; try done. apply Frame; [done..|]. intros x Hx.
           rewrite !lookup_insert_ne; [done|by intros ->|by intros ->].
        -- intros x Hx1 Hx2. rewrite !lookup_insert_ne; [done|by intros ->|]. intros ->. apply Hx2. by apply elem_of_cons; left.
      * split_and!; [done| |intros x Hx1 Hx2; apply Hfr; [done|]; set_solver].
        split_and!; try done. exists n. rewrite Hfr by done. split_and!; try done.
        apply Frame; [done..|]. intros x Hx. apply Hfr; [by intros ->|]. intros Hx'. by apply (Hdisj x).
    + destruct (IHl fuel (At_child q 0) (child0 n)) as (w' & h' & root' & Hpl & Hlk & Hkk & Hcase); try done; try lia.
      { cbn [load]. unfold deref. by rewrite Hn. } { cbn. auto. }
      exists w', h', root'. split_and!; try done. right. destruct Hcase as [(-> & Hat & nn' & Hk' & Hst)|(-> & Hat & Hfr)].
      * rewrite (Z.add_comm 1) in Hst. cbn [store] in Hst. unfold deref in Hst. rewrite lookup_insert_ne, Hn in Hst by done. cbn in Hst. injection Hst as <- <-.
        split_and!; [done| |].
        -- split_and!; try done. eexists. rewrite lookup_insert_eq. split; [done|]. cbn [byte otherbits child0 child1].
           split_and!; try done. apply Frame; [done..|]. intros x Hx.
           rewrite !lookup_insert_ne; [done|by intros ->|by intros ->].
        -- intros x Hx1 Hx2. rewrite !lookup_insert_ne; [done|by intros ->|]. intros ->. apply Hx2. by apply elem_of_cons; left.
      * split_and!; [done| |intros x Hx1 Hx2; apply Hfr; [done|]; set_solver].
        split_and!; try done. exists n. rewrite Hfr by done. split_and!; try done.
        apply Frame; [done..|]. intros x Hx. apply Hfr; [by intros ->|]. intros Hx'. by apply (Hdisj x).
Qed.
End insert.


(** *** The whole insertion *)
Lemma leaves_ins node d key t : leaves (ins node d key t) ≡ₚ (node, key) :: leaves t.
Proof.
  assert (∀ s, leaves (attach node d key s) ≡ₚ (node, key) :: leaves s) as Ha.
  { intros s. unfold attach. destruct (bit key d); cbn [leaves]; [by rewrite Permutation_app_comm|done]. }
  induction t as [p kp|q c l IHl r IHr]; cbn [ins]; [apply Ha|]. destruct (d <? c); [apply Ha|].
  destruct (bit key c); cbn [leaves]; [rewrite IHr|by rewrite IHl]. by rewrite Permutation_middle.
Qed.
Lemma inners_ins node d key t : inners (ins node d key t) ≡ₚ node :: inners t.
Proof.
  assert (∀ s, inners (attach node d key s) ≡ₚ node :: inners s) as Ha.
  { intros s. unfold attach. by destruct (bit key d); cbn [inners]; rewrite ?app_nil_r. }
  induction t as [p kp|q c l IHl r IHr]; cbn [ins]; [apply Ha|]. destruct (d <? c); [apply Ha|].
  destruct (bit key c); cbn [inners]; [rewrite IHr|rewrite IHl]; solve_Permutation.
Qed.

(** A tree and its cells: every inner node is also a leaf. *)
Definition stored (h : heap) (root : Z) (t : cbt) : Prop :=
  at_ h root t ∧ wf L t ∧ NoDup (cells t) ∧ NoDup (inners t) ∧ inners t ⊆ cells t.

Lemma at_nonzero h p t : at_ h p t → p ≠ 0.
Proof.
  destruct t as [c kp|q c l r]; cbn [at_]; [naive_solver|]. intros (-> & He & _) E.
  replace q with (-1) in He by lia. done.
Qed.

Lemma at_key h root t p key : at_ h root t → (p, key) ∈ leaves t → p ≠ 0 ∧ ∃ n, h !! p = Some n ∧ k n = key.
Proof.
  revert root. induction t as [c kp|q c l IHl r IHr]; intros root; cbn [at_ leaves].
  - intros (_ & _ & H0 & n & Hn & Hk) [= -> ->]%list_elem_of_singleton. eauto.
  - intros (_ & _ & n & _ & _ & _ & Al & Ar) [H|H]%elem_of_app; eauto.
Qed.

Lemma stored_ins h h' root root' node d key t :
  stored h root t → node ∉ cells t → zlen key = L → bytes_ok key → 0 <= d < 8 * L →
  agree (best t key).2 key d → bit (best t key).2 d = negb (bit key d) →
  at_ h' root' (ins node d key t) → stored h' root' (ins node d key t).
Proof.
  intros (Ha & Hw & Hc & Hi & Hsub) Hn Hk Hb Hd Hag Hbit Hat.
  assert (cells (ins node d key t) ≡ₚ node :: cells t) as Ec by (unfold cells; by rewrite leaves_ins).
  split_and!; [done|by apply ins_wf|rewrite Ec; by constructor|rewrite inners_ins; constructor; [set_solver|done]|].
  intros x. rewrite inners_ins, Ec. set_solver.
Qed.

(** The crit-bit of a key and its best match. *)
Lemma first_difference x y i a b : zlen x = L → zlen y = L → bytes_ok x → bytes_ok y → 0 <= i < L →
  ztake i x = ztake i y → znth x i = Some a → znth y i = Some b → a ≠ b →
  ∃ d, 0 <= d < 8 * L ∧ i = d / 8 ∧ otherbits_of a b = mask (d mod 8) ∧ agree x y d ∧ bit x d = negb (bit y d) ∧
    direction_of (otherbits_of a b) a = if bit y d then 0 else 1.
Proof.
  intros Lx Ly Bx By Hi E Ha Hb Hne.
  assert (byte_ok a) as Oa by (by apply (bytes_ok_znth x i)). assert (byte_ok b) as Ob by (by apply (bytes_ok_znth y i)).
  destruct (otherbits_of_ok a b Oa Ob Hne) as (j & Hj & Eo & Ej & Hbelow). exists (8 * i + j).
  assert ((8 * i + j) / 8 = i ∧ (8 * i + j) mod 8 = j) as [Ed Em].
  { replace (8 * i + j) with (j + i * 8) by lia. rewrite Z.div_add, Z.mod_add, Z.div_small, Z.mod_small by lia. lia. }
  assert (bit x (8 * i + j) = Z.testbit a (7 - j) ∧ bit y (8 * i + j) = Z.testbit b (7 - j)) as [E1 E2].
  { by rewrite !bit_at, Ha, Hb by lia. }
  rewrite Ed, Em, E1, E2. split_and!; try done; try lia.
  - intros p Hp. destruct (decide (p < 8 * i)).
    + apply (proj2 (agree_bytes x y i Bx By ltac:(lia) ltac:(lia)) E). lia.
    + replace p with (8 * i + (p - 8 * i)) by lia. rewrite !bit_at, Ha, Hb by lia. apply Hbelow. lia.
  - rewrite Eo, direction_mask by done. rewrite Ej. by destruct (Z.testbit b (7 - j)).
Qed.

Lemma cb_insert_ok h root t node n : stored h root t → Z.even node = true → node ≠ 0 → h !! node = Some n →
  zlen (k n) = L → bytes_ok (k n) → node ∉ cells t →
  returns (cb_insert h root node L) (λ '(h', root', r), keeps_keys h h' ∧
    ((∃ t', stored h' root' t' ∧ r = 0 ∧ k n ∉ keys t ∧ leaves t' ≡ₚ (node, k n) :: leaves t) ∨
     (h' = h ∧ root' = root ∧ (r, k n) ∈ leaves t))).
Proof.
  intros Hst He H0 Hn Hl Hb Hc. pose proof Hst as (Ha & Hw & Hnd & Hni & Hsub). unfold cb_insert.
  rewrite Z.land_comm. pose proof (proj1 (tagged_even node He)) as Ht. unfold tagged in Ht. rewrite Ht.
  rewrite (proj2 (Z.eqb_neq root 0)) by by eapply at_nonzero. unfold deref at 1. rewrite Hn. cbn [obind].
  unfold cb_internal_best_match. rewrite (best_loop_ok h (k n) L Hb ltac:(lia) _ root t Ha Hw).
  2: { pose proof (depth_size h root t Ha Hnd). lia. }
  rewrite (ztake_all (k n)) by lia. cbn [obind]. pose proof (best_leaf t (k n)) as Hbl. pose proof (best_key t (k n)) as Hbk.
  destruct (wf_keys L HL t Hw _ Hbk) as [Lb Bb].
  destruct (best t (k n)) as [p kp] eqn:Eb. cbn [fst snd] in *.
  destruct (at_key h root t p kp Ha Hbl) as (Hp0 & pn & Hpn & Hkp). unfold deref at 1. rewrite Hpn. cbn [obind]. rewrite Hkp.
  apply wp_bind. eapply wp_mono; [|apply (differ_loop_ok kp (k n) L); [lia|lia|lia|lia|done]].
  intros [i|] Hdiff.
  2: { cbn. split; [by intros ? n' ?; exists n'|]. right. split_and!; try done.
       rewrite (ztake_all kp), (ztake_all (k n)) in Hdiff by lia. by rewrite <- Hdiff. }
  destruct Hdiff as (Hi & Etake & Hne).
  destruct (znth_is_Some kp i) as [a Hai]; [lia|]. destruct (znth_is_Some (k n) i) as [b Hbi]; [lia|].
  rewrite (rd_znth _ _ _ Hai), (rd_znth _ _ _ Hbi). cbn [obind].
  destruct (first_difference kp (k n) i a b) as (d & Hd & Ei & Eo & Hag & Hbit & Edir); try done; [congruence|].
  rewrite Edir, Eo. pose proof (Z.mod_pos_bound d 8).
  assert (u32 i = d / 8) as -> by (unfold u32; rewrite Z.mod_small; lia).
  assert (u8 (mask (d mod 8)) = mask (d mod 8)) as ->.
  { unfold u8. apply Z.mod_small. unfold mask. pose proof (Z.pow_pos_nonneg 2 (7 - d mod 8)).
    pose proof (Z.pow_le_mono_r 2 (7 - d mod 8) 7). lia. }
  set (nn := if bit (k n) d then Cb_node (child0 n) node (d / 8) (mask (d mod 8)) (k n)
             else Cb_node node (child1 n) (d / 8) (mask (d mod 8)) (k n)).
  replace (set_child _ _ node) with (Ret nn : outcome cb_node) by (subst nn; by destruct (bit (k n) d)). cbn [obind].
  assert (k nn = k n) as Hknn by (subst nn; by destruct (bit (k n) d)).
  set (h1 := <[node := nn]> h).
  assert (keeps_keys h h1) as Hkk1.
  { intros x m Hx. unfold h1. destruct (decide (x = node)) as [->|]; [rewrite lookup_insert_eq; exists nn|rewrite lookup_insert_ne by done; by exists m].
    split; [done|congruence]. }
  assert (at_ h1 root t) as Ha1.
  { eapply at_frame; [done|intros; by apply Hkk1|]. intros q m Hq Hm. exists m. split; [|done].
    unfold h1. rewrite lookup_insert_ne; [done|]. intros ->. by apply Hc, Hsub. }
  rewrite Hknn, Ei.
  destruct (place_link h1 root node d (k n) nn) with (t := t) (fuel := S (base.size h1)) (w := At_root) (p := root)
    as (w' & h' & root' & Hpl & Hlk & Hkk & Hcase); try done.
  { apply lookup_insert_eq. } { subst nn. by destruct (bit (k n) d). } { subst nn. by destruct (bit (k n) d). }
  { subst nn. by destruct (bit (k n) d). } { intros Hin. by apply Hc, Hsub. }
  { pose proof (depth_size h1 root t Ha1 Hnd). lia. }
  rewrite Hpl. cbn [obind]. rewrite Hlk. cbn [obind wp].
  assert (best t (k n) = (p, kp)) as Eb' by done.
  assert (k n ∉ keys t) as Hnk.
  { intros Hin. pose proof (best_in_tree L t (k n) Hw Hin) as E. rewrite Eb in E. cbn in E. rewrite E in Hbit.
    revert Hbit. by destruct (bit (k n) d). }
  split; [intros x m Hx; destruct (Hkk1 x m Hx) as (m1 & Hm1 & E1); destruct (Hkk x m1 Hm1) as (m2 & Hm2 & E2); exists m2; split; [done|congruence]|].
  left. exists (ins node d (k n) t).
  assert (at_ h' root' (ins node d (k n) t)) as Hat.
  { destruct Hcase as [(-> & Hat & nn' & _ & Hs)|(-> & Hat & _)]; [|done].
    cbn in Hs. injection Hs as <- <-. by rewrite Z.add_comm. }
  split_and!; [|done|done|apply leaves_ins]. eapply stored_ins; try done; by rewrite Eb.
Qed.


(** *** Search and enumeration by prefix *)
Lemma prefix_take_iff (pf x : list Z) : zlen pf <= zlen x → pf `prefix_of` x ↔ ztake (zlen pf) x = pf.
Proof.
  intros Hl. split; [intros [u ->]; apply ztake_app_len|]. intros E. exists (zdrop (zlen pf) x).
  rewrite <- E at 1. by rewrite ztake_zdrop.
Qed.

Lemma walk_best_ok pf t : wf L t → bytes_ok pf → zlen pf <= L →
  if decide (pf `prefix_of` (best t pf).2) then leaves (walk (zlen pf) t t pf).2 = with_prefix pf t
  else with_prefix pf t = [].
Proof.
  intros Hw Hp Hl. pose proof (walk_ok L HL pf t Hw Hp Hl) as W. rewrite <- (walk_best (zlen pf) pf t t).
  by destruct (walk (zlen pf) t t pf).
Qed.

(** The tree as an ordered list of cells and keys. *)
Definition represents (h : heap) (root : Z) (ids : list (Z * list Z)) : Prop :=
  (ids = [] ∧ root = 0) ∨ ∃ t, stored h root t ∧ leaves t = ids.

Section query.
Context (h : heap) (root : Z) (ids : list (Z * list Z)) (key : list Z) (klen : Z).
Hypothesis (Hr : represents h root ids) (Hb : bytes_ok key) (Hkl : 0 <= klen <= zlen key) (Hlen : klen <= L).
Let pf : list Z := ztake klen key.
Let found : list (Z * list Z) := filter (λ e, pf `prefix_of` e.2) ids.

Lemma zlen_pf : zlen pf = klen.
Proof. unfold pf. rewrite zlen_ztake; lia. Qed.
Lemma bytes_pf : bytes_ok pf.
Proof. by apply Forall_take. Qed.

Lemma cb_lookup_ok : returns (cb_lookup h root key klen) (λ r, (r = 0 ∧ found = []) ∨ ∃ x, r ≠ 0 ∧ (r, x) ∈ found).
Proof.
  unfold cb_lookup, cb_internal_best_match. destruct Hr as [[-> ->]|(t & (Ha & Hw & Hnd & _) & <-)]; [left; done|].
  pose proof (depth_size h root t Ha Hnd). rewrite (best_loop_ok h key klen Hb Hkl _ root t Ha Hw) by lia. cbn [obind].
  fold pf. pose proof (walk_best_ok pf t Hw bytes_pf ltac:(rewrite zlen_pf; lia)) as W.
  pose proof (best_leaf t pf) as Hbl. pose proof (best_key t pf) as Hbk. destruct (wf_keys L HL t Hw _ Hbk) as [Lb Bb].
  destruct (best t pf) as [p kp]. cbn [fst snd] in *. destruct (at_key h root t p kp Ha Hbl) as (Hp0 & n & Hn & Hk).
  rewrite (proj2 (Z.eqb_neq p 0)) by done. unfold deref. rewrite Hn. cbn [obind]. unfold key_cmp. rewrite Hk.
  unfold rd_range. rewrite (proj2 (Z.leb_le 0 klen)), (proj2 (Z.leb_le (0 + klen) (zlen kp))), (proj2 (Z.leb_le (0 + klen) (zlen key))) by lia.
  cbn [andb Z.leb Z.compare obind wp]. change (zslice 0 klen key) with pf. change (zslice 0 klen kp) with (ztake klen kp).
  assert (pf `prefix_of` kp ↔ ztake klen kp = pf) as Hpre by (rewrite prefix_take_iff; rewrite zlen_pf; done || lia).
  change (with_prefix pf t) with found in W.
  destruct (Z.eqb_spec (memcmp (ztake klen kp) pf) 0) as [E|E].
  - right. exists kp. split; [done|]. apply cmp_eq in E. apply list_elem_of_filter. split; [|done]. by apply Hpre.
  - left. split; [done|]. rewrite decide_False in W; [done|]. rewrite Hpre. intros E0. apply E. rewrite E0. apply (cmp_refl memcmp).
Qed.

Lemma cb_each_ok {S} (fn : Z → cb_node → S → S * Z) arg : answers fn →
  cb_each fn h root key klen arg = Ret (visit fn h (fst <$> found) arg).1.
Proof.
  intros Hfn. unfold cb_each. destruct Hr as [[-> ->]|(t & (Ha & Hw & Hnd & _) & <-)]; [done|].
  rewrite (proj2 (Z.eqb_neq root 0)) by by eapply at_nonzero. pose proof (depth_size h root t Ha Hnd).
  destruct (top_loop_ok h key klen Hb Hkl (Datatypes.S (base.size h)) root t root t Ha Hw ltac:(lia) Ha) as (ptop & -> & Htop).
  cbn [obind]. fold pf in Htop |- *. pose proof (walk_best_ok pf t Hw bytes_pf ltac:(rewrite zlen_pf; lia)) as W.
  pose proof (best_leaf t pf) as Hbl. pose proof (best_key t pf) as Hbk. destruct (wf_keys L HL t Hw _ Hbk) as [Lb Bb].
  destruct (best t pf) as [p kp]. cbn [fst snd] in *. destruct (at_key h root t p kp Ha Hbl) as (Hp0 & n & Hn & Hk).
  unfold deref at 1. rewrite Hn. cbn [obind]. rewrite Hk.
  assert (pf `prefix_of` kp ↔ ztake klen kp = pf) as Hpre by (rewrite prefix_take_iff; rewrite zlen_pf; done || lia).
  change (with_prefix pf t) with found in W. rewrite zlen_pf in W.
  pose proof (differ_loop_ok kp key klen ltac:(lia) ltac:(lia) (Datatypes.S (Z.to_nat klen)) 0 ltac:(lia) ltac:(lia) eq_refl) as D.
  apply returns_eq in D as ([i|] & -> & D); cbn [obind].
  - rewrite decide_False in W; [by rewrite W|]. rewrite Hpre. intros E. destruct D as (Hi & _ & Hne). apply Hne.
    rewrite <- (znth_ztake kp klen), E by lia. unfold pf. by rewrite znth_ztake by lia.
  - rewrite decide_True in W by (by apply Hpre).
    assert (length (leaves (walk klen t t pf).2) <= length (leaves t))%nat as Hlen'.
    { rewrite W. unfold found. apply length_filter. }
    rewrite (cb_descend_ok fn h Hfn _ ptop _ arg Htop).
    + cbn [obind]. unfold cells. rewrite W. by destruct (visit fn h (fst <$> found) arg).
    + pose proof (depth_leaves (walk klen t t pf).2). pose proof (leaves_size h root t Ha Hnd). lia.
Qed.
End query.

(** *** A sequence of insertions *)
Fixpoint insert_all (h : heap) (root : Z) (ps : list Z) : outcome (heap * Z) :=
  match ps with
  | [] => Ret (h, root)
  | p :: ps => let! (h, root, _) := cb_insert h root p L in insert_all h root ps
  end.

(** Cells ready to be inserted: aligned, with a key of the right length, whatever
    their other fields hold. *)
Definition ready (h : heap) (e : Z * list Z) : Prop :=
  Z.even e.1 = true ∧ e.1 ≠ 0 ∧ zlen e.2 = L ∧ bytes_ok e.2 ∧ ∃ n, h !! e.1 = Some n ∧ k n = e.2.

Lemma ready_keeps h h' e : keeps_keys h h' → ready h e → ready h' e.
Proof.
  intros Hk (? & ? & ? & ? & n & Hn & E). destruct (Hk _ _ Hn) as (n' & Hn' & E'). split_and!; try done.
  exists n'. split; [done|congruence].
Qed.

Lemma insert_represents h root ids p key : represents h root ids → ready h (p, key) → p ∉ fst <$> ids →
  returns (cb_insert h root p L) (λ '(h', root', r), keeps_keys h h' ∧ ∃ ids', represents h' root' ids' ∧
    (ids' ≡ₚ (p, key) :: ids ∨ ids' = ids ∧ (r, key) ∈ ids)).
Proof.
  intros Hr (He & H0 & Hlk & Hbk & n & Hpn & Hk) Hp. cbn [fst snd] in *. destruct Hr as [[-> ->]|(t & Hst & <-)].
  - unfold cb_insert. rewrite Z.land_comm. pose proof (proj1 (tagged_even p He)) as Ht. unfold tagged in Ht. rewrite Ht.
    cbn. split; [by intros ? n' ?; exists n'|]. exists [(p, key)]. split; [|by left]. right.
    exists (Leaf p key). split; [|done]. split_and!; cbn; try done; [by eauto 10|apply NoDup_singleton|constructor|set_solver].
  - eapply wp_mono; [|apply (cb_insert_ok h root t p n); try done; [by rewrite Hk|by rewrite Hk]].
    intros [[h' root'] r]. rewrite Hk. intros [Hkk [(t' & Hst' & _ & _ & E)|(-> & -> & Hin)]]; (split; [done|]).
    + exists (leaves t'). split; [right; by exists t'|by left].
    + exists (leaves t). split; [right; by exists t|by right].
Qed.

(** A new cell does not disturb the tree. *)
Lemma represents_alloc h root ids p n : represents h root ids → p ∉ fst <$> ids → represents (<[p := n]> h) root ids.
Proof.
  intros [?|(t & (Ha & Hw & Hc & Hi & Hsub) & <-)] Hp; [by left|]. right. exists t. split; [|done]. split_and!; try done.
  eapply at_frame; [done| |].
  - intros c m Hcm Hm. exists m. rewrite lookup_insert_ne; [done|]. by intros ->.
  - intros q m Hq Hm. exists m. rewrite lookup_insert_ne; [done|]. intros ->. by apply Hp, Hsub.
Qed.

Lemma represents_keys h root ids e : represents h root ids → e ∈ ids → ∃ n, h !! e.1 = Some n ∧ k n = e.2.
Proof.
  intros [[-> _]|(t & (Ha & _) & <-)] He; [by apply not_elem_of_nil in He|]. destruct e as [p key].
  by apply (at_key h root t p key Ha He).
Qed.
Lemma represents_ascending h root ids : represents h root ids → ascending memcmp (snd <$> ids).
Proof. intros [[-> _]|(t & (_ & Hw & _) & <-)]; [constructor|]. by apply (keys_ascending L HL). Qed.

Lemma insert_all_ok nodes : ∀ h root ids, represents h root ids → Forall (ready h) nodes →
  NoDup (fst <$> (ids ++ nodes)) →
  returns (insert_all h root (fst <$> nodes)) (λ '(h', root'), ∃ ids', represents h' root' ids' ∧
    ids ⊆ ids' ∧ ids' ⊆ ids ++ nodes ∧ ∀ key, key ∈ snd <$> ids ++ nodes → key ∈ snd <$> ids').
Proof.
  induction nodes as [|[p key] nodes IH]; intros h root ids Hr Hn Hnd; cbn [fmap list_fmap insert_all].
  - cbn. exists ids. rewrite app_nil_r. done.
  - apply Forall_cons in Hn as [(He & H0 & Hlk & Hbk & Hpn) Hn]. cbn [fst snd] in *.
    assert (p ∉ fst <$> ids) as Hp.
    { rewrite fmap_app in Hnd. apply NoDup_app in Hnd as (_ & Hd & _). intros Hc. apply (Hd p Hc). by apply elem_of_cons; left. }
    pose proof (insert_represents h root ids p key Hr (conj He (conj H0 (conj Hlk (conj Hbk Hpn)))) Hp) as Hins.
    apply wp_bind. eapply wp_mono; [|exact Hins]. intros [[h' root'] r] (Hkk & ids' & Hr' & Hcase).
    assert (NoDup (fst <$> (ids' ++ nodes))) as Hnd'.
    { rewrite fmap_app in Hnd |- *. cbn in Hnd. destruct Hcase as [E|[-> _]].
      - rewrite E. cbn. rewrite <- Permutation_middle in Hnd. done.
      - rewrite <- Permutation_middle in Hnd. by apply NoDup_cons in Hnd as [_ ?]. }
    eapply wp_mono; [|apply (IH h' root' ids' Hr'); [|done]].
    2: { eapply Forall_impl; [exact Hn|]. intros e. by apply ready_keeps. }
    intros [h'' root''] (ids'' & Hr'' & S1 & S2 & S3). exists ids''. destruct Hcase as [E|[-> Hin]].
    + split_and!; [done| | |].
      * intros x Hx. apply S1. rewrite E. by apply elem_of_cons; right.
      * intros x Hx%S2. rewrite E in Hx. set_solver.
      * intros y Hy. apply S3. rewrite E. set_solver.
    + split_and!; [done|done|set_solver|].
      intros y. rewrite fmap_app. cbn. rewrite elem_of_app, elem_of_cons. intros [Hy|[->|Hy]]; apply S3; rewrite fmap_app, elem_of_app.
      * by left.
      * left. by apply (list_elem_of_fmap_2 snd) in Hin.
      * by right.
Qed.


End operations.


(** ** Property *)

(** C36. A crit-bit tree filled with any keys of one length is an ordered set of
    them: the cells it holds are among the inserted ones, in ascending order of
    their keys, one for each distinct key; looking up a key, or a prefix of one,
    finds a cell exactly when there is one; and the enumeration by prefix calls
    back for exactly the keys with that prefix, in order, until the callback
    stops it. *)
Theorem cbtree_ordered_set L h nodes :
  0 < L < 2 ^ 32 → Forall (ready L h) nodes → NoDup (fst <$> nodes) →
  returns (insert_all L h 0 (fst <$> nodes)) (λ '(h', root), ∃ ids,
    ids ⊆ nodes ∧ ascending memcmp (snd <$> ids) ∧ (∀ key, key ∈ snd <$> ids ↔ key ∈ snd <$> nodes) ∧
    ∀ key klen, bytes_ok key → 0 <= klen <= zlen key → klen <= L →
      let found := filter (λ e : Z * list Z, ztake klen key `prefix_of` e.2) ids in
      returns (cb_lookup h' root key klen) (λ r, (r = 0 ∧ found = []) ∨ ∃ x, r ≠ 0 ∧ (r, x) ∈ found) ∧
      ∀ S (fn : Z → cb_node → S → S * Z) arg, answers fn →
        cb_each fn h' root key klen arg = Ret (visit fn h' (fst <$> found) arg).1).
Proof.
  intros HL Hn Hnd. eapply wp_mono; [|apply (insert_all_ok L HL nodes h 0 []); [by left|done|done]].
  intros [h' root] (ids & Hr & _ & Hsub & Hall). exists ids. cbn [app] in Hsub, Hall. split_and!; [done| | |].
  - by apply (represents_ascending L HL h' root).
  - intros key. split; [|apply Hall]. intros (e & -> & He)%list_elem_of_fmap. by apply list_elem_of_fmap_2, Hsub.
  - intros key klen Hb Hkl Hl found. split; [by apply (cb_lookup_ok L HL)|]. intros S fn arg Hfn. by apply (cb_each_ok L HL).
Qed.

(** Two keys of two bytes and a duplicate, in cells 8, 16 and 24. *)
Definition example_heap : heap :=
  <[8 := Cb_node 0 0 7 7 [1; 200]]> (<[16 := Cb_node 5 0 0 0 [1; 136]]> {[24 := Cb_node 0 0 0 0 [1; 200]]}).
Lemma cbtree_ordered_set_witness :
  returns (insert_all 2 example_heap 0 (fst <$> [(8, [1; 200]); (16, [1; 136]); (24, [1; 200])])) (λ '(h', root), ∃ ids,
    ids ⊆ [(8, [1; 200]); (16, [1; 136]); (24, [1; 200])] ∧ ascending memcmp (snd <$> ids) ∧
    (∀ key, key ∈ snd <$> ids ↔ key ∈ snd <$> [(8, [1; 200]); (16, [1; 136]); (24, [1; 200])]) ∧
    ∀ key klen, bytes_ok key → 0 <= klen <= zlen key → klen <= 2 →
      let found := filter (λ e : Z * list Z, ztake klen key `prefix_of` e.2) ids in
      returns (cb_lookup h' root key klen) (λ r, (r = 0 ∧ found = []) ∨ ∃ x, r ≠ 0 ∧ (r, x) ∈ found) ∧
      ∀ S (fn : Z → cb_node → S → S * Z) arg, answers fn →
        cb_each fn h' root key klen arg = Ret (visit fn h' (fst <$> found) arg).1).
Proof.
  apply (cbtree_ordered_set 2 example_heap [(8, [1; 200]); (16, [1; 136]); (24, [1; 200])]); [lia| |].
  - repeat (constructor; [split_and!; [reflexivity|done|reflexivity|apply bytes_ok_dec; reflexivity|eexists; split; reflexivity]|]).
    constructor.
  - apply (bool_decide_unpack (NoDup _)). vm_compute. reflexivity.
Defined.

End CbTree.
