(* ===== verification/OidTree.v ===== *)
(** * Sets of object ids searched by abbreviation (oidtree.c)

    A wrapper around the crit-bit tree that stores object ids and enumerates
    those that start with a given number of hexadecimal digits, of which an odd
    last one is checked by the callback.  The memory of an id as a key is its
    hash followed by the algorithm as a 4-byte little-endian integer. *)
From stdpp Require Import prelude gmap.
From S2P Require Import Prelude Order Endian CbTree OidArray.
Import Endian OidArray(object_id, Object_id, hash, algo).

Module OidTree.
#[local] Existing Instance OidArray.object_id_eq_dec.

Definition GIT_HASH_UNKNOWN : Z := 0.
Definition GIT_MAX_RAWSZ : Z := 32.
Definition GIT_MAX_HEXSZ : Z := 64.
Definition sizeof_oid : Z := 36.

(** The bytes of a [struct object_id], and [memcpy(&k, n->k, sizeof(k))]. *)
Definition oid_bytes (x : object_id) : list Z := hash x ++ reverse (be32 (algo x)).
Definition bytes_oid (l : list Z) : object_id :=
  Object_id (ztake GIT_MAX_RAWSZ l) (of_be (reverse (zdrop GIT_MAX_RAWSZ l))).

(** The pool is the heap of the cells allocated in it. *)
Record oidtree := Oidtree { pool : CbTree.heap; tree : Z }.

Definition oidtree_init : oidtree := Oidtree ∅ 0.
Definition oidtree_clear (ot : oidtree) : oidtree := oidtree_init.

(** [on] is the address [mem_pool_alloc] returns and [mem] what the memory there
    holds. *)
Definition oidtree_insert (ot : oidtree) (x : object_id) (on : Z) (mem : CbTree.cb_node) : outcome oidtree :=
  if algo x =? 0 then Die
  else
    let n := CbTree.Cb_node (CbTree.child0 mem) (CbTree.child1 mem) (CbTree.byte mem) (CbTree.otherbits mem) (oid_bytes x) in
    let! (h, root, _) := CbTree.cb_insert (<[on := n]> (pool ot)) (tree ot) on sizeof_oid in
    Ret (Oidtree h root).

Definition oidtree_contains (ot : oidtree) (x : object_id) : outcome Z :=
  let klen := if algo x =? GIT_HASH_UNKNOWN then sizeof_oid - 4 else sizeof_oid in
  let! p := CbTree.cb_lookup (pool ot) (tree ot) (oid_bytes x) klen in
  Ret (if p =? 0 then 0 else 1).

Section each.
Context {S : Type} (fn : object_id → S → S * Z).

(** [struct oidtree_iter_data]: the algorithm, and [last_byte] with the place
    [last_nibble_at] points to. *)
Definition iter (x_algo : Z) (x_last : option (Z * Z)) (p : Z) (n : CbTree.cb_node) (arg : S) : S * Z :=
  let k := bytes_oid (CbTree.k n) in
  if negb (x_algo =? GIT_HASH_UNKNOWN) && negb (x_algo =? algo k) then (arg, CbTree.CB_CONTINUE)
  else
    let skip := match x_last with
                | Some (at_, last_byte) => negb (Z.land (Z.lxor (default 0 (znth (hash k) at_)) last_byte) 0xf0 =? 0)
                | None => false
                end in
    if skip then (arg, CbTree.CB_CONTINUE) else fn k arg.

Definition oidtree_each (ot : oidtree) (x : object_id) (oidhexsz : Z) (arg : S) : outcome S :=
  let klen := oidhexsz / 2 in
  oassert (oidhexsz <=? GIT_MAX_HEXSZ)
    (let! x_last :=
       if negb (Z.land oidhexsz 1 =? 0) then let! last_byte := rd (hash x) klen in Ret (Some (klen, last_byte))
       else Ret None in
     CbTree.cb_each (iter (algo x) x_last) (pool ot) (tree ot) (oid_bytes x) klen arg).
End each.

(** ** Abbreviations *)

(** The hexadecimal digits of a hash. *)
Fixpoint nibbles (l : list Z) : list Z :=
  match l with [] => [] | b :: l => Z.shiftr b 4 :: Z.land b 15 :: nibbles l end.

(** [y] is of the wanted algorithm and its name starts with the first [n] digits
    of that of [x]. *)
Definition abbreviates (x : object_id) (n : Z) (y : object_id) : Prop :=
  (algo x = GIT_HASH_UNKNOWN ∨ algo x = algo y) ∧ ztake n (nibbles (hash x)) = ztake n (nibbles (hash y)).
#[global] Instance abbreviates_dec x n y : Decision (abbreviates x n y).
Proof. unfold abbreviates. apply _. Defined.

(** [x] is among [ys]; an unknown algorithm stands for any. *)
Definition present (x : object_id) (ys : list object_id) : Prop :=
  if decide (algo x = GIT_HASH_UNKNOWN) then hash x ∈ hash <$> ys else x ∈ ys.
#[global] Instance present_dec x ys : Decision (present x ys).
Proof. unfold present. destruct (decide _); apply _. Defined.

Definition oid_ok (x : object_id) : Prop := zlen (hash x) = GIT_MAX_RAWSZ ∧ bytes_ok (hash x) ∧ 0 <= algo x < 2 ^ 31.

Lemma oid_bytes_len x : oid_ok x → zlen (oid_bytes x) = sizeof_oid.
Proof. intros (Hl & _). unfold oid_bytes, sizeof_oid, GIT_MAX_RAWSZ in *. zlia. Qed.
Lemma oid_bytes_ok x : oid_ok x → bytes_ok (oid_bytes x).
Proof. intros (_ & Hb & _). apply Forall_app. split; [done|]. apply Forall_reverse, be_bytes_ok. Qed.
Lemma bytes_oid_inv x : oid_ok x → bytes_oid (oid_bytes x) = x.
Proof.
  intros (Hl & _ & Ha). unfold bytes_oid, oid_bytes. rewrite <- Hl, ztake_app_len, zdrop_app_len, reverse_involutive.
  rewrite of_be32 by lia. by destruct x.
Qed.
Lemma oid_bytes_inj x y : oid_ok x → oid_ok y → oid_bytes x = oid_bytes y → x = y.
Proof. intros Hx Hy E. by rewrite <- (bytes_oid_inv x Hx), E, bytes_oid_inv. Qed.

Lemma high_nibble a b : byte_ok a → byte_ok b → Z.land (Z.lxor a b) 0xf0 = 0 ↔ Z.shiftr a 4 = Z.shiftr b 4.
Proof.
  intros Ha Hb. assert (byte_ok (Z.lxor a b)) as Hx by (apply (lxor_lt_pow2 a b 8); done || lia).
  assert ((Z.land (Z.lxor a b) 0xf0 =? 0) = (Z.shiftr (Z.lxor a b) 4 =? 0)) as E.
  { revert Hx. generalize (Z.lxor a b). intros x Hx. apply eqb_prop. solve_byte x Hx. }
  rewrite <- Z.eqb_eq, E, Z.eqb_eq, Z.shiftr_lxor. split; [apply Z.lxor_eq|]. intros ->. apply Z.lxor_nilpotent.
Qed.
Lemma nibbles_byte a b : byte_ok a → byte_ok b → Z.shiftr a 4 = Z.shiftr b 4 → Z.land a 15 = Z.land b 15 → a = b.
Proof.
  intros Ha Hb E1 E2. rewrite !Z.shiftr_div_pow2 in E1 by lia. rewrite !(land_ones_mod _ 4) in E2 by (done || lia).
  rewrite (Z.div_mod a (2 ^ 4)), (Z.div_mod b (2 ^ 4)) by lia. by rewrite E1, E2.
Qed.

(** Sharing [n] digits is sharing [n / 2] bytes and, for odd [n], half of the next. *)
Lemma ztake_nibbles a : ∀ b n, zlen a = zlen b → bytes_ok a → bytes_ok b → 0 <= n <= 2 * zlen a →
  ztake n (nibbles a) = ztake n (nibbles b) ↔
  ztake (n / 2) a = ztake (n / 2) b ∧
  (n mod 2 = 1 → Z.shiftr (default 0 (znth a (n / 2))) 4 = Z.shiftr (default 0 (znth b (n / 2))) 4).
Proof.
  induction a as [|x a IH]; intros b n Hl Ha Hb Hn.
  { destruct b; [|zlia]. done. }
  destruct b as [|y b]; [zlia|]. apply Forall_cons in Ha as [Hx Ha]. apply Forall_cons in Hb as [Hy Hb].
  rewrite (zlen_cons x), (zlen_cons y) in Hl. rewrite zlen_cons in Hn. cbn [nibbles].
  assert (n = 0 ∨ n = 1 ∨ 2 <= n) as [->|[->|H2]] by lia.
  - done.
  - change (1 / 2) with 0. change (1 mod 2) with 1. rewrite !ztake_0. change (znth (x :: a) 0) with (Some x).
    change (znth (y :: b) 0) with (Some y). cbn [default from_option id].
    change (ztake 1 (Z.shiftr x 4 :: Z.land x 15 :: nibbles a)) with [Z.shiftr x 4].
    change (ztake 1 (Z.shiftr y 4 :: Z.land y 15 :: nibbles b)) with [Z.shiftr y 4].
    split; [intros E; injection E as E; done|]. intros [_ E]. f_equal. by apply E.
  - assert (n / 2 = 1 + (n - 2) / 2 ∧ n mod 2 = (n - 2) mod 2) as [-> ->].
    { replace n with (n - 2 + 1 * 2) at 1 3 by lia. rewrite Z.div_add, Z.mod_add by lia. lia. }
    assert (0 <= (n - 2) / 2) by (apply Z.div_pos; lia).
    assert (∀ u v : Z, ∀ l : list Z, ztake n (u :: v :: l) = u :: v :: ztake (n - 2) l) as T2.
    { intros u v l. unfold ztake. by replace (Z.to_nat n) with (S (S (Z.to_nat (n - 2)))) by lia. }
    assert (∀ u : Z, ∀ l : list Z, ztake (1 + (n - 2) / 2) (u :: l) = u :: ztake ((n - 2) / 2) l) as T1.
    { intros u l. unfold ztake. by replace (Z.to_nat (1 + (n - 2) / 2)) with (S (Z.to_nat ((n - 2) / 2))) by lia. }
    rewrite !T1, !T2, !znth_cons by lia. replace (1 + (n - 2) / 2 - 1) with ((n - 2) / 2) by lia.
    specialize (IH b (n - 2)). split.
    + intros [= E1 E2 E3]. apply IH in E3 as [E3 E4]; [|lia|done|done|lia]. split; [|done].
      by rewrite (nibbles_byte x y Hx Hy E1 E2), E3.
    + intros [[= -> E3] E4]. do 2 f_equal. apply IH; [lia|done..|lia|done].
Qed.

(** ** Filling a tree *)
Definition alloc : Type := Z * CbTree.cb_node * object_id.
Fixpoint insert_all (ot : oidtree) (l : list alloc) : outcome oidtree :=
  match l with
  | [] => Ret ot
  | (on, mem, x) :: l => let! ot := oidtree_insert ot x on mem in insert_all ot l
  end.

Definition address (a : alloc) : Z := a.1.1.
(** What the pool gives and what may be inserted. *)
Definition insertable (a : alloc) : Prop :=
  Z.even (address a) = true ∧ address a ≠ 0 ∧ oid_ok a.2 ∧ algo a.2 ≠ GIT_HASH_UNKNOWN.

Abbreviation represents := (CbTree.represents sizeof_oid).
Lemma sizeof_range : 0 < sizeof_oid < 2 ^ 32.
Proof. unfold sizeof_oid. lia. Qed.

Lemma oidtree_insert_all_ok l : Forall insertable l → ∀ ot ids, represents (pool ot) (tree ot) ids →
  NoDup ((fst <$> ids) ++ (address <$> l)) →
  returns (insert_all ot l) (λ ot', ∃ ids', represents (pool ot') (tree ot') ids' ∧
    ∀ key, key ∈ snd <$> ids' ↔ key ∈ snd <$> ids ∨ key ∈ (λ a, oid_bytes a.2) <$> l).
Proof.
  induction 1 as [|[[on mem] x] l (He & H0 & Hx & Halg) Hl IH]; intros ot ids Hr Hnd; cbn [insert_all].
  - exists ids. split; [done|]. intros key. set_solver.
  - cbn [address fst snd fmap list_fmap] in *. apply wp_bind. unfold oidtree_insert.
    rewrite (proj2 (Z.eqb_neq (algo x) 0)) by done.
    set (n := CbTree.Cb_node _ _ _ _ _). assert (on ∉ fst <$> ids) as Hon.
    { apply NoDup_app in Hnd as (_ & Hd & _). intros Hin. apply (Hd on Hin). by apply elem_of_cons; left. }
    apply wp_bind. eapply wp_mono; [|apply (CbTree.insert_represents sizeof_oid sizeof_range (<[on := n]> (pool ot)) (tree ot) ids on (oid_bytes x))].
    + intros [[h' root'] r] (_ & ids' & Hr' & Hcase). cbn [wp].
      assert (∀ key, key ∈ snd <$> ids' ↔ key ∈ snd <$> ids ∨ key = oid_bytes x) as Hk.
      { intros key. destruct Hcase as [E|[-> Hin]]; [rewrite E; set_solver|]. split; [auto|]. intros [?| ->]; [done|].
        by apply (list_elem_of_fmap_2 snd) in Hin. }
      eapply wp_mono; [|apply (IH (Oidtree h' root') ids' Hr')].
      * intros ot' (ids'' & Hr'' & E). exists ids''. split; [done|]. intros key. rewrite E, Hk, elem_of_cons. tauto.
      * rewrite <- Permutation_middle in Hnd. destruct Hcase as [E|[-> _]]; [by rewrite E|]. by apply NoDup_cons in Hnd as [_ ?].
    + by apply CbTree.represents_alloc.
    + split_and!; try done; [by apply oid_bytes_len|by apply oid_bytes_ok|]. exists n. split; [apply lookup_insert_eq|done].
    + done.
Qed.

(** The callback of the wrapper skips what is not abbreviated. *)
Fixpoint visit {S} (fn : object_id → S → S * Z) (xs : list object_id) (arg : S) : S * Z :=
  match xs with
  | [] => (arg, CbTree.CB_CONTINUE)
  | x :: xs => let '(arg, r) := fn x arg in if r =? CbTree.CB_BREAK then (arg, r) else visit fn xs arg
  end.

Definition answers {S} (fn : object_id → S → S * Z) : Prop :=
  ∀ x arg, (fn x arg).2 = CbTree.CB_CONTINUE ∨ (fn x arg).2 = CbTree.CB_BREAK.

Definition wanted (x_algo : Z) (x_last : option (Z * Z)) (y : object_id) : bool :=
  ((x_algo =? GIT_HASH_UNKNOWN) || (x_algo =? algo y)) &&
  match x_last with
  | Some (at_, b) => Z.land (Z.lxor (default 0 (znth (hash y) at_)) b) 0xf0 =? 0
  | None => true
  end.

Lemma iter_wanted {S} (fn : object_id → S → S * Z) x_algo x_last p n arg :
  iter fn x_algo x_last p n arg =
  if wanted x_algo x_last (bytes_oid (CbTree.k n)) then fn (bytes_oid (CbTree.k n)) arg else (arg, CbTree.CB_CONTINUE).
Proof.
  unfold iter, wanted. destruct (x_algo =? GIT_HASH_UNKNOWN), (x_algo =? algo _); cbn [negb andb orb]; try done;
    (destruct x_last as [[at_ b]|]; [|done]); by destruct (_ =? 0).
Qed.

Lemma visit_iter {S} (fn : object_id → S → S * Z) x_algo x_last h ids : answers fn →
  (∀ e, e ∈ ids → ∃ n, h !! e.1 = Some n ∧ CbTree.k n = e.2) → ∀ arg,
  CbTree.visit (iter fn x_algo x_last) h (fst <$> ids) arg =
  visit fn (filter (λ y, wanted x_algo x_last y = true) (bytes_oid ∘ snd <$> ids)) arg.
Proof.
  intros Hfn. induction ids as [|[p key] ids IH]; intros Hh arg; [done|]. cbn [fmap list_fmap CbTree.visit fst].
  destruct (Hh (p, key)) as (n & Hn & Hk); [by apply elem_of_cons; left|]. cbn [fst snd] in Hn, Hk. rewrite Hn, iter_wanted, Hk.
  rewrite filter_cons. cbn [compose snd]. assert (∀ e, e ∈ ids → ∃ n, h !! e.1 = Some n ∧ CbTree.k n = e.2) as Hh'.
  { intros e He. apply Hh. by apply elem_of_cons; right. }
  destruct (wanted x_algo x_last (bytes_oid key)) eqn:E.
  - rewrite decide_True by done. cbn [visit]. destruct (fn (bytes_oid key) arg) as [arg' r].
    destruct (r =? CbTree.CB_BREAK); [done|]. by apply IH.
  - rewrite decide_False by done. cbn. by apply IH.
Qed.

Lemma iter_answers {S} (fn : object_id → S → S * Z) x_algo x_last : answers fn → CbTree.answers (iter fn x_algo x_last).
Proof. intros Hfn p n arg. rewrite iter_wanted. destruct (wanted _ _ _); [apply Hfn|by left]. Qed.

(** ** Queries *)
Section query.
Context (ot : oidtree) (ids : list (Z * list Z)).
Hypothesis (Hr : represents (pool ot) (tree ot) ids) (Hids : ∀ e, e ∈ ids → ∃ y, oid_ok y ∧ e.2 = oid_bytes y).
Let xs : list object_id := bytes_oid ∘ snd <$> ids.

Lemma xs_keys : oid_bytes <$> xs = snd <$> ids.
Proof.
  unfold xs. rewrite <- list_fmap_compose. apply fmap_ext_in. intros e He. destruct (Hids e He) as (y & Hy & E).
  cbn [compose]. by rewrite E, bytes_oid_inv.
Qed.
Lemma xs_ok y : y ∈ xs → oid_ok y.
Proof.
  intros (e & -> & He)%list_elem_of_fmap. destruct (Hids e He) as (y & Hy & E). cbn [compose]. by rewrite E, bytes_oid_inv.
Qed.

Lemma prefix_hash x y n : oid_ok x → oid_ok y → 0 <= n <= GIT_MAX_RAWSZ →
  ztake n (oid_bytes x) `prefix_of` oid_bytes y ↔ ztake n (hash x) = ztake n (hash y).
Proof.
  intros Hx Hy Hn. pose proof Hx as (Lx & _). pose proof Hy as (Ly & _). unfold GIT_MAX_RAWSZ in *.
  assert (∀ z, oid_ok z → ztake n (oid_bytes z) = ztake n (hash z)) as T.
  { intros z (Lz & _). unfold oid_bytes, ztake. rewrite take_app_le; [done|]. unfold zlen, GIT_MAX_RAWSZ in *. lia. }
  rewrite CbTree.prefix_take_iff; rewrite zlen_ztake by (rewrite oid_bytes_len by done; unfold sizeof_oid; lia).
  - rewrite !T by done. split; by intros ->.
  - rewrite oid_bytes_len by done. unfold sizeof_oid. lia.
Qed.

Lemma oidtree_contains_ok x : oid_ok x → oidtree_contains ot x =
  Ret (if decide (present x xs) then 1 else 0).
Proof.
  intros Hx. unfold oidtree_contains. set (klen := if _ =? _ then _ else _).
  assert (klen = if decide (algo x = GIT_HASH_UNKNOWN) then 32 else 36) as Ek.
  { subst klen. destruct (decide (algo x = GIT_HASH_UNKNOWN)) as [->|]; [done|]. by rewrite (proj2 (Z.eqb_neq _ _)). }
  assert (0 <= klen <= 36) as Hk by (rewrite Ek; destruct (decide _); lia).
  pose proof (oid_bytes_len x Hx) as Lx.
  pose proof (CbTree.cb_lookup_ok sizeof_oid sizeof_range _ _ ids (oid_bytes x) klen Hr (oid_bytes_ok x Hx)) as Q.
  rewrite Lx in Q. unfold sizeof_oid in Q. specialize (Q Hk ltac:(lia)). apply returns_eq in Q as (p & -> & Q). cbn [obind]. f_equal.
  assert (∀ y, y ∈ xs → ztake klen (oid_bytes x) `prefix_of` oid_bytes y ↔
    if decide (algo x = GIT_HASH_UNKNOWN) then hash x = hash y else x = y) as Hpre.
  { intros y Hy. pose proof (xs_ok y Hy) as Oy. rewrite Ek. destruct (decide _).
    - rewrite prefix_hash by (done || unfold GIT_MAX_RAWSZ; lia). pose proof Hx as (? & _). pose proof Oy as (? & _).
      unfold GIT_MAX_RAWSZ in *. by rewrite !ztake_all by lia.
    - rewrite ztake_all by (rewrite Lx; done). split; [|by intros ->]. intros Hp. apply oid_bytes_inj; [done..|].
      apply prefix_length_eq; [done|]. pose proof (oid_bytes_len y Oy). unfold zlen in *. lia. }
  destruct Q as [[-> Hnone]|(key & Hp & [Hkey Hin]%list_elem_of_filter)].
  - rewrite decide_False; [done|]. intros Hc. unfold present in Hc.
    assert (∃ y, y ∈ xs ∧ if decide (algo x = GIT_HASH_UNKNOWN) then hash x = hash y else x = y) as (y & Hy & Hm).
    { destruct (decide _); [|by exists x]. apply list_elem_of_fmap in Hc as (y & E & Hy). by exists y. }
    apply Hpre in Hm; [|done]. pose proof (list_elem_of_fmap_2 oid_bytes xs y Hy) as Hk'. rewrite xs_keys in Hk'.
    apply list_elem_of_fmap in Hk' as (e & Ee & He). apply (not_elem_of_nil e). rewrite <- Hnone.
    apply list_elem_of_filter. split; [by rewrite <- Ee|done].
  - rewrite (proj2 (Z.eqb_neq p 0)) by done. rewrite decide_True; [done|]. cbn [snd] in Hkey. unfold present.
    destruct (Hids (p, key) Hin) as (y & Oy & Ey). cbn in Ey. subst key.
    assert (y ∈ xs) as Hy.
    { unfold xs. apply list_elem_of_fmap. exists (p, oid_bytes y). split; [|done]. cbn [compose snd]. by rewrite bytes_oid_inv. }
    apply Hpre in Hkey; [|done]. destruct (decide _); [|by subst]. rewrite Hkey. by apply list_elem_of_fmap_2.
Qed.

Lemma oidtree_each_ok {S} (fn : object_id → S → S * Z) x n arg : oid_ok x → 0 <= n <= GIT_MAX_HEXSZ → answers fn →
  oidtree_each fn ot x n arg = Ret (visit fn (filter (abbreviates x n) xs) arg).1.
Proof.
  intros Hx Hn Hfn. unfold oidtree_each, GIT_MAX_HEXSZ in *. rewrite (proj2 (Z.leb_le n 64)) by lia. cbn [oassert].
  pose proof Hx as (Lx & Bx & _). unfold GIT_MAX_RAWSZ in Lx. pose proof (Z.div_mod n 2). pose proof (Z.mod_pos_bound n 2).
  set (m := n / 2) in *. rewrite (land_ones_mod n 1) by (done || lia). change (2 ^ 1) with 2.
  set (x_last := if n mod 2 =? 0 then None else Some (m, default 0 (znth (hash x) m))).
  replace (if negb _ then _ else _) with (Ret x_last : outcome (option (Z * Z))).
  2: { subst x_last. destruct (Z.eqb_spec (n mod 2) 0); [done|]. cbn [negb]. destruct (znth_is_Some (hash x) m) as [b Hb]; [lia|].
       by rewrite (rd_znth _ _ _ Hb), Hb. }
  cbn [obind]. pose proof (oid_bytes_len x Hx) as Lb.
  rewrite (CbTree.cb_each_ok sizeof_oid sizeof_range _ _ ids (oid_bytes x) m Hr (oid_bytes_ok x Hx));
    [|rewrite Lb; unfold sizeof_oid; lia|unfold sizeof_oid; lia|by apply iter_answers].
  rewrite visit_iter; [|done|]. 2: { intros e [_ He]%list_elem_of_filter. by apply (CbTree.represents_keys sizeof_oid _ (tree ot) ids). }
  do 3 f_equal. unfold xs. rewrite !filter_map. f_equal. rewrite list_filter_filter. apply filter_ext_in.
  intros e He. unfold compose. destruct (Hids e He) as (y & Hy & ->). rewrite bytes_oid_inv by done.
  rewrite prefix_hash by (done || unfold GIT_MAX_RAWSZ; lia). pose proof Hy as (Ly & By & _). unfold GIT_MAX_RAWSZ in Ly.
  unfold abbreviates. rewrite ztake_nibbles by (done || lia). fold m.
  unfold wanted. rewrite andb_true_iff, orb_true_iff, !Z.eqb_eq.
  assert (match x_last with Some (at_, b) => Z.land (Z.lxor (default 0 (znth (hash y) at_)) b) 240 =? 0 | None => true end = true
    ↔ (n mod 2 = 1 → Z.shiftr (default 0 (znth (hash x) m)) 4 = Z.shiftr (default 0 (znth (hash y) m)) 4)) as ->; [|tauto].
  subst x_last. destruct (Z.eqb_spec (n mod 2) 0) as [->|]; [done|].
  destruct (znth_is_Some (hash x) m) as [b Hb]; [lia|]. destruct (znth_is_Some (hash y) m) as [c Hc]; [lia|].
  rewrite Hb, Hc. cbn [default from_option id]. rewrite Z.eqb_eq, high_nibble.
  - split; [by intros -> _|]. intros E. symmetry. apply E. lia.
  - by apply (bytes_ok_znth (hash y) m).
  - by apply (bytes_ok_znth (hash x) m).
Qed.
End query.

(** ** Property *)

(** C37. A tree of object ids holds exactly the ids inserted, in order; an id is
    found exactly when it was inserted, or, with an unknown algorithm, when its
    hash was; and the enumeration for an abbreviation of any number of digits,
    odd ones included, calls back for exactly the ids whose hexadecimal name
    starts with it, in order. *)
Theorem oidtree_abbreviations l :
  Forall insertable l → NoDup (address <$> l) →
  returns (insert_all oidtree_init l) (λ ot, ∃ xs,
    ascending memcmp (oid_bytes <$> xs) ∧ (∀ y, y ∈ xs ↔ y ∈ snd <$> l) ∧
    (∀ x, oid_ok x → oidtree_contains ot x =
       Ret (if decide (present x xs) then 1 else 0)) ∧
    ∀ S (fn : object_id → S → S * Z) x n arg, oid_ok x → 0 <= n <= GIT_MAX_HEXSZ → answers fn →
      oidtree_each fn ot x n arg = Ret (visit fn (filter (abbreviates x n) xs) arg).1).
Proof.
  intros Hl Hnd. eapply wp_mono; [|apply (oidtree_insert_all_ok l Hl oidtree_init []); [by left|done]].
  intros ot (ids & Hr & Hkeys). exists (bytes_oid ∘ snd <$> ids).
  assert (∀ e, e ∈ ids → ∃ y, oid_ok y ∧ e.2 = oid_bytes y ∧ y ∈ snd <$> l) as Hids'.
  { intros e He. pose proof (proj1 (Hkeys e.2) (list_elem_of_fmap_2 snd ids e He)) as [?%not_elem_of_nil|Hin]; [done|].
    apply list_elem_of_fmap in Hin as (a & -> & Ha). exists a.2. split_and!; [|done|by apply list_elem_of_fmap_2].
    apply (proj1 (Forall_forall _ _) Hl) in Ha. apply Ha. }
  assert (∀ e, e ∈ ids → ∃ y, oid_ok y ∧ e.2 = oid_bytes y) as Hids by naive_solver.
  split_and!.
  - rewrite (xs_keys ids Hids). by apply (CbTree.represents_ascending sizeof_oid sizeof_range (pool ot) (tree ot)).
  - intros y. split.
    + intros (e & -> & He)%list_elem_of_fmap. destruct (Hids' e He) as (z & Hz & E & Hin). cbn [compose]. by rewrite E, bytes_oid_inv.
    + intros (a & -> & Ha)%list_elem_of_fmap. assert (oid_bytes a.2 ∈ snd <$> ids) as Hk.
      { apply Hkeys. right. by apply (list_elem_of_fmap_2 (λ a, oid_bytes a.2)). }
      apply list_elem_of_fmap in Hk as (e & E & He). apply list_elem_of_fmap. exists e. split; [|done]. cbn [compose]. rewrite <- E.
      apply (proj1 (Forall_forall _ _) Hl) in Ha as (_ & _ & Hok & _). by rewrite bytes_oid_inv.
  - intros x Hx. by apply oidtree_contains_ok.
  - intros S fn x n arg Hx Hn Hfn. by apply oidtree_each_ok.
Qed.

(** Two ids that share three digits. *)
Definition example_ids : list alloc :=
  [(16, CbTree.Cb_node 1 2 3 4 [], Object_id (0xab :: 0xc1 :: zrep 30 0) 1);
   (64, CbTree.Cb_node 0 0 0 0 [], Object_id (0xab :: 0xc2 :: zrep 30 7) 1)].
Lemma oidtree_abbreviations_witness :
  returns (insert_all oidtree_init example_ids) (λ ot, ∃ xs,
    ascending memcmp (oid_bytes <$> xs) ∧ (∀ y, y ∈ xs ↔ y ∈ snd <$> example_ids) ∧
    (∀ x, oid_ok x → oidtree_contains ot x =
       Ret (if decide (present x xs) then 1 else 0)) ∧
    ∀ S (fn : object_id → S → S * Z) x n arg, oid_ok x → 0 <= n <= GIT_MAX_HEXSZ → answers fn →
      oidtree_each fn ot x n arg = Ret (visit fn (filter (abbreviates x n) xs) arg).1).
Proof.
  apply oidtree_abbreviations.
  - repeat (constructor; [split_and!; [reflexivity|done|split_and!; [reflexivity|apply bytes_ok_dec; reflexivity|cbn; lia..]|done]|]).
    constructor.
  - apply (bool_decide_unpack (NoDup _)). vm_compute. reflexivity.
Defined.

End OidTree.
