(* ===== verification/ContainerTheorems.v ===== *)
(** * What the search routines and containers promise their callers

    Binary searches, the priority queue, the sorts, string lists and the hash
    table, with concrete instances. *)
From stdpp Require Import prelude gmap.
From S2P Require Import OidArray Prelude Order HashLookup PrioQueue Sort Hashmap HashmapOps StringList.
Import Hashmap HashmapOps.

Module ContainerTheorems.

(** ** Binary search *)
Section oid_pos.
Import HashLookup.

(** C22. [oid_pos], which starts from an interpolated position, finds an object id
    in a sorted table (with or without duplicates) exactly when it is there, and otherwise
    returns minus one minus the place where it belongs: the entries before that
    place are smaller and the others larger.  Every access is inside the table. *)
Theorem oid_pos_correct fn rawsz table oid :
  (∀ i, 0 <= i < zlen table → fn i = rd table i) → 2 <= rawsz <= GIT_MAX_RAWSZ →
  Forall oid_ok table → nondec memcmp table → oid_ok oid → zlen table < 2 ^ 31 →
  returns (oid_pos fn rawsz oid (zlen table)) (λ r,
    0 <= r ∧ znth table r = Some oid ∨
    ∃ p, 0 <= p <= zlen table ∧ r = -1 - p ∧ split_at memcmp table oid p p).
Proof. apply oid_pos_wp. Qed.

Definition sample_oid (b : Z) : list Z := zrep 32 b.
Definition sample_table : list (list Z) := sample_oid <$> [3; 9; 20; 77; 200].

Lemma oid_pos_correct_witness :
  returns (oid_pos (rd sample_table) 20 (sample_oid 20) (zlen sample_table)) (λ r,
    0 <= r ∧ znth sample_table r = Some (sample_oid 20) ∨
    ∃ p, 0 <= p <= zlen sample_table ∧ r = -1 - p ∧ split_at memcmp sample_table (sample_oid 20) p p).
Proof.
  apply oid_pos_correct.
  - done.
  - unfold GIT_MAX_RAWSZ. lia.
  - repeat (constructor; [split; [reflexivity|apply bytes_ok_dec; reflexivity]|]). constructor.
  - apply ascending_nondec. repeat constructor.
  - split; [reflexivity|apply bytes_ok_dec; reflexivity].
  - vm_compute. reflexivity.
Defined.

(** [bsearch_hash] over a table with a fan-out index answers 1 and a position
    holding the hash exactly when the table contains it, and otherwise the place
    where it belongs; it reads only inside the table. *)
Theorem bsearch_hash_correct hash fanout table :
  fanout_ok fanout table → Forall (λ e, bytes_ok e ∧ e ≠ []) table → nondec memcmp table →
  zlen table < 2 ^ 32 → bytes_ok hash → hash ≠ [] →
  returns (bsearch_hash hash (rd fanout) (rd table)) (λ '(found, p),
    found = 1 ∧ znth table p = Some hash ∨
    found = 0 ∧ 0 <= p <= zlen table ∧ split_at memcmp table hash p p).
Proof. apply bsearch_hash_wp; apply reads_rd. Qed.

Definition small_fanout : list Z := zrep 5 0 ++ zrep 3 1 ++ zrep 248 2.
Lemma small_fanout_ok : fanout_ok small_fanout [[5; 1]; [8; 2]].
Proof.
  intros c Hc. unfold byte_ok in Hc.
  exists (if c <? 5 then 0 else if c <? 8 then 1 else 2). split.
  - unfold small_fanout.
    destruct (Z.ltb_spec c 5); [|destruct (Z.ltb_spec c 8)].
    + rewrite znth_app_l by (rewrite zlen_zrep; lia). unfold znth, zrep. rewrite (proj2 (Z.leb_le 0 c)) by lia.
      apply lookup_replicate. lia.
    + rewrite znth_app_r by (rewrite zlen_zrep; lia). rewrite zlen_zrep by lia.
      rewrite znth_app_l by (rewrite zlen_zrep; lia). unfold znth, zrep. rewrite (proj2 (Z.leb_le 0 (c - 5))) by lia.
      apply lookup_replicate. lia.
    + rewrite znth_app_r by (rewrite zlen_zrep; lia). rewrite zlen_zrep by lia.
      rewrite znth_app_r by (rewrite zlen_zrep; lia). rewrite zlen_zrep by lia.
      unfold znth, zrep. rewrite (proj2 (Z.leb_le 0 (c - 5 - 3))) by lia. apply lookup_replicate. lia.
  - split; [change (zlen [[5; 1]; [8; 2]]) with 2; destruct (c <? 5), (c <? 8); lia|].
    intros k e Hk. pose proof (znth_Some_lt _ _ _ Hk) as Hlt. change (zlen [[5; 1]; [8; 2]]) with 2 in Hlt.
    assert (k = 0 ∨ k = 1) as [-> | ->] by lia; injection Hk as <-.
    + destruct (Z.ltb_spec c 5); [|destruct (Z.ltb_spec c 8)]; split; intros Hx; try lia;
        try (exists 5, [1]; split; [done|lia]); destruct Hx as (? & ? & [= <- <-] & ?); lia.
    + destruct (Z.ltb_spec c 5); [|destruct (Z.ltb_spec c 8)]; split; intros Hx; try lia;
        try (exists 8, [2]; split; [done|lia]); destruct Hx as (? & ? & [= <- <-] & ?); lia.
Qed.

Lemma bsearch_hash_correct_witness :
  returns (bsearch_hash [8; 2] (rd small_fanout) (rd [[5; 1]; [8; 2]])) (λ '(found, p),
    found = 1 ∧ znth [[5; 1]; [8; 2]] p = Some [8; 2] ∨
    found = 0 ∧ 0 <= p <= zlen [[5; 1]; [8; 2]] ∧ split_at memcmp [[5; 1]; [8; 2]] [8; 2] p p).
Proof.
  apply bsearch_hash_correct.
  - apply small_fanout_ok.
  - repeat (constructor; [split; [apply bytes_ok_dec; reflexivity|discriminate]|]). constructor.
  - apply ascending_nondec. repeat constructor.
  - vm_compute. reflexivity.
  - apply bytes_ok_dec. reflexivity.
  - discriminate.
Defined.
End oid_pos.

(** ** Object id arrays *)
Section oid_array.
Import HashLookup OidArray.

(** C26. An [oid_array] filled in any order behaves as a multiset of ids: the plain
    iteration sees the ids in the order they were appended; a lookup finds an id
    exactly when it was appended, at a position that holds it; the unique
    iteration visits every distinct id once, in ascending order, whatever the
    callback does with its state; and filtering keeps exactly the ids the
    callback wants, in order. *)
Theorem oid_array_is_set (the_hash_algo rawsz : Z) (Q : Qsort) (HQ : QsortLaws Q) {S}
    (fn : object_id → S → S * Z) (data : S) xs x :
  one_algorithm the_hash_algo xs → oid_ok (hash x) → 2 <= rawsz <= GIT_MAX_RAWSZ → zlen xs < 2 ^ 31 →
  let array := append_all the_hash_algo xs in
  oid_array_for_each fn array data = Ret (visit fn (stored the_hash_algo <$> xs) data) ∧
  returns (oid_array_lookup rawsz array x) (λ '(array', r),
    if 0 <=? r then (∃ y, znth (oid array') r = Some y ∧ hash y = hash x) ∧ hash x ∈ hash <$> xs
    else hash x ∉ hash <$> xs) ∧
  (∃ ids, ascending memcmp (hash <$> ids) ∧ (∀ y, y ∈ ids ↔ y ∈ stored the_hash_algo <$> xs) ∧
    returns (oid_array_for_each_unique fn array data) (λ '(_, r), r = visit fn ids data)) ∧
  oid_array_filter fn array data =
    Ret (Oid_array (wanted fn (stored the_hash_algo <$> xs) data).1 (alloc array) false,
         (wanted fn (stored the_hash_algo <$> xs) data).2).
Proof.
  intros Hxs Hx Hr Hn array. destruct (append_all_oids the_hash_algo xs) as [E1 E2]. split_and!.
  - unfold oid_array_for_each, array. rewrite E1. apply (for_each_loop_ok fn []).
  - by apply oid_array_lookup_wp.
  - destruct (sort_append_all the_hash_algo xs) as [HP Hs]. fold array in HP, Hs.
    exists (uniq (oid (oid_array_sort array))).
    destruct (uniq_sorted the_hash_algo (oid (oid_array_sort array))) as [H1 H2]; [by apply stored_all|exact Hs|].
    split_and!; [done|intros y; by rewrite H2, HP|]. unfold oid_array_for_each_unique.
    rewrite (for_each_unique_loop_ok fn _ _ [] (oid (oid_array_sort array))) by (done || lia). done.
  - rewrite oid_array_filter_ok. unfold array. by rewrite E1, E2.
Qed.

Definition sample_ids : list object_id := (λ b, Object_id (sample_oid b) 1) <$> [9; 3; 9; 200].
Lemma oid_array_is_set_witness :
  let array := append_all 1 sample_ids in
  let fn := λ (y : object_id) (n : Z), (n + 1, 0) in
  oid_array_for_each fn array 0 = Ret (visit fn (stored 1 <$> sample_ids) 0) ∧
  returns (@oid_array_lookup 20 insertion_qsort array (Object_id (sample_oid 9) 1)) (λ '(array', r),
    if 0 <=? r then (∃ y, znth (oid array') r = Some y ∧ hash y = sample_oid 9) ∧ sample_oid 9 ∈ hash <$> sample_ids
    else sample_oid 9 ∉ hash <$> sample_ids) ∧
  (∃ ids, ascending memcmp (hash <$> ids) ∧ (∀ y, y ∈ ids ↔ y ∈ stored 1 <$> sample_ids) ∧
    returns (@oid_array_for_each_unique insertion_qsort Z fn array 0) (λ '(_, r), r = visit fn ids 0)) ∧
  oid_array_filter fn array 0 =
    Ret (Oid_array (wanted fn (stored 1 <$> sample_ids) 0).1 (alloc array) false, (wanted fn (stored 1 <$> sample_ids) 0).2).
Proof.
  apply (oid_array_is_set 1 20 insertion_qsort insertion_qsort_laws (λ (y : object_id) (n : Z), (n + 1, 0)) 0
    sample_ids (Object_id (sample_oid 9) 1)).
  - repeat (constructor; [split; [split; [reflexivity|apply bytes_ok_dec; reflexivity]|by right]|]). constructor.
  - split; [reflexivity|apply bytes_ok_dec; reflexivity].
  - unfold GIT_MAX_RAWSZ. lia.
  - reflexivity.
Defined.
End oid_array.

(** ** Priority queue and sorting *)

(** The order of the integers, to instantiate the comparison functions with. *)
#[local] Instance sub_order : CmpOrder Z.sub.
Proof. split; intros; lia. Qed.

(** C27. The priority queue is a stable priority queue: putting elements into an
    empty queue and getting them until it is empty returns all of them (the
    [numbered] ones carry their insertion number), smaller ones first, and those
    that compare equal in the order of insertion. *)
Theorem prio_queue_stable {A} (cmp : A → A → Z) `{!CmpOrder cmp} xs fuel :
  zlen xs < 2 ^ 64 → (length xs < fuel)%nat →
  returns (let! q := PrioQueue.put_all (PrioQueue.Prio_queue (Some cmp) 0 0 []) xs in
           PrioQueue.get_all fuel q) (λ ys,
    ∃ es, ys = PrioQueue.data <$> es ∧ es ≡ₚ PrioQueue.numbered 0 xs ∧
      StronglySorted (PrioQueue.precedes cmp) es).
Proof. apply (PrioQueue.put_all_get_all cmp). Qed.

Lemma prio_queue_stable_witness :
  returns (let! q := PrioQueue.put_all (PrioQueue.Prio_queue (Some Z.sub) 0 0 []) [5; 1; 4; 1] in
           PrioQueue.get_all 9 q) (λ ys,
    ∃ es, ys = PrioQueue.data <$> es ∧ es ≡ₚ PrioQueue.numbered 0 [5; 1; 4; 1] ∧
      StronglySorted (PrioQueue.precedes Z.sub) es).
Proof. apply (prio_queue_stable Z.sub [5; 1; 4; 1] 9); vm_compute; [reflexivity|lia]. Defined.

(** [git_qsort_s] (a merge sort) returns a stably sorted permutation of the
    array, for any comparison function that is a total preorder, as long as the
    size of the array in bytes does not overflow. *)
Theorem git_qsort_s_stable {A} (cmp : A → A → Z) `{!CmpOrder cmp} s b :
  zlen b * s < 2 ^ 64 → returns (Sort.git_qsort_s cmp s b) (Sort.stable_sort_of cmp b).
Proof. apply (Sort.git_qsort_s_wp cmp). Qed.

Lemma git_qsort_s_stable_witness :
  returns (Sort.git_qsort_s Z.sub 8 [5; 1; 4; 1; 3]) (Sort.stable_sort_of Z.sub [5; 1; 4; 1; 3]).
Proof. apply (git_qsort_s_stable Z.sub 8). vm_compute. reflexivity. Defined.

(** The linked-list sort of mergesort.h (bottom-up, with a rank per power of
    two) also returns a stably sorted permutation. *)
Theorem list_sort_stable {A} (cmp : A → A → Z) `{!CmpOrder cmp} l :
  zlen l < 2 ^ 64 → returns (Sort.list_sort cmp l) (Sort.stable_sort_of cmp l).
Proof. apply (Sort.list_sort_wp cmp). Qed.

Lemma list_sort_stable_witness :
  returns (Sort.list_sort Z.sub [5; 1; 4; 1; 3]) (Sort.stable_sort_of Z.sub [5; 1; 4; 1; 3]).
Proof. apply (list_sort_stable Z.sub). vm_compute. reflexivity. Defined.

(** ** String lists *)
Section string_list.
Import StringList.

(** C30. The sorted string list is a set of strings up to its comparison function:
    on a well-formed list [string_list_has_string] decides membership,
    [string_list_insert] adds an absent string (and only that) and returns its
    place, [string_list_remove] removes it, and both keep the list well formed. *)
Theorem string_list_is_set {U} (f : list Z → list Z → Z) `{!CmpOrder f} (l : @string_list U) s :
  wf f l →
  returns (string_list_has_string l s) (λ r, r = true ↔ has f l s) ∧
  returns (string_list_insert l s) (λ '(i, l'), wf f l' ∧
    (∃ e, znth (items l') i = Some e ∧ f (string e) s = 0) ∧
    (has f l s ∧ l' = l ∨ ¬ has f l s ∧ items l' ≡ₚ Item s None :: items l)) ∧
  returns (string_list_remove l s) (λ l', wf f l' ∧ ¬ has f l' s ∧
    (¬ has f l s ∧ l' = l ∨ ∃ e, f (string e) s = 0 ∧ items l ≡ₚ e :: items l')).
Proof.
  intros Hwf. split_and!; [by apply (has_string_wp f)|by apply (insert_wp f)|by apply (remove_wp f)].
Qed.

Definition sample_list : @string_list Z := String_list [Item [97] None; Item [99; 1] (Some 4)] 24 true None.

Lemma string_list_is_set_witness :
  returns (string_list_has_string sample_list [98]) (λ r, r = true ↔ has memcmp sample_list [98]) ∧
  returns (string_list_insert sample_list [98]) (λ '(i, l'), wf memcmp l' ∧
    (∃ e, znth (items l') i = Some e ∧ memcmp (string e) [98] = 0) ∧
    (has memcmp sample_list [98] ∧ l' = sample_list ∨
     ¬ has memcmp sample_list [98] ∧ items l' ≡ₚ Item [98] None :: items sample_list)) ∧
  returns (string_list_remove sample_list [98]) (λ l', wf memcmp l' ∧ ¬ has memcmp l' [98] ∧
    (¬ has memcmp sample_list [98] ∧ l' = sample_list ∨
     ∃ e, memcmp (string e) [98] = 0 ∧ items sample_list ≡ₚ e :: items l')).
Proof.
  apply (string_list_is_set memcmp sample_list [98]). split; [reflexivity|]. repeat constructor.
Defined.

(** [string_list_split] is inverse to joining: the pieces it appends, joined
    with the delimiter, are the input; it returns their number, respects
    [maxsplit], and without a limit no piece contains the delimiter. *)
Theorem string_list_split_join {U} (l : @string_list U) s delim maxsplit :
  strdup_strings l = true →
  returns (string_list_split l s delim maxsplit) (λ '(count, l'), ∃ pieces,
    items l' = items l ++ ((λ s, Item s None) <$> pieces) ∧ join delim pieces = s ∧
    count = zlen pieces ∧ (0 <= maxsplit → count <= maxsplit + 1) ∧
    (maxsplit < 0 → Forall (λ s, delim ∉ s) pieces)).
Proof.
  intros Hd. unfold string_list_split. rewrite Hd.
  eapply wp_mono; [|apply (split_loop_wp (S (length s)) l s delim maxsplit 0); lia].
  intros [count l'] (pieces & Hi & Hj & _ & Hc & Hm & Hn). exists pieces. split_and!; [done|done|lia|lia|done].
Qed.

Lemma string_list_split_join_witness :
  returns (string_list_split sample_list [97; 58; 58; 98] 58 (-1)) (λ '(count, l'), ∃ pieces,
    items l' = items sample_list ++ ((λ s, Item s None) <$> pieces) ∧
    join 58 pieces = [97; 58; 58; 98] ∧ count = zlen pieces ∧ (0 <= -1 → count <= -1 + 1) ∧
    (-1 < 0 → Forall (λ s, 58 ∉ s) pieces)).
Proof. apply string_list_split_join. reflexivity. Defined.
End string_list.

(** ** The hash table *)

(** C17. The hash table refines its specification: every sequence of
    [hashmap_add], [hashmap_get], [hashmap_remove] and [hashmap_put] calls that
    respects the callers' obligations returns, with results the specification
    allows (an entry equal to the key exactly when one is in the collection), and
    leaves a well-formed table holding the specified entries; growing and
    shrinking the table, done by relinking cells in the heap, loses none and
    changes no entry's hash code or data. *)
Theorem hashmap_refines {A K} (f : A → A → option K → Z) h map es os :
  wf h map f es → all_legal f h es os →
  returns (calls h map os) (λ '(rs, h', map'), ∃ es', asteps f h es os rs es' ∧ wf h' map' f es' ∧
    same_info h h').
Proof. apply calls_wp. Qed.

(** Four cells: entries 1 and 2 and a key 3 equal to entry 2. *)
Definition sample_heap : gmap Z (@hashmap_entry Z) :=
  <[1 := Hashmap_entry 0 5 10]> (<[2 := Hashmap_entry 0 69 20]> {[3 := Hashmap_entry 0 69 20]}).
Definition sample_cmp (a b : Z) (kd : option unit) : Z := a - b.
Definition sample_ops : list (@op unit) := [Add 1; Add 2; Get 3 None; Remove 3 None; Get 3 None].

Lemma sample_legal : all_legal sample_cmp sample_heap [] sample_ops.
Proof.
  split; [split_and!; [by eexists|done|set_solver|reflexivity]|]. intros r es Hs. inversion Hs; subst.
  split; [split_and!; [by eexists|done|set_solver|reflexivity]|]. intros r es Hs1. inversion Hs1; subst.
  split; [by eexists|]. intros r es Hs2.
  split; [by eexists|]. intros r' es' Hs3.
  split; [by eexists|]. done.
Qed.
Lemma sample_wf : wf sample_heap (HASHMAP_INIT sample_cmp) sample_cmp [].
Proof. by split. Qed.

Lemma hashmap_refines_witness :
  calls sample_heap (HASHMAP_INIT sample_cmp) sample_ops ≠ UB ∧
  returns (calls sample_heap (HASHMAP_INIT sample_cmp) sample_ops) (λ '(rs, h', map'), ∃ es',
    asteps sample_cmp sample_heap [] sample_ops rs es' ∧ wf h' map' sample_cmp es' ∧
    same_info sample_heap h').
Proof.
  split; [vm_compute; discriminate|].
  apply (hashmap_refines sample_cmp sample_heap (HASHMAP_INIT sample_cmp) [] sample_ops).
  - apply sample_wf.
  - apply sample_legal.
Defined.

(** Iterating over a well-formed table with [hashmap_iter_next] until it
    answers NULL visits every entry exactly once. *)
Theorem hashmap_iteration_complete {A K} (f : A → A → option K → Z) h map es :
  wf h map f es →
  ∃ visited, drain_iter (S (length es)) h (hashmap_iter_init map) = Ret visited ∧
    visited ≡ₚ es ∧ NoDup visited.
Proof.
  intros Hwf. destruct (iter_init_yields _ _ _ _ Hwf) as (es' & Hes & Hnd & Hy). exists es'.
  split_and!; [|done|done]. apply drain_iter_eq; [done|]. rewrite (Permutation_length Hes). lia.
Qed.

Lemma hashmap_iteration_complete_witness :
  ∃ h map visited, hashmap_add sample_heap (HASHMAP_INIT sample_cmp) 1 = Ret (h, map) ∧
    drain_iter 2 h (hashmap_iter_init map) = Ret visited ∧ visited ≡ₚ [1] ∧ NoDup visited.
Proof.
  destruct (proj1 (returns_eq _ _) (hashmap_add_wp sample_heap (HASHMAP_INIT sample_cmp) sample_cmp [] 1
    (Hashmap_entry 0 5 10) sample_wf eq_refl ltac:(lia) ltac:(set_solver) ltac:(reflexivity)))
    as (r & Hr & h & map & -> & Hwf & _ & _).
  exists h, map. destruct (hashmap_iteration_complete sample_cmp h map [1] Hwf) as (visited & Hv).
  exists visited. split; [exact Hr|exact Hv].
Defined.

(** [memintern] is canonical: interning two byte strings returns the same
    pointer exactly when they have the same bytes.  The first argument of each
    call is memory of the caller, not a string of the pool. *)
Theorem memintern_canonical h map pc key fresh fresh' p d n p' d' n' :
  pool h map pc → zlen pc + 1 < 858993459 →
  key ∉ pc.*1 → fresh ∉ pc.*1 → fresh' ∉ pc.*1 → p ∉ pc.*1 → p' ∉ pc.*1 →
  key ≠ 0 → fresh ≠ 0 → fresh' ≠ 0 → key ≠ fresh → key ≠ fresh' → fresh ≠ fresh' → p' ≠ fresh →
  0 <= n <= zlen d → 0 <= n' <= zlen d' →
  returns (let! (r, h, map) := memintern h map key fresh (p, d) n in
           let! (r', h, map) := memintern h map key fresh' (p', d') n' in
           Ret (r, r')) (λ '(r, r'), r = r' ↔ ztake n d = ztake n' d').
Proof.
  intros Hpool Hsmall Hk Hf Hf' Hp Hp' Hk0 Hf0 Hf0' Hkf Hkf' Hff Hpf Hn Hn'. apply wp_bind.
  eapply wp_mono; [|apply (memintern_wp h map pc); done || lia].
  intros [[r h1] map1] (pc1 & Hpool1 & Hin1 & Hpc1).
  assert (Hsub : ∀ x, x ∉ pc.*1 → x ≠ fresh → x ∉ pc1.*1) by (destruct Hpc1 as [-> | ->]; set_solver).
  assert (zlen pc1 <= zlen pc + 1) by (destruct Hpc1 as [-> | ->]; rewrite ?zlen_cons; lia).
  apply wp_bind. eapply wp_mono; [|apply (memintern_wp h1 map1 pc1); try done; try lia; by apply Hsub].
  intros [[r' h2] map2] (pc2 & Hpool2 & Hin2 & Hpc2). cbn [wp].
  assert (Hin1' : (r, ztake n d) ∈ pc2) by (destruct Hpc2 as [-> | ->]; set_solver).
  split; [intros <-|intros Heq].
  - pose proof (pool_entries _ _ _ Hpool2 _ _ Hin1') as H1.
    pose proof (pool_entries _ _ _ Hpool2 _ _ Hin2) as H2. rewrite H1 in H2. by injection H2.
  - rewrite <- Heq in Hin2. pose proof (pool_once _ _ _ Hpool2) as Hnd.
    apply list_elem_of_lookup in Hin1' as [i Hi], Hin2 as [j Hj].
    assert (i = j) as ->; [|congruence].
    eapply NoDup_lookup; [done|..]; by rewrite list_lookup_fmap, ?Hi, ?Hj.
Qed.

Lemma memintern_canonical_witness :
  returns (let! (r, h, map) := memintern ∅ (Hashmap None None 0 0 0 0 false) 1 2 (50, [97; 98; 99]) 2 in
           let! (r', h, map) := memintern h map 1 3 (60, [97; 98]) 2 in
           Ret (r, r')) (λ '(r, r'), r = r' ↔ ztake 2 [97; 98; 99] = ztake 2 [97; 98]).
Proof.
  apply (memintern_canonical ∅ (Hashmap None None 0 0 0 0 false) [] 1 2 3).
  { split; [by left|by intros ? ? ?%not_elem_of_nil|constructor]. }
  all: try apply not_elem_of_nil; try lia; try reflexivity.
  all: split; vm_compute; congruence.
Defined.

(** C32. A requested initial size from 858993460 to 3435973836, whose table would
    need more than [2^30] buckets and fewer than [2^32], makes [hashmap_init] loop
    forever: the table size wraps to 0 and stays there.  (From 3435973837 on the
    number of buckets wanted is itself cut to 32 bits.) *)
Theorem hashmap_init_diverges {A K} fuel (eqf : option (A → A → option K → Z)) initial_size :
  858993460 <= initial_size <= 3435973836 → hashmap_init fuel eqf initial_size = NoFuel.
Proof.
  intros Hn. unfold hashmap_init.
  assert (u32 (u64 (initial_size * 100) / HASHMAP_LOAD_FACTOR) = initial_size * 100 / 80) as ->.
  { unfold u32, u64, HASHMAP_LOAD_FACTOR. rewrite (Z.mod_small (initial_size * 100)) by lia.
    apply Z.mod_small. Z.div_mod_to_equations. lia. }
  change HASHMAP_INITIAL_SIZE with (64 * 4 ^ 0).
  rewrite init_size_diverges; [done|lia|Z.div_mod_to_equations; lia].
Qed.

Lemma hashmap_init_diverges_witness :
  hashmap_init 100 (None : option (Z → Z → option Z → Z)) 1000000000 = NoFuel.
Proof. apply hashmap_init_diverges. lia. Defined.

End ContainerTheorems.
