(* ===== verification/Hex.v ===== *)
(** * Hexadecimal object names (hex-ll.c, hex-ll.h, hex.c) *)
From stdpp Require Import prelude.
From S2P Require Import Prelude.

Module Hex.

Definition GIT_HASH_UNKNOWN : Z := 0.
Definition GIT_HASH_NALGOS : Z := 3.
Definition GIT_MAX_RAWSZ : Z := 32.

(** The sizes in [hash_algos]: none, SHA-1, SHA-256. *)
Definition rawsz (algo : Z) : Z := if algo =? 1 then 20 else if algo =? 2 then 32 else 0.
Definition hexsz (algo : Z) : Z := 2 * rawsz algo.

Record object_id := Object_id { hash : list Z; algo : Z }.

(** Rows of eight entries; all but the ones for ['0'..'9'], ['A'..'F'] and
    ['a'..'f'] are -1. *)
Definition hexval_table : list Z :=
  replicate 48 (-1) ++ [0; 1; 2; 3; 4; 5; 6; 7; 8; 9] ++ replicate 7 (-1) ++ [10; 11; 12; 13; 14; 15] ++
  replicate 26 (-1) ++ [10; 11; 12; 13; 14; 15] ++ replicate 153 (-1).

(** The [unsigned int] of a [signed char]. *)
Definition hexval (c : Z) : outcome Z := let! v := rd hexval_table c in Ret (u32 v).

(** [~0xff] and [~0xf] of an [int] as [unsigned int]. *)
Definition hex_to_bytes_mask : Z := 2 ^ 32 - 1 - 255.
Definition hex2chr_mask : Z := 2 ^ 32 - 1 - 15.

(** [hex] is the bytes in memory from the pointer on, the NUL included. *)
Fixpoint hex_to_bytes (len : nat) (hex : list Z) : outcome (option (list Z)) :=
  match len with
  | O => Ret (Some [])
  | S len =>
      let! h0 := rd hex 0 in
      let! h1 := rd hex 1 in
      let! v0 := hexval h0 in
      let! v1 := hexval h1 in
      let val := Z.lor (u32 (Z.shiftl v0 4)) v1 in
      if negb (Z.land val hex_to_bytes_mask =? 0) then Ret None
      else
        let! r := hex_to_bytes len (zdrop 2 hex) in
        Ret (match r with Some bytes => Some (u8 val :: bytes) | None => None end)
  end.

Definition hex2chr (s : list Z) : outcome Z :=
  let! h0 := rd s 0 in
  let! val := hexval h0 in
  if negb (Z.land val hex2chr_mask =? 0) then Ret (i32 val)
  else
    let! h1 := rd s 1 in
    let! v1 := hexval h1 in
    Ret (i32 (Z.lor (u32 (Z.shiftl val 4)) v1)).

(** [n] more bytes of the name; [None] is the result -1. *)
Fixpoint get_hash_hex_algop (n : nat) (hex : list Z) : outcome (option (list Z)) :=
  match n with
  | O => Ret (Some [])
  | S n =>
      let! val := hex2chr hex in
      if val <? 0 then Ret None
      else
        let! r := get_hash_hex_algop n (zdrop 2 hex) in
        Ret (match r with Some hash => Some (u8 val :: hash) | None => None end)
  end.

(** A name shorter than the array is followed by zeros. *)
Definition get_oid_hex_algop (hex : list Z) (algop : Z) : outcome (option object_id) :=
  let! r := get_hash_hex_algop (Z.to_nat (rawsz algop)) hex in
  match r with
  | None => Ret None
  | Some h =>
      let h := if negb (rawsz algop =? GIT_MAX_RAWSZ)
               then h ++ zrep (GIT_MAX_RAWSZ - rawsz algop) 0 else h in
      Ret (Some (Object_id h algop))
  end.

(** [for (i = GIT_HASH_NALGOS - 1; i > 0; i--)]: the algorithm and the name. *)
Fixpoint get_oid_hex_any_loop (i : nat) (hex : list Z) : outcome (Z * option object_id) :=
  match i with
  | O => Ret (GIT_HASH_UNKNOWN, None)
  | S i' =>
      let! r := get_oid_hex_algop hex (Z.of_nat i) in
      match r with
      | Some oid => Ret (Z.of_nat i, Some oid)
      | None => get_oid_hex_any_loop i' hex
      end
  end.
Definition get_oid_hex_any (hex : list Z) : outcome (Z * option object_id) :=
  get_oid_hex_any_loop (Z.to_nat (GIT_HASH_NALGOS - 1)) hex.

(** The name and [*end] as an offset from [hex]. *)
Definition parse_oid_hex_algop (hex : list Z) (algop : Z) : outcome (option (object_id * Z)) :=
  let! r := get_oid_hex_algop hex algop in
  Ret (match r with Some oid => Some (oid, hexsz algop) | None => None end).

Definition parse_oid_hex_any (hex : list Z) : outcome (option (object_id * Z)) :=
  let! (a, oid) := get_oid_hex_any hex in
  Ret (match oid with Some oid => Some (oid, hexsz a) | None => None end).

(** ["0123456789abcdef"] *)
Definition hex_digits : list Z :=
  [48; 49; 50; 51; 52; 53; 54; 55; 56; 57; 97; 98; 99; 100; 101; 102].

Fixpoint to_hex_loop (n : nat) (hash : list Z) : outcome (list Z) :=
  match n with
  | O => Ret [0]
  | S n =>
      let! val := rd hash 0 in
      let! d1 := rd hex_digits (Z.shiftr val 4) in
      let! d2 := rd hex_digits (Z.land val 15) in
      let! r := to_hex_loop n (zdrop 1 hash) in
      Ret (d1 :: d2 :: r)
  end.

(** [the_hash_algo] stands in for the unknown algorithm. *)
Definition hash_to_hex_algop_r (the_hash_algo : Z) (hash : list Z) (algop : Z) : outcome (list Z) :=
  let algop := if algop =? 0 then the_hash_algo else algop in
  to_hex_loop (Z.to_nat (rawsz algop)) hash.

Definition oid_to_hex_r (the_hash_algo : Z) (oid : object_id) : outcome (list Z) :=
  hash_to_hex_algop_r the_hash_algo (hash oid) (algo oid).

(** The four static buffers are used in turn: the state is the last one used and
    their contents, the result the index of the one filled. *)
Definition hash_to_hex_algop (the_hash_algo : Z) (bufno : Z) (hexbuffer : list (list Z))
  (hash : list Z) (algop : Z) : outcome (Z * list (list Z)) :=
  let bufno := (bufno + 1) mod 4 in
  let! s := hash_to_hex_algop_r the_hash_algo hash algop in
  let! hexbuffer := wr hexbuffer bufno s in
  Ret (bufno, hexbuffer).

(** ** Digits *)
Lemma hexval_wp c : byte_ok c → ∃ v, rd hexval_table c = Ret v ∧ -1 <= v <= 15.
Proof.
  intros Hc. destruct (znth_is_Some hexval_table c) as [v Hv]; [exact Hc|]. exists v.
  rewrite (rd_znth _ _ _ Hv). split; [done|].
  assert (Forall (λ v, -1 <= v <= 15) hexval_table) as Hall by (apply (bool_decide_unpack _); by vm_compute).
  unfold znth in Hv. destruct (0 <=? c); [|done]. eapply Forall_lookup_1 in Hv; [|done]. done.
Qed.

(** What [hex2chr] answers on two bytes in memory. *)
Lemma hex2chr_cons c d s :
  byte_ok c → byte_ok d →
  ∃ v w, rd hexval_table c = Ret v ∧ rd hexval_table d = Ret w ∧ -1 <= v <= 15 ∧ -1 <= w <= 15 ∧
  hex2chr (c :: d :: s) = Ret (if v <? 0 then -1 else if w <? 0 then -1 else 16 * v + w).
Proof.
  intros Hc Hd. destruct (hexval_wp c Hc) as (v & Ev & Hv). destruct (hexval_wp d Hd) as (w & Ew & Hw).
  exists v, w. split_and!; try done; try lia. unfold hex2chr, hexval.
  rewrite (rd_znth _ _ c) by done. cbn [obind]. rewrite Ev. cbn [obind].
  rewrite (rd_znth (c :: d :: s) 1 d) by done. cbn [obind]. rewrite Ew. cbn [obind].
  pose (vals := (λ k, Z.of_nat k - 1) <$> seq 0 17).
  assert (∀ x, -1 <= x <= 15 → x ∈ vals) as Hvals.
  { intros x Hx. apply list_elem_of_fmap. exists (Z.to_nat (x + 1)). split; [lia|]. apply elem_of_seq. lia. }
  pose (lhs v w := if negb (Z.land (u32 v) hex2chr_mask =? 0) then i32 (u32 v)
                   else i32 (Z.lor (u32 (Z.shiftl (u32 v) 4)) (u32 w))).
  assert (Forall (λ v, Forall (λ w, lhs v w = if v <? 0 then -1 else if w <? 0 then -1 else 16 * v + w) vals) vals)
    as Hall by (apply (bool_decide_unpack _); by vm_compute).
  rewrite Forall_forall in Hall. specialize (Hall v (Hvals v Hv)). rewrite Forall_forall in Hall.
  rewrite <- (Hall w (Hvals w Hw)). unfold lhs. by destruct (negb _).
Qed.

(** A string that ends early does not make [hex2chr] look past its NUL. *)
Lemma hex2chr_nul s : hex2chr (0 :: s) = Ret (-1).
Proof. done. Qed.

Lemma hex_digit_pair b s :
  byte_ok b → ∃ d1 d2, rd hex_digits (Z.shiftr b 4) = Ret d1 ∧ rd hex_digits (Z.land b 15) = Ret d2 ∧
    byte_ok d1 ∧ byte_ok d2 ∧ d1 ≠ 0 ∧ d2 ≠ 0 ∧ hex2chr (d1 :: d2 :: s) = Ret b.
Proof.
  intros Hb.
  assert (match rd hex_digits (Z.shiftr b 4), rd hex_digits (Z.land b 15) with
    | Ret d1, Ret d2 => (0 <? d1) && (d1 <? 256) && (0 <? d2) && (d2 <? 256) &&
        match hex2chr [d1; d2] with Ret x => x =? b | _ => false end
    | _, _ => false end = true) as H by (solve_byte b Hb).
  destruct (rd hex_digits (Z.shiftr b 4)) as [d1| | |]; try done.
  destruct (rd hex_digits (Z.land b 15)) as [d2| | |]; try done.
  repeat (apply andb_true_iff in H as [H ?]). exists d1, d2. unfold byte_ok. split_and!; try done; try lia.
  destruct (hex2chr [d1; d2]) as [x| | |] eqn:E; try done.
  replace b with x by lia. rewrite <- E. done.
Qed.

Lemma to_hex_roundtrip h rest :
  bytes_ok h → ∃ s, to_hex_loop (length h) (h ++ rest) = Ret (s ++ [0]) ∧ zlen s = 2 * zlen h ∧
    Forall (λ c, byte_ok c ∧ c ≠ 0) s ∧
    ∀ tail, get_hash_hex_algop (length h) (s ++ tail) = Ret (Some h).
Proof.
  induction h as [|b h IH]; intros Hh; [by exists []|].
  apply Forall_cons in Hh as [Hb Hh]. destruct (IH Hh) as (s & Es & Hl & Hs & Hr).
  destruct (hex_digit_pair b [] Hb) as (d1 & d2 & E1 & E2 & Hd1 & Hd2 & Hn1 & Hn2 & _).
  exists (d1 :: d2 :: s). split_and!.
  - cbn [length to_hex_loop app]. rewrite (rd_znth _ _ b) by done. cbn [obind]. rewrite E1, E2. cbn [obind].
    change (zdrop 1 (b :: h ++ rest)) with (h ++ rest). rewrite Es. done.
  - rewrite !zlen_cons. lia.
  - by repeat (apply Forall_cons; split).
  - intros tail. cbn [length get_hash_hex_algop app].
    destruct (hex_digit_pair b (s ++ tail) Hb) as (d1' & d2' & E1' & E2' & _ & _ & _ & _ & E).
    assert (d1' = d1) as -> by congruence. assert (d2' = d2) as -> by congruence. rewrite E. cbn [obind].
    unfold byte_ok in Hb. eval_ltb b 0. change (zdrop 2 (d1 :: d2 :: s ++ tail)) with (s ++ tail).
    rewrite Hr. cbn [obind]. unfold u8. rewrite Z.mod_small by lia. done.
Qed.

Definition oid_ok (oid : object_id) : Prop :=
  (algo oid = 1 ∨ algo oid = 2) ∧ bytes_ok (hash oid) ∧ zlen (hash oid) = GIT_MAX_RAWSZ ∧
  zdrop (rawsz (algo oid)) (hash oid) = zrep (GIT_MAX_RAWSZ - rawsz (algo oid)) 0.

Lemma oid_hex_roundtrip_wp the_hash_algo oid :
  oid_ok oid → ∃ s, oid_to_hex_r the_hash_algo oid = Ret (s ++ [0]) ∧ zlen s = hexsz (algo oid) ∧
    Forall (λ c, byte_ok c ∧ c ≠ 0) s ∧
    ∀ tail, parse_oid_hex_algop (s ++ tail) (algo oid) = Ret (Some (oid, zlen s)).
Proof.
  intros (Ha & Hb & Hl & Hz). unfold oid_to_hex_r, hash_to_hex_algop_r.
  assert ((algo oid =? 0) = false) as -> by (apply Z.eqb_neq; lia).
  set (n := rawsz (algo oid)) in *. assert (0 <= n <= 32) as Hn by (unfold n, rawsz; destruct Ha as [-> | ->]; cbn; lia).
  destruct (to_hex_roundtrip (ztake n (hash oid)) (zdrop n (hash oid))) as (s & Es & Hls & Hs & Hr).
  { by apply Forall_take. }
  assert (zlen (ztake n (hash oid)) = n) as Et by (apply zlen_ztake; rewrite Hl; unfold GIT_MAX_RAWSZ; lia).
  assert (length (ztake n (hash oid)) = Z.to_nat n) as Et' by (unfold zlen in Et; lia).
  rewrite Et', ztake_zdrop in Es. rewrite Et' in Hr. rewrite Et in Hls.
  exists s. split_and!; [done|unfold hexsz; lia|done|]. intros tail.
  unfold parse_oid_hex_algop, get_oid_hex_algop. fold n. rewrite Hr. cbn [obind].
  do 3 f_equal; [|unfold hexsz; lia]. destruct oid as [h a]. cbn in *. f_equal.
  destruct (Z.eqb_spec n GIT_MAX_RAWSZ) as [E|E]; cbn [negb].
  - apply ztake_all. lia.
  - rewrite <- Hz. apply ztake_zdrop.
Qed.

(** Whatever NUL-terminated string it is given, the parser answers without
    reading past the NUL. *)
Lemma get_hash_hex_safe n : ∀ s, bytes_ok s →
  returns (get_hash_hex_algop n (s ++ [0])) (λ r,
    match r with Some h => zlen h = Z.of_nat n ∧ bytes_ok h | None => True end).
Proof.
  induction n as [|n IH]; intros s Hs; cbn [get_hash_hex_algop]; [split; [done|constructor]|].
  destruct s as [|c s]; [done|]. apply Forall_cons in Hs as [Hc Hs].
  assert (∃ d t, s ++ [0] = d :: t ∧ byte_ok d) as (d & t & E & Hd).
  { destruct s as [|d s]; [by exists 0, []|]. exists d, (s ++ [0]). apply Forall_cons in Hs as [Hd _]. done. }
  cbn [app]. rewrite E. destruct (hex2chr_cons c d t Hc Hd) as (v & w & _ & Ew & Hv & Hw & ->). cbn [obind].
  destruct (Z.ltb_spec v 0) as [|Hv0]; [done|]. destruct (Z.ltb_spec w 0) as [|Hw0]; [done|].
  eval_ltb (16 * v + w) 0. change (zdrop 2 (c :: d :: t)) with t.
  destruct s as [|d' s].
  { injection E as <- <-. vm_compute in Ew. injection Ew as <-. lia. }
  cbn [app] in E. injection E as <- <-. apply Forall_cons in Hs as [_ Hs].
  apply wp_bind. eapply wp_mono; [|by apply IH]. intros [h|] Hh; [|done]. cbn [wp].
  destruct Hh as [Hl Hb]. split; [rewrite zlen_cons; lia|]. constructor; [|done].
  unfold byte_ok, u8. apply Z.mod_pos_bound. lia.
Qed.

(** On a string that is long enough, both parsers agree. *)
Lemma hex_to_bytes_eq n : ∀ s, bytes_ok s → 2 * Z.of_nat n <= zlen s →
  hex_to_bytes n s = get_hash_hex_algop n s.
Proof.
  induction n as [|n IH]; intros s Hs Hl; [done|].
  destruct s as [|c [|d s]]; [change (zlen ([] : list Z)) with 0 in Hl; lia|change (zlen [c]) with 1 in Hl; lia|].
  rewrite !zlen_cons in Hl. apply Forall_cons in Hs as [Hc [Hd Hs]%Forall_cons].
  cbn [hex_to_bytes get_hash_hex_algop].
  destruct (hex2chr_cons c d s Hc Hd) as (v & w & Ev & Ew & Hv & Hw & ->).
  rewrite (rd_znth _ 0 c), (rd_znth _ 1 d) by done. unfold hexval. cbn [obind]. rewrite Ev, Ew. cbn [obind].
  change (zdrop 2 (c :: d :: s)) with s. rewrite IH by (done || lia).
  pose (vals := (λ k, Z.of_nat k - 1) <$> seq 0 17).
  assert (∀ x, -1 <= x <= 15 → x ∈ vals) as Hvals.
  { intros x Hx. apply list_elem_of_fmap. exists (Z.to_nat (x + 1)). split; [lia|]. apply elem_of_seq. lia. }
  pose (val v w := Z.lor (u32 (Z.shiftl (u32 v) 4)) (u32 w)).
  assert (Forall (λ v, Forall (λ w,
      negb (Z.land (val v w) hex_to_bytes_mask =? 0) = ((v <? 0) || (w <? 0)) ∧
      (0 <= v → 0 <= w → val v w = 16 * v + w)) vals) vals)
    as Hall by (apply (bool_decide_unpack _); by vm_compute).
  rewrite Forall_forall in Hall. specialize (Hall v (Hvals v Hv)). rewrite Forall_forall in Hall.
  destruct (Hall w (Hvals w Hw)) as [E1 E2]. unfold val in E1, E2. rewrite E1.
  destruct (Z.ltb_spec v 0) as [|Hv0]; [done|]. destruct (Z.ltb_spec w 0) as [|Hw0]; [done|].
  cbn [orb]. rewrite E2 by lia. by eval_ltb (16 * v + w) 0.
Qed.

End Hex.
