(* ===== verification/Base85.v ===== *)
(** * Base-85 coding of binary patches (base85.c) *)
From stdpp Require Import prelude.
From S2P Require Import Prelude.

Module Base85.

(** ['0'..'9'], ['A'..'Z'], ['a'..'z'] and 23 punctuation characters. *)
Definition en85 : list Z :=
  (Z.of_nat <$> seq 48 10) ++ (Z.of_nat <$> seq 65 26) ++ (Z.of_nat <$> seq 97 26) ++
  [33; 35; 36; 37; 38; 40; 41; 42; 43; 45; 59; 60; 61; 62; 63; 64; 94; 95; 96; 123; 124; 125; 126].

(** [prep_base85]: one more than the index of the character, 0 for the others. *)
Fixpoint prep_loop (chars : list Z) (i : Z) (de85 : list Z) : outcome (list Z) :=
  match chars with
  | [] => Ret de85
  | ch :: chars =>
      let! de85 := wr de85 ch (i + 1) in
      prep_loop chars (i + 1) de85
  end.
Definition prep_base85 (de85 : list Z) : outcome (list Z) :=
  let! z := rd de85 90 in
  if negb (z =? 0) then Ret de85 else prep_loop en85 0 de85.

(** The table once [prep_base85] has run. *)
Definition de85 : list Z :=
  match prep_base85 (replicate 256 0) with Ret t => t | _ => [] end.

(** [do ... while (--cnt)] over the first four characters; [None] is the error. *)
Fixpoint decode_digits (cnt : nat) (buffer : list Z) (acc : Z) : outcome (option (Z * list Z)) :=
  match cnt with
  | O => Ret (Some (acc, buffer))
  | S cnt =>
      let! ch := rd buffer 0 in
      let! de := rd de85 ch in
      let de := de - 1 in
      if de <? 0 then Ret None
      else decode_digits cnt (zdrop 1 buffer) (u32 (u32 (acc * 85) + de))
  end.

(** [do { acc = (acc << 8) | (acc >> 24); *dst++ = acc; } while (--cnt)] *)
Fixpoint emit (cnt : nat) (acc : Z) : list Z :=
  match cnt with
  | O => []
  | S cnt =>
      let acc := Z.lor (u32 (Z.shiftl acc 8)) (Z.shiftr acc 24) in
      u8 acc :: emit cnt acc
  end.

(** The bytes written to [dst]; [None] is the error return. *)
Fixpoint decode_85 (fuel : nat) (buffer : list Z) (len : Z) : outcome (option (list Z)) :=
  match fuel with
  | O => NoFuel
  | S fuel =>
      if len =? 0 then Ret (Some [])
      else
        let! r := decode_digits 4 buffer 0 in
        match r with
        | None => Ret None
        | Some (acc, buffer) =>
            let! ch := rd buffer 0 in
            let! de := rd de85 ch in
            let de := de - 1 in
            if de <? 0 then Ret None
            else if (0xffffffff / 85 <? acc) || (0xffffffff - de <? u32 (acc * 85)) then Ret None
            else
              let acc := u32 (u32 (acc * 85) + de) in
              let cnt := if len <? 4 then len else 4 in
              let! rest := decode_85 fuel (zdrop 1 buffer) (len - cnt) in
              Ret (match rest with
                   | Some dst => Some (emit (Z.to_nat cnt) acc ++ dst)
                   | None => None
                   end)
        end
  end.

(** [for (cnt = 24; cnt >= 0; cnt -= 8)], left when the data end. *)
Fixpoint gather (n : nat) (cnt : Z) (data : list Z) (acc : Z) : Z * list Z :=
  match n, data with
  | S n, ch :: data => gather n (cnt - 8) data (Z.lor acc (u32 (Z.shiftl ch cnt)))
  | _, _ => (acc, data)
  end.

(** [for (cnt = 4; cnt >= 0; cnt--)]: the digits, the last one first. *)
Fixpoint digits (n : nat) (acc : Z) (out : list Z) : outcome (list Z) :=
  match n with
  | O => Ret out
  | S n =>
      let! c := rd en85 (acc mod 85) in
      digits n (acc / 85) (c :: out)
  end.

(** The characters written to [buf], without the final NUL. *)
Fixpoint encode_85 (fuel : nat) (data : list Z) : outcome (list Z) :=
  match fuel with
  | O => NoFuel
  | S fuel =>
      match data with
      | [] => Ret []
      | _ =>
          let '(acc, data) := gather 4 24 data 0 in
          let! g := digits 5 acc [] in
          let! rest := encode_85 fuel data in
          Ret (g ++ rest)
      end
  end.

(** ** Digits *)
Lemma de85_en85 i : 0 <= i < 85 → ∃ c, rd en85 i = Ret c ∧ rd de85 c = Ret (i + 1).
Proof.
  intros Hi.
  assert (Forall (λ k, match rd en85 (Z.of_nat k) with
    | Ret c => match rd de85 c with Ret v => v = Z.of_nat k + 1 | _ => False end
    | _ => False end) (seq 0 85)) as H.
  { repeat (apply Forall_cons; split; [by vm_compute|]). constructor. }
  rewrite Forall_forall in H. specialize (H (Z.to_nat i)). rewrite Z2Nat.id in H by lia.
  destruct (rd en85 i) as [c| | |]; [|destruct H; apply elem_of_seq; lia..].
  destruct (rd de85 c) as [v| | |] eqn:Ev; [|destruct H; apply elem_of_seq; lia..].
  exists c. rewrite Ev. split; [done|]. f_equal. apply H, elem_of_seq. lia.
Qed.

(** The value of a number's digits in base 85. *)
Lemma digits_split n : ∀ acc out, 0 <= acc → ∃ g, length g = n ∧
  digits n acc out = Ret (g ++ out) ∧
  ∀ a rest, 0 <= a → a * 85 ^ Z.of_nat n + acc mod 85 ^ Z.of_nat n < 2 ^ 32 →
    decode_digits n (g ++ rest) a = Ret (Some (a * 85 ^ Z.of_nat n + acc mod 85 ^ Z.of_nat n, rest)).
Proof.
  induction n as [|n IH]; intros acc out Hacc.
  { exists []. split_and!; [done..|]. intros a rest Ha _. cbn. rewrite Z.mod_1_r. do 3 f_equal. lia. }
  destruct (de85_en85 (acc mod 85)) as (c & Ec & Ed); [apply Z.mod_pos_bound; lia|].
  destruct (IH (acc / 85) (c :: out)) as (g & Hg & Eg & Hd); [apply Z.div_pos; lia|].
  exists (g ++ [c]). rewrite Nat2Z.inj_succ, Z.pow_succ_r by lia.
  assert (0 < 85 ^ Z.of_nat n) by (apply Z.pow_pos_nonneg; lia).
  split_and!.
  - rewrite length_app, Hg. cbn. lia.
  - cbn [digits]. rewrite Ec. cbn [obind]. by rewrite Eg, <- app_assoc.
  - intros a rest Ha Hb. rewrite Z.rem_mul_r in * by lia.
    assert (0 <= (acc / 85) mod 85 ^ Z.of_nat n) by (apply Z.mod_pos_bound; lia).
    pose proof (Z.mod_pos_bound acc 85 ltac:(lia)).
    assert (∀ m b v r, decode_digits m b v = Ret (Some r) → True) as _ by done.
    assert (decode_digits (S n) ((g ++ [c]) ++ rest) a =
      (let! r := decode_digits n (g ++ c :: rest) a in
       match r with
       | None => Ret None
       | Some (v, b) => decode_digits 1 b v
       end)) as ->.
    { rewrite <- app_assoc. cbn [app]. generalize (g ++ c :: rest) as b, a. clear.
      induction n as [|n IH]; intros b a.
      - done.
      - change (decode_digits (S (S n)) b a) with
          (let! ch := rd b 0 in let! de := rd de85 ch in
           if de - 1 <? 0 then Ret None
           else decode_digits (S n) (zdrop 1 b) (u32 (u32 (a * 85) + (de - 1)))).
        change (decode_digits (S n) b a) with
          (let! ch := rd b 0 in let! de := rd de85 ch in
           if de - 1 <? 0 then Ret None
           else decode_digits n (zdrop 1 b) (u32 (u32 (a * 85) + (de - 1)))).
        destruct (rd b 0) as [ch| | |]; try done. cbn [obind]. destruct (rd de85 ch) as [de| | |]; try done.
        cbn [obind]. destruct (de - 1 <? 0); [done|]. apply IH. }
    rewrite Hd by nia. cbn [obind decode_digits]. rewrite (rd_znth _ _ c) by done. cbn [obind].
    rewrite Ed. cbn [obind]. eval_ltb (acc mod 85 + 1 - 1) 0. change (zdrop 1 (c :: rest)) with rest.
    set (v := a * 85 ^ Z.of_nat n + (acc / 85) mod 85 ^ Z.of_nat n).
    assert (0 <= v ∧ v * 85 + acc mod 85 < 2 ^ 32) as [Hv0 Hv] by (unfold v; nia).
    unfold u32. rewrite (Z.mod_small (v * 85)) by lia.
    rewrite (Z.mod_small (v * 85 + _)) by lia. do 3 f_equal. unfold v. lia.
Qed.

(** ** One group of four bytes *)
Definition word32 (b0 b1 b2 b3 : Z) : Z := b0 * 2 ^ 24 + b1 * 2 ^ 16 + b2 * 2 ^ 8 + b3.

Lemma rotate b0 r :
  byte_ok b0 → 0 <= r < 2 ^ 24 →
  let acc := b0 * 2 ^ 24 + r in
  Z.lor (u32 (Z.shiftl acc 8)) (Z.shiftr acc 24) = r * 2 ^ 8 + b0.
Proof.
  intros Hb Hr acc. unfold byte_ok in Hb. unfold u32, acc.
  rewrite Z.shiftl_mul_pow2, Z.shiftr_div_pow2 by lia.
  replace ((b0 * 2 ^ 24 + r) / 2 ^ 24) with b0 by (Z.div_mod_to_equations; lia).
  replace ((b0 * 2 ^ 24 + r) * 2 ^ 8) with (r * 2 ^ 8 + b0 * 2 ^ 32) by lia.
  rewrite Z.mod_add, Z.mod_small by lia. pose proof (lor_disjoint_add r b0 8) as E.
  rewrite Z.shiftl_mul_pow2 in E by lia. apply E; lia.
Qed.

Lemma u8_add a b : byte_ok b → u8 (a * 2 ^ 8 + b) = b.
Proof. intros Hb. unfold u8, byte_ok in *. rewrite Z.add_comm, Z.mod_add by lia. by apply Z.mod_small. Qed.

Lemma emit_S k b r acc :
  byte_ok b → 0 <= r < 2 ^ 24 → acc = b * 2 ^ 24 + r → emit (S k) acc = b :: emit k (r * 2 ^ 8 + b).
Proof. intros Hb Hr ->. cbn [emit]. by rewrite rotate, u8_add by done. Qed.

Lemma emit4 b0 b1 b2 b3 :
  byte_ok b0 → byte_ok b1 → byte_ok b2 → byte_ok b3 → emit 4 (word32 b0 b1 b2 b3) = [b0; b1; b2; b3].
Proof.
  intros H0 H1 H2 H3. pose proof H0. pose proof H1. pose proof H2. pose proof H3. unfold byte_ok in H0, H1, H2, H3.
  rewrite (emit_S _ b0 (b1 * 2 ^ 16 + b2 * 2 ^ 8 + b3)) by (done || unfold word32; lia).
  rewrite (emit_S _ b1 (b2 * 2 ^ 16 + b3 * 2 ^ 8 + b0)) by (done || lia).
  rewrite (emit_S _ b2 (b3 * 2 ^ 16 + b0 * 2 ^ 8 + b1)) by (done || lia).
  by rewrite (emit_S _ b3 (b0 * 2 ^ 16 + b1 * 2 ^ 8 + b2)) by (done || lia).
Qed.

Lemma emit_take k m acc : emit k acc = take k (emit (k + m) acc).
Proof. revert acc. induction k as [|k IH]; intros acc; cbn; [done|]. f_equal. apply IH. Qed.

Lemma lor_shift_add acc b k :
  0 <= k → byte_ok b → 0 <= acc → acc mod 2 ^ (k + 8) = 0 →
  Z.lor acc (Z.shiftl b k) = acc + b * 2 ^ k.
Proof.
  intros Hk Hb Ha Hm. unfold byte_ok in Hb. assert (0 < 2 ^ k) by (apply Z.pow_pos_nonneg; lia).
  assert (acc = Z.shiftl (acc / 2 ^ (k + 8)) (k + 8)) as E.
  { rewrite Z.shiftl_mul_pow2 by lia. pose proof (Z.div_mod acc (2 ^ (k + 8))).
    rewrite Hm in *. rewrite Z.pow_add_r in * by lia. lia. }
  rewrite E at 1. rewrite lor_disjoint_add by (rewrite ?Z.shiftl_mul_pow2, ?Z.pow_add_r by lia; nia).
  rewrite <- Z.shiftl_mul_pow2, <- E by lia. by rewrite Z.shiftl_mul_pow2.
Qed.

(** The bytes of a group, zeros for the ones that are missing. *)
Lemma gather_spec data :
  bytes_ok data → data ≠ [] → ∃ acc, gather 4 24 data 0 = (acc, zdrop 4 data) ∧ 0 <= acc < 2 ^ 32 ∧
    emit (Z.to_nat (Z.min 4 (zlen data))) acc = ztake 4 data.
Proof.
  intros Hd Hne.
  assert (∀ b k, byte_ok b → 0 <= k <= 24 → u32 (Z.shiftl b k) = Z.shiftl b k) as Hu.
  { intros b k Hb Hk. unfold u32, byte_ok in *. rewrite Z.mod_small; [done|].
    rewrite Z.shiftl_mul_pow2 by lia. pose proof (Z.pow_le_mono_r 2 k 24 ltac:(lia) ltac:(lia)).
    assert (0 < 2 ^ k) by (apply Z.pow_pos_nonneg; lia). nia. }
  assert (byte_ok 0) as Hz by done.
  assert (∀ b0 b1 b2 b3, byte_ok b0 → byte_ok b1 → byte_ok b2 → byte_ok b3 → 0 <= word32 b0 b1 b2 b3 < 2 ^ 32) as Hw.
  { unfold byte_ok, word32. lia. }
  assert (∀ k b0 b1 b2 b3, (k <= 4)%nat → byte_ok b0 → byte_ok b1 → byte_ok b2 → byte_ok b3 →
    emit k (word32 b0 b1 b2 b3) = take k [b0; b1; b2; b3]) as He.
  { intros k b0 b1 b2 b3 Hk ????. rewrite (emit_take k (4 - k)), <- Nat.le_add_sub by lia. by rewrite emit4. }
  assert (∀ b0, byte_ok b0 → Z.lor 0 (u32 (Z.shiftl b0 24)) = word32 b0 0 0 0) as G0.
  { intros b0 H0. rewrite Hu by (done || lia). rewrite Z.lor_0_l, Z.shiftl_mul_pow2 by lia. unfold word32. lia. }
  assert (∀ b0 b1, byte_ok b0 → byte_ok b1 → Z.lor (word32 b0 0 0 0) (u32 (Z.shiftl b1 16)) = word32 b0 b1 0 0) as G1.
  { intros b0 b1 H0 H1. rewrite Hu by (done || lia). unfold byte_ok in *.
    rewrite lor_shift_add by (unfold byte_ok, word32; try (Z.div_mod_to_equations; lia); lia). unfold word32. lia. }
  assert (∀ b0 b1 b2, byte_ok b0 → byte_ok b1 → byte_ok b2 →
    Z.lor (word32 b0 b1 0 0) (u32 (Z.shiftl b2 8)) = word32 b0 b1 b2 0) as G2.
  { intros b0 b1 b2 H0 H1 H2. rewrite Hu by (done || lia). unfold byte_ok in *.
    rewrite lor_shift_add by (unfold byte_ok, word32; try (Z.div_mod_to_equations; lia); lia). unfold word32. lia. }
  assert (∀ b0 b1 b2 b3, byte_ok b0 → byte_ok b1 → byte_ok b2 → byte_ok b3 →
    Z.lor (word32 b0 b1 b2 0) (u32 (Z.shiftl b3 0)) = word32 b0 b1 b2 b3) as G3.
  { intros b0 b1 b2 b3 H0 H1 H2 H3. rewrite Hu by (done || lia). unfold byte_ok in *.
    rewrite lor_shift_add by (unfold byte_ok, word32; try (Z.div_mod_to_equations; lia); lia). unfold word32. lia. }
  destruct data as [|b0 data]; [done|]. apply Forall_cons in Hd as [H0 Hd]. cbn [gather].
  rewrite G0 by done. change (24 - 8) with 16.
  destruct data as [|b1 data].
  { exists (word32 b0 0 0 0). split; [done|]. split; [by apply Hw|].
    change (Z.to_nat (Z.min 4 (zlen [b0]))) with 1%nat. by rewrite He by (done || lia). }
  apply Forall_cons in Hd as [H1 Hd]. rewrite G1 by done. change (16 - 8) with 8.
  destruct data as [|b2 data].
  { exists (word32 b0 b1 0 0). split; [done|]. split; [by apply Hw|].
    change (Z.to_nat (Z.min 4 (zlen [b0; b1]))) with 2%nat. by rewrite He by (done || lia). }
  apply Forall_cons in Hd as [H2 Hd]. rewrite G2 by done. change (8 - 8) with 0.
  destruct data as [|b3 data].
  { exists (word32 b0 b1 b2 0). split; [done|]. split; [by apply Hw|].
    change (Z.to_nat (Z.min 4 (zlen [b0; b1; b2]))) with 3%nat. by rewrite He by (done || lia). }
  apply Forall_cons in Hd as [H3 Hd]. rewrite G3 by done.
  exists (word32 b0 b1 b2 b3). split; [done|]. split; [by apply Hw|].
  rewrite !zlen_cons. pose proof (zlen_nonneg data). rewrite Z.min_l by lia.
  change (Z.to_nat 4) with 4%nat. by rewrite He by (done || lia).
Qed.

Lemma encode_decode fuel : ∀ data, bytes_ok data → (length data < fuel)%nat →
  ∃ s, encode_85 fuel data = Ret s ∧ zlen s = 5 * ((zlen data + 3) / 4) ∧
    ∀ rest, decode_85 fuel (s ++ rest) (zlen data) = Ret (Some data).
Proof.
  induction fuel as [|fuel IH]; intros data Hd Hf; [lia|]. cbn [encode_85].
  destruct data as [|b0 data0] eqn:Ed; [by exists []|]. rewrite <- Ed in *.
  assert (data ≠ []) as Hne by (by subst).
  destruct (gather_spec data Hd Hne) as (acc & -> & Hacc & He).
  assert (zlen data = 1 + zlen data0) as Hlen by (subst; apply zlen_cons). pose proof (zlen_nonneg data0).
  destruct (IH (zdrop 4 data)) as (s & Es & Hls & Hdec).
  { by apply Forall_drop. }
  { unfold zdrop. rewrite length_drop. unfold zlen in Hlen. lia. }
  cbn [digits]. destruct (de85_en85 (acc mod 85)) as (c & Ec & Edc); [apply Z.mod_pos_bound; lia|].
  rewrite Ec. cbn [obind].
  destruct (digits_split 4 (acc / 85) [c]) as (g & Hg & Eg & Hgd); [apply Z.div_pos; lia|].
  change (digits 4 (acc / 85) [c]) with (digits 4 (acc / 85) [c]) in Eg. cbn [digits] in Eg.
  rewrite Eg. cbn [obind]. rewrite Es. cbn [obind]. exists ((g ++ [c]) ++ s). split; [done|]. split.
  { rewrite !zlen_app. change (zlen [c]) with 1. unfold zlen at 1. rewrite Hg, Hls.
    rewrite zlen_zdrop_max. Z.div_mod_to_equations; lia. }
  intros rest. cbn [decode_85]. rewrite (proj2 (Z.eqb_neq (zlen data) 0)) by lia.
  specialize (Hgd 0 (c :: s ++ rest) ltac:(lia)). change (85 ^ Z.of_nat 4) with 52200625 in Hgd.
  rewrite (Z.mod_small (acc / 85)) in Hgd by (Z.div_mod_to_equations; lia).
  replace (((g ++ [c]) ++ s) ++ rest) with (g ++ c :: s ++ rest) by (by rewrite <- !app_assoc).
  rewrite Hgd by (Z.div_mod_to_equations; lia). cbn [obind]. rewrite (rd_znth _ _ c) by done. cbn [obind].
  rewrite Edc. cbn [obind]. pose proof (Z.mod_pos_bound acc 85 ltac:(lia)).
  eval_ltb (acc mod 85 + 1 - 1) 0. rewrite Z.mul_0_l, Z.add_0_l.
  assert (acc / 85 * 85 + acc mod 85 = acc) as Eacc by (Z.div_mod_to_equations; lia).
  assert (0 <= acc / 85) by (apply Z.div_pos; lia).
  unfold u32. rewrite (Z.mod_small (acc / 85 * 85)) by lia.
  assert ((4294967295 / 85 <? acc / 85) = false) as -> by (apply Z.ltb_ge; apply Z.div_le_mono; lia).
  assert ((4294967295 - (acc mod 85 + 1 - 1) <? acc / 85 * 85) = false) as -> by (apply Z.ltb_ge; lia).
  cbn [orb]. replace (acc / 85 * 85 + (acc mod 85 + 1 - 1)) with acc by lia. rewrite Z.mod_small by done.
  change (zdrop 1 (c :: s ++ rest)) with (s ++ rest).
  assert ((if zlen data <? 4 then zlen data else 4) = Z.min 4 (zlen data)) as ->.
  { destruct (Z.ltb_spec (zlen data) 4); lia. }
  replace (zlen data - Z.min 4 (zlen data)) with (zlen (zdrop 4 data)) by (rewrite zlen_zdrop_max; lia).
  rewrite Hdec. cbn [obind]. by rewrite He, ztake_zdrop.
Qed.

End Base85.
