(* ===== verification/Ctype.v ===== *)
(** * Character classes and C strings (ctype.c, sane-ctype.h)

    The table-driven, locale-independent character tests, and the reading of
    NUL-terminated strings the other files share. *)
From stdpp Require Import prelude.
From S2P Require Import Prelude.

Module Ctype.

Definition GIT_SPACE : Z := 0x01.
Definition GIT_DIGIT : Z := 0x02.
Definition GIT_ALPHA : Z := 0x04.
Definition GIT_GLOB_SPECIAL : Z := 0x08.
Definition GIT_REGEX_SPECIAL : Z := 0x10.
Definition GIT_PATHSPEC_MAGIC : Z := 0x20.
Definition GIT_CNTRL : Z := 0x40.
Definition GIT_PUNCT : Z := 0x80.

Definition sane_ctype : list Z :=
  let S := GIT_SPACE in let A := GIT_ALPHA in let D := GIT_DIGIT in
  let G := GIT_GLOB_SPECIAL in let R := GIT_REGEX_SPECIAL in let P := GIT_PATHSPEC_MAGIC in
  let X := GIT_CNTRL in let U := GIT_PUNCT in let Z := Z.lor GIT_CNTRL GIT_SPACE in
  [X; X; X; X; X; X; X; X; X; Z; Z; X; X; Z; X; X;
   X; X; X; X; X; X; X; X; X; X; X; X; X; X; X; X;
   S; P; P; P; R; P; P; P; R; R; G; R; P; P; R; P;
   D; D; D; D; D; D; D; D; D; D; P; P; P; P; P; G;
   P; A; A; A; A; A; A; A; A; A; A; A; A; A; A; A;
   A; A; A; A; A; A; A; A; A; A; A; G; G; U; R; P;
   P; A; A; A; A; A; A; A; A; A; A; A; A; A; A; A;
   A; A; A; A; A; A; A; A; A; A; A; R; R; U; P; X] ++ zrep 128 0.

Definition sane_istest (x mask : Z) : bool :=
  negb (Z.land (default 0 (znth sane_ctype (u8 x))) mask =? 0).

Definition isspace (x : Z) : bool := sane_istest x GIT_SPACE.
Definition isdigit (x : Z) : bool := sane_istest x GIT_DIGIT.
Definition isalpha (x : Z) : bool := sane_istest x GIT_ALPHA.
Definition isalnum (x : Z) : bool := sane_istest x (Z.lor GIT_ALPHA GIT_DIGIT).
Definition iscntrl (x : Z) : bool := sane_istest x GIT_CNTRL.
Definition ispunct (x : Z) : bool :=
  sane_istest x (Z.lor (Z.lor (Z.lor GIT_PUNCT GIT_REGEX_SPECIAL) GIT_GLOB_SPECIAL) GIT_PATHSPEC_MAGIC).
Definition is_glob_special (x : Z) : bool := sane_istest x GIT_GLOB_SPECIAL.
Definition is_regex_special (x : Z) : bool := sane_istest x (Z.lor GIT_GLOB_SPECIAL GIT_REGEX_SPECIAL).
Definition isprint (x : Z) : bool := (0x20 <=? x) && (x <=? 0x7e).

Definition sane_case (x high : Z) : Z :=
  if sane_istest x GIT_ALPHA then Z.lor (Z.land x (Z.lnot 0x20)) high else x.
Definition tolower (x : Z) : Z := sane_case (u8 x) 0x20.
Definition toupper (x : Z) : Z := sane_case (u8 x) 0.

Definition sane_iscase (x : Z) (is_lower : bool) : bool :=
  if negb (sane_istest x GIT_ALPHA) then false
  else if is_lower then negb (Z.land x 0x20 =? 0) else Z.land x 0x20 =? 0.
Definition islower (x : Z) : bool := sane_iscase x true.
Definition isupper (x : Z) : bool := sane_iscase x false.

(** ** NUL-terminated strings

    A [char *] argument is the list of the bytes from the pointer on, the NUL
    and whatever follows it included; reading past the list is undefined. *)
Definition no_nul (s : list Z) : Prop := Forall (λ c, 0 < c < 256) s.

(** [strcspn(s, reject)]. *)
Fixpoint strcspn (s : list Z) (reject : Z → bool) : outcome Z :=
  match s with
  | [] => UB
  | c :: s => if (c =? 0) || reject c then Ret 0
              else let! n := strcspn s reject in Ret (n + 1)
  end.

(** The bytes of the string at [s]. *)
Fixpoint cstr (s : list Z) : outcome (list Z) :=
  match s with
  | [] => UB
  | c :: s => if c =? 0 then Ret [] else let! t := cstr s in Ret (c :: t)
  end.

Lemma cstr_eq s rest : no_nul s → cstr (s ++ 0 :: rest) = Ret s.
Proof.
  induction 1 as [|c s Hc Hs IH]; [done|]. cbn [app cstr].
  rewrite (proj2 (Z.eqb_neq c 0)) by lia. by rewrite IH.
Qed.

Lemma cstr_inv m s : cstr m = Ret s → ∃ rest, m = s ++ 0 :: rest ∧ Forall (λ c, c ≠ 0) s.
Proof.
  revert s. induction m as [|c m IH]; intros s; [done|]. cbn [cstr].
  destruct (Z.eqb_spec c 0) as [->|Hc].
  - intros [= <-]. by exists m.
  - intros Hs. obind_inv. destruct (IH _ Ha) as (rest & -> & Hno). exists rest. split; [done|].
    by constructor.
Qed.

(** The classes, in terms of ASCII ranges. *)
Lemma isspace_spec c : byte_ok c → isspace c = (c =? 32) || (c =? 9) || (c =? 10) || (c =? 13).
Proof. intros Hc. apply eqb_prop. solve_byte c Hc. Qed.
Lemma isdigit_spec c : byte_ok c → isdigit c = (48 <=? c) && (c <=? 57).
Proof. intros Hc. apply eqb_prop. solve_byte c Hc. Qed.
Lemma isalpha_spec c : byte_ok c →
  isalpha c = ((65 <=? c) && (c <=? 90)) || ((97 <=? c) && (c <=? 122)).
Proof. intros Hc. apply eqb_prop. solve_byte c Hc. Qed.
Lemma tolower_spec c : byte_ok c → tolower c = if (65 <=? c) && (c <=? 90) then c + 32 else c.
Proof. intros Hc. solve_byte c Hc. Qed.
Lemma toupper_spec c : byte_ok c → toupper c = if (97 <=? c) && (c <=? 122) then c - 32 else c.
Proof. intros Hc. solve_byte c Hc. Qed.

End Ctype.
