(* ===== verification/Quote.v ===== *)
(** * Quoting for the shell and C-style path quoting (quote.c)

    Shell quoting and its in-place inverse work on one memory buffer, as the
    code does; a [strbuf] is its contents.  Quoting followed by unquoting is
    the identity for both styles. *)
From stdpp Require Import prelude.
From S2P Require Import Prelude Ctype.
Import Ctype.

Module Quote.

(** ** Shell quoting *)
Definition need_bs_quote (c : Z) : bool := (c =? 39) || (c =? 33).

(** [while (need_bs_quote( *src))]: the bytes added and where [src] ends up. *)
Fixpoint sq_quote_inner (dst src : list Z) : outcome (list Z * list Z) :=
  match src with
  | [] => UB
  | c :: tl => if need_bs_quote c then sq_quote_inner (dst ++ [39; 92] ++ [c] ++ [39]) tl
               else Ret (dst, src)
  end.

Fixpoint sq_quote_loop (fuel : nat) (dst src : list Z) : outcome (list Z) :=
  match fuel with
  | O => NoFuel
  | S fuel =>
      let! c := rd src 0 in
      if c =? 0 then Ret dst
      else
        let! len := strcspn src need_bs_quote in
        let! chunk := rd_range src 0 len in
        let! (dst, src) := sq_quote_inner (dst ++ chunk) (zdrop len src) in
        sq_quote_loop fuel dst src
  end.

(** [aliased]: [src] is the buffer of [dst], which [strbuf_detach] empties. *)
Definition sq_quote_buf (aliased : bool) (dst src : list Z) : outcome (list Z) :=
  let dst := if aliased then [] else dst in
  let! dst := sq_quote_loop (S (length src)) (dst ++ [39]) src in
  Ret (dst ++ [39]).

(** ["+,-./:=@_^"], and the NUL that [strchr] also finds. *)
Definition ok_punct : list Z := [43; 44; 45; 46; 47; 58; 61; 64; 95; 94].
Definition plain (c : Z) : bool := isalnum c || existsb (Z.eqb c) (ok_punct ++ [0]).

(** The [for] loop: does it reach the end of the string? *)
Fixpoint all_plain (p : list Z) : outcome bool :=
  match p with
  | [] => UB
  | c :: p => if c =? 0 then Ret true else if negb (plain c) then Ret false else all_plain p
  end.

Definition sq_quote_buf_pretty (dst src : list Z) : outcome (list Z) :=
  let! c := rd src 0 in
  if c =? 0 then Ret (dst ++ [39; 39])
  else
    let! ok := all_plain src in
    if ok then let! s := cstr src in Ret (dst ++ s)
    else sq_quote_buf false dst src.

(** [argv] up to its NULL. *)
Fixpoint sq_quote_argv (dst : list Z) (argv : list (list Z)) : outcome (list Z) :=
  match argv with
  | [] => Ret dst
  | a :: argv => let! dst := sq_quote_buf false (dst ++ [32]) a in sq_quote_argv dst argv
  end.

Fixpoint sq_append_loop (first : bool) (dst : list Z) (argv : list (list Z)) : outcome (list Z) :=
  match argv with
  | [] => Ret dst
  | a :: argv =>
      let dst := if first then dst else dst ++ [32] in
      let! dst := sq_quote_buf_pretty dst a in
      sq_append_loop false dst argv
  end.
Definition sq_append_quote_argv_pretty (dst : list Z) (argv : list (list Z)) : outcome (list Z) :=
  sq_append_loop true dst argv.
Definition sq_quote_argv_pretty (dst : list Z) (argv : list (list Z)) : outcome (list Z) :=
  let dst := match argv with [] => dst | _ => dst ++ [32] end in
  sq_append_quote_argv_pretty dst argv.

(** ** Shell unquoting, in place

    [mem] is the memory of the string, pointers are positions in it.  The
    result is [None] when the code returns NULL, [Some next] otherwise with
    what it stores in [next] ([None] is NULL). *)
Fixpoint sq_dequote_loop (fuel : nat) (mem : list Z) (dst src : Z) (next : bool)
  : outcome (list Z * option (option Z)) :=
  match fuel with
  | O => NoFuel
  | S fuel =>
      let src := src + 1 in
      let! c := rd mem src in
      if c =? 0 then Ret (mem, None)
      else if negb (c =? 39) then
        let! mem := wr mem dst c in
        sq_dequote_loop fuel mem (dst + 1) src next
      else
        let src := src + 1 in
        let! d := rd mem src in
        let fallthrough (_ : unit) : outcome (list Z * option (option Z)) :=
          if negb next then Ret (mem, None)
          else let! mem := wr mem dst 0 in Ret (mem, Some (Some src)) in
        if d =? 0 then let! mem := wr mem dst 0 in Ret (mem, Some None)
        else if d =? 92 then
          let! e := rd mem (src + 1) in
          if need_bs_quote e then
            let! q := rd mem (src + 2) in
            if q =? 39 then
              let! mem := wr mem dst e in
              sq_dequote_loop fuel mem (dst + 1) (src + 2) next
            else fallthrough tt
          else fallthrough tt
        else fallthrough tt
  end.

Definition sq_dequote_step (mem : list Z) (arg : Z) (next : bool)
  : outcome (list Z * option (option Z)) :=
  let! c := rd mem arg in
  if negb (c =? 39) then Ret (mem, None)
  else sq_dequote_loop (S (length mem)) mem arg arg next.

Definition sq_dequote (mem : list Z) (arg : Z) : outcome (list Z * bool) :=
  let! (mem, r) := sq_dequote_step mem arg false in
  Ret (mem, match r with Some _ => true | None => false end).

(** [do c = *++next; while (isspace(c))]. *)
Fixpoint skip_space (fuel : nat) (mem : list Z) (next : Z) : outcome Z :=
  match fuel with
  | O => NoFuel
  | S fuel =>
      let! c := rd mem (next + 1) in
      if isspace c then skip_space fuel mem (next + 1) else Ret (next + 1)
  end.

(** [argv] collects pointers, [array] copies of the strings. *)
Fixpoint sq_dequote_argv_loop (fuel : nat) (mem : list Z) (next : Z)
    (argv : option (list Z)) (array : option (list (list Z)))
  : outcome (list Z * Z * option (list Z) * option (list (list Z))) :=
  match fuel with
  | O => NoFuel
  | S fuel =>
      let dequoted := next in
      let! (mem, r) := sq_dequote_step mem next true in
      match r with
      | None => Ret (mem, -1, argv, array)
      | Some next =>
          let! next := (match next with
            | None => Ret (inl None)
            | Some next =>
                let! c := rd mem next in
                if negb (isspace c) then Ret (inr (-1))
                else let! next := skip_space (S (length mem)) mem next in Ret (inl (Some next))
            end) in
          match next with
          | inr e => Ret (mem, e, argv, array)
          | inl next =>
              let argv := match argv with None => None | Some l => Some (l ++ [dequoted]) end in
              let! array := (match array with
                | None => Ret None
                | Some l => let! s := cstr (zdrop dequoted mem) in Ret (Some (l ++ [s]))
                end) in
              match next with
              | None => Ret (mem, 0, argv, array)
              | Some next => sq_dequote_argv_loop fuel mem next argv array
              end
          end
      end
  end.

Definition sq_dequote_to_argv_internal (mem : list Z) (arg : Z)
    (argv : option (list Z)) (array : option (list (list Z)))
  : outcome (list Z * Z * option (list Z) * option (list (list Z))) :=
  let! c := rd mem arg in
  if c =? 0 then Ret (mem, 0, argv, array)
  else sq_dequote_argv_loop (S (length mem)) mem arg argv array.

Definition sq_dequote_to_argv (mem : list Z) (arg : Z) (argv : list Z) :=
  sq_dequote_to_argv_internal mem arg (Some argv) None.
Definition sq_dequote_to_strvec (mem : list Z) (arg : Z) (array : list (list Z)) :=
  sq_dequote_to_argv_internal mem arg None (Some array).

(** ** C-style quoting *)
Definition X8 (x : Z) : list Z := zrep 8 x.
Definition X16 (x : Z) : list Z := X8 x ++ X8 x.
Definition cq_lookup : list Z :=
  [1; 1; 1; 1; 1; 1; 1; 97] ++
  [98; 116; 110; 118; 102; 114; 1; 1] ++
  X16 1 ++
  [-1; -1; 34; -1; -1; -1; -1; -1] ++
  X16 (-1) ++ X16 (-1) ++ X16 (-1) ++
  [-1; -1; -1; -1; 92; -1; -1; -1] ++
  X16 (-1) ++ X8 (-1) ++
  [-1; -1; -1; -1; -1; -1; -1; 1] ++
  zrep 128 0.

Section c_style.
(** The global [quote_path_fully] (the core.quotePath setting). *)
Context (quote_path_fully : Z).

Definition cq_must_quote (c : Z) : outcome bool :=
  let! v := rd cq_lookup (u8 c) in Ret (0 <? v + quote_path_fully).

Fixpoint next_quote_pos_nul (s : list Z) : outcome Z :=
  match s with
  | [] => UB
  | c :: s => let! q := cq_must_quote c in
              if q then Ret 0 else let! n := next_quote_pos_nul s in Ret (n + 1)
  end.
Fixpoint next_quote_pos_max (maxlen : nat) (s : list Z) : outcome Z :=
  match maxlen with
  | O => Ret 0
  | S maxlen =>
      match s with
      | [] => UB
      | c :: s => let! q := cq_must_quote c in
                  if q then Ret 0 else let! n := next_quote_pos_max maxlen s in Ret (n + 1)
      end
  end.
Definition next_quote_pos (s : list Z) (maxlen : Z) : outcome Z :=
  if maxlen <? 0 then next_quote_pos_nul s else next_quote_pos_max (Z.to_nat maxlen) s.

(** The bytes [EMIT] and [EMITBUF] write, and the position [p] (relative to
    [name]) where the loop stopped. *)
Fixpoint quote_c_loop (fuel : nat) (name : list Z) (p maxlen : Z) (no_dq : bool) (out : list Z)
  : outcome (list Z * Z) :=
  match fuel with
  | O => NoFuel
  | S fuel =>
      let! len := next_quote_pos (zdrop p name) maxlen in
      let! stop := (if maxlen <? 0 then let! c := rd name (p + len) in Ret (c =? 0)
                    else Ret (len =? maxlen)) in
      let! chunk := rd_range name p len in
      if stop then Ret (out ++ chunk, p)
      else
        let out := if negb no_dq && (p =? 0) then out ++ [34] else out in
        let out := out ++ chunk ++ [92] in
        let p := p + len in
        let! ch := rd name p in
        let maxlen := if 0 <=? maxlen then maxlen - (len + 1) else maxlen in
        let! v := rd cq_lookup ch in
        let out := if 32 <=? v then out ++ [v]
                   else out ++ [Z.land (Z.shiftr ch 6) 3 + 48] ++ [Z.land (Z.shiftr ch 3) 7 + 48]
                            ++ [Z.land ch 7 + 48] in
        quote_c_loop fuel name (p + 1) maxlen no_dq out
  end.

Definition CQUOTE_NODQ : Z := 1.

(** The bytes emitted (to [sb] and [fp], when given) and the return value. *)
Definition quote_c_style_counted (name : list Z) (maxlen flags : Z) : outcome (list Z * Z) :=
  let no_dq := negb (Z.land flags CQUOTE_NODQ =? 0) in
  let! (out, p) := quote_c_loop (S (length name)) name 0 maxlen no_dq [] in
  if p =? 0 then Ret (out, 0)
  else
    let out := if negb no_dq then out ++ [34] else out in
    Ret (out, zlen out).

Definition quote_c_style (name : list Z) (flags : Z) : outcome (list Z * Z) :=
  quote_c_style_counted name (-1) flags.

Definition quote_two_c_style (sb prefix path : list Z) (flags : Z) : outcome (list Z) :=
  let nodq := negb (Z.land flags CQUOTE_NODQ =? 0) in
  let! (_, a) := quote_c_style prefix 0 in
  let! need := (if negb (a =? 0) then Ret true
                else let! (_, b) := quote_c_style path 0 in Ret (negb (b =? 0))) in
  if need then
    let sb := if negb nodq then sb ++ [34] else sb in
    let! (o1, _) := quote_c_style prefix CQUOTE_NODQ in
    let! (o2, _) := quote_c_style path CQUOTE_NODQ in
    let sb := sb ++ o1 ++ o2 in
    Ret (if negb nodq then sb ++ [34] else sb)
  else
    let! s1 := cstr prefix in
    let! s2 := cstr path in
    Ret (sb ++ s1 ++ s2).

Definition write_name_quoted (name fp : list Z) (terminator : Z) : outcome (list Z) :=
  let! out := (if negb (terminator =? 0) then let! (o, _) := quote_c_style name 0 in Ret o
               else cstr name) in
  Ret (fp ++ out ++ [u8 terminator]).

(** [rel] is what [relative_path] answered. *)
Definition QUOTE_PATH_QUOTE_SP : Z := 1.
Definition quote_path (rel : list Z) (flags : Z) : outcome (list Z) :=
  let! s := cstr rel in
  let force_dq := negb (Z.land flags QUOTE_PATH_QUOTE_SP =? 0) && existsb (Z.eqb 32) s in
  let! (o, _) := quote_c_style_counted rel (zlen s) (if force_dq then CQUOTE_NODQ else 0) in
  Ret (if force_dq then [34] ++ o ++ [34] else o).
End c_style.

(** ** C-style unquoting *)

(** The inner [switch]: the byte denoted after a backslash and the rest. *)
Definition unescape (quoted : list Z) : outcome (option (Z * list Z)) :=
  match quoted with
  | [] => UB
  | ch :: quoted =>
      if ch =? 97 then Ret (Some (7, quoted))
      else if ch =? 98 then Ret (Some (8, quoted))
      else if ch =? 102 then Ret (Some (12, quoted))
      else if ch =? 110 then Ret (Some (10, quoted))
      else if ch =? 114 then Ret (Some (13, quoted))
      else if ch =? 116 then Ret (Some (9, quoted))
      else if ch =? 118 then Ret (Some (11, quoted))
      else if (ch =? 92) || (ch =? 34) then Ret (Some (ch, quoted))
      else if (48 <=? ch) && (ch <=? 51) then
        let ac := Z.shiftl (ch - 48) 6 in
        match quoted with
        | [] => UB
        | ch :: quoted =>
            if (ch <? 48) || (55 <? ch) then Ret None
            else
              let ac := Z.lor ac (Z.shiftl (ch - 48) 3) in
              match quoted with
              | [] => UB
              | ch :: quoted =>
                  if (ch <? 48) || (55 <? ch) then Ret None
                  else Ret (Some (Z.lor ac (ch - 48), quoted))
              end
        end
      else Ret None
  end.

(** [Some (out, endp)] is a return of 0; on an error [sb] is restored. *)
Fixpoint unquote_loop (fuel : nat) (sb quoted : list Z) : outcome (option (list Z * list Z)) :=
  match fuel with
  | O => NoFuel
  | S fuel =>
      let! len := strcspn quoted (λ c, (c =? 34) || (c =? 92)) in
      let! chunk := rd_range quoted 0 len in
      let sb := sb ++ chunk in
      match zdrop len quoted with
      | [] => UB
      | c :: quoted =>
          if c =? 34 then Ret (Some (sb, quoted))
          else if c =? 92 then
            let! r := unescape quoted in
            match r with
            | None => Ret None
            | Some (ch, quoted) => unquote_loop fuel (sb ++ [u8 ch]) quoted
            end
          else Ret None
      end
  end.

Definition unquote_c_style (sb quoted : list Z) : outcome (list Z * Z * option (list Z)) :=
  match quoted with
  | [] => UB
  | c :: tl =>
      if negb (c =? 34) then Ret (sb, -1, None)
      else
        let! r := unquote_loop (S (length quoted)) sb tl in
        match r with
        | None => Ret (sb, -1, None)
        | Some (sb, endp) => Ret (sb, 0, Some endp)
        end
  end.

(** ** String literals for other languages *)
Fixpoint perl_quote_loop (sb src : list Z) : outcome (list Z) :=
  match src with
  | [] => UB
  | c :: src =>
      if c =? 0 then Ret sb
      else
        let sb := if (c =? 39) || (c =? 92) then sb ++ [92] else sb in
        perl_quote_loop (sb ++ [c]) src
  end.
Definition perl_quote_buf (sb src : list Z) : outcome (list Z) :=
  let! sb := perl_quote_loop (sb ++ [39]) src in Ret (sb ++ [39]).

Fixpoint perl_quote_len_loop (len : nat) (sb src : list Z) : outcome (list Z) :=
  match len with
  | O => Ret sb
  | S len =>
      match src with
      | [] => UB
      | c :: src =>
          let sb := if (c =? 39) || (c =? 92) then sb ++ [92] else sb in
          perl_quote_len_loop len (sb ++ [c]) src
      end
  end.
Definition perl_quote_buf_with_len (sb src : list Z) (len : Z) : outcome (list Z) :=
  let! sb := perl_quote_len_loop (Z.to_nat len) (sb ++ [39]) src in Ret (sb ++ [39]).

Fixpoint python_quote_loop (sb src : list Z) : outcome (list Z) :=
  match src with
  | [] => UB
  | c :: src =>
      if c =? 0 then Ret sb
      else if c =? 10 then python_quote_loop (sb ++ [92] ++ [110]) src
      else
        let sb := if (c =? 39) || (c =? 92) then sb ++ [92] else sb in
        python_quote_loop (sb ++ [c]) src
  end.
Definition python_quote_buf (sb src : list Z) : outcome (list Z) :=
  let! sb := python_quote_loop (sb ++ [39]) src in Ret (sb ++ [39]).

Definition tcl_char (c : Z) : list Z :=
  if existsb (Z.eqb c) [91; 93; 123; 125; 36; 92; 34] then [92] ++ [c]
  else if c =? 12 then [92; 102]
  else if c =? 13 then [92; 114]
  else if c =? 10 then [92; 110]
  else if c =? 9 then [92; 116]
  else if c =? 11 then [92; 118]
  else [c].
Fixpoint tcl_quote_loop (sb src : list Z) : outcome (list Z) :=
  match src with
  | [] => UB
  | c :: src => if c =? 0 then Ret sb else tcl_quote_loop (sb ++ tcl_char c) src
  end.
Definition tcl_quote_buf (sb src : list Z) : outcome (list Z) :=
  let! sb := tcl_quote_loop (sb ++ [34]) src in Ret (sb ++ [34]).

Fixpoint basic_regex_loop (sb src : list Z) : outcome (list Z) :=
  match src with
  | [] => UB
  | c :: src =>
      if c =? 0 then Ret sb
      else if existsb (Z.eqb c) [91; 46; 92; 42] then basic_regex_loop (sb ++ [92] ++ [c]) src
      else if c =? 36 then
        let! d := rd src 0 in
        basic_regex_loop ((if d =? 0 then sb ++ [92] else sb) ++ [c]) src
      else basic_regex_loop (sb ++ [c]) src
  end.
Definition basic_regex_quote_buf (sb src : list Z) : outcome (list Z) :=
  let! c := rd src 0 in
  let '(sb, src) := if c =? 94 then (sb ++ [92] ++ [c], zdrop 1 src) else (sb, src) in
  let! c := rd src 0 in
  let '(sb, src) := if c =? 42 then (sb ++ [c], zdrop 1 src) else (sb, src) in
  basic_regex_loop sb src.

(** ** Shell quoting is inverted by shell unquoting *)

(** The text between the outer quotes. *)
Definition sq_char (c : Z) : list Z := if need_bs_quote c then [39; 92; c; 39] else [c].
Definition sq_body (s : list Z) : list Z := concat (sq_char <$> s).
Definition sq_quoted (s : list Z) : list Z := 39 :: sq_body s ++ [39].

Lemma sq_body_app s t : sq_body (s ++ t) = sq_body s ++ sq_body t.
Proof. unfold sq_body. by rewrite fmap_app, concat_app. Qed.

(** [strcspn] splits the string before the first rejected byte. *)
Lemma strcspn_split s f rest : no_nul s → ∃ p q, s = p ++ q ∧
  strcspn (s ++ 0 :: rest) f = Ret (zlen p) ∧ Forall (λ c, f c = false) p ∧
  (∀ c q', q = c :: q' → f c = true).
Proof.
  induction 1 as [|c s Hc Hs IH]; [by exists [], []|]. cbn [app strcspn].
  rewrite (proj2 (Z.eqb_neq c 0)) by lia. cbn [orb]. destruct (f c) eqn:Hf.
  - exists [], (c :: s). split_and!; [done|done|done|]. by intros ? ? [= <- <-].
  - destruct IH as (p & q & -> & -> & Hp & Hq). exists (c :: p), q. cbn [obind].
    rewrite zlen_cons. split_and!; [done|f_equal; lia|by constructor|done].
Qed.

Lemma sq_body_plain p : Forall (λ c, need_bs_quote c = false) p → sq_body p = p.
Proof.
  induction 1 as [|c p Hc Hp IH]; [done|]. unfold sq_body, sq_char in *. cbn. by rewrite Hc, IH.
Qed.

Lemma sq_quote_inner_eq dst s rest : no_nul s → ∃ s1 s2, s = s1 ++ s2 ∧
  sq_quote_inner dst (s ++ 0 :: rest) = Ret (dst ++ sq_body s1, s2 ++ 0 :: rest) ∧
  (∀ c s', s = c :: s' → need_bs_quote c = true → s1 ≠ []).
Proof.
  intros Hs. revert dst. induction Hs as [|c s Hc Hs IH]; intros dst.
  - exists [], []. cbn. by rewrite app_nil_r.
  - cbn [app sq_quote_inner]. destruct (need_bs_quote c) eqn:Hn.
    + destruct (IH (dst ++ [39; 92; c; 39])) as (s1 & s2 & -> & -> & _).
      exists (c :: s1), s2. split_and!; [done| |done].
      unfold sq_body at 2, sq_char. cbn. rewrite Hn. by rewrite <- app_assoc.
    + exists [], (c :: s). cbn [app]. rewrite app_nil_r. split_and!; [done|done|]. intros ? ? [= <- <-]. congruence.
Qed.

Lemma sq_quote_loop_eq fuel dst s rest : no_nul s → (length s < fuel)%nat →
  sq_quote_loop fuel dst (s ++ 0 :: rest) = Ret (dst ++ sq_body s).
Proof.
  revert dst s. induction fuel as [|fuel IH]; intros dst s Hs Hf; [lia|]. cbn [sq_quote_loop].
  destruct s as [|c s].
  { cbn. by rewrite app_nil_r. }
  rewrite (rd_at _ [] c (s ++ 0 :: rest)) by done. cbn [obind].
  assert (0 < c < 256) by by inversion Hs. rewrite (proj2 (Z.eqb_neq c 0)) by lia.
  destruct (strcspn_split (c :: s) need_bs_quote rest Hs) as (p & q & Heq & -> & Hp & Hq).
  rewrite Heq in *. cbn [obind].
  rewrite (rd_range_at _ [] p (q ++ 0 :: rest)) by (done || by rewrite <- app_assoc). cbn [obind].
  rewrite <- (app_assoc p). rewrite zdrop_app_len.
  apply Forall_app in Hs as [Hsp Hsq].
  destruct (sq_quote_inner_eq (dst ++ p) q rest Hsq) as (s1 & s2 & -> & -> & Hprog). cbn [obind].
  rewrite IH.
  - by rewrite !sq_body_app, (sq_body_plain p Hp), !app_assoc.
  - by apply Forall_app in Hsq as [_ ?].
  - rewrite !length_app in *. destruct p as [|x p]; [|cbn in *; lia].
    cbn [app] in Heq. destruct s1 as [|x s1]; [|cbn in *; lia]. exfalso.
    cbn [app] in *. subst s2. by eapply Hprog; [done|eapply Hq|].
Qed.

Lemma sq_quote_buf_eq dst s rest : no_nul s →
  sq_quote_buf false dst (s ++ 0 :: rest) = Ret (dst ++ sq_quoted s).
Proof.
  intros Hs. unfold sq_quote_buf. rewrite sq_quote_loop_eq; [|done|rewrite length_app; cbn; lia].
  cbn [obind]. unfold sq_quoted. by rewrite <- !app_assoc.
Qed.

Lemma need_bs_range c : need_bs_quote c = true → c = 39 ∨ c = 33.
Proof. unfold need_bs_quote. intros [?%Z.eqb_eq|?%Z.eqb_eq]%orb_true_iff; auto. Qed.

(** The loop on one byte of a quoted string: [dn] is already in place, [j :: junk]
    is the gap between [dst] and [src]. *)
Lemma dequote_plain fuel dn j junk c rest next :
  c ≠ 0 → need_bs_quote c = false →
  sq_dequote_loop (S fuel) (dn ++ (j :: junk) ++ c :: rest) (zlen dn) (zlen dn + zlen (j :: junk) - 1) next =
  sq_dequote_loop fuel ((dn ++ [c]) ++ (junk ++ [c]) ++ rest) (zlen (dn ++ [c]))
    (zlen (dn ++ [c]) + zlen (junk ++ [c]) - 1) next.
Proof.
  intros Hc Hn. cbn [sq_dequote_loop]. rewrite zlen_cons.
  rewrite (rd_at _ (dn ++ j :: junk) c rest) by
    (by rewrite <- ?app_assoc || (rewrite zlen_app, zlen_cons; lia)).
  cbn [obind]. rewrite (proj2 (Z.eqb_neq c 0)) by lia.
  unfold need_bs_quote in Hn. apply orb_false_iff in Hn as [-> _]. cbn [negb].
  rewrite (wr_at _ dn j (junk ++ c :: rest)) by done. cbn [obind].
  rewrite <- !app_assoc, !zlen_app, !zlen_cons, zlen_nil. cbn [app]. f_equal; lia.
Qed.

Lemma dequote_escaped fuel dn j junk c rest next :
  need_bs_quote c = true →
  sq_dequote_loop (S fuel) (dn ++ (j :: junk) ++ 39 :: 92 :: c :: 39 :: rest) (zlen dn)
    (zlen dn + zlen (j :: junk) - 1) next =
  sq_dequote_loop fuel ((dn ++ [c]) ++ (junk ++ [39; 92; c; 39]) ++ rest) (zlen (dn ++ [c]))
    (zlen (dn ++ [c]) + zlen (junk ++ [39; 92; c; 39]) - 1) next.
Proof.
  intros Hn. cbn [sq_dequote_loop]. rewrite zlen_cons. set (mem := dn ++ _).
  assert (Hat : ∀ l x r i, l ++ x :: r = 39 :: 92 :: c :: 39 :: rest → i = zlen dn + 1 + zlen junk + zlen l →
    rd mem i = Ret x).
  { intros l x r i Hl ->. apply (rd_at _ (dn ++ (j :: junk) ++ l) x r).
    - unfold mem. by rewrite <- Hl, <- !app_assoc.
    - rewrite !zlen_app, zlen_cons. lia. }
  rewrite (Hat [] 39 (92 :: c :: 39 :: rest)) by (done || (rewrite zlen_nil; lia)). cbn [obind].
  change (39 =? 0) with false. change (negb (39 =? 39)) with false. cbn iota.
  rewrite (Hat [39] 92 (c :: 39 :: rest)) by (done || (rewrite zlen_cons, zlen_nil; lia)). cbn [obind].
  change (92 =? 0) with false. change (92 =? 92) with true. cbn iota.
  rewrite (Hat [39; 92] c (39 :: rest)) by (done || (rewrite !zlen_cons, zlen_nil; lia)). cbn [obind].
  rewrite Hn. rewrite (Hat [39; 92; c] 39 rest) by (done || (rewrite !zlen_cons, zlen_nil; lia)).
  cbn [obind]. change (39 =? 39) with true. cbn iota.
  rewrite (wr_at _ dn j (junk ++ 39 :: 92 :: c :: 39 :: rest)) by done. cbn [obind].
  rewrite <- !app_assoc, !zlen_app, !zlen_cons, zlen_nil. cbn [app]. f_equal; lia.
Qed.

Lemma dequote_close fuel dn j junk t rest next :
  t ≠ 92 → (t = 0 ∨ next = true) →
  sq_dequote_loop (S fuel) (dn ++ (j :: junk) ++ 39 :: t :: rest) (zlen dn) (zlen dn + zlen (j :: junk) - 1) next =
  Ret (dn ++ 0 :: (junk ++ [39]) ++ t :: rest,
       Some (if t =? 0 then None else Some (zlen dn + zlen junk + 2))).
Proof.
  intros Ht Htn. cbn [sq_dequote_loop]. rewrite zlen_cons.
  rewrite (rd_at _ (dn ++ j :: junk) 39 (t :: rest)) by
    (by rewrite <- ?app_assoc || (rewrite zlen_app, zlen_cons; lia)).
  cbn [obind]. change (39 =? 0) with false. change (negb (39 =? 39)) with false. cbn iota.
  rewrite (rd_at _ (dn ++ j :: junk ++ [39]) t rest).
  2:{ solve_app. }
  2:{ rewrite zlen_app, zlen_cons, zlen_app, zlen_cons, zlen_nil. lia. }
  cbn [obind]. rewrite (wr_at _ dn j (junk ++ 39 :: t :: rest)) by done. cbn [obind].
  rewrite <- app_assoc. destruct (Z.eqb_spec t 0) as [->|Hne]; [done|].
  destruct Htn as [?| ->]; [done|]. rewrite (proj2 (Z.eqb_neq t 92)) by done. cbn [negb].
  do 4 f_equal; lia.
Qed.

(** One pass over a quoted string; [t] is the byte after the closing quote. *)
Lemma sq_dequote_loop_eq s fuel dn gap t rest next :
  no_nul s → t ≠ 92 → (t = 0 ∨ next = true) → gap ≠ [] → (length s < fuel)%nat →
  ∃ junk', sq_dequote_loop fuel (dn ++ gap ++ sq_body s ++ 39 :: t :: rest) (zlen dn)
      (zlen dn + zlen gap - 1) next =
    Ret (dn ++ s ++ 0 :: junk' ++ t :: rest,
         Some (if t =? 0 then None else Some (zlen (dn ++ s ++ 0 :: junk')))).
Proof.
  intros Hs Ht Htn. revert fuel dn gap. induction Hs as [|c s Hc Hs IH]; intros fuel dn gap Hgap Hf;
    (destruct fuel as [|fuel]; [lia|]); (destruct gap as [|j junk]; [done|]).
  - exists (junk ++ [39]). change (sq_body []) with (@nil Z). cbn [app].
    pose proof (dequote_close fuel dn j junk t rest next Ht Htn) as Hstep.
    cbn [app] in Hstep. rewrite Hstep.
    assert (zlen (dn ++ 0 :: junk ++ [39]) = zlen dn + zlen junk + 2) as ->; [|done].
    rewrite zlen_app, zlen_cons, zlen_app. change (zlen [39]) with 1. lia.
  - cbn [length] in Hf. unfold sq_body. cbn [fmap list_fmap concat]. fold (sq_body s). unfold sq_char.
    destruct (need_bs_quote c) eqn:Hn; cbn [app].
    + destruct (IH fuel (dn ++ [c]) (junk ++ [39; 92; c; 39])) as (junk' & Heq); [by destruct junk|lia|].
      exists junk'. pose proof (dequote_escaped fuel dn j junk c (sq_body s ++ 39 :: t :: rest) next Hn) as Hstep.
      cbn [app] in Hstep. rewrite Hstep, Heq. by rewrite <- !app_assoc.
    + destruct (IH fuel (dn ++ [c]) (junk ++ [c])) as (junk' & Heq); [by destruct junk|lia|].
      exists junk'. pose proof (dequote_plain fuel dn j junk c (sq_body s ++ 39 :: t :: rest) next
        ltac:(lia) Hn) as Hstep.
      cbn [app] in Hstep. rewrite Hstep, Heq. by rewrite <- !app_assoc.
Qed.

Lemma sq_dequote_step_eq dn s t rest next :
  no_nul s → t ≠ 92 → (t = 0 ∨ next = true) →
  ∃ junk', sq_dequote_step (dn ++ sq_quoted s ++ t :: rest) (zlen dn) next =
    Ret (dn ++ s ++ 0 :: junk' ++ t :: rest,
         Some (if t =? 0 then None else Some (zlen (dn ++ s ++ 0 :: junk')))).
Proof.
  intros Hs Ht Htn. unfold sq_dequote_step, sq_quoted.
  rewrite (rd_at _ dn 39 (sq_body s ++ [39] ++ t :: rest)) by (done || solve_app).
  cbn [obind]. change (negb (39 =? 39)) with false. cbn iota.
  destruct (sq_dequote_loop_eq s (S (length (dn ++ (39 :: sq_body s ++ [39]) ++ t :: rest))) dn [39] t rest next)
    as (junk' & Heq); [done|done|done|done| |].
  - rewrite !length_app. cbn [length]. rewrite !length_app.
    assert (length s <= length (sq_body s))%nat; [|lia].
    clear. induction s as [|c s IH]; [done|]. unfold sq_body in *. cbn. rewrite length_app.
    unfold sq_char at 1. destruct (need_bs_quote c); cbn; lia.
  - exists junk'. rewrite <- Heq. change (zlen [39]) with 1. f_equal; [solve_app|lia].
Qed.

(** The quoted arguments after the first, each with a space in front. *)
Definition sq_args (l : list (list Z)) : list Z := concat ((λ a, 32 :: sq_quoted a) <$> l).

Lemma sq_quote_argv_eq dst l : Forall no_nul l →
  sq_quote_argv dst ((λ a, a ++ [0]) <$> l) = Ret (dst ++ sq_args l).
Proof.
  intros Hl. revert dst. induction Hl as [|a l Ha Hl IH]; intros dst; cbn [fmap list_fmap sq_quote_argv].
  - by rewrite app_nil_r.
  - rewrite (sq_quote_buf_eq (dst ++ [32]) a []) by done. cbn [obind]. rewrite IH.
    unfold sq_args. cbn [fmap list_fmap concat]. f_equal. solve_app.
Qed.

Lemma cstr_zdrop dn s m : no_nul s → cstr (zdrop (zlen dn) (dn ++ s ++ 0 :: m)) = Ret s.
Proof. intros Hs. rewrite zdrop_app_len. by apply cstr_eq. Qed.

Lemma skip_one_space fuel mem p q c rest : mem = p ++ q :: c :: rest → isspace c = false → (0 < fuel)%nat →
  skip_space fuel mem (zlen p) = Ret (zlen p + 1).
Proof.
  intros -> Hc Hf. destruct fuel; [lia|]. cbn [skip_space].
  rewrite (rd_at _ (p ++ [q]) c rest) by (solve_app || (rewrite zlen_app; done)). cbn [obind].
  by rewrite Hc.
Qed.

Definition opt_app {B} (o : option (list B)) (l : list B) : option (list B) :=
  match o with None => None | Some x => Some (x ++ l) end.

(** The whole argument vector, dequoted in place: the pointers collected in
    [argv] point at the strings in the final memory, [array] holds copies. *)
Lemma dequote_argv_loop_eq l a fuel dn argv array :
  no_nul a → Forall no_nul l → (length l < fuel)%nat →
  ∃ m ptrs, sq_dequote_argv_loop fuel (dn ++ sq_quoted a ++ sq_args l ++ [0]) (zlen dn) argv array =
      Ret (dn ++ m, 0, opt_app argv ptrs, opt_app array (a :: l)) ∧
    Forall2 (λ p s, zlen dn <= p ∧ cstr (zdrop p (dn ++ m)) = Ret s) ptrs (a :: l).
Proof.
  intros Ha Hl. revert a fuel dn argv array Ha. induction Hl as [|b l Hb Hl IH];
    intros a fuel dn argv array Ha Hf; (destruct fuel as [|fuel]; [lia|]); cbn [sq_dequote_argv_loop].
  - destruct (sq_dequote_step_eq dn a 0 [] true Ha) as (junk & Hstep); [done|by left|].
    change (sq_args [] ++ [0]) with [0]. rewrite Hstep. cbn [obind Z.eqb].
    exists (a ++ 0 :: junk ++ [0]), [zlen dn]. rewrite cstr_zdrop by done. split; [by destruct array|].
    constructor; [|constructor]. split; [done|]. by rewrite cstr_zdrop.
  - destruct (sq_dequote_step_eq dn a 32 (sq_quoted b ++ sq_args l ++ [0]) true Ha) as (junk & Hstep);
      [done|by right|].
    assert (Hmem : dn ++ sq_quoted a ++ sq_args (b :: l) ++ [0] =
      dn ++ sq_quoted a ++ 32 :: sq_quoted b ++ sq_args l ++ [0]).
    { unfold sq_args. cbn [fmap list_fmap concat]. solve_app. }
    rewrite Hmem, Hstep. cbn [obind Z.eqb]. set (mem := dn ++ a ++ _) in *.
    set (p := dn ++ a ++ 0 :: junk) in *.
    assert (Hp : mem = p ++ 32 :: sq_quoted b ++ sq_args l ++ [0]) by (unfold mem, p; solve_app).
    rewrite (rd_at mem p 32 (sq_quoted b ++ sq_args l ++ [0])) by done. cbn [obind].
    change (negb (isspace 32)) with false. cbn iota.
    rewrite (skip_one_space _ mem p 32 39 (sq_body b ++ [39] ++ sq_args l ++ [0])); [|rewrite Hp; unfold sq_quoted; solve_app|done|lia].
    cbn [obind]. unfold mem at 1. rewrite cstr_zdrop by done.
    destruct (IH b fuel (p ++ [32]) (opt_app argv [zlen dn]) (opt_app array [a])) as (m & ptrs & Heq & Hptrs);
      [done|cbn in Hf; lia|].
    assert (Hp' : mem = (p ++ [32]) ++ sq_quoted b ++ sq_args l ++ [0]) by (rewrite Hp; solve_app).
    exists (a ++ 0 :: junk ++ 32 :: m), (zlen dn :: ptrs). cbn [obind].
    rewrite Hp'. replace (zlen p + 1) with (zlen (p ++ [32])) by (rewrite zlen_app; done).
    assert (Hm : dn ++ a ++ 0 :: junk ++ 32 :: m = (p ++ [32]) ++ m) by (unfold p; solve_app).
    split.
    + rewrite Hm. destruct argv, array; cbn [opt_app obind] in *; rewrite Heq; solve_app.
    + rewrite <- Hm in Hptrs. constructor; [split; [done|by rewrite cstr_zdrop]|].
      eapply Forall2_impl; [done|]. intros q s [Hq Hs]. split; [|done].
      revert Hq. unfold p. rewrite !zlen_app. pose proof (zlen_nonneg a). pose proof (zlen_nonneg (0 :: junk)).
      change (zlen [32]) with 1. lia.
Qed.

(** ** C-style quoting is inverted by C-style unquoting *)
Section c_style_proofs.
Context (fully : Z) (Hfully : fully = 0 ∨ fully = 1).

Definition must (c : Z) : bool := 0 <? default 0 (znth cq_lookup c) + fully.

(** The text emitted for one byte. *)
Definition cq_escape (c : Z) : list Z :=
  let v := default 0 (znth cq_lookup c) in
  if 32 <=? v then [v]
  else [Z.land (Z.shiftr c 6) 3 + 48; Z.land (Z.shiftr c 3) 7 + 48; Z.land c 7 + 48].
Definition cq_char (c : Z) : list Z := if must c then 92 :: cq_escape c else [c].
Definition cq_body (s : list Z) : list Z := concat (cq_char <$> s).

Lemma cq_lookup_rd c : byte_ok c → rd cq_lookup c = Ret (default 0 (znth cq_lookup c)).
Proof.
  intros Hc. destruct (znth_is_Some cq_lookup c) as [v Hv]; [exact Hc|].
  by rewrite (rd_znth _ _ _ Hv), Hv.
Qed.
Lemma cq_must_quote_eq c : byte_ok c → cq_must_quote fully c = Ret (must c).
Proof.
  intros Hc. unfold cq_must_quote. replace (u8 c) with c by (symmetry; by apply Z.mod_small).
  by rewrite cq_lookup_rd.
Qed.
Lemma must_0 : must 0 = true.
Proof using Hfully. unfold must. destruct Hfully as [-> | ->]; done. Qed.

Lemma cq_body_plain p : Forall (λ c, must c = false) p → cq_body p = p.
Proof.
  induction 1 as [|c p Hc Hp IH]; [done|]. unfold cq_body, cq_char in *. cbn [fmap list_fmap concat].
  by rewrite Hc, IH.
Qed.
Lemma cq_body_app s t : cq_body (s ++ t) = cq_body s ++ cq_body t.
Proof. unfold cq_body. by rewrite fmap_app, concat_app. Qed.

(** What the two forms of [next_quote_pos] have in common: the input [s] that is
    left, and the position of the first byte of it that needs quoting. *)
Definition remaining (name : list Z) (p maxlen : Z) (s : list Z) : Prop :=
  bytes_ok s ∧ 0 <= p <= zlen name ∧
  (maxlen < 0 ∧ no_nul s ∧ (∃ rest, zdrop p name = s ++ 0 :: rest) ∨
   maxlen = zlen s ∧ ∃ rest, zdrop p name = s ++ rest).

Lemma next_quote_pos_nul_eq s rest : no_nul s → ∃ a b, s = a ++ b ∧
  next_quote_pos_nul fully (s ++ 0 :: rest) = Ret (zlen a) ∧ Forall (λ c, must c = false) a ∧
  (∀ c b', b = c :: b' → must c = true).
Proof using Hfully.
  induction 1 as [|c s Hc Hs IH]; cbn [app next_quote_pos_nul].
  - exists [], []. rewrite cq_must_quote_eq, must_0 by (unfold byte_ok; lia). by split_and!.
  - rewrite cq_must_quote_eq by (unfold byte_ok; lia). cbn [obind]. destruct (must c) eqn:Hm.
    + exists [], (c :: s). split_and!; [done..|]. by intros ? ? [= <- <-].
    + destruct IH as (a & b & -> & -> & Ha & Hb). exists (c :: a), b. cbn [obind].
      rewrite zlen_cons. split_and!; [done|f_equal; lia|by constructor|done].
Qed.

Lemma next_quote_pos_max_eq s rest : bytes_ok s → ∃ a b, s = a ++ b ∧
  next_quote_pos_max fully (length s) (s ++ rest) = Ret (zlen a) ∧ Forall (λ c, must c = false) a ∧
  (∀ c b', b = c :: b' → must c = true).
Proof.
  induction 1 as [|c s Hc Hs IH]; cbn [app length next_quote_pos_max]; [by exists [], []|].
  rewrite cq_must_quote_eq by done. cbn [obind]. destruct (must c) eqn:Hm.
  - exists [], (c :: s). split_and!; [done..|]. by intros ? ? [= <- <-].
  - destruct IH as (a & b & -> & -> & Ha & Hb). exists (c :: a), b. cbn [obind].
    rewrite zlen_cons. split_and!; [done|f_equal; lia|by constructor|done].
Qed.

(** One round of the [for (;;)] loop. *)
Lemma next_round name p maxlen s : remaining name p maxlen s →
  ∃ a b, s = a ++ b ∧ next_quote_pos fully (zdrop p name) maxlen = Ret (zlen a) ∧
    Forall (λ c, must c = false) a ∧ (∀ c b', b = c :: b' → must c = true) ∧
    (if maxlen <? 0 then let! c := rd name (p + zlen a) in Ret (c =? 0)
     else Ret (zlen a =? maxlen)) = Ret (match b with [] => true | _ => false end) ∧
    rd_range name p (zlen a) = Ret a ∧
    (∀ c b', b = c :: b' → byte_ok c ∧ rd name (p + zlen a) = Ret c ∧
       remaining name (p + zlen a + 1) (if 0 <=? maxlen then maxlen - (zlen a + 1) else maxlen) b').
Proof using Hfully.
  intros (Hok & Hp & Hs). unfold next_quote_pos.
  assert (Hpre : zlen (ztake p name) = p) by (apply zlen_ztake; lia).
  assert (Hn : name = ztake p name ++ zdrop p name) by by rewrite ztake_zdrop.
  set (pre := ztake p name) in *. clearbody pre.
  assert (Hnext : ∀ a c b x, zdrop p name = (a ++ c :: b) ++ x →
    0 <= p + zlen a + 1 <= zlen name ∧ zdrop (p + zlen a + 1) name = b ++ x).
  { intros a c b x Hd. pose proof (zlen_nonneg a). pose proof (zlen_nonneg (b ++ x)). rewrite Hn, Hd.
    assert (Hz : p + zlen a + 1 = zlen (pre ++ a ++ [c])).
    { rewrite !zlen_app. change (zlen [c]) with 1. lia. }
    assert (Hl : pre ++ (a ++ c :: b) ++ x = (pre ++ a ++ [c]) ++ b ++ x) by solve_app.
    rewrite Hl, Hz, zdrop_app_len. split; [|done]. rewrite (zlen_app (pre ++ _)). lia. }
  destruct Hs as [(Hneg & Hno & rest & Hd)|(-> & rest & Hd)]; rewrite Hd in *.
  - eval_ltb maxlen 0. destruct (next_quote_pos_nul_eq s rest Hno) as (a & b & -> & Hpos & Ha & Hb).
    exists a, b.
    assert (Hrd : rd name (p + zlen a) = Ret (match b with [] => 0 | c :: _ => c end)).
    { destruct b as [|c b]; eapply (rd_at _ (pre ++ a)); rewrite ?zlen_app, ?Hpre; try done;
        rewrite Hn; solve_app. }
    split_and!; [done|done|done|done| | |].
    + rewrite Hrd. cbn [obind]. destruct b as [|c b]; [done|]. apply Forall_app in Hno as [_ Hno].
      inversion_clear Hno. by rewrite (proj2 (Z.eqb_neq c 0)) by lia.
    + eapply (rd_range_at _ pre a); [rewrite Hn; solve_app|done|done].
    + intros c b' ->. apply Forall_app in Hok as [_ Hok]. inversion_clear Hok as [|? ? Hc Hok'].
      apply Forall_app in Hno as [_ Hno]. inversion_clear Hno.
      destruct (Hnext a c b' (0 :: rest) eq_refl) as [Hrange Hdrop].
      split; [done|]. split; [done|]. rewrite (proj2 (Z.leb_gt 0 maxlen)) by lia.
      split; [done|]. split; [done|]. left. eauto.
  - pose proof (zlen_nonneg s). rewrite (proj2 (Z.ltb_ge (zlen s) 0)) by lia.
    assert (Z.to_nat (zlen s) = length s) as -> by (unfold zlen; lia).
    destruct (next_quote_pos_max_eq s rest Hok) as (a & b & -> & Hpos & Ha & Hb).
    exists a, b. split_and!; [done|done|done|done| | |].
    + rewrite zlen_app. destruct b as [|c b].
      * rewrite zlen_nil, Z.add_0_r. by rewrite Z.eqb_refl.
      * rewrite zlen_cons. pose proof (zlen_nonneg b). by rewrite (proj2 (Z.eqb_neq _ _)) by lia.
    + eapply (rd_range_at _ pre a (b ++ rest)); [rewrite Hn; solve_app|done|done].
    + intros c b' ->. apply Forall_app in Hok as [_ Hok]. inversion_clear Hok as [|? ? Hc Hok'].
      destruct (Hnext a c b' rest eq_refl) as [Hrange Hdrop]. split; [done|]. split.
      * eapply (rd_at _ (pre ++ a) c (b' ++ rest)); [rewrite Hn; solve_app|by rewrite zlen_app, Hpre].
      * rewrite zlen_app, zlen_cons in *. eval_leb 0 (zlen a + (1 + zlen b')).
        split; [done|]. split; [done|]. right. split; [lia|]. eauto.
Qed.

Lemma cq_escape_app out c : must c = true →
  (if 32 <=? default 0 (znth cq_lookup c) then out ++ [default 0 (znth cq_lookup c)]
   else out ++ [Z.land (Z.shiftr c 6) 3 + 48] ++ [Z.land (Z.shiftr c 3) 7 + 48] ++ [Z.land c 7 + 48]) =
  out ++ cq_escape c.
Proof. intros _. unfold cq_escape. by destruct (32 <=? _). Qed.

Lemma cq_body_round a c b : Forall (λ c, must c = false) a → must c = true →
  cq_body (a ++ c :: b) = a ++ [92] ++ cq_escape c ++ cq_body b.
Proof.
  intros Ha Hc. rewrite cq_body_app, (cq_body_plain a Ha). unfold cq_body at 1. cbn [fmap list_fmap concat].
  unfold cq_char at 1. by rewrite Hc.
Qed.

(** After the first quoted byte the loop only appends. *)
Lemma quote_c_loop_pos fuel name p maxlen no_dq out s :
  remaining name p maxlen s → 0 < p → (length s < fuel)%nat →
  ∃ p', quote_c_loop fully fuel name p maxlen no_dq out = Ret (out ++ cq_body s, p') ∧ 0 < p'.
Proof using Hfully.
  revert p maxlen out s. induction fuel as [|fuel IH]; intros p maxlen out s Hs Hp Hf; [lia|].
  cbn [quote_c_loop]. destruct (next_round _ _ _ _ Hs) as (a & b & -> & -> & Ha & Hb & Hstop & Hchunk & Hnext).
  cbn [obind]. rewrite Hstop. cbn [obind]. rewrite Hchunk. cbn [obind]. destruct b as [|c b].
  - exists p. by rewrite app_nil_r, (cq_body_plain a Ha).
  - destruct (Hnext c b eq_refl) as (Hc & Hrd & Hrem). rewrite Hrd. cbn [obind].
    rewrite (cq_lookup_rd c Hc). cbn [obind]. rewrite (proj2 (Z.eqb_neq p 0)), andb_false_r by lia.
    rewrite (cq_escape_app _ c (Hb c b eq_refl)).
    destruct (IH _ _ ((out ++ a ++ [92]) ++ cq_escape c) b Hrem) as (p' & -> & Hp').
    + pose proof (zlen_nonneg a). lia.
    + rewrite length_app in Hf. cbn [length] in Hf. lia.
    + exists p'. split; [|done]. rewrite (cq_body_round a c b Ha (Hb c b eq_refl)). do 2 f_equal. solve_app.
Qed.

Lemma quote_c_loop_first fuel name maxlen no_dq s :
  remaining name 0 maxlen s → (length s < fuel)%nat →
  if existsb must s then
    ∃ p', quote_c_loop fully fuel name 0 maxlen no_dq [] =
      Ret ((if no_dq then [] else [34]) ++ cq_body s, p') ∧ 0 < p'
  else quote_c_loop fully fuel name 0 maxlen no_dq [] = Ret (s, 0).
Proof using Hfully.
  intros Hs Hf. destruct fuel as [|fuel]; [lia|]. cbn [quote_c_loop].
  destruct (next_round _ _ _ _ Hs) as (a & b & -> & -> & Ha & Hb & Hstop & Hchunk & Hnext).
  assert (Hno : existsb must a = false).
  { clear -Ha. induction Ha as [|c a Hc Ha IH]; [done|]. cbn. by rewrite Hc. }
  rewrite existsb_app, Hno. cbn [obind orb]. rewrite Hstop. cbn [obind]. rewrite Hchunk. cbn [obind].
  destruct b as [|c b].
  - cbn. by rewrite app_nil_r.
  - cbn [existsb]. rewrite (Hb c b eq_refl). cbn [orb].
    destruct (Hnext c b eq_refl) as (Hc & Hrd & Hrem). rewrite Hrd. cbn [obind].
    rewrite (cq_lookup_rd c Hc). cbn [obind]. change (0 =? 0) with true. rewrite andb_true_r.
    rewrite (cq_escape_app _ c (Hb c b eq_refl)).
    match goal with |- context [quote_c_loop _ _ _ _ _ _ ?o] =>
      destruct (quote_c_loop_pos fuel name _ _ no_dq o b Hrem) as (p' & -> & Hp') end.
    + pose proof (zlen_nonneg a). lia.
    + rewrite length_app in Hf. cbn [length] in Hf. lia.
    + exists p'. split; [|done]. rewrite (cq_body_round a c b Ha (Hb c b eq_refl)). do 2 f_equal.
      destruct no_dq; solve_app.
Qed.

Lemma quote_c_style_counted_eq name maxlen flags s :
  remaining name 0 maxlen s → (length s <= length name)%nat →
  let no_dq := negb (Z.land flags CQUOTE_NODQ =? 0) in
  let dq := if no_dq then [] else [34] in
  quote_c_style_counted fully name maxlen flags =
    Ret (if existsb must s then (dq ++ cq_body s ++ dq, zlen (dq ++ cq_body s ++ dq)) else (s, 0)).
Proof using Hfully.
  intros Hs Hlen no_dq dq. unfold quote_c_style_counted. fold no_dq.
  pose proof (quote_c_loop_first (S (length name)) name maxlen no_dq s Hs ltac:(lia)) as Hq.
  destruct (existsb must s).
  - destruct Hq as (p' & -> & Hp). cbn [obind]. rewrite (proj2 (Z.eqb_neq p' 0)) by lia.
    unfold dq. destruct no_dq; cbn [negb]; [by rewrite app_nil_r|]. by rewrite <- app_assoc.
  - rewrite Hq. done.
Qed.

(** The two ways the code passes a name. *)
Lemma remaining_nul s rest : no_nul s → remaining (s ++ 0 :: rest) 0 (-1) s.
Proof.
  intros Hs. split_and!; [|lia|apply zlen_nonneg|].
  - eapply Forall_impl; [done|]. cbn. unfold byte_ok. lia.
  - left. split_and!; [lia|done|by exists rest].
Qed.
Lemma remaining_len s rest : bytes_ok s → remaining (s ++ rest) 0 (zlen s) s.
Proof. intros Hs. split_and!; [done|lia|apply zlen_nonneg|]. right. split; [done|by exists rest]. Qed.

End c_style_proofs.

(** ** Unquoting *)
Lemma unescape_app l rest ch l' :
  unescape l = Ret (Some (ch, l')) → unescape (l ++ rest) = Ret (Some (ch, l' ++ rest)).
Proof.
  destruct l as [|c l]; [done|]. cbn [app unescape].
  do 8 (match goal with |- context [if ?b then _ else _] => destruct b; [by intros [= <- <-]|] end).
  destruct ((48 <=? c) && (c <=? 51)); [|done].
  destruct l as [|c1 l]; [done|]. cbn [app]. destruct ((c1 <? 48) || (55 <? c1)); [done|].
  destruct l as [|c2 l]; [done|]. cbn [app]. destruct ((c2 <? 48) || (55 <? c2)); [done|].
  by intros [= <- <-].
Qed.

Lemma unescape_escape c rest : byte_ok c → unescape (cq_escape c ++ rest) = Ret (Some (c, rest)).
Proof.
  intros Hc. apply (unescape_app _ rest c []).
  assert (match unescape (cq_escape c) with Ret (Some (x, [])) => x =? c | _ => false end = true) as Hx
    by solve_byte c Hc.
  destruct (unescape (cq_escape c)) as [[[x [|]]|]| | |]; try done. by apply Z.eqb_eq in Hx as ->.
Qed.

Lemma strcspn_stop a x r f :
  Forall (λ c, c ≠ 0 ∧ f c = false) a → f x = true → strcspn (a ++ x :: r) f = Ret (zlen a).
Proof.
  intros Ha Hx. induction Ha as [|c a [Hc Hf] Ha IH]; cbn [app strcspn].
  - by rewrite Hx, orb_true_r.
  - rewrite (proj2 (Z.eqb_neq c 0)), Hf, IH by done. cbn [orb obind]. rewrite zlen_cons. f_equal. lia.
Qed.

Lemma must_split fully s : ∃ a b, s = a ++ b ∧ Forall (λ c, must fully c = false) a ∧
  (∀ c b', b = c :: b' → must fully c = true).
Proof.
  induction s as [|c s IH]; [by exists [], []|]. destruct (must fully c) eqn:Hm.
  - exists [], (c :: s). split_and!; [done..|]. by intros ? ? [= <- <-].
  - destruct IH as (a & b & -> & Ha & Hb). exists (c :: a), b. split_and!; [done|by constructor|done].
Qed.

Lemma not_must fully c : fully = 0 ∨ fully = 1 → byte_ok c → must fully c = false →
  c ≠ 0 ∧ (c =? 34) || (c =? 92) = false.
Proof.
  intros Hf Hc Hm. assert (must fully 0 = true) by by apply must_0.
  assert (must fully 34 = true) by (by destruct Hf as [-> | ->]).
  assert (must fully 92 = true) by (by destruct Hf as [-> | ->]).
  split; [congruence|]. apply orb_false_iff. rewrite !Z.eqb_neq. split; congruence.
Qed.

(** Between the double quotes, unquoting inverts quoting. *)
Lemma unquote_loop_eq fully fuel sb s rest :
  fully = 0 ∨ fully = 1 → bytes_ok s → (length s < fuel)%nat →
  unquote_loop fuel sb (cq_body fully s ++ 34 :: rest) = Ret (Some (sb ++ s, rest)).
Proof.
  intros Hfully. revert sb s. induction fuel as [|fuel IH]; intros sb s Hs Hf; [lia|].
  cbn [unquote_loop]. destruct (must_split fully s) as (a & b & -> & Ha & Hb).
  apply Forall_app in Hs as [Hsa Hsb].
  assert (Ha' : Forall (λ c, c ≠ 0 ∧ (c =? 34) || (c =? 92) = false) a).
  { rewrite Forall_forall in *. intros c Hc. eapply not_must; eauto. }
  destruct b as [|c b].
  - rewrite app_nil_r, (cq_body_plain fully a Ha).
    rewrite (strcspn_stop a 34 rest) by done. cbn [obind].
    rewrite (rd_range_at _ [] a (34 :: rest)) by done. cbn [obind]. by rewrite zdrop_app_len.
  - assert (Hc := Hb c b eq_refl). rewrite (cq_body_round fully a c b Ha Hc).
    set (tl := cq_escape c ++ cq_body fully b ++ 34 :: rest).
    assert (Heq : (a ++ [92] ++ cq_escape c ++ cq_body fully b) ++ 34 :: rest = a ++ 92 :: tl)
      by (unfold tl; solve_app).
    rewrite Heq. rewrite (strcspn_stop a 92 tl) by done. cbn [obind].
    rewrite (rd_range_at _ [] a (92 :: tl)) by done. cbn [obind]. rewrite zdrop_app_len.
    change (92 =? 34) with false. change (92 =? 92) with true. cbn iota.
    inversion_clear Hsb as [|? ? Hcb Hsb']. unfold tl. rewrite unescape_escape by done. cbn [obind].
    rewrite IH by (done || (rewrite length_app in Hf; cbn [length] in Hf; lia)).
    replace (u8 c) with c by (symmetry; by apply Z.mod_small). do 3 f_equal. solve_app.
Qed.


End Quote.
