(* ===== verification/TextTheorems.v ===== *)
(** * What the text encodings promise their callers

    Hexadecimal object names, base-85 and the two quoting styles, with concrete
    instances. *)
From stdpp Require Import prelude.
From S2P Require Import Prelude Hex Base85 Ctype Quote.
Import Ctype Quote.

Module TextTheorems.

(** Object names survive printing and parsing: [oid_to_hex_r] writes a
    NUL-terminated string of the length of the algorithm, and
    [parse_oid_hex_algop] on that string, whatever follows it, returns the same
    object id and points right behind the name. *)
Theorem oid_hex_roundtrip the_hash_algo oid :
  Hex.oid_ok oid → ∃ s, Hex.oid_to_hex_r the_hash_algo oid = Ret (s ++ [0]) ∧
    zlen s = Hex.hexsz (Hex.algo oid) ∧
    ∀ tail, Hex.parse_oid_hex_algop (s ++ tail) (Hex.algo oid) = Ret (Some (oid, zlen s)).
Proof.
  intros Hok. destruct (Hex.oid_hex_roundtrip_wp the_hash_algo oid Hok) as (s & H1 & H2 & _ & H3). eauto.
Qed.

Lemma oid_hex_roundtrip_witness :
  ∃ s, Hex.oid_to_hex_r 1 (Hex.Object_id (zrep 20 0xab ++ zrep 12 0) 1) = Ret (s ++ [0]) ∧
    zlen s = 40 ∧
    ∀ tail, Hex.parse_oid_hex_algop (s ++ tail) 1 =
      Ret (Some (Hex.Object_id (zrep 20 0xab ++ zrep 12 0) 1, zlen s)).
Proof.
  apply (oid_hex_roundtrip 1 (Hex.Object_id (zrep 20 0xab ++ zrep 12 0) 1)).
  split; [by left|]. split; [apply bytes_ok_dec; reflexivity|]. split; reflexivity.
Defined.

(** Parsing an object name never reads past the NUL that ends the string,
    however short or malformed it is, and yields exactly the requested bytes or
    an error. *)
Theorem get_hash_hex_memory_safe n s :
  bytes_ok s →
  returns (Hex.get_hash_hex_algop n (s ++ [0])) (λ r,
    match r with Some h => zlen h = Z.of_nat n ∧ bytes_ok h | None => True end).
Proof. apply Hex.get_hash_hex_safe. Qed.

Lemma get_hash_hex_memory_safe_witness :
  returns (Hex.get_hash_hex_algop 20 ([97; 98; 99] ++ [0])) (λ r,
    match r with Some h => zlen h = Z.of_nat 20 ∧ bytes_ok h | None => True end).
Proof. apply get_hash_hex_memory_safe. apply bytes_ok_dec. reflexivity. Defined.

(** Base-85 round trip: encoding bytes takes five characters per started
    group of four, and decoding that many bytes from the text, whatever follows
    it, gives the bytes back. *)
Theorem base85_roundtrip data :
  bytes_ok data →
  ∃ s, Base85.encode_85 (S (length data)) data = Ret s ∧ zlen s = 5 * ((zlen data + 3) / 4) ∧
    ∀ rest, Base85.decode_85 (S (length data)) (s ++ rest) (zlen data) = Ret (Some data).
Proof. intros Hd. apply Base85.encode_decode; [done|lia]. Qed.

Lemma base85_roundtrip_witness :
  ∃ s, Base85.encode_85 7 [0; 255; 17; 4; 5; 6] = Ret s ∧ zlen s = 5 * ((6 + 3) / 4) ∧
    ∀ rest, Base85.decode_85 7 (s ++ rest) 6 = Ret (Some [0; 255; 17; 4; 5; 6]).
Proof. apply (base85_roundtrip [0; 255; 17; 4; 5; 6]). apply bytes_ok_dec. reflexivity. Defined.

(** C28. Shell quoting of an argument vector is inverted by the in-place parser:
    [sq_dequote_to_argv] on what [sq_quote_argv] wrote (after its leading space)
    succeeds, and in the memory it leaves behind the pointers it collected are
    those of the original arguments, in order; [sq_dequote_to_strvec] collects
    copies of them.  Every write lands behind the byte read last. *)
Theorem sq_argv_roundtrip a l :
  no_nul a → Forall no_nul l →
  ∃ q, sq_quote_argv [] ((λ a, a ++ [0]) <$> (a :: l)) = Ret (32 :: q) ∧
    (∃ mem ptrs, sq_dequote_to_argv (q ++ [0]) 0 [] = Ret (mem, 0, Some ptrs, None) ∧
       Forall2 (λ p s, 0 <= p ∧ cstr (zdrop p mem) = Ret s) ptrs (a :: l)) ∧
    ∃ mem, sq_dequote_to_strvec (q ++ [0]) 0 [] = Ret (mem, 0, None, Some (a :: l)).
Proof.
  intros Ha Hl. exists (sq_quoted a ++ sq_args l). rewrite sq_quote_argv_eq by by constructor.
  split; [done|]. set (m0 := (sq_quoted a ++ sq_args l) ++ [0]).
  assert (Hm0 : m0 = [] ++ sq_quoted a ++ sq_args l ++ [0]) by (unfold m0; solve_app).
  assert (Hlen : (length l < S (length m0))%nat).
  { unfold m0. rewrite !length_app. assert (length l <= length (sq_args l))%nat; [|lia].
    clear. induction l as [|b l IH]; [done|]. unfold sq_args in *. cbn. rewrite length_app. lia. }
  unfold sq_dequote_to_argv, sq_dequote_to_strvec, sq_dequote_to_argv_internal.
  assert (Hrd : rd m0 0 = Ret 39) by done. rewrite Hrd. cbn [obind]. change (39 =? 0) with false. cbn iota.
  split.
  - destruct (dequote_argv_loop_eq l a (S (length m0)) [] (Some []) None Ha Hl Hlen) as (m & ptrs & Heq & Hp).
    rewrite <- Hm0 in Heq. change (zlen []) with 0 in *. exists m, ptrs. split; [exact Heq|]. done.
  - destruct (dequote_argv_loop_eq l a (S (length m0)) [] None (Some []) Ha Hl Hlen) as (m & ptrs & Heq & Hp).
    rewrite <- Hm0 in Heq. change (zlen []) with 0 in *. exists m. exact Heq.
Qed.

Lemma sq_argv_roundtrip_witness :
  ∃ q, sq_quote_argv [] ((λ a, a ++ [0]) <$> [[97; 39; 33; 98]; []; [32; 92]]) = Ret (32 :: q) ∧
    (∃ mem ptrs, sq_dequote_to_argv (q ++ [0]) 0 [] = Ret (mem, 0, Some ptrs, None) ∧
       Forall2 (λ p s, 0 <= p ∧ cstr (zdrop p mem) = Ret s) ptrs [[97; 39; 33; 98]; []; [32; 92]]) ∧
    ∃ mem, sq_dequote_to_strvec (q ++ [0]) 0 [] = Ret (mem, 0, None, Some [[97; 39; 33; 98]; []; [32; 92]]).
Proof. apply sq_argv_roundtrip; repeat constructor; vm_compute; congruence. Defined.

(** C29. C-style quoting is inverted by unquoting: for a name without NUL,
    [quote_c_style] either emits it unchanged and returns 0, and then it contains
    no byte that needs quoting, or emits a quoted form, returns its length, and
    [unquote_c_style] on it (whatever follows) appends the name, returns 0 and
    points right behind the closing quote.  [fully] is core.quotePath. *)
Theorem c_style_roundtrip fully name rest :
  fully = 0 ∨ fully = 1 → no_nul name →
  ∃ out n, quote_c_style fully (name ++ 0 :: rest) 0 = Ret (out, n) ∧
    (n = 0 ∧ out = name ∧ Forall (λ c, must fully c = false) name ∨
     0 < n ∧ n = zlen out ∧
       ∀ sb tail, unquote_c_style sb (out ++ tail) = Ret (sb ++ name, 0, Some tail)).
Proof.
  intros Hf Hn. unfold quote_c_style.
  rewrite (quote_c_style_counted_eq fully Hf _ (-1) 0 name) by
    (by apply remaining_nul || (rewrite length_app; lia)).
  change (negb (Z.land 0 CQUOTE_NODQ =? 0)) with false. cbn iota.
  destruct (existsb (must fully) name) eqn:He.
  - eexists _, _. split; [done|]. right. cbn [app].
    split; [rewrite zlen_cons; pose proof (zlen_nonneg (cq_body fully name ++ [34])); lia|].
    split; [done|]. intros sb tail. cbn [app unquote_c_style]. change (negb (34 =? 34)) with false. cbn iota.
    rewrite <- app_assoc. cbn [app]. rewrite unquote_loop_eq; [done|done| |].
    + eapply Forall_impl; [done|]. cbn. unfold byte_ok. lia.
    + cbn [length]. rewrite length_app. assert (length name <= length (cq_body fully name))%nat; [|lia].
      clear. induction name as [|c s IH]; [done|]. unfold cq_body in *. cbn. rewrite length_app.
      unfold cq_char at 1. destruct (must fully c); cbn; lia.
  - eexists _, _. split; [done|]. left. split_and!; [done|done|].
    clear -He. induction name as [|c s IH]; [constructor|]. cbn in He.
    apply orb_false_iff in He as [Hc Hs]. constructor; auto.
Qed.

Lemma c_style_roundtrip_witness :
  ∃ out n, quote_c_style 1 ([97; 10; 34; 200] ++ 0 :: []) 0 = Ret (out, n) ∧
    (n = 0 ∧ out = [97; 10; 34; 200] ∧ Forall (λ c, must 1 c = false) [97; 10; 34; 200] ∨
     0 < n ∧ n = zlen out ∧
       ∀ sb tail, unquote_c_style sb (out ++ tail) = Ret (sb ++ [97; 10; 34; 200], 0, Some tail)).
Proof.
  apply c_style_roundtrip; [by right|]. repeat constructor; vm_compute; congruence.
Defined.

End TextTheorems.
