(* ===== verification/Refname.v ===== *)
(** * The format of reference names (refs.c)

    [check_refname_component] and [check_or_sanitize_refname] walk a
    NUL-terminated name, either refusing what is not allowed or, given a
    [strbuf], writing a replacement into it.  The check accepts exactly the names
    of a declarative grammar; what the sanitizer can leave behind is stated
    exactly too. *)
From stdpp Require Import prelude.
From S2P Require Import Prelude Ctype.
Import Ctype.

Module Refname.

Definition refname_disposition : list Z :=
  [1; 4; 4; 4; 4; 4; 4; 4; 4; 4; 4; 4; 4; 4; 4; 4;
   4; 4; 4; 4; 4; 4; 4; 4; 4; 4; 4; 4; 4; 4; 4; 4;
   4; 0; 0; 0; 0; 0; 0; 0; 0; 0; 5; 0; 0; 0; 2; 1;
   0; 0; 0; 0; 0; 0; 0; 0; 0; 0; 4; 0; 0; 0; 0; 4;
   0; 0; 0; 0; 0; 0; 0; 0; 0; 0; 0; 0; 0; 0; 0; 0;
   0; 0; 0; 0; 0; 0; 0; 0; 0; 0; 0; 4; 4; 0; 4; 0;
   0; 0; 0; 0; 0; 0; 0; 0; 0; 0; 0; 0; 0; 0; 0; 0;
   0; 0; 0; 0; 0; 0; 0; 0; 0; 0; 0; 3; 0; 0; 4; 4] ++ zrep 128 0.

Definition REFNAME_ALLOW_ONELEVEL : Z := 1.
Definition REFNAME_REFSPEC_PATTERN : Z := 2.
(** [".lock"] *)
Definition LOCK_SUFFIX : list Z := [46; 108; 111; 99; 107].

(** ** The parts of [strbuf.h] in use; a [strbuf] is its contents *)
Definition strip_suffix_mem (buf suffix : list Z) : option (list Z) :=
  let len := zlen buf in let suflen := zlen suffix in
  if (len <? suflen) || negb (bool_decide (zdrop (len - suflen) buf = suffix)) then None
  else Some (ztake (len - suflen) buf).

(** [while (strbuf_strip_suffix(sb, suffix))] *)
Fixpoint strip_loop (fuel : nat) (sb suffix : list Z) : outcome (list Z) :=
  match fuel with
  | O => NoFuel
  | S fuel =>
      match strip_suffix_mem sb suffix with
      | Some sb => strip_loop fuel sb suffix
      | None => Ret sb
      end
  end.

Definition strbuf_complete (sb : list Z) (term : Z) : outcome (list Z) :=
  if zlen sb =? 0 then Ret sb
  else let! c := rd sb (zlen sb - 1) in Ret (if c =? term then sb else sb ++ [term]).

Definition strbuf_setlen (sb : list Z) (len : Z) : outcome (list Z) :=
  if (0 <=? len) && (len <=? zlen sb) then Ret (ztake len sb) else Die.

(** ** One component

    [sanitized->buf[sanitized->len - 1] = '-'], or [return -1] ([None]). *)
Definition dash_last (sanitized : option (list Z)) : outcome (option (option (list Z))) :=
  match sanitized with
  | Some sb => let! sb := wr sb (zlen sb - 1) 45 in Ret (Some (Some sb))
  | None => Ret None
  end.

(** The [switch], for the dispositions other than 1; [None] is [return -1]. *)
Definition component_char (disp last flags : Z) (sanitized : option (list Z))
  : outcome (option (Z * option (list Z))) :=
  let keep (r : option (option (list Z))) : option (Z * option (list Z)) := (λ s, (flags, s)) <$> r in
  if disp =? 2 then
    if last =? 46 then
      match sanitized with
      | Some sb => let! sb := strbuf_setlen sb (zlen sb - 1) in Ret (Some (flags, Some sb))
      | None => Ret None
      end
    else Ret (Some (flags, sanitized))
  else if disp =? 3 then
    if last =? 64 then let! r := dash_last sanitized in Ret (keep r) else Ret (Some (flags, sanitized))
  else if disp =? 4 then let! r := dash_last sanitized in Ret (keep r)
  else if disp =? 5 then
    let! r := if Z.land flags REFNAME_REFSPEC_PATTERN =? 0 then dash_last sanitized else Ret (Some sanitized) in
    Ret ((λ s, (Z.land flags (Z.lnot REFNAME_REFSPEC_PATTERN), s)) <$> r)
  else Ret (Some (flags, sanitized)).

(** The [for] loop; [n] is [cp - refname]. *)
Fixpoint component_loop (cp : list Z) (n last flags : Z) (sanitized : option (list Z))
  : outcome (option (Z * Z * option (list Z))) :=
  match cp with
  | [] => UB
  | c :: cp =>
      let ch := Z.land c 255 in
      let! disp := rd refname_disposition ch in
      let sanitized := if disp =? 1 then sanitized else (λ sb, sb ++ [ch]) <$> sanitized in
      if disp =? 1 then Ret (Some (n, flags, sanitized))
      else
        let! r := component_char disp last flags sanitized in
        match r with
        | None => Ret None
        | Some (flags, sanitized) => component_loop cp (n + 1) ch flags sanitized
        end
  end.

(** The answer, the flags and the buffer; -1 leaves the last two as they were
    (the callers do not look at them). *)
Definition check_refname_component (refname : list Z) (flags : Z) (sanitized : option (list Z))
  : outcome (Z * Z * option (list Z)) :=
  let component_start := from_option zlen 0 sanitized in
  let fail := Ret (-1, flags, sanitized) in
  let! r := component_loop refname 0 0 flags sanitized in
  match r with
  | None => fail
  | Some (n, flags', sanitized') =>
      if n =? 0 then Ret (0, flags', sanitized')
      else
        let! c := rd refname 0 in
        let! r :=
          if c =? 46 then
            match sanitized' with
            | Some sb => let! sb := wr sb component_start 45 in Ret (Some (Some sb))
            | None => Ret None
            end
          else Ret (Some sanitized') in
        match r with
        | None => fail
        | Some sanitized' =>
            let! lock :=
              if zlen LOCK_SUFFIX <=? n then
                let! tail := rd_range refname (n - zlen LOCK_SUFFIX) (zlen LOCK_SUFFIX) in
                Ret (bool_decide (tail = LOCK_SUFFIX))
              else Ret false in
            if lock then
              match sanitized' with
              | None => fail
              | Some sb =>
                  let! sb := strip_loop (S (length sb)) sb LOCK_SUFFIX in
                  Ret (i32 n, flags', Some sb)
              end
            else Ret (i32 n, flags', sanitized')
        end
  end.

(** ** The whole name

    [refname] is the memory from the start of the name; [p] is how far the
    variable [refname] of the code has moved.  The loop ends with the position
    of the last component, its length and the number of components, or with
    [None] for [return -1]. *)
Fixpoint components_loop (fuel : nat) (refname : list Z) (p flags component_count : Z)
    (sanitized : option (list Z)) : outcome (option (Z * Z * Z * Z * option (list Z))) :=
  match fuel with
  | O => NoFuel
  | S fuel =>
      let! sanitized :=
        match sanitized with
        | Some sb => let! sb := strbuf_complete sb 47 in Ret (Some sb)
        | None => Ret None
        end in
      let! (component_len, flags, sanitized) := check_refname_component (zdrop p refname) flags sanitized in
      if negb (bool_decide (is_Some sanitized) && (component_len =? 0)) && (component_len <=? 0) then Ret None
      else
        let component_count := component_count + 1 in
        let! c := rd refname (p + component_len) in
        if c =? 0 then Ret (Some (p, component_len, flags, component_count, sanitized))
        else components_loop fuel refname (p + component_len + 1) flags component_count sanitized
  end.

(** [strcmp(refname, "@")] *)
Definition is_at (refname : list Z) : outcome bool :=
  let! s := cstr refname in Ret (bool_decide (s = [64])).

Definition check_or_sanitize_refname (refname : list Z) (flags : Z) (sanitized : option (list Z))
  : outcome (Z * option (list Z)) :=
  let! at_ := is_at refname in
  if at_ && negb (bool_decide (is_Some sanitized)) then Ret (-1, sanitized)
  else
    let sanitized := if at_ then (λ sb, sb ++ [45]) <$> sanitized else sanitized in
    let! r := components_loop (S (length refname)) refname 0 flags 0 sanitized in
    match r with
    | None => Ret (-1, sanitized)
    | Some (p, component_len, flags, component_count, sanitized) =>
        let! c := rd refname (p + component_len - 1) in
        if (c =? 46) && negb (bool_decide (is_Some sanitized)) then Ret (-1, sanitized)
        else if (Z.land flags REFNAME_ALLOW_ONELEVEL =? 0) && (component_count <? 2) then Ret (-1, sanitized)
        else Ret (0, sanitized)
    end.

Definition check_refname_format (refname : list Z) (flags : Z) : outcome Z :=
  let! (r, _) := check_or_sanitize_refname refname flags None in Ret r.

Definition sanitize_refname_component (refname out : list Z) : outcome (list Z) :=
  let! (r, sanitized) := check_or_sanitize_refname refname REFNAME_ALLOW_ONELEVEL (Some out) in
  if negb (r =? 0) then Die
  else match sanitized with Some sb => Ret sb | None => Die end.

(** ** The grammar of reference names *)

(** Control characters, DEL, SP and any of [:?[\^~]. *)
Definition forbidden (c : Z) : bool := (c <? 32) || existsb (Z.eqb c) [32; 58; 63; 91; 92; 94; 126; 127].

(** The parts between the slashes. *)
Fixpoint components (s : list Z) : list (list Z) :=
  match s with
  | [] => [[]]
  | c :: s =>
      if c =? 47 then [] :: components s
      else match components s with
           | [] => [[c]]
           | x :: xs => (c :: x) :: xs
           end
  end.

Definition contains (x s : list Z) : Prop := ∃ pre post, s = pre ++ x ++ post.

Fixpoint stars (s : list Z) : Z :=
  match s with [] => 0 | c :: s => (if c =? 42 then 1 else 0) + stars s end.

(** No empty component, none that starts with a dot or ends with [".lock"], no
    forbidden character, no [".."] and no ["@{"]. *)
Definition clean_text (c : list Z) : Prop :=
  Forall (λ x, forbidden x = false) c ∧ ¬ contains [46; 46] c ∧ ¬ contains [64; 123] c.
Definition valid_component (c : list Z) : Prop :=
  c ≠ [] ∧ head c ≠ Some 46 ∧ ¬ LOCK_SUFFIX `suffix_of` c ∧ clean_text c.

Definition pattern_ok (flags : Z) : bool := negb (Z.land flags REFNAME_REFSPEC_PATTERN =? 0).
Definition onelevel_ok (flags : Z) : bool := negb (Z.land flags REFNAME_ALLOW_ONELEVEL =? 0).
Definition star_budget (flags : Z) : Z := if pattern_ok flags then 1 else 0.

Definition valid_refname (flags : Z) (s : list Z) : Prop :=
  s ≠ [64] ∧ Forall valid_component (components s) ∧ stars s <= star_budget flags ∧
  last s ≠ Some 46 ∧ (onelevel_ok flags = true ∨ 2 <= zlen (components s)).

(** ** Lemmas on the grammar *)
Definition disp (c : Z) : Z :=
  if (c =? 0) || (c =? 47) then 1 else if c =? 46 then 2 else if c =? 123 then 3
  else if forbidden c then 4 else if c =? 42 then 5 else 0.

Lemma rd_disposition c : byte_ok c → rd refname_disposition (Z.land c 255) = Ret (disp c).
Proof.
  intros Hc. apply rd_znth.
  assert (default 99 (znth refname_disposition (Z.land c 255)) = disp c) as E by solve_byte c Hc.
  destruct (znth_is_Some refname_disposition (Z.land c 255)) as [v Hv].
  { rewrite land_ff. change (zlen refname_disposition) with 256. by apply Z.mod_pos_bound. }
  rewrite Hv in E |- *. by rewrite <- E.
Qed.

Lemma land_ff_byte c : byte_ok c → Z.land c 255 = c.
Proof. intros Hc. rewrite land_ff. by apply Z.mod_small. Qed.

(** A byte inside a component. *)
Definition inner (c : Z) : Prop := 0 < c < 256 ∧ c ≠ 47.

Lemma stars_nonneg s : 0 <= stars s.
Proof. induction s as [|c s IH]; cbn; [lia|]. destruct (c =? 42); lia. Qed.
Lemma stars_app s t : stars (s ++ t) = stars s + stars t.
Proof. induction s as [|c s IH]; cbn [stars app]; [done|]. rewrite IH. lia. Qed.
Lemma star_budget_range flags : 0 <= star_budget flags <= 1.
Proof. unfold star_budget. destruct (pattern_ok flags); lia. Qed.

Lemma contains2_cons x y a t : contains [x; y] (a :: t) ↔ (a = x ∧ head t = Some y) ∨ contains [x; y] t.
Proof.
  split.
  - intros ([|b pre] & post & E); [cbn in E; injection E as -> ->; by left|].
    injection E as -> ->. right. by exists pre, post.
  - intros [[-> E]|(pre & post & ->)].
    + destruct t as [|b t]; [done|]. injection E as ->. by exists [], t.
    + by exists (a :: pre), post.
Qed.
Lemma contains_nil x y : ¬ contains [x; y] [].
Proof. intros ([|? ?] & post & E); done. Qed.
Lemma contains_prefix x y s t : contains [x; y] s → contains [x; y] (s ++ t).
Proof. intros (pre & post & ->). exists pre, (post ++ t). by rewrite <- !app_assoc. Qed.

Lemma components_nonempty s : ∃ x xs, components s = x :: xs.
Proof. destruct s as [|c s]; cbn; [eauto|]. destruct (c =? 47); [eauto|]. destruct (components s); eauto. Qed.
Lemma components_app s t : components (s ++ 47 :: t) = components s ++ components t.
Proof.
  induction s as [|c s IH]; [done|]. cbn [components app]. rewrite IH.
  destruct (c =? 47); [done|]. by destruct (components_nonempty s) as (x & xs & ->).
Qed.
Lemma components_single t : Forall (λ c, c ≠ 47) t → components t = [t].
Proof.
  induction 1 as [|c t Hc Ht IH]; [done|]. cbn [components]. rewrite IH.
  by rewrite (proj2 (Z.eqb_neq c 47)).
Qed.
(** Induction over the components of a name. *)
Lemma component_ind (P : list Z → Prop) :
  (∀ t, Forall (λ c, c ≠ 47) t → P t) →
  (∀ t s, Forall (λ c, c ≠ 47) t → P s → P (t ++ 47 :: s)) → ∀ s, P s.
Proof.
  intros H1 H2 s. assert (∀ t, Forall (λ c, c ≠ 47) t → P (t ++ s)) as H; [|by apply (H [])].
  induction s as [|c s IH]; intros t Ht; [rewrite app_nil_r; auto|].
  destruct (decide (c = 47)) as [->|Hc]; [apply H2; [done|]; by apply (IH [])|].
  replace (t ++ c :: s) with ((t ++ [c]) ++ s) by solve_app. apply IH, Forall_app. split; [done|].
  by constructor.
Qed.

(** ** The check *)

(** What the loop computes for the text of one component, when it does not
    sanitize: the flags it ends with. *)
Fixpoint scan (last flags : Z) (t : list Z) : option Z :=
  match t with
  | [] => Some flags
  | c :: t =>
      if ((c =? 46) && (last =? 46)) || ((c =? 123) && (last =? 64)) || forbidden c ||
         ((c =? 42) && negb (pattern_ok flags)) then None
      else scan c (if c =? 42 then Z.land flags (Z.lnot REFNAME_REFSPEC_PATTERN) else flags) t
  end.

Lemma inner_byte c : inner c → byte_ok c.
Proof. unfold inner, byte_ok. lia. Qed.
Lemma inner_not47 t : Forall inner t → Forall (λ c, c ≠ 47) t.
Proof. intros H. eapply Forall_impl; [exact H|]. by intros c [_ ?]. Qed.

(** The disposition of a byte decides the [switch]. *)
Lemma disp_inner c : inner c →
  (disp c =? 1) = false ∧ (disp c =? 2) = (c =? 46) ∧ (disp c =? 3) = (c =? 123) ∧
  (disp c =? 4) = forbidden c ∧ (disp c =? 5) = (c =? 42) ∧
  (forbidden c = true → c ≠ 46 ∧ c ≠ 123 ∧ c ≠ 42).
Proof.
  intros [Hc H47]. unfold disp. rewrite (proj2 (Z.eqb_neq c 0)), (proj2 (Z.eqb_neq c 47)) by lia. cbn [orb].
  destruct (Z.eqb_spec c 46) as [->|]; [by vm_compute|]. destruct (Z.eqb_spec c 123) as [->|]; [by vm_compute|].
  destruct (forbidden c) eqn:F.
  - destruct (Z.eqb_spec c 42) as [->|]; [by vm_compute in F|]. by vm_compute.
  - destruct (Z.eqb_spec c 42); by vm_compute.
Qed.

Lemma component_loop_check t sep rest : Forall inner t → sep = 0 ∨ sep = 47 → ∀ n last flags,
  component_loop (t ++ sep :: rest) n last flags None =
  Ret ((λ f, (n + zlen t, f, None)) <$> scan last flags t).
Proof.
  intros Ht Hsep. induction Ht as [|c t Hc Ht IH]; intros n last flags; cbn [app component_loop scan].
  - rewrite rd_disposition by (unfold byte_ok; lia).
    replace (disp sep) with 1 by (by destruct Hsep as [-> | ->]). cbn. by rewrite zlen_nil, Z.add_0_r.
  - rewrite rd_disposition, land_ff_byte by by apply inner_byte. cbn [obind].
    destruct (disp_inner c Hc) as (E1 & E2 & E3 & E4 & E5 & E6).
    rewrite E1. cbn [fmap option_fmap option_map]. unfold component_char. rewrite E2, E3, E4, E5.
    replace (n + zlen (c :: t)) with (n + 1 + zlen t) by zlia. unfold pattern_ok.
    destruct (Z.eqb_spec c 46) as [->|]; [destruct (last =? 46); [done|]; cbn; apply IH|].
    destruct (Z.eqb_spec c 123) as [->|]; [destruct (last =? 64); [done|]; cbn; apply IH|]. cbn [andb orb].
    destruct (forbidden c) eqn:F; [done|]. cbn [orb].
    destruct (Z.eqb_spec c 42) as [->|]; [|cbn; apply IH].
    destruct (Z.land flags REFNAME_REFSPEC_PATTERN =? 0); [done|]. cbn. apply IH.
Qed.

Lemma star_budget_used flags : star_budget (Z.land flags (Z.lnot REFNAME_REFSPEC_PATTERN)) = 0.
Proof.
  unfold star_budget, pattern_ok, REFNAME_REFSPEC_PATTERN.
  by rewrite <- Z.land_assoc, (Z.land_comm (Z.lnot 2)), Z.land_lnot_diag, Z.land_0_r.
Qed.
Lemma onelevel_used flags :
  onelevel_ok (Z.land flags (Z.lnot REFNAME_REFSPEC_PATTERN)) = onelevel_ok flags.
Proof. unfold onelevel_ok. by rewrite <- Z.land_assoc. Qed.

(** The text as the loop has it behind it, [last] in front. *)
Definition clean_after (last : Z) (t : list Z) : Prop :=
  Forall (λ x, forbidden x = false) t ∧ ¬ contains [46; 46] (last :: t) ∧ ¬ contains [64; 123] (last :: t).

Lemma clean_after_cons last c t :
  clean_after last (c :: t) ↔
  forbidden c = false ∧ ¬ (last = 46 ∧ c = 46) ∧ ¬ (last = 64 ∧ c = 123) ∧ clean_after c t.
Proof.
  unfold clean_after. rewrite Forall_cons, !(contains2_cons _ _ last). cbn [head]. naive_solver.
Qed.

Lemma scan_spec t : ∀ last flags,
  match scan last flags t with
  | Some f => clean_after last t ∧ stars t <= star_budget flags ∧
              star_budget f = star_budget flags - stars t ∧ onelevel_ok f = onelevel_ok flags
  | None => ¬ (clean_after last t ∧ stars t <= star_budget flags)
  end.
Proof.
  induction t as [|c t IH]; intros last flags; cbn [scan stars].
  - pose proof (star_budget_range flags). split_and!; try lia; try done.
    split_and!; [constructor|intros [[_ ?]|?%contains_nil]%contains2_cons; done..].
  - pose proof (clean_after_cons last c t) as HC. pose proof (stars_nonneg t).
    destruct (((c =? 46) && (last =? 46)) || ((c =? 123) && (last =? 64)) || forbidden c) eqn:B; cbn [orb].
    { intros [H1 _]. apply HC in H1 as (F & A1 & A2 & _). rewrite F, orb_false_r in B.
      destruct (Z.eqb_spec c 46), (Z.eqb_spec last 46), (Z.eqb_spec c 123), (Z.eqb_spec last 64); naive_solver. }
    assert (clean_after c t → clean_after last (c :: t)) as HC'.
    { intros Hc. apply HC. destruct (forbidden c); [by rewrite orb_true_r in B|].
      destruct (Z.eqb_spec c 46), (Z.eqb_spec last 46), (Z.eqb_spec c 123), (Z.eqb_spec last 64); naive_solver. }
    assert (clean_after last (c :: t) → clean_after c t) as HC'' by (intros Hl; by apply HC in Hl as (_ & _ & _ & ?)). clear HC B.
    destruct (Z.eqb_spec c 42) as [->|]; cbn [andb].
    + destruct (pattern_ok flags) eqn:P; cbn [negb].
      * assert (star_budget flags = 1) as Eb by (unfold star_budget; by rewrite P).
        specialize (IH 42 (Z.land flags (Z.lnot REFNAME_REFSPEC_PATTERN))). rewrite star_budget_used, onelevel_used in IH.
        destruct (scan _ _ t); [destruct IH as (? & ? & ? & ?); split_and!; auto; lia|].
        intros [? ?]. apply IH. split; [auto|lia].
      * assert (star_budget flags = 0) as Eb by (unfold star_budget; by rewrite P). intros [_ ?]. lia.
    + specialize (IH c flags). destruct (scan c flags t).
      * destruct IH as (? & ? & ? & ?). split_and!; auto; lia.
      * intros [? ?]. apply IH. split; [auto|lia].
Qed.

Lemma clean_after_0 t : clean_after 0 t ↔ clean_text t.
Proof. unfold clean_after, clean_text. rewrite !contains2_cons. naive_solver. Qed.

Lemma suffix_zdrop (u t : list Z) : zlen u <= zlen t → zdrop (zlen t - zlen u) t = u ↔ u `suffix_of` t.
Proof.
  intros Hl. split.
  - intros E. exists (ztake (zlen t - zlen u) t). rewrite <- E at 2. by rewrite ztake_zdrop.
  - intros [k ->]. rewrite zlen_app. apply zdrop_app_len'. lia.
Qed.

(** The [memcmp] with [".lock"] at the end of the component. *)
Lemma lock_test t tail :
  (if zlen LOCK_SUFFIX <=? zlen t then
     let! x := rd_range (t ++ tail) (zlen t - zlen LOCK_SUFFIX) (zlen LOCK_SUFFIX) in
     Ret (bool_decide (x = LOCK_SUFFIX))
   else Ret false) = Ret (bool_decide (LOCK_SUFFIX `suffix_of` t)).
Proof.
  destruct (Z.leb_spec (zlen LOCK_SUFFIX) (zlen t)) as [Hl|Hl].
  - set (k := zlen t - zlen LOCK_SUFFIX).
    assert (0 <= k) as Hk by (unfold k; lia). assert (zlen LOCK_SUFFIX = 5) as E5 by done.
    rewrite (rd_range_at _ (ztake k t) (zdrop k t) tail).
    + cbn [obind]. f_equal. apply bool_decide_ext. by apply suffix_zdrop.
    + by rewrite app_assoc, ztake_zdrop.
    + rewrite zlen_ztake; lia.
    + rewrite zlen_zdrop; lia.
  - rewrite bool_decide_eq_false_2; [done|]. intros [k ->]. rewrite zlen_app in Hl. zlia.
Qed.

Lemma check_component t sep rest flags : Forall inner t → sep = 0 ∨ sep = 47 → zlen t < 2 ^ 31 →
  returns (check_refname_component (t ++ sep :: rest) flags None) (λ '(r, f, san), san = None ∧
    if r <=? 0 then ¬ (valid_component t ∧ stars t <= star_budget flags)
    else r = zlen t ∧ valid_component t ∧ stars t <= star_budget flags ∧
         star_budget f = star_budget flags - stars t ∧ onelevel_ok f = onelevel_ok flags).
Proof.
  intros Ht Hsep Hl. unfold check_refname_component. rewrite component_loop_check by done. cbn [obind from_option].
  unfold valid_component. pose proof (scan_spec t 0 flags) as HS.
  destruct (scan 0 flags t) as [f|]; cbn [fmap option_fmap option_map wp]; rewrite clean_after_0 in HS; [|cbn; naive_solver].
  rewrite Z.add_0_l. destruct (Z.eqb_spec (zlen t) 0) as [E|E].
  { destruct t; [|zlia]. cbn. naive_solver. }
  destruct t as [|c t]; [done|]. cbn [app]. rewrite (rd_znth _ 0 c) by done. cbn [obind].
  destruct (Z.eqb_spec c 46) as [->|Hc]; cbn [obind]; [cbn; naive_solver|].
  change (c :: t ++ sep :: rest) with ((c :: t) ++ sep :: rest). rewrite lock_test. cbn [obind].
  case_bool_decide; [cbn; naive_solver|]. cbn [wp]. unfold i32.
  rewrite Z.mod_small by zlia. replace (zlen (c :: t) + 2 ^ 31 - 2 ^ 31) with (zlen (c :: t)) by lia.
  rewrite (proj2 (Z.leb_gt _ _)) by zlia. naive_solver.
Qed.

Lemma no_nul_inner t : no_nul t → Forall (λ c, c ≠ 47) t → Forall inner t.
Proof. intros H1 H2. apply Forall_and; by split. Qed.

Lemma components_check rest s : no_nul s → zlen s < 2 ^ 31 → ∀ pre flags count fuel, (length s < fuel)%nat →
  returns (components_loop fuel (pre ++ s ++ 0 :: rest) (zlen pre) flags count None) (λ r,
    match r with
    | Some (p, len, f, count', san) => san = None ∧ p + len = zlen pre + zlen s ∧ s ≠ [] ∧
        count' = count + zlen (components s) ∧ onelevel_ok f = onelevel_ok flags ∧
        Forall valid_component (components s) ∧ stars s <= star_budget flags
    | None => ¬ (Forall valid_component (components s) ∧ stars s <= star_budget flags)
    end).
Proof.
  induction s as [t Ht|t s Ht IH] using component_ind; intros Hs Hl pre flags count fuel Hf;
    (destruct fuel as [|fuel]; [lia|]); cbn [components_loop obind]; rewrite zdrop_app_len.
  - rewrite (components_single t Ht). apply wp_bind.
    eapply wp_mono; [|apply check_component; [by apply no_nul_inner|by left|done]].
    intros [[r f] san] [-> Hr]. rewrite bool_decide_eq_false_2 by (by intros [? ?]). cbn [andb negb].
    destruct (Z.leb_spec r 0); [cbn; rewrite Forall_singleton; naive_solver|].
    destruct Hr as (-> & Hv & Hst & Hb & Ho).
    rewrite (rd_at _ (pre ++ t) 0 rest) by (solve_app || zlia). cbn.
    split_and!; try done; [by destruct t as [|? ?]|by rewrite Forall_singleton].
  - rewrite components_app, (components_single t Ht), stars_app. rewrite <- app_assoc. cbn [app stars].
    apply Forall_app in Hs as [Hst Hs]. inversion Hs as [|? ? _ Hs']; subst. rewrite zlen_app, zlen_cons in Hl.
    apply wp_bind. eapply wp_mono; [|apply check_component; [by apply no_nul_inner|by right|zlia]].
    intros [[r f] san] [-> Hr]. rewrite bool_decide_eq_false_2 by (by intros [? ?]). cbn [andb negb].
    pose proof (stars_nonneg s). pose proof (stars_nonneg t).
    destruct (Z.leb_spec r 0); [cbn; rewrite Forall_cons; naive_solver lia|].
    destruct Hr as (-> & Hv & Hst' & Hb & Ho).
    rewrite (rd_at _ (pre ++ t) 47 (s ++ 0 :: rest)) by (solve_app || zlia). cbn [obind].
    replace (pre ++ t ++ 47 :: s ++ 0 :: rest) with ((pre ++ t ++ [47]) ++ s ++ 0 :: rest) by solve_app.
    replace (zlen pre + zlen t + 1) with (zlen (pre ++ t ++ [47])) by zlia.
    eapply wp_mono; [|apply IH; [done|zlia|rewrite length_app in Hf; cbn in Hf; lia]].
    intros [[[[[p len] f'] cnt] san]|]; rewrite Hb; [|rewrite Forall_cons; naive_solver lia].
    intros (-> & E1 & _ & E3 & E4 & E5 & E6). split_and!; try done; try congruence; try zlia.
    + by destruct t.
    + by apply Forall_cons.
    + change (47 =? 42) with false. cbn [negb]. rewrite Z.add_0_l. clear - E6 Hb. lia.
Qed.

(** [check_refname_format] decides the grammar. *)
Lemma check_refname_format_wp s rest flags : no_nul s → zlen s < 2 ^ 31 →
  returns (check_refname_format (s ++ 0 :: rest) flags) (λ r,
    (r = 0 ∧ valid_refname flags s) ∨ (r = -1 ∧ ¬ valid_refname flags s)).
Proof.
  intros Hs Hl. unfold check_refname_format, check_or_sanitize_refname, is_at. rewrite cstr_eq by done. cbn [obind].
  rewrite (bool_decide_eq_false_2 (is_Some None)) by (by intros [? ?]). cbn [negb]. rewrite andb_true_r.
  case_bool_decide as Hat; [right; split; [done|]; by intros [? _]|].
  apply wp_bind, wp_bind. eapply wp_mono; [|apply (components_check rest s Hs Hl [] flags 0)].
  2: { rewrite length_app. lia. }
  intros [[[[[p len] f] cnt] san]|]; [|intros Hn; right; split; [done|]; intros (_ & ? & ? & _); by apply Hn].
  intros (-> & Hp & Hne & -> & Ho & Hv & Hst). rewrite zlen_nil, Z.add_0_l in Hp.
  destruct (last s) as [c|] eqn:EL; [|by apply last_None in EL].
  apply last_Some in EL as [s' ->]. rewrite (rd_at _ s' c (0 :: rest)) by (solve_app || zlia). cbn [obind].
  rewrite (bool_decide_eq_false_2 (is_Some None)) by (by intros [? ?]). cbn [negb]. rewrite andb_true_r.
  unfold valid_refname. rewrite last_snoc, <- Ho. unfold onelevel_ok.
  destruct (Z.eqb_spec c 46) as [->|]; [right; naive_solver|].
  destruct (Z.land f REFNAME_ALLOW_ONELEVEL =? 0); cbn [andb negb].
  - destruct (Z.ltb_spec (0 + zlen (components (s' ++ [c]))) 2); cbn; naive_solver lia.
  - left. cbn. naive_solver lia.
Qed.

(** ** The sanitizer *)

(** What the loop appends for the text of a component. *)
Fixpoint replaced (last : Z) (t : list Z) : list Z :=
  match t with
  | [] => []
  | c :: t =>
      if c =? 46 then (if last =? 46 then [] else [46]) ++ replaced c t
      else (if ((c =? 123) && (last =? 64)) || forbidden c || (c =? 42) then 45 else c) :: replaced c t
  end.

Lemma dash_last_snoc sb c : dash_last (Some (sb ++ [c])) = Ret (Some (Some (sb ++ [45]))).
Proof. unfold dash_last. rewrite (wr_at _ sb c []) by (done || zlia). done. Qed.

Lemma component_loop_sanitize t sep rest : Forall inner t → sep = 0 ∨ sep = 47 → ∀ n last flags sb,
  star_budget flags = 0 →
  ∃ f, component_loop (t ++ sep :: rest) n last flags (Some sb) =
       Ret (Some (n + zlen t, f, Some (sb ++ replaced last t))) ∧
       star_budget f = 0 ∧ onelevel_ok f = onelevel_ok flags.
Proof.
  intros Ht Hsep. induction Ht as [|c t Hc Ht IH]; intros n last flags sb Hb; cbn [app component_loop replaced].
  - rewrite rd_disposition by (unfold byte_ok; lia). exists flags.
    replace (disp sep) with 1 by (by destruct Hsep as [-> | ->]). cbn. by rewrite zlen_nil, Z.add_0_r, app_nil_r.
  - rewrite rd_disposition, land_ff_byte by by apply inner_byte. cbn [obind].
    destruct (disp_inner c Hc) as (E1 & E2 & E3 & E4 & E5 & E6).
    rewrite E1. cbn [fmap option_fmap option_map]. unfold component_char. rewrite E2, E3, E4, E5, dash_last_snoc.
    replace (n + zlen (c :: t)) with (n + 1 + zlen t) by zlia.
    assert (Z.land flags REFNAME_REFSPEC_PATTERN = 0) as Ep.
    { unfold star_budget, pattern_ok in Hb. destruct (Z.eqb_spec (Z.land flags REFNAME_REFSPEC_PATTERN) 0); done. }
    assert (∀ x f, star_budget f = 0 → onelevel_ok f = onelevel_ok flags →
      ∃ f', component_loop (t ++ sep :: rest) (n + 1) c f (Some (sb ++ x)) =
        Ret (Some (n + 1 + zlen t, f', Some (sb ++ x ++ replaced c t))) ∧
        star_budget f' = 0 ∧ onelevel_ok f' = onelevel_ok flags) as Go.
    { intros x f Hf Ho. destruct (IH (n + 1) c f (sb ++ x) Hf) as (f' & -> & ? & ?). exists f'.
      rewrite app_assoc. split_and!; congruence. }
    destruct (Z.eqb_spec c 46) as [->|N46].
    { destruct (last =? 46); [|cbn; by apply (Go [46])]. cbn [app]. unfold strbuf_setlen.
      rewrite (proj2 (Z.leb_le 0 _)), (proj2 (Z.leb_le _ (zlen (sb ++ [46])))) by zlia. cbn [andb obind].
      rewrite ztake_app_len' by zlia. destruct (Go [] flags Hb eq_refl) as (f & E & ?). rewrite app_nil_r in E. eauto. }
    destruct (Z.eqb_spec c 123) as [->|]; cbn [andb orb].
    { change (forbidden 123) with false. destruct (last =? 64); cbn; by apply (Go [_]). }
    destruct (forbidden c) eqn:F; cbn [orb obind]; [cbn; by apply (Go [45])|].
    destruct (Z.eqb_spec c 42) as [->|]; [|cbn; by apply (Go [c])].
    rewrite Ep. cbn. apply (Go [45]); [apply star_budget_used|apply onelevel_used].
Qed.

(** [sanitized->buf[component_start] = '-'] *)
Definition undot (t : list Z) : list Z :=
  match t with [] => [] | c :: u => (if c =? 46 then 45 else c) :: u end.

Lemma forbidden_45 : forbidden 45 = false.
Proof. done. Qed.

Lemma replaced_clean t : ∀ last,
  Forall (λ x, forbidden x = false) (replaced last t) ∧ stars (replaced last t) = 0 ∧
  (last = 46 → head (replaced last t) ≠ Some 46) ∧ (last = 64 → head (replaced last t) ≠ Some 123) ∧
  ¬ contains [46; 46] (replaced last t) ∧ ¬ contains [64; 123] (replaced last t).
Proof.
  induction t as [|c t IH]; intros last; cbn [replaced].
  - split_and!; [constructor|done..| |]; apply contains_nil.
  - destruct (IH c) as (H1 & H2 & H3 & H4 & H5 & H6).
    destruct (Z.eqb_spec c 46) as [->|N46].
    { destruct (Z.eqb_spec last 46); cbn [app]; [naive_solver|]. split_and!; try done.
      - by constructor.
      - rewrite contains2_cons. naive_solver.
      - rewrite contains2_cons. naive_solver. }
    destruct (((c =? 123) && (last =? 64)) || forbidden c || (c =? 42)) eqn:B.
    + split_and!; try done; [by constructor|rewrite contains2_cons; naive_solver..].
    + apply orb_false_iff in B as [[B1 B2]%orb_false_iff B3]. split_and!.
      * by constructor.
      * cbn [stars]. by rewrite B3, H2.
      * cbn. congruence.
      * intros ->. cbn. intros [= ->]. done.
      * rewrite contains2_cons. naive_solver.
      * rewrite contains2_cons. naive_solver.
Qed.

Lemma replaced_same last t : clean_after last t → stars t = 0 → replaced last t = t.
Proof.
  revert last. induction t as [|c t IH]; intros last; [done|]. rewrite clean_after_cons. cbn [stars replaced].
  intros (F & N1 & N2 & H) Hs. pose proof (stars_nonneg t).
  destruct (Z.eqb_spec c 42); [lia|]. rewrite (IH c H Hs), F.
  destruct (Z.eqb_spec c 46), (Z.eqb_spec last 46), (Z.eqb_spec c 123), (Z.eqb_spec last 64); naive_solver.
Qed.

Lemma replaced_inner last t : Forall inner t → Forall inner (replaced last t).
Proof.
  intros Ht. revert last. induction Ht as [|c t Hc Ht IH]; intros last; cbn [replaced]; [constructor|].
  assert (inner 45) by (unfold inner; lia).
  destruct (Z.eqb_spec c 46) as [->|]; [destruct (last =? 46); cbn [app]; auto|].
  constructor; [by destruct (_ || _)|done].
Qed.

Lemma replaced_head c t : ∃ d u, replaced 0 (c :: t) = d :: u ∧ (d =? 46) = (c =? 46).
Proof.
  cbn [replaced]. destruct (Z.eqb_spec c 46) as [->|N]; [by exists 46, (replaced 46 t)|].
  eexists _, _. split; [done|]. destruct (_ || _); [done|]. by apply Z.eqb_neq.
Qed.

(** The text that the loop leaves for a component, its first dot replaced. *)
Lemma undot_replaced t : t ≠ [] → Forall inner t →
  let u := undot (replaced 0 t) in
  u ≠ [] ∧ head u ≠ Some 46 ∧ clean_text u ∧ stars u = 0 ∧ Forall inner u ∧
  (valid_component t → stars t = 0 → u = t).
Proof.
  intros Hne Ht u. destruct t as [|c t]; [done|]. destruct (replaced_head c t) as (d & v & E & Ed).
  destruct (replaced_clean (c :: t) 0) as (H1 & H2 & _ & _ & H5 & H6).
  pose proof (replaced_inner 0 _ Ht) as H7. subst u. rewrite E in *. cbn [undot].
  inversion H1; inversion H7; subst. rewrite contains2_cons in H5, H6. cbn [stars] in H2.
  destruct (Z.eqb_spec d 46) as [->|Nd].
  - split_and!; try done; [split_and!|constructor|].
    + by constructor.
    + rewrite contains2_cons. naive_solver.
    + rewrite contains2_cons. naive_solver.
    + unfold inner. lia.
    + done.
    + intros (_ & Hh & _) _. symmetry in Ed. apply Z.eqb_eq in Ed as ->. done.
  - split_and!; try done; [naive_solver|split_and!|].
    + by constructor.
    + rewrite contains2_cons. naive_solver.
    + rewrite contains2_cons. naive_solver.
    + intros (_ & _ & _ & Hc) Hs. rewrite <- E. apply replaced_same; [|done]. by apply clean_after_0.
Qed.

(** Stripping [".lock"]s stays within the component. *)
Lemma lock_within sb u : sb = [] ∨ last sb = Some 47 → u ≠ [] →
  LOCK_SUFFIX `suffix_of` (sb ++ u) → LOCK_SUFFIX `suffix_of` u.
Proof.
  intros Hsb Hu [k E]. apply app_eq_app in E as [l [[-> E]|[-> E]]]; [|by exists l].
  destruct Hsb as [[_ ->]%app_eq_nil|HL]; [by rewrite E|].
  destruct l as [|x l _] using rev_ind; [by rewrite E|].
  rewrite app_assoc, last_snoc in HL. injection HL as ->. exfalso.
  assert (47 ∈ LOCK_SUFFIX) as H47 by (rewrite E; set_solver). revert H47.
  apply (bool_decide_unpack (47 ∉ LOCK_SUFFIX)). by vm_compute.
Qed.

Lemma strip_suffix_mem_eq sb suffix :
  strip_suffix_mem sb suffix =
  if decide (suffix `suffix_of` sb) then Some (ztake (zlen sb - zlen suffix) sb) else None.
Proof.
  unfold strip_suffix_mem. destruct (Z.ltb_spec (zlen sb) (zlen suffix)); cbn [orb].
  - rewrite decide_False; [done|]. intros [k ->]. zlia.
  - destruct (decide (suffix `suffix_of` sb)) as [Hs|Hs]; rewrite <- suffix_zdrop in Hs by done.
    + by rewrite bool_decide_eq_true_2.
    + by rewrite bool_decide_eq_false_2.
Qed.

Lemma strip_loop_ok sb fuel : sb = [] ∨ last sb = Some 47 → ∀ u,
  u ≠ [] → head u ≠ Some 46 → (length u < fuel)%nat →
  ∃ v, strip_loop fuel (sb ++ u) LOCK_SUFFIX = Ret (sb ++ v) ∧ v `prefix_of` u ∧ v ≠ [] ∧
       ¬ LOCK_SUFFIX `suffix_of` v.
Proof.
  intros Hsb. induction fuel as [|fuel IH]; intros u Hu Hh Hf; [lia|]. cbn [strip_loop]. rewrite strip_suffix_mem_eq.
  destruct (decide (LOCK_SUFFIX `suffix_of` (sb ++ u))) as [Hs|Hs].
  - apply lock_within in Hs as [w ->]; [|done..]. destruct w as [|c w]; [done|].
    rewrite app_assoc, ztake_app_len' by zlia.
    destruct (IH (c :: w)) as (v & E & Hv & ?); [done|done|rewrite length_app in Hf; cbn in Hf |- *; lia|].
    exists v. split; [done|]. split; [|done]. by apply prefix_app_r.
  - exists u. split_and!; try done. intros Hs'. apply Hs. by apply suffix_app_r.
Qed.

Lemma clean_text_prefix v u : v `prefix_of` u → clean_text u → clean_text v.
Proof.
  intros [k ->] (H1 & H2 & H3). apply Forall_app in H1 as [H1 _].
  split_and!; [done|intros H; apply H2|intros H; apply H3]; by apply contains_prefix.
Qed.
(** What one byte becomes, after the byte [l]. *)
Definition put (l c : Z) : list Z :=
  if c =? 46 then (if l =? 46 then [] else [46])
  else [if ((c =? 123) && (l =? 64)) || forbidden c || (c =? 42) then 45 else c].

Lemma replaced_snoc t : ∀ l c, replaced l (t ++ [c]) = replaced l t ++ put (default l (last t)) c.
Proof.
  induction t as [|d t IH]; intros l c; cbn [app replaced].
  - unfold put. destruct (c =? 46); cbn; by rewrite ?app_nil_r.
  - rewrite IH. replace (default d (last t)) with (default l (last (d :: t))) by (rewrite last_cons; by destruct (last t)).
    destruct (d =? 46); [by rewrite app_assoc|done].
Qed.

(** The last byte of the replacement, when it is a plain one or a dot. *)
Lemma replaced_ends l t w x : replaced l t = w ++ [x] → x ≠ 45 →
  (∃ t', t = t' ++ [x]) ∧ (x ≠ 46 → ∃ t', t = t' ++ [x] ∧ replaced l t' = w).
Proof.
  revert w x. induction t as [|c t IH] using rev_ind; intros w x E Hx; [by destruct w|].
  rewrite replaced_snoc in E. unfold put in E. destruct (Z.eqb_spec c 46) as [->|Nc].
  - destruct (default l (last t) =? 46) eqn:El.
    + rewrite app_nil_r in E. destruct (IH w x E Hx) as [(t' & ->) H]. rewrite last_snoc in El. cbn in El.
      apply Z.eqb_eq in El as ->. split; [by eexists|done].
    + apply app_inj_2 in E as [_ [= <-]]; [|done]. split; [by eexists|done].
  - apply app_inj_2 in E as [E [= E']]; [|done]. destruct (_ || _); [done|]. subst x. split; [by eexists|].
    intros _. by exists t.
Qed.

Lemma replaced_lock l t : LOCK_SUFFIX `suffix_of` replaced l t → LOCK_SUFFIX `suffix_of` t.
Proof.
  unfold LOCK_SUFFIX. intros [k E].
  assert (∀ w x t, replaced l t = w ++ [x] → x ≠ 45 → x ≠ 46 → ∃ t', t = t' ++ [x] ∧ replaced l t' = w) as Step.
  { intros w x u Hu ? ?. apply replaced_ends in Hu as [_ HH]; auto. }
  destruct (Step (k ++ [46; 108; 111; 99]) 107 t) as (t1 & -> & E1); [rewrite E; solve_app|done..|].
  destruct (Step (k ++ [46; 108; 111]) 99 t1) as (t2 & -> & E2); [rewrite E1; solve_app|done..|].
  destruct (Step (k ++ [46; 108]) 111 t2) as (t3 & -> & E3); [rewrite E2; solve_app|done..|].
  destruct (Step (k ++ [46]) 108 t3) as (t4 & -> & E4); [rewrite E3; solve_app|done..|].
  destruct (replaced_ends l t4 k 46 E4) as [(t5 & ->) _]; [done|]. exists t5. solve_app.
Qed.

Lemma undot_lock u : LOCK_SUFFIX `suffix_of` undot u → LOCK_SUFFIX `suffix_of` u.
Proof.
  destruct u as [|c u]; [done|]. cbn [undot]. intros [[|d k] E]; injection E as E1 E2.
  - destruct (c =? 46) eqn:Ec; [done|]. apply Z.eqb_neq in Ec. done.
  - subst u. by exists (c :: k).
Qed.

Lemma sanitize_component t sep rest flags sb :
  t ≠ [] → Forall inner t → sep = 0 ∨ sep = 47 → zlen t < 2 ^ 31 → star_budget flags = 0 →
  sb = [] ∨ last sb = Some 47 →
  ∃ f v, check_refname_component (t ++ sep :: rest) flags (Some sb) = Ret (zlen t, f, Some (sb ++ v)) ∧
    star_budget f = 0 ∧ onelevel_ok f = onelevel_ok flags ∧
    valid_component v ∧ stars v = 0 ∧ Forall inner v ∧ (valid_component t → stars t = 0 → v = t).
Proof.
  intros Hne Ht Hsep Hl Hb Hsb. unfold check_refname_component. cbn [from_option].
  destruct (component_loop_sanitize t sep rest Ht Hsep 0 0 flags sb Hb) as (f & -> & Hf & Ho). cbn [obind].
  destruct (undot_replaced t Hne Ht) as (U1 & U2 & U3 & U4 & U5 & U6).
  destruct t as [|c t]; [done|]. rewrite Z.add_0_l, (proj2 (Z.eqb_neq (zlen (c :: t)) 0)) by zlia.
  rewrite (rd_znth _ 0 c) by done. cbn [obind].
  set (t' := c :: t) in *. destruct (replaced_head c t) as (d & u & E & Ed). fold t' in E.
  replace (if c =? 46 then _ else _) with (Ret (Some (Some (sb ++ undot (replaced 0 t')))) : outcome (option (option (list Z)))).
  2: { rewrite E, <- Ed. cbn [undot]. destruct (d =? 46); [|done]. by rewrite (wr_at _ sb d u). }
  cbn [obind]. rewrite lock_test. cbn [obind].
  assert (i32 (zlen t') = zlen t') as ->. { unfold i32. rewrite Z.mod_small; zlia. }
  set (w := undot (replaced 0 t')) in *. case_bool_decide as Hlock.
  - destruct (strip_loop_ok sb (S (length (sb ++ w))) Hsb w U1 U2) as (v & -> & Hv & Hv0 & Hv1).
    { rewrite length_app. lia. }
    cbn [obind]. exists f, v. destruct Hv as [k Ek]. rewrite Ek in U2, U3, U4, U5. rewrite stars_app in U4.
    apply Forall_app in U5 as [? _]. pose proof (stars_nonneg v). pose proof (stars_nonneg k).
    split_and!; try done; try lia.
    + split_and!; try done; [by destruct v|]. eapply clean_text_prefix; [|done]. by apply prefix_app_r.
    + intros (_ & _ & Hn & _). done.
  - exists f, w. split_and!; try done. split_and!; try done. intros ?%undot_lock%replaced_lock. done.
Qed.

(** ** The sanitized name

    What the buffer holds between components. *)
Definition names (x : list Z) : Prop := Forall valid_component (components x) ∧ stars x = 0 ∧ no_nul x.
Definition partial (sb : list Z) : Prop := sb = [] ∨ ∃ x, names x ∧ (sb = x ∨ sb = x ++ [47]).
Definition slashed (sb : list Z) : list Z :=
  match last sb with None => [] | Some c => if c =? 47 then sb else sb ++ [47] end.

Lemma strbuf_complete_eq sb : strbuf_complete sb 47 = Ret (slashed sb).
Proof.
  unfold strbuf_complete, slashed. destruct sb as [|c sb _] using rev_ind; [done|].
  rewrite last_snoc, (proj2 (Z.eqb_neq _ 0)) by zlia. by rewrite (rd_at _ sb c []) by (done || zlia).
Qed.

Lemma names_last x : names x → ∃ c, last x = Some c ∧ c ≠ 47.
Proof.
  intros (Hv & _). destruct x as [|c x _] using rev_ind.
  - inversion Hv as [|? ? (H & _)]. done.
  - exists c. rewrite last_snoc. split; [done|]. intros ->. rewrite components_app, Forall_app in Hv.
    destruct Hv as [_ Hv]. inversion Hv as [|? ? (H & _)]. done.
Qed.

Lemma slashed_partial sb : partial sb → partial (slashed sb) ∧ (slashed sb = [] ∨ last (slashed sb) = Some 47) ∧
  (slashed sb = [] ∨ ∃ x, names x ∧ slashed sb = x ++ [47]).
Proof.
  unfold slashed. intros [->|(x & Hx & [-> | ->])].
  - cbn. split; [by left|auto].
  - destruct (names_last x Hx) as (c & -> & Hc). rewrite (proj2 (Z.eqb_neq c 47)) by done.
    rewrite last_snoc. split; [right; eauto|]. split; [by right|right; eauto].
  - rewrite last_snoc. cbn. rewrite last_snoc. split; [right; eauto|]. split; [by right|right; eauto].
Qed.

Lemma partial_app sb v : partial sb → valid_component v → stars v = 0 → Forall inner v → partial (slashed sb ++ v).
Proof.
  intros H Hv Hs Hi. right. exists (slashed sb ++ v). split; [|by left].
  assert (no_nul v) as Hn by (eapply Forall_impl; [exact Hi|]; by intros c [? _]).
  pose proof (components_single v (inner_not47 v Hi)) as Ec.
  destruct (slashed_partial sb H) as (_ & _ & [->|(x & (H1 & H2 & H3) & ->)]); cbn [app].
  - split_and!; [by rewrite Ec, Forall_singleton|done..].
  - rewrite <- app_assoc. cbn [app]. split_and!.
    + rewrite components_app, Ec, Forall_app, Forall_singleton. done.
    + rewrite stars_app. cbn [stars]. change (47 =? 42) with false. lia.
    + apply Forall_app. split; [done|]. by constructor.
Qed.

Lemma sanitize_empty_component sep rest flags sb : sep = 0 ∨ sep = 47 →
  check_refname_component (sep :: rest) flags (Some sb) = Ret (0, flags, Some sb).
Proof.
  intros Hsep. unfold check_refname_component. cbn [component_loop].
  rewrite rd_disposition by (unfold byte_ok; lia). by destruct Hsep as [-> | ->].
Qed.

Lemma sanitize_any t sep rest flags sb :
  Forall inner t → sep = 0 ∨ sep = 47 → zlen t < 2 ^ 31 → star_budget flags = 0 → partial sb →
  ∃ f sb', check_refname_component (t ++ sep :: rest) flags (Some (slashed sb)) = Ret (zlen t, f, Some sb') ∧
    star_budget f = 0 ∧ onelevel_ok f = onelevel_ok flags ∧ partial sb' ∧
    (valid_component t → stars t = 0 → sb' = slashed sb ++ t).
Proof.
  intros Ht Hsep Hl Hb Hp. destruct (slashed_partial sb Hp) as (Hp' & Hl' & _).
  destruct (decide (t = [])) as [->|Hne].
  - exists flags, (slashed sb). cbn [app]. rewrite sanitize_empty_component by done. split_and!; try done.
    intros (? & _). done.
  - destruct (sanitize_component t sep rest flags (slashed sb)) as (f & v & -> & ? & ? & ? & ? & ? & Hsame); try done.
    exists f, (slashed sb ++ v). split_and!; try done; [by apply partial_app|].
    intros HA HB. by rewrite (Hsame HA HB).
Qed.

Lemma slashed_name sb t : valid_component t → slashed (sb ++ t) = sb ++ t ++ [47] ∨ last t = Some 47.
Proof.
  intros (Hne & _). destruct t as [|c t _] using rev_ind; [done|]. unfold slashed. rewrite app_assoc, !last_snoc.
  destruct (Z.eqb_spec c 47) as [->|]; [by right|left; solve_app].
Qed.

Lemma components_sanitize rest s : no_nul s → zlen s < 2 ^ 31 → ∀ pre flags count fuel sb,
  (length s < fuel)%nat → star_budget flags = 0 → partial sb →
  ∃ p len f cnt sb',
    components_loop fuel (pre ++ s ++ 0 :: rest) (zlen pre) flags count (Some sb) = Ret (Some (p, len, f, cnt, Some sb')) ∧
    p + len = zlen pre + zlen s ∧ onelevel_ok f = onelevel_ok flags ∧ partial sb' ∧
    (Forall valid_component (components s) → stars s = 0 → sb' = slashed sb ++ s).
Proof.
  induction s as [t Ht|t s Ht IH] using component_ind; intros Hs Hl pre flags count fuel sb Hf Hb Hp;
    (destruct fuel as [|fuel]; [lia|]); cbn [components_loop]; rewrite strbuf_complete_eq; cbn [obind];
    rewrite zdrop_app_len.
  - destruct (sanitize_any t 0 rest flags sb) as (f & sb' & -> & Hf' & Ho & Hp' & Hsame); try done.
    { by apply no_nul_inner. } { by left. }
    cbn [obind]. rewrite bool_decide_eq_true_2 by done. cbn [andb].
    replace (negb (zlen t =? 0) && (zlen t <=? 0)) with false.
    2: { zlen_pos. destruct (Z.eqb_spec (zlen t) 0), (Z.leb_spec (zlen t) 0); lia || done. }
    rewrite (rd_at _ (pre ++ t) 0 rest) by (solve_app || zlia). cbn [obind Z.eqb].
    eexists _, _, _, _, _. split; [done|]. split_and!; try done.
    rewrite (components_single t Ht), Forall_singleton. done.
  - apply Forall_app in Hs as [Hst Hs]. inversion Hs as [|? ? _ Hs']; subst. rewrite zlen_app, zlen_cons in Hl.
    rewrite <- app_assoc. cbn [app].
    destruct (sanitize_any t 47 (s ++ 0 :: rest) flags sb) as (f & sb' & -> & Hf' & Ho & Hp' & Hsame); try done.
    { by apply no_nul_inner. } { by right. } { zlia. }
    cbn [obind]. rewrite bool_decide_eq_true_2 by done. cbn [andb].
    replace (negb (zlen t =? 0) && (zlen t <=? 0)) with false.
    2: { zlen_pos. destruct (Z.eqb_spec (zlen t) 0), (Z.leb_spec (zlen t) 0); lia || done. }
    rewrite (rd_at _ (pre ++ t) 47 (s ++ 0 :: rest)) by (solve_app || zlia). cbn [obind Z.eqb].
    replace (pre ++ t ++ 47 :: s ++ 0 :: rest) with ((pre ++ t ++ [47]) ++ s ++ 0 :: rest) by solve_app.
    replace (zlen pre + zlen t + 1) with (zlen (pre ++ t ++ [47])) by zlia.
    destruct (IH Hs' ltac:(zlia) (pre ++ t ++ [47]) f (count + 1) fuel sb') as (p & len & f' & cnt & sb'' & -> & Hpl & Ho' & Hp'' & Hsame'); try done.
    { rewrite length_app in Hf. cbn in Hf. lia. }
    eexists _, _, _, _, _. split; [done|]. split_and!; try congruence; try zlia.
    rewrite components_app, (components_single t Ht), Forall_app, Forall_singleton, stars_app. cbn [stars].
    pose proof (stars_nonneg s). pose proof (stars_nonneg t). intros [Hv Hvs] Hstars. change (47 =? 42) with false in Hstars.
    rewrite (Hsame' Hvs), (Hsame Hv) by lia.
    destruct (slashed_name (slashed sb) t Hv) as [->|Hlast]; [solve_app|].
    apply last_Some in Hlast as [u ->]. apply Forall_app in Ht as [_ Ht]. by inversion Ht.
Qed.


Lemma names_valid x : names x → valid_refname REFNAME_ALLOW_ONELEVEL x ↔ x ≠ [64] ∧ last x ≠ Some 46.
Proof.
  intros (H1 & H2 & _). unfold valid_refname. rewrite H2. pose proof (star_budget_range REFNAME_ALLOW_ONELEVEL).
  split; [naive_solver|]. intros [? ?]. split_and!; try done; by left.
Qed.

Lemma partial_valid sb : partial sb →
  valid_refname REFNAME_ALLOW_ONELEVEL sb ↔ sb ≠ [] ∧ sb ≠ [64] ∧ last sb ≠ Some 46 ∧ last sb ≠ Some 47.
Proof.
  intros [->|(x & Hx & [-> | ->])].
  - split; [|naive_solver]. intros (_ & H & _). inversion H as [|? ? (? & _)]. done.
  - rewrite names_valid by done. destruct (names_last x Hx) as (c & E & Hc). rewrite E.
    split; [|naive_solver]. intros [? ?]. split_and!; [by intros ->|congruence..].
  - rewrite last_snoc. split; [|naive_solver]. intros (_ & H & _). rewrite components_app, Forall_app in H.
    destruct H as [_ H]. by inversion H as [|? ? (? & _)].
Qed.

(** ** Properties *)

(** C33. [check_refname_format] accepts exactly the reference names of the grammar,
    on every NUL-terminated string: components that are not empty, do not start
    with a dot or end with [".lock"]; no [".."], no ["@{"], no forbidden
    character; asterisks only as the flags allow; no dot at the end; not the
    single ["@"]; and two components unless one is allowed. *)
Theorem refname_format_exact s rest flags :
  no_nul s → zlen s < 2 ^ 31 →
  returns (check_refname_format (s ++ 0 :: rest) flags) (λ r,
    (r = 0 ∧ valid_refname flags s) ∨ (r = -1 ∧ ¬ valid_refname flags s)).
Proof. apply check_refname_format_wp. Qed.

(** The name [refs/heads/*], for which the pattern flag matters. *)
Lemma refname_format_exact_witness :
  returns (check_refname_format ([114; 101; 102; 115; 47; 104; 101; 97; 100; 115; 47; 42] ++ 0 :: []) 2) (λ r,
    (r = 0 ∧ valid_refname 2 [114; 101; 102; 115; 47; 104; 101; 97; 100; 115; 47; 42]) ∨
    (r = -1 ∧ ¬ valid_refname 2 [114; 101; 102; 115; 47; 104; 101; 97; 100; 115; 47; 42])).
Proof. apply refname_format_exact; [repeat constructor|by vm_compute]. Defined.

(** [sanitize_refname_component] does not refuse any non-empty name, leaves a
    valid name as it is, and turns any other into one that is valid unless it
    came out empty, as ["@"], or ends with a slash or a dot, which are the cases
    the code leaves over. *)
Theorem refname_sanitized s rest :
  no_nul s → s ≠ [] → zlen s < 2 ^ 31 →
  returns (sanitize_refname_component (s ++ 0 :: rest) []) (λ out,
    (valid_refname REFNAME_ALLOW_ONELEVEL s → out = s) ∧
    (valid_refname REFNAME_ALLOW_ONELEVEL out ↔
     out ≠ [] ∧ out ≠ [64] ∧ last out ≠ Some 46 ∧ last out ≠ Some 47)).
Proof.
  intros Hs Hne Hl. unfold sanitize_refname_component, check_or_sanitize_refname, is_at. rewrite cstr_eq by done.
  cbn [obind]. rewrite (bool_decide_eq_true_2 (is_Some (Some []))) by done. cbn [negb]. rewrite andb_false_r.
  set (sb := if bool_decide (s = [64]) then [45] else []).
  replace (if bool_decide (s = [64]) then (λ sb, sb ++ [45]) <$> Some [] else Some []) with (Some sb)
    by (subst sb; by case_bool_decide).
  assert (partial sb) as Hp.
  { subst sb. case_bool_decide; [|by left]. right. exists [45]. split; [|by left].
    split_and!; [|done|repeat constructor]. apply Forall_singleton. split_and!; [done|done| |].
    - apply (bool_decide_unpack (¬ LOCK_SUFFIX `suffix_of` [45])). by vm_compute.
    - split_and!; [by repeat constructor| |]; rewrite contains2_cons; intros [[? _]|?%contains_nil]; done. }
  destruct (components_sanitize rest s Hs Hl [] REFNAME_ALLOW_ONELEVEL 0 (S (length (s ++ 0 :: rest))) sb)
    as (p & len & f & cnt & out & E & Hpl & Ho & Hout & Hsame); [rewrite length_app; lia|done..|].
  cbn [app] in E. change (zlen []) with 0 in E, Hpl. rewrite E. cbn [obind].
  destruct (last s) as [c|] eqn:EL; [|by apply last_None in EL].
  apply last_Some in EL as [s' ->]. rewrite (rd_at _ s' c (0 :: rest)) by (solve_app || zlia). cbn [obind].
  rewrite bool_decide_eq_true_2 by done. cbn [negb]. rewrite andb_false_r.
  change (onelevel_ok REFNAME_ALLOW_ONELEVEL) with true in Ho. unfold onelevel_ok in Ho.
  destruct (Z.land f REFNAME_ALLOW_ONELEVEL =? 0); [done|]. cbn [andb obind Z.eqb negb wp].
  split; [|by apply partial_valid]. intros (Hat & Hv & Hst & _). pose proof (stars_nonneg (s' ++ [c])).
  change (star_budget REFNAME_ALLOW_ONELEVEL) with 0 in Hst. rewrite Hsame by (done || lia).
  subst sb. by rewrite bool_decide_eq_false_2.
Qed.

(** [..x.lock/@{:], with every replacement at work. *)
Lemma refname_sanitized_witness :
  returns (sanitize_refname_component ([46; 46; 120; 46; 108; 111; 99; 107; 47; 64; 123; 58] ++ 0 :: []) []) (λ out,
    (valid_refname REFNAME_ALLOW_ONELEVEL [46; 46; 120; 46; 108; 111; 99; 107; 47; 64; 123; 58] →
     out = [46; 46; 120; 46; 108; 111; 99; 107; 47; 64; 123; 58]) ∧
    (valid_refname REFNAME_ALLOW_ONELEVEL out ↔
     out ≠ [] ∧ out ≠ [64] ∧ last out ≠ Some 46 ∧ last out ≠ Some 47)).
Proof. apply refname_sanitized; [repeat constructor|done|by vm_compute]. Defined.

(** The limits of the sanitizer: a single at sign becomes a name of two
    components, a dot at the end stays, and for the empty name the byte in front of
    the string is read. *)
Example sanitize_at : sanitize_refname_component [64; 0] [] = Ret [45; 47; 64].
Proof. vm_compute. reflexivity. Qed.
Example sanitize_dot : sanitize_refname_component [97; 46; 0] [] = Ret [97; 46].
Proof. vm_compute. reflexivity. Qed.
Example sanitize_empty : sanitize_refname_component [0] [] = UB.
Proof. vm_compute. reflexivity. Qed.

End Refname.
