(* ===== verification/Wildmatch.v ===== *)
(** * Shell-style pattern matching (wildmatch.c)

    [dowild] is a backtracking matcher for [?], [*], [**], brackets and escapes
    that cuts its search short in three ways: it runs ahead to the next literal
    after an asterisk, and the answers [WM_ABORT_ALL] and [WM_ABORT_TO_STARSTAR]
    tell the enclosing asterisks not to try further.  The pattern is read here as
    the code reads it, byte by byte; the specification is a list of pattern
    elements with the obvious meaning, and the result is that the cuts lose no
    match. *)
From stdpp Require Import prelude.
From S2P Require Import Prelude Ctype Hex.
Import Ctype.

Module Wildmatch.

Definition WM_CASEFOLD : Z := 1.
Definition WM_PATHNAME : Z := 2.
Definition WM_NOMATCH : Z := 1.
Definition WM_MATCH : Z := 0.
Definition WM_ABORT_ALL : Z := -1.
Definition WM_ABORT_TO_STARSTAR : Z := -2.
Definition NEGATE_CLASS : Z := 33.
Definition NEGATE_CLASS2 : Z := 94.

(** ** The character tests *)
Definition ISASCII (c : Z) : bool := c <? 128.
Definition ISBLANK (c : Z) : bool := (c =? 32) || (c =? 9).
Definition ISGRAPH (c : Z) : bool := ISASCII c && isprint c && negb (isspace c).
Definition ISPRINT (c : Z) : bool := ISASCII c && isprint c.
Definition ISDIGIT (c : Z) : bool := ISASCII c && isdigit c.
Definition ISALNUM (c : Z) : bool := ISASCII c && isalnum c.
Definition ISALPHA (c : Z) : bool := ISASCII c && isalpha c.
Definition ISCNTRL (c : Z) : bool := ISASCII c && iscntrl c.
Definition ISLOWER (c : Z) : bool := ISASCII c && islower c.
Definition ISPUNCT (c : Z) : bool := ISASCII c && ispunct c.
Definition ISSPACE (c : Z) : bool := ISASCII c && isspace c.
Definition ISUPPER (c : Z) : bool := ISASCII c && isupper c.
Definition ISXDIGIT (c : Z) : bool := ISASCII c && negb (default (-1) (znth Hex.hexval_table c) =? -1).

Definition flag (flags bit : Z) : bool := negb (Z.land flags bit =? 0).
(** [if ((flags & WM_CASEFOLD) && ISUPPER(c)) c = tolower(c)] *)
Definition fold (flags c : Z) : Z := if flag flags WM_CASEFOLD && ISUPPER c then tolower c else c.

(** ** Brackets

    [CC_EQ]: the names of the classes, and what they test; [None] for a
    malformed name. *)
Definition class_test (name : list Z) (flags t_ch : Z) : option bool :=
  if bool_decide (name = [97; 108; 110; 117; 109]) then Some (ISALNUM t_ch)
  else if bool_decide (name = [97; 108; 112; 104; 97]) then Some (ISALPHA t_ch)
  else if bool_decide (name = [98; 108; 97; 110; 107]) then Some (ISBLANK t_ch)
  else if bool_decide (name = [99; 110; 116; 114; 108]) then Some (ISCNTRL t_ch)
  else if bool_decide (name = [100; 105; 103; 105; 116]) then Some (ISDIGIT t_ch)
  else if bool_decide (name = [103; 114; 97; 112; 104]) then Some (ISGRAPH t_ch)
  else if bool_decide (name = [108; 111; 119; 101; 114]) then Some (ISLOWER t_ch)
  else if bool_decide (name = [112; 114; 105; 110; 116]) then Some (ISPRINT t_ch)
  else if bool_decide (name = [112; 117; 110; 99; 116]) then Some (ISPUNCT t_ch)
  else if bool_decide (name = [115; 112; 97; 99; 101]) then Some (ISSPACE t_ch)
  else if bool_decide (name = [117; 112; 112; 101; 114]) then
    Some (ISUPPER t_ch || (flag flags WM_CASEFOLD && ISLOWER t_ch))
  else if bool_decide (name = [120; 100; 105; 103; 105; 116]) then Some (ISXDIGIT t_ch)
  else None.

(** [for (s = p += 2; (p_ch = *p) && p_ch != ']'; p++)]: where [p] ends up, and
    the byte there. *)
Fixpoint scan_class (fuel : nat) (pat : list Z) (p : Z) : outcome (Z * Z) :=
  match fuel with
  | O => NoFuel
  | S fuel =>
      let! p_ch := rd pat p in
      if (p_ch =? 0) || (p_ch =? 93) then Ret (p, p_ch) else scan_class fuel pat (p + 1)
  end.

(** One pass of the [do] loop: [None] is [return WM_ABORT_ALL]; otherwise [p],
    [p_ch] as it is for the next [prev_ch], and [matched]. *)
Definition bracket_step (pat : list Z) (flags t_ch p p_ch prev_ch : Z) (matched : bool) : outcome (option (Z * Z * bool)) :=
  if p_ch =? 0 then Ret None
  else if p_ch =? 92 then
    let! p_ch := rd pat (p + 1) in
    if p_ch =? 0 then Ret None else Ret (Some (p + 1, p_ch, matched || (t_ch =? p_ch)))
  else
    let! p1 := rd pat (p + 1) in
    if (p_ch =? 45) && negb (prev_ch =? 0) && negb (p1 =? 0) && negb (p1 =? 93) then
      let p := p + 1 in
      let! (p, p_ch) := if p1 =? 92 then let! c := rd pat (p + 1) in Ret (p + 1, c) else Ret (p, p1) in
      if (p1 =? 92) && (p_ch =? 0) then Ret None
      else
        let in_range c := (c <=? p_ch) && (prev_ch <=? c) in
        Ret (Some (p, 0, matched || in_range t_ch ||
                         (flag flags WM_CASEFOLD && ISLOWER t_ch && in_range (toupper t_ch))))
    else if (p_ch =? 91) && (p1 =? 58) then
      let s := p + 2 in
      let! (p, p_ch) := scan_class (S (length pat)) pat s in
      if p_ch =? 0 then Ret None
      else
        let i := p - s - 1 in
        let! last := rd pat (p - 1) in
        if (i <? 0) || negb (last =? 58) then Ret (Some (s - 2, 91, matched || (t_ch =? 91)))
        else
          let! name := rd_range pat s i in
          match class_test name flags t_ch with
          | None => Ret None
          | Some b => Ret (Some (p, 0, matched || b))
          end
    else Ret (Some (p, p_ch, matched || (t_ch =? p_ch))).

(** The [do] loop; it ends at the closing bracket. *)
Fixpoint bracket_loop (fuel : nat) (pat : list Z) (flags t_ch p p_ch prev_ch : Z) (matched : bool) : outcome (option (Z * bool)) :=
  match fuel with
  | O => NoFuel
  | S fuel =>
      let! r := bracket_step pat flags t_ch p p_ch prev_ch matched in
      match r with
      | None => Ret None
      | Some (p, prev_ch, matched) =>
          let! p_ch := rd pat (p + 1) in
          if p_ch =? 93 then Ret (Some (p + 1, matched))
          else bracket_loop fuel pat flags t_ch (p + 1) p_ch prev_ch matched
      end
  end.

(** [case '[']: [None] aborts; otherwise the place of the closing bracket and
    whether [matched != negated]. *)
Definition bracket (pat : list Z) (flags t_ch p : Z) : outcome (option (Z * bool)) :=
  let! p_ch := rd pat (p + 1) in
  let p_ch := if p_ch =? NEGATE_CLASS2 then NEGATE_CLASS else p_ch in
  let negated := p_ch =? NEGATE_CLASS in
  let! (p, p_ch) := if negated then let! c := rd pat (p + 2) in Ret (p + 2, c) else Ret (p + 1, p_ch) in
  let! r := bracket_loop (S (length pat)) pat flags t_ch p p_ch 0 false in
  match r with
  | None => Ret None
  | Some (p, matched) => Ret (Some (p, negb (eqb matched negated)))
  end.

(** ** Asterisks *)

(** [while ( *++p == '*') {}] from the second asterisk on. *)
Fixpoint skip_stars (fuel : nat) (pat : list Z) (p : Z) : outcome Z :=
  match fuel with
  | O => NoFuel
  | S fuel => let! c := rd pat (p + 1) in if c =? 42 then skip_stars fuel pat (p + 1) else Ret (p + 1)
  end.

(** [strchr(text, '/')]: the text from the slash on. *)
Fixpoint strchr_slash (text : list Z) : outcome (option (list Z)) :=
  match text with
  | [] => UB
  | c :: rest => if c =? 47 then Ret (Some text) else if c =? 0 then Ret None else strchr_slash rest
  end.

(** [Try to advance faster]: the text where the loop stops, and [t_ch] there. *)
Fixpoint advance (flags p_ch : Z) (match_slash : bool) (text : list Z) : outcome (list Z * Z) :=
  match text with
  | [] => UB
  | c :: rest =>
      if negb (c =? 0) && (match_slash || negb (c =? 47)) then
        let t_ch := fold flags c in
        if t_ch =? p_ch then Ret (text, t_ch) else advance flags p_ch match_slash rest
      else Ret (text, c)
  end.

(** The end of the body of [while (1)]: [rec] is [dowild] for the rest [p] of the
    pattern, [next] the next pass. *)
Definition star_try (rec : list Z → outcome Z) (match_slash : bool) (next : list Z → Z → outcome Z) (text : list Z) (t_ch : Z)
  : outcome Z :=
  let! matched := rec text in
  if negb (matched =? WM_NOMATCH) && (negb match_slash || negb (matched =? WM_ABORT_TO_STARSTAR)) then Ret matched
  else if (matched =? WM_NOMATCH) && negb match_slash && (t_ch =? 47) then Ret WM_ABORT_TO_STARSTAR
  else
    let! t_ch := rd text 1 in
    next (zdrop 1 text) t_ch.

Fixpoint star_loop (fuel : nat) (rec : list Z → outcome Z) (flags p_first : Z) (match_slash : bool) (text : list Z) (t_ch : Z)
  : outcome Z :=
  match fuel with
  | O => NoFuel
  | S fuel =>
      if t_ch =? 0 then Ret WM_ABORT_ALL
      else if is_glob_special p_first then
        star_try rec match_slash (star_loop fuel rec flags p_first match_slash) text t_ch
      else
        let p_ch := fold flags p_first in
        let! (text, t_ch) := advance flags p_ch match_slash text in
        if negb (t_ch =? p_ch) then Ret (if match_slash then WM_ABORT_ALL else WM_ABORT_TO_STARSTAR)
        else star_try rec match_slash (star_loop fuel rec flags p_first match_slash) text t_ch
  end.

(** The asterisks at [p]: an answer, or the place behind them and [match_slash].
    [rec] is [dowild] on a pattern, a place in it and a text. *)
Definition star_kind (rec : list Z → Z → list Z → outcome Z) (pat : list Z) (p : Z) (text : list Z) (flags : Z)
  : outcome (Z + Z * bool) :=
  let! c := rd pat (p + 1) in
  if c =? 42 then
    let prev_p := p + 1 in
    let! p := skip_stars (length pat) pat prev_p in
    if negb (flag flags WM_PATHNAME) then Ret (inr (p, true))
    else
      let! before := if prev_p <? 2 then Ret 47 else rd pat (prev_p - 2) in
      let! p0 := rd pat p in
      let! after := if (p0 =? 0) || (p0 =? 47) then Ret true
                    else if p0 =? 92 then let! p1 := rd pat (p + 1) in Ret (p1 =? 47) else Ret false in
      if (before =? 47) && after then
        let! r := if p0 =? 47 then rec (zdrop (p + 1) pat) 0 text else Ret WM_NOMATCH in
        Ret (if (p0 =? 47) && (r =? WM_MATCH) then inl WM_MATCH else inr (p, true))
      else Ret (inr (p, false))
  else Ret (inr (p + 1, negb (flag flags WM_PATHNAME))).

(** What comes after the asterisks. *)
Definition star_rest (rec : list Z → Z → list Z → outcome Z) (pat : list Z) (p : Z) (match_slash : bool)
  (text : list Z) (t_ch flags : Z) : outcome Z :=
  let! p0 := rd pat p in
  if p0 =? 0 then
    if negb match_slash then
      let! slash := strchr_slash text in
      Ret (match slash with Some _ => WM_ABORT_TO_STARSTAR | None => WM_MATCH end)
    else Ret WM_MATCH
  else if negb match_slash && (p0 =? 47) then
    let! slash := strchr_slash text in
    match slash with
    | None => Ret WM_ABORT_ALL
    | Some text => rec pat (p + 1) (zdrop 1 text)
    end
  else star_loop (S (length text)) (rec (zdrop p pat) 0) flags p0 match_slash text t_ch.

(** ** The matcher

    [pat] is the pattern from the variable [pattern] on and [p] the place in it;
    the text is what is left of it.  The fuel bounds the pattern that is left. *)
Fixpoint dowild (fuel : nat) (pat : list Z) (p : Z) (text : list Z) (flags : Z) : outcome Z :=
  match fuel with
  | O => NoFuel
  | S fuel =>
      let rec pat p text := dowild fuel pat p text flags in
      let! p_ch := rd pat p in
      let! t_ch := rd text 0 in
      if p_ch =? 0 then Ret (if t_ch =? 0 then WM_MATCH else WM_NOMATCH)
      else if (t_ch =? 0) && negb (p_ch =? 42) then Ret WM_ABORT_ALL
      else
        let t_ch := fold flags t_ch in
        let p_ch := fold flags p_ch in
        if p_ch =? 63 then
          if flag flags WM_PATHNAME && (t_ch =? 47) then Ret WM_NOMATCH
          else rec pat (p + 1) (zdrop 1 text)
        else if p_ch =? 42 then
          let! star := star_kind rec pat p text flags in
          match star with
          | inl r => Ret r
          | inr (p, match_slash) => star_rest rec pat p match_slash text t_ch flags
          end
        else if p_ch =? 91 then
          let! r := bracket pat flags t_ch p in
          match r with
          | None => Ret WM_ABORT_ALL
          | Some (p, ok) =>
              if negb ok || (flag flags WM_PATHNAME && (t_ch =? 47)) then Ret WM_NOMATCH
              else rec pat (p + 1) (zdrop 1 text)
          end
        else
          let! (p, p_ch) := if p_ch =? 92 then let! c := rd pat (p + 1) in Ret (p + 1, c) else Ret (p, p_ch) in
          if negb (t_ch =? p_ch) then Ret WM_NOMATCH else rec pat (p + 1) (zdrop 1 text)
  end.

Definition wildmatch (pattern text : list Z) (flags : Z) : outcome Z :=
  let! res := dowild (S (length pattern)) pattern 0 text flags in
  Ret (if res =? WM_MATCH then WM_MATCH else WM_NOMATCH).
(** ** The specification: patterns as elements

    [Dirs] is a ["**/"] that makes up a whole component: any number of leading
    directories, or none.  [Bad] is a malformed rest, which matches nothing. *)
Inductive item := Single (c : Z) | Range (lo hi : Z) | Named (name : list Z).
Inductive elem := Lit (c : Z) | Any | Set_ (negated : bool) (items : list item) | Star (slash : bool) | Dirs | Bad.

Section spec.
Context (flags : Z).

Definition in_item (t : Z) (it : item) : bool :=
  match it with
  | Single c => t =? c
  | Range lo hi => ((t <=? hi) && (lo <=? t)) ||
                   (flag flags WM_CASEFOLD && ISLOWER t && ((toupper t <=? hi) && (lo <=? toupper t)))
  | Named name => default false (class_test name flags t)
  end.

(** The elements that stand for one byte of the text. *)
Definition accepts (e : elem) (x : Z) : bool :=
  let t := fold flags x in
  match e with
  | Lit c => t =? c
  | Any => negb (flag flags WM_PATHNAME && (t =? 47))
  | Set_ negated items => negb (eqb (existsb (in_item t) items) negated) && negb (flag flags WM_PATHNAME && (t =? 47))
  | _ => false
  end.

Inductive matches : list elem → list Z → Prop :=
| matches_nil : matches [] []
| matches_one e es x s : accepts e x = true → matches es s → matches (e :: es) (x :: s)
| matches_star b es u s : (b = false → 47 ∉ u) → matches es s → matches (Star b :: es) (u ++ s)
| matches_dirs_none es s : matches es s → matches (Dirs :: es) s
| matches_dirs es u s : matches es s → matches (Dirs :: es) (u ++ 47 :: s).

(** *** Reading a pattern *)

(** The bytes up to the closing bracket, and what follows it. *)
Fixpoint until_bracket (p : list Z) : option (list Z * list Z) :=
  match p with
  | [] => None
  | c :: p => if c =? 93 then Some ([], p) else (λ '(n, q), (c :: n, q)) <$> until_bracket p
  end.

(** The first item of [p], what [prev_ch] is after it, and what follows. *)
Definition next_item (prev : Z) (p : list Z) : option (item * Z * list Z) :=
  match p with
  | [] => None
  | c :: q =>
      if c =? 92 then match q with [] => None | d :: q => Some (Single d, d, q) end
      else if (c =? 45) && negb (prev =? 0) && match q with d :: _ => negb (d =? 93) | [] => false end then
        match q with
        | d :: q => if d =? 92 then match q with [] => None | e :: q => Some (Range prev e, 0, q) end
                    else Some (Range prev d, 0, q)
        | [] => None
        end
      else if (c =? 91) && match q with d :: _ => d =? 58 | [] => false end then
        match until_bracket (tail q) with
        | None => None
        | Some (name, r) =>
            if bool_decide (last name = Some 58) then
              let name := ztake (zlen name - 1) name in
              if bool_decide (is_Some (class_test name 0 0)) then Some (Named name, 0, r) else None
            else Some (Single 91, 91, q)
        end
      else Some (Single c, c, q)
  end.

Fixpoint read_items (fuel : nat) (prev : Z) (p : list Z) : option (list item * list Z) :=
  match fuel with
  | O => None
  | S fuel =>
      match next_item prev p with
      | None => None
      | Some (it, prev, q) =>
          match q with
          | [] => None
          | c :: r => if c =? 93 then Some ([it], r) else (λ '(its, r), (it :: its, r)) <$> read_items fuel prev q
          end
      end
  end.

Definition read_set (p : list Z) : option (bool * list item * list Z) :=
  match p with
  | [] => None
  | c :: q =>
      let negated := (c =? NEGATE_CLASS) || (c =? NEGATE_CLASS2) in
      (λ '(its, r), (negated, its, r)) <$> read_items (S (length p)) 0 (if negated then q else p)
  end.

Fixpoint drop_stars (p : list Z) : list Z :=
  match p with [] => [] | c :: q => if c =? 42 then drop_stars q else p end.

(** Does a component end at [p]? *)
Definition ends_component (p : list Z) : bool :=
  match p with
  | [] => true
  | c :: q => (c =? 47) || ((c =? 92) && match q with d :: _ => d =? 47 | [] => false end)
  end.

(** [prev] is the byte in front of [p], a slash at the start. *)
Fixpoint read (fuel : nat) (prev : Z) (p : list Z) : list elem :=
  match fuel with
  | O => [Bad]
  | S fuel =>
      match p with
      | [] => []
      | c :: q =>
          if c =? 63 then Any :: read fuel c q
          else if c =? 42 then
            match q with
            | d :: _ =>
                if d =? 42 then
                  let r := drop_stars q in
                  if negb (flag flags WM_PATHNAME) then Star true :: read fuel c r
                  else if (prev =? 47) && ends_component r then
                    match r with
                    | e :: s => if e =? 47 then Dirs :: read fuel e s else Star true :: read fuel c r
                    | [] => [Star true]
                    end
                  else Star false :: read fuel c r
                else Star (negb (flag flags WM_PATHNAME)) :: read fuel c q
            | [] => [Star (negb (flag flags WM_PATHNAME))]
            end
          else if c =? 91 then
            match read_set q with
            | Some (negated, its, r) => Set_ negated its :: read fuel 93 r
            | None => [Bad]
            end
          else if c =? 92 then
            match q with d :: q => Lit d :: read fuel d q | [] => [Bad] end
          else Lit (fold flags c) :: read fuel c q
      end
  end.
Definition elements (pattern : list Z) : list elem := read (S (length pattern)) 47 pattern.

(** ** What the answers of [dowild] mean

    [WM_ABORT_ALL]: no end of the text matches either; where the pattern starts
    with [Dirs], only ends that start a component count.  [WM_ABORT_TO_STARSTAR]:
    no end of the text matches that a plain asterisk in front could leave. *)
Definition starts_dirs (es : list elem) : Prop := head es = Some Dirs.
Definition none_after (es : list elem) (T : list Z) : Prop :=
  ∀ u s, T = u ++ s → (starts_dirs es → u = [] ∨ last u = Some 47) → ¬ matches es s.
Definition none_in_component (es : list elem) (T : list Z) : Prop :=
  ∀ u s, T = u ++ s → 47 ∉ u → ¬ matches es s.

Definition answer (es : list elem) (T : list Z) (r : Z) : Prop :=
  (r = WM_MATCH ∧ matches es T) ∨
  (r = WM_NOMATCH ∧ ¬ matches es T) ∨
  (r = WM_ABORT_ALL ∧ none_after es T) ∨
  (r = WM_ABORT_TO_STARSTAR ∧ flag flags WM_PATHNAME = true ∧ none_in_component es T).

Lemma answer_match es T r : answer es T r → r = WM_MATCH ↔ matches es T.
Proof.
  unfold answer, WM_MATCH, WM_NOMATCH, WM_ABORT_ALL, WM_ABORT_TO_STARSTAR.
  intros [[-> H]|[[-> H]|[[-> H]|(-> & _ & H)]]]; (split; [done|]); try done; intros HM; exfalso.
  - by apply (H [] T); [|left|].
  - apply (H [] T); [done| |done]. by apply not_elem_of_nil.
Qed.

(** *** Single bytes *)
Lemma fold_cases c : byte_ok c → fold flags c = c ∨ (65 <= c <= 90 ∧ fold flags c = c + 32).
Proof.
  intros Hc. unfold fold. destruct (flag flags WM_CASEFOLD); [|by left]. cbn [andb].
  destruct (ISUPPER c) eqn:E; [|by left]. right.
  assert (negb (ISUPPER c) || ((65 <=? c) && (c <=? 90)) = true) as H.
  { clear E. solve_byte c Hc. }
  rewrite E in H. cbn in H. split; [lia|]. rewrite tolower_spec by done. by rewrite H.
Qed.
Lemma fold_low c k : byte_ok c → k < 65 → fold flags c = k ↔ c = k.
Proof. intros Hc Hk. destruct (fold_cases c Hc) as [->|[? ->]]; lia. Qed.

Definition one (e : elem) : Prop := match e with Lit _ | Any | Set_ _ _ => True | _ => False end.

Lemma matches_one_inv e es s : one e → matches (e :: es) s →
  ∃ x s', s = x :: s' ∧ accepts e x = true ∧ matches es s'.
Proof. intros He H. inversion H; subst; try done. eauto. Qed.
Lemma matches_bad es s : ¬ matches (Bad :: es) s.
Proof. intros H. inversion H; subst. done. Qed.

(** In path mode, an element that takes a slash takes nothing else. *)
Lemma one_rigid e : flag flags WM_PATHNAME = true → one e → ∀ x, byte_ok x →
  accepts e 47 = true → accepts e x = true → x = 47.
Proof.
  intros Hp He x Hx H47 HX. assert (fold flags 47 = 47) as E47 by (apply fold_low; unfold byte_ok; lia).
  destruct e; try done; unfold accepts in H47, HX; rewrite E47, ?Hp in H47;
    change (47 =? 47) with true in H47; cbn [andb negb] in H47.
  - apply Z.eqb_eq in H47 as <-. apply Z.eqb_eq in HX. by apply (fold_low x 47) in HX; [|done|lia].
  - done.
  - by rewrite andb_false_r in H47.
Qed.

(** Having matched one byte, the answer for the rest is the answer. *)
Lemma answer_one e es x T r : one e → Forall byte_ok (x :: T) → accepts e x = true →
  (starts_dirs es → ∀ y, byte_ok y → accepts e y = true → y = 47) →
  answer es T r → answer (e :: es) (x :: T) r.
Proof.
  intros He HT Hx Hd Ha.
  assert (∀ es, ¬ starts_dirs (e :: es)) as Hnd by (intros es'; unfold starts_dirs; cbn; destruct e; done).
  destruct Ha as [[-> H]|[[-> H]|[[-> H]|(-> & Hp & H)]]].
  - left. split; [done|]. by constructor.
  - right; left. split; [done|]. intros (y & s' & [= <- <-] & _ & HM)%matches_one_inv; done.
  - right; right; left. split; [done|]. intros u s E _ (y & s' & -> & Hy & HM)%matches_one_inv; [|done].
    rewrite E in HT. apply Forall_app in HT as [_ [Hby _]%Forall_cons].
    destruct u as [|z u]; injection E as -> ->.
    + apply (H [] s'); [done|by left|done].
    + apply (H (u ++ [y]) s'); [by rewrite <- app_assoc|intros Hs; right; rewrite last_snoc; f_equal; by apply Hd|done].
  - right; right; right. split_and!; try done. intros u s E Hu (y & s' & -> & Hy & HM)%matches_one_inv; [|done].
    assert (byte_ok x) as Hbx by (by inversion HT).
    destruct u as [|z u]; injection E as -> ->.
    + apply (H [] s'); [done|apply not_elem_of_nil|done].
    + apply (H (u ++ [y]) s'); [by rewrite <- app_assoc| |done]. intros Hin. apply elem_of_app in Hin as [Hin|Hin].
      * apply Hu, elem_of_cons. by right.
      * apply list_elem_of_singleton in Hin. subst y. apply Hu. rewrite (one_rigid e Hp He z Hbx Hy Hx). by apply elem_of_cons; left.
Qed.

(** A byte that does not match ends it, and so does the end of the text. *)
Lemma answer_mismatch e es x T : one e → accepts e x = false → answer (e :: es) (x :: T) WM_NOMATCH.
Proof.
  intros He Hx. right; left. split; [done|]. intros (y & s' & [= <- <-] & Hy & _)%matches_one_inv; [congruence|done].
Qed.

(** *** Asterisks *)
Lemma matches_star_inv b es T : matches (Star b :: es) T ↔ ∃ u s, T = u ++ s ∧ (b = false → 47 ∉ u) ∧ matches es s.
Proof.
  split; [intros H; inversion H; subst; [done|eauto]|]. intros (u & s & -> & Hu & HM). by constructor.
Qed.

(** The rest of the pattern does not match at any place before the end of [u]. *)
Definition tried (es : list elem) (T u : list Z) : Prop :=
  ∀ v w, T = v ++ w → (length v < length u)%nat → ¬ matches es w.

Lemma app_split (v w u s : list Z) : v ++ w = u ++ s → (length u <= length v)%nat → ∃ x, v = u ++ x ∧ s = x ++ w.
Proof.
  intros E Hl. apply app_eq_app in E as [x [[-> ->]|[-> ->]]]; [by exists x|].
  rewrite length_app in Hl. destruct x; [|cbn in Hl; lia]. exists []. by rewrite !app_nil_r.
Qed.

Lemma tried_all b es T u s : T = u ++ s → tried es T u → (∀ v w, s = v ++ w → ¬ matches es w) → none_after (Star b :: es) T.
Proof.
  intros -> Ht Hs u' s' E _ (v & w & -> & _ & HM)%matches_star_inv.
  destruct (decide (length (u' ++ v) < length u)%nat) as [Hl|Hl].
  - apply (Ht (u' ++ v) w); [by rewrite E, app_assoc|done|done].
  - rewrite app_assoc in E. symmetry in E. apply app_split in E as (x & _ & ->); [|lia]. by apply (Hs x w).
Qed.
Lemma tried_component es T u s : T = u ++ s → 47 ∉ u → tried es T u → none_in_component es s →
  none_in_component (Star false :: es) T.
Proof.
  intros -> Hu Ht Hs u' s' E Hu' (v & w & -> & Hv & HM)%matches_star_inv. specialize (Hv eq_refl).
  destruct (decide (length (u' ++ v) < length u)%nat) as [Hl|Hl].
  - apply (Ht (u' ++ v) w); [by rewrite E, app_assoc|done|done].
  - rewrite app_assoc in E. symmetry in E. apply app_split in E as (x & Ex & ->); [|lia]. apply (Hs x w); [done| |done].
    intros Hx. assert (47 ∈ u' ++ v) as H by (rewrite Ex; apply elem_of_app; by right). apply elem_of_app in H as [?|?]; done.
Qed.
(** One more place. *)
Lemma tried_snoc es T u y r : T = u ++ y :: r → tried es T u → ¬ matches es (y :: r) → tried es T (u ++ [y]).
Proof.
  intros ET Ht Hn v w E Hl. destruct (decide (length v < length u)%nat) as [Hlt|Hge]; [by apply (Ht v w)|].
  rewrite E in ET. apply app_split in ET as (x & -> & E2); [|lia]. rewrite !length_app in Hl. cbn in Hl.
  destruct x; [|cbn in Hl; lia]. cbn in E2. by subst w.
Qed.

(** The fast advance passes only places where the literal is not. *)
Lemma advance_ok es p_first b es' trest T : es = Lit (fold flags p_first) :: es' → 0 < p_first < 256 → (b = false → p_first ≠ 47) →
  no_nul T → ∀ s u, T = u ++ s → tried es T u → (b = false → 47 ∉ u) →
  ∃ u' s' t_ch, T = u' ++ s' ∧ tried es T u' ∧ (b = false → 47 ∉ u') ∧ (length s' <= length s)%nat ∧
    advance flags (fold flags p_first) b (s ++ 0 :: trest) = Ret (s' ++ 0 :: trest, t_ch) ∧
    ((t_ch = fold flags p_first ∧ ∃ y r, s' = y :: r ∧ t_ch = fold flags y) ∨
     (t_ch ≠ fold flags p_first ∧ (s' = [] ∨ b = false ∧ ∃ r, s' = 47 :: r ∧ ¬ matches es s'))).
Proof.
  intros -> Hpf H47 HT s. induction s as [|y r IH]; intros u ET Ht Hu; cbn [app advance].
  - cbn. exists u, [], 0. split_and!; try done. right. split; [|by left].
    intros E. symmetry in E. apply (fold_low p_first 0) in E; unfold byte_ok; lia.
  - assert (0 < y < 256) as Hy. { rewrite ET in HT. apply Forall_app in HT as [_ HT]. by inversion HT. }
    rewrite (proj2 (Z.eqb_neq y 0)) by lia. cbn [negb andb].
    assert (∀ es', fold flags y ≠ fold flags p_first → ¬ matches (Lit (fold flags p_first) :: es') (y :: r)) as Hno.
    { intros es'' Hne (z & s' & [= <- <-] & Hz & _)%matches_one_inv; [|done]. cbn in Hz. apply Z.eqb_eq in Hz. done. }
    destruct (b || negb (y =? 47)) eqn:Eb.
    + destruct (Z.eqb_spec (fold flags y) (fold flags p_first)) as [E|E].
      * exists u, (y :: r), (fold flags y). split_and!; try done. left. eauto.
      * destruct (IH (u ++ [y])) as (u' & s' & t_ch & E1 & E2 & E3 & E4 & E5 & E6).
        -- rewrite ET. solve_app.
        -- eapply tried_snoc; [exact ET|done|by apply Hno].
        -- intros ->. cbn in Eb. apply negb_true_iff, Z.eqb_neq in Eb. rewrite not_elem_of_app, list_elem_of_singleton. auto.
        -- exists u', s', t_ch. split_and!; try done. cbn. lia.
    + apply orb_false_iff in Eb as [-> Ey]. apply negb_false_iff, Z.eqb_eq in Ey. subst y.
      exists u, (47 :: r), 47. split_and!; try done. right.
      assert (47 ≠ fold flags p_first) as Hne.
      { intros E. symmetry in E. apply (fold_low p_first 47) in E; [by apply H47|unfold byte_ok; lia|lia]. }
      split; [done|]. right. split; [done|]. exists r. split; [done|]. apply Hno.
      rewrite (proj2 (fold_low 47 47 ltac:(unfold byte_ok; lia) ltac:(lia)) eq_refl). done.
Qed.

Section star.
Context (rec : list Z → outcome Z) (es : list elem) (p_first : Z) (b : bool) (trest T : list Z).
Hypothesis (Hrec : ∀ s u, T = u ++ s → returns (rec (s ++ 0 :: trest)) (answer es s)).
Hypothesis (Hnd : ¬ starts_dirs es) (Hne : ¬ matches es []) (Hpf : 0 < p_first < 256) (H47 : b = false → p_first ≠ 47).
Hypothesis (Hlit : is_glob_special p_first = false → ∃ es', es = Lit (fold flags p_first) :: es').
Hypothesis (HT : no_nul T) (Hpath : b = false → flag flags WM_PATHNAME = true).

(** A full answer of the loop: with [match_slash] it never gives up at a slash. *)
Definition star_answer (r : Z) : Prop := answer (Star b :: es) T r ∧ (b = true → r ≠ WM_ABORT_TO_STARSTAR).

Lemma star_gave_up u s : T = u ++ s → tried es T u → (∀ v w, s = v ++ w → ¬ matches es w) → star_answer WM_ABORT_ALL.
Proof. intros ET Ht Hs. split; [|done]. right; right; left. split; [done|]. by eapply tried_all. Qed.
Lemma star_stopped u s : b = false → T = u ++ s → 47 ∉ u → tried es T u → none_in_component es s → star_answer WM_ABORT_TO_STARSTAR.
Proof.
  intros Hb ET Hu Ht Hs. split; [|by rewrite Hb]. right; right; right. split_and!; [done|auto|]. rewrite Hb. by eapply tried_component.
Qed.
Lemma none_at_slash r : ¬ matches es (47 :: r) → none_in_component es (47 :: r).
Proof.
  intros Hn v w Ev Hv. destruct v as [|z v]; [cbn in Ev; by subst w|]. injection Ev as <- ->. exfalso. apply Hv. by apply elem_of_cons; left.
Qed.
Lemma none_at_end v w : [] = v ++ w → ¬ matches es w.
Proof. intros E. symmetry in E. by apply app_eq_nil in E as [-> ->]. Qed.

Section try.
Context (next : list Z → Z → outcome Z) (y : Z) (r u : list Z).
Hypothesis (ET : T = u ++ y :: r) (Ht : tried es T u) (Hu : b = false → 47 ∉ u).
Hypothesis (Hnext : ∀ t_ch, match r with [] => t_ch = 0 | x :: _ => t_ch = x ∨ t_ch = fold flags x end →
  tried es T (u ++ [y]) → (b = false → 47 ∉ u ++ [y]) → returns (next (r ++ 0 :: trest) t_ch) star_answer).

Lemma star_next : ¬ matches es (y :: r) → (b = false → y ≠ 47) →
  returns (let! t_ch := rd ((y :: r) ++ 0 :: trest) 1 in next (zdrop 1 ((y :: r) ++ 0 :: trest)) t_ch) star_answer.
Proof.
  intros Hn Hy47. change (zdrop 1 ((y :: r) ++ 0 :: trest)) with (r ++ 0 :: trest).
  assert (∃ c, rd ((y :: r) ++ 0 :: trest) 1 = Ret c ∧ match r with [] => c = 0 | x :: _ => c = x end) as (c & -> & Hc).
  { clear. destruct r as [|z r']; by eexists. }
  cbn [obind]. apply (Hnext c).
  - clear -Hc. destruct r; [done|by left].
  - by eapply tried_snoc.
  - intros Hb. rewrite not_elem_of_app, list_elem_of_singleton. split; [auto|]. intros <-. by apply Hy47.
Qed.

Lemma star_try_ok t_ch : t_ch = y ∨ t_ch = fold flags y →
  returns (star_try rec b next ((y :: r) ++ 0 :: trest) t_ch) star_answer.
Proof.
  intros Hch. unfold star_try. apply wp_bind.
  assert (0 < y < 256) as Hy by (apply (proj1 (Forall_forall _ _) HT); rewrite ET; set_solver).
  assert (t_ch = 47 ↔ y = 47) as H47'. { destruct Hch as [->| ->]; [done|]. apply fold_low; unfold byte_ok; lia. }
  eapply wp_mono; [|by apply (Hrec (y :: r) u)]. intros m Hm.
  destruct Hm as [[-> HM]|[[-> HM]|[[-> HM]|(-> & Hp & HM)]]].
  - change (negb (WM_MATCH =? WM_NOMATCH)) with true. change (negb (WM_MATCH =? WM_ABORT_TO_STARSTAR)) with true.
    rewrite orb_true_r. cbn. split; [|done]. left. split; [done|]. rewrite ET. by constructor.
  - change (WM_NOMATCH =? WM_NOMATCH) with true. cbn [negb andb].
    destruct (decide (b = true)) as [Eb|Eb%not_true_is_false]; rewrite Eb; cbn [negb andb]; [apply star_next; [done|congruence]|].
    destruct (Z.eqb_spec t_ch 47) as [E|E]; [|apply star_next; [done|]; intros _ Hy'; by apply E, H47'].
    apply H47' in E as ->. cbn. eapply star_stopped; [done|exact ET|auto|done|by apply none_at_slash].
  - change (negb (WM_ABORT_ALL =? WM_NOMATCH)) with true. change (negb (WM_ABORT_ALL =? WM_ABORT_TO_STARSTAR)) with true.
    rewrite orb_true_r. cbn. eapply star_gave_up; [exact ET|done|]. intros v w Ev. by apply (HM v w).
  - change (negb (WM_ABORT_TO_STARSTAR =? WM_NOMATCH)) with true. change (negb (WM_ABORT_TO_STARSTAR =? WM_ABORT_TO_STARSTAR)) with false.
    rewrite orb_false_r. destruct (decide (b = true)) as [Eb|Eb%not_true_is_false]; rewrite Eb; cbn [negb andb].
    + apply star_next; [|congruence]. apply (HM [] (y :: r)); [done|]. by apply not_elem_of_nil.
    + cbn. eapply star_stopped; [done|exact ET|auto|done|done].
Qed.
End try.

Lemma star_loop_ok : ∀ fuel s u t_ch, T = u ++ s → (length s < fuel)%nat → tried es T u → (b = false → 47 ∉ u) →
  match s with [] => t_ch = 0 | x :: _ => t_ch = x ∨ t_ch = fold flags x end →
  returns (star_loop fuel rec flags p_first b (s ++ 0 :: trest) t_ch) star_answer.
Proof.
  induction fuel as [|fuel IH]; intros s u t_ch ET Hf Ht Hu Hch; [lia|]. cbn [star_loop].
  destruct s as [|x s]; [subst t_ch; cbn; eapply star_gave_up; [exact ET|done|apply none_at_end]|].
  assert (0 < x < 256) as Hx by (apply (proj1 (Forall_forall _ _) HT); rewrite ET; set_solver).
  rewrite (proj2 (Z.eqb_neq t_ch 0)). 2: { destruct Hch as [->| ->]; [lia|]. rewrite (fold_low x 0); unfold byte_ok; lia. }
  assert (∀ y r u t_ch, T = u ++ y :: r → (length (y :: r) < S fuel)%nat → tried es T u → (b = false → 47 ∉ u) →
    t_ch = y ∨ t_ch = fold flags y →
    returns (star_try rec b (star_loop fuel rec flags p_first b) ((y :: r) ++ 0 :: trest) t_ch) star_answer) as Htry.
  { intros y r v c Ev Hl Hv Hv' Hc. apply (star_try_ok _ y r v); try done. intros c' Hc' Hv1 Hv2.
    apply (IH r (v ++ [y])); try done; [rewrite Ev; solve_app|cbn in Hl; lia]. }
  destruct (is_glob_special p_first) eqn:Eg; [by apply (Htry x s u)|].
  destruct (Hlit eq_refl) as [es' Ees].
  destruct (advance_ok es p_first b es' trest T Ees Hpf H47 HT (x :: s) u ET Ht Hu) as (u' & s' & c & E1 & E2 & E3 & E4 & -> & Hcase).
  cbn [obind]. destruct Hcase as [(-> & y & r & -> & Ey)|(Hc & Hstop)].
  - rewrite Z.eqb_refl. cbn [negb]. apply (Htry y r u'); try done; [lia|]. by right.
  - rewrite (proj2 (Z.eqb_neq c _)) by done. cbn [negb].
    destruct (decide (b = true)) as [Eb|Eb%not_true_is_false]; rewrite Eb; cbn.
    + destruct Hstop as [->|[? _]]; [|congruence]. eapply star_gave_up; [exact E1|done|apply none_at_end].
    + eapply star_stopped; [done|exact E1|auto|done|]. destruct Hstop as [->|(_ & r & -> & Hn)]; [|by apply none_at_slash].
      intros v w Ev _. by apply (none_at_end v).
Qed.
End star.

End spec.


(** ** Reading the pattern as the code does *)
Section pattern.
Context (flags : Z) (P rest : list Z).
Hypothesis HP : no_nul P.
Abbreviation pat := (P ++ 0 :: rest).

(** The byte at the head, 0 at the end. *)
Definition hd0 (q : list Z) : Z := match q with [] => 0 | c :: _ => c end.

Lemma rd_pat p : 0 <= p <= zlen P → rd pat p = Ret (hd0 (zdrop p P)).
Proof.
  intros Hp. destruct (zdrop p P) as [|c q] eqn:E.
  - assert (p = zlen P) as ->. { apply (f_equal zlen) in E. rewrite zlen_zdrop, zlen_nil in E; lia. }
    apply rd_znth, znth_app_len.
  - apply (rd_at _ (ztake p P) c (q ++ 0 :: rest)); [|rewrite zlen_ztake; lia].
    rewrite <- (ztake_zdrop p P) at 1. rewrite E. solve_app.
Qed.
Lemma zdrop_step p c q : 0 <= p → zdrop p P = c :: q → zdrop (p + 1) P = q ∧ p + 1 <= zlen P ∧ 0 < c < 256.
Proof.
  intros Hp E. assert (c ∈ P) as Hc by (rewrite <- (ztake_zdrop p P), E; set_solver).
  apply (proj1 (Forall_forall _ _) HP) in Hc. split; [|split; [|done]].
  - rewrite <- (zdrop_zdrop P 1 p), E by lia. done.
  - pose proof (f_equal zlen E) as El. rewrite zlen_zdrop_max, zlen_cons in El. zlen_pos. lia.
Qed.
Lemma zdrop_end p : 0 <= p <= zlen P → zdrop p P = [] → p = zlen P.
Proof. intros Hp E. apply (f_equal zlen) in E. rewrite zlen_zdrop, zlen_nil in E; lia. Qed.

(** Moving over a known stretch. *)
Lemma zdrop_over p l q : 0 <= p <= zlen P → zdrop p P = l ++ q → zdrop (p + zlen l) P = q ∧ p + zlen l <= zlen P.
Proof.
  intros Hp E. pose proof (f_equal zlen E) as El. rewrite zlen_zdrop, zlen_app in El by lia. zlen_pos. split; [|lia].
  rewrite <- (zdrop_zdrop P (zlen l) p), E by lia. apply zdrop_app_len.
Qed.

Lemma until_bracket_spec q name r : until_bracket q = Some (name, r) → q = name ++ 93 :: r.
Proof.
  revert name r. induction q as [|c q IH]; intros name r; cbn [until_bracket]; [done|].
  destruct (Z.eqb_spec c 93) as [->|]; [by intros [= <- <-]|].
  destruct (until_bracket q) as [[nm r']|]; [|done]. cbn. intros [= <- <-]. by rewrite (IH nm r').
Qed.

Lemma scan_class_ok : ∀ fuel p, 0 <= p <= zlen P → (length (zdrop p P) < fuel)%nat →
  scan_class fuel pat p = Ret (match until_bracket (zdrop p P) with
                               | Some (name, _) => (p + zlen name, 93) | None => (zlen P, 0) end).
Proof.
  induction fuel as [|fuel IH]; intros p Hp Hf; [lia|]. cbn [scan_class]. rewrite rd_pat by done. cbn [obind].
  destruct (zdrop p P) as [|c q] eqn:E; cbn [hd0 until_bracket].
  - cbn. by rewrite (zdrop_end p Hp E).
  - destruct (zdrop_step p c q ltac:(lia) E) as (Eq & Hp1 & Hc). rewrite (proj2 (Z.eqb_neq c 0)) by lia. cbn [orb].
    destruct (Z.eqb_spec c 93) as [->|]; [by rewrite zlen_nil, Z.add_0_r|].
    rewrite IH, Eq; [|lia|rewrite Eq; cbn in Hf; lia].
    destruct (until_bracket q) as [[nm r]|]; cbn; [|done]. do 2 f_equal. zlia.
Qed.

Lemma class_test_defined name t : is_Some (class_test name flags t) ↔ is_Some (class_test name 0 0).
Proof.
  unfold class_test. repeat (case_bool_decide; [split; intros _; by eexists|]). done.
Qed.

Lemma next_item_shorter prev q it prev' r : next_item prev q = Some (it, prev', r) → (length r < length q)%nat.
Proof.
  destruct q as [|c q]; cbn [next_item]; [done|]. destruct (c =? 92).
  { destruct q; [done|]. intros [= <- <- <-]. cbn. lia. }
  destruct ((c =? 45) && _ && _).
  { destruct q as [|d q]; [done|]. destruct (d =? 92); [destruct q; [done|]|]; intros [= <- <- <-]; cbn; lia. }
  destruct ((c =? 91) && _); [|intros [= <- <- <-]; cbn; lia].
  destruct (until_bracket (tail q)) as [[name r']|] eqn:E; [|done]. apply until_bracket_spec in E.
  case_bool_decide; [case_bool_decide; [|done]|]; intros [= <- <- <-]; [|cbn; lia].
  assert (length (tail q) <= length q)%nat by (destruct q; cbn; lia). rewrite E, length_app in *. cbn in *. lia.
Qed.

(** *** One item *)
Lemma bracket_step_ok t p prev matched : 0 <= p <= zlen P → 0 <= prev →
  match next_item prev (zdrop p P) with
  | None => bracket_step pat flags t p (hd0 (zdrop p P)) prev matched = Ret None
  | Some (it, prev', r) => ∃ p', zdrop (p' + 1) P = r ∧ 0 <= p' + 1 <= zlen P ∧ 0 <= prev' ∧
      bracket_step pat flags t p (hd0 (zdrop p P)) prev matched = Ret (Some (p', prev', matched || in_item flags t it))
  end.
Proof.
  intros Hp Hprev. unfold bracket_step. destruct (zdrop p P) as [|c q] eqn:E; cbn [next_item hd0]; [done|].
  destruct (zdrop_step p c q ltac:(lia) E) as (Eq & Hp1 & Hc). rewrite (proj2 (Z.eqb_neq c 0)) by lia.
  rewrite (rd_pat (p + 1)), Eq by lia. cbn [obind].
  destruct (Z.eqb_spec c 92) as [->|N92].
  { destruct q as [|d q]; [done|]. destruct (zdrop_step (p + 1) d q ltac:(lia) Eq) as (Ed & Hp2 & Hd). cbn [hd0].
    rewrite (proj2 (Z.eqb_neq d 0)) by lia. exists (p + 1). split_and!; (done || lia). }
  replace ((c =? 45) && negb (prev =? 0) && negb (hd0 q =? 0) && negb (hd0 q =? 93))
    with ((c =? 45) && negb (prev =? 0) && match q with d :: _ => negb (d =? 93) | [] => false end).
  2: { destruct q as [|d q]; cbn [hd0]; [by rewrite !andb_false_r|].
       destruct (zdrop_step (p + 1) d q ltac:(lia) Eq) as (_ & _ & Hd). rewrite (proj2 (Z.eqb_neq d 0)) by lia.
       cbn [negb]. by rewrite andb_true_r. }
  destruct ((c =? 45) && negb (prev =? 0) && _) eqn:Erange.
  { destruct q as [|d q]; [by rewrite andb_false_r in Erange|]. destruct (zdrop_step (p + 1) d q ltac:(lia) Eq) as (Ed & Hp2 & Hd). cbn [hd0].
    destruct (Z.eqb_spec d 92) as [->|]; cbn [andb].
    - rewrite (rd_pat (p + 1 + 1)), Ed by lia. cbn [obind]. destruct q as [|e q]; [done|].
      destruct (zdrop_step (p + 1 + 1) e q ltac:(lia) Ed) as (Ee & Hp3 & He). cbn [hd0]. rewrite (proj2 (Z.eqb_neq e 0)) by lia.
      exists (p + 1 + 1). split_and!; try done; try lia. cbn [in_item]. by rewrite orb_assoc.
    - cbn [obind]. exists (p + 1). split_and!; try done; try lia. cbn [in_item]. by rewrite orb_assoc. }
  replace ((c =? 91) && (hd0 q =? 58)) with ((c =? 91) && match q with d :: _ => d =? 58 | [] => false end) by (by destruct q).
  destruct ((c =? 91) && _) eqn:Ecls; [|exists p; split_and!; (done || lia)].
  destruct q as [|d q]; [by rewrite andb_false_r in Ecls|]. apply andb_true_iff in Ecls as [->%Z.eqb_eq ->%Z.eqb_eq].
  destruct (zdrop_step (p + 1) 58 q ltac:(lia) Eq) as (Ed & Hp2 & _). replace (p + 1 + 1) with (p + 2) in * by lia. cbn [tail].
  rewrite scan_class_ok, Ed; [|lia|rewrite length_app, Ed; pose proof (f_equal length Ed) as El; unfold zdrop in El; rewrite length_drop in El; cbn; lia].
  cbn [obind]. destruct (until_bracket q) as [[name r]|] eqn:Eu; [|done]. pose proof (until_bracket_spec q name r Eu) as Eqn.
  change (93 =? 0) with false. cbn match. zlen_pos.
  destruct (zdrop_over (p + 2) name (93 :: r)) as [En Hn]; [lia|by rewrite Ed|].
  destruct (zdrop_step (p + 2 + zlen name) 93 r ltac:(lia) En) as (Er & Hp3 & _).
  assert (rd pat (p + 2 + zlen name - 1) = Ret (default 58 (last name))) as ->.
  { destruct name as [|x name _] using rev_ind.
    - change (p + 2 + zlen [] - 1) with (p + 2 + 0 - 1). replace (p + 2 + 0 - 1) with (p + 1) by lia. by rewrite rd_pat, Eq by lia.
    - rewrite last_snoc. cbn [default from_option id]. rewrite zlen_app. change (zlen [x]) with 1.
      replace (p + 2 + (zlen name + 1) - 1) with (p + 2 + zlen name) by lia.
      rewrite rd_pat by (rewrite zlen_app in Hn; change (zlen [x]) with 1 in Hn; zlen_pos; lia).
      destruct (zdrop_over (p + 2) name (x :: 93 :: r)) as [-> _]; [lia| |done]. rewrite Ed, Eqn. solve_app. }
  cbn [obind]. replace (p + 2 + zlen name - (p + 2) - 1) with (zlen name - 1) by lia.
  replace ((zlen name - 1 <? 0) || negb (default 58 (last name) =? 58)) with (negb (bool_decide (last name = Some 58))).
  2: { destruct name as [|x name _] using rev_ind; [done|]. rewrite last_snoc, zlen_app. change (zlen [x]) with 1. zlen_pos.
       rewrite (proj2 (Z.ltb_ge _ 0)) by lia. cbn [orb default from_option id].
       destruct (Z.eqb_spec x 58) as [->|]; [by rewrite bool_decide_eq_true_2|].
       rewrite bool_decide_eq_false_2; [done|]. by intros [= ->]. }
  destruct (bool_decide (last name = Some 58)) eqn:El; cbn [negb].
  2: { exists p. replace (p + 2 - 2) with p by lia. split_and!; (done || lia). }
  apply bool_decide_eq_true in El. apply last_Some in El as [n' ->]. rewrite zlen_app in *. change (zlen [58]) with 1 in *. zlen_pos.
  replace (zlen n' + 1 - 1) with (zlen n') by lia. rewrite ztake_app_len.
  rewrite (rd_range_at _ (ztake (p + 2) P) n' ((58 :: 93 :: r) ++ 0 :: rest)).
  2: { rewrite <- (ztake_zdrop (p + 2) P) at 1. rewrite Ed, Eqn. solve_app. }
  2: { rewrite zlen_ztake; lia. } 2: done.
  cbn [obind]. pose proof (class_test_defined n' t) as Hdef.
  destruct (class_test n' flags t) as [b|] eqn:Ect.
  - rewrite bool_decide_eq_true_2 by (apply Hdef; by eexists). exists (p + 2 + (zlen n' + 1)).
    split_and!; try done; try lia. cbn [in_item]. by rewrite Ect.
  - rewrite bool_decide_eq_false_2; [done|]. intros Hs. apply Hdef in Hs as [? ?]. done.
Qed.

(** *** The whole bracket *)
Lemma bracket_loop_ok t : ∀ fuel n p prev matched, 0 <= p <= zlen P → 0 <= prev →
  (length (zdrop p P) < fuel)%nat → (length (zdrop p P) < n)%nat →
  match read_items n prev (zdrop p P) with
  | None => bracket_loop fuel pat flags t p (hd0 (zdrop p P)) prev matched = Ret None
  | Some (its, r) => ∃ p', zdrop p' P = 93 :: r ∧ 0 <= p' < zlen P ∧ (length r < length (zdrop p P))%nat ∧
      bracket_loop fuel pat flags t p (hd0 (zdrop p P)) prev matched =
      Ret (Some (p', matched || existsb (in_item flags t) its))
  end.
Proof.
  induction fuel as [|fuel IH]; intros n p prev matched Hp Hprev Hf Hn; [lia|]. destruct n as [|n]; [lia|].
  cbn [bracket_loop read_items]. pose proof (bracket_step_ok t p prev matched Hp Hprev) as Hst.
  destruct (next_item prev (zdrop p P)) as [[[it prev'] q']|] eqn:En; [|by rewrite Hst].
  apply next_item_shorter in En. destruct Hst as (p1 & E1 & Hp1 & Hprev' & ->). cbn [obind].
  rewrite (rd_pat (p1 + 1)), E1 by lia. cbn [obind]. destruct q' as [|c r]; cbn [hd0].
  - change (0 =? 93) with false. cbn match. destruct fuel as [|fuel]; [cbn in Hf; lia|]. cbn [bracket_loop].
    unfold bracket_step. done.
  - destruct (zdrop_step (p1 + 1) c r ltac:(lia) E1) as (E2 & Hp2 & Hc).
    destruct (Z.eqb_spec c 93) as [->|].
    + exists (p1 + 1). split_and!; try done; try lia; [cbn in En; lia|]. cbn. by rewrite orb_false_r.
    + specialize (IH n (p1 + 1) prev' (matched || in_item flags t it)). rewrite E1 in IH. cbn [hd0] in IH.
      specialize (IH ltac:(lia) Hprev' ltac:(lia) ltac:(lia)).
      destruct (read_items n prev' (c :: r)) as [[its r']|]; cbn; [|done].
      destruct IH as (p' & ? & ? & ? & ->). exists p'. split_and!; try done; try lia. by rewrite orb_assoc.
Qed.

Lemma bracket_ok t p q : 0 <= p → zdrop p P = 91 :: q →
  match read_set q with
  | None => bracket pat flags t p = Ret None
  | Some (negated, its, r) => ∃ p', zdrop p' P = 93 :: r ∧ p < p' < zlen P ∧ (length r < length q)%nat ∧
      bracket pat flags t p = Ret (Some (p', negb (eqb (existsb (in_item flags t) its) negated)))
  end.
Proof.
  intros Hp E. destruct (zdrop_step p 91 q Hp E) as (Eq & Hp1 & _). unfold bracket. rewrite (rd_pat (p + 1)), Eq by lia. cbn [obind].
  assert (length pat = length P + S (length rest))%nat as Elen by (rewrite length_app; cbn; lia).
  assert (∀ p, length (zdrop p P) <= length P)%nat as Hle by (intros; unfold zdrop; rewrite length_drop; lia).
  destruct q as [|c q]; cbn [read_set hd0].
  - change (bracket_loop (S (length pat)) pat flags t (p + 1) 0 0 false) with (Ret None : outcome (option (Z * bool))). done.
  - destruct (zdrop_step (p + 1) c q ltac:(lia) Eq) as (E2 & Hp2 & Hc).
    assert ((if c =? NEGATE_CLASS2 then NEGATE_CLASS else c) =? NEGATE_CLASS = (c =? NEGATE_CLASS) || (c =? NEGATE_CLASS2)) as ->.
    { destruct (Z.eqb_spec c NEGATE_CLASS2) as [->|]; [done|]. by rewrite orb_false_r. }
    set (negated := (c =? NEGATE_CLASS) || (c =? NEGATE_CLASS2)). set (p0 := if negated then p + 2 else p + 1).
    set (q0 := if negated then q else c :: q).
    assert (zdrop p0 P = q0 ∧ p < p0 <= zlen P ∧ (length q0 <= length (c :: q))%nat) as (E0 & Hp0 & Hlq).
    { subst p0 q0. destruct negated; [|split_and!; (done || lia)]. replace (p + 2) with (p + 1 + 1) by lia. split_and!; (done || cbn; lia). }
    replace (if negated then _ else _) with (Ret (p0, hd0 (zdrop p0 P)) : outcome (Z * Z)).
    2: { subst p0 q0. destruct negated eqn:En.
         - rewrite (rd_pat (p + 2)) by lia. done.
         - rewrite Eq. cbn [hd0]. assert (c =? NEGATE_CLASS2 = false) as ->; [|done].
           subst negated. by apply orb_false_iff in En as [_ ?]. }
    cbn [obind]. pose proof (bracket_loop_ok t (S (length pat)) (S (length (c :: q))) p0 0 false ltac:(lia) ltac:(lia)) as HL.
    pose proof (Hle p0) as Hl0. rewrite E0 in HL, Hl0. specialize (HL ltac:(lia) ltac:(lia)). rewrite E0.
    destruct (read_items (S (length (c :: q))) 0 q0) as [[its r]|]; cbn [fmap option_fmap option_map]; [|by rewrite HL].
    destruct HL as (p' & ? & ? & ? & ->). exists p'. cbn [obind orb]. split_and!; try done; try lia.
    assert (length (zdrop p P) = S (length (c :: q))) as El by (by rewrite E).
    assert (zlen (zdrop p' P) < zlen (zdrop p P)) as Hz by (unfold zlen; rewrite H; cbn in *; lia).
    rewrite !zlen_zdrop in Hz by lia. lia.
Qed.

(** *** Asterisks and slashes *)
Lemma skip_stars_ok : ∀ fuel p q, 0 <= p → zdrop p P = 42 :: q → (length q < fuel)%nat →
  ∃ p', skip_stars fuel pat p = Ret p' ∧ zdrop p' P = drop_stars q ∧ p < p' <= zlen P.
Proof.
  induction fuel as [|fuel IH]; intros p q Hp E Hf; [lia|]. cbn [skip_stars].
  destruct (zdrop_step p 42 q Hp E) as (Eq & Hp1 & _). rewrite (rd_pat (p + 1)), Eq by lia. cbn [obind].
  destruct q as [|c q]; cbn [hd0 drop_stars]; [by exists (p + 1); split_and!; try lia|].
  destruct (Z.eqb_spec c 42) as [->|]; [|by exists (p + 1); split_and!; try lia].
  destruct (IH (p + 1) q) as (p' & ? & ? & ?); [lia|done|cbn in Hf; lia|]. exists p'. split_and!; (done || lia).
Qed.

End pattern.

Lemma strchr_slash_ok T trest : no_nul T →
  match strchr_slash (T ++ 0 :: trest) with
  | Ret None => 47 ∉ T
  | Ret (Some m) => ∃ u s, T = u ++ 47 :: s ∧ 47 ∉ u ∧ m = 47 :: s ++ 0 :: trest
  | _ => False
  end.
Proof.
  induction 1 as [|c T Hc HT IH]; cbn [app strchr_slash]; [apply not_elem_of_nil|].
  destruct (Z.eqb_spec c 47) as [->|]; [exists [], T; split_and!; [done|apply not_elem_of_nil|done]|].
  rewrite (proj2 (Z.eqb_neq c 0)) by lia. destruct (strchr_slash (T ++ 0 :: trest)) as [[m|]| | |]; try done.
  - destruct IH as (u & s & -> & Hu & ->). exists (c :: u), s. split_and!; try done. rewrite not_elem_of_cons. auto.
  - rewrite not_elem_of_cons. auto.
Qed.

Lemma drop_stars_head q : hd0 (drop_stars q) ≠ 42.
Proof. induction q as [|c q IH]; cbn [drop_stars]; [done|]. by destruct (Z.eqb_spec c 42). Qed.
Lemma drop_stars_shorter q : (length (drop_stars q) <= length q)%nat.
Proof. induction q as [|c q IH]; cbn [drop_stars]; [done|]. destruct (c =? 42); cbn in *; lia. Qed.



(** ** The answers of the whole matcher *)
Section answers.
Context (flags : Z).

Lemma fold_only c k : byte_ok c → k < 65 ∨ 90 < k < 97 → fold flags c = k ↔ c = k.
Proof. intros Hc Hk. destruct (fold_cases flags c Hc) as [->|[? ->]]; lia. Qed.
Lemma fold_nonzero c : 0 < c < 256 → fold flags c ≠ 0.
Proof. intros Hc. rewrite fold_only; unfold byte_ok; lia. Qed.

(** *** Reading *)
Lemma read_prev n prev prev' q : hd0 q ≠ 42 → read flags n prev q = read flags n prev' q.
Proof.
  intros H. destruct n as [|n]; [done|]. destruct q as [|c q]; [done|]. cbn [read hd0] in *.
  by rewrite (proj2 (Z.eqb_neq c 42)).
Qed.
Lemma read_dirs n prev q : starts_dirs (read flags n prev q) → prev = 47 ∧ hd0 q = 42.
Proof.
  unfold starts_dirs. destruct n as [|n]; [done|]. destruct q as [|c q]; [done|]. cbn [read hd0].
  destruct (c =? 63); [done|]. destruct (Z.eqb_spec c 42) as [->|].
  - intros H. split; [|done]. destruct q as [|d q]; [done|]. destruct (d =? 42); [|done].
    destruct (negb _); [done|]. by destruct (Z.eqb_spec prev 47).
  - destruct (c =? 91); [by destruct (read_set q) as [[[]]|]|]. destruct (c =? 92); [by destruct q|done].
Qed.
Lemma read_needs n prev c q : c ≠ 42 → ¬ matches flags (read flags n prev (c :: q)) [].
Proof.
  intros Hc HM. assert (∃ e es, read flags n prev (c :: q) = e :: es ∧ (one e ∨ e = Bad)) as (e & es & E & He).
  { destruct n as [|n]; cbn [read]; [eauto|]. rewrite (proj2 (Z.eqb_neq c 42)) by done.
    destruct (c =? 63); [eexists _, _; split; [done|by left]|].
    destruct (c =? 91); [destruct (read_set q) as [[[]]|]; eexists _, _; (split; [done|]); (by left) || by right|].
    destruct (c =? 92); [destruct q; eexists _, _; (split; [done|]); (by left) || by right|].
    eexists _, _; split; [done|by left]. }
  rewrite E in HM. destruct He as [He| ->]; [by apply matches_one_inv in HM as (? & ? & ? & _)|by eapply matches_bad].
Qed.
Lemma read_lit n prev c q : is_glob_special c = false → read flags (S n) prev (c :: q) = Lit (fold flags c) :: read flags n c q.
Proof.
  intros H. cbn [read]. destruct (Z.eqb_spec c 63) as [->|]; [done|]. destruct (Z.eqb_spec c 42) as [->|]; [done|].
  destruct (Z.eqb_spec c 91) as [->|]; [done|]. by destruct (Z.eqb_spec c 92) as [->|].
Qed.
Lemma fold_slash : fold flags 47 = 47.
Proof. apply fold_only; unfold byte_ok; lia. Qed.

(** *** A trailing asterisk, and an asterisk in front of a slash *)
Lemma star_last_free T : star_answer flags [] true T WM_MATCH.
Proof. split; [|done]. left. split; [done|]. apply matches_star_inv. exists T, []. rewrite app_nil_r. split_and!; [done|done|constructor]. Qed.
Lemma star_last T : flag flags WM_PATHNAME = true →
  star_answer flags [] false T (if decide (47 ∈ T) then WM_ABORT_TO_STARSTAR else WM_MATCH).
Proof.
  intros Hp. split; [|done]. destruct (decide (47 ∈ T)) as [Hin|Hin].
  - right; right; right. split_and!; try done. intros u s -> Hu (v & w & -> & Hv & HM)%matches_star_inv.
    inversion HM; subst. specialize (Hv eq_refl). rewrite app_nil_r in Hin. apply elem_of_app in Hin as [?|?]; done.
  - left. split; [done|]. apply matches_star_inv. exists T, []. rewrite app_nil_r. split_and!; [done|done|constructor].
Qed.

Lemma matches_slash es s : matches flags (Lit 47 :: es) s → Forall byte_ok s → ∃ s', s = 47 :: s' ∧ matches flags es s'.
Proof.
  intros (x & s' & -> & Hx & HM)%matches_one_inv Hb; [|done]. inversion Hb; subst. cbn in Hx. apply Z.eqb_eq, fold_low in Hx; [|done|lia].
  subst x. eauto.
Qed.
Lemma star_no_slash b es T : Forall byte_ok T → 47 ∉ T → none_after flags (Star b :: Lit 47 :: es) T.
Proof.
  intros Hb Hn u s -> _ (v & w & -> & _ & HM)%matches_star_inv. apply Forall_app in Hb as [_ [_ Hb]%Forall_app].
  apply matches_slash in HM as (s' & -> & _); [|done]. apply Hn. set_solver.
Qed.

(** The first slash is the only one an asterisk can stop at. *)
Lemma first_slash (u s v w : list Z) : u ++ 47 :: s = v ++ 47 :: w → 47 ∉ u →
  ∃ x, s = x ++ w ∧ (x = [] ∨ last x = Some 47) ∧ (47 ∉ v → x = []).
Proof.
  intros E Hu. destruct (decide (length v < length u)%nat) as [Hl|Hl].
  - apply app_split in E as (x & -> & E); [|lia]. destruct x as [|z x]; [rewrite app_nil_r in Hl; lia|]. injection E as <- _. set_solver.
  - symmetry in E. apply app_split in E as (x & -> & E); [|lia]. destruct x as [|z x]; [injection E as ->|injection E as <- ->].
    + exists []. split_and!; auto.
    + exists (x ++ [47]). split_and!; [solve_app|right; apply last_snoc|]. intros H. exfalso. apply H. set_solver.
Qed.

Lemma star_slash es u s r : Forall byte_ok (u ++ 47 :: s) → 47 ∉ u → answer flags es s r →
  answer flags (Star false :: Lit 47 :: es) (u ++ 47 :: s) r.
Proof.
  intros Hb Hu Ha.
  assert (∀ u' s', u ++ 47 :: s = u' ++ s' → matches flags (Star false :: Lit 47 :: es) s' →
    ∃ x w, s = x ++ w ∧ (x = [] ∨ last x = Some 47) ∧ (47 ∉ u' → x = []) ∧ matches flags es w) as Hinv.
  { intros u' s' E (v & w & -> & Hv & HM)%matches_star_inv. specialize (Hv eq_refl). rewrite E in Hb.
    apply matches_slash in HM as (w' & -> & HM); [|by apply Forall_app in Hb as [_ [_ Hb]%Forall_app]].
    rewrite app_assoc in E. apply first_slash in E as (x & -> & Hx & Hx'); [|done]. exists x, w'. split_and!; try done.
    intros Hu'. apply Hx'. rewrite not_elem_of_app. auto. }
  destruct Ha as [[-> H]|[[-> H]|[[-> H]|(-> & Hp & H)]]].
  - left. split; [done|]. constructor; [auto|]. constructor; [|done]. cbn. by rewrite fold_slash.
  - right; left. split; [done|]. intros HM. destruct (Hinv [] _ eq_refl HM) as (x & w & -> & _ & Hx & HM').
    rewrite Hx in H by apply not_elem_of_nil. done.
  - right; right; left. split; [done|]. intros u' s' E _ HM. destruct (Hinv u' s' E HM) as (x & w & -> & Hx & _ & HM'). by apply (H x w).
  - right; right; right. split_and!; try done. intros u' s' E Hu' HM. destruct (Hinv u' s' E HM) as (x & w & -> & _ & Hx & HM').
    apply (H x w); [done| |done]. rewrite (Hx Hu'). apply not_elem_of_nil.
Qed.

(** *** Leading directories *)
Lemma dirs_answer es T r : Forall byte_ok T → ¬ matches flags es T → star_answer flags (Lit 47 :: es) true T r →
  answer flags (Dirs :: es) T r.
Proof.
  intros Hb Hn [Ha Hns].
  assert (∀ u s, matches flags es s → matches flags (Star true :: Lit 47 :: es) (u ++ 47 :: s)) as Hstar.
  { intros u s HM. constructor; [done|]. constructor; [|done]. cbn. by rewrite fold_slash. }
  assert (∀ u s, T = u ++ s → u = [] ∨ last u = Some 47 → matches flags (Dirs :: es) s →
    matches flags (Star true :: Lit 47 :: es) T) as Hinv.
  { intros u s -> Hu HM. inversion HM; subst; [done| |].
    - destruct Hu as [->|Hu]; [by destruct Hn|]. apply last_Some in Hu as [u' ->]. rewrite <- app_assoc. by apply Hstar.
    - rewrite app_assoc. by apply Hstar. }
  destruct Ha as [[-> H]|[[-> H]|[[-> H]|(-> & _)]]]; [| | |by destruct Hns].
  - apply matches_star_inv in H as (u & s & -> & _ & HM). left. split; [done|].
    apply matches_slash in HM as (s' & -> & HM); [by apply matches_dirs|by apply Forall_app in Hb as [_ Hb]].
  - right; left. split; [done|]. intros HM. apply H. apply (Hinv [] T); auto.
  - right; right; left. split; [done|]. intros u s E Hu HM. apply (H [] T); [done|by left|]. apply (Hinv u s); auto.
    by apply Hu.
Qed.

(** *** The recursion *)
Definition before (P : list Z) (p prev : Z) : Prop := (p = 0 ∧ prev = 47) ∨ (0 < p ∧ hd0 (zdrop (p - 1) P) = prev).
Definition dowild_ok (fuel : nat) : Prop := ∀ P rest p n prev T trest,
  no_nul P → no_nul T → 0 <= p <= zlen P → before P p prev →
  (length (zdrop p P) < fuel)%nat → (length (zdrop p P) < n)%nat →
  returns (dowild fuel (P ++ 0 :: rest) p (T ++ 0 :: trest) flags) (answer flags (read flags n prev (zdrop p P)) T).

Lemma no_nul_bytes T : no_nul T → Forall byte_ok T.
Proof. intros H. eapply Forall_impl; [exact H|]. unfold byte_ok. intros; cbn in *; lia. Qed.
Lemma no_nul_drop p P : no_nul P → no_nul (zdrop p P).
Proof. apply Forall_drop. Qed.

Section step.
Context (fuel : nat) (P rest T trest : list Z).
Hypothesis (IH : dowild_ok fuel) (HP : no_nul P) (HT : no_nul T).
Abbreviation pat := (P ++ 0 :: rest).
Abbreviation text := (T ++ 0 :: trest).
Abbreviation rec := (λ pat p text, dowild fuel pat p text flags).

(** A call on the rest of the pattern. *)
Lemma rec_suffix p n prev S' strest : 0 <= p <= zlen P → no_nul S' → prev = 47 ∨ hd0 (zdrop p P) ≠ 42 →
  (length (zdrop p P) < fuel)%nat → (length (zdrop p P) < n)%nat →
  returns (dowild fuel (zdrop p pat) 0 (S' ++ 0 :: strest) flags) (answer flags (read flags n prev (zdrop p P)) S').
Proof.
  intros Hp HS Hprev Hf Hn. rewrite zdrop_app_le by done. zlen_pos.
  assert (read flags n prev (zdrop p P) = read flags n 47 (zdrop 0 (zdrop p P))) as ->.
  { rewrite zdrop_0. destruct Hprev as [->|]; [done|by apply read_prev]. }
  apply IH; rewrite ?zdrop_0; try done; [by apply no_nul_drop|zlen_pos; lia|by left].
Qed.

Lemma star_rest_ok p n b t_ch : 0 <= p <= zlen P → hd0 (zdrop p P) ≠ 42 → (b = false → flag flags WM_PATHNAME = true) →
  (length (zdrop p P) < fuel)%nat → (length (zdrop p P) < n)%nat → t_ch = fold flags (hd0 T) →
  returns (star_rest rec pat p b text t_ch flags) (star_answer flags (read flags n 42 (zdrop p P)) b T).
Proof.
  intros Hp H42 Hb Hf Hn Ht. destruct n as [|n]; [lia|]. unfold star_rest. rewrite (rd_pat P rest) by done. cbn [obind].
  pose proof (strchr_slash_ok T trest HT) as Hs. destruct (zdrop p P) as [|c q] eqn:E; cbn [hd0] in *.
  - change (0 =? 0) with true. cbn [read]. destruct b; cbn [negb]; [apply star_last_free|].
    pose proof (star_last T (Hb eq_refl)) as Hl. destruct (strchr_slash text) as [[m|]| | |]; try done; cbn [obind].
    + destruct Hs as (u & s & -> & _ & _). rewrite decide_True in Hl by set_solver. done.
    + by rewrite decide_False in Hl.
  - destruct (zdrop_step P HP p c q ltac:(lia) E) as (Eq & Hp1 & Hc). rewrite (proj2 (Z.eqb_neq c 0)) by lia.
    destruct (negb b && (c =? 47)) eqn:Esl.
    + apply andb_true_iff in Esl as [->%negb_true_iff ->%Z.eqb_eq]. rewrite (read_lit n 42 47 q), fold_slash by done.
      destruct (strchr_slash text) as [[m|]| | |]; try done; cbn [obind].
      * destruct Hs as (u & s & -> & Hu & ->). change (zdrop 1 (47 :: s ++ 0 :: trest)) with (s ++ 0 :: trest).
        eapply wp_mono; [|apply (IH P rest (p + 1) n 47 s trest)]; rewrite ?Eq; try done; try lia.
        -- intros r Hr. split; [|done]. apply star_slash; [by apply no_nul_bytes|done|done].
        -- apply Forall_app in HT as [_ HT']. by inversion HT'.
        -- right. replace (p + 1 - 1) with p by lia. rewrite E. split; [lia|done].
        -- cbn in Hf. lia.
        -- cbn in Hn. lia.
      * cbn. split; [|done]. right; right; left. split; [done|]. apply star_no_slash; [by apply no_nul_bytes|done].
    + rewrite <- E in *. apply (star_loop_ok flags _ _ c b trest T) with (u := []); try done.
      * intros s u ->. apply rec_suffix; try done; [by apply Forall_app in HT as [_ ?]|]. right. by rewrite E.
      * intros Hd%read_dirs. rewrite E in Hd. by destruct Hd.
      * rewrite E. by apply read_needs.
      * intros ->. cbn in Esl. by apply Z.eqb_neq.
      * intros Hg. rewrite E. eexists. by apply read_lit.
      * rewrite length_app. lia.
      * intros v w _ Hl. cbn in Hl. lia.
      * intros _. apply not_elem_of_nil.
      * destruct T; rewrite Ht; [|by right]. apply fold_only; unfold byte_ok; cbn; lia.
Qed.

Lemma ends_component_ok p : 0 <= p <= zlen P →
  (let! p0 := rd pat p in
   if (p0 =? 0) || (p0 =? 47) then Ret true
   else if p0 =? 92 then let! p1 := rd pat (p + 1) in Ret (p1 =? 47) else Ret false) = Ret (ends_component (zdrop p P)).
Proof.
  intros Hp. rewrite (rd_pat P rest) by done. cbn [obind]. destruct (zdrop p P) as [|c q] eqn:E; [done|]. cbn [hd0 ends_component].
  destruct (zdrop_step P HP p c q ltac:(lia) E) as (Eq & Hp1 & Hc). rewrite (proj2 (Z.eqb_neq c 0)) by lia. cbn [orb].
  destruct (c =? 47); [done|]. destruct (c =? 92); [|done]. rewrite (rd_pat P rest), Eq by lia. by destruct q.
Qed.

(** What the asterisks at [p] are found to be. *)
Definition kind_ok (n : nat) (prev : Z) (q : list Z) (k : Z + Z * bool) : Prop :=
  match k with
  | inl r => r = WM_MATCH ∧ matches flags (read flags (S n) prev (42 :: q)) T
  | inr (p', b) => 0 <= p' <= zlen P ∧ hd0 (zdrop p' P) ≠ 42 ∧ (length (zdrop p' P) <= length q)%nat ∧
      (b = false → flag flags WM_PATHNAME = true) ∧
      (read flags (S n) prev (42 :: q) = Star b :: read flags n 42 (zdrop p' P) ∨
       b = true ∧ ∃ s, zdrop p' P = 47 :: s ∧ read flags (S n) prev (42 :: q) = Dirs :: read flags n 47 s ∧
                       ¬ matches flags (read flags n 47 s) T)
  end.

Lemma star_kind_ok p n prev q : 0 <= p → zdrop p P = 42 :: q → before P p prev → (length q < fuel)%nat → (length q < n)%nat →
  returns (star_kind rec pat p text flags) (kind_ok n prev q).
Proof.
  intros Hp E Hb Hf Hn. destruct (zdrop_step P HP p 42 q Hp E) as (Eq & Hp1 & _).
  unfold star_kind. rewrite (rd_pat P rest), Eq by lia. cbn [obind].
  destruct (Z.eqb_spec (hd0 q) 42) as [E42|E42].
  2: { cbn. rewrite Eq. split_and!; try done; try lia; [by destruct (flag _ _)|]. left. cbn [read]. destruct q as [|d q]; [destruct n; [cbn in Hn; lia|done]|].
       cbn [hd0] in E42. by rewrite (proj2 (Z.eqb_neq d 42)). }
  destruct q as [|d q]; [done|]. cbn [hd0] in E42. subst d.
  destruct (skip_stars_ok P rest HP (length pat) (p + 1) q) as (p' & -> & Ep & Hp'); [lia|done| |].
  { pose proof (f_equal length E) as El. unfold zdrop in El. rewrite length_drop in El. rewrite length_app. cbn in *. lia. }
  pose proof (drop_stars_head q) as Hh. pose proof (drop_stars_shorter q) as Hsh. cbn [obind].
  assert (read flags (S n) prev (42 :: 42 :: q) = let r := drop_stars q in
    if negb (flag flags WM_PATHNAME) then Star true :: read flags n 42 r
    else if (prev =? 47) && ends_component r then
      match r with e :: s => if e =? 47 then Dirs :: read flags n e s else Star true :: read flags n 42 r | [] => [Star true] end
    else Star false :: read flags n 42 r) as ER by done.
  destruct (flag flags WM_PATHNAME) eqn:Epath; cbn [negb] in ER |- *.
  2: { cbn -[read]. rewrite Ep. split_and!; try done; try lia. by left. }
  assert ((if p + 1 <? 2 then Ret 47 else rd pat (p + 1 - 2)) = Ret prev) as ->.
  { destruct Hb as [[-> ->]|[Hp0 <-]]; [done|]. rewrite (proj2 (Z.ltb_ge _ _)) by lia. replace (p + 1 - 2) with (p - 1) by lia.
    apply rd_pat; lia. }
  cbn [obind]. pose proof (ends_component_ok p' ltac:(lia)) as Hend. rewrite (rd_pat P rest), Ep in Hend |- * by lia. cbn [obind] in Hend |- *.
  rewrite Hend. cbn [obind]. cbv zeta in ER. destruct ((prev =? 47) && ends_component (drop_stars q)) eqn:Ecomp.
  2: { cbn -[read]. rewrite Ep. split_and!; try done; try lia. by left. }
  destruct (drop_stars q) as [|e s] eqn:Eds; cbn [hd0] in *.
  { cbn -[read]. rewrite Ep. split_and!; try done; try lia. left. rewrite ER. destruct n; [cbn in Hn; lia|done]. }
  destruct (Z.eqb_spec e 47) as [->|]; cbn [andb].
  2: { cbn -[read]. rewrite Ep. split_and!; try done; try lia. by left. }
  destruct (zdrop_step P HP p' 47 s ltac:(lia) Ep) as (Es & Hp2 & _).
  apply wp_bind. eapply wp_mono; [|apply (rec_suffix (p' + 1) n 47 T trest)]; rewrite ?Es; try done; try lia; try (by left); [|cbn in *; lia..].
  intros r Hr%answer_match. destruct (Z.eqb_spec r WM_MATCH) as [->|Hne]; cbn -[read].
  - split; [done|]. rewrite ER. constructor. by apply Hr.
  - rewrite Ep. split_and!; try done; try lia. right. split; [done|]. exists s. split_and!; try done. by rewrite <- Hr.
Qed.

(** One byte of the text against an element that stands for one. *)
Lemma byte_step p p' n prev q c e x T' : T = x :: T' → 0 <= p' <= zlen P → one e → before P p' c →
  read flags (S n) prev (zdrop p P) = e :: read flags n c q → zdrop p' P = q →
  (c = 47 → ∀ y, byte_ok y → accepts flags e y = true → y = 47) → (length q < fuel)%nat → (length q < n)%nat →
  returns (if accepts flags e x then dowild fuel pat p' (zdrop 1 text) flags else Ret WM_NOMATCH)
    (answer flags (read flags (S n) prev (zdrop p P)) T).
Proof.
  intros ET Hp' He Hb ER Eq Hc Hf Hn. rewrite ER, ET.
  destruct (accepts flags e x) eqn:Hx; [|by apply answer_mismatch].
  change (zdrop 1 ((x :: T') ++ 0 :: trest)) with (T' ++ 0 :: trest).
  rewrite ET in HT. eapply wp_mono; [|apply (IH P rest p' n c T' trest)]; rewrite ?Eq; try done.
  - intros r Hr. apply answer_one; try done; [by apply no_nul_bytes|]. intros [-> _]%read_dirs. by apply Hc.
  - by inversion HT.
Qed.
Lemma before_step p c q : 0 <= p → zdrop p P = c :: q → before P (p + 1) c.
Proof. intros Hp E. right. replace (p + 1 - 1) with p by lia. rewrite E. split; [lia|done]. Qed.

Lemma star_step p n prev q : 0 <= p → zdrop p P = 42 :: q → before P p prev → (length q < fuel)%nat → (length q < n)%nat →
  returns (let! star := star_kind rec pat p text flags in
           match star with
           | inl r => Ret r
           | inr (p, match_slash) => star_rest rec pat p match_slash text (fold flags (hd0 T)) flags
           end) (answer flags (read flags (S n) prev (42 :: q)) T).
Proof.
  intros Hp E Hb Hf Hn. apply wp_bind. eapply wp_mono; [|by apply (star_kind_ok p n prev q)].
  intros [r|[p' b]]; cbn [kind_ok]; [by intros [-> HM]; left|].
  intros (Hp' & H42 & Hl & Hpath & [ER|(-> & s & Es & ER & Hno)]); rewrite ER.
  - eapply wp_mono; [|apply (star_rest_ok p' n b); try done; lia]. by intros r [? _].
  - eapply wp_mono; [|apply (star_rest_ok p' (S n) true); try done; lia]. rewrite Es, read_lit, fold_slash by done.
    intros r Hr. apply dirs_answer; [by apply no_nul_bytes|done|done].
Qed.

Lemma bracket_step' p n prev q x T' : 0 <= p → T = x :: T' → zdrop p P = 91 :: q → (length q < fuel)%nat → (length q < n)%nat →
  returns (let! r := bracket pat flags (fold flags x) p in
           match r with
           | None => Ret WM_ABORT_ALL
           | Some (p, ok) =>
               if negb ok || (flag flags WM_PATHNAME && (fold flags x =? 47)) then Ret WM_NOMATCH
               else dowild fuel pat (p + 1) (zdrop 1 text) flags
           end) (answer flags (read flags (S n) prev (zdrop p P)) T).
Proof.
  intros Hp ET E Hf Hn. pose proof (bracket_ok flags P rest HP (fold flags x) p q Hp E) as HB.
  assert (read flags (S n) prev (zdrop p P) = match read_set q with
    | Some (negated, its, r) => Set_ negated its :: read flags n 93 r | None => [Bad] end) as ER by (by rewrite E).
  destruct (read_set q) as [[[negated its] r]|].
  - destruct HB as (p' & Ep & Hp' & Hl & ->). cbn [obind].
    pose proof (byte_step p (p' + 1) n prev r 93 (Set_ negated its) x T') as HS. cbn [accepts] in HS.
    destruct (zdrop_step P HP p' 93 r ltac:(lia) Ep) as (Er & Hp2 & _).
    specialize (HS ET ltac:(lia) I ltac:(by eapply before_step; [lia|]) ER Er ltac:(done) ltac:(lia) ltac:(lia)).
    revert HS. by destruct (negb (eqb _ _)), (flag flags WM_PATHNAME && _).
  - rewrite HB, ER. cbn -[read]. right; right; left. split; [done|]. intros u s _ _. apply matches_bad.
Qed.

(** A literal, behind a backslash or not. *)
Lemma literal_step p p' n prev q d k x T' : T = x :: T' → 0 <= p' → zdrop p' P = d :: q → (k = 47 ∨ d = 47 → k = d) →
  read flags (S n) prev (zdrop p P) = Lit k :: read flags n d q → (length q < fuel)%nat → (length q < n)%nat →
  returns (if negb (fold flags x =? k) then Ret WM_NOMATCH else dowild fuel pat (p' + 1) (zdrop 1 text) flags)
    (answer flags (read flags (S n) prev (zdrop p P)) T).
Proof.
  intros ET Hp' Ed Hk ER Hf Hn. destruct (zdrop_step P HP p' d q Hp' Ed) as (Eq & Hp1 & Hd).
  pose proof (byte_step p (p' + 1) n prev q d (Lit k) x T') as HS. cbn [accepts] in HS. rewrite if_negb.
  apply HS; try done; [lia|by eapply before_step|]. intros -> y Hy Hy'%Z.eqb_eq. apply (fold_only y 47); [done|lia|]. by rewrite <- (Hk ltac:(auto)).
Qed.

Lemma dowild_step p n prev : 0 <= p <= zlen P → before P p prev →
  (length (zdrop p P) < S fuel)%nat → (length (zdrop p P) < n)%nat →
  returns (dowild (S fuel) pat p text flags) (answer flags (read flags n prev (zdrop p P)) T).
Proof.
  intros Hp Hb Hf Hn. destruct n as [|n]; [lia|]. cbn [dowild]. rewrite (rd_pat P rest) by done. cbn [obind].
  assert (rd text 0 = Ret (hd0 T)) as -> by (by destruct T). cbn [obind].
  destruct (zdrop p P) as [|c q] eqn:E; cbn [hd0].
  { change (0 =? 0) with true. destruct T as [|x T'] eqn:ET; cbn [hd0]; [left; split; [done|constructor]|].
    assert (0 < x < 256) by (by inversion HT). rewrite (proj2 (Z.eqb_neq x 0)) by lia. right; left. split; [done|].
    intros HM. inversion HM. }
  destruct (zdrop_step P HP p c q ltac:(lia) E) as (Eq & Hp1 & Hc). rewrite (proj2 (Z.eqb_neq c 0)) by lia.
  assert (length q < fuel ∧ length q < n)%nat as [Hf' Hn'] by (cbn in *; lia). pose proof (fold_only c) as Hfo.
  destruct (Z.eqb_spec c 42) as [->|N42]; cbn [negb].
  { rewrite andb_false_r. rewrite (proj2 (Hfo 42 ltac:(unfold byte_ok; lia) ltac:(lia)) eq_refl). apply star_step; (done || lia). }
  rewrite andb_true_r. assert (T = [] ∨ ∃ x T', T = x :: T') as [ET|(x & T' & ET)] by (clear; destruct T; eauto).
  { rewrite ET. right; right; left. split; [done|]. intros u s Es _. symmetry in Es. apply app_eq_nil in Es as [-> ->].
    by apply read_needs. }
  assert (0 < x < 256) as Hx by (rewrite ET in HT; by inversion HT).
  replace (hd0 T) with x by (by rewrite ET). rewrite (proj2 (Z.eqb_neq x 0)) by lia. rewrite <- E in *.
  destruct (Z.eqb_spec (fold flags c) 63) as [->%Hfo|N63]; [|unfold byte_ok; lia|lia|].
  { pose proof (byte_step p (p + 1) n prev q 63 Any x T') as HS. cbn [accepts] in HS. rewrite if_negb in HS.
    apply HS; try done; [lia|by eapply before_step; [lia|]|by rewrite E]. }
  rewrite Hfo in N63 by (unfold byte_ok; lia).
  destruct (Z.eqb_spec (fold flags c) 42) as [E'%Hfo|_]; [done|unfold byte_ok; lia|lia|].
  destruct (Z.eqb_spec (fold flags c) 91) as [->%Hfo|N91]; [by apply (bracket_step' p n prev q x T'); [lia|..]|unfold byte_ok; lia|lia|].
  rewrite Hfo in N91 by (unfold byte_ok; lia).
  destruct (Z.eqb_spec (fold flags c) 92) as [->%Hfo|N92]; [|unfold byte_ok; lia|lia|].
  - rewrite (rd_pat P rest), Eq by lia. cbn [obind]. destruct q as [|d q]; cbn [hd0].
    + rewrite (proj2 (Z.eqb_neq (fold flags x) 0)) by (by apply fold_nonzero). cbn. rewrite E. right; left.
      split; [done|]. apply matches_bad.
    + apply (literal_step p (p + 1) n prev q d d x T'); try done; [lia|by rewrite E|cbn in *; lia..].
  - rewrite Hfo in N92 by (unfold byte_ok; lia). cbn [obind].
    apply (literal_step p p n prev q c (fold flags c) x T'); try done; [lia|by intros [?%Hfo| ->]; [subst; apply fold_slash|unfold byte_ok; lia|lia|apply fold_slash]|].
    rewrite E. cbn [read]. by rewrite !(proj2 (Z.eqb_neq c _)).
Qed.
End step.

Lemma dowild_total fuel : dowild_ok fuel.
Proof.
  induction fuel as [|fuel IH]; [intros ? ? ? ? ? ? ? _ _ _ _ Hf; lia|].
  intros P rest p n prev T trest HP HT Hp Hb Hf Hn. by apply dowild_step.
Qed.
End answers.


(** ** The result *)

(** C38. On strings, [wildmatch] always answers, stays inside both of them, and
    says [WM_MATCH] exactly when the text is in the language of the pattern read
    as a list of elements: the fast advance to the next literal, the jump to the
    next slash, [WM_ABORT_ALL] and [WM_ABORT_TO_STARSTAR] never lose a match. *)
Theorem wildmatch_exact flags P T rest trest : no_nul P → no_nul T →
  returns (wildmatch (P ++ 0 :: rest) (T ++ 0 :: trest) flags)
    (λ r, (r = WM_MATCH ∧ matches flags (elements flags P) T) ∨ (r = WM_NOMATCH ∧ ¬ matches flags (elements flags P) T)).
Proof.
  intros HP HT. unfold wildmatch. apply wp_bind. zlen_pos.
  eapply wp_mono; [|apply (dowild_total flags _ P rest 0 (S (length P)) 47 T trest HP HT)]; rewrite ?zdrop_0;
    [|pose proof (zlen_nonneg P); lia|by left|rewrite length_app; lia|lia].
  intros r Hr. apply answer_match in Hr. cbn. unfold elements. destruct (Z.eqb_spec r WM_MATCH) as [->|Hne]; [left|right]; (split; [done|]).
  - by apply Hr.
  - by rewrite <- Hr.
Qed.

(** ["**/b*c"] in path mode against ["x/y/bbc"] and ["x/b/c"]. *)
Lemma wildmatch_exact_witness :
  let P := [42; 42; 47; 98; 42; 99] in
  (elements WM_PATHNAME P = [Dirs; Lit 98; Star false; Lit 99]) ∧
  matches WM_PATHNAME (elements WM_PATHNAME P) [120; 47; 121; 47; 98; 98; 99] ∧
  ¬ matches WM_PATHNAME (elements WM_PATHNAME P) [120; 47; 98; 47; 99].
Proof.
  intros P.
  assert (no_nul P) as HP by (subst P; repeat constructor).
  pose proof (wildmatch_exact WM_PATHNAME P [120; 47; 121; 47; 98; 98; 99] [] [] HP ltac:(repeat constructor)) as H1.
  pose proof (wildmatch_exact WM_PATHNAME P [120; 47; 98; 47; 99] [] [] HP ltac:(repeat constructor)) as H2.
  split; [vm_compute; reflexivity|]. split.
  - destruct H1 as [[_ H]|[H _]]; [exact H|vm_compute in H; discriminate].
  - destruct H2 as [[H _]|[_ H]]; [vm_compute in H; discriminate|exact H].
Defined.

(** With [WM_CASEFOLD], an upper-case letter in a bracket or behind a backslash
    matches neither case, since only the text is folded there. *)
Example casefold_upper :
  wildmatch [65; 0] [97; 0] WM_CASEFOLD = Ret WM_MATCH ∧
  wildmatch [92; 65; 0] [65; 0] WM_CASEFOLD = Ret WM_NOMATCH ∧
  wildmatch [91; 65; 93; 0] [65; 0] WM_CASEFOLD = Ret WM_NOMATCH.
Proof. by vm_compute. Qed.

End Wildmatch.
