(* ===== verification/XdlUtils.v ===== *)
(** * Lines: splitting, hashing, matching (xdiff/xutils.c)

    A line of a file is the list of its bytes, the newline included.  Lines are
    hashed as they are split off, and two lines match when they are equal or,
    under the whitespace flags, equal up to whitespace. *)
From stdpp Require Import prelude.
From S2P Require Import Prelude Ctype.
Import Ctype(isspace).

Module XdlUtils.

Definition XDF_NEED_MINIMAL : Z := 1.
Definition XDF_IGNORE_WHITESPACE : Z := 2.
Definition XDF_IGNORE_WHITESPACE_CHANGE : Z := 4.
Definition XDF_IGNORE_WHITESPACE_AT_EOL : Z := 8.
Definition XDF_IGNORE_CR_AT_EOL : Z := 16.
Definition XDF_WHITESPACE_FLAGS : Z := 2 + 4 + 8 + 16.
Definition XDF_IGNORE_BLANK_LINES : Z := 2 ^ 7.
Definition XDF_PATIENCE_DIFF : Z := 2 ^ 14.
Definition XDF_HISTOGRAM_DIFF : Z := 2 ^ 15.
Definition XDF_DIFF_ALGORITHM_MASK : Z := Z.lor XDF_PATIENCE_DIFF XDF_HISTOGRAM_DIFF.
Definition XDF_DIFF_ALG (x : Z) : Z := Z.land x XDF_DIFF_ALGORITHM_MASK.
Definition XDF_INDENT_HEURISTIC : Z := 2 ^ 23.
Definition flag (flags bits : Z) : bool := negb (Z.land flags bits =? 0).

(** ** Sizes *)
Fixpoint bogosqrt_loop (fuel : nat) (n i : Z) : outcome Z :=
  match fuel with
  | O => NoFuel
  | S fuel => if 0 <? n then bogosqrt_loop fuel (Z.shiftr n 2) (Z.shiftl i 1) else Ret i
  end.
(** 64 bits of [long] are used up after 32 steps. *)
Definition xdl_bogosqrt (n : Z) : outcome Z := bogosqrt_loop 33 n 1.

Fixpoint hashbits_loop (fuel : nat) (size val bits : Z) : outcome Z :=
  match fuel with
  | O => NoFuel
  | S fuel => if (val <? size) && (bits <? 32) then hashbits_loop fuel size (u32 (Z.shiftl val 1)) (bits + 1) else Ret bits
  end.
Definition xdl_hashbits (size : Z) : outcome Z :=
  let! bits := hashbits_loop 33 size 1 0 in
  Ret (if bits =? 0 then 1 else bits).

(** [memchr(cur, '\n', top - cur)] *)
Fixpoint newline_from (fuel : nat) (data : list Z) (cur : Z) : outcome (option Z) :=
  match fuel with
  | O => NoFuel
  | S fuel =>
      if cur <? zlen data then
        let! c := rd data cur in
        if c =? 10 then Ret (Some cur) else newline_from fuel data (cur + 1)
      else Ret None
  end.
Fixpoint guess_loop (fuel : nat) (data : list Z) (sample nl cur : Z) : outcome (Z * Z) :=
  match fuel with
  | O => NoFuel
  | S fuel =>
      if (nl <? sample) && (cur <? zlen data) then
        let! p := newline_from (S (length data)) data cur in
        guess_loop fuel data sample (nl + 1) (match p with None => zlen data | Some cur => cur + 1 end)
      else Ret (nl, cur)
  end.
Definition xdl_guess_lines (data : list Z) (sample : Z) : outcome Z :=
  let! (nl, tsize) := guess_loop (S (length data)) data sample 0 0 in
  let! nl := if negb (nl =? 0) && negb (tsize =? 0) then
               (if tsize / nl =? 0 then UB else Ret (zlen data / (tsize / nl)))
             else Ret nl in
  Ret (nl + 1).

(** ** Matching *)
Definition XDL_ISSPACE (c : Z) : bool := isspace c.

(** [while (i < s && XDL_ISSPACE(l[i])) i++;] *)
Fixpoint skip_space (fuel : nat) (l : list Z) (i : Z) : outcome Z :=
  match fuel with
  | O => NoFuel
  | S fuel =>
      if i <? zlen l then
        let! c := rd l i in
        if XDL_ISSPACE c then skip_space fuel l (i + 1) else Ret i
      else Ret i
  end.
Definition skip (l : list Z) (i : Z) : outcome Z := skip_space (S (length l)) l i.

Definition xdl_blankline (line : list Z) (flags : Z) : outcome bool :=
  if negb (flag flags XDF_WHITESPACE_FLAGS) then Ret (zlen line <=? 1)
  else let! i := skip line 0 in Ret (i =? zlen line).

Definition ends_with_optional_cr (l : list Z) (i : Z) : outcome bool :=
  let s := zlen l in
  let! complete := if s =? 0 then Ret false else let! c := rd l (s - 1) in Ret (c =? 10) in
  let s := if complete then s - 1 else s in
  if s =? i then Ret true
  else if complete && (s =? i + 1) then let! c := rd l i in Ret (c =? 13)
  else Ret false.

(** The loop for [XDF_IGNORE_WHITESPACE], entered at [skip_ws]; [None] is
    [return 0]. *)
Fixpoint ignore_all_loop (fuel : nat) (l1 l2 : list Z) (i1 i2 : Z) : outcome (option (Z * Z)) :=
  match fuel with
  | O => NoFuel
  | S fuel =>
      let! i1 := skip l1 i1 in
      let! i2 := skip l2 i2 in
      if (i1 <? zlen l1) && (i2 <? zlen l2) then
        let! a := rd l1 i1 in
        let! b := rd l2 i2 in
        if negb (a =? b) then Ret None else ignore_all_loop fuel l1 l2 (i1 + 1) (i2 + 1)
      else Ret (Some (i1, i2))
  end.
Fixpoint ignore_change_loop (fuel : nat) (l1 l2 : list Z) (i1 i2 : Z) : outcome (option (Z * Z)) :=
  match fuel with
  | O => NoFuel
  | S fuel =>
      if (i1 <? zlen l1) && (i2 <? zlen l2) then
        let! a := rd l1 i1 in
        let! b := rd l2 i2 in
        if XDL_ISSPACE a && XDL_ISSPACE b then
          let! i1 := skip l1 i1 in
          let! i2 := skip l2 i2 in
          ignore_change_loop fuel l1 l2 i1 i2
        else if negb (a =? b) then Ret None else ignore_change_loop fuel l1 l2 (i1 + 1) (i2 + 1)
      else Ret (Some (i1, i2))
  end.
Fixpoint common_loop (fuel : nat) (l1 l2 : list Z) (i1 i2 : Z) : outcome (Z * Z) :=
  match fuel with
  | O => NoFuel
  | S fuel =>
      if (i1 <? zlen l1) && (i2 <? zlen l2) then
        let! a := rd l1 i1 in
        let! b := rd l2 i2 in
        if a =? b then common_loop fuel l1 l2 (i1 + 1) (i2 + 1) else Ret (i1, i2)
      else Ret (i1, i2)
  end.

(** What is left of the two lines must be whitespace. *)
Definition rest_blank (l1 l2 : list Z) (i1 i2 : Z) : outcome bool :=
  let! ok := if i1 <? zlen l1 then let! i1 := skip l1 i1 in Ret (zlen l1 =? i1) else Ret true in
  if negb ok then Ret false
  else if i2 <? zlen l2 then let! i2 := skip l2 i2 in Ret (zlen l2 =? i2)
  else Ret true.

Definition xdl_recmatch (l1 l2 : list Z) (flags : Z) : outcome bool :=
  if bool_decide (l1 = l2) then Ret true
  else if negb (flag flags XDF_WHITESPACE_FLAGS) then Ret false
  else
    let fuel := S (length l1) in
    if flag flags XDF_IGNORE_WHITESPACE then
      let! r := ignore_all_loop fuel l1 l2 0 0 in
      match r with None => Ret false | Some (i1, i2) => rest_blank l1 l2 i1 i2 end
    else if flag flags XDF_IGNORE_WHITESPACE_CHANGE then
      let! r := ignore_change_loop fuel l1 l2 0 0 in
      match r with None => Ret false | Some (i1, i2) => rest_blank l1 l2 i1 i2 end
    else if flag flags XDF_IGNORE_WHITESPACE_AT_EOL then
      let! (i1, i2) := common_loop fuel l1 l2 0 0 in
      rest_blank l1 l2 i1 i2
    else if flag flags XDF_IGNORE_CR_AT_EOL then
      let! (i1, i2) := common_loop fuel l1 l2 0 0 in
      let! a := ends_with_optional_cr l1 i1 in
      if a then ends_with_optional_cr l2 i2 else Ret false
    else rest_blank l1 l2 0 0.

(** ** Hashing *)

(** [ha += (ha << 5); ha ^= (unsigned long) c;] where [c] is a signed [char]. *)
Definition schar (c : Z) : Z := if c <? 128 then c else c - 256.
Definition hash_step (ha c : Z) : Z := Z.lxor (u64 (ha + u64 (Z.shiftl ha 5))) (u64 (schar c)).

Fixpoint hash_loop (fuel : nat) (data : list Z) (ptr ha : Z) : outcome (Z * Z) :=
  match fuel with
  | O => NoFuel
  | S fuel =>
      if ptr <? zlen data then
        let! c := rd data ptr in
        if c =? 10 then Ret (ptr, ha) else hash_loop fuel data (ptr + 1) (hash_step ha c)
      else Ret (ptr, ha)
  end.

(** [while (ptr + 1 < top && XDL_ISSPACE(ptr[1]) && ptr[1] != '\n') ptr++;] *)
Fixpoint last_space (fuel : nat) (data : list Z) (ptr : Z) : outcome Z :=
  match fuel with
  | O => NoFuel
  | S fuel =>
      if ptr + 1 <? zlen data then
        let! c := rd data (ptr + 1) in
        if XDL_ISSPACE c && negb (c =? 10) then last_space fuel data (ptr + 1) else Ret ptr
      else Ret ptr
  end.
(** [while (ptr2 != ptr + 1)]: the whitespace is hashed as it is. *)
Fixpoint hash_range (fuel : nat) (data : list Z) (ptr2 ptr ha : Z) : outcome Z :=
  match fuel with
  | O => NoFuel
  | S fuel =>
      if ptr2 =? ptr + 1 then Ret ha
      else let! c := rd data ptr2 in hash_range fuel data (ptr2 + 1) ptr (hash_step ha c)
  end.

(** A run of whitespace from [ptr2] to [ptr]. *)
Definition hash_space (data : list Z) (flags ptr2 ptr ha : Z) : outcome Z :=
  let! at_eol := if zlen data <=? ptr + 1 then Ret true else let! c := rd data (ptr + 1) in Ret (c =? 10) in
  if flag flags XDF_IGNORE_WHITESPACE then Ret ha
  else if flag flags XDF_IGNORE_WHITESPACE_CHANGE && negb at_eol then Ret (hash_step ha 32)
  else if flag flags XDF_IGNORE_WHITESPACE_AT_EOL && negb at_eol then hash_range (S (length data)) data ptr2 ptr ha
  else Ret ha.

Fixpoint hash_ws_loop (fuel : nat) (data : list Z) (flags ptr ha : Z) : outcome (Z * Z) :=
  match fuel with
  | O => NoFuel
  | S fuel =>
      if ptr <? zlen data then
        let! c := rd data ptr in
        if c =? 10 then Ret (ptr, ha)
        else if Z.land flags XDF_WHITESPACE_FLAGS =? XDF_IGNORE_CR_AT_EOL then
          let! eol := if (c =? 13) && (ptr + 1 <? zlen data) then let! d := rd data (ptr + 1) in Ret (d =? 10) else Ret false in
          hash_ws_loop fuel data flags (ptr + 1) (if eol then ha else hash_step ha c)
        else if XDL_ISSPACE c then
          let! ptr' := last_space (S (length data)) data ptr in
          let! ha := hash_space data flags ptr ptr' ha in
          hash_ws_loop fuel data flags (ptr' + 1) ha
        else hash_ws_loop fuel data flags (ptr + 1) (hash_step ha c)
      else Ret (ptr, ha)
  end.

(** [*data = ptr < top ? ptr + 1 : ptr] and the hash. *)
Definition xdl_hash_record_with_whitespace (data : list Z) (ptr flags : Z) : outcome (Z * Z) :=
  let! (ptr, ha) := hash_ws_loop (S (length data)) data flags ptr 5381 in
  Ret (if ptr <? zlen data then ptr + 1 else ptr, ha).
Definition xdl_hash_record (data : list Z) (ptr flags : Z) : outcome (Z * Z) :=
  if flag flags XDF_WHITESPACE_FLAGS then xdl_hash_record_with_whitespace data ptr flags
  else
    let! (ptr, ha) := hash_loop (S (length data)) data ptr 5381 in
    Ret (if ptr <? zlen data then ptr + 1 else ptr, ha).

(** ** What the functions return *)
Lemma bogosqrt_wp n : n < 2 ^ 64 → returns (xdl_bogosqrt n) (λ i, 1 <= i).
Proof.
  intros Hn. unfold xdl_bogosqrt.
  enough (∀ fuel m i, 1 <= i → m < 4 ^ Z.of_nat fuel → returns (bogosqrt_loop (S fuel) m i) (λ i, 1 <= i)) as H by (apply H; [lia|done]).
  induction fuel as [|fuel IH]; intros m i Hi Hm; cbn [bogosqrt_loop].
  - rewrite (proj2 (Z.ltb_ge 0 m)); [done|]. change (4 ^ Z.of_nat 0) with 1 in Hm. lia.
  - destruct (Z.ltb_spec 0 m); [|done]. apply IH; [rewrite Z.shiftl_mul_pow2; lia|].
    rewrite Nat2Z.inj_succ, Z.pow_succ_r in Hm by lia. rewrite Z.shiftr_div_pow2 by lia. change (2 ^ 2) with 4. Z.div_mod_to_equations; lia.
Qed.

Lemma hashbits_wp size : size <= 2 ^ 30 → returns (xdl_hashbits size) (λ bits, 1 <= bits <= 30).
Proof.
  intros Hs. unfold xdl_hashbits. apply wp_bind.
  assert (∀ fuel bits, 0 <= bits <= 30 → (Z.to_nat (30 - bits) < fuel)%nat →
    returns (hashbits_loop fuel size (2 ^ bits) bits) (λ b, 0 <= b <= 30)) as H.
  { induction fuel as [|fuel IH]; intros bits Hb Hf; [lia|]. cbn [hashbits_loop].
    destruct (Z.ltb_spec (2 ^ bits) size) as [Hlt|]; cbn [andb]; [|done].
    assert (bits < 30). { destruct (Z.lt_ge_cases bits 30); [done|]. assert (2 ^ 30 <= 2 ^ bits) by (apply Z.pow_le_mono_r; lia). lia. }
    rewrite (proj2 (Z.ltb_lt bits 32)) by lia. rewrite Z.shiftl_mul_pow2 by lia. unfold u32. rewrite Z.mod_small.
    - replace (2 ^ bits * 2 ^ 1) with (2 ^ (bits + 1)) by (rewrite Z.pow_add_r by lia; done). apply IH; lia.
    - assert (2 ^ bits <= 2 ^ 29) by (apply Z.pow_le_mono_r; lia). change (2 ^ 1) with 2. pose proof (Z.pow_nonneg 2 bits). lia. }
  eapply wp_mono; [|apply (H 33%nat 0); lia]. intros b Hb. cbn beta in Hb. cbn. destruct (Z.eqb_spec b 0); lia.
Qed.

Lemma newline_from_wp data : ∀ fuel cur, 0 <= cur <= zlen data → (Z.to_nat (zlen data - cur) < fuel)%nat →
  returns (newline_from fuel data cur) (λ p, match p with Some q => cur <= q < zlen data | None => True end).
Proof.
  induction fuel as [|fuel IH]; intros cur Hc Hf; [lia|]. cbn [newline_from]. destruct (Z.ltb_spec cur (zlen data)); [|done].
  apply wp_bind, rd_wp; [lia|]. intros c _. destruct (c =? 10); [cbn; lia|].
  eapply wp_mono; [|apply IH; lia]. intros [q|]; [lia|done].
Qed.
Lemma guess_lines_wp data sample : returns (xdl_guess_lines data sample) (λ n, 1 <= n <= zlen data + 1).
Proof.
  unfold xdl_guess_lines. apply wp_bind.
  assert (∀ fuel nl cur, 0 <= nl <= cur → cur <= zlen data → (Z.to_nat (zlen data - cur) < fuel)%nat →
    returns (guess_loop fuel data sample nl cur) (λ '(nl, cur), 0 <= nl <= cur ∧ cur <= zlen data)) as H.
  { induction fuel as [|fuel IH]; intros nl cur Hn Hc Hf; [lia|]. cbn [guess_loop].
    destruct (nl <? sample); cbn [andb]; [|done]. destruct (Z.ltb_spec cur (zlen data)); [|done].
    apply wp_bind. eapply wp_mono; [|apply newline_from_wp; unfold zlen in *; lia]. intros [q|] Hq; apply IH; lia. }
  eapply wp_mono; [|apply (H (S (length data)) 0 0); zlen_pos; unfold zlen in *; lia]. intros [nl cur] (Hn & Hc).
  destruct (Z.eqb_spec nl 0), (Z.eqb_spec cur 0); cbn; zlen_pos; try lia.
  assert (1 <= cur / nl) by (apply Z.div_le_lower_bound; lia). destruct (Z.eqb_spec (cur / nl) 0); [lia|]. cbn.
  assert (zlen data / (cur / nl) <= zlen data) by (apply Z.div_le_upper_bound; nia).
  assert (0 <= zlen data / (cur / nl)) by (apply Z.div_pos; lia). lia.
Qed.

Lemma skip_wp l i : 0 <= i <= zlen l → returns (skip l i) (λ i', i <= i' <= zlen l ∧ (∀ c, znth l i = Some c → XDL_ISSPACE c = true → i < i')).
Proof.
  intros Hi. unfold skip. assert (∀ fuel i, 0 <= i <= zlen l → (Z.to_nat (zlen l - i) < fuel)%nat →
    returns (skip_space fuel l i) (λ i', i <= i' <= zlen l ∧ (∀ c, znth l i = Some c → XDL_ISSPACE c = true → i < i'))) as H; [|apply H; unfold zlen in *; lia].
  clear i Hi. induction fuel as [|fuel IH]; intros i Hi Hf; [lia|]. cbn [skip_space]. destruct (Z.ltb_spec i (zlen l)).
  - destruct (znth_is_Some l i) as [c Ec]; [lia|]. rewrite (rd_znth _ _ _ Ec). cbn [obind]. destruct (XDL_ISSPACE c) eqn:Es.
    + eapply wp_mono; [|apply IH; lia]. intros i' [? _]. split; [lia|]. intros; lia.
    + cbn. split; [lia|]. intros d Ed Hd. congruence.
  - cbn. split; [lia|]. intros c Ec%znth_Some_lt. lia.
Qed.

Lemma ignore_all_wp l1 l2 : ∀ fuel i1 i2, 0 <= i1 <= zlen l1 → 0 <= i2 <= zlen l2 → (Z.to_nat (zlen l1 - i1) < fuel)%nat →
  returns (ignore_all_loop fuel l1 l2 i1 i2) (λ r, match r with Some (j1, j2) => 0 <= j1 <= zlen l1 ∧ 0 <= j2 <= zlen l2 | None => True end).
Proof.
  induction fuel as [|fuel IH]; intros i1 i2 H1 H2 Hf; [lia|]. cbn [ignore_all_loop].
  apply wp_bind. eapply wp_mono; [|by apply skip_wp]. intros j1 [Hj1 _]. apply wp_bind. eapply wp_mono; [|by apply skip_wp]. intros j2 [Hj2 _].
  destruct (Z.ltb_spec j1 (zlen l1)), (Z.ltb_spec j2 (zlen l2)); cbn [andb]; try (cbn; lia).
  apply wp_bind, rd_wp; [lia|]. intros a _. apply wp_bind, rd_wp; [lia|]. intros b _. destruct (a =? b); cbn [negb]; [apply IH; lia|done].
Qed.
Lemma ignore_change_wp l1 l2 : ∀ fuel i1 i2, 0 <= i1 <= zlen l1 → 0 <= i2 <= zlen l2 → (Z.to_nat (zlen l1 - i1) < fuel)%nat →
  returns (ignore_change_loop fuel l1 l2 i1 i2) (λ r, match r with Some (j1, j2) => 0 <= j1 <= zlen l1 ∧ 0 <= j2 <= zlen l2 | None => True end).
Proof.
  induction fuel as [|fuel IH]; intros i1 i2 H1 H2 Hf; [lia|]. cbn [ignore_change_loop].
  destruct (Z.ltb_spec i1 (zlen l1)), (Z.ltb_spec i2 (zlen l2)); cbn [andb]; try (cbn; lia).
  apply wp_bind, rd_wp; [lia|]. intros a Ea. apply wp_bind, rd_wp; [lia|]. intros b _.
  destruct (XDL_ISSPACE a) eqn:Es; cbn [andb]; [destruct (XDL_ISSPACE b)|].
  2-3: destruct (a =? b); cbn [negb]; [apply IH; lia|done].
  apply wp_bind. eapply wp_mono; [|by apply skip_wp]. intros j1 [Hj1 Hp]. specialize (Hp a Ea Es).
  apply wp_bind. eapply wp_mono; [|by apply skip_wp]. intros j2 [Hj2 _]. apply IH; lia.
Qed.
Lemma common_wp l1 l2 : ∀ fuel i1 i2, 0 <= i1 <= zlen l1 → 0 <= i2 <= zlen l2 → (Z.to_nat (zlen l1 - i1) < fuel)%nat →
  returns (common_loop fuel l1 l2 i1 i2) (λ '(j1, j2), 0 <= j1 <= zlen l1 ∧ 0 <= j2 <= zlen l2).
Proof.
  induction fuel as [|fuel IH]; intros i1 i2 H1 H2 Hf; [lia|]. cbn [common_loop].
  destruct (Z.ltb_spec i1 (zlen l1)), (Z.ltb_spec i2 (zlen l2)); cbn [andb]; try (cbn; lia).
  apply wp_bind, rd_wp; [lia|]. intros a _. apply wp_bind, rd_wp; [lia|]. intros b _. destruct (a =? b); [apply IH; lia|cbn; lia].
Qed.
Lemma rest_blank_wp l1 l2 i1 i2 : 0 <= i1 <= zlen l1 → 0 <= i2 <= zlen l2 → returns (rest_blank l1 l2 i1 i2) (λ _, True).
Proof.
  intros H1 H2. unfold rest_blank. apply wp_bind. apply (wp_mono _ _ (λ _, True)).
  - intros [] _; cbn [negb]; [|done]. destruct (i2 <? zlen l2); [|done]. apply wp_bind. eapply wp_mono; [|by apply skip_wp]. done.
  - destruct (i1 <? zlen l1); [|done]. apply wp_bind. eapply wp_mono; [|by apply skip_wp]. done.
Qed.
Lemma optional_cr_wp l i : 0 <= i <= zlen l → returns (ends_with_optional_cr l i) (λ _, True).
Proof.
  intros Hi. unfold ends_with_optional_cr. apply wp_bind. apply (wp_mono _ _ (λ c, c = true → 0 < zlen l)).
  - intros c Hc. destruct (_ =? i); [done|]. destruct (c && _) eqn:E; [|done]. apply andb_true_iff in E as [-> E].
    apply Z.eqb_eq in E. cbn match in E. apply wp_bind, rd_wp; [lia|done].
  - destruct (Z.eqb_spec (zlen l) 0); [done|]. zlen_pos. apply wp_bind, rd_wp; [lia|]. cbn. lia.
Qed.

(** Without whitespace flags, lines match when they are equal. *)
Lemma recmatch_wp l1 l2 flags : returns (xdl_recmatch l1 l2 flags) (λ r,
  (l1 = l2 → r = true) ∧ (flag flags XDF_WHITESPACE_FLAGS = false → r = true → l1 = l2)).
Proof.
  unfold xdl_recmatch. case_bool_decide as E; [cbn; auto|]. destruct (flag flags XDF_WHITESPACE_FLAGS); cbn [negb]; [|cbn; naive_solver].
  apply (wp_mono _ _ (λ _, True)); [done|]. pose proof (zlen_nonneg l1). pose proof (zlen_nonneg l2).
  assert (Z.to_nat (zlen l1 - 0) < S (length l1))%nat as Hf by (unfold zlen; lia).
  destruct (flag flags XDF_IGNORE_WHITESPACE); [|destruct (flag flags XDF_IGNORE_WHITESPACE_CHANGE); [|destruct (flag flags XDF_IGNORE_WHITESPACE_AT_EOL);
    [|destruct (flag flags XDF_IGNORE_CR_AT_EOL); [|apply rest_blank_wp; lia]]]]; apply wp_bind.
  - eapply wp_mono; [|apply ignore_all_wp; (done || lia)]. intros [[i1 i2]|]; [|done]. intros []. by apply rest_blank_wp.
  - eapply wp_mono; [|apply ignore_change_wp; (done || lia)]. intros [[i1 i2]|]; [|done]. intros []. by apply rest_blank_wp.
  - eapply wp_mono; [|apply common_wp; (done || lia)]. intros [i1 i2] []. by apply rest_blank_wp.
  - eapply wp_mono; [|apply common_wp; (done || lia)]. intros [i1 i2] [? ?]. apply wp_bind. eapply wp_mono; [|by apply optional_cr_wp].
    intros [] _; [by apply optional_cr_wp|done].
Qed.

(** *** Where a line ends *)
Definition line_end (data : list Z) (ptr q : Z) : Prop :=
  ptr <= q <= zlen data ∧ (∀ j, ptr <= j < q → znth data j ≠ Some 10) ∧ (q < zlen data → znth data q = Some 10).

Lemma line_end_step data ptr ptr' q : 0 <= ptr <= ptr' → (∀ j, ptr <= j < ptr' → znth data j ≠ Some 10) → line_end data ptr' q → line_end data ptr q.
Proof.
  intros Hp Hn (H1 & H2 & H3). split_and!; [lia|lia| |done]. intros j Hj. destruct (decide (j < ptr')); [apply Hn|apply H2]; lia.
Qed.
Lemma zslice_snoc {A} (data : list A) ptr q c : 0 <= ptr → ptr <= q → znth data q = Some c →
  zslice ptr (q + 1 - ptr) data = zslice ptr (q - ptr) data ++ [c].
Proof.
  intros Hp Hq E. unfold zslice. replace (q + 1 - ptr) with (q - ptr + 1) by lia. apply ztake_succ; [lia|].
  rewrite znth_zdrop by lia. by replace (ptr + (q - ptr)) with q by lia.
Qed.
Lemma hash_loop_wp data start : ∀ fuel ptr ha, 0 <= start <= ptr → ptr <= zlen data → (Z.to_nat (zlen data - ptr) < fuel)%nat →
  ha = foldl hash_step 5381 (zslice start (ptr - start) data) →
  returns (hash_loop fuel data ptr ha) (λ '(q, ha), line_end data ptr q ∧ ha = foldl hash_step 5381 (zslice start (q - start) data)).
Proof.
  induction fuel as [|fuel IH]; intros ptr ha Hs Hp Hf Hha; [lia|]. cbn [hash_loop]. destruct (Z.ltb_spec ptr (zlen data)) as [Hlt|].
  2: { cbn. split; [|done]. split_and!; lia. }
  destruct (znth_is_Some data ptr) as [c Ec]; [lia|]. rewrite (rd_znth _ _ _ Ec). cbn [obind]. destruct (Z.eqb_spec c 10) as [->|Hne].
  { cbn. split; [|done]. split_and!; try lia. done. }
  eapply wp_mono; [|apply IH; [lia|lia|lia|]].
  - intros [q ha'] [Hl ->]. split; [|done]. eapply line_end_step; [| |exact Hl]; [lia|]. intros j Hj. replace j with ptr by lia. congruence.
  - rewrite (zslice_snoc data start ptr c) by (done || lia). by rewrite foldl_app, Hha.
Qed.

Lemma last_space_wp data : ∀ fuel ptr, 0 <= ptr < zlen data → (Z.to_nat (zlen data - ptr) < fuel)%nat →
  returns (last_space fuel data ptr) (λ q, ptr <= q < zlen data ∧ (∀ j, ptr < j <= q → znth data j ≠ Some 10)).
Proof.
  induction fuel as [|fuel IH]; intros ptr Hp Hf; [lia|]. cbn [last_space]. destruct (Z.ltb_spec (ptr + 1) (zlen data)); [|cbn; split; [lia|intros; lia]].
  destruct (znth_is_Some data (ptr + 1)) as [c Ec]; [lia|]. rewrite (rd_znth _ _ _ Ec). cbn [obind].
  destruct (XDL_ISSPACE c && negb (c =? 10)) eqn:E; [|cbn; split; [lia|intros; lia]]. apply andb_true_iff in E as [_ E]. apply negb_true_iff, Z.eqb_neq in E.
  eapply wp_mono; [|apply IH; lia]. intros q [Hq Hn]. split; [lia|]. intros j Hj.
  destruct (decide (j = ptr + 1)) as [->|]; [congruence|apply Hn; lia].
Qed.
Lemma hash_range_wp data ptr : 0 <= ptr < zlen data → ∀ fuel ptr2 ha, 0 <= ptr2 <= ptr + 1 → (Z.to_nat (ptr + 1 - ptr2) < fuel)%nat →
  returns (hash_range fuel data ptr2 ptr ha) (λ _, True).
Proof.
  intros Hp. induction fuel as [|fuel IH]; intros ptr2 ha H2 Hf; [lia|]. cbn [hash_range]. destruct (Z.eqb_spec ptr2 (ptr + 1)); [done|].
  apply wp_bind, rd_wp; [lia|]. intros c _. apply IH; lia.
Qed.
Lemma hash_space_wp data flags ptr2 ptr ha : 0 <= ptr2 <= ptr → ptr < zlen data → returns (hash_space data flags ptr2 ptr ha) (λ _, True).
Proof.
  intros H2 Hp. unfold hash_space. apply wp_bind. apply (wp_mono _ _ (λ _, True)).
  - intros eol _. destruct (flag flags XDF_IGNORE_WHITESPACE); [done|]. destruct (_ && _); [done|]. destruct (_ && _); [|done].
    apply hash_range_wp; unfold zlen in *; lia.
  - destruct (Z.leb_spec (zlen data) (ptr + 1)); [done|]. apply wp_bind, rd_wp; [lia|done].
Qed.
Lemma hash_ws_loop_wp data flags : ∀ fuel ptr ha, 0 <= ptr <= zlen data → (Z.to_nat (zlen data - ptr) < fuel)%nat →
  returns (hash_ws_loop fuel data flags ptr ha) (λ '(q, _), line_end data ptr q).
Proof.
  induction fuel as [|fuel IH]; intros ptr ha Hp Hf; [lia|]. cbn [hash_ws_loop]. destruct (Z.ltb_spec ptr (zlen data)) as [Hlt|].
  2: { cbn. split_and!; lia. }
  destruct (znth_is_Some data ptr) as [c Ec]; [lia|]. rewrite (rd_znth _ _ _ Ec). cbn [obind]. destruct (Z.eqb_spec c 10) as [->|Hne].
  { cbn. split_and!; try lia. done. }
  assert (∀ ptr' ha', ptr < ptr' <= zlen data → (∀ j, ptr < j < ptr' → znth data j ≠ Some 10) →
    returns (hash_ws_loop fuel data flags ptr' ha') (λ '(q, _), line_end data ptr q)) as Hgo.
  { intros ptr' ha' Hp' Hn. eapply wp_mono; [|apply IH; lia]. intros [q h] Hl. eapply line_end_step; [| |exact Hl]; [lia|].
    intros j Hj. destruct (decide (j = ptr)) as [->|]; [congruence|apply Hn; lia]. }
  destruct (_ =? XDF_IGNORE_CR_AT_EOL).
  { apply wp_bind. apply (wp_mono _ _ (λ _, True)); [intros eol _; apply Hgo; lia|]. destruct (c =? 13); cbn [andb]; [|done].
    destruct (Z.ltb_spec (ptr + 1) (zlen data)); [|done]. apply wp_bind, rd_wp; [lia|done]. }
  destruct (XDL_ISSPACE c); [|apply Hgo; lia]. apply wp_bind. eapply wp_mono; [|apply last_space_wp; unfold zlen in *; lia].
  intros q [Hq Hn]. apply wp_bind. eapply wp_mono; [|apply hash_space_wp; lia]. intros h _. apply Hgo; [lia|]. intros j Hj. apply Hn. lia.
Qed.

(** A line, with its newline if it has one, and its hash. *)
Definition is_line (data : list Z) (ptr cur : Z) : Prop := ∃ q, line_end data ptr q ∧ cur = if q <? zlen data then q + 1 else q.
Definition line_hash (l : list Z) : Z := foldl hash_step 5381 (filter (λ c, c ≠ 10) l).
Lemma filter_all {A} (P : A → Prop) `{∀ x, Decision (P x)} (l : list A) : (∀ x, x ∈ l → P x) → filter P l = l.
Proof.
  intros Hl. induction l as [|x l IH]; [done|]. rewrite filter_cons_True by (apply Hl; by left). f_equal. apply IH. intros y Hy. apply Hl. by right.
Qed.
Lemma line_hash_body data ptr q : 0 <= ptr → line_end data ptr q →
  line_hash (zslice ptr ((if q <? zlen data then q + 1 else q) - ptr) data) = foldl hash_step 5381 (zslice ptr (q - ptr) data).
Proof.
  intros Hp (Hq & Hn & H10). unfold line_hash.
  assert (filter (λ c, c ≠ 10) (zslice ptr (q - ptr) data) = zslice ptr (q - ptr) data) as Hb.
  { apply filter_all. intros c Hc. apply list_elem_of_lookup in Hc as (j & Hj). intros ->.
    assert (znth (zslice ptr (q - ptr) data) (Z.of_nat j) = Some 10) as Hz by (by rewrite znth_of_nat).
    pose proof (znth_Some_lt _ _ _ Hz) as Hlt. rewrite zlen_zslice in Hlt by lia. unfold zslice in Hz. rewrite znth_ztake, znth_zdrop in Hz by lia. apply (Hn (ptr + Z.of_nat j)); [lia|done]. }
  destruct (Z.ltb_spec q (zlen data)); [|by rewrite Hb]. rewrite (zslice_snoc data ptr q 10) by (auto || lia). by rewrite filter_app, Hb, app_nil_r.
Qed.
Lemma hash_record_wp data ptr flags : 0 <= ptr < zlen data → returns (xdl_hash_record data ptr flags) (λ '(cur, ha), is_line data ptr cur ∧
  (flag flags XDF_WHITESPACE_FLAGS = false → ha = line_hash (zslice ptr (cur - ptr) data))).
Proof.
  intros Hp. unfold xdl_hash_record. destruct (flag flags XDF_WHITESPACE_FLAGS).
  - unfold xdl_hash_record_with_whitespace. apply wp_bind. eapply wp_mono; [|apply hash_ws_loop_wp; unfold zlen in *; lia].
    intros [q ha] Hl. cbn. split; [by exists q|done].
  - apply wp_bind. eapply wp_mono; [|apply (hash_loop_wp data ptr); [lia|lia|unfold zlen in *; lia|]].
    + intros [q ha] [Hl ->]. cbn. split; [by exists q|]. intros _. rewrite line_hash_body; (done || lia).
    + rewrite Z.sub_diag. done.
Qed.
End XdlUtils.
