(* ===== verification/Frontier.v ===== *)
(** * Furthest-reaching points (the geometry behind xdl_split of xdiff/xdiffi.c)

    Myers' algorithm looks for an edit path across a box from two corners at
    once.  This file is the mathematics of one of the two searches: [F e d] is
    the furthest point on the diagonal [d] that [e] edits reach from the corner
    [(o1, o2)], given by its first coordinate.  The search from the other corner
    is the same one in the mirrored box ([mirror]).  [XdlSplit] shows that the
    loops of the code compute these points; what is proved here is where they
    can lie as long as the two searches have not met. *)
From stdpp Require Import prelude.
From S2P Require Import Prelude.

Module Frontier.

Section frontier.
Context (o1 l1 o2 l2 : Z) (eq : Z → Z → bool).

Definition dmin : Z := o1 - l2.
Definition dmax : Z := l1 - o2.
Definition fmid : Z := o1 - o2.
Definition bmid : Z := l1 - l2.

(** A snake: along the diagonal while the lines match. *)
Fixpoint slide (n : nat) (x d : Z) : Z :=
  match n with
  | O => x
  | S n => if (x <? l1) && (x - d <? l2) && eq x (x - d) then slide n (x + 1) d else x
  end.
Definition sl (x d : Z) : Z := slide (Z.to_nat (l1 - x)) x d.

(** The diagonals that [e] edits reach, inside the box. *)
Definition act (e d : Z) : Prop :=
  0 <= e ∧ Z.abs (d - fmid) <= e ∧ (d - fmid - e) mod 2 = 0 ∧ dmin <= d <= dmax.
#[export] Instance act_dec e d : Decision (act e d) := _.

(** Where [e + 1] edits arrive on the diagonal [d], before the snake. *)
Definition cand (f : Z → Z) (e d : Z) : Z :=
  if decide (act e (d - 1) ∧ (act e (d + 1) → f (d + 1) <= f (d - 1))) then f (d - 1) + 1 else f (d + 1).

Fixpoint reach (n : nat) (d : Z) : Z :=
  match n with
  | O => o1
  | S n => sl (cand (reach n) (Z.of_nat n) d) d
  end.
Definition F (e d : Z) : Z := reach (Z.to_nat e) d.

Lemma F_0 d : F 0 d = o1.
Proof. done. Qed.
Lemma F_succ e d : 0 <= e → F (e + 1) d = sl (cand (F e) e d) d.
Proof.
  intros He. unfold F. replace (Z.to_nat (e + 1)) with (S (Z.to_nat e)) by lia. cbn [reach]. by rewrite Z2Nat.id.
Qed.

(** ** Snakes *)
Lemma slide_spec n x d :
  x <= slide n x d ∧ slide n x d <= Z.max x l1 ∧ slide n x d - d <= Z.max (x - d) l2 ∧
  (x < slide n x d → eq (slide n x d - 1) (slide n x d - 1 - d) = true).
Proof.
  revert x. induction n as [|n IH]; intros x; cbn [slide]; [lia|].
  destruct (_ && _) eqn:E; [|lia]. apply andb_true_iff in E as [[H1 H2]%andb_true_iff H3].
  destruct (IH (x + 1)) as (A & B & C & D). split_and!; try lia. intros _.
  destruct (decide (x + 1 < slide n (x + 1) d)) as [Hlt|Hge]; [by apply D|].
  replace (slide n (x + 1) d) with (x + 1) by lia. replace (x + 1 - 1) with x by lia. done.
Qed.
Lemma sl_spec x d :
  x <= sl x d ∧ sl x d <= Z.max x l1 ∧ sl x d - d <= Z.max (x - d) l2 ∧ (x < sl x d → eq (sl x d - 1) (sl x d - 1 - d) = true).
Proof. apply slide_spec. Qed.

Lemma sl_unfold x d : sl x d = if (x <? l1) && (x - d <? l2) && eq x (x - d) then sl (x + 1) d else x.
Proof.
  unfold sl. destruct (Z.ltb_spec x l1) as [Hx|Hx].
  - replace (Z.to_nat (l1 - x)) with (S (Z.to_nat (l1 - (x + 1)))) by lia. cbn [slide]. by rewrite (proj2 (Z.ltb_lt x l1)).
  - replace (Z.to_nat (l1 - x)) with 0%nat by lia. done.
Qed.

Hypothesis (H1 : o1 < l1) (H2 : o2 < l2).
Hypothesis (Hstart : eq o1 o2 = false) (Hend : eq (l1 - 1) (l2 - 1) = false).

(** ** The reached points *)
Lemma act_step e d : 0 <= e → act (e + 1) d → act e (d - 1) ∨ act e (d + 1).
Proof.
  intros He (_ & Ha & Hp & Hd). destruct (Z.lt_trichotomy d fmid) as [?|[?|?]];
    unfold act, dmin, dmax, fmid in *; Z.div_mod_to_equations; lia.
Qed.
Lemma cand_cases f e d : 0 <= e → act (e + 1) d →
  (act e (d - 1) ∧ cand f e d = f (d - 1) + 1 ∧ (act e (d + 1) → f (d + 1) <= f (d - 1))) ∨
  (act e (d + 1) ∧ cand f e d = f (d + 1) ∧ (act e (d - 1) → f (d - 1) + 1 <= f (d + 1))).
Proof.
  intros He Ha. unfold cand. destruct (decide (act e (d - 1) ∧ _)) as [[? ?]|Hn]; [by left|right].
  destruct (act_step e d He Ha) as [Hl|Hr].
  - destruct (decide (act e (d + 1))) as [Hr|Hr]; [|by destruct Hn].
    split_and!; try done. intros _. destruct (decide (f (d + 1) <= f (d - 1))); [by destruct Hn|lia].
  - split_and!; try done. intros Hl. destruct (decide (f (d + 1) <= f (d - 1))); [by destruct Hn|lia].
Qed.

Lemma F_bounds e d : act e d → o1 <= F e d ∧ o2 <= F e d - d ∧ o1 + o2 + e <= 2 * F e d - d.
Proof.
  intros Ha. assert (0 <= e) as He by apply Ha. revert d Ha. pattern e. apply natlike_ind; [|clear e He|done].
  - intros d (_ & Ha & _). rewrite F_0. unfold fmid in *. lia.
  - intros e He IH d Ha. rewrite <- Z.add_1_r, F_succ by done. rewrite <- Z.add_1_r in Ha.
    destruct (sl_spec (cand (F e) e d) d) as (A & _). destruct (cand_cases (F e) e d He Ha) as [(Hl & -> & _)|(Hr & -> & _)] in A |- *.
    + specialize (IH _ Hl). lia.
    + specialize (IH _ Hr). lia.
Qed.
Lemma cand_bounds e d : 0 <= e → act (e + 1) d → o1 <= cand (F e) e d ∧ o2 <= cand (F e) e d - d.
Proof.
  intros He Ha. destruct (cand_cases (F e) e d He Ha) as [(Hl & -> & _)|(Hr & -> & _)].
  - pose proof (F_bounds _ _ Hl). lia.
  - pose proof (F_bounds _ _ Hr). lia.
Qed.

(** One more edit goes at least as far. *)
Lemma F_down e d : act e d → act (e + 1) (d - 1) → F e d <= F (e + 1) (d - 1).
Proof.
  intros Ha Hb. assert (0 <= e) as He by apply Ha. rewrite F_succ by done.
  destruct (sl_spec (cand (F e) e (d - 1)) (d - 1)) as (A & _).
  destruct (cand_cases (F e) e (d - 1) He Hb) as [(_ & E & H)|(_ & E & _)]; replace (d - 1 + 1) with d in * by lia; [specialize (H Ha)|]; lia.
Qed.
Lemma F_right e d : act e d → act (e + 1) (d + 1) → F e d + 1 <= F (e + 1) (d + 1).
Proof.
  intros Ha Hb. assert (0 <= e) as He by apply Ha. rewrite F_succ by done.
  destruct (sl_spec (cand (F e) e (d + 1)) (d + 1)) as (A & _).
  destruct (cand_cases (F e) e (d + 1) He Hb) as [(_ & E & _)|(_ & E & H)]; replace (d + 1 - 1) with d in * by lia; [|specialize (H Ha)]; lia.
Qed.

(** Beyond an edge of the box only by way of the edge. *)
Lemma F_over_right e d : 0 <= e → act (e + 1) d → bmid <= d → l1 < F (e + 1) d → act e (d - 1) ∧ l1 <= F e (d - 1).
Proof.
  intros He. revert d. pattern e. apply natlike_ind; [|clear e He|done].
  - intros d Ha Hd. rewrite F_succ by lia. destruct (sl_spec (cand (F 0) 0 d) d) as (_ & B & _). intros Hl.
    assert (l1 < cand (F 0) 0 d) as Hc by lia. unfold cand in Hc. destruct (decide _) in Hc; rewrite F_0 in Hc; lia.
  - intros e He IH d Ha Hd. rewrite <- Z.add_1_r in *. rewrite (F_succ (e + 1)) by lia.
    destruct (sl_spec (cand (F (e + 1)) (e + 1) d) d) as (_ & B & _). intros Hl.
    assert (l1 < cand (F (e + 1)) (e + 1) d) as Hc by lia.
    destruct (cand_cases (F (e + 1)) (e + 1) d ltac:(lia) Ha) as [(Hp & E & _)|(Hp & E & _)]; rewrite E in Hc; [split; [done|lia]|].
    destruct (IH (d + 1) Hp ltac:(lia) Hc) as [Hq Hv]. replace (d + 1 - 1) with d in * by lia.
    assert (act (e + 1) (d - 1)) as Hr. { unfold act, dmin, dmax, fmid, bmid in *. Z.div_mod_to_equations; lia. }
    split; [done|]. pose proof (F_down e d Hq Hr). lia.
Qed.
Lemma F_over_bottom e d : 0 <= e → act (e + 1) d → d <= bmid → l2 < F (e + 1) d - d →
  act e (d + 1) ∧ l2 <= F e (d + 1) - (d + 1).
Proof.
  intros He. revert d. pattern e. apply natlike_ind; [|clear e He|done].
  - intros d Ha Hd. rewrite F_succ by lia. destruct (sl_spec (cand (F 0) 0 d) d) as (_ & _ & C & _). intros Hl.
    assert (l2 < cand (F 0) 0 d - d) as Hc by lia.
    destruct (cand_cases (F 0) 0 d ltac:(lia) Ha) as [((_ & Hp & _) & E & _)|((_ & Hp & _) & E & _)]; rewrite E, F_0 in Hc; unfold fmid in *; lia.
  - intros e He IH d Ha Hd. rewrite <- Z.add_1_r in *. rewrite (F_succ (e + 1)) by lia.
    destruct (sl_spec (cand (F (e + 1)) (e + 1) d) d) as (_ & _ & C & _). intros Hl.
    assert (l2 < cand (F (e + 1)) (e + 1) d - d) as Hc by lia.
    destruct (cand_cases (F (e + 1)) (e + 1) d ltac:(lia) Ha) as [(Hp & E & _)|(Hp & E & _)]; rewrite E in Hc; [|split; [done|lia]].
    destruct (IH (d - 1) Hp ltac:(lia) ltac:(lia)) as [Hq Hv]. replace (d - 1 + 1) with d in * by lia.
    assert (act (e + 1) (d + 1)) as Hr. { unfold act, dmin, dmax, fmid, bmid in *. Z.div_mod_to_equations; lia. }
    split; [done|]. pose proof (F_right e d Hq Hr). lia.
Qed.

(** ** Two searches that have not met

    [G e d] is the point on [d] that [e] edits reach from the other corner; it
    does not leave the box there. *)
Definition opp (e d : Z) : Prop :=
  0 <= e ∧ Z.abs (d - bmid) <= e ∧ (d - bmid - e) mod 2 = 0 ∧ dmin <= d <= dmax.
Context (G : Z → Z → Z).
Hypothesis HG : ∀ e d, opp e d → G e d <= l1 ∧ G e d - d <= l2.

(** After [e] edits from one side and [e'] from the other. *)
Definition clear (e e' : Z) : Prop := ∀ d, act e d → opp e' d → F e d < G e' d.
Definition in_step (e e' : Z) : Prop := (fmid + e - (bmid + e')) mod 2 = 0.

Ltac diag := unfold act, opp, in_step, dmin, dmax, fmid, bmid in *; Z.div_mod_to_equations; lia.

Lemma edge_right e e' d : clear e e' → in_step e e' → 0 <= e' → act e d → bmid <= d → l1 <= F e d → bmid + e' < d.
Proof.
  intros Hc Hp He Ha Hd Hl. destruct (decide (bmid + e' < d)) as [|Hn]; [done|].
  assert (opp e' d) as Ho by diag. pose proof (Hc d Ha Ho). pose proof (HG _ _ Ho). lia.
Qed.
Lemma edge_bottom e e' d : clear e e' → in_step e e' → 0 <= e' → act e d → d <= bmid → l2 <= F e d - d → d < bmid - e'.
Proof.
  intros Hc Hp He Ha Hd Hl. destruct (decide (d < bmid - e')) as [|Hn]; [done|].
  assert (opp e' d) as Ho by diag. pose proof (Hc d Ha Ho). pose proof (HG _ _ Ho). lia.
Qed.

(** Where they first meet lies in the box, *)
Definition before (e e' : Z) : Prop := e = 0 ∨ (clear e e' ∧ in_step e e' ∧ 0 <= e').

Lemma meet_in_box e e' d : 0 <= e → before e e' → act (e + 1) d → Z.abs (d - bmid) <= e' + 1 →
  F (e + 1) d <= l1 ∧ F (e + 1) d - d <= l2.
Proof.
  intros He Hb Ha Hd. destruct (decide (F (e + 1) d <= l1 ∧ F (e + 1) d - d <= l2)) as [|Hn]; [done|exfalso].
  destruct (Z.le_gt_cases bmid d) as [Hge|Hlt].
  - destruct (F_over_right e d He Ha Hge) as [Hq Hv]; [unfold bmid in *; lia|].
    destruct Hb as [->|(Hc & Hp & He')]; [rewrite F_0 in Hv; lia|].
    destruct (decide (bmid <= d - 1)) as [Hge'|Hlt].
    + pose proof (edge_right e e' (d - 1) Hc Hp He' Hq Hge' Hv). lia.
    + pose proof (edge_bottom e e' (d - 1) Hc Hp He' Hq ltac:(lia) ltac:(unfold bmid in *; lia)). diag.
  - destruct (F_over_bottom e d He Ha ltac:(lia)) as [Hq Hv]; [unfold bmid in *; lia|].
    destruct Hb as [->|(Hc & Hp & He')]; [rewrite F_0 in Hv; diag|].
    pose proof (edge_bottom e e' (d + 1) Hc Hp He' Hq ltac:(lia) Hv). lia.
Qed.

(** and is not the other corner. *)
Lemma not_at_end e e' : 0 <= e → (e = 0 ∨ (clear e e' ∧ in_step e e' ∧ 1 <= e')) → act (e + 1) bmid → F (e + 1) bmid < l1.
Proof.
  intros He Hb Ha. rewrite F_succ by done. destruct (sl_spec (cand (F e) e bmid) bmid) as (A & B & _ & D).
  destruct (decide (sl (cand (F e) e bmid) bmid < l1)) as [|Hn]; [done|exfalso].
  assert (l1 <= cand (F e) e bmid) as Hc.
  { destruct (decide (l1 <= cand (F e) e bmid)) as [|Hlt]; [done|]. replace (sl (cand (F e) e bmid) bmid) with l1 in D by lia.
    specialize (D ltac:(lia)). replace (l1 - 1 - bmid) with (l2 - 1) in D by (unfold bmid; lia). congruence. }
  destruct (cand_cases (F e) e bmid He Ha) as [(Hq & E & _)|(Hq & E & _)]; rewrite E in Hc.
  - destruct Hb as [->|(Hcl & Hp & He')]; [rewrite F_0 in Hc; diag|].
    assert (opp e' (bmid - 1)) as Ho by diag. pose proof (Hcl _ Hq Ho). pose proof (HG _ _ Ho). unfold bmid in *. lia.
  - destruct Hb as [->|(Hcl & Hp & He')]; [rewrite F_0 in Hc; lia|].
    assert (opp e' (bmid + 1)) as Ho by diag. pose proof (Hcl _ Hq Ho). pose proof (HG _ _ Ho). lia.
Qed.

(** They meet before the edits cross the whole box. *)
Lemma must_meet e e' : clear e e' → in_step e e' → e - 1 <= e' → l1 - o1 + (l2 - o2) <= e → False.
Proof.
  intros Hc Hp He' He. assert (∃ d, act e d) as [d Ha].
  { destruct (decide (e mod 2 = 0)) as [|]; [exists fmid|exists (fmid + 1)]; diag. }
  pose proof (F_bounds e d Ha) as (_ & _ & Hs). destruct (Z.le_gt_cases bmid d) as [Hd|Hd].
  - pose proof (edge_right e e' d Hc Hp ltac:(lia) Ha Hd). diag.
  - pose proof (edge_bottom e e' d Hc Hp ltac:(lia) Ha ltac:(lia)). diag.
Qed.

(** Meeting cannot be at the near corner either. *)
Lemma not_at_start e d : 1 <= e → act e d → F e d ≠ o1 ∨ F e d - d ≠ o2.
Proof. intros He Ha. pose proof (F_bounds e d Ha). lia. Qed.
End frontier.

(** ** The search from the far corner *)
Definition mirror (eq : Z → Z → bool) : Z → Z → bool := λ i j, eq (- i - 1) (- j - 1).
Definition B (o1 l1 o2 l2 : Z) (eq : Z → Z → bool) (e d : Z) : Z := - F (- l1) (- o1) (- l2) (- o2) (mirror eq) e (- d).

Section both.
Context (o1 l1 o2 l2 : Z) (eq : Z → Z → bool).
Hypothesis (H1 : o1 < l1) (H2 : o2 < l2).
Abbreviation Fb := (F o1 l1 o2 l2 eq).
Abbreviation Bb := (B o1 l1 o2 l2 eq).
Abbreviation mact := (act (- l1) (- o1) (- l2) (- o2)).
Abbreviation mopp := (opp (- l1) (- o1) (- l2) (- o2)).

Lemma mirror_act e d : mact e (- d) ↔ opp o1 l1 o2 l2 e d.
Proof. unfold act, opp, dmin, dmax, fmid, bmid. Z.div_mod_to_equations; lia. Qed.
Lemma mirror_opp e d : mopp e (- d) ↔ act o1 l1 o2 l2 e d.
Proof. unfold act, opp, dmin, dmax, fmid, bmid. Z.div_mod_to_equations; lia. Qed.

Lemma B_bounds e d : opp o1 l1 o2 l2 e d → Bb e d <= l1 ∧ Bb e d - d <= l2 ∧ 2 * Bb e d - d <= l1 + l2 - e.
Proof.
  intros Ho%mirror_act. pose proof (F_bounds (- l1) (- o1) (- l2) (- o2) (mirror eq) ltac:(lia) ltac:(lia) e (- d) Ho). unfold B. lia.
Qed.
Lemma B_opponent e d : opp o1 l1 o2 l2 e d → Bb e d <= l1 ∧ Bb e d - d <= l2.
Proof. intros Ho. pose proof (B_bounds e d Ho). lia. Qed.

(** [F] as the opponent of [B]. *)
Definition mF (e d : Z) : Z := - Fb e (- d).
Lemma F_opponent e d : mopp e d → mF e d <= - o1 ∧ mF e d - d <= - o2.
Proof.
  intros Ho. rewrite <- (Z.opp_involutive d) in Ho. apply mirror_opp in Ho.
  pose proof (F_bounds o1 l1 o2 l2 eq H1 H2 e (- d) Ho). unfold mF. lia.
Qed.
Lemma clear_mirror e e' : clear o1 l1 o2 l2 eq Bb e e' →
  clear (- l1) (- o1) (- l2) (- o2) (mirror eq) mF e' e.
Proof.
  intros Hc d Ha Ho. rewrite <- (Z.opp_involutive d) in Ha, Ho. apply mirror_act in Ha. apply mirror_opp in Ho.
  specialize (Hc (- d) Ho Ha). unfold mF, B in *. rewrite Z.opp_involutive in Hc. lia.
Qed.
Lemma in_step_mirror e e' : in_step o1 l1 o2 l2 e e' → in_step (- l1) (- o1) (- l2) (- o2) e' e.
Proof. unfold in_step, fmid, bmid. Z.div_mod_to_equations; lia. Qed.
End both.
End Frontier.
