(* ===== verification/XdlSplit.v ===== *)
(** * Splitting a box (xdl_split of xdiff/xdiffi.c)

    The bidirectional search of Myers' algorithm with its heuristics.  The two
    vectors of furthest-reaching points live in one allocation [kvd]; [kvdf] and
    [kvdb] are the places of their diagonal 0.  The theorem: the search always
    ends, within as many rounds as the box has lines, reads and writes only
    inside its arrays, and the point it returns splits the box into two smaller
    ones. *)
From stdpp Require Import prelude.
From S2P Require Import Prelude Frontier.

Module XdlSplit.

Definition XDL_MAX_COST_MIN : Z := 256.
Definition XDL_HEUR_MIN_COST : Z := 256.
Definition XDL_LINE_MAX : Z := 2 ^ 63 - 1.
Definition XDL_SNAKE_CNT : Z := 20.
Definition XDL_K_HEUR : Z := 4.

Record xdpsplit_t := Xdpsplit { spl_i1 : Z; spl_i2 : Z; min_lo : bool; min_hi : bool }.
Record xdalgoenv_t := Xdalgoenv { mxcost : Z; snake_cnt : Z; heur_min : Z }.

(** [for (d = d; d >= lo; d -= 2)]: [inr] leaves the function. *)
Fixpoint down2 {S R} (fuel : nat) (body : Z → S → outcome (S + R)) (lo d : Z) (s : S) : outcome (S + R) :=
  match fuel with
  | O => NoFuel
  | Datatypes.S fuel =>
      if d <? lo then Ret (inl s)
      else
        let! r := body d s in
        match r with
        | inl s => down2 fuel body lo (d - 2) s
        | inr x => Ret (inr x)
        end
  end.
Definition diags (lo hi : Z) : nat := S (S (Z.to_nat (hi - lo))).

Section split.
Context (ha1 : list Z) (off1 lim1 : Z) (ha2 : list Z) (off2 lim2 : Z) (kvdf kvdb : Z) (xenv : xdalgoenv_t).

(** ** The snakes *)
Fixpoint snake_fwd (fuel : nat) (i1 i2 : Z) : outcome (Z * Z) :=
  match fuel with
  | O => NoFuel
  | S fuel =>
      if (i1 <? lim1) && (i2 <? lim2) then
        let! a := rd ha1 i1 in
        let! b := rd ha2 i2 in
        if a =? b then snake_fwd fuel (i1 + 1) (i2 + 1) else Ret (i1, i2)
      else Ret (i1, i2)
  end.
Fixpoint snake_bwd (fuel : nat) (i1 i2 : Z) : outcome (Z * Z) :=
  match fuel with
  | O => NoFuel
  | S fuel =>
      if (off1 <? i1) && (off2 <? i2) then
        let! a := rd ha1 (i1 - 1) in
        let! b := rd ha2 (i2 - 1) in
        if a =? b then snake_bwd fuel (i1 - 1) (i2 - 1) else Ret (i1, i2)
      else Ret (i1, i2)
  end.

(** ** The diagonals of a round *)

(** The domain of a vector is extended by one, or turned back at the box. *)
Definition extend (base sentinel lo hi : Z) (kvd : list Z) : outcome (Z * Z * list Z) :=
  let! (lo, kvd) :=
    if off1 - lim2 <? lo then let! kvd := wr kvd (base + (lo - 1 - 1)) sentinel in Ret (lo - 1, kvd)
    else Ret (lo + 1, kvd) in
  let! (hi, kvd) :=
    if hi <? lim1 - off2 then let! kvd := wr kvd (base + (hi + 1 + 1)) sentinel in Ret (hi + 1, kvd)
    else Ret (hi - 1, kvd) in
  Ret (lo, hi, kvd).

(** One diagonal of the forward search; [inr] is a meeting point. *)
Definition fwd_diag (odd : bool) (bmin bmax d : Z) (s : list Z * bool) : outcome (list Z * bool + list Z * (Z * Z)) :=
  let '(kvd, got_snake) := s in
  let! a := rd kvd (kvdf + (d - 1)) in
  let! b := rd kvd (kvdf + (d + 1)) in
  let prev1 := if b <=? a then a + 1 else b in
  let! (i1, i2) := snake_fwd (S (length ha1)) prev1 (prev1 - d) in
  let got_snake := got_snake || (snake_cnt xenv <? i1 - prev1) in
  let! kvd := wr kvd (kvdf + d) i1 in
  if odd && (bmin <=? d) && (d <=? bmax) then
    let! k := rd kvd (kvdb + d) in
    if k <=? i1 then Ret (inr (kvd, (i1, i2))) else Ret (inl (kvd, got_snake))
  else Ret (inl (kvd, got_snake)).

Definition bwd_diag (odd : bool) (fmin fmax d : Z) (s : list Z * bool) : outcome (list Z * bool + list Z * (Z * Z)) :=
  let '(kvd, got_snake) := s in
  let! a := rd kvd (kvdb + (d - 1)) in
  let! b := rd kvd (kvdb + (d + 1)) in
  let prev1 := if a <? b then a else b - 1 in
  let! (i1, i2) := snake_bwd (S (length ha1)) prev1 (prev1 - d) in
  let got_snake := got_snake || (snake_cnt xenv <? prev1 - i1) in
  let! kvd := wr kvd (kvdb + d) i1 in
  if negb odd && (fmin <=? d) && (d <=? fmax) then
    let! k := rd kvd (kvdf + d) in
    if i1 <=? k then Ret (inr (kvd, (i1, i2))) else Ret (inl (kvd, got_snake))
  else Ret (inl (kvd, got_snake)).

(** ** The heuristics *)

(** [for (k = 1; ha1[i1 - k] == ha2[i2 - k]; k++) if (k == xenv->snake_cnt)] *)
Fixpoint snake_before (fuel : nat) (i1 i2 k : Z) : outcome bool :=
  match fuel with
  | O => NoFuel
  | S fuel =>
      let! a := rd ha1 (i1 - k) in
      let! b := rd ha2 (i2 - k) in
      if a =? b then if k =? snake_cnt xenv then Ret true else snake_before fuel i1 i2 (k + 1)
      else Ret false
  end.
Fixpoint snake_after (fuel : nat) (i1 i2 k : Z) : outcome bool :=
  match fuel with
  | O => NoFuel
  | S fuel =>
      let! a := rd ha1 (i1 + k) in
      let! b := rd ha2 (i2 + k) in
      if a =? b then if k =? snake_cnt xenv - 1 then Ret true else snake_after fuel i1 i2 (k + 1)
      else Ret false
  end.

(** The state is [best] and the point it belongs to; no [inr]. *)
Definition heur_fwd (kvd : list Z) (ec d : Z) (s : Z * (Z * Z)) : outcome (Z * (Z * Z) + Empty_set) :=
  let '(best, spl) := s in
  let fmid := off1 - off2 in
  let dd := if fmid <? d then d - fmid else fmid - d in
  let! i1 := rd kvd (kvdf + d) in
  let i2 := i1 - d in
  let v := (i1 - off1) + (i2 - off2) - dd in
  if (XDL_K_HEUR * ec <? v) && (best <? v) &&
     (off1 + snake_cnt xenv <=? i1) && (i1 <? lim1) &&
     (off2 + snake_cnt xenv <=? i2) && (i2 <? lim2) then
    let! ok := snake_before (Z.to_nat (snake_cnt xenv)) i1 i2 1 in
    Ret (inl (if ok then (v, (i1, i2)) else (best, spl)))
  else Ret (inl (best, spl)).

Definition heur_bwd (kvd : list Z) (ec d : Z) (s : Z * (Z * Z)) : outcome (Z * (Z * Z) + Empty_set) :=
  let '(best, spl) := s in
  let bmid := lim1 - lim2 in
  let dd := if bmid <? d then d - bmid else bmid - d in
  let! i1 := rd kvd (kvdb + d) in
  let i2 := i1 - d in
  let v := (lim1 - i1) + (lim2 - i2) - dd in
  if (XDL_K_HEUR * ec <? v) && (best <? v) &&
     (off1 <? i1) && (i1 <=? lim1 - snake_cnt xenv) &&
     (off2 <? i2) && (i2 <=? lim2 - snake_cnt xenv) then
    let! ok := snake_after (Z.to_nat (snake_cnt xenv)) i1 i2 0 in
    Ret (inl (if ok then (v, (i1, i2)) else (best, spl)))
  else Ret (inl (best, spl)).

(** The furthest point inside the box, when it took too long. *)
Definition last_fwd (kvd : list Z) (d : Z) (s : Z * Z) : outcome (Z * Z + Empty_set) :=
  let '(fbest, fbest1) := s in
  let! k := rd kvd (kvdf + d) in
  let i1 := Z.min k lim1 in
  let i2 := i1 - d in
  let '(i1, i2) := if lim2 <? i2 then (lim2 + d, lim2) else (i1, i2) in
  Ret (inl (if fbest <? i1 + i2 then (i1 + i2, i1) else (fbest, fbest1))).
Definition last_bwd (kvd : list Z) (d : Z) (s : Z * Z) : outcome (Z * Z + Empty_set) :=
  let '(bbest, bbest1) := s in
  let! k := rd kvd (kvdb + d) in
  let i1 := Z.max off1 k in
  let i2 := i1 - d in
  let '(i1, i2) := if i2 <? off2 then (off2 + d, off2) else (i1, i2) in
  Ret (inl (if i1 + i2 <? bbest then (i1 + i2, i1) else (bbest, bbest1))).

Definition the_state {S} (r : S + Empty_set) : S := match r with inl s => s | inr x => match x with end end.

(** [if (got_snake && ec > xenv->heur_min)] *)
Definition heuristics (kvd : list Z) (ec fmin fmax bmin bmax : Z) : outcome (option xdpsplit_t) :=
  let! r := down2 (diags fmin fmax) (heur_fwd kvd ec) fmin fmax (0, (0, 0)) in
  let '(best, (i1, i2)) := the_state r in
  if 0 <? best then Ret (Some (Xdpsplit i1 i2 true false))
  else
    let! r := down2 (diags bmin bmax) (heur_bwd kvd ec) bmin bmax (0, (0, 0)) in
    let '(best, (i1, i2)) := the_state r in
    if 0 <? best then Ret (Some (Xdpsplit i1 i2 false true)) else Ret None.

(** [if (ec >= xenv->mxcost)] *)
Definition enough_cost (kvd : list Z) (fmin fmax bmin bmax : Z) : outcome xdpsplit_t :=
  let! r := down2 (diags fmin fmax) (last_fwd kvd) fmin fmax (-1, -1) in
  let '(fbest, fbest1) := the_state r in
  let! r := down2 (diags bmin bmax) (last_bwd kvd) bmin bmax (XDL_LINE_MAX, XDL_LINE_MAX) in
  let '(bbest, bbest1) := the_state r in
  Ret (if (lim1 + lim2) - bbest <? fbest - (off1 + off2) then Xdpsplit fbest1 (fbest - fbest1) true false
       else Xdpsplit bbest1 (bbest - bbest1) false true).

(** ** The rounds: [for (ec = 1;; ec++)] *)
Fixpoint ec_loop (fuel : nat) (need_min : bool) (ec fmin fmax bmin bmax : Z) (kvd : list Z) : outcome (Z * xdpsplit_t * list Z) :=
  match fuel with
  | O => NoFuel
  | S fuel =>
      let odd := Z.odd ((off1 - off2) - (lim1 - lim2)) in
      let! (fmin, fmax, kvd) := extend kvdf (-1) fmin fmax kvd in
      let! r := down2 (diags fmin fmax) (fwd_diag odd bmin bmax) fmin fmax (kvd, false) in
      match r with
      | inr (kvd, (i1, i2)) => Ret (ec, Xdpsplit i1 i2 true true, kvd)
      | inl (kvd, got_snake) =>
          let! (bmin, bmax, kvd) := extend kvdb XDL_LINE_MAX bmin bmax kvd in
          let! r := down2 (diags bmin bmax) (bwd_diag odd fmin fmax) bmin bmax (kvd, got_snake) in
          match r with
          | inr (kvd, (i1, i2)) => Ret (ec, Xdpsplit i1 i2 true true, kvd)
          | inl (kvd, got_snake) =>
              if need_min then ec_loop fuel need_min (ec + 1) fmin fmax bmin bmax kvd
              else
                let! h := if got_snake && (heur_min xenv <? ec) then heuristics kvd ec fmin fmax bmin bmax else Ret None in
                match h with
                | Some spl => Ret (ec, spl, kvd)
                | None =>
                    if mxcost xenv <=? ec then let! spl := enough_cost kvd fmin fmax bmin bmax in Ret (ec, spl, kvd)
                    else ec_loop fuel need_min (ec + 1) fmin fmax bmin bmax kvd
                end
          end
      end
  end.

Definition xdl_split (kvd : list Z) (need_min : bool) : outcome (Z * xdpsplit_t * list Z) :=
  let fmid := off1 - off2 in
  let bmid := lim1 - lim2 in
  let! kvd := wr kvd (kvdf + fmid) off1 in
  let! kvd := wr kvd (kvdb + bmid) lim1 in
  ec_loop (Z.to_nat (lim1 - off1 + (lim2 - off2))) need_min 1 fmid fmid bmid bmid kvd.
End split.

(** ** The loops *)
Lemma down2_wp {S R} (I : Z → S → Prop) (Q : R → Prop) (body : Z → S → outcome (S + R)) lo hi s :
  (∀ d s, lo <= d <= hi → (hi - d) mod 2 = 0 → I d s → returns (body d s) (λ r, match r with inl s => I (d - 2) s | inr x => Q x end)) →
  I hi s → returns (down2 (diags lo hi) body lo hi s) (λ r, match r with inl s => ∃ d, d < lo ∧ I d s | inr x => Q x end).
Proof.
  intros Hb Hi. unfold diags.
  enough (∀ fuel d s, d <= hi → (hi - d) mod 2 = 0 → I d s → (Z.to_nat (d - lo + 1) < fuel)%nat →
    returns (down2 fuel body lo d s) (λ r, match r with inl s => ∃ d, d < lo ∧ I d s | inr x => Q x end)) as H.
  { apply H; [lia|by rewrite Z.sub_diag|done|lia]. }
  induction fuel as [|fuel IH]; intros d s0 Hd Hp Hs Hf; [lia|]. cbn [down2].
  destruct (Z.ltb_spec d lo); [cbn; eauto|]. apply wp_bind. eapply wp_mono; [|apply Hb; (done || lia)].
  intros [s'|x] Hr; [|done]. apply IH; [lia|Z.div_mod_to_equations; lia|done|lia].
Qed.

(** A pass over the diagonals [P] of a vector at [base] that stores [f d] and
    stops at the first [d] where the searches meet. *)
Lemma pass_wp (body : Z → list Z * bool → outcome (list Z * bool + list Z * (Z * Z))) base lo hi (P meets : Z → Prop)
  (f : Z → Z) kvd0 got0 :
  (∀ d, P d ↔ lo <= d <= hi ∧ (hi - d) mod 2 = 0) → (∀ d, P d → 0 <= base + d < zlen kvd0) →
  (∀ d kvd got, P d → zlen kvd = zlen kvd0 → (∀ j, (∀ d', d < d' → P d' → j ≠ base + d') → znth kvd j = znth kvd0 j) →
     ∃ got', body d (kvd, got) = Ret (inl (<[Z.to_nat (base + d) := f d]> kvd, got')) ∧ ¬ meets d ∨
             body d (kvd, got) = Ret (inr (<[Z.to_nat (base + d) := f d]> kvd, (f d, f d - d))) ∧ meets d) →
  returns (down2 (diags lo hi) body lo hi (kvd0, got0)) (λ r,
    match r with
    | inl (kvd, _) => zlen kvd = zlen kvd0 ∧ (∀ d, P d → znth kvd (base + d) = Some (f d) ∧ ¬ meets d) ∧
                      (∀ j, (∀ d, P d → j ≠ base + d) → znth kvd j = znth kvd0 j)
    | inr (kvd, (i1, i2)) => zlen kvd = zlen kvd0 ∧ ∃ d, P d ∧ meets d ∧ i1 = f d ∧ i2 = f d - d
    end).
Proof.
  intros HP Hin Hbody.
  set (I := λ d (s : list Z * bool), zlen s.1 = zlen kvd0 ∧ (∀ d', d < d' → P d' → znth s.1 (base + d') = Some (f d') ∧ ¬ meets d') ∧
    (∀ j, (∀ d', d < d' → P d' → j ≠ base + d') → znth s.1 j = znth kvd0 j)).
  eapply wp_mono; [|apply (down2_wp I (λ x, zlen x.1 = zlen kvd0 ∧ ∃ d, P d ∧ meets d ∧ x.2.1 = f d ∧ x.2.2 = f d - d))].
  - intros [[kvd got]|[kvd [i1 i2]]]; [|done]. intros (d & Hd & Hz & Hf & Hj). cbn in *. split_and!; [done|..].
    + intros d' Hd'. apply Hf; [|done]. apply HP in Hd'. lia.
    + intros j Hn. apply Hj. intros d' _ Hd'. by apply Hn.
  - intros d [kvd got] Hd Hpar (Hz & Hf & Hj). cbn [fst] in *. assert (P d) as HPd by (by apply HP).
    destruct (Hbody d kvd got HPd Hz Hj) as (got' & [[-> Hm]|[-> Hm]]); cbn; [|split; [by rewrite zlen_insert|eauto]].
    unfold I; cbn [fst]. split_and!; [by rewrite zlen_insert|..].
    + intros d' Hlt Hd'. destruct (decide (d' = d)) as [->|]; [rewrite znth_insert_eq; [done|by rewrite Hz; apply Hin]|].
      rewrite znth_insert_ne; [|by apply Hin|lia]. apply Hf; [|done]. apply HP in Hd'. Z.div_mod_to_equations; lia.
    + intros j Hn. rewrite znth_insert_ne; [|by apply Hin|intros <-; by apply (Hn d); [lia| |]].
      apply Hj. intros d' Hd' HP'. apply Hn; [lia|done].
  - split_and!; [done|..]; cbn.
    + intros d' Hlt Hd'%HP. lia.
    + done.
Qed.

(** ** The domain of a vector *)
Section domain.
Context (off1 lim1 off2 lim2 : Z).
Hypothesis (B1 : off1 < lim1) (B2 : off2 < lim2).

Definition on (mid e d : Z) : Prop :=
  0 <= e ∧ Z.abs (d - mid) <= e ∧ (d - mid - e) mod 2 = 0 ∧ off1 - lim2 <= d <= lim1 - off2.
Definition range (mid e lo hi : Z) : Prop :=
  (lo - mid - e) mod 2 = 0 ∧ off1 - lim2 <= lo ∧ (lo = mid - e ∨ mid - e <= lo <= off1 - lim2 + 1) ∧
  (hi - mid - e) mod 2 = 0 ∧ hi <= lim1 - off2 ∧ (hi = mid + e ∨ lim1 - off2 - 1 <= hi <= mid + e).
Definition inside (mid : Z) : Prop := off1 - lim2 < mid < lim1 - off2.

Ltac dom := unfold on, range, inside in *; Z.div_mod_to_equations; lia.

Lemma range_on mid e lo hi d : inside mid → 0 <= e → range mid e lo hi → on mid e d ↔ lo <= d <= hi ∧ (hi - d) mod 2 = 0.
Proof. intros Hm He Hr. split; intros Hd; dom. Qed.
Lemma range_le mid e lo hi : inside mid → 0 <= e → range mid e lo hi → lo <= hi.
Proof. intros Hm He Hr. dom. Qed.
Lemma range_0 mid : inside mid → range mid 0 mid mid.
Proof. intros Hm. dom. Qed.

Lemma extend_ok base sentinel mid e lo hi kvd : inside mid → 0 <= e → range mid e lo hi →
  0 <= base + (off1 - lim2) - 1 → base + (lim1 - off2) + 1 < zlen kvd →
  ∃ lo' hi' kvd', extend off1 lim1 off2 lim2 base sentinel lo hi kvd = Ret (lo', hi', kvd') ∧ zlen kvd' = zlen kvd ∧
    range mid (e + 1) lo' hi' ∧ (∀ d, on mid e d → znth kvd' (base + d) = znth kvd (base + d)) ∧
    (∀ d, lo' - 1 <= d <= hi' + 1 → (d - mid - e) mod 2 = 0 → ¬ on mid e d → znth kvd' (base + d) = Some sentinel) ∧
    (∀ j, j < base + (off1 - lim2) - 1 ∨ base + (lim1 - off2) + 1 < j → znth kvd' j = znth kvd j).
Proof.
  intros Hm He Hr Hlo Hhi. unfold extend.
  set (k1 := if off1 - lim2 <? lo then <[Z.to_nat (base + (lo - 1 - 1)) := sentinel]> kvd else kvd).
  set (lo' := if off1 - lim2 <? lo then lo - 1 else lo + 1).
  replace (if off1 - lim2 <? lo then _ else _) with (Ret (lo', k1)).
  2: { subst k1 lo'. destruct (Z.ltb_spec (off1 - lim2) lo); [|done]. by rewrite wr_ok by dom. }
  assert (zlen k1 = zlen kvd) as Hz1 by (subst k1; destruct (_ <? _); by rewrite ?zlen_insert).
  cbn [obind]. set (k2 := if hi <? lim1 - off2 then <[Z.to_nat (base + (hi + 1 + 1)) := sentinel]> k1 else k1).
  set (hi' := if hi <? lim1 - off2 then hi + 1 else hi - 1).
  replace (if hi <? lim1 - off2 then _ else _) with (Ret (hi', k2)).
  2: { subst k2 hi'. destruct (Z.ltb_spec hi (lim1 - off2)); [|done]. by rewrite wr_ok by dom. }
  cbn [obind]. exists lo', hi', k2. split; [done|].
  assert (∀ j, j ≠ base + (lo - 2) ∨ lo <= off1 - lim2 → j ≠ base + (hi + 2) ∨ lim1 - off2 <= hi → znth k2 j = znth kvd j) as Hsame.
  { intros j Hj1 Hj2. subst k2 k1. destruct (Z.ltb_spec hi (lim1 - off2)), (Z.ltb_spec (off1 - lim2) lo); rewrite ?znth_insert_ne by dom; done. }
  split_and!.
  - subst k2. clearbody k1. destruct (hi <? _); rewrite ?zlen_insert; done.
  - subst lo' hi'. destruct (Z.ltb_spec hi (lim1 - off2)), (Z.ltb_spec (off1 - lim2) lo); dom.
  - intros d Hd. apply Hsame; dom.
  - intros d Hd Hp Hn. subst lo' hi'. assert (off1 - lim2 < lo ∧ d = lo - 2 ∨ hi < lim1 - off2 ∧ d = hi + 2) as [[Hlt ->]|[Hlt ->]].
    { destruct (Z.ltb_spec hi (lim1 - off2)), (Z.ltb_spec (off1 - lim2) lo); dom. }
    + subst k2 k1. rewrite (proj2 (Z.ltb_lt (off1 - lim2) lo)) by done. replace (base + (lo - 1 - 1)) with (base + (lo - 2)) by lia.
      destruct (hi <? _); rewrite ?znth_insert_ne by dom; apply znth_insert_eq; dom.
    + subst k2. rewrite (proj2 (Z.ltb_lt hi (lim1 - off2))) by done. replace (base + (hi + 1 + 1)) with (base + (hi + 2)) by lia.
      apply znth_insert_eq. dom.
  - intros j Hj. apply Hsame; dom.
Qed.
End domain.


(** ** The search *)
Section search.
Context (ha1 : list Z) (off1 lim1 : Z) (ha2 : list Z) (off2 lim2 kvdf kvdb : Z) (xenv : xdalgoenv_t) (K : Z).
Hypothesis (B1 : 0 <= off1 < lim1) (B2 : 0 <= off2 < lim2) (L1 : lim1 <= zlen ha1) (L2 : lim2 <= zlen ha2).
Hypothesis (HM : lim1 + lim2 < XDL_LINE_MAX).
Hypothesis (Kf : 0 <= kvdf + (off1 - lim2) - 1) (Kfb : kvdf + (lim1 - off2) + 1 < kvdb + (off1 - lim2) - 1)
  (Kb : kvdb + (lim1 - off2) + 1 < K).

Definition same (i j : Z) : bool := bool_decide (znth ha1 i = znth ha2 j).
Abbreviation F := (Frontier.F off1 lim1 off2 lim2 same).
Abbreviation B := (Frontier.B off1 lim1 off2 lim2 same).
Abbreviation fmid := (off1 - off2).
Abbreviation bmid := (lim1 - lim2).
Abbreviation on := (on off1 lim1 off2 lim2).
Abbreviation range := (range off1 lim1 off2 lim2).

Ltac dom := unfold XdlSplit.on, XdlSplit.range, inside in *; Z.div_mod_to_equations; lia.

Lemma same_rd i j : 0 <= i < zlen ha1 → 0 <= j < zlen ha2 →
  ∃ a b, rd ha1 i = Ret a ∧ rd ha2 j = Ret b ∧ (a =? b) = same i j.
Proof.
  intros Hi Hj. destruct (znth_is_Some ha1 i Hi) as [a Ea], (znth_is_Some ha2 j Hj) as [b Eb]. exists a, b.
  rewrite (rd_znth _ _ _ Ea), (rd_znth _ _ _ Eb). split_and!; try done. unfold same. rewrite Ea, Eb.
  destruct (Z.eqb_spec a b) as [->|]; case_bool_decide; congruence.
Qed.

Lemma snake_fwd_ok : ∀ fuel x d, 0 <= x → 0 <= x - d → (Z.to_nat (lim1 - x) < fuel)%nat →
  snake_fwd ha1 lim1 ha2 lim2 fuel x (x - d) =
  Ret (Frontier.sl lim1 lim2 same x d, Frontier.sl lim1 lim2 same x d - d).
Proof.
  induction fuel as [|fuel IH]; intros x d Hx Hy Hf; [lia|]. cbn [snake_fwd]. rewrite Frontier.sl_unfold.
  destruct (Z.ltb_spec x lim1), (Z.ltb_spec (x - d) lim2); cbn [andb]; try done.
  destruct (same_rd x (x - d)) as (a & b & -> & -> & E); [lia..|]. cbn [obind]. rewrite E. destruct (same x (x - d)); [|done].
  replace (x - d + 1) with (x + 1 - d) by lia. apply IH; lia.
Qed.

Abbreviation msl := (Frontier.sl (- off1) (- off2) (Frontier.mirror same)).
Lemma snake_bwd_ok : ∀ fuel x d, x <= zlen ha1 → x - d <= zlen ha2 → (Z.to_nat (x - off1) < fuel)%nat →
  snake_bwd ha1 off1 ha2 off2 fuel x (x - d) = Ret (- msl (- x) (- d), - msl (- x) (- d) - d).
Proof.
  induction fuel as [|fuel IH]; intros x d Hx Hy Hf; [lia|]. cbn [snake_bwd]. rewrite Frontier.sl_unfold.
  replace (- x <? - off1) with (off1 <? x) by (bcase; lia). replace (- x - - d <? - off2) with (off2 <? x - d) by (bcase; lia).
  destruct (Z.ltb_spec off1 x), (Z.ltb_spec off2 (x - d)); cbn [andb]; try (by rewrite Z.opp_involutive).
  destruct (same_rd (x - 1) (x - d - 1)) as (a & b & -> & -> & E); [lia..|]. cbn [obind]. rewrite E.
  unfold Frontier.mirror at 1 3. replace (- - x - 1) with (x - 1) by lia. replace (- (- x - - d) - 1) with (x - d - 1) by lia.
  destruct (same (x - 1) (x - d - 1)); [|by rewrite Z.opp_involutive].
  replace (- x + 1) with (- (x - 1)) by lia. replace (x - d - 1) with (x - 1 - d) by lia. apply IH; lia.
Qed.

(** *** A vector holds the points of a round *)
Definition vec (kvd : list Z) (base mid e : Z) (f : Z → Z → Z) : Prop := ∀ d, on mid e d → znth kvd (base + d) = Some (f e d).
(** with a sentinel around them *)
Definition ringed (kvd : list Z) (base mid e sentinel lo hi : Z) : Prop :=
  ∀ d, lo - 1 <= d <= hi + 1 → (d - mid - e) mod 2 = 0 → ¬ on mid e d → znth kvd (base + d) = Some sentinel.

Lemma fwd_diag_ok odd bmin bmax e e' lo hi kvd got d : 0 <= e → 0 <= e' → zlen kvd = K →
  range fmid (e + 1) lo hi → range bmid e' bmin bmax → on fmid (e + 1) d → (odd = true → (fmid + e + 1 - (bmid + e')) mod 2 = 0) →
  (∀ d', d' = d - 1 ∨ d' = d + 1 → on fmid e d' → znth kvd (kvdf + d') = Some (F e d')) →
  (∀ d', d' = d - 1 ∨ d' = d + 1 → ¬ on fmid e d' → znth kvd (kvdf + d') = Some (-1)) →
  (on bmid e' d → znth kvd (kvdb + d) = Some (B e' d)) →
  let meets := odd = true ∧ bmin <= d <= bmax ∧ B e' d <= F (e + 1) d in
  let kvd' := <[Z.to_nat (kvdf + d) := F (e + 1) d]> kvd in
  ∃ got', fwd_diag ha1 lim1 ha2 lim2 kvdf kvdb xenv odd bmin bmax d (kvd, got) = Ret (inl (kvd', got')) ∧ ¬ meets ∨
          fwd_diag ha1 lim1 ha2 lim2 kvdf kvdb xenv odd bmin bmax d (kvd, got) = Ret (inr (kvd', (F (e + 1) d, F (e + 1) d - d))) ∧ meets.
Proof.
  intros He He' Hz Hr Hr' Hd Hodd Hold Hsent Hb meets kvd'. unfold fwd_diag.
  assert (∀ d', d' = d - 1 ∨ d' = d + 1 → ∃ v, rd kvd (kvdf + d') = Ret v ∧ (on fmid e d' → v = F e d') ∧ (¬ on fmid e d' → v = -1)) as Hrd.
  { intros d' Hd'. destruct (decide (on fmid e d')) as [Ho|Hn].
    - exists (F e d'). by rewrite (rd_znth _ _ _ (Hold d' Hd' Ho)).
    - exists (-1). by rewrite (rd_znth _ _ _ (Hsent d' Hd' Hn)). }
  destruct (Hrd (d - 1)) as (a & -> & Ha1 & Ha2); [by left|]. destruct (Hrd (d + 1)) as (b & -> & Hb1 & Hb2); [by right|]. cbn [obind].
  assert (∀ d', on fmid e d' → 0 <= F e d') as Hpos.
  { intros d' Ho. pose proof (Frontier.F_bounds off1 lim1 off2 lim2 same ltac:(lia) ltac:(lia) e d' Ho). lia. }
  assert ((if b <=? a then a + 1 else b) = Frontier.cand off1 lim1 off2 lim2 (F e) e d) as ->.
  { destruct (Frontier.cand_cases off1 lim1 off2 lim2 ltac:(lia) ltac:(lia) (F e) e d He Hd) as [(Ho & -> & Hc)|(Ho & -> & Hc)].
    - rewrite (Ha1 Ho). destruct (decide (on fmid e (d + 1))) as [Hq|Hq].
      + rewrite (Hb1 Hq). rewrite (proj2 (Z.leb_le _ _)); [done|by apply Hc].
      + rewrite (Hb2 Hq). rewrite (proj2 (Z.leb_le _ _)); [done|]. pose proof (Hpos _ Ho). lia.
    - rewrite (Hb1 Ho). destruct (decide (on fmid e (d - 1))) as [Hq|Hq].
      + rewrite (Ha1 Hq). rewrite (proj2 (Z.leb_gt _ _)); [done|]. specialize (Hc Hq). lia.
      + rewrite (Ha2 Hq). rewrite (proj2 (Z.leb_gt _ _)); [done|]. pose proof (Hpos _ Ho). lia. }
  pose proof (Frontier.cand_bounds off1 lim1 off2 lim2 same ltac:(lia) ltac:(lia) e d He Hd) as [Hc1 Hc2].
  rewrite snake_fwd_ok by (unfold zlen in *; lia). cbn [obind]. rewrite <- (Frontier.F_succ off1 lim1 off2 lim2 same e d He).
  rewrite wr_ok by dom. cbn [obind]. fold kvd'.
  destruct odd; cbn [andb]; [|eexists; left; split; [done|by intros [? _]]].
  destruct (Z.leb_spec bmin d), (Z.leb_spec d bmax); cbn [andb]; try (eexists; left; split; [done|intros (_ & ? & _); lia]).
  assert (on bmid e' d) as Ho by (specialize (Hodd eq_refl); dom).
  rewrite (rd_znth _ _ (B e' d)). 2: { unfold kvd'. rewrite znth_insert_ne by dom. by apply Hb. }
  cbn [obind]. destruct (Z.leb_spec (B e' d) (F (e + 1) d)); exists (got || (snake_cnt xenv <? F (e + 1) d - Frontier.cand off1 lim1 off2 lim2 (F e) e d)).
  - right. split; [done|]. unfold meets. split_and!; (done || lia).
  - left. split; [done|]. intros (_ & _ & ?). lia.
Qed.

Abbreviation mF := (Frontier.F (- lim1) (- off1) (- lim2) (- off2) (Frontier.mirror same)).
Abbreviation mcand := (Frontier.cand (- lim1) (- off1) (- lim2) (- off2)).
Lemma on_mirror e d : Frontier.act (- lim1) (- off1) (- lim2) (- off2) e (- d) ↔ on bmid e d.
Proof. by apply (Frontier.mirror_act off1 lim1 off2 lim2 same). Qed.

Lemma bwd_diag_ok odd fmin fmax e e' lo hi kvd got d : 0 <= e → 0 <= e' → zlen kvd = K →
  range bmid (e + 1) lo hi → range fmid e' fmin fmax → on bmid (e + 1) d → (odd = false → (fmid + e' - (bmid + e + 1)) mod 2 = 0) →
  (∀ d', d' = d - 1 ∨ d' = d + 1 → on bmid e d' → znth kvd (kvdb + d') = Some (B e d')) →
  (∀ d', d' = d - 1 ∨ d' = d + 1 → ¬ on bmid e d' → znth kvd (kvdb + d') = Some XDL_LINE_MAX) →
  (on fmid e' d → znth kvd (kvdf + d) = Some (F e' d)) →
  let meets := odd = false ∧ fmin <= d <= fmax ∧ B (e + 1) d <= F e' d in
  let kvd' := <[Z.to_nat (kvdb + d) := B (e + 1) d]> kvd in
  ∃ got', bwd_diag ha1 off1 ha2 off2 kvdf kvdb xenv odd fmin fmax d (kvd, got) = Ret (inl (kvd', got')) ∧ ¬ meets ∨
          bwd_diag ha1 off1 ha2 off2 kvdf kvdb xenv odd fmin fmax d (kvd, got) = Ret (inr (kvd', (B (e + 1) d, B (e + 1) d - d))) ∧ meets.
Proof.
  intros He He' Hz Hr Hr' Hd Hodd Hold Hsent Hf meets kvd'. unfold bwd_diag.
  assert (∀ d', d' = d - 1 ∨ d' = d + 1 → ∃ v, rd kvd (kvdb + d') = Ret v ∧ (on bmid e d' → v = B e d') ∧ (¬ on bmid e d' → v = XDL_LINE_MAX)) as Hrd.
  { intros d' Hd'. destruct (decide (on bmid e d')) as [Ho|Hn].
    - exists (B e d'). by rewrite (rd_znth _ _ _ (Hold d' Hd' Ho)).
    - exists XDL_LINE_MAX. by rewrite (rd_znth _ _ _ (Hsent d' Hd' Hn)). }
  destruct (Hrd (d - 1)) as (a & -> & Ha1 & Ha2); [by left|]. destruct (Hrd (d + 1)) as (b & -> & Hb1 & Hb2); [by right|]. cbn [obind].
  assert (∀ d', on bmid e d' → B e d' < XDL_LINE_MAX) as Hmax.
  { intros d' Ho. pose proof (Frontier.B_opponent off1 lim1 off2 lim2 same ltac:(lia) ltac:(lia) e d' Ho). lia. }
  assert (Frontier.act (- lim1) (- off1) (- lim2) (- off2) (e + 1) (- d)) as Hmd by (by apply on_mirror).
  assert ((if a <? b then a else b - 1) = - mcand (mF e) e (- d)) as ->.
  { destruct (Frontier.cand_cases (- lim1) (- off1) (- lim2) (- off2) ltac:(lia) ltac:(lia) (mF e) e (- d) He Hmd) as [(Ho & -> & Hc)|(Ho & -> & Hc)];
      replace (- d - 1) with (- (d + 1)) in * by lia; replace (- d + 1) with (- (d - 1)) in * by lia; rewrite ?on_mirror in *.
    - rewrite (Hb1 Ho). unfold B in *. destruct (decide (on bmid e (d - 1))) as [Hq|Hq].
      + rewrite (Ha1 Hq). specialize (Hc Hq). rewrite (proj2 (Z.ltb_ge _ _)); lia.
      + rewrite (Ha2 Hq). specialize (Hmax _ Ho). rewrite (proj2 (Z.ltb_ge _ _)); lia.
    - rewrite (Ha1 Ho). unfold B in *. destruct (decide (on bmid e (d + 1))) as [Hq|Hq].
      + rewrite (Hb1 Hq). specialize (Hc Hq). rewrite (proj2 (Z.ltb_lt _ _)); lia.
      + rewrite (Hb2 Hq). specialize (Hmax _ Ho). rewrite (proj2 (Z.ltb_lt _ _)); lia. }
  pose proof (Frontier.cand_bounds (- lim1) (- off1) (- lim2) (- off2) (Frontier.mirror same) ltac:(lia) ltac:(lia) e (- d) He Hmd) as [Hc1 Hc2].
  rewrite snake_bwd_ok by (unfold zlen in *; lia). cbn [obind]. rewrite Z.opp_involutive.
  rewrite <- (Frontier.F_succ (- lim1) (- off1) (- lim2) (- off2) (Frontier.mirror same) e (- d) He). fold (B (e + 1) d).
  rewrite wr_ok by dom. cbn [obind]. fold kvd'.
  destruct odd; cbn [andb negb]; [eexists; left; split; [done|by intros [? _]]|].
  destruct (Z.leb_spec fmin d), (Z.leb_spec d fmax); cbn [andb]; try (eexists; left; split; [done|intros (_ & ? & _); lia]).
  assert (on fmid e' d) as Ho by (specialize (Hodd eq_refl); dom).
  rewrite (rd_znth _ _ (F e' d)). 2: { unfold kvd'. rewrite znth_insert_ne by dom. by apply Hf. }
  cbn [obind]. destruct (Z.leb_spec (B (e + 1) d) (F e' d)); eexists.
  - right. split; [done|]. unfold meets. split_and!; (done || lia).
  - left. split; [done|]. intros (_ & _ & ?). lia.
Unshelve. exact false.
Qed.

(** *** A round *)
Abbreviation odd := (Z.odd (off1 - off2 - (lim1 - lim2))).
Abbreviation clear := (Frontier.clear off1 lim1 off2 lim2 same B).
Definition st (e e' fmin fmax bmin bmax : Z) (kvd : list Z) : Prop :=
  zlen kvd = K ∧ range fmid e fmin fmax ∧ range bmid e' bmin bmax ∧ vec kvd kvdf fmid e F ∧ vec kvd kvdb bmid e' B.

Lemma mids : inside off1 lim1 off2 lim2 fmid ∧ inside off1 lim1 off2 lim2 bmid.
Proof. unfold inside. lia. Qed.
Lemma odd_parity : if odd then (fmid - bmid) mod 2 = 1 else (fmid - bmid) mod 2 = 0.
Proof. rewrite Zmod_odd. by destruct odd. Qed.

Lemma fwd_round e fmin fmax bmin bmax kvd got : 0 <= e → st e e fmin fmax bmin bmax kvd →
  ∃ fmin' fmax' kvd', extend off1 lim1 off2 lim2 kvdf (-1) fmin fmax kvd = Ret (fmin', fmax', kvd') ∧
    returns (down2 (diags fmin' fmax') (fwd_diag ha1 lim1 ha2 lim2 kvdf kvdb xenv odd bmin bmax) fmin' fmax' (kvd', got)) (λ r,
      match r with
      | inl (kvd, _) => st (e + 1) e fmin' fmax' bmin bmax kvd ∧ (odd = true → clear (e + 1) e)
      | inr (kvd, (i1, i2)) => zlen kvd = K ∧ odd = true ∧
          ∃ d, on fmid (e + 1) d ∧ on bmid e d ∧ i1 = F (e + 1) d ∧ i2 = F (e + 1) d - d
      end).
Proof.
  intros He (Hz & Hf & Hb & Vf & Vb). destruct mids as [Mf Mb]. pose proof odd_parity as Hodd.
  destruct (extend_ok off1 lim1 off2 lim2 ltac:(lia) ltac:(lia) kvdf (-1) fmid e fmin fmax kvd Mf He Hf) as (lo & hi & k1 & E & Hz1 & Hr & Hsame & Hsent & Hout); [lia..|].
  exists lo, hi, k1. split; [done|].
  assert (∀ d, on fmid (e + 1) d ↔ lo <= d <= hi ∧ (hi - d) mod 2 = 0) as HP by (intros d; apply range_on; (done || lia)).
  assert (∀ d, on bmid e d ↔ bmin <= d <= bmax ∧ (bmax - d) mod 2 = 0) as HPb by (intros d; apply range_on; (done || lia)).
  eapply wp_mono; [|apply (pass_wp _ kvdf lo hi (on fmid (e + 1)) (λ d, odd = true ∧ bmin <= d <= bmax ∧ B e d <= F (e + 1) d) (F (e + 1)))].
  - intros [[k2 g]|[k2 [i1 i2]]].
    + intros (Hz2 & Hnew & Hold). split; [split_and!; try done; [lia|intros d Hd; by apply Hnew|]|].
      * intros d Hd. rewrite Hold by (intros d' Hd'; dom). rewrite Hout by dom. by apply Vb.
      * intros Ho d Hd Hd'. destruct (Hnew d Hd) as [_ Hn]. destruct (Z.lt_ge_cases (F (e + 1) d) (B e d)) as [|Hge]; [done|].
        destruct Hn. split_and!; try done; apply HPb in Hd'; lia.
    + intros (Hz2 & d & Hd & (Ho & Hbd & _) & -> & ->). split_and!; [lia|done|]. exists d. split_and!; try done.
      rewrite Ho in Hodd. dom.
  - exact HP.
  - intros d Hd. dom.
  - intros d kvd2 got2 Hd Hz2 Hj. apply (fwd_diag_ok odd bmin bmax e e lo hi kvd2 got2 d); try done; try lia.
    + intros Ho. rewrite Ho in Hodd. dom.
    + intros d' Hd' Hon. rewrite Hj by (intros d2 ? ?; dom). rewrite Hsame by done. by apply Vf.
    + intros d' Hd' Hn. rewrite Hj by (intros d2 ? ?; dom). apply Hsent; [apply HP in Hd; lia|dom|done].
    + intros Hon. rewrite Hj by (intros d2 ? ?; dom). rewrite Hout by dom. by apply Vb.
Qed.

Lemma bwd_round e fmin fmax bmin bmax kvd got : 0 <= e → st (e + 1) e fmin fmax bmin bmax kvd →
  ∃ bmin' bmax' kvd', extend off1 lim1 off2 lim2 kvdb XDL_LINE_MAX bmin bmax kvd = Ret (bmin', bmax', kvd') ∧
    returns (down2 (diags bmin' bmax') (bwd_diag ha1 off1 ha2 off2 kvdf kvdb xenv odd fmin fmax) bmin' bmax' (kvd', got)) (λ r,
      match r with
      | inl (kvd, _) => st (e + 1) (e + 1) fmin fmax bmin' bmax' kvd ∧ (odd = false → clear (e + 1) (e + 1))
      | inr (kvd, (i1, i2)) => zlen kvd = K ∧ odd = false ∧
          ∃ d, on bmid (e + 1) d ∧ on fmid (e + 1) d ∧ i1 = B (e + 1) d ∧ i2 = B (e + 1) d - d
      end).
Proof.
  intros He (Hz & Hf & Hb & Vf & Vb). destruct mids as [Mf Mb]. pose proof odd_parity as Hodd.
  destruct (extend_ok off1 lim1 off2 lim2 ltac:(lia) ltac:(lia) kvdb XDL_LINE_MAX bmid e bmin bmax kvd Mb He Hb) as (lo & hi & k1 & E & Hz1 & Hr & Hsame & Hsent & Hout); [lia..|].
  exists lo, hi, k1. split; [done|].
  assert (∀ d, on bmid (e + 1) d ↔ lo <= d <= hi ∧ (hi - d) mod 2 = 0) as HP by (intros d; apply range_on; (done || lia)).
  assert (∀ d, on fmid (e + 1) d ↔ fmin <= d <= fmax ∧ (fmax - d) mod 2 = 0) as HPf by (intros d; apply range_on; (done || lia)).
  eapply wp_mono; [|apply (pass_wp _ kvdb lo hi (on bmid (e + 1)) (λ d, odd = false ∧ fmin <= d <= fmax ∧ B (e + 1) d <= F (e + 1) d) (B (e + 1)))].
  - intros [[k2 g]|[k2 [i1 i2]]].
    + intros (Hz2 & Hnew & Hold). split; [split_and!; try done; [lia| |intros d Hd; by apply Hnew]|].
      * intros d Hd. rewrite Hold by (intros d' Hd'; dom). rewrite Hout by dom. by apply Vf.
      * intros Ho d Hd Hd'. destruct (Hnew d Hd') as [_ Hn]. destruct (Z.lt_ge_cases (F (e + 1) d) (B (e + 1) d)) as [|Hge]; [done|].
        destruct Hn. split_and!; try done; apply HPf in Hd; lia.
    + intros (Hz2 & d & Hd & (Ho & Hbd & _) & -> & ->). split_and!; [lia|done|]. exists d. split_and!; try done.
      rewrite Ho in Hodd. dom.
  - exact HP.
  - intros d Hd. dom.
  - intros d kvd2 got2 Hd Hz2 Hj. apply (bwd_diag_ok odd fmin fmax e (e + 1) lo hi kvd2 got2 d); try done; try lia.
    + intros Ho. rewrite Ho in Hodd. dom.
    + intros d' Hd' Hon. rewrite Hj by (intros d2 ? ?; dom). rewrite Hsame by done. by apply Vb.
    + intros d' Hd' Hn. rewrite Hj by (intros d2 ? ?; dom). apply Hsent; [apply HP in Hd; lia|dom|done].
    + intros Hon. rewrite Hj by (intros d2 ? ?; dom). rewrite Hout by dom. by apply Vf.
Qed.

(** *** Where the searches can be as long as they have not met *)
Hypothesis (Hstart : same off1 off2 = false) (Hend : same (lim1 - 1) (lim2 - 1) = false) (Hcnt : 1 <= snake_cnt xenv).

Definition in_box (i1 i2 : Z) : Prop := off1 <= i1 <= lim1 ∧ off2 <= i2 <= lim2.
Definition good (i1 i2 : Z) : Prop := in_box i1 i2 ∧ ¬ (i1 = off1 ∧ i2 = off2) ∧ ¬ (i1 = lim1 ∧ i2 = lim2).
(** After [e] rounds. *)
Definition hist (e : Z) : Prop := e = 0 ∨ 1 <= e ∧ (if odd then clear e (e - 1) else clear e e).

Lemma hist_before e : 0 <= e → hist e → Frontier.before off1 lim1 off2 lim2 same B e (if odd then e - 1 else e).
Proof.
  intros He [->|[H1 Hc]]; [by left|right]. pose proof odd_parity as Ho. unfold Frontier.in_step, Frontier.fmid, Frontier.bmid.
  destruct odd; split_and!; try done; try lia; Z.div_mod_to_equations; lia.
Qed.

Lemma far_corner e : 0 <= e → hist e → on fmid (e + 1) bmid → F (e + 1) bmid < lim1.
Proof.
  intros He Hh Ha. apply (Frontier.not_at_end off1 lim1 off2 lim2 same ltac:(lia) ltac:(lia) Hend B
    (Frontier.B_opponent off1 lim1 off2 lim2 same ltac:(lia) ltac:(lia)) e (if odd then e - 1 else e) He); [|done].
  destruct Hh as [->|[H1 Hc]]; [by left|right]. pose proof odd_parity as Ho. unfold Frontier.in_step, Frontier.fmid, Frontier.bmid.
  destruct odd; split_and!; try done; try lia; dom.
Qed.
Lemma near_corner e : 0 <= e → hist e → (odd = true → clear (e + 1) e) → on bmid (e + 1) fmid → off1 < B (e + 1) fmid.
Proof.
  intros He Hh Hnow Ha. pose proof odd_parity as Ho.
  assert (Frontier.F (- lim1) (- off1) (- lim2) (- off2) (Frontier.mirror same) (e + 1) (- fmid) < - off1); [|unfold Frontier.B; lia].
  replace (- fmid) with (Frontier.bmid (- off1) (- off2)) by (unfold Frontier.bmid; lia).
  assert (Frontier.mirror same (- off1 - 1) (- off2 - 1) = false) as Hm.
  { unfold Frontier.mirror. replace (- (- off1 - 1) - 1) with off1 by lia. by replace (- (- off2 - 1) - 1) with off2 by lia. }
  apply (Frontier.not_at_end (- lim1) (- off1) (- lim2) (- off2) (Frontier.mirror same) ltac:(lia) ltac:(lia) Hm
    (Frontier.mF off1 lim1 off2 lim2 same) (Frontier.F_opponent off1 lim1 off2 lim2 same ltac:(lia) ltac:(lia)) e (if odd then e + 1 else e) He).
  - destruct (decide (e = 0)) as [->|Hne]; [by left|right]. destruct Hh as [|[H1 Hc]]; [done|].
    destruct odd; (split_and!; [apply Frontier.clear_mirror; (done || lia || auto)| |lia]);
      unfold Frontier.in_step, Frontier.fmid, Frontier.bmid; Z.div_mod_to_equations; lia.
  - unfold Frontier.act, Frontier.dmin, Frontier.dmax, Frontier.fmid, Frontier.bmid. dom.
Qed.

(** The meeting points. *)
Lemma fwd_meet e d : 0 <= e → hist e → odd = true → on fmid (e + 1) d → on bmid e d → good (F (e + 1) d) (F (e + 1) d - d).
Proof.
  intros He Hh Hodd Hd Hd'. pose proof (hist_before e He Hh) as Hb. rewrite Hodd in Hb.
  pose proof (Frontier.meet_in_box off1 lim1 off2 lim2 same ltac:(lia) ltac:(lia) B
    (Frontier.B_opponent off1 lim1 off2 lim2 same ltac:(lia) ltac:(lia)) e (e - 1) d He Hb Hd ltac:(unfold Frontier.bmid; dom)) as [Hx Hy].
  pose proof (Frontier.F_bounds off1 lim1 off2 lim2 same ltac:(lia) ltac:(lia) (e + 1) d Hd) as (Hx' & Hy' & Hs).
  split_and!; unfold in_box; try lia. intros [E1 E2]. assert (d = bmid) as -> by lia. pose proof (far_corner e He Hh Hd). lia.
Qed.
Lemma bwd_meet e d : 0 <= e → hist e → odd = false → on bmid (e + 1) d → on fmid (e + 1) d → good (B (e + 1) d) (B (e + 1) d - d).
Proof.
  intros He Hh Hodd Hd Hd'. pose proof (hist_before e He Hh) as Hb. rewrite Hodd in Hb.
  assert (Frontier.before (- lim1) (- off1) (- lim2) (- off2) (Frontier.mirror same) (Frontier.mF off1 lim1 off2 lim2 same) e e) as Hb'.
  { destruct Hb as [->|(Hc & Hs & H0)]; [by left|right].
    split_and!; [apply Frontier.clear_mirror; (done || lia)|by apply (Frontier.in_step_mirror off1 lim1 off2 lim2 same)|done]. }
  pose proof (Frontier.meet_in_box (- lim1) (- off1) (- lim2) (- off2) (Frontier.mirror same) ltac:(lia) ltac:(lia) (Frontier.mF off1 lim1 off2 lim2 same)
    (Frontier.F_opponent off1 lim1 off2 lim2 same ltac:(lia) ltac:(lia)) e e (- d) He Hb' ltac:(by apply on_mirror) ltac:(unfold Frontier.bmid; dom)) as [Hx Hy].
  pose proof (Frontier.B_bounds off1 lim1 off2 lim2 same ltac:(lia) ltac:(lia) (e + 1) d Hd) as (Hx' & Hy' & Hs).
  split_and!; unfold in_box; unfold Frontier.B in *; try lia. intros [E1 E2]. assert (d = fmid) as -> by lia.
  pose proof (near_corner e He Hh ltac:(congruence) Hd) as Hn. unfold Frontier.B in Hn. lia.
Qed.

Lemma rounds_left e : 0 <= e → (if odd then clear (e + 1) e else clear (e + 1) (e + 1)) → e + 1 < lim1 - off1 + (lim2 - off2).
Proof.
  intros He Hc. destruct (Z.lt_ge_cases (e + 1) (lim1 - off1 + (lim2 - off2))) as [|Hge]; [done|exfalso]. pose proof odd_parity as Ho.
  destruct odd; (eapply (Frontier.must_meet off1 lim1 off2 lim2 same ltac:(lia) ltac:(lia) B
    (Frontier.B_opponent off1 lim1 off2 lim2 same ltac:(lia) ltac:(lia))); [exact Hc| |lia|lia]);
    unfold Frontier.in_step, Frontier.fmid, Frontier.bmid; Z.div_mod_to_equations; lia.
Qed.

(** *** The heuristics *)
Lemma snake_before_wp : ∀ fuel i1 i2 k, off1 + snake_cnt xenv <= i1 <= lim1 → off2 + snake_cnt xenv <= i2 <= lim2 →
  1 <= k <= snake_cnt xenv → (Z.to_nat (snake_cnt xenv - k) < fuel)%nat → returns (snake_before ha1 ha2 xenv fuel i1 i2 k) (λ _, True).
Proof.
  induction fuel as [|fuel IH]; intros i1 i2 k Hi1 Hi2 Hk Hf; [lia|]. cbn [snake_before].
  destruct (same_rd (i1 - k) (i2 - k)) as (a & b & -> & -> & _); [lia..|]. cbn [obind]. destruct (a =? b); [|done].
  destruct (Z.eqb_spec k (snake_cnt xenv)); [done|]. apply IH; lia.
Qed.
Lemma snake_after_wp : ∀ fuel i1 i2 k, off1 <= i1 <= lim1 - snake_cnt xenv → off2 <= i2 <= lim2 - snake_cnt xenv →
  0 <= k < snake_cnt xenv → (Z.to_nat (snake_cnt xenv - 1 - k) < fuel)%nat → returns (snake_after ha1 ha2 xenv fuel i1 i2 k) (λ _, True).
Proof.
  induction fuel as [|fuel IH]; intros i1 i2 k Hi1 Hi2 Hk Hf; [lia|]. cbn [snake_after].
  destruct (same_rd (i1 + k) (i2 + k)) as (a & b & -> & -> & _); [lia..|]. cbn [obind]. destruct (a =? b); [|done].
  destruct (Z.eqb_spec k (snake_cnt xenv - 1)); [done|]. apply IH; lia.
Qed.

Definition best_good (s : Z * (Z * Z)) : Prop := 0 < s.1 → good s.2.1 s.2.2.
Lemma the_state_wp {S} (m : outcome (S + Empty_set)) (Q : S → Prop) :
  returns m (λ r, match r with inl s => Q s | inr _ => True end) → returns m (λ r, Q (the_state r)).
Proof. apply wp_mono. by intros [s|[]]. Qed.

Lemma heur_fwd_wp kvd ec d s e : vec kvd kvdf fmid e F → on fmid e d → best_good s →
  returns (heur_fwd ha1 off1 lim1 ha2 off2 lim2 kvdf xenv kvd ec d s) (λ r, best_good (the_state r)).
Proof.
  intros Hv Hd Hs. destruct s as [best spl]. unfold heur_fwd. rewrite (rd_znth _ _ _ (Hv d Hd)). cbn [obind].
  destruct (_ && _) eqn:E; [|done]. repeat (apply andb_true_iff in E as [E ?]). apply wp_bind.
  eapply wp_mono; [|apply snake_before_wp; lia]. intros [] _; [|done]. cbn. intros _. unfold good, in_box. cbn. lia.
Qed.
Lemma heur_bwd_wp kvd ec d s e : vec kvd kvdb bmid e B → on bmid e d → best_good s →
  returns (heur_bwd ha1 off1 lim1 ha2 off2 lim2 kvdb xenv kvd ec d s) (λ r, best_good (the_state r)).
Proof.
  intros Hv Hd Hs. destruct s as [best spl]. unfold heur_bwd. rewrite (rd_znth _ _ _ (Hv d Hd)). cbn [obind].
  destruct (_ && _) eqn:E; [|done]. repeat (apply andb_true_iff in E as [E ?]). apply wp_bind.
  eapply wp_mono; [|apply snake_after_wp; lia]. intros [] _; [|done]. cbn. intros _. unfold good, in_box. cbn. lia.
Qed.

(** A loop over the diagonals of a round that keeps [Q]. *)
Lemma scan_wp {S} (Q : S → Prop) (body : Z → S → outcome (S + Empty_set)) mid e lo hi s : inside off1 lim1 off2 lim2 mid → 0 <= e → range mid e lo hi →
  (∀ d s, on mid e d → Q s → returns (body d s) (λ r, Q (the_state r))) → Q s →
  returns (down2 (diags lo hi) body lo hi s) (λ r, Q (the_state r)).
Proof.
  intros Hm He Hr Hb Hs. apply the_state_wp. eapply wp_mono; [|apply (down2_wp (λ _, Q) (λ _, True))]; [|intros d s' Hd Hp Hq|done].
  - by intros [s'|x]; [intros (_ & _ & ?)|].
  - eapply wp_mono; [|apply Hb; [|exact Hq]]; [by intros [?|[]]|]. eapply range_on; done.
Qed.

Lemma heuristics_wp kvd ec e fmin fmax bmin bmax : 0 <= e → st e e fmin fmax bmin bmax kvd →
  returns (heuristics ha1 off1 lim1 ha2 off2 lim2 kvdf kvdb xenv kvd ec fmin fmax bmin bmax)
    (λ h, match h with Some spl => good (spl_i1 spl) (spl_i2 spl) | None => True end).
Proof.
  intros He (_ & Hf & Hb & Vf & Vb). destruct mids as [Mf Mb]. unfold heuristics. apply wp_bind.
  eapply wp_mono; [|apply (scan_wp best_good _ fmid e fmin fmax); try done; intros d s Hd Hs; by eapply heur_fwd_wp].
  intros r Hr. cbn beta in Hr. destruct (the_state r) as [best [i1 i2]]. destruct (Z.ltb_spec 0 best); [by apply Hr|]. apply wp_bind.
  eapply wp_mono; [|apply (scan_wp best_good _ bmid e bmin bmax); try done; intros d s Hd Hs; by eapply heur_bwd_wp].
  intros r' Hr'. cbn beta in Hr'. destruct (the_state r') as [best' [j1 j2]]. destruct (Z.ltb_spec 0 best'); [by apply Hr'|done].
Qed.

(** *** Giving up *)
Definition fwd_point (s : Z * Z) : Prop :=
  in_box s.2 (s.1 - s.2) ∧ off1 + off2 < s.1 ∧ ¬ (s.2 = lim1 ∧ s.1 - s.2 = lim2).
Definition bwd_point (s : Z * Z) : Prop :=
  in_box s.2 (s.1 - s.2) ∧ s.1 < lim1 + lim2 ∧ ¬ (s.2 = off1 ∧ s.1 - s.2 = off2).

Lemma last_fwd_wp kvd d s e : vec kvd kvdf fmid e F → 1 <= e → on fmid e d → (on fmid e bmid → F e bmid < lim1) → s.1 = -1 ∨ fwd_point s →
  returns (last_fwd lim1 lim2 kvdf kvd d s) (λ r, fwd_point (the_state r)).
Proof.
  intros Hv He Hd Hc Hs. destruct s as [fbest fbest1]. unfold last_fwd. rewrite (rd_znth _ _ _ (Hv d Hd)). cbn [obind].
  pose proof (Frontier.F_bounds off1 lim1 off2 lim2 same ltac:(lia) ltac:(lia) e d Hd) as (Hx & Hy & Hsum).
  set (i1 := Z.min (F e d) lim1). set (p := if lim2 <? i1 - d then (lim2 + d, lim2) else (i1, i1 - d)).
  assert (fwd_point (p.1 + p.2, p.1)) as Hp.
  { assert (d = bmid → F e d < lim1) as Hc' by (intros ->; by apply Hc).
    unfold fwd_point, in_box. subst p i1. destruct (Z.ltb_spec lim2 (Z.min (F e d) lim1 - d)); cbn [fst snd]; dom. }
  destruct p as [j1 j2]. cbn [fst snd] in Hp. cbn. destruct (Z.ltb_spec fbest (j1 + j2)); [done|].
  destruct Hs as [Hs|Hs]; [|done]. exfalso. destruct Hp as (Hp & _). unfold in_box in Hp. cbn in *. lia.
Qed.
Lemma last_bwd_wp kvd d s e : vec kvd kvdb bmid e B → 1 <= e → on bmid e d → (on bmid e fmid → off1 < B e fmid) → s.1 = XDL_LINE_MAX ∨ bwd_point s →
  returns (last_bwd off1 off2 kvdb kvd d s) (λ r, bwd_point (the_state r)).
Proof.
  intros Hv He Hd Hc Hs. destruct s as [bbest bbest1]. unfold last_bwd. rewrite (rd_znth _ _ _ (Hv d Hd)). cbn [obind].
  pose proof (Frontier.B_bounds off1 lim1 off2 lim2 same ltac:(lia) ltac:(lia) e d Hd) as (Hx & Hy & Hsum).
  set (i1 := Z.max off1 (B e d)). set (p := if i1 - d <? off2 then (off2 + d, off2) else (i1, i1 - d)).
  assert (bwd_point (p.1 + p.2, p.1)) as Hp.
  { assert (d = fmid → off1 < B e d) as Hc' by (intros ->; by apply Hc).
    unfold bwd_point, in_box. subst p i1. destruct (Z.ltb_spec (Z.max off1 (B e d) - d) off2); cbn [fst snd]; dom. }
  destruct p as [j1 j2]. cbn [fst snd] in Hp. cbn. destruct (Z.ltb_spec (j1 + j2) bbest); [done|].
  destruct Hs as [Hs|Hs]; [|done]. exfalso. destruct Hp as (Hp & ? & _). unfold in_box in Hp. cbn in *. lia.
Qed.

(** The same loop when it has at least one pass, which establishes [Q]. *)
Lemma scan_from_wp {S} (Q : S → Prop) (init : S) (body : Z → S → outcome (S + Empty_set)) mid e lo hi :
  inside off1 lim1 off2 lim2 mid → 0 <= e → range mid e lo hi →
  (∀ d s, on mid e d → s = init ∨ Q s → returns (body d s) (λ r, Q (the_state r))) →
  returns (down2 (diags lo hi) body lo hi init) (λ r, Q (the_state r)).
Proof.
  intros Hm He Hr Hb. pose proof (range_le off1 lim1 off2 lim2 mid e lo hi Hm He Hr) as Hle. apply the_state_wp.
  eapply wp_mono; [|apply (down2_wp (λ d s, (d = hi ∧ s = init) ∨ Q s) (λ _, True))]; [|intros d s' Hd Hp Hq|by left].
  - intros [s'|x]; [|done]. intros (d & Hd & [[-> _]|HQ]); [lia|done].
  - eapply wp_mono; [|apply Hb; [|destruct Hq as [[_ Hq]|Hq]; [left; exact Hq|by right]]]; [intros [?|[]] ?; by right|].
    eapply range_on; done.
Qed.

Lemma give_up_wp kvd e fmin fmax bmin bmax : 1 <= e → st e e fmin fmax bmin bmax kvd →
  (on fmid e bmid → F e bmid < lim1) → (on bmid e fmid → off1 < B e fmid) →
  returns (enough_cost off1 lim1 off2 lim2 kvdf kvdb kvd fmin fmax bmin bmax) (λ spl, good (spl_i1 spl) (spl_i2 spl)).
Proof.
  intros He (_ & Hf & Hb & Vf & Vb) Cf Cb. destruct mids as [Mf Mb]. unfold enough_cost. apply wp_bind.
  eapply wp_mono; [|apply (scan_from_wp fwd_point _ _ fmid e fmin fmax); try done; try lia; intros d s Hd Hs;
    apply (last_fwd_wp kvd d s e); try done; destruct Hs as [->|]; auto].
  intros r Hr. cbn beta in Hr. destruct (the_state r) as [fbest fbest1]. apply wp_bind.
  eapply wp_mono; [|apply (scan_from_wp bwd_point _ _ bmid e bmin bmax); try done; try lia; intros d s Hd Hs;
    apply (last_bwd_wp kvd d s e); try done; destruct Hs as [->|]; auto].
  intros r' Hr'. cbn beta in Hr'. destruct (the_state r') as [bbest bbest1]. cbn.
  unfold fwd_point, bwd_point in *. cbn [fst snd] in *. destruct (Z.ltb_spec (lim1 + lim2 - bbest) (fbest - (off1 + off2))); cbn [spl_i1 spl_i2];
    unfold good, in_box in *; lia.
Qed.

(** ** All rounds *)
Lemma ec_loop_wp need_min : ∀ fuel e fmin fmax bmin bmax kvd, 0 <= e → st e e fmin fmax bmin bmax kvd → hist e →
  (Z.to_nat (lim1 - off1 + (lim2 - off2) - e) <= fuel)%nat → e < lim1 - off1 + (lim2 - off2) →
  returns (ec_loop ha1 off1 lim1 ha2 off2 lim2 kvdf kvdb xenv fuel need_min (e + 1) fmin fmax bmin bmax kvd)
    (λ '(ec, spl, kvd), 1 <= ec <= lim1 - off1 + (lim2 - off2) ∧ good (spl_i1 spl) (spl_i2 spl) ∧ zlen kvd = K).
Proof.
  induction fuel as [|fuel IH]; intros e fmin fmax bmin bmax kvd He Hst Hh Hf Hlt; [lia|]. cbn [ec_loop].
  destruct (fwd_round e fmin fmax bmin bmax kvd false He Hst) as (f1 & f2 & k1 & -> & Hfwd). cbn [obind].
  apply wp_bind. eapply wp_mono; [|exact Hfwd]. clear Hfwd.
  intros [[k2 got]|[k2 [i1 i2]]]; [|intros (Hz & Ho & d & Hd & Hd' & -> & ->); cbn; split_and!; try lia; by apply fwd_meet].
  intros [Hst2 Hcl]. destruct (bwd_round e f1 f2 bmin bmax k2 got He Hst2) as (b1 & b2 & k3 & -> & Hbwd). cbn [obind].
  apply wp_bind. eapply wp_mono; [|exact Hbwd]. clear Hbwd.
  intros [[k4 got']|[k4 [i1 i2]]]; [|intros (Hz & Ho & d & Hd & Hd' & -> & ->); cbn; split_and!; try lia; by apply bwd_meet].
  intros [Hst4 Hcl'].
  assert (if odd then clear (e + 1) e else clear (e + 1) (e + 1)) as Hnow by (destruct odd; auto).
  assert (returns (ec_loop ha1 off1 lim1 ha2 off2 lim2 kvdf kvdb xenv fuel need_min (e + 1 + 1) f1 f2 b1 b2 k4)
    (λ '(ec, spl, kvd), 1 <= ec <= lim1 - off1 + (lim2 - off2) ∧ good (spl_i1 spl) (spl_i2 spl) ∧ zlen kvd = K)) as Hgo.
  { apply IH; [lia|done| |lia|by apply rounds_left]. right. split; [lia|]. by replace (e + 1 - 1) with e by lia. }
  destruct need_min; [done|]. apply wp_bind.
  assert (returns (if got' && (heur_min xenv <? e + 1) then heuristics ha1 off1 lim1 ha2 off2 lim2 kvdf kvdb xenv k4 (e + 1) f1 f2 b1 b2 else Ret None)
    (λ h, match h with Some spl => good (spl_i1 spl) (spl_i2 spl) | None => True end)) as Hheur.
  { destruct (_ && _); [|done]. by apply (heuristics_wp k4 (e + 1) (e + 1)); [lia|]. }
  destruct Hst4 as (Hz4 & Hst4). eapply wp_mono; [|exact Hheur]. intros [spl|]; [cbn; intros; split_and!; (done || lia)|]. intros _.
  destruct (mxcost xenv <=? e + 1); [|done]. apply wp_bind. eapply wp_mono; [|apply (give_up_wp k4 (e + 1) f1 f2 b1 b2)].
  - cbn. intros spl Hspl. split_and!; (done || lia).
  - lia.
  - done.
  - by apply far_corner.
  - by apply near_corner.
Qed.

Lemma xdl_split_wp kvd need_min : zlen kvd = K →
  returns (xdl_split ha1 off1 lim1 ha2 off2 lim2 kvdf kvdb xenv kvd need_min)
    (λ '(ec, spl, kvd), 1 <= ec <= lim1 - off1 + (lim2 - off2) ∧ good (spl_i1 spl) (spl_i2 spl) ∧ zlen kvd = K).
Proof.
  intros Hz. destruct mids as [Mf Mb]. unfold xdl_split. rewrite wr_ok by lia. cbn [obind].
  rewrite wr_ok by (rewrite zlen_insert; lia). cbn [obind]. apply (ec_loop_wp need_min _ 0); try lia; [|by left].
  unfold st. rewrite !zlen_insert. split_and!; [done|by apply range_0; (lia || done)|by apply range_0; (lia || done)|..].
  - intros d Hd. assert (d = fmid) as -> by dom. rewrite znth_insert_ne by lia. by rewrite znth_insert_eq by lia.
  - intros d Hd. assert (d = bmid) as -> by dom. rewrite znth_insert_eq by (rewrite zlen_insert; lia).
    unfold Frontier.B. rewrite Frontier.F_0. f_equal. lia.
Qed.
End search.

End XdlSplit.
