(* ===== verification/XdlDiff.v ===== *)
(** * Comparing the records of two files (xdl_recs_cmp of xdiff/xdiffi.c)

    Divide and conquer over the boxes that [xdl_split] cuts: lines that match at
    the ends of a box are kept, and when one side is empty the lines of the
    other are marked as changed in [rchg].  The array [rchg] is addressed from
    its second byte on, so that the indices -1 and [nrec] exist; [rchg_at] is that
    address.  The result: the recursion ends, and the lines that stay unmarked in
    the two files are the same sequence. *)
From stdpp Require Import prelude.
From S2P Require Import Prelude Frontier XdlSplit.
Import XdlSplit.

Module XdlDiff.

(** [rchg] and [nrec] of the struct are threaded through the calls. *)
Record diffdata_t := Diffdata { ha : list Z; rindex : list Z }.
Definition rchg_at (i : Z) : Z := 1 + i.

(** [for (; off < lim; off++) rchg[rindex[off]] = 1;] *)
Fixpoint mark_loop (fuel : nat) (rindex rchg : list Z) (off lim : Z) : outcome (list Z) :=
  match fuel with
  | O => NoFuel
  | S fuel =>
      if off <? lim then
        let! i := rd rindex off in
        let! rchg := wr rchg (rchg_at i) 1 in
        mark_loop fuel rindex rchg (off + 1) lim
      else Ret rchg
  end.

(** The two shrinking loops are those of the snakes. *)
Fixpoint xdl_recs_cmp (fuel : nat) (dd1 : diffdata_t) (off1 lim1 : Z) (dd2 : diffdata_t) (off2 lim2 : Z) (kvdf kvdb : Z)
  (need_min : bool) (xenv : xdalgoenv_t) (rchg1 rchg2 kvd : list Z) : outcome (Z * list Z * list Z * list Z) :=
  match fuel with
  | O => NoFuel
  | S fuel =>
      let ha1 := ha dd1 in
      let ha2 := ha dd2 in
      let! (off1, off2) := snake_fwd ha1 lim1 ha2 lim2 (S (length ha1)) off1 off2 in
      let! (lim1, lim2) := snake_bwd ha1 off1 ha2 off2 (S (length ha1)) lim1 lim2 in
      if off1 =? lim1 then
        let! rchg2 := mark_loop (S (length (rindex dd2))) (rindex dd2) rchg2 off2 lim2 in
        Ret (0, rchg1, rchg2, kvd)
      else if off2 =? lim2 then
        let! rchg1 := mark_loop (S (length (rindex dd1))) (rindex dd1) rchg1 off1 lim1 in
        Ret (0, rchg1, rchg2, kvd)
      else
        let! (ec, spl, kvd) := xdl_split ha1 off1 lim1 ha2 off2 lim2 kvdf kvdb xenv kvd need_min in
        if ec <? 0 then Ret (-1, rchg1, rchg2, kvd)
        else
          let! (res, rchg1, rchg2, kvd) :=
            xdl_recs_cmp fuel dd1 off1 (spl_i1 spl) dd2 off2 (spl_i2 spl) kvdf kvdb (min_lo spl) xenv rchg1 rchg2 kvd in
          if res <? 0 then Ret (-1, rchg1, rchg2, kvd)
          else
            let! (res, rchg1, rchg2, kvd) :=
              xdl_recs_cmp fuel dd1 (spl_i1 spl) lim1 dd2 (spl_i2 spl) lim2 kvdf kvdb (min_hi spl) xenv rchg1 rchg2 kvd in
            if res <? 0 then Ret (-1, rchg1, rchg2, kvd) else Ret (0, rchg1, rchg2, kvd)
  end.

(** ** The lines that are kept

    [select keep f off lim]: [f] of the places from [off] to [lim] that [keep]
    holds of, in order. *)
Definition select {A} (keep : Z → bool) (f : Z → A) (off lim : Z) : list A :=
  omap (λ j, if keep j then Some (f j) else None) (seqZ off (lim - off)).

Section select.
Context {A : Type}.
Implicit Types (keep : Z → bool) (f : Z → A).

Lemma select_nil keep f off lim : lim <= off → select keep f off lim = [].
Proof. intros H. unfold select. by rewrite seqZ_nil by lia. Qed.
Lemma select_app keep f off mid lim : off <= mid <= lim → select keep f off lim = select keep f off mid ++ select keep f mid lim.
Proof.
  intros H. unfold select. replace (lim - off) with (mid - off + (lim - mid)) by lia.
  rewrite seqZ_app, omap_app by lia. by replace (off + (mid - off)) with mid by lia.
Qed.
Lemma select_one keep f off : select keep f off (off + 1) = if keep off then [f off] else [].
Proof. unfold select. rewrite seqZ_cons, seqZ_nil by lia. cbn. by destruct (keep off). Qed.
Lemma select_shift keep keep' f f' off off' k : 0 <= k →
  (∀ t, 0 <= t < k → keep (off + t) = keep' (off' + t) ∧ (keep (off + t) = true → f (off + t) = f' (off' + t))) →
  select keep f off (off + k) = select keep' f' off' (off' + k).
Proof.
  intros Hk. pattern k. apply natlike_ind; [|clear k Hk|done].
  - intros _. by rewrite !select_nil by lia.
  - intros k Hk IH H. rewrite <- Z.add_1_r, !Z.add_assoc.
    rewrite (select_app keep f off (off + k)), (select_app keep' f' off' (off' + k)), !select_one by lia.
    destruct (H k ltac:(lia)) as [E Ef]. rewrite IH by (intros t Ht; apply H; lia). f_equal.
    rewrite <- E. destruct (keep (off + k)); [|done]. by rewrite Ef.
Qed.
Lemma select_ext keep keep' f f' off lim :
  (∀ j, off <= j < lim → keep j = keep' j ∧ (keep j = true → f j = f' j)) → select keep f off lim = select keep' f' off lim.
Proof.
  intros H. destruct (Z.le_gt_cases lim off); [by rewrite !select_nil by lia|].
  replace lim with (off + (lim - off)) by lia. apply select_shift; [lia|]. intros t Ht. apply H. lia.
Qed.
Lemma select_none keep f off lim : (∀ j, off <= j < lim → keep j = false) → select keep f off lim = [].
Proof.
  intros H. rewrite (select_ext keep (λ _, false) f f) by (intros j Hj; by rewrite H). unfold select.
  induction (seqZ off (lim - off)); [done|by cbn].
Qed.
End select.

Definition line_of (rindex : list Z) (j : Z) : Z := default 0 (znth rindex j).
Definition unmarked (rchg : list Z) (i : Z) : bool := bool_decide (znth rchg (rchg_at i) = Some 0).
Definition at_ (l : list Z) (j : Z) : Z := default 0 (znth l j).
Definition kept (dd : diffdata_t) (rchg : list Z) (off lim : Z) : list Z :=
  select (λ j, unmarked rchg (line_of (rindex dd) j)) (at_ (ha dd)) off lim.

(** ** The loops *)
Section recs.
Context (dd1 dd2 : diffdata_t) (kvdf kvdb : Z) (xenv : xdalgoenv_t) (K n1 n2 : Z).
Abbreviation ha1 := (ha dd1).
Abbreviation ha2 := (ha dd2).
Abbreviation same := (same ha1 ha2).

Lemma snake_fwd_wp lim1 lim2 : lim1 <= zlen ha1 → lim2 <= zlen ha2 → ∀ fuel x y, 0 <= x <= lim1 → 0 <= y <= lim2 →
  (Z.to_nat (lim1 - x) < fuel)%nat →
  ∃ k, 0 <= k ∧ snake_fwd ha1 lim1 ha2 lim2 fuel x y = Ret (x + k, y + k) ∧ x + k <= lim1 ∧ y + k <= lim2 ∧
    (∀ t, 0 <= t < k → same (x + t) (y + t) = true) ∧ (x + k < lim1 → y + k < lim2 → same (x + k) (y + k) = false).
Proof.
  intros L1 L2. induction fuel as [|fuel IH]; intros x y Hx Hy Hf; [lia|]. cbn [snake_fwd].
  destruct (Z.ltb_spec x lim1), (Z.ltb_spec y lim2); cbn [andb]; try (exists 0; rewrite !Z.add_0_r; split_and!; (done || lia)).
  destruct (same_rd ha1 ha2 x y) as (a & b & -> & -> & E); [lia..|]. cbn [obind]. rewrite E.
  destruct (same x y) eqn:Es; [|exists 0; rewrite !Z.add_0_r; split_and!; (done || lia)].
  destruct (IH (x + 1) (y + 1)) as (k & Hk & -> & H1 & H2 & Hs & Hstop); [lia..|].
  exists (k + 1). replace (x + (k + 1)) with (x + 1 + k) by lia. replace (y + (k + 1)) with (y + 1 + k) by lia.
  split_and!; try done; try lia. intros t Ht. destruct (decide (t = 0)) as [->|]; [by rewrite !Z.add_0_r|].
  replace (x + t) with (x + 1 + (t - 1)) by lia. replace (y + t) with (y + 1 + (t - 1)) by lia. apply Hs. lia.
Qed.
Lemma snake_bwd_wp off1 off2 : 0 <= off1 → 0 <= off2 → ∀ fuel x y, off1 <= x <= zlen ha1 → off2 <= y <= zlen ha2 →
  (Z.to_nat (x - off1) < fuel)%nat →
  ∃ k, 0 <= k ∧ snake_bwd ha1 off1 ha2 off2 fuel x y = Ret (x - k, y - k) ∧ off1 <= x - k ∧ off2 <= y - k ∧
    (∀ t, 0 <= t < k → same (x - k + t) (y - k + t) = true) ∧ (off1 < x - k → off2 < y - k → same (x - k - 1) (y - k - 1) = false).
Proof.
  intros L1 L2. induction fuel as [|fuel IH]; intros x y Hx Hy Hf; [lia|]. cbn [snake_bwd].
  destruct (Z.ltb_spec off1 x), (Z.ltb_spec off2 y); cbn [andb]; try (exists 0; rewrite !Z.sub_0_r; split_and!; (done || lia)).
  destruct (same_rd ha1 ha2 (x - 1) (y - 1)) as (a & b & -> & -> & E); [lia..|]. cbn [obind]. rewrite E.
  destruct (same (x - 1) (y - 1)) eqn:Es; [|exists 0; rewrite !Z.sub_0_r; split_and!; (done || lia)].
  destruct (IH (x - 1) (y - 1)) as (k & Hk & -> & H1 & H2 & Hs & Hstop); [lia..|].
  exists (k + 1). replace (x - (k + 1)) with (x - 1 - k) by lia. replace (y - (k + 1)) with (y - 1 - k) by lia.
  split_and!; try done; try lia. intros t Ht. destruct (decide (t = k)) as [->|]; [|apply Hs; lia].
  by replace (x - 1 - k + k) with (x - 1) by lia; replace (y - 1 - k + k) with (y - 1) by lia.
Qed.

(** The lines of a side: increasing places in a file of [n] lines. *)
Definition lines_ok (dd : diffdata_t) (n : Z) (rchg : list Z) : Prop :=
  zlen (rindex dd) >= zlen (ha dd) ∧ zlen rchg = n + 2 ∧
  (∀ j, 0 <= j < zlen (ha dd) → 0 <= line_of (rindex dd) j < n) ∧
  (∀ j j', 0 <= j < zlen (ha dd) → 0 <= j' < zlen (ha dd) → line_of (rindex dd) j = line_of (rindex dd) j' → j = j').
(** Only lines of the box were marked. *)
Definition marked_in (dd : diffdata_t) (off lim : Z) (rchg rchg' : list Z) : Prop :=
  zlen rchg' = zlen rchg ∧
  ∀ i, znth rchg' i = znth rchg i ∨ znth rchg' i = Some 1 ∧ ∃ j, off <= j < lim ∧ i = rchg_at (line_of (rindex dd) j).

Lemma mark_loop_wp dd n off0 : ∀ fuel off lim rchg, lines_ok dd n rchg → 0 <= off0 <= off → off <= lim <= zlen (ha dd) → (Z.to_nat (lim - off) < fuel)%nat →
  returns (mark_loop fuel (rindex dd) rchg off lim) (λ rchg', marked_in dd off lim rchg rchg' ∧
    (∀ j, off <= j < lim → unmarked rchg' (line_of (rindex dd) j) = false)).
Proof.
  induction fuel as [|fuel IH]; intros off lim rchg Hok H0 Hl Hf; [lia|]. cbn [mark_loop].
  destruct (Z.ltb_spec off lim); [|cbn; split; [split; [done|by left]|lia]].
  destruct Hok as (Hri & Hz & Hin & Hinj). destruct (znth_is_Some (rindex dd) off) as [i Ei]; [lia|].
  rewrite (rd_znth _ _ _ Ei). cbn [obind]. assert (line_of (rindex dd) off = i) as El by (unfold line_of; by rewrite Ei).
  pose proof (Hin off ltac:(lia)) as Hi. rewrite El in Hi. unfold rchg_at at 1. rewrite wr_ok by lia. cbn [obind].
  eapply wp_mono; [|apply IH]; [|split_and!; try done; by rewrite zlen_insert|lia..].
  intros rchg' ((Hz' & Hm) & Hu). rewrite zlen_insert in Hz'. split; [split; [done|]|].
  - intros k. destruct (Hm k) as [E|(E & j & Hj & ->)]; [|right; split; [done|]; exists j; split; [lia|done]].
    destruct (decide (k = 1 + i)) as [->|Hne].
    + right. rewrite E, znth_insert_eq by lia. split; [done|]. exists off. unfold rchg_at. by rewrite El.
    + left. rewrite E. apply znth_insert_ne; lia.
  - intros j Hj. destruct (decide (j = off)) as [->|]; [|apply Hu; lia]. rewrite El. unfold unmarked. apply bool_decide_eq_false.
    destruct (Hm (rchg_at i)) as [E|[E _]]; rewrite E; [|done]. unfold rchg_at. rewrite znth_insert_eq by lia. done.
Qed.

Lemma marked_lines_ok dd n off lim rchg rchg' : lines_ok dd n rchg → marked_in dd off lim rchg rchg' → lines_ok dd n rchg'.
Proof. intros (? & Hz & ? & ?) [Hz' _]. split_and!; try done. lia. Qed.
Lemma marked_weaken dd off lim off' lim' rchg rchg' : off' <= off → lim <= lim' → marked_in dd off lim rchg rchg' → marked_in dd off' lim' rchg rchg'.
Proof.
  intros Ho Hl [Hz Hm]. split; [done|]. intros i. destruct (Hm i) as [?|(? & j & ? & ?)]; [by left|right].
  split; [done|]. exists j. split; [lia|done].
Qed.
Lemma marked_trans dd off lim r1 r2 r3 : marked_in dd off lim r1 r2 → marked_in dd off lim r2 r3 → marked_in dd off lim r1 r3.
Proof.
  intros [Hz1 H12] [Hz2 H23]. split; [lia|]. intros i. destruct (H23 i) as [E|H]; [|by right]. rewrite E. apply H12.
Qed.
Lemma marked_refl dd off lim r : marked_in dd off lim r r.
Proof. split; [done|by left]. Qed.
(** Lines outside the box keep their marks. *)
Lemma marked_outside dd n off lim rchg rchg' j : lines_ok dd n rchg → marked_in dd off lim rchg rchg' → 0 <= off → lim <= zlen (ha dd) →
  0 <= j < zlen (ha dd) → ¬ (off <= j < lim) → unmarked rchg' (line_of (rindex dd) j) = unmarked rchg (line_of (rindex dd) j).
Proof.
  intros (_ & _ & _ & Hinj) [_ Hm] Ho Hl Hj Hn. unfold unmarked. destruct (Hm (rchg_at (line_of (rindex dd) j))) as [->|(_ & j' & Hj' & E)]; [done|].
  exfalso. apply Hn. rewrite (Hinj j j'); [done|done|lia|]. unfold rchg_at in E. lia.
Qed.
Lemma kept_app dd rchg off mid lim : off <= mid <= lim → kept dd rchg off lim = kept dd rchg off mid ++ kept dd rchg mid lim.
Proof. apply select_app. Qed.
Lemma kept_outside dd n off lim off' lim' rchg rchg' : lines_ok dd n rchg → marked_in dd off lim rchg rchg' → 0 <= off → lim <= zlen (ha dd) →
  0 <= off' → lim' <= zlen (ha dd) → lim' <= off ∨ lim <= off' → kept dd rchg' off' lim' = kept dd rchg off' lim'.
Proof.
  intros Hok Hm Ho Hl Ho' Hl' Hd. apply select_ext. intros j Hj. split; [|done]. eapply marked_outside; (done || lia).
Qed.

(** ** The recursion *)
Definition fresh (dd : diffdata_t) (rchg : list Z) (off lim : Z) : Prop := ∀ j, off <= j < lim → unmarked rchg (line_of (rindex dd) j) = true.
Definition done_box (off1 lim1 off2 lim2 : Z) (rchg1 rchg2 r1 r2 : list Z) : Prop :=
  marked_in dd1 off1 lim1 rchg1 r1 ∧ marked_in dd2 off2 lim2 rchg2 r2 ∧ kept dd1 r1 off1 lim1 = kept dd2 r2 off2 lim2.

(** Matching lines around a finished box. *)
Lemma kept_snake r1 r2 x y k : 0 <= k → 0 <= x → x + k <= zlen ha1 → 0 <= y → y + k <= zlen ha2 →
  (∀ t, 0 <= t < k → same (x + t) (y + t) = true) → fresh dd1 r1 x (x + k) → fresh dd2 r2 y (y + k) →
  kept dd1 r1 x (x + k) = kept dd2 r2 y (y + k).
Proof.
  intros Hk Hx Hx' Hy Hy' Hs F1 F2. apply select_shift; [done|]. intros t Ht. rewrite F1, F2 by lia. split; [done|]. intros _.
  specialize (Hs t Ht). unfold XdlSplit.same in Hs. apply bool_decide_eq_true in Hs. unfold at_. by rewrite Hs.
Qed.

Lemma box_frame off1 lim1 off2 lim2 k m rchg1 rchg2 r1 r2 : 0 <= k → 0 <= m → 0 <= off1 → lim1 <= zlen ha1 → 0 <= off2 → lim2 <= zlen ha2 →
  lines_ok dd1 n1 rchg1 → lines_ok dd2 n2 rchg2 → fresh dd1 rchg1 off1 lim1 → fresh dd2 rchg2 off2 lim2 →
  off1 + k <= lim1 - m → off2 + k <= lim2 - m →
  (∀ t, 0 <= t < k → same (off1 + t) (off2 + t) = true) → (∀ t, 0 <= t < m → same (lim1 - m + t) (lim2 - m + t) = true) →
  done_box (off1 + k) (lim1 - m) (off2 + k) (lim2 - m) rchg1 rchg2 r1 r2 → done_box off1 lim1 off2 lim2 rchg1 rchg2 r1 r2.
Proof.
  intros Hk Hm Ho1 Hl1 Ho2 Hl2 Ok1 Ok2 F1 F2 H1 H2 Hs Hs' (M1 & M2 & HK).
  split_and!; [eapply marked_weaken; [| |exact M1]; lia|eapply marked_weaken; [| |exact M2]; lia|].
  rewrite (kept_app dd1 r1 off1 (off1 + k)), (kept_app dd1 r1 (off1 + k) (lim1 - m)) by lia.
  rewrite (kept_app dd2 r2 off2 (off2 + k)), (kept_app dd2 r2 (off2 + k) (lim2 - m)) by lia. rewrite HK.
  assert (∀ j, 0 <= j < zlen ha1 → ¬ (off1 + k <= j < lim1 - m) → off1 <= j < lim1 → unmarked r1 (line_of (rindex dd1) j) = true) as U1.
  { intros j Hj Hn Hin. rewrite (marked_outside dd1 n1 _ _ rchg1 r1 j Ok1 M1); [by apply F1|lia..]. }
  assert (∀ j, 0 <= j < zlen ha2 → ¬ (off2 + k <= j < lim2 - m) → off2 <= j < lim2 → unmarked r2 (line_of (rindex dd2) j) = true) as U2.
  { intros j Hj Hn Hin. rewrite (marked_outside dd2 n2 _ _ rchg2 r2 j Ok2 M2); [by apply F2|lia..]. }
  pose proof (kept_snake r1 r2 (lim1 - m) (lim2 - m) m) as Ht. replace (lim1 - m + m) with lim1 in Ht by lia.
  replace (lim2 - m + m) with lim2 in Ht by lia. rewrite Ht; try done; try lia; [|intros j Hj; (apply U1 || apply U2); lia..].
  f_equal. apply kept_snake; try done; try lia; intros j Hj; (apply U1 || apply U2); lia.
Qed.

Lemma box_split off1 mid1 lim1 off2 mid2 lim2 rchg1 rchg2 r1 r2 s1 s2 : 0 <= off1 → off1 <= mid1 <= lim1 → lim1 <= zlen ha1 →
  0 <= off2 → off2 <= mid2 <= lim2 → lim2 <= zlen ha2 → lines_ok dd1 n1 rchg1 → lines_ok dd2 n2 rchg2 →
  done_box off1 mid1 off2 mid2 rchg1 rchg2 r1 r2 → done_box mid1 lim1 mid2 lim2 r1 r2 s1 s2 →
  done_box off1 lim1 off2 lim2 rchg1 rchg2 s1 s2.
Proof.
  intros ? ? ? ? ? ? Ok1 Ok2 (M1 & M2 & HK) (M1' & M2' & HK'). split_and!.
  - eapply marked_trans; eapply marked_weaken; [| |exact M1| | |exact M1']; lia.
  - eapply marked_trans; eapply marked_weaken; [| |exact M2| | |exact M2']; lia.
  - rewrite (kept_app dd1 s1 off1 mid1), (kept_app dd2 s2 off2 mid2), HK' by lia. f_equal.
    rewrite (kept_outside dd1 n1 mid1 lim1 off1 mid1 r1 s1), (kept_outside dd2 n2 mid2 lim2 off2 mid2 r2 s2); try done; try lia;
      by eapply marked_lines_ok.
Qed.

Hypothesis (Hcnt : 1 <= snake_cnt xenv) (HM : zlen ha1 + zlen ha2 < XDL_LINE_MAX).
Hypothesis (Kf : 0 <= kvdf - zlen ha2 - 1) (Kfb : kvdf + zlen ha1 + 1 < kvdb - zlen ha2 - 1) (Kb : kvdb + zlen ha1 + 1 < K).

Lemma xdl_recs_cmp_wp : ∀ fuel off1 lim1 off2 lim2 need_min rchg1 rchg2 kvd,
  0 <= off1 <= lim1 → lim1 <= zlen ha1 → 0 <= off2 <= lim2 → lim2 <= zlen ha2 → zlen kvd = K →
  lines_ok dd1 n1 rchg1 → lines_ok dd2 n2 rchg2 → fresh dd1 rchg1 off1 lim1 → fresh dd2 rchg2 off2 lim2 →
  (Z.to_nat (lim1 - off1 + (lim2 - off2)) < fuel)%nat →
  returns (xdl_recs_cmp fuel dd1 off1 lim1 dd2 off2 lim2 kvdf kvdb need_min xenv rchg1 rchg2 kvd)
    (λ '(res, r1, r2, kvd'), res = 0 ∧ zlen kvd' = K ∧ done_box off1 lim1 off2 lim2 rchg1 rchg2 r1 r2).
Proof.
  induction fuel as [|fuel IH]; intros off1 lim1 off2 lim2 need_min rchg1 rchg2 kvd H1 L1 H2 L2 Hz Ok1 Ok2 F1 F2 Hf; [lia|].
  cbn [xdl_recs_cmp]. destruct (snake_fwd_wp lim1 lim2 L1 L2 (S (length ha1)) off1 off2) as (k & Hk & -> & Hk1 & Hk2 & Hs & Hstop); [lia|lia|unfold zlen in *; lia|].
  cbn [obind]. destruct (snake_bwd_wp (off1 + k) (off2 + k) ltac:(lia) ltac:(lia) (S (length ha1)) lim1 lim2) as (m & Hm & -> & Hm1 & Hm2 & Hs' & Hstop'); [lia|lia|unfold zlen in *; lia|].
  cbn [obind].
  assert (∀ r1 r2, done_box (off1 + k) (lim1 - m) (off2 + k) (lim2 - m) rchg1 rchg2 r1 r2 → done_box off1 lim1 off2 lim2 rchg1 rchg2 r1 r2) as Hframe.
  { intros r1 r2. apply box_frame; (done || lia). }
  destruct (Z.eqb_spec (off1 + k) (lim1 - m)) as [E1|N1].
  { apply wp_bind. eapply wp_mono; [|apply (mark_loop_wp dd2 n2 (off2 + k)); try done; try lia; destruct Ok2 as (? & _); unfold zlen in *; lia].
    intros r2 [M2 U2]. cbn. split_and!; try done. apply Hframe. split_and!; [apply marked_refl|done|].
    rewrite E1. unfold kept. rewrite (select_nil _ _ (lim1 - m)) by lia. by rewrite select_none. }
  destruct (Z.eqb_spec (off2 + k) (lim2 - m)) as [E2|N2].
  { apply wp_bind. eapply wp_mono; [|apply (mark_loop_wp dd1 n1 (off1 + k)); try done; try lia; destruct Ok1 as (? & _); unfold zlen in *; lia].
    intros r1 [M1 U1]. cbn. split_and!; try done. apply Hframe. split_and!; [done|apply marked_refl|].
    rewrite E2. unfold kept. rewrite (select_nil _ _ (lim2 - m)) by lia. by rewrite select_none. }
  apply wp_bind. eapply wp_mono; [|apply (xdl_split_wp ha1 (off1 + k) (lim1 - m) ha2 (off2 + k) (lim2 - m) kvdf kvdb xenv K); try done; try lia].
  2: { apply Hstop; lia. } 2: { apply Hstop'; lia. }
  intros [[ec spl] kvd1] (Hec & ((Hi1 & Hi2) & Hns & Hne) & Hz1). rewrite (proj2 (Z.ltb_ge ec 0)) by lia.
  apply wp_bind. eapply wp_mono; [|apply IH; try done; try lia; intros j Hj; (apply F1 || apply F2); lia].
  intros [[[res r1] r2] kvd2] (-> & Hz2 & Hd1). change (0 <? 0) with false. cbn match.
  pose proof Hd1 as (M1 & M2 & _).
  apply wp_bind. eapply wp_mono; [|apply IH; try done; try lia; try (by eapply marked_lines_ok)].
  - intros [[[res s1] s2] kvd3] (-> & Hz3 & Hd2). cbn. split_and!; try done. apply Hframe. eapply box_split; [.. |exact Hd1|exact Hd2]; (done || lia).
  - intros j Hj. rewrite (marked_outside dd1 n1 _ _ rchg1 r1 j Ok1 M1); [apply F1; lia|lia..].
  - intros j Hj. rewrite (marked_outside dd2 n2 _ _ rchg2 r2 j Ok2 M2); [apply F2; lia|lia..].
Qed.
End recs.
End XdlDiff.
