(* ===== verification/XdlPrepare.v ===== *)
(** * Preparing two files for the comparison (xdiff/xprepare.c)

    The files are split into records and every record gets the number of its
    class of matching lines.  Then the lines that match at both ends are trimmed,
    and the records that have no partner, or drown among such, are marked as
    changed at once; the others are listed in [rindex].  Allocation does not
    fail in the model; the chains of [rhash] are written by the code and never
    read. *)
From stdpp Require Import prelude.
From S2P Require Import Prelude XdlUtils XdlSplit XdlDiff.
Import XdlUtils XdlDiff.

Module XdlPrepare.

Definition XDL_KPDIS_RUN : Z := 4.
Definition XDL_MAX_EQLIMIT : Z := 1024.
Definition XDL_SIMSCAN_WINDOW : Z := 100.
Definition XDL_GUESS_NLINES1 : Z := 256.
Definition XDL_GUESS_NLINES2 : Z := 20.

Record xrecord_t := Xrecord { line : list Z; rha : Z }.
(** The class number [idx] is the place in [rcrecs]. *)
Record xdlclass_t := Xdlclass { cha : Z; cline : list Z; len1 : Z; len2 : Z }.
Record xdlclassifier_t := Xdlclassifier { chbits : Z; rchash : list (list Z); rcrecs : list xdlclass_t; cflags : Z }.
Record xdfile_t := Xdfile
  { nrec : Z; recs : list xrecord_t; rhash : list (list Z); dstart : Z; dend : Z; rchg : list Z; xrindex : list Z; xha : list Z }.

Definition XDL_MASKBITS (b : Z) : Z := u64 (Z.shiftl 1 b - 1).
Definition XDL_ADDBITS (v b : Z) : Z := u64 (v + Z.shiftr v b).
Definition XDL_HASHLONG (v b : Z) : Z := Z.land (XDL_ADDBITS v b) (XDL_MASKBITS b).
(** [1 << hbits] in [int]. *)
Definition hsize_of (hbits : Z) : outcome Z := if hbits <? 31 then Ret (Z.shiftl 1 hbits) else UB.

(** ** Classes *)
Definition xdl_init_classifier (size flags : Z) : outcome xdlclassifier_t :=
  let! hbits := xdl_hashbits (u32 size) in
  let! hsize := hsize_of hbits in
  Ret (Xdlclassifier hbits (zrep hsize []) [] flags).

Fixpoint find_class (cf : xdlclassifier_t) (chain : list Z) (l : list Z) (ha : Z) : outcome (option Z) :=
  match chain with
  | [] => Ret None
  | c :: chain =>
      let! k := rd (rcrecs cf) c in
      let! ok := if cha k =? ha then xdl_recmatch (cline k) l (cflags cf) else Ret false in
      if ok then Ret (Some c) else find_class cf chain l ha
  end.

Definition count_class (pass : Z) (k : xdlclass_t) : xdlclass_t :=
  if pass =? 1 then Xdlclass (cha k) (cline k) (len1 k + 1) (len2 k) else Xdlclass (cha k) (cline k) (len1 k) (len2 k + 1).

(** The classifier, the chains of the file, and the record with its class. *)
Definition xdl_classify_record (pass : Z) (cf : xdlclassifier_t) (rhash : list (list Z)) (hbits : Z) (nr : Z) (l : list Z) (ha : Z)
  : outcome (xdlclassifier_t * list (list Z) * xrecord_t) :=
  let hi := XDL_HASHLONG ha (chbits cf) in
  let! chain := rd (rchash cf) hi in
  let! found := find_class cf chain l ha in
  let! (cf, idx) :=
    match found with
    | Some idx => Ret (cf, idx)
    | None =>
        let idx := zlen (rcrecs cf) in
        let! rchash := wr (rchash cf) hi (idx :: chain) in
        Ret (Xdlclassifier (chbits cf) rchash (rcrecs cf ++ [Xdlclass ha l 0 0]) (cflags cf), idx)
    end in
  let! k := rd (rcrecs cf) idx in
  let! rcrecs := wr (rcrecs cf) idx (count_class pass k) in
  let cf := Xdlclassifier (chbits cf) (rchash cf) rcrecs (cflags cf) in
  let hi := XDL_HASHLONG idx hbits in
  let! next := rd rhash hi in
  let! rhash := wr rhash hi (nr :: next) in
  Ret (cf, rhash, Xrecord l idx).

(** ** Records: [for (top = blk + bsize; cur < top; )] *)
Fixpoint records_loop (fuel : nat) (pass : Z) (data : list Z) (flags hbits cur : Z) (cf : xdlclassifier_t) (rhash : list (list Z))
  (recs : list xrecord_t) : outcome (xdlclassifier_t * list (list Z) * list xrecord_t) :=
  match fuel with
  | O => NoFuel
  | S fuel =>
      if cur <? zlen data then
        let prev := cur in
        let! (cur, hav) := xdl_hash_record data cur flags in
        let! l := rd_range data prev (cur - prev) in
        let! (cf, rhash, crec) := xdl_classify_record pass cf rhash hbits (zlen recs) l hav in
        records_loop fuel pass data flags hbits cur cf rhash (recs ++ [crec])
      else Ret (cf, rhash, recs)
  end.

Definition xdl_prepare_ctx (pass : Z) (data : list Z) (narec flags : Z) (cf : xdlclassifier_t) : outcome (xdlclassifier_t * xdfile_t) :=
  let! hbits := xdl_hashbits (u32 narec) in
  let! hsize := hsize_of hbits in
  let! (cf, rhash, recs) := records_loop (S (length data)) pass data flags hbits 0 cf (zrep hsize []) [] in
  let nrec := zlen recs in
  Ret (cf, Xdfile nrec recs rhash 0 (nrec - 1) (zrep (nrec + 2) 0) [] []).

(** ** Trimming *)
Fixpoint trim_head (fuel : nat) (recs1 recs2 : list xrecord_t) (i lim : Z) : outcome Z :=
  match fuel with
  | O => NoFuel
  | S fuel =>
      if i <? lim then
        let! r1 := rd recs1 i in
        let! r2 := rd recs2 i in
        if negb (rha r1 =? rha r2) then Ret i else trim_head fuel recs1 recs2 (i + 1) lim
      else Ret i
  end.
Fixpoint trim_tail (fuel : nat) (recs1 recs2 : list xrecord_t) (i lim : Z) : outcome Z :=
  match fuel with
  | O => NoFuel
  | S fuel =>
      if i <? lim then
        let! r1 := rd recs1 (zlen recs1 - 1 - i) in
        let! r2 := rd recs2 (zlen recs2 - 1 - i) in
        if negb (rha r1 =? rha r2) then Ret i else trim_tail fuel recs1 recs2 (i + 1) lim
      else Ret i
  end.

Definition with_bounds (xdf : xdfile_t) (s e : Z) : xdfile_t := Xdfile (nrec xdf) (recs xdf) (rhash xdf) s e (rchg xdf) (xrindex xdf) (xha xdf).
Definition xdl_trim_ends (xdf1 xdf2 : xdfile_t) : outcome (xdfile_t * xdfile_t) :=
  let lim := Z.min (nrec xdf1) (nrec xdf2) in
  let fuel := S (length (recs xdf1)) in
  let! s := trim_head fuel (recs xdf1) (recs xdf2) 0 lim in
  let! e := trim_tail fuel (recs xdf1) (recs xdf2) 0 (lim - s) in
  Ret (with_bounds xdf1 s (nrec xdf1 - e - 1), with_bounds xdf2 s (nrec xdf2 - e - 1)).

(** ** Discarding *)

(** The run of lines without a single match from [i + r] on in the direction
    [step], up to [bound]: how many have no match, and how many have several. *)
Fixpoint run_loop (fuel : nat) (dis : list Z) (i step r bound rdis rpdis : Z) : outcome (Z * Z) :=
  match fuel with
  | O => NoFuel
  | S fuel =>
      let pos := i + step * r in
      if if step <? 0 then bound <=? pos else pos <=? bound then
        let! d := rd dis pos in
        if d =? 0 then run_loop fuel dis i step (r + 1) bound (rdis + 1) rpdis
        else if d =? 2 then run_loop fuel dis i step (r + 1) bound rdis (rpdis + 1)
        else Ret (rdis, rpdis)
      else Ret (rdis, rpdis)
  end.
Definition xdl_clean_mmatch (dis : list Z) (i s e : Z) : outcome bool :=
  let s := if XDL_SIMSCAN_WINDOW <? i - s then i - XDL_SIMSCAN_WINDOW else s in
  let e := if XDL_SIMSCAN_WINDOW <? e - i then i + XDL_SIMSCAN_WINDOW else e in
  let fuel := S (length dis) in
  let! (rdis0, rpdis0) := run_loop fuel dis i (-1) 1 s 0 1 in
  if rdis0 =? 0 then Ret false
  else
    let! (rdis1, rpdis1) := run_loop fuel dis i 1 1 e 0 1 in
    if rdis1 =? 0 then Ret false
    else
      let rdis1 := rdis1 + rdis0 in
      let rpdis1 := rpdis1 + rpdis0 in
      Ret (rpdis1 * XDL_KPDIS_RUN <? rpdis1 + rdis1).

(** [len] is the counter of the other file. *)
Fixpoint dis_loop (fuel : nat) (cf : xdlclassifier_t) (len : xdlclass_t → Z) (recs : list xrecord_t) (mlim i dend : Z) (dis : list Z)
  : outcome (list Z) :=
  match fuel with
  | O => NoFuel
  | S fuel =>
      if i <=? dend then
        let! r := rd recs i in
        let! rcrec := rd (rcrecs cf) (rha r) in
        let nm := len rcrec in
        let! dis := wr dis i (if nm =? 0 then 0 else if mlim <=? nm then 2 else 1) in
        dis_loop fuel cf len recs mlim (i + 1) dend dis
      else Ret dis
  end.
Fixpoint keep_loop (fuel : nat) (recs : list xrecord_t) (dis : list Z) (dstart i dend : Z) (rchg rindex ha : list Z)
  : outcome (list Z * list Z * list Z) :=
  match fuel with
  | O => NoFuel
  | S fuel =>
      if i <=? dend then
        let! d := rd dis i in
        let! keep := if d =? 1 then Ret true
                     else if d =? 2 then let! c := xdl_clean_mmatch dis i dstart dend in Ret (negb c) else Ret false in
        if keep then
          let! r := rd recs i in
          keep_loop fuel recs dis dstart (i + 1) dend rchg (rindex ++ [i]) (ha ++ [rha r])
        else
          let! rchg := wr rchg (rchg_at i) 1 in
          keep_loop fuel recs dis dstart (i + 1) dend rchg rindex ha
      else Ret (rchg, rindex, ha)
  end.

Definition eqlimit (n : Z) : outcome Z :=
  let! mlim := xdl_bogosqrt n in Ret (if XDL_MAX_EQLIMIT <? mlim then XDL_MAX_EQLIMIT else mlim).
Definition discards (cf : xdlclassifier_t) (len : xdlclass_t → Z) (xdf : xdfile_t) : outcome (list Z) :=
  let! mlim := eqlimit (nrec xdf) in
  dis_loop (S (length (recs xdf))) cf len (recs xdf) mlim (dstart xdf) (dend xdf) (zrep (nrec xdf + 1) 0).
Definition discard (xdf : xdfile_t) (dis : list Z) : outcome xdfile_t :=
  let! (rchg, rindex, ha) := keep_loop (S (length (recs xdf))) (recs xdf) dis (dstart xdf) (dstart xdf) (dend xdf) (rchg xdf) [] [] in
  Ret (Xdfile (nrec xdf) (recs xdf) (rhash xdf) (dstart xdf) (dend xdf) rchg rindex ha).
Definition xdl_cleanup_records (cf : xdlclassifier_t) (xdf1 xdf2 : xdfile_t) : outcome (xdfile_t * xdfile_t) :=
  let! dis1 := discards cf len2 xdf1 in
  let! dis2 := discards cf len1 xdf2 in
  let! xdf1 := discard xdf1 dis1 in
  let! xdf2 := discard xdf2 dis2 in
  Ret (xdf1, xdf2).

Definition xdl_optimize_ctxs (cf : xdlclassifier_t) (xdf1 xdf2 : xdfile_t) : outcome (xdfile_t * xdfile_t) :=
  let! (xdf1, xdf2) := xdl_trim_ends xdf1 xdf2 in
  xdl_cleanup_records cf xdf1 xdf2.

(** Neither patience nor histogram. *)
Definition classic (flags : Z) : bool :=
  negb (XDF_DIFF_ALG flags =? XDF_PATIENCE_DIFF) && negb (XDF_DIFF_ALG flags =? XDF_HISTOGRAM_DIFF).
Definition xdl_prepare_env (mf1 mf2 : list Z) (flags : Z) : outcome (xdfile_t * xdfile_t) :=
  let sample := if XDF_DIFF_ALG flags =? XDF_HISTOGRAM_DIFF then XDL_GUESS_NLINES2 else XDL_GUESS_NLINES1 in
  let! n1 := xdl_guess_lines mf1 sample in
  let! n2 := xdl_guess_lines mf2 sample in
  let enl1 := n1 + 1 in
  let enl2 := n2 + 1 in
  let! cf := xdl_init_classifier (enl1 + enl2 + 1) flags in
  let! (cf, xdf1) := xdl_prepare_ctx 1 mf1 enl1 flags cf in
  let! (cf, xdf2) := xdl_prepare_ctx 2 mf2 enl2 flags cf in
  if classic flags then xdl_optimize_ctxs cf xdf1 xdf2 else Ret (xdf1, xdf2).

(** ** Lines

    What splitting a file gives: the newline stays with its line. *)
Fixpoint lines_from (cur data : list Z) : list (list Z) :=
  match data with
  | [] => match cur with [] => [] | _ => [cur] end
  | c :: data => if c =? 10 then (cur ++ [c]) :: lines_from [] data else lines_from (cur ++ [c]) data
  end.
Definition split_lines (data : list Z) : list (list Z) := lines_from [] data.

Lemma concat_lines_from cur data : concat (lines_from cur data) = cur ++ data.
Proof.
  revert cur. induction data as [|c data IH]; intros cur; cbn [lines_from].
  - destruct cur; cbn; by rewrite ?app_nil_r.
  - destruct (c =? 10); cbn [concat]; rewrite IH; solve_app.
Qed.
Lemma lines_from_body cur body rest : (∀ c, c ∈ body → c ≠ 10) → lines_from cur (body ++ rest) = lines_from (cur ++ body) rest.
Proof.
  revert cur. induction body as [|c body IH]; intros cur Hb; cbn [app lines_from]; [by rewrite app_nil_r|].
  destruct (Z.eqb_spec c 10) as [->|]; [destruct (Hb 10); [by left|done]|].
  rewrite IH by (intros d Hd; apply Hb; by right). f_equal. solve_app.
Qed.

Lemma zdrop_split {A} (data : list A) p q : 0 <= p <= q → q <= zlen data → zdrop p data = zslice p (q - p) data ++ zdrop q data.
Proof.
  intros Hp Hq. rewrite <- (ztake_zdrop (q - p) (zdrop p data)) at 1. unfold zslice. f_equal. rewrite zdrop_zdrop by lia. f_equal. lia.
Qed.
Lemma zslice_elem {A} (data : list A) p n x : 0 <= p → x ∈ zslice p n data → ∃ j, p <= j < p + n ∧ znth data j = Some x.
Proof.
  intros Hp Hx. apply list_elem_of_lookup in Hx as [i Hi]. unfold zslice, ztake in Hi.
  apply lookup_take_Some in Hi as [Hi Hlt]. exists (p + Z.of_nat i). split; [lia|]. rewrite <- znth_zdrop by lia. by rewrite znth_of_nat.
Qed.
Lemma split_lines_step data ptr cur : 0 <= ptr < zlen data → is_line data ptr cur →
  ptr < cur <= zlen data ∧ split_lines (zdrop ptr data) = zslice ptr (cur - ptr) data :: split_lines (zdrop cur data).
Proof.
  intros Hp (q & (Hq & Hn & Hnl) & ->). assert (∀ c, c ∈ zslice ptr (q - ptr) data → c ≠ 10) as Hb.
  { intros c (j & Hj & Ej)%zslice_elem ->; [|lia]. by apply (Hn j); [lia|]. }
  unfold split_lines. rewrite (zdrop_split data ptr q) by lia. rewrite lines_from_body by done. cbn [app].
  destruct (Z.ltb_spec q (zlen data)) as [Hlt|Hge].
  - split; [lia|]. rewrite (zdrop_cons data q 10) by (auto || lia). cbn [lines_from]. change (10 =? 10) with true. cbn match.
    by rewrite (zslice_snoc data ptr q 10) by (auto || lia).
  - replace q with (zlen data) in * by lia. split; [lia|]. rewrite zdrop_all by lia. cbn [lines_from].
    pose proof (f_equal zlen (zdrop_split data ptr (zlen data) ltac:(lia) ltac:(lia))) as E.
    rewrite (zdrop_all data (zlen data)), app_nil_r, zlen_zdrop in E by lia. destruct (zslice ptr (zlen data - ptr) data); [rewrite zlen_nil in E; lia|done].
Qed.

(** ** The classifier *)
Lemma hashlong_bound v b : 0 <= b <= 30 → 0 <= XDL_HASHLONG v b < 2 ^ b.
Proof.
  intros Hb. unfold XDL_HASHLONG, XDL_MASKBITS. rewrite Z.shiftl_mul_pow2, Z.mul_1_l by lia.
  assert (0 < 2 ^ b <= 2 ^ 30) by (split; [lia|apply Z.pow_le_mono_r; lia]). unfold u64. rewrite (Z.mod_small (2 ^ b - 1)) by lia.
  replace (2 ^ b - 1) with (Z.ones b) by (rewrite Z.ones_equiv; lia). rewrite Z.land_ones by lia. apply Z.mod_pos_bound. lia.
Qed.
Definition table_ok (hbits : Z) (t : list (list Z)) : Prop := 1 <= hbits <= 30 ∧ zlen t = 2 ^ hbits.
Lemma table_hash hbits t v : table_ok hbits t → 0 <= XDL_HASHLONG v hbits < zlen t.
Proof. intros [Hb ->]. apply hashlong_bound. lia. Qed.
Lemma table_insert hbits t i x : table_ok hbits t → table_ok hbits (<[i := x]> t).
Proof. intros [Hb Ht]. split; [done|]. by rewrite zlen_insert. Qed.
Lemma hsize_of_ok hbits : 1 <= hbits <= 30 → hsize_of hbits = Ret (2 ^ hbits) ∧ table_ok hbits (zrep (2 ^ hbits) []).
Proof.
  intros Hb. unfold hsize_of. rewrite (proj2 (Z.ltb_lt hbits 31)) by lia. rewrite Z.shiftl_mul_pow2, Z.mul_1_l by lia.
  split; [done|]. split; [done|]. apply zlen_zrep. apply Z.pow_nonneg. lia.
Qed.

(** A class is in the chain of its hash, and two classes have different lines. *)
Record exact_classes (cf : xdlclassifier_t) : Prop := ExactClasses {
  ex_hash : ∀ i k, znth (rcrecs cf) i = Some k → cha k = line_hash (cline k);
  ex_chain : ∀ i k, znth (rcrecs cf) i = Some k → ∃ chain, znth (rchash cf) (XDL_HASHLONG (cha k) (chbits cf)) = Some chain ∧ i ∈ chain;
  ex_line : ∀ i j k k', znth (rcrecs cf) i = Some k → znth (rcrecs cf) j = Some k' → cline k = cline k' → i = j
}.
Record cf_ok (cf : xdlclassifier_t) : Prop := CfOk {
  cf_table : table_ok (chbits cf) (rchash cf);
  cf_chain : ∀ hi chain c, znth (rchash cf) hi = Some chain → c ∈ chain → 0 <= c < zlen (rcrecs cf);
  cf_exact : flag (cflags cf) XDF_WHITESPACE_FLAGS = false → exact_classes cf
}.
(** Classes are never forgotten. *)
Definition cf_le (cf cf' : xdlclassifier_t) : Prop :=
  cflags cf' = cflags cf ∧ ∀ i k, znth (rcrecs cf) i = Some k → ∃ k', znth (rcrecs cf') i = Some k' ∧ cline k' = cline k.
(** The record is in its class. *)
Definition in_class (cf : xdlclassifier_t) (r : xrecord_t) : Prop :=
  ∃ k, znth (rcrecs cf) (rha r) = Some k ∧ xdl_recmatch (cline k) (line r) (cflags cf) = Ret true.

Lemma cf_le_refl cf : cf_le cf cf.
Proof. split; eauto. Qed.
Lemma cf_le_trans cf1 cf2 cf3 : cf_le cf1 cf2 → cf_le cf2 cf3 → cf_le cf1 cf3.
Proof.
  intros [F12 H12] [F23 H23]. split; [congruence|]. intros i k Hk. destruct (H12 i k Hk) as (k' & Hk' & E).
  destruct (H23 i k' Hk') as (k'' & ? & ?). exists k''. split; [done|congruence].
Qed.
Lemma in_class_le cf cf' r : cf_le cf cf' → in_class cf r → in_class cf' r.
Proof. intros [Hf Hc] (k & Hk & Hm). destruct (Hc _ _ Hk) as (k' & Hk' & E). exists k'. by rewrite E, Hf. Qed.

Lemma find_class_wp cf l ha : ∀ chain, (∀ c, c ∈ chain → 0 <= c < zlen (rcrecs cf)) →
  returns (find_class cf chain l ha) (λ r, match r with
    | Some c => in_class cf (Xrecord l c) ∧ 0 <= c < zlen (rcrecs cf)
    | None => ∀ c k, c ∈ chain → znth (rcrecs cf) c = Some k → cha k = ha → cline k ≠ l end).
Proof.
  induction chain as [|c chain IH]; intros Hc; cbn [find_class]; [intros c k Hel; by apply not_elem_of_nil in Hel|]. pose proof (Hc c ltac:(by left)) as Hlt.
  destruct (znth_is_Some (rcrecs cf) c Hlt) as [k Ek]. rewrite (rd_znth _ _ _ Ek). cbn [obind].
  assert ((cha k = ha → cline k ≠ l) → returns (find_class cf chain l ha) (λ r, match r with
    | Some c => in_class cf (Xrecord l c) ∧ 0 <= c < zlen (rcrecs cf)
    | None => ∀ c' k, c' ∈ c :: chain → znth (rcrecs cf) c' = Some k → cha k = ha → cline k ≠ l end)) as Hrest.
  { intros Hk. eapply wp_mono; [|apply IH; intros d Hd; apply Hc; by right]. intros [d|] Hd; [done|]. intros c' k' Hel Ek'.
    apply elem_of_cons in Hel as [->|Hel]; [|by eapply Hd]. rewrite Ek in Ek'. injection Ek' as <-. done. }
  destruct (Z.eqb_spec (cha k) ha); [|by apply Hrest]. destruct (proj1 (returns_eq _ _) (recmatch_wp (cline k) l (cflags cf))) as (b & E & Hb & _).
  rewrite E. cbn [obind]. destruct b; [cbn; split; [by exists k|done]|]. apply Hrest. intros _ El. specialize (Hb El). done.
Qed.

(** A class is counted: everything but its counters stays. *)
Lemma count_ok pass cf idx k : cf_ok cf → znth (rcrecs cf) idx = Some k →
  let cf' := Xdlclassifier (chbits cf) (rchash cf) (<[Z.to_nat idx := count_class pass k]> (rcrecs cf)) (cflags cf) in cf_ok cf' ∧ cf_le cf cf'.
Proof.
  intros [Ht Hch Hex] Ek cf'. pose proof (znth_Some_lt _ _ _ Ek) as Hidx.
  assert (cha (count_class pass k) = cha k ∧ cline (count_class pass k) = cline k) as [Eh El] by (unfold count_class; by destruct (pass =? 1)).
  assert (∀ i k', znth (rcrecs cf') i = Some k' → ∃ k0, znth (rcrecs cf) i = Some k0 ∧ cha k' = cha k0 ∧ cline k' = cline k0) as Hback.
  { intros i k' Hk'. cbn in Hk'. destruct (decide (i = idx)) as [->|].
    - rewrite znth_insert_eq in Hk' by done. injection Hk' as <-. by exists k.
    - rewrite znth_insert_ne in Hk' by lia. by exists k'. }
  split; [split; [done| |]|].
  - intros h ch c Hc Hel. cbn. rewrite zlen_insert. by eapply Hch.
  - intros Hf. destruct (Hex Hf) as [Hhash Hchain Hline]. split.
    + intros i k' Hk'. destruct (Hback _ _ Hk') as (k0 & Hk0 & -> & ->). by eapply Hhash.
    + intros i k' Hk'. destruct (Hback _ _ Hk') as (k0 & Hk0 & -> & _). by apply Hchain.
    + intros i j k1 k2 H1 H2 E. destruct (Hback _ _ H1) as (k01 & ? & _ & E1), (Hback _ _ H2) as (k02 & ? & _ & E2). eapply Hline; [done|done|congruence].
  - split; [done|]. intros i k' Ek'. cbn. destruct (decide (i = idx)) as [->|Hne].
    + eexists. rewrite znth_insert_eq by done. split; [done|]. congruence.
    + exists k'. rewrite znth_insert_ne by lia. done.
Qed.

(** A class is added at the head of its chain. *)
Lemma add_class_ok cf l ha chain : cf_ok cf → let hi := XDL_HASHLONG ha (chbits cf) in znth (rchash cf) hi = Some chain →
  (flag (cflags cf) XDF_WHITESPACE_FLAGS = false → ha = line_hash l) → (∀ c k, c ∈ chain → znth (rcrecs cf) c = Some k → cha k = ha → cline k ≠ l) →
  let idx := zlen (rcrecs cf) in
  let cf' := Xdlclassifier (chbits cf) (<[Z.to_nat hi := idx :: chain]> (rchash cf)) (rcrecs cf ++ [Xdlclass ha l 0 0]) (cflags cf) in
  cf_ok cf' ∧ cf_le cf cf' ∧ in_class cf' (Xrecord l idx).
Proof.
  intros [Ht Hch Hex] hi Ec Hha Hnew idx cf'. pose proof (znth_Some_lt _ _ _ Ec) as Hhi.
  assert (∀ i k, znth (rcrecs cf') i = Some k → i = idx ∧ k = Xdlclass ha l 0 0 ∨ znth (rcrecs cf) i = Some k) as Hback.
  { intros i k Hk. pose proof (znth_Some_lt _ _ _ Hk) as Hi. cbn in Hk, Hi. rewrite zlen_app in Hi. change (zlen [_]) with 1 in Hi.
    destruct (decide (i = idx)) as [->|]; [left; split; [done|]; unfold idx in Hk; rewrite znth_app_len in Hk; congruence|]. right. rewrite znth_app_l in Hk by lia. done. }
  split; [split; [by apply table_insert| |]|split; [split; [done|]|]].
  - cbn. intros h ch c Hc Hel. rewrite zlen_app. change (zlen [_]) with 1. zlen_pos. destruct (decide (h = hi)) as [->|Hne].
    + rewrite znth_insert_eq in Hc by done. injection Hc as <-. apply elem_of_cons in Hel as [->|Hel]; [lia|]. specialize (Hch _ _ _ Ec Hel). lia.
    + rewrite znth_insert_ne in Hc by lia. specialize (Hch _ _ _ Hc Hel). lia.
  - intros Hf. destruct (Hex Hf) as [Hhash Hchain Hline]. assert (∀ i k, znth (rcrecs cf) i = Some k → cline k ≠ l) as Hfresh.
    { intros i k Hk El. destruct (Hchain i k Hk) as (ch & Ech & Hel). assert (cha k = ha) as Eh by (rewrite (Hhash i k Hk), El, Hha by done; done).
      rewrite Eh in Ech. replace ch with chain in Hel by (unfold hi in Ec; congruence). by apply (Hnew i k). }
    split.
    + intros i k Hk. destruct (Hback i k Hk) as [[-> ->]|Hk']; [by apply Hha|by eapply Hhash].
    + intros i k Hk. cbn. destruct (Hback i k Hk) as [[-> ->]|Hk']; [exists (idx :: chain); split; [by apply znth_insert_eq|by left]|].
      destruct (Hchain i k Hk') as (ch & Ech & Hel). destruct (decide (XDL_HASHLONG (cha k) (chbits cf) = hi)) as [Eh|].
      * exists (idx :: chain). rewrite Eh, znth_insert_eq by done. split; [done|]. right. rewrite Eh in Ech. congruence.
      * exists ch. rewrite znth_insert_ne by lia. done.
    + intros i j k k' Hk Hk' El. destruct (Hback i k Hk) as [[-> ->]|H1], (Hback j k' Hk') as [[-> ->]|H2]; try done; cbn in El.
      * exfalso. by apply (Hfresh j k').
      * exfalso. by apply (Hfresh i k).
      * by eapply Hline.
  - cbn. intros i k Ek. exists k. split; [|done]. rewrite znth_app_l; [done|]. apply znth_Some_lt in Ek; lia.
  - eexists. cbn. split; [apply znth_app_len|]. cbn. destruct (proj1 (returns_eq _ _) (recmatch_wp l l (cflags cf))) as (b & E & Hb & _).
    by rewrite E, Hb.
Qed.

Lemma classify_wp pass cf rhash hbits nr l ha : cf_ok cf → table_ok hbits rhash → (flag (cflags cf) XDF_WHITESPACE_FLAGS = false → ha = line_hash l) →
  returns (xdl_classify_record pass cf rhash hbits nr l ha) (λ '(cf', rhash', r),
    cf_ok cf' ∧ cf_le cf cf' ∧ table_ok hbits rhash' ∧ line r = l ∧ in_class cf' r).
Proof.
  intros Hcf Hrh Hha. unfold xdl_classify_record. pose proof (table_hash _ _ ha (cf_table _ Hcf)) as Hhi. set (hi := XDL_HASHLONG ha (chbits cf)) in *.
  destruct (znth_is_Some (rchash cf) hi Hhi) as [chain Ec]. rewrite (rd_znth _ _ _ Ec). cbn [obind]. apply wp_bind.
  eapply wp_mono; [|apply find_class_wp; intros c Hc; by eapply (cf_chain _ Hcf)]. intros found Hfound.
  match goal with |- context [obind (match found with _ => _ end) ?k] => set (K := k) end.
  assert (∀ cf1 idx, cf_ok cf1 → cf_le cf cf1 → in_class cf1 (Xrecord l idx) → returns (K (cf1, idx)) (λ '(cf', rhash', r),
    cf_ok cf' ∧ cf_le cf cf' ∧ table_ok hbits rhash' ∧ line r = l ∧ in_class cf' r)) as HK.
  { clear found Hfound. intros cf1 idx Hok1 Hle1 Hin. pose proof Hin as (k & Ek & Hm). cbn in Ek, Hm. unfold K.
    rewrite (rd_znth _ _ _ Ek). cbn [obind]. pose proof (znth_Some_lt _ _ _ Ek) as Hidx. rewrite wr_ok by done. cbn [obind].
    pose proof (table_hash _ _ idx Hrh) as Hhi2. destruct (znth_is_Some rhash (XDL_HASHLONG idx hbits) Hhi2) as [nx Enx].
    rewrite (rd_znth _ _ _ Enx). cbn [obind]. rewrite wr_ok by done. cbn. destruct (count_ok pass cf1 idx k Hok1 Ek) as [Hok2 Hle2].
    split; [done|]. split; [by eapply cf_le_trans|]. split; [by apply table_insert|]. split; [done|by eapply in_class_le]. }
  destruct found as [idx|]; cbn [obind]; [apply HK; [done|apply cf_le_refl|by apply Hfound]|].
  rewrite wr_ok by done. cbn [obind]. destruct (add_class_ok cf l ha chain Hcf Ec Hha Hfound) as (? & ? & ?). by apply HK.
Qed.

(** Without whitespace flags equal lines are in the same class. *)
Lemma class_of_line cf r r' : cf_ok cf → flag (cflags cf) XDF_WHITESPACE_FLAGS = false → in_class cf r → in_class cf r' → line r = line r' → rha r = rha r'.
Proof.
  intros Hcf Hf (k & Ek & Hm) (k' & Ek' & Hm') El. pose proof (recmatch_wp (cline k) (line r) (cflags cf)) as W. pose proof (recmatch_wp (cline k') (line r') (cflags cf)) as W'.
  rewrite Hm in W. rewrite Hm' in W'. destruct W as [_ W], W' as [_ W']. specialize (W Hf eq_refl). specialize (W' Hf eq_refl).
  eapply (ex_line _ (cf_exact _ Hcf Hf)); [done|done|congruence].
Qed.

(** ** Records *)
Lemma records_loop_wp pass data flags hbits : ∀ fuel cur cf rhash recs0, 0 <= cur <= zlen data → (Z.to_nat (zlen data - cur) < fuel)%nat →
  cf_ok cf → cflags cf = flags → table_ok hbits rhash → Forall (in_class cf) recs0 →
  returns (records_loop fuel pass data flags hbits cur cf rhash recs0) (λ '(cf', _, recs'),
    cf_ok cf' ∧ cf_le cf cf' ∧ Forall (in_class cf') recs' ∧ line <$> recs' = (line <$> recs0) ++ split_lines (zdrop cur data)).
Proof.
  induction fuel as [|fuel IH]; intros cur cf rhash recs0 Hc Hf Hcf Hfl Ht Hr; [lia|]. cbn [records_loop].
  destruct (Z.ltb_spec cur (zlen data)) as [Hlt|Hge].
  2: { cbn. rewrite zdrop_all by lia. split; [done|]; split; [apply cf_le_refl|]; split; [done|by rewrite app_nil_r]. }
  apply wp_bind. eapply wp_mono; [|apply hash_record_wp; lia]. intros [cur' hav] [Hl Hhav].
  apply split_lines_step in Hl as [Hcur Hs]; [|lia]. apply wp_bind, rd_range_wp; [lia..|].
  apply wp_bind. eapply wp_mono; [|apply classify_wp; [done|done|by rewrite Hfl]]. intros [[cf1 rh1] r] (Hcf1 & Hle1 & Ht1 & Hline & Hin).
  eapply wp_mono; [|apply IH; [lia|lia|done|by rewrite (proj1 Hle1)|done|]].
  - intros [[cf2 rh2] recs2] (? & Hle2 & ? & E). split_and!; try done; [by eapply cf_le_trans|].
    rewrite E, Hs, fmap_app. cbn. rewrite Hline. solve_app.
  - apply Forall_app. split; [|by constructor]. eapply Forall_impl; [exact Hr|]. intros x. by apply in_class_le.
Qed.

Definition cls (recs : list xrecord_t) (i : Z) : Z := from_option rha 0 (znth recs i).
Lemma cls_rd recs i : 0 <= i < zlen recs → ∃ r, rd recs i = Ret r ∧ cls recs i = rha r ∧ r ∈ recs.
Proof.
  intros Hi. destruct (znth_is_Some recs i Hi) as [r Er]. exists r. unfold cls. rewrite (rd_znth _ _ _ Er), Er. split_and!; try done.
  by eapply znth_elem_of.
Qed.

Definition clean_rchg (n : Z) (rchg : list Z) : Prop :=
  zlen rchg = n + 2 ∧ (∀ i v, znth rchg i = Some v → v = 0 ∨ v = 1) ∧ znth rchg (rchg_at (-1)) = Some 0 ∧ znth rchg (rchg_at n) = Some 0.

Lemma clean_zeros n : 0 <= n → clean_rchg n (zrep (n + 2) 0) ∧ ∀ i, 0 <= i < n → unmarked (zrep (n + 2) 0) i = true.
Proof.
  intros Hn. assert (∀ i, 0 <= i < n + 2 → znth (zrep (n + 2) 0) i = Some 0) as H.
  { intros i Hi. unfold znth, zrep. destruct (Z.leb_spec 0 i); [|lia]. apply lookup_replicate_2. lia. }
  unfold clean_rchg. split_and!.
  - apply zlen_zrep. lia.
  - intros i v Hv. pose proof (znth_Some_lt _ _ _ Hv) as Hi. rewrite zlen_zrep in Hi by lia. rewrite H in Hv by lia. left. congruence.
  - apply H. unfold rchg_at. lia.
  - apply H. unfold rchg_at. lia.
  - intros i Hi. unfold unmarked. rewrite H by (unfold rchg_at; lia). by apply bool_decide_eq_true.
Qed.

Lemma prepare_ctx_wp pass data narec flags cf : 0 <= narec <= 2 ^ 30 → cf_ok cf → cflags cf = flags →
  returns (xdl_prepare_ctx pass data narec flags cf) (λ '(cf', xdf),
    cf_ok cf' ∧ cf_le cf cf' ∧ Forall (in_class cf') (recs xdf) ∧ line <$> recs xdf = split_lines data ∧
    nrec xdf = zlen (recs xdf) ∧ rchg xdf = zrep (nrec xdf + 2) 0 ∧ dstart xdf = 0 ∧ dend xdf = nrec xdf - 1).
Proof.
  intros Hn Hcf Hfl. unfold xdl_prepare_ctx. assert (u32 narec = narec) as -> by (unfold u32; apply Z.mod_small; lia).
  apply wp_bind. eapply wp_mono; [|apply hashbits_wp; lia]. intros hb Hhb. destruct (hsize_of_ok hb Hhb) as [-> Ht]. cbn [obind].
  apply wp_bind. zlen_pos. eapply wp_mono; [|apply (records_loop_wp pass data flags hb (S (length data)) 0 cf _ []); try done; [pose proof (zlen_nonneg data); lia|unfold zlen; lia]].
  intros [[cf1 rh] rs] (? & ? & ? & E). cbn. rewrite zdrop_0 in E. done.
Qed.

(** ** Trimming *)
Lemma trim_head_wp recs1 recs2 lim : lim <= zlen recs1 → lim <= zlen recs2 → ∀ fuel i, 0 <= i <= lim → (Z.to_nat (lim - i) < fuel)%nat →
  returns (trim_head fuel recs1 recs2 i lim) (λ s, i <= s <= lim ∧ ∀ j, i <= j < s → cls recs1 j = cls recs2 j).
Proof.
  intros L1 L2. induction fuel as [|fuel IH]; intros i Hi Hf; [lia|]. cbn [trim_head]. destruct (Z.ltb_spec i lim); [|cbn; split; [lia|intros; lia]].
  destruct (cls_rd recs1 i) as (r1 & -> & E1 & _); [lia|]. destruct (cls_rd recs2 i) as (r2 & -> & E2 & _); [lia|]. cbn [obind].
  destruct (Z.eqb_spec (rha r1) (rha r2)) as [E|]; cbn [negb]; [|cbn; split; [lia|intros; lia]].
  eapply wp_mono; [|apply IH; lia]. intros s [Hs Hj]. split; [lia|]. intros j Hj'. destruct (decide (j = i)) as [->|]; [congruence|apply Hj; lia].
Qed.
Lemma trim_tail_wp recs1 recs2 lim : lim <= zlen recs1 → lim <= zlen recs2 → ∀ fuel i, 0 <= i <= lim → (Z.to_nat (lim - i) < fuel)%nat →
  returns (trim_tail fuel recs1 recs2 i lim) (λ e, i <= e <= lim ∧
    ∀ j, i <= j < e → cls recs1 (zlen recs1 - 1 - j) = cls recs2 (zlen recs2 - 1 - j)).
Proof.
  intros L1 L2. induction fuel as [|fuel IH]; intros i Hi Hf; [lia|]. cbn [trim_tail]. destruct (Z.ltb_spec i lim); [|cbn; split; [lia|intros; lia]].
  destruct (cls_rd recs1 (zlen recs1 - 1 - i)) as (r1 & -> & E1 & _); [lia|]. destruct (cls_rd recs2 (zlen recs2 - 1 - i)) as (r2 & -> & E2 & _); [lia|]. cbn [obind].
  destruct (Z.eqb_spec (rha r1) (rha r2)) as [E|]; cbn [negb]; [|cbn; split; [lia|intros; lia]].
  eapply wp_mono; [|apply IH; lia]. intros s [Hs Hj]. split; [lia|]. intros j Hj'. destruct (decide (j = i)) as [->|]; [congruence|apply Hj; lia].
Qed.

(** The two files agree before [s], and in the last [e] records. *)
Definition trimmed (recs1 recs2 : list xrecord_t) (s e : Z) : Prop :=
  0 <= s ∧ 0 <= e ∧ s + e <= zlen recs1 ∧ s + e <= zlen recs2 ∧ (∀ j, 0 <= j < s → cls recs1 j = cls recs2 j) ∧
  (∀ j, 0 <= j < e → cls recs1 (zlen recs1 - 1 - j) = cls recs2 (zlen recs2 - 1 - j)).
Lemma trim_ends_wp xdf1 xdf2 : nrec xdf1 = zlen (recs xdf1) → nrec xdf2 = zlen (recs xdf2) →
  returns (xdl_trim_ends xdf1 xdf2) (λ r, ∃ s e, r = (with_bounds xdf1 s (nrec xdf1 - e - 1), with_bounds xdf2 s (nrec xdf2 - e - 1)) ∧
    trimmed (recs xdf1) (recs xdf2) s e).
Proof.
  intros E1 E2. unfold xdl_trim_ends. pose proof (zlen_nonneg (recs xdf1)). pose proof (zlen_nonneg (recs xdf2)).
  apply wp_bind. eapply wp_mono; [|apply trim_head_wp; unfold zlen in *; lia]. intros s [Hs Hhead].
  apply wp_bind. eapply wp_mono; [|apply trim_tail_wp; unfold zlen in *; lia]. intros e [He Htail]. cbn. exists s, e. split; [done|].
  unfold trimmed. split_and!; (done || lia).
Qed.

(** ** Discarding *)
Lemma run_loop_wp dis i step bound : (step = -1 ∧ 0 <= bound ∧ i <= zlen dis ∨ step = 1 ∧ bound < zlen dis ∧ -1 <= i) →
  ∀ fuel r rd0 rp0, 1 <= r → (Z.to_nat (if step <? 0 then i - r + 1 else zlen dis - (i + r))%Z < fuel)%nat →
  returns (run_loop fuel dis i step r bound rd0 rp0) (λ _, True).
Proof.
  intros Hst. induction fuel as [|fuel IH]; intros r rd0 rp0 Hr Hf; [lia|]. cbn [run_loop].
  destruct Hst as [(-> & Hb & Hi)|(-> & Hb & Hi)]; [change (-1 <? 0) with true in *|change (1 <? 0) with false in *]; cbn match in *.
  - destruct (Z.leb_spec bound (i + -1 * r)); [|done]. apply wp_bind, rd_wp; [lia|]. intros d _.
    destruct (d =? 0); [apply IH; lia|]. destruct (d =? 2); [apply IH; lia|done].
  - destruct (Z.leb_spec (i + 1 * r) bound); [|done]. apply wp_bind, rd_wp; [lia|]. intros d _.
    destruct (d =? 0); [apply IH; lia|]. destruct (d =? 2); [apply IH; lia|done].
Qed.
Lemma clean_mmatch_wp dis i s e : 0 <= s <= i → i <= e < zlen dis → returns (xdl_clean_mmatch dis i s e) (λ _, True).
Proof.
  intros Hs He. unfold xdl_clean_mmatch, XDL_SIMSCAN_WINDOW.
  set (s' := if 100 <? i - s then i - 100 else s). set (e' := if 100 <? e - i then i + 100 else e).
  assert (0 <= s' ∧ e' < zlen dis) as [Hs' He'] by (subst s' e'; bcase; lia).
  apply wp_bind. eapply wp_mono; [|apply run_loop_wp; [left; lia|lia|unfold zlen in *; cbn; lia]]. intros [a b] _. destruct (a =? 0); [done|].
  apply wp_bind. eapply wp_mono; [|apply run_loop_wp; [right; lia|lia|unfold zlen in *; cbn; lia]]. intros [c d] _. by destruct (c =? 0).
Qed.
Lemma dis_loop_wp cf len recs mlim dend : Forall (in_class cf) recs → dend < zlen recs → ∀ fuel i dis, 0 <= i → zlen dis = zlen recs + 1 →
  (Z.to_nat (dend + 1 - i) < fuel)%nat → returns (dis_loop fuel cf len recs mlim i dend dis) (λ dis', zlen dis' = zlen dis).
Proof.
  intros Hcl Hd. induction fuel as [|fuel IH]; intros i dis Hi Hz Hf; [lia|]. cbn [dis_loop]. destruct (Z.leb_spec i dend); [|done].
  destruct (cls_rd recs i) as (r & -> & _ & Hr); [lia|]. cbn [obind]. rewrite Forall_forall in Hcl. destruct (Hcl r Hr) as (k & Ek & _).
  rewrite (rd_znth _ _ _ Ek). cbn [obind]. rewrite wr_ok by lia. cbn [obind].
  eapply wp_mono; [|apply IH; [lia|by rewrite zlen_insert|lia]]. intros dis' ->. by rewrite zlen_insert.
Qed.

Definition upd (keep : Z → bool) (i : Z) (b : bool) : Z → bool := λ j, if j =? i then b else keep j.
Lemma select_upd {A} keep i b (f : Z → A) s : s <= i → select (upd keep i b) f s (i + 1) = select keep f s i ++ (if b then [f i] else []).
Proof.
  intros Hs. rewrite (select_app _ f s i) by lia. rewrite select_one. unfold upd at 2. rewrite Z.eqb_refl. f_equal.
  apply select_ext. intros j Hj. unfold upd. rewrite (proj2 (Z.eqb_neq j i)) by lia. done.
Qed.

(** [keep] of the lines from [s] to [i] is in the lists, the rest is marked. *)
Definition sorted_out (n : Z) (recs : list xrecord_t) (s i : Z) (keep : Z → bool) (rchg rindex ha : list Z) : Prop :=
  clean_rchg n rchg ∧ rindex = select keep id s i ∧ ha = select keep (cls recs) s i ∧
  (∀ j, 0 <= j < n → unmarked rchg j = if (s <=? j) && (j <? i) then keep j else true).

Lemma unmarked_insert rchg i j v : 0 <= i → 0 <= j → 0 <= rchg_at i < zlen rchg →
  unmarked (<[Z.to_nat (rchg_at i) := v]> rchg) j = if j =? i then v =? 0 else unmarked rchg j.
Proof.
  intros Hi Hj Hz. unfold unmarked. destruct (Z.eqb_spec j i) as [->|].
  - rewrite znth_insert_eq by done. destruct (Z.eqb_spec v 0) as [->|]; [by apply bool_decide_eq_true|apply bool_decide_eq_false; congruence].
  - rewrite znth_insert_ne; [done|lia|unfold rchg_at; lia].
Qed.
Lemma clean_insert n rchg i v : clean_rchg n rchg → 0 <= i < n → v = 0 ∨ v = 1 → clean_rchg n (<[Z.to_nat (rchg_at i) := v]> rchg).
Proof.
  intros (Hz & Hb & H0 & Hn) Hi Hv. unfold clean_rchg, rchg_at in *. split_and!.
  - by rewrite zlen_insert.
  - intros k w. destruct (decide (k = 1 + i)) as [->|]; [rewrite znth_insert_eq by lia; naive_solver|].
    rewrite znth_insert_ne by lia. apply Hb.
  - by rewrite znth_insert_ne by lia.
  - by rewrite znth_insert_ne by lia.
Qed.

Lemma keep_loop_wp recs dis s e : 0 <= s → e < zlen recs → zlen dis = zlen recs + 1 → ∀ fuel i keep rchg rindex ha, s <= i <= e + 1 →
  (Z.to_nat (e + 1 - i) < fuel)%nat → sorted_out (zlen recs) recs s i keep rchg rindex ha →
  returns (keep_loop fuel recs dis s i e rchg rindex ha) (λ '(rchg', rindex', ha'), ∃ keep', sorted_out (zlen recs) recs s (e + 1) keep' rchg' rindex' ha').
Proof.
  intros Hs He Hz. induction fuel as [|fuel IH]; intros i keep rchg rindex ha Hi Hf Hso; [lia|]. cbn [keep_loop].
  destruct (Z.leb_spec i e); [|cbn; exists keep; by replace (e + 1) with i by lia].
  apply wp_bind, rd_wp; [lia|]. intros d _. apply wp_bind. apply (wp_mono _ _ (λ _, True)).
  2: { destruct (d =? 1); [done|]. destruct (d =? 2); [|done]. apply wp_bind. eapply wp_mono; [|apply clean_mmatch_wp; lia]. done. }
  intros b _. destruct Hso as (Hc & Er & Eh & Hu). destruct b.
  - destruct (cls_rd recs i) as (r & -> & E & _); [lia|]. cbn [obind]. apply (IH (i + 1) (upd keep i true)); [lia|lia|].
    split_and!; [done|by rewrite select_upd, Er by lia|by rewrite select_upd, Eh, E by lia|].
    intros j Hj. rewrite Hu by done. unfold upd. bcase; cbn [andb]; try done; lia.
  - pose proof Hc as (Hzr & _). rewrite wr_ok by (unfold rchg_at; lia). cbn [obind]. apply (IH (i + 1) (upd keep i false)); [lia|lia|].
    split_and!; [apply clean_insert; [done|lia|by right]|by rewrite select_upd, Er, app_nil_r by lia|by rewrite select_upd, Eh, app_nil_r by lia|].
    intros j Hj. rewrite unmarked_insert by (unfold rchg_at; lia). rewrite Hu by done. unfold upd. bcase; cbn [andb]; try done; lia.
Qed.

(** A file after the clean-up: [keep] says which of its middle lines are listed. *)
Definition listed (xdf : xdfile_t) (keep : Z → bool) : Prop :=
  nrec xdf = zlen (recs xdf) ∧ 0 <= dstart xdf <= dend xdf + 1 ∧ dend xdf < nrec xdf ∧
  sorted_out (nrec xdf) (recs xdf) (dstart xdf) (dend xdf + 1) keep (rchg xdf) (xrindex xdf) (xha xdf).

Lemma discards_wp cf len xdf : nrec xdf = zlen (recs xdf) → nrec xdf < 2 ^ 64 → Forall (in_class cf) (recs xdf) → 0 <= dstart xdf → dend xdf < nrec xdf →
  returns (discards cf len xdf) (λ dis, zlen dis = zlen (recs xdf) + 1).
Proof.
  intros En Hn Hcl Hs He. unfold discards, eqlimit. pose proof (zlen_nonneg (recs xdf)). apply wp_bind. apply wp_bind.
  eapply wp_mono; [|apply bogosqrt_wp; done]. intros m _. cbn [wp]. rewrite En.
  eapply wp_mono; [|apply dis_loop_wp; try done; [lia|apply zlen_zrep; lia|unfold zlen in *; lia]].
  intros dis ->. apply zlen_zrep. lia.
Qed.
Lemma discard_records_wp xdf dis : nrec xdf = zlen (recs xdf) → 0 <= dstart xdf <= dend xdf + 1 → dend xdf < nrec xdf →
  rchg xdf = zrep (nrec xdf + 2) 0 → zlen dis = zlen (recs xdf) + 1 →
  returns (discard xdf dis) (λ xdf', recs xdf' = recs xdf ∧ dstart xdf' = dstart xdf ∧ dend xdf' = dend xdf ∧ ∃ keep, listed xdf' keep).
Proof.
  intros En Hs He Er Hz. unfold discard. pose proof (zlen_nonneg (recs xdf)). destruct (clean_zeros (nrec xdf) ltac:(lia)) as [Hc Hu].
  apply wp_bind. eapply wp_mono; [|apply (keep_loop_wp (recs xdf) dis (dstart xdf) (dend xdf)) with (keep := λ _, true); try done; try lia].
  - intros [[r ri] h] (keep & Hso). cbn. split_and!; try done. exists keep. split_and!; cbn; try lia. by rewrite En.
  - unfold zlen in *. lia.
  - rewrite Er. rewrite <- En. split_and!; try done; try (by apply Hc); try (by rewrite select_nil by lia).
    intros j Hj. rewrite Hu by lia. destruct (Z.leb_spec (dstart xdf) j), (Z.ltb_spec j (dstart xdf)); done || lia.
Qed.

(** ** The prepared files *)
Record prepared (mf1 mf2 : list Z) (flags : Z) (xdf1 xdf2 : xdfile_t) : Prop := Prepared {
  prep_cf : ∃ cf, cf_ok cf ∧ cflags cf = flags ∧ Forall (in_class cf) (recs xdf1) ∧ Forall (in_class cf) (recs xdf2);
  prep_lines : line <$> recs xdf1 = split_lines mf1 ∧ line <$> recs xdf2 = split_lines mf2
}.
(** For the default algorithm: trimmed and listed. *)
Record optimized (xdf1 xdf2 : xdfile_t) : Prop := Optimized {
  opt_listed : (∃ keep, listed xdf1 keep) ∧ (∃ keep, listed xdf2 keep);
  opt_trim : ∃ s e, trimmed (recs xdf1) (recs xdf2) s e ∧ dstart xdf1 = s ∧ dstart xdf2 = s ∧ dend xdf1 = nrec xdf1 - e - 1 ∧ dend xdf2 = nrec xdf2 - e - 1
}.
(** For the others: as they were read. *)
Record unmarked_file (xdf : xdfile_t) : Prop := UnmarkedFile {
  un_nrec : nrec xdf = zlen (recs xdf);
  un_rchg : rchg xdf = zrep (nrec xdf + 2) 0;
  un_bounds : dstart xdf = 0 ∧ dend xdf = nrec xdf - 1
}.

Lemma lines_from_length cur data : zlen (lines_from cur data) <= zlen data + (match cur with [] => 0 | _ => 1 end).
Proof.
  revert cur. induction data as [|c data IH]; intros cur; cbn [lines_from].
  - destruct cur; unfold zlen; cbn [length]; lia.
  - destruct (c =? 10); rewrite ?zlen_cons.
    + specialize (IH []). cbn match in IH. destruct cur; lia.
    + specialize (IH (cur ++ [c])). destruct cur; cbn [app] in *; cbn match in *; lia.
Qed.

Lemma init_classifier_wp size flags : 0 <= size <= 2 ^ 30 → returns (xdl_init_classifier size flags) (λ cf, cf_ok cf ∧ cflags cf = flags).
Proof.
  intros Hs. unfold xdl_init_classifier. assert (u32 size = size) as -> by (unfold u32; apply Z.mod_small; lia).
  apply wp_bind. eapply wp_mono; [|apply hashbits_wp; lia]. intros hb Hhb. destruct (hsize_of_ok hb Hhb) as [-> Ht]. cbn. split; [|done].
  split; [done| |].
  - cbn. intros hi chain c Hc Hin. exfalso. apply znth_elem_of, elem_of_replicate in Hc as [-> _]. by apply not_elem_of_nil in Hin.
  - intros _. assert (∀ i k, znth ([] : list xdlclass_t) i ≠ Some k) as Hno by (intros i k Hk; apply znth_Some_lt in Hk; unfold zlen in Hk; cbn in Hk; lia).
    split; cbn; intros; exfalso; by eapply Hno.
Qed.

Lemma optimize_ctxs_wp cf x1 x2 : Forall (in_class cf) (recs x1) → Forall (in_class cf) (recs x2) → nrec x1 = zlen (recs x1) → nrec x2 = zlen (recs x2) →
  rchg x1 = zrep (nrec x1 + 2) 0 → rchg x2 = zrep (nrec x2 + 2) 0 → nrec x1 < 2 ^ 64 → nrec x2 < 2 ^ 64 →
  returns (xdl_optimize_ctxs cf x1 x2) (λ '(y1, y2), recs y1 = recs x1 ∧ recs y2 = recs x2 ∧ optimized y1 y2).
Proof.
  intros Hin1 Hin2 En1 En2 Er1 Er2 Hb1 Hb2. unfold xdl_optimize_ctxs. apply wp_bind. eapply wp_mono; [|by apply trim_ends_wp]. intros r (s & e & -> & Htr).
  pose proof Htr as (Hs & He & Hse1 & Hse2 & _). unfold xdl_cleanup_records.
  apply wp_bind. eapply wp_mono; [|apply discards_wp; cbn; try done; lia]. intros dis1 Hd1.
  apply wp_bind. eapply wp_mono; [|apply discards_wp; cbn; try done; lia]. intros dis2 Hd2.
  apply wp_bind. eapply wp_mono; [|apply discard_records_wp; cbn; try done; lia]. intros y1 (R1 & S1 & E1 & L1).
  apply wp_bind. eapply wp_mono; [|apply discard_records_wp; cbn; try done; lia]. intros y2 (R2 & S2 & E2 & L2). cbn in *.
  assert (nrec y1 = nrec x1 ∧ nrec y2 = nrec x2) as [N1 N2].
  { destruct L1 as (k1 & -> & _), L2 as (k2 & -> & _). by rewrite R1, R2. }
  split; [done|]. split; [done|]. split; [done|]. rewrite R1, R2. exists s, e. rewrite S1, S2, E1, E2, N1, N2. done.
Qed.

Lemma prepare_env_wp mf1 mf2 flags : zlen mf1 < 2 ^ 29 - 4 → zlen mf2 < 2 ^ 29 - 4 →
  returns (xdl_prepare_env mf1 mf2 flags) (λ '(xdf1, xdf2), prepared mf1 mf2 flags xdf1 xdf2 ∧
    if classic flags then optimized xdf1 xdf2 else unmarked_file xdf1 ∧ unmarked_file xdf2).
Proof.
  intros Hm1 Hm2. unfold xdl_prepare_env. set (sample := if _ =? _ then _ else _).
  apply wp_bind. eapply wp_mono; [|apply guess_lines_wp]. intros n1 Hn1. cbn beta in Hn1.
  apply wp_bind. eapply wp_mono; [|apply guess_lines_wp]. intros n2 Hn2. cbn beta in Hn2.
  apply wp_bind. eapply wp_mono; [|apply init_classifier_wp; lia]. intros cf0 [Hcf0 Hfl].
  apply wp_bind. eapply wp_mono; [|apply prepare_ctx_wp; [lia|done|done]]. intros [cf1 x1] (Hcf1 & Hle1 & Hin1 & Hl1 & En1 & Er1 & Hd1).
  apply wp_bind. eapply wp_mono; [|apply prepare_ctx_wp; [lia|done|by rewrite (proj1 Hle1)]]. intros [cf x2] (Hcf & Hle2 & Hin2 & Hl2 & En2 & Er2 & Hd2).
  assert (Forall (in_class cf) (recs x1)) as Hin1' by (eapply Forall_impl; [exact Hin1|]; intros r; by apply in_class_le).
  assert (nrec x1 < 2 ^ 64 ∧ nrec x2 < 2 ^ 64) as [Hb1 Hb2].
  { pose proof (lines_from_length [] mf1). pose proof (lines_from_length [] mf2). apply (f_equal zlen) in Hl1, Hl2. rewrite zlen_fmap in Hl1, Hl2.
    unfold split_lines in *. rewrite En1, En2, Hl1, Hl2. lia. }
  assert (∃ cf, cf_ok cf ∧ cflags cf = flags ∧ Forall (in_class cf) (recs x1) ∧ Forall (in_class cf) (recs x2)) as Hcls.
  { exists cf. split; [done|]. split; [|done]. by rewrite (proj1 Hle2), (proj1 Hle1). }
  destruct (classic flags).
  - eapply wp_mono; [|by apply (optimize_ctxs_wp cf)]. intros [y1 y2] (R1 & R2 & Ho). split; [|done]. split; by rewrite R1, R2.
  - cbn. by split; split.
Qed.
End XdlPrepare.
