(* ===== verification/XdlCompact.v ===== *)
(** * Sliding groups of changes (xdl_change_compact of xdiff/xdiffi.c)

    A group of marked lines that is followed by a copy of its first line can be
    slid down, and up if its last line is in front of it.  The code slides each
    group of one file up and down as far as it goes, merging groups that touch,
    and then picks a place for it; a second group pointer walks along in the
    other file.  The result: the lines that stay unmarked do not change, the
    loops end and the [BUG] branches are never taken. *)
From stdpp Require Import prelude.
From S2P Require Import Prelude XdlUtils XdlSplit XdlDiff XdlPrepare.
Import XdlUtils XdlDiff XdlPrepare.

Module XdlCompact.

Definition MAX_INDENT : Z := 200.
Definition MAX_BLANKS : Z := 20.
Definition START_OF_FILE_PENALTY : Z := 1.
Definition END_OF_FILE_PENALTY : Z := 21.
Definition TOTAL_BLANK_WEIGHT : Z := -30.
Definition POST_BLANK_WEIGHT : Z := 6.
Definition RELATIVE_INDENT_PENALTY : Z := -4.
Definition RELATIVE_INDENT_WITH_BLANK_PENALTY : Z := 10.
Definition RELATIVE_OUTDENT_PENALTY : Z := 24.
Definition RELATIVE_OUTDENT_WITH_BLANK_PENALTY : Z := 17.
Definition RELATIVE_DEDENT_PENALTY : Z := 23.
Definition RELATIVE_DEDENT_WITH_BLANK_PENALTY : Z := 17.
Definition INDENT_WEIGHT : Z := 60.
Definition INDENT_HEURISTIC_MAX_SLIDING : Z := 100.

Definition recs_match (r1 r2 : xrecord_t) : bool := rha r1 =? rha r2.

(** ** The score of a split *)
Fixpoint indent_loop (l : list Z) (ret : Z) : Z :=
  match l with
  | [] => -1
  | c :: l =>
      if negb (XDL_ISSPACE c) then ret
      else
        let ret := if c =? 32 then ret + 1 else if c =? 9 then ret + (8 - ret mod 8) else ret in
        if MAX_INDENT <=? ret then MAX_INDENT else indent_loop l ret
  end.
Definition get_indent (rec : xrecord_t) : Z := indent_loop (line rec) 0.

Record split_measurement := Measure
  { end_of_file : bool; indent : Z; pre_blank : Z; pre_indent : Z; post_blank : Z; post_indent : Z }.
Record split_score := Score { effective_indent : Z; penalty : Z }.

(** The two loops of [measure_split], from [i] in the direction [step]: blank
    lines passed, and the indent of the line they end at. *)
Fixpoint blanks_loop (fuel : nat) (xdf : xdfile_t) (step i blank indent : Z) : outcome (Z * Z) :=
  match fuel with
  | O => NoFuel
  | S fuel =>
      if if step <? 0 then 0 <=? i else i <? nrec xdf then
        let! r := rd (recs xdf) i in
        let indent := get_indent r in
        if negb (indent =? -1) then Ret (blank, indent)
        else
          let blank := blank + 1 in
          if blank =? MAX_BLANKS then Ret (blank, 0) else blanks_loop fuel xdf step (i + step) blank indent
      else Ret (blank, indent)
  end.
Definition measure_split (xdf : xdfile_t) (split : Z) : outcome split_measurement :=
  let fuel := S (length (recs xdf)) in
  let! ind := if nrec xdf <=? split then Ret (-1) else let! r := rd (recs xdf) split in Ret (get_indent r) in
  let! (pre_b, pre_i) := blanks_loop fuel xdf (-1) (split - 1) 0 (-1) in
  let! (post_b, post_i) := blanks_loop fuel xdf 1 (split + 1) 0 (-1) in
  Ret (Measure (nrec xdf <=? split) ind pre_b pre_i post_b post_i).

Definition score_add_split (m : split_measurement) (s : split_score) : split_score :=
  let p := penalty s in
  let p := if (pre_indent m =? -1) && (pre_blank m =? 0) then p + START_OF_FILE_PENALTY else p in
  let p := if end_of_file m then p + END_OF_FILE_PENALTY else p in
  let post := if indent m =? -1 then 1 + post_blank m else 0 in
  let total_blank := pre_blank m + post in
  let p := p + TOTAL_BLANK_WEIGHT * total_blank in
  let p := p + POST_BLANK_WEIGHT * post in
  let ind := if negb (indent m =? -1) then indent m else post_indent m in
  let any_blanks := negb (total_blank =? 0) in
  let e := effective_indent s + ind in
  let p :=
    if ind =? -1 then p
    else if pre_indent m =? -1 then p
    else if pre_indent m <? ind then
      p + (if any_blanks then RELATIVE_INDENT_WITH_BLANK_PENALTY else RELATIVE_INDENT_PENALTY)
    else if ind =? pre_indent m then p
    else if negb (post_indent m =? -1) && (ind <? post_indent m) then
      p + (if any_blanks then RELATIVE_OUTDENT_WITH_BLANK_PENALTY else RELATIVE_OUTDENT_PENALTY)
    else p + (if any_blanks then RELATIVE_DEDENT_WITH_BLANK_PENALTY else RELATIVE_DEDENT_PENALTY) in
  Score e p.

Definition score_cmp (s1 s2 : split_score) : Z :=
  let cmp_indents := (if effective_indent s2 <? effective_indent s1 then 1 else 0) -
                     (if effective_indent s1 <? effective_indent s2 then 1 else 0) in
  INDENT_WEIGHT * cmp_indents + (penalty s1 - penalty s2).

(** ** Groups *)
Record xdlgroup := Group { start : Z; end_ : Z }.

(** [while (rchg[end]) end++;] and [while (rchg[start - 1]) start--;] *)
Fixpoint end_loop (fuel : nat) (rchg : list Z) (e : Z) : outcome Z :=
  match fuel with
  | O => NoFuel
  | S fuel => let! c := rd rchg (rchg_at e) in if c =? 0 then Ret e else end_loop fuel rchg (e + 1)
  end.
Fixpoint start_loop (fuel : nat) (rchg : list Z) (s : Z) : outcome Z :=
  match fuel with
  | O => NoFuel
  | S fuel => let! c := rd rchg (rchg_at (s - 1)) in if c =? 0 then Ret s else start_loop fuel rchg (s - 1)
  end.

Definition group_init (xdf : xdfile_t) : outcome xdlgroup :=
  let! e := end_loop (length (rchg xdf)) (rchg xdf) 0 in Ret (Group 0 e).
(** [None] is the return value -1. *)
Definition group_next (xdf : xdfile_t) (g : xdlgroup) : outcome (option xdlgroup) :=
  if end_ g =? nrec xdf then Ret None
  else
    let s := end_ g + 1 in
    let! e := end_loop (length (rchg xdf)) (rchg xdf) s in
    Ret (Some (Group s e)).
Definition group_previous (xdf : xdfile_t) (g : xdlgroup) : outcome (option xdlgroup) :=
  if start g =? 0 then Ret None
  else
    let e := start g - 1 in
    let! s := start_loop (length (rchg xdf)) (rchg xdf) e in
    Ret (Some (Group s e)).

Definition with_rchg (xdf : xdfile_t) (r : list Z) : xdfile_t :=
  Xdfile (nrec xdf) (recs xdf) (rhash xdf) (dstart xdf) (dend xdf) r (xrindex xdf) (xha xdf).

Definition group_slide_down (xdf : xdfile_t) (g : xdlgroup) : outcome (option (xdfile_t * xdlgroup)) :=
  if end_ g <? nrec xdf then
    let! r1 := rd (recs xdf) (start g) in
    let! r2 := rd (recs xdf) (end_ g) in
    if recs_match r1 r2 then
      let! r := wr (rchg xdf) (rchg_at (start g)) 0 in
      let! r := wr r (rchg_at (end_ g)) 1 in
      let! e := end_loop (length r) r (end_ g + 1) in
      Ret (Some (with_rchg xdf r, Group (start g + 1) e))
    else Ret None
  else Ret None.
Definition group_slide_up (xdf : xdfile_t) (g : xdlgroup) : outcome (option (xdfile_t * xdlgroup)) :=
  if 0 <? start g then
    let! r1 := rd (recs xdf) (start g - 1) in
    let! r2 := rd (recs xdf) (end_ g - 1) in
    if recs_match r1 r2 then
      let! r := wr (rchg xdf) (rchg_at (start g - 1)) 1 in
      let! r := wr r (rchg_at (end_ g - 1)) 0 in
      let! s := start_loop (length r) r (start g - 1) in
      Ret (Some (with_rchg xdf r, Group s (end_ g - 1)))
    else Ret None
  else Ret None.

(** ** Sliding a group

    The other file does not change; [go] walks in it. *)
Fixpoint up_loop (fuel : nat) (xdf : xdfile_t) (xdfo : xdfile_t) (g go : xdlgroup) : outcome (xdfile_t * xdlgroup * xdlgroup) :=
  match fuel with
  | O => NoFuel
  | S fuel =>
      let! r := group_slide_up xdf g in
      match r with
      | None => Ret (xdf, g, go)
      | Some (xdf, g) =>
          let! p := group_previous xdfo go in
          match p with None => Die | Some go => up_loop fuel xdf xdfo g go end
      end
  end.
Fixpoint down_loop (fuel : nat) (xdf : xdfile_t) (xdfo : xdfile_t) (g go : xdlgroup) (end_matching_other : Z)
  : outcome (xdfile_t * xdlgroup * xdlgroup * Z) :=
  match fuel with
  | O => NoFuel
  | S fuel =>
      let! r := group_slide_down xdf g in
      match r with
      | None => Ret (xdf, g, go, end_matching_other)
      | Some (xdf, g) =>
          let! p := group_next xdfo go in
          match p with
          | None => Die
          | Some go => down_loop fuel xdf xdfo g go (if start go <? end_ go then end_ g else end_matching_other)
          end
      end
  end.
(** [do ... while (groupsize != g.end - g.start)]; also the last values of
    [groupsize], [earliest_end] and [end_matching_other]. *)
Fixpoint shift_loop (fuel : nat) (xdf : xdfile_t) (xdfo : xdfile_t) (g go : xdlgroup)
  : outcome (xdfile_t * xdlgroup * xdlgroup * (Z * Z * Z)) :=
  match fuel with
  | O => NoFuel
  | S fuel =>
      let groupsize := end_ g - start g in
      let! (xdf, g, go) := up_loop (S (length (recs xdf))) xdf xdfo g go in
      let earliest_end := end_ g in
      let emo := if start go <? end_ go then end_ g else -1 in
      let! (xdf, g, go, emo) := down_loop (S (length (recs xdf))) xdf xdfo g go emo in
      if groupsize =? end_ g - start g then Ret (xdf, g, go, (groupsize, earliest_end, emo))
      else shift_loop fuel xdf xdfo g go
  end.

(** [while (go.end == go.start)]: back to the last place that lines up. *)
Fixpoint match_loop (fuel : nat) (xdf : xdfile_t) (xdfo : xdfile_t) (g go : xdlgroup) : outcome (xdfile_t * xdlgroup * xdlgroup) :=
  match fuel with
  | O => NoFuel
  | S fuel =>
      if end_ go =? start go then
        let! r := group_slide_up xdf g in
        match r with
        | None => Die
        | Some (xdf, g) =>
            let! p := group_previous xdfo go in
            match p with None => Die | Some go => match_loop fuel xdf xdfo g go end
        end
      else Ret (xdf, g, go)
  end.

(** The best of the places from [shift] to [g.end]. *)
Fixpoint best_loop (fuel : nat) (xdf : xdfile_t) (gend groupsize shift : Z) (best : option (Z * split_score)) : outcome (option (Z * split_score)) :=
  match fuel with
  | O => NoFuel
  | S fuel =>
      if shift <=? gend then
        let! m := measure_split xdf shift in
        let score := score_add_split m (Score 0 0) in
        let! m := measure_split xdf (shift - groupsize) in
        let score := score_add_split m score in
        let best := match best with
                    | Some (s, b) => if score_cmp score b <=? 0 then Some (shift, score) else best
                    | None => Some (shift, score)
                    end in
        best_loop fuel xdf gend groupsize (shift + 1) best
      else Ret best
  end.
(** [while (g.end > best_shift)] *)
Fixpoint back_loop (fuel : nat) (xdf : xdfile_t) (xdfo : xdfile_t) (g go : xdlgroup) (best_shift : Z) : outcome (xdfile_t * xdlgroup * xdlgroup) :=
  match fuel with
  | O => NoFuel
  | S fuel =>
      if best_shift <? end_ g then
        let! r := group_slide_up xdf g in
        match r with
        | None => Die
        | Some (xdf, g) =>
            let! p := group_previous xdfo go in
            match p with None => Die | Some go => back_loop fuel xdf xdfo g go best_shift end
        end
      else Ret (xdf, g, go)
  end.

Definition place_group (flags : Z) (xdf xdfo : xdfile_t) (g go : xdlgroup) (groupsize earliest_end emo : Z)
  : outcome (xdfile_t * xdlgroup * xdlgroup) :=
  let fuel := S (length (recs xdf)) in
  if end_ g =? earliest_end then Ret (xdf, g, go)
  else if negb (emo =? -1) then match_loop fuel xdf xdfo g go
  else if flag flags XDF_INDENT_HEURISTIC then
    let shift := earliest_end in
    let shift := if shift <? end_ g - groupsize - 1 then end_ g - groupsize - 1 else shift in
    let shift := if shift <? end_ g - INDENT_HEURISTIC_MAX_SLIDING then end_ g - INDENT_HEURISTIC_MAX_SLIDING else shift in
    let! best := best_loop fuel xdf (end_ g) groupsize shift None in
    back_loop fuel xdf xdfo g go (match best with Some (s, _) => s | None => -1 end)
  else Ret (xdf, g, go).

(** ** All groups: [while (1)] *)
Fixpoint compact_loop (fuel : nat) (flags : Z) (xdf xdfo : xdfile_t) (g go : xdlgroup) : outcome (xdfile_t * xdlgroup) :=
  match fuel with
  | O => NoFuel
  | S fuel =>
      let! (xdf, g, go) :=
        if end_ g =? start g then Ret (xdf, g, go)
        else
          let! (xdf, g, go, r) := shift_loop (S (length (recs xdf))) xdf xdfo g go in
          let '(groupsize, earliest_end, emo) := r in
          place_group flags xdf xdfo g go groupsize earliest_end emo in
      let! n := group_next xdf g in
      match n with
      | None => Ret (xdf, go)
      | Some g =>
          let! no := group_next xdfo go in
          match no with None => Die | Some go => compact_loop fuel flags xdf xdfo g go end
      end
  end.

Definition xdl_change_compact (xdf xdfo : xdfile_t) (flags : Z) : outcome xdfile_t :=
  let! g := group_init xdf in
  let! go := group_init xdfo in
  let n := S (S (length (recs xdf))) in
  let! (xdf, go) := compact_loop (n * n) flags xdf xdfo g go in
  let! n := group_next xdfo go in
  match n with None => Ret xdf | Some _ => Die end.

(** ** Counting unmarked lines *)
Abbreviation U xdf := (unmarked (rchg xdf)).
Definition ok (xdf : xdfile_t) : Prop := nrec xdf = zlen (recs xdf) ∧ clean_rchg (nrec xdf) (rchg xdf).
Definition rank_of (u : Z → bool) (i : Z) : Z := zlen (select u id 0 i).
Abbreviation rank xdf := (rank_of (U xdf)).
Definition kept_lines (xdf : xdfile_t) : list Z := select (U xdf) (cls (recs xdf)) 0 (nrec xdf).

Lemma rank_step u i : 0 <= i → rank_of u (i + 1) = rank_of u i + if u i then 1 else 0.
Proof.
  intros Hi. unfold rank_of. rewrite (select_app u id 0 i) by lia. rewrite select_one, zlen_app. by destruct (u i).
Qed.
Lemma rank_0 u : rank_of u 0 = 0.
Proof. unfold rank_of. by rewrite select_nil. Qed.
Lemma rank_split u i j : 0 <= i <= j → rank_of u j = rank_of u i + zlen (select u id i j).
Proof. intros H. unfold rank_of. rewrite (select_app u id 0 i) by lia. apply zlen_app. Qed.
Lemma rank_mono u i j : 0 <= i <= j → rank_of u i <= rank_of u j <= rank_of u i + (j - i).
Proof.
  intros H. rewrite (rank_split u i j) by done. zlen_pos. split; [lia|].
  enough (zlen (select u id i j) <= j - i) by lia. unfold select, zlen.
  assert (∀ l : list Z, (length (omap (λ j, if u j then Some (id j) else None) l) <= length l)%nat) as Hl.
  { induction l as [|x l IH]; [done|]. cbn in IH |- *. destruct (u x); cbn; lia. }
  specialize (Hl (seqZ i (j - i))). rewrite length_seqZ in Hl. lia.
Qed.
Lemma rank_marked u i j : 0 <= i <= j → (∀ k, i <= k < j → u k = false) → rank_of u j = rank_of u i.
Proof. intros H Hm. rewrite (rank_split u i j) by done. rewrite select_none by done. rewrite zlen_nil. lia. Qed.
Lemma rank_ext u u' i : (∀ k, 0 <= k < i → u k = u' k) → rank_of u i = rank_of u' i.
Proof. intros H. unfold rank_of. f_equal. apply select_ext. intros j Hj. by rewrite H. Qed.
Lemma zlen_select {A B} u (f : Z → A) (f' : Z → B) i j : zlen (select u f i j) = zlen (select u f' i j).
Proof.
  unfold select, zlen. f_equal. induction (seqZ i (j - i)) as [|x l IH]; [done|]. cbn in IH |- *. destruct (u x); cbn; lia.
Qed.
Lemma rank_kept xdf : rank xdf (nrec xdf) = zlen (kept_lines xdf).
Proof. apply zlen_select. Qed.

(** One mark moves from [b] to [a]. *)
Definition swapped (u u' : Z → bool) (n a b : Z) : Prop :=
  0 <= a < b ∧ b < n ∧ u a = true ∧ u' a = false ∧ u b = false ∧ u' b = true ∧
  (∀ j, a < j < b → u j = false ∧ u' j = false) ∧ (∀ j, 0 <= j < n → j < a ∨ b < j → u j = u' j).

Lemma select_swapped {A} (f : Z → A) u u' n a b : swapped u u' n a b → f a = f b → select u f 0 n = select u' f 0 n.
Proof.
  intros (Ha & Hb & Ua & Ua' & Ub & Ub' & Hmid & Hout) E.
  rewrite !(select_app _ f 0 a n) by lia. rewrite !(select_app _ f a (a + 1) n), !(select_app _ f (a + 1) b n), !(select_app _ f b (b + 1) n) by lia.
  rewrite !select_one, Ua, Ua', Ub, Ub'. rewrite (select_none u f (a + 1)), (select_none u' f (a + 1)) by (intros; apply Hmid; lia). cbn [app].
  rewrite (select_ext u u' f f 0 a) by (intros j Hj; split; [apply Hout; lia|done]).
  rewrite (select_ext u u' f f (b + 1) n) by (intros j Hj; split; [apply Hout; lia|done]). by rewrite E.
Qed.
Lemma swapped_rank u u' n a b i : swapped u u' n a b → 0 <= i <= n → i <= a ∨ b < i → rank_of u i = rank_of u' i.
Proof.
  intros Hs Hi [Hia|Hbi].
  - apply rank_ext. intros k Hk. apply Hs; lia.
  - unfold rank_of. rewrite (zlen_select u id (λ _, 0)), (zlen_select u' id (λ _, 0)). f_equal. apply (select_swapped _ _ _ _ a b); [|done].
    destruct Hs as (?&?&?&?&?&?&?&Hout). split_and!; try done; try lia. intros j ? ?. apply Hout; lia.
Qed.

(** ** Groups of marked lines *)
Lemma rd_mark n r i : clean_rchg n r → -1 <= i <= n → ∃ v, rd r (rchg_at i) = Ret v ∧ (v =? 0) = unmarked r i.
Proof.
  intros (Hz & Hb & _) Hi. destruct (znth_is_Some r (rchg_at i)) as [v Ev]; [unfold rchg_at; lia|]. exists v. split; [by apply rd_znth|].
  unfold unmarked. rewrite Ev. destruct (Z.eqb_spec v 0) as [->|]; symmetry; [by apply bool_decide_eq_true|apply bool_decide_eq_false; congruence].
Qed.
Lemma clean_ends n r : clean_rchg n r → unmarked r (-1) = true ∧ unmarked r n = true.
Proof. intros (_ & _ & H1 & H2). split; apply bool_decide_eq_true; done. Qed.

Lemma end_loop_wp n r : clean_rchg n r → ∀ fuel e, 0 <= e <= n → n - e < Z.of_nat fuel →
  returns (end_loop fuel r e) (λ e', e <= e' <= n ∧ (∀ k, e <= k < e' → unmarked r k = false) ∧ unmarked r e' = true).
Proof.
  intros Hc. induction fuel as [|fuel IH]; intros e He Hf; [lia|]. cbn [end_loop].
  destruct (rd_mark n r e) as (v & -> & Ev); [done|lia|]. cbn [obind]. rewrite Ev.
  destruct (unmarked r e) eqn:Eu; [split_and!; [lia|lia|lia|done]|].
  destruct (decide (e = n)) as [->|]; [destruct (clean_ends _ _ Hc); congruence|].
  eapply wp_mono; [|apply IH; lia]. intros e' (He' & Hm & Hu). split; [lia|]. split; [|done].
  intros k Hk. destruct (decide (k = e)) as [->|]; [done|apply Hm; lia].
Qed.
Lemma start_loop_wp n r : clean_rchg n r → ∀ fuel s, 0 <= s <= n → s < Z.of_nat fuel →
  returns (start_loop fuel r s) (λ s', 0 <= s' <= s ∧ (∀ k, s' <= k < s → unmarked r k = false) ∧ unmarked r (s' - 1) = true).
Proof.
  intros Hc. induction fuel as [|fuel IH]; intros s Hs Hf; [lia|]. cbn [start_loop].
  destruct (rd_mark n r (s - 1)) as (v & -> & Ev); [done|lia|]. cbn [obind]. rewrite Ev.
  destruct (unmarked r (s - 1)) eqn:Eu; [split_and!; [lia|lia|lia|done]|].
  destruct (decide (s = 0)) as [->|]; [replace (0 - 1) with (-1) in Eu by lia; destruct (clean_ends _ _ Hc); congruence|].
  eapply wp_mono; [|apply IH; lia]. intros s' (Hs' & Hm & Hu). split; [lia|]. split; [|done].
  intros k Hk. destruct (decide (k = s - 1)) as [->|]; [done|apply Hm; lia].
Qed.

Record is_group (u : Z → bool) (n : Z) (g : xdlgroup) : Prop := IsGroup {
  grp_le : 0 <= start g <= end_ g ∧ end_ g <= n;
  grp_in : ∀ k, start g <= k < end_ g → u k = false;
  grp_before : u (start g - 1) = true;
  grp_after : u (end_ g) = true
}.

Lemma group_rank u n g : is_group u n g → rank_of u (end_ g) = rank_of u (start g).
Proof. intros Hg. destruct (grp_le _ _ _ Hg). apply rank_marked; [lia|]. apply (grp_in _ _ _ Hg). Qed.
(** The position of a group, counted in unmarked lines. *)
Lemma group_first u n g : is_group u n g → (start g = 0 ↔ rank_of u (start g) = 0).
Proof.
  intros Hg. destruct (grp_le _ _ _ Hg). split; [intros ->; apply rank_0|]. intros E. destruct (decide (start g = 0)); [done|].
  pose proof (rank_step u (start g - 1)) as Hs. rewrite (grp_before _ _ _ Hg) in Hs. pose proof (rank_mono u 0 (start g - 1)). rewrite rank_0 in *.
  replace (start g - 1 + 1) with (start g) in Hs by lia. lia.
Qed.
Lemma group_last u n g : is_group u n g → (end_ g = n ↔ rank_of u (start g) = rank_of u n).
Proof.
  intros Hg. destruct (grp_le _ _ _ Hg). rewrite <- (group_rank _ _ _ Hg). split; [by intros ->|]. intros E. destruct (decide (end_ g = n)); [done|].
  pose proof (rank_step u (end_ g)) as Hs. rewrite (grp_after _ _ _ Hg) in Hs. pose proof (rank_mono u (end_ g + 1) n). lia.
Qed.

Section groups.
Context (xdf : xdfile_t) (Hok : ok xdf).

Lemma ok_fuel : Z.of_nat (length (rchg xdf)) = nrec xdf + 2 ∧ 0 <= nrec xdf.
Proof. destruct Hok as [En (Hz & _)]. pose proof (zlen_nonneg (recs xdf)). unfold zlen in *. lia. Qed.

Lemma group_init_wp : returns (group_init xdf) (λ g, is_group (U xdf) (nrec xdf) g ∧ start g = 0).
Proof.
  destruct ok_fuel, Hok as [_ Hc]. unfold group_init. apply wp_bind. eapply wp_mono; [|apply (end_loop_wp (nrec xdf)); [done|lia|lia]].
  intros e (He & Hm & Hu). cbn. split; [|done]. split; cbn; [lia|done|by apply (clean_ends (nrec xdf))|done].
Qed.
Lemma group_next_wp g : is_group (U xdf) (nrec xdf) g → returns (group_next xdf g) (λ r, match r with
  | None => end_ g = nrec xdf
  | Some g' => is_group (U xdf) (nrec xdf) g' ∧ end_ g < nrec xdf ∧ start g' = end_ g + 1 ∧ rank xdf (start g') = rank xdf (start g) + 1 end).
Proof.
  intros Hg. destruct ok_fuel, Hok as [_ Hc], (grp_le _ _ _ Hg). unfold group_next. destruct (Z.eqb_spec (end_ g) (nrec xdf)); [done|].
  apply wp_bind. eapply wp_mono; [|apply (end_loop_wp (nrec xdf)); [done|lia|lia]].
  intros e (He & Hm & Hu). cbn. rewrite rank_step, (grp_after _ _ _ Hg), (group_rank _ _ _ Hg) by lia. split_and!; try done; try lia.
  split; cbn; [lia|done| |done]. replace (end_ g + 1 - 1) with (end_ g) by lia. apply (grp_after _ _ _ Hg).
Qed.
Lemma group_previous_wp g : is_group (U xdf) (nrec xdf) g → returns (group_previous xdf g) (λ r, match r with
  | None => start g = 0
  | Some g' => is_group (U xdf) (nrec xdf) g' ∧ 0 < start g ∧ end_ g' = start g - 1 ∧ rank xdf (start g') = rank xdf (start g) - 1 end).
Proof.
  intros Hg. destruct ok_fuel, Hok as [_ Hc], (grp_le _ _ _ Hg). unfold group_previous. destruct (Z.eqb_spec (start g) 0); [done|].
  apply wp_bind. eapply wp_mono; [|apply (start_loop_wp (nrec xdf)); [done|lia|lia]].
  intros s (Hs & Hm & Hu). cbn. assert (is_group (U xdf) (nrec xdf) (Group s (start g - 1))) as Hg'.
  { split; cbn; [lia|done|done|apply (grp_before _ _ _ Hg)]. }
  split_and!; try done; try lia. pose proof (group_rank _ _ _ Hg') as E. cbn in E. rewrite <- E.
  pose proof (rank_step (U xdf) (start g - 1)) as E'. rewrite (grp_before _ _ _ Hg) in E'. replace (start g - 1 + 1) with (start g) in E' by lia. lia.
Qed.
End groups.

(** ** Sliding by one line *)
Definition like (xdf xdf' : xdfile_t) : Prop :=
  ok xdf' ∧ recs xdf' = recs xdf ∧ nrec xdf' = nrec xdf ∧ kept_lines xdf' = kept_lines xdf.
Lemma like_refl xdf : ok xdf → like xdf xdf.
Proof. intros H. unfold like. by split_and!. Qed.
Lemma like_trans x y z : like x y → like y z → like x z.
Proof. intros (? & ? & ? & ?) (? & ? & ? & ?). unfold like. split_and!; congruence. Qed.
Lemma like_total x y : like x y → rank y (nrec y) = rank x (nrec x).
Proof. intros (_ & _ & _ & E). by rewrite !rank_kept, E. Qed.

Section swap.
Context (xdf : xdfile_t) (Hok : ok xdf).

Lemma two_marks a b va vb : 0 <= a < nrec xdf → 0 <= b < nrec xdf → a ≠ b → va = 0 ∨ va = 1 → vb = 0 ∨ vb = 1 →
  returns (let! r := wr (rchg xdf) (rchg_at a) va in wr r (rchg_at b) vb) (λ r, clean_rchg (nrec xdf) r ∧
    unmarked r a = (va =? 0) ∧ unmarked r b = (vb =? 0) ∧ ∀ j, j ≠ a → j ≠ b → -1 <= j <= nrec xdf → unmarked r j = U xdf j).
Proof.
  intros Ha Hb Hab Hva Hvb. destruct Hok as [_ Hc]. pose proof Hc as (Hz & _).
  rewrite wr_ok by (unfold rchg_at; lia). cbn [obind]. rewrite wr_ok by (rewrite zlen_insert; unfold rchg_at; lia). cbn.
  split_and!.
  - by apply clean_insert; [apply clean_insert| |].
  - rewrite !unmarked_insert by (rewrite ?zlen_insert; unfold rchg_at; lia). destruct (Z.eqb_spec a b), (Z.eqb_spec a a); done || lia.
  - rewrite !unmarked_insert by (rewrite ?zlen_insert; unfold rchg_at; lia). destruct (Z.eqb_spec b b); done || lia.
  - intros j Hja Hjb Hj. unfold unmarked. rewrite !znth_insert_ne by (unfold rchg_at; lia). done.
Qed.

Lemma swap_like xdf' a b : ok xdf' → recs xdf' = recs xdf → nrec xdf' = nrec xdf →
  swapped (U xdf) (U xdf') (nrec xdf) a b ∨ swapped (U xdf') (U xdf) (nrec xdf) a b → cls (recs xdf) a = cls (recs xdf) b → like xdf xdf'.
Proof.
  intros Hok' Er En Hs E. split_and!; try done. unfold kept_lines. rewrite Er, En.
  destruct Hs as [Hs|Hs]; [symmetry|]; by apply (select_swapped _ _ _ _ a b).
Qed.

Lemma recs_match_cls i j : 0 <= i < nrec xdf → 0 <= j < nrec xdf →
  ∃ r1 r2, rd (recs xdf) i = Ret r1 ∧ rd (recs xdf) j = Ret r2 ∧ recs_match r1 r2 = (cls (recs xdf) i =? cls (recs xdf) j).
Proof.
  destruct Hok as [En _]. intros Hi Hj. destruct (cls_rd (recs xdf) i) as (r1 & ? & -> & _); [lia|].
  destruct (cls_rd (recs xdf) j) as (r2 & ? & -> & _); [lia|]. by exists r1, r2.
Qed.

Lemma slide_up_wp g : is_group (U xdf) (nrec xdf) g → start g < end_ g → returns (group_slide_up xdf g) (λ r, match r with
  | None => start g = 0 ∨ cls (recs xdf) (start g - 1) ≠ cls (recs xdf) (end_ g - 1)
  | Some (xdf', g') => like xdf xdf' ∧ is_group (U xdf') (nrec xdf) g' ∧ end_ g' = end_ g - 1 ∧ start g' <= start g - 1 ∧
      rank xdf' (start g') = rank xdf (start g) - 1 ∧ swapped (U xdf) (U xdf') (nrec xdf) (start g - 1) (end_ g - 1) end).
Proof.
  intros Hg Hne. destruct (grp_le _ _ _ Hg). unfold group_slide_up. destruct (Z.ltb_spec 0 (start g)); [|left; lia].
  destruct (recs_match_cls (start g - 1) (end_ g - 1)) as (r1 & r2 & -> & -> & Em); [lia|lia|]. cbn [obind]. rewrite Em.
  destruct (Z.eqb_spec (cls (recs xdf) (start g - 1)) (cls (recs xdf) (end_ g - 1))) as [E|]; [|by right].
  pose proof (two_marks (start g - 1) (end_ g - 1) 1 0) as Ht. apply returns_eq in Ht as (r & Er & Hc & Ha & Hb & Ho); [|lia..].
  destruct (wr (rchg xdf) (rchg_at (start g - 1)) 1) as [r'| | |]; try done. cbn [obind] in Er |- *. rewrite Er. cbn [obind].
  assert (zlen r = nrec xdf + 2) as Hz by apply Hc. unfold zlen in Hz.
  apply wp_bind. eapply wp_mono; [|apply (start_loop_wp (nrec xdf)); [done|lia|lia]]. intros s (Hs & Hm & Hu). cbn [wp].
  assert (swapped (U xdf) (unmarked r) (nrec xdf) (start g - 1) (end_ g - 1)) as Hsw.
  { split_and!; try lia; try done.
    - apply (grp_before _ _ _ Hg).
    - apply (grp_in _ _ _ Hg). lia.
    - intros j Hj. rewrite Ho by lia. split; apply (grp_in _ _ _ Hg); lia.
    - intros j Hj Hj'. symmetry. apply Ho; lia. }
  assert (is_group (unmarked r) (nrec xdf) (Group s (end_ g - 1))) as Hg'.
  { split; cbn; [lia| |done|done]. intros k Hk. destruct (decide (k < start g - 1)); [apply Hm; lia|].
    destruct (decide (k = start g - 1)) as [->|]; [done|]. rewrite Ho by lia. apply (grp_in _ _ _ Hg). lia. }
  split_and!; cbn [start end_ with_rchg XdlPrepare.rchg]; try done; try lia.
  - apply (swap_like _ (start g - 1) (end_ g - 1)); [by split; [apply Hok|]|done|done|by left|done].
  - pose proof (group_rank _ _ _ Hg') as E1. pose proof (group_rank _ _ _ Hg) as E2. cbn in E1. rewrite <- E1, <- E2.
    rewrite (swapped_rank _ _ _ _ _ (end_ g) Hsw) by lia. pose proof (rank_step (unmarked r) (end_ g - 1)) as E3. rewrite Hb in E3.
    replace (end_ g - 1 + 1) with (end_ g) in E3 by lia. cbn in E3. lia.
Qed.

Lemma slide_down_wp g : is_group (U xdf) (nrec xdf) g → start g < end_ g → returns (group_slide_down xdf g) (λ r, match r with
  | None => True
  | Some (xdf', g') => like xdf xdf' ∧ is_group (U xdf') (nrec xdf) g' ∧ end_ g < nrec xdf ∧ start g' = start g + 1 ∧ end_ g + 1 <= end_ g' ∧
      rank xdf' (start g') = rank xdf (start g) + 1 ∧ swapped (U xdf') (U xdf) (nrec xdf) (start g) (end_ g) ∧ cls (recs xdf) (start g) = cls (recs xdf) (end_ g) end).
Proof.
  intros Hg Hne. destruct (grp_le _ _ _ Hg). unfold group_slide_down. destruct (Z.ltb_spec (end_ g) (nrec xdf)); [|done].
  destruct (recs_match_cls (start g) (end_ g)) as (r1 & r2 & -> & -> & Em); [lia|lia|]. cbn [obind]. rewrite Em.
  destruct (Z.eqb_spec (cls (recs xdf) (start g)) (cls (recs xdf) (end_ g))) as [E|]; [|done].
  pose proof (two_marks (start g) (end_ g) 0 1) as Ht. apply returns_eq in Ht as (r & Er & Hc & Ha & Hb & Ho); [|lia..].
  destruct (wr (rchg xdf) (rchg_at (start g)) 0) as [r'| | |]; try done. cbn [obind] in Er |- *. rewrite Er. cbn [obind].
  assert (zlen r = nrec xdf + 2) as Hz by apply Hc. unfold zlen in Hz.
  apply wp_bind. eapply wp_mono; [|apply (end_loop_wp (nrec xdf)); [done|lia|lia]]. intros e (He & Hm & Hu). cbn [wp].
  assert (swapped (unmarked r) (U xdf) (nrec xdf) (start g) (end_ g)) as Hsw.
  { split_and!; try lia; try done.
    - apply (grp_in _ _ _ Hg). lia.
    - apply (grp_after _ _ _ Hg).
    - intros j Hj. rewrite Ho by lia. split; apply (grp_in _ _ _ Hg); lia.
    - intros j Hj Hj'. apply Ho; lia. }
  assert (is_group (unmarked r) (nrec xdf) (Group (start g + 1) e)) as Hg'.
  { split; cbn; [lia| |by replace (start g + 1 - 1) with (start g) by lia|done]. intros k Hk. destruct (decide (k < end_ g)); [|].
    - rewrite Ho by lia. apply (grp_in _ _ _ Hg). lia.
    - destruct (decide (k = end_ g)) as [->|]; [done|apply Hm; lia]. }
  split_and!; cbn [start end_ with_rchg XdlPrepare.rchg]; try done; try lia.
  - apply (swap_like _ (start g) (end_ g)); [by split; [apply Hok|]|done|done|by right|done].
  - rewrite rank_step, Ha by lia. rewrite (swapped_rank _ _ _ _ _ (start g) Hsw) by lia. done.
Qed.
End swap.


(** ** The two files in step *)
Section sliding.
Context (xdfo : xdfile_t) (Hoko : ok xdfo).

Record synced (xdf : xdfile_t) (g go : xdlgroup) : Prop := Synced {
  sync_ok : ok xdf;
  sync_g : is_group (U xdf) (nrec xdf) g;
  sync_go : is_group (U xdfo) (nrec xdfo) go;
  sync_rank : rank xdf (start g) = rank xdfo (start go);
  sync_total : rank xdf (nrec xdf) = rank xdfo (nrec xdfo)
}.
(** The marked lines behind a group (up to the total number of unmarked ones). *)
Definition behind (xdf : xdfile_t) (g : xdlgroup) : Z := nrec xdf - end_ g + rank xdf (start g).
Abbreviation size g := (end_ g - start g).

Lemma sync_next xdf g go xdf' g' : synced xdf g go → like xdf xdf' → is_group (U xdf') (nrec xdf) g' → rank xdf' (start g') = rank xdf (start g) + 1 →
  returns (group_next xdfo go) (λ p, ∃ go', p = Some go' ∧ synced xdf' g' go').
Proof.
  intros [Hok Hg Hgo Er Et] Hl Hg' Er'. pose proof (like_total _ _ Hl) as Et'. pose proof Hl as (Hok' & _ & En & _).
  eapply wp_mono; [|by apply group_next_wp]. intros [go'|] Hn; cbn beta iota in Hn.
  - destruct Hn as (Hgo' & _ & _ & Ero). exists go'. split; [done|]. split; try done; [by rewrite En|lia|lia].
  - exfalso. apply (group_last _ _ _ Hgo) in Hn. destruct (grp_le _ _ _ Hg') as [??]. rewrite En in Et'.
    pose proof (rank_mono (U xdf') (start g') (nrec xdf)). lia.
Qed.
Lemma sync_previous xdf g go xdf' g' : synced xdf g go → like xdf xdf' → is_group (U xdf') (nrec xdf) g' → rank xdf' (start g') = rank xdf (start g) - 1 →
  returns (group_previous xdfo go) (λ p, ∃ go', p = Some go' ∧ synced xdf' g' go').
Proof.
  intros [Hok Hg Hgo Er Et] Hl Hg' Er'. pose proof (like_total _ _ Hl) as Et'. pose proof Hl as (Hok' & _ & En & _).
  eapply wp_mono; [|by apply group_previous_wp]. intros [go'|] Hn; cbn beta iota in Hn.
  - destruct Hn as (Hgo' & _ & _ & Ero). exists go'. split; [done|]. split; try done; [by rewrite En|lia|lia].
  - exfalso. apply (group_first _ _ _ Hgo) in Hn. destruct (grp_le _ _ _ Hg') as [??].
    pose proof (rank_mono (U xdf') 0 (start g')) as Hm. rewrite rank_0 in Hm. lia.
Qed.

Lemma up_loop_wp fuel : ∀ xdf g go, synced xdf g go → start g < end_ g → end_ g < Z.of_nat fuel →
  returns (up_loop fuel xdf xdfo g go) (λ '(xdf', g', go'), like xdf xdf' ∧ synced xdf' g' go' ∧ size g <= size g' ∧ behind xdf' g' = behind xdf g).
Proof.
  induction fuel as [|fuel IH]; intros xdf g go Hs Hne Hf.
  { destruct Hs as [_ [? _ _ _] _ _ _]. lia. }
  cbn [up_loop]. apply wp_bind. pose proof Hs as [Hok Hg _ _ _]. eapply wp_mono; [|by apply slide_up_wp].
  intros [[xdf1 g1]|] Hr; cbn beta iota in Hr; [|split_and!; [by apply like_refl|done|lia|done]].
  destruct Hr as (Hl & Hg1 & Ee & Hst & Er & _). apply wp_bind. eapply wp_mono; [|by eapply sync_previous].
  intros p (go1 & -> & Hs1). eapply wp_mono; [|apply IH; [done|lia|lia]]. intros [[xdf2 g2] go2] (Hl2 & Hs2 & Hsz & Hb).
  split_and!; [by eapply like_trans|done|lia|]. destruct Hl as (_ & _ & En & _). unfold behind in *. lia.
Qed.

(** A marked line of the other file with [r] unmarked ones in front. *)
Definition busy (r : Z) : Prop := ∃ k, 0 <= k < nrec xdfo ∧ U xdfo k = false ∧ rank xdfo k = r.
Lemma busy_group go : is_group (U xdfo) (nrec xdfo) go → start go < end_ go → busy (rank xdfo (start go)).
Proof. intros Hg H. destruct (grp_le _ _ _ Hg). exists (start go). split_and!; try done; try lia. apply (grp_in _ _ _ Hg). lia. Qed.
Lemma idle_group go : is_group (U xdfo) (nrec xdfo) go → end_ go = start go → ¬ busy (rank xdfo (start go)).
Proof.
  intros Hg E (k & Hk & Hm & Er). destruct (grp_le _ _ _ Hg), (decide (k = start go)) as [->|].
  { rewrite <- E in Hm. rewrite (grp_after _ _ _ Hg) in Hm. done. }
  destruct (decide (k < start go)).
  - pose proof (rank_step (U xdfo) (start go - 1)) as E'. rewrite (grp_before _ _ _ Hg) in E'. replace (start go - 1 + 1) with (start go) in E' by lia.
    pose proof (rank_mono (U xdfo) k (start go - 1)). lia.
  - pose proof (rank_step (U xdfo) (start go)) as E'. pose proof (grp_after _ _ _ Hg) as Ha. rewrite E in Ha. rewrite Ha in E'.
    pose proof (rank_mono (U xdfo) (start go + 1) k). lia.
Qed.

(** The way back: a group of [G] lines that ended at [lo] with [r] unmarked
    lines in front, and has been slid down line by line since. *)
Record track (lo r G : Z) (xdf : xdfile_t) (g : xdlgroup) : Prop := Track {
  tr_lo : G <= lo <= end_ g ∧ size g = G ∧ 0 < G;
  tr_free : ∀ t, lo <= t < end_ g → cls (recs xdf) (t - G) = cls (recs xdf) t ∧ U xdf (t - G) = true;
  tr_stop : U xdf (lo - G - 1) = true;
  tr_rank : rank xdf (start g) = r + (end_ g - lo)
}.

Lemma track_here xdf g : is_group (U xdf) (nrec xdf) g → start g < end_ g → track (end_ g) (rank xdf (start g)) (size g) xdf g.
Proof.
  intros Hg Hne. destruct (grp_le _ _ _ Hg). split; [lia|intros; lia| |lia].
  replace (end_ g - size g - 1) with (start g - 1) by lia. apply (grp_before _ _ _ Hg).
Qed.
Lemma track_down lo r G xdf g xdf' g' : track lo r G xdf g → ok xdf' → recs xdf' = recs xdf → swapped (U xdf') (U xdf) (nrec xdf) (start g) (end_ g) →
  cls (recs xdf) (start g) = cls (recs xdf) (end_ g) → start g' = start g + 1 → size g' = G → rank xdf' (start g') = rank xdf (start g) + 1 → track lo r G xdf' g'.
Proof.
  intros [Hlo Hfree Hstop Hr] Hok' Er Hs E Es Eg Hr'. pose proof Hs as (? & ? & ? & _ & _ & _ & _ & Hout). split; [lia| | |lia].
  - intros t Ht. rewrite Er. destruct (decide (t = end_ g)) as [->|].
    + replace (end_ g - G) with (start g) by lia. done.
    + destruct (Hfree t); [lia|]. split; [done|]. rewrite Hout by lia. done.
  - destruct (decide (lo - G - 1 < 0)); [|by rewrite Hout by lia]. replace (lo - G - 1) with (-1) by lia. destruct Hok' as [_ Hc]. by apply (clean_ends _ _ Hc).
Qed.

Lemma down_loop_wp lo r G fuel : ∀ xdf g go emo, synced xdf g go → 0 < G <= size g → nrec xdf - end_ g < Z.of_nat fuel →
  (size g = G → track lo r G xdf g) → (emo ≠ -1 → ∃ q, r <= q <= rank xdf (start g) ∧ busy q) → r <= rank xdf (start g) + 1 →
  returns (down_loop fuel xdf xdfo g go emo) (λ '(xdf', g', go', emo'), like xdf xdf' ∧ synced xdf' g' go' ∧ size g <= size g' ∧ behind xdf' g' <= behind xdf g ∧
    (size g' = G → track lo r G xdf' g') ∧ (emo' ≠ -1 → ∃ q, r <= q <= rank xdf' (start g') ∧ busy q)).
Proof.
  induction fuel as [|fuel IH]; intros xdf g go emo Hs HG Hf Htr Hemo Hr.
  { destruct Hs as [_ [? _ _ _] _ _ _]. lia. }
  cbn [down_loop]. apply wp_bind. pose proof Hs as [Hok Hg _ _ _]. eapply wp_mono; [|apply slide_down_wp; [done|done|lia]].
  intros [[xdf1 g1]|] H1; cbn beta iota in H1; [|split_and!; [by apply like_refl|done|lia|lia|done|done]].
  destruct H1 as (Hl & Hg1 & Hen & Est & Hend & Er & Hsw & Ec). pose proof Hl as (Hok1 & Erec & En & _).
  apply wp_bind. eapply wp_mono; [|by eapply sync_next]. intros p (go1 & -> & Hs1).
  eapply wp_mono; [|apply IH; [done|lia|lia| | |lia]].
  - intros [[[xdf2 g2] go2] emo2] (Hl2 & Hs2 & Hsz & Hb & Ht2 & He2). split_and!; [by eapply like_trans|done|lia| |done|done].
    unfold behind in *. lia.
  - intros E1. assert (size g = G) as E0 by lia. apply (track_down _ _ _ xdf g); try done. by apply Htr.
  - destruct (Z.ltb_spec (start go1) (end_ go1)) as [Hb|]; intros He.
    + exists (rank xdf1 (start g1)). split; [lia|]. rewrite (sync_rank _ _ _ Hs1). apply busy_group; [apply Hs1|done].
    + destruct (Hemo He) as (q & ? & ?). exists q. split; [lia|done].
Qed.

(** Under [track] a slide up succeeds and does not merge. *)
Lemma track_up lo r G xdf g go : synced xdf g go → track lo r G xdf g → lo < end_ g →
  returns (group_slide_up xdf g) (λ res, ∃ xdf' g', res = Some (xdf', g') ∧ like xdf xdf' ∧ is_group (U xdf') (nrec xdf) g' ∧
    rank xdf' (start g') = rank xdf (start g) - 1 ∧ end_ g' = end_ g - 1 ∧ track lo r G xdf' g').
Proof.
  intros Hs [Hlo Hfree Hstop Hr] Hlt. pose proof Hs as [Hok Hg _ _ _]. eapply wp_mono; [|apply slide_up_wp; [done|done|lia]].
  intros [[xdf1 g1]|] H1; cbn beta iota in H1.
  2: { exfalso. destruct (Hfree (end_ g - 1)) as [E _]; [lia|]. replace (end_ g - 1 - G) with (start g - 1) in E by lia. destruct H1; [lia|done]. }
  destruct H1 as (Hl & Hg1 & Ee & Hst & Er & Hsw). pose proof Hl as ((_ & Hc1) & Erec & En & _). exists xdf1, g1. split_and!; try done.
  pose proof Hsw as (_ & _ & _ & _ & _ & _ & _ & Hout). destruct (grp_le _ _ _ Hg1), (grp_le _ _ _ Hg).
  assert (∀ j, -1 <= j < start g - 1 → U xdf1 j = U xdf j) as Hsame.
  { intros j Hj. destruct (decide (j = -1)) as [->|]; [|symmetry; apply Hout; lia].
    destruct (clean_ends _ _ Hc1) as [-> _], Hok as [_ Hc]. by destruct (clean_ends _ _ Hc) as [-> _]. }
  assert (start g1 = start g - 1) as Est.
  { destruct (decide (start g1 = start g - 1)); [done|exfalso]. pose proof (grp_in _ _ _ Hg1 (start g - 2)) as Hm. rewrite Hsame in Hm by lia.
    destruct (decide (end_ g - 1 = lo)).
    - replace (lo - G - 1) with (start g - 2) in Hstop by lia. rewrite Hm in Hstop by lia. done.
    - destruct (Hfree (end_ g - 2)) as [_ Hu]; [lia|]. replace (end_ g - 2 - G) with (start g - 2) in Hu by lia. rewrite Hm in Hu by lia. done. }
  split; [lia| | |lia].
  - intros t Ht. rewrite Erec, Hsame by lia. apply Hfree. lia.
  - by rewrite Hsame by lia.
Qed.

Lemma back_loop_wp lo r G best fuel : lo <= best → ∀ xdf g go, synced xdf g go → track lo r G xdf g → end_ g < Z.of_nat fuel →
  returns (back_loop fuel xdf xdfo g go best) (λ '(xdf', g', go'), like xdf xdf' ∧ synced xdf' g' go' ∧ behind xdf' g' = behind xdf g).
Proof.
  intros Hbest. induction fuel as [|fuel IH]; intros xdf g go Hs Ht Hf.
  { destruct Hs as [_ [? _ _ _] _ _ _]. lia. }
  cbn [back_loop]. destruct (Z.ltb_spec best (end_ g)); [|split_and!; [by apply like_refl, Hs|done|done]].
  apply wp_bind. eapply wp_mono; [|eapply track_up; [done|done|lia]]. intros res (xdf1 & g1 & -> & Hl & Hg1 & Er & Ee & Ht1).
  apply wp_bind. eapply wp_mono; [|by eapply sync_previous]. intros p (go1 & -> & Hs1).
  eapply wp_mono; [|apply IH; [done|done|lia]]. intros [[xdf2 g2] go2] (Hl2 & Hs2 & Hb). split_and!; [by eapply like_trans|done|].
  destruct Hl as (_ & _ & En & _). unfold behind in *. lia.
Qed.

Lemma match_loop_wp lo r G q fuel : busy q → r <= q → ∀ xdf g go, synced xdf g go → track lo r G xdf g → q <= rank xdf (start g) → end_ g < Z.of_nat fuel →
  returns (match_loop fuel xdf xdfo g go) (λ '(xdf', g', go'), like xdf xdf' ∧ synced xdf' g' go' ∧ behind xdf' g' = behind xdf g).
Proof.
  intros Hbusy Hq. induction fuel as [|fuel IH]; intros xdf g go Hs Ht Hle Hf.
  { destruct Hs as [_ [? _ _ _] _ _ _]. lia. }
  cbn [match_loop]. destruct (Z.eqb_spec (end_ go) (start go)) as [E|]; [|split_and!; [by apply like_refl, Hs|done|done]].
  assert (q ≠ rank xdf (start g)) as Hne.
  { intros ->. rewrite (sync_rank _ _ _ Hs) in Hbusy. by apply (idle_group go (sync_go _ _ _ Hs)). }
  pose proof (tr_rank _ _ _ _ _ Ht). apply wp_bind. eapply wp_mono; [|eapply track_up; [done|done|lia]]. intros res (xdf1 & g1 & -> & Hl & Hg1 & Er & Ee & Ht1).
  apply wp_bind. eapply wp_mono; [|by eapply sync_previous]. intros p (go1 & -> & Hs1).
  eapply wp_mono; [|apply IH; [done|done|lia|lia]]. intros [[xdf2 g2] go2] (Hl2 & Hs2 & Hb). split_and!; [by eapply like_trans|done|].
  destruct Hl as (_ & _ & En & _). unfold behind in *. lia.
Qed.

(** ** Scores *)
Lemma blanks_loop_wp xdf step fuel : ok xdf → step = 1 ∨ step = -1 → ∀ i blank ind, -1 <= i <= nrec xdf + 1 → (step = 1 → 0 <= i) → (step = -1 → i < nrec xdf) →
  Z.max 0 (if step <? 0 then i + 1 else nrec xdf - i) < Z.of_nat fuel → returns (blanks_loop fuel xdf step i blank ind) (λ _, True).
Proof.
  intros [En _] Hstep. induction fuel as [|fuel IH]; intros i blank ind Hi H1 H2 Hf.
  { lia. }
  cbn [blanks_loop]. destruct (if step <? 0 then 0 <=? i else i <? nrec xdf) eqn:Ec; [|done].
  assert (0 <= i < nrec xdf) as Hin by (destruct (Z.ltb_spec step 0); [apply Z.leb_le in Ec|apply Z.ltb_lt in Ec]; lia).
  apply wp_bind, rd_wp; [lia|]. intros rec _. destruct (negb (get_indent rec =? -1)); [done|]. destruct (blank + 1 =? MAX_BLANKS); [done|].
  apply IH; try lia. destruct (Z.ltb_spec step 0); lia.
Qed.
Lemma measure_split_wp xdf split : ok xdf → 0 <= split <= nrec xdf → returns (measure_split xdf split) (λ _, True).
Proof.
  intros Hok Hsp. pose proof Hok as [En _]. unfold zlen in En. unfold measure_split. apply wp_bind, (wp_mono _ _ (λ _, True)).
  2: { destruct (Z.leb_spec (nrec xdf) split); [done|]. apply wp_bind, rd_wp; [unfold zlen; lia|]. done. }
  intros ind _. apply wp_bind. eapply wp_mono; [|apply blanks_loop_wp; [done|by right|lia..|cbn; lia]]. intros [pb pi] _.
  apply wp_bind. eapply wp_mono; [|apply blanks_loop_wp; [done|by left|lia..|cbn; lia]]. by intros [].
Qed.

Lemma best_loop_wp xdf gend G lo fuel : ok xdf → gend <= nrec xdf → ∀ shift best, lo <= shift → G <= shift → 0 <= G → Z.max 0 (gend - shift + 1) < Z.of_nat fuel →
  (∀ s b, best = Some (s, b) → lo <= s) → (best = None → shift <= gend) →
  returns (best_loop fuel xdf gend G shift best) (λ res, ∃ s b, res = Some (s, b) ∧ lo <= s).
Proof.
  intros Hok Hge. induction fuel as [|fuel IH]; intros shift best Hlo HG Hp Hf Hb Hn.
  { lia. }
  cbn [best_loop]. destruct (Z.leb_spec shift gend).
  - apply wp_bind. eapply wp_mono; [|apply measure_split_wp; [done|lia]]. intros m1 _.
    apply wp_bind. eapply wp_mono; [|apply measure_split_wp; [done|lia]]. intros m2 _. apply IH; try lia.
    + destruct best as [[s b]|]; [destruct (score_cmp _ _ <=? 0)|]; intros s' b' E; injection E as <- _; try lia. by eapply Hb.
    + destruct best as [[s b]|]; [destruct (score_cmp _ _ <=? 0)|]; done.
  - destruct best as [[s b]|]; [|specialize (Hn eq_refl); lia]. cbn. exists s, b. split; [done|]. by eapply Hb.
Qed.

(** ** One group *)
Definition slid (xdf : xdfile_t) (g : xdlgroup) (xdf' : xdfile_t) (g' go' : xdlgroup) : Prop :=
  like xdf xdf' ∧ synced xdf' g' go' ∧ behind xdf' g' <= behind xdf g.

Lemma shift_loop_wp fuel : ∀ xdf g go, synced xdf g go → start g < end_ g → nrec xdf - size g < Z.of_nat fuel →
  returns (shift_loop fuel xdf xdfo g go) (λ '(xdf', g', go', (groupsize, earliest_end, emo)), slid xdf g xdf' g' go' ∧ ∃ r,
    track earliest_end r groupsize xdf' g' ∧ (emo ≠ -1 → ∃ q, r <= q <= rank xdf' (start g') ∧ busy q)).
Proof.
  induction fuel as [|fuel IH]; intros xdf g go Hs Hne Hf.
  { destruct Hs as [_ [? _ _ _] _ _ _]. lia. }
  cbn [shift_loop]. apply wp_bind. pose proof Hs as [[En _] Hg _ _ _]. destruct (grp_le _ _ _ Hg). unfold zlen in En.
  eapply wp_mono; [|apply up_loop_wp; [done|done|lia]]. intros [[xdf1 g1] go1] (Hl1 & Hs1 & Hsz1 & Hb1).
  pose proof Hs1 as [_ Hg1 _ _ _]. destruct (grp_le _ _ _ Hg1). pose proof Hl1 as (_ & Er1 & En1 & _).
  apply wp_bind. eapply wp_mono; [|apply (down_loop_wp (end_ g1) (rank xdf1 (start g1)) (size g1)); [done|lia|rewrite Er1; lia|by intros _; apply track_here; [|lia]| |lia]].
  2: { destruct (Z.ltb_spec (start go1) (end_ go1)) as [Hb|]; intros He; [|done]. exists (rank xdf1 (start g1)). split; [lia|].
       rewrite (sync_rank _ _ _ Hs1). apply busy_group; [apply Hs1|done]. }
  intros [[[xdf2 g2] go2] emo] (Hl2 & Hs2 & Hsz2 & Hb2 & Htr & Hemo). pose proof Hl2 as (_ & _ & En2 & _).
  pose proof Hs2 as [_ Hg2 _ _ _]. destruct (grp_le _ _ _ Hg2).
  destruct (Z.eqb_spec (size g) (size g2)) as [E|].
  - cbn. split; [split; [by eapply like_trans|split; [done|lia]]|]. exists (rank xdf1 (start g1)). split; [|done].
    replace (size g) with (size g1) by lia. apply Htr. lia.
  - eapply wp_mono; [|apply IH; [done|lia|lia]]. intros [[[xdf3 g3] go3] [[gs ee] emo3]] [(Hl3 & Hs3 & Hb3) Hex]. split; [|done].
    split; [exact (like_trans _ _ _ Hl1 (like_trans _ _ _ Hl2 Hl3))|split; [done|lia]].
Qed.

Lemma place_group_wp flags xdf g go G lo r emo : synced xdf g go → track lo r G xdf g → (emo ≠ -1 → ∃ q, r <= q <= rank xdf (start g) ∧ busy q) →
  returns (place_group flags xdf xdfo g go G lo emo) (λ '(xdf', g', go'), slid xdf g xdf' g' go').
Proof.
  intros Hs Ht Hemo. pose proof Hs as [Hok Hg _ _ _]. pose proof Hok as [En _]. destruct (grp_le _ _ _ Hg), (tr_lo _ _ _ _ _ Ht). unfold zlen in En.
  assert (slid xdf g xdf g go) as Hid by (split; [by apply like_refl|split; [done|lia]]).
  unfold place_group. destruct (end_ g =? lo); [done|]. destruct (Z.eqb_spec emo (-1)) as [->|He]; cbn [negb].
  2: { destruct (Hemo He) as (q & Hq & Hbusy). eapply wp_mono; [|apply (match_loop_wp lo r G q); try done; lia].
       intros [[xdf1 g1] go1] (? & ? & ?). split; [done|split; [done|lia]]. }
  destruct (flag flags XDF_INDENT_HEURISTIC); [|done]. apply wp_bind.
  eapply wp_mono; [|apply (best_loop_wp xdf (end_ g) G lo); unfold INDENT_HEURISTIC_MAX_SLIDING; [done|lia|bcase; lia|bcase; lia|lia|bcase; lia|done|intros _; bcase; lia]].
  intros best (s & b & -> & Hlo). eapply wp_mono; [|apply (back_loop_wp lo r G s); try done; lia].
  intros [[xdf1 g1] go1] (? & ? & ?). split; [done|split; [done|lia]].
Qed.

(** ** All groups *)
Lemma compact_loop_wp flags fuel : ∀ xdf g go, synced xdf g go →
  (nrec xdf - start g + rank xdf (start g) - rank xdf (nrec xdf)) * (nrec xdf + 1) + (nrec xdf - start g) < Z.of_nat fuel →
  returns (compact_loop fuel flags xdf xdfo g go) (λ '(xdf', go'), like xdf xdf' ∧ is_group (U xdfo) (nrec xdfo) go' ∧ end_ go' = nrec xdfo).
Proof.
  induction fuel as [|fuel IH]; intros xdf g go Hs Hf.
  { destruct Hs as [_ [? _ _ _] _ _ _]. pose proof (rank_mono (U xdf) (start g) (nrec xdf)). nia. }
  cbn [compact_loop]. pose proof Hs as [Hok Hg _ _ _]. destruct (grp_le _ _ _ Hg). pose proof Hok as [En _]. unfold zlen in En.
  apply wp_bind. apply (wp_mono _ _ (λ '(xdf', g', go'), slid xdf g xdf' g' go' ∧ (end_ g = start g → xdf' = xdf ∧ g' = g))).
  2: { destruct (Z.eqb_spec (end_ g) (start g)); [split; [split; [by apply like_refl|split; [done|lia]]|done]|].
       apply wp_bind. eapply wp_mono; [|apply shift_loop_wp; [done|lia|lia]].
       intros [[[xdf1 g1] go1] [[gs ee] emo]] [(Hl1 & Hs1 & Hb1) (r & Htr & Hemo)].
       eapply wp_mono; [|by apply (place_group_wp _ _ _ _ _ _ r)]. intros [[xdf2 g2] go2] (Hl2 & Hs2 & Hb2). split; [|lia].
       split; [by eapply like_trans|split; [done|lia]]. }
  intros [[xdf1 g1] go1] [(Hl1 & Hs1 & Hb1) Hsame]. pose proof Hs1 as [Hok1 Hg1 Hgo1 Er1 Et1]. pose proof Hl1 as (_ & _ & En1 & _).
  apply wp_bind. eapply wp_mono; [|by apply group_next_wp]. intros [g2|] Hn; cbn beta iota in Hn.
  - destruct Hn as (Hg2 & Hlt & Est & Er). apply wp_bind. eapply wp_mono; [|apply (sync_next xdf1 g1 go1 xdf1 g2); [done|by apply like_refl|done|done]].
    intros p (go2 & -> & Hs2). eapply wp_mono; [|apply IH; [done|]].
    + intros [xdf3 go3] (Hl3 & ?). split; [by eapply like_trans|done].
    + pose proof (like_total _ _ Hl1) as Et. rewrite Est, <- Est, Er, Et, En1, Est. unfold behind in Hb1. rewrite En1 in Hb1.
      destruct (grp_le _ _ _ Hg1). destruct (decide (end_ g = start g)) as [E|]; [destruct (Hsame E) as [-> ->]; nia|].
      assert (nrec xdf - (end_ g1 + 1) + (rank xdf1 (start g1) + 1) - rank xdf (nrec xdf) <= nrec xdf - start g + rank xdf (start g) - rank xdf (nrec xdf) - 1) by lia.
      nia.
  - cbn. split_and!; [done|done|]. apply (group_last _ _ _ Hgo1). apply (group_last _ _ _ Hg1) in Hn. lia.
Qed.
End sliding.


(** The unmarked lines of both files being equally many, the compaction of one
    of them ends without a [BUG]; its unmarked lines stay what they are. *)
Lemma change_compact_wp xdf xdfo flags : ok xdf → ok xdfo → zlen (kept_lines xdf) = zlen (kept_lines xdfo) →
  returns (xdl_change_compact xdf xdfo flags) (λ xdf', like xdf xdf').
Proof.
  intros Hok Hoko E. unfold xdl_change_compact. apply wp_bind. eapply wp_mono; [|by apply group_init_wp]. intros g [Hg Es].
  apply wp_bind. eapply wp_mono; [|by apply group_init_wp]. intros go [Hgo Eso]. pose proof (ok_fuel _ Hok) as [_ Hn]. pose proof Hok as [En _]. unfold zlen in En.
  assert (synced xdfo xdf g go) as Hs by (split; try done; [by rewrite Es, Eso, !rank_0|by rewrite !rank_kept]).
  apply wp_bind. eapply wp_mono; [|apply (compact_loop_wp xdfo); [done|done|]].
  - intros [xdf' go'] (Hl & Hgo' & Eend). apply wp_bind. eapply wp_mono; [|by apply group_next_wp]. intros [go2|] Hn2; cbn beta iota in Hn2; [lia|done].
  - rewrite Es, rank_0. pose proof (rank_mono (U xdf) 0 (nrec xdf)) as Hm. rewrite rank_0 in Hm. nia.
Qed.

End XdlCompact.
