(* ===== verification/XdlMyers.v ===== *)
(** * The default comparison (xdl_do_diff of xdiff/xdiffi.c)

    [xdl_do_diff] prepares the files and hands them to the patience or histogram
    algorithm, which are arguments here, or compares the listed lines itself.
    The memory of the diagonals comes from [malloc], its contents are arbitrary.
    The result: the lines that stay unmarked in the two files are of the same
    classes, one by one. *)
From stdpp Require Import prelude.
From S2P Require Import Prelude XdlUtils XdlSplit XdlDiff XdlPrepare XdlCompact.
Import XdlUtils XdlSplit XdlDiff XdlPrepare XdlCompact.

Module XdlMyers.

(** Result, first file, second file. *)
Abbreviation algorithm := (xdfile_t → xdfile_t → outcome (Z * xdfile_t * xdfile_t)).

(** The part of the function behind the dispatch. *)
Definition classic_diff (malloc : Z → list Z) (flags : Z) : algorithm := λ xdf1 xdf2,
  let nreff1 := zlen (xrindex xdf1) in
  let nreff2 := zlen (xrindex xdf2) in
  let ndiags := nreff1 + nreff2 + 3 in
  let kvd := malloc (2 * ndiags + 2) in
  let kvdf := nreff2 + 1 in
  let kvdb := ndiags + nreff2 + 1 in
  let! mxcost := xdl_bogosqrt ndiags in
  let mxcost := if mxcost <? XDL_MAX_COST_MIN then XDL_MAX_COST_MIN else mxcost in
  let xenv := Xdalgoenv mxcost XDL_SNAKE_CNT XDL_HEUR_MIN_COST in
  let dd1 := Diffdata (xha xdf1) (xrindex xdf1) in
  let dd2 := Diffdata (xha xdf2) (xrindex xdf2) in
  let fuel := S (length (xha xdf1) + length (xha xdf2)) in
  let! (res, rchg1, rchg2, _) := xdl_recs_cmp fuel dd1 0 nreff1 dd2 0 nreff2 kvdf kvdb (flag flags XDF_NEED_MINIMAL) xenv
    (rchg xdf1) (rchg xdf2) kvd in
  Ret (res, with_rchg xdf1 rchg1, with_rchg xdf2 rchg2).

Definition do_diff_with (patience histogram : algorithm) (malloc : Z → list Z) (mf1 mf2 : list Z) (flags : Z) : outcome (Z * xdfile_t * xdfile_t) :=
  let! (xdf1, xdf2) := xdl_prepare_env mf1 mf2 flags in
  if XDF_DIFF_ALG flags =? XDF_PATIENCE_DIFF then patience xdf1 xdf2
  else if XDF_DIFF_ALG flags =? XDF_HISTOGRAM_DIFF then histogram xdf1 xdf2
  else classic_diff malloc flags xdf1 xdf2.

(** ** What the comparison leaves unmarked *)
Lemma select_list {A} (P : Z → bool) (f : Z → A) (d : A) (g : Z → A) idx :
  (∀ j, 0 <= j < zlen idx → g j = default d (f <$> znth idx j)) →
  select (λ j, P (line_of idx j)) g 0 (zlen idx) = omap (λ i, if P i then Some (f i) else None) idx.
Proof.
  revert g. induction idx as [|x idx IH] using rev_ind; intros g Hg; [by rewrite select_nil|].
  rewrite zlen_app in *. change (zlen [x]) with 1 in *. zlen_pos. rewrite (select_app _ g 0 (zlen idx)) by lia.
  rewrite omap_app. f_equal.
  - rewrite <- (IH g).
    + apply select_ext. intros j Hj. unfold line_of. by rewrite znth_app_l by lia.
    + intros j Hj. rewrite Hg, znth_app_l by lia. done.
  - rewrite select_one. unfold line_of. rewrite znth_app_len. cbn. rewrite Hg, znth_app_len by lia. by destruct (P x).
Qed.

Lemma select_kept keep recs s e r : select (λ j, unmarked r (line_of (select keep id s e) j)) (at_ (select keep (cls recs) s e)) 0 (zlen (select keep id s e)) =
  select (λ i, keep i && unmarked r i) (cls recs) s e.
Proof.
  assert (select keep (cls recs) s e = cls recs <$> select keep id s e) as E.
  { unfold select. induction (seqZ s (e - s)) as [|x l IH]; [done|]. cbn in IH |- *. destruct (keep x); cbn; by rewrite IH. }
  rewrite (select_list _ (cls recs) 0).
  - unfold select. induction (seqZ s (e - s)) as [|x l IH]; [done|]. cbn in IH |- *. destruct (keep x); cbn; [|done]. destruct (unmarked r x); by rewrite IH.
  - intros j Hj. unfold at_. rewrite E. unfold znth. destruct (0 <=? j); [by rewrite list_lookup_fmap|done].
Qed.
Lemma select_all {A} (f f' : Z → A) keep keep' a a' k : 0 <= k → (∀ t, 0 <= t < k → keep (a + t) = true ∧ keep' (a' + t) = true ∧ f (a + t) = f' (a' + t)) →
  select keep f a (a + k) = select keep' f' a' (a' + k).
Proof. intros Hk H. apply select_shift; [done|]. intros t Ht. destruct (H t Ht) as (-> & -> & ->). done. Qed.

Lemma select_sorted keep s e : 0 <= s → let idx := select keep id s e in ∀ j, 0 <= j < zlen idx → s <= line_of idx j < e ∧ keep (line_of idx j) = true ∧
  ∀ j', 0 <= j' < j → line_of idx j' < line_of idx j.
Proof.
  intros Hs. destruct (decide (e <= s)); [rewrite select_nil by lia; intros idx j Hj; unfold idx, zlen in Hj; cbn in Hj; lia|]. replace e with (s + (e - s)) by lia.
  pattern (e - s). apply natlike_ind; [rewrite select_nil by lia; intros idx j Hj; unfold idx, zlen in Hj; cbn in Hj; lia| |lia]. intros k Hk IH. cbn zeta in *.
  replace (s + Z.succ k) with (s + k + 1) by lia. rewrite (select_app _ _ s (s + k)), select_one by lia. destruct (keep (s + k)) eqn:Ek.
  2: { rewrite app_nil_r. intros j Hj. destruct (IH j Hj) as (? & ? & ?). split_and!; (done || lia). }
  intros j Hj. rewrite zlen_app in Hj. change (zlen [id (s + k)]) with 1 in Hj. unfold line_of in *.
  destruct (decide (j = zlen (select keep id s (s + k)))) as [->|].
  - rewrite znth_app_len. cbn. split; [lia|]. split; [done|]. intros j' Hj'. rewrite znth_app_l by lia. destruct (IH j') as (? & ? & ?); [lia|]. lia.
  - rewrite znth_app_l by lia. destruct (IH j) as (? & ? & Hlt); [lia|]. split_and!; [lia|lia|done|]. intros j' Hj'. rewrite znth_app_l by lia. by apply Hlt.
Qed.


Section listed.
Context (xdf : xdfile_t) (keep : Z → bool) (Hl : listed xdf keep).
Abbreviation dd := (Diffdata (xha xdf) (xrindex xdf)).

Lemma listed_len : zlen (xha xdf) = zlen (xrindex xdf).
Proof. destruct Hl as (_ & _ & _ & _ & -> & -> & _). apply zlen_select. Qed.
Lemma listed_ok : ok xdf.
Proof. destruct Hl as (? & _ & _ & ? & _). done. Qed.
Lemma listed_line j : 0 <= j < zlen (xrindex xdf) → let i := line_of (xrindex xdf) j in dstart xdf <= i <= dend xdf ∧ U xdf i = true.
Proof.
  destruct Hl as (_ & Hb & Hd & _ & Er & _ & Hu). intros Hj. rewrite Er in *. destruct (select_sorted keep (dstart xdf) (dend xdf + 1)) with (j := j) as (Hi & Hk & _); [lia|done|].
  cbn zeta. split; [lia|]. rewrite Hu by lia. rewrite (proj2 (Z.leb_le _ _)), (proj2 (Z.ltb_lt _ _)) by lia. done.
Qed.
Lemma listed_lines_ok : lines_ok dd (nrec xdf) (rchg xdf) ∧ fresh dd (rchg xdf) 0 (zlen (xrindex xdf)).
Proof.
  pose proof listed_len as El. pose proof listed_line as Hline. destruct Hl as (_ & Hb & Hd & (Hz & _) & Er & _). cbn zeta in Hline.
  split; [|intros j Hj; cbn; by apply Hline]. unfold lines_ok. cbn [ha rindex]. rewrite El. split; [lia|]. split; [done|]. split.
  - intros j Hj. destruct (Hline j Hj). lia.
  - intros j j' Hj Hj' E. rewrite Er in *. destruct (Z.lt_trichotomy j j') as [Hlt|[?|Hlt]]; [|done|]; exfalso.
    + destruct (select_sorted keep (dstart xdf) (dend xdf + 1)) with (j := j') as (_ & _ & H); [lia|done|]. specialize (H j). lia.
    + destruct (select_sorted keep (dstart xdf) (dend xdf + 1)) with (j := j) as (_ & _ & H); [lia|done|]. specialize (H j'). lia.
Qed.

Context (r : list Z) (Hm : marked_in dd 0 (zlen (xrindex xdf)) (rchg xdf) r).

Lemma marked_ok : ok (with_rchg xdf r).
Proof.
  pose proof listed_line as Hline. destruct listed_ok as [En (Hz & Hb & H0 & Hn)], Hm as [Hzr Hi]. destruct Hl as (_ & Hlo & Hhi & _). split; [done|]. cbn.
  assert (∀ i, znth (rchg xdf) (rchg_at i) = Some 0 → i < dstart xdf ∨ dend xdf < i → znth r (rchg_at i) = Some 0) as Hends.
  { intros i E Hi'. destruct (Hi (rchg_at i)) as [->|(_ & j & Hj & Ej)]; [done|]. destruct (Hline j Hj). unfold rchg_at in Ej. cbn in Ej. lia. }
  unfold clean_rchg. split; [lia|]. split; [|split; apply Hends; (done || lia)].
  intros i v Hv. destruct (Hi i) as [E|[E _]]; [rewrite E in Hv; by eapply Hb|]. right. congruence.
Qed.
Lemma marked_outside_box j : 0 <= j < nrec xdf → j < dstart xdf ∨ dend xdf < j → unmarked r j = true.
Proof.
  pose proof listed_line as Hline. destruct Hm as [_ Hi], Hl as (_ & _ & _ & _ & _ & _ & Hu). intros Hj Ho. specialize (Hu j Hj).
  unfold unmarked in *. destruct (Hi (rchg_at j)) as [->|(_ & k & Hk & Ek)].
  - rewrite Hu. bcase; cbn [andb]; (done || lia).
  - destruct (Hline k Hk). unfold rchg_at in Ek. cbn in Ek. lia.
Qed.
Lemma marked_inside j : dstart xdf <= j <= dend xdf → keep j && unmarked r j = unmarked r j.
Proof.
  destruct (keep j) eqn:Ek; [done|]. destruct Hm as [_ Hi], Hl as (_ & Hlo & Hhi & _ & _ & _ & Hu). intros Hj. cbn [andb].
  rewrite <- Ek at 1. specialize (Hu j). rewrite (proj2 (Z.leb_le _ _)), (proj2 (Z.ltb_lt _ _)), Ek in Hu by lia. cbn [andb] in Hu.
  unfold unmarked in *. destruct (Hi (rchg_at j)) as [->|[-> _]]; [rewrite Hu by lia; done|]. rewrite Ek. symmetry. by apply bool_decide_eq_false.
Qed.
Lemma kept_middle : kept dd r 0 (zlen (xrindex xdf)) = select (unmarked r) (cls (recs xdf)) (dstart xdf) (dend xdf + 1).
Proof.
  pose proof marked_inside as Hin. destruct Hl as (_ & _ & _ & _ & Er & Eh & _). unfold kept. cbn [ha rindex]. rewrite Er, Eh, select_kept.
  apply select_ext. intros j Hj. split; [apply Hin; lia|done].
Qed.
End listed.

(** Two listed files with the same ends, marked so that the listed lines agree. *)
Lemma kept_lines_agree x1 x2 keep1 keep2 r1 r2 s e :
  listed x1 keep1 → listed x2 keep2 → trimmed (recs x1) (recs x2) s e → dstart x1 = s → dstart x2 = s → dend x1 = nrec x1 - e - 1 → dend x2 = nrec x2 - e - 1 →
  let dd1 := Diffdata (xha x1) (xrindex x1) in let dd2 := Diffdata (xha x2) (xrindex x2) in
  marked_in dd1 0 (zlen (xrindex x1)) (rchg x1) r1 → marked_in dd2 0 (zlen (xrindex x2)) (rchg x2) r2 →
  kept dd1 r1 0 (zlen (xrindex x1)) = kept dd2 r2 0 (zlen (xrindex x2)) → kept_lines (with_rchg x1 r1) = kept_lines (with_rchg x2 r2).
Proof.
  intros H1 H2 (Hs & He & Hse1 & Hse2 & Hhead & Htail) S1 S2 D1 D2 dd1 dd2 M1 M2 E. unfold kept_lines. cbn.
  destruct (listed_ok _ _ H1) as [N1 _], (listed_ok _ _ H2) as [N2 _]. unfold dd1, dd2 in E. rewrite (kept_middle x1 keep1), (kept_middle x2 keep2) in E by done.
  rewrite (select_app (unmarked r1) (cls (recs x1)) 0 s (nrec x1)), (select_app (unmarked r2) (cls (recs x2)) 0 s (nrec x2)), (select_app _ _ s (nrec x1 - e) (nrec x1)), (select_app _ _ s (nrec x2 - e) (nrec x2)) by lia.
  rewrite S1, S2, D1, D2 in E. replace (nrec x1 - e - 1 + 1) with (nrec x1 - e) in E by lia. replace (nrec x2 - e - 1 + 1) with (nrec x2 - e) in E by lia. rewrite E.
  f_equal; [|f_equal].
  - apply (select_all _ _ _ _ 0 0 s Hs). intros t Ht. rewrite !Z.add_0_l. split_and!; [| |apply Hhead; lia].
    + apply (marked_outside_box x1 keep1); (done || lia).
    + apply (marked_outside_box x2 keep2); (done || lia).
  - replace (nrec x1) with (nrec x1 - e + e) at 2 by lia. replace (nrec x2) with (nrec x2 - e + e) at 2 by lia. apply select_all; [done|]. intros t Ht.
    specialize (Htail (e - 1 - t)). replace (zlen (recs x1) - 1 - (e - 1 - t)) with (nrec x1 - e + t) in Htail by lia.
    replace (zlen (recs x2) - 1 - (e - 1 - t)) with (nrec x2 - e + t) in Htail by lia. split_and!; [| |apply Htail; lia].
    + apply (marked_outside_box x1 keep1); (done || lia).
    + apply (marked_outside_box x2 keep2); (done || lia).
Qed.


Lemma select_short keep s e n : 0 <= s <= e → e <= n → zlen (select keep id s e) <= n.
Proof. intros Hs He. pose proof (rank_mono keep s e Hs) as H. rewrite (rank_split keep s e Hs) in H. lia. Qed.

(** The comparison as a whole: both files keep the same lines. *)
Definition malloc_ok (malloc : Z → list Z) : Prop := ∀ n, 0 <= n → zlen (malloc n) = n.
Record compared (mf1 mf2 : list Z) (flags : Z) (xdf1 xdf2 : xdfile_t) : Prop := Compared {
  cmp_prep : prepared mf1 mf2 flags xdf1 xdf2;
  cmp_ok : ok xdf1 ∧ ok xdf2;
  cmp_kept : kept_lines xdf1 = kept_lines xdf2
}.
Lemma prepared_short mf1 mf2 flags x1 x2 : prepared mf1 mf2 flags x1 x2 → zlen mf1 < 2 ^ 29 - 4 → zlen mf2 < 2 ^ 29 - 4 →
  zlen (recs x1) < 2 ^ 29 ∧ zlen (recs x2) < 2 ^ 29.
Proof.
  intros [_ [El1 El2]] H1 H2. apply (f_equal zlen) in El1, El2. rewrite zlen_fmap in El1, El2. rewrite El1, El2.
  pose proof (lines_from_length [] mf1) as Q1. pose proof (lines_from_length [] mf2) as Q2. cbn match in Q1, Q2. unfold split_lines. lia.
Qed.

Lemma classic_diff_wp malloc flags x1 x2 : malloc_ok malloc → optimized x1 x2 → zlen (recs x1) < 2 ^ 30 → zlen (recs x2) < 2 ^ 30 →
  returns (classic_diff malloc flags x1 x2) (λ '(res, y1, y2), res = 0 ∧ recs y1 = recs x1 ∧ recs y2 = recs x2 ∧ ok y1 ∧ ok y2 ∧ kept_lines y1 = kept_lines y2).
Proof.
  intros Hmal [[[keep1 H1] [keep2 H2]] (s & e & Htrim & S1 & S2 & D1 & D2)] Hz1 Hz2. unfold classic_diff.
  destruct (listed_lines_ok _ _ H1) as [Lo1 F1], (listed_lines_ok _ _ H2) as [Lo2 F2]. pose proof (listed_len _ _ H1) as Z1. pose proof (listed_len _ _ H2) as Z2.
  assert (zlen (xrindex x1) <= nrec x1 ∧ zlen (xrindex x2) <= nrec x2) as [B1 B2].
  { destruct H1 as (N1 & Hb1 & He1 & _ & -> & _), H2 as (N2 & Hb2 & He2 & _ & -> & _).
    split; [apply (select_short keep1)|apply (select_short keep2)]; lia. }
  destruct (listed_ok _ _ H1) as [N1 _], (listed_ok _ _ H2) as [N2 _].
  zlen_pos. apply wp_bind. eapply wp_mono; [|apply bogosqrt_wp; lia]. intros mx _. cbn zeta. apply wp_bind.
  eapply wp_mono; [|apply (xdl_recs_cmp_wp _ _ _ _ _ (2 * (zlen (xrindex x1) + zlen (xrindex x2) + 3) + 2) (nrec x1) (nrec x2)); cbn [ha rindex]; rewrite ?Z1, ?Z2; try done; try lia].
  - intros [[[res r1] r2] kvd'] (-> & _ & (M1 & M2 & Ek)). cbn [ha rindex] in *. cbn. split_and!; try done.
    + by apply (marked_ok x1 keep1).
    + by apply (marked_ok x2 keep2).
    + by apply (kept_lines_agree x1 x2 keep1 keep2 r1 r2 s e).
  - unfold XDL_LINE_MAX. lia.
  - rewrite Hmal; lia.
  - unfold zlen in *. lia.
Qed.

(** With the default algorithm the other two do not matter. *)
Lemma do_classic_wp patience histogram malloc mf1 mf2 flags : classic flags = true → malloc_ok malloc → zlen mf1 < 2 ^ 29 - 4 → zlen mf2 < 2 ^ 29 - 4 →
  returns (do_diff_with patience histogram malloc mf1 mf2 flags) (λ '(res, xdf1, xdf2), res = 0 ∧ compared mf1 mf2 flags xdf1 xdf2).
Proof.
  intros Hc Hmal Hm1 Hm2. unfold do_diff_with. apply wp_bind. eapply wp_mono; [|by apply prepare_env_wp]. intros [x1 x2] [Hp Ho].
  rewrite Hc in Ho. unfold classic in Hc. apply andb_true_iff in Hc as [->%negb_true_iff ->%negb_true_iff].
  destruct (prepared_short _ _ _ _ _ Hp Hm1 Hm2). eapply wp_mono; [|apply classic_diff_wp; (done || lia)].
  intros [[res y1] y2] (-> & R1 & R2 & ? & ? & ?). split; [done|]. split; try done. destruct Hp. by split; rewrite R1, R2.
Qed.
End XdlMyers.
