(* ===== verification/XdlRegion.v ===== *)
(** * Regions of two files, and falling back (xdl_fall_back_diff of xdiff/xutils.c)

    The patience and histogram algorithms mark the lines of a region of each
    file: all of them when nothing matches, or as the default algorithm does
    on the text of the regions alone.  What one of these steps achieves is
    [region_done]; regions that follow each other compose. *)
From stdpp Require Import prelude.
From S2P Require Import Prelude XdlUtils XdlDiff XdlPrepare XdlCompact XdlMyers.
Import XdlUtils XdlDiff XdlPrepare XdlCompact XdlMyers.

Module XdlRegion.

(** [while (count--) rchg[line++ - 1] = 1;] *)
Fixpoint mark_run (count : nat) (rchg : list Z) (line : Z) : outcome (list Z) :=
  match count with
  | O => Ret rchg
  | S count => let! rchg := wr rchg (rchg_at (line - 1)) 1 in mark_run count rchg (line + 1)
  end.
Definition mark_lines (xdf : xdfile_t) (line count : Z) : outcome xdfile_t :=
  let! r := mark_run (Z.to_nat count) (rchg xdf) line in Ret (with_rchg xdf r).

(** The bytes from the start of one record to the end of another one. *)
Definition subfile (recs : list xrecord_t) (first count : Z) : outcome (list Z) :=
  let! _ := rd recs (first - 1) in
  let! _ := rd recs (first + count - 2) in
  Ret (concat (line <$> zslice (first - 1) count recs)).
(** [memcpy(rchg + at, src, n)] *)
Fixpoint copy_marks (n : nat) (rchg src : list Z) (at_ i : Z) : outcome (list Z) :=
  match n with
  | O => Ret rchg
  | S n =>
      let! c := rd src (rchg_at i) in
      let! rchg := wr rchg (rchg_at (at_ + i)) c in
      copy_marks n rchg src at_ (i + 1)
  end.
(** The nested comparison is never asked for another algorithm. *)
Definition xdl_fall_back_diff (malloc : Z → list Z) (flags : Z) (xdf1 xdf2 : xdfile_t) (line1 count1 line2 count2 : Z) : outcome (Z * xdfile_t * xdfile_t) :=
  let! subfile1 := subfile (recs xdf1) line1 count1 in
  let! subfile2 := subfile (recs xdf2) line2 count2 in
  let! (res, env1, env2) := do_diff_with (λ _ _, NoFuel) (λ _ _, NoFuel) malloc subfile1 subfile2 flags in
  if res <? 0 then Ret (-1, xdf1, xdf2)
  else
    let! r1 := copy_marks (Z.to_nat count1) (rchg xdf1) (rchg env1) (line1 - 1) 0 in
    let! r2 := copy_marks (Z.to_nat count2) (rchg xdf2) (rchg env2) (line2 - 1) 0 in
    Ret (0, with_rchg xdf1 r1, with_rchg xdf2 r2).
Definition fall_back_to_classic_diff (malloc : Z → list Z) (flags : Z) : xdfile_t → xdfile_t → Z → Z → Z → Z → outcome (Z * xdfile_t * xdfile_t) :=
  xdl_fall_back_diff malloc (Z.land flags (Z.lnot XDF_DIFF_ALGORITHM_MASK)).

(** ** Selecting *)
Lemma select_map {A} k (f : Z → A) a b : select k f a b = f <$> select k id a b.
Proof. unfold select. induction (seqZ a (b - a)) as [|x l IH]; [done|]. cbn in IH |- *. destruct (k x); cbn; by rewrite IH. Qed.
Lemma select_elem k a b i : i ∈ select k id a b → a <= i < b ∧ k i = true.
Proof.
  unfold select. intros Hi. apply list_elem_of_omap in Hi as (j & Hj & E). apply elem_of_seqZ in Hj. destruct (k j) eqn:Ek; [|done]. injection E as <-. split; [lia|done].
Qed.
(** What is equal for two selections, decides what else is. *)
Lemma select_transfer {A B} k1 k2 (f f' : Z → A) (g g' : Z → B) a b a' b' : select k1 f a b = select k2 f' a' b' →
  (∀ i j, a <= i < b → a' <= j < b' → f i = f' j → g i = g' j) → select k1 g a b = select k2 g' a' b'.
Proof.
  intros E H. rewrite (select_map k1 g), (select_map k2 g'). rewrite (select_map k1 f), (select_map k2 f') in E.
  assert (∀ i j, i ∈ select k1 id a b → j ∈ select k2 id a' b' → f i = f' j → g i = g' j) as Hg.
  { intros i j [Hi _]%select_elem [Hj _]%select_elem. by apply H. }
  revert E Hg. generalize (select k1 id a b), (select k2 id a' b'). induction l as [|i l IH]; intros [|j l'] E Hg; try done.
  injection E as E1 E2. cbn. f_equal; [apply Hg; [by left|by left|done]|]. apply IH; [done|]. intros i' j' Hi Hj. apply Hg; by right.
Qed.

(** ** Regions *)
Section region.
Context (recs1 recs2 : list xrecord_t).
Abbreviation n1 := (zlen recs1).
Abbreviation n2 := (zlen recs2).

Definition outside (n a b : Z) (r r' : list Z) : Prop := ∀ i, 0 <= i < n → ¬ (a <= i < b) → unmarked r' i = unmarked r i.
Record region_done (a1 b1 a2 b2 : Z) (r1 r2 r1' r2' : list Z) : Prop := RegionDone {
  rd_clean1 : clean_rchg n1 r1';
  rd_clean2 : clean_rchg n2 r2';
  rd_out1 : outside n1 a1 b1 r1 r1';
  rd_out2 : outside n2 a2 b2 r2 r2';
  rd_kept : select (unmarked r1') (cls recs1) a1 b1 = select (unmarked r2') (cls recs2) a2 b2
}.
Definition region_fresh (r : list Z) (a b : Z) : Prop := ∀ i, a <= i < b → unmarked r i = true.

Lemma fresh_outside n r r' a b a' b' : 0 <= a' → b' <= n → outside n a b r r' → b' <= a ∨ b <= a' → region_fresh r a' b' → region_fresh r' a' b'.
Proof. intros Ha Hb Ho Hd Hf i Hi. rewrite Ho by lia. by apply Hf. Qed.

Lemma region_app a1 m1 b1 a2 m2 b2 r1 r2 r1' r2' r1'' r2'' : 0 <= a1 <= m1 → m1 <= b1 <= n1 → 0 <= a2 <= m2 → m2 <= b2 <= n2 →
  region_done a1 m1 a2 m2 r1 r2 r1' r2' → region_done m1 b1 m2 b2 r1' r2' r1'' r2'' → region_done a1 b1 a2 b2 r1 r2 r1'' r2''.
Proof.
  intros Ha1 Hb1 Ha2 Hb2 [C1 C2 O1 O2 K] [C1' C2' O1' O2' K']. split; try done.
  - intros i Hi Ho. rewrite O1', O1 by lia. done.
  - intros i Hi Ho. rewrite O2', O2 by lia. done.
  - rewrite (select_app _ _ a1 m1), (select_app _ _ a2 m2) by lia. rewrite K'. f_equal.
    rewrite (select_ext _ (unmarked r1') _ (cls recs1)) by (intros j Hj; split; [apply O1'; lia|done]).
    rewrite (select_ext _ (unmarked r2') (cls recs2) (cls recs2)) by (intros j Hj; split; [apply O2'; lia|done]). done.
Qed.
Lemma region_common a1 a2 k r1 r2 : 0 <= k → clean_rchg n1 r1 → clean_rchg n2 r2 → region_fresh r1 a1 (a1 + k) → region_fresh r2 a2 (a2 + k) →
  (∀ t, 0 <= t < k → cls recs1 (a1 + t) = cls recs2 (a2 + t)) → region_done a1 (a1 + k) a2 (a2 + k) r1 r2 r1 r2.
Proof.
  intros Hk C1 C2 F1 F2 Hc. split; try done. apply select_all; [done|]. intros t Ht. rewrite F1, F2 by lia. split_and!; [done|done|by apply Hc].
Qed.

Lemma mark_run_wp n count : ∀ rchg line, clean_rchg n rchg → 1 <= line → line - 1 + Z.of_nat count <= n →
  returns (mark_run count rchg line) (λ r, clean_rchg n r ∧ (∀ i, 0 <= i < n → unmarked r i = unmarked rchg i && negb ((line - 1 <=? i) && (i <? line - 1 + Z.of_nat count)))).
Proof.
  induction count as [|count IH]; intros rchg line Hc Hl Hn; cbn [mark_run].
  { cbn. split; [done|]. intros i Hi. destruct (Z.leb_spec (line - 1) i), (Z.ltb_spec i (line - 1 + Z.of_nat 0)); cbn [andb negb]; try lia; by rewrite andb_true_r. }
  pose proof Hc as (Hz & _). rewrite wr_ok by (unfold rchg_at; lia). cbn [obind]. eapply wp_mono; [|apply IH; [apply clean_insert; (done || lia || by right)|lia|lia]].
  intros r [Hcr Hu]. split; [done|]. intros i Hi. rewrite Hu, unmarked_insert by (unfold rchg_at; lia).
  destruct (Z.eqb_spec i (line - 1)), (Z.leb_spec (line + 1 - 1) i), (Z.ltb_spec i (line + 1 - 1 + Z.of_nat count)), (Z.leb_spec (line - 1) i), (Z.ltb_spec i (line - 1 + Z.of_nat (S count)));
    cbn [andb negb]; rewrite ?andb_true_r, ?andb_false_r; first [done|lia].
Qed.
Lemma mark_run_all n count rchg line : clean_rchg n rchg → 1 <= line → 0 <= count → line - 1 + count <= n →
  returns (mark_run (Z.to_nat count) rchg line) (λ r, clean_rchg n r ∧ outside n (line - 1) (line - 1 + count) rchg r ∧ ∀ i, line - 1 <= i < line - 1 + count → unmarked r i = false).
Proof.
  intros Hc Hl Hp Hn. eapply wp_mono; [|apply (mark_run_wp n); [done|lia|lia]]. intros r [Hcr Hu]. rewrite Z2Nat.id in Hu by lia. split; [done|]. split.
  - intros i Hi Ho. rewrite Hu by done. destruct (Z.leb_spec (line - 1) i), (Z.ltb_spec i (line - 1 + count)); cbn [andb negb]; try lia; by rewrite andb_true_r.
  - intros i Hi. rewrite Hu by lia. rewrite (proj2 (Z.leb_le _ _)), (proj2 (Z.ltb_lt _ _)) by lia. apply andb_false_r.
Qed.
Lemma mark_lines_wp n x line count : clean_rchg n (rchg x) → 1 <= line → 0 <= count → line - 1 + count <= n →
  returns (mark_lines x line count) (λ y, ∃ r, y = with_rchg x r ∧ clean_rchg n r ∧ outside n (line - 1) (line - 1 + count) (rchg x) r ∧ ∀ i, line - 1 <= i < line - 1 + count → unmarked r i = false).
Proof. intros. apply wp_bind. eapply wp_mono; [|by apply (mark_run_all n)]. intros r (? & ? & ?). by exists r. Qed.
Lemma with_rchg_same x : with_rchg x (rchg x) = x.
Proof. by destruct x. Qed.
Lemma mark_lines_none x line : mark_lines x line 0 = Ret x.
Proof. unfold mark_lines. change (Z.to_nat 0) with O. cbn [mark_run obind]. by rewrite with_rchg_same. Qed.

(** Nothing kept: every line of both regions marked. *)
Lemma region_none a1 b1 a2 b2 r1 r2 r1' r2' : clean_rchg n1 r1' → clean_rchg n2 r2' → outside n1 a1 b1 r1 r1' → outside n2 a2 b2 r2 r2' →
  (∀ i, a1 <= i < b1 → unmarked r1' i = false) → (∀ i, a2 <= i < b2 → unmarked r2' i = false) → region_done a1 b1 a2 b2 r1 r2 r1' r2'.
Proof. intros. split; try done. by rewrite !select_none. Qed.
(** The marks of a region of both files are made. *)
Definition marks_made (x1 x2 : xdfile_t) (line1 count1 line2 count2 : Z) (y1 y2 : xdfile_t) : Prop :=
  ∃ r1 r2, y1 = with_rchg x1 r1 ∧ y2 = with_rchg x2 r2 ∧ region_done (line1 - 1) (line1 - 1 + count1) (line2 - 1) (line2 - 1 + count2) (rchg x1) (rchg x2) r1 r2.
Lemma mark_both_wp x1 x2 line1 count1 line2 count2 : clean_rchg n1 (rchg x1) → clean_rchg n2 (rchg x2) →
  1 <= line1 → 0 <= count1 → line1 - 1 + count1 <= n1 → 1 <= line2 → 0 <= count2 → line2 - 1 + count2 <= n2 →
  returns (let! y1 := mark_lines x1 line1 count1 in let! y2 := mark_lines x2 line2 count2 in Ret (0, y1, y2)) (λ '(res, y1, y2), res = 0 ∧ marks_made x1 x2 line1 count1 line2 count2 y1 y2).
Proof.
  intros C1 C2 Hl1 Hc1 Hn1 Hl2 Hc2 Hn2. apply wp_bind. eapply wp_mono; [|by apply (mark_lines_wp n1)]. intros y1 (r1 & -> & ? & ? & ?).
  apply wp_bind. eapply wp_mono; [|by apply (mark_lines_wp n2)]. intros y2 (r2 & -> & ? & ? & ?). cbn [wp]. split; [done|]. exists r1, r2.
  split; [done|]. split; [done|]. by apply region_none.
Qed.
(** One of the two regions is empty. *)
Lemma mark_first_wp x1 x2 line1 count1 line2 : clean_rchg n1 (rchg x1) → clean_rchg n2 (rchg x2) → 1 <= line1 → 0 <= count1 → line1 - 1 + count1 <= n1 → 1 <= line2 → line2 - 1 <= n2 →
  returns (let! y1 := mark_lines x1 line1 count1 in Ret (0, y1, x2)) (λ '(res, y1, y2), res = 0 ∧ marks_made x1 x2 line1 count1 line2 0 y1 y2).
Proof.
  intros. assert (returns (let! y1 := mark_lines x1 line1 count1 in let! y2 := mark_lines x2 line2 0 in Ret (0, y1, y2)) (λ '(res, y1, y2), res = 0 ∧ marks_made x1 x2 line1 count1 line2 0 y1 y2)) as Hb by (apply mark_both_wp; (done || lia)).
  revert Hb. by destruct (mark_lines x1 line1 count1); cbn [obind]; rewrite ?mark_lines_none.
Qed.
Lemma mark_second_wp x1 x2 line1 line2 count2 : clean_rchg n1 (rchg x1) → clean_rchg n2 (rchg x2) → 1 <= line1 → line1 - 1 <= n1 → 1 <= line2 → 0 <= count2 → line2 - 1 + count2 <= n2 →
  returns (let! y2 := mark_lines x2 line2 count2 in Ret (0, x1, y2)) (λ '(res, y1, y2), res = 0 ∧ marks_made x1 x2 line1 0 line2 count2 y1 y2).
Proof.
  intros. assert (returns (let! y1 := mark_lines x1 line1 0 in let! y2 := mark_lines x2 line2 count2 in Ret (0, y1, y2)) (λ '(res, y1, y2), res = 0 ∧ marks_made x1 x2 line1 0 line2 count2 y1 y2)) as Hb by (apply mark_both_wp; (done || lia)).
  by rewrite mark_lines_none in Hb.
Qed.
End region.

(** ** Lines of a part of a file *)
Definition whole_line (l : list Z) : Prop := ∃ b, l = b ++ [10] ∧ ∀ c, c ∈ b → c ≠ 10.
Fixpoint good_lines (ls : list (list Z)) : Prop :=
  match ls with
  | [] => True
  | l :: ls => whole_line l ∧ good_lines ls ∨ l ≠ [] ∧ (∀ c, c ∈ l → c ≠ 10) ∧ ls = []
  end.

Lemma lines_from_good data : ∀ cur, (∀ c, c ∈ cur → c ≠ 10) → good_lines (lines_from cur data).
Proof.
  induction data as [|c data IH]; intros cur Hc; cbn [lines_from].
  - destruct cur as [|x cur]; [done|]. right. done.
  - destruct (Z.eqb_spec c 10) as [->|].
    + left. split; [by exists cur|]. apply IH. intros c Hin. by apply not_elem_of_nil in Hin.
    + apply IH. intros d [Hd|Hd]%elem_of_app; [by apply Hc|]. apply list_elem_of_singleton in Hd. by subst.
Qed.
Lemma split_concat ls : good_lines ls → split_lines (concat ls) = ls.
Proof.
  unfold split_lines. induction ls as [|l ls IH]; [done|]. cbn [good_lines concat]. intros [[(b & -> & Hb) Hls]|(Hne & Hl & ->)].
  - rewrite <- app_assoc, lines_from_body by done. cbn [app lines_from]. change (10 =? 10) with true. cbn match. by rewrite IH.
  - cbn [concat]. rewrite lines_from_body by done. cbn [app lines_from]. by destruct l.
Qed.
Lemma good_drop n : ∀ ls, good_lines ls → good_lines (drop n ls).
Proof. induction n as [|n IH]; intros [|l ls]; cbn [drop]; try done. cbn [good_lines]. intros [[_ ?]|(_ & _ & ->)]; [by apply IH|by rewrite drop_nil]. Qed.
Lemma good_take n : ∀ ls, good_lines ls → good_lines (take n ls).
Proof. induction n as [|n IH]; intros [|l ls]; cbn [take]; try done. cbn [good_lines]. intros [[? ?]|(? & ? & ->)]; [left; split; [done|by apply IH]|right; by rewrite take_nil]. Qed.
Lemma good_slice a k ls : good_lines ls → good_lines (zslice a k ls).
Proof. intros H. by apply good_take, good_drop. Qed.

Lemma concat_length_slice (ls : list (list Z)) a k : zlen (concat (zslice a k ls)) <= zlen (concat ls).
Proof.
  unfold zslice, ztake, zdrop. rewrite <- (take_drop (Z.to_nat a) ls) at 2. rewrite <- (take_drop (Z.to_nat k) (drop (Z.to_nat a) ls)) at 2.
  rewrite !concat_app, !zlen_app. zlen_pos. lia.
Qed.

(** ** Falling back *)
Lemma copy_marks_wp n m rchg0 src at_ : clean_rchg m src → ∀ k i rchg, clean_rchg n rchg → 0 <= at_ → 0 <= i → i + Z.of_nat k <= m → at_ + i + Z.of_nat k <= n →
  (∀ j, 0 <= j < n → unmarked rchg j = if (at_ <=? j) && (j <? at_ + i) then unmarked src (j - at_) else unmarked rchg0 j) →
  returns (copy_marks k rchg src at_ i) (λ r, clean_rchg n r ∧ ∀ j, 0 <= j < n → unmarked r j = if (at_ <=? j) && (j <? at_ + i + Z.of_nat k) then unmarked src (j - at_) else unmarked rchg0 j).
Proof.
  intros Hsrc. induction k as [|k IH]; intros i rchg Hc Ha Hi Hm Hn Hu; cbn [copy_marks].
  { cbn. rewrite Z.add_0_r. done. }
  pose proof Hsrc as (Hzs & Hb & _). destruct (znth_is_Some src (rchg_at i)) as [v Ev]; [unfold rchg_at; lia|]. rewrite (rd_znth _ _ _ Ev). cbn [obind].
  pose proof Hc as (Hz & _). rewrite wr_ok by (unfold rchg_at; lia). cbn [obind].
  replace (at_ + i + Z.of_nat (S k)) with (at_ + (i + 1) + Z.of_nat k) by lia. apply IH; try lia; [apply clean_insert; [done|lia|by eapply Hb]|].
  intros j Hj. rewrite unmarked_insert by (unfold rchg_at; lia). destruct (Z.eqb_spec j (at_ + i)) as [->|].
  - rewrite (proj2 (Z.leb_le _ _)), (proj2 (Z.ltb_lt _ _)) by lia. cbn [andb]. replace (at_ + i - at_) with i by lia. unfold unmarked. rewrite Ev.
    destruct (Z.eqb_spec v 0) as [->|]; symmetry; [by apply bool_decide_eq_true|apply bool_decide_eq_false; congruence].
  - rewrite Hu by done. destruct (Z.leb_spec at_ j), (Z.ltb_spec j (at_ + i)), (Z.ltb_spec j (at_ + (i + 1))); cbn [andb]; done || lia.
Qed.

Definition line_at (recs : list xrecord_t) (i : Z) : list Z := from_option line [] (znth recs i).
(** What the algorithms need to know of the files. *)
Record comparable (recs1 recs2 : list xrecord_t) : Prop := Comparable {
  ct_good : good_lines (line <$> recs1) ∧ good_lines (line <$> recs2);
  ct_size : zlen (concat (line <$> recs1)) < 2 ^ 29 - 4 ∧ zlen (concat (line <$> recs2)) < 2 ^ 29 - 4;
  ct_class : ∀ r1 r2, r1 ∈ recs1 → r2 ∈ recs2 → line r1 = line r2 → rha r1 = rha r2
}.
(** Unmarked lines of the same classes are equal. *)
Lemma kept_text mf1 mf2 flags e1 e2 : flag flags XDF_WHITESPACE_FLAGS = false → compared mf1 mf2 flags e1 e2 →
  select (U e1) (line_at (recs e1)) 0 (nrec e1) = select (U e2) (line_at (recs e2)) 0 (nrec e2).
Proof.
  intros Hf [[(cf & Hcf & Ef & H1 & H2) _] [[N1 _] [N2 _]] Hk]. eapply select_transfer; [exact Hk|]. intros i j Hi Hj E.
  unfold cls, line_at in *. destruct (znth_is_Some (recs e1) i) as [r1 E1]; [lia|]. destruct (znth_is_Some (recs e2) j) as [r2 E2]; [lia|].
  rewrite E1, E2 in *. cbn in *. rewrite Forall_forall in H1, H2. destruct (H1 r1) as (k & Ek & M1); [by eapply znth_elem_of|].
  destruct (H2 r2) as (k' & Ek' & M2); [by eapply znth_elem_of|]. rewrite E in Ek. assert (k = k') as <- by congruence.
  pose proof (recmatch_wp (cline k) (line r1) (cflags cf)) as W1. pose proof (recmatch_wp (cline k) (line r2) (cflags cf)) as W2. rewrite M1 in W1. rewrite M2 in W2.
  rewrite Ef in *. destruct W1 as [_ W1], W2 as [_ W2]. rewrite <- W1, <- W2 by done. done.
Qed.

Section fall_back.
Context (malloc : Z → list Z) (flags : Z) (Hmal : malloc_ok malloc) (Hws : flag flags XDF_WHITESPACE_FLAGS = false) (Hcl : classic flags = true).

Lemma subfile_wp recs first count : 1 <= first → 1 <= count → first - 1 + count <= zlen recs → good_lines (line <$> recs) →
  returns (subfile recs first count) (λ mf, split_lines mf = zslice (first - 1) count (line <$> recs) ∧ zlen mf <= zlen (concat (line <$> recs))).
Proof.
  intros Hf Hc Hn Hg. unfold subfile. apply wp_bind, rd_wp; [lia|]. intros r _. apply wp_bind, rd_wp; [lia|]. intros r' _. cbn [wp].
  assert (line <$> zslice (first - 1) count recs = zslice (first - 1) count (line <$> recs)) as -> by (unfold zslice, ztake, zdrop; by rewrite fmap_take, fmap_drop).
  split; [by apply split_concat, good_slice|apply concat_length_slice].
Qed.

Lemma sub_line recs sub a k i : line <$> sub = zslice a k (line <$> recs) → 0 <= a → 0 <= i < k → a + k <= zlen recs → line_at sub i = line_at recs (a + i).
Proof.
  intros E Ha Hi Hn. unfold line_at. assert (zlen sub = k) as Hz.
  { apply (f_equal zlen) in E. rewrite zlen_fmap, zlen_zslice in E; [done|lia|lia|]. rewrite zlen_fmap. lia. }
  destruct (znth_is_Some sub i) as [r Er]; [lia|]. destruct (znth_is_Some recs (a + i)) as [r' Er']; [lia|]. rewrite Er, Er'. cbn.
  assert (znth (line <$> sub) i = Some (line r)) as E1 by (unfold znth in *; destruct (0 <=? i); [|done]; by rewrite list_lookup_fmap, Er).
  assert (znth (line <$> recs) (a + i) = Some (line r')) as E2 by (unfold znth in *; destruct (0 <=? a + i); [|done]; by rewrite list_lookup_fmap, Er').
  rewrite E in E1. unfold zslice in E1. rewrite znth_ztake, znth_zdrop in E1 by lia. congruence.
Qed.

Lemma fall_back_wp x1 x2 line1 count1 line2 count2 : comparable (recs x1) (recs x2) → clean_rchg (zlen (recs x1)) (rchg x1) → clean_rchg (zlen (recs x2)) (rchg x2) →
  1 <= line1 → 1 <= count1 → line1 - 1 + count1 <= zlen (recs x1) → 1 <= line2 → 1 <= count2 → line2 - 1 + count2 <= zlen (recs x2) →
  returns (xdl_fall_back_diff malloc flags x1 x2 line1 count1 line2 count2) (λ '(res, y1, y2), res = 0 ∧ marks_made (recs x1) (recs x2) x1 x2 line1 count1 line2 count2 y1 y2).
Proof.
  intros [[G1 G2] [S1 S2] Hcls] C1 C2 Hl1 Hc1 Hn1 Hl2 Hc2 Hn2. unfold xdl_fall_back_diff.
  apply wp_bind. eapply wp_mono; [|by apply subfile_wp]. intros mf1 [L1 Z1]. apply wp_bind. eapply wp_mono; [|by apply subfile_wp]. intros mf2 [L2 Z2].
  apply wp_bind. eapply wp_mono; [|apply do_classic_wp; (done || lia)]. intros [[res e1] e2] [-> Hcmp]. change (0 <? 0) with false. cbn match.
  pose proof (kept_text _ _ _ _ _ Hws Hcmp) as Hk. destruct Hcmp as [[_ [El1 El2]] [[N1 Ce1] [N2 Ce2]] _]. rewrite L1 in El1. rewrite L2 in El2.
  assert (nrec e1 = count1 ∧ nrec e2 = count2) as [M1 M2].
  { apply (f_equal zlen) in El1, El2. rewrite zlen_fmap, zlen_zslice in El1, El2 by (rewrite ?zlen_fmap; lia). lia. }
  rewrite M1 in Ce1, Hk. rewrite M2 in Ce2, Hk.
  apply wp_bind. eapply wp_mono; [|apply (copy_marks_wp (zlen (recs x1)) count1 (rchg x1)); try done; try lia; intros j Hj; rewrite Z.add_0_r; by destruct (Z.leb_spec (line1 - 1) j), (Z.ltb_spec j (line1 - 1)); cbn [andb]; try lia].
  intros r1 [Cr1 U1]. apply wp_bind. eapply wp_mono; [|apply (copy_marks_wp (zlen (recs x2)) count2 (rchg x2)); try done; try lia; intros j Hj; rewrite Z.add_0_r; by destruct (Z.leb_spec (line2 - 1) j), (Z.ltb_spec j (line2 - 1)); cbn [andb]; try lia].
  intros r2 [Cr2 U2]. cbn [wp]. split; [done|]. exists r1, r2. split; [done|]. split; [done|]. rewrite Z.add_0_r, Z2Nat.id in U1, U2 by lia. split; try done.
  - intros i Hi Ho. rewrite U1 by done. destruct (Z.leb_spec (line1 - 1) i), (Z.ltb_spec i (line1 - 1 + count1)); cbn [andb]; done || lia.
  - intros i Hi Ho. rewrite U2 by done. destruct (Z.leb_spec (line2 - 1) i), (Z.ltb_spec i (line2 - 1 + count2)); cbn [andb]; done || lia.
  - apply (select_transfer _ _ (line_at (recs x1)) (line_at (recs x2))).
    + rewrite (select_shift _ (U e1) _ (line_at (recs e1)) (line1 - 1) 0 count1), (select_shift _ (U e2) _ (line_at (recs e2)) (line2 - 1) 0 count2); [exact Hk|lia| |lia|].
      * intros t Ht. rewrite U2 by lia. rewrite (proj2 (Z.leb_le _ _)), (proj2 (Z.ltb_lt _ _)) by lia. cbn [andb]. rewrite Z.add_0_l. split; [f_equal; lia|].
        intros _. symmetry. apply (sub_line _ _ (line2 - 1) count2); (done || lia).
      * intros t Ht. rewrite U1 by lia. rewrite (proj2 (Z.leb_le _ _)), (proj2 (Z.ltb_lt _ _)) by lia. cbn [andb]. rewrite Z.add_0_l. split; [f_equal; lia|].
        intros _. symmetry. apply (sub_line _ _ (line1 - 1) count1); (done || lia).
    + intros i j Hi Hj E. unfold line_at, cls in *. destruct (znth_is_Some (recs x1) i) as [a Ea]; [lia|]. destruct (znth_is_Some (recs x2) j) as [b Eb]; [lia|].
      rewrite Ea, Eb in *. cbn in *. apply Hcls; [by eapply znth_elem_of|by eapply znth_elem_of|done].
Qed.
End fall_back.

Lemma masked_flags flags : let f := Z.land flags (Z.lnot XDF_DIFF_ALGORITHM_MASK) in flag f XDF_WHITESPACE_FLAGS = flag flags XDF_WHITESPACE_FLAGS ∧ classic f = true.
Proof.
  cbn zeta. split.
  - unfold flag. rewrite <- Z.land_assoc. done.
  - unfold classic, XDF_DIFF_ALG. rewrite <- Z.land_assoc. change (Z.land (Z.lnot XDF_DIFF_ALGORITHM_MASK) XDF_DIFF_ALGORITHM_MASK) with 0. by rewrite Z.land_0_r.
Qed.

Lemma fall_back_to_classic_wp malloc flags x1 x2 line1 count1 line2 count2 : malloc_ok malloc → flag flags XDF_WHITESPACE_FLAGS = false →
  comparable (recs x1) (recs x2) → clean_rchg (zlen (recs x1)) (rchg x1) → clean_rchg (zlen (recs x2)) (rchg x2) →
  1 <= line1 → 1 <= count1 → line1 - 1 + count1 <= zlen (recs x1) → 1 <= line2 → 1 <= count2 → line2 - 1 + count2 <= zlen (recs x2) →
  returns (fall_back_to_classic_diff malloc flags x1 x2 line1 count1 line2 count2) (λ '(res, y1, y2), res = 0 ∧ marks_made (recs x1) (recs x2) x1 x2 line1 count1 line2 count2 y1 y2).
Proof. intros ? Hws; intros. destruct (masked_flags flags) as [Hf Hc]. apply fall_back_wp; try done. by rewrite Hf. Qed.

(** ** What an algorithm promises *)
Lemma prepared_comparable mf1 mf2 flags x1 x2 : flag flags XDF_WHITESPACE_FLAGS = false → zlen mf1 < 2 ^ 29 - 4 → zlen mf2 < 2 ^ 29 - 4 → prepared mf1 mf2 flags x1 x2 → comparable (recs x1) (recs x2).
Proof.
  intros Hws H1 H2 [(cf & Hcf & Ef & F1 & F2) [L1 L2]]. split.
  - rewrite L1, L2. split; apply lines_from_good; intros c Hc; by apply not_elem_of_nil in Hc.
  - rewrite L1, L2. unfold split_lines. rewrite !concat_lines_from. done.
  - intros r1 r2 Hr1 Hr2 E. rewrite Forall_forall in F1, F2. apply (class_of_line cf); [done|by rewrite Ef|by apply F1|by apply F2|done].
Qed.

(** The files it gets are as they were read; it gives up with -1, or leaves the
    same lines unmarked in both. *)
Class LineAlgorithm (pre : list xrecord_t → Prop) (may_fail : bool) (alg : algorithm) : Prop :=
  algorithm_wp x1 x2 : comparable (recs x1) (recs x2) → pre (recs x1) → zlen (recs x1) < 2 ^ 29 → zlen (recs x2) < 2 ^ 29 → unmarked_file x1 → unmarked_file x2 →
    returns (alg x1 x2) (λ '(res, y1, y2), res = 0 ∧ marks_made (recs x1) (recs x2) x1 x2 1 (nrec x1) 1 (nrec x2) y1 y2 ∨ may_fail = true ∧ res = -1).

End XdlRegion.
