(* ===== verification/XdlHistogram.v ===== *)
(** * The histogram algorithm (xdiff/xhistogram.c)

    The lines of a region of the first file are indexed by class; the longest
    common run of lines that starts at a line with few occurrences splits the
    regions, and the parts are compared in the same way.  Records are shared by
    the chains of the table and by [line_map], so that they live in a heap.
    The result: whatever the runs it finds, the lines it leaves unmarked agree,
    and it ends; it fails with -1 when a chain would get too long. *)
From stdpp Require Import prelude.
From S2P Require Import Prelude XdlUtils XdlDiff XdlPrepare XdlCompact XdlMyers XdlRegion.
Import XdlUtils XdlDiff XdlPrepare XdlCompact XdlMyers XdlRegion.

Module XdlHistogram.

Definition MAX_PTR : Z := 2 ^ 32 - 1.
Definition MAX_CNT : Z := 2 ^ 32 - 1.
Definition max_chain_length : Z := 64.

Record hrecord := HRecord { ptr : Z; cnt : Z }.
(** [records]: the chains of the table, as places in the heap. *)
Record histindex := Histindex
  { heap : list hrecord; records : list (list Z); line_map : list Z; next_ptrs : list Z; table_bits : Z; ptr_shift : Z }.
Record region := Region { begin1 : Z; end1 : Z; begin2 : Z; end2 : Z }.

Definition REC (recs : list xrecord_t) (l : Z) : outcome xrecord_t := rd recs (l - 1).
Definition CMP (recs1 : list xrecord_t) (l1 : Z) (recs2 : list xrecord_t) (l2 : Z) : outcome bool :=
  let! r1 := REC recs1 l1 in
  let! r2 := REC recs2 l2 in
  Ret (rha r1 =? rha r2).
Definition TABLE_HASH (index : histindex) (recs : list xrecord_t) (l : Z) : outcome Z :=
  let! r := REC recs l in Ret (XDL_HASHLONG (rha r) (table_bits index)).
(** A null pointer in [line_map] is -1. *)
Definition CNT (index : histindex) (p : Z) : outcome Z :=
  let! id := rd (line_map index) (p - ptr_shift index) in
  let! r := rd (heap index) id in
  Ret (cnt r).
Definition NEXT_PTR (index : histindex) (p : Z) : outcome Z := rd (next_ptrs index) (p - ptr_shift index).

Section histogram.
Context (recs1 recs2 : list xrecord_t).

(** ** The index *)
Fixpoint chain_find (heap : list hrecord) (chain : list Z) (p : Z) : outcome (option Z) :=
  match chain with
  | [] => Ret None
  | id :: chain =>
      let! r := rd heap id in
      let! same := CMP recs1 (ptr r) recs1 p in
      if (same : bool) then Ret (Some id) else chain_find heap chain p
  end.
Definition scan_line (index : histindex) (p : Z) : outcome (option histindex) :=
  let! h := TABLE_HASH index recs1 p in
  let! chain := rd (records index) h in
  let! found := chain_find (heap index) chain p in
  match found with
  | Some id =>
      let! r := rd (heap index) id in
      let! nx := wr (next_ptrs index) (p - ptr_shift index) (ptr r) in
      let! hp := wr (heap index) id (HRecord p (Z.min MAX_CNT (u32 (cnt r + 1)))) in
      let! lm := wr (line_map index) (p - ptr_shift index) id in
      Ret (Some (Histindex hp (records index) lm nx (table_bits index) (ptr_shift index)))
  | None =>
      if zlen chain =? max_chain_length then Ret None
      else
        let id := zlen (heap index) in
        let! rs := wr (records index) h (id :: chain) in
        let! lm := wr (line_map index) (p - ptr_shift index) id in
        Ret (Some (Histindex (heap index ++ [HRecord p 1]) rs lm (next_ptrs index) (table_bits index) (ptr_shift index)))
  end.
(** [for (ptr = LINE_END(1); line1 <= ptr; ptr--)]; [None] is -1. *)
Fixpoint scanA (fuel : nat) (index : histindex) (line1 p : Z) : outcome (option histindex) :=
  match fuel with
  | O => NoFuel
  | S fuel =>
      if line1 <=? p then
        let! r := scan_line index p in
        match r with
        | None => Ret None
        | Some index => scanA fuel index line1 (p - 1)
        end
      else Ret (Some index)
  end.

(** ** Common runs *)
Section lcs.
Context (index : histindex) (line1 count1 line2 count2 : Z).
Abbreviation LINE_END1 := (line1 + count1 - 1).
Abbreviation LINE_END2 := (line2 + count2 - 1).

(** The lowest count of the lines of a run. *)
Definition low_cnt (rc p : Z) : outcome Z := if 1 <? rc then let! c := CNT index p in Ret (Z.min rc c) else Ret rc.
Fixpoint grow_back (fuel : nat) (as_ bs rc : Z) : outcome (Z * Z * Z) :=
  match fuel with
  | O => NoFuel
  | S fuel =>
      if (line1 <? as_) && (line2 <? bs) then
        let! c := CMP recs1 (as_ - 1) recs2 (bs - 1) in
        if (c : bool) then let! rc := low_cnt rc (as_ - 1) in grow_back fuel (as_ - 1) (bs - 1) rc
        else Ret (as_, bs, rc)
      else Ret (as_, bs, rc)
  end.
Fixpoint grow_fwd (fuel : nat) (ae be rc : Z) : outcome (Z * Z * Z) :=
  match fuel with
  | O => NoFuel
  | S fuel =>
      if (ae <? LINE_END1) && (be <? LINE_END2) then
        let! c := CMP recs1 (ae + 1) recs2 (be + 1) in
        if (c : bool) then let! rc := low_cnt rc (ae + 1) in grow_fwd fuel (ae + 1) (be + 1) rc
        else Ret (ae, be, rc)
      else Ret (ae, be, rc)
  end.
(** [while (np <= ae)]: the next occurrence behind the run. *)
Fixpoint skip_run (fuel : nat) (ae np : Z) : outcome (option Z) :=
  match fuel with
  | O => NoFuel
  | S fuel =>
      if np <=? ae then
        let! np := NEXT_PTR index np in
        if np =? 0 then Ret None else skip_run fuel ae np
      else Ret (Some np)
  end.

(** The best run, the count it was chosen by, and whether lines matched at all. *)
Record search := Search { lcs : region; icnt : Z; has_common : bool }.
Definition better (s : search) (as_ ae bs be rc : Z) : search :=
  if (end1 (lcs s) - begin1 (lcs s) <? ae - as_) || (rc <? icnt s) then Search (Region as_ ae bs be) rc (has_common s) else s.
(** [for (;;)] over the occurrences of a line; also [b_next]. *)
Fixpoint occurrences (fuel : nat) (rcnt as_ b_ptr b_next : Z) (s : search) : outcome (Z * search) :=
  match fuel with
  | O => NoFuel
  | S fuel =>
      let! np := NEXT_PTR index as_ in
      let! (as', bs, rc) := grow_back (Z.to_nat count1) as_ b_ptr rcnt in
      let! (ae, be, rc) := grow_fwd (Z.to_nat count1) as_ b_ptr rc in
      let b_next := if b_next <=? be then be + 1 else b_next in
      let s := better s as' ae bs be rc in
      if np =? 0 then Ret (b_next, s)
      else
        let! np := skip_run (Z.to_nat count1) ae np in
        match np with
        | None => Ret (b_next, s)
        | Some np => occurrences fuel rcnt np b_ptr b_next s
        end
  end.
(** [for (; rec; rec = rec->next)] *)
Fixpoint try_chain (chain : list Z) (b_ptr b_next : Z) (s : search) : outcome (Z * search) :=
  match chain with
  | [] => Ret (b_next, s)
  | id :: chain =>
      let! r := rd (heap index) id in
      if icnt s <? cnt r then
        let! hc := if negb (has_common s) then CMP recs1 (ptr r) recs2 b_ptr else Ret (has_common s) in
        try_chain chain b_ptr b_next (Search (lcs s) (icnt s) hc)
      else
        let! c := CMP recs1 (ptr r) recs2 b_ptr in
        if (c : bool) then
          let! (b_next, s) := occurrences (Z.to_nat count1) (cnt r) (ptr r) b_ptr b_next (Search (lcs s) (icnt s) true) in
          try_chain chain b_ptr b_next s
        else try_chain chain b_ptr b_next s
  end.
Definition try_lcs (b_ptr : Z) (s : search) : outcome (Z * search) :=
  let! h := TABLE_HASH index recs2 b_ptr in
  let! chain := rd (records index) h in
  try_chain chain b_ptr (b_ptr + 1) s.
Fixpoint lcs_loop (fuel : nat) (b_ptr : Z) (s : search) : outcome search :=
  match fuel with
  | O => NoFuel
  | S fuel =>
      if b_ptr <=? LINE_END2 then
        let! (b_ptr, s) := try_lcs b_ptr s in
        lcs_loop fuel b_ptr s
      else Ret s
  end.
End lcs.

(** [None] is -1; [true]: lines match but no run was chosen. *)
Definition find_lcs (line1 count1 line2 count2 : Z) : outcome (option (bool * region)) :=
  let! bits := xdl_hashbits (u32 count1) in
  let! size := hsize_of bits in
  let index := Histindex [] (zrep size []) (zrep count1 (-1)) (zrep count1 0) bits line1 in
  let! r := scanA (S (Z.to_nat count1)) index line1 (line1 + count1 - 1) in
  match r with
  | None => Ret None
  | Some index =>
      let! s := lcs_loop index line1 count1 line2 count2 (S (Z.to_nat count2)) line2 (Search (Region 0 0 0 0) (max_chain_length + 1) false) in
      Ret (Some (has_common s && (max_chain_length <? icnt s), lcs s))
  end.
End histogram.

(** ** The recursion *)
Fixpoint histogram_diff (fuel : nat) (malloc : Z → list Z) (flags : Z) (xdf1 xdf2 : xdfile_t) (line1 count1 line2 count2 : Z) : outcome (Z * xdfile_t * xdfile_t) :=
  match fuel with
  | O => NoFuel
  | S fuel =>
      if (count1 <=? 0) && (count2 <=? 0) then Ret (0, xdf1, xdf2)
      else if MAX_PTR <=? u32 (line1 + count1 - 1) then Ret (-1, xdf1, xdf2)
      else if count1 =? 0 then let! xdf2 := mark_lines xdf2 line2 count2 in Ret (0, xdf1, xdf2)
      else if count2 =? 0 then let! xdf1 := mark_lines xdf1 line1 count1 in Ret (0, xdf1, xdf2)
      else
        let! r := find_lcs (recs xdf1) (recs xdf2) line1 count1 line2 count2 in
        match r with
        | None => Ret (-1, xdf1, xdf2)
        | Some (true, _) => fall_back_to_classic_diff malloc flags xdf1 xdf2 line1 count1 line2 count2
        | Some (false, lcs) =>
            if (begin1 lcs =? 0) && (begin2 lcs =? 0) then
              let! xdf1 := mark_lines xdf1 line1 count1 in
              let! xdf2 := mark_lines xdf2 line2 count2 in
              Ret (0, xdf1, xdf2)
            else
              let! (result, xdf1, xdf2) := histogram_diff fuel malloc flags xdf1 xdf2 line1 (begin1 lcs - line1) line2 (begin2 lcs - line2) in
              if negb (result =? 0) then Ret (result, xdf1, xdf2)
              else
                histogram_diff fuel malloc flags xdf1 xdf2 (end1 lcs + 1) (line1 + count1 - 1 - end1 lcs)
                  (end2 lcs + 1) (line2 + count2 - 1 - end2 lcs)
        end
  end.
Definition xdl_do_histogram_diff (malloc : Z → list Z) (flags : Z) : algorithm := λ xdf1 xdf2,
  let count1 := dend xdf1 - dstart xdf1 + 1 in
  let count2 := dend xdf2 - dstart xdf2 + 1 in
  histogram_diff (S (Z.to_nat (count1 + count2))) malloc flags xdf1 xdf2 (dstart xdf1 + 1) count1 (dstart xdf2 + 1) count2.

(** ** The index *)
Lemma cmp_ok recs1 l1 recs2 l2 : 1 <= l1 <= zlen recs1 → 1 <= l2 <= zlen recs2 → CMP recs1 l1 recs2 l2 = Ret (cls recs1 (l1 - 1) =? cls recs2 (l2 - 1)).
Proof.
  intros H1 H2. unfold CMP, REC. destruct (cls_rd recs1 (l1 - 1)) as (r1 & -> & -> & _); [lia|]. destruct (cls_rd recs2 (l2 - 1)) as (r2 & -> & -> & _); [lia|]. done.
Qed.
Lemma table_hash_ok index recs l : 1 <= l <= zlen recs → table_ok (table_bits index) (records index) →
  ∃ h chain, TABLE_HASH index recs l = Ret h ∧ znth (records index) h = Some chain.
Proof.
  intros Hl Ht. unfold TABLE_HASH, REC. destruct (cls_rd recs (l - 1)) as (r & -> & _); [lia|]. cbn [obind].
  destruct (znth_is_Some (records index) (XDL_HASHLONG (rha r) (table_bits index))) as [chain Ec]; [by apply table_hash|]. by eexists _, _.
Qed.

Section index.
Context (recs1 recs2 : list xrecord_t) (line1 count1 line2 count2 : Z).
Abbreviation LINE_END1 := (line1 + count1 - 1).
Abbreviation LINE_END2 := (line2 + count2 - 1).
Hypothesis (R1 : 1 <= line1) (P1 : 1 <= count1) (B1 : LINE_END1 <= zlen recs1).
Hypothesis (R2 : 1 <= line2) (P2 : 1 <= count2) (B2 : LINE_END2 <= zlen recs2).
Abbreviation c1 l := (cls recs1 (l - 1)).
Abbreviation c2 l := (cls recs2 (l - 1)).

(** The lines from [lo] on are in the index. *)
Record indexed (lo : Z) (index : histindex) : Prop := Indexed {
  ix_table : table_ok (table_bits index) (records index);
  ix_chain : ∀ h chain id, znth (records index) h = Some chain → id ∈ chain → 0 <= id < zlen (heap index);
  ix_heap : ∀ id r, znth (heap index) id = Some r → lo <= ptr r <= LINE_END1;
  ix_len : zlen (line_map index) = count1 ∧ zlen (next_ptrs index) = count1 ∧ ptr_shift index = line1;
  ix_map : ∀ p, lo <= p <= LINE_END1 → ∃ id, znth (line_map index) (p - line1) = Some id ∧ 0 <= id < zlen (heap index);
  ix_next : ∀ p q, line1 <= p <= LINE_END1 → znth (next_ptrs index) (p - line1) = Some q → q = 0 ∨ p < q <= LINE_END1 ∧ c1 q = c1 p
}.

Lemma chain_find_wp hp chain p lo : line1 <= lo → line1 <= p <= LINE_END1 → (∀ id, id ∈ chain → 0 <= id < zlen hp) → (∀ id r, znth hp id = Some r → lo <= ptr r <= LINE_END1) →
  returns (chain_find recs1 hp chain p) (λ found, match found with Some id => ∃ r, znth hp id = Some r ∧ c1 (ptr r) = c1 p | None => True end).
Proof.
  intros Hlo Hp. induction chain as [|id chain IH]; intros Hc Hh; cbn [chain_find]; [done|]. destruct (znth_is_Some hp id) as [r Er]; [apply Hc; by left|].
  rewrite (rd_znth _ _ _ Er). cbn [obind]. pose proof (Hh _ _ Er). rewrite cmp_ok by lia. cbn [obind].
  destruct (Z.eqb_spec (c1 (ptr r)) (c1 p)); [cbn; by exists r|]. apply IH; [|done]. intros id' Hid. apply Hc. by right.
Qed.

Lemma scan_line_wp index p : line1 <= p <= LINE_END1 → indexed (p + 1) index → returns (scan_line recs1 index p) (λ r, match r with Some index' => indexed p index' | None => True end).
Proof.
  intros Hp [Ht Hc Hh (Hlm & Hnx & Hsh) Hm Hn]. unfold scan_line. destruct (table_hash_ok index recs1 p) as (h & chain & -> & Ec); [lia|done|]. cbn [obind].
  rewrite (rd_znth _ _ _ Ec). cbn [obind]. apply wp_bind. eapply wp_mono; [|apply (chain_find_wp _ _ _ (p + 1)); [lia|lia|intros id Hid; by eapply Hc|done]].
  rewrite Hsh. intros [id|] Hf; cbn beta iota in Hf |- *.
  - destruct Hf as (r & Er & Ecl). rewrite (rd_znth _ _ _ Er). cbn [obind]. pose proof (znth_Some_lt _ _ _ Er) as Hid. pose proof (Hh _ _ Er) as Hr.
    rewrite wr_ok by lia. cbn [obind]. rewrite wr_ok by done. cbn [obind]. rewrite wr_ok by lia. cbn [obind wp]. split; cbn; rewrite ?zlen_insert; try done.
    + intros id' r' Hr'. destruct (decide (id' = id)) as [->|]; [rewrite znth_insert_eq in Hr' by done; injection Hr' as <-; cbn; lia|].
      rewrite znth_insert_ne in Hr' by lia. specialize (Hh _ _ Hr'). lia.
    + intros p' Hp'. destruct (decide (p' = p)) as [->|]; [rewrite znth_insert_eq by lia; by exists id|]. rewrite znth_insert_ne by lia. apply Hm. lia.
    + intros p' q Hp' Hq. destruct (decide (p' = p)) as [->|].
      * rewrite znth_insert_eq in Hq by lia. injection Hq as <-. right. split; [lia|done].
      * rewrite znth_insert_ne in Hq by lia. by apply Hn.
  - destruct (zlen chain =? max_chain_length); [done|]. pose proof (znth_Some_lt _ _ _ Ec) as Hhi. rewrite wr_ok by done. cbn [obind]. rewrite wr_ok by lia. cbn [obind wp].
    pose proof (zlen_nonneg (heap index)) as Hz0. split; cbn; rewrite ?zlen_insert, ?zlen_app; change (zlen [HRecord p 1]) with 1; try done.
    + by apply table_insert.
    + intros h' ch id' Hch Hid'. destruct (decide (h' = h)) as [->|].
      * rewrite znth_insert_eq in Hch by done. injection Hch as <-. apply elem_of_cons in Hid' as [->|Hid']; [lia|]. specialize (Hc _ _ _ Ec Hid'). lia.
      * rewrite znth_insert_ne in Hch by lia. specialize (Hc _ _ _ Hch Hid'). lia.
    + intros id' r' Hr'. destruct (decide (id' = zlen (heap index))) as [->|]; [rewrite znth_app_len in Hr'; injection Hr' as <-; cbn; lia|].
      pose proof (znth_Some_lt _ _ _ Hr') as Hlt. rewrite zlen_app in Hlt. change (zlen [HRecord p 1]) with 1 in Hlt. rewrite znth_app_l in Hr' by lia. specialize (Hh _ _ Hr'). lia.
    + intros p' Hp'. destruct (decide (p' = p)) as [->|]; [rewrite znth_insert_eq by lia; exists (zlen (heap index)); split; [done|lia]|].
      rewrite znth_insert_ne by lia. destruct (Hm p') as (id' & ? & ?); [lia|]. exists id'. split; [done|lia].
Qed.
Lemma scanA_wp fuel : ∀ index p, line1 - 1 <= p <= LINE_END1 → indexed (p + 1) index → (Z.to_nat (p - line1 + 1) < fuel)%nat →
  returns (scanA recs1 fuel index line1 p) (λ r, match r with Some index' => indexed line1 index' | None => True end).
Proof.
  induction fuel as [|fuel IH]; intros index p Hp Hi Hf; [lia|]. cbn [scanA]. destruct (Z.leb_spec line1 p).
  - apply wp_bind. eapply wp_mono; [|apply scan_line_wp; (done || lia)]. intros [index'|] Hr; [|done]. apply IH; [lia| |lia]. by replace (p - 1 + 1) with p by lia.
  - cbn. by replace line1 with (p + 1) by lia.
Qed.

(** ** Common runs *)
Definition block (as_ ae bs be : Z) : Prop :=
  line1 <= as_ <= ae ∧ ae <= LINE_END1 ∧ line2 <= bs ∧ be <= LINE_END2 ∧ ae - as_ = be - bs ∧ ∀ t, 0 <= t <= ae - as_ → c1 (as_ + t) = c2 (bs + t).
(** No run was chosen, or a common one. *)
Definition lcs_ok (r : region) : Prop := r = Region 0 0 0 0 ∨ block (begin1 r) (end1 r) (begin2 r) (end2 r).

Section lcs_proofs.
Context (index : histindex) (Hix : indexed line1 index).

Lemma low_cnt_wp rc p : line1 <= p <= LINE_END1 → returns (low_cnt index rc p) (λ _, True).
Proof.
  intros Hp. destruct Hix as [_ _ _ (Hlm & _ & Hsh) Hm _]. unfold low_cnt. destruct (1 <? rc); [|done]. destruct (Hm p Hp) as (id & Eid & Hid). unfold CNT. rewrite Hsh.
  rewrite (rd_znth _ _ _ Eid). cbn [obind]. destruct (znth_is_Some (heap index) id Hid) as [r Er]. by rewrite (rd_znth _ _ _ Er).
Qed.
Lemma next_ptr_wp p : line1 <= p <= LINE_END1 → returns (NEXT_PTR index p) (λ q, q = 0 ∨ p < q <= LINE_END1 ∧ c1 q = c1 p).
Proof. intros Hp. destruct Hix as [_ _ _ (_ & Hnx & Hsh) _ Hn]. unfold NEXT_PTR. rewrite Hsh. apply rd_wp; [lia|]. intros q Hq. by apply Hn. Qed.

Lemma grow_back_wp fuel : ∀ as_ bs rc, line1 <= as_ <= LINE_END1 → line2 <= bs <= LINE_END2 → (Z.to_nat (as_ - line1) < fuel)%nat →
  returns (grow_back recs1 recs2 index line1 line2 fuel as_ bs rc)
    (λ '(as', bs', _), line1 <= as' <= as_ ∧ line2 <= bs' ∧ as_ - as' = bs - bs' ∧ ∀ t, 0 <= t < as_ - as' → c1 (as' + t) = c2 (bs' + t)).
Proof.
  induction fuel as [|fuel IH]; intros as_ bs rc Ha Hb Hf; [lia|]. cbn [grow_back].
  assert (line1 <= as_ <= as_ ∧ line2 <= bs ∧ as_ - as_ = bs - bs ∧ ∀ t, 0 <= t < as_ - as_ → c1 (as_ + t) = c2 (bs + t)) as Hstop by (split_and!; try lia; intros; lia).
  destruct (Z.ltb_spec line1 as_), (Z.ltb_spec line2 bs); cbn [andb]; try done. rewrite cmp_ok by lia. cbn [obind].
  destruct (Z.eqb_spec (c1 (as_ - 1)) (c2 (bs - 1))) as [E|]; [|done]. apply wp_bind. eapply wp_mono; [|apply low_cnt_wp; lia]. intros rc' _.
  eapply wp_mono; [|apply IH; lia]. intros [[as' bs'] rc''] (? & ? & ? & Hc). split; [lia|]. split; [lia|]. split; [lia|]. intros t Ht.
  destruct (decide (t = as_ - 1 - as')) as [->|]; [|apply Hc; lia]. replace (as' + (as_ - 1 - as')) with (as_ - 1) by lia. rewrite E. f_equal. lia.
Qed.
Lemma grow_fwd_wp fuel : ∀ ae be rc, line1 <= ae <= LINE_END1 → line2 <= be <= LINE_END2 → (Z.to_nat (LINE_END1 - ae) < fuel)%nat →
  returns (grow_fwd recs1 recs2 index line1 count1 line2 count2 fuel ae be rc)
    (λ '(ae', be', _), ae <= ae' <= LINE_END1 ∧ be' <= LINE_END2 ∧ ae' - ae = be' - be ∧ ∀ t, 0 < t <= ae' - ae → c1 (ae + t) = c2 (be + t)).
Proof.
  induction fuel as [|fuel IH]; intros ae be rc Ha Hb Hf; [lia|]. cbn [grow_fwd].
  assert (ae <= ae <= LINE_END1 ∧ be <= LINE_END2 ∧ ae - ae = be - be ∧ ∀ t, 0 < t <= ae - ae → c1 (ae + t) = c2 (be + t)) as Hstop by (split_and!; try lia; intros; lia).
  destruct (Z.ltb_spec ae LINE_END1), (Z.ltb_spec be LINE_END2); cbn [andb]; try done. rewrite cmp_ok by lia. cbn [obind].
  destruct (Z.eqb_spec (c1 (ae + 1)) (c2 (be + 1))) as [E|]; [|done]. apply wp_bind. eapply wp_mono; [|apply low_cnt_wp; lia]. intros rc' _.
  eapply wp_mono; [|apply IH; lia]. intros [[ae' be'] rc''] (? & ? & ? & Hc). split; [lia|]. split; [lia|]. split; [lia|]. intros t Ht.
  destruct (decide (t = 1)) as [->|]; [done|]. replace (ae + t) with (ae + 1 + (t - 1)) by lia. replace (be + t) with (be + 1 + (t - 1)) by lia. apply Hc. lia.
Qed.
Lemma skip_run_wp fuel : ∀ ae np, line1 <= np <= LINE_END1 → (Z.to_nat (LINE_END1 - np) < fuel)%nat →
  returns (skip_run index fuel ae np) (λ r, match r with Some np' => ae < np' <= LINE_END1 ∧ np <= np' ∧ c1 np' = c1 np | None => True end).
Proof.
  induction fuel as [|fuel IH]; intros ae np Hn Hf; [lia|]. cbn [skip_run]. destruct (Z.leb_spec np ae); [|cbn; split_and!; (done || lia)].
  apply wp_bind. eapply wp_mono; [|by apply next_ptr_wp]. intros q Hq. cbn beta in Hq. destruct (Z.eqb_spec q 0); [done|]. destruct Hq as [?|[Hq Ec]]; [done|].
  eapply wp_mono; [|apply IH; lia]. intros [np'|] Hr; [|done]. cbn beta iota in Hr. destruct Hr as (? & ? & ?). split_and!; (lia || congruence).
Qed.
Lemma better_ok s as_ ae bs be rc : lcs_ok (lcs s) → block as_ ae bs be → lcs_ok (lcs (better s as_ ae bs be rc)).
Proof. intros Hs Hb. unfold better. destruct (_ || _); [by right|done]. Qed.

Lemma occurrences_wp fuel : ∀ rcnt as_ b_ptr b_next s, line1 <= as_ <= LINE_END1 → line2 <= b_ptr <= LINE_END2 → c1 as_ = c2 b_ptr → lcs_ok (lcs s) → (Z.to_nat (LINE_END1 - as_) < fuel)%nat →
  returns (occurrences recs1 recs2 index line1 count1 line2 count2 fuel rcnt as_ b_ptr b_next s) (λ '(b', s'), b_next <= b' ∧ lcs_ok (lcs s')).
Proof.
  induction fuel as [|fuel IH]; intros rcnt as_ b_ptr b_next s Ha Hb Ec Hs Hf; [lia|]. cbn [occurrences].
  apply wp_bind. eapply wp_mono; [|by apply next_ptr_wp]. intros np Hnp. cbn beta in Hnp.
  apply wp_bind. eapply wp_mono; [|apply grow_back_wp; lia]. intros [[as' bs] rc] (Q1 & Q2 & Q3 & Hcb).
  apply wp_bind. eapply wp_mono; [|apply (grow_fwd_wp _ as_ b_ptr); lia]. intros [[ae be] rc'] (Q4 & Q5 & Q6 & Hcf). cbn beta iota zeta.
  assert (lcs_ok (lcs (better s as' ae bs be rc'))) as Hs'.
  { apply better_ok; [done|]. unfold block. split; [lia|]. split; [lia|]. split; [lia|]. split; [lia|]. split; [lia|]. intros t Ht.
    destruct (Z.lt_trichotomy t (as_ - as')) as [|[->|]]; [apply Hcb; lia| |].
    - replace (as' + (as_ - as')) with as_ by lia. rewrite Ec. f_equal. lia.
    - replace (as' + t) with (as_ + (t - (as_ - as'))) by lia. replace (bs + t) with (b_ptr + (t - (as_ - as'))) by lia. apply Hcf. lia. }
  destruct (Z.eqb_spec np 0); [cbn; split; [bcase; lia|done]|]. destruct Hnp as [?|[Hnp En]]; [done|].
  apply wp_bind. eapply wp_mono; [|apply (skip_run_wp _ ae np); lia]. intros [np'|] Hr; cbn beta iota in Hr; [|cbn; split; [bcase; lia|done]].
  destruct Hr as (R3 & R4 & R5). eapply wp_mono; [|apply IH; (done || lia || congruence)]. intros [b' s'] [Hb' ?]. split; [|done]. revert Hb'. bcase; lia.
Qed.
Lemma try_chain_wp chain : ∀ b_ptr b_next s, (∀ id, id ∈ chain → 0 <= id < zlen (heap index)) → line2 <= b_ptr <= LINE_END2 → lcs_ok (lcs s) →
  returns (try_chain recs1 recs2 index line1 count1 line2 count2 chain b_ptr b_next s) (λ '(b', s'), b_next <= b' ∧ lcs_ok (lcs s')).
Proof.
  induction chain as [|id chain IH]; intros b_ptr b_next s Hc Hb Hs; cbn [try_chain]; [cbn; split; [lia|done]|].
  destruct (znth_is_Some (heap index) id) as [r Er]; [apply Hc; by left|]. rewrite (rd_znth _ _ _ Er). cbn [obind].
  pose proof (ix_heap _ _ Hix _ _ Er) as Hr. rewrite cmp_ok by lia.
  assert (∀ id, id ∈ chain → 0 <= id < zlen (heap index)) as Hc' by (intros id' ?; apply Hc; by right).
  destruct (icnt s <? cnt r); [destruct (has_common s); cbn [negb obind]; by apply IH|]. cbn [obind]. destruct (Z.eqb_spec (c1 (ptr r)) (c2 b_ptr)); [|by apply IH].
  apply wp_bind. eapply wp_mono; [|apply occurrences_wp; (done || lia)]. intros [b' s'] [Hb' Hs']. eapply wp_mono; [|by apply IH]. intros [b'' s''] [? ?]. split; [lia|done].
Qed.
Lemma lcs_loop_wp fuel : ∀ b_ptr s, line2 <= b_ptr → lcs_ok (lcs s) → (Z.to_nat (LINE_END2 + 1 - b_ptr) < fuel)%nat →
  returns (lcs_loop recs1 recs2 index line1 count1 line2 count2 fuel b_ptr s) (λ s', lcs_ok (lcs s')).
Proof.
  induction fuel as [|fuel IH]; intros b_ptr s Hb Hs Hf; [lia|]. cbn [lcs_loop]. destruct (Z.leb_spec b_ptr LINE_END2); [|done].
  unfold try_lcs. destruct (table_hash_ok index recs2 b_ptr) as (h & chain & -> & Ec); [lia|by destruct Hix|]. cbn [obind]. rewrite (rd_znth _ _ _ Ec). cbn [obind].
  apply wp_bind. eapply wp_mono; [|apply try_chain_wp; [|lia|done]].
  - intros [b' s'] [Hb' Hs']. apply IH; (done || lia).
  - intros id Hid. by eapply (ix_chain _ _ Hix).
Qed.
End lcs_proofs.

Lemma find_lcs_wp : count1 < 2 ^ 30 → returns (find_lcs recs1 recs2 line1 count1 line2 count2) (λ r, match r with Some (_, r) => lcs_ok r | None => True end).
Proof.
  intros Hn. unfold find_lcs. assert (u32 count1 = count1) as -> by (unfold u32; apply Z.mod_small; lia).
  apply wp_bind. eapply wp_mono; [|apply hashbits_wp; lia]. intros hb Hhb. destruct (hsize_of_ok hb Hhb) as [-> Ht]. cbn [obind].
  apply wp_bind. eapply wp_mono; [|apply scanA_wp; [lia| |lia]].
  - intros [index|] Hix; [|done]. cbn beta iota in Hix. apply wp_bind. eapply wp_mono; [|apply lcs_loop_wp; [done|lia|by left|lia]]. intros s Hs. exact Hs.
  - assert (∀ A n (v x : A) i, znth (zrep n v) i = Some x → x = v) as Hrep.
    { intros A n v x i Hx. apply znth_elem_of in Hx. unfold zrep in Hx. by apply elem_of_replicate in Hx as [-> _]. }
    split; cbn [table_bits records heap line_map next_ptrs ptr_shift]; try done.
    + intros h chain id Hc Hid. apply Hrep in Hc as ->. by apply not_elem_of_nil in Hid.
    + intros id r Hr. by apply znth_elem_of, not_elem_of_nil in Hr.
    + rewrite !zlen_zrep by lia. done.
    + lia.
    + intros p q _ Hq. apply Hrep in Hq. by left.
Qed.
End index.

(** ** The whole *)
Section diff.
Context (malloc : Z → list Z) (flags : Z) (Hmal : malloc_ok malloc) (Hws : flag flags XDF_WHITESPACE_FLAGS = false).
Context (recs1 recs2 : list xrecord_t) (Hct : comparable recs1 recs2) (N1 : zlen recs1 < 2 ^ 29) (N2 : zlen recs2 < 2 ^ 29).
Abbreviation n1 := (zlen recs1).
Abbreviation n2 := (zlen recs2).

(** The marks are made, or -1 is returned. *)
Definition step_done (x1 x2 : xdfile_t) (line1 count1 line2 count2 : Z) : Z * xdfile_t * xdfile_t → Prop := λ '(res, y1, y2),
  res = 0 ∧ marks_made recs1 recs2 x1 x2 line1 count1 line2 count2 y1 y2 ∨ res = -1.
Lemma no_failure o x1 x2 line1 count1 line2 count2 : returns o (λ '(res, y1, y2), res = 0 ∧ marks_made recs1 recs2 x1 x2 line1 count1 line2 count2 y1 y2) → returns o (step_done x1 x2 line1 count1 line2 count2).
Proof. intros H. eapply wp_mono; [|exact H]. intros [[res y1] y2] ?. by left. Qed.

Lemma histogram_diff_wp fuel : ∀ x1 x2 line1 count1 line2 count2, recs x1 = recs1 → recs x2 = recs2 → clean_rchg n1 (rchg x1) → clean_rchg n2 (rchg x2) →
  1 <= line1 → 0 <= count1 → line1 - 1 + count1 <= n1 → 1 <= line2 → 0 <= count2 → line2 - 1 + count2 <= n2 →
  region_fresh (rchg x1) (line1 - 1) (line1 - 1 + count1) → region_fresh (rchg x2) (line2 - 1) (line2 - 1 + count2) → (Z.to_nat (count1 + count2) < fuel)%nat →
  returns (histogram_diff fuel malloc flags x1 x2 line1 count1 line2 count2) (step_done x1 x2 line1 count1 line2 count2).
Proof.
  induction fuel as [|fuel IH]; intros x1 x2 line1 count1 line2 count2 R1 R2 C1 C2 Hl1 Hc1 Hn1 Hl2 Hc2 Hn2 F1 F2 Hf; [lia|]. cbn [histogram_diff].
  destruct (Z.leb_spec count1 0), (Z.leb_spec count2 0); cbn [andb].
  { left. split; [done|]. exists (rchg x1), (rchg x2). rewrite !with_rchg_same. split; [done|]. split; [done|]. apply region_none; try done; intros; lia. }
  all: rewrite (proj2 (Z.leb_gt MAX_PTR (u32 (line1 + count1 - 1)))) by (unfold MAX_PTR, u32; rewrite Z.mod_small; lia).
  { replace count1 with 0 by lia. change (0 =? 0) with true. cbn match. apply no_failure, mark_second_wp; (done || lia). }
  { rewrite (proj2 (Z.eqb_neq count1 0)) by lia. replace count2 with 0 by lia. change (0 =? 0) with true. cbn match. apply no_failure, mark_first_wp; (done || lia). }
  rewrite (proj2 (Z.eqb_neq count1 0)), (proj2 (Z.eqb_neq count2 0)) by lia.
  apply wp_bind. rewrite R1, R2. eapply wp_mono; [|apply find_lcs_wp; lia]. intros [[[|] lcs]|] Hlcs; [| |by right].
  { apply no_failure. rewrite <- R1, <- R2. apply fall_back_to_classic_wp; rewrite ?R1, ?R2; (done || lia). }
  cbn beta iota in Hlcs. destruct ((begin1 lcs =? 0) && (begin2 lcs =? 0)) eqn:Ez; [apply no_failure, mark_both_wp; done|].
  destruct Hlcs as [->|(Q1 & Q2 & Q3 & Q4 & Q5 & Hc)]; [done|].
  apply wp_bind. eapply wp_mono; [|apply IH; try (done || lia); intros i Hi; [apply F1; lia|apply F2; lia]].
  intros [[res y1] y2] [(-> & r1 & r2 & -> & -> & Hd) | ->]; [|by right].
  change (negb (0 =? 0)) with false. cbn match. replace (line1 - 1 + (begin1 lcs - line1)) with (begin1 lcs - 1) in Hd by lia. replace (line2 - 1 + (begin2 lcs - line2)) with (begin2 lcs - 1) in Hd by lia.
  pose proof Hd as [Cr1 Cr2 O1 O2 _].
  assert (region_fresh r1 (begin1 lcs - 1) (line1 - 1 + count1)) as G1 by (apply (fresh_outside n1 (rchg x1) r1 (line1 - 1) (begin1 lcs - 1)); [lia|lia|done|lia|intros i Hi; apply F1; lia]).
  assert (region_fresh r2 (begin2 lcs - 1) (line2 - 1 + count2)) as G2 by (apply (fresh_outside n2 (rchg x2) r2 (line2 - 1) (begin2 lcs - 1)); [lia|lia|done|lia|intros i Hi; apply F2; lia]).
  eapply wp_mono; [|apply IH; try (done || lia); cbn; intros i Hi; [apply G1; lia|apply G2; lia]].
  intros [[res y1] y2] [(-> & s1 & s2 & -> & -> & Hd') | ->]; [left; split; [done|]; exists s1, s2; split; [done|]; split; [done|]|by right]. cbn in Hd'.
  set (k := end1 lcs - begin1 lcs + 1). assert (region_done recs1 recs2 (begin1 lcs - 1) (begin1 lcs - 1 + k) (begin2 lcs - 1) (begin2 lcs - 1 + k) r1 r2 r1 r2) as Hk.
  { apply region_common; try done; [lia|intros i Hi; apply G1; lia|intros i Hi; apply G2; lia|]. intros t Ht. specialize (Hc t ltac:(lia)).
    replace (begin1 lcs - 1 + t) with (begin1 lcs + t - 1) by lia. by replace (begin2 lcs - 1 + t) with (begin2 lcs + t - 1) by lia. }
  replace (begin1 lcs - 1 + k) with (end1 lcs) in Hk by lia. replace (begin2 lcs - 1 + k) with (end2 lcs) in Hk by lia.
  rewrite !Z.add_simpl_r in Hd'. replace (end1 lcs + (line1 + count1 - 1 - end1 lcs)) with (line1 - 1 + count1) in Hd' by lia. replace (end2 lcs + (line2 + count2 - 1 - end2 lcs)) with (line2 - 1 + count2) in Hd' by lia.
  eapply region_app; [..|exact Hd|]; try lia. eapply region_app; [..|exact Hk|exact Hd']; lia.
Qed.
End diff.

#[export] Instance histogram_line_algorithm malloc flags : malloc_ok malloc → flag flags XDF_WHITESPACE_FLAGS = false →
  LineAlgorithm (λ _, True) true (xdl_do_histogram_diff malloc flags).
Proof.
  intros Hmal Hws x1 x2 Hct _ Z1 Z2 [N1 E1 [S1 D1]] [N2 E2 [S2 D2]]. unfold xdl_do_histogram_diff. rewrite S1, S2, D1, D2. pose proof (zlen_nonneg (recs x1)). pose proof (zlen_nonneg (recs x2)).
  destruct (clean_zeros (nrec x1)) as [C1 F1]; [lia|]. destruct (clean_zeros (nrec x2)) as [C2 F2]; [lia|]. rewrite <- E1 in C1, F1. rewrite <- E2 in C2, F2.
  replace (nrec x1 - 1 - 0 + 1) with (nrec x1) by lia. replace (nrec x2 - 1 - 0 + 1) with (nrec x2) by lia.
  eapply wp_mono; [|apply (histogram_diff_wp malloc flags Hmal Hws (recs x1) (recs x2)); rewrite <- ?N1, <- ?N2; try (done || lia)].
  intros [[res y1] y2] [?|?]; [by left|by right].
Qed.

End XdlHistogram.
