(* ===== verification/XdlPatience.v ===== *)
(** * The patience algorithm (xdiff/xpatience.c)

    The lines of a region that occur once in both files, and the longest
    sequence of them in the order of both files (longest through the anchors, if
    there are some), are taken as common; what lies between them is compared in
    the same way, by the default algorithm where no line is unique.  The table of
    the lines is an array with linear probing; the list of its entries in the
    order of the first file ([first], [next], [last]) is [order], a list of places
    in the array, and the sequence found is such a list as well.
    The result: the lines left unmarked agree, and it never fails. *)
From stdpp Require Import prelude sorting.
From S2P Require Import Prelude XdlUtils XdlDiff XdlPrepare XdlCompact XdlMyers XdlRegion.
Import XdlUtils XdlDiff XdlPrepare XdlCompact XdlMyers XdlRegion.

Module XdlPatience.

Definition NON_UNIQUE : Z := 2 ^ 64 - 1.
(** A null [previous] is -1. *)
Record entry := Entry { hash : Z; line1 : Z; line2 : Z; previous : Z; anchor : bool }.
Record hashmap := Hashmap { alloc : Z; entries : list entry; order : list Z; has_matches : bool }.

Definition with_line2 (e : entry) (l : Z) : entry := Entry (hash e) (line1 e) l (previous e) (anchor e).
Definition with_previous (e : entry) (p : Z) : entry := Entry (hash e) (line1 e) (line2 e) p (anchor e).

(** ** Anchors *)

(** [!strncmp(line, anchor, strlen(anchor))]: the bytes behind the line count as
    well, those behind the file must not be read. *)
Fixpoint anchored (data anchor : list Z) : outcome bool :=
  match anchor, data with
  | [], _ => Ret true
  | _ :: _, [] => UB
  | a :: anchor, c :: data => if c =? a then anchored data anchor else Ret false
  end.
Fixpoint is_anchor (anchors : list (list Z)) (data : list Z) : outcome bool :=
  match anchors with
  | [] => Ret false
  | a :: anchors => let! b := anchored data a in if (b : bool) then Ret true else is_anchor anchors data
  end.

Section patience.
Context (anchors : list (list Z)) (recs1 recs2 : list xrecord_t).

(** ** The table *)

(** The entry of a class, or the unused one in front of which the search ends. *)
Fixpoint probe (fuel : nat) (es : list entry) (alloc index ha : Z) : outcome (Z * entry) :=
  match fuel with
  | O => NoFuel
  | S fuel =>
      let! e := rd es index in
      if line1 e =? 0 then Ret (index, e)
      else if negb (hash e =? ha) then probe fuel es alloc (if alloc <=? index + 1 then 0 else index + 1) ha
      else Ret (index, e)
  end.
(** [second]: the pass over the second file. *)
Definition insert_record (line : Z) (map : hashmap) (second : bool) : outcome hashmap :=
  let! record := rd (if second then recs2 else recs1) (line - 1) in
  let index := u64 (Z.shiftl (rha record) 1) mod alloc map in
  let! (index, e) := probe (S (length (entries map))) (entries map) (alloc map) index (rha record) in
  if negb (line1 e =? 0) then
    let l2 := if negb second || negb (line2 e =? 0) then NON_UNIQUE else line in
    let! es := wr (entries map) index (with_line2 e l2) in
    Ret (Hashmap (alloc map) es (order map) (second || has_matches map))
  else if second then Ret map
  else
    let! a := is_anchor anchors (concat (XdlPrepare.line <$> zdrop (line - 1) recs1)) in
    let prev := match last (order map) with Some l => l | None => previous e end in
    let! es := wr (entries map) index (Entry (rha record) line (line2 e) prev a) in
    Ret (Hashmap (alloc map) es (order map ++ [index]) (has_matches map)).
(** [while (count--) insert_record(xpp, line++, result, pass);] *)
Fixpoint insert_lines (count : nat) (line : Z) (map : hashmap) (second : bool) : outcome hashmap :=
  match count with
  | O => Ret map
  | S count => let! map := insert_record line map second in insert_lines count (line + 1) map second
  end.
Definition fill_hashmap (l1 count1 l2 count2 : Z) : outcome hashmap :=
  let alloc := count1 * 2 in
  let map := Hashmap alloc (zrep alloc (Entry 0 0 0 (-1) false)) [] false in
  let! map := insert_lines (Z.to_nat count1) l1 map false in
  insert_lines (Z.to_nat count2) l2 map true.
End patience.

(** ** The longest common sequence *)
Fixpoint search_loop (fuel : nat) (es : list entry) (sequence : list Z) (left right : Z) (e : entry) : outcome Z :=
  match fuel with
  | O => NoFuel
  | S fuel =>
      if left + 1 <? right then
        let middle := left + Z.quot (right - left) 2 in
        let! id := rd sequence middle in
        let! m := rd es id in
        if line2 e <? line2 m then search_loop fuel es sequence left middle e else search_loop fuel es sequence middle right e
      else Ret left
  end.
Definition binary_search (es : list entry) (sequence : list Z) (longest : Z) (e : entry) : outcome Z :=
  search_loop (S (Z.to_nat longest)) es sequence (-1) longest e.

(** Entries, sequence, its length, and [anchor_i]. *)
Fixpoint sequence_loop (todo : list Z) (es : list entry) (sequence : list Z) (longest anchor_i : Z) : outcome (list entry * list Z * Z) :=
  match todo with
  | [] => Ret (es, sequence, longest)
  | id :: todo =>
      let! e := rd es id in
      if (line2 e =? 0) || (line2 e =? NON_UNIQUE) then sequence_loop todo es sequence longest anchor_i
      else
        let! i := binary_search es sequence longest e in
        let! p := if i <? 0 then Ret (-1) else rd sequence i in
        let! es := wr es id (with_previous e p) in
        let i := i + 1 in
        if i <=? anchor_i then sequence_loop todo es sequence longest anchor_i
        else
          let! sequence := wr sequence i id in
          if anchor e then sequence_loop todo es sequence (i + 1) i
          else sequence_loop todo es sequence (if i =? longest then longest + 1 else longest) anchor_i
  end.
(** [entry->previous->next = entry; entry = entry->previous]; [next] is what has
    been gone through. *)
Fixpoint thread (fuel : nat) (es : list entry) (id : Z) (next : list Z) : outcome (list Z) :=
  match fuel with
  | O => NoFuel
  | S fuel =>
      let! e := rd es id in
      if previous e =? -1 then Ret (id :: next) else thread fuel es (previous e) (id :: next)
  end.
(** The empty list is a null pointer. *)
Definition find_longest_common_sequence (map : hashmap) : outcome (list Z) :=
  let nr := zlen (order map) in
  let! (es, sequence, longest) := sequence_loop (order map) (entries map) (zrep nr (-1)) 0 (-1) in
  if longest =? 0 then Ret []
  else let! id := rd sequence (longest - 1) in thread (length es) es id [].

(** ** The walk along it *)
Section walk.
Context (recs1 recs2 : list xrecord_t) (es : list entry).

Definition match_ (l1 l2 : Z) : outcome bool :=
  let! record1 := rd recs1 (l1 - 1) in
  let! record2 := rd recs2 (l2 - 1) in
  Ret (rha record1 =? rha record2).
(** The common lines in front of a pair, and those behind the last one. *)
Fixpoint grow_up (fuel : nat) (l1 l2 next1 next2 : Z) : outcome (Z * Z) :=
  match fuel with
  | O => NoFuel
  | S fuel =>
      if (l1 <? next1) && (l2 <? next2) then
        let! c := match_ (next1 - 1) (next2 - 1) in
        if (c : bool) then grow_up fuel l1 l2 (next1 - 1) (next2 - 1) else Ret (next1, next2)
      else Ret (next1, next2)
  end.
Fixpoint grow_down (fuel : nat) (l1 l2 next1 next2 : Z) : outcome (Z * Z) :=
  match fuel with
  | O => NoFuel
  | S fuel =>
      if (l1 <? next1) && (l2 <? next2) then
        let! c := match_ l1 l2 in
        if (c : bool) then grow_down fuel (l1 + 1) (l2 + 1) next1 next2 else Ret (l1, l2)
      else Ret (l1, l2)
  end.
(** [while (first->next && ...) first = first->next;] and what follows. *)
Fixpoint adjacent (first : entry) (next : list Z) : outcome (entry * list Z) :=
  match next with
  | [] => Ret (first, [])
  | id :: next' =>
      let! e := rd es id in
      if (line1 e =? line1 first + 1) && (line2 e =? line2 first + 1) then adjacent e next' else Ret (first, next)
  end.

Context (patience_diff : xdfile_t → xdfile_t → Z → Z → Z → Z → outcome (Z * xdfile_t * xdfile_t)).
Fixpoint walk_common_sequence (fuel : nat) (first : list Z) (xdf1 xdf2 : xdfile_t) (l1 end1 l2 end2 : Z) : outcome (Z * xdfile_t * xdfile_t) :=
  match fuel with
  | O => NoFuel
  | S fuel =>
      let! (next1, next2) :=
        match first with
        | id :: _ => let! e := rd es id in grow_up (S (length recs1)) l1 l2 (line1 e) (line2 e)
        | [] => Ret (end1, end2)
        end in
      let! (l1, l2) := grow_down (S (length recs1)) l1 l2 next1 next2 in
      let! (res, xdf1, xdf2) :=
        if (l1 <? next1) || (l2 <? next2) then patience_diff xdf1 xdf2 l1 (next1 - l1) l2 (next2 - l2)
        else Ret (0, xdf1, xdf2) in
      if negb (res =? 0) then Ret (-1, xdf1, xdf2)
      else
        match first with
        | [] => Ret (0, xdf1, xdf2)
        | id :: next =>
            let! e := rd es id in
            let! (e, next) := adjacent e next in
            walk_common_sequence fuel next xdf1 xdf2 (line1 e + 1) end1 (line2 e + 1) end2
        end
  end.
End walk.

(** ** The recursion *)
Fixpoint patience_diff (fuel : nat) (anchors : list (list Z)) (malloc : Z → list Z) (flags : Z) (xdf1 xdf2 : xdfile_t) (l1 count1 l2 count2 : Z) : outcome (Z * xdfile_t * xdfile_t) :=
  match fuel with
  | O => NoFuel
  | S fuel =>
      if count1 =? 0 then let! xdf2 := mark_lines xdf2 l2 count2 in Ret (0, xdf1, xdf2)
      else if count2 =? 0 then let! xdf1 := mark_lines xdf1 l1 count1 in Ret (0, xdf1, xdf2)
      else
        let! map := fill_hashmap anchors (recs xdf1) (recs xdf2) l1 count1 l2 count2 in
        if negb (has_matches map) then
          let! xdf1 := mark_lines xdf1 l1 count1 in
          let! xdf2 := mark_lines xdf2 l2 count2 in
          Ret (0, xdf1, xdf2)
        else
          let! first := find_longest_common_sequence map in
          match first with
          | [] => fall_back_to_classic_diff malloc flags xdf1 xdf2 l1 count1 l2 count2
          | _ :: _ =>
              walk_common_sequence (recs xdf1) (recs xdf2) (entries map) (patience_diff fuel anchors malloc flags) (S (length first)) first
                xdf1 xdf2 l1 (l1 + count1) l2 (l2 + count2)
          end
  end.
Definition xdl_do_patience_diff (anchors : list (list Z)) (malloc : Z → list Z) (flags : Z) : algorithm := λ xdf1 xdf2,
  patience_diff (S (Z.to_nat (nrec xdf1 + nrec xdf2))) anchors malloc flags xdf1 xdf2 1 (nrec xdf1) 1 (nrec xdf2).
(** ** Anchors *)

(** An anchor is of one line and the lines of the file are complete. *)
Definition anchors_fit (anchors : list (list Z)) (recs1 : list xrecord_t) : Prop :=
  anchors = [] ∨ Forall (λ a, 10 ∉ a) anchors ∧ Forall whole_line (line <$> recs1).
Lemma anchored_wp a : ∀ b rest, 10 ∉ a → returns (anchored (b ++ 10 :: rest) a) (λ _, True).
Proof.
  induction a as [|x a IH]; intros b rest Ha; [by destruct b|]. apply not_elem_of_cons in Ha as [Hx Ha].
  destruct b as [|c b]; cbn [anchored app]; [by rewrite (proj2 (Z.eqb_neq 10 x))|]. destruct (c =? x); [by apply IH|done].
Qed.
Lemma is_anchor_wp anchors recs1 i : anchors_fit anchors recs1 → 0 <= i < zlen recs1 → returns (is_anchor anchors (concat (line <$> zdrop i recs1))) (λ _, True).
Proof.
  intros [->|[Ha Hl]] Hi; [done|]. destruct (znth_is_Some recs1 i Hi) as [r Er]. rewrite (zdrop_cons recs1 i r) by (done || lia). cbn [fmap list_fmap concat].
  rewrite Forall_forall in Hl. destruct (Hl (line r)) as (b & Eb & _); [apply list_elem_of_fmap; exists r; split; [done|by eapply znth_elem_of]|]. rewrite Eb, <- app_assoc. cbn [app].
  induction Ha as [|a anchors Hx Ha IH]; [done|]. cbn [is_anchor]. apply wp_bind. eapply wp_mono; [|by apply anchored_wp]. intros [|] _; [done|exact IH].
Qed.

(** ** The table *)
Definition line1_at (es : list entry) (id : Z) : Z := from_option line1 0 (znth es id).
Definition candidate (e : entry) : Prop := line2 e ≠ 0 ∧ line2 e ≠ NON_UNIQUE.
Section table.
Context (anchors : list (list Z)) (recs1 recs2 : list xrecord_t) (a1 k1 a2 k2 : Z).
Hypothesis (R1 : 1 <= a1) (K1 : 1 <= k1) (B1 : a1 - 1 + k1 <= zlen recs1) (R2 : 1 <= a2) (K2 : 0 <= k2) (B2 : a2 - 1 + k2 <= zlen recs2) (Z2 : zlen recs2 < 2 ^ 29).
Hypothesis (Hfit : anchors_fit anchors recs1).
Abbreviation c1 l := (cls recs1 (l - 1)).
Abbreviation c2 l := (cls recs2 (l - 1)).

(** The lines in front of [n1] and [n2] are in the table. *)
Record entry_ok (n1 n2 : Z) (e : entry) : Prop := EntryOk {
  en_line1 : a1 <= line1 e < n1;
  en_hash : hash e = c1 (line1 e);
  en_line2 : line2 e = 0 ∨ line2 e = NON_UNIQUE ∨ a2 <= line2 e < n2 ∧ c2 (line2 e) = hash e
}.
Record map_ok (n1 n2 : Z) (map : hashmap) : Prop := MapOk {
  mp_len : zlen (entries map) = alloc map ∧ alloc map = k1 * 2;
  mp_entry : ∀ id e, znth (entries map) id = Some e → line1 e = 0 ∧ line2 e = 0 ∨ id ∈ order map ∧ entry_ok n1 n2 e;
  mp_order : ∀ id, id ∈ order map → ∃ e, znth (entries map) id = Some e ∧ line1 e ≠ 0;
  mp_sorted : StronglySorted (λ i j, line1_at (entries map) i < line1_at (entries map) j) (order map);
  mp_distinct : ∀ i j e e', znth (entries map) i = Some e → znth (entries map) j = Some e' → candidate e → line2 e = line2 e' → i = j;
  mp_count : zlen (order map) <= n1 - a1
}.

Lemma entry_mono n1 n2 n1' n2' e : n1 <= n1' → n2 <= n2' → entry_ok n1 n2 e → entry_ok n1' n2' e.
Proof. intros H1 H2 [? ? H]. split; [lia|done|]. destruct H as [?|[?|[? ?]]]; [by left|right; by left|right; right; split; [lia|done]]. Qed.

Lemma order_entry n1 n2 map id : map_ok n1 n2 map → id ∈ order map → ∃ e, znth (entries map) id = Some e ∧ entry_ok n1 n2 e.
Proof. intros Hm Hid. destruct (mp_order _ _ _ Hm id Hid) as (e & Ee & Hl). exists e. split; [done|]. by destruct (mp_entry _ _ _ Hm id e Ee) as [[? _]|[_ ?]]. Qed.

Lemma sorted_ext es es' l : (∀ i, i ∈ l → line1_at es' i = line1_at es i) → StronglySorted (λ i j, line1_at es i < line1_at es j) l → StronglySorted (λ i j, line1_at es' i < line1_at es' j) l.
Proof.
  intros H Hs. induction Hs as [|i l Hs IH Hi]; constructor; [apply IH; intros j Hj; apply H; by right|].
  rewrite Forall_forall in Hi |- *. intros j Hj. rewrite !H by (by left || by right). by apply Hi.
Qed.

(** There is an unused entry, and the search comes to it. *)
Lemma unused n1 n2 map : map_ok n1 n2 map → n1 <= a1 + k1 → ∃ k e, 0 <= k < alloc map ∧ znth (entries map) k = Some e ∧ line1 e = 0.
Proof.
  intros Hm Hn. destruct (mp_len _ _ _ Hm) as [Hz Ha]. destruct (decide (Forall (λ i, i ∈ order map) (seqZ 0 (alloc map)))) as [Hall|Hno].
  - assert (length (seqZ 0 (alloc map)) <= length (order map))%nat as Hle.
    { apply submseteq_length, NoDup_submseteq; [apply NoDup_seqZ|]. rewrite Forall_forall in Hall. exact Hall. }
    rewrite length_seqZ in Hle. pose proof (mp_count _ _ _ Hm) as Hc. unfold zlen in Hc. lia.
  - apply not_Forall_Exists in Hno; [|apply _]. apply Exists_exists in Hno as (k & Hk & Hnot). apply elem_of_seqZ in Hk. destruct (znth_is_Some (entries map) k) as [e Ee]; [lia|].
    exists k, e. split; [lia|]. split; [done|]. destruct (mp_entry _ _ _ Hm k e Ee) as [[? _]|[? _]]; [done|]. by destruct Hnot.
Qed.
Lemma probe_wp es al k ek ha : zlen es = al → 0 <= k < al → znth es k = Some ek → line1 ek = 0 → ∀ fuel index, 0 <= index < al → (Z.to_nat ((k - index) mod al) < fuel)%nat →
  returns (probe fuel es al index ha) (λ '(i, e), znth es i = Some e ∧ (line1 e = 0 ∨ hash e = ha)).
Proof.
  intros Hz Hk Ek E0. induction fuel as [|fuel IH]; intros index Hi Hf; [lia|]. cbn [probe]. destruct (znth_is_Some es index) as [e Ee]; [lia|]. rewrite (rd_znth _ _ _ Ee). cbn [obind].
  destruct (Z.eqb_spec (line1 e) 0); [cbn; split; [done|by left]|]. destruct (Z.eqb_spec (hash e) ha); cbn [negb]; [cbn; split; [done|by right]|].
  assert (index ≠ k) by congruence. assert ((k - index) mod al = if index <? k then k - index else k - index + al) as Ed.
  { destruct (Z.ltb_spec index k); [apply Z.mod_small; lia|]. rewrite <- (Z_mod_plus_full (k - index) 1 al). rewrite Z.mul_1_l. apply Z.mod_small. lia. }
  rewrite Ed in Hf. destruct (Z.leb_spec al (index + 1)).
  - apply IH; [lia|]. rewrite Z.sub_0_r, Z.mod_small by lia. revert Hf. bcase; lia.
  - apply IH; [lia|]. destruct (Z.ltb_spec index k).
    + rewrite Z.mod_small by lia. lia.
    + rewrite <- (Z_mod_plus_full (k - (index + 1)) 1 al). rewrite Z.mul_1_l, Z.mod_small by lia. lia.
Qed.

Lemma update_line2 n1 n2 n1' n2' map i e l2 hm : map_ok n1 n2 map → n1 <= n1' → n2 <= n2' → znth (entries map) i = Some e → line1 e ≠ 0 →
  (l2 = NON_UNIQUE ∨ l2 = n2 ∧ n2 < n2' ∧ a2 <= n2 ∧ c2 n2 = hash e) → map_ok n1' n2' (Hashmap (alloc map) (<[Z.to_nat i := with_line2 e l2]> (entries map)) (order map) hm).
Proof.
  intros Hm Hn1 Hn2 Ee He Hl2. pose proof (znth_Some_lt _ _ _ Ee) as Hi. destruct Hm as [Hlen Hen Hor Hso Hdi Hco]. destruct (Hen i e Ee) as [[? _]|[Hio Hek]]; [done|].
  assert (∀ j f, znth (<[Z.to_nat i := with_line2 e l2]> (entries map)) j = Some f → j = i ∧ f = with_line2 e l2 ∨ j ≠ i ∧ znth (entries map) j = Some f) as Hget.
  { intros j f. destruct (decide (j = i)) as [->|]; [rewrite znth_insert_eq by done; intros [= <-]; by left|]. rewrite znth_insert_ne by lia. by right. }
  assert (∀ j f, znth (entries map) j = Some f → candidate f → line2 f ≠ l2) as Hother.
  { intros j f Ef [Hf0 HfN] E. destruct (Hen j f Ef) as [[_ ?]|[_ [_ _ [?|[?|[? _]]]]]]; try done. destruct Hl2 as [->|(-> & _)]; [done|lia]. }
  split; cbn [entries alloc order].
  - by rewrite zlen_insert.
  - intros j f [[-> ->]|[_ Hf]]%Hget.
    + right. split; [done|]. destruct Hek as [? ? _]. split; cbn; [lia|done|]. destruct Hl2 as [->|(-> & ? & ? & ?)]; [right; by left|right; right; split; [lia|done]].
    + destruct (Hen j f Hf) as [?|[? ?]]; [by left|right; split; [done|by apply (entry_mono n1 n2)]].
  - intros j Hj. destruct (decide (j = i)) as [->|]; [rewrite znth_insert_eq by done; by exists (with_line2 e l2)|]. rewrite znth_insert_ne by lia. by apply Hor.
  - eapply sorted_ext; [|exact Hso]. intros j Hj. unfold line1_at. destruct (decide (j = i)) as [->|]; [by rewrite znth_insert_eq, Ee by done|by rewrite znth_insert_ne by lia].
  - intros j j' f f' [[-> ->]|[Hne Hf]]%Hget [[-> ->]|[Hne' Hf']]%Hget Hcf E; [done| | |by eapply Hdi].
    + exfalso. eapply (Hother j' f'); [done| |by rewrite <- E]. unfold candidate in *. by rewrite <- E.
    + exfalso. eapply (Hother j f); [done|done|by rewrite E].
  - lia.
Qed.
Lemma insert_new n1 n2 map i e ha prev a : map_ok n1 n2 map → a1 <= n1 → znth (entries map) i = Some e → line1 e = 0 → ha = c1 n1 →
  map_ok (n1 + 1) n2 (Hashmap (alloc map) (<[Z.to_nat i := Entry ha n1 (line2 e) prev a]> (entries map)) (order map ++ [i]) (has_matches map)).
Proof.
  intros Hm Hn Ee He Hha. pose proof (znth_Some_lt _ _ _ Ee) as Hi. pose proof (order_entry n1 n2 map) as Hoe. destruct Hm as [Hlen Hen Hor Hso Hdi Hco].
  assert (line2 e = 0) as El2 by (destruct (Hen i e Ee) as [[_ ?]|[_ [? _ _]]]; [done|lia]). rewrite El2. set (e' := Entry ha n1 0 prev a).
  assert (i ∉ order map) as Hnot by (intros Hin; destruct (Hor i Hin) as (f & Ef & ?); congruence).
  assert (∀ j f, znth (<[Z.to_nat i := e']> (entries map)) j = Some f → j = i ∧ f = e' ∨ j ≠ i ∧ znth (entries map) j = Some f) as Hget.
  { intros j f. destruct (decide (j = i)) as [->|]; [rewrite znth_insert_eq by done; intros [= <-]; by left|]. rewrite znth_insert_ne by lia. by right. }
  split; cbn [entries alloc order].
  - by rewrite zlen_insert.
  - intros j f [[-> ->]|[_ Hf]]%Hget.
    + right. split; [apply elem_of_app; right; by apply list_elem_of_singleton|]. split; cbn; [lia|done|by left].
    + destruct (Hen j f Hf) as [?|[? ?]]; [by left|right; split; [apply elem_of_app; by left|apply (entry_mono n1 n2); (done || lia)]].
  - intros j [Hj|Hj]%elem_of_app; [|apply list_elem_of_singleton in Hj as ->; rewrite znth_insert_eq by done; exists e'; split; [done|cbn; lia]].
    rewrite znth_insert_ne by (lia || congruence). by apply Hor.
  - assert (∀ j, j ∈ order map → line1_at (<[Z.to_nat i := e']> (entries map)) j = line1_at (entries map) j) as Hsame by (intros j Hj; unfold line1_at; rewrite znth_insert_ne; [done|lia|congruence]).
    apply StronglySorted_app_2; [|by eapply sorted_ext|by repeat constructor]. intros j j' Hj Hj'%list_elem_of_singleton. subst j'. rewrite Hsame by done.
    destruct (Hoe j) as (f & Ef & [Hf _ _]); [by split|done|]. unfold line1_at. rewrite znth_insert_eq, Ef by done. cbn. lia.
  - intros j j' f f' [[-> ->]|[Hne Hf]]%Hget [[-> ->]|[Hne' Hf']]%Hget Hcf E; [done| | |by eapply Hdi].
    + by destruct Hcf.
    + destruct Hcf as [Hcf _]. by rewrite E in Hcf.
  - rewrite zlen_app. change (zlen [i]) with 1. lia.
Qed.

Lemma lookup_wp n1 n2 map ha : map_ok n1 n2 map → n1 <= a1 + k1 →
  returns (probe (S (length (entries map))) (entries map) (alloc map) (u64 (Z.shiftl ha 1) mod alloc map) ha) (λ '(i, e), znth (entries map) i = Some e ∧ (line1 e = 0 ∨ hash e = ha)).
Proof.
  intros Hm Hn. destruct (mp_len _ _ _ Hm) as [Hz Ha]. destruct (unused n1 n2 map Hm Hn) as (k & ek & Hk & Ek & E0). eapply probe_wp; [done|exact Hk|done|done|apply Z.mod_pos_bound; lia|].
  pose proof (Z.mod_pos_bound (k - u64 (Z.shiftl ha 1) mod alloc map) (alloc map)). unfold zlen in Hz. lia.
Qed.
Lemma insert_first_wp n1 n2 map : map_ok n1 n2 map → a1 <= n1 < a1 + k1 → returns (insert_record anchors recs1 recs2 n1 map false) (map_ok (n1 + 1) n2).
Proof.
  intros Hm Hn. unfold insert_record. destruct (cls_rd recs1 (n1 - 1)) as (r & -> & Er & _); [lia|]. cbn [obind]. apply wp_bind. eapply wp_mono; [|apply (lookup_wp n1 n2); (done || lia)].
  intros [i e] [Ee He]. pose proof (znth_Some_lt _ _ _ Ee) as Hi. destruct (Z.eqb_spec (line1 e) 0) as [E0|]; cbn [negb orb].
  - apply wp_bind. eapply wp_mono; [|apply is_anchor_wp; [done|lia]]. intros a _. rewrite wr_ok by done. cbn [obind wp]. apply insert_new; (done || lia).
  - rewrite wr_ok by done. cbn [obind wp]. apply (update_line2 n1 n2); try done; [lia|by left].
Qed.
Lemma insert_second_wp n1 n2 map : map_ok n1 n2 map → n1 <= a1 + k1 → a2 <= n2 < a2 + k2 → returns (insert_record anchors recs1 recs2 n2 map true) (map_ok n1 (n2 + 1)).
Proof.
  intros Hm Hn Hn2. unfold insert_record. destruct (cls_rd recs2 (n2 - 1)) as (r & -> & Er & _); [lia|]. cbn [obind]. apply wp_bind. eapply wp_mono; [|by apply (lookup_wp n1 n2)].
  intros [i e] [Ee He]. pose proof (znth_Some_lt _ _ _ Ee) as Hi. destruct (Z.eqb_spec (line1 e) 0) as [E0|]; cbn [negb orb].
  - cbn [wp]. destruct Hm as [? Hen ? ? ? ?]. split; try done. intros id f Hf. destruct (Hen id f Hf) as [?|[? ?]]; [by left|right; split; [done|apply (entry_mono n1 n2); (done || lia)]].
  - rewrite wr_ok by done. cbn [obind wp]. apply (update_line2 n1 n2); try done; [lia|]. destruct He as [?|He]; [done|].
    destruct (line2 e =? 0); cbn [negb]; [right; split_and!; (lia || congruence)|by left].
Qed.
Lemma insert_lines_first n2 count : ∀ n1 map, map_ok n1 n2 map → a1 <= n1 → n1 + Z.of_nat count <= a1 + k1 → returns (insert_lines anchors recs1 recs2 count n1 map false) (map_ok (n1 + Z.of_nat count) n2).
Proof.
  induction count as [|count IH]; intros n1 map Hm Hn Hk; cbn [insert_lines]; [cbn; by rewrite Z.add_0_r|].
  apply wp_bind. eapply wp_mono; [|apply (insert_first_wp n1 n2); (done || lia)]. intros map' Hm'. replace (n1 + Z.of_nat (S count)) with (n1 + 1 + Z.of_nat count) by lia. apply IH; (done || lia).
Qed.
Lemma insert_lines_second n1 count : n1 <= a1 + k1 → ∀ n2 map, map_ok n1 n2 map → a2 <= n2 → n2 + Z.of_nat count <= a2 + k2 → returns (insert_lines anchors recs1 recs2 count n2 map true) (map_ok n1 (n2 + Z.of_nat count)).
Proof.
  intros Hn1. induction count as [|count IH]; intros n2 map Hm Hn Hk; cbn [insert_lines]; [cbn; by rewrite Z.add_0_r|].
  apply wp_bind. eapply wp_mono; [|apply (insert_second_wp n1 n2); (done || lia)]. intros map' Hm'. replace (n2 + Z.of_nat (S count)) with (n2 + 1 + Z.of_nat count) by lia. apply IH; (done || lia).
Qed.
Lemma fill_hashmap_wp : returns (fill_hashmap anchors recs1 recs2 a1 k1 a2 k2) (map_ok (a1 + k1) (a2 + k2)).
Proof.
  unfold fill_hashmap. apply wp_bind. eapply wp_mono; [|apply (insert_lines_first a2); [|lia|lia]].
  - intros map Hm. rewrite Z2Nat.id in Hm by lia. replace (a2 + k2) with (a2 + Z.of_nat (Z.to_nat k2)) by lia. apply insert_lines_second; (done || lia).
  - split; cbn [entries alloc order].
    + split; [apply zlen_zrep; lia|done].
    + intros id e He. apply znth_elem_of in He. unfold zrep in He. apply elem_of_replicate in He as [-> _]. by left.
    + intros id Hid. by apply not_elem_of_nil in Hid.
    + constructor.
    + intros i j e e' He _ [Hc _]. apply znth_elem_of in He. unfold zrep in He. by apply elem_of_replicate in He as [-> _].
    + change (zlen (@nil Z)) with 0. lia.
Qed.

(** ** The longest common sequence *)

(** Pairs in the order of both files, from [lo1] and [lo2] on. *)
Fixpoint ascending (es : list entry) (lo1 lo2 : Z) (ids : list Z) : Prop :=
  match ids with
  | [] => True
  | id :: ids => ∃ e, znth es id = Some e ∧ candidate e ∧ entry_ok (a1 + k1) (a2 + k2) e ∧ lo1 <= line1 e ∧ lo2 <= line2 e ∧ ascending es (line1 e + 1) (line2 e + 1) ids
  end.

Section sequence.
Context (map : hashmap) (Hmap : map_ok (a1 + k1) (a2 + k2) map).
Abbreviation es0 := (entries map).

Definition searched (sequence : list Z) (e : entry) (left : Z) : Prop :=
  left = -1 ∨ 0 <= left ∧ ∃ id m, znth sequence left = Some id ∧ znth es0 id = Some m ∧ line2 m <= line2 e.
(** The entries may differ in [previous] only. *)
Definition relinked (es : list entry) : Prop := zlen es = zlen es0 ∧ ∀ id e, znth es id = Some e → ∃ e0, znth es0 id = Some e0 ∧ line1 e = line1 e0 ∧ line2 e = line2 e0.
Lemma relinked_at es id e0 : relinked es → znth es0 id = Some e0 → ∃ e, znth es id = Some e ∧ line1 e = line1 e0 ∧ line2 e = line2 e0.
Proof.
  intros [Hz Hr] E0. pose proof (znth_Some_lt _ _ _ E0). destruct (znth_is_Some es id) as [e Ee]; [lia|]. exists e. split; [done|]. destruct (Hr id e Ee) as (e1 & E1 & ?). congruence.
Qed.

Lemma search_loop_wp es sequence longest e : relinked es → (∀ j, 0 <= j < longest → ∃ id m, znth sequence j = Some id ∧ znth es0 id = Some m) →
  ∀ fuel left right, -1 <= left < right → right <= longest → searched sequence e left → (Z.to_nat (right - left - 1) < fuel)%nat →
  returns (search_loop fuel es sequence left right e) (λ i, -1 <= i < longest ∧ searched sequence e i).
Proof.
  intros Hr Hseq. induction fuel as [|fuel IH]; intros left right Hl Hb Hs Hf; [lia|]. cbn [search_loop]. destruct (Z.ltb_spec (left + 1) right); [|cbn; split; [lia|done]].
  assert (left < left + Z.quot (right - left) 2 < right) as Hm by (rewrite Z.quot_div_nonneg by lia; Z.div_mod_to_equations; lia). set (middle := left + Z.quot (right - left) 2) in *.
  destruct (Hseq middle) as (id & m0 & Eid & Em0); [lia|]. rewrite (rd_znth _ _ _ Eid). cbn [obind]. destruct (relinked_at es id m0 Hr Em0) as (m & Em & _ & E2). rewrite (rd_znth _ _ _ Em). cbn [obind].
  destruct (Z.ltb_spec (line2 e) (line2 m)); [apply IH; (done || lia)|]. apply IH; try lia. right. split; [lia|]. exists id, m0. split_and!; [done|done|lia].
Qed.

(** The entries of [done] have been gone through. *)
Record sequence_inv (done : list Z) (es : list entry) (sequence : list Z) (longest : Z) : Prop := SequenceInv {
  sq_same : relinked es;
  sq_len : zlen sequence = zlen (order map);
  sq_longest : 0 <= longest <= zlen done;
  sq_seq : ∀ j, 0 <= j < longest → ∃ id e, znth sequence j = Some id ∧ id ∈ done ∧ znth es0 id = Some e ∧ candidate e;
  sq_prev : ∀ id e, id ∈ done → znth es id = Some e → candidate e → previous e = -1 ∨
    ∃ p, previous e ∈ done ∧ znth es0 (previous e) = Some p ∧ candidate p ∧ line1 p < line1 e ∧ line2 p < line2 e
}.

Lemma done_before done id todo p q e : order map = done ++ id :: todo → p ∈ done → znth es0 p = Some q → znth es0 id = Some e → line1 q < line1 e.
Proof.
  intros Eo Hp Eq Ee. pose proof (mp_sorted _ _ _ Hmap) as Hs. rewrite Eo in Hs. apply (StronglySorted_app_1_elem_of _ _ _ p id) in Hs; [|done|by left].
  unfold line1_at in Hs. by rewrite Eq, Ee in Hs.
Qed.
(** A pair that is not taken into the sequence. *)
Lemma skip_entry done id todo es sequence longest e : order map = done ++ id :: todo → sequence_inv done es sequence longest → znth es id = Some e → ¬ candidate e →
  sequence_inv (done ++ [id]) es sequence longest.
Proof.
  intros Eo [Hs Hl Hlo Hsq Hpr] Ee Hn. split; try done.
  - rewrite zlen_app. change (zlen [id]) with 1. lia.
  - intros j Hj. destruct (Hsq j Hj) as (i & f & ? & ? & ? & ?). exists i, f. split_and!; try done. apply elem_of_app. by left.
  - intros j f [Hj|Hj]%elem_of_app Ef Hc.
    + destruct (Hpr j f Hj Ef Hc) as [?|(p & ? & ?)]; [by left|right; exists p]. split; [apply elem_of_app; by left|done].
    + apply list_elem_of_singleton in Hj as ->. congruence.
Qed.
Lemma link_entry done id todo es sequence longest e i p : order map = done ++ id :: todo → sequence_inv done es sequence longest → znth es id = Some e → candidate e →
  -1 <= i < longest → searched sequence e i → (if i <? 0 then Ret (-1) else rd sequence i) = Ret p →
  sequence_inv (done ++ [id]) (<[Z.to_nat id := with_previous e p]> es) sequence longest.
Proof.
  intros Eo [Hs Hl Hlo Hsq Hpr] Ee Hc Hi Hse Ep. pose proof (znth_Some_lt _ _ _ Ee) as Hid. destruct Hs as [Hz Hs]. destruct (Hs id e Ee) as (e0 & E0 & L1 & L2).
  assert (∀ j f, znth (<[Z.to_nat id := with_previous e p]> es) j = Some f → j = id ∧ f = with_previous e p ∨ j ≠ id ∧ znth es j = Some f) as Hget.
  { intros j f. destruct (decide (j = id)) as [->|]; [rewrite znth_insert_eq by done; intros [= <-]; by left|]. rewrite znth_insert_ne by lia. by right. }
  split; try done.
  - split; [by rewrite zlen_insert|]. intros j f [[-> ->]|[_ Hf]]%Hget; [by exists e0|by apply Hs].
  - rewrite zlen_app. change (zlen [id]) with 1. lia.
  - intros j Hj. destruct (Hsq j Hj) as (k & f & ? & ? & ? & ?). exists k, f. split_and!; try done. apply elem_of_app. by left.
  - intros j f Hj [[-> ->]|[Hne Hf]]%Hget Hcf.
    + cbn. destruct Hse as [->|(Hi0 & k & m & Ek & Em & Hle)]; [left; by injection Ep|right]. rewrite (proj2 (Z.ltb_ge i 0)) in Ep by lia. rewrite (rd_znth _ _ _ Ek) in Ep. injection Ep as <-.
      destruct (Hsq i) as (k' & m' & Ek' & Hk & Em' & Hcm); [lia|]. assert (k' = k) as -> by congruence. assert (m' = m) as -> by congruence. exists m.
      pose proof (done_before done id todo k m e0 Eo Hk Em E0) as Hlt. split; [apply elem_of_app; by left|]. split; [done|]. split; [done|]. split; [lia|].
      destruct (decide (line2 m = line2 e)) as [E|]; [|lia]. assert (k = id) as -> by (eapply (mp_distinct _ _ _ Hmap k id m e0); (done || congruence)). assert (m = e0) as -> by congruence. lia.
    + apply elem_of_app in Hj as [Hj|Hj]; [|by apply list_elem_of_singleton in Hj]. destruct (Hpr j f Hj Hf Hcf) as [?|(q & ? & ?)]; [by left|right; exists q]. split; [apply elem_of_app; by left|done].
Qed.
Lemma put_entry done es sequence longest id e0 j longest' : sequence_inv done es sequence longest → id ∈ done → znth es0 id = Some e0 → candidate e0 → 0 <= j <= longest → j < zlen (order map) →
  longest' = j + 1 ∨ longest' = longest → longest' <= zlen done → 
  sequence_inv done es (<[Z.to_nat j := id]> sequence) longest'.
Proof.
  intros [Hs Hl Hlo Hsq Hpr] Hid E0 Hc Hj Hjn HL HLd. split; try done; [by rewrite zlen_insert|lia|].
  intros i Hi. destruct (decide (i = j)) as [->|]; [rewrite znth_insert_eq by lia; by exists id, e0|]. rewrite znth_insert_ne by lia. apply Hsq. lia.
Qed.

Lemma candidate_test e : (line2 e =? 0) || (line2 e =? NON_UNIQUE) = bool_decide (¬ candidate e).
Proof. unfold candidate. destruct (Z.eqb_spec (line2 e) 0), (Z.eqb_spec (line2 e) NON_UNIQUE); cbn [orb]; symmetry; rewrite ?bool_decide_eq_true, ?bool_decide_eq_false; naive_solver. Qed.
Lemma sequence_loop_wp todo : ∀ done es sequence longest anchor_i, order map = done ++ todo → sequence_inv done es sequence longest →
  returns (sequence_loop todo es sequence longest anchor_i) (λ '(es', sequence', longest'), sequence_inv (order map) es' sequence' longest').
Proof.
  induction todo as [|id todo IH]; intros done es sequence longest anchor_i Eo Hinv; cbn [sequence_loop]; [cbn; by rewrite Eo, app_nil_r|].
  assert (order map = (done ++ [id]) ++ todo) as Eo' by (by rewrite <- app_assoc). destruct (order_entry _ _ _ id Hmap) as (e0 & E0 & He0); [rewrite Eo; apply elem_of_app; right; by left|].
  destruct (relinked_at es id e0 (sq_same _ _ _ _ Hinv) E0) as (e & Ee & L1 & L2). rewrite (rd_znth _ _ _ Ee). cbn [obind]. rewrite candidate_test.
  destruct (bool_decide_reflect (¬ candidate e)) as [Hn|Hc%dec_stable]; [eapply IH; [exact Eo'|by eapply skip_entry]|].
  apply wp_bind. eapply wp_mono; [|apply (search_loop_wp es sequence longest e); [apply Hinv| |pose proof (sq_longest _ _ _ _ Hinv); lia|done|by left|lia]].
  2: { intros j Hj. destruct (sq_seq _ _ _ _ Hinv j Hj) as (k & m & ? & _ & ? & _). by exists k, m. }
  intros i [Hi Hse]. pose proof (link_entry done id todo es sequence longest e i) as Hlink. assert (∃ p, (if i <? 0 then Ret (-1) else rd sequence i) = Ret p) as [p Ep].
  { destruct (Z.ltb_spec i 0); [by eexists|]. destruct (sq_seq _ _ _ _ Hinv i) as (k & m & Ek & _); [lia|]. rewrite (rd_znth _ _ _ Ek). by eexists. }
  specialize (Hlink p Eo Hinv Ee Hc Hi Hse Ep). rewrite Ep. cbn [obind]. rewrite wr_ok by (by apply znth_Some_lt in Ee). cbn [obind].
  destruct (i + 1 <=? anchor_i); [by eapply IH|]. pose proof Hlink as [_ Hsl Hlo _ _]. destruct Hinv as [_ _ Hlo0 _ _]. pose proof (f_equal zlen Eo) as Hz. rewrite zlen_app, zlen_cons in Hz. pose proof (zlen_nonneg todo) as Hz0.
  rewrite zlen_app in Hlo. change (zlen [id]) with 1 in Hlo.
  assert (∀ L, L = i + 1 + 1 ∨ L = longest → L <= zlen done + 1 → sequence_inv (done ++ [id]) (<[Z.to_nat id := with_previous e p]> es) (<[Z.to_nat (i + 1) := id]> sequence) L) as Hput.
  { intros L HL HLd. eapply (put_entry _ _ _ longest id e0); try done; try lia; [apply elem_of_app; right; by left| |rewrite zlen_app; change (zlen [id]) with 1; lia]. unfold candidate in *. by rewrite <- L2. }
  rewrite wr_ok by lia. cbn [obind]. destruct (anchor e); [eapply IH; [exact Eo'|apply Hput; lia]|]. eapply IH; [exact Eo'|]. destruct (Z.eqb_spec (i + 1) longest); apply Hput; lia.
Qed.

Lemma thread_wp es sequence longest : sequence_inv (order map) es sequence longest → ∀ fuel id next e, znth es0 id = Some e → candidate e → id ∈ order map → ascending es0 (line1 e + 1) (line2 e + 1) next →
  (Z.to_nat (line1 e - a1) < fuel)%nat → returns (thread fuel es id next) (λ l, l ≠ [] ∧ ascending es0 a1 a2 l).
Proof.
  intros Hinv. induction fuel as [|fuel IH]; intros id next e E0 Hc Hid Hasc Hf; [lia|]. cbn [thread]. destruct (relinked_at es id e (sq_same _ _ _ _ Hinv) E0) as (f & Ef & L1 & L2).
  rewrite (rd_znth _ _ _ Ef). cbn [obind]. destruct (order_entry _ _ _ id Hmap Hid) as (e' & E' & Hok). assert (e' = e) as -> by congruence.
  assert (a2 <= line2 e) as Hl2 by (destruct Hc as [? ?], Hok as [_ _ [?|[?|[? _]]]]; (done || lia)).
  assert (∀ lo1 lo2, lo1 <= line1 e → lo2 <= line2 e → ascending es0 lo1 lo2 (id :: next)) as Hcons by (intros; exists e; split_and!; done).
  destruct (Z.eqb_spec (previous f) (-1)); [cbn; split; [done|]; apply Hcons; [by destruct Hok as [[? _] _ _]|done]|].
  destruct (sq_prev _ _ _ _ Hinv id f Hid Ef) as [?|(p & Hp & Ep & Hcp & ? & ?)]; [unfold candidate in *; by rewrite L2|done|].
  eapply IH; [exact Ep|done|done|apply Hcons; lia|]. destruct (order_entry _ _ _ (previous f) Hmap Hp) as (p' & Ep' & [Hpl _ _]). assert (p' = p) as -> by congruence. lia.
Qed.
Lemma find_sequence_wp : returns (find_longest_common_sequence map) (ascending es0 a1 a2).
Proof.
  unfold find_longest_common_sequence. apply wp_bind. eapply wp_mono; [|apply (sequence_loop_wp _ []); [done|]].
  - intros [[es sequence] longest] Hinv. pose proof Hinv as [[Hz _] _ Hlo Hsq _]. destruct (Z.eqb_spec longest 0); [done|]. destruct (Hsq (longest - 1)) as (id & e & Eid & Hid & Ee & Hc); [lia|].
    rewrite (rd_znth _ _ _ Eid). cbn [obind]. eapply wp_mono; [|eapply thread_wp; [exact Hinv|exact Ee|done|done|done|]]; [by intros l [_ ?]|].
    destruct (order_entry _ _ _ id Hmap Hid) as (e' & E' & [Hl _ _]). assert (e' = e) as -> by congruence. destruct (mp_len _ _ _ Hmap). unfold zlen in *. lia.
  - split; try done.
    + split; [done|]. intros id e He. by exists e.
    + apply zlen_zrep, zlen_nonneg.
    + lia.
    + intros id e Hid. by apply not_elem_of_nil in Hid.
Qed.
End sequence.

(** ** The walk *)
Lemma match_ok l1 l2 : 1 <= l1 <= zlen recs1 → 1 <= l2 <= zlen recs2 → match_ recs1 recs2 l1 l2 = Ret (c1 l1 =? c2 l2).
Proof.
  intros H1 H2. unfold match_. destruct (cls_rd recs1 (l1 - 1)) as (r1 & -> & -> & _); [lia|]. destruct (cls_rd recs2 (l2 - 1)) as (r2 & -> & -> & _); [lia|]. done.
Qed.
Lemma grow_up_wp l1 l2 : 1 <= l1 → 1 <= l2 → ∀ fuel next1 next2, l1 <= next1 <= zlen recs1 + 1 → l2 <= next2 <= zlen recs2 + 1 → (Z.to_nat (next1 - l1) < fuel)%nat →
  returns (grow_up recs1 recs2 fuel l1 l2 next1 next2) (λ '(m1, m2), l1 <= m1 <= next1 ∧ l2 <= m2 ∧ next1 - m1 = next2 - m2 ∧ ∀ t, 0 <= t < next1 - m1 → c1 (m1 + t) = c2 (m2 + t)).
Proof.
  intros Hl1 Hl2. induction fuel as [|fuel IH]; intros next1 next2 Hn1 Hn2 Hf; [lia|]. cbn [grow_up].
  assert (l1 <= next1 <= next1 ∧ l2 <= next2 ∧ next1 - next1 = next2 - next2 ∧ ∀ t, 0 <= t < next1 - next1 → c1 (next1 + t) = c2 (next2 + t)) as Hstop by (split_and!; try lia; intros; lia).
  destruct (Z.ltb_spec l1 next1), (Z.ltb_spec l2 next2); cbn [andb]; try done. rewrite match_ok by lia. cbn [obind]. destruct (Z.eqb_spec (c1 (next1 - 1)) (c2 (next2 - 1))) as [E|]; [|done].
  eapply wp_mono; [|apply IH; lia]. intros [m1 m2] (? & ? & ? & Hc). split; [lia|]. split; [lia|]. split; [lia|]. intros t Ht.
  destruct (decide (t = next1 - 1 - m1)) as [->|]; [|apply Hc; lia]. replace (m1 + (next1 - 1 - m1)) with (next1 - 1) by lia. rewrite E. f_equal. lia.
Qed.
Lemma grow_down_wp next1 next2 : next1 <= zlen recs1 + 1 → next2 <= zlen recs2 + 1 → ∀ fuel l1 l2, 1 <= l1 <= next1 → 1 <= l2 <= next2 → (Z.to_nat (next1 - l1) < fuel)%nat →
  returns (grow_down recs1 recs2 fuel l1 l2 next1 next2) (λ '(m1, m2), l1 <= m1 <= next1 ∧ m2 <= next2 ∧ m1 - l1 = m2 - l2 ∧ ∀ t, 0 <= t < m1 - l1 → c1 (l1 + t) = c2 (l2 + t)).
Proof.
  intros Hn1 Hn2. induction fuel as [|fuel IH]; intros l1 l2 Hl1 Hl2 Hf; [lia|]. cbn [grow_down].
  assert (l1 <= l1 <= next1 ∧ l2 <= next2 ∧ l1 - l1 = l2 - l2 ∧ ∀ t, 0 <= t < l1 - l1 → c1 (l1 + t) = c2 (l2 + t)) as Hstop by (split_and!; try lia; intros; lia).
  destruct (Z.ltb_spec l1 next1), (Z.ltb_spec l2 next2); cbn [andb]; try done. rewrite match_ok by lia. cbn [obind]. destruct (Z.eqb_spec (c1 l1) (c2 l2)) as [E|]; [|done].
  eapply wp_mono; [|apply IH; lia]. intros [m1 m2] (? & ? & ? & Hc). split; [lia|]. split; [lia|]. split; [lia|]. intros t Ht.
  destruct (decide (t = 0)) as [->|]; [by rewrite !Z.add_0_r|]. replace (l1 + t) with (l1 + 1 + (t - 1)) by lia. replace (l2 + t) with (l2 + 1 + (t - 1)) by lia. apply Hc. lia.
Qed.

Definition pair_ok (e : entry) : Prop := a1 <= line1 e < a1 + k1 ∧ a2 <= line2 e < a2 + k2 ∧ c1 (line1 e) = c2 (line2 e).
Lemma candidate_pair e : candidate e → entry_ok (a1 + k1) (a2 + k2) e → pair_ok e.
Proof. intros [H0 HN] [? Hh [?|[?|[? E]]]]; [done|done|]. split; [done|]. split; [done|]. congruence. Qed.
Lemma adjacent_wp es next : ∀ e, pair_ok e → ascending es (line1 e + 1) (line2 e + 1) next →
  returns (adjacent es e next) (λ '(e', next'), pair_ok e' ∧ line1 e <= line1 e' ∧ line1 e' - line1 e = line2 e' - line2 e ∧ (∀ t, 0 <= t <= line1 e' - line1 e → c1 (line1 e + t) = c2 (line2 e + t)) ∧
    ascending es (line1 e' + 1) (line2 e' + 1) next' ∧ (length next' <= length next)%nat).
Proof.
  induction next as [|id next IH]; intros e He Hasc; cbn [adjacent].
  { cbn [wp]. split; [done|]. split; [lia|]. split; [lia|]. split; [|done]. intros t Ht. replace t with 0 by lia. rewrite !Z.add_0_r. by destruct He as (_ & _ & ?). }
  pose proof Hasc as (f & Ef & Hc & Hok & _ & _ & Hrest). rewrite (rd_znth _ _ _ Ef). cbn [obind].
  destruct (Z.eqb_spec (line1 f) (line1 e + 1)), (Z.eqb_spec (line2 f) (line2 e + 1)); cbn [andb].
  2, 3, 4: cbn [wp]; (split; [done|]); (split; [lia|]); (split; [lia|]); (split; [|done]); intros t Ht; replace t with 0 by lia; rewrite !Z.add_0_r; by destruct He as (_ & _ & ?).
  eapply wp_mono; [|apply IH; [by apply candidate_pair|done]]. intros [e' next'] (Hp & H1 & H2 & Hcl & Ha & Hn). split; [done|]. split; [lia|]. split; [lia|]. split; [|split; [done|cbn; lia]].
  intros t Ht. destruct (decide (t = 0)) as [->|]; [rewrite !Z.add_0_r; by destruct He as (_ & _ & ?)|].
  replace (line1 e + t) with (line1 f + (t - 1)) by lia. replace (line2 e + t) with (line2 f + (t - 1)) by lia. apply Hcl. lia.
Qed.

Section walk_proofs.
Context (es : list entry) (rec : xdfile_t → xdfile_t → Z → Z → Z → Z → outcome (Z * xdfile_t * xdfile_t)).
Abbreviation end1 := (a1 + k1).
Abbreviation end2 := (a2 + k2).

(** The state of a region that is to be compared. *)
Record region_ready (x1 x2 : xdfile_t) (l1 m1 l2 m2 : Z) : Prop := RegionReady {
  rr_recs : recs x1 = recs1 ∧ recs x2 = recs2;
  rr_clean : clean_rchg (zlen recs1) (rchg x1) ∧ clean_rchg (zlen recs2) (rchg x2);
  rr_bounds : a1 <= l1 <= m1 ∧ m1 <= end1 ∧ a2 <= l2 <= m2 ∧ m2 <= end2;
  rr_fresh : region_fresh (rchg x1) (l1 - 1) (m1 - 1) ∧ region_fresh (rchg x2) (l2 - 1) (m2 - 1)
}.
Hypothesis (Hrec : ∀ x1 x2 l1 m1 l2 m2, region_ready x1 x2 l1 m1 l2 m2 → m1 - l1 + (m2 - l2) < k1 + k2 →
  returns (rec x1 x2 l1 (m1 - l1) l2 (m2 - l2)) (λ '(res, y1, y2), res = 0 ∧ marks_made recs1 recs2 x1 x2 l1 (m1 - l1) l2 (m2 - l2) y1 y2)).

Abbreviation walked x1 x2 l1 m1 l2 m2 := (λ '(res, y1, y2), (res : Z) = 0 ∧
  ∃ r1 r2, y1 = with_rchg x1 r1 ∧ y2 = with_rchg x2 r2 ∧ region_done recs1 recs2 (l1 - 1) (m1 - 1) (l2 - 1) (m2 - 1) (rchg x1) (rchg x2) r1 r2).

(** Between two runs: nothing, or a comparison of its own. *)
Lemma between_wp x1 x2 l1 m1 l2 m2 : region_ready x1 x2 l1 m1 l2 m2 → m1 - l1 + (m2 - l2) < k1 + k2 →
  returns (if (l1 <? m1) || (l2 <? m2) then rec x1 x2 l1 (m1 - l1) l2 (m2 - l2) else Ret (0, x1, x2)) (walked x1 x2 l1 m1 l2 m2).
Proof.
  intros Hr Hlt. destruct ((l1 <? m1) || (l2 <? m2)) eqn:E.
  - eapply wp_mono; [|by apply Hrec]. intros [[res y1] y2] (-> & r1 & r2 & -> & -> & Hd). split; [done|]. exists r1, r2. split; [done|]. split; [done|].
    replace (l1 - 1 + (m1 - l1)) with (m1 - 1) in Hd by lia. by replace (l2 - 1 + (m2 - l2)) with (m2 - 1) in Hd by lia.
  - apply orb_false_iff in E as [?%Z.ltb_ge ?%Z.ltb_ge]. destruct Hr as [_ [C1 C2] ? _]. cbn [wp]. split; [done|]. exists (rchg x1), (rchg x2). rewrite !with_rchg_same. split; [done|]. split; [done|].
    apply region_none; try done; intros; lia.
Qed.
Lemma common_region x1 x2 l1 m1 l2 m2 k : region_ready x1 x2 l1 m1 l2 m2 → 0 <= k → l1 + k <= m1 → l2 + k <= m2 → (∀ t, 0 <= t < k → c1 (l1 + t) = c2 (l2 + t)) →
  region_done recs1 recs2 (l1 - 1) (l1 + k - 1) (l2 - 1) (l2 + k - 1) (rchg x1) (rchg x2) (rchg x1) (rchg x2).
Proof.
  intros [_ [C1 C2] Hb [F1 F2]] Hk H1 H2 Hc. replace (l1 + k - 1) with (l1 - 1 + k) by lia. replace (l2 + k - 1) with (l2 - 1 + k) by lia.
  apply region_common; try done; [intros i Hi; apply F1; lia|intros i Hi; apply F2; lia|]. intros t Ht.
  replace (l1 - 1 + t) with (l1 + t - 1) by lia. replace (l2 - 1 + t) with (l2 + t - 1) by lia. by apply Hc.
Qed.
Lemma ready_tail x1 x2 l1 m1 l2 m2 n1 n2 : region_ready x1 x2 l1 n1 l2 n2 → l1 <= m1 <= n1 → l2 <= m2 <= n2 → region_ready x1 x2 m1 n1 m2 n2.
Proof. intros [? ? Hb [F1 F2]] H1 H2. split; [done|done|lia|]. split; intros i Hi; [apply F1; lia|apply F2; lia]. Qed.
Lemma ready_head x1 x2 l1 m1 l2 m2 n1 n2 : region_ready x1 x2 l1 n1 l2 n2 → l1 <= m1 <= n1 → l2 <= m2 <= n2 → region_ready x1 x2 l1 m1 l2 m2.
Proof. intros [? ? Hb [F1 F2]] H1 H2. split; [done|done|lia|]. split; intros i Hi; [apply F1; lia|apply F2; lia]. Qed.
Lemma ready_after x1 x2 l1 m1 l2 m2 n1 n2 r1 r2 : region_ready x1 x2 l1 n1 l2 n2 → l1 <= m1 <= n1 → l2 <= m2 <= n2 →
  region_done recs1 recs2 (l1 - 1) (m1 - 1) (l2 - 1) (m2 - 1) (rchg x1) (rchg x2) r1 r2 → region_ready (with_rchg x1 r1) (with_rchg x2 r2) m1 n1 m2 n2.
Proof.
  intros [[? ?] ? Hb [F1 F2]] H1 H2 [C1 C2 O1 O2 _]. split; cbn; [done|done|lia|]. split.
  - apply (fresh_outside (zlen recs1) (rchg x1) r1 (l1 - 1) (m1 - 1)); [lia|lia|done|lia|]. intros i Hi. apply F1. lia.
  - apply (fresh_outside (zlen recs2) (rchg x2) r2 (l2 - 1) (m2 - 1)); [lia|lia|done|lia|]. intros i Hi. apply F2. lia.
Qed.

Lemma next_pair_wp first l1 l2 : a1 <= l1 <= end1 → a2 <= l2 <= end2 → ascending es l1 l2 first → first ≠ [] ∨ a1 < l1 →
  returns (match first with id :: _ => let! e := rd es id in grow_up recs1 recs2 (S (length recs1)) l1 l2 (line1 e) (line2 e) | [] => Ret (end1, end2) end)
    (λ '(m1, m2), l1 <= m1 <= end1 ∧ l2 <= m2 <= end2 ∧ m1 - l1 + (m2 - l2) < k1 + k2 ∧ match first with [] => m1 = end1 ∧ m2 = end2 | id :: _ =>
      ∃ e, znth es id = Some e ∧ m1 <= line1 e ∧ line1 e - m1 = line2 e - m2 ∧ ∀ t, 0 <= t < line1 e - m1 → c1 (m1 + t) = c2 (m2 + t) end).
Proof.
  intros Hl1 Hl2 Hasc Hp. destruct first as [|id next]; [cbn [wp]; destruct Hp as [?|?]; [done|]; split_and!; lia|].
  destruct Hasc as (e & Ee & Hc & Hok & ? & ? & _). destruct (candidate_pair e Hc Hok) as (? & ? & _). rewrite (rd_znth _ _ _ Ee). cbn [obind].
  eapply wp_mono; [|apply grow_up_wp; try lia; unfold zlen in *; lia]. intros [m1 m2] (? & ? & ? & Hm). split; [lia|]. split; [lia|]. split; [lia|]. exists e. split; [done|]. split; [lia|]. split; [lia|]. exact Hm.
Qed.
Lemma walk_wp fuel : ∀ first x1 x2 l1 l2, region_ready x1 x2 l1 end1 l2 end2 → ascending es l1 l2 first → first ≠ [] ∨ a1 < l1 → (length first < fuel)%nat →
  returns (walk_common_sequence recs1 recs2 es rec fuel first x1 x2 l1 end1 l2 end2) (walked x1 x2 l1 end1 l2 end2).
Proof.
  induction fuel as [|fuel IH]; intros first x1 x2 l1 l2 Hr Hasc Hp Hf; [lia|]. cbn [walk_common_sequence]. pose proof Hr as [_ _ Hb _].
  apply wp_bind. eapply wp_mono; [|apply next_pair_wp; (done || lia)]. intros [m1 m2] (Hm1 & Hm2 & Hsz & Hnext).
  apply wp_bind. eapply wp_mono; [|apply grow_down_wp; try lia; unfold zlen in *; lia]. intros [j1 j2] (Hj1 & Hj2 & Hj & Hcj).
  assert (region_ready x1 x2 j1 end1 j2 end2) as Hrj by (apply (ready_tail x1 x2 l1 j1 l2 j2); (done || lia)).
  pose proof (common_region x1 x2 l1 end1 l2 end2 (j1 - l1) Hr ltac:(lia) ltac:(lia) ltac:(lia) Hcj) as HA. replace (l1 + (j1 - l1) - 1) with (j1 - 1) in HA by lia. replace (l2 + (j1 - l1) - 1) with (j2 - 1) in HA by lia.
  apply wp_bind. eapply wp_mono; [|apply between_wp; [apply (ready_head x1 x2 j1 m1 j2 m2 end1 end2); (done || lia)|lia]].
  intros [[res y1] y2] (-> & r1 & r2 & -> & -> & HB). change (negb (0 =? 0)) with false. cbn match.
  assert (region_done recs1 recs2 (l1 - 1) (m1 - 1) (l2 - 1) (m2 - 1) (rchg x1) (rchg x2) r1 r2) as HAB by (eapply region_app; [..|exact HA|exact HB]; lia).
  destruct first as [|id next]; [destruct Hnext as [-> ->]; cbn [wp]; split; [done|]; by exists r1, r2|].
  destruct Hnext as (e & Ee & He1 & He2 & Hce). rewrite (rd_znth _ _ _ Ee). cbn [obind]. destruct Hasc as (e' & Ee' & Hc & Hok & ? & ? & Hrest). assert (e' = e) as -> by congruence.
  pose proof (candidate_pair e Hc Hok) as Hpe. apply wp_bind. eapply wp_mono; [|by apply adjacent_wp]. intros [f next'] (((? & ?) & (? & ?) & Hcf) & Hf1 & Hf2 & Hct & Hasc' & Hlen).
  pose proof (ready_after x1 x2 l1 m1 l2 m2 end1 end2 r1 r2 Hr ltac:(lia) ltac:(lia) HAB) as Hrm.
  assert (region_done recs1 recs2 (m1 - 1) (line1 f + 1 - 1) (m2 - 1) (line2 f + 1 - 1) r1 r2 r1 r2) as HC.
  { pose proof (common_region _ _ m1 end1 m2 end2 (line1 f + 1 - m1) Hrm ltac:(lia) ltac:(lia) ltac:(lia)) as H'. replace (m1 + (line1 f + 1 - m1) - 1) with (line1 f + 1 - 1) in H' by lia.
    replace (m2 + (line1 f + 1 - m1) - 1) with (line2 f + 1 - 1) in H' by lia. apply H'. intros t Ht. destruct (decide (t < line1 e - m1)); [apply Hce; lia|].
    specialize (Hct (t - (line1 e - m1)) ltac:(lia)). replace (line1 e + (t - (line1 e - m1))) with (m1 + t) in Hct by lia. by replace (line2 e + (t - (line1 e - m1))) with (m2 + t) in Hct by lia. }
  eapply wp_mono; [|apply IH; [apply (ready_tail _ _ m1 _ m2 _ end1 end2 Hrm); lia|exact Hasc'|right; lia|cbn in Hf; lia]].
  intros [[res y1] y2] (-> & s1 & s2 & -> & -> & HD). split; [done|]. exists s1, s2. split; [done|]. split; [done|]. cbn in HD.
  eapply region_app; [..|exact HAB|]; try lia. eapply region_app; [..|exact HC|exact HD]; lia.
Qed.
End walk_proofs.
End table.

(** ** The whole *)
Section diff.
Context (anchors : list (list Z)) (malloc : Z → list Z) (flags : Z) (Hmal : malloc_ok malloc) (Hws : flag flags XDF_WHITESPACE_FLAGS = false).
Context (recs1 recs2 : list xrecord_t) (Hct : comparable recs1 recs2) (Hfit : anchors_fit anchors recs1) (N2 : zlen recs2 < 2 ^ 29).
Abbreviation n1 := (zlen recs1).
Abbreviation n2 := (zlen recs2).

Lemma patience_diff_wp fuel : ∀ x1 x2 l1 count1 l2 count2, recs x1 = recs1 → recs x2 = recs2 → clean_rchg n1 (rchg x1) → clean_rchg n2 (rchg x2) →
  1 <= l1 → 0 <= count1 → l1 - 1 + count1 <= n1 → 1 <= l2 → 0 <= count2 → l2 - 1 + count2 <= n2 →
  region_fresh (rchg x1) (l1 - 1) (l1 - 1 + count1) → region_fresh (rchg x2) (l2 - 1) (l2 - 1 + count2) → (Z.to_nat (count1 + count2) < fuel)%nat →
  returns (patience_diff fuel anchors malloc flags x1 x2 l1 count1 l2 count2) (λ '(res, y1, y2), res = 0 ∧ marks_made recs1 recs2 x1 x2 l1 count1 l2 count2 y1 y2).
Proof.
  induction fuel as [|fuel IH]; intros x1 x2 l1 count1 l2 count2 R1 R2 C1 C2 Hl1 Hc1 Hn1 Hl2 Hc2 Hn2 F1 F2 Hf; [lia|]. cbn [patience_diff].
  destruct (Z.eqb_spec count1 0) as [->|]; [apply mark_second_wp; (done || lia)|]. destruct (Z.eqb_spec count2 0) as [->|]; [apply mark_first_wp; (done || lia)|].
  rewrite R1, R2. apply wp_bind. eapply wp_mono; [|apply fill_hashmap_wp; (done || lia)]. intros map Hmap. cbn beta in Hmap.
  destruct (has_matches map); cbn [negb]; [|by apply mark_both_wp]. apply wp_bind. eapply wp_mono; [|eapply find_sequence_wp; [..|exact Hmap]; (done || lia)].
  intros [|id first] Hasc; cbn beta in Hasc; [rewrite <- R1, <- R2; apply fall_back_to_classic_wp; rewrite ?R1, ?R2; (done || lia)|].
  eapply wp_mono; [|apply (walk_wp recs1 recs2 l1 count1 l2 count2); try (done || lia)].
  - intros [[res y1] y2] (-> & r1 & r2 & -> & -> & Hd). split; [done|]. exists r1, r2. split; [done|]. split; [done|].
    replace (l1 + count1 - 1) with (l1 - 1 + count1) in Hd by lia. by replace (l2 + count2 - 1) with (l2 - 1 + count2) in Hd by lia.
  - intros y1 y2 a1 b1 a2 b2 [[? ?] [? ?] Hb [? ?]] Hlt. apply IH; try (done || lia).
    + by replace (a1 - 1 + (b1 - a1)) with (b1 - 1) by lia.
    + by replace (a2 - 1 + (b2 - a2)) with (b2 - 1) by lia.
  - split; try done; [lia|]. replace (l1 + count1 - 1) with (l1 - 1 + count1) by lia. by replace (l2 + count2 - 1) with (l2 - 1 + count2) by lia.
  - by left.
Qed.
End diff.

#[export] Instance patience_line_algorithm anchors malloc flags : malloc_ok malloc → flag flags XDF_WHITESPACE_FLAGS = false →
  LineAlgorithm (anchors_fit anchors) false (xdl_do_patience_diff anchors malloc flags).
Proof.
  intros Hmal Hws x1 x2 Hct Hfit Z1 Z2 [N1 E1 _] [N2 E2 _]. unfold xdl_do_patience_diff. pose proof (zlen_nonneg (recs x1)). pose proof (zlen_nonneg (recs x2)).
  destruct (clean_zeros (nrec x1)) as [C1 F1]; [lia|]. destruct (clean_zeros (nrec x2)) as [C2 F2]; [lia|]. rewrite <- E1 in C1, F1. rewrite <- E2 in C2, F2.
  eapply wp_mono; [|apply (patience_diff_wp anchors malloc flags Hmal Hws (recs x1) (recs x2)); rewrite <- ?N1, <- ?N2; try (done || lia)].
  intros [[res y1] y2] ?. by left.
Qed.

End XdlPatience.
