(* ===== verification/XdlScript.v ===== *)
(** * The edit script (xdl_do_diff, xdl_build_script and xdl_diff of xdiff/xdiffi.c)

    The parts put together: the files are prepared, compared by one of the three
    algorithms and compacted on both sides, and the marks are collected into a
    list of changes.  The result: applied to the lines of the first file the
    changes give the lines of the second. *)
From stdpp Require Import prelude.
From S2P Require Import Prelude XdlUtils XdlSplit XdlDiff XdlPrepare XdlCompact XdlMyers XdlRegion XdlHistogram XdlPatience.
Import XdlUtils XdlSplit XdlDiff XdlPrepare XdlCompact XdlMyers XdlRegion.

Module XdlScript.

(** ** The comparison, with its three algorithms *)
Definition xdl_do_diff (malloc : Z → list Z) (mf1 mf2 : list Z) (flags : Z) (anchors : list (list Z)) : outcome (Z * xdfile_t * xdfile_t) :=
  do_diff_with (XdlPatience.xdl_do_patience_diff anchors malloc flags) (XdlHistogram.xdl_do_histogram_diff malloc flags) malloc mf1 mf2 flags.

(** ** Collecting the changes *)
Record xdchange_t := Xdchange { i1 : Z; i2 : Z; chg1 : Z; chg2 : Z; ignore : bool }.

Definition xdl_add_change (xscr : list xdchange_t) (i1 i2 chg1 chg2 : Z) : list xdchange_t :=
  Xdchange i1 i2 chg1 chg2 false :: xscr.

(** From the last lines back to the first; [for (l1 = i1; rchg1[i1 - 1]; i1--);]
    is [start_loop]. *)
Fixpoint script_loop (fuel : nat) (rchg1 rchg2 : list Z) (i1 i2 : Z) (cscr : list xdchange_t) : outcome (list xdchange_t) :=
  match fuel with
  | O => NoFuel
  | S fuel =>
      if (0 <=? i1) || (0 <=? i2) then
        let! c1 := rd rchg1 (rchg_at (i1 - 1)) in
        let! c := if negb (c1 =? 0) then Ret true else let! c2 := rd rchg2 (rchg_at (i2 - 1)) in Ret (negb (c2 =? 0)) in
        if (c : bool) then
          let! j1 := start_loop (length rchg1) rchg1 i1 in
          let! j2 := start_loop (length rchg2) rchg2 i2 in
          script_loop fuel rchg1 rchg2 (j1 - 1) (j2 - 1) (xdl_add_change cscr j1 j2 (i1 - j1) (i2 - j2))
        else script_loop fuel rchg1 rchg2 (i1 - 1) (i2 - 1) cscr
      else Ret cscr
  end.
Definition xdl_build_script (xdf1 xdf2 : xdfile_t) : outcome (list xdchange_t) :=
  script_loop (S (S (length (recs xdf1)))) (rchg xdf1) (rchg xdf2) (nrec xdf1) (nrec xdf2) [].

(** The first half of [xdl_diff]; [None] is -1. *)
Definition xdl_diff_script (malloc : Z → list Z) (mf1 mf2 : list Z) (flags : Z) (anchors : list (list Z)) : outcome (option (xdfile_t * xdfile_t * list xdchange_t)) :=
  let! (res, xdf1, xdf2) := xdl_do_diff malloc mf1 mf2 flags anchors in
  if res <? 0 then Ret None
  else
    let! xdf1 := xdl_change_compact xdf1 xdf2 flags in
    let! xdf2 := xdl_change_compact xdf2 xdf1 flags in
    let! xscr := xdl_build_script xdf1 xdf2 in
    Ret (Some (xdf1, xdf2, xscr)).

(** ** Changes of blank lines only *)

(** [for (i = 0; i < chg && ignore; i++) ignore = xdl_blankline(rec[i]...)] *)
Fixpoint blank_loop (fuel : nat) (recs : list xrecord_t) (from i chg flags : Z) (ignore : bool) : outcome bool :=
  match fuel with
  | O => NoFuel
  | S fuel =>
      if (i <? chg) && ignore then
        let! r := rd recs (from + i) in
        let! b := xdl_blankline (line r) flags in
        blank_loop fuel recs from (i + 1) chg flags b
      else Ret ignore
  end.
Fixpoint xdl_mark_ignorable_lines (xscr : list xdchange_t) (xdf1 xdf2 : xdfile_t) (flags : Z) : outcome (list xdchange_t) :=
  match xscr with
  | [] => Ret []
  | xch :: next =>
      let! ign := blank_loop (S (length (recs xdf1))) (recs xdf1) (i1 xch) 0 (chg1 xch) flags true in
      let! ign := blank_loop (S (length (recs xdf2))) (recs xdf2) (i2 xch) 0 (chg2 xch) flags ign in
      let! next := xdl_mark_ignorable_lines next xdf1 xdf2 flags in
      Ret (Xdchange (i1 xch) (i2 xch) (chg1 xch) (chg2 xch) ign :: next)
  end.

(** ** Applying a script *)
Fixpoint apply_from {A} (l1 l2 : list A) (p : Z) (xscr : list xdchange_t) : list A :=
  match xscr with
  | [] => zdrop p l1
  | c :: xscr => zslice p (i1 c - p) l1 ++ zslice (i2 c) (chg2 c) l2 ++ apply_from l1 l2 (i1 c + chg1 c) xscr
  end.
Definition apply_script {A} (l1 l2 : list A) (xscr : list xdchange_t) : list A := apply_from l1 l2 0 xscr.

(** From line [p1] of the first file and [p2] of the second on: changes in
    order, none empty, at least [gap] common lines in front of the first and one
    between two. *)
Fixpoint script_ok (gap p1 p2 n1 n2 : Z) (xscr : list xdchange_t) : Prop :=
  match xscr with
  | [] => p1 <= n1 ∧ n1 - p1 = n2 - p2
  | c :: xscr => p1 + gap <= i1 c ∧ i1 c - p1 = i2 c - p2 ∧ 0 <= chg1 c ∧ 0 <= chg2 c ∧ 0 < chg1 c + chg2 c ∧
      script_ok 1 (i1 c + chg1 c) (i2 c + chg2 c) n1 n2 xscr
  end.

Lemma script_ok_back gap p1 p2 n1 n2 xscr k : 0 <= k → script_ok gap p1 p2 n1 n2 xscr → script_ok (gap + k) (p1 - k) (p2 - k) n1 n2 xscr.
Proof. intros Hk. destruct xscr as [|c xscr]; cbn [script_ok]; [lia|]. intros (? & ? & ? & ? & ? & ?). split_and!; try done; lia. Qed.
Lemma script_ok_gap gap gap' p1 p2 n1 n2 xscr : gap' <= gap → script_ok gap p1 p2 n1 n2 xscr → script_ok gap' p1 p2 n1 n2 xscr.
Proof. intros Hk. destruct xscr as [|c xscr]; cbn [script_ok]; [done|]. intros (? & ? & ? & ? & ? & ?). split_and!; try done; lia. Qed.

Lemma apply_back {A} (l1 l2 : list A) n1 n2 p q xscr x : script_ok 0 (p + 1) (q + 1) n1 n2 xscr → 0 <= p → 0 <= q → znth l1 p = Some x → znth l2 q = Some x →
  apply_from l1 l2 (p + 1) xscr = zdrop (q + 1) l2 → apply_from l1 l2 p xscr = zdrop q l2.
Proof.
  intros Hok Hp Hq E1 E2 IH. rewrite (zdrop_cons l2 q x Hq E2), <- IH. destruct xscr as [|c xscr]; cbn [apply_from script_ok] in *; [by apply zdrop_cons|].
  unfold zslice. rewrite (zdrop_cons l1 p x Hp E1). unfold ztake at 1. replace (Z.to_nat (i1 c - p)) with (S (Z.to_nat (i1 c - (p + 1)))) by lia. done.
Qed.


Section script.
Context (x1 x2 : xdfile_t) (Hok1 : ok x1) (Hok2 : ok x2) (Hkept : kept_lines x1 = kept_lines x2).
Abbreviation n1 := (nrec x1).
Abbreviation n2 := (nrec x2).
Abbreviation C1 := (rha <$> recs x1).
Abbreviation C2 := (rha <$> recs x2).

Lemma kept_at a b : 0 <= a < n1 → 0 <= b < n2 → U x1 a = true → U x2 b = true → rank x1 a = rank x2 b → cls (recs x1) a = cls (recs x2) b.
Proof.
  intros Ha Hb U1 U2 Er. unfold kept_lines in Hkept.
  rewrite (select_app (U x1) _ 0 a n1), (select_app (U x1) _ a (a + 1) n1), (select_app (U x2) _ 0 b n2), (select_app (U x2) _ b (b + 1) n2) in Hkept by lia.
  rewrite !select_one, U1, U2 in Hkept. unfold rank_of in Er. rewrite (zlen_select _ id (cls (recs x1))), (zlen_select (U x2) id (cls (recs x2))) in Er.
  apply app_inj_1 in Hkept as [_ E]; [|unfold zlen in Er; lia]. by injection E.
Qed.
Lemma class_at x i : nrec x = zlen (recs x) → 0 <= i < nrec x → znth (rha <$> recs x) i = Some (cls (recs x) i).
Proof.
  intros En Hi. destruct (znth_is_Some (recs x) i) as [r Er]; [lia|]. unfold cls. rewrite Er. unfold znth in *.
  destruct (0 <=? i); [|done]. rewrite list_lookup_fmap, Er. done.
Qed.

(** What is collected when the lines from [i1] and [i2] on are done. *)
Record collected (i1 i2 : Z) (cscr : list xdchange_t) : Prop := Collected {
  col_ok : script_ok 1 i1 i2 n1 n2 cscr;
  col_at : (i1 = -1 ∧ i2 = -1) ∨ (0 <= i1 <= n1 ∧ 0 <= i2 <= n2 ∧ rank x1 i1 = rank x2 i2 ∧ U x1 i1 = true ∧ U x2 i2 = true);
  col_apply : apply_from C1 C2 (Z.max 0 i1) cscr = zdrop (Z.max 0 i2) C2;
  col_all : Forall (λ c, ignore c = false) cscr
}.

Lemma rank_pos u i : 0 < i → u (i - 1) = true → 0 < rank_of u i.
Proof.
  intros Hi Hu. pose proof (rank_step u (i - 1)) as E. rewrite Hu in E. replace (i - 1 + 1) with i in E by lia.
  pose proof (rank_mono u 0 (i - 1)) as Hm. rewrite rank_0 in Hm. lia.
Qed.
Lemma rank_prev u i : 0 < i → u (i - 1) = true → rank_of u (i - 1) = rank_of u i - 1.
Proof. intros Hi Hu. pose proof (rank_step u (i - 1)) as E. rewrite Hu in E. replace (i - 1 + 1) with i in E by lia. lia. Qed.

Lemma collected_back j1 j2 cscr : 0 <= j1 <= n1 → 0 <= j2 <= n2 → U x1 (j1 - 1) = true → U x2 (j2 - 1) = true → rank x1 j1 = rank x2 j2 →
  script_ok 0 j1 j2 n1 n2 cscr → apply_from C1 C2 j1 cscr = zdrop j2 C2 → Forall (λ c, ignore c = false) cscr → collected (j1 - 1) (j2 - 1) cscr.
Proof.
  intros H1 H2 U1 U2 Er Hs Ha Hall. assert (j1 = 0 ↔ j2 = 0) as Hz.
  { split; intros ->; rewrite rank_0 in Er.
    - destruct (decide (j2 = 0)); [done|]. pose proof (rank_pos (U x2) j2 ltac:(lia) U2). lia.
    - destruct (decide (j1 = 0)); [done|]. pose proof (rank_pos (U x1) j1 ltac:(lia) U1). lia. }
  split; [apply (script_ok_back 0 _ _ _ _ _ 1); [lia|done]| | |done].
  - destruct (decide (j1 = 0)); [left; lia|right]. rewrite !rank_prev by (done || lia). split_and!; (done || lia).
  - destruct (decide (j1 = 0)) as [E|N]; [rewrite !Z.max_l by lia; assert (j2 = 0) as E2 by lia; by rewrite E, E2 in Ha|].
    rewrite !Z.max_r by lia. destruct Hok1 as [N1 _], Hok2 as [N2 _].
    apply (apply_back _ _ n1 n2 _ _ _ (cls (recs x1) (j1 - 1))); rewrite ?Z.sub_add; try done; try lia; [apply class_at; (done || lia)|].
    rewrite class_at by (done || lia). f_equal. symmetry. apply kept_at; try done; try lia. rewrite !rank_prev by (done || lia). lia.
Qed.

Lemma script_loop_wp fuel : ∀ i1 i2 cscr, collected i1 i2 cscr → (Z.to_nat (i1 + 1) < fuel)%nat →
  returns (script_loop fuel (rchg x1) (rchg x2) i1 i2 cscr) (λ xscr, collected (-1) (-1) xscr).
Proof.
  pose proof Hok1 as [N1 Hc1]. pose proof Hok2 as [N2 Hc2]. pose proof (ok_fuel _ Hok1) as [F1 _]. pose proof (ok_fuel _ Hok2) as [F2 _].
  induction fuel as [|fuel IH]; intros i1 i2 cscr Hcol Hf; [lia|]. cbn [script_loop]. pose proof Hcol as [Hso [[-> ->]|(H1 & H2 & Er & U1 & U2)] Hap Hall]; [done|].
  rewrite (proj2 (Z.leb_le 0 i1)) by lia. cbn [orb]. rewrite !Z.max_r in Hap by lia.
  destruct (rd_mark n1 (rchg x1) (i1 - 1)) as (v1 & -> & E1); [done|lia|]. destruct (rd_mark n2 (rchg x2) (i2 - 1)) as (v2 & -> & E2); [done|lia|].
  cbn [obind]. rewrite E1, E2.
  assert ((if negb (U x1 (i1 - 1)) then Ret true else Ret (negb (U x2 (i2 - 1)))) = Ret (negb (U x1 (i1 - 1)) || negb (U x2 (i2 - 1)))) as -> by (by destruct (negb (U x1 (i1 - 1)))).
  cbn [obind]. destruct (negb (U x1 (i1 - 1)) || negb (U x2 (i2 - 1))) eqn:Ec.
  - apply wp_bind. eapply wp_mono; [|apply (start_loop_wp n1); [done|lia|lia]]. intros j1 (Hj1 & Hm1 & Hu1).
    apply wp_bind. eapply wp_mono; [|apply (start_loop_wp n2); [done|lia|lia]]. intros j2 (Hj2 & Hm2 & Hu2). apply IH; [|lia].
    assert (0 < i1 - j1 + (i2 - j2)) as Hpos.
    { apply orb_true_iff in Ec as [Ec|Ec]; apply negb_true_iff in Ec.
      - assert (j1 ≠ i1) by congruence. lia.
      - assert (j2 ≠ i2) by congruence. lia. }
    apply collected_back; try done; try lia.
    + rewrite <- (rank_marked (U x1) j1 i1), <- (rank_marked (U x2) j2 i2) by (done || lia). done.
    + cbn. rewrite !Zplus_minus. split_and!; (done || lia).
    + cbn [apply_from xdl_add_change XdlScript.i1 XdlScript.i2 chg1 chg2]. rewrite Zplus_minus, Z.sub_diag, Hap. unfold zslice at 1. rewrite ztake_0. cbn [app].
      unfold zslice. rewrite <- (ztake_zdrop (i2 - j2) (zdrop j2 C2)) at 2. by rewrite zdrop_zdrop, Zplus_minus by lia.
    + by constructor.
  - apply orb_false_iff in Ec as [Ec1 Ec2]. apply negb_false_iff in Ec1, Ec2. apply IH; [|lia]. apply collected_back; try done; try lia.
    by apply (script_ok_gap 1).
Qed.

Lemma build_script_wp : returns (xdl_build_script x1 x2) (λ xscr, script_ok 0 0 0 n1 n2 xscr ∧ apply_script C1 C2 xscr = C2 ∧ Forall (λ c, ignore c = false) xscr).
Proof.
  destruct (ok_fuel _ Hok1) as [F1 ?], (ok_fuel _ Hok2) as [F2 ?]. pose proof Hok1 as [N1 Hc1]. pose proof Hok2 as [N2 Hc2]. unfold zlen in N1.
  unfold xdl_build_script. eapply wp_mono; [|apply script_loop_wp; [|lia]].
  - intros xscr [Hso _ Hap Hall]. split; [|by split]. destruct xscr as [|c xscr]; cbn [script_ok] in *; [lia|]. destruct Hso as (? & ? & ? & ? & ? & ?). split_and!; (done || lia).
  - split; [cbn; lia| | |done].
    + right. rewrite !rank_kept, Hkept. split_and!; try done; try lia; [by apply clean_ends|by apply clean_ends].
    + cbn [apply_from]. rewrite !Z.max_r by lia. rewrite !zdrop_all; [done|rewrite zlen_fmap; lia|rewrite zlen_fmap; unfold zlen; lia].
Qed.
End script.


(** ** The script of two files *)
Lemma apply_fmap {A B} (f : A → B) l1 l2 xscr : ∀ p, f <$> apply_from l1 l2 p xscr = apply_from (f <$> l1) (f <$> l2) p xscr.
Proof.
  induction xscr as [|c xscr IH]; intros p; cbn [apply_from]; [apply fmap_drop|].
  rewrite !fmap_app, IH. unfold zslice, ztake, zdrop. by rewrite !fmap_take, !fmap_drop.
Qed.
Lemma apply_Forall {A} (P : A → Prop) l1 l2 xscr : Forall P l1 → Forall P l2 → ∀ p, Forall P (apply_from l1 l2 p xscr).
Proof.
  intros H1 H2. induction xscr as [|c xscr IH]; intros p; cbn [apply_from]; [by apply Forall_drop|].
  apply Forall_app; split; [|apply Forall_app; split; [|apply IH]]; by apply Forall_take, Forall_drop.
Qed.

(** Two lines that match one line under the whitespace flags. *)
Definition matching (flags : Z) (a b : list Z) : Prop := ∃ c, xdl_recmatch c a flags = Ret true ∧ xdl_recmatch c b flags = Ret true.
Lemma matching_eq flags a b : flag flags XDF_WHITESPACE_FLAGS = false → matching flags a b → a = b.
Proof.
  intros Hf (c & Ha & Hb). pose proof (recmatch_wp c a flags) as Wa. pose proof (recmatch_wp c b flags) as Wb. rewrite Ha in Wa. rewrite Hb in Wb.
  destruct Wa as [_ Wa], Wb as [_ Wb]. rewrite <- (Wa Hf eq_refl). by apply Wb.
Qed.
Lemma matching_refl flags a : matching flags a a.
Proof.
  pose proof (recmatch_wp a a flags) as W. apply returns_eq in W as (r & E & Hr & _). exists a. rewrite E, Hr by done. done.
Qed.
Lemma same_classes cf recs1 recs2 : Forall (in_class cf) recs1 → Forall (in_class cf) recs2 → rha <$> recs1 = rha <$> recs2 →
  Forall2 (matching (cflags cf)) (line <$> recs1) (line <$> recs2).
Proof.
  revert recs2. induction recs1 as [|r1 recs1 IH]; intros [|r2 recs2] H1 H2 E; try done.
  apply Forall_cons in H1 as [(k & Hk & Hm) H1], H2 as [(k' & Hk' & Hm') H2]. injection E as E Es. rewrite E in Hk. constructor; [|by apply IH].
  exists (cline k). split; [done|]. replace k with k' by congruence. done.
Qed.

Record script_of (mf1 mf2 : list Z) (flags : Z) (x1 x2 : xdfile_t) (xscr : list xdchange_t) : Prop := ScriptOf {
  scr_lines : line <$> recs x1 = split_lines mf1 ∧ line <$> recs x2 = split_lines mf2;
  scr_nrec : nrec x1 = zlen (split_lines mf1) ∧ nrec x2 = zlen (split_lines mf2);
  scr_ok : script_ok 0 0 0 (nrec x1) (nrec x2) xscr;
  scr_apply : Forall2 (matching flags) (apply_script (split_lines mf1) (split_lines mf2) xscr) (split_lines mf2);
  scr_all : Forall (λ c, ignore c = false) xscr
}.

(** The files end in a newline, unless they are empty. *)
Definition complete (mf : list Z) : Prop := mf = [] ∨ last mf = Some 10.
(** What an algorithm asks for: whitespace counts, and with anchors these are of
    one line and the first file is complete. *)
Definition supported (mf1 : list Z) (flags : Z) (anchors : list (list Z)) : Prop :=
  classic flags = true ∨ flag flags XDF_WHITESPACE_FLAGS = false ∧ (anchors = [] ∨ Forall (λ a, 10 ∉ a) anchors ∧ complete mf1).

Lemma whole_lines data : last data = Some 10 → ∀ cur, (∀ c, c ∈ cur → c ≠ 10) → Forall whole_line (lines_from cur data).
Proof.
  induction data as [|c data IH]; intros Hl cur Hc; [done|]. cbn [lines_from]. destruct (Z.eqb_spec c 10) as [->|].
  - constructor; [by exists cur|]. destruct data as [|d data]; [constructor|]. apply IH; [done|]. intros e He. by apply not_elem_of_nil in He.
  - destruct data as [|d data]; [injection Hl as ->; done|]. apply IH; [done|]. intros e [He|He]%elem_of_app; [by apply Hc|]. apply list_elem_of_singleton in He. by subst.
Qed.

(** One algorithm under its promise. *)
Lemma algorithm_compared {pre may_fail alg} `{!LineAlgorithm pre may_fail alg} mf1 mf2 flags x1 x2 : flag flags XDF_WHITESPACE_FLAGS = false → zlen mf1 < 2 ^ 29 - 4 → zlen mf2 < 2 ^ 29 - 4 →
  prepared mf1 mf2 flags x1 x2 → unmarked_file x1 → unmarked_file x2 → pre (recs x1) →
  returns (alg x1 x2) (λ '(res, y1, y2), res = 0 ∧ compared mf1 mf2 flags y1 y2 ∨ may_fail = true ∧ res = -1).
Proof.
  intros Hws H1 H2 Hp U1 U2 Hpre. pose proof (prepared_short _ _ _ _ _ Hp H1 H2) as [? ?].
  eapply wp_mono; [|apply algorithm_wp; try done; by apply (prepared_comparable mf1 mf2 flags)]. intros [[res y1] y2] [(-> & r1 & r2 & -> & -> & Hd)|?]; [left|by right]. split; [done|].
  destruct Hp as [? ?], Hd as [? ? _ _ Hk], U1 as [N1 _ _], U2 as [N2 _ _]. split; [by split| |].
  - split; (split; [done|]); cbn; by rewrite ?N1, ?N2.
  - exact Hk.
Qed.
Lemma do_diff_wp malloc mf1 mf2 flags anchors : malloc_ok malloc → zlen mf1 < 2 ^ 29 - 4 → zlen mf2 < 2 ^ 29 - 4 → supported mf1 flags anchors →
  returns (xdl_do_diff malloc mf1 mf2 flags anchors) (λ '(res, y1, y2), res = 0 ∧ compared mf1 mf2 flags y1 y2 ∨ XDF_DIFF_ALG flags = XDF_HISTOGRAM_DIFF ∧ res = -1).
Proof.
  intros Hmal H1 H2 Hs. unfold xdl_do_diff. destruct (classic flags) eqn:Hc.
  { eapply wp_mono; [|by apply do_classic_wp]. intros [[res y1] y2] ?. by left. }
  destruct Hs as [?|[Hws Ha]]; [congruence|]. unfold do_diff_with. apply wp_bind. eapply wp_mono; [|by apply prepare_env_wp]. intros [x1 x2] [Hp Ho]. rewrite Hc in Ho. destruct Ho as [U1 U2].
  pose proof (XdlPatience.patience_line_algorithm anchors malloc flags Hmal Hws) as Ip. pose proof (XdlHistogram.histogram_line_algorithm malloc flags Hmal Hws) as Ih.
  destruct (Z.eqb_spec (XDF_DIFF_ALG flags) XDF_PATIENCE_DIFF) as [E|N]; [|destruct (Z.eqb_spec (XDF_DIFF_ALG flags) XDF_HISTOGRAM_DIFF) as [E|N']].
  - eapply wp_mono; [|apply (algorithm_compared mf1 mf2 flags); try done]; [intros [[res y1] y2] [?|[? _]]; [by left|done]|].
    destruct Ha as [->|[Ha Hm]]; [by left|right; split; [done|]]. destruct Hp as [_ [-> _]]. destruct Hm as [->|Hm]; [constructor|]. apply whole_lines; [done|]. intros c Hin. by apply not_elem_of_nil in Hin.
  - eapply wp_mono; [|by apply (algorithm_compared mf1 mf2 flags)]. intros [[res y1] y2] [?|[_ ?]]; [by left|by right].
  - exfalso. unfold classic in Hc. rewrite (proj2 (Z.eqb_neq _ _) N), (proj2 (Z.eqb_neq _ _) N') in Hc. done.
Qed.

Lemma diff_script_wp malloc mf1 mf2 flags anchors : malloc_ok malloc → zlen mf1 < 2 ^ 29 - 4 → zlen mf2 < 2 ^ 29 - 4 → supported mf1 flags anchors →
  returns (xdl_diff_script malloc mf1 mf2 flags anchors) (λ r, match r with Some (x1, x2, xscr) => script_of mf1 mf2 flags x1 x2 xscr | None => XDF_DIFF_ALG flags = XDF_HISTOGRAM_DIFF end).
Proof.
  intros Hmal H1 H2 Hsup. unfold xdl_diff_script. apply wp_bind. eapply wp_mono; [|by apply do_diff_wp].
  intros [[res x1] x2] [(-> & [[(cf & Hcf & Ef & Hc1 & Hc2) [L1 L2]] [Ok1 Ok2] Ek])|[? ->]]; [|done]. change (0 <? 0) with false. cbn match.
  apply wp_bind. eapply wp_mono; [|apply change_compact_wp; [done|done|by rewrite Ek]]. intros y1 (Oy1 & Ry1 & Ny1 & Ky1).
  apply wp_bind. eapply wp_mono; [|apply change_compact_wp; [done|done|by rewrite Ky1, Ek]]. intros y2 (Oy2 & Ry2 & Ny2 & Ky2).
  apply wp_bind. eapply wp_mono; [|apply build_script_wp; [done|done|congruence]]. intros xscr (Hso & Hap & Hall). cbn [wp].
  assert (nrec y1 = zlen (split_lines mf1) ∧ nrec y2 = zlen (split_lines mf2)) as Hn.
  { rewrite Ny1, Ny2, <- L1, <- L2, !zlen_fmap. destruct Ok1 as [-> _], Ok2 as [-> _]. done. }
  split; try done; [by rewrite Ry1, Ry2|]. rewrite <- L1, <- L2, <- Ef. unfold apply_script in *. rewrite <- (apply_fmap rha) in Hap. rewrite <- (apply_fmap line). rewrite Ry1, Ry2 in Hap.
  apply same_classes; [by apply apply_Forall|done|done].
Qed.

(** Without whitespace flags the patched lines are those of the second file. *)
Lemma script_exact mf1 mf2 flags x1 x2 xscr : flag flags XDF_WHITESPACE_FLAGS = false → script_of mf1 mf2 flags x1 x2 xscr →
  apply_script (split_lines mf1) (split_lines mf2) xscr = split_lines mf2.
Proof.
  intros Hf [_ _ _ Ha _]. apply list_eq_Forall2. eapply Forall2_impl; [exact Ha|]. intros a b. by apply matching_eq.
Qed.

End XdlScript.
