(* ===== verification/XdlEmit.v ===== *)
(** * Emitting hunks (xdiff/xemit.c, the output of xdiff/xutils.c, xdl_diff)

    A script is cut into hunks with context and given to the callbacks line by
    line.  A pointer into the script is the rest of the script, so that two
    pointers are equal when their rests are equally long.  The callbacks
    collect what they are given and do not fail; the matching of function lines
    and of ignored lines ([find_func], regular expressions) is a parameter.
    The result: read as a patch, the output turns the first file into the
    second. *)
From stdpp Require Import prelude.
From S2P Require Import Prelude Ctype XdlUtils XdlSplit XdlDiff XdlPrepare XdlCompact XdlScript.
Import Ctype XdlUtils XdlDiff XdlPrepare XdlCompact XdlScript.

Module XdlEmit.

(** ** Output *)
Inductive event :=
| OutHunk (old_begin old_nr new_begin new_nr : Z) (func : list Z)
| OutLine (mb : list (list Z)).

(** [while (val && ptr > buf)]: the digits go in front of what is there. *)
Fixpoint num_loop (room : nat) (val : Z) (str : list Z) : list Z :=
  match room with
  | O => str
  | S room => if val =? 0 then str else num_loop room (val `quot` 10) (48 + val `rem` 10 :: str)
  end.
(** The 31 bytes in front of the terminating null; [-val] of the least number
    is not defined. *)
Definition xdl_num_out (val : Z) : outcome (list Z) :=
  let! (room, val, str) :=
    if val <? 0 then if val =? - 2 ^ 63 then UB else Ret (30%nat, - val, [45]) else Ret (31%nat, val, []) in
  let str := num_loop room val str in
  Ret (match str with [] => [48] | _ => str end).

(** [memcpy(buf + nb, s, n); nb += n;] into the 128 bytes of [buf]; the null
    that [xdl_num_out] adds also has to fit. *)
Definition put (buf s : list Z) (room : Z) : outcome (list Z) :=
  if zlen buf + zlen s <=? room then Ret (buf ++ s) else UB.
Definition put_range (buf : list Z) (s c : Z) : outcome (list Z) :=
  let! n := xdl_num_out (if c =? 0 then s - 1 else s) in
  let! buf := put buf n 127 in
  if negb (c =? 1) then
    let! buf := put buf [44] 128 in
    let! n := xdl_num_out c in
    put buf n 127
  else Ret buf.
Definition xdl_format_hunk_hdr (s1 c1 s2 c2 : Z) (func : list Z) : outcome event :=
  let! buf := put [] [64; 64; 32; 45] 128 in
  let! buf := put_range buf s1 c1 in
  let! buf := put buf [32; 43] 128 in
  let! buf := put_range buf s2 c2 in
  let! buf := put buf [32; 64; 64] 128 in
  let! buf :=
    if negb (zlen func =? 0) then
      let! buf := put buf [32] 128 in
      let funclen := if 128 - zlen buf - 1 <? zlen func then 128 - zlen buf - 1 else zlen func in
      put buf (ztake funclen func) 128
    else Ret buf in
  let! buf := put buf [10] 128 in
  Ret (OutLine [buf]).

Definition no_newline : list Z :=
  [10; 92; 32; 78; 111; 32; 110; 101; 119; 108; 105; 110; 101; 32; 97; 116; 32; 101; 110; 100; 32; 111; 102; 32; 102; 105; 108; 101; 10].
Definition xdl_emit_diffrec (rec pre : list Z) : event :=
  OutLine ([pre; rec] ++ if (0 <? zlen rec) && negb (bool_decide (last rec = Some 10)) then [no_newline] else []).

(** The configuration; [out_hunk] says if that callback is there.  [find_func]
    gives the bytes it would copy to a buffer of the size, [None] is -1. *)
Record xdemitconf_t := Xdemitconf
  { ctxlen : Z; interhunkctxlen : Z; emit_flags : Z; find_func : option (list Z → Z → option (list Z)); out_hunk : bool }.
Definition XDL_EMIT_FUNCNAMES : Z := 1.
Definition XDL_EMIT_NO_HUNK_HDR : Z := 2.
Definition XDL_EMIT_FUNCCONTEXT : Z := 4.

Definition xdl_emit_hunk_hdr (xecfg : xdemitconf_t) (s1 c1 s2 c2 : Z) (func : list Z) : outcome event :=
  if negb (out_hunk xecfg) then xdl_format_hunk_hdr s1 c1 s2 c2 func
  else Ret (OutHunk (if c1 =? 0 then s1 - 1 else s1) c1 (if c2 =? 0 then s2 - 1 else s2) c2 func).
Definition xdl_emit_record (xdf : xdfile_t) (ri : Z) (pre : list Z) : outcome event :=
  let! r := rd (recs xdf) ri in Ret (xdl_emit_diffrec (line r) pre).

(** ** Hunks *)

(** Is [a] the same pointer as [b]? *)
Definition same_ptr (a b : list xdchange_t) : bool := (length a =? length b)%nat.
Definition distance (xch xchp : xdchange_t) : Z := i1 xch - (i1 xchp + chg1 xchp).

Fixpoint skip_ignorable (max_ignorable : Z) (xchp xscr : list xdchange_t) : list xdchange_t :=
  match xchp with
  | [] => xscr
  | c :: xch =>
      if ignore c then
        skip_ignorable max_ignorable xch
          (match xch with
           | [] => xch
           | c' :: _ => if max_ignorable <=? distance c' c then xch else xscr
           end)
      else xscr
  end.
(** [xch] is the head of the list, [xchp] the change before it, [at_last] says
    whether [lxch == xchp]. *)
Fixpoint hunk_loop (max_common max_ignorable : Z) (xchp : xdchange_t) (xch : list xdchange_t) (last : xdchange_t) (lxch : list xdchange_t)
  (at_last : bool) (ignored : Z) : list xdchange_t :=
  match xch with
  | [] => lxch
  | c :: next =>
      let d := distance c xchp in
      if max_common <? d then lxch
      else if (d <? max_ignorable) && (negb (ignore c) || at_last) then hunk_loop max_common max_ignorable c next c xch true 0
      else if (d <? max_ignorable) && ignore c then hunk_loop max_common max_ignorable c next last lxch false (ignored + chg2 c)
      else if negb at_last && (max_common <? i1 c + ignored - (i1 last + chg1 last)) then lxch
      else if negb (ignore c) then hunk_loop max_common max_ignorable c next c xch true 0
      else hunk_loop max_common max_ignorable c next last lxch false (ignored + chg2 c)
  end.
(** The new [*xscr] and the last change of the hunk. *)
Definition xdl_get_hunk (xscr : list xdchange_t) (xecfg : xdemitconf_t) : list xdchange_t * list xdchange_t :=
  let max_common := 2 * ctxlen xecfg + interhunkctxlen xecfg in
  let max_ignorable := ctxlen xecfg in
  match skip_ignorable max_ignorable xscr xscr with
  | [] => ([], [])
  | (c :: next) as xscr => (xscr, hunk_loop max_common max_ignorable c next c xscr true 0)
  end.

(** ** Function lines *)
Fixpoint strip_loop (fuel : nat) (rec : list Z) (len : Z) : outcome Z :=
  match fuel with
  | O => NoFuel
  | S fuel =>
      if 0 <? len then
        let! c := rd rec (len - 1) in
        if isspace c then strip_loop fuel rec (len - 1) else Ret len
      else Ret len
  end.
Definition def_ff (rec : list Z) (sz : Z) : outcome (option (list Z)) :=
  match rec with
  | c :: _ =>
      if isalpha c || (c =? 95) || (c =? 36) then
        let len := if sz <? zlen rec then sz else zlen rec in
        let! len := strip_loop (S (length rec)) rec len in
        Ret (Some (ztake len rec))
      else Ret None
  | [] => Ret None
  end.
Definition match_func_rec (xdf : xdfile_t) (xecfg : xdemitconf_t) (ri sz : Z) : outcome (option (list Z)) :=
  let! r := rd (recs xdf) ri in
  match find_func xecfg with
  | None => def_ff (line r) sz
  | Some f => Ret (f (line r) sz)
  end.
Definition is_func_rec (xdf : xdfile_t) (xecfg : xdemitconf_t) (ri : Z) : outcome bool :=
  let! r := match_func_rec xdf xecfg ri 1 in Ret (match r with Some _ => true | None => false end).

(** [None] is -1, else the line and the text found in it. *)
Fixpoint func_loop (fuel : nat) (xdf1 : xdfile_t) (xecfg : xdemitconf_t) (size l limit step : Z) : outcome (option (Z * list Z)) :=
  match fuel with
  | O => NoFuel
  | S fuel =>
      if negb (l =? limit) && (0 <=? l) && (l <? nrec xdf1) then
        let! r := match_func_rec xdf1 xecfg l size in
        match r with
        | Some buf => Ret (Some (l, buf))
        | None => func_loop fuel xdf1 xecfg size (l + step) limit step
        end
      else Ret None
  end.
Definition get_func_line (xdf1 : xdfile_t) (xecfg : xdemitconf_t) (size start limit : Z) : outcome (option (Z * list Z)) :=
  func_loop (S (length (recs xdf1))) xdf1 xecfg size start limit (if limit <? start then -1 else 1).
Definition func_at (xdf1 : xdfile_t) (xecfg : xdemitconf_t) (start limit : Z) : outcome Z :=
  let! r := get_func_line xdf1 xecfg 1 start limit in Ret (match r with Some (l, _) => l | None => -1 end).
Definition is_empty_rec (xdf : xdfile_t) (ri : Z) : outcome bool :=
  let! r := rd (recs xdf) ri in Ret (forallb XDL_ISSPACE (line r)).

(** ** The ends of a hunk *)
Section emit.
Context (xdf1 xdf2 : xdfile_t) (xecfg : xdemitconf_t).
Abbreviation FUNCCONTEXT := (flag (emit_flags xecfg) XDL_EMIT_FUNCCONTEXT).

(** [while (i2 < nrec)]: is there a function line from [i2] on? *)
Fixpoint added_func (fuel : nat) (i2 : Z) : outcome bool :=
  match fuel with
  | O => NoFuel
  | S fuel =>
      if i2 <? nrec xdf2 then
        let! b := is_func_rec xdf2 xecfg i2 in
        if b then Ret true else added_func fuel (i2 + 1)
      else Ret false
  end.
Fixpoint climb_loop (fuel : nat) (fs1 : Z) : outcome Z :=
  match fuel with
  | O => NoFuel
  | S fuel =>
      if 0 <? fs1 then
        let! e := is_empty_rec xdf1 (fs1 - 1) in
        if e then Ret fs1
        else
          let! f := is_func_rec xdf1 xecfg (fs1 - 1) in
          if f then Ret fs1 else climb_loop fuel (fs1 - 1)
      else Ret fs1
  end.
Fixpoint empty_loop (fuel : nat) (fe1 : Z) : outcome Z :=
  match fuel with
  | O => NoFuel
  | S fuel =>
      if 0 <? fe1 then
        let! e := is_empty_rec xdf1 (fe1 - 1) in
        if e then empty_loop fuel (fe1 - 1) else Ret fe1
      else Ret fe1
  end.
(** [while (xchp != xch && ...) xchp = xchp->next;] *)
Fixpoint passed (xchp xch : list xdchange_t) (s1 s2 : Z) : list xdchange_t :=
  match xchp with
  | [] => []
  | c :: next =>
      if negb (same_ptr xchp xch) && (i1 c + chg1 c <=? s1) && (i2 c + chg2 c <=? s2) then passed next xch s1 s2 else xchp
  end.

(** [pre_context_calculation]: the start of the hunk in both files and its
    first change. *)
Fixpoint pre_context (fuel : nat) (xchp xch : list xdchange_t) : outcome (Z * Z * list xdchange_t) :=
  match fuel, xch with
  | O, _ => NoFuel
  | _, [] => UB
  | S fuel, c :: _ =>
      let s1 := Z.max (i1 c - ctxlen xecfg) 0 in
      let s2 := Z.max (i2 c - ctxlen xecfg) 0 in
      if FUNCCONTEXT then
        let! whole := if nrec xdf1 <=? i1 c then added_func (S (length (recs xdf2))) (i2 c) else Ret false in
        if (whole : bool) then Ret (s1, s2, xch)
        else
          let! fs1 := func_at xdf1 xecfg (if nrec xdf1 <=? i1 c then nrec xdf1 - 1 else i1 c) (-1) in
          let! fs1 := climb_loop (S (length (recs xdf1))) fs1 in
          let fs1 := if fs1 <? 0 then 0 else fs1 in
          if fs1 <? s1 then
            let s2 := Z.max (s2 - (s1 - fs1)) 0 in
            let xchp := passed xchp xch fs1 s2 in
            if negb (same_ptr xchp xch) then pre_context fuel xchp xchp else Ret (fs1, s2, xch)
          else Ret (s1, s2, xch)
      else Ret (s1, s2, xch)
  end.
(** [post_context_calculation]: its end and its last change. *)
Fixpoint post_context (xche : list xdchange_t) : outcome (Z * Z * list xdchange_t) :=
  match xche with
  | [] => UB
  | c :: next =>
      let lctx := ctxlen xecfg in
      let lctx := Z.min lctx (nrec xdf1 - (i1 c + chg1 c)) in
      let lctx := Z.min lctx (nrec xdf2 - (i2 c + chg2 c)) in
      let e1 := i1 c + chg1 c + lctx in
      let e2 := i2 c + chg2 c + lctx in
      if FUNCCONTEXT then
        let! fe1 := func_at xdf1 xecfg (i1 c + chg1 c) (nrec xdf1) in
        let! fe1 := empty_loop (S (length (recs xdf1))) fe1 in
        let fe1 := if fe1 <? 0 then nrec xdf1 else fe1 in
        let '(e1, e2) := if e1 <? fe1 then (fe1, Z.min (e2 + (fe1 - e1)) (nrec xdf2)) else (e1, e2) in
        match next with
        | [] => Ret (e1, e2, xche)
        | c' :: _ =>
            let l := Z.min (i1 c') (nrec xdf1 - 1) in
            let! more := if l - ctxlen xecfg <=? e1 then Ret true else let! f := func_at xdf1 xecfg l e1 in Ret (f <? 0) in
            if (more : bool) then post_context next else Ret (e1, e2, xche)
        end
      else Ret (e1, e2, xche)
  end.

(** ** The lines of a hunk *)

(** [n] lines from [s] on. *)
Fixpoint emit_range (n : nat) (xdf : xdfile_t) (s : Z) (pre : list Z) : outcome (list event) :=
  match n with
  | O => Ret []
  | S n =>
      let! e := xdl_emit_record xdf s pre in
      let! es := emit_range n xdf (s + 1) pre in
      Ret (e :: es)
  end.
Definition CONTEXT : list Z := [32].
Definition REMOVED : list Z := [45].
Definition ADDED : list Z := [43].
Fixpoint emit_changes (xch xche : list xdchange_t) (s1 s2 : Z) : outcome (list event) :=
  match xch with
  | [] => UB
  | c :: next =>
      let! common := emit_range (Z.to_nat (Z.min (i1 c - s1) (i2 c - s2))) xdf2 s2 CONTEXT in
      let! removed := emit_range (Z.to_nat (chg1 c)) xdf1 (i1 c) REMOVED in
      let! added := emit_range (Z.to_nat (chg2 c)) xdf2 (i2 c) ADDED in
      let! rest := if same_ptr xch xche then Ret [] else emit_changes next xche (i1 c + chg1 c) (i2 c + chg2 c) in
      Ret (common ++ removed ++ added ++ rest)
  end.
Definition emit_hunk (xch xche : list xdchange_t) (s1 e1 s2 e2 : Z) (func : list Z) : outcome (list event) :=
  match xch, xche with
  | c :: _, ce :: _ =>
      let! hdr := if negb (flag (emit_flags xecfg) XDL_EMIT_NO_HUNK_HDR) then
                    let! e := xdl_emit_hunk_hdr xecfg (s1 + 1) (e1 - s1) (s2 + 1) (e2 - s2) func in Ret [e]
                  else Ret [] in
      let! pre := emit_range (Z.to_nat (i2 c - s2)) xdf2 s2 CONTEXT in
      let! body := emit_changes xch xche (i1 c) (i2 c) in
      let! post := emit_range (Z.to_nat (e2 - (i2 ce + chg2 ce))) xdf2 (i2 ce + chg2 ce) CONTEXT in
      Ret (hdr ++ pre ++ body ++ post)
  | _, _ => UB
  end.
Fixpoint emit_loop (fuel : nat) (xscr : list xdchange_t) (funclineprev : Z) (func_line : list Z) : outcome (list event) :=
  match fuel, xscr with
  | O, _ => NoFuel
  | _, [] => Ret []
  | S fuel, _ =>
      let '(xch, xche) := xdl_get_hunk xscr xecfg in
      match xch with
      | [] => Ret []
      | _ =>
          let! (s1, s2, xch) := pre_context 2 xscr xch in
          let! (e1, e2, xche) := post_context xche in
          let! (func_line, funclineprev) :=
            if flag (emit_flags xecfg) XDL_EMIT_FUNCNAMES then
              let! r := get_func_line xdf1 xecfg 80 (s1 - 1) funclineprev in
              Ret (match r with Some (_, buf) => buf | None => func_line end, s1 - 1)
            else Ret (func_line, funclineprev) in
          let! hunk := emit_hunk xch xche s1 e1 s2 e2 func_line in
          let! rest := emit_loop fuel (tail xche) funclineprev func_line in
          Ret (hunk ++ rest)
      end
  end.
Definition xdl_emit_diff (xscr : list xdchange_t) : outcome (list event) := emit_loop (S (length xscr)) xscr (-1) [].

(** For a [hunk_func]: its arguments. *)
Fixpoint xdl_call_hunk_func (fuel : nat) (xscr : list xdchange_t) : outcome (list (Z * Z * Z * Z)) :=
  match fuel, xscr with
  | O, _ => NoFuel
  | _, [] => Ret []
  | S fuel, _ =>
      match xdl_get_hunk xscr xecfg with
      | (xch :: _, xche :: next) =>
          let! rest := xdl_call_hunk_func fuel next in
          Ret ((i1 xch, i1 xche + chg1 xche - i1 xch, i2 xch, i2 xche + chg2 xche - i2 xch) :: rest)
      | (_ :: _, []) => UB
      | ([], _) => Ret []
      end
  end.
End emit.

(** ** Changes whose lines all match one of the expressions *)
Definition record_matches_regex (regexec : list (list Z → bool)) (rec : xrecord_t) : bool := existsb (λ f, f (line rec)) regexec.
Fixpoint regex_loop (fuel : nat) (regexec : list (list Z → bool)) (recs : list xrecord_t) (from i chg : Z) (ignore : bool) : outcome bool :=
  match fuel with
  | O => NoFuel
  | S fuel =>
      if (i <? chg) && ignore then
        let! r := rd recs (from + i) in
        regex_loop fuel regexec recs from (i + 1) chg (record_matches_regex regexec r)
      else Ret ignore
  end.
Fixpoint xdl_mark_ignorable_regex (regexec : list (list Z → bool)) (xscr : list xdchange_t) (xdf1 xdf2 : xdfile_t) : outcome (list xdchange_t) :=
  match xscr with
  | [] => Ret []
  | xch :: next =>
      let! ign :=
        if ignore xch then Ret true
        else
          let! ign := regex_loop (S (length (recs xdf1))) regexec (recs xdf1) (i1 xch) 0 (chg1 xch) true in
          regex_loop (S (length (recs xdf2))) regexec (recs xdf2) (i2 xch) 0 (chg2 xch) ign in
      let! next := xdl_mark_ignorable_regex regexec next xdf1 xdf2 in
      Ret (Xdchange (i1 xch) (i2 xch) (chg1 xch) (chg2 xch) ign :: next)
  end.

(** ** The whole *)
Record xpparam_t := Xpparam { xpp_flags : Z; ignore_regex : option (list (list Z → bool)); xpp_anchors : list (list Z) }.

(** With [xdl_emit_diff] as the emitting function; [None] is -1. *)
Definition xdl_diff (malloc : Z → list Z) (mf1 mf2 : list Z) (xpp : xpparam_t) (xecfg : xdemitconf_t) : outcome (option (list event)) :=
  let! r := xdl_diff_script malloc mf1 mf2 (xpp_flags xpp) (xpp_anchors xpp) in
  match r with
  | None => Ret None
  | Some (xdf1, xdf2, []) => Ret (Some [])
  | Some (xdf1, xdf2, xscr) =>
      let! xscr := if flag (xpp_flags xpp) XDF_IGNORE_BLANK_LINES then xdl_mark_ignorable_lines xscr xdf1 xdf2 (xpp_flags xpp) else Ret xscr in
      let! xscr := match ignore_regex xpp with Some r => xdl_mark_ignorable_regex r xscr xdf1 xdf2 | None => Ret xscr end in
      let! out := xdl_emit_diff xdf1 xdf2 xecfg xscr in
      Ret (Some out)
  end.

(** ** A small file *)
Definition text (ls : list (list Z)) : list Z := concat (map (λ l, l ++ [10]) ls).
Definition plain : xpparam_t := Xpparam 0 None [].
Definition unified (ctx : Z) : xdemitconf_t := Xdemitconf ctx 0 0 None true.
Example diff_small : xdl_diff (λ n, zrep n 7) (text [[97]; [98]; [99]; [100]; [101]]) (text [[97]; [120]; [99]; [100]; [101]; [102]]) plain (unified 1) =
  Ret (Some [OutHunk 1 3 1 3 []; OutLine [[32]; [97; 10]]; OutLine [[45]; [98; 10]]; OutLine [[43]; [120; 10]]; OutLine [[32]; [99; 10]];
       OutHunk 5 1 5 2 []; OutLine [[32]; [101; 10]]; OutLine [[43]; [102; 10]]]).
Proof. vm_compute. reflexivity. Qed.


(** ** Hunk headers

    What a reader makes of a header: a missing count is 1. *)
Definition isdigit (d : Z) : bool := (48 <=? d) && (d <=? 57).
Fixpoint read_num (acc : Z) (l : list Z) : Z * list Z :=
  match l with
  | d :: l' => if isdigit d then read_num (10 * acc + (d - 48)) l' else (acc, l)
  | [] => (acc, [])
  end.
Definition read_range (l : list Z) : Z * Z * list Z :=
  let '(s, l) := read_num 0 l in
  match l with
  | 44 :: l => let '(c, l) := read_num 0 l in (s, c, l)
  | _ => (s, 1, l)
  end.
Definition read_hdr (l : list Z) : option (Z * Z * Z * Z) :=
  match l with
  | 64 :: 64 :: 32 :: 45 :: l =>
      match read_range l with
      | (s1, c1, 32 :: 43 :: l) =>
          match read_range l with
          | (s2, c2, 32 :: 64 :: 64 :: _) => Some (s1, c1, s2, c2)
          | _ => None
          end
      | _ => None
      end
  | _ => None
  end.

Definition number (ds : list Z) (acc : Z) : Z := fold_left (λ a d, 10 * a + (d - 48)) ds acc.
Lemma read_num_app ds rest : Forall isdigit ds → match rest with d :: _ => isdigit d = false | [] => True end →
  ∀ acc, read_num acc (ds ++ rest) = (number ds acc, rest).
Proof.
  intros Hds Hr. induction Hds as [|d ds Hd _ IH]; intros acc; cbn [app read_num number fold_left]; [|by destruct (isdigit d); [apply IH|]].
  destruct rest; [done|]. cbn [read_num]. by rewrite Hr.
Qed.

Lemma num_loop_ok room : ∀ v str, 0 <= v < 10 ^ Z.of_nat room → ∃ ds, num_loop room v str = ds ++ str ∧ Forall isdigit ds ∧ (∀ n, v < 10 ^ n → 0 <= n → zlen ds <= n) ∧
  number ds 0 = v ∧ (v = 0 ↔ ds = []).
Proof.
  induction room as [|room IH]; intros v str Hv; cbn [num_loop].
  { assert (v = 0) as -> by (cbn in Hv; lia). exists []. split_and!; done. }
  destruct (Z.eqb_spec v 0) as [->|Hne]; [exists []; split_and!; done|].
  rewrite Z.quot_div_nonneg, Z.rem_mod_nonneg by lia. rewrite Nat2Z.inj_succ, Z.pow_succ_r in Hv by lia.
  destruct (IH (v / 10) (48 + v mod 10 :: str)) as (ds & E & Hd & Hl & Hn & _); [Z.div_mod_to_equations; lia|]. exists (ds ++ [48 + v mod 10]).
  pose proof (Z.mod_pos_bound v 10). split_and!.
  - by rewrite E, <- app_assoc.
  - apply Forall_app. split; [done|]. constructor; [|constructor]. unfold isdigit. rewrite (proj2 (Z.leb_le _ _)), (proj2 (Z.leb_le _ _)) by lia. done.
  - intros n Hvn Hn0. rewrite zlen_app. change (zlen [48 + v mod 10]) with 1. destruct (decide (n = 0)) as [->|]; [cbn in Hvn; lia|].
    replace n with (Z.succ (n - 1)) in Hvn by lia. rewrite Z.pow_succ_r in Hvn by lia. specialize (Hl (n - 1)). assert (v / 10 < 10 ^ (n - 1)) by (Z.div_mod_to_equations; lia). lia.
  - unfold number in *. rewrite fold_left_app, Hn. cbn. Z.div_mod_to_equations. lia.
  - split; [lia|]. by destruct ds.
Qed.

Lemma num_out_ok v : 0 <= v < 2 ^ 63 → ∃ ds, xdl_num_out v = Ret ds ∧ Forall isdigit ds ∧ 0 < zlen ds <= 19 ∧ number ds 0 = v.
Proof.
  intros Hv. unfold xdl_num_out. rewrite (proj2 (Z.ltb_ge v 0)) by lia. cbn [obind].
  destruct (num_loop_ok 31 v []) as (ds & -> & Hd & Hl & Hn & Hz); [cbn; lia|]. rewrite app_nil_r. destruct ds as [|d ds].
  - assert (v = 0) as -> by (by apply Hz). exists [48]. split_and!; first [done|by constructor|unfold zlen; cbn; lia].
  - exists (d :: ds). specialize (Hl 19 ltac:(lia) ltac:(lia)). split_and!; try done; rewrite zlen_cons in *; zlen_pos; lia.
Qed.
Lemma put_ok buf s room : zlen buf + zlen s <= room → put buf s room = Ret (buf ++ s).
Proof. intros H. unfold put. by rewrite (proj2 (Z.leb_le _ _)). Qed.

Abbreviation first_of s c := (if c =? 0 then s - 1 else s).
Lemma put_range_ok buf s c : 0 <= first_of s c < 2 ^ 63 → 0 <= c < 2 ^ 63 → zlen buf <= 80 → ∃ r, put_range buf s c = Ret (buf ++ r) ∧ zlen r <= 39 ∧
  ∀ d rest, isdigit d = false → d ≠ 44 → read_range (r ++ d :: rest) = (first_of s c, c, d :: rest).
Proof.
  intros Hs Hc Hb. unfold put_range. destruct (num_out_ok _ Hs) as (ds & -> & Hd & Hz & Hn). cbn [obind]. rewrite put_ok by lia. cbn [obind].
  destruct (Z.eqb_spec c 1) as [->|]; cbn [negb].
  - exists ds. split_and!; [done|lia|]. intros d rest Hnd H44. unfold read_range. rewrite read_num_app, Hn by done. destruct d as [|p|p]; try done. do 6 (destruct p as [p|p|]; try done).
  - rewrite put_ok by (rewrite zlen_app; change (zlen [44]) with 1; lia). cbn [obind]. destruct (num_out_ok _ Hc) as (ds2 & -> & Hd2 & Hz2 & Hn2). cbn [obind].
    rewrite put_ok by (rewrite !zlen_app; change (zlen [44]) with 1; lia). exists (ds ++ 44 :: ds2). split_and!.
    + f_equal. rewrite <- !app_assoc. done.
    + rewrite zlen_app, zlen_cons. lia.
    + intros d rest Hnd _. unfold read_range. rewrite <- app_assoc. cbn [app]. rewrite read_num_app, Hn by done. by rewrite read_num_app, Hn2 by done.
Qed.


Lemma format_hunk_hdr_ok s1 c1 s2 c2 func : 0 <= first_of s1 c1 < 2 ^ 63 → 0 <= c1 < 2 ^ 63 → 0 <= first_of s2 c2 < 2 ^ 63 → 0 <= c2 < 2 ^ 63 →
  ∃ buf, xdl_format_hunk_hdr s1 c1 s2 c2 func = Ret (OutLine [buf]) ∧ zlen buf <= 128 ∧ last buf = Some 10 ∧
    read_hdr buf = Some (first_of s1 c1, c1, first_of s2 c2, c2).
Proof.
  intros H1 Hc1 H2 Hc2. unfold xdl_format_hunk_hdr. rewrite put_ok by done. cbn [obind app].
  destruct (put_range_ok [64; 64; 32; 45] s1 c1) as (r1 & -> & Hz1 & Hr1); [done..|]. cbn [obind]. rewrite put_ok by (rewrite zlen_app; change (zlen [64; 64; 32; 45]) with 4; change (zlen [32; 43]) with 2; lia).
  cbn [obind]. destruct (put_range_ok (([64; 64; 32; 45] ++ r1) ++ [32; 43]) s2 c2) as (r2 & -> & Hz2 & Hr2); [done|done|rewrite !zlen_app; change (zlen [64; 64; 32; 45]) with 4; change (zlen [32; 43]) with 2; lia|].
  cbn [obind]. set (b := (([64; 64; 32; 45] ++ r1) ++ [32; 43]) ++ r2). assert (zlen b <= 84) as Hb by (unfold b; rewrite !zlen_app; change (zlen [64; 64; 32; 45]) with 4; change (zlen [32; 43]) with 2; lia).
  rewrite put_ok by (change (zlen [32; 64; 64]) with 3; lia). cbn [obind].
  assert (∃ tl, (if negb (zlen func =? 0) then let! buf := put (b ++ [32; 64; 64]) [32] 128 in
      put buf (ztake (if 128 - zlen buf - 1 <? zlen func then 128 - zlen buf - 1 else zlen func) func) 128 else Ret (b ++ [32; 64; 64])) = Ret (b ++ [32; 64; 64] ++ tl) ∧ zlen (b ++ [32; 64; 64] ++ tl) <= 127) as (tl & -> & Htl).
  { destruct (Z.eqb_spec (zlen func) 0); cbn [negb].
    - exists []. rewrite app_nil_r. split; [done|]. rewrite zlen_app. change (zlen [32; 64; 64]) with 3. lia.
    - rewrite put_ok by (rewrite zlen_app; change (zlen [32; 64; 64]) with 3; change (zlen [32]) with 1; lia). cbn [obind].
      assert (zlen ((b ++ [32; 64; 64]) ++ [32]) = zlen b + 4) as -> by (rewrite !zlen_app; change (zlen [32; 64; 64]) with 3; change (zlen [32]) with 1; lia).
      set (k := if 128 - (zlen b + 4) - 1 <? zlen func then 128 - (zlen b + 4) - 1 else zlen func). zlen_pos.
      assert (zlen (ztake k func) <= 127 - (zlen b + 4)) as Hk by (rewrite zlen_ztake; unfold k; bcase; lia).
      rewrite put_ok by (rewrite !zlen_app; change (zlen [32; 64; 64]) with 3; change (zlen [32]) with 1; lia). exists (32 :: ztake k func). rewrite <- !app_assoc. split; [done|].
      rewrite !zlen_app. change (zlen [32; 64; 64]) with 3. rewrite zlen_cons. lia. }
  cbn [obind]. rewrite put_ok by (change (zlen [10]) with 1; lia). cbn [obind]. eexists. split; [done|]. split; [rewrite zlen_app; change (zlen [10]) with 1; lia|]. split; [apply last_snoc|].
  unfold b. rewrite <- !app_assoc. cbn [app read_hdr]. rewrite Hr1 by done. rewrite Hr2 by done. done.
Qed.

End XdlEmit.
