(* ===== verification/XdlPatch.v ===== *)
(** * Reading a diff as a patch

    [patch] applies the output of xdl_diff to the lines of a file and refuses
    it when anything does not fit: a context or removed line that is not
    there, counts that differ from those of the hunk header, a new position that
    is not the one reached, hunks out of order.  The result: for plain settings
    the diff of two files turns the first into the second. *)
From stdpp Require Import prelude.
From S2P Require Import Prelude Ctype XdlUtils XdlPrepare XdlCompact XdlScript XdlEmit.
Import XdlUtils XdlPrepare XdlCompact XdlScript XdlEmit.

Module XdlPatch.

(** ** Patches *)
Definition ends_line (rec : list Z) : bool := bool_decide (last rec = Some 10).
Definition read_line (mb : list (list Z)) : option (Z * list Z) :=
  match mb with
  | [[c]; rec] => if ends_line rec then Some (c, rec) else None
  | [[c]; rec; t] => if negb (ends_line rec) && bool_decide (t = no_newline) then Some (c, rec) else None
  | _ => None
  end.

(** [p] lines of the file are used and [q] lines of the new file known; [m] and
    [n] lines are left in the hunk. *)
Fixpoint patch (l1 : list (list Z)) (p q m n : Z) (evs : list event) : option (list (list Z)) :=
  match evs with
  | [] => if (m =? 0) && (n =? 0) then Some (zdrop p l1) else None
  | OutHunk old_begin old_nr new_begin new_nr _ :: evs =>
      let s := if old_nr =? 0 then old_begin else old_begin - 1 in
      let t := if new_nr =? 0 then new_begin else new_begin - 1 in
      if (m =? 0) && (n =? 0) && (p <=? s) && (s <=? zlen l1) && (t - q =? s - p) then
        (zslice p (s - p) l1 ++.) <$> patch l1 s t old_nr new_nr evs
      else None
  | OutLine mb :: evs =>
      match read_line mb with
      | Some (c, l) =>
          let there := (0 <? m) && bool_decide (znth l1 p = Some l) in
          if c =? 32 then if there && (0 <? n) then (l ::.) <$> patch l1 (p + 1) (q + 1) (m - 1) (n - 1) evs else None
          else if c =? 45 then if there then patch l1 (p + 1) q (m - 1) n evs else None
          else if c =? 43 then if 0 <? n then (l ::.) <$> patch l1 p (q + 1) m (n - 1) evs else None
          else None
      | None => None
      end
  end.

Lemma zslice_cons {A} (l : list A) p k x ls : 0 <= p → 0 <= k → zslice p (1 + k) l = x :: ls → znth l p = Some x ∧ zslice (p + 1) k l = ls.
Proof.
  intros Hp Hk E. destruct (znth l p) as [y|] eqn:Ey.
  - unfold zslice in *. rewrite (zdrop_cons l p y Hp Ey) in E. unfold ztake in E at 1. replace (Z.to_nat (1 + k)) with (S (Z.to_nat k)) in E by lia.
    injection E as -> E. done.
  - unfold zslice in E. rewrite zdrop_all in E; [unfold ztake in E; by rewrite take_nil in E|]. destruct (decide (zlen l <= p)); [done|].
    destruct (znth_is_Some l p) as [y Hy]; [lia|]. congruence.
Qed.

Lemma read_diffrec c l : l ≠ [] → ∃ mb, xdl_emit_diffrec l [c] = OutLine mb ∧ read_line mb = Some (c, l).
Proof.
  intros Hl. unfold xdl_emit_diffrec. eexists. split; [done|]. assert (0 < zlen l) as Hz by (destruct l; [done|]; rewrite zlen_cons; zlen_pos; lia).
  rewrite (proj2 (Z.ltb_lt 0 _) Hz). cbn [andb]. case_bool_decide as E; cbn [negb app read_line]; unfold ends_line.
  - by rewrite bool_decide_true.
  - rewrite bool_decide_false by done. cbn [negb andb]. by rewrite bool_decide_true.
Qed.

(** ** Runs of lines *)
Section runs.
Context (l1 : list (list Z)).
Abbreviation nonempty := (Forall (λ l : list Z, l ≠ [])).
Abbreviation lines c ls := ((λ l, xdl_emit_diffrec l c) <$> ls).

Lemma patch_context ls evs : nonempty ls → ∀ p q m n, 0 <= p → zslice p (zlen ls) l1 = ls → zlen ls <= m → zlen ls <= n →
  patch l1 p q m n (lines CONTEXT ls ++ evs) = (ls ++.) <$> patch l1 (p + zlen ls) (q + zlen ls) (m - zlen ls) (n - zlen ls) evs.
Proof.
  induction 1 as [|l ls Hl _ IH]; intros p q m n Hp Hs Hm Hn.
  { rewrite zlen_nil, !Z.add_0_r, !Z.sub_0_r. cbn [fmap list_fmap app]. by destruct (patch _ _ _ _ _ _). }
  rewrite !zlen_cons in *. pose proof (zlen_nonneg ls). apply zslice_cons in Hs as [E Hs]; [|lia..]. destruct (read_diffrec 32 l Hl) as (mb & Emb & Er).
  cbn [fmap list_fmap app]. unfold CONTEXT at 1. rewrite Emb. cbn [patch]. rewrite Er. cbn [Z.eqb Pos.eqb].
  rewrite bool_decide_true by done. rewrite (proj2 (Z.ltb_lt 0 m)), (proj2 (Z.ltb_lt 0 n)) by lia. cbn [andb].
  change (list_fmap (list Z) event) with (fmap (M := list) (A := list Z) (B := event)). rewrite (IH (p + 1)) by (done || lia).
  replace (p + (1 + zlen ls)) with (p + 1 + zlen ls) by lia. replace (q + (1 + zlen ls)) with (q + 1 + zlen ls) by lia.
  replace (m - (1 + zlen ls)) with (m - 1 - zlen ls) by lia. replace (n - (1 + zlen ls)) with (n - 1 - zlen ls) by lia.
  by destruct (patch _ _ _ _ _ _).
Qed.
Lemma patch_removed ls evs : nonempty ls → ∀ p q m n, 0 <= p → zslice p (zlen ls) l1 = ls → zlen ls <= m →
  patch l1 p q m n (lines REMOVED ls ++ evs) = patch l1 (p + zlen ls) q (m - zlen ls) n evs.
Proof.
  induction 1 as [|l ls Hl _ IH]; intros p q m n Hp Hs Hm.
  { by rewrite zlen_nil, !Z.add_0_r, !Z.sub_0_r. }
  rewrite !zlen_cons in *. pose proof (zlen_nonneg ls). apply zslice_cons in Hs as [E Hs]; [|lia..]. destruct (read_diffrec 45 l Hl) as (mb & Emb & Er).
  cbn [fmap list_fmap app]. unfold REMOVED at 1. rewrite Emb. cbn [patch]. rewrite Er. cbn [Z.eqb Pos.eqb].
  rewrite bool_decide_true by done. rewrite (proj2 (Z.ltb_lt 0 m)) by lia. cbn [andb].
  change (list_fmap (list Z) event) with (fmap (M := list) (A := list Z) (B := event)). rewrite (IH (p + 1)) by (done || lia).
  by replace (p + (1 + zlen ls)) with (p + 1 + zlen ls) by lia; replace (m - (1 + zlen ls)) with (m - 1 - zlen ls) by lia.
Qed.
Lemma patch_added ls evs : nonempty ls → ∀ p q m n, zlen ls <= n →
  patch l1 p q m n (lines ADDED ls ++ evs) = (ls ++.) <$> patch l1 p (q + zlen ls) m (n - zlen ls) evs.
Proof.
  induction 1 as [|l ls Hl _ IH]; intros p q m n Hn.
  { rewrite zlen_nil, !Z.add_0_r, !Z.sub_0_r. cbn [fmap list_fmap app]. by destruct (patch _ _ _ _ _ _). }
  rewrite !zlen_cons in *. pose proof (zlen_nonneg ls). destruct (read_diffrec 43 l Hl) as (mb & Emb & Er).
  cbn [fmap list_fmap app]. unfold ADDED at 1. rewrite Emb. cbn [patch]. rewrite Er. cbn [Z.eqb Pos.eqb].
  rewrite (proj2 (Z.ltb_lt 0 n)) by lia.
  change (list_fmap (list Z) event) with (fmap (M := list) (A := list Z) (B := event)). rewrite (IH p) by lia.
  replace (q + (1 + zlen ls)) with (q + 1 + zlen ls) by lia. replace (n - (1 + zlen ls)) with (n - 1 - zlen ls) by lia.
  by destruct (patch _ _ _ _ _ _).
Qed.
End runs.

(** ** Positions in a script *)
Lemma script_bounds xscr n1 n2 : ∀ gap p q, 0 <= gap → script_ok gap p q n1 n2 xscr → p <= n1 ∧ q <= n2.
Proof.
  induction xscr as [|c xscr IH]; intros gap p q Hg; cbn [script_ok]; [lia|]. intros (? & ? & ? & ? & ? & Hs). apply IH in Hs; lia.
Qed.

Section hunk.
Context (x1 x2 : xdfile_t).
Abbreviation L1 := (line <$> recs x1).
Abbreviation L2 := (line <$> recs x2).
Abbreviation n1 := (nrec x1).
Abbreviation n2 := (nrec x2).
Context (N1 : n1 = zlen L1) (N2 : n2 = zlen L2).
Context (Hne1 : Forall (λ l : list Z, l ≠ []) L1) (Hne2 : Forall (λ l : list Z, l ≠ []) L2).

(** Line [p] of the first file and line [q] of the second correspond, and the
    script does the rest. *)
Record aligned (p q : Z) (xscr : list xdchange_t) : Prop := Aligned {
  al_pos : 0 <= p ∧ 0 <= q;
  al_ok : script_ok 0 p q n1 n2 xscr;
  al_rest : apply_from L1 L2 p xscr = zdrop q L2
}.
(** The common lines up to the next change. *)
Definition room (p : Z) (xscr : list xdchange_t) : Z := match xscr with [] => n1 - p | c :: _ => i1 c - p end.

Lemma script_forward p q xscr k : script_ok 0 p q n1 n2 xscr → 0 <= k <= room p xscr → script_ok 0 (p + k) (q + k) n1 n2 xscr.
Proof. intros Hs Hk. destruct xscr as [|c xscr]; cbn in *; [lia|]. destruct Hs as (? & ? & ? & ? & ? & ?). split_and!; (done || lia). Qed.
Lemma apply_forward p xscr k : 0 <= p → p <= n1 → 0 <= k <= room p xscr → p + room p xscr <= n1 →
  apply_from L1 L2 p xscr = zslice p k L1 ++ apply_from L1 L2 (p + k) xscr.
Proof.
  intros Hp Hpn Hk Hn. destruct xscr as [|c xscr]; cbn [apply_from room] in *.
  - unfold zslice. rewrite <- (zdrop_zdrop _ k p) by lia. by rewrite ztake_zdrop.
  - rewrite (app_assoc (zslice p k L1)). f_equal. replace (i1 c - p) with (k + (i1 c - (p + k))) by lia. apply zslice_app; lia.
Qed.
Lemma aligned_room p q xscr : aligned p q xscr → p <= n1 ∧ q <= n2 ∧ p + room p xscr <= n1 ∧ q + room p xscr <= n2 ∧ 0 <= room p xscr.
Proof.
  intros [Hp Hs _]. pose proof (script_bounds xscr n1 n2 0 p q) as Hb. specialize (Hb ltac:(lia) Hs). destruct xscr as [|c xscr]; cbn [room script_ok] in *; [lia|].
  destruct Hs as (? & ? & ? & ? & ? & Hs). apply script_bounds in Hs; lia.
Qed.
Lemma aligned_forward p q xscr k : aligned p q xscr → 0 <= k <= room p xscr → zslice p k L1 = zslice q k L2 ∧ aligned (p + k) (q + k) xscr.
Proof.
  intros Ha Hk. destruct (aligned_room _ _ _ Ha) as (Hp & Hq & Hr1 & Hr2 & Hr). destruct Ha as [[? ?] Hs E].
  rewrite (apply_forward p xscr k) in E by lia. rewrite <- (ztake_zdrop k (zdrop q L2)), zdrop_zdrop in E by lia.
  apply app_inj_1 in E as [E1 E2]; [|assert (zlen (zslice p k L1) = zlen (zslice q k L2)) as El by (rewrite !zlen_zslice by lia; done); unfold zlen, zslice in El; unfold zslice; lia].
  split; [done|]. split; [lia|by apply script_forward|done].
Qed.

Abbreviation E1 c := (i1 c + chg1 c).
Abbreviation E2 c := (i2 c + chg2 c).
Lemma aligned_change c xscr : aligned (i1 c) (i2 c) (c :: xscr) → aligned (E1 c) (E2 c) xscr ∧ script_ok 1 (E1 c) (E2 c) n1 n2 xscr ∧ 0 <= chg1 c ∧ 0 <= chg2 c ∧ E1 c <= n1 ∧ E2 c <= n2.
Proof.
  intros [Hp (_ & _ & Hc1 & Hc2 & _ & Hs) E]. pose proof (script_bounds xscr n1 n2 1 _ _ ltac:(lia) Hs). split_and!; try done; try lia. split; [lia|by apply (script_ok_gap 1)|].
  cbn [apply_from] in E. rewrite Z.sub_diag in E. unfold zslice at 1 in E. rewrite ztake_0 in E. cbn [app] in E.
  rewrite <- (ztake_zdrop (chg2 c) (zdrop (i2 c) L2)), zdrop_zdrop in E by lia. by apply app_inv_head in E.
Qed.

(** ** The lines of a hunk *)
Lemma emit_range_ok xdf pre n : ∀ s, 0 <= s → s + Z.of_nat n <= zlen (recs xdf) →
  emit_range n xdf s pre = Ret ((λ l, xdl_emit_diffrec l pre) <$> zslice s (Z.of_nat n) (line <$> recs xdf)).
Proof.
  induction n as [|n IH]; intros s Hs Hn; [done|]. cbn [emit_range]. unfold xdl_emit_record. destruct (znth_is_Some (recs xdf) s) as [r Er]; [lia|].
  rewrite (rd_znth _ _ _ Er). cbn [obind]. rewrite IH by lia. cbn [obind]. unfold zslice.
  assert (znth (line <$> recs xdf) s = Some (line r)) as El by (unfold znth in *; destruct (0 <=? s); [|done]; by rewrite list_lookup_fmap, Er).
  rewrite (zdrop_cons _ s _ Hs El). unfold ztake. rewrite !Nat2Z.id. done.
Qed.

Lemma nonempty_slice (l : list (list Z)) p k : Forall (λ l : list Z, l ≠ []) l → Forall (λ l : list Z, l ≠ []) (zslice p k l).
Proof. intros H. by apply Forall_take, Forall_drop. Qed.

(** The number of unchanged lines, then those of the change. *)
Lemma change_step c xscr p q : aligned p q (c :: xscr) → ∃ common removed added,
  emit_range (Z.to_nat (Z.min (i1 c - p) (i2 c - q))) x2 q CONTEXT = Ret common ∧
  emit_range (Z.to_nat (chg1 c)) x1 (i1 c) REMOVED = Ret removed ∧ emit_range (Z.to_nat (chg2 c)) x2 (i2 c) ADDED = Ret added ∧
  aligned (E1 c) (E2 c) xscr ∧ script_ok 1 (E1 c) (E2 c) n1 n2 xscr ∧ p <= E1 c ∧ q <= E2 c ∧
  ∀ m n tl, E1 c - p <= m → E2 c - q <= n →
    patch L1 p q m n (common ++ removed ++ added ++ tl) = (zslice q (E2 c - q) L2 ++.) <$> patch L1 (E1 c) (E2 c) (m - (E1 c - p)) (n - (E2 c - q)) tl.
Proof.
  intros Ha. pose proof (aligned_room _ _ _ Ha) as (Hp & Hq & Hr1 & Hr2 & Hr). cbn [room] in *. pose proof Ha as [[? ?] (_ & Ed & _) _].
  destruct (aligned_forward p q _ (i1 c - p) Ha) as [Eq Hc]; [cbn; lia|]. replace (p + (i1 c - p)) with (i1 c) in Hc by lia. replace (q + (i1 c - p)) with (i2 c) in Hc by lia.
  destruct (aligned_change c xscr Hc) as (Hrest & Hs1 & Hc1 & Hc2 & Hb1 & Hb2). replace (Z.min (i1 c - p) (i2 c - q)) with (i2 c - q) by lia.
  rewrite zlen_fmap in N1, N2. eexists _, _, _. rewrite !emit_range_ok by lia. split_and!; try done; try lia. intros m n tl Hm Hn. rewrite !Z2Nat.id by lia.
  rewrite patch_context; [|by apply nonempty_slice|lia|rewrite zlen_zslice by (rewrite ?zlen_fmap; lia); by rewrite <- Ed|rewrite zlen_zslice; rewrite ?zlen_fmap; lia..].
  rewrite patch_removed; [|by apply nonempty_slice|rewrite ?zlen_zslice; rewrite ?zlen_fmap; lia|..].
  2: { rewrite !zlen_zslice by (rewrite ?zlen_fmap; lia). by replace (p + (i2 c - q)) with (i1 c) by lia. } 2: { rewrite !zlen_zslice by (rewrite ?zlen_fmap; lia). lia. }
  rewrite patch_added; [|by apply nonempty_slice|rewrite !zlen_zslice by (rewrite ?zlen_fmap; lia); lia]. rewrite !zlen_zslice by (rewrite ?zlen_fmap; lia).
  replace (p + (i2 c - q) + chg1 c) with (E1 c) by lia. replace (q + (i2 c - q) + chg2 c) with (E2 c) by lia.
  replace (m - (i2 c - q) - chg1 c) with (m - (E1 c - p)) by lia. replace (n - (i2 c - q) - chg2 c) with (n - (E2 c - q)) by lia.
  rewrite <- option_fmap_compose. assert (zslice q (E2 c - q) L2 = zslice q (i2 c - q) L2 ++ zslice (i2 c) (chg2 c) L2) as ->.
  { replace (E2 c - q) with ((i2 c - q) + chg2 c) by lia. rewrite zslice_app by lia. do 2 f_equal. lia. }
  destruct (patch _ _ _ _ _ _); [|done]. cbn. by rewrite app_assoc.
Qed.

Lemma emit_changes_ok hs c xscr : ∀ p q, aligned p q (hs ++ c :: xscr) → ∃ evs, emit_changes x1 x2 (hs ++ c :: xscr) (c :: xscr) p q = Ret evs ∧
  aligned (E1 c) (E2 c) xscr ∧ script_ok 1 (E1 c) (E2 c) n1 n2 xscr ∧ p <= E1 c ∧ q <= E2 c ∧
  ∀ m n tl, E1 c - p <= m → E2 c - q <= n →
    patch L1 p q m n (evs ++ tl) = (zslice q (E2 c - q) L2 ++.) <$> patch L1 (E1 c) (E2 c) (m - (E1 c - p)) (n - (E2 c - q)) tl.
Proof.
  induction hs as [|h hs IH]; intros p q Ha; cbn [app] in *.
  - destruct (change_step c xscr p q Ha) as (co & re & ad & Ec & Er & Ead & Hrest & Hs & Hp & Hq & Hpatch). cbn [emit_changes]. rewrite Ec, Er, Ead. cbn [obind].
    unfold same_ptr. rewrite Nat.eqb_refl. cbn [obind]. eexists. split_and!; try done. intros m n tl Hm Hn. rewrite app_nil_r, <- !app_assoc. by apply Hpatch.
  - destruct (change_step h _ p q Ha) as (co & re & ad & Ec & Er & Ead & Hrest & Hs & Hp & Hq & Hpatch). cbn [emit_changes]. rewrite Ec, Er, Ead. cbn [obind].
    assert (same_ptr (h :: hs ++ c :: xscr) (c :: xscr) = false) as -> by (apply Nat.eqb_neq; cbn; rewrite length_app; cbn; lia).
    destruct (IH _ _ Hrest) as (evs & -> & Hrest' & Hs' & Hp' & Hq' & Hpatch'). cbn [obind]. eexists. split_and!; try done; try lia. intros m n tl Hm Hn.
    rewrite <- !app_assoc, Hpatch, Hpatch' by lia. replace (m - (E1 h - p) - (E1 c - E1 h)) with (m - (E1 c - p)) by lia.
    replace (n - (E2 h - q) - (E2 c - E2 h)) with (n - (E2 c - q)) by lia. rewrite <- option_fmap_compose.
    assert (zslice q (E2 c - q) L2 = zslice q (E2 h - q) L2 ++ zslice (E2 h) (E2 c - E2 h) L2) as ->.
    { pose proof (al_pos _ _ _ Ha). replace (E2 c - q) with ((E2 h - q) + (E2 c - E2 h)) by lia. rewrite zslice_app by lia. do 2 f_equal. lia. }
    destruct (patch _ _ _ _ _ _); [|done]. cbn. by rewrite app_assoc.
Qed.

(** ** The extent of a hunk *)
Context (xecfg : xdemitconf_t) (Hctx : 0 <= ctxlen xecfg) (Hinter : 0 <= interhunkctxlen xecfg).
Context (Hfc : flag (emit_flags xecfg) XDL_EMIT_FUNCCONTEXT = false) (Hhdr : flag (emit_flags xecfg) XDL_EMIT_NO_HUNK_HDR = false) (Hout : out_hunk xecfg = true).
Abbreviation ctx := (ctxlen xecfg).
Abbreviation max_common := (2 * ctxlen xecfg + interhunkctxlen xecfg).
Definition shown (c : xdchange_t) : Prop := ignore c = false.

(** Without ignored changes a hunk goes on to the first gap of more than
    [max_common] lines. *)
Lemma hunk_loop_ok xscr : Forall shown xscr → ∀ c, ∃ hs c' rest, c :: xscr = hs ++ c' :: rest ∧
  hunk_loop max_common ctx c xscr c (c :: xscr) true 0 = c' :: rest ∧ match rest with [] => True | c'' :: _ => max_common < distance c'' c' end.
Proof.
  induction 1 as [|c' xscr Hc Hall IH]; intros c; [by exists [], c, []|]. cbn [hunk_loop]. rewrite Hc. cbn [negb orb]. rewrite andb_true_r.
  destruct (Z.ltb_spec max_common (distance c' c)); [by exists [], c, (c' :: xscr)|].
  destruct (IH c') as (hs & c2 & rest & E & Eh & Hg). rewrite Eh. cbn [andb negb]. exists (c :: hs), c2, rest. rewrite E. split; [done|]. split; [|done].
  by destruct (distance c' c <? ctx).
Qed.
Lemma get_hunk_ok c xscr : Forall shown (c :: xscr) → ∃ hs c' rest, c :: xscr = hs ++ c' :: rest ∧
  xdl_get_hunk (c :: xscr) xecfg = (c :: xscr, c' :: rest) ∧ match rest with [] => True | c'' :: _ => max_common < distance c'' c' end.
Proof.
  intros [Hc Hall]%Forall_cons. destruct (hunk_loop_ok xscr Hall c) as (hs & c' & rest & E & Eh & Hg). exists hs, c', rest. split; [done|]. split; [|done].
  unfold xdl_get_hunk. cbn [skip_ignorable]. rewrite Hc, Eh. done.
Qed.

Lemma strip_loop_wp rec fuel : ∀ len, len <= zlen rec → Z.max 0 len < Z.of_nat fuel → returns (strip_loop fuel rec len) (λ _, True).
Proof.
  induction fuel as [|fuel IH]; intros len Hl Hf; [lia|]. cbn [strip_loop]. destruct (Z.ltb_spec 0 len); [|done].
  apply wp_bind, rd_wp; [lia|]. intros c _. destruct (Ctype.isspace c); [apply IH; lia|done].
Qed.
Lemma match_func_wp ri sz : 0 <= ri < n1 → returns (match_func_rec x1 xecfg ri sz) (λ _, True).
Proof.
  intros Hr. unfold match_func_rec. rewrite zlen_fmap in N1. apply wp_bind, rd_wp; [lia|]. intros r _. destruct (find_func xecfg); [done|].
  unfold def_ff. destruct (line r) as [|c l] eqn:El; [done|]. destruct (_ || _); [|done]. apply wp_bind. eapply wp_mono; [|apply strip_loop_wp; [bcase; lia|unfold zlen; bcase; lia]]. done.
Qed.
Lemma func_line_wp size start limit : returns (get_func_line x1 xecfg size start limit) (λ _, True).
Proof.
  unfold get_func_line. set (step := if limit <? start then -1 else 1). assert (step = 1 ∨ step = -1) as Hstep by (unfold step; destruct (limit <? start); auto).
  assert (∀ fuel l, (0 < fuel)%nat → (0 <= l < n1 → (if step <? 0 then l + 1 else n1 - l) < Z.of_nat fuel) → returns (func_loop fuel x1 xecfg size l limit step) (λ _, True)) as H.
  { induction fuel as [|fuel IH]; intros l Hf Hm; [lia|]. cbn [func_loop]. destruct (negb (l =? limit) && (0 <=? l) && (l <? n1)) eqn:Ec; [|done].
    apply andb_true_iff in Ec as [[_ Ec]%andb_true_iff Ec']. apply Z.leb_le in Ec. apply Z.ltb_lt in Ec'. specialize (Hm ltac:(lia)).
    apply wp_bind. eapply wp_mono; [|by apply match_func_wp]. intros [buf|] _; [done|]. apply IH; [|intros ?]; destruct (Z.ltb_spec step 0); lia. }
  apply H; [lia|]. intros Hl. rewrite zlen_fmap in N1. unfold zlen in N1. destruct (step <? 0); lia.
Qed.

(** ** Hunks *)

(** From [p], [q] the common lines, then a hunk that ends at [e1], [e2]. *)
Lemma emit_hunk_ok p q s1 s2 e1 e2 hs c c' rest func : hs ++ c' :: rest = c :: tail (hs ++ c' :: rest) → aligned p q (hs ++ c' :: rest) →
  p <= s1 <= i1 c → s1 - p = s2 - q → E1 c' <= e1 → e1 - E1 c' = e2 - E2 c' → e1 - E1 c' <= room (E1 c') rest →
  ∃ evs, emit_hunk x1 x2 xecfg (hs ++ c' :: rest) (c' :: rest) s1 e1 s2 e2 func = Ret evs ∧ aligned e1 e2 rest ∧ q <= e2 ∧
  ∀ tl, patch L1 p q 0 0 (evs ++ tl) = (zslice q (e2 - q) L2 ++.) <$> patch L1 e1 e2 0 0 tl.
Proof.
  intros Ec Ha Hs Hsd He Hed Hroom. pose proof (aligned_room _ _ _ Ha) as (_ & _ & Hr1 & Hr2 & _). pose proof Ha as [[? ?] Hso _]. pose proof N1 as M1. pose proof N2 as M2. rewrite zlen_fmap in M1, M2.
  assert (room p (hs ++ c' :: rest) = i1 c - p) as Hroomp by (rewrite Ec; done). assert (i1 c - p = i2 c - q) as Hd by (rewrite Ec in Hso; apply Hso).
  destruct (aligned_forward p q _ (s1 - p) Ha) as [Ep Has]; [lia|]. replace (p + (s1 - p)) with s1 in Has by lia. replace (q + (s1 - p)) with s2 in Has by lia.
  assert (room s1 (hs ++ c' :: rest) = i1 c - s1) as Hrooms by (rewrite Ec; done).
  destruct (aligned_forward s1 s2 _ (i1 c - s1) Has) as [Ectx Hac]; [lia|]. replace (s1 + (i1 c - s1)) with (i1 c) in Hac by lia. replace (s2 + (i1 c - s1)) with (i2 c) in Hac by lia.
  destruct (emit_changes_ok _ _ _ _ _ Hac) as (body & Eb & Hrest & _ & Hb1 & Hb2 & Hpatch).
  pose proof (aligned_room _ _ _ Hrest) as (Hq1 & Hq2 & Hq3 & Hq4 & _).
  destruct (aligned_forward _ _ _ (e1 - E1 c') Hrest) as [Epost Hae]; [lia|]. replace (E1 c' + (e1 - E1 c')) with e1 in Hae by lia. replace (E2 c' + (e1 - E1 c')) with e2 in Hae by lia.
  unfold emit_hunk. destruct (hs ++ c' :: rest) as [|c0 xs]; [discriminate|]. injection Ec as ->. rewrite Hhdr. cbn [negb]. unfold xdl_emit_hunk_hdr. rewrite Hout. cbn [negb obind].
  rewrite emit_range_ok by lia. cbn [obind]. rewrite Eb. cbn [obind]. rewrite emit_range_ok by lia. cbn [obind]. rewrite !Z2Nat.id by lia.
  eexists. split; [done|]. split; [done|]. split; [lia|]. intros tl. rewrite <- !app_assoc. cbn [app patch].
  assert ((if e1 - s1 =? 0 then if e1 - s1 =? 0 then s1 + 1 - 1 else s1 + 1 else (if e1 - s1 =? 0 then s1 + 1 - 1 else s1 + 1) - 1) = s1) as -> by (destruct (e1 - s1 =? 0); lia).
  assert ((if e2 - s2 =? 0 then if e2 - s2 =? 0 then s2 + 1 - 1 else s2 + 1 else (if e2 - s2 =? 0 then s2 + 1 - 1 else s2 + 1) - 1) = s2) as -> by (destruct (e2 - s2 =? 0); lia).
  rewrite (proj2 (Z.leb_le p s1)), (proj2 (Z.leb_le s1 (zlen L1))), (proj2 (Z.eqb_eq (s2 - q) (s1 - p))) by (rewrite ?zlen_fmap; lia). cbn [Z.eqb andb].
  rewrite patch_context; [|by apply nonempty_slice|lia|rewrite zlen_zslice by (rewrite ?zlen_fmap; lia); replace (i2 c - s2) with (i1 c - s1) by lia; done|rewrite zlen_zslice; rewrite ?zlen_fmap; lia..].
  rewrite zlen_zslice by (rewrite ?zlen_fmap; lia). replace (s1 + (i2 c - s2)) with (i1 c) by lia. replace (s2 + (i2 c - s2)) with (i2 c) by lia.
  rewrite Hpatch by lia. rewrite patch_context; [|by apply nonempty_slice|lia|rewrite zlen_zslice by (rewrite ?zlen_fmap; lia); replace (e2 - E2 c') with (e1 - E1 c') by lia; done|rewrite zlen_zslice; rewrite ?zlen_fmap; lia..].
  rewrite zlen_zslice by (rewrite ?zlen_fmap; lia). rewrite <- !option_fmap_compose.
  replace (E1 c' + (e2 - E2 c')) with e1 by lia. replace (E2 c' + (e2 - E2 c')) with e2 by lia.
  replace (e1 - s1 - (i2 c - s2) - (E1 c' - i1 c) - (e2 - E2 c')) with 0 by lia. replace (e2 - s2 - (i2 c - s2) - (E2 c' - i2 c) - (e2 - E2 c')) with 0 by lia.
  assert (zslice q (e2 - q) L2 = zslice p (s1 - p) L1 ++ zslice s2 (i2 c - s2) L2 ++ zslice (i2 c) (E2 c' - i2 c) L2 ++ zslice (E2 c') (e2 - E2 c') L2) as ->.
  { rewrite Ep. replace (e2 - q) with ((s1 - p) + ((i2 c - s2) + ((E2 c' - i2 c) + (e2 - E2 c')))) by lia. rewrite !zslice_app by lia.
    replace (q + (s1 - p)) with s2 by lia. replace (s2 + (i2 c - s2)) with (i2 c) by lia. by replace (i2 c + (E2 c' - i2 c)) with (E2 c') by lia. }
  destruct (patch _ _ _ _ _ _); [|done]. cbn. by rewrite <- !app_assoc.
Qed.

(** Far enough from the last hunk for the context of the next. *)
Definition apart (p q : Z) (xscr : list xdchange_t) : Prop :=
  (p = 0 ∧ q = 0) ∨ match xscr with [] => True | c :: _ => p + ctx <= i1 c end.

Lemma emit_loop_ok fuel : ∀ xscr p q flp func, Forall shown xscr → aligned p q xscr → apart p q xscr → (length xscr < fuel)%nat →
  ∃ evs, emit_loop x1 x2 xecfg fuel xscr flp func = Ret evs ∧ patch L1 p q 0 0 evs = Some (zdrop q L2).
Proof.
  induction fuel as [|fuel IH]; intros xscr p q flp func Hall Ha Hap Hf; [lia|]. destruct xscr as [|c xscr].
  { exists []. split; [done|]. cbn. f_equal. apply (al_rest _ _ _ Ha). }
  destruct (get_hunk_ok c xscr Hall) as (hs & c' & rest & Exs & Eh & Hgap). cbn [emit_loop]. rewrite Eh. cbn [pre_context post_context]. rewrite Hfc. cbn [obind].
  pose proof Ha as [[Hp Hq] (_ & Hd & _) _]. set (s1 := Z.max (i1 c - ctx) 0). set (s2 := Z.max (i2 c - ctx) 0).
  assert (p <= s1 <= i1 c ∧ s1 - p = s2 - q) as [Hs Hsd] by (unfold s1, s2; pose proof (al_ok _ _ _ Ha) as [? _]; destruct Hap as [[-> ->]|Hap]; lia).
  set (lctx := Z.min (Z.min ctx (n1 - E1 c')) (n2 - E2 c')).
  assert (script_ok 1 (E1 c') (E2 c') n1 n2 rest) as Hso.
  { destruct (aligned_forward p q _ (i1 c - p) Ha) as [_ Hac]; [cbn; pose proof (al_ok _ _ _ Ha) as [? _]; lia|].
    rewrite Exs in Hac. replace (p + (i1 c - p)) with (i1 c) in Hac by lia. replace (q + (i1 c - p)) with (i2 c) in Hac by lia.
    destruct (emit_changes_ok _ _ _ _ _ Hac) as (? & _ & _ & ? & _). done. }
  assert (0 <= lctx <= room (E1 c') rest ∧ lctx <= ctx) as [Hl Hlc].
  { pose proof (script_bounds rest n1 n2 1 _ _ ltac:(lia) Hso). unfold lctx. destruct rest as [|c'' rest]; cbn [room script_ok] in *; unfold distance in *; lia. }
  assert (∃ r, (if flag (emit_flags xecfg) XDL_EMIT_FUNCNAMES then
    let! r := get_func_line x1 xecfg 80 (s1 - 1) flp in Ret (match r with Some (_, buf) => buf | None => func end, s1 - 1) else Ret (func, flp)) = Ret r) as [[func' flp'] ->].
  { destruct (flag (emit_flags xecfg) XDL_EMIT_FUNCNAMES); [|by eexists]. pose proof (func_line_wp 80 (s1 - 1) flp) as W. apply returns_eq in W as (r & -> & _). by eexists. }
  cbn [obind]. rewrite Exs in Ha |- *. destruct (emit_hunk_ok p q s1 s2 (E1 c' + lctx) (E2 c' + lctx) hs c c' rest func') as (hunk & -> & Hae & Hqe & Hpatch); try done; try lia; [by rewrite <- Exs|].
  cbn [obind tail]. destruct (IH rest (E1 c' + lctx) (E2 c' + lctx) flp' func') as (evs & -> & Hev); [|done| |apply (f_equal length) in Exs; rewrite length_app in Exs; cbn in *; lia|].
  - rewrite Exs in Hall. by apply Forall_app in Hall as [_ [_ ?]%Forall_cons].
  - right. destruct rest as [|c'' rest]; [done|]. unfold distance in Hgap. lia.
  - cbn [obind]. eexists. split; [done|]. rewrite Hpatch, Hev. cbn. f_equal. unfold zslice.
    rewrite <- (ztake_zdrop (E2 c' + lctx - q) (zdrop q L2)) at 2. rewrite zdrop_zdrop by lia. do 2 f_equal. lia.
Qed.

Lemma emit_diff_ok xscr : Forall shown xscr → script_ok 0 0 0 n1 n2 xscr → apply_script L1 L2 xscr = L2 →
  ∃ evs, xdl_emit_diff x1 x2 xecfg xscr = Ret evs ∧ patch L1 0 0 0 0 evs = Some L2.
Proof.
  intros Hall Hso Hap. apply emit_loop_ok; [done| |by left|lia]. split; [lia|done|exact Hap].
Qed.
End hunk.

End XdlPatch.
