(* ===== verification/XdlMerge.v ===== *)
(** * Three-way merge (xdiff/xmerge.c)

    The changes from a common ancestor to two files are put into one list of
    chunks, each to be taken from one side or in conflict; conflicts are refined
    by comparing the two sides, and the result is written in two passes, the
    first of which only counts.  A list of chunks under construction is kept
    with its last element first.  Sizes of the output are [int]s: adding two of
    them is undefined when the sum does not fit ([int_add]), and a [long] or a
    [size_t] stored in one is cut to 32 bits ([i32]). *)
From stdpp Require Import prelude.
From S2P Require Import Prelude Ctype XdlUtils XdlPrepare XdlCompact XdlMyers XdlRegion XdlScript XdlEmit.
Import XdlUtils XdlPrepare XdlCompact XdlMyers XdlRegion XdlScript XdlEmit.

Module XdlMerge.

Definition XDL_MERGE_MINIMAL : Z := 0.
Definition XDL_MERGE_EAGER : Z := 1.
Definition XDL_MERGE_ZEALOUS : Z := 2.
Definition XDL_MERGE_ZEALOUS_ALNUM : Z := 3.
Definition XDL_MERGE_FAVOR_OURS : Z := 1.
Definition XDL_MERGE_FAVOR_THEIRS : Z := 2.
Definition XDL_MERGE_FAVOR_UNION : Z := 3.
Definition XDL_MERGE_DIFF3 : Z := 1.
Definition XDL_MERGE_ZEALOUS_DIFF3 : Z := 2.
Definition DEFAULT_CONFLICT_MARKER_SIZE : Z := 7.

(** A null label is [None]. *)
Record xmparam_t := Xmparam
  { xm_xpp : xpparam_t; marker_size : Z; level : Z; favor : Z; style : Z; ancestor : option (list Z); file1 : option (list Z); file2 : option (list Z) }.
Record xdmerge_t := Xdmerge { mode : Z; mi0 : Z; mchg0 : Z; mi1 : Z; mchg1 : Z; mi2 : Z; mchg2 : Z }.

(** ** The chunks *)
Definition xdl_append_merge (merge : list xdmerge_t) (md i0 chg0 i1 chg1 i2 chg2 : Z) : list xdmerge_t :=
  let new := Xdmerge md i0 chg0 i1 chg1 i2 chg2 in
  match merge with
  | m :: rest =>
      if (i1 <=? mi1 m + mchg1 m) || (i2 <=? mi2 m + mchg2 m) then
        Xdmerge (if negb (md =? mode m) then 0 else mode m) (mi0 m) (i0 + chg0 - mi0 m) (mi1 m) (i1 + chg1 - mi1 m) (mi2 m) (i2 + chg2 - mi2 m) :: rest
      else new :: merge
  | [] => [new]
  end.
(** The number of conflicts. *)
Fixpoint xdl_cleanup_merge (c : list xdmerge_t) : Z :=
  match c with
  | [] => 0
  | m :: c => (if mode m =? 0 then 1 else 0) + xdl_cleanup_merge c
  end.

Fixpoint cmp_loop (count : nat) (rec1 rec2 : list xrecord_t) (i1 i2 flags : Z) : outcome bool :=
  match count with
  | O => Ret true
  | S count =>
      let! r1 := rd rec1 i1 in
      let! r2 := rd rec2 i2 in
      let! same := xdl_recmatch (line r1) (line r2) flags in
      if negb same then Ret false else cmp_loop count rec1 rec2 (i1 + 1) (i2 + 1) flags
  end.
(** [true] is 0: the lines are the same. *)
Definition xdl_merge_cmp_lines (rec1 : list xrecord_t) (i1 : Z) (rec2 : list xrecord_t) (i2 line_count flags : Z) : outcome bool :=
  cmp_loop (Z.to_nat line_count) rec1 rec2 i1 i2 flags.

(** ** Writing *)
Definition put (dest : option (list Z)) (at_ : Z) (bytes : list Z) : outcome (option (list Z)) :=
  match dest with
  | None => Ret None
  | Some d => let! d := memcpy d at_ bytes in Ret (Some d)
  end.
Fixpoint copy_loop (n : nat) (recs : list xrecord_t) (i : Z) (dest : option (list Z)) (at_ size : Z) : outcome (Z * option (list Z)) :=
  match n with
  | O => Ret (size, dest)
  | S n =>
      let! r := rd recs i in
      let! dest := put dest (at_ + size) (line r) in
      copy_loop n recs (i + 1) dest at_ (i32 (size + zlen (line r)))
  end.
(** The size that is written, and the buffer; [at_] is where in the buffer. *)
Definition xdl_recs_copy_0 (recs : list xrecord_t) (i count : Z) (needs_cr add_nl : bool) (dest : option (list Z)) (at_ : Z) : outcome (Z * option (list Z)) :=
  if count <? 1 then Ret (0, dest)
  else
    let! (size, dest) := copy_loop (Z.to_nat count) recs i dest at_ 0 in
    if add_nl then
      let! r := rd recs (i + count - 1) in
      let n := i32 (zlen (line r)) in
      let! c := if n =? 0 then Ret true else let! c := rd (line r) (n - 1) in Ret (negb (c =? 10)) in
      if (c : bool) then
        let! (size, dest) :=
          if needs_cr then let! dest := put dest (at_ + size) [13] in let! size := int_add size 1 in Ret (size, dest)
          else Ret (size, dest) in
        let! dest := put dest (at_ + size) [10] in
        let! size := int_add size 1 in
        Ret (size, dest)
      else Ret (size, dest)
    else Ret (size, dest).

(** Does the line end in CR/LF: [size > 1 && ptr[size - 2] == CR]. *)
Definition line_crlf (r : xrecord_t) : outcome Z :=
  if 1 <? zlen (line r) then let! c := rd (line r) (zlen (line r) - 2) in Ret (Z.b2z (c =? 13)) else Ret 0.
Definition is_eol_crlf (file : xdfile_t) (i : Z) : outcome Z :=
  if i <? nrec file - 1 then let! r := rd (recs file) i in line_crlf r
  else if nrec file =? 0 then Ret (-1)
  else
    let! r := rd (recs file) i in
    let! lf := if zlen (line r) =? 0 then Ret false else let! c := rd (line r) (zlen (line r) - 1) in Ret (c =? 10) in
    if (lf : bool) then line_crlf r
    else if i =? 0 then Ret (-1)
    else let! r := rd (recs file) (i - 1) in line_crlf r.

(** The ancestor as the first comparison has it, the two files. *)
Section files.
Context (xdf0 xdf1 xdf2 : xdfile_t) (xmp : xmparam_t).

Definition is_cr_needed (m : xdmerge_t) : outcome bool :=
  let! n := is_eol_crlf xdf1 (i32 (if mi1 m =? 0 then 0 else mi1 m - 1)) in
  let! n := if negb (n =? 0) then is_eol_crlf xdf2 (i32 (if mi2 m =? 0 then 0 else mi2 m - 1)) else Ret n in
  let! n := if negb (n =? 0) then is_eol_crlf xdf0 0 else Ret n in
  Ret (if n <? 0 then false else negb (n =? 0)).

Definition marker_length : Z := if marker_size xmp <=? 0 then DEFAULT_CONFLICT_MARKER_SIZE else marker_size xmp.
Definition label_size (name : option (list Z)) : Z := match name with Some n => i32 (zlen n + 1) | None => 0 end.
(** The blank and the name, [label_size name - 1] bytes of it. *)
Definition put_label (name : option (list Z)) (size : Z) (d : list Z) : outcome (Z * list Z) :=
  match name with
  | Some n =>
      if label_size name =? 0 then Ret (size, d)
      else
        let! d := memcpy d size [32] in
        let! d := if label_size name - 1 <? 0 then UB else memcpy d (size + 1) (ztake (label_size name - 1) n) in
        let! size := int_add size (label_size name) in
        Ret (size, d)
  | None => Ret (size, d)
  end.
(** One line of markers. *)
Definition put_marker (c : Z) (name : option (list Z)) (needs_cr : bool) (size : Z) (dest : option (list Z)) : outcome (Z * option (list Z)) :=
  match dest with
  | None =>
      let! n := int_add marker_length 1 in
      let! n := int_add n (Z.b2z needs_cr) in
      let! n := int_add n (label_size name) in
      let! size := int_add size n in
      Ret (size, None)
  | Some d =>
      let! d := memcpy d size (zrep marker_length c) in
      let! size := int_add size marker_length in
      let! (size, d) := put_label name size d in
      let! (size, d) := if needs_cr then let! d := memcpy d size [13] in let! size := int_add size 1 in Ret (size, d) else Ret (size, d) in
      let! d := memcpy d size [10] in
      let! size := int_add size 1 in
      Ret (size, Some d)
  end.
(** [size += xdl_recs_copy(..., dest ? dest + size : NULL)], where the place and
    the number of lines are [int] parameters. *)
Definition copy_at (recs : list xrecord_t) (i count : Z) (needs_cr add_nl : bool) (size : Z) (dest : option (list Z)) : outcome (Z * option (list Z)) :=
  let! (n, dest) := xdl_recs_copy_0 recs (i32 i) (i32 count) needs_cr add_nl dest size in
  let! size := int_add size n in
  Ret (size, dest).
Definition shows_base : bool := (style xmp =? XDL_MERGE_DIFF3) || (style xmp =? XDL_MERGE_ZEALOUS_DIFF3).
Definition fill_conflict_hunk (size i : Z) (m : xdmerge_t) (dest : option (list Z)) : outcome (Z * option (list Z)) :=
  let! needs_cr := is_cr_needed m in
  let! (size, dest) := copy_at (recs xdf1) i (mi1 m - i) false false size dest in
  let! (size, dest) := put_marker 60 (file1 xmp) needs_cr size dest in
  let! (size, dest) := copy_at (recs xdf1) (mi1 m) (mchg1 m) needs_cr true size dest in
  let! (size, dest) :=
    if shows_base then
      let! (size, dest) := put_marker 124 (ancestor xmp) needs_cr size dest in
      copy_at (recs xdf0) (mi0 m) (mchg0 m) needs_cr true size dest
    else Ret (size, dest) in
  let! (size, dest) := put_marker 61 None needs_cr size dest in
  let! (size, dest) := copy_at (recs xdf2) (mi2 m) (mchg2 m) needs_cr true size dest in
  put_marker 62 (file2 xmp) needs_cr size dest.
Definition with_mode (m : xdmerge_t) (md : Z) : xdmerge_t := Xdmerge md (mi0 m) (mchg0 m) (mi1 m) (mchg1 m) (mi2 m) (mchg2 m).
(** Size, line reached, buffer, and the chunks with their new modes. *)
Fixpoint fill_loop (ms : list xdmerge_t) (size i : Z) (dest : option (list Z)) : outcome (Z * Z * option (list Z) * list xdmerge_t) :=
  match ms with
  | [] => Ret (size, i, dest, [])
  | m :: ms =>
      let m := if negb (favor xmp =? 0) && (mode m =? 0) then with_mode m (favor xmp) else m in
      let! (size, i, dest) :=
        if mode m =? 0 then
          let! (size, dest) := fill_conflict_hunk size i m dest in Ret (size, i32 (mi1 m + mchg1 m), dest)
        else if negb (Z.land (mode m) 3 =? 0) then
          let! (size, dest) := copy_at (recs xdf1) i (mi1 m - i) false false size dest in
          let! (size, dest) :=
            if negb (Z.land (mode m) 1 =? 0) then
              let! needs_cr := is_cr_needed m in
              copy_at (recs xdf1) (mi1 m) (mchg1 m) needs_cr (negb (Z.land (mode m) 2 =? 0)) size dest
            else Ret (size, dest) in
          let! (size, dest) := if negb (Z.land (mode m) 2 =? 0) then copy_at (recs xdf2) (mi2 m) (mchg2 m) false false size dest else Ret (size, dest) in
          Ret (size, i32 (mi1 m + mchg1 m), dest)
        else Ret (size, i, dest) in
      let! (size, i, dest, ms) := fill_loop ms size i dest in
      Ret (size, i, dest, m :: ms)
  end.
Definition xdl_fill_merge_buffer (ms : list xdmerge_t) (dest : option (list Z)) : outcome (Z * option (list Z) * list xdmerge_t) :=
  let! (size, i, dest, ms) := fill_loop ms 0 0 dest in
  let! (size, dest) := copy_at (recs xdf1) i (nrec xdf1 - i) false false size dest in
  Ret (size, dest, ms).

(** ** Refining conflicts *)
Definition recmatch (rec1 rec2 : xrecord_t) (flags : Z) : outcome bool := xdl_recmatch (line rec1) (line rec2) flags.
Fixpoint trim_front (fuel : nat) (m : xdmerge_t) (flags : Z) : outcome xdmerge_t :=
  match fuel with
  | O => NoFuel
  | S fuel =>
      if negb (mchg1 m =? 0) && negb (mchg2 m =? 0) then
        let! r1 := rd (recs xdf1) (mi1 m) in
        let! r2 := rd (recs xdf2) (mi2 m) in
        let! same := recmatch r1 r2 flags in
        if (same : bool) then trim_front fuel (Xdmerge (mode m) (mi0 m) (mchg0 m) (mi1 m + 1) (mchg1 m - 1) (mi2 m + 1) (mchg2 m - 1)) flags else Ret m
      else Ret m
  end.
Fixpoint trim_back (fuel : nat) (m : xdmerge_t) (flags : Z) : outcome xdmerge_t :=
  match fuel with
  | O => NoFuel
  | S fuel =>
      if negb (mchg1 m =? 0) && negb (mchg2 m =? 0) then
        let! r1 := rd (recs xdf1) (mi1 m + mchg1 m - 1) in
        let! r2 := rd (recs xdf2) (mi2 m + mchg2 m - 1) in
        let! same := recmatch r1 r2 flags in
        if (same : bool) then trim_back fuel (Xdmerge (mode m) (mi0 m) (mchg0 m) (mi1 m) (mchg1 m - 1) (mi2 m) (mchg2 m - 1)) flags else Ret m
      else Ret m
  end.
Fixpoint xdl_refine_zdiff3_conflicts (ms : list xdmerge_t) (flags : Z) : outcome (list xdmerge_t) :=
  match ms with
  | [] => Ret []
  | m :: ms =>
      let! m :=
        if negb (mode m =? 0) then Ret m
        else
          let! m := trim_front (S (length (recs xdf1))) m flags in
          trim_back (S (length (recs xdf1))) m flags in
      let! ms := xdl_refine_zdiff3_conflicts ms flags in
      Ret (m :: ms)
  end.

(** The chunks of a refined conflict; [i0] and [chg0] of the new ones are not
    set, and not used again. *)
Definition sub_chunk (m : xdmerge_t) (x : xdchange_t) : xdmerge_t := Xdmerge 0 (mi0 m) (mchg0 m) (i1 x + mi1 m) (chg1 x) (i2 x + mi2 m) (chg2 x).
(** [None] is -1. *)
Fixpoint xdl_refine_conflicts (malloc : Z → list Z) (ms : list xdmerge_t) : outcome (option (list xdmerge_t)) :=
  match ms with
  | [] => Ret (Some [])
  | m :: ms =>
      let! sub :=
        if negb (mode m =? 0) then Ret (Some [m])
        else if (mchg1 m =? 0) || (mchg2 m =? 0) then Ret (Some [m])
        else
          let! t1 := subfile (recs xdf1) (mi1 m + 1) (mchg1 m) in
          let! t2 := subfile (recs xdf2) (mi2 m + 1) (mchg2 m) in
          let! r := xdl_diff_script malloc t1 t2 (xpp_flags (xm_xpp xmp)) (xpp_anchors (xm_xpp xmp)) in
          match r with
          | None => Ret None
          | Some (_, _, []) => Ret (Some [with_mode m 4])
          | Some (_, _, xscr) => Ret (Some (sub_chunk m <$> xscr))
          end in
      match sub with
      | None => Ret None
      | Some sub =>
          let! rest := xdl_refine_conflicts malloc ms in
          match rest with
          | None => Ret None
          | Some rest => Ret (Some (sub ++ rest))
          end
      end
  end.

Definition line_contains_alnum (l : list Z) : bool := existsb Ctype.isalnum l.
Fixpoint lines_contain_alnum (chg : nat) (recs : list xrecord_t) (i : Z) : outcome bool :=
  match chg with
  | O => Ret false
  | S chg =>
      let! r := rd recs i in
      if line_contains_alnum (line r) then Ret true else lines_contain_alnum chg recs (i + 1)
  end.
Definition xdl_merge_two_conflicts (m next_m : xdmerge_t) : xdmerge_t :=
  Xdmerge (mode m) (mi0 m) (mchg0 m) (mi1 m) (mi1 next_m + mchg1 next_m - mi1 m) (mi2 m) (mi2 next_m + mchg2 next_m - mi2 m).
Fixpoint simplify_loop (m : xdmerge_t) (ms : list xdmerge_t) (simplify_if_no_alnum : bool) : outcome (list xdmerge_t) :=
  match ms with
  | [] => Ret [m]
  | next_m :: ms =>
      let begin := mi1 m + mchg1 m in
      let end_ := mi1 next_m in
      let! keep :=
        if negb (mode m =? 0) || negb (mode next_m =? 0) then Ret true
        else if 3 <? end_ - begin then
          if negb simplify_if_no_alnum then Ret true else lines_contain_alnum (Z.to_nat (end_ - begin)) (recs xdf1) begin
        else Ret false in
      if (keep : bool) then let! rest := simplify_loop next_m ms simplify_if_no_alnum in Ret (m :: rest)
      else simplify_loop (xdl_merge_two_conflicts m next_m) ms simplify_if_no_alnum
  end.
Definition xdl_simplify_non_conflicts (ms : list xdmerge_t) (simplify_if_no_alnum : bool) : outcome (list xdmerge_t) :=
  match ms with [] => Ret [] | m :: ms => simplify_loop m ms simplify_if_no_alnum end.
End files.

(** ** Merging two scripts *)
Section merge.
Context (xdf0 xdf1 xdf0' xdf2 : xdfile_t) (xmp : xmparam_t).
Abbreviation E1 c := (i1 c + chg1 c).
Abbreviation E2 c := (i2 c + chg2 c).

(** The chunk of a change of the first side only, or of the second, at the
    place [i] of the other file. *)
Definition take_first (c : list xdmerge_t) (x : xdchange_t) (i : Z) : list xdmerge_t := xdl_append_merge c 1 (i1 x) (chg1 x) (i2 x) (chg2 x) i (chg1 x).
Definition take_second (c : list xdmerge_t) (x : xdchange_t) (i : Z) : list xdmerge_t := xdl_append_merge c 2 (i1 x) (chg1 x) i (chg1 x) (i2 x) (chg2 x).
Definition conflict (c : list xdmerge_t) (x1 x2 : xdchange_t) : list xdmerge_t :=
  let off := i1 x1 - i1 x2 in
  let ffo := off + chg1 x1 - chg1 x2 in
  let '(j0, j1, j2) := if 0 <? off then (i1 x1 - off, i2 x1 - off, i2 x2) else (i1 x1, i2 x1, i2 x2 + off) in
  let c0 := i1 x1 + chg1 x1 - j0 in
  let c1 := i2 x1 + chg2 x1 - j1 in
  let c2 := i2 x2 + chg2 x2 - j2 in
  let '(c0, c1, c2) := if ffo <? 0 then (c0 - ffo, c1 - ffo, c2) else (c0, c1, c2 + ffo) in
  xdl_append_merge c 0 j0 c0 j1 c1 j2 c2.
Definition same_change (lvl : Z) (x1 x2 : xdchange_t) : outcome bool :=
  if (lvl =? XDL_MERGE_MINIMAL) || negb (i1 x1 =? i1 x2) || negb (chg1 x1 =? chg1 x2) || negb (chg2 x1 =? chg2 x2) then Ret false
  else xdl_merge_cmp_lines (recs xdf1) (i2 x1) (recs xdf2) (i2 x2) (chg2 x1) (xpp_flags (xm_xpp xmp)).

(** [while (xscr1 && xscr2)]: the chunks, and what is left. *)
Fixpoint merge_loop (fuel : nat) (lvl : Z) (c : list xdmerge_t) (xscr1 xscr2 : list xdchange_t) : outcome (list xdmerge_t * list xdchange_t * list xdchange_t) :=
  match fuel with
  | O => NoFuel
  | S fuel =>
      match xscr1, xscr2 with
      | x1 :: next1, x2 :: next2 =>
          if E1 x1 <? i1 x2 then merge_loop fuel lvl (take_first c x1 (i2 x2 - i1 x2 + i1 x1)) next1 xscr2
          else if E1 x2 <? i1 x1 then merge_loop fuel lvl (take_second c x2 (i2 x1 - i1 x1 + i1 x2)) xscr1 next2
          else
            let! same := same_change lvl x1 x2 in
            let c := if (same : bool) then c else conflict c x1 x2 in
            let xscr2' := if E1 x2 <=? E1 x1 then next2 else xscr2 in
            let xscr1' := if E1 x1 <=? E1 x2 then next1 else xscr1 in
            merge_loop fuel lvl c xscr1' xscr2'
      | _, _ => Ret (c, xscr1, xscr2)
      end
  end.
Definition the_level : Z := if shows_base xmp then if XDL_MERGE_EAGER <? level xmp then XDL_MERGE_EAGER else level xmp else level xmp.
Definition merge_scripts (xscr1 xscr2 : list xdchange_t) : outcome (list xdmerge_t) :=
  let! (c, xscr1, xscr2) := merge_loop (S (length xscr1 + length xscr2)) the_level [] xscr1 xscr2 in
  let c := fold_left (λ c x, take_first c x (i1 x + nrec xdf2 - nrec xdf0')) xscr1 c in
  let c := fold_left (λ c x, take_second c x (i1 x + nrec xdf1 - nrec xdf0)) xscr2 c in
  Ret (reverse c).
Definition refine (malloc : Z → list Z) (ms : list xdmerge_t) : outcome (option (list xdmerge_t)) :=
  if style xmp =? XDL_MERGE_ZEALOUS_DIFF3 then
    let! ms := xdl_refine_zdiff3_conflicts xdf1 xdf2 ms (xpp_flags (xm_xpp xmp)) in Ret (Some ms)
  else if XDL_MERGE_ZEALOUS <=? the_level then
    let! r := xdl_refine_conflicts xdf1 xdf2 xmp malloc ms in
    match r with
    | None => Ret None
    | Some ms => let! ms := xdl_simplify_non_conflicts xdf1 ms (XDL_MERGE_ZEALOUS <? the_level) in Ret (Some ms)
    end
  else Ret (Some ms).
(** Conflicts and result; [None] is -1. *)
Definition xdl_do_merge (malloc : Z → list Z) (xscr1 xscr2 : list xdchange_t) : outcome (option (Z * list Z)) :=
  let! ms := merge_scripts xscr1 xscr2 in
  let! r := refine malloc ms in
  match r with
  | None => Ret None
  | Some ms =>
      let! (size, _, ms) := xdl_fill_merge_buffer xdf0 xdf1 xdf2 xmp ms None in
      let! (_, dest, ms) := xdl_fill_merge_buffer xdf0 xdf1 xdf2 xmp ms (Some (malloc size)) in
      Ret (Some (xdl_cleanup_merge ms, default [] dest))
  end.
End merge.

(** [xdl_diff_script] is the comparison, the compaction and the script. *)
Definition xdl_merge (malloc : Z → list Z) (orig mf1 mf2 : list Z) (xmp : xmparam_t) : outcome (option (Z * list Z)) :=
  let! r1 := xdl_diff_script malloc orig mf1 (xpp_flags (xm_xpp xmp)) (xpp_anchors (xm_xpp xmp)) in
  let! r2 := xdl_diff_script malloc orig mf2 (xpp_flags (xm_xpp xmp)) (xpp_anchors (xm_xpp xmp)) in
  match r1, r2 with
  | Some (xdf0, xdf1, xscr1), Some (xdf0', xdf2, xscr2) =>
      match xscr1, xscr2 with
      | [], _ => Ret (Some (0, mf2))
      | _, [] => Ret (Some (0, mf1))
      | _, _ => xdl_do_merge xdf0 xdf1 xdf0' xdf2 xmp malloc xscr1 xscr2
      end
  | _, _ => Ret None
  end.

Definition merge_plain (lvl sty : Z) : xmparam_t := Xmparam plain 0 lvl 0 sty None (Some [97]) (Some [98]).
Example merge_small : xdl_merge (λ n, zrep n 7) (text [[49]; [50]; [51]; [52]; [53]]) (text [[49]; [120]; [51]; [52]; [53]]) (text [[49]; [50]; [51]; [52]; [121]]) (merge_plain 2 0) =
  Ret (Some (0, text [[49]; [120]; [51]; [52]; [121]])).
Proof. vm_compute. reflexivity. Qed.
Example merge_clash : xdl_merge (λ n, zrep n 7) (text [[49]; [50]; [51]]) (text [[49]; [120]; [51]]) (text [[49]; [121]; [51]]) (merge_plain 2 0) =
  Ret (Some (1, text [[49]; zrep 7 60 ++ [32; 97]; [120]; zrep 7 61; [121]; zrep 7 62 ++ [32; 98]; [51]])).
Proof. vm_compute. reflexivity. Qed.
End XdlMerge.
