(* ===== verification/XdlMergeChunks.v ===== *)
(** * The chunks of a merge

    [laid]: the chunks are in order in the ancestor and both files, what lies
    between two of them is the same in both files, a chunk that is taken from
    one side has the lines of the ancestor on the other, and there are conflicts
    only for a reason, the parameter [P].  The main loop
    establishes it and the refinements of conflicts keep it. *)
From stdpp Require Import prelude.
From S2P Require Import Prelude XdlUtils XdlPrepare XdlCompact XdlMyers XdlRegion XdlScript XdlEmit XdlPatch XdlMerge.
Import XdlUtils XdlPrepare XdlCompact XdlMyers XdlRegion XdlScript XdlEmit XdlPatch XdlMerge.

Module XdlMergeChunks.

Section laid.
Context (O A B : list (list Z)) (P : Prop).

(** From line [e1] of the first file to [s1], and from [e2] of the second to [s2]. *)
Definition gap (e1 e2 s1 s2 : Z) : Prop := 0 <= e1 <= s1 ∧ 0 <= e2 ∧ s1 - e1 = s2 - e2 ∧ zslice e1 (s1 - e1) A = zslice e2 (s1 - e1) B.
Definition chunk_ok (m : xdmerge_t) (s0 c0 : Z) : Prop :=
  0 <= mchg1 m ∧ 0 <= mchg2 m ∧
  (mode m = 0 ∧ P ∨ mode m = 1 ∧ zslice s0 c0 O = zslice (mi2 m) (mchg2 m) B ∨ mode m = 2 ∧ zslice s0 c0 O = zslice (mi1 m) (mchg1 m) A ∨
   mode m = 4 ∧ mchg1 m = mchg2 m ∧ zslice (mi1 m) (mchg1 m) A = zslice (mi2 m) (mchg2 m) B).
Lemma chunk_conflict m s0 c0 : chunk_ok m s0 c0 → mode m = 0 → P.
Proof. intros (_ & _ & [[_ ?]|[[? _]|[[? _]|[? _]]]]) E; [done|lia..]. Qed.
(** [base]: the chunks also say where in the ancestor they are. *)
Fixpoint laid (base : bool) (e0 e1 e2 : Z) (ms : list xdmerge_t) : Prop :=
  match ms with
  | [] => e0 <= zlen O ∧ 0 <= e1 <= zlen A ∧ 0 <= e2 <= zlen B ∧ zdrop e1 A = zdrop e2 B
  | m :: ms => ∃ s0 c0, e0 <= s0 ∧ 0 <= c0 ∧ gap e1 e2 (mi1 m) (mi2 m) ∧ chunk_ok m s0 c0 ∧ (base = true → mi0 m = s0 ∧ mchg0 m = c0) ∧
      laid base (s0 + c0) (mi1 m + mchg1 m) (mi2 m + mchg2 m) ms
  end.

Lemma gap_refl e1 e2 : 0 <= e1 → 0 <= e2 → gap e1 e2 e1 e2.
Proof. intros. unfold gap. rewrite !Z.sub_diag. done. Qed.
Lemma gap_extend e1 e2 s1 s2 k : gap e1 e2 s1 s2 → 0 <= k → zslice s1 k A = zslice s2 k B → gap e1 e2 (s1 + k) (s2 + k).
Proof.
  intros (He1 & He2 & Ed & Es) Hk Ek. unfold gap. split; [lia|]. split; [lia|]. split; [lia|].
  replace (s1 + k - e1) with (s1 - e1 + k) by lia. rewrite !zslice_app by lia. rewrite Es. f_equal. replace (e1 + (s1 - e1)) with s1 by lia. replace (e2 + (s1 - e1)) with s2 by lia. done.
Qed.
Lemma laid_bounds base ms : ∀ e0 e1 e2, laid base e0 e1 e2 ms → e0 <= zlen O ∧ 0 <= e1 <= zlen A ∧ 0 <= e2 <= zlen B.
Proof.
  induction ms as [|m ms IH]; intros e0 e1 e2; cbn [laid]; [naive_solver|]. intros (s0 & c0 & H0 & Hc & (Hg1 & Hg2 & Hg3 & _) & (Hm1 & Hm2 & _) & _ & Hl). apply IH in Hl. lia.
Qed.
(** Chunks with at least one line of the first file between them, from line [lo] on. *)
Fixpoint apart (lo : Z) (ms : list xdmerge_t) : Prop :=
  match ms with
  | [] => True
  | m :: ms => lo <= mi1 m ∧ apart (mi1 m + mchg1 m + 1) ms
  end.
Lemma apart_le lo lo' ms : lo' <= lo → apart lo ms → apart lo' ms.
Proof. destruct ms; cbn [apart]; [done|]. intros ? [??]. split; [lia|done]. Qed.
Lemma laid_count base ms : ∀ lo e0 e1 e2, laid base e0 e1 e2 ms → apart lo ms → zlen ms <= Z.max 0 (zlen A + 1 - Z.max lo 0).
Proof.
  induction ms as [|m ms IH]; intros lo e0 e1 e2 Hl Ha; [change (zlen (@nil xdmerge_t)) with 0; lia|]. destruct Ha as [Hlo Ha]. destruct Hl as (s0 & c0 & _ & _ & (Hg & _) & (Hc & _) & _ & Hl).
  pose proof (laid_bounds _ _ _ _ _ Hl). specialize (IH _ _ _ _ Hl Ha). rewrite zlen_cons. lia.
Qed.
Lemma laid_forget ms : ∀ e0 e1 e2, laid true e0 e1 e2 ms → laid false e0 e1 e2 ms.
Proof. induction ms as [|m ms IH]; intros e0 e1 e2; cbn [laid]; [done|]. intros (s0 & c0 & ? & ? & ? & ? & _ & Hl). exists s0, c0. split_and!; try done. by apply IH. Qed.

(** ** Chunks under construction *)
Definition covers (acc : list xdmerge_t) (e0 e1 e2 : Z) : Prop := ∀ ms, laid true e0 e1 e2 ms → laid true 0 0 0 (reverse acc ++ ms).
(** The last chunk may still grow. *)
Definition settled (m : xdmerge_t) (acc : list xdmerge_t) : Prop :=
  ∃ f0 f1 f2, covers acc f0 f1 f2 ∧ f0 <= mi0 m ∧ 0 <= mchg0 m ∧ gap f1 f2 (mi1 m) (mi2 m) ∧ chunk_ok m (mi0 m) (mchg0 m).
Abbreviation end0 m := (mi0 m + mchg0 m).
Abbreviation end1 m := (mi1 m + mchg1 m).
Abbreviation end2 m := (mi2 m + mchg2 m).
Definition built (acc : list xdmerge_t) (e0 e1 e2 : Z) : Prop :=
  match acc with
  | [] => e0 = 0 ∧ e1 = 0 ∧ e2 = 0
  | m :: acc => settled m acc ∧ e0 = end0 m ∧ e1 = end1 m ∧ e2 = end2 m
  end.
Lemma built_covers acc e0 e1 e2 : built acc e0 e1 e2 → covers acc e0 e1 e2.
Proof.
  destruct acc as [|m acc]; cbn [built]; [by intros (-> & -> & ->) ms|]. intros ((f0 & f1 & f2 & Hcov & H0 & Hc0 & Hg & Hok) & -> & -> & ->) ms Hl.
  rewrite reverse_cons, <- app_assoc. apply Hcov. cbn [app laid]. exists (mi0 m), (mchg0 m). do 5 (split; [done|]). done.
Qed.

(** A new chunk behind a gap, or the last one extended. *)
Lemma append_new acc e0 e1 e2 md i0 c0 i1 c1 i2 c2 : let n := Xdmerge md i0 c0 i1 c1 i2 c2 in built acc e0 e1 e2 → (acc ≠ [] → e1 < i1) → e0 <= i0 → 0 <= c0 → gap e1 e2 i1 i2 → chunk_ok n i0 c0 →
  xdl_append_merge acc md i0 c0 i1 c1 i2 c2 = n :: acc ∧ built (n :: acc) (i0 + c0) (i1 + c1) (i2 + c2).
Proof.
  intros n Hb Hlt H0 Hc0 Hg Hok. split.
  - destruct acc as [|m acc]; [done|]. cbn [xdl_append_merge]. destruct Hb as (_ & -> & -> & ->), Hg as (_ & _ & Hd & _). specialize (Hlt ltac:(done)).
    rewrite (proj2 (Z.leb_gt _ _)), (proj2 (Z.leb_gt _ _)) by lia. done.
  - cbn [built n mi0 mchg0 mi1 mchg1 mi2 mchg2]. split; [|done]. exists e0, e1, e2. split; [by apply built_covers|]. done.
Qed.
Lemma append_grow m acc md i0 c0 i1 c1 i2 c2 : settled m acc → mode m = 0 → (i1 <= end1 m ∨ i2 <= end2 m) → mi0 m <= i0 + c0 → mi1 m <= i1 + c1 → mi2 m <= i2 + c2 →
  ∃ m', xdl_append_merge (m :: acc) md i0 c0 i1 c1 i2 c2 = m' :: acc ∧ settled m' acc ∧ mode m' = 0 ∧ mi1 m' = mi1 m ∧ mi2 m' = mi2 m ∧ end0 m' = i0 + c0 ∧ end1 m' = i1 + c1 ∧ end2 m' = i2 + c2 ∧ mi0 m' = mi0 m.
Proof.
  intros (f0 & f1 & f2 & Hcov & H0 & Hc0 & Hg & Hok) Hmd Ht ? ? ?. cbn [xdl_append_merge]. rewrite (proj2 (orb_true_iff _ _)) by (rewrite !Z.leb_le; done).
  eexists. split; [done|]. assert ((if negb (md =? mode m) then 0 else mode m) = 0) as -> by (rewrite Hmd; by destruct (negb (md =? 0))). cbn. split_and!; try done; try lia.
  exists f0, f1, f2. cbn. split_and!; try done; try lia. split; cbn; [lia|]. split; [lia|]. left. split; [done|by eapply chunk_conflict].
Qed.

(** A list under construction, last chunk first. *)
Fixpoint rev_apart (acc : list xdmerge_t) : Prop :=
  match acc with
  | [] => True
  | m :: rest => match rest with m' :: _ => mi1 m' + mchg1 m' < mi1 m | [] => True end ∧ rev_apart rest
  end.
Lemma append_apart acc md i0 c0 i1 c1 i2 c2 : rev_apart acc → rev_apart (xdl_append_merge acc md i0 c0 i1 c1 i2 c2).
Proof.
  unfold xdl_append_merge. destruct acc as [|m rest]; [done|]. intros H. destruct (Z.leb_spec i1 (mi1 m + mchg1 m)); cbn [orb]; [by destruct rest|].
  destruct (i2 <=? mi2 m + mchg2 m); [by destruct rest|]. split; [done|exact H].
Qed.
Lemma rev_apart_apart acc : rev_apart acc → ∃ lo, ∀ ms, match acc with m :: _ => apart (mi1 m + mchg1 m + 1) ms | [] => apart lo ms end → apart lo (reverse acc ++ ms).
Proof.
  induction acc as [|m rest IH]; intros H; [by exists 0|]. destruct H as [Hm Hr]. destruct (IH Hr) as [lo Hlo]. destruct rest as [|m' rest].
  - exists (mi1 m). intros ms Hms. by split.
  - exists lo. intros ms Hms. rewrite reverse_cons, <- app_assoc. apply Hlo. split; [lia|done].
Qed.
End laid.

(** ** One script *)
(** The next change is not in front of line [f]. *)
Definition ahead (f : Z) (xscr : list xdchange_t) : Prop := match xscr with [] => True | c :: _ => f <= i1 c end.
Lemma ahead_le f f' xscr : f' <= f → ahead f xscr → ahead f' xscr.
Proof. destruct xscr; cbn; [done|lia]. Qed.

Section side.
Context (x0 x1 : xdfile_t) (N0 : nrec x0 = zlen (line <$> recs x0)) (N1 : nrec x1 = zlen (line <$> recs x1)).
Abbreviation O := (line <$> recs x0).
Abbreviation A := (line <$> recs x1).

Lemma common_lines p q xscr s k : aligned x0 x1 p q xscr → p <= s → 0 <= k → s + k <= p + room x0 p xscr → zslice s k O = zslice (q + (s - p)) k A.
Proof.
  intros Ha Hs Hk Hr. destruct (aligned_forward x0 x1 N0 N1 p q xscr (s - p) Ha) as [_ Ha']; [lia|]. replace (p + (s - p)) with s in Ha' by lia.
  destruct (aligned_forward x0 x1 N0 N1 s _ xscr k Ha') as [E _]; [|done]. destruct xscr; cbn [room] in *; lia.
Qed.
Record next_change (p q : Z) (c : xdchange_t) (xscr : list xdchange_t) : Prop := NextChange {
  nc_at : 0 <= p <= i1 c ∧ 0 <= q ∧ i2 c = q + (i1 c - p);
  nc_chg : 0 <= chg1 c ∧ 0 <= chg2 c;
  nc_end : i1 c + chg1 c <= nrec x0 ∧ i2 c + chg2 c <= nrec x1;
  nc_rest : aligned x0 x1 (i1 c + chg1 c) (i2 c + chg2 c) xscr;
  nc_ahead : ahead (i1 c + chg1 c + 1) xscr
}.
Lemma aligned_next p q c xscr : aligned x0 x1 p q (c :: xscr) → next_change p q c xscr.
Proof.
  intros Ha. pose proof (aligned_room _ _ _ _ _ Ha) as (_ & _ & _ & _ & Hr). cbn [room] in Hr. destruct (aligned_forward x0 x1 N0 N1 p q _ (i1 c - p) Ha) as [_ Hc]; [cbn; lia|].
  destruct Ha as [Hpos (Hg & Ed & _) _]. replace (p + (i1 c - p)) with (i1 c) in Hc by lia. replace (q + (i1 c - p)) with (i2 c) in Hc by lia.
  destruct (aligned_change _ _ _ _ Hc) as (Hrest & Hs & ? & ? & ? & ?). split; try done; try lia. destruct xscr as [|c' xscr]; cbn in *; lia.
Qed.
Lemma aligned_end p q : aligned x0 x1 p q [] → q - p = nrec x1 - nrec x0 ∧ 0 <= p <= nrec x0 ∧ 0 <= q <= nrec x1.
Proof. intros [Hp Hs _]. cbn in Hs. lia. Qed.
End side.

(** ** The main loop *)
Section merge.
Context (x0 x1 x0' x2 : xdfile_t) (P : Prop).
Hypothesis (N0 : nrec x0 = zlen (line <$> recs x0)) (N1 : nrec x1 = zlen (line <$> recs x1)).
Hypothesis (N0' : nrec x0' = zlen (line <$> recs x0')) (N2 : nrec x2 = zlen (line <$> recs x2)) (HO : line <$> recs x0' = line <$> recs x0).
Abbreviation O := (line <$> recs x0).
Abbreviation A := (line <$> recs x1).
Abbreviation B := (line <$> recs x2).
Abbreviation built := (built O A B P).
Abbreviation settled := (settled O A B P).
Abbreviation gap := (gap A B).
Abbreviation laid := (laid O A B P).
Abbreviation F1 c := (i1 c + chg1 c).
Abbreviation F2 c := (i2 c + chg2 c).
Abbreviation end0 m := (mi0 m + mchg0 m).
Abbreviation end1 m := (mi1 m + mchg1 m).
Abbreviation end2 m := (mi2 m + mchg2 m).

(** A conflict reaches to the end of a change [c] at the head of one script,
    beyond the place [p], [q] the other script has come to. *)
Record overhang (m : xdmerge_t) (c : xdchange_t) (p : Z) : Prop := Overhang {
  oh_mode : mode m = 0;
  oh_touch : i1 c <= p <= F1 c;
  oh_start : mi0 m <= p;
  oh_end : end0 m = F1 c
}.
(** The lines of the ancestor up to [p1] are done in the first script, those up
    to [p2] in the second. *)
Inductive state (acc : list xdmerge_t) (p1 q1 : Z) (xscr1 : list xdchange_t) (p2 q2 : Z) (xscr2 : list xdchange_t) : Prop :=
| at_gap e0 e1 e2 f : built acc e0 e1 e2 → f = Z.max p1 p2 → e0 <= f → gap e1 e2 (q1 + (f - p1)) (q2 + (f - p2)) →
    ahead f xscr1 → ahead f xscr2 → (acc ≠ [] → ahead (f + 1) xscr1 ∧ ahead (f + 1) xscr2) → state acc p1 q1 xscr1 p2 q2 xscr2
| on_second m rest c next : acc = m :: rest → xscr2 = c :: next → settled m rest → overhang m c p1 → end1 m = q1 + (F1 c - p1) → end2 m = F2 c → mi1 m <= q1 → mi2 m <= i2 c →
    ahead (p1 + 1) xscr1 → state acc p1 q1 xscr1 p2 q2 xscr2
| on_first m rest c next : acc = m :: rest → xscr1 = c :: next → settled m rest → overhang m c p2 → end2 m = q2 + (F1 c - p2) → end1 m = F2 c → mi2 m <= q2 → mi1 m <= i2 c →
    ahead (p2 + 1) xscr2 → state acc p1 q1 xscr1 p2 q2 xscr2.

Abbreviation al1 := (aligned x0 x1).
Abbreviation al2 := (aligned x0' x2).

(** Up to the next change of either script the files agree. *)
Lemma gap_to p1 q1 xscr1 p2 q2 xscr2 e1 e2 f s : al1 p1 q1 xscr1 → al2 p2 q2 xscr2 → f = Z.max p1 p2 → gap e1 e2 (q1 + (f - p1)) (q2 + (f - p2)) → f <= s → s <= p1 + room x0 p1 xscr1 → s <= p2 + room x0' p2 xscr2 →
  gap e1 e2 (q1 + (s - p1)) (q2 + (s - p2)).
Proof.
  intros H1 H2 Hf Hg Hs Hr1 Hr2. replace (q1 + (s - p1)) with (q1 + (f - p1) + (s - f)) by lia. replace (q2 + (s - p2)) with (q2 + (f - p2) + (s - f)) by lia. apply gap_extend; [done|lia|].
  rewrite <- (common_lines x0 x1 N0 N1 p1 q1 xscr1 f (s - f)), <- (common_lines x0' x2 N0' N2 p2 q2 xscr2 f (s - f)), HO by (done || lia). done.
Qed.
Lemma room_ahead x p xscr f : ahead f xscr → f <= nrec x → f <= p + room x p xscr.
Proof. destruct xscr; cbn; lia. Qed.

Lemma first_step acc p1 q1 c next p2 q2 xscr2 i : al1 p1 q1 (c :: next) → al2 p2 q2 xscr2 → state acc p1 q1 (c :: next) p2 q2 xscr2 → ahead (F1 c + 1) xscr2 → i = q2 + (i1 c - p2) →
  state (take_first acc c i) (F1 c) (F2 c) next p2 q2 xscr2 ∧ al1 (F1 c) (F2 c) next.
Proof.
  intros H1 H2 Hst Hah Hi. destruct (aligned_next x0 x1 N0 N1 _ _ _ _ H1) as [Hat Hchg Hend Hrest Hnext]. split; [|done]. pose proof (al_pos _ _ _ _ _ H2) as Hp2. unfold take_first.
  assert (nrec x0' = nrec x0) as En by (rewrite N0, N0', HO; done).
  destruct Hst as [e0 e1 e2 f Hb Hf He0 Hg Ha1 Ha2 Hst|m rest c2 next2 -> -> Hset [Hm Ht Hs He] He1 He2 Hm1 Hm2 Hah1|m rest c' next' -> [= <- <-] Hset [Hm Ht Hs He] He2 He1 Hm2 Hm1 Hah2].
  - cbn in Ha1. assert (gap e1 e2 (i2 c) i) as Hg'.
    { destruct Hat as (_ & _ & ->). rewrite Hi. eapply gap_to; [exact H1|exact H2|exact Hf|exact Hg|lia|cbn; lia|]. apply room_ahead; [apply (ahead_le (F1 c + 1)); [lia|done]|lia]. }
    destruct (append_new O A B P acc e0 e1 e2 1 (i1 c) (chg1 c) (i2 c) (chg2 c) i (chg1 c)) as [-> Hb']; try done; try lia.
    + intros Hne. destruct (Hst Hne) as [Hst1 _], Hg as (Hg & _). cbn in Hst1. lia.
    + split; cbn; [lia|]. split; [lia|]. right. left. split; [done|]. rewrite Hi, <- HO. apply (common_lines x0' x2 N0' N2 p2 q2 xscr2); try done; try lia. apply room_ahead; [apply (ahead_le (F1 c + 1)); [lia|done]|lia].
    + eapply (at_gap _ _ _ _ _ _ _ _ _ _ (F1 c)); [exact Hb'|lia|lia| |apply (ahead_le (F1 c + 1)); [lia|done]|apply (ahead_le (F1 c + 1)); [lia|done]|done].
      replace (F2 c + (F1 c - F1 c)) with (F2 c) by lia. replace (q2 + (F1 c - p2)) with (i + chg1 c) by lia. apply gap_refl; [lia|]. destruct Hg' as (_ & _ & Hd & _), Hg as (_ & Hg & _). lia.
  - exfalso. cbn in Hah, Hah1. lia.
  - destruct (append_grow O A B P m rest 1 (i1 c) (chg1 c) (i2 c) (chg2 c) i (chg1 c)) as (m' & -> & Hset' & Hm' & E1 & E2 & E3 & E4 & E5 & E6); try done; try lia.
    eapply (at_gap _ _ _ _ _ _ _ (F1 c) (F2 c) (i + chg1 c) (F1 c)); [cbn; split_and!; try done; lia|lia|lia| |apply (ahead_le (F1 c + 1)); [lia|done]|apply (ahead_le (F1 c + 1)); [lia|done]|done].
    replace (F2 c + (F1 c - F1 c)) with (F2 c) by lia. replace (q2 + (F1 c - p2)) with (i + chg1 c) by lia. apply gap_refl; lia.
Qed.
Lemma second_step acc p1 q1 xscr1 p2 q2 c next i : al1 p1 q1 xscr1 → al2 p2 q2 (c :: next) → state acc p1 q1 xscr1 p2 q2 (c :: next) → ahead (F1 c + 1) xscr1 → i = q1 + (i1 c - p1) →
  state (take_second acc c i) p1 q1 xscr1 (F1 c) (F2 c) next ∧ al2 (F1 c) (F2 c) next.
Proof.
  intros H1 H2 Hst Hah Hi. destruct (aligned_next x0' x2 N0' N2 _ _ _ _ H2) as [Hat Hchg Hend Hrest Hnext]. split; [|done]. pose proof (al_pos _ _ _ _ _ H1) as Hp1. unfold take_second.
  assert (nrec x0' = nrec x0) as En by (rewrite N0, N0', HO; done).
  destruct Hst as [e0 e1 e2 f Hb Hf He0 Hg Ha1 Ha2 Hst|m rest c' next' -> [= <- <-] Hset [Hm Ht Hs He] He1 He2 Hm1 Hm2 Hah1|m rest c1 next1 -> -> Hset [Hm Ht Hs He] He2 He1 Hm2 Hm1 Hah2].
  - cbn in Ha2. assert (gap e1 e2 i (i2 c)) as Hg'.
    { destruct Hat as (_ & _ & ->). rewrite Hi. eapply gap_to; [exact H1|exact H2|exact Hf|exact Hg|lia| |cbn; lia]. apply room_ahead; [apply (ahead_le (F1 c + 1)); [lia|done]|lia]. }
    destruct (append_new O A B P acc e0 e1 e2 2 (i1 c) (chg1 c) i (chg1 c) (i2 c) (chg2 c)) as [-> Hb']; try done; try lia.
    + intros Hne. destruct (Hst Hne) as [_ Hst2], Hg as (Hg & _). cbn in Hst2. lia.
    + split; cbn; [lia|]. split; [lia|]. right. right. left. split; [done|]. rewrite Hi. apply (common_lines x0 x1 N0 N1 p1 q1 xscr1); try done; try lia. apply room_ahead; [apply (ahead_le (F1 c + 1)); [lia|done]|lia].
    + eapply (at_gap _ _ _ _ _ _ _ _ _ _ (F1 c)); [exact Hb'|lia|lia| |apply (ahead_le (F1 c + 1)); [lia|done]|apply (ahead_le (F1 c + 1)); [lia|done]|done].
      replace (F2 c + (F1 c - F1 c)) with (F2 c) by lia. replace (q1 + (F1 c - p1)) with (i + chg1 c) by lia. apply gap_refl; [|lia]. destruct Hg' as (_ & _ & Hd & _), Hg as (Hg & _). lia.
  - destruct (append_grow O A B P m rest 2 (i1 c) (chg1 c) i (chg1 c) (i2 c) (chg2 c)) as (m' & -> & Hset' & Hm' & E1 & E2 & E3 & E4 & E5 & E6); try done; try lia.
    eapply (at_gap _ _ _ _ _ _ _ (F1 c) (i + chg1 c) (F2 c) (F1 c)); [cbn; split_and!; try done; lia|lia|lia| |apply (ahead_le (F1 c + 1)); [lia|done]|apply (ahead_le (F1 c + 1)); [lia|done]|done].
    replace (F2 c + (F1 c - F1 c)) with (F2 c) by lia. replace (q1 + (F1 c - p1)) with (i + chg1 c) by lia. apply gap_refl; lia.
  - exfalso. cbn in Hah, Hah2. lia.
Qed.

(** The same change on both sides. *)
Lemma same_step acc p1 q1 c1 next1 p2 q2 c2 next2 : al1 p1 q1 (c1 :: next1) → al2 p2 q2 (c2 :: next2) → state acc p1 q1 (c1 :: next1) p2 q2 (c2 :: next2) →
  i1 c1 = i1 c2 → chg1 c1 = chg1 c2 → chg2 c1 = chg2 c2 → zslice (i2 c1) (chg2 c1) A = zslice (i2 c2) (chg2 c1) B → state acc (F1 c1) (F2 c1) next1 (F1 c2) (F2 c2) next2.
Proof.
  intros H1 H2 Hst Ei Ec Ed El. destruct (aligned_next x0 x1 N0 N1 _ _ _ _ H1) as [Hat1 Hchg1 _ _ Hnext1], (aligned_next x0' x2 N0' N2 _ _ _ _ H2) as [Hat2 Hchg2 _ _ Hnext2].
  destruct Hst as [e0 e1 e2 f Hb Hf He0 Hg Ha1 Ha2 Hst|m rest c' next' _ [= <- <-] _ [_ Ht _ _] _ _ _ _ Hah|m rest c' next' _ [= <- <-] _ [_ Ht _ _] _ _ _ _ Hah]; cbn in *; [|lia|lia].
  assert (gap e1 e2 (i2 c1) (i2 c2)) as Hg'.
  { destruct Hat1 as (_ & _ & ->), Hat2 as (_ & _ & ->). rewrite <- Ei. eapply gap_to; [exact H1|exact H2|exact Hf|exact Hg|lia|cbn; lia|cbn; lia]. }
  eapply (at_gap _ _ _ _ _ _ _ e0 e1 e2 (F1 c1)); [done|lia|lia| |apply (ahead_le (F1 c1 + 1)); [lia|done]|apply (ahead_le (F1 c2 + 1)); [lia|done]|].
  - replace (F2 c1 + (F1 c1 - F1 c1)) with (i2 c1 + chg2 c1) by lia. replace (F2 c2 + (F1 c1 - F1 c2)) with (i2 c2 + chg2 c1) by lia. apply gap_extend; (done || lia).
  - intros _. split; [done|]. rewrite Ei, Ec. done.
Qed.

(** What [conflict] appends, in terms of the places. *)
Lemma conflict_places acc p1 q1 c1 p2 q2 c2 : i2 c1 = q1 + (i1 c1 - p1) → i2 c2 = q2 + (i1 c2 - p2) →
  let j := Z.min (i1 c1) (i1 c2) in let e := Z.max (F1 c1) (F1 c2) in
  conflict acc c1 c2 = xdl_append_merge acc 0 j (e - j) (q1 + (j - p1)) (F2 c1 + (e - F1 c1) - (q1 + (j - p1))) (q2 + (j - p2)) (F2 c2 + (e - F1 c2) - (q2 + (j - p2))).
Proof.
  intros E1 E2. cbn zeta. unfold conflict. destruct (Z.ltb_spec 0 (i1 c1 - i1 c2)), (Z.ltb_spec (i1 c1 - i1 c2 + chg1 c1 - chg1 c2) 0); cbn zeta; f_equal; lia.
Qed.
Lemma after_conflict m acc p1 q1 c1 next1 p2 q2 c2 next2 : al1 p1 q1 (c1 :: next1) → al2 p2 q2 (c2 :: next2) → settled m acc → mode m = 0 → i1 c2 <= F1 c1 → i1 c1 <= F1 c2 →
  let e := Z.max (F1 c1) (F1 c2) in end0 m = e → end1 m = F2 c1 + (e - F1 c1) → end2 m = F2 c2 + (e - F1 c2) → mi0 m <= Z.min (F1 c1) (F1 c2) → mi1 m <= i2 c1 → mi2 m <= i2 c2 →
  let fst' := F1 c1 <=? F1 c2 in let snd' := F1 c2 <=? F1 c1 in
  state (m :: acc) (if fst' then F1 c1 else p1) (if fst' then F2 c1 else q1) (if fst' then next1 else c1 :: next1) (if snd' then F1 c2 else p2) (if snd' then F2 c2 else q2) (if snd' then next2 else c2 :: next2).
Proof.
  intros H1 H2 Hset Hm Ht1 Ht2 e He0 He1 He2 Hs0 Hs1 Hs2. cbn zeta. subst e.
  destruct (aligned_next x0 x1 N0 N1 _ _ _ _ H1) as [Hat1 Hchg1 _ _ Hnext1], (aligned_next x0' x2 N0' N2 _ _ _ _ H2) as [Hat2 Hchg2 _ _ Hnext2].
  destruct (Z.leb_spec (F1 c1) (F1 c2)), (Z.leb_spec (F1 c2) (F1 c1)); [| | |lia].
  - eapply (at_gap _ _ _ _ _ _ _ (end0 m) (end1 m) (end2 m) (F1 c1)); [done|lia|lia| |apply (ahead_le (F1 c1 + 1)); [lia|done]|apply (ahead_le (F1 c2 + 1)); [lia|done]|].
    + replace (F2 c1 + (F1 c1 - F1 c1)) with (end1 m) by lia. replace (F2 c2 + (F1 c1 - F1 c2)) with (end2 m) by lia. apply gap_refl; lia.
    + intros _. split; [done|]. apply (ahead_le (F1 c2 + 1)); [lia|done].
  - eapply (on_second _ _ _ _ _ _ _ m acc c2 next2); try done; try lia. split; (done || lia).
  - eapply (on_first _ _ _ _ _ _ _ m acc c1 next1); try done; try lia. split; (done || lia).
Qed.
Lemma conflict_step acc p1 q1 c1 next1 p2 q2 c2 next2 : al1 p1 q1 (c1 :: next1) → al2 p2 q2 (c2 :: next2) → state acc p1 q1 (c1 :: next1) p2 q2 (c2 :: next2) → i1 c2 <= F1 c1 → i1 c1 <= F1 c2 → P →
  let fst' := F1 c1 <=? F1 c2 in let snd' := F1 c2 <=? F1 c1 in
  state (conflict acc c1 c2) (if fst' then F1 c1 else p1) (if fst' then F2 c1 else q1) (if fst' then next1 else c1 :: next1) (if snd' then F1 c2 else p2) (if snd' then F2 c2 else q2) (if snd' then next2 else c2 :: next2).
Proof.
  intros H1 H2 Hst Ht1 Ht2 HP. cbn zeta. destruct (aligned_next x0 x1 N0 N1 _ _ _ _ H1) as [Hat1 Hchg1 _ _ Hnext1], (aligned_next x0' x2 N0' N2 _ _ _ _ H2) as [Hat2 Hchg2 _ _ Hnext2].
  rewrite (conflict_places acc p1 q1 c1 p2 q2 c2) by lia. cbn zeta. set (j := Z.min (i1 c1) (i1 c2)). set (e := Z.max (F1 c1) (F1 c2)).
  destruct Hst as [e0 e1 e2 f Hb Hf He0 Hg Ha1 Ha2 Hst|m rest c' next' -> [= <- <-] Hset [Hm Ht Hs He] He1 He2 Hm1 Hm2 Hah1|m rest c' next' -> [= <- <-] Hset [Hm Ht Hs He] He2 He1 Hm2 Hm1 Hah2].
  - cbn in Ha1, Ha2. assert (gap e1 e2 (q1 + (j - p1)) (q2 + (j - p2))) as Hg' by (eapply gap_to; [exact H1|exact H2|exact Hf|exact Hg|lia|cbn; lia|cbn; lia]).
    edestruct (append_new O A B P acc e0 e1 e2 0) as [-> Hb']; [exact Hb| |..].
    6: { apply after_conflict; try done; cbn; try lia. by destruct Hb'. }
    + intros Hne. destruct (Hst Hne) as [Hs1 Hs2], Hg as (Hg & _). cbn in Hs1, Hs2. lia.
    + lia.
    + lia.
    + exact Hg'.
    + split; cbn; [lia|]. split; [lia|]. by left; split.
  - cbn in Hah1. edestruct (append_grow O A B P m rest 0) as (m' & -> & Hset' & Hm' & E1 & E2 & E3 & E4 & E5 & E6); [exact Hset|done|left| | | |apply after_conflict; try done; lia]; lia.
  - cbn in Hah2. edestruct (append_grow O A B P m rest 0) as (m' & -> & Hset' & Hm' & E1 & E2 & E3 & E4 & E5 & E6); [exact Hset|done|right| | | |apply after_conflict; try done; lia]; lia.
Qed.

Context (xmp : xmparam_t) (Hws : flag (xpp_flags (xm_xpp xmp)) XDF_WHITESPACE_FLAGS = false).

Lemma cmp_loop_wp n flags : flag flags XDF_WHITESPACE_FLAGS = false → ∀ s1 s2, 0 <= s1 → 0 <= s2 → s1 + Z.of_nat n <= nrec x1 → s2 + Z.of_nat n <= nrec x2 →
  returns (cmp_loop n (recs x1) (recs x2) s1 s2 flags) (λ b, b = true → zslice s1 (Z.of_nat n) A = zslice s2 (Z.of_nat n) B).
Proof.
  intros Hf. induction n as [|n IH]; intros s1 s2 Hs1 Hs2 Hn1 Hn2; [by cbn|]. cbn [cmp_loop]. rewrite zlen_fmap in N1, N2.
  destruct (znth_is_Some (recs x1) s1) as [r1 E1]; [lia|]. destruct (znth_is_Some (recs x2) s2) as [r2 E2]; [lia|]. rewrite (rd_znth _ _ _ E1), (rd_znth _ _ _ E2). cbn [obind].
  apply wp_bind. eapply wp_mono; [|apply recmatch_wp]. intros [|] [_ Hr]; [|done]. cbn [negb]. eapply wp_mono; [|apply IH; lia]. intros b Hb Eb. specialize (Hb Eb).
  assert (∀ recs s (r : xrecord_t), 0 <= s → znth recs s = Some r → zslice s (Z.of_nat (S n)) (line <$> recs) = line r :: zslice (s + 1) (Z.of_nat n) (line <$> recs)) as Hcons.
  { intros rs s r Hs Er. replace (Z.of_nat (S n)) with (1 + Z.of_nat n) by lia. rewrite zslice_app by lia. unfold zslice at 1.
    rewrite (zdrop_cons _ s (line r)); [done|done|]. unfold znth in *. destruct (0 <=? s); [|done]. by rewrite list_lookup_fmap, Er. }
  rewrite (Hcons _ s1 r1), (Hcons _ s2 r2), Hb, (Hr Hf eq_refl) by done. done.
Qed.
Lemma same_change_wp lvl c1 c2 : 0 <= i2 c1 → 0 <= i2 c2 → 0 <= chg2 c1 → F2 c1 <= nrec x1 → F2 c2 <= nrec x2 →
  returns (same_change x1 x2 xmp lvl c1 c2) (λ b, b = true → i1 c1 = i1 c2 ∧ chg1 c1 = chg1 c2 ∧ chg2 c1 = chg2 c2 ∧ zslice (i2 c1) (chg2 c1) A = zslice (i2 c2) (chg2 c1) B).
Proof.
  intros. unfold same_change, xdl_merge_cmp_lines. destruct (lvl =? XDL_MERGE_MINIMAL); [done|]. destruct (Z.eqb_spec (i1 c1) (i1 c2)); [|done]. destruct (Z.eqb_spec (chg1 c1) (chg1 c2)); [|done].
  destruct (Z.eqb_spec (chg2 c1) (chg2 c2)); [|done]. cbn [negb orb]. eapply wp_mono; [|apply cmp_loop_wp; (done || lia)]. intros b Hb Eb. rewrite Z2Nat.id in Hb by lia. split_and!; try done. by apply Hb.
Qed.

(** Conflicts need changes of the two scripts that touch. *)
Context (S1 S2 : list xdchange_t) (HP : ∀ c1 c2, c1 ∈ S1 → c2 ∈ S2 → i1 c2 <= F1 c1 → i1 c1 <= F1 c2 → P).
Definition finished (acc : list xdmerge_t) (xscr1 xscr2 : list xdchange_t) : Prop :=
  xscr1 ⊆ S1 ∧ xscr2 ⊆ S2 ∧ ∃ p1 q1 p2 q2, al1 p1 q1 xscr1 ∧ al2 p2 q2 xscr2 ∧ state acc p1 q1 xscr1 p2 q2 xscr2.
Lemma merge_scripts_loop_wp lvl fuel : ∀ acc xscr1 xscr2, finished acc xscr1 xscr2 → (length xscr1 + length xscr2 < fuel)%nat →
  returns (merge_loop x1 x2 xmp fuel lvl acc xscr1 xscr2) (λ '(acc', s1, s2), (s1 = [] ∨ s2 = []) ∧ finished acc' s1 s2).
Proof.
  induction fuel as [|fuel IH]; intros acc xscr1 xscr2 Hfin Hf; [lia|]. cbn [merge_loop]. destruct xscr1 as [|c1 next1]; [cbn; split; [by left|done]|].
  destruct xscr2 as [|c2 next2]; [cbn; split; [by right|done]|]. destruct Hfin as (I1 & I2 & p1 & q1 & p2 & q2 & H1 & H2 & Hst).
  destruct (aligned_next x0 x1 N0 N1 _ _ _ _ H1) as [Hat1 Hchg1 Hend1 Hrest1 _], (aligned_next x0' x2 N0' N2 _ _ _ _ H2) as [Hat2 Hchg2 Hend2 Hrest2 _]. cbn [length] in Hf.
  destruct (Z.ltb_spec (F1 c1) (i1 c2)); [|destruct (Z.ltb_spec (F1 c2) (i1 c1))].
  - apply IH; [|cbn [length]; lia]. edestruct (first_step acc p1 q1 c1 next1 p2 q2 (c2 :: next2)) as [Hst' H1']; [done|done|done|cbn; lia| |split; [set_solver|]; split; [done|]; exists (F1 c1), (F2 c1), p2, q2; split_and!; [done|done|exact Hst']]. lia.
  - apply IH; [|cbn [length]; lia]. edestruct (second_step acc p1 q1 (c1 :: next1) p2 q2 c2 next2) as [Hst' H2']; [done|done|done|cbn; lia| |split; [done|]; split; [set_solver|]; exists p1, q1, (F1 c2), (F2 c2); split_and!; [done|done|exact Hst']]. lia.
  - apply wp_bind. eapply wp_mono; [|apply same_change_wp; lia]. intros [|] Hb.
    + destruct (Hb eq_refl) as (Ei & Ec & Ed & El). rewrite Ei, Ec, Z.leb_refl. apply IH; [|cbn [length]; lia]. split; [set_solver|]. split; [set_solver|]. exists (F1 c1), (F2 c1), (F1 c2), (F2 c2).
      split_and!; [done|done|]. by eapply same_step.
    + apply IH; [|destruct (Z.leb_spec (F1 c2) (F1 c1)), (Z.leb_spec (F1 c1) (F1 c2)); cbn [length]; lia].
      pose proof (conflict_step acc p1 q1 c1 next1 p2 q2 c2 next2 H1 H2 Hst ltac:(lia) ltac:(lia)) as Hst'. specialize (Hst' (HP c1 c2 ltac:(set_solver) ltac:(set_solver) ltac:(lia) ltac:(lia))). cbn zeta in Hst'.
      split; [destruct (F1 c1 <=? F1 c2); set_solver|]. split; [destruct (F1 c2 <=? F1 c1); set_solver|]. eexists _, _, _, _. split; [|split; [|exact Hst']].
      * by destruct (F1 c1 <=? F1 c2).
      * by destruct (F1 c2 <=? F1 c1).
Qed.
Lemma first_tail xscr1 : ∀ acc, finished acc xscr1 [] → finished (fold_left (λ c x, take_first c x (i1 x + nrec x2 - nrec x0')) xscr1 acc) [] [].
Proof.
  induction xscr1 as [|c next IH]; intros acc Hfin; [done|]. cbn [fold_left]. apply IH. destruct Hfin as (I1 & I2 & p1 & q1 & p2 & q2 & H1 & H2 & Hst). pose proof (aligned_end _ _ _ _ H2) as He.
  destruct (first_step acc p1 q1 c next p2 q2 [] (i1 c + nrec x2 - nrec x0')) as [Hst' H1']; [done|done|done|done|lia|]. split; [set_solver|]. split; [done|]. by exists (F1 c), (F2 c), p2, q2.
Qed.
Lemma second_tail xscr2 : ∀ acc, finished acc [] xscr2 → finished (fold_left (λ c x, take_second c x (i1 x + nrec x1 - nrec x0)) xscr2 acc) [] [].
Proof.
  induction xscr2 as [|c next IH]; intros acc Hfin; [done|]. cbn [fold_left]. apply IH. destruct Hfin as (I1 & I2 & p1 & q1 & p2 & q2 & H1 & H2 & Hst). pose proof (aligned_end _ _ _ _ H1) as He.
  destruct (second_step acc p1 q1 [] p2 q2 c next (i1 c + nrec x1 - nrec x0)) as [Hst' H2']; [done|done|done|done|lia|]. split; [done|]. split; [set_solver|]. by exists p1, q1, (F1 c), (F2 c).
Qed.
Lemma finished_laid acc : finished acc [] [] → laid true 0 0 0 (reverse acc).
Proof.
  intros (_ & _ & p1 & q1 & p2 & q2 & H1 & H2 & Hst). pose proof (aligned_end _ _ _ _ H1) as L1. pose proof (aligned_end _ _ _ _ H2) as L2. assert (nrec x0' = nrec x0) as En by (rewrite N0, N0', HO; done).
  destruct Hst as [e0 e1 e2 f Hb Hf He0 Hg _ _ _|m rest c next _ [=]|m rest c next _ [=]]. rewrite <- (app_nil_r (reverse acc)). apply (built_covers _ _ _ _ _ _ _ _ Hb). cbn [XdlMergeChunks.laid].
  pose proof (gap_to _ _ _ _ _ _ _ _ f (nrec x0) H1 H2 Hf Hg ltac:(lia) ltac:(cbn; lia) ltac:(cbn; lia)) as (Hg1 & Hg2 & Hg3 & Hg4).
  replace (q1 + (nrec x0 - p1)) with (nrec x1) in * by lia. split; [lia|]. split; [lia|]. split; [lia|]. unfold zslice in Hg4. rewrite !ztake_all in Hg4; [done|rewrite zlen_zdrop; lia..].
Qed.
Lemma merge_loop_apart fuel lvl : ∀ c s1 s2 c' s1' s2', merge_loop x1 x2 xmp fuel lvl c s1 s2 = Ret (c', s1', s2') → rev_apart c → rev_apart c'.
Proof.
  induction fuel as [|fuel IH]; intros c s1 s2 c' s1' s2'; cbn [merge_loop]; [done|]. destruct s1 as [|a next1]; [by intros [= -> _ _]|]. destruct s2 as [|b next2]; [by intros [= -> _ _]|].
  destruct (i1 a + chg1 a <? i1 b); [intros E H; eapply IH; [exact E|by apply append_apart]|]. destruct (i1 b + chg1 b <? i1 a); [intros E H; eapply IH; [exact E|by apply append_apart]|].
  intros E H. apply obind_Ret_inv in E as (same & _ & E). eapply IH; [exact E|]. destruct same; [done|]. unfold conflict. destruct (0 <? i1 a - i1 b), (i1 a - i1 b + chg1 a - chg1 b <? 0); by apply append_apart.
Qed.
Lemma merge_scripts_apart s1 s2 ms : merge_scripts x0 x1 x0' x2 xmp s1 s2 = Ret ms → ∃ lo, apart lo ms.
Proof.
  intros E. unfold merge_scripts in E. apply obind_Ret_inv in E as ([[c s1'] s2'] & E & [= <-]). apply merge_loop_apart in E; [|done].
  assert (∀ (f : list xdmerge_t → xdchange_t → list xdmerge_t) l c, (∀ c x, rev_apart c → rev_apart (f c x)) → rev_apart c → rev_apart (fold_left f l c)) as Hfold by (intros f l; induction l as [|x l IH]; intros c0 Hf Hc; [done|]; cbn; apply IH; [done|by apply Hf]).
  destruct (rev_apart_apart (fold_left (λ c x, take_second c x (i1 x + nrec x1 - nrec x0)) s2' (fold_left (λ c x, take_first c x (i1 x + nrec x2 - nrec x0')) s1' c))) as [lo Hlo].
  { apply Hfold; [intros c0 x; apply append_apart|]. apply Hfold; [intros c0 x; apply append_apart|done]. }
  exists lo. rewrite <- (app_nil_r (reverse _)). apply Hlo. by destruct (fold_left _ s2' _).
Qed.
Lemma merge_scripts_wp : al1 0 0 S1 → al2 0 0 S2 → returns (merge_scripts x0 x1 x0' x2 xmp S1 S2) (laid true 0 0 0).
Proof.
  intros H1 H2. unfold merge_scripts. apply wp_bind. eapply wp_mono; [|apply merge_scripts_loop_wp; [|lia]].
  - intros [[acc s1] s2] [[->| ->] Hfin]; cbn [fold_left wp]; apply finished_laid; [by apply second_tail|by apply first_tail].
  - split; [done|]. split; [done|]. exists 0, 0, 0, 0. split; [done|]. split; [done|]. eapply (at_gap _ _ _ _ _ _ _ 0 0 0 0); try done.
    + destruct S1; [done|]. destruct (aligned_next x0 x1 N0 N1 _ _ _ _ H1) as [? _ _ _ _]. cbn. lia.
    + destruct S2; [done|]. destruct (aligned_next x0' x2 N0' N2 _ _ _ _ H2) as [? _ _ _ _]. cbn. lia.
Qed.
End merge.

(** ** Refining conflicts *)
Section refine.
Context (O : list (list Z)) (P : Prop) (x1 x2 : xdfile_t) (N1 : nrec x1 = zlen (line <$> recs x1)) (N2 : nrec x2 = zlen (line <$> recs x2)).
Abbreviation A := (line <$> recs x1).
Abbreviation B := (line <$> recs x2).
Abbreviation gap := (gap A B).
Abbreviation laid := (laid O A B P).
Abbreviation end1 m := (mi1 m + mchg1 m).
Abbreviation end2 m := (mi2 m + mchg2 m).

Lemma gap_back e1 e2 s1 s2 k : gap e1 e2 s1 s2 → 0 <= k → 0 <= e1 - k → 0 <= e2 - k → zslice (e1 - k) k A = zslice (e2 - k) k B → gap (e1 - k) (e2 - k) s1 s2.
Proof.
  intros (He1 & He2 & Ed & Es) Hk H1 H2 Ek. unfold XdlMergeChunks.gap. split; [lia|]. split; [lia|]. split; [lia|].
  replace (s1 - (e1 - k)) with (k + (s1 - e1)) by lia. rewrite !zslice_app by lia. rewrite Ek. f_equal. replace (e1 - k + k) with e1 by lia. by replace (e2 - k + k) with e2 by lia.
Qed.
Lemma laid_back base e0 e1 e2 ms k : laid base e0 e1 e2 ms → 0 <= k → 0 <= e1 - k → 0 <= e2 - k → zslice (e1 - k) k A = zslice (e2 - k) k B → laid base e0 (e1 - k) (e2 - k) ms.
Proof.
  intros Hl Hk H1 H2 Ek. destruct ms as [|m ms]; cbn [XdlMergeChunks.laid] in *.
  - destruct Hl as (? & ? & ? & Ed). split; [done|]. split; [lia|]. split; [lia|]. rewrite <- (ztake_zdrop k (zdrop (e1 - k) A)), <- (ztake_zdrop k (zdrop (e2 - k) B)), !zdrop_zdrop by lia.
    rewrite !Z.sub_add, Ed. f_equal. exact Ek.
  - destruct Hl as (s0 & c0 & ? & ? & Hg & ?). exists s0, c0. split; [done|]. split; [done|]. split; [by apply gap_back|done].
Qed.

(** *** Only at both ends *)
Section trim.
Context (flags : Z) (Hws : flag flags XDF_WHITESPACE_FLAGS = false).

Lemma match_wp s1 s2 : 0 <= s1 < nrec x1 → 0 <= s2 < nrec x2 → ∃ r1 r2, rd (recs x1) s1 = Ret r1 ∧ rd (recs x2) s2 = Ret r2 ∧
  returns (recmatch r1 r2 flags) (λ b, b = true → zslice s1 1 A = zslice s2 1 B).
Proof.
  intros H1 H2. rewrite zlen_fmap in N1, N2. destruct (znth_is_Some (recs x1) s1) as [r1 E1]; [lia|]. destruct (znth_is_Some (recs x2) s2) as [r2 E2]; [lia|]. exists r1, r2.
  split; [by apply rd_znth|]. split; [by apply rd_znth|]. eapply wp_mono; [|apply recmatch_wp]. intros b [_ Hb] Eb. specialize (Hb Hws Eb).
  assert (∀ recs s (r : xrecord_t), 0 <= s → znth recs s = Some r → zslice s 1 (line <$> recs) = [line r]) as Hone.
  { intros rs s r Hs Er. unfold zslice. rewrite (zdrop_cons _ s (line r)); [done|done|]. unfold znth in *. destruct (0 <=? s); [|done]. by rewrite list_lookup_fmap, Er. }
  rewrite (Hone _ s1 r1), (Hone _ s2 r2), Hb by (done || lia). done.
Qed.

Definition in_files (m : xdmerge_t) : Prop := 0 <= mi1 m ∧ 0 <= mchg1 m ∧ end1 m <= nrec x1 ∧ 0 <= mi2 m ∧ 0 <= mchg2 m ∧ end2 m <= nrec x2.
Definition trimmed_chunk (m m' : xdmerge_t) (k : Z) : Prop := mode m' = mode m ∧ mi0 m' = mi0 m ∧ mchg0 m' = mchg0 m ∧ 0 <= k ∧ mchg1 m' = mchg1 m - k ∧ mchg2 m' = mchg2 m - k ∧ 0 <= mchg1 m' ∧ 0 <= mchg2 m'.
Lemma trim_front_wp fuel : ∀ m, in_files m → (Z.to_nat (mchg1 m) < fuel)%nat →
  returns (trim_front x1 x2 fuel m flags) (λ m', ∃ k, trimmed_chunk m m' k ∧ mi1 m' = mi1 m + k ∧ mi2 m' = mi2 m + k ∧ zslice (mi1 m) k A = zslice (mi2 m) k B).
Proof.
  induction fuel as [|fuel IH]; intros m (? & ? & ? & ? & ? & ?) Hf; [lia|]. cbn [trim_front].
  assert (∃ k, trimmed_chunk m m k ∧ mi1 m = mi1 m + k ∧ mi2 m = mi2 m + k ∧ zslice (mi1 m) k A = zslice (mi2 m) k B) as Hstop by (exists 0; unfold trimmed_chunk; split_and!; (done || lia)).
  destruct (Z.eqb_spec (mchg1 m) 0); [done|]. destruct (Z.eqb_spec (mchg2 m) 0); [done|]. cbn [negb andb]. destruct (match_wp (mi1 m) (mi2 m)) as (r1 & r2 & -> & -> & W); [lia|lia|]. cbn [obind].
  apply wp_bind. eapply wp_mono; [|exact W]. intros [|] Hb; [|done]. specialize (Hb eq_refl). eapply wp_mono; [|apply IH; [unfold in_files; cbn; lia|cbn; lia]].
  intros m' (k & (? & ? & ? & ? & ? & ? & ? & ?) & ? & ? & Ek). cbn in *. exists (1 + k). unfold trimmed_chunk. split_and!; try done; try lia. rewrite !zslice_app by lia. by rewrite Hb, Ek.
Qed.
Lemma trim_back_wp fuel : ∀ m, in_files m → (Z.to_nat (mchg1 m) < fuel)%nat →
  returns (trim_back x1 x2 fuel m flags) (λ m', ∃ k, trimmed_chunk m m' k ∧ mi1 m' = mi1 m ∧ mi2 m' = mi2 m ∧ zslice (end1 m - k) k A = zslice (end2 m - k) k B).
Proof.
  induction fuel as [|fuel IH]; intros m (? & ? & ? & ? & ? & ?) Hf; [lia|]. cbn [trim_back].
  assert (∃ k, trimmed_chunk m m k ∧ mi1 m = mi1 m ∧ mi2 m = mi2 m ∧ zslice (end1 m - k) k A = zslice (end2 m - k) k B) as Hstop by (exists 0; unfold trimmed_chunk; split_and!; (done || lia)).
  destruct (Z.eqb_spec (mchg1 m) 0); [done|]. destruct (Z.eqb_spec (mchg2 m) 0); [done|]. cbn [negb andb]. destruct (match_wp (end1 m - 1) (end2 m - 1)) as (r1 & r2 & -> & -> & W); [lia|lia|]. cbn [obind].
  apply wp_bind. eapply wp_mono; [|exact W]. intros [|] Hb; [|done]. specialize (Hb eq_refl). eapply wp_mono; [|apply IH; [unfold in_files; cbn; lia|cbn; lia]].
  intros m' (k & (? & ? & ? & ? & ? & ? & ? & ?) & ? & ? & Ek). cbn in *. exists (k + 1). unfold trimmed_chunk. split_and!; try done; try lia. rewrite !zslice_app by lia.
  replace (end1 m - (k + 1)) with (mi1 m + (mchg1 m - 1) - k) by lia. replace (end2 m - (k + 1)) with (mi2 m + (mchg2 m - 1) - k) by lia. rewrite Ek.
  replace (mi1 m + (mchg1 m - 1) - k + k) with (end1 m - 1) by lia. replace (mi2 m + (mchg2 m - 1) - k + k) with (end2 m - 1) by lia. by rewrite Hb.
Qed.
Lemma refine_zdiff3_wp base ms : ∀ e0 e1 e2 lo, laid base e0 e1 e2 ms → apart lo ms → returns (xdl_refine_zdiff3_conflicts x1 x2 ms flags) (λ ms', laid base e0 e1 e2 ms' ∧ apart lo ms').
Proof.
  induction ms as [|m ms IH]; intros e0 e1 e2 lo Hl Hap; cbn [xdl_refine_zdiff3_conflicts]; [done|]. destruct Hap as [Hlo Hap]. pose proof Hl as (s0 & c0 & H0 & Hc0 & Hg & Hok & Hb & Hrest).
  destruct (Z.eqb_spec (mode m) 0) as [Em|]; cbn [negb].
  2: { cbn [obind]. apply wp_bind. eapply wp_mono; [|by apply IH]. intros ms' [Hms' Hap']. split; [by exists s0, c0|by split]. }
  pose proof (laid_bounds _ _ _ _ _ _ _ _ _ Hrest) as Hbd. rewrite <- N1, <- N2 in Hbd. pose proof Hg as (Hg1 & Hg2 & Hg3 & _). pose proof Hok as (Hm1 & Hm2 & _).
  assert (in_files m) as Hin by (unfold in_files; lia). pose proof N1 as L1. rewrite zlen_fmap in L1. unfold zlen in L1.
  apply wp_bind. apply wp_bind. eapply wp_mono; [|apply trim_front_wp; [done|lia]]. intros m1 (k & (T1 & T2 & T3 & T4 & T5 & T6 & T7 & T8) & E1 & E2 & Ek).
  eapply wp_mono; [|apply trim_back_wp; [unfold in_files in *; lia|lia]]. intros m2 (k' & (V1 & V2 & V3 & V4 & V5 & V6 & V7 & V8) & E3 & E4 & Ek').
  apply wp_bind. eapply wp_mono; [|by apply IH]. intros ms' [Hms' Hap']. split; [|split; [lia|apply (apart_le (end1 m + 1)); [lia|done]]]. cbn [XdlMergeChunks.laid]. exists s0, c0. split; [done|]. split; [done|].
  split; [rewrite E3, E4, E1, E2; apply gap_extend; (done || lia)|]. split; [split; [lia|]; split; [lia|]; left; split; [congruence|by eapply chunk_conflict]|]. split; [intros Eb; destruct (Hb Eb); split; congruence|].
  replace (end1 m2) with (end1 m - k') by lia. replace (end2 m2) with (end2 m - k') by lia. apply laid_back; try done; try lia.
  replace (end1 m - k') with (end1 m1 - k') by lia. by replace (end2 m - k') with (end2 m1 - k') by lia.
Qed.
End trim.

(** *** By comparing the two sides *)
Lemma script_aligned mf1 mf2 flags y1 y2 xscr : flag flags XDF_WHITESPACE_FLAGS = false → script_of mf1 mf2 flags y1 y2 xscr →
  aligned y1 y2 0 0 xscr ∧ nrec y1 = zlen (line <$> recs y1) ∧ nrec y2 = zlen (line <$> recs y2).
Proof.
  intros Hf Hs. pose proof (script_exact _ _ _ _ _ _ Hf Hs) as Ha. destruct Hs as [[L1 L2] [M1 M2] Hso _ _]. rewrite <- L1, <- L2 in *. by split_and!.
Qed.

Section sub.
Context (m : xdmerge_t) (y1 y2 : xdfile_t) (M1 : nrec y1 = zlen (line <$> recs y1)) (M2 : nrec y2 = zlen (line <$> recs y2)).
Context (L1 : line <$> recs y1 = zslice (mi1 m) (mchg1 m) A) (L2 : line <$> recs y2 = zslice (mi2 m) (mchg2 m) B) (Hin : in_files m) (HP : P).

Lemma sub_slice (l : list (list Z)) i c s k : 0 <= i → 0 <= s → 0 <= k → s + k <= c → zslice s k (zslice i c l) = zslice (i + s) k l.
Proof.
  intros. unfold zslice. rewrite <- (zdrop_zdrop l s i) by lia. unfold ztake, zdrop. rewrite skipn_firstn_comm, take_take. f_equal. lia.
Qed.
Lemma sub_len : nrec y1 = mchg1 m ∧ nrec y2 = mchg2 m.
Proof. destruct Hin as (? & ? & ? & ? & ? & ?). rewrite M1, M2, L1, L2, !zlen_zslice by lia. done. Qed.
Lemma sub_common p q xscr s k : aligned y1 y2 p q xscr → p <= s → 0 <= k → s + k <= p + room y1 p xscr → zslice (mi1 m + s) k A = zslice (mi2 m + (q + (s - p))) k B.
Proof.
  intros Ha Hs Hk Hr. pose proof (common_lines y1 y2 M1 M2 p q xscr s k Ha Hs Hk Hr) as E. pose proof (aligned_room _ _ _ _ _ Ha) as (? & ? & ? & ? & ?). destruct sub_len as [S1 S2].
  pose proof (al_pos _ _ _ _ _ Ha). destruct Hin as (? & ? & ? & ? & ? & ?). rewrite L1, L2, !sub_slice in E by lia. done.
Qed.
Lemma sub_apart ms xscr : apart (end1 m + 1) ms → ∀ p q lo, aligned y1 y2 p q xscr → ahead lo xscr → lo <= mchg1 m + 1 → apart (mi1 m + lo) ((sub_chunk m <$> xscr) ++ ms).
Proof.
  intros Hms. induction xscr as [|c xscr IH]; intros p q lo Ha Hh Hlo; cbn [fmap list_fmap app]; [apply (apart_le (end1 m + 1)); [lia|done]|].
  destruct (aligned_next y1 y2 M1 M2 _ _ _ _ Ha) as [Hat Hchg Hend Hrest Hnext]. destruct sub_len as [S1 _]. cbn in Hh. split; cbn [sub_chunk mi1 mchg1]; [lia|].
  replace (i1 c + mi1 m + chg1 c + 1) with (mi1 m + (i1 c + chg1 c + 1)) by lia. eapply IH; [exact Hrest|done|lia].
Qed.
Lemma sub_laid e0 ms xscr : laid false e0 (end1 m) (end2 m) ms → ∀ p q, aligned y1 y2 p q xscr → laid false e0 (mi1 m + p) (mi2 m + q) ((sub_chunk m <$> xscr) ++ ms).
Proof.
  intros Hl. induction xscr as [|c xscr IH]; intros p q Ha; destruct sub_len as [S1 S2], Hin as (? & ? & ? & ? & ? & ?).
  - cbn [fmap list_fmap app]. pose proof (aligned_end _ _ _ _ Ha) as (? & ? & ?). pose proof (sub_common p q [] p (mchg1 m - p) Ha ltac:(lia) ltac:(lia) ltac:(cbn; lia)) as E.
    replace (mi1 m + p) with (end1 m - (mchg1 m - p)) in * by lia. replace (mi2 m + q) with (end2 m - (mchg1 m - p)) by lia. apply laid_back; try done; try lia.
    rewrite E. f_equal. lia.
  - destruct (aligned_next y1 y2 M1 M2 _ _ _ _ Ha) as [Hat Hchg Hend Hrest _]. cbn [fmap list_fmap app XdlMergeChunks.laid]. exists e0, 0. cbn [sub_chunk mi1 mi2 mchg1 mchg2 mode].
    split; [lia|]. split; [lia|]. split; [|split; [|split; [done|]]].
    + pose proof (sub_common p q (c :: xscr) p (i1 c - p) Ha ltac:(lia) ltac:(lia) ltac:(cbn; lia)) as E. unfold XdlMergeChunks.gap. split; [lia|]. split; [lia|]. split; [lia|].
      replace (i1 c + mi1 m - (mi1 m + p)) with (i1 c - p) by lia. rewrite E. f_equal. lia.
    + split; cbn; [lia|]. split; [lia|by left].
    + rewrite Z.add_0_r. replace (i1 c + mi1 m + chg1 c) with (mi1 m + (i1 c + chg1 c)) by lia. replace (i2 c + mi2 m + chg2 c) with (mi2 m + (i2 c + chg2 c)) by lia. by apply IH.
Qed.
End sub.

Lemma complete_lines ls : Forall whole_line ls → complete (concat ls).
Proof.
  induction 1 as [|l ls (b & -> & _) Hls IH]; [by left|]. right. cbn [concat]. destruct IH as [->|IH]; [rewrite app_nil_r; apply last_snoc|].
  rewrite last_app, IH. done.
Qed.

Section zealous.
Context (xmp : xmparam_t) (malloc : Z → list Z) (Hmal : malloc_ok malloc).
Abbreviation flags := (xpp_flags (xm_xpp xmp)).
Abbreviation anchors := (xpp_anchors (xm_xpp xmp)).
Context (Hws : flag flags XDF_WHITESPACE_FLAGS = false) (G1 : good_lines A) (G2 : good_lines B) (Z1 : zlen (concat A) < 2 ^ 29 - 4) (Z2 : zlen (concat B) < 2 ^ 29 - 4).
Context (Hsup : classic flags = true ∨ anchors = [] ∨ Forall (λ a, 10 ∉ a) anchors ∧ Forall whole_line A).

Lemma part_supported s k : supported (concat (zslice s k A)) flags anchors.
Proof. destruct Hsup as [?|[?|[? Hw]]]; [by left|right; split; [done|by left]|right; split; [done|right; split; [done|]]]. by apply complete_lines, Forall_take, Forall_drop. Qed.
Lemma subfile_text recs first count : 1 <= first → 1 <= count → first - 1 + count <= zlen recs → good_lines (line <$> recs) →
  ∃ t, subfile recs first count = Ret t ∧ t = concat (zslice (first - 1) count (line <$> recs)) ∧ split_lines t = zslice (first - 1) count (line <$> recs) ∧ zlen t <= zlen (concat (line <$> recs)).
Proof.
  intros Hf Hc Hn Hg. pose proof (subfile_wp recs first count Hf Hc Hn Hg) as W. apply returns_eq in W as (t & E & Es & Ez). exists t. split; [done|]. split; [|done].
  rewrite <- Es. unfold split_lines. symmetry. apply concat_lines_from.
Qed.
Lemma refine_conflicts_wp ms : ∀ e0 e1 e2 lo, laid false e0 e1 e2 ms → apart lo ms →
  returns (xdl_refine_conflicts x1 x2 xmp malloc ms) (λ r, match r with Some ms' => laid false e0 e1 e2 ms' ∧ apart lo ms' | None => XDF_DIFF_ALG flags = XDF_HISTOGRAM_DIFF end).
Proof.
  induction ms as [|m ms IH]; intros e0 e1 e2 lo Hl Hap; cbn [xdl_refine_conflicts]; [done|]. destruct Hap as [Hlo Hap]. pose proof Hl as (s0 & c0 & H0 & Hc0 & Hg & Hok & _ & Hrest).
  pose proof (laid_bounds _ _ _ _ _ _ _ _ _ Hrest) as Hbd. rewrite <- N1, <- N2 in Hbd. pose proof Hg as (Hg1 & Hg2 & Hg3 & _). pose proof Hok as (Hm1 & Hm2 & _).
  set (Q := λ sub : option (list xdmerge_t), match sub with Some sub => (∀ ms', laid false (s0 + c0) (end1 m) (end2 m) ms' → laid false e0 e1 e2 (sub ++ ms')) ∧ ∀ ms', apart (end1 m + 1) ms' → apart lo (sub ++ ms') | None => XDF_DIFF_ALG flags = XDF_HISTOGRAM_DIFF end).
  apply wp_bind, (wp_mono _ _ Q).
  { intros [sub|] Hs; [|done]. apply wp_bind. eapply wp_mono; [|by apply IH]. intros [rest|] Hr; [|done]. destruct Hs as [Hs Hs'], Hr as [Hr Hr']. split; [by apply Hs|by apply Hs']. }
  assert (Q (Some [m])) as Hkeep by (split; intros ms' Hms'; [by exists s0, c0|by split]). destruct (Z.eqb_spec (mode m) 0) as [Em|]; cbn [negb]; [|done].
  destruct (Z.eqb_spec (mchg1 m) 0); [done|]. destruct (Z.eqb_spec (mchg2 m) 0); [done|]. cbn [orb]. pose proof N1 as L1. pose proof N2 as L2. rewrite zlen_fmap in L1, L2.
  destruct (subfile_text (recs x1) (mi1 m + 1) (mchg1 m)) as (t1 & -> & E1 & S1 & B1); [lia|lia|lia|done|]. destruct (subfile_text (recs x2) (mi2 m + 1) (mchg2 m)) as (t2 & -> & E2 & S2 & B2); [lia|lia|lia|done|].
  cbn [obind]. replace (mi1 m + 1 - 1) with (mi1 m) in * by lia. replace (mi2 m + 1 - 1) with (mi2 m) in * by lia.
  apply wp_bind. eapply wp_mono; [|apply (diff_script_wp malloc t1 t2); [done|lia|lia|rewrite E1; apply part_supported]].
  intros [[[y1 y2] xscr]|] Hs; [|done]. destruct (script_aligned _ _ _ _ _ _ Hws Hs) as (Hal & M1 & M2). pose proof (scr_lines _ _ _ _ _ _ Hs) as [P1 P2]. rewrite S1 in P1. rewrite S2 in P2.
  assert (in_files m) as Hin by (unfold in_files; lia). destruct xscr as [|c xscr]; cbn [wp].
  - split; intros ms' Hms'; [|by split]. cbn [app XdlMergeChunks.laid]. exists s0, c0. split; [done|]. split; [done|]. split; [done|]. split; [|done]. destruct (sub_len m y1 y2 M1 M2 P1 P2 Hin) as [Q1 Q2].
    pose proof (aligned_end _ _ _ _ Hal) as (Q3 & _). pose proof (sub_common m y1 y2 M1 M2 P1 P2 Hin 0 0 [] 0 (mchg1 m) Hal ltac:(lia) ltac:(lia) ltac:(cbn; lia)) as E. rewrite !Z.add_0_r in E.
    split; cbn; [done|]. split; [done|]. right. right. right. split; [done|]. split; [lia|]. replace (mchg2 m) with (mchg1 m) by lia. done.
  - split; intros ms' Hms'.
    2: { apply (apart_le (mi1 m + 0)); [lia|]. apply (sub_apart m y1 y2 M1 M2 P1 P2 Hin ms' (c :: xscr) Hms' 0 0); [done|destruct (aligned_next y1 y2 M1 M2 _ _ _ _ Hal) as [? _ _ _ _]; cbn; lia|lia]. }
    pose proof (sub_laid m y1 y2 M1 M2 P1 P2 Hin ltac:(by eapply chunk_conflict) (s0 + c0) ms' (c :: xscr) Hms' 0 0 Hal) as Hsub. rewrite !Z.add_0_r in Hsub.
    cbn [fmap list_fmap app XdlMergeChunks.laid] in Hsub |- *. destruct Hsub as (s & k & ? & ? & Hg' & Hrest'). exists s, k. split; [lia|]. split; [done|]. split; [|done].
    destruct Hg' as (K1 & K2 & K3 & K4). replace (mi1 (sub_chunk m c)) with (mi1 m + (mi1 (sub_chunk m c) - mi1 m)) by lia. replace (mi2 (sub_chunk m c)) with (mi2 m + (mi1 (sub_chunk m c) - mi1 m)) by lia.
    apply gap_extend; (done || lia).
Qed.

(** *** Joining conflicts *)
Lemma contain_alnum_wp n : ∀ i, 0 <= i → i + Z.of_nat n <= nrec x1 → returns (lines_contain_alnum n (recs x1) i) (λ _, True).
Proof.
  rewrite zlen_fmap in N1. induction n as [|n IH]; intros i Hi Hn; cbn [lines_contain_alnum]; [done|]. apply wp_bind, rd_wp; [lia|]. intros r _. destruct (line_contains_alnum (line r)); [done|]. apply IH; lia.
Qed.
Lemma simplify_loop_wp b ms : ∀ m e0 e1 e2 lo, laid false e0 e1 e2 (m :: ms) → apart lo (m :: ms) → returns (simplify_loop x1 m ms b) (λ ms', laid false e0 e1 e2 ms' ∧ apart lo ms').
Proof.
  induction ms as [|n ms IH]; intros m e0 e1 e2 lo Hl Hap; cbn [simplify_loop]; [done|]. destruct Hap as [Hlo Hap]. pose proof Hl as (s0 & c0 & H0 & Hc0 & Hg & Hok & _ & Hrest). pose proof Hrest as (t0 & d0 & I0 & Hd0 & Hg' & Hok' & _ & Hrest').
  pose proof (laid_bounds _ _ _ _ _ _ _ _ _ Hrest') as Hbd. rewrite <- N1, <- N2 in Hbd. pose proof Hg' as (? & ? & ? & _). pose proof Hok as (? & ? & _). pose proof Hok' as (? & ? & _). pose proof Hg as (? & ? & ? & _).
  apply wp_bind, (wp_mono _ _ (λ keep, keep = false → mode m = 0)).
  - intros [|] Hk; cbn match.
    + apply wp_bind. eapply wp_mono; [|by apply IH]. intros rest [Hr Hr']. split; [|by split]. exists s0, c0. do 4 (split; [done|]). by split.
    + specialize (Hk eq_refl). apply IH; [|destruct Hap as [_ Hap]; split; cbn [xdl_merge_two_conflicts mi1 mchg1]; [done|]; by replace (mi1 m + (end1 n - mi1 m)) with (end1 n) by lia]. cbn [XdlMergeChunks.laid]. exists s0, (t0 + d0 - s0). cbn [xdl_merge_two_conflicts mi1 mi2 mchg1 mchg2 mode]. split; [done|]. split; [lia|]. split; [done|].
      split; [split; cbn; [lia|]; split; [lia|]; left; split; [done|exact (chunk_conflict _ _ _ _ _ _ _ Hok Hk)]|]. split; [done|]. replace (s0 + (t0 + d0 - s0)) with (t0 + d0) by lia. replace (mi1 m + (end1 n - mi1 m)) with (end1 n) by lia. by replace (mi2 m + (end2 n - mi2 m)) with (end2 n) by lia.
  - destruct (Z.eqb_spec (mode m) 0); cbn [negb orb]; [|done]. destruct (negb (mode n =? 0)); [done|]. destruct (Z.ltb_spec 3 (mi1 n - end1 m)); [|by intros _]. destruct b; cbn [negb]; [|done].
    eapply wp_mono; [|apply contain_alnum_wp; lia]. done.
Qed.

Lemma refine_wp ms lo : laid true 0 0 0 ms → apart lo ms →
  returns (refine x1 x2 xmp malloc ms) (λ r, match r with Some ms' => laid (shows_base xmp) 0 0 0 ms' ∧ apart lo ms' | None => XDF_DIFF_ALG flags = XDF_HISTOGRAM_DIFF end).
Proof.
  intros Hl Hap. unfold refine. destruct (Z.eqb_spec (style xmp) XDL_MERGE_ZEALOUS_DIFF3) as [Es|Ns].
  { assert (shows_base xmp = true) as -> by (unfold shows_base; rewrite Es; done). apply wp_bind. eapply wp_mono; [|by apply refine_zdiff3_wp]. done. }
  unfold the_level. destruct (shows_base xmp) eqn:Eb.
  { rewrite (proj2 (Z.leb_gt XDL_MERGE_ZEALOUS _)); [done|]. unfold XDL_MERGE_EAGER, XDL_MERGE_ZEALOUS. destruct (Z.ltb_spec 1 (level xmp)); lia. }
  apply laid_forget in Hl. destruct (XDL_MERGE_ZEALOUS <=? level xmp); [|done]. apply wp_bind. eapply wp_mono; [|by apply refine_conflicts_wp]. intros [ms'|] Hms; [|done]. destruct Hms as [Hms Hap'].
  apply wp_bind. destruct ms' as [|m ms']; [done|]. cbn [xdl_simplify_non_conflicts]. eapply wp_mono; [|by apply simplify_loop_wp]. done.
Qed.
End zealous.
End refine.
End XdlMergeChunks.
