(* ===== verification/XdlMergeOut.v ===== *)
(** * The result of a merge

    What a three-way merge means: the ancestor and both files are cut into
    pieces, and a piece is taken as both files have it, or from the file that
    changed it, or shown as a conflict.  The two passes that write the result
    agree on its size, and it is the text of such pieces. *)
From stdpp Require Import prelude.
From S2P Require Import Prelude XdlUtils XdlPrepare XdlCompact XdlMyers XdlRegion XdlScript XdlEmit XdlPatch XdlMerge XdlMergeChunks.
Import XdlUtils XdlPrepare XdlCompact XdlMyers XdlRegion XdlScript XdlEmit XdlPatch XdlMerge XdlMergeChunks.

Module XdlMergeOut.

(** ** Pieces *)
Inductive verdict := Agreed | Ours | Theirs | Clash (crlf : bool).
Record piece := Piece { pbase : list (list Z); pours : list (list Z); ptheirs : list (list Z); pverdict : verdict }.
Definition three_way (p : piece) : Prop :=
  match pverdict p with
  | Agreed => pours p = ptheirs p
  | Ours => pbase p = ptheirs p
  | Theirs => pbase p = pours p
  | Clash _ => True
  end.

Definition eol (crlf : bool) : list Z := if crlf then [13; 10] else [10].
(** Lines that end in a newline. *)
Definition block (crlf : bool) (ls : list (list Z)) : list Z :=
  concat ls ++ match last ls with Some l => if bool_decide (last l = Some 10) then [] else eol crlf | None => [] end.
Section text.
Context (xmp : xmparam_t).
Definition marker_line (c : Z) (name : option (list Z)) (crlf : bool) : list Z :=
  zrep (marker_length xmp) c ++ match name with Some n => 32 :: n | None => [] end ++ eol crlf.
Definition clash_text (crlf : bool) (p : piece) : list Z :=
  if favor xmp =? XDL_MERGE_FAVOR_OURS then concat (pours p)
  else if favor xmp =? XDL_MERGE_FAVOR_THEIRS then concat (ptheirs p)
  else if favor xmp =? XDL_MERGE_FAVOR_UNION then block crlf (pours p) ++ concat (ptheirs p)
  else
    marker_line 60 (file1 xmp) crlf ++ block crlf (pours p) ++
    (if shows_base xmp then marker_line 124 (ancestor xmp) crlf ++ block crlf (pbase p) else []) ++
    marker_line 61 None crlf ++ block crlf (ptheirs p) ++ marker_line 62 (file2 xmp) crlf.
Definition piece_text (p : piece) : list Z :=
  match pverdict p with
  | Agreed | Ours => concat (pours p)
  | Theirs => concat (ptheirs p)
  | Clash crlf => clash_text crlf p
  end.
Definition is_clash (p : piece) : bool := match pverdict p with Clash _ => true | _ => false end.

(** *** How long the text can be *)
Definition label_text (name : option (list Z)) : list Z := match name with Some n => 32 :: n | None => [] end.
(** What the markers of one conflict, and the ends of line that its sides may
    lack, add. *)
Definition conflict_overhead : Z :=
  4 * (marker_length xmp + 2) + zlen (label_text (file1 xmp)) + zlen (label_text (ancestor xmp)) + zlen (label_text (file2 xmp)) + 6.
Lemma marker_pos : 0 <= marker_length xmp.
Proof. unfold marker_length. destruct (Z.leb_spec (marker_size xmp) 0); [done|lia]. Qed.
Lemma eol_len crlf : 1 <= zlen (eol crlf) <= 2.
Proof. by destruct crlf. Qed.
Lemma block_len crlf ls : zlen (block crlf ls) <= zlen (concat ls) + 2.
Proof. unfold block. rewrite zlen_app. pose proof (eol_len crlf). destruct (last ls); [case_bool_decide|]; rewrite ?zlen_nil; lia. Qed.
Lemma marker_line_len c name crlf : zlen (marker_line c name crlf) <= marker_length xmp + 2 + zlen (label_text name).
Proof. unfold marker_line. fold (label_text name). rewrite !zlen_app, zlen_zrep by apply marker_pos. pose proof (eol_len crlf). lia. Qed.
Lemma piece_text_len p : zlen (piece_text p) <= zlen (concat (pbase p)) + zlen (concat (pours p)) + zlen (concat (ptheirs p)) + (if is_clash p then conflict_overhead else 0).
Proof.
  pose proof (zlen_nonneg (concat (pbase p))). pose proof (zlen_nonneg (concat (pours p))). pose proof (zlen_nonneg (concat (ptheirs p))). unfold piece_text, is_clash. destruct (pverdict p) as [| | |crlf]; try lia. unfold clash_text, conflict_overhead.
  pose proof marker_pos. pose proof (zlen_nonneg (label_text (file1 xmp))). pose proof (zlen_nonneg (label_text (ancestor xmp))). pose proof (zlen_nonneg (label_text (file2 xmp))). pose proof (block_len crlf (pours p)).
  destruct (favor xmp =? XDL_MERGE_FAVOR_OURS); [lia|]. destruct (favor xmp =? XDL_MERGE_FAVOR_THEIRS); [lia|]. destruct (favor xmp =? XDL_MERGE_FAVOR_UNION); [rewrite zlen_app; lia|].
  pose proof (block_len crlf (ptheirs p)). pose proof (block_len crlf (pbase p)). pose proof (marker_line_len 60 (file1 xmp) crlf). pose proof (marker_line_len 124 (ancestor xmp) crlf). pose proof (marker_line_len 61 None crlf). pose proof (marker_line_len 62 (file2 xmp) crlf).
  change (zlen (label_text None)) with 0 in *. rewrite !zlen_app. destruct (shows_base xmp); rewrite ?zlen_app, ?zlen_nil; lia.
Qed.
Lemma text_len ps : zlen (concat (piece_text <$> ps)) <= zlen (concat (concat (pbase <$> ps))) + zlen (concat (concat (pours <$> ps))) + zlen (concat (concat (ptheirs <$> ps))) + zlen (filter (λ p, is_clash p = true) ps) * conflict_overhead.
Proof.
  induction ps as [|p ps IH]; [done|]. rewrite !fmap_cons. cbn [concat]. rewrite !concat_app, !zlen_app. pose proof (piece_text_len p). rewrite filter_cons. destruct (is_clash p); [rewrite decide_True, zlen_cons by done|rewrite decide_False by done]; lia.
Qed.
End text.

(** ** Writers

    A step that writes [w] at [size]: without a buffer it counts, with one it
    fills exactly the place of [w].  Sizes are [int]s. *)
Definition int_max : Z := 2 ^ 31.
Definition filled (w : list Z) (size : Z) (d d' : option (list Z)) : Prop :=
  d = None ∧ d' = None ∨ ∃ pre junk post, size = zlen pre ∧ zlen junk = zlen w ∧ d = Some (pre ++ junk ++ post) ∧ d' = Some (pre ++ w ++ post).
Definition writer := Z → option (list Z) → outcome (Z * option (list Z)).
Definition writes (f : writer) (w : list Z) : Prop :=
  ∀ size d d', 0 <= size → size + zlen w < int_max → filled w size d d' → f size d = Ret (size + zlen w, d').

Lemma memcpy_at {A} (pre junk post bytes : list A) : zlen junk = zlen bytes → memcpy (pre ++ junk ++ post) (zlen pre) bytes = Ret (pre ++ bytes ++ post).
Proof.
  intros E. unfold memcpy. rewrite !zlen_app. pose proof (zlen_nonneg pre). pose proof (zlen_nonneg post). destruct (Z.leb_spec 0 (zlen pre)), (Z.leb_spec (zlen pre + zlen bytes) (zlen pre + (zlen junk + zlen post))); try lia. cbn [andb].
  rewrite ztake_app_len. rewrite <- E, <- zlen_app, (app_assoc pre junk post), zdrop_app_len. done.
Qed.
Lemma filled_nil size d d' : filled [] size d d' → d' = d.
Proof. intros [[-> ->]|(pre & junk & post & _ & E & -> & ->)]; [done|]. destruct junk; [done|]. rewrite zlen_nil, zlen_cons in E. pose proof (zlen_nonneg junk). lia. Qed.
Lemma filled_app w w' size d d' : filled (w ++ w') size d d' → ∃ dm, filled w size d dm ∧ filled w' (size + zlen w) dm d'.
Proof.
  intros [[-> ->]|(pre & junk & post & -> & E & -> & ->)]; [exists None; split; by left|]. rewrite zlen_app in E. pose proof (zlen_nonneg w). pose proof (zlen_nonneg w').
  exists (Some (pre ++ w ++ zdrop (zlen w) junk ++ post)). split; right.
  - exists pre, (ztake (zlen w) junk), (zdrop (zlen w) junk ++ post). split; [done|]. split; [rewrite zlen_ztake; lia|]. by rewrite (app_assoc (ztake _ _)), ztake_zdrop.
  - exists (pre ++ w), (zdrop (zlen w) junk), post. rewrite zlen_app, zlen_zdrop, <- !app_assoc by lia. split; [done|]. split; [lia|done].
Qed.
Lemma put_filled w size d d' : filled w size d d' → put d size w = Ret d'.
Proof. intros [[-> ->]|(pre & junk & post & -> & E & -> & ->)]; [done|]. cbn [put]. by rewrite memcpy_at. Qed.
Lemma writes_nil : writes (λ size dest, Ret (size, dest)) [].
Proof. intros size d d' _ _ H. apply filled_nil in H as ->. by rewrite zlen_nil, Z.add_0_r. Qed.
Lemma writes_seq f g w w' : writes f w → writes g w' → writes (λ size dest, let! (size, dest) := f size dest in g size dest) (w ++ w').
Proof.
  intros Hf Hg size d d' Hs Hb H. rewrite zlen_app in *. pose proof (zlen_nonneg w). pose proof (zlen_nonneg w'). destruct (filled_app _ _ _ _ _ H) as (dm & F1 & F2).
  rewrite (Hf size d dm Hs ltac:(lia) F1). cbn [obind]. rewrite (Hg (size + zlen w) dm d' ltac:(lia) ltac:(lia) F2). do 2 f_equal. lia.
Qed.
Lemma writes_ext f g w : (∀ size dest, f size dest = g size dest) → writes f w → writes g w.
Proof. intros E H size d d' ? ? ?. rewrite <- E. by apply H. Qed.
(** The next [size + zlen w] fits an [int]. *)
Lemma step_add size (w : list Z) : 0 <= size → size + zlen w < int_max → int_add size (zlen w) = Ret (size + zlen w).
Proof. unfold int_max. intros. apply int_add_ok. pose proof (zlen_nonneg w). lia. Qed.
Lemma put_writes bytes : writes (λ size dest, let! dest := put dest size bytes in let! size := int_add size (zlen bytes) in Ret (size, dest)) bytes.
Proof. intros size d d' Hs Hb H. rewrite (put_filled _ _ _ _ H). cbn [obind]. by rewrite step_add. Qed.

(** ** Copying lines *)
Lemma copy_loop_writes recs n : ∀ i at_ size d d', 0 <= i → i + Z.of_nat n <= zlen recs → let w := concat (zslice i (Z.of_nat n) (line <$> recs)) in
  0 <= size → size + zlen w < int_max → filled w (at_ + size) d d' → copy_loop n recs i d at_ size = Ret (size + zlen w, d').
Proof.
  induction n as [|n IH]; intros i at_ size d d' Hi Hn; cbn [copy_loop]; cbn zeta.
  { change (zslice i (Z.of_nat 0) (line <$> recs)) with (@nil (list Z)). cbn [concat]. intros _ _ H. apply filled_nil in H as ->. by rewrite zlen_nil, Z.add_0_r. }
  destruct (znth_is_Some recs i) as [r Er]; [lia|]. rewrite (rd_znth _ _ _ Er). cbn [obind].
  assert (zslice i (Z.of_nat (S n)) (line <$> recs) = line r :: zslice (i + 1) (Z.of_nat n) (line <$> recs)) as ->.
  { replace (Z.of_nat (S n)) with (1 + Z.of_nat n) by lia. rewrite zslice_app by lia. unfold zslice at 1. rewrite (zdrop_cons _ i (line r)); [done|done|]. unfold znth in *. destruct (0 <=? i); [|done]. by rewrite list_lookup_fmap, Er. }
  cbn [concat]. rewrite zlen_app. intros Hs Hb H. destruct (filled_app _ _ _ _ _ H) as (dm & H1 & H2). rewrite (put_filled _ _ _ _ H1). cbn [obind].
  pose proof (zlen_nonneg (line r)). pose proof (zlen_nonneg (concat (zslice (i + 1) (Z.of_nat n) (line <$> recs)))). rewrite i32_small by (unfold int_max in Hb; lia).
  rewrite (IH (i + 1) at_ (size + zlen (line r)) dm d') by (try lia; by rewrite Z.add_assoc). do 2 f_equal. lia.
Qed.

Definition copied (crlf nl : bool) (ls : list (list Z)) : list Z := if nl then block crlf ls else concat ls.
Lemma last_slice {A} (l : list A) i n r : 0 <= i → 0 < n → znth l (i + n - 1) = Some r → last (zslice i n l) = Some r.
Proof.
  intros Hi Hn Er. pose proof (znth_Some_lt _ _ _ Er). replace n with (n - 1 + 1) by lia. rewrite zslice_app by lia. unfold zslice at 2. rewrite (zdrop_cons l (i + (n - 1)) r); [|lia|by replace (i + (n - 1)) with (i + n - 1) by lia].
  unfold ztake at 1. cbn [Z.to_nat Pos.to_nat Pos.iter_op take]. apply last_snoc.
Qed.
Lemma last_len (ls : list (list Z)) l : last ls = Some l → zlen l <= zlen (concat ls).
Proof. intros [ls' ->]%last_Some. rewrite concat_app, zlen_app. cbn. rewrite app_nil_r. pose proof (zlen_nonneg (concat ls')). lia. Qed.
(** The test for a missing newline. *)
Definition lacks_nl (l : list Z) : bool := negb (bool_decide (last l = Some 10)).
Lemma lacks_nl_test l : zlen l < int_max → (if i32 (zlen l) =? 0 then Ret true else let! c := rd l (i32 (zlen l) - 1) in Ret (negb (c =? 10))) = Ret (lacks_nl l).
Proof.
  intros Hl. pose proof (zlen_nonneg l). rewrite i32_small by (unfold int_max in Hl; lia). unfold lacks_nl. destruct (Z.eqb_spec (zlen l) 0) as [E|N]; [destruct l as [|x l]; [done|rewrite zlen_cons in E; pose proof (zlen_nonneg l); lia]|].
  destruct (znth_is_Some l (zlen l - 1)) as [c Ec]; [lia|]. rewrite (rd_znth _ _ _ Ec). cbn [obind]. do 2 f_equal.
  assert (last l = Some c) as ->. { rewrite last_lookup. unfold znth in Ec. destruct (0 <=? zlen l - 1); [|done]. rewrite <- Ec. f_equal. unfold zlen. lia. }
  destruct (Z.eqb_spec c 10) as [->|]; symmetry; [by apply bool_decide_eq_true|apply bool_decide_eq_false; congruence].
Qed.
(** The end of a line after [n] bytes from [at_]. *)
Lemma eol_filled crlf at_ n d d' : 0 <= n → n + zlen (eol crlf) < int_max → filled (eol crlf) (at_ + n) d d' →
  (let! (size, dest) := if (crlf : bool) then let! dest := put d (at_ + n) [13] in let! size := int_add n 1 in Ret (size, dest) else Ret (n, d) in
   let! dest := put dest (at_ + size) [10] in let! size := int_add size 1 in Ret (size, dest)) = Ret (n + zlen (eol crlf), d').
Proof.
  unfold int_max. intros Hn Hb H. destruct crlf; cbn [eol] in *; [|change (zlen [10]) with 1 in *; cbn [obind]; rewrite (put_filled _ _ _ _ H); cbn [obind]; by rewrite int_add_ok by lia].
  change (zlen [13; 10]) with 2 in *. destruct (filled_app [13] [10] _ _ _ H) as (dm & H1 & H2). rewrite (put_filled _ _ _ _ H1). cbn [obind]. rewrite int_add_ok by lia. cbn [obind].
  change (zlen [13]) with 1 in H2. rewrite <- Z.add_assoc in H2. rewrite (put_filled _ _ _ _ H2). cbn [obind]. rewrite int_add_ok by lia. cbn [obind]. do 2 f_equal. lia.
Qed.

Lemma copy_writes recs i count crlf nl : 0 <= i → 0 <= count → i + count <= zlen recs → zlen recs < int_max →
  writes (copy_at recs i count crlf nl) (copied crlf nl (zslice i count (line <$> recs))).
Proof.
  intros Hi Hc Hn Hrec size d d' Hs Hb H. unfold copy_at, xdl_recs_copy_0. rewrite !i32_small by (unfold int_max in Hrec; lia). destruct (Z.ltb_spec count 1) as [H1|H1].
  { replace count with 0 in * by lia. change (zslice i 0 (line <$> recs)) with (@nil (list Z)) in *. assert (copied crlf nl [] = []) as E by (by destruct nl). rewrite E in *. apply filled_nil in H as ->. cbn [obind]. change 0 with (zlen (@nil Z)) at 1. by rewrite step_add. }
  destruct (znth_is_Some recs (i + count - 1)) as [r Er]; [lia|]. set (w := concat (zslice i count (line <$> recs))).
  assert (last (zslice i count (line <$> recs)) = Some (line r)) as El.
  { apply last_slice; [done|lia|]. unfold znth in *. destruct (0 <=? i + count - 1); [|done]. by rewrite list_lookup_fmap, Er. }
  pose proof (last_len _ _ El) as Hlast. fold w in Hlast.
  assert (copied crlf nl (zslice i count (line <$> recs)) = w ++ (if nl && lacks_nl (line r) then eol crlf else [])) as E.
  { unfold copied, block, w, lacks_nl. rewrite El. destruct nl; cbn [andb]; [|by rewrite app_nil_r]. by case_bool_decide. }
  rewrite E in *. destruct (filled_app _ _ _ _ _ H) as (dm & Hw & He). set (e := if nl && lacks_nl (line r) then eol crlf else []) in *. rewrite zlen_app in *. pose proof (zlen_nonneg w). pose proof (zlen_nonneg e).
  rewrite (copy_loop_writes recs (Z.to_nat count) i size 0 d dm); rewrite ?Z2Nat.id by lia; fold w; try lia; [|by rewrite Z.add_0_r]. cbn [obind]. rewrite Z.add_0_l.
  assert (int_add size (zlen w + zlen e) = Ret (size + (zlen w + zlen e))) as Eadd by (unfold int_max in Hb; apply int_add_ok; lia).
  destruct nl; cbn [andb] in e; [|apply filled_nil in He as ->; cbn [obind]; change (zlen e) with 0 in *; rewrite Z.add_0_r in *; by rewrite Eadd].
  rewrite (rd_znth _ _ _ Er). cbn [obind]. cbn zeta. rewrite lacks_nl_test by lia. cbn [obind]. destruct (lacks_nl (line r)); [|apply filled_nil in He as ->; cbn [obind]; change (zlen e) with 0 in *; rewrite Z.add_0_r in *; by rewrite Eadd].
  rewrite (eol_filled crlf size (zlen w) dm d'); [|lia|fold e; lia|done]. cbn [obind]. fold e. by rewrite Eadd.
Qed.

(** ** Markers *)
Lemma label_size_len name : zlen (label_text name) < int_max → label_size name = zlen (label_text name).
Proof. destruct name as [n|]; [|done]. cbn [label_text label_size]. rewrite zlen_cons. unfold int_max. intros. pose proof (zlen_nonneg n). rewrite i32_small; lia. Qed.
Lemma put_label_filled name pre junk post : zlen junk = zlen (label_text name) → zlen pre + zlen (label_text name) < int_max →
  put_label name (zlen pre) (pre ++ junk ++ post) = Ret (zlen pre + zlen (label_text name), pre ++ label_text name ++ post).
Proof.
  intros E Hb. pose proof (zlen_nonneg pre). pose proof (label_size_len name ltac:(lia)) as El. unfold put_label. destruct name as [n|].
  - rewrite El. cbn [label_text] in *. rewrite zlen_cons in *. pose proof (zlen_nonneg n). rewrite (proj2 (Z.eqb_neq _ _)) by lia. rewrite (proj2 (Z.ltb_ge _ _)) by lia.
    assert (filled ([32] ++ n) (zlen pre) (Some (pre ++ junk ++ post)) (Some (pre ++ ([32] ++ n) ++ post))) as F by (right; exists pre, junk, post; cbn [app]; by rewrite zlen_cons).
    destruct (filled_app _ _ _ _ _ F) as (dm & F1 & F2). pose proof (put_filled _ _ _ _ F1) as P1. cbn [put] in P1. apply obind_Ret_inv in P1 as (d1 & -> & [= <-]). cbn [obind].
    replace (1 + zlen n - 1) with (zlen n) by lia. rewrite ztake_all by lia. pose proof (put_filled _ _ _ _ F2) as P2. cbn [put] in P2. apply obind_Ret_inv in P2 as (d2 & E2 & [= ->]). change (zlen [32]) with 1 in E2. rewrite E2. cbn [obind].
    unfold int_max in Hb. by rewrite int_add_ok by lia.
  - cbn [label_text] in *. rewrite zlen_nil in *. destruct junk as [|x junk]; [by rewrite Z.add_0_r|]. rewrite zlen_cons in E. pose proof (zlen_nonneg junk). lia.
Qed.
Lemma marker_writes xmp c name crlf : writes (put_marker xmp c name crlf) (marker_line xmp c name crlf).
Proof.
  pose proof (marker_pos xmp) as Hm. unfold marker_line. change (match name with Some n => 32 :: n | None => [] end) with (label_text name).
  intros size d d' Hs Hb H. pose proof (zlen_nonneg (label_text name)). assert (zlen (eol crlf) = Z.b2z crlf + 1) as Ee by (by destruct crlf). assert (0 <= Z.b2z crlf <= 1) by (destruct crlf; cbn; lia).
  rewrite !zlen_app, zlen_zrep, Ee in * by done. unfold int_max in Hb. pose proof (label_size_len name ltac:(unfold int_max; lia)) as El. unfold put_marker. destruct H as [[-> ->]|H].
  { rewrite El, (int_add_ok (marker_length xmp)) by lia. cbn [obind]. rewrite (int_add_ok (marker_length xmp + 1)) by lia. cbn [obind]. rewrite (int_add_ok (marker_length xmp + 1 + _)) by lia. cbn [obind]. rewrite int_add_ok by lia. cbn [obind]. do 2 f_equal. lia. }
  destruct (filled_app _ _ _ _ _ (or_intror H)) as (dm & F1 & F). destruct (filled_app _ _ _ _ _ F) as (dm' & F2 & F3). rewrite zlen_zrep in * by done.
  pose proof (put_filled _ _ _ _ F1) as P1. destruct H as (pre & junk & post & -> & E & -> & ->). cbn [put] in P1. apply obind_Ret_inv in P1 as (d1 & -> & [= <-]). cbn [obind]. rewrite int_add_ok by lia. cbn [obind].
  destruct F2 as [[? _]|(pre2 & junk2 & post2 & E2 & J2 & [= ->] & ->)]; [done|]. rewrite E2, put_label_filled by (unfold int_max; lia). cbn [obind].
  pose proof (eol_filled crlf 0 (zlen pre2 + zlen (label_text name)) _ _ ltac:(pose proof (zlen_nonneg pre2); lia) ltac:(unfold int_max; lia) ltac:(rewrite Z.add_0_l, <- E2; exact F3)) as P3. rewrite Ee in P3.
  replace (zlen pre + (marker_length xmp + (zlen (label_text name) + (Z.b2z crlf + 1)))) with (zlen pre + marker_length xmp + zlen (label_text name) + (Z.b2z crlf + 1)) by lia. rewrite E2, <- P3.
  destruct crlf; cbn [put obind]; rewrite ?Z.add_0_l; repeat (match goal with |- context [obind (memcpy ?l ?i ?w) _] => destruct (memcpy l i w) | |- context [obind (int_add ?a ?b) _] => destruct (int_add a b) end; cbn [obind put]; rewrite ?Z.add_0_l); done.
Qed.

(** ** The end of a line *)
Lemma line_crlf_wp r : returns (line_crlf r) (λ n, n = 0 ∨ n = 1).
Proof. unfold line_crlf. destruct (Z.ltb_spec 1 (zlen (line r))); [|by left]. apply wp_bind, rd_wp; [lia|]. intros c _. cbn. destruct (c =? 13); cbn; lia. Qed.
Lemma is_eol_crlf_wp x i : nrec x = zlen (line <$> recs x) → 0 <= i → i < nrec x ∨ i = 0 → returns (is_eol_crlf x i) (λ n, -1 <= n <= 1).
Proof.
  intros N Hi Hn. rewrite zlen_fmap in N. unfold is_eol_crlf. assert (∀ r, returns (line_crlf r) (λ n, -1 <= n <= 1)) as Hr by (intros r; eapply wp_mono; [|apply line_crlf_wp]; intros n Hn'; cbn beta in Hn'; lia).
  destruct (Z.ltb_spec i (nrec x - 1)); [apply wp_bind, rd_wp; [lia|]; intros r _; apply Hr|]. destruct (Z.eqb_spec (nrec x) 0); [cbn; lia|].
  pose proof (zlen_nonneg (recs x)). apply wp_bind, rd_wp; [lia|]. intros r _. apply wp_bind, (wp_mono _ _ (λ _, True)).
  - intros lf _. destruct (lf : bool); [apply Hr|]. destruct (Z.eqb_spec i 0); [cbn; lia|]. apply wp_bind, rd_wp; [lia|]. intros r' _. apply Hr.
  - destruct (Z.eqb_spec (zlen (line r)) 0); [done|]. pose proof (zlen_nonneg (line r)). apply wp_bind, rd_wp; [lia|]. done.
Qed.

Section fill.
Context (P : Prop) (x0 x1 x2 : xdfile_t) (xmp : xmparam_t).
Context (N0 : nrec x0 = zlen (line <$> recs x0)) (N1 : nrec x1 = zlen (line <$> recs x1)) (N2 : nrec x2 = zlen (line <$> recs x2)).
Context (B0 : nrec x0 < int_max) (B1 : nrec x1 < int_max) (B2 : nrec x2 < int_max).
Abbreviation O := (line <$> recs x0).
Abbreviation A := (line <$> recs x1).
Abbreviation B := (line <$> recs x2).
Abbreviation laid := (laid O A B P).
Abbreviation end1 m := (mi1 m + mchg1 m).
Abbreviation end2 m := (mi2 m + mchg2 m).

Lemma is_cr_needed_ok m : 0 <= mi1 m <= nrec x1 → 0 <= mi2 m <= nrec x2 → ∃ cr, is_cr_needed x0 x1 x2 m = Ret cr.
Proof.
  intros H1 H2. assert (returns (is_cr_needed x0 x1 x2 m) (λ _, True)) as W; [|apply returns_eq in W as (cr & E & _); by exists cr]. unfold is_cr_needed.
  rewrite !i32_small by (unfold int_max in *; first [destruct (Z.eqb_spec (mi1 m) 0); lia|destruct (Z.eqb_spec (mi2 m) 0); lia]).
  apply wp_bind. eapply wp_mono; [|apply is_eol_crlf_wp; [done|destruct (Z.eqb_spec (mi1 m) 0); lia..]]. intros n _.
  apply wp_bind, (wp_mono _ _ (λ _, True)); [intros n' _; apply wp_bind, (wp_mono _ _ (λ _, True)); [done|]|].
  - destruct (negb (n' =? 0)); [|done]. eapply wp_mono; [|apply is_eol_crlf_wp; [done|lia|by right]]. done.
  - destruct (negb (n =? 0)); [|done]. eapply wp_mono; [|apply is_eol_crlf_wp; [done|destruct (Z.eqb_spec (mi2 m) 0); lia..]]. done.
Qed.

(** The pieces of a gap and of a chunk. *)
Definition gap_piece (e0 s0 e1 e2 k : Z) : piece := Piece (zslice e0 (s0 - e0) O) (zslice e1 k A) (zslice e2 k B) Agreed.
Definition chunk_piece (m : xdmerge_t) (s0 c0 : Z) (cr : bool) : piece :=
  Piece (zslice s0 c0 O) (zslice (mi1 m) (mchg1 m) A) (zslice (mi2 m) (mchg2 m) B)
    (if mode m =? 0 then Clash cr else if mode m =? 1 then Ours else if mode m =? 2 then Theirs else Agreed).

Definition copies (i : Z) (m : xdmerge_t) (w : list Z) : list Z := concat (zslice i (mi1 m - i) A) ++ w.
Lemma conflict_writes i m s0 c0 : 0 <= i <= mi1 m → 0 <= mchg1 m → end1 m <= nrec x1 → 0 <= mi2 m → 0 <= mchg2 m → end2 m <= nrec x2 → 0 <= s0 → 0 <= c0 → s0 + c0 <= nrec x0 →
  (shows_base xmp = true → mi0 m = s0 ∧ mchg0 m = c0) → favor xmp = 0 → mode m = 0 →
  ∃ cr, writes (λ size dest, fill_conflict_hunk x0 x1 x2 xmp size i m dest) (copies i m (piece_text xmp (chunk_piece m s0 c0 cr))).
Proof.
  intros Hi Hc1 He1 Hi2 Hc2 He2 Hs0 Hc0 He0 Hb Hf Hm. destruct (is_cr_needed_ok m) as [cr Ecr]; [lia|lia|]. exists cr. rewrite zlen_fmap in N0, N1, N2.
  unfold copies, piece_text, chunk_piece. rewrite Hm. cbn [Z.eqb pverdict]. unfold clash_text. rewrite Hf. cbn [pours ptheirs pbase Z.eqb XDL_MERGE_FAVOR_OURS XDL_MERGE_FAVOR_THEIRS XDL_MERGE_FAVOR_UNION].
  pose proof (copy_writes (recs x1) i (mi1 m - i) false false ltac:(lia) ltac:(lia) ltac:(lia) ltac:(lia)) as W1. pose proof (copy_writes (recs x1) (mi1 m) (mchg1 m) cr true ltac:(lia) ltac:(lia) ltac:(lia) ltac:(lia)) as W2.
  pose proof (copy_writes (recs x2) (mi2 m) (mchg2 m) cr true ltac:(lia) ltac:(lia) ltac:(lia) ltac:(lia)) as W3. cbn [copied] in W1, W2, W3.
  assert (writes (λ size dest, if shows_base xmp then let! (size, dest) := put_marker xmp 124 (ancestor xmp) cr size dest in copy_at (recs x0) (mi0 m) (mchg0 m) cr true size dest else Ret (size, dest))
    (if shows_base xmp then marker_line xmp 124 (ancestor xmp) cr ++ block cr (zslice s0 c0 O) else [])) as W4.
  { destruct (shows_base xmp); [|apply writes_nil]. destruct (Hb eq_refl) as [-> ->]. apply writes_seq; [apply marker_writes|]. apply (copy_writes (recs x0) s0 c0 cr true); lia. }
  eapply writes_ext; [|exact (writes_seq _ _ _ _ W1 (writes_seq _ _ _ _ (marker_writes xmp 60 (file1 xmp) cr) (writes_seq _ _ _ _ W2 (writes_seq _ _ _ _ W4
    (writes_seq _ _ _ _ (marker_writes xmp 61 None cr) (writes_seq _ _ _ _ W3 (marker_writes xmp 62 (file2 xmp) cr)))))))].
  intros size dest. unfold fill_conflict_hunk. rewrite Ecr. done.
Qed.

(** A chunk that is taken, in mode 1, 2 or 3. *)
Definition side_text (md : Z) (cr : bool) (m : xdmerge_t) : list Z :=
  let ours := zslice (mi1 m) (mchg1 m) A in let theirs := zslice (mi2 m) (mchg2 m) B in
  if md =? 1 then concat ours else if md =? 2 then concat theirs else block cr ours ++ concat theirs.
Definition take_chunk (i : Z) (m : xdmerge_t) : writer := λ size dest,
  let! (size, dest) := copy_at (recs x1) i (mi1 m - i) false false size dest in
  let! (size, dest) :=
    if negb (Z.land (mode m) 1 =? 0) then
      let! needs_cr := is_cr_needed x0 x1 x2 m in
      copy_at (recs x1) (mi1 m) (mchg1 m) needs_cr (negb (Z.land (mode m) 2 =? 0)) size dest
    else Ret (size, dest) in
  if negb (Z.land (mode m) 2 =? 0) then copy_at (recs x2) (mi2 m) (mchg2 m) false false size dest else Ret (size, dest).
Lemma take_writes i m : 0 <= i <= mi1 m → 0 <= mchg1 m → end1 m <= nrec x1 → 0 <= mi2 m → 0 <= mchg2 m → end2 m <= nrec x2 → 1 <= mode m <= 3 →
  ∃ cr, writes (take_chunk i m) (copies i m (side_text (mode m) cr m)).
Proof.
  intros Hi Hc1 He1 Hi2 Hc2 He2 Hm. destruct (is_cr_needed_ok m) as [cr Ecr]; [lia|lia|]. exists cr. rewrite zlen_fmap in N1, N2. unfold take_chunk, copies, side_text. rewrite Ecr. cbn [obind].
  pose proof (copy_writes (recs x1) i (mi1 m - i) false false ltac:(lia) ltac:(lia) ltac:(lia) ltac:(lia)) as W1. pose proof (λ nl, copy_writes (recs x1) (mi1 m) (mchg1 m) cr nl ltac:(lia) ltac:(lia) ltac:(lia) ltac:(lia)) as W2.
  pose proof (copy_writes (recs x2) (mi2 m) (mchg2 m) false false ltac:(lia) ltac:(lia) ltac:(lia) ltac:(lia)) as W3. cbn [copied] in W1, W3.
  assert (mode m = 1 ∨ mode m = 2 ∨ mode m = 3) as [-> |[-> | ->]] by lia.
  - change (negb (Z.land 1 1 =? 0)) with true. change (negb (Z.land 1 2 =? 0)) with false. cbn match.
    eapply writes_ext; [|exact (writes_seq _ _ _ _ W1 (W2 false))]. intros size dest. cbn beta. destruct (copy_at (recs x1) i (mi1 m - i) false false size dest) as [[s d]| | |]; cbn [obind]; try done. by destruct (copy_at _ _ _ _ _ s d) as [[? ?]| | |].
  - exact (writes_seq _ _ _ _ W1 (writes_seq _ _ _ _ writes_nil W3)).
  - exact (writes_seq _ _ _ _ W1 (writes_seq _ _ _ _ (W2 true) W3)).
Qed.

Definition favored (m : xdmerge_t) : xdmerge_t := if negb (favor xmp =? 0) && (mode m =? 0) then with_mode m (favor xmp) else m.
(** What the loop does with one chunk. *)
Definition chunk_step (i : Z) (m : xdmerge_t) (size : Z) (dest : option (list Z)) : outcome (Z * Z * option (list Z)) :=
  if mode m =? 0 then let! (size, dest) := fill_conflict_hunk x0 x1 x2 xmp size i m dest in Ret (size, i32 (end1 m), dest)
  else if negb (Z.land (mode m) 3 =? 0) then let! (size, dest) := take_chunk i m size dest in Ret (size, i32 (end1 m), dest)
  else Ret (size, i, dest).
Lemma fill_loop_cons m ms size i dest : fill_loop x0 x1 x2 xmp (m :: ms) size i dest =
  let! (size, i, dest) := chunk_step i (favored m) size dest in let! (size, i, dest, ms) := fill_loop x0 x1 x2 xmp ms size i dest in Ret (size, i, dest, favored m :: ms).
Proof.
  cbn [fill_loop]. unfold chunk_step. change (if negb (favor xmp =? 0) && (mode m =? 0) then with_mode m (favor xmp) else m) with (favored m). destruct (mode (favored m) =? 0); [done|].
  destruct (negb (Z.land (mode (favored m)) 3 =? 0)); [|done]. unfold take_chunk. destruct (copy_at (recs x1) i (mi1 (favored m) - i) false false size dest) as [[s d]| | |]; cbn [obind]; try done.
  destruct (negb (Z.land (mode (favored m)) 1 =? 0)).
  - destruct (is_cr_needed x0 x1 x2 (favored m)); cbn [obind]; try done. destruct (copy_at (recs x1) (mi1 (favored m)) _ _ _ _ _) as [[? ?]| | |]; cbn [obind]; done.
  - done.
Qed.
Lemma favored_idem m : favor xmp = 0 ∨ 1 <= favor xmp <= 3 → favored (favored m) = favored m.
Proof. intros Hf. unfold favored. destruct (Z.eqb_spec (favor xmp) 0); [done|]. cbn [negb andb]. destruct (Z.eqb_spec (mode m) 0) as [|N]; cbn [with_mode mode]; [by rewrite (proj2 (Z.eqb_neq _ _))|]. by rewrite (proj2 (Z.eqb_neq _ _) N). Qed.

Context (Hfav : 0 <= favor xmp <= 3).
Lemma chunk_step_writes i m s0 c0 : 0 <= i <= mi1 m → chunk_ok O A B P m s0 c0 → end1 m <= nrec x1 → 0 <= mi2 m → end2 m <= nrec x2 → 0 <= s0 → 0 <= c0 → s0 + c0 <= nrec x0 →
  (shows_base xmp = true → mi0 m = s0 ∧ mchg0 m = c0) →
  ∃ cr f w j, (∀ size dest, chunk_step i (favored m) size dest = let! (size, dest) := f size dest in Ret (size, j, dest)) ∧ writes f w ∧
    (mode m = 4 ∧ w = [] ∧ j = i ∨ mode m ≠ 4 ∧ w = copies i m (piece_text xmp (chunk_piece m s0 c0 cr)) ∧ j = end1 m).
Proof.
  intros Hi (Hc1 & Hc2 & Hmode) He1 Hi2 He2 Hs0 Hc0 He0 Hb. unfold favored, chunk_step. assert (∀ md, i32 (end1 (with_mode m md)) = end1 m) as Ei by (intros md; cbn; apply i32_small; unfold int_max in *; lia).
  assert (i32 (end1 m) = end1 m) as Ei' by exact (Ei 0).
  destruct (decide (mode m = 4)) as [E4|N4].
  { rewrite E4. rewrite andb_false_r, E4. exists false, (λ size dest, Ret (size, dest)), [], i. split; [done|]. split; [apply writes_nil|]. by left. }
  assert (mode m = 0 ∨ mode m = 1 ∨ mode m = 2) as Hm by (destruct Hmode as [[? _]|[[? _]|[[? _]|[? _]]]]; lia).
  destruct (Z.eqb_spec (favor xmp) 0) as [Ef|Nf]; cbn [negb andb].
  - destruct Hm as [Hm|Hm].
    + destruct (conflict_writes i m s0 c0) as [cr W]; try done; try lia. exists cr, (λ size dest, fill_conflict_hunk x0 x1 x2 xmp size i m dest), (copies i m (piece_text xmp (chunk_piece m s0 c0 cr))), (end1 m). rewrite Hm. split; [intros; by rewrite ?Ei, ?Ei'|]. split; [done|]. by right.
    + destruct (take_writes i m) as [cr W]; try done; try lia. exists cr, (take_chunk i m), (copies i m (piece_text xmp (chunk_piece m s0 c0 cr))), (end1 m).
      unfold piece_text, chunk_piece, side_text in *. destruct Hm as [Hm|Hm]; rewrite Hm in *; cbn in W |- *; (split; [intros; by rewrite ?Ei, ?Ei'|]); (split; [done|]); by right.
  - destruct Hm as [Hm|Hm].
    + rewrite Hm. change (0 =? 0) with true. cbn match. destruct (take_writes i (with_mode m (favor xmp))) as [cr W]; cbn; try done; try lia. rewrite (proj2 (Z.eqb_neq _ _) Nf).
      exists cr, (take_chunk i (with_mode m (favor xmp))), (copies i m (piece_text xmp (chunk_piece m s0 c0 cr))), (end1 m).
      assert (negb (Z.land (favor xmp) 3 =? 0) = true) as -> by (assert (favor xmp = 1 ∨ favor xmp = 2 ∨ favor xmp = 3) as [-> |[-> | ->]] by lia; done). split; [intros; by rewrite ?Ei, ?Ei'|]. split; [|by right].
      unfold piece_text, chunk_piece, side_text, clash_text, copies in *. rewrite Hm. cbn in W |- *. unfold XDL_MERGE_FAVOR_OURS, XDL_MERGE_FAVOR_THEIRS, XDL_MERGE_FAVOR_UNION.
      assert (favor xmp = 1 ∨ favor xmp = 2 ∨ favor xmp = 3) as [E|[E|E]] by lia; rewrite E in *; exact W.
    + rewrite (proj2 (Z.eqb_neq (mode m) 0)) by lia. destruct (take_writes i m) as [cr W]; try done; try lia. exists cr, (take_chunk i m), (copies i m (piece_text xmp (chunk_piece m s0 c0 cr))), (end1 m).
      unfold piece_text, chunk_piece, side_text in *. destruct Hm as [Hm|Hm]; rewrite Hm in *; cbn in W |- *; (split; [intros; by rewrite ?Ei, ?Ei'|]); (split; [done|]); by right.
Qed.

(** ** All chunks *)
Definition fills (F : Z → option (list Z) → outcome (Z * Z * option (list Z) * list xdmerge_t)) (w : list Z) (j : Z) (ms : list xdmerge_t) : Prop :=
  ∀ size d d', 0 <= size → size + zlen w < int_max → filled w size d d' → F size d = Ret (size + zlen w, j, d', ms).
Lemma fills_cons i j j' f w w' m ms ms' : (∀ size dest, chunk_step i (favored m) size dest = let! (size, dest) := f size dest in Ret (size, j, dest)) → writes f w →
  fills (λ size dest, fill_loop x0 x1 x2 xmp ms size j dest) w' j' ms' → fills (λ size dest, fill_loop x0 x1 x2 xmp (m :: ms) size i dest) (w ++ w') j' (favored m :: ms').
Proof.
  intros Hs Hf Hg size d d' H0 Hb H. rewrite zlen_app in *. pose proof (zlen_nonneg w). pose proof (zlen_nonneg w'). destruct (filled_app _ _ _ _ _ H) as (dm & F1 & F2).
  rewrite fill_loop_cons, Hs, (Hf size d dm) by (done || lia). cbn [obind]. rewrite (Hg (size + zlen w) dm d') by (done || lia). cbn [obind]. by rewrite Z.add_assoc.
Qed.
Lemma fill_loop_favored ms : ∀ size i dest, fill_loop x0 x1 x2 xmp (favored <$> ms) size i dest = fill_loop x0 x1 x2 xmp ms size i dest.
Proof.
  induction ms as [|m ms IH]; intros size i dest; [done|]. cbn [fmap list_fmap]. rewrite !fill_loop_cons, favored_idem by lia.
  destruct (chunk_step i (favored m) size dest) as [[[s j] d]| | |]; cbn [obind]; try done. change (list_fmap _ _ favored ms) with (favored <$> ms). by rewrite IH.
Qed.
Lemma cleanup_favored ms : xdl_cleanup_merge (favored <$> ms) = if favor xmp =? 0 then xdl_cleanup_merge ms else 0.
Proof.
  induction ms as [|m ms IH]; cbn [fmap list_fmap xdl_cleanup_merge]; [by destruct (favor xmp =? 0)|]. change (list_fmap _ _ favored ms) with (favored <$> ms). rewrite IH. unfold favored.
  destruct (Z.eqb_spec (favor xmp) 0) as [|N]; cbn [negb andb]; [done|]. destruct (Z.eqb_spec (mode m) 0) as [|Nm]; cbn [with_mode mode]; [by rewrite (proj2 (Z.eqb_neq _ _) N)|by rewrite (proj2 (Z.eqb_neq _ _) Nm)].
Qed.

(** The pieces from [e0], [e1] and [e2] on. *)
Record pieces_from (e0 e1 e2 : Z) (ps : list piece) (clashes : Z) : Prop := PiecesFrom {
  pc_base : concat (pbase <$> ps) = zdrop e0 O;
  pc_ours : concat (pours <$> ps) = zdrop e1 A;
  pc_theirs : concat (ptheirs <$> ps) = zdrop e2 B;
  pc_three : Forall three_way ps;
  pc_clashes : zlen (filter (λ p, is_clash p = true) ps) = clashes
}.
Lemma slice_drop {A} (l : list A) s k : 0 <= s → 0 <= k → zslice s k l ++ zdrop (s + k) l = zdrop s l.
Proof. intros. unfold zslice. rewrite <- zdrop_zdrop by lia. apply ztake_zdrop. Qed.
Lemma slice_join {A} (l : list A) i s e : 0 <= i → i <= s → s <= e → zslice i (e - i) l = zslice i (s - i) l ++ zslice s (e - s) l.
Proof. intros. replace (e - i) with (s - i + (e - s)) by lia. rewrite zslice_app by lia. by replace (i + (s - i)) with s by lia. Qed.

Lemma pieces_cons m e0 e1 e2 s0 c0 cr ps k : 0 <= e0 <= s0 → 0 <= c0 → gap A B e1 e2 (mi1 m) (mi2 m) → chunk_ok O A B P m s0 c0 →
  pieces_from (s0 + c0) (end1 m) (end2 m) ps k → pieces_from e0 e1 e2 (gap_piece e0 s0 e1 e2 (mi1 m - e1) :: chunk_piece m s0 c0 cr :: ps) ((if mode m =? 0 then 1 else 0) + k).
Proof.
  intros H0 Hc0 (Hg1 & Hg2 & Hg3 & Hg4) (Hc1 & Hc2 & Hmode) [Pb Po Pt P3 Pk]. split; cbn [fmap list_fmap concat gap_piece chunk_piece pbase pours ptheirs].
  - change (concat (list_fmap _ _ pbase ps)) with (concat (pbase <$> ps)). rewrite Pb, slice_drop by lia. replace s0 with (e0 + (s0 - e0)) at 2 by lia. apply slice_drop; lia.
  - change (concat (list_fmap _ _ pours ps)) with (concat (pours <$> ps)). rewrite Po, slice_drop by lia. replace (mi1 m) with (e1 + (mi1 m - e1)) at 2 by lia. apply slice_drop; lia.
  - change (concat (list_fmap _ _ ptheirs ps)) with (concat (ptheirs <$> ps)). rewrite Pt, slice_drop by lia. replace (mi2 m) with (e2 + (mi1 m - e1)) by lia. apply slice_drop; lia.
  - constructor; [exact Hg4|]. constructor; [|done]. unfold three_way, chunk_piece. cbn. destruct Hmode as [[-> _]|[[-> E]|[[-> E]|(-> & _ & E)]]]; done.
  - rewrite filter_cons_False by done. destruct (Z.eqb_spec (mode m) 0) as [E|N].
    + rewrite filter_cons_True by (unfold is_clash, chunk_piece; cbn; by rewrite E). rewrite zlen_cons, Pk. done.
    + rewrite filter_cons_False; [by rewrite Pk|]. unfold is_clash, chunk_piece. cbn. rewrite (proj2 (Z.eqb_neq _ _) N). by destruct (mode m =? 1), (mode m =? 2).
Qed.

Lemma fill_laid ms : ∀ e0 e1 e2 i, 0 <= e0 → laid (shows_base xmp) e0 e1 e2 ms → 0 <= i <= e1 →
  ∃ w j ps, fills (λ size dest, fill_loop x0 x1 x2 xmp ms size i dest) w j (favored <$> ms) ∧ 0 <= j <= nrec x1 ∧ pieces_from e0 e1 e2 ps (xdl_cleanup_merge ms) ∧
    w ++ concat (zdrop j A) = concat (zslice i (e1 - i) A) ++ concat (piece_text xmp <$> ps).
Proof.
  induction ms as [|m ms IH]; intros e0 e1 e2 i He0 Hl Hi.
  - destruct Hl as (Hb0 & Hb1 & Hb2 & Ed). exists [], i, [Piece (zdrop e0 O) (zdrop e1 A) (zdrop e2 B) Agreed]. split; [|split; [lia|split]].
    + intros size d d' _ _ H. apply filled_nil in H as ->. cbn. by rewrite Z.add_0_r.
    + split; cbn; rewrite ?app_nil_r; try done. by repeat constructor.
    + cbn. rewrite app_nil_r, <- concat_app. f_equal. replace (zdrop e1 A) with (zdrop (i + (e1 - i)) A) by (f_equal; lia). symmetry. apply slice_drop; lia.
  - pose proof Hl as (s0 & c0 & H0 & Hc0 & Hg & Hok & Hb & Hrest). pose proof (laid_bounds _ _ _ _ _ _ _ _ _ Hrest) as Hbd. rewrite <- N0, <- N1, <- N2 in Hbd.
    pose proof Hg as (Hg1 & Hg2 & Hg3 & _). pose proof Hok as (Hc1 & Hc2 & _). destruct (chunk_step_writes i m s0 c0) as (cr & f & w & j & Hstep & Hw & Hcase); try done; try lia.
    assert (0 <= j <= end1 m) as Hj by (destruct Hcase as [(_ & _ & ->)|(_ & _ & ->)]; lia). destruct (IH (s0 + c0) (end1 m) (end2 m) j) as (w' & j' & ps & Hf & Hj' & Hps & E); [lia|done|done|].
    exists (w ++ w'), j', (gap_piece e0 s0 e1 e2 (mi1 m - e1) :: chunk_piece m s0 c0 cr :: ps). split; [by eapply fills_cons|]. split; [done|]. split; [by apply pieces_cons|].
    cbn [fmap list_fmap concat]. change (concat (list_fmap _ _ (piece_text xmp) ps)) with (concat (piece_text xmp <$> ps)). rewrite <- app_assoc, E.
    change (piece_text xmp (gap_piece e0 s0 e1 e2 (mi1 m - e1))) with (concat (zslice e1 (mi1 m - e1) A)). 
    assert (concat (zslice i (e1 - i) A) ++ concat (zslice e1 (mi1 m - e1) A) = concat (zslice i (mi1 m - i) A)) as Ej by (rewrite <- concat_app; f_equal; symmetry; apply slice_join; lia).
    rewrite (app_assoc (concat (zslice i (e1 - i) A))), Ej.
    destruct Hcase as [(Em & -> & ->)|(_ & -> & ->)].
    + cbn [app]. rewrite (slice_join A i (mi1 m) (end1 m)), concat_app, <- app_assoc by lia. f_equal. replace (end1 m - mi1 m) with (mchg1 m) by lia. unfold piece_text at 2, chunk_piece. by rewrite Em.
    + unfold copies. rewrite Z.sub_diag. change (zslice (end1 m) 0 A) with (@nil (list Z)). cbn [concat app]. by rewrite <- app_assoc.
Qed.

(** Both passes. *)
Lemma fill_merge_buffer_ok ms : laid (shows_base xmp) 0 0 0 ms → ∃ ps, pieces_from 0 0 0 ps (xdl_cleanup_merge ms) ∧ let w := concat (piece_text xmp <$> ps) in
  (zlen w < int_max → xdl_fill_merge_buffer x0 x1 x2 xmp ms None = Ret (zlen w, None, favored <$> ms) ∧
   ∀ buf, zlen buf = zlen w → xdl_fill_merge_buffer x0 x1 x2 xmp (favored <$> ms) (Some buf) = Ret (zlen w, Some w, favored <$> ms)).
Proof.
  intros Hl. destruct (fill_laid ms 0 0 0 0) as (w & j & ps & Hf & Hj & Hps & E); [lia|done|lia|]. exists ps. split; [done|]. cbn zeta. change (zslice 0 (0 - 0) A) with (@nil (list Z)) in E. cbn [concat app] in E. rewrite <- E.
  pose proof N1 as L1. rewrite zlen_fmap in L1. pose proof (copy_writes (recs x1) j (nrec x1 - j) false false ltac:(lia) ltac:(lia) ltac:(lia) ltac:(lia)) as Hc. cbn [copied] in Hc.
  assert (zslice j (nrec x1 - j) A = zdrop j A) as Ez by (unfold zslice; apply ztake_all; rewrite zlen_zdrop; lia). rewrite Ez in *. intros Hw.
  assert (∀ d d', filled (w ++ concat (zdrop j A)) 0 d d' → xdl_fill_merge_buffer x0 x1 x2 xmp ms d = Ret (zlen (w ++ concat (zdrop j A)), d', favored <$> ms)) as Hboth.
  { intros d d' H. rewrite zlen_app in *. pose proof (zlen_nonneg w). pose proof (zlen_nonneg (concat (zdrop j A))). destruct (filled_app _ _ _ _ _ H) as (dm & F1 & F2). unfold xdl_fill_merge_buffer.
    rewrite (Hf 0 d dm) by (done || lia). cbn [obind]. rewrite (Hc (0 + zlen w) dm d') by (done || lia). cbn [obind]. by rewrite Z.add_0_l. }
  split; [apply Hboth; by left|]. intros buf Hbuf. unfold xdl_fill_merge_buffer. rewrite fill_loop_favored. apply (Hboth (Some buf)). right. exists [], buf, []. by rewrite !app_nil_r.
Qed.
End fill.

(** ** The whole merge *)
Definition touching (xscr1 xscr2 : list xdchange_t) : Prop := ∃ c1 c2, c1 ∈ xscr1 ∧ c2 ∈ xscr2 ∧ i1 c2 <= i1 c1 + chg1 c1 ∧ i1 c1 <= i1 c2 + chg1 c2.
(** [out] is the three-way merge of the lines, with [status] conflicts. *)
Record merge_of (xmp : xmparam_t) (base ours theirs : list (list Z)) (status : Z) (out : list Z) (ps : list piece) : Prop := MergeOf {
  mo_base : concat (pbase <$> ps) = base;
  mo_ours : concat (pours <$> ps) = ours;
  mo_theirs : concat (ptheirs <$> ps) = theirs;
  mo_three : Forall three_way ps;
  mo_out : out = concat (piece_text xmp <$> ps);
  mo_status : status = if favor xmp =? 0 then zlen (filter (λ p, is_clash p = true) ps) else 0
}.
Lemma laid_reason O A B P base ms : ∀ e0 e1 e2, laid O A B P base e0 e1 e2 ms → xdl_cleanup_merge ms ≠ 0 → P.
Proof.
  induction ms as [|m ms IH]; intros e0 e1 e2 Hl Hc; cbn [xdl_cleanup_merge] in Hc; [done|]. destruct Hl as (s0 & c0 & _ & _ & _ & Hok & _ & Hrest).
  destruct (Z.eqb_spec (mode m) 0) as [E|]; [by eapply chunk_conflict|]. eapply IH; [exact Hrest|done].
Qed.

Lemma conflicts_le ms : xdl_cleanup_merge ms <= zlen ms.
Proof. induction ms as [|m ms IH]; [done|]. cbn [xdl_cleanup_merge]. rewrite zlen_cons. destruct (mode m =? 0); lia. Qed.
(** The result has room in an [int], even if every line of the first file were
    followed by a conflict. *)
Definition result_fits (xmp : xmparam_t) (orig mf1 mf2 : list Z) : Prop :=
  zlen orig + zlen mf1 + zlen mf2 + (zlen (split_lines mf1) + 1) * conflict_overhead xmp < int_max.
Section whole.
Context (malloc : Z → list Z) (orig mf1 mf2 : list Z) (xmp : xmparam_t).
Abbreviation flags := (xpp_flags (xm_xpp xmp)).
Abbreviation anchors := (xpp_anchors (xm_xpp xmp)).
Context (Hmal : malloc_ok malloc) (Hws : flag flags XDF_WHITESPACE_FLAGS = false) (Hfav : 0 <= favor xmp <= 3).
Context (H0 : zlen orig < 2 ^ 29 - 4) (H1 : zlen mf1 < 2 ^ 29 - 4) (H2 : zlen mf2 < 2 ^ 29 - 4).
Context (Hsup0 : supported orig flags anchors) (Hsup1 : supported mf1 flags anchors) (Hfits : result_fits xmp orig mf1 mf2).

Lemma side_supported : classic flags = true ∨ anchors = [] ∨ Forall (λ a, 10 ∉ a) anchors ∧ Forall whole_line (split_lines mf1).
Proof.
  destruct Hsup1 as [?|[_ [?|[? Hm]]]]; [by left|right; by left|right; right; split; [done|]]. destruct Hm as [->|Hm]; [constructor|]. apply whole_lines; [done|]. intros c Hc. by apply not_elem_of_nil in Hc.
Qed.
Lemma lines_int mf : zlen mf < 2 ^ 29 - 4 → zlen (split_lines mf) < int_max.
Proof. intros H. pose proof (lines_from_length [] mf). unfold split_lines, int_max in *. lia. Qed.
Lemma result_len O A B P base ms ps lo : O = split_lines orig → A = split_lines mf1 → B = split_lines mf2 → laid O A B P base 0 0 0 ms → apart lo ms →
  concat (pbase <$> ps) = O → concat (pours <$> ps) = A → concat (ptheirs <$> ps) = B → zlen (filter (λ p, is_clash p = true) ps) = xdl_cleanup_merge ms → zlen (concat (piece_text xmp <$> ps)) < int_max.
Proof.
  intros -> -> -> Hl Hap Eb Eo Et Ec. pose proof (text_len xmp ps) as Hlen. rewrite Eb, Eo, Et, Ec in Hlen. assert (∀ mf, concat (split_lines mf) = mf) as Hcat by (intros mf; apply concat_lines_from). rewrite !Hcat in Hlen.
  pose proof (laid_count _ _ _ _ _ _ _ _ _ _ Hl Hap) as Hn. pose proof (conflicts_le ms). unfold result_fits in Hfits. assert (0 <= conflict_overhead xmp).
  { unfold conflict_overhead. pose proof (marker_pos xmp). pose proof (zlen_nonneg (label_text (file1 xmp))). pose proof (zlen_nonneg (label_text (ancestor xmp))). pose proof (zlen_nonneg (label_text (file2 xmp))). lia. }
  pose proof (zlen_nonneg (split_lines mf1)). nia.
Qed.
Lemma do_merge_wp x0 x1 xscr1 x0' x2 xscr2 : script_of orig mf1 flags x0 x1 xscr1 → script_of orig mf2 flags x0' x2 xscr2 →
  returns (xdl_do_merge x0 x1 x0' x2 xmp malloc xscr1 xscr2) (λ r, match r with
    | Some (status, out) => (∃ ps, merge_of xmp (split_lines orig) (split_lines mf1) (split_lines mf2) status out ps) ∧ (status ≠ 0 → touching xscr1 xscr2)
    | None => XDF_DIFF_ALG flags = XDF_HISTOGRAM_DIFF end).
Proof.
  intros S1 S2. destruct (script_aligned _ _ _ _ _ _ Hws S1) as (A1 & N0 & N1), (script_aligned _ _ _ _ _ _ Hws S2) as (A2 & N0' & N2).
  pose proof (scr_lines _ _ _ _ _ _ S1) as [L0 L1]. pose proof (scr_lines _ _ _ _ _ _ S2) as [L0' L2]. unfold xdl_do_merge.
  assert (∀ mf, good_lines (split_lines mf)) as Hgood by (intros mf; apply lines_from_good; intros c Hc; by apply not_elem_of_nil in Hc).
  assert (nrec x0 < int_max ∧ nrec x1 < int_max ∧ nrec x2 < int_max) as (B0 & B1 & B2) by (rewrite N0, N1, N2, L0, L1, L2; split_and!; by apply lines_int).
  pose proof (merge_scripts_wp x0 x1 x0' x2 (touching xscr1 xscr2) N0 N1 N0' N2 ltac:(congruence) xmp Hws xscr1 xscr2 ltac:(by intros c1 c2 ? ? ? ?; exists c1, c2) A1 A2) as W. apply returns_eq in W as (ms & Em & Hms). rewrite Em. cbn [obind].
  apply merge_scripts_apart in Em as [lo Hap]. apply wp_bind. eapply wp_mono; [|apply (refine_wp (line <$> recs x0) (touching xscr1 xscr2) x1 x2 N1 N2 xmp malloc) with (lo := lo); rewrite ?L1, ?L2; try done].
  - intros [ms'|] Hms'; [|done]. cbn beta iota in Hms'. destruct Hms' as [Hms' Hap']. destruct (fill_merge_buffer_ok (touching xscr1 xscr2) x0 x1 x2 xmp N0 N1 N2 B0 B1 B2 Hfav ms' Hms') as (ps & Hps & Efill). cbn zeta in Efill.
    pose proof Hps as [Pb Po Pt P3 Pk]. rewrite zdrop_0 in Pb, Po, Pt. destruct Efill as [E0 E1]; [by apply (result_len _ _ _ _ _ _ ps lo L0 L1 L2 Hms' Hap')|]. rewrite E0. cbn [obind].
    rewrite E1 by (apply Hmal, zlen_nonneg). cbn [obind wp default]. rewrite cleanup_favored by done. split.
    + exists ps. split; try done; try congruence. by rewrite Pk.
    + intros Hne. apply (laid_reason _ _ _ _ _ _ _ _ _ Hms'). intros E. rewrite E in Hne. by destruct (favor xmp =? 0).
  - unfold split_lines. by rewrite concat_lines_from.
  - unfold split_lines. by rewrite concat_lines_from.
  - apply side_supported.
  - rewrite <- L1, <- L2. done.
Qed.
Lemma merge_wp : returns (xdl_merge malloc orig mf1 mf2 xmp) (λ r, match r with
    | Some (status, out) => (∃ ps, merge_of xmp (split_lines orig) (split_lines mf1) (split_lines mf2) status out ps) ∧
        (status ≠ 0 → ∃ x0 x1 xscr1 x0' x2 xscr2, xdl_diff_script malloc orig mf1 flags anchors = Ret (Some (x0, x1, xscr1)) ∧
          xdl_diff_script malloc orig mf2 flags anchors = Ret (Some (x0', x2, xscr2)) ∧ touching xscr1 xscr2)
    | None => XDF_DIFF_ALG flags = XDF_HISTOGRAM_DIFF end).
Proof.
  unfold xdl_merge. pose proof (diff_script_wp malloc orig mf1 flags anchors Hmal H0 H1 Hsup0) as W1. pose proof (diff_script_wp malloc orig mf2 flags anchors Hmal H0 H2 Hsup0) as W2.
  apply returns_eq in W1 as (r1 & E1 & W1), W2 as (r2 & E2 & W2). rewrite E1, E2. cbn [obind]. destruct r1 as [[[x0 x1] xscr1]|]; [|done]. destruct r2 as [[[x0' x2] xscr2]|]; [|done].
  assert (∀ mf, concat (split_lines mf) = mf) as Hcat by (intros mf; apply concat_lines_from).
  destruct xscr1 as [|c1 next1].
  { cbn [wp]. split; [|done]. exists [Piece (split_lines orig) (split_lines mf1) (split_lines mf2) Theirs]. split; cbn; rewrite ?app_nil_r; try done.
    - constructor; [|done]. exact (script_exact _ _ _ _ _ _ Hws W1).
    - by destruct (favor xmp =? 0). }
  destruct xscr2 as [|c2 next2].
  { cbn [wp]. split; [|done]. exists [Piece (split_lines orig) (split_lines mf1) (split_lines mf2) Ours]. split; cbn; rewrite ?app_nil_r; try done.
    - constructor; [|done]. exact (script_exact _ _ _ _ _ _ Hws W2).
    - by destruct (favor xmp =? 0). }
  eapply wp_mono; [|by apply do_merge_wp]. intros [[status out]|]; [|done]. intros [Hm Ht]. split; [done|]. intros Hne. eexists _, _, _, _, _, _. split_and!; [done|done|by apply Ht].
Qed.
End whole.
End XdlMergeOut.
