(* ===== verification/XdlTheorems.v ===== *)
(** * Theorems of the line diff

    The properties of the comparison, the compaction, the script and its
    output, with an instance of each. *)
From stdpp Require Import prelude.
From S2P Require Import Prelude XdlUtils Frontier XdlSplit XdlDiff XdlPrepare XdlCompact XdlMyers XdlRegion XdlHistogram XdlPatience XdlScript XdlEmit XdlPatch XdlMerge XdlMergeChunks XdlMergeOut.
Import XdlUtils XdlSplit XdlDiff XdlPrepare XdlCompact XdlMyers XdlScript XdlEmit XdlPatch XdlMerge XdlMergeOut.

Module XdlTheorems.

Lemma lines_from_nonempty data : ∀ cur, Forall (λ l : list Z, l ≠ []) (lines_from cur data).
Proof.
  induction data as [|c data IH]; intros cur; cbn [lines_from]; [destruct cur; by repeat constructor|].
  destruct (c =? 10); [|apply IH]. constructor; [by destruct cur|apply IH].
Qed.

(** C4. Diff and patch: for two files below 512 MB, settings that ignore
    nothing, any amount of context and any of the three algorithms, [xdl_diff]
    (whatever the memory it allocates holds) returns, and its output is a patch
    that fits the first file exactly (positions, counts, context and removed
    lines) and turns it into the second.  Only the histogram algorithm may
    report an error instead. *)
Theorem xdl_diff_patch malloc mf1 mf2 xpp xecfg : malloc_ok malloc → zlen mf1 < 2 ^ 29 - 4 → zlen mf2 < 2 ^ 29 - 4 → supported mf1 (xpp_flags xpp) (xpp_anchors xpp) →
  flag (xpp_flags xpp) XDF_WHITESPACE_FLAGS = false → flag (xpp_flags xpp) XDF_IGNORE_BLANK_LINES = false → ignore_regex xpp = None →
  0 <= ctxlen xecfg → 0 <= interhunkctxlen xecfg → flag (emit_flags xecfg) XDL_EMIT_FUNCCONTEXT = false → flag (emit_flags xecfg) XDL_EMIT_NO_HUNK_HDR = false → out_hunk xecfg = true →
  ∃ r, xdl_diff malloc mf1 mf2 xpp xecfg = Ret r ∧
    match r with
    | Some evs => @concat Z <$> patch (split_lines mf1) 0 0 0 0 evs = Some mf2
    | None => XDF_DIFF_ALG (xpp_flags xpp) = XDF_HISTOGRAM_DIFF
    end.
Proof.
  intros Hmal H1 H2 Hsup Hws Hbl Hre Hctx Hint Hfc Hhdr Hout. unfold xdl_diff. pose proof (diff_script_wp malloc mf1 mf2 (xpp_flags xpp) (xpp_anchors xpp) Hmal H1 H2 Hsup) as W.
  apply returns_eq in W as ([[[x1 x2] xscr]|] & -> & Hs); cbn [obind]; [|by exists None]. rewrite Hbl, Hre. pose proof (script_exact _ _ _ _ _ _ Hws Hs) as Ha. destruct Hs as [[L1 L2] [N1 N2] Hso _ Hall].
  rewrite <- L1, <- L2 in *. destruct (emit_diff_ok x1 x2 N1 N2) with (xecfg := xecfg) (xscr := xscr) as (evs & Ee & Hp); try done; [rewrite L1; apply lines_from_nonempty|rewrite L2; apply lines_from_nonempty|].
  assert (concat (line <$> recs x2) = mf2) as E2 by (rewrite L2; apply concat_lines_from).
  destruct xscr as [|c xscr]; [injection Ee as <-|cbn [obind]; rewrite Ee; cbn [obind]]; eexists; (split; [done|]); cbn beta iota; rewrite Hp; cbn; by rewrite E2.
Qed.
Lemma xdl_diff_patch_witness :
  let mf1 := text [[97]; [98]; [99]; [100]; [101]] in let mf2 := text [[97]; [120]; [99]; [100]; [101]; [102]] in let xpp := Xpparam XDF_PATIENCE_DIFF None [[99]] in
  ∃ r, xdl_diff (λ n, zrep n 7) mf1 mf2 xpp (unified 1) = Ret r ∧
    match r with Some evs => @concat Z <$> patch (split_lines mf1) 0 0 0 0 evs = Some mf2 | None => XDF_DIFF_ALG (xpp_flags xpp) = XDF_HISTOGRAM_DIFF end.
Proof.
  apply (xdl_diff_patch (λ n, zrep n 7)); try reflexivity; try (vm_compute; congruence).
  - intros n Hn. by apply zlen_zrep.
  - right. split; [reflexivity|]. right. split; [|by right]. repeat constructor. by apply (bool_decide_unpack _).
Defined.
(** All three agree here. *)
Example diff_algorithms : let mf1 := text [[97]; [98]; [99]; [100]; [101]; [97]] in let mf2 := text [[98]; [120]; [99]; [100]; [101]; [97]; [102]] in
  xdl_diff (λ n, zrep n 7) mf1 mf2 (Xpparam XDF_PATIENCE_DIFF None []) (unified 1) = xdl_diff (λ n, zrep n 7) mf1 mf2 plain (unified 1) ∧
  xdl_diff (λ n, zrep n 7) mf1 mf2 (Xpparam XDF_HISTOGRAM_DIFF None []) (unified 1) = xdl_diff (λ n, zrep n 7) mf1 mf2 plain (unified 1).
Proof. split; vm_compute; reflexivity. Qed.
(** An anchor decides which of two moved lines is kept. *)
Example diff_anchored : let mf1 := text [[97]; [98]; [99]] in let mf2 := text [[99]; [97]; [98]] in
  xdl_diff (λ n, zrep n 7) mf1 mf2 (Xpparam XDF_PATIENCE_DIFF None [[99]]) (unified 0) ≠ xdl_diff (λ n, zrep n 7) mf1 mf2 (Xpparam XDF_PATIENCE_DIFF None []) (unified 0).
Proof. vm_compute. congruence. Qed.
(** Lines of 65 classes that fall into one chain: the histogram algorithm fails. *)
Example long_chain : let recs1 := Xrecord [] <$> ((λ k, 127 * (k + 1)) <$> seqZ 0 65) in
  XdlHistogram.find_lcs recs1 [Xrecord [] 1] 1 65 1 1 = Ret None ∧ XdlHistogram.find_lcs (take 64 recs1 ++ [Xrecord [] 1]) [Xrecord [] 1] 1 65 1 1 = Ret (Some (false, XdlHistogram.Region 65 65 1 1)).
Proof. split; vm_compute; reflexivity. Qed.
(** A last line that ends within an anchor is read beyond the end of the file. *)
Example anchor_overrun : XdlPatience.is_anchor [[97; 98; 99]] [97; 98] = UB.
Proof. reflexivity. Qed.

(** C5. The edit script, for every combination of flags with the default
    algorithm, and for the others when whitespace counts: the changes are in
    order, within the files, separated by common lines and none is empty, and
    applied to the first file they give lines that match those of the second
    one by one under the whitespace flags (equal ones when there are none).
    Only the histogram algorithm may report an error instead. *)
Theorem xdl_diff_script_correct malloc mf1 mf2 flags anchors : malloc_ok malloc → zlen mf1 < 2 ^ 29 - 4 → zlen mf2 < 2 ^ 29 - 4 → supported mf1 flags anchors →
  let l1 := split_lines mf1 in let l2 := split_lines mf2 in
  ∃ r, xdl_diff_script malloc mf1 mf2 flags anchors = Ret r ∧
    match r with
    | Some (x1, x2, xscr) => script_ok 0 0 0 (zlen l1) (zlen l2) xscr ∧ Forall2 (matching flags) (apply_script l1 l2 xscr) l2 ∧ (flag flags XDF_WHITESPACE_FLAGS = false → apply_script l1 l2 xscr = l2)
    | None => XDF_DIFF_ALG flags = XDF_HISTOGRAM_DIFF
    end.
Proof.
  intros Hmal H1 H2 Hsup. pose proof (diff_script_wp malloc mf1 mf2 flags anchors Hmal H1 H2 Hsup) as W. apply returns_eq in W as (r & -> & Hs). exists r. split; [done|].
  destruct r as [[[x1 x2] xscr]|]; [|done]. pose proof Hs as [Hl [N1 N2] Hso Ha Hall]. rewrite N1, N2 in Hso.
  split_and!; try done. intros Hf. exact (script_exact mf1 mf2 flags x1 x2 xscr Hf Hs).
Qed.
Lemma xdl_diff_script_correct_witness :
  let l1 := split_lines (text [[32; 97]; [98]]) in let l2 := split_lines (text [[97]; [98]; [99]]) in
  ∃ r, xdl_diff_script (λ n, zrep n 7) (text [[32; 97]; [98]]) (text [[97]; [98]; [99]]) XDF_IGNORE_WHITESPACE [] = Ret r ∧
    match r with
    | Some (x1, x2, xscr) => script_ok 0 0 0 (zlen l1) (zlen l2) xscr ∧ Forall2 (matching XDF_IGNORE_WHITESPACE) (apply_script l1 l2 xscr) l2 ∧
        (flag XDF_IGNORE_WHITESPACE XDF_WHITESPACE_FLAGS = false → apply_script l1 l2 xscr = l2)
    | None => XDF_DIFF_ALG XDF_IGNORE_WHITESPACE = XDF_HISTOGRAM_DIFF
    end.
Proof. apply (xdl_diff_script_correct (λ n, zrep n 7)); try reflexivity; [intros n Hn; by apply zlen_zrep|by left]. Defined.

(** A marker of 2^31 - 1 characters, the largest the attribute can ask for: the
    first pass already overflows. *)
Example merge_overflow : xdl_merge (λ n, zrep n 7) (text [[49]; [50]; [51]]) (text [[49]; [120]; [51]]) (text [[49]; [121]; [51]]) (Xmparam plain (2 ^ 31 - 1) 2 0 0 None (Some [97]) (Some [98])) = UB.
Proof. vm_compute. reflexivity. Qed.

(** C39. Compaction keeps the common lines: when both files have equally many
    unmarked lines, [xdl_change_compact] ends, takes none of its [BUG] exits,
    and changes only where the marks are: the records and the sequence of
    unmarked lines stay. *)
Theorem xdl_change_compact_keeps xdf xdfo flags : ok xdf → ok xdfo → zlen (kept_lines xdf) = zlen (kept_lines xdfo) →
  ∃ xdf', xdl_change_compact xdf xdfo flags = Ret xdf' ∧ ok xdf' ∧ recs xdf' = recs xdf ∧ nrec xdf' = nrec xdf ∧ kept_lines xdf' = kept_lines xdf.
Proof.
  intros H1 H2 E. pose proof (change_compact_wp xdf xdfo flags H1 H2 E) as W. apply returns_eq in W as (xdf' & E' & ? & ? & ? & ?). by exists xdf'.
Qed.
Definition marked_file (classes marks : list Z) : xdfile_t :=
  Xdfile (zlen classes) (Xrecord [] <$> classes) [] 0 0 ([0] ++ marks ++ [0]) [] [].
Lemma marked_file_ok classes marks : zlen classes = zlen marks → Forall (λ m, m = 0 ∨ m = 1) marks → ok (marked_file classes marks).
Proof.
  intros Hz Hm. split; cbn; [by rewrite zlen_fmap|]. unfold clean_rchg. rewrite zlen_cons, zlen_app. change (zlen [0]) with 1. split_and!; [lia| |done|].
  - intros i v Hv. apply znth_elem_of in Hv. apply elem_of_cons in Hv as [->|Hv]; [by left|]. apply elem_of_app in Hv as [Hv|Hv].
    + rewrite Forall_forall in Hm. by apply Hm.
    + left. by apply list_elem_of_singleton in Hv.
  - unfold rchg_at. zlen_pos. rewrite znth_cons by lia. replace (1 + zlen classes - 1) with (zlen marks) by lia. apply znth_app_len.
Qed.
Lemma xdl_change_compact_keeps_witness :
  let xdf := marked_file [1; 2; 1; 2; 3] [0; 1; 1; 0; 0] in let xdfo := marked_file [1; 2; 3] [0; 0; 0] in
  ∃ xdf', xdl_change_compact xdf xdfo 0 = Ret xdf' ∧ ok xdf' ∧ recs xdf' = recs xdf ∧ nrec xdf' = nrec xdf ∧ kept_lines xdf' = kept_lines xdf.
Proof. apply xdl_change_compact_keeps; [apply marked_file_ok; [done|repeat (apply Forall_cons; split; [lia|]); apply Forall_nil_2]..|reflexivity]. Defined.

(** C40. The search for a split: on a box whose first lines differ and whose
    last lines differ, with diagonals of any contents but room for the box,
    [xdl_split] ends within as many rounds as the box has lines, touches no
    memory outside the diagonals, and its split point lies in the box and cuts
    off something on both sides. *)
Theorem xdl_split_bounds ha1 off1 lim1 ha2 off2 lim2 kvdf kvdb xenv kvd need_min :
  0 <= off1 < lim1 → lim1 <= zlen ha1 → 0 <= off2 < lim2 → lim2 <= zlen ha2 → lim1 + lim2 < XDL_LINE_MAX →
  0 <= kvdf + (off1 - lim2) - 1 → kvdf + (lim1 - off2) + 1 < kvdb + (off1 - lim2) - 1 → kvdb + (lim1 - off2) + 1 < zlen kvd →
  same ha1 ha2 off1 off2 = false → same ha1 ha2 (lim1 - 1) (lim2 - 1) = false → 1 <= snake_cnt xenv →
  ∃ ec spl kvd', xdl_split ha1 off1 lim1 ha2 off2 lim2 kvdf kvdb xenv kvd need_min = Ret (ec, spl, kvd') ∧ 1 <= ec <= lim1 - off1 + (lim2 - off2) ∧
    off1 <= spl_i1 spl <= lim1 ∧ off2 <= spl_i2 spl <= lim2 ∧ ¬ (spl_i1 spl = off1 ∧ spl_i2 spl = off2) ∧ ¬ (spl_i1 spl = lim1 ∧ spl_i2 spl = lim2) ∧ zlen kvd' = zlen kvd.
Proof.
  intros B1 L1 B2 L2 HM Kf Kfb Kb Hs He Hc. pose proof (xdl_split_wp ha1 off1 lim1 ha2 off2 lim2 kvdf kvdb xenv (zlen kvd)) as W.
  specialize (W B1 B2 L1 L2 HM Kf Kfb Kb Hs He Hc kvd need_min eq_refl). apply returns_eq in W as ([[ec spl] kvd'] & E & Hec & ((Hi1 & Hi2) & Hns & Hne) & Hz).
  exists ec, spl, kvd'. split_and!; try done; try lia.
Qed.
Lemma xdl_split_bounds_witness : ∃ ec spl kvd', xdl_split [1; 2; 3] 0 3 [2; 1] 0 2 3 11 (Xdalgoenv 256 20 256) (zrep 18 (-5)) false = Ret (ec, spl, kvd') ∧
  1 <= ec <= 3 - 0 + (2 - 0) ∧ 0 <= spl_i1 spl <= 3 ∧ 0 <= spl_i2 spl <= 2 ∧ ¬ (spl_i1 spl = 0 ∧ spl_i2 spl = 0) ∧ ¬ (spl_i1 spl = 3 ∧ spl_i2 spl = 2) ∧ zlen kvd' = zlen (zrep 18 (-5)).
Proof. apply xdl_split_bounds; first [reflexivity|vm_compute; intuition congruence]. Defined.

(** Hunk headers: for positions and counts of a [long] and any function
    text, [xdl_format_hunk_hdr] stays within its 128 bytes and writes one line
    from which the positions and counts can be read back. *)
Theorem xdl_hunk_header_fits s1 c1 s2 c2 func : 1 <= s1 < 2 ^ 63 → 0 <= c1 < 2 ^ 63 → 1 <= s2 < 2 ^ 63 → 0 <= c2 < 2 ^ 63 →
  ∃ buf, xdl_format_hunk_hdr s1 c1 s2 c2 func = Ret (OutLine [buf]) ∧ zlen buf <= 128 ∧ last buf = Some 10 ∧
    read_hdr buf = Some (if c1 =? 0 then s1 - 1 else s1, c1, if c2 =? 0 then s2 - 1 else s2, c2).
Proof. intros ? ? ? ?. apply format_hunk_hdr_ok; bcase; lia. Qed.
Lemma xdl_hunk_header_fits_witness : ∃ buf, xdl_format_hunk_hdr 1 0 12 (2 ^ 62) (zrep 80 120) = Ret (OutLine [buf]) ∧ zlen buf <= 128 ∧ last buf = Some 10 ∧
  read_hdr buf = Some (0, 0, 12, 2 ^ 62).
Proof. apply (xdl_hunk_header_fits 1 0 12 (2 ^ 62)); vm_compute; intuition congruence. Defined.
End XdlTheorems.
