(* ===== verification/Commit.v ===== *)
(** * Commits in memory (commit.c, commit-graph.c)

    The commit structures that walking over history works on: reading a commit
    when it is first needed, its generation number, lists of commits, the orders
    a queue of commits is sorted by, and the marks (flag bits) that the walks
    leave on commits and clear again. *)
From stdpp Require Import prelude gmap sorting.
From S2P Require Import Prelude Order.

Module Commit.

Definition GENERATION_NUMBER_INFINITY : Z := Z.shiftl 1 63 - 1.
Definition GENERATION_NUMBER_ZERO : Z := 0.

(** A commit is known by the address of its structure, unique for each object
    id ([lookup_commit]); 0 is NULL. *)
Record commit := Commit {
  parsed : bool;
  date : Z;
  parents : list Z;
  graph_generation : Z;
}.
(** What reading a commit gives, from the object database or the commit-graph
    file ([d_generation] is 0 when the commit-graph file does not have it). *)
Record commit_data := Commit_data { d_date : Z; d_parents : list Z; d_generation : Z }.
(** The repository: the commits that can be read, and what the commit-graph
    file offers. *)
Record repository := Repository {
  store : gmap Z commit_data;
  generation_numbers_enabled : bool;
  corrected_commit_dates_enabled : bool;
}.
(** All commit structures: [object.flags] of each, and the other fields.  A
    structure that nobody wrote to is zero. *)
Record memory := Memory { mem_flags : gmap Z Z; mem_commits : gmap Z commit }.

Definition flags (m : memory) (c : Z) : Z := default 0 (mem_flags m !! c).
Definition the (m : memory) (c : Z) : commit := default (Commit false 0 [] 0) (mem_commits m !! c).
Definition set_flags (m : memory) (c f : Z) : memory := Memory (<[c := f]> (mem_flags m)) (mem_commits m).
(** [c->object.flags |= f] and [c->object.flags &= ~f]. *)
Definition or_flags (m : memory) (c f : Z) : memory := set_flags m c (Z.lor (flags m c) f).
Definition clear_flags (m : memory) (c f : Z) : memory := set_flags m c (Z.ldiff (flags m c) f).
(** [c->object.flags & f] as a condition. *)
Definition has (m : memory) (c f : Z) : bool := negb (Z.land (flags m c) f =? 0).

Definition commit_graph_generation (m : memory) (c : Z) : Z :=
  let g := graph_generation (the m c) in
  if g =? 0 then GENERATION_NUMBER_INFINITY else g.

(** A commit that is missing gives an error; one that is corrupt stops the
    program, and is not in the store. *)
Definition repo_parse_commit (r : repository) (m : memory) (item : Z) : Z * memory :=
  if item =? 0 then (-1, m)
  else if parsed (the m item) then (0, m)
  else
    match store r !! item with
    | None => (-1, m)
    | Some d => (0, Memory (mem_flags m) (<[item := Commit true (d_date d) (d_parents d) (d_generation d)]> (mem_commits m)))
    end.

Definition compare_commits_by_gen_then_commit_date (m : memory) (a b : Z) : Z :=
  let generation_a := commit_graph_generation m a in
  let generation_b := commit_graph_generation m b in
  if generation_a <? generation_b then 1
  else if generation_b <? generation_a then -1
  else if date (the m a) <? date (the m b) then 1
  else if date (the m b) <? date (the m a) then -1
  else 0.
Definition compare_commits_by_commit_date (m : memory) (a b : Z) : Z :=
  if date (the m a) <? date (the m b) then 1
  else if date (the m b) <? date (the m a) then -1
  else 0.

Definition commit_list_insert (item : Z) (l : list Z) : list Z := item :: l.
Definition commit_list_append (item : Z) (l : list Z) : list Z := l ++ [item].
Fixpoint commit_list_insert_by_date (m : memory) (item : Z) (l : list Z) : list Z :=
  match l with
  | p :: next => if date (the m p) <? date (the m item) then commit_list_insert item l else p :: commit_list_insert_by_date m item next
  | [] => commit_list_insert item []
  end.

(** ** Clearing marks *)

(** [while ((parents = parents->next))]. *)
Definition push_marked (m : memory) (mark : Z) (plist rest : list Z) : list Z :=
  foldl (λ l p, if has m p mark then commit_list_insert p l else l) plist rest.
Fixpoint clear_commit_marks_1 (fuel : nat) (m : memory) (plist : list Z) (commit mark : Z) : outcome (memory * list Z) :=
  match fuel with
  | O => NoFuel
  | S fuel =>
      if commit =? 0 then Ret (m, plist)
      else if negb (has m commit mark) then Ret (m, plist)
      else
        let m := clear_flags m commit mark in
        match parents (the m commit) with
        | [] => Ret (m, plist)
        | p :: rest => clear_commit_marks_1 fuel m (push_marked m mark plist rest) p mark
        end
  end.
(** The number of marks to follow: every commit that has one can be left
    through each of its parents. *)
Definition weight (m : memory) (mark : Z) : nat :=
  sum_list_with (λ '(c, f), if Z.land f mark =? 0 then O else S (length (parents (the m c)))) (map_to_list (mem_flags m)).
(** [while (list)]. *)
Fixpoint clear_list (fuel : nat) (m : memory) (l : list Z) (mark : Z) : outcome memory :=
  match fuel with
  | O => NoFuel
  | S fuel =>
      match l with
      | [] => Ret m
      | c :: l =>
          let! (m, l) := clear_commit_marks_1 (S (weight m mark)) m l c mark in
          clear_list fuel m l mark
      end
  end.
Fixpoint clear_commit_marks_many (m : memory) (commits : list Z) (mark : Z) : outcome memory :=
  match commits with
  | [] => Ret m
  | c :: commits =>
      let! (m, l) := clear_commit_marks_1 (S (weight m mark)) m [] c mark in
      let! m := clear_list (S (length l + weight m mark)) m l mark in
      clear_commit_marks_many m commits mark
  end.
Definition clear_commit_marks (m : memory) (commit mark : Z) : outcome memory := clear_commit_marks_many m [commit] mark.

(** ** Flags *)
Lemma flags_set m c f c' : flags (set_flags m c f) c' = if decide (c = c') then f else flags m c'.
Proof. unfold flags, set_flags. cbn. case_decide as E; [subst; by rewrite lookup_insert_eq|by rewrite lookup_insert_ne]. Qed.
Lemma the_set_flags m c f c' : the (set_flags m c f) c' = the m c'.
Proof. done. Qed.
Lemma flags_or m c f c' : flags (or_flags m c f) c' = if decide (c = c') then Z.lor (flags m c') f else flags m c'.
Proof. unfold or_flags. rewrite flags_set. case_decide; [by subst|done]. Qed.
Lemma flags_clear m c f c' : flags (clear_flags m c f) c' = if decide (c = c') then Z.ldiff (flags m c') f else flags m c'.
Proof. unfold clear_flags. rewrite flags_set. case_decide; [by subst|done]. Qed.
Lemma has_flags m m' c f : flags m c = flags m' c → has m c f = has m' c f.
Proof. unfold has. by intros ->. Qed.
Lemma land_ldiff_same a b : Z.land (Z.ldiff a b) b = 0.
Proof. apply Z.bits_inj'. intros n _. rewrite Z.land_spec, Z.ldiff_spec, Z.bits_0. by destruct (Z.testbit a n), (Z.testbit b n). Qed.
Lemma has_clear_same m c f : has (clear_flags m c f) c f = false.
Proof. unfold has. rewrite flags_clear, decide_True by done. by rewrite land_ldiff_same. Qed.
Lemma ldiff_not_marked a b : Z.land a b = 0 → Z.ldiff a b = a.
Proof.
  intros H. apply Z.bits_inj'. intros n _. rewrite Z.ldiff_spec. pose proof (f_equal (λ z, Z.testbit z n) H) as Hn. cbn beta in Hn.
  rewrite Z.land_spec, Z.bits_0 in Hn. by destruct (Z.testbit a n), (Z.testbit b n).
Qed.
Lemma has_ldiff m m' c f : flags m' c = Z.ldiff (flags m c) f → has m' c f = false.
Proof. unfold has. intros ->. by rewrite land_ldiff_same. Qed.

(** ** Clearing marks *)
Section marks.
Context (mark : Z) (m0 : memory).
Implicit Types (m : memory) (l : list Z).
Abbreviation marked m c := (has m c mark = true).

(** [m] is [m0] with some marks cleared; whatever has been cleared has no
    marked parent, except for those listed. *)
Record clearing m l : Prop := {
  clearing_commits : mem_commits m = mem_commits m0;
  clearing_flags c : flags m c = flags m0 c ∨ flags m c = Z.ldiff (flags m0 c) mark;
  clearing_left c p : marked m0 c → has m c mark = false → p ∈ parents (the m0 c) → marked m p → p ∈ l;
}.
Lemma clearing_the m l c : clearing m l → the m c = the m0 c.
Proof. intros H. unfold the. by rewrite (clearing_commits _ _ H). Qed.
Lemma clearing_mono m l l' : clearing m l → l ⊆ l' → clearing m l'.
Proof. intros H Hl. split; [apply H|apply H|]. intros. eapply Hl, H; done. Qed.
Lemma clearing_drop m l c : clearing m (c :: l) → has m c mark = false → clearing m l.
Proof.
  intros H Hc. split; [apply H|apply H|]. intros c' p H1 H2 H3 H4. pose proof (clearing_left _ _ H c' p H1 H2 H3 H4) as Hi.
  apply elem_of_cons in Hi as [->|Hi]; [congruence|done].
Qed.

Lemma push_marked_elem m rest : ∀ plist p, p ∈ push_marked m mark plist rest ↔ p ∈ plist ∨ (p ∈ rest ∧ marked m p).
Proof.
  induction rest as [|q rest IH]; intros plist p; cbn; [set_solver|]. fold (push_marked m mark (if has m q mark then commit_list_insert q plist else plist) rest).
  rewrite IH. unfold commit_list_insert. destruct (has m q mark) eqn:E; rewrite !elem_of_cons; intuition (subst; congruence || auto).
Qed.
Lemma push_marked_length m rest : ∀ plist, (length (push_marked m mark plist rest) <= length plist + length rest)%nat.
Proof.
  induction rest as [|q rest IH]; intros plist; cbn; [lia|]. fold (push_marked m mark (if has m q mark then commit_list_insert q plist else plist) rest).
  etrans; [apply IH|]. unfold commit_list_insert. destruct (has m q mark); cbn; lia.
Qed.
Lemma weight_clear m c : marked m c → weight m mark = (S (length (parents (the m c))) + weight (clear_flags m c mark) mark)%nat.
Proof.
  unfold has, flags. intros H. destruct (mem_flags m !! c) as [f|] eqn:E; [|done]. cbn in H. unfold weight.
  set (F := λ x : Z * Z, let '(c, f) := x in if Z.land f mark =? 0 then O else S (length (parents (the m c)))).
  change (sum_list_with F (map_to_list (mem_flags m)) = (S (length (parents (the m c))) + sum_list_with F (map_to_list (<[c := Z.ldiff (flags m c) mark]> (mem_flags m))))%nat).
  rewrite <-(insert_delete_id (mem_flags m) c f E) at 1. rewrite <-(insert_delete_eq (mem_flags m) c).
  rewrite !(map_to_list_insert (delete c (mem_flags m)) c) by apply lookup_delete_eq. cbn [sum_list_with]. unfold F at 1 3.
  apply negb_true_iff in H. rewrite H, land_ldiff_same. done.
Qed.
Lemma clearing_step m l c p rest : clearing m (c :: l) → marked m c → parents (the m c) = p :: rest →
  clearing (clear_flags m c mark) (p :: push_marked (clear_flags m c mark) mark l rest).
Proof.
  intros H Hc Ep. split; [apply H| |].
  - intros x. rewrite flags_clear. case_decide as E; [|apply H]. subst x. right. destruct (clearing_flags _ _ H c) as [->| ->]; [done|].
    apply ldiff_not_marked, land_ldiff_same.
  - intros x q Hx Hx' Hq Hq'. destruct (decide (c = x)) as [<-|Hne].
    + rewrite <-(clearing_the _ _ _ H), Ep in Hq. apply elem_of_cons in Hq as [->|Hq]; [set_solver|].
      apply elem_of_cons. right. apply push_marked_elem. by right.
    + assert (has m x mark = false) as Hx2. { rewrite <-Hx'. apply has_flags. rewrite flags_clear. by rewrite decide_False. }
      assert (c ≠ q) as Hcq. { intros <-. by rewrite has_clear_same in Hq'. }
      assert (marked m q) as Hq2. { rewrite <-Hq'. apply has_flags. rewrite flags_clear. by rewrite decide_False. }
      pose proof (clearing_left _ _ H x q Hx Hx2 Hq Hq2) as Hi. apply elem_of_cons in Hi as [->|Hi]; [done|].
      apply elem_of_cons. right. apply push_marked_elem. by left.
Qed.
Lemma clearing_leaf m l c : clearing m (c :: l) → marked m c → parents (the m c) = [] → clearing (clear_flags m c mark) l.
Proof.
  intros H Hc Ep. split; [apply H| |].
  - intros x. rewrite flags_clear. case_decide as E; [|apply H]. subst x. right. destruct (clearing_flags _ _ H c) as [->| ->]; [done|].
    apply ldiff_not_marked, land_ldiff_same.
  - intros x q Hx Hx' Hq Hq'. destruct (decide (c = x)) as [<-|Hne].
    + rewrite <-(clearing_the _ _ _ H), Ep in Hq. by apply elem_of_nil in Hq.
    + assert (has m x mark = false) as Hx2. { rewrite <-Hx'. apply has_flags. rewrite flags_clear. by rewrite decide_False. }
      assert (c ≠ q) as Hcq. { intros <-. by rewrite has_clear_same in Hq'. }
      assert (marked m q) as Hq2. { rewrite <-Hq'. apply has_flags. rewrite flags_clear. by rewrite decide_False. }
      pose proof (clearing_left _ _ H x q Hx Hx2 Hq Hq2) as Hi. apply elem_of_cons in Hi as [->|Hi]; [done|done].
Qed.
Lemma has_clear_mono m c x : marked (clear_flags m c mark) x → marked m x.
Proof. unfold has. rewrite flags_clear. case_decide; [subst|done]. by rewrite land_ldiff_same. Qed.

Lemma clear_1_wp fuel : ∀ m plist c, has m0 0 mark = false → clearing m (c :: plist) → (weight m mark < fuel)%nat →
  returns (clear_commit_marks_1 fuel m plist c mark) (λ '(m', l'), clearing m' l' ∧ has m' c mark = false ∧
    (length l' + weight m' mark <= length plist + weight m mark)%nat ∧ ∀ x, marked m' x → marked m x).
Proof.
  induction fuel as [|fuel IH]; intros m plist c H0 H Hf; [lia|]. cbn [clear_commit_marks_1].
  assert (has m 0 mark = false) as H0'.
  { destruct (has m 0 mark) eqn:E; [|done]. rewrite <-H0, <-E. apply has_flags. destruct (clearing_flags _ _ H 0) as [->|E0]; [done|]. by rewrite (has_ldiff m0) in E. }
  destruct (Z.eqb_spec c 0) as [->|Hne]. { cbn. split_and!; [by eapply clearing_drop|done|lia|done]. }
  destruct (has m c mark) eqn:Hc; cbn [negb]; [|cbn; split_and!; [by eapply clearing_drop|done|lia|done]].
  pose proof (weight_clear _ _ Hc) as Hw. change (the (clear_flags m c mark) c) with (the m c). destruct (parents (the m c)) as [|p rest] eqn:Ep.
  { cbn. split_and!; [by apply clearing_leaf|apply has_clear_same|lia|intros x; apply has_clear_mono]. }
  pose proof (push_marked_length (clear_flags m c mark) rest plist) as Hl. cbn in Hw.
  eapply wp_mono; [|apply IH; [done|by apply clearing_step|lia]].
  intros [m' l'] (H1 & H2 & H3 & H4). split_and!; [done| |lia|intros x Hx; eapply has_clear_mono; by apply H4].
  destruct (has m' c mark) eqn:E; [|done]. apply H4 in E. by rewrite has_clear_same in E.
Qed.
Lemma clear_list_wp fuel : ∀ m l, has m0 0 mark = false → clearing m l → (length l + weight m mark < fuel)%nat →
  returns (clear_list fuel m l mark) (λ m', clearing m' [] ∧ ∀ x, marked m' x → marked m x).
Proof.
  induction fuel as [|fuel IH]; intros m l H0 H Hf; [lia|]. destruct l as [|c l]; cbn [clear_list]; [by cbn|]. cbn in Hf.
  apply wp_bind. eapply wp_mono; [|apply clear_1_wp; [done|done|lia]]. intros [m' l'] (H1 & H2 & H3 & H4). cbn beta iota.
  eapply wp_mono; [|apply IH; [done|done|lia]]. intros m'' [H5 H6]. split; [done|]. auto.
Qed.
Lemma clear_many_wp commits : ∀ m, has m0 0 mark = false → clearing m [] →
  returns (clear_commit_marks_many m commits mark) (λ m', clearing m' [] ∧ (∀ x, marked m' x → marked m x) ∧ ∀ c, c ∈ commits → has m' c mark = false).
Proof.
  induction commits as [|c commits IH]; intros m H0 H; cbn [clear_commit_marks_many]; [cbn; set_solver|].
  apply wp_bind. eapply wp_mono; [|apply clear_1_wp; [done|eapply clearing_mono; [done|set_solver]|lia]]. intros [m1 l1] (H1 & H2 & H3 & H4). cbn beta iota.
  apply wp_bind. eapply wp_mono; [|apply clear_list_wp; [done|done|lia]]. intros m2 [H5 H6]. cbn beta iota.
  eapply wp_mono; [|by apply IH]. intros m' (H7 & H8 & H9). split_and!; [done|auto|]. intros x Hx. apply elem_of_cons in Hx as [->|Hx]; [|by apply H9].
  destruct (has m' c mark) eqn:E; [|done]. apply H8, H6 in E. congruence.
Qed.
End marks.

(** Marks that can be followed from the given commits, through marked commits,
    are cleared; nothing else changes. *)
Definition marked_step (m : memory) (mark : Z) (a b : Z) : Prop := b ∈ parents (the m a) ∧ has m b mark = true.
Lemma clear_commit_marks_many_ok m commits mark : has m 0 mark = false →
  (∀ c, has m c mark = true → ∃ r, r ∈ commits ∧ has m r mark = true ∧ rtc (marked_step m mark) r c) →
  returns (clear_commit_marks_many m commits mark) (λ m', mem_commits m' = mem_commits m ∧ ∀ c, flags m' c = Z.ldiff (flags m c) mark).
Proof.
  intros H0 Hr. eapply wp_mono; [|apply (clear_many_wp mark m); [done|]]. 2: { split; [done|auto|]. intros c p H1 H2. congruence. }
  intros m' (H1 & _ & H3). split; [apply H1|].
  assert (∀ c, has m c mark = true → has m' c mark = false) as Hall.
  { intros c Hc. destruct (Hr c Hc) as (r & Hin & Hm & Hp). clear Hc. revert c Hp. apply rtc_ind_r; [by apply H3|].
    intros c d Hp [Hd Hm'] IH. destruct (has m' d mark) eqn:E; [|done]. assert (has m c mark = true) as Hc.
    { apply rtc_inv_r in Hp as [<-|(? & _ & _ & ?)]; done. }
    pose proof (clearing_left _ _ _ _ H1 c d Hc IH Hd E) as Hn. by apply elem_of_nil in Hn. }
  intros c. destruct (clearing_flags _ _ _ _ H1 c) as [E|E]; [|done]. destruct (has m c mark) eqn:Hc.
  - rewrite <-(has_flags m' m c mark E) in Hc. rewrite Hall in Hc; [done|]. by rewrite <-(has_flags m' m c mark E).
  - rewrite E. symmetry. apply ldiff_not_marked. unfold has in Hc. apply negb_false_iff in Hc. lia.
Qed.
Lemma clear_many_app a b mark : ∀ m, clear_commit_marks_many m (a ++ b) mark = let! m := clear_commit_marks_many m a mark in clear_commit_marks_many m b mark.
Proof.
  induction a as [|c a IH]; intros m; [done|]. cbn [clear_commit_marks_many app]. destruct (clear_commit_marks_1 _ m [] c mark) as [[m1 l1]| | |]; [|done..].
  cbn [obind]. destruct (clear_list _ m1 l1 mark); [|done..]. cbn [obind]. apply IH.
Qed.
(** Clearing marks leaves the rest of the commits alone. *)
Lemma clear_1_commits mark fuel : ∀ m l c m' l', clear_commit_marks_1 fuel m l c mark = Ret (m', l') → mem_commits m' = mem_commits m.
Proof.
  induction fuel as [|fuel IH]; intros m l c m' l'; cbn [clear_commit_marks_1]; [done|]. destruct (c =? 0); [by intros [= <- <-]|]. destruct (negb _); [by intros [= <- <-]|].
  destruct (parents _); [by intros [= <- <-]|]. intros H. by apply IH in H.
Qed.
Lemma clear_list_commits mark fuel : ∀ m l m', clear_list fuel m l mark = Ret m' → mem_commits m' = mem_commits m.
Proof.
  induction fuel as [|fuel IH]; intros m l m'; cbn [clear_list]; [done|]. destruct l as [|c l]; [by intros [= <-]|]. intros ([m1 l1] & E1 & E2)%obind_Ret_inv.
  apply IH in E2. rewrite E2. by eapply clear_1_commits.
Qed.
Lemma clear_many_commits mark cs : ∀ m m', clear_commit_marks_many m cs mark = Ret m' → mem_commits m' = mem_commits m.
Proof.
  induction cs as [|c cs IH]; intros m m'; cbn [clear_commit_marks_many]; [by intros [= <-]|]. intros ([m1 l1] & E1 & E2)%obind_Ret_inv. apply obind_Ret_inv in E2 as (m2 & E2 & E3).
  apply IH in E3. rewrite E3. apply clear_list_commits in E2. rewrite E2. by eapply clear_1_commits.
Qed.
End Commit.
