(* ===== verification/CommitReach.v ===== *)
(** * Reachability between commits (commit-reach.c)

    Merge bases, ancestry tests and the reduction of a set of commits to the
    independent ones, by walks that paint commits with flag bits: a queue ordered
    by generation number and date, or depth-first search with a stack. *)
From stdpp Require Import prelude gmap.
From S2P Require Import Prelude Order PrioQueue Commit.
Import PrioQueue Commit.

Module CommitReach.

Definition PARENT1 : Z := Z.shiftl 1 16.
Definition PARENT2 : Z := Z.shiftl 1 17.
Definition STALE : Z := Z.shiftl 1 18.
Definition RESULT : Z := Z.shiftl 1 19.
Definition all_flags : Z := Z.lor (Z.lor (Z.lor PARENT1 PARENT2) STALE) RESULT.

Definition compare_commits_by_gen (m : memory) (a b : Z) : Z :=
  let generation_a := commit_graph_generation m a in
  let generation_b := commit_graph_generation m b in
  if generation_a <? generation_b then -1
  else if generation_b <? generation_a then 1
  else if date (the m a) <? date (the m b) then -1
  else if date (the m b) <? date (the m a) then 1
  else 0.

Abbreviation queue := (@prio_queue Z).
Definition queue_has_nonstale (m : memory) (q : queue) : bool :=
  existsb (λ e, negb (has m (data e) STALE)) (array q).

(** The comparison callback reads the commits as they are in memory when the
    queue is used. *)
Definition with_compare (q : queue) (cmp : Z → Z → Z) : queue :=
  Prio_queue (Some cmp) (insertion_ctr q) (alloc q) (array q).

(** The names of commits that can occur: those that can be read, and their
    parents. *)
Definition ids (st : gmap Z commit_data) : gset Z :=
  map_fold (λ c d acc, {[ c ]} ∪ list_to_set (d_parents d) ∪ acc) ∅ st.

Section commit_reach.
Context (r : repository).
Context `{!Qsort}.
Implicit Types (m : memory) (q : queue).

(** ** Painting down to the common ancestors *)
Section paint.
Context (cmp : memory → Z → Z → Z) (min_generation : Z) (ignore_missing_commits : bool).

(** [while (parents)]: false when a commit is missing. *)
Fixpoint paint_parents m q (fl : Z) (ps : list Z) : outcome (memory * queue * bool) :=
  match ps with
  | [] => Ret (m, q, true)
  | p :: ps =>
      if Z.land (flags m p) fl =? fl then paint_parents m q fl ps
      else
        let '(ret, m) := repo_parse_commit r m p in
        if negb (ret =? 0) then Ret (m, q, false)
        else
          let m := or_flags m p fl in
          let! q := prio_queue_put (with_compare q (cmp m)) p in
          paint_parents m q fl ps
  end.
(** A commit found on both sides is a result; its parents become stale. *)
Definition paint_commit m (commit : Z) (result : list Z) : memory * list Z * Z :=
  let fl := Z.land (flags m commit) (Z.lor (Z.lor PARENT1 PARENT2) STALE) in
  if fl =? Z.lor PARENT1 PARENT2 then
    let '(m, result) := if has m commit RESULT then (m, result)
                        else let m := or_flags m commit RESULT in (m, commit_list_insert_by_date m commit result) in
    (m, result, Z.lor fl STALE)
  else (m, result, fl).
(** [while (queue_has_nonstale(&queue))]: the return value and the result. *)
Fixpoint paint_loop (fuel : nat) m q (last_gen : Z) (result : list Z) : outcome (Z * memory * list Z) :=
  match fuel with
  | O => NoFuel
  | S fuel =>
      if queue_has_nonstale m q then
        let! (top, q) := prio_queue_get (with_compare q (cmp m)) in
        match top with
        | None => UB
        | Some commit =>
            let generation := commit_graph_generation m commit in
            if negb (min_generation =? 0) && (last_gen <? generation) then Die
            else if generation <? min_generation then Ret (0, m, result)
            else
              let '(m, result, fl) := paint_commit m commit result in
              let! (m, q, ok) := paint_parents m q fl (parents (the m commit)) in
              if ok : bool then paint_loop fuel m q generation result
              else Ret (if ignore_missing_commits then 0 else -1, m, [])
        end
      else Ret (0, m, result)
  end.
(** [for (i = 0; i < n; i++)]. *)
Fixpoint paint_twos m q (twos : list Z) : outcome (memory * queue) :=
  match twos with
  | [] => Ret (m, q)
  | two :: twos =>
      let m := or_flags m two PARENT2 in
      let! q := prio_queue_put (with_compare q (cmp m)) two in
      paint_twos m q twos
  end.
End paint.

Definition paint_down_to_common m (one : Z) (twos : list Z) (min_generation : Z) (ignore_missing_commits : bool) (result : list Z)
  : outcome (Z * memory * list Z) :=
  let cmp := if (min_generation =? 0) && negb (corrected_commit_dates_enabled r)
             then compare_commits_by_commit_date else compare_commits_by_gen_then_commit_date in
  let m := or_flags m one PARENT1 in
  match twos with
  | [] => Ret (0, m, commit_list_append one result)
  | _ =>
      let! q := prio_queue_put (Prio_queue (Some (cmp m)) 0 0 []) one in
      let! (m, q) := paint_twos cmp m q twos in
      paint_loop cmp min_generation ignore_missing_commits (length twos + 2 + 3 * size (ids (store r))) m q GENERATION_NUMBER_INFINITY result
  end.

(** The commits are parsed in turn: [Some ret] to return at once. *)
Fixpoint parse_twos m (twos : list Z) : option Z * memory :=
  match twos with
  | [] => (None, m)
  | two :: twos =>
      if two =? 0 then (Some 0, m)
      else
        let '(ret, m) := repo_parse_commit r m two in
        if negb (ret =? 0) then (Some (-1), m) else parse_twos m twos
  end.
(** [while (list)]. *)
Fixpoint collect_nonstale m (l result : list Z) : list Z :=
  match l with
  | [] => result
  | commit :: l => collect_nonstale m l (if has m commit STALE then result else commit_list_insert_by_date m commit result)
  end.
Definition merge_bases_many m (one : Z) (twos : list Z) (result : list Z) : outcome (Z * memory * list Z) :=
  if existsb (Z.eqb one) twos then Ret (0, m, commit_list_insert one result)
  else if one =? 0 then Ret (0, m, result)
  else
    let '(ret, m) := repo_parse_commit r m one in
    if negb (ret =? 0) then Ret (-1, m, result)
    else
      let '(early, m) := parse_twos m twos in
      match early with
      | Some ret => Ret (ret, m, result)
      | None =>
          let! (ret, m, l) := paint_down_to_common m one twos 0 false [] in
          if negb (ret =? 0) then Ret (-1, m, result)
          else Ret (0, m, collect_nonstale m l result)
      end.

(** ** Removing commits that are ancestors of others *)

Fixpoint parse_all m (cs : list Z) : memory :=
  match cs with
  | [] => m
  | c :: cs => parse_all (repo_parse_commit r m c).2 cs
  end.
(** [for (j = filled = 0; j < cnt; j++)]: [filled_index], [work] and the
    smallest generation. *)
Fixpoint fill_work m (array redundant : list Z) (i j min_generation : Z) : list Z * list Z * Z :=
  match array, redundant with
  | c :: array, red :: redundant =>
      if (i =? j) || negb (red =? 0) then fill_work m array redundant i (j + 1) min_generation
      else
        let curr_generation := commit_graph_generation m c in
        let '(filled_index, work, g) := fill_work m array redundant i (j + 1) (if curr_generation <? min_generation then curr_generation else min_generation) in
        (j :: filled_index, c :: work, g)
  | _, _ => ([], [], min_generation)
  end.
(** [for (j = 0; j < filled; j++)]. *)
Fixpoint mark_redundant m (filled_index work redundant : list Z) : outcome (list Z) :=
  match filled_index, work with
  | k :: filled_index, c :: work =>
      let! redundant := (if has m c PARENT1 then wr redundant k 1 else Ret redundant) in
      mark_redundant m filled_index work redundant
  | _, _ => Ret redundant
  end.
(** [for (i = 0; i < cnt; i++)]: [None] for the error. *)
Fixpoint redundant_loop (fuel : nat) m (array redundant : list Z) (i : Z) : outcome (memory * option (list Z)) :=
  match fuel with
  | O => Ret (m, Some redundant)
  | S fuel =>
      let! c := rd array i in
      let! red := rd redundant i in
      if negb (red =? 0) then redundant_loop fuel m array redundant (i + 1)
      else
        let '(filled_index, work, min_generation) := fill_work m array redundant i 0 (commit_graph_generation m c) in
        let! (ret, m, _) := paint_down_to_common m c work min_generation false [] in
        if negb (ret =? 0) then
          let! m := clear_commit_marks m c all_flags in
          let! m := clear_commit_marks_many m work all_flags in
          Ret (m, None)
        else
          let! redundant := (if has m c PARENT2 then wr redundant i 1 else Ret redundant) in
          let! redundant := mark_redundant m filled_index work redundant in
          let! m := clear_commit_marks m c all_flags in
          let! m := clear_commit_marks_many m work all_flags in
          redundant_loop fuel m array redundant (i + 1)
  end.
(** What is left at the front of the array. *)
Fixpoint not_redundant (array redundant : list Z) : list Z :=
  match array, redundant with
  | c :: array, red :: redundant => if red =? 0 then c :: not_redundant array redundant else not_redundant array redundant
  | _, _ => []
  end.
Definition remove_redundant_no_gen m (array : list Z) : outcome (memory * option (list Z)) :=
  if zlen array =? 0 then Die
  else
    let m := parse_all m array in
    let! (m, red) := redundant_loop (length array) m array (zrep (zlen array) 0) 0 in
    match red with
    | None => Ret (m, None)
    | Some redundant => Ret (m, Some (not_redundant array redundant))
    end.

(** [while (parents)] over the parents of an input commit. *)
Fixpoint walk_start_parents m (ps walk_start : list Z) : memory * list Z :=
  match ps with
  | [] => (m, walk_start)
  | p :: ps =>
      let m := (repo_parse_commit r m p).2 in
      if has m p STALE then walk_start_parents m ps walk_start
      else walk_start_parents (or_flags m p STALE) ps (walk_start ++ [p])
  end.
(** [for (i = 0; i < cnt; i++)]: mark all parents of the input. *)
Fixpoint walk_start_loop m (array walk_start : list Z) : memory * list Z :=
  match array with
  | [] => (m, walk_start)
  | c :: array =>
      let m := (repo_parse_commit r m c).2 in
      let m := or_flags m c RESULT in
      let '(m, walk_start) := walk_start_parents m (parents (the m c)) walk_start in
      walk_start_loop m array walk_start
  end.
Definition clear_all m (cs : list Z) (f : Z) : memory := foldl (λ m c, clear_flags m c f) m cs.
(** [while (min_gen_pos < cnt - 1 && ...)]. *)
Fixpoint next_nonstale (fuel : nat) m (sorted : list Z) (min_gen_pos : Z) : outcome Z :=
  match fuel with
  | O => NoFuel
  | S fuel =>
      if min_gen_pos <? zlen sorted - 1 then
        let! c := rd sorted min_gen_pos in
        if has m c STALE then next_nonstale fuel m sorted (min_gen_pos + 1) else Ret min_gen_pos
      else Ret min_gen_pos
  end.
Fixpoint first_nonstale m (ps : list Z) : option Z :=
  match ps with
  | [] => None
  | p :: ps => if has m p STALE then first_nonstale m ps else Some p
  end.
(** The variables of the walk besides memory. *)
Record walk := Walk { count_still_independent : Z; min_gen_pos : Z; walk_min_generation : Z }.
(** [if (c->object.flags & RESULT)]: true for the [break]. *)
Definition walk_result m (sorted : list Z) (w : walk) (c : Z) : outcome (memory * walk * bool) :=
  if has m c RESULT then
    let m := clear_flags m c RESULT in
    let count := count_still_independent w - 1 in
    if count <=? 1 then Ret (m, Walk count (min_gen_pos w) (walk_min_generation w), true)
    else
      let! s := rd sorted (min_gen_pos w) in
      if c =? s then
        let! pos := next_nonstale (length sorted) m sorted (min_gen_pos w) in
        let! s := rd sorted pos in
        Ret (m, Walk count pos (commit_graph_generation m s), false)
      else Ret (m, Walk count (min_gen_pos w) (walk_min_generation w), false)
  else Ret (m, w, false).
(** [while (stack)]. *)
Fixpoint walk_stack (fuel : nat) m (sorted : list Z) (w : walk) (stack : list Z) : outcome (memory * walk) :=
  match fuel with
  | O => NoFuel
  | S fuel =>
      match stack with
      | [] => Ret (m, w)
      | c :: rest =>
          let m := (repo_parse_commit r m c).2 in
          let! (m, w, stop) := walk_result m sorted w c in
          if stop : bool then Ret (m, w)
          else if commit_graph_generation m c <? walk_min_generation w then walk_stack fuel m sorted w rest
          else
            match first_nonstale m (parents (the m c)) with
            | Some p => walk_stack fuel (or_flags m p STALE) sorted w (commit_list_insert p stack)
            | None => walk_stack fuel m sorted w rest
            end
      end
  end.
(** [for (i = walk_start_nr; i && count_still_independent > 1; i--)]: from the
    last of [walk_start] to the first. *)
Fixpoint walk_loop m (sorted : list Z) (w : walk) (starts : list Z) : outcome (memory * walk) :=
  match starts with
  | [] => Ret (m, w)
  | c :: starts =>
      if 1 <? count_still_independent w then
        let! (m, w) := walk_stack (3 + 2 * size (ids (store r))) (or_flags m c STALE) sorted w [c] in
        walk_loop m sorted w starts
      else Ret (m, w)
  end.
Definition sort_commits m (cs : list Z) : list Z := if 1 <? zlen cs then qsort (compare_commits_by_gen m) cs else cs.
Definition remove_redundant_with_gen m (array : list Z) : outcome (memory * option (list Z)) :=
  let sorted := sort_commits m array in
  let! s := rd sorted 0 in
  let min_generation := commit_graph_generation m s in
  let '(m, walk_start) := walk_start_loop m array [] in
  let walk_start := sort_commits m walk_start in
  let m := clear_all m walk_start STALE in
  let! (m, _) := walk_loop m sorted (Walk (zlen array) 0 min_generation) (reverse walk_start) in
  let m := clear_all m array RESULT in
  let left := filter (λ c, has m c STALE = false) array in
  let! m := clear_commit_marks_many m walk_start STALE in
  Ret (m, Some left).

Definition remove_redundant m (array : list Z) : outcome (memory * option (list Z)) :=
  if generation_numbers_enabled r && existsb (λ c, commit_graph_generation m c <? GENERATION_NUMBER_INFINITY) array
  then remove_redundant_with_gen m array
  else remove_redundant_no_gen m array.

(** ** Merge bases *)
Definition insert_all_by_date m (cs result : list Z) : list Z := foldl (λ l c, commit_list_insert_by_date m c l) result cs.
Definition get_merge_bases_many_0 m (one : Z) (twos : list Z) (cleanup : bool) (result : list Z) : outcome (Z * memory * list Z) :=
  let! (ret, m, result) := merge_bases_many m one twos result in
  if ret <? 0 then Ret (-1, m, result)
  else if existsb (Z.eqb one) twos then Ret (0, m, result)
  else if zlen result <=? 1 then
    if cleanup then
      let! m := clear_commit_marks m one all_flags in
      let! m := clear_commit_marks_many m twos all_flags in
      Ret (0, m, result)
    else Ret (0, m, result)
  else
    let! m := clear_commit_marks m one all_flags in
    let! m := clear_commit_marks_many m twos all_flags in
    let! (m, rslt) := remove_redundant m result in
    match rslt with
    | None => Ret (-1, m, [])
    | Some rslt => Ret (0, m, insert_all_by_date m rslt [])
    end.
Definition repo_get_merge_bases_many m (one : Z) (twos result : list Z) : outcome (Z * memory * list Z) :=
  get_merge_bases_many_0 m one twos true result.
Definition repo_get_merge_bases_many_dirty m (one : Z) (twos result : list Z) : outcome (Z * memory * list Z) :=
  get_merge_bases_many_0 m one twos false result.
Definition repo_get_merge_bases m (one two : Z) (result : list Z) : outcome (Z * memory * list Z) :=
  get_merge_bases_many_0 m one [two] true result.

(** [for (j = *result; j; j = j->next)]: [None] for the error. *)
Fixpoint octopus_bases m (item : Z) (js new_commits : list Z) : outcome (memory * option (list Z)) :=
  match js with
  | [] => Ret (m, Some new_commits)
  | j :: js =>
      let! (ret, m, bases) := repo_get_merge_bases m item j [] in
      if ret <? 0 then Ret (m, None) else octopus_bases m item js (new_commits ++ bases)
  end.
(** [for (i = in->next; i; i = i->next)]. *)
Fixpoint octopus_loop m (items result : list Z) : outcome (Z * memory * list Z) :=
  match items with
  | [] => Ret (0, m, result)
  | i :: items =>
      let! (m, new_commits) := octopus_bases m i result [] in
      match new_commits with
      | None => Ret (-1, m, [])
      | Some new_commits => octopus_loop m items new_commits
      end
  end.
Definition get_octopus_merge_bases m (in_ result : list Z) : outcome (Z * memory * list Z) :=
  match in_ with
  | [] => Ret (0, m, result)
  | c :: next => octopus_loop m next (commit_list_insert c result)
  end.

(** ** Ancestry *)
(** The references are parsed in turn: [None] when one is missing, else the
    largest generation. *)
Fixpoint parse_references m (reference : list Z) (max_generation : Z) : option Z * memory :=
  match reference with
  | [] => (Some max_generation, m)
  | c :: reference =>
      let '(ret, m) := repo_parse_commit r m c in
      if negb (ret =? 0) then (None, m)
      else
        let generation := commit_graph_generation m c in
        parse_references m reference (if max_generation <? generation then generation else max_generation)
  end.
Definition repo_in_merge_bases_many m (commit : Z) (reference : list Z) (ignore_missing_commits : bool) : outcome (Z * memory) :=
  let missing := if ignore_missing_commits then 0 else -1 in
  let '(ret, m) := repo_parse_commit r m commit in
  if negb (ret =? 0) then Ret (missing, m)
  else
    let '(max, m) := parse_references m reference GENERATION_NUMBER_ZERO in
    match max with
    | None => Ret (missing, m)
    | Some max_generation =>
        let generation := commit_graph_generation m commit in
        if max_generation <? generation then Ret (0, m)
        else
          let! (ret, m, _) := paint_down_to_common m commit reference generation ignore_missing_commits [] in
          let ret := if negb (ret =? 0) then -1 else if has m commit PARENT2 then 1 else 0 in
          let! m := clear_commit_marks m commit all_flags in
          let! m := clear_commit_marks_many m reference all_flags in
          Ret (ret, m)
    end.

(** [reduce_heads]: the heads without duplicates. *)
Fixpoint uniquify m (heads : list Z) : list Z * memory :=
  match heads with
  | [] => ([], m)
  | c :: heads =>
      if has m c STALE then
        let '(array, m) := uniquify (clear_flags m c STALE) heads in
        (c :: array, m)
      else uniquify m heads
  end.
Definition reduce_heads m (heads : list Z) : outcome (memory * list Z) :=
  match heads with
  | [] => Ret (m, [])
  | _ =>
      let m := clear_all m heads STALE in
      let m := foldl (λ m c, if has m c STALE then m else or_flags m c STALE) m heads in
      let '(array, m) := uniquify m heads in
      let! (m, res) := remove_redundant m array in
      match res with
      | None => Ret (m, [])
      | Some array => Ret (m, array)
      end
  end.


(** ** Depth-first search for a flag *)
Section can_all_from_reach.
Context (with_flag assign_flag min_commit_date min_generation : Z).

(** [for (parent = stack->item->parents; ...)]: a parent to go on with. *)
Fixpoint reach_parents m (c : Z) (ps : list Z) : memory * option Z :=
  match ps with
  | [] => (m, None)
  | p :: ps =>
      let m := if has m p (Z.lor with_flag RESULT) then or_flags m c RESULT else m in
      if has m p assign_flag then reach_parents m c ps
      else
        let m := or_flags m p assign_flag in
        let '(ret, m) := repo_parse_commit r m p in
        if negb (ret =? 0) || (date (the m p) <? min_commit_date) || (commit_graph_generation m p <? min_generation) then reach_parents m c ps
        else (m, Some p)
  end.
(** [while (stack)]. *)
Fixpoint reach_stack (fuel : nat) m (stack : list Z) : outcome memory :=
  match fuel with
  | O => NoFuel
  | S fuel =>
      match stack with
      | [] => Ret m
      | c :: rest =>
          if has m c (Z.lor with_flag RESULT) then
            reach_stack fuel (match rest with [] => m | d :: _ => or_flags m d RESULT end) rest
          else
            let '(m, parent) := reach_parents m c (parents (the m c)) in
            match parent with
            | Some p => reach_stack fuel m (commit_list_insert p stack)
            | None => reach_stack fuel m rest
            end
      end
  end.
(** [for (i = 0; i < nr_commits; i++)]: whether all commits reach. *)
Fixpoint reach_each m (l : list Z) : outcome (memory * bool) :=
  match l with
  | [] => Ret (m, true)
  | c :: l =>
      let! m := reach_stack (3 + 2 * size (ids (store r))) (or_flags m c assign_flag) [c] in
      if has m c (Z.lor with_flag RESULT) then reach_each m l else Ret (m, false)
  end.
(** [for (i = 0; i < from->nr; i++)], for objects that are commits: the list,
    and false for the [goto cleanup]. *)
Fixpoint reach_list m (from : list Z) : memory * list Z * bool :=
  match from with
  | [] => (m, [], true)
  | c :: from =>
      if has m c assign_flag then reach_list m from
      else
        let '(ret, m) := repo_parse_commit r m c in
        if negb (ret =? 0) || (commit_graph_generation m c <? min_generation) then (m, [], false)
        else
          let '(m, l, ok) := reach_list m from in
          (m, c :: l, ok)
  end.
Definition can_all_from_reach_with_flag m (from : list Z) : outcome (bool * memory) :=
  let '(m, l, ok) := reach_list m from in
  let l' := if ok then sort_commits m l else l in
  let! (m, result) := (if ok then reach_each m l' else Ret (m, false)) in
  let! m := clear_commit_marks_many m l' (Z.lor RESULT assign_flag) in
  Ret (result, clear_all m from assign_flag).
End can_all_from_reach.

(** The commits are parsed in turn; the smallest date and generation. *)
Fixpoint reach_bounds m (cs : list Z) (flag min_commit_date min_generation : Z) : memory * Z * Z :=
  match cs with
  | [] => (m, min_commit_date, min_generation)
  | c :: cs =>
      let '(ret, m) := repo_parse_commit r m c in
      let min_commit_date' := if (ret =? 0) && (date (the m c) <? min_commit_date) then date (the m c) else min_commit_date in
      let min_generation' := if (ret =? 0) && (commit_graph_generation m c <? min_generation) then commit_graph_generation m c else min_generation in
      reach_bounds (if flag =? 0 then m else or_flags m c flag) cs flag min_commit_date' min_generation'
  end.
Definition can_all_from_reach m (from to : list Z) (cutoff_by_min_date : bool) : outcome (bool * memory) :=
  let! min_commit_date := (if cutoff_by_min_date then let! f := rd from 0 in Ret (date (the m f)) else Ret 0) in
  let '(m, min_commit_date, min_generation) := reach_bounds m from 0 min_commit_date GENERATION_NUMBER_INFINITY in
  let '(m, min_commit_date, min_generation) := reach_bounds m to PARENT2 min_commit_date min_generation in
  let! (result, m) := can_all_from_reach_with_flag PARENT2 PARENT1 min_commit_date min_generation m from in
  let! m := clear_commit_marks_many m from PARENT1 in
  let! m := clear_commit_marks_many m to PARENT2 in
  Ret (result, m).

(** [while (with_commit)]. *)
Fixpoint descendant_loop m (commit : Z) (with_commit : list Z) : outcome (Z * memory) :=
  match with_commit with
  | [] => Ret (0, m)
  | other :: with_commit =>
      let! (ret, m) := repo_in_merge_bases_many m other [commit] false in
      if negb (ret =? 0) then Ret (ret, m) else descendant_loop m commit with_commit
  end.
Definition repo_is_descendant_of m (commit : Z) (with_commit : list Z) : outcome (Z * memory) :=
  match with_commit with
  | [] => Ret (1, m)
  | _ =>
      if generation_numbers_enabled r then
        let! (result, m) := can_all_from_reach m [commit] with_commit false in
        Ret (Z.b2z result, m)
      else descendant_loop m commit with_commit
  end.
Definition repo_in_merge_bases m (commit reference : Z) : outcome (Z * memory) :=
  repo_is_descendant_of m reference (commit_list_append commit []).
End commit_reach.
End CommitReach.
