(* ===== verification/CommitPaint.v ===== *)
(** * Painting down to the common ancestors: the invariant of the walk

    History as a relation between commits and their parents, what memory says
    about it, and the walk of [paint_down_to_common]: the marks it leaves are
    sound, and complete for every commit that is not strictly below a common
    ancestor. *)
From stdpp Require Import prelude gmap sorting relations.
From S2P Require Import Prelude Order PrioQueue Commit CommitReach.
Import PrioQueue Commit CommitReach.

(** ** Flag bits *)
Definition bit (m : memory) (c i : Z) : bool := Z.testbit (flags m c) i.
Lemma land_shiftl_1 x i : 0 <= i → negb (Z.land x (Z.shiftl 1 i) =? 0) = Z.testbit x i.
Proof.
  intros Hi. rewrite Z.shiftl_1_l. destruct (Z.testbit x i) eqn:E.
  - apply negb_true_iff, Z.eqb_neq. intros H0. pose proof (f_equal (λ z, Z.testbit z i) H0) as H1. cbn beta in H1.
    by rewrite Z.land_spec, Z.pow2_bits_true, E, Z.bits_0 in H1.
  - apply negb_false_iff, Z.eqb_eq, Z.bits_inj'. intros n Hn. rewrite Z.land_spec, Z.pow2_bits_eqb, Z.bits_0 by done.
    destruct (Z.eqb_spec i n) as [<-|]; [by rewrite E|by rewrite andb_false_r].
Qed.
Lemma has_PARENT1 m c : has m c PARENT1 = bit m c 16.
Proof. by apply land_shiftl_1. Qed.
Lemma has_PARENT2 m c : has m c PARENT2 = bit m c 17.
Proof. by apply land_shiftl_1. Qed.
Lemma has_STALE m c : has m c STALE = bit m c 18.
Proof. by apply land_shiftl_1. Qed.
Lemma has_RESULT m c : has m c RESULT = bit m c 19.
Proof. by apply land_shiftl_1. Qed.
Lemma all_flags_bit i : 0 <= i → Z.testbit all_flags i = (16 <=? i) && (i <=? 19).
Proof.
  intros Hi. unfold all_flags, PARENT1, PARENT2, STALE, RESULT. rewrite !Z.lor_spec, !Z.shiftl_1_l, !Z.pow2_bits_eqb by lia.
  destruct (Z.eqb_spec 16 i), (Z.eqb_spec 17 i), (Z.eqb_spec 18 i), (Z.eqb_spec 19 i), (Z.leb_spec 16 i), (Z.leb_spec i 19); try done; lia.
Qed.
Lemma land_zero_bits x y : Z.land x y = 0 ↔ ∀ i, 0 <= i → Z.testbit y i = true → Z.testbit x i = false.
Proof.
  split.
  - intros H i Hi Hy. pose proof (f_equal (λ z, Z.testbit z i) H) as H1. cbn beta in H1. rewrite Z.land_spec, Hy, Z.bits_0, andb_true_r in H1. done.
  - intros H. apply Z.bits_inj'. intros i Hi. rewrite Z.land_spec, Z.bits_0. destruct (Z.testbit y i) eqn:E; [by rewrite H|by rewrite andb_false_r].
Qed.
Lemma has_all_flags m c : has m c all_flags = true ↔ bit m c 16 = true ∨ bit m c 17 = true ∨ bit m c 18 = true ∨ bit m c 19 = true.
Proof.
  unfold has. rewrite negb_true_iff, Z.eqb_neq. rewrite land_zero_bits. split.
  - intros H. destruct (bit m c 16) eqn:E16; [auto|]. destruct (bit m c 17) eqn:E17; [auto|]. destruct (bit m c 18) eqn:E18; [auto|]. destruct (bit m c 19) eqn:E19; [auto|].
    destruct H. intros i Hi Hb. rewrite all_flags_bit in Hb by done. assert (i = 16 ∨ i = 17 ∨ i = 18 ∨ i = 19) as [->|[->|[->| ->]]] by lia; done.
  - intros H H'. destruct H as [H|[H|[H|H]]]; unfold bit in H; rewrite H' in H; done.
Qed.
Lemma has_all_flags_false m c : has m c all_flags = false ↔ ∀ i, 16 <= i <= 19 → bit m c i = false.
Proof.
  rewrite <-not_true_iff_false, has_all_flags. split.
  - intros H i Hi. destruct (bit m c i) eqn:E; [|done]. destruct H. assert (i = 16 ∨ i = 17 ∨ i = 18 ∨ i = 19) as [->|[->|[->| ->]]] by lia; auto.
  - intros H [E|[E|[E|E]]]; rewrite H in E by lia; done.
Qed.
Lemma bit_or m c f c' i : bit (or_flags m c f) c' i = bit m c' i || (bool_decide (c = c') && Z.testbit f i).
Proof. unfold bit. rewrite flags_or. case_decide as E; [by rewrite bool_decide_true, Z.lor_spec|by rewrite bool_decide_false, orb_false_r]. Qed.
Lemma bit_clear m c f c' i : bit (clear_flags m c f) c' i = bit m c' i && negb (bool_decide (c = c') && Z.testbit f i).
Proof. unfold bit. rewrite flags_clear. case_decide as E; [by rewrite bool_decide_true, Z.ldiff_spec|by rewrite bool_decide_false, andb_true_r]. Qed.
Lemma bit_ldiff m m' c f i : flags m' c = Z.ldiff (flags m c) f → bit m' c i = bit m c i && negb (Z.testbit f i).
Proof. unfold bit. intros ->. by rewrite Z.ldiff_spec. Qed.
Lemma testbit_shiftl_1 k i : 0 <= k → Z.testbit (Z.shiftl 1 k) i = (k =? i).
Proof. intros Hk. rewrite Z.shiftl_1_l. by apply Z.pow2_bits_eqb. Qed.

(** A set of marks that a walk passes on: [x], [y], [z] say which of the bits
    of PARENT1, PARENT2 and STALE it has. *)
Definition paint_bits (fl : Z) (x y z : bool) : Prop :=
  ∀ i, 0 <= i → Z.testbit fl i = ((16 =? i) && x) || ((17 =? i) && y) || ((18 =? i) && z).
Lemma paint_bits_covered fl x y z f : paint_bits fl x y z →
  Z.land f fl = fl ↔ (x = true → Z.testbit f 16 = true) ∧ (y = true → Z.testbit f 17 = true) ∧ (z = true → Z.testbit f 18 = true).
Proof.
  intros H. split.
  - intros E. assert (∀ i, 0 <= i → Z.testbit fl i = true → Z.testbit f i = true) as G.
    { intros i Hi Hb. rewrite <-E, Z.land_spec in Hb. by apply andb_true_iff in Hb as [? _]. }
    split_and!; intros ->; (apply G; [done|]); rewrite H by done; cbn; by rewrite ?orb_true_r.
  - intros (H1 & H2 & H3). apply Z.bits_inj'. intros i Hi. rewrite Z.land_spec, H by done.
    destruct (Z.eqb_spec 16 i) as [<-|]; [destruct x; [by rewrite H1|by rewrite andb_false_r]|].
    destruct (Z.eqb_spec 17 i) as [<-|]; [destruct y; [by rewrite H2|by rewrite andb_false_r]|].
    destruct (Z.eqb_spec 18 i) as [<-|]; [destruct z; [by rewrite H3|by rewrite andb_false_r]|]. by rewrite andb_false_r.
Qed.
Lemma paint_commit_bits f : let fl := Z.land f (Z.lor (Z.lor PARENT1 PARENT2) STALE) in
  (fl =? Z.lor PARENT1 PARENT2) = Z.testbit f 16 && Z.testbit f 17 && negb (Z.testbit f 18) ∧
  paint_bits fl (Z.testbit f 16) (Z.testbit f 17) (Z.testbit f 18) ∧
  paint_bits (Z.lor fl STALE) (Z.testbit f 16) (Z.testbit f 17) true.
Proof.
  cbn zeta. set (fl := Z.land _ _).
  assert (∀ i, 0 <= i → Z.testbit fl i = ((16 =? i) && Z.testbit f 16) || ((17 =? i) && Z.testbit f 17) || ((18 =? i) && Z.testbit f 18)) as H.
  { intros i Hi. unfold fl, PARENT1, PARENT2, STALE. rewrite Z.land_spec, !Z.lor_spec, !testbit_shiftl_1 by lia.
    destruct (Z.eqb_spec 16 i) as [<-|]; [cbn; by rewrite ?andb_true_r, ?orb_false_r|]. destruct (Z.eqb_spec 17 i) as [<-|]; [cbn; by rewrite ?andb_true_r, ?orb_false_r|].
    destruct (Z.eqb_spec 18 i) as [<-|]; [cbn; by rewrite ?andb_true_r, ?orb_false_r|]. by rewrite andb_false_r. }
  split_and!; [|done|].
  - assert (∀ i, 0 <= i → Z.testbit (Z.lor PARENT1 PARENT2) i = (16 =? i) || (17 =? i)) as H'.
    { intros i Hi. unfold PARENT1, PARENT2. by rewrite Z.lor_spec, !testbit_shiftl_1 by lia. }
    destruct (Z.eqb_spec fl (Z.lor PARENT1 PARENT2)) as [E|E].
    + assert (∀ i, 0 <= i → Z.testbit fl i = (16 =? i) || (17 =? i)) as G by (intros; rewrite E; auto).
      pose proof (G 16 ltac:(lia)) as G1. pose proof (G 17 ltac:(lia)) as G2. pose proof (G 18 ltac:(lia)) as G3. rewrite H in G1, G2, G3 by done.
      revert G1 G2 G3. destruct (Z.testbit f 16), (Z.testbit f 17), (Z.testbit f 18); cbn; intuition congruence.
    + symmetry. apply not_true_iff_false. rewrite !andb_true_iff, negb_true_iff. intros [[E1 E2] E3]. apply E, Z.bits_inj'. intros i Hi.
      rewrite H, H', E1, E2, E3 by done. by rewrite !andb_true_r, andb_false_r, orb_false_r.
  - intros i Hi. unfold STALE. rewrite Z.lor_spec, H, testbit_shiftl_1 by lia. destruct (18 =? i); [by rewrite !orb_true_r|by rewrite !orb_false_r].
Qed.

(** ** History *)
Section history.
Context (r : repository).
Implicit Types (m : memory) (c p : Z).

(** [p] is a parent of [c]. *)
Definition edge (c p : Z) : Prop := ∃ d, store r !! c = Some d ∧ p ∈ d_parents d.
Definition reaches : Z → Z → Prop := rtc edge.
Definition readable (c : Z) : Prop := is_Some (store r !! c).
Definition generation (c : Z) : Z :=
  match store r !! c with
  | Some d => if d_generation d =? 0 then GENERATION_NUMBER_INFINITY else d_generation d
  | None => GENERATION_NUMBER_INFINITY
  end.
(** No commit is its own ancestor; generation numbers do not grow from a commit
    to its parents. *)
Record history_ok : Prop := {
  history_null : store r !! 0 = None;
  history_parents c p : edge c p → p ≠ 0;
  history_acyclic c : ¬ tc edge c c;
  history_generation c p : edge c p → readable p → generation p <= generation c;
  history_infinity c : 0 < generation c <= GENERATION_NUMBER_INFINITY;
  history_date c d : store r !! c = Some d → 0 <= d_date d;
}.
(** What memory says of a commit is what reading it gives. *)
Definition coherent m : Prop := ∀ c,
  if parsed (the m c) then ∃ d, store r !! c = Some d ∧ the m c = Commit true (d_date d) (d_parents d) (d_generation d)
  else parents (the m c) = [] ∧ (graph_generation (the m c) = 0 ∨ ∃ d, store r !! c = Some d ∧ graph_generation (the m c) = d_generation d).
(** [m'] knows at least what [m] knows. *)
Definition extends m m' : Prop := ∀ c, parsed (the m c) = true → the m' c = the m c.

Lemma coherent_parsed m c : coherent m → parsed (the m c) = true → ∃ d, store r !! c = Some d ∧ the m c = Commit true (d_date d) (d_parents d) (d_generation d).
Proof. intros H E. specialize (H c). by rewrite E in H. Qed.
Lemma coherent_readable m c : coherent m → parsed (the m c) = true → readable c.
Proof. intros H E. destruct (coherent_parsed m c H E) as (d & Hd & _). by exists d. Qed.
Lemma coherent_generation m c : coherent m → parsed (the m c) = true → commit_graph_generation m c = generation c.
Proof. intros H E. destruct (coherent_parsed m c H E) as (d & Hd & Ht). unfold commit_graph_generation, generation. by rewrite Ht, Hd. Qed.
Lemma coherent_edge m c p : coherent m → p ∈ parents (the m c) → edge c p.
Proof.
  intros H Hp. destruct (parsed (the m c)) eqn:E.
  - destruct (coherent_parsed m c H E) as (d & Hd & Ht). rewrite Ht in Hp. by exists d.
  - specialize (H c). rewrite E in H. destruct H as [H _]. rewrite H in Hp. by apply elem_of_nil in Hp.
Qed.
Lemma coherent_parents m c p : coherent m → parsed (the m c) = true → edge c p → p ∈ parents (the m c).
Proof. intros H E (d & Hd & Hp). destruct (coherent_parsed m c H E) as (d' & Hd' & ->). by simplify_eq. Qed.
Lemma coherent_flags m f : coherent m → coherent (Memory f (mem_commits m)).
Proof. done. Qed.
Lemma extends_refl m : extends m m.
Proof. done. Qed.
Lemma extends_trans m m' m'' : extends m m' → extends m' m'' → extends m m''.
Proof. intros H H' c E. rewrite H' by (by rewrite H). by apply H. Qed.

Lemma parse_spec m c : history_ok → coherent m → ∃ ret m', repo_parse_commit r m c = (ret, m') ∧
  coherent m' ∧ mem_flags m' = mem_flags m ∧ extends m m' ∧ (∀ x, x ≠ c → the m' x = the m x) ∧
  ((ret = 0 ∧ readable c ∧ parsed (the m' c) = true) ∨ (ret = -1 ∧ store r !! c = None ∧ parsed (the m' c) = false ∧ m' = m)).
Proof.
  intros Hh Hc. unfold repo_parse_commit. destruct (parsed (the m c)) eqn:E.
  - destruct (Z.eqb_spec c 0) as [->|Hne].
    + destruct (coherent_parsed m 0 Hc E) as (d & Hd & _). rewrite (history_null Hh) in Hd. done.
    + exists 0, m. split_and!; try done. left. split_and!; [done|by eapply coherent_readable|done].
  - destruct (Z.eqb_spec c 0) as [->|Hne].
    + exists (-1), m. split_and!; try done. right. split_and!; [done|apply Hh|done|done].
    + destruct (store r !! c) as [d|] eqn:Hs.
      * eexists 0, _. split; [reflexivity|]. set (m' := Memory _ _).
        assert (the m' c = Commit true (d_date d) (d_parents d) (d_generation d)) as Ht. { unfold the, m'. cbn. by rewrite lookup_insert_eq. }
        assert (∀ x, x ≠ c → the m' x = the m x) as Hx. { intros x Hx. unfold the, m'. cbn. by rewrite lookup_insert_ne. }
        split_and!.
        -- intros x. destruct (decide (x = c)) as [->|Hne']; [rewrite Ht; cbn; by exists d|]. rewrite Hx by done. apply Hc.
        -- done.
        -- intros x Hp. apply Hx. congruence.
        -- done.
        -- left. rewrite Ht. split_and!; [done|by eexists|done].
      * exists (-1), m. split_and!; try done. right. done.
Qed.

(** ** Reachability *)
Lemma reaches_readable x c : reaches x c → readable c → readable x.
Proof. intros H. destruct H as [|x y c (d & Hd & _) _]; [done|]. intros _. by exists d. Qed.
Lemma reaches_generation x c : history_ok → reaches x c → readable c → generation c <= generation x.
Proof.
  intros Hh H Hc. induction H as [|x y c He H IH]; [done|]. etrans; [by apply IH|]. apply Hh; [done|]. by eapply reaches_readable.
Qed.
Lemma acyclic_antisym x y : history_ok → reaches x y → reaches y x → x = y.
Proof.
  intros Hh H1 H2. apply rtc_tc in H1 as [->|H1]; [done|]. exfalso. eapply (history_acyclic Hh x). eapply tc_rtc_r; [done|apply H2].
Qed.
Lemma acyclic_strict x y : history_ok → tc edge x y → reaches y x → False.
Proof. intros Hh H1 H2. eapply (history_acyclic Hh x). by eapply tc_rtc_r. Qed.
Lemma edge_ids c p : edge c p → p ∈ ids (store r).
Proof.
  intros (d & Hd & Hp). unfold ids. revert c d Hd Hp. apply (map_fold_weak_ind (λ acc (st : gmap Z commit_data), ∀ c d, st !! c = Some d → p ∈ d_parents d → p ∈ acc)).
  - intros c d Hd. by rewrite lookup_empty in Hd.
  - intros i x st acc Hi IH c d Hd Hp. destruct (decide (i = c)) as [->|Hne].
    + rewrite lookup_insert_eq in Hd. simplify_eq. set_solver.
    + rewrite lookup_insert_ne in Hd by done. specialize (IH c d Hd Hp). set_solver.
Qed.
End history.

(** ** Queues of commits *)

(** A comparison of commits that reads nothing but the two commits. *)
Class CommitOrder (cmp : memory → Z → Z → Z) : Prop := {
  order_cmp m : CmpOrder (cmp m);
  order_local m m' a b : the m a = the m' a → the m b = the m' b → cmp m a b = cmp m' a b;
}.
#[export] Instance by_date_order : CommitOrder compare_commits_by_commit_date.
Proof.
  split; [split|]; unfold compare_commits_by_commit_date; [intros| |by intros m m' a b -> ->]; [|intros a b c];
    repeat match goal with |- context [?x <? ?y] => destruct (Z.ltb_spec x y) end; lia.
Qed.
#[export] Instance by_gen_order : CommitOrder compare_commits_by_gen_then_commit_date.
Proof.
  split; [split|]; unfold compare_commits_by_gen_then_commit_date; cbn zeta; [intros| |by intros m m' a b Ha Hb; unfold commit_graph_generation; rewrite Ha, Hb]; [|intros a b c];
    repeat match goal with |- context [?x <? ?y] => destruct (Z.ltb_spec x y) end; lia.
Qed.
Lemma by_gen_generation m a b : compare_commits_by_gen_then_commit_date m a b <= 0 → commit_graph_generation m b <= commit_graph_generation m a.
Proof. unfold compare_commits_by_gen_then_commit_date. cbn zeta. destruct (Z.ltb_spec (commit_graph_generation m a) (commit_graph_generation m b)); lia. Qed.

Definition queued (q : queue) : list Z := data <$> array q.
Definition queue_ok (cmp : memory → Z → Z → Z) (m : memory) (q : queue) : Prop :=
  heap (cmp m) (array q) ∧ ∀ c, c ∈ queued q → parsed (the m c) = true.

Section queue.
Context (cmp : memory → Z → Z → Z) `{!CommitOrder cmp}.
#[local] Existing Instance order_cmp.

Lemma queue_ok_extends m m' q : queue_ok cmp m q → extends m m' → queue_ok cmp m' q.
Proof using CommitOrder0.
  intros [H Hp] He. split; [|intros c Hc; rewrite He; by apply Hp].
  intros i x y Hi Hx Hy. specialize (H i x y Hi Hx Hy). unfold ele, entry_cmp in *.
  rewrite (order_local m' m); [done|apply He, Hp..]; apply list_elem_of_fmap_2; by eapply znth_elem_of.
Qed.
Lemma queue_ok_empty m ct al : queue_ok cmp m (Prio_queue (Some (cmp m)) ct al []).
Proof. split; [|by intros c Hc%elem_of_nil]. intros i x y Hi Hx Hy. cbn in Hy. apply znth_Some_lt in Hy. change (zlen _) with 0 in Hy. lia. Qed.
Lemma queue_put_wp m q p : queue_ok cmp m q → parsed (the m p) = true →
  returns (prio_queue_put (with_compare q (cmp m)) p) (λ q', queue_ok cmp m q' ∧ queued q' ≡ₚ p :: queued q).
Proof using CommitOrder0.
  intros [H Hp] He. eapply wp_mono; [|apply (put_wp (cmp m)); by split]. intros q' ([_ H1] & H2 & _). cbn beta in *.
  assert (queued q' ≡ₚ p :: queued q) as E. { unfold queued. by rewrite H2. }
  split; [|done]. split; [done|]. intros c Hc. rewrite E in Hc. apply elem_of_cons in Hc as [->|Hc]; auto.
Qed.
Lemma queue_get_wp m q : queue_ok cmp m q →
  returns (prio_queue_get (with_compare q (cmp m))) (λ '(top, q'),
    match top with
    | None => queued q = []
    | Some c => queue_ok cmp m q' ∧ queued q ≡ₚ c :: queued q' ∧ ∀ x, x ∈ queued q → cmp m c x <= 0
    end).
Proof using CommitOrder0.
  intros [H Hp]. eapply wp_mono; [|apply (get_wp (cmp m)); by split]. intros [top q'] ([_ H1] & _ & H2). cbn beta iota in *.
  destruct top as [c|]; [|destruct H2 as [E _]; cbn in E; unfold queued; by rewrite E].
  destruct H2 as (e & <- & H3 & H4). cbn in H3, H4. assert (queued q ≡ₚ data e :: queued q') as E. { unfold queued. by rewrite H3. }
  split_and!; [|done|].
  - split; [done|]. intros c Hc. apply Hp. rewrite E. by right.
  - intros x Hx. apply list_elem_of_fmap in Hx as (y & -> & Hy). specialize (H4 y Hy). unfold ele, entry_cmp in H4.
    destruct (Z.eqb_spec (cmp m (data e) (data y)) 0); lia.
Qed.
End queue.
Lemma nonstale_spec m q : queue_has_nonstale m q = false ↔ ∀ c, c ∈ queued q → bit m c 18 = true.
Proof.
  unfold queue_has_nonstale, queued. rewrite <-not_true_iff_false, existsb_exists. setoid_rewrite has_STALE. split.
  - intros H c Hc. apply list_elem_of_fmap in Hc as (e & -> & He). destruct (bit m (data e) 18) eqn:E; [done|]. destruct H. exists e. rewrite E. split; [by apply list_elem_of_In|done].
  - intros H (e & He & Hb). rewrite H in Hb; [done|]. apply list_elem_of_fmap_2, list_elem_of_In, He.
Qed.

(** ** Painting *)

(** [m'] has the marks and the knowledge of [m], and perhaps more. *)
Definition grows (m m' : memory) : Prop := extends m m' ∧ ∀ c i, bit m c i = true → bit m' c i = true.
Lemma grows_trans m m' m'' : grows m m' → grows m' m'' → grows m m''.
Proof. intros [H1 H2] [H3 H4]. split; [by eapply extends_trans|auto]. Qed.
Lemma grows_all_flags m m' c : grows m m' → has m c all_flags = true → has m' c all_flags = true.
Proof. intros [_ H]. rewrite !has_all_flags. intuition auto. Qed.
Lemma grows_or m p f : grows m (or_flags m p f).
Proof. split; [done|]. intros c i E. by rewrite bit_or, E. Qed.
Lemma extends_grows m m' : extends m m' → mem_flags m' = mem_flags m → grows m m'.
Proof. intros H E. split; [done|]. unfold bit, flags. by rewrite E. Qed.
Lemma bit_same_flags m m' c i : mem_flags m' = mem_flags m → bit m' c i = bit m c i.
Proof. unfold bit, flags. by intros ->. Qed.
(** The number of marks that can still be set. *)
Definition unset (st : gmap Z commit_data) (m : memory) (i : Z) : nat := size (filter (λ c, bit m c i = false) (ids st)).
Definition missing (st : gmap Z commit_data) (m : memory) : nat := unset st m 16 + unset st m 17 + unset st m 18.
Lemma unset_mono st m m' i : grows m m' → (unset st m' i <= unset st m i)%nat.
Proof.
  intros [_ H]. apply subseteq_size. intros c. rewrite !elem_of_filter. intros [E Hc]. split; [|done].
  destruct (bit m c i) eqn:E'; [|done]. by rewrite H in E.
Qed.
Lemma unset_lt st m m' i c : grows m m' → c ∈ ids st → bit m c i = false → bit m' c i = true → (unset st m' i < unset st m i)%nat.
Proof.
  intros Hg Hc E E'. apply subset_size. split.
  - intros x. rewrite !elem_of_filter. intros [Ex Hx]. split; [|done]. destruct (bit m x i) eqn:Ex'; [|done]. destruct Hg as [_ Hg]. by rewrite Hg in Ex.
  - intros Hs. specialize (Hs c). rewrite !elem_of_filter in Hs. destruct Hs as [Hs _]; [done|]. congruence.
Qed.
Lemma missing_mono st m m' : grows m m' → (missing st m' <= missing st m)%nat.
Proof. intros H. unfold missing. pose proof (unset_mono st m m' 16 H). pose proof (unset_mono st m m' 17 H). pose proof (unset_mono st m m' 18 H). lia. Qed.
Lemma missing_lt st m m' c i : grows m m' → c ∈ ids st → i = 16 ∨ i = 17 ∨ i = 18 → bit m c i = false → bit m' c i = true → (missing st m' < missing st m)%nat.
Proof.
  intros H Hc Hi E E'. unfold missing. pose proof (unset_mono st m m' 16 H). pose proof (unset_mono st m m' 17 H). pose proof (unset_mono st m m' 18 H).
  pose proof (unset_lt st m m' i c H Hc E E'). destruct Hi as [->|[->| ->]]; lia.
Qed.

(** The list of results is kept with the newest first. *)
Definition newest_first (m : memory) (l : list Z) : Prop := StronglySorted (λ a b, date (the m b) <= date (the m a)) l.
Lemma insert_by_date_perm m c l : commit_list_insert_by_date m c l ≡ₚ c :: l.
Proof. induction l as [|p l IH]; [done|]. cbn. destruct (_ <? _); [done|]. rewrite IH. constructor. Qed.
Lemma insert_by_date_sorted m c l : newest_first m l → newest_first m (commit_list_insert_by_date m c l).
Proof.
  unfold newest_first. induction l as [|p l IH]; cbn; [intros _; repeat constructor|]. intros H. apply StronglySorted_inv in H as [H1 H2].
  destruct (Z.ltb_spec (date (the m p)) (date (the m c))).
  - constructor; [by constructor|]. constructor; [lia|]. eapply Forall_impl; [exact H2|]. cbn. lia.
  - constructor; [by apply IH|]. rewrite insert_by_date_perm. by constructor.
Qed.
Lemma newest_first_ext m m' l : (∀ c, c ∈ l → the m' c = the m c) → newest_first m l → newest_first m' l.
Proof.
  intros H. unfold newest_first. induction l as [|p l IH]; [constructor|]. intros Hs. apply StronglySorted_inv in Hs as [H1 H2]. constructor.
  - apply IH; [|done]. intros c Hc. apply H. by right.
  - rewrite Forall_forall in *. intros x Hx. rewrite (H x), (H p) by set_solver. by apply H2.
Qed.

Section painting.
Context (r : repository) (Hh : history_ok r).
Context (one : Z) (twos : list Z) (m0 : memory).

(** The ancestors of each side, and what is strictly below a common one. *)
Definition side1 (c : Z) : Prop := reaches r one c.
Definition side2 (c : Z) : Prop := ∃ t, t ∈ twos ∧ reaches r t c.
Definition below (c : Z) : Prop := ∃ w, side1 w ∧ side2 w ∧ tc (edge r) w c.

Record painting (m : memory) (res : list Z) : Prop := {
  painting_coherent : coherent r m;
  painting_extends : extends m0 m;
  painting_others c i : ¬ 16 <= i <= 19 → bit m c i = bit m0 c i;
  painting_parsed c : has m c all_flags = true → parsed (the m c) = true;
  painting_1 c : bit m c 16 = true → side1 c;
  painting_2 c : bit m c 17 = true → side2 c;
  painting_stale c : bit m c 18 = true → bit m c 16 = true ∧ bit m c 17 = true ∧ below c;
  painting_root1 : bit m one 16 = true;
  painting_root2 t : t ∈ twos → bit m t 17 = true;
  painting_linked c : has m c all_flags = true → ∃ x, x ∈ one :: twos ∧ has m x all_flags = true ∧ rtc (marked_step m all_flags) x c;
  painting_res c : bit m c 19 = true ↔ c ∈ res;
  painting_res_both c : c ∈ res → bit m c 16 = true ∧ bit m c 17 = true;
  painting_NoDup : NoDup res;
  painting_sorted : newest_first m res;
}.
(** [c] has passed its marks on to its parents. *)
Record passed_on (m : memory) (c : Z) : Prop := {
  passed_res : bit m c 16 = true → bit m c 17 = true → bit m c 18 = false → bit m c 19 = true;
  passed_1 p : p ∈ parents (the m c) → bit m c 16 = true → bit m p 16 = true;
  passed_2 p : p ∈ parents (the m c) → bit m c 17 = true → bit m p 17 = true;
  passed_stale p : p ∈ parents (the m c) → bit m c 16 = true → bit m c 17 = true → bit m p 18 = true;
}.
Definition painted (m : memory) (c : Z) : Prop := bit m c 16 = true ∨ bit m c 17 = true.

Lemma linked_mono m m' x c : coherent r m → grows m m' → rtc (marked_step m all_flags) x c → rtc (marked_step m' all_flags) x c.
Proof.
  intros Hc Hg. apply rtc_subrel. intros a b [H1 H2]. split; [|by eapply grows_all_flags]. destruct Hg as [He _].
  rewrite He; [done|]. specialize (Hc a). destruct (parsed (the m a)); [done|]. destruct Hc as [Hc _]. rewrite Hc in H1. by apply elem_of_nil in H1.
Qed.
Lemma painting_mark m m1 res c p fl x y z : painting m res → has m c all_flags = true → p ∈ parents (the m c) →
  coherent r m1 → extends m m1 → mem_flags m1 = mem_flags m → parsed (the m1 p) = true →
  paint_bits fl x y z → (x = true → bit m c 16 = true) → (y = true → bit m c 17 = true) → (z = true → x = true ∧ y = true) →
  painting (or_flags m1 p fl) res.
Proof.
  intros H Hc Hp Hc1 He Ef Hp1 Hfl Hx Hy Hz. set (m' := or_flags m1 p fl).
  assert (grows m m') as Hg. { eapply grows_trans; [by apply extends_grows|apply grows_or]. }
  assert (∀ a i, 0 <= i → bit m' a i = bit m a i || (bool_decide (p = a) && (((16 =? i) && x) || ((17 =? i) && y) || ((18 =? i) && z)))) as Hb.
  { intros a i Hi. unfold m'. by rewrite bit_or, Hfl, (bit_same_flags m m1). }
  pose proof (coherent_edge r m c p (painting_coherent _ _ H) Hp) as Hedge.
  assert (∀ a, has m' a all_flags = true → has m a all_flags = true ∨ a = p) as Hm.
  { intros a Ha. destruct (decide (p = a)) as [->|Hne]; [by right|left]. rewrite <-Ha. apply has_flags. unfold m'. rewrite flags_or, decide_False by done.
    unfold flags. by rewrite Ef. }
  split; try done.
  - eapply extends_trans; [apply H|apply Hg].
  - intros a i Hi. rewrite <-(painting_others _ _ H a i Hi). destruct (Z.ltb_spec i 0) as [Hn|Hn]; [unfold bit; by rewrite !Z.testbit_neg_r|].
    rewrite Hb by done. destruct (Z.eqb_spec 16 i), (Z.eqb_spec 17 i), (Z.eqb_spec 18 i); try lia. cbn. by rewrite andb_false_r, orb_false_r.
  - intros a Ha. destruct (Hm a Ha) as [Ha'| ->]; [|done]. change (the m' a) with (the m1 a). rewrite He; by apply (painting_parsed _ _ H).
  - intros a Ha. rewrite Hb in Ha by done. apply orb_true_iff in Ha as [Ha|Ha]; [by apply (painting_1 _ _ H)|]. cbn in Ha. rewrite !orb_false_r in Ha.
    apply andb_true_iff in Ha as [->%bool_decide_eq_true Ha]. eapply rtc_r; [apply (painting_1 _ _ H), Hx, Ha|done].
  - intros a Ha. rewrite Hb in Ha by done. apply orb_true_iff in Ha as [Ha|Ha]; [by apply (painting_2 _ _ H)|]. cbn in Ha. rewrite !orb_false_r in Ha.
    apply andb_true_iff in Ha as [->%bool_decide_eq_true Ha]. destruct (painting_2 _ _ H c (Hy Ha)) as (t & Ht & Hr). exists t. split; [done|]. by eapply rtc_r.
  - intros a Ha. rewrite Hb in Ha by done. apply orb_true_iff in Ha as [Ha|Ha].
    + destruct (painting_stale _ _ H a Ha) as (H1 & H2 & H3). split_and!; [by apply Hg|by apply Hg|done].
    + cbn in Ha. apply andb_true_iff in Ha as [->%bool_decide_eq_true Ha]. destruct (Hz Ha) as [-> ->]. rewrite !Hb by done. rewrite bool_decide_true by done. cbn. rewrite !orb_true_r.
      split_and!; [done|done|]. exists c. split_and!; [by apply (painting_1 _ _ H), Hx|by apply (painting_2 _ _ H), Hy|by apply tc_once].
  - apply Hg, (painting_root1 _ _ H).
  - intros t Ht. apply Hg. by apply (painting_root2 _ _ H).
  - intros a Ha. destruct (decide (has m a all_flags = true)) as [Ha'|Ha'].
    + destruct (painting_linked _ _ H a Ha') as (s & Hs & Hs' & Hr). exists s. split_and!; [done|by eapply grows_all_flags|]. eapply linked_mono; [apply H|done..].
    + destruct (Hm a Ha) as [?| ->]; [done|]. destruct (painting_linked _ _ H c Hc) as (s & Hs & Hs' & Hr). exists s. split_and!; [done|by eapply grows_all_flags|].
      eapply rtc_r; [eapply linked_mono; [apply H|done..]|]. split; [|done]. change (the m' c) with (the m1 c). rewrite He; [done|]. by apply (painting_parsed _ _ H).
  - intros a. rewrite Hb by done. cbn. rewrite andb_false_r, orb_false_r. apply H.
  - intros a Ha. destruct (painting_res_both _ _ H a Ha). split; by apply Hg.
  - apply H.
  - eapply newest_first_ext; [|apply (painting_sorted _ _ H)]. intros a Ha. apply Hg, (painting_parsed _ _ H), has_all_flags. left. by apply (painting_res_both _ _ H).
Qed.
Lemma painting_RESULT m res c : painting m res → bit m c 16 = true → bit m c 17 = true → bit m c 19 = false →
  let m' := or_flags m c RESULT in painting m' (commit_list_insert_by_date m' c res).
Proof.
  intros H H1 H2 H3 m'. assert (∀ a i, bit m' a i = bit m a i || (bool_decide (c = a) && (19 =? i))) as Hb.
  { intros a i. unfold m'. rewrite bit_or. unfold RESULT. by rewrite testbit_shiftl_1. }
  assert (∀ a i, i ≠ 19 → bit m' a i = bit m a i) as Hb'. { intros a i Hi. rewrite Hb. destruct (Z.eqb_spec 19 i); [done|]. by rewrite andb_false_r, orb_false_r. }
  assert (grows m m') as Hg by apply grows_or.
  assert (∀ a, has m' a all_flags = true → has m a all_flags = true) as Hm.
  { intros a. rewrite !has_all_flags, !(Hb' a) by done. rewrite Hb. intros [?|[?|[?|Ha]]]; [auto..|]. apply orb_true_iff in Ha as [?|Ha]; [auto|].
    apply andb_true_iff in Ha as [->%bool_decide_eq_true _]. auto. }
  pose proof (insert_by_date_perm m' c res) as HP. pose proof (painting_res _ _ H) as Hres.
  split.
  - apply (painting_coherent _ _ H).
  - apply (painting_extends _ _ H).
  - intros a i Hi. rewrite Hb' by lia. by apply (painting_others _ _ H).
  - intros a Ha. apply (painting_parsed _ _ H). by apply Hm.
  - intros a. rewrite Hb' by done. apply (painting_1 _ _ H).
  - intros a. rewrite Hb' by done. apply (painting_2 _ _ H).
  - intros a. rewrite !Hb' by done. apply (painting_stale _ _ H).
  - rewrite Hb' by done. apply (painting_root1 _ _ H).
  - intros t. rewrite Hb' by done. apply (painting_root2 _ _ H).
  - intros a Ha. destruct (painting_linked _ _ H a (Hm a Ha)) as (s & Hs & Hs' & Hr). exists s. split_and!; [done|by eapply grows_all_flags|]. eapply linked_mono; [apply H|done..].
  - intros a. rewrite HP, Hb, orb_true_iff, andb_true_iff, bool_decide_eq_true, elem_of_cons, (painting_res _ _ H). split; [intros [?|[-> _]]; auto|intros [->|?]; auto].
  - intros a Ha. rewrite !Hb' by done. rewrite HP in Ha. apply elem_of_cons in Ha as [->|Ha]; [done|]. by apply (painting_res_both _ _ H).
  - rewrite HP. constructor; [|apply H]. intros Hc. apply Hres in Hc. congruence.
  - apply insert_by_date_sorted. eapply newest_first_ext; [|apply (painting_sorted _ _ H)]. done.
Qed.
Lemma paint_commit_spec m res c : painting m res →
  ∃ m' res' fl, paint_commit m c res = (m', res', fl) ∧ painting m' res' ∧ mem_commits m' = mem_commits m ∧ grows m m' ∧ (∀ a i, i ≠ 19 → bit m' a i = bit m a i) ∧
    paint_bits fl (bit m c 16) (bit m c 17) (bit m c 18 || bit m c 16 && bit m c 17) ∧
    (bit m c 16 = true → bit m c 17 = true → bit m c 18 = false → bit m' c 19 = true).
Proof.
  intros H. unfold paint_commit. destruct (paint_commit_bits (flags m c)) as (E1 & E2 & E3). cbn zeta in *. set (fl := Z.land _ _) in *.
  fold (bit m c 16) (bit m c 17) (bit m c 18) in E1, E2, E3. rewrite E1, has_RESULT. destruct (bit m c 16 && bit m c 17 && negb (bit m c 18)) eqn:E.
  - apply andb_true_iff in E as [[E16 E17]%andb_true_iff E18%negb_true_iff]. rewrite E16, E17, E18 in *. cbn [orb andb]. destruct (bit m c 19) eqn:E19.
    + exists m, res, (Z.lor fl STALE). split_and!; try done.
    + eexists _, _, _. split; [reflexivity|]. split_and!; try done; [by apply painting_RESULT|apply grows_or| |].
      * intros a i Hi. rewrite bit_or. unfold RESULT. rewrite testbit_shiftl_1 by done. destruct (Z.eqb_spec 19 i); [done|]. by rewrite andb_false_r, orb_false_r.
      * intros _ _ _. rewrite bit_or, bool_decide_true by done. unfold RESULT. by rewrite testbit_shiftl_1, orb_true_r.
  - exists m, res, fl. split_and!; try done.
    + destruct (bit m c 16) eqn:E16, (bit m c 17) eqn:E17, (bit m c 18) eqn:E18; cbn [andb orb] in *; done.
    + intros E16 E17 E18. rewrite E16, E17, E18 in E. done.
Qed.

Section walk.
Context (cmp : memory → Z → Z → Z) `{!CommitOrder cmp}.
Context (min_generation : Z) (Hgen : min_generation ≠ 0 → ∀ m a b, cmp m a b <= 0 → commit_graph_generation m b <= commit_graph_generation m a).
Context (ignore_missing_commits : bool).

(** Some commit of the history in question cannot be read. *)
Definition incomplete : Prop := ∃ c, (side1 c ∨ side2 c) ∧ store r !! c = None.
(** Queued commits are painted. *)
Definition queue_painted m q : Prop := ∀ c, c ∈ queued q → painted m c.

Lemma painted_all_flags m c : painted m c → has m c all_flags = true.
Proof. rewrite has_all_flags. intros [?|?]; auto. Qed.
Lemma painted_grows m m' c : grows m m' → painted m c → painted m' c.
Proof. intros [_ H] [?|?]; [left|right]; auto. Qed.
Lemma painted_side m res c : painting m res → painted m c → side1 c ∨ side2 c.
Proof. intros H [?|?]; [left; by apply (painting_1 _ _ H)|right; by apply (painting_2 _ _ H)]. Qed.
Lemma side_edge c p : edge r c p → side1 c ∨ side2 c → side1 p ∨ side2 p.
Proof. intros He [H|(t & Ht & H)]; [left; by eapply rtc_r|right; exists t; split; [done|by eapply rtc_r]]. Qed.

(** While the parents of [c] are painted. *)
Record handing (m : memory) (q : queue) (res : list Z) (c : Z) (ps : list Z) (fl g : Z) : Prop := {
  handing_painting : painting m res;
  handing_queue : queue_ok cmp m q;
  handing_queue_painted : queue_painted m q;
  handing_c : painted m c;
  handing_res : bit m c 16 = true → bit m c 17 = true → bit m c 18 = false → bit m c 19 = true;
  handing_fl : paint_bits fl (bit m c 16) (bit m c 17) (bit m c 18 || bit m c 16 && bit m c 17);
  handing_ps p : p ∈ ps → p ∈ parents (the m c);
  handing_done p : p ∈ parents (the m c) → p ∈ ps ∨ Z.land (flags m p) fl = fl;
  handing_others x : x ≠ c → painted m x → x ∈ queued q ∨ passed_on m x;
  handing_gen x : min_generation ≠ 0 → x ∈ queued q → commit_graph_generation m x <= g;
  handing_gen_c : commit_graph_generation m c = g;
}.
Lemma passed_on_mono m m' x : grows m m' → parsed (the m x) = true → (∀ i, i ≠ 19 → bit m' x i = bit m x i) → passed_on m x → passed_on m' x.
Proof.
  intros [He Hb] Hp Hx H. split; rewrite ?(Hx 16), ?(Hx 17), ?(Hx 18) by done; [|rewrite (He x Hp)..]; intros; apply Hb.
  - by apply (passed_res _ _ H).
  - by eapply (passed_1 _ _ H).
  - by eapply (passed_2 _ _ H).
  - by eapply (passed_stale _ _ H).
Qed.
Lemma land_lor_covered a b : Z.land (Z.lor a b) b = b.
Proof. apply Z.bits_inj'. intros n _. rewrite Z.land_spec, Z.lor_spec. by destruct (Z.testbit a n), (Z.testbit b n). Qed.
Lemma land_covered_grows m m' p fl x y z : paint_bits fl x y z → grows m m' → Z.land (flags m p) fl = fl → Z.land (flags m' p) fl = fl.
Proof.
  intros Hfl [_ Hb]. rewrite !(paint_bits_covered _ _ _ _ _ Hfl). intros (H1 & H2 & H3). split_and!; intros E.
  - apply (Hb p 16). unfold bit. auto.
  - apply (Hb p 17). unfold bit. auto.
  - apply (Hb p 18). unfold bit. auto.
Qed.

Lemma handing_step m m1 q q' res c p ps fl g : handing m q res c (p :: ps) fl g → Z.land (flags m p) fl ≠ fl →
  coherent r m1 → extends m m1 → mem_flags m1 = mem_flags m → parsed (the m1 p) = true → readable r p →
  queue_ok cmp (or_flags m1 p fl) q' → queued q' ≡ₚ p :: queued q → handing (or_flags m1 p fl) q' res c ps fl g.
Proof using Hh.
  intros H Hnc Hc1 He Ef Hp1 Hrd Hq' Eq. set (m' := or_flags m1 p fl) in *. pose proof (handing_painting _ _ _ _ _ _ _ H) as HP.
  assert (grows m m') as Hg. { eapply grows_trans; [by apply extends_grows|apply grows_or]. }
  pose proof (handing_ps _ _ _ _ _ _ _ H p (list_elem_of_here _ _)) as Hpc.
  pose proof (coherent_edge _ _ _ _ (painting_coherent _ _ HP) Hpc) as Hedge.
  assert (p ≠ c) as Hne. { intros ->. eapply (history_acyclic _ Hh c). by apply tc_once. }
  assert (∀ a i, a ≠ p → bit m' a i = bit m a i) as Hb. { intros a i Ha. unfold m'. rewrite bit_or, bool_decide_false by done. by rewrite orb_false_r, (bit_same_flags m m1). }
  pose proof (painted_all_flags _ _ (handing_c _ _ _ _ _ _ _ H)) as Hcm. pose proof (painting_parsed _ _ HP c Hcm) as Hcp.
  pose proof (handing_fl _ _ _ _ _ _ _ H) as Hfl. pose proof (proj1 Hg c Hcp) as Ec.
  assert (painting m' res) as HP'.
  { eapply (painting_mark m m1 res c p fl _ _ _ HP Hcm Hpc Hc1 He Ef Hp1 Hfl); [done|done|]. intros [Hs|[? ?]%andb_true_iff]%orb_true_iff; [|done].
    destruct (painting_stale _ _ HP c Hs) as (? & ? & _). done. }
  assert (painted m' p) as Hpp.
  { unfold painted, m'. rewrite !bit_or, bool_decide_true by done. cbn [andb]. rewrite !Hfl by done. cbn [Z.eqb Pos.eqb andb orb]. rewrite !orb_false_r.
    destruct (handing_c _ _ _ _ _ _ _ H) as [->| ->]; [left|right]; by rewrite orb_true_r. }
  split; try done.
  - intros x Hx. rewrite Eq in Hx. apply elem_of_cons in Hx as [->|Hx]; [done|]. eapply painted_grows; [done|]. by apply (handing_queue_painted _ _ _ _ _ _ _ H).
  - eapply painted_grows; [done|apply (handing_c _ _ _ _ _ _ _ H)].
  - rewrite !Hb by done. apply (handing_res _ _ _ _ _ _ _ H).
  - rewrite !Hb by done. apply (handing_fl _ _ _ _ _ _ _ H).
  - intros x Hx. rewrite Ec. apply (handing_ps _ _ _ _ _ _ _ H). by right.
  - intros x Hx. rewrite Ec in Hx. destruct (handing_done _ _ _ _ _ _ _ H x Hx) as [Hi|Hi].
    + apply elem_of_cons in Hi as [->|Hi]; [|by left]. right. unfold m'. rewrite flags_or, decide_True by done. apply land_lor_covered.
    + right. by eapply land_covered_grows.
  - intros x Hx Hxp. destruct (decide (x = p)) as [->|Hxn]; [left; rewrite Eq; by left|].
    assert (painted m x) as Hxp'. { unfold painted in *. by rewrite !Hb in Hxp. }
    destruct (handing_others _ _ _ _ _ _ _ H x Hx Hxp') as [Hi|Hi]; [left; rewrite Eq; by right|right].
    eapply passed_on_mono; [done| |by intros i _; apply Hb|done]. apply (painting_parsed _ _ HP). by apply painted_all_flags.
  - assert (∀ x, parsed (the m x) = true → commit_graph_generation m' x = commit_graph_generation m x) as Hgx.
    { intros x Hx. unfold commit_graph_generation. by rewrite (proj1 Hg x Hx). }
    intros x Hmin Hx. rewrite Eq in Hx. apply elem_of_cons in Hx as [->|Hx].
    + rewrite <-(handing_gen_c _ _ _ _ _ _ _ H), <-(Hgx c Hcp). rewrite !(coherent_generation r) by (try done; by rewrite ?Ec). by apply (history_generation _ Hh).
    + rewrite Hgx; [by apply (handing_gen _ _ _ _ _ _ _ H)|].  apply (painting_parsed _ _ HP), painted_all_flags, (handing_queue_painted _ _ _ _ _ _ _ H), Hx.
  - rewrite <-(handing_gen_c _ _ _ _ _ _ _ H). unfold commit_graph_generation. by rewrite Ec.
Qed.
Lemma handing_skip m q res c p ps fl g : handing m q res c (p :: ps) fl g → Z.land (flags m p) fl = fl → handing m q res c ps fl g.
Proof.
  intros [] E. split; try done.
  - intros x Hx. apply handing_ps0. by right.
  - intros x Hx. destruct (handing_done0 x Hx) as [Hi|?]; [|by right]. apply elem_of_cons in Hi as [->|?]; [by right|by left].
Qed.
Lemma paint_parents_wp res c fl g ps : ∀ m q, handing m q res c ps fl g →
  returns (paint_parents r cmp m q fl ps) (λ '(m', q', ok),
    if ok : bool then handing m' q' res c [] fl g ∧ (length (queued q') + missing (store r) m' <= length (queued q) + missing (store r) m)%nat
    else painting m' res ∧ incomplete).
Proof using Hh CommitOrder0.
  induction ps as [|p ps IH]; intros m q H; cbn [paint_parents]; [by cbn|].
  destruct (Z.eqb_spec (Z.land (flags m p) fl) fl) as [E|E]; [by apply IH; eapply handing_skip|].
  pose proof (handing_painting _ _ _ _ _ _ _ H) as HP. pose proof (painting_coherent _ _ HP) as Hc.
  pose proof (coherent_edge _ _ _ _ Hc (handing_ps _ _ _ _ _ _ _ H p (list_elem_of_here _ _))) as Hedge.
  destruct (parse_spec r m p Hh Hc) as (ret & m1 & Er & Hc1 & Ef & He & _ & [(-> & Hrd & Hp1)|(-> & Hno & _ & ->)]); rewrite Er; cbn [Z.eqb negb].
  2: { cbn [wp]. split; [done|]. exists p. split; [|done]. eapply side_edge; [done|]. eapply painted_side; [done|]. apply (handing_c _ _ _ _ _ _ _ H). }
  set (m' := or_flags m1 p fl). assert (grows m m') as Hg. { eapply grows_trans; [by apply extends_grows|apply grows_or]. }
  apply wp_bind. eapply wp_mono; [|apply (queue_put_wp cmp m'); [eapply queue_ok_extends; [done|apply (handing_queue _ _ _ _ _ _ _ H)|apply Hg]|done]].
  intros q' [Hq' Eq]. cbn beta. eapply wp_mono; [|by apply IH, (handing_step m m1 q)]. intros [[m2 q2] ok]. destruct ok; [|done].
  intros [H1 H2]. split; [done|]. etrans; [exact H2|]. rewrite Eq. cbn [length].
  assert (missing (store r) m' < missing (store r) m)%nat; [|lia]. pose proof (handing_fl _ _ _ _ _ _ _ H) as Hfl.
  assert (∃ i, (i = 16 ∨ i = 17 ∨ i = 18) ∧ Z.testbit fl i = true ∧ bit m p i = false) as (i & Hi & Hi1 & Hi2).
  { destruct (Z.testbit fl 16 && negb (bit m p 16)) eqn:E16; [exists 16; apply andb_true_iff in E16 as [? ?%negb_true_iff]; auto|].
    destruct (Z.testbit fl 17 && negb (bit m p 17)) eqn:E17; [exists 17; apply andb_true_iff in E17 as [? ?%negb_true_iff]; auto|].
    destruct (Z.testbit fl 18 && negb (bit m p 18)) eqn:E18; [exists 18; apply andb_true_iff in E18 as [? ?%negb_true_iff]; auto|].
    destruct E. apply Z.bits_inj'. intros i Hi. rewrite Z.land_spec. destruct (Z.testbit fl i) eqn:Ei; [|by rewrite andb_false_r]. rewrite andb_true_r.
    assert (i = 16 ∨ i = 17 ∨ i = 18) as Hi'.
    { rewrite Hfl in Ei by done. destruct (Z.eqb_spec 16 i); [lia|]. destruct (Z.eqb_spec 17 i); [lia|]. destruct (Z.eqb_spec 18 i); [lia|]. done. }
    destruct Hi' as [->|[->| ->]]; [rewrite Ei in E16|rewrite Ei in E17|rewrite Ei in E18]; by apply negb_false_iff. }
  eapply (missing_lt _ _ _ p i); [done|by eapply edge_ids|done|done|]. unfold m'. by rewrite bit_or, bool_decide_true, Hi1, orb_true_r.
Qed.

(** Between two rounds. *)
Record walking (m : memory) (q : queue) (res : list Z) (g : Z) : Prop := {
  walking_painting : painting m res;
  walking_queue : queue_ok cmp m q;
  walking_queue_painted : queue_painted m q;
  walking_passed x : painted m x → x ∈ queued q ∨ passed_on m x;
  walking_gen x : min_generation ≠ 0 → x ∈ queued q → commit_graph_generation m x <= g;
}.
Lemma handing_walking m q res c fl g : handing m q res c [] fl g → walking m q res g.
Proof.
  intros H. pose proof (handing_fl _ _ _ _ _ _ _ H) as Hfl. split; [apply H|apply H|apply H| |apply H].
  intros x Hx. destruct (decide (x = c)) as [->|Hne]; [|by apply (handing_others _ _ _ _ _ _ _ H)].
  assert (∀ p, p ∈ parents (the m c) → (bit m c 16 = true → bit m p 16 = true) ∧ (bit m c 17 = true → bit m p 17 = true) ∧
     (bit m c 18 || bit m c 16 && bit m c 17 = true → bit m p 18 = true)) as Hd.
  { intros p Hp. destruct (handing_done _ _ _ _ _ _ _ H p Hp) as [Hn|Hd]; [by apply elem_of_nil in Hn|]. by apply (paint_bits_covered _ _ _ _ _ Hfl) in Hd. }
  right. split; [apply (handing_res _ _ _ _ _ _ _ H)|intros p Hp; apply (Hd p Hp)..|].
  intros p Hp E1 E2. apply (Hd p Hp). by rewrite E1, E2, orb_true_r.
Qed.
Lemma walking_pop m q q' res g c : walking m q res g → queue_ok cmp m q' → queued q ≡ₚ c :: queued q' → (∀ x, x ∈ queued q → cmp m c x <= 0) →
  ∃ m' res' fl, paint_commit m c res = (m', res', fl) ∧ handing m' q' res' c (parents (the m' c)) fl (commit_graph_generation m c) ∧ missing (store r) m' = missing (store r) m ∧
    commit_graph_generation m' c = commit_graph_generation m c.
Proof using Hgen CommitOrder0.
  intros H Hq' Eq Hmin. pose proof (walking_painting _ _ _ _ H) as HP.
  destruct (paint_commit_spec m res c HP) as (m' & res' & fl & E & HP' & Ec & Hg & Hb & Hfl & Hr). exists m', res', fl.
  assert (∀ x, the m' x = the m x) as Et. { intros x. unfold the. by rewrite Ec. }
  assert (∀ x, commit_graph_generation m' x = commit_graph_generation m x) as Eg. { intros x. unfold commit_graph_generation. by rewrite Et. }
  assert (∀ x, painted m' x → painted m x) as Hpm. { intros x. unfold painted. by rewrite !Hb. }
  assert (painted m c) as Hc. { apply (walking_queue_painted _ _ _ _ H). rewrite Eq. by left. }
  split_and!; [done| | |by apply Eg].
  - split; try done.
    + eapply queue_ok_extends; [done|done|apply Hg].
    + intros x Hx. eapply painted_grows; [done|]. apply (walking_queue_painted _ _ _ _ H). rewrite Eq. by right.
    + by eapply painted_grows.
    + rewrite !Hb by done. apply Hr.
    + by rewrite !Hb by done.
    + auto.
    + intros x Hx Hp. destruct (walking_passed _ _ _ _ H x (Hpm x Hp)) as [Hi|Hi].
      * left. rewrite Eq in Hi. apply elem_of_cons in Hi as [?|?]; done.
      * right. eapply passed_on_mono; [done| |auto|done]. apply (painting_parsed _ _ HP), painted_all_flags, Hpm, Hp.
    + intros x Hm Hx. rewrite Eg. apply Hgen; [done|]. apply Hmin. rewrite Eq. by right.
  - assert (∀ i, i ≠ 19 → unset (store r) m' i = unset (store r) m i) as F.
    { intros i Hi. unfold unset. f_equal. apply set_eq. intros x. by rewrite !elem_of_filter, Hb. }
    unfold missing. by rewrite !F.
Qed.

(** What the marks say when the walk is over. *)
Definition in_range (v : Z) : Prop := min_generation = 0 ∨ (readable r v ∧ min_generation <= generation r v).
Definition complete (m : memory) : Prop := ∀ v, in_range v → ¬ below v →
  (side1 v → bit m v 16 = true) ∧ (side2 v → bit m v 17 = true) ∧ (side1 v → side2 v → bit m v 19 = true).
Lemma below_edge c p : edge r c p → below c → below p.
Proof. intros He (w & H1 & H2 & H3). exists w. split_and!; [done|done|]. by eapply tc_r. Qed.
Lemma walking_complete m q res g : walking m q res g → (∀ v, v ∈ queued q → in_range v → ¬ below v → False) → complete m.
Proof using Hh.
  intros H Hq. pose proof (walking_painting _ _ _ _ H) as HP.
  assert (∀ v, painted m v → in_range v → ¬ below v → passed_on m v) as Hpass.
  { intros v Hv H1 H2. destruct (walking_passed _ _ _ _ H v Hv) as [Hi|Hi]; [|done]. by destruct (Hq v). }
  assert (∀ v c, edge r c v → in_range v → ¬ below v → in_range c ∧ ¬ below c) as Hup.
  { intros v c He H1 H2. split; [|intros Hb; by eapply H2, below_edge]. destruct H1 as [?|[H1 H3]]; [by left|right]. split.
    - destruct He as (d & Hd & _). by exists d.
    - etrans; [done|]. by apply (history_generation _ Hh). }
  assert (∀ v, side1 v → in_range v → ¬ below v → bit m v 16 = true) as Hs1.
  { apply (rtc_ind_r (λ v, in_range v → ¬ below v → bit m v 16 = true) one); [intros; apply (painting_root1 _ _ HP)|]. intros c v _ He IH H1 H2. destruct (Hup v c He H1 H2) as (H1' & H2').
    pose proof (IH H1' H2') as Hc. assert (painted m c) as Hpc by by left. eapply (passed_1 _ _ (Hpass c Hpc H1' H2')); [|done].
    apply (coherent_parents r); [apply (painting_coherent _ _ HP)|apply (painting_parsed _ _ HP), painted_all_flags, Hpc|done]. }
  assert (∀ v, side2 v → in_range v → ¬ below v → bit m v 17 = true) as Hs2.
  { intros v (t & Ht & Hr). revert v Hr. apply (rtc_ind_r (λ v, in_range v → ¬ below v → bit m v 17 = true) t); [intros; by apply (painting_root2 _ _ HP)|]. intros c v _ He IH H1 H2. destruct (Hup v c He H1 H2) as (H1' & H2').
    pose proof (IH H1' H2') as Hc. assert (painted m c) as Hpc by by right. eapply (passed_2 _ _ (Hpass c Hpc H1' H2')); [|done].
    apply (coherent_parents r); [apply (painting_coherent _ _ HP)|apply (painting_parsed _ _ HP), painted_all_flags, Hpc|done]. }
  intros v H1 H2. split_and!; [intros; by apply Hs1|intros; by apply Hs2|]. intros Ha Hb. pose proof (Hs1 v Ha H1 H2) as E1. pose proof (Hs2 v Hb H1 H2) as E2.
  apply (passed_res _ _ (Hpass v (or_introl E1) H1 H2)); [done|done|]. destruct (bit m v 18) eqn:E; [|done]. by destruct (painting_stale _ _ HP v E) as (_ & _ & ?).
Qed.

(** The outcome of the walk. *)
Definition paint_result (ret : Z) (m : memory) (res : list Z) : Prop :=
  (ret = 0 ∧ painting m res ∧ complete m) ∨
  (ret = (if ignore_missing_commits then 0 else -1) ∧ res = [] ∧ incomplete ∧ ∃ res', painting m res').
Lemma paint_loop_wp fuel : ∀ m q g res, walking m q res g → (length (queued q) + missing (store r) m < fuel)%nat →
  returns (paint_loop r cmp min_generation ignore_missing_commits fuel m q g res) (λ '(ret, m', res'), paint_result ret m' res').
Proof using Hh Hgen CommitOrder0.
  induction fuel as [|fuel IH]; intros m q g res H Hf; [lia|]. cbn [paint_loop]. pose proof (walking_painting _ _ _ _ H) as HP.
  destruct (queue_has_nonstale m q) eqn:En.
  2: { cbn [wp]. left. split_and!; [done|done|]. eapply walking_complete; [done|]. intros v Hv _ Hb. rewrite nonstale_spec in En.
       by destruct (painting_stale _ _ HP v (En v Hv)) as (_ & _ & ?). }
  apply wp_bind. eapply wp_mono; [|apply (queue_get_wp cmp m q), (walking_queue _ _ _ _ H)]. intros [top q'] Ht. cbn beta iota in *. destruct top as [c|].
  2: { rewrite (proj2 (nonstale_spec m q)) in En; [done|]. rewrite Ht. by intros c Hc%elem_of_nil. }
  destruct Ht as (Hq' & Eq & Hmin). assert (c ∈ queued q) as Hcq by (rewrite Eq; by left). cbn zeta.
  pose proof (painting_parsed _ _ HP c (painted_all_flags _ _ (walking_queue_painted _ _ _ _ H c Hcq))) as Hcp.
  pose proof (coherent_generation r m c (painting_coherent _ _ HP) Hcp) as Ecg.
  replace (negb (min_generation =? 0) && (g <? commit_graph_generation m c)) with false.
  2: { symmetry. destruct (Z.eqb_spec min_generation 0) as [|Hne]; [done|]. pose proof (walking_gen _ _ _ _ H c Hne Hcq). cbn. lia. }
  destruct (Z.ltb_spec (commit_graph_generation m c) min_generation) as [Hlt|Hge].
  - cbn [wp]. left. split_and!; [done|done|]. eapply walking_complete; [done|]. intros v Hv Hr _. pose proof (history_infinity _ Hh c). destruct Hr as [?|[Hr Hg]]; [lia|].
    assert (commit_graph_generation m v <= commit_graph_generation m c) as Hle by (apply Hgen; [lia|by apply Hmin]).
    rewrite (coherent_generation r m v) in Hle; [lia|apply (painting_coherent _ _ HP)|]. apply (painting_parsed _ _ HP), painted_all_flags, (walking_queue_painted _ _ _ _ H), Hv.
  - destruct (walking_pop m q q' res g c H Hq' Eq Hmin) as (m' & res' & fl & E & Hhand & Em & Eg). rewrite E. cbn beta iota.
    apply wp_bind. eapply wp_mono; [|by eapply paint_parents_wp]. intros [[m2 q2] ok] Hok. cbn beta iota in *. destruct ok.
    + destruct Hok as [Hhand2 Hle]. apply IH; [by eapply handing_walking|]. rewrite Eq in Hf. cbn in Hf. lia.
    + destruct Hok as [HP2 Hin]. cbn [wp]. right. split_and!; [done|done|done|by eexists].
Qed.

(** The starting points. *)
Lemma paint_twos_wp ts : ∀ m q, queue_ok cmp m q → (∀ t, t ∈ ts → parsed (the m t) = true) →
  returns (paint_twos cmp m q ts) (λ '(m', q'), mem_commits m' = mem_commits m ∧ queue_ok cmp m' q' ∧ queued q' ≡ₚ ts ++ queued q ∧
    ∀ c i, bit m' c i = bit m c i || (bool_decide (c ∈ ts) && (17 =? i))).
Proof using CommitOrder0.
  induction ts as [|t ts IH]; intros m q Hq Hp; cbn [paint_twos].
  { cbn. split_and!; [done|done|done|]. intros c i. rewrite bool_decide_false by apply not_elem_of_nil. by rewrite orb_false_r. }
  set (m1 := or_flags m t PARENT2). apply wp_bind. eapply wp_mono; [|apply (queue_put_wp cmp m1); [by eapply queue_ok_extends|apply Hp; by left]].
  intros q1 [Hq1 Eq1]. cbn beta. eapply wp_mono; [|apply IH; [done|intros x Hx; apply Hp; by right]]. intros [m' q'] (H1 & H2 & H3 & H4). split_and!; [done|done| |].
  - rewrite H3, Eq1. cbn. symmetry. apply Permutation_middle.
  - intros c i. rewrite H4. unfold m1. rewrite bit_or. unfold PARENT2. rewrite testbit_shiftl_1 by done.
    destruct (bit m c i); [done|]. cbn [orb]. destruct (17 =? i); [rewrite !andb_true_r|by rewrite !andb_false_r]. apply eq_true_iff_eq.
    rewrite orb_true_iff, !bool_decide_eq_true, elem_of_cons. intuition auto.
Qed.
Lemma missing_bound st m : (missing st m <= 3 * size (ids st))%nat.
Proof.
  assert (∀ i, (unset st m i <= size (ids st))%nat) as H. { intros i. apply subseteq_size. intros c. rewrite elem_of_filter. by intros [_ ?]. }
  unfold missing. pose proof (H 16). pose proof (H 17). pose proof (H 18). lia.
Qed.
Definition unmarked (m : memory) : Prop := ∀ c, has m c all_flags = false.
Lemma painting_start m : coherent r m0 → unmarked m0 → (∀ c, c ∈ one :: twos → parsed (the m0 c) = true) → mem_commits m = mem_commits m0 →
  (∀ c i, bit m c i = bit m0 c i || (bool_decide (one = c) && (16 =? i)) || (bool_decide (c ∈ twos) && (17 =? i))) →
  painting m [] ∧ (∀ c, bit m c 16 = true ↔ one = c) ∧ (∀ c, bit m c 17 = true ↔ c ∈ twos).
Proof.
  intros Hc Hu Hp Em Hb. assert (∀ c, the m c = the m0 c) as Et. { intros c. unfold the. by rewrite Em. }
  assert (∀ c i, 16 <= i <= 19 → bit m c i = (bool_decide (one = c) && (16 =? i)) || (bool_decide (c ∈ twos) && (17 =? i))) as Hb'.
  { intros c i Hi. rewrite Hb. pose proof (Hu c) as Hn. rewrite has_all_flags_false in Hn. by rewrite (Hn i Hi). }
  assert (∀ c, bit m c 16 = true ↔ one = c) as B16. { intros c. rewrite Hb' by lia. cbn. rewrite andb_true_r, andb_false_r, orb_false_r. apply bool_decide_eq_true. }
  assert (∀ c, bit m c 17 = true ↔ c ∈ twos) as B17. { intros c. rewrite Hb' by lia. cbn. rewrite andb_true_r, andb_false_r. apply bool_decide_eq_true. }
  assert (∀ c i, i = 18 ∨ i = 19 → bit m c i = false) as B18. { intros c i [->| ->]; rewrite Hb' by lia; cbn; by rewrite !andb_false_r. }
  assert (∀ c, has m c all_flags = true → c ∈ one :: twos) as Ba.
  { intros c. rewrite has_all_flags, B16, B17, !B18 by auto. intros [->|[?|[?|?]]]; [by left|by right|done|done]. }
  split; [split|by split].
  - intros c. rewrite Et. apply Hc.
  - intros c _. apply Et.
  - intros c i Hi. rewrite Hb. destruct (Z.eqb_spec 16 i), (Z.eqb_spec 17 i); try lia. by rewrite !andb_false_r, !orb_false_r.
  - intros c Hx. rewrite Et. apply Hp, Ba, Hx.
  - intros c <-%B16. apply rtc_refl.
  - intros c Hx%B17. exists c. split; [done|apply rtc_refl].
  - intros c. rewrite B18 by auto. done.
  - by apply B16.
  - intros t Ht. by apply B17.
  - intros c Hx. exists c. split_and!; [by apply Ba|done|apply rtc_refl].
  - intros c. rewrite B18 by auto. split; [done|by intros ?%elem_of_nil].
  - by intros c ?%elem_of_nil.
  - constructor.
  - constructor.
Qed.
Lemma walking_start m q : painting m [] → (∀ c, bit m c 16 = true ↔ one = c) → (∀ c, bit m c 17 = true ↔ c ∈ twos) → queue_ok cmp m q → queued q ≡ₚ twos ++ [one] →
  walking m q [] GENERATION_NUMBER_INFINITY.
Proof using Hh.
  intros HP B16 B17 Hq Eq. split; [done|done| | |].
  - intros c Hx. rewrite Eq in Hx. apply elem_of_app in Hx as [Hx|Hx]; [right; by apply B17|left]. apply B16. by apply list_elem_of_singleton in Hx.
  - intros c [Hx%B16|Hx%B17]; left; rewrite Eq; apply elem_of_app; [right|by left]. subst. apply list_elem_of_singleton. done.
  - intros c Hmin Hx. destruct Hq as [_ Hq]. rewrite (coherent_generation r m c (painting_coherent _ _ HP) (Hq c Hx)). apply (history_infinity _ Hh).
Qed.
End walk.

Lemma paint_down_to_common_wp min_generation ignore : coherent r m0 → unmarked m0 → (∀ c, c ∈ one :: twos → parsed (the m0 c) = true) → twos ≠ [] →
  returns (paint_down_to_common r m0 one twos min_generation ignore []) (λ '(ret, m, res), paint_result min_generation ignore ret m res).
Proof using Hh.
  intros Hc Hu Hp Hne. unfold paint_down_to_common. cbn zeta. set (cmp := if (min_generation =? 0) && negb (corrected_commit_dates_enabled r) then compare_commits_by_commit_date else compare_commits_by_gen_then_commit_date). set (m1 := or_flags m0 one PARENT1).
  assert (CommitOrder cmp) as Hcmp. { unfold cmp. destruct (_ && _); apply _. }
  assert (min_generation ≠ 0 → ∀ m a b, cmp m a b <= 0 → commit_graph_generation m b <= commit_graph_generation m a) as Hgen.
  { intros Hm. unfold cmp. destruct (Z.eqb_spec min_generation 0); [done|]. cbn. apply by_gen_generation. }
  destruct twos as [|t ts] eqn:Et; [done|]. rewrite <-Et in *. clear Et t ts.
  apply wp_bind. eapply wp_mono; [|apply (queue_put_wp cmp m1 (Prio_queue (Some (cmp m1)) 0 0 [])); [apply queue_ok_empty|apply Hp; by left]].
  intros q1 [Hq1 Eq1]. cbn beta. apply wp_bind. eapply wp_mono; [|apply (paint_twos_wp cmp); [done|intros t Ht; apply Hp; by right]].
  intros [m2 q2] (Em & Hq2 & Eq2 & Hb). cbn beta iota. pose proof (missing_bound (store r) m2) as Hmb.
  assert (queued q2 ≡ₚ twos ++ [one]) as Eq3 by (rewrite Eq2, Eq1; done).
  destruct (painting_start m2 Hc Hu Hp Em) as (HP & B16 & B17). { intros c i. rewrite Hb. unfold m1. rewrite bit_or. unfold PARENT1. by rewrite testbit_shiftl_1. }
  apply paint_loop_wp; [done|done|by apply walking_start|].
  - rewrite Eq3, length_app. cbn [length]. lia.
Qed.
End painting.
