(* ===== verification/CommitBases.v ===== *)
(** * Merge bases and ancestry

    From the walk of [paint_down_to_common] to the functions built on it: the
    marks are cleared again, an ancestry test decides reachability, and the
    commits that survive the removal of redundant ones are the independent
    ones. *)
From stdpp Require Import prelude gmap sorting relations.
From S2P Require Import Prelude Order PrioQueue Commit CommitReach CommitPaint.
Import PrioQueue Commit CommitReach.

(** The first and the last step of a path. *)
Lemma tc_first {A} (R : relation A) x y : tc R x y → ∃ z, R x z ∧ rtc R z y.
Proof. intros H. destruct H as [x y H|x z y H H']; [exists y; split; [done|apply rtc_refl]|exists z; split; [done|by apply tc_rtc]]. Qed.
Lemma tc_last {A} (R : relation A) x y : tc R x y → ∃ z, rtc R x z ∧ R z y.
Proof.
  revert y. apply tc_ind_r; [intros z H; exists x; split; [apply rtc_refl|done]|]. intros y z H1 H2 _. exists y. split; [by apply tc_rtc|done].
Qed.

Section bases.
Context (r : repository) (Hh : history_ok r).
Implicit Types (m : memory) (c : Z).

(** ** Finite, acyclic history *)
Lemma history_sn c : sn (edge r) c.
Proof using Hh.
  apply tc_finite_sn; [intros x; apply (history_acyclic _ Hh)|]. exists (elements (ids (store r))). intros y Hy. apply elem_of_elements.
  apply tc_last in Hy as (z & _ & Hz). by eapply edge_ids.
Qed.
Lemma reaches_em x c : reaches r x c ∨ ¬ reaches r x c.
Proof using Hh.
  induction (history_sn x) as [x _ IH]. destruct (decide (x = c)) as [->|Hne]; [left; apply rtc_refl|].
  destruct (store r !! x) as [d|] eqn:Hd.
  - assert (∀ ps : list Z, (∀ p, p ∈ ps → p ∈ d_parents d) → (∃ p, p ∈ ps ∧ reaches r p c) ∨ ¬ ∃ p, p ∈ ps ∧ reaches r p c) as Hps.
    { induction ps as [|p ps IHp]; intros Hs; [right; by intros (p & ?%elem_of_nil & _)|].
      destruct (IH p) as [Hp|Hp]; [exists d; split; [done|apply Hs; by left]|left; exists p; split; [by left|done]|].
      destruct IHp as [(p' & H1 & H2)|Hn]; [intros p' H'; apply Hs; by right|left; exists p'; split; [by right|done]|].
      right. intros (p' & [->|H1]%elem_of_cons & H2); [done|]. apply Hn. by exists p'. }
    destruct (Hps (d_parents d)) as [(p & H1 & H2)|Hn]; [done|left; eapply rtc_l; [by exists d|done]|].
    right. intros [->|(p & (d' & Hd' & Hp) & H2)]%rtc_inv; [done|]. simplify_eq. apply Hn. by exists p.
  - right. intros [->|(p & (d' & Hd' & Hp) & H2)]%rtc_inv; [done|]. congruence.
Qed.
Lemma tc_em x c : tc (edge r) x c ∨ ¬ tc (edge r) x c.
Proof using Hh.
  destruct (decide (x = c)) as [->|Hne]; [right; apply (history_acyclic _ Hh)|]. destruct (reaches_em x c) as [H|H].
  - left. by apply rtc_tc in H as [->|?].
  - right. intros H'. by apply H, tc_rtc.
Qed.
Lemma em_list (P : Z → Prop) (l : list Z) : (∀ x, P x ∨ ¬ P x) → (∃ x, x ∈ l ∧ P x) ∨ ¬ ∃ x, x ∈ l ∧ P x.
Proof.
  intros H. induction l as [|y l IH]; [right; by intros (x & ?%elem_of_nil & _)|]. destruct (H y); [left; exists y; split; [by left|done]|].
  destruct IH as [(x & ? & ?)|Hn]; [left; exists x; split; [by right|done]|]. right. intros (x & [->|?]%elem_of_cons & ?); [done|]. apply Hn. by exists x.
Qed.
(** Every commit of a set has one above it, or is itself one, that is not below
    any commit of the set. *)
Definition independent (S : Z → Prop) c : Prop := S c ∧ ¬ ∃ w, S w ∧ tc (edge r) w c.
Lemma independent_above (S : Z → Prop) : (∀ c, S c ∨ ¬ S c) → ∀ c, S c → ∃ w, independent S w ∧ reaches r w c.
Proof using Hh.
  intros Hem. assert (∀ c, (∃ w, S w ∧ tc (edge r) w c) ∨ ¬ ∃ w, S w ∧ tc (edge r) w c) as Hb.
  { intros c. destruct (em_list (λ w, S w ∧ tc (edge r) w c) (elements (dom (store r)))) as [(w & _ & H)|Hn].
    - intros w. destruct (Hem w), (tc_em w c); [left; done|right; tauto..].
    - left. by exists w.
    - right. intros (w & H1 & H2). apply Hn. exists w. split; [|done]. apply elem_of_elements, elem_of_dom.
      apply tc_first in H2 as (p & (d & Hd & _) & _). by exists d. }
  set (R := flip (edge r)). assert (∀ a b, tc R a b → tc (edge r) b a) as HR.
  { intros a b H. induction H as [a b H|a x b H _ IH]; [by apply tc_once|]. by eapply tc_r. }
  assert (∀ a b, tc (edge r) b a → tc R a b) as HR'.
  { intros a b H. induction H as [b a H|b x a H _ IH]; [by apply tc_once|]. by eapply tc_r. }
  assert (∀ c, sn R c) as Hsn.
  { intros c. apply tc_finite_sn; [intros x Hx; eapply (history_acyclic _ Hh x); by apply HR|]. exists (elements (dom (store r))). intros y Hy%HR.
    apply elem_of_elements, elem_of_dom. apply tc_first in Hy as (p & (d & Hd & _) & _). by exists d. }
  intros c Hc. assert (∀ c, ∀ d, rtc R c d → S d → ∃ w, independent S w ∧ reaches r w d) as Hall; [|by apply (Hall c c)].
  clear c Hc. intros c. induction (Hsn c) as [c _ IH]. intros d Hd Sd. apply rtc_inv in Hd as [<-|(c' & H1 & H2)]; [|by eapply (IH c')].
  destruct (Hb c) as [(w & Sw & Hw)|Hn]; [|exists c; split; [by split|apply rtc_refl]].
  pose proof (HR' _ _ Hw) as Hw'. apply tc_first in Hw' as (c' & H1 & H2). destruct (IH c' H1 w H2 Sw) as (v & Hv & Hr). exists v. split; [done|].
  etrans; [done|]. by apply tc_rtc.
Qed.

(** ** Memory after a walk *)

(** Commits may have been read; all flags are as before. *)
Record restored m m' : Prop := {
  restored_coherent : coherent r m';
  restored_extends : extends m m';
  restored_flags c : flags m' c = flags m c;
}.
Lemma restored_trans m m' m'' : restored m m' → restored m' m'' → restored m m''.
Proof. intros H H'. split; [apply H'|eapply extends_trans; [apply H|apply H']|]. intros c. by rewrite (restored_flags _ _ H'), (restored_flags _ _ H). Qed.
Lemma restored_refl m : coherent r m → restored m m.
Proof. by split. Qed.
Lemma restored_unmarked m m' : restored m m' → unmarked m → unmarked m'.
Proof. intros H Hu c. rewrite <-(Hu c). apply has_flags, H. Qed.
Lemma restored_parsed m m' c : restored m m' → parsed (the m c) = true → parsed (the m' c) = true.
Proof. intros H E. by rewrite (restored_extends _ _ H). Qed.

Lemma flags_bits m m' c : (∀ i, 0 <= i → bit m' c i = bit m c i) → flags m' c = flags m c.
Proof. intros H. by apply Z.bits_inj'. Qed.
Lemma clear_painting m m0 one twos res : coherent r m0 → unmarked m0 → painting r one twos m0 m res →
  returns (let! m := clear_commit_marks m one all_flags in clear_commit_marks_many m twos all_flags) (restored m0).
Proof using Hh.
  intros Hc Hu HP. change (clear_commit_marks m one all_flags) with (clear_commit_marks_many m [one] all_flags). rewrite <-clear_many_app.
  eapply wp_mono; [|apply clear_commit_marks_many_ok].
  - intros m' [Em Hf]. assert (∀ c, the m' c = the m c) as Et. { intros c. unfold the. by rewrite Em. } split.
    + intros c. rewrite Et. apply (painting_coherent _ _ _ _ _ _ HP).
    + intros c E. rewrite Et. by apply (painting_extends _ _ _ _ _ _ HP).
    + intros c. apply flags_bits. intros i Hi. rewrite (bit_ldiff m m' c all_flags i (Hf c)), all_flags_bit by done.
      destruct (decide (16 <= i <= 19)) as [Hin|Hout].
      * replace ((16 <=? i) && (i <=? 19)) with true by lia. rewrite andb_false_r. pose proof (Hu c) as Hn. rewrite has_all_flags_false in Hn. by rewrite Hn.
      * replace ((16 <=? i) && (i <=? 19)) with false by lia. rewrite andb_true_r. by apply (painting_others _ _ _ _ _ _ HP).
  - destruct (has m 0 all_flags) eqn:E; [|done]. apply (painting_parsed _ _ _ _ _ _ HP) in E. destruct (coherent_readable _ _ _ (painting_coherent _ _ _ _ _ _ HP) E) as [d Hd].
    by rewrite (history_null _ Hh) in Hd.
  - apply (painting_linked _ _ _ _ _ _ HP).
Qed.

Lemma clear_painting_ret m m0 one twos res : coherent r m0 → unmarked m0 → painting r one twos m0 m res →
  ∃ mx m', clear_commit_marks m one all_flags = Ret mx ∧ clear_commit_marks_many mx twos all_flags = Ret m' ∧ restored m0 m'.
Proof using Hh.
  intros Hc Hu HP. pose proof (clear_painting m m0 one twos res Hc Hu HP) as W. apply returns_eq in W as (m' & E & Hr).
  apply obind_Ret_inv in E as (mx & E1 & E2). by exists mx, m'.
Qed.

(** ** Ancestry *)
Lemma parse_references_spec refs : ∀ m g, coherent r m → ∃ o m', parse_references r m refs g = (o, m') ∧ coherent r m' ∧ mem_flags m' = mem_flags m ∧ extends m m' ∧
  match o with
  | Some g' => (∀ c, c ∈ refs → parsed (the m' c) = true ∧ generation r c <= g') ∧ g <= g' ∧ (refs = [] → g' = g)
  | None => ∃ c, c ∈ refs ∧ store r !! c = None
  end.
Proof using Hh.
  induction refs as [|c refs IH]; intros m g Hc; cbn [parse_references].
  { exists (Some g), m. split_and!; try done. by intros c ?%elem_of_nil. }
  destruct (parse_spec r m c Hh Hc) as (ret & m1 & Er & Hc1 & Ef & He & _ & [(-> & Hrd & Hp1)|(-> & Hno & _ & ->)]); rewrite Er; cbn [Z.eqb negb].
  2: { exists None, m. split_and!; try done. exists c. split; [by left|done]. }
  rewrite (coherent_generation r m1 c Hc1 Hp1). set (g1 := if _ <? _ then _ else _). destruct (IH m1 g1 Hc1) as (o & m' & E & Hc' & Ef' & He' & Ho).
  exists o, m'. split_and!; [done|done|by rewrite Ef'|by eapply extends_trans|]. destruct o as [g'|].
  - destruct Ho as (H1 & H2 & _). assert (g <= g1 ∧ generation r c <= g1) as [? ?] by (unfold g1; destruct (Z.ltb_spec g (generation r c)); lia).
    split_and!; [|lia|done]. intros x [->|Hx]%elem_of_cons; [|by apply H1]. rewrite (He' c Hp1). split; [done|lia].
  - destruct Ho as (x & Hx & Hs). exists x. split; [by right|done].
Qed.
Lemma unmarked_flags m m' : mem_flags m' = mem_flags m → unmarked m → unmarked m'.
Proof. intros E H c. rewrite <-(H c). apply has_flags. unfold flags. by rewrite E. Qed.
Lemma not_below_one one twos : ¬ below r one twos one.
Proof using Hh. intros (w & H1 & _ & H2). by eapply (acyclic_strict r w one Hh). Qed.

Lemma in_merge_bases_many_wp m commit reference ignore : coherent r m → unmarked m →
  returns (repo_in_merge_bases_many r m commit reference ignore) (λ '(ret, m'), restored m m' ∧
    ((ret = 1 ∧ side2 r reference commit) ∨ (ret = 0 ∧ ¬ side2 r reference commit) ∨
     (ret = (if ignore then 0 else -1) ∧ incomplete r commit reference))).
Proof using Hh.
  intros Hc Hu. unfold repo_in_merge_bases_many. cbn zeta.
  destruct (parse_spec r m commit Hh Hc) as (ret & m1 & Er & Hc1 & Ef & He & _ & [(-> & Hrd & Hp1)|(-> & Hno & _ & ->)]); rewrite Er; cbn [Z.eqb negb].
  2: { cbn [wp]. split; [by apply restored_refl|]. right; right. split; [done|]. exists commit. split; [left; apply rtc_refl|done]. }
  destruct (parse_references_spec reference m1 GENERATION_NUMBER_ZERO Hc1) as (o & m2 & E2 & Hc2 & Ef2 & He2 & Ho). rewrite E2.
  assert (restored m m2) as Hr2. { split; [done|by eapply extends_trans|]. intros c. unfold flags. by rewrite Ef2, Ef. }
  destruct o as [gmax|].
  2: { cbn [wp]. split; [done|]. right; right. split; [done|]. destruct Ho as (c & Hc' & Hs). exists c. split; [right; exists c; split; [done|apply rtc_refl]|done]. }
  destruct Ho as (Hall & _ & Hnil). assert (parsed (the m2 commit) = true) as Hp2 by by rewrite He2. rewrite (coherent_generation r m2 commit Hc2 Hp2).
  destruct (Z.ltb_spec gmax (generation r commit)) as [Hlt|Hge].
  { cbn [wp]. split; [done|]. right; left. split; [done|]. intros (t & Ht & Hr). pose proof (reaches_generation r t commit Hh Hr Hrd). destruct (Hall t Ht). lia. }
  assert (reference ≠ []) as Hne. { intros ->. rewrite Hnil in Hge by done. pose proof (history_infinity _ Hh commit). unfold GENERATION_NUMBER_ZERO in *. lia. }
  pose proof (restored_unmarked _ _ Hr2 Hu) as Hu2.
  apply wp_bind. eapply wp_mono; [|apply (paint_down_to_common_wp r Hh commit reference m2); [done|done| |done]].
  2: { intros c [->|Hc']%elem_of_cons; [done|]. by apply Hall. }
  intros [[ret m3] res] Hpr. cbn beta iota in *. assert (∃ res', painting r commit reference m2 m3 res') as [res' HP] by (destruct Hpr as [(_ & ? & _)|(_ & _ & _ & ?)]; eauto).
  destruct (clear_painting_ret m3 m2 commit reference res' Hc2 Hu2 HP) as (mx & m4 & Ex & E4 & Hr4). rewrite Ex. cbn [obind]. rewrite E4. cbn [obind wp].
  split; [by eapply restored_trans|]. rewrite has_PARENT2. pose proof (painting_2 _ _ _ _ _ _ HP commit) as Hsound.
  destruct Hpr as [(-> & _ & Hcomp)|(-> & _ & Hinc & _)]; cbn [Z.eqb negb].
  - destruct (bit m3 commit 17) eqn:E; [left; auto|right; left]. split; [done|]. intros Hs.
    destruct (Hcomp commit) as (_ & H2 & _); [by right|apply not_below_one|]. rewrite (H2 Hs) in E. done.
  - destruct ignore; cbn [Z.eqb negb Z.opp Pos.eqb]; [|right; right; done]. destruct (bit m3 commit 17) eqn:E; [left; auto|right; right; done].
Qed.

(** ** Removing redundant commits, without generation numbers *)
Section redundant.
Context (array : list Z).
Abbreviation given := (λ c, c ∈ array).

(** Something below the given commits cannot be read. *)
Definition unreadable_below : Prop := ∃ a c, a ∈ array ∧ reaches r a c ∧ store r !! c = None.
(** What is marked redundant is; the first [i] are marked if they are. *)
Record red_ok (redundant : list Z) (i : Z) : Prop := {
  red_length : zlen redundant = zlen array;
  red_sound k c v : znth array k = Some c → znth redundant k = Some v → v ≠ 0 → ∃ w, w ∈ array ∧ tc (edge r) w c;
  red_complete k c : znth array k = Some c → znth redundant k = Some 0 → k < i → independent given c;
}.
Lemma given_em c : given c ∨ ¬ given c.
Proof. destruct (decide (c ∈ array)); auto. Qed.
Lemma fill_work_spec m i : ∀ arr redundant j g, zlen redundant = zlen arr → ∃ fi work g', fill_work m arr redundant i j g = (fi, work, g') ∧
  length fi = length work ∧ g' <= g ∧
  (∀ n k c, fi !! n = Some k → work !! n = Some c → znth arr (k - j) = Some c ∧ j <= k ∧ k ≠ i) ∧
  (∀ k c, znth arr k = Some c → znth redundant k = Some 0 → j + k ≠ i → c ∈ work).
Proof.
  induction arr as [|c arr IH]; intros redundant j g Hl.
  { exists [], [], g. destruct redundant; (split_and!; [done|done|lia|by intros ? ? ? ?|]); intros k c Hk; apply znth_Some_lt in Hk; change (zlen (@nil Z)) with 0 in Hk; lia. }
  destruct redundant as [|v redundant]; [rewrite zlen_cons in Hl; change (zlen (@nil Z)) with 0 in Hl; pose proof (zlen_nonneg arr); lia|].
  rewrite !zlen_cons in Hl. cbn [fill_work].
  assert (∀ fi work : list Z, (∀ n k x, fi !! n = Some k → work !! n = Some x → znth arr (k - (j + 1)) = Some x ∧ j + 1 <= k ∧ k ≠ i) →
    ∀ n k x, fi !! n = Some k → work !! n = Some x → znth (c :: arr) (k - j) = Some x ∧ j <= k ∧ k ≠ i) as Hshift.
  { intros fi work H n k x H1 H2. destruct (H n k x H1 H2) as (H3 & H4 & H5). split_and!; [|lia|done]. rewrite znth_cons by lia. by replace (k - j - 1) with (k - (j + 1)) by lia. }
  destruct ((i =? j) || negb (v =? 0)) eqn:Eskip.
  - destruct (IH redundant (j + 1) g) as (fi & work & g' & E & H1 & H2 & H3 & H4); [lia|]. exists fi, work, g'. split_and!; [done|done|done|by apply Hshift|].
    intros k x Hx Hv Hk. destruct (decide (k = 0)) as [->|Hk0].
    + change (Some v = Some 0) in Hv. injection Hv as ->. lia.
    + pose proof (znth_Some_lt _ _ _ Hx). rewrite znth_cons in Hx, Hv by lia. apply (H4 (k - 1)); [done|done|lia].
  - set (g1 := if _ <? _ then _ else _). destruct (IH redundant (j + 1) g1) as (fi & work & g' & E & H1 & H2 & H3 & H4); [lia|]. rewrite E.
    exists (j :: fi), (c :: work), g'. split_and!; [done|cbn; lia| | |].
    + etrans; [done|]. unfold g1. destruct (Z.ltb_spec (commit_graph_generation m c) g); lia.
    + intros [|n] k x Hk Hx; cbn in Hk, Hx; [|by eapply (Hshift fi work)]. simplify_eq. replace (k - k) with 0 by lia. split_and!; [done|lia|]. intros ->. lia.
    + intros k x Hx Hv Hk. destruct (decide (k = 0)) as [->|Hk0]; [change (Some c = Some x) in Hx; simplify_eq; by left|].
      pose proof (znth_Some_lt _ _ _ Hx). rewrite znth_cons in Hx, Hv by lia. right. apply (H4 (k - 1)); [done|done|lia].
Qed.
Lemma mark_redundant_wp m : ∀ fi work redundant, length fi = length work → (∀ k, k ∈ fi → 0 <= k < zlen redundant) →
  returns (mark_redundant m fi work redundant) (λ red', zlen red' = zlen redundant ∧ ∀ k v, znth red' k = Some v →
    znth redundant k = Some v ∨ (v = 1 ∧ ∃ n c, fi !! n = Some k ∧ work !! n = Some c ∧ bit m c 16 = true)).
Proof.
  induction fi as [|k fi IH]; intros [|c work] redundant Hl Hk; try done; cbn [mark_redundant]; [cbn; auto|]. rewrite has_PARENT1.
  assert (0 <= k < zlen redundant) as Hk0 by (apply Hk; by left). apply wp_bind.
  assert (∀ red1, zlen red1 = zlen redundant → (∀ k' v, znth red1 k' = Some v → znth redundant k' = Some v ∨ (v = 1 ∧ k' = k ∧ bit m c 16 = true)) →
    returns (mark_redundant m fi work red1) (λ red', zlen red' = zlen redundant ∧ ∀ k' v, znth red' k' = Some v →
    znth redundant k' = Some v ∨ (v = 1 ∧ ∃ n x, (k :: fi) !! n = Some k' ∧ (c :: work) !! n = Some x ∧ bit m x 16 = true))) as Hgo.
  { intros red1 Hl1 H1. eapply wp_mono; [|apply (IH work red1); [cbn in Hl; lia|intros k' Hk'; rewrite Hl1; apply Hk; by right]].
    intros red' [Hl' H']. split; [lia|]. intros k' v Hv. destruct (H' k' v Hv) as [Hv1|(-> & n & x & ? & ? & ?)]; [|right; split; [done|by exists (S n), x]].
    destruct (H1 k' v Hv1) as [?|(-> & -> & ?)]; [by left|right]. split; [done|]. by exists O, c. }
  destruct (bit m c 16) eqn:Eb.
  - rewrite wr_ok by done. cbn [wp]. apply Hgo; [by rewrite zlen_insert|]. intros k' v Hv. destruct (decide (k' = k)) as [->|Hne].
    + rewrite znth_insert_eq in Hv by done. simplify_eq. auto.
    + rewrite znth_insert_ne in Hv by lia. auto.
  - cbn [wp]. apply Hgo; auto.
Qed.
Lemma paint_round m c work g : coherent r m → unmarked m → parsed (the m c) = true → (∀ x, x ∈ work → parsed (the m x) = true) → g <= generation r c →
  returns (paint_down_to_common r m c work g false []) (λ '(ret, m', _), (∃ res, painting r c work m m' res) ∧
    ((ret = 0 ∧ (bit m' c 17 = false → ∀ w, w ∈ work → ¬ reaches r w c)) ∨ (ret = -1 ∧ incomplete r c work))).
Proof using Hh.
  intros Hc Hu Hp Hw Hg. destruct (decide (work = [])) as [->|Hne].
  - unfold paint_down_to_common. cbn zeta. cbn [wp]. split; [|left; split; [done|by intros _ w ?%elem_of_nil]]. exists [].
    apply (painting_start r c [] m); [done|done|by intros x ->%list_elem_of_singleton|done|]. intros x i. rewrite bit_or. unfold PARENT1. rewrite testbit_shiftl_1 by done.
    rewrite (bool_decide_false (x ∈ [])) by apply not_elem_of_nil. by rewrite orb_false_r.
  - eapply wp_mono; [|apply (paint_down_to_common_wp r Hh c work m); [done|done| |done]].
    2: { intros x [->|Hx]%elem_of_cons; [done|by apply Hw]. }
    intros [[ret m'] res] [(-> & HP & Hcomp)|(-> & _ & Hinc & HP)]; [|split; [done|by right]]. split; [by exists res|]. left. split; [done|].
    intros E w Hi Hr. destruct (Hcomp c) as (_ & H2 & _); [right; split; [by eapply coherent_readable|done]|apply not_below_one|]. rewrite H2 in E; [done|]. by exists w.
Qed.
Lemma reaches_strict x y : x ≠ y → reaches r x y → tc (edge r) x y.
Proof. intros Hne H. by apply rtc_tc in H as [?|?]. Qed.
Lemma independent_given red i c k : red_ok red i → znth array k = Some c → znth red k = Some 0 → NoDup array →
  (∀ w j, znth array j = Some w → znth red j = Some 0 → j ≠ k → ¬ reaches r w c) → independent given c.
Proof using Hh.
  intros Hred Hk Hv Hnd Hno. split; [by eapply znth_elem_of|]. intros (w & Hw & Ht). destruct (independent_above given given_em w Hw) as (v & [Hv1 Hv2] & Hr).
  assert (∃ j, znth array j = Some v) as [j Hj]. { apply list_elem_of_lookup in Hv1 as [n Hn]. exists (Z.of_nat n). by rewrite znth_of_nat. }
  destruct (znth_is_Some red j) as [x Hx]; [rewrite (red_length _ _ Hred); by eapply znth_Some_lt|].
  assert (reaches r v c) as Hvc by (etrans; [done|by apply tc_rtc]). destruct (decide (x = 0)) as [->|Hx0].
  - apply (Hno v j Hj Hx); [|done]. intros ->. rewrite Hk in Hj. simplify_eq. by eapply (acyclic_strict r w v Hh).
  - apply Hv2. by apply (red_sound _ _ Hred j v x).
Qed.
Lemma redundant_loop_wp fuel : ∀ m red i, Z.of_nat fuel + i = zlen array → 0 <= i → coherent r m → unmarked m → NoDup array → (∀ c, c ∈ array → parsed (the m c) = true) →
  red_ok red i → returns (redundant_loop r fuel m array red i) (λ '(m', o), restored m m' ∧
    match o with Some red' => red_ok red' (zlen array) | None => unreadable_below end).
Proof using Hh.
  induction fuel as [|fuel IH]; intros m red i Hf Hi Hc Hu Hnd Hp Hred; cbn [redundant_loop].
  { cbn [wp]. split; [by apply restored_refl|]. by replace (zlen array) with i by lia. }
  apply wp_bind, rd_wp; [lia|]. intros c Hci. apply wp_bind, rd_wp; [rewrite (red_length _ _ Hred); lia|]. intros v Hvi.
  assert (c ∈ array) as Hca by by eapply znth_elem_of.
  destruct (Z.eqb_spec v 0) as [->|Hv0]; cbn [negb].
  2: { apply IH; try done; [lia|lia|]. split; [apply Hred|apply Hred|]. intros k x Hx Hv Hk. destruct (decide (k = i)) as [->|]; [congruence|]. eapply (red_complete _ _ Hred); [done|done|lia]. }
  destruct (fill_work_spec m i array red 0 (commit_graph_generation m c)) as (fi & work & g & E & Hlen & Hg & Hfw & Hin); [apply Hred|]. rewrite E.
  assert (∀ n k x, fi !! n = Some k → work !! n = Some x → znth array k = Some x ∧ x ≠ c) as Hfw'.
  { intros n k x H1 H2. destruct (Hfw n k x H1 H2) as (H3 & H4 & H5). replace (k - 0) with k in H3 by lia. split; [done|]. intros ->. apply H5.
    pose proof (znth_Some_lt _ _ _ H3). rewrite <-(Z2Nat.id k), znth_of_nat in H3 by lia. rewrite <-(Z2Nat.id i), znth_of_nat in Hci by lia.
    pose proof (NoDup_lookup array _ _ _ Hnd H3 Hci). lia. }
  assert (∀ x, x ∈ work → x ∈ array ∧ x ≠ c) as Hw.
  { intros x Hx. apply list_elem_of_lookup in Hx as [n Hn]. destruct (fi !! n) as [k|] eqn:Ek; [|apply lookup_ge_None in Ek; apply lookup_lt_Some in Hn; lia].
    destruct (Hfw' n k x Ek Hn). split; [by eapply znth_elem_of|done]. }
  apply wp_bind. eapply wp_mono; [|apply (paint_round m c work g Hc Hu (Hp c Hca)); [intros x Hx; by apply Hp, Hw|rewrite <-(coherent_generation r m c Hc (Hp c Hca)); lia]].
  intros [[ret m3] res] [[res' HP] Hret]. cbn beta iota in *. destruct (clear_painting_ret m3 m c work res' Hc Hu HP) as (mx & m4 & Ex & E4 & Hr4).
  destruct Hret as [[-> Hcomp]|[-> (x & Hx & Hs)]]; cbn [Z.eqb negb].
  2: { change (negb (-1 =? 0)) with true. cbv iota. rewrite Ex. cbn [obind]. rewrite E4. cbn [obind wp]. split; [done|]. destruct Hx as [Hx|(t & Ht & Hx)]; [by exists c, x|exists t, x; split_and!; [by apply Hw|done|done]]. }
  rewrite has_PARENT2. apply wp_bind.
  assert (∃ red1, (if bit m3 c 17 then wr red i 1 else Ret red) = Ret red1 ∧ zlen red1 = zlen red ∧ (bit m3 c 17 = true → znth red1 i = Some 1) ∧ ∀ k, k ≠ i ∨ bit m3 c 17 = false → znth red1 k = znth red k) as (red1 & E1 & Hl1 & H1i & H1).
  { destruct (bit m3 c 17) eqn:Eb; [|exists red; split_and!; try done]. rewrite wr_ok by (rewrite (red_length _ _ Hred); lia). eexists. split; [reflexivity|]. rewrite zlen_insert. split_and!; [done| |].
    - intros _. apply znth_insert_eq. rewrite (red_length _ _ Hred). lia.
    - intros k [Hk|Hk]; [|done]. apply znth_insert_ne; lia. }
  rewrite E1. cbn [wp]. apply wp_bind. eapply wp_mono; [|apply mark_redundant_wp; [done|]].
  2: { intros k Hk. apply list_elem_of_lookup in Hk as [n Hn]. destruct (work !! n) as [x|] eqn:Ex'; [|apply lookup_ge_None in Ex'; apply lookup_lt_Some in Hn; lia].
       destruct (Hfw' n k x Hn Ex') as [Hk _]. apply znth_Some_lt in Hk. rewrite Hl1, (red_length _ _ Hred). done. }
  intros red2 [Hl2 H2]. cbn beta. rewrite Ex. cbn [obind]. rewrite E4. cbn [obind].
  assert (red_ok red2 (i + 1)) as Hred2.
  { assert (∀ k v', znth red2 k = Some v' → v' = 0 → znth red1 k = Some 0) as H20. { intros k v' Hv ->. by destruct (H2 k 0 Hv) as [?|[? _]]. }
    split; [by rewrite Hl2, Hl1, (red_length _ _ Hred)| |].
    - intros k x v Hx Hv Hv0. destruct (H2 k v Hv) as [Hv1|(-> & n & y & Hn & Hy & Hb)].
      + destruct (decide (k = i)) as [->|Hki].
        * assert (x = c) as -> by congruence. destruct (bit m3 c 17) eqn:Eb; [|rewrite H1 in Hv1 by auto; congruence].
          destruct (painting_2 _ _ _ _ _ _ HP c Eb) as (t & Ht & Hr). exists t. destruct (Hw t Ht). split; [done|]. by apply reaches_strict.
        * rewrite H1 in Hv1 by auto. by apply (red_sound _ _ Hred k x v).
      + destruct (Hfw' n k y Hn Hy) as [Hk Hyc]. assert (y = x) as -> by congruence. exists c. split; [done|]. apply reaches_strict; [done|]. by apply (painting_1 _ _ _ _ _ _ HP).
    - intros k x Hx Hv Hk. pose proof (H20 k 0 Hv eq_refl) as Hv1. destruct (decide (k = i)) as [->|Hki].
      + assert (x = c) as -> by congruence. assert (bit m3 c 17 = false) as Eb. { destruct (bit m3 c 17) eqn:Eb; [|done]. rewrite H1i in Hv1 by done. done. }
        apply (independent_given red i c i Hred Hci Hvi Hnd). intros w j Hj Hv' Hji. apply (Hcomp Eb). eapply Hin; [done|done|lia].
      + rewrite H1 in Hv1 by auto. eapply (red_complete _ _ Hred); [done|done|lia]. }
  eapply wp_mono; [|apply (IH m4 red2 (i + 1)); try done; [lia|lia|apply Hr4|by eapply restored_unmarked|intros x Hx; eapply restored_parsed; [done|by apply Hp]]].
  intros [m5 o] [Hr5 Ho]. split; [by eapply restored_trans|done].
Qed.

(** The independent commits, in the order given. *)
Definition reduction (l : list Z) : Prop := l `sublist_of` array ∧ ∀ c, c ∈ l ↔ independent given c.
Lemma parse_parsed m c : coherent r m → parsed (the m c) = true → repo_parse_commit r m c = (0, m).
Proof using Hh.
  intros Hc Hp. unfold repo_parse_commit. destruct (Z.eqb_spec c 0) as [->|]; [|by rewrite Hp]. destruct (coherent_readable r m 0 Hc Hp) as [d Hd]. by rewrite (history_null _ Hh) in Hd.
Qed.
Lemma parse_all_parsed m cs : coherent r m → (∀ c, c ∈ cs → parsed (the m c) = true) → parse_all r m cs = m.
Proof using Hh.
  intros Hc. induction cs as [|c cs IH]; intros Hp; [done|]. cbn [parse_all]. rewrite parse_parsed; [|done|apply Hp; by left]. cbn [snd]. apply IH. intros x Hx. apply Hp. by right.
Qed.
Lemma not_redundant_sublist : ∀ (a red : list Z), not_redundant a red `sublist_of` a.
Proof. induction a as [|c a IH]; intros [|v red]; cbn; try apply sublist_nil_l; try done. destruct (v =? 0); [by apply sublist_skip|by apply sublist_cons]. Qed.
Lemma not_redundant_elem c : ∀ (a red : list Z), zlen red = zlen a → c ∈ not_redundant a red ↔ ∃ k, znth a k = Some c ∧ znth red k = Some 0.
Proof.
  induction a as [|x a IH]; intros [|v red] Hl; rewrite ?zlen_cons in Hl; zlen_pos; try (change (zlen (@nil Z)) with 0 in Hl; lia); cbn [not_redundant].
  { split; [by intros ?%elem_of_nil|]. intros (k & Hk & _). apply znth_Some_lt in Hk. change (zlen (@nil Z)) with 0 in Hk. lia. }
  assert (c ∈ (if v =? 0 then x :: not_redundant a red else not_redundant a red) ↔ (v = 0 ∧ c = x) ∨ c ∈ not_redundant a red) as ->.
  { destruct (Z.eqb_spec v 0); [rewrite elem_of_cons|]; intuition. }
  rewrite IH by lia. split.
  - intros [[-> ->]|(k & H1 & H2)]; [by exists 0|]. exists (k + 1). pose proof (znth_Some_lt _ _ _ H1). rewrite !znth_cons by lia. by replace (k + 1 - 1) with k by lia.
  - intros (k & H1 & H2). destruct (decide (k = 0)) as [->|Hk]; [left; change (Some x = Some c) in H1; change (Some v = Some 0) in H2; by simplify_eq|].
    pose proof (znth_Some_lt _ _ _ H1). rewrite znth_cons in H1, H2 by lia. right. by exists (k - 1).
Qed.
Lemma remove_redundant_no_gen_wp m : coherent r m → unmarked m → NoDup array → array ≠ [] → (∀ c, c ∈ array → parsed (the m c) = true) →
  returns (remove_redundant_no_gen r m array) (λ '(m', o), restored m m' ∧ match o with Some l => reduction l | None => unreadable_below end).
Proof using Hh.
  intros Hc Hu Hnd Hne Hp. unfold remove_redundant_no_gen. destruct (Z.eqb_spec (zlen array) 0) as [E|_]. { destruct array; [done|]. rewrite zlen_cons in E. zlen_pos. lia. }
  rewrite parse_all_parsed by done. apply wp_bind. eapply wp_mono; [|apply (redundant_loop_wp _ m _ 0); try done].
  - intros [m' [red|]] [Hr Hred]; cbn [wp]; (split; [done|]); [|done]. split; [apply not_redundant_sublist|]. intros c. rewrite not_redundant_elem by apply Hred. split.
    + intros (k & H1 & H2). apply (red_complete _ _ Hred k c H1 H2). by eapply znth_Some_lt.
    + intros [H1 H2]. apply list_elem_of_lookup in H1 as [n Hn]. rewrite <-znth_of_nat in Hn. exists (Z.of_nat n). split; [done|].
      destruct (znth_is_Some red (Z.of_nat n)) as [v Hv]; [rewrite (red_length _ _ Hred); by eapply znth_Some_lt|]. destruct (decide (v = 0)) as [->|Hv0]; [done|].
      destruct H2. by apply (red_sound _ _ Hred _ c v Hn Hv).
  - unfold zlen. lia.
  - pose proof (zlen_nonneg array). split; [by rewrite zlen_zrep| |intros k c Hk _ Hlt; apply znth_Some_lt in Hk; lia]. intros k c v _ Hv Hv0. apply znth_elem_of in Hv. unfold zrep in Hv. apply elem_of_replicate in Hv as [-> _]. done.
Qed.
End redundant.
End bases.
