(* ===== verification/CommitRedundant.v ===== *)
(** * Removing redundant commits with the help of generation numbers

    The depth-first walk of [remove_redundant_with_gen] stops at the smallest
    generation that is still of interest, and altogether when one commit is
    left.  It marks the same commits as redundant. *)
From stdpp Require Import prelude gmap sorting relations.
From S2P Require Import Prelude Order PrioQueue Commit CommitReach CommitPaint CommitBases.
Import PrioQueue Commit CommitReach.

#[export] Instance by_gen_ascending m : CmpOrder (compare_commits_by_gen m).
Proof.
  split; unfold compare_commits_by_gen; cbn zeta; [intros|intros a b c]; repeat match goal with |- context [?x <? ?y] => destruct (Z.ltb_spec x y) end; lia.
Qed.
Lemma by_gen_ascending_generation m a b : compare_commits_by_gen m a b <= 0 → commit_graph_generation m a <= commit_graph_generation m b.
Proof. unfold compare_commits_by_gen. cbn zeta. destruct (Z.ltb_spec (commit_graph_generation m a) (commit_graph_generation m b)), (Z.ltb_spec (commit_graph_generation m b) (commit_graph_generation m a)); lia. Qed.
Section sort.
Context `{Q : Qsort} `{!QsortLaws Q}.
Lemma sort_commits_perm m cs : sort_commits m cs ≡ₚ cs.
Proof using QsortLaws0. unfold sort_commits. destruct (1 <? zlen cs); [apply qsort_perm|done]. Qed.
Lemma sort_commits_sorted m cs : StronglySorted (λ a b, commit_graph_generation m a <= commit_graph_generation m b) (sort_commits m cs).
Proof using QsortLaws0.
  unfold sort_commits. destruct (Z.ltb_spec 1 (zlen cs)) as [H|H].
  - pose proof (qsort_sorted (compare_commits_by_gen m) cs) as Hs. induction Hs as [|a l Hs IH Ha]; constructor; [done|].
    eapply Forall_impl; [exact Ha|]. intros b Hb. by apply by_gen_ascending_generation.
  - destruct cs as [|a [|b cs]]; [constructor|repeat constructor|]. rewrite !zlen_cons in H. zlen_pos. lia.
Qed.
End sort.

Section with_gen.
Context (r : repository) (Hh : history_ok r).
Context (m0 : memory) (Hc0 : coherent r m0) (Hu0 : unmarked m0).
Context (array sorted starts : list Z) (Hnd : NoDup array) (Hparsed : ∀ c, c ∈ array → parsed (the m0 c) = true).
Context (Hperm : sorted ≡ₚ array) (Hsorted : StronglySorted (λ a b, generation r a <= generation r b) sorted).
Context (Hstarts : ∀ x, x ∈ starts ↔ ∃ a, a ∈ array ∧ edge r a x).

(** Strictly below one of the given commits. *)
Definition strictly_below c : Prop := ∃ a, a ∈ array ∧ tc (edge r) a c.
Definition candidates (m : memory) : list Z := filter (λ c, bit m c 19 = true) array.

(** The marks while [stack] is walked, when [min_generation] is the bound:
    STALE commits are below given ones, and have passed STALE on to their parents
    unless they are on the stack or too old. *)
Record staling (m : memory) (w : walk) (stack : list Z) : Prop := {
  staling_coherent : coherent r m;
  staling_extends : extends m0 m;
  staling_others c i : i ≠ 18 → i ≠ 19 → bit m c i = bit m0 c i;
  staling_sound c : bit m c 18 = true → strictly_below c;
  staling_given c : bit m c 19 = true → c ∈ array;
  staling_found c : c ∈ array → bit m c 19 = false → bit m c 18 = true;
  staling_count : count_still_independent w = zlen (candidates m);
  staling_pos : 0 <= min_gen_pos w < zlen sorted;
  staling_min s : znth sorted (min_gen_pos w) = Some s → walk_min_generation w = generation r s;
  staling_prefix k s : znth sorted k = Some s → k < min_gen_pos w → bit m s 18 = true;
  staling_closed c p : bit m c 18 = true → edge r c p → c ∈ stack ∨ generation r c < walk_min_generation w ∨ bit m p 18 = true;
  staling_stack c : c ∈ stack → bit m c 18 = true;
  staling_linked c : bit m c 18 = true → ∃ x, x ∈ starts ∧ bit m x 18 = true ∧ rtc (marked_step m STALE) x c;
}.
Lemma strictly_below_edge c p : strictly_below c → edge r c p → strictly_below p.
Proof. intros (a & Ha & Hc) He. exists a. split; [done|]. by eapply tc_r. Qed.
Lemma starts_below x : x ∈ starts → strictly_below x.
Proof using Hstarts. intros (a & Ha & He)%Hstarts. exists a. split; [done|by apply tc_once]. Qed.

(** Reading a commit changes nothing that matters. *)
Lemma linked_extends m m' x c : coherent r m → extends m m' → (∀ a, bit m a 18 = true → bit m' a 18 = true) → rtc (marked_step m STALE) x c → rtc (marked_step m' STALE) x c.
Proof.
  intros Hc He Hb. apply rtc_subrel. intros a b [H1 H2]. rewrite has_STALE in H2. split; [|rewrite has_STALE; by apply Hb].
  rewrite He; [done|]. specialize (Hc a). destruct (parsed (the m a)); [done|]. destruct Hc as [Hc _]. rewrite Hc in H1. by apply elem_of_nil in H1.
Qed.
Lemma candidates_flags m m' : (∀ c, bit m' c 19 = bit m c 19) → candidates m' = candidates m.
Proof. intros H. apply list_filter_iff. intros c. by rewrite H. Qed.
Lemma staling_parse m w stack c : staling m w stack → let m' := (repo_parse_commit r m c).2 in
  staling m' w stack ∧ (∀ x i, bit m' x i = bit m x i) ∧ (readable r c → parsed (the m' c) = true).
Proof using Hh.
  intros H. cbn zeta. destruct (parse_spec r m c Hh (staling_coherent _ _ _ H)) as (ret & m' & E & Hc' & Ef & He & _ & Hret). rewrite E. cbn [snd].
  assert (∀ x i, bit m' x i = bit m x i) as Hb. { intros x i. by apply bit_same_flags. }
  split_and!; [|done|].
  2: { intros [d Hd]. destruct Hret as [(_ & _ & ?)|(_ & Hno & _)]; [done|congruence]. }
  destruct H. split; try done; try (intros; rewrite ?Hb in *; eauto; fail).
  - by eapply extends_trans.
  - rewrite (candidates_flags m m') by done. done.
  - intros x Hx. rewrite Hb in Hx. destruct (staling_linked0 x Hx) as (s & H1 & H2 & H3). exists s. rewrite Hb. split_and!; [done|done|]. eapply linked_extends; [exact staling_coherent0|done| |done]. intros a Ha. by rewrite Hb.
Qed.
Lemma bit_clear_RESULT m c x i : bit (clear_flags m c RESULT) x i = bit m x i && negb (bool_decide (c = x) && (19 =? i)).
Proof. rewrite bit_clear. unfold RESULT. by rewrite testbit_shiftl_1. Qed.
Lemma staling_clear m w stack c : staling m w stack → bit m c 18 = true → bit m c 19 = true →
  staling (clear_flags m c RESULT) (Walk (count_still_independent w - 1) (min_gen_pos w) (walk_min_generation w)) stack.
Proof using Hnd.
  intros H E18 E19. set (m' := clear_flags m c RESULT).
  assert (∀ x i, i ≠ 19 → bit m' x i = bit m x i) as Hb. { intros x i Hi. unfold m'. rewrite bit_clear_RESULT. destruct (Z.eqb_spec 19 i); [done|]. by rewrite andb_false_r, andb_true_r. }
  assert (∀ x, bit m' x 19 = bit m x 19 && negb (bool_decide (c = x))) as Hb9. { intros x. unfold m'. by rewrite bit_clear_RESULT, andb_true_r. }
  assert (candidates m ≡ₚ c :: candidates m') as HP.
  { apply NoDup_Permutation; [by apply NoDup_filter|constructor; [|by apply NoDup_filter]|].
    - unfold candidates. rewrite list_elem_of_filter, Hb9, bool_decide_true, andb_false_r by done. by intros [? _].
    - intros x. rewrite elem_of_cons. unfold candidates. rewrite !list_elem_of_filter, Hb9, andb_true_iff, negb_true_iff, bool_decide_eq_false. destruct (decide (c = x)) as [->|Hne].
      + split; [auto|]. intros _. split; [done|]. by apply (staling_given _ _ _ H).
      + intuition congruence. }
  destruct H. split; cbn [count_still_independent min_gen_pos walk_min_generation]; try done.
  - intros x i H8 H9. rewrite Hb by done. by apply staling_others0.
  - intros x. rewrite Hb by done. apply staling_sound0.
  - intros x. rewrite Hb9. intros [? _]%andb_true_iff. by apply staling_given0.
  - intros x Hx. rewrite (Hb x 18), Hb9 by done. destruct (decide (c = x)) as [<-|Hne]; [done|]. rewrite bool_decide_false, andb_true_r by done. by apply staling_found0.
  - rewrite staling_count0. unfold zlen. rewrite HP. cbn [length]. lia.
  - intros k s H1 H2. rewrite Hb by done. by eapply staling_prefix0.
  - intros x p. rewrite !Hb by done. by apply staling_closed0.
  - intros x Hx. rewrite Hb by done. by apply staling_stack0.
  - intros x. rewrite Hb by done. intros Hx. destruct (staling_linked0 x Hx) as (s & H1 & H2 & H3). exists s. rewrite Hb by done. split_and!; [done|done|].
    eapply linked_extends; [exact staling_coherent0|done| |done]. intros a Ha. by rewrite Hb.
Qed.
(** The bound moves on to a commit that has not been found. *)
Lemma sorted_mono j k a b : znth sorted j = Some a → znth sorted k = Some b → j <= k → generation r a <= generation r b.
Proof using Hsorted.
  intros Ha Hb Hjk. destruct (decide (j = k)) as [->|Hne]; [assert (a = b) as -> by congruence; done|].
  pose proof (znth_Some_lt _ _ _ Ha). pose proof (znth_Some_lt _ _ _ Hb). rewrite <-(Z2Nat.id j), znth_of_nat in Ha by lia. rewrite <-(Z2Nat.id k), znth_of_nat in Hb by lia.
  rewrite <-(take_drop (S (Z.to_nat j)) sorted) in Hsorted. eapply (StronglySorted_app_1_elem_of _ _ _ a b Hsorted).
  - apply (list_elem_of_lookup_2 _ (Z.to_nat j)). rewrite lookup_take_lt by lia. done.
  - apply (list_elem_of_lookup_2 _ (Z.to_nat k - S (Z.to_nat j))). rewrite lookup_drop. by replace (S (Z.to_nat j) + (Z.to_nat k - S (Z.to_nat j)))%nat with (Z.to_nat k) by lia.
Qed.
Lemma next_nonstale_wp fuel : ∀ m pos, 0 <= pos < zlen sorted → zlen sorted - pos <= Z.of_nat fuel →
  returns (next_nonstale fuel m sorted pos) (λ pos', pos <= pos' < zlen sorted ∧ ∀ k s, znth sorted k = Some s → pos <= k < pos' → bit m s 18 = true).
Proof.
  induction fuel as [|fuel IH]; intros m pos Hp Hf; [lia|]. cbn [next_nonstale]. destruct (Z.ltb_spec pos (zlen sorted - 1)); [|cbn; split; [lia|intros; lia]].
  apply wp_bind, rd_wp; [lia|]. intros s Hs. rewrite has_STALE. destruct (bit m s 18) eqn:E; [|cbn; split; [lia|intros; lia]].
  eapply wp_mono; [|apply IH; lia]. intros pos' [H1 H2]. split; [lia|]. intros k x Hk Hx. destruct (decide (k = pos)) as [->|]; [congruence|]. apply (H2 k); [done|lia].
Qed.
Lemma sorted_given s k : znth sorted k = Some s → s ∈ array.
Proof using Hperm. intros H%znth_elem_of. by rewrite <-Hperm. Qed.
Lemma walk_result_wp m w c rest : staling m w (c :: rest) →
  returns (walk_result m sorted w c) (λ '(m', w', stop), staling m' w' (c :: rest) ∧ mem_commits m' = mem_commits m ∧ (∀ x, bit m' x 18 = bit m x 18) ∧
    (stop = true → count_still_independent w' <= 1)).
Proof using Hsorted Hperm Hparsed Hnd.
  intros H. unfold walk_result. rewrite has_RESULT. destruct (bit m c 19) eqn:E19; [|by cbn]. cbn zeta.
  pose proof (staling_stack _ _ _ H c (list_elem_of_here _ _)) as E18. pose proof (staling_clear m w _ c H E18 E19) as H'.
  assert (∀ x, bit (clear_flags m c RESULT) x 18 = bit m x 18) as Hb. { intros x. rewrite bit_clear_RESULT. by rewrite andb_false_r, andb_true_r. }
  destruct (Z.leb_spec (count_still_independent w - 1) 1); [by cbn|]. pose proof (staling_pos _ _ _ H) as Hpos.
  apply wp_bind, rd_wp; [lia|]. intros s Hs. destruct (Z.eqb_spec c s) as [->|Hne]; [|by cbn].
  apply wp_bind. eapply wp_mono; [|apply next_nonstale_wp; [done|unfold zlen; lia]]. intros pos [Hp1 Hp2]. cbn beta. apply wp_bind, rd_wp; [lia|]. intros s' Hs'. cbn [wp].
  assert (commit_graph_generation (clear_flags m s RESULT) s' = generation r s') as Eg.
  { apply coherent_generation; [apply (staling_coherent _ _ _ H')|]. rewrite (staling_extends _ _ _ H'); by eapply Hparsed, sorted_given. }
  rewrite Eg. split_and!; [|done|done|done].
  assert (walk_min_generation w <= generation r s') as Hmin. { rewrite (staling_min _ _ _ H s Hs). eapply sorted_mono; [done|done|lia]. }
  destruct H'. split; cbn [count_still_independent min_gen_pos walk_min_generation] in *; try done.
  - lia.
  - intros x Hx. assert (x = s') as -> by congruence. done.
  - intros k x Hk Hlt. destruct (Z.ltb_spec k (min_gen_pos w)); [by eapply staling_prefix0|]. eapply Hp2; [done|lia].
  - intros x p Hx He. destruct (staling_closed0 x p Hx He) as [?|[?|?]]; [by left|right; left; lia|by right; right].
Qed.
Lemma bit_or_STALE m p x i : bit (or_flags m p STALE) x i = bit m x i || (bool_decide (p = x) && (18 =? i)).
Proof. rewrite bit_or. unfold STALE. by rewrite testbit_shiftl_1. Qed.
(** A commit with a place to be reached from is marked and put on the stack. *)
Lemma staling_push m w stack p : staling m w stack → strictly_below p → (p ∈ starts ∨ ∃ c, c ∈ stack ∧ p ∈ parents (the m c)) →
  staling (or_flags m p STALE) w (p :: stack).
Proof.
  intros H Hp Hl. set (m' := or_flags m p STALE).
  assert (∀ x i, i ≠ 18 → bit m' x i = bit m x i) as Hb. { intros x i Hi. unfold m'. rewrite bit_or_STALE. destruct (Z.eqb_spec 18 i); [done|]. by rewrite andb_false_r, orb_false_r. }
  assert (∀ x, bit m' x 18 = bit m x 18 || bool_decide (p = x)) as Hb8. { intros x. unfold m'. by rewrite bit_or_STALE, andb_true_r. }
  assert (∀ x, bit m x 18 = true → bit m' x 18 = true) as Hg. { intros x E. by rewrite Hb8, E. }
  assert (bit m' p 18 = true) as Hpp. { by rewrite Hb8, bool_decide_true, orb_true_r. }
  destruct H. split; try done.
  - intros x i H8 H9. rewrite Hb by done. by apply staling_others0.
  - intros x. rewrite Hb8, orb_true_iff, bool_decide_eq_true. intros [?| <-]; [by apply staling_sound0|done].
  - intros x. rewrite Hb by done. apply staling_given0.
  - intros x Hx. rewrite (Hb x 19) by done. intros E. by apply Hg, staling_found0.
  - rewrite (candidates_flags m m'); [done|]. intros x. by apply Hb.
  - intros k s H1 H2. eapply Hg, staling_prefix0; done.
  - intros x q Hx He. rewrite Hb8, orb_true_iff, bool_decide_eq_true in Hx. destruct Hx as [Hx|<-]; [|left; by left].
    destruct (staling_closed0 x q Hx He) as [?|[?|?]]; [left; by right|auto|right; right; by apply Hg].
  - intros x [->|Hx]%elem_of_cons; [done|]. by apply Hg, staling_stack0.
  - intros x. rewrite Hb8, orb_true_iff, bool_decide_eq_true. intros [Hx|<-].
    + destruct (staling_linked0 x Hx) as (s & H1 & H2 & H3). exists s. split_and!; [done|by apply Hg|]. by eapply linked_extends.
    + destruct Hl as [Hs|(c & Hc & Hpc)]; [exists p; split_and!; [done|done|apply rtc_refl]|].
      destruct (staling_linked0 c (staling_stack0 c Hc)) as (s & H1 & H2 & H3). exists s. split_and!; [done|by apply Hg|].
      eapply rtc_r; [by eapply linked_extends|]. split; [done|by rewrite has_STALE].
Qed.
Lemma staling_pop m w c rest : staling m w (c :: rest) → (∀ p, edge r c p → generation r c < walk_min_generation w ∨ bit m p 18 = true) → staling m w rest.
Proof.
  intros [] Hp. split; try done.
  - intros x p Hx He. destruct (staling_closed0 x p Hx He) as [[->|?]%elem_of_cons|?]; [right; by apply Hp|by left|by right].
  - intros x Hx. apply staling_stack0. by right.
Qed.
Lemma first_nonstale_spec m ps : match first_nonstale m ps with Some p => p ∈ ps ∧ bit m p 18 = false | None => ∀ p, p ∈ ps → bit m p 18 = true end.
Proof.
  induction ps as [|p ps IH]; cbn [first_nonstale]; [by intros p ?%elem_of_nil|]. rewrite has_STALE. destruct (bit m p 18) eqn:E; [|split; [by left|done]].
  destruct (first_nonstale m ps) as [q|]; [destruct IH; split; [by right|done]|]. intros q [->|Hq]%elem_of_cons; [done|by apply IH].
Qed.
Definition walked (m : memory) (w : walk) : Prop := staling m w [] ∨ ∃ stack, staling m w stack ∧ count_still_independent w <= 1.
Lemma walk_stack_wp fuel : ∀ m w stack, staling m w stack → (2 * unset (store r) m 18 + length stack < fuel)%nat →
  returns (walk_stack r fuel m sorted w stack) (λ '(m', w'), walked m' w' ∧ ∀ x, bit m x 18 = true → bit m' x 18 = true).
Proof using Hh Hsorted Hperm Hparsed Hnd.
  induction fuel as [|fuel IH]; intros m w stack H Hf; [lia|]. cbn [walk_stack]. destruct stack as [|c rest]; [cbn; split; [by left|done]|].
  destruct (staling_parse m w (c :: rest) c H) as (H1 & Hb1 & Hp1). set (m1 := (repo_parse_commit r m c).2) in *.
  apply wp_bind. eapply wp_mono; [|by apply walk_result_wp]. intros [[m2 w2] stop] (H2 & Em & Hb2 & Hstop). cbn beta iota.
  assert (∀ x, bit m2 x 18 = bit m x 18) as Hb. { intros x. by rewrite Hb2, Hb1. }
  assert (unset (store r) m2 18 = unset (store r) m 18) as Eu. { unfold unset. f_equal. apply set_eq. intros x. by rewrite !elem_of_filter, Hb. }
  destruct stop; [cbn [wp]; split; [right; eexists; split; [done|by apply Hstop]|intros x; by rewrite Hb]|].
  assert (readable r c → parsed (the m2 c) = true) as Hp2. { intros Hr. unfold the. rewrite Em. by apply Hp1. }
  assert (∀ p, edge r c p → commit_graph_generation m2 c = generation r c ∧ p ∈ parents (the m2 c)) as Hedge.
  { intros p He. assert (readable r c) as Hr by (destruct He as (d & ? & _); by exists d). pose proof (staling_coherent _ _ _ H2) as Hc2.
    split; [by apply coherent_generation, Hp2|by eapply coherent_parents, He; [|apply Hp2]]. }
  destruct (Z.ltb_spec (commit_graph_generation m2 c) (walk_min_generation w2)) as [Hlt|Hge].
  { eapply wp_mono; [|apply IH]. 2: { eapply staling_pop; [done|]. intros p He. left. destruct (Hedge p He). lia. } 2: { cbn in Hf. lia. }
    intros [m' w'] [? Hm]. split; [done|]. intros x Hx. apply Hm. by rewrite Hb. }
  pose proof (first_nonstale_spec m2 (parents (the m2 c))) as Hfn. destruct (first_nonstale m2 (parents (the m2 c))) as [p|].
  - destruct Hfn as [Hp Ep]. pose proof (coherent_edge r m2 c p (staling_coherent _ _ _ H2) Hp) as He.
    eapply wp_mono; [|apply IH].
    2: { apply staling_push; [done| |right; exists c; split; [by left|done]]. eapply strictly_below_edge; [|done]. apply (staling_sound _ _ _ H2), (staling_stack _ _ _ H2). by left. }
    2: { assert (unset (store r) (or_flags m2 p STALE) 18 < unset (store r) m2 18)%nat.
         { apply (unset_lt _ _ _ _ p); [apply grows_or|by eapply edge_ids|done|]. by rewrite bit_or_STALE, bool_decide_true, orb_true_r. }
         cbn [length commit_list_insert] in *. unfold commit_list_insert. cbn [length]. lia. }
    intros [m' w'] [? Hm]. split; [done|]. intros x Hx. apply Hm. by rewrite bit_or_STALE, Hb, Hx.
  - eapply wp_mono; [|apply IH]. 2: { eapply staling_pop; [done|]. intros p He. right. by apply Hfn, Hedge. } 2: { cbn in Hf. lia. }
    intros [m' w'] [? Hm]. split; [done|]. intros x Hx. apply Hm. by rewrite Hb.
Qed.

(** From all the starting points: every one of them ends up marked, unless the
    walk has ended early. *)
Lemma walk_loop_wp ss : ∀ m w, staling m w [] → (∀ x, x ∈ ss → x ∈ starts) →
  returns (walk_loop r m sorted w ss) (λ '(m', w'), ∃ stack, staling m' w' stack ∧
    ((stack = [] ∧ (∀ x, x ∈ ss → bit m' x 18 = true) ∧ ∀ x, bit m x 18 = true → bit m' x 18 = true) ∨ count_still_independent w' <= 1)).
Proof using Hh Hsorted Hperm Hparsed Hnd Hstarts.
  induction ss as [|c ss IH]; intros m w H Hs; cbn [walk_loop]; [cbn; exists []; split; [done|left; split_and!; [done|by intros x ?%elem_of_nil|done]]|].
  destruct (Z.ltb_spec 1 (count_still_independent w)); [|cbn; exists []; split; [done|by right]].
  assert (c ∈ starts) as Hc by (apply Hs; by left). apply wp_bind. eapply wp_mono; [|apply walk_stack_wp].
  2: { apply staling_push; [done|by apply starts_below|by left]. }
  2: { cbn [length]. assert (unset (store r) (or_flags m c STALE) 18 <= size (ids (store r)))%nat; [|lia]. apply subseteq_size. intros x. rewrite elem_of_filter. by intros [_ ?]. }
  intros [m1 w1] [Hw Hm]. cbn beta iota in *.
  assert (bit m1 c 18 = true) as Hc1. { apply Hm. by rewrite bit_or_STALE, bool_decide_true, orb_true_r. }
  destruct Hw as [H1|(stack & H1 & Hcount)].
  - eapply wp_mono; [|apply IH; [done|intros x Hx; apply Hs; by right]]. intros [m' w'] (stack & H2 & [(-> & H3 & H4)|H3]); [|exists stack; split; [done|by right]].
    exists []. split; [done|]. left. split_and!; [done| |].
    + intros x [->|Hx]%elem_of_cons; [by apply H4|by apply H3].
    + intros x Hx. apply H4, Hm. by rewrite bit_or_STALE, Hx.
  - destruct ss as [|c' ss]; cbn [walk_loop]; [cbn; exists stack; split; [done|by right]|]. destruct (Z.ltb_spec 1 (count_still_independent w1)); [lia|]. cbn. exists stack. split; [done|by right].
Qed.
(** The marks say which of the given commits are below others. *)
Lemma walk_exact m w stack a : staling m w stack → (stack = [] ∧ ∀ x, x ∈ starts → bit m x 18 = true) ∨ count_still_independent w <= 1 →
  a ∈ array → bit m a 18 = true ↔ strictly_below a.
Proof using Hh Hc0 Hsorted Hperm Hparsed Hnd Hstarts.
  intros H Hend Ha. split; [apply (staling_sound _ _ _ H)|]. intros Hsb. destruct (bit m a 18) eqn:E; [done|exfalso].
  assert (readable r a) as Hra by (eapply coherent_readable; [exact Hc0|by apply Hparsed]).
  destruct Hend as [[-> Hs]|Hcount].
  - assert (walk_min_generation w <= generation r a) as Hmin.
    { assert (∃ k, znth sorted k = Some a) as [k Hk]. { rewrite <-Hperm in Ha. apply list_elem_of_lookup in Ha as [n Hn]. exists (Z.of_nat n). by rewrite znth_of_nat. }
      destruct (znth_is_Some sorted (min_gen_pos w)) as [s Hpos]; [apply (staling_pos _ _ _ H)|]. rewrite (staling_min _ _ _ H s Hpos). eapply sorted_mono; [done|done|].
      destruct (Z.ltb_spec k (min_gen_pos w)) as [Hlt|]; [|done]. rewrite (staling_prefix _ _ _ H k a Hk Hlt) in E. done. }
    destruct Hsb as (b & Hb & Ht). apply tc_first in Ht as (x & He & Hr). assert (bit m x 18 = true) as Hx. { apply Hs, Hstarts. by exists b. }
    enough (bit m a 18 = true) by congruence. clear E He. induction Hr as [|x y a He Hr IH]; [done|]. apply IH; try done.
    destruct (staling_closed _ _ _ H x y Hx He) as [Hn|[Hlt|?]]; [by apply elem_of_nil in Hn| |done].
    assert (generation r a <= generation r x) by (apply reaches_generation; [done|by eapply rtc_l|done]). lia.
  - destruct Hsb as (b & Hb & Ht). destruct (independent_above r Hh (λ c, c ∈ array) (given_em array) b Hb) as (v & [Hv1 Hv2] & Hr).
    assert (tc (edge r) v a) as Hva by (by eapply tc_rtc_l).
    assert (bit m v 19 = true) as Hv9. { destruct (bit m v 19) eqn:E9; [done|]. pose proof (staling_found _ _ _ H v Hv1 E9) as E8. by apply (staling_sound _ _ _ H) in E8. }
    assert (bit m a 19 = true) as Ha9. { destruct (bit m a 19) eqn:E9; [done|]. by rewrite (staling_found _ _ _ H a Ha E9) in E. }
    rewrite (staling_count _ _ _ H) in Hcount. assert (v ≠ a) as Hne by (intros ->; by eapply history_acyclic).
    assert (v ∈ candidates m ∧ a ∈ candidates m) as [Hcv Hca] by (unfold candidates; rewrite !list_elem_of_filter; auto).
    destruct (candidates m) as [|x [|y l]]; [by apply elem_of_nil in Hcv| |rewrite !zlen_cons in Hcount; zlen_pos; lia].
    apply list_elem_of_singleton in Hcv, Hca. congruence.
Qed.
Lemma staling_start m : coherent r m → extends m0 m → (∀ c i, i ≠ 19 → bit m c i = bit m0 c i) → (∀ c, bit m c 19 = true ↔ c ∈ array) → array ≠ [] →
  ∀ s, znth sorted 0 = Some s → staling m (Walk (zlen array) 0 (generation r s)) [].
Proof using Hu0.
  intros Hc He Hb Hb9 Hne s Hs. assert (∀ c, bit m c 18 = false) as Hb8. { intros c. rewrite Hb by done. pose proof (Hu0 c) as Hn. rewrite has_all_flags_false in Hn. by apply Hn. }
  split; cbn [count_still_independent min_gen_pos walk_min_generation]; try done; try (intros c; rewrite Hb8; done).
  - intros c i _ Hi. by apply Hb.
  - intros c. apply Hb9.
  - intros c Hin E. apply Hb9 in Hin. congruence.
  - unfold candidates. rewrite filter_all_in; [done|]. intros c Hin. by apply Hb9.
  - pose proof (znth_Some_lt _ _ _ Hs). lia.
  - intros x Hx. congruence.
  - intros k x Hk Hlt. apply znth_Some_lt in Hk. lia.
  - by intros c ?%elem_of_nil.
Qed.
End with_gen.

(** ** The whole function *)
Section remove.
Context (r : repository) (Hh : history_ok r).
Context `{Q : !Qsort} `{!QsortLaws Q}.

Lemma walk_start_parents_spec ps : ∀ m ws, coherent r m → (∀ x, bit m x 18 = true ↔ x ∈ ws) →
  ∃ m' ws', walk_start_parents r m ps ws = (m', ws') ∧ coherent r m' ∧ extends m m' ∧ (∀ x i, i ≠ 18 → bit m' x i = bit m x i) ∧
    (∀ x, bit m' x 18 = true ↔ x ∈ ws') ∧ (∀ x, x ∈ ws' ↔ x ∈ ws ∨ x ∈ ps).
Proof using Hh.
  induction ps as [|p ps IH]; intros m ws Hc Hw; cbn [walk_start_parents].
  { exists m, ws. split_and!; try done. intros x. split; [auto|]. by intros [?|?%elem_of_nil]. }
  destruct (parse_spec r m p Hh Hc) as (ret & m1 & E & Hc1 & Ef & He & _ & _). rewrite E. cbn [snd]. rewrite has_STALE.
  assert (∀ x i, bit m1 x i = bit m x i) as Hb1. { intros x i. by apply bit_same_flags. }
  destruct (bit m1 p 18) eqn:E8.
  - destruct (IH m1 ws Hc1) as (m' & ws' & E' & Hc' & He' & Hb' & Hw' & Hin); [intros x; rewrite Hb1; apply Hw|]. exists m', ws'. split_and!; [done|done|by eapply extends_trans| |done|].
    + intros x i Hi. by rewrite Hb', Hb1.
    + intros x. rewrite Hin, elem_of_cons. assert (p ∈ ws) by (apply Hw; by rewrite <-Hb1). naive_solver.
  - set (m2 := or_flags m1 p STALE). destruct (IH m2 (ws ++ [p])) as (m' & ws' & E' & Hc' & He' & Hb' & Hw' & Hin); [done| |].
    { intros x. unfold m2. rewrite bit_or_STALE, orb_true_iff, andb_true_r, bool_decide_eq_true, Hb1, Hw, elem_of_app, list_elem_of_singleton. naive_solver. }
    exists m', ws'. split_and!; [done|done|by eapply extends_trans| |done|].
    + intros x i Hi. rewrite Hb' by done. unfold m2. rewrite bit_or_STALE, Hb1. destruct (Z.eqb_spec 18 i); [done|]. by rewrite andb_false_r, orb_false_r.
    + intros x. rewrite Hin, elem_of_app, list_elem_of_singleton, elem_of_cons. naive_solver.
Qed.
Lemma walk_start_loop_spec arr : ∀ m ws, coherent r m → (∀ x, bit m x 18 = true ↔ x ∈ ws) → (∀ c, c ∈ arr → parsed (the m c) = true) →
  ∃ m' ws', walk_start_loop r m arr ws = (m', ws') ∧ coherent r m' ∧ extends m m' ∧ (∀ x i, i ≠ 18 → i ≠ 19 → bit m' x i = bit m x i) ∧
    (∀ x, bit m' x 18 = true ↔ x ∈ ws') ∧ (∀ x, bit m' x 19 = true ↔ bit m x 19 = true ∨ x ∈ arr) ∧ (∀ x, x ∈ ws' ↔ x ∈ ws ∨ ∃ a, a ∈ arr ∧ edge r a x).
Proof using Hh.
  induction arr as [|c arr IH]; intros m ws Hc Hw Hp; cbn [walk_start_loop].
  { exists m, ws. split_and!; try done; intros x; (split; [auto|]); [by intros [?|?%elem_of_nil]|]. by intros [?|(a & ?%elem_of_nil & _)]. }
  assert (parsed (the m c) = true) as Hpc by (apply Hp; by left). rewrite (parse_parsed r Hh m c Hc Hpc). cbn [snd]. set (m1 := or_flags m c RESULT).
  assert (∀ x i, bit m1 x i = bit m x i || (bool_decide (c = x) && (19 =? i))) as Hb1. { intros x i. unfold m1. rewrite bit_or. unfold RESULT. by rewrite testbit_shiftl_1. }
  change (the m1 c) with (the m c). destruct (walk_start_parents_spec (parents (the m c)) m1 ws) as (m2 & ws2 & E2 & Hc2 & He2 & Hb2 & Hw2 & Hin2); [done| |].
  { intros x. by rewrite Hb1, andb_false_r, orb_false_r. }
  rewrite E2. destruct (IH m2 ws2 Hc2 Hw2) as (m' & ws' & E' & Hc' & He' & Hb' & Hw' & Hb9 & Hin).
  { intros x Hx. rewrite He2; apply Hp; by right. }
  exists m', ws'. split_and!; [done|done|by eapply extends_trans| |done| |].
  - intros x i H8 H9. rewrite Hb', Hb2, Hb1 by done. destruct (Z.eqb_spec 19 i); [done|]. by rewrite andb_false_r, orb_false_r.
  - intros x. rewrite Hb9, Hb2, Hb1, andb_true_r, orb_true_iff, bool_decide_eq_true, elem_of_cons by done. naive_solver.
  - intros x. rewrite Hin, Hin2. assert (x ∈ parents (the m c) ↔ edge r c x) as -> by (split; [by apply coherent_edge|by apply coherent_parents]).
    setoid_rewrite elem_of_cons. naive_solver.
Qed.
Lemma clear_all_spec cs k : 0 <= k → ∀ m, mem_commits (clear_all m cs (Z.shiftl 1 k)) = mem_commits m ∧
  ∀ x i, bit (clear_all m cs (Z.shiftl 1 k)) x i = bit m x i && negb (bool_decide (x ∈ cs) && (k =? i)).
Proof.
  intros Hk. induction cs as [|c cs IH]; intros m; cbn [clear_all foldl].
  { split; [done|]. intros x i. rewrite bool_decide_false by apply not_elem_of_nil. by rewrite andb_true_r. }
  fold (clear_all (clear_flags m c (Z.shiftl 1 k)) cs (Z.shiftl 1 k)). destruct (IH (clear_flags m c (Z.shiftl 1 k))) as [E Hb]. split; [by rewrite E|].
  intros x i. rewrite Hb, bit_clear, testbit_shiftl_1, <-andb_assoc, <-negb_orb by done. do 2 f_equal. destruct (k =? i); [|by rewrite !andb_false_r]. rewrite !andb_true_r.
  apply eq_true_iff_eq. rewrite orb_true_iff, !bool_decide_eq_true, elem_of_cons. naive_solver.
Qed.

Lemma remove_redundant_with_gen_wp m array : coherent r m → unmarked m → NoDup array → array ≠ [] → (∀ c, c ∈ array → parsed (the m c) = true) →
  returns (remove_redundant_with_gen r m array) (λ '(m', o), restored r m m' ∧ ∃ l, o = Some l ∧ reduction r array l).
Proof using Hh QsortLaws0.
  intros Hc Hu Hnd Hne Hp. unfold remove_redundant_with_gen. set (sorted := sort_commits m array).
  assert (sorted ≡ₚ array) as Hperm by apply sort_commits_perm.
  assert (StronglySorted (λ a b, generation r a <= generation r b) sorted) as Hsorted.
  { assert (∀ c, c ∈ sorted → commit_graph_generation m c = generation r c) as Hg. { intros c Hx. apply coherent_generation; [done|]. apply Hp. by rewrite <-Hperm. }
    pose proof (sort_commits_sorted m array) as Hs. fold sorted in Hs. clearbody sorted. clear Hperm. induction Hs as [|a l Hs IH Ha]; [constructor|]. constructor; [apply IH; intros; apply Hg; by right|].
    rewrite Forall_forall in *. intros b Hb. rewrite <-!Hg by (by left || by right). by apply Ha. }
  assert (0 < zlen sorted) as Hlen. { unfold zlen. rewrite Hperm. destruct array; [done|cbn; lia]. }
  apply wp_bind, rd_wp; [lia|]. intros s Hs. cbn zeta.
  rewrite (coherent_generation r m s Hc) by (apply Hp; rewrite <-Hperm; by eapply znth_elem_of).
  pose proof (λ c i, proj1 (has_all_flags_false m c) (Hu c) i) as Hu'.
  destruct (walk_start_loop_spec array m []) as (m1 & ws & E1 & Hc1 & He1 & Hb1 & Hw1 & H91 & Hin); [done| |done|].
  { intros x. rewrite Hu' by lia. split; [done|by intros ?%elem_of_nil]. }
  rewrite E1. set (starts := sort_commits m1 ws). assert (starts ≡ₚ ws) as Hsp by apply sort_commits_perm.
  assert (∀ x, x ∈ starts ↔ ∃ a, a ∈ array ∧ edge r a x) as Hstarts. { intros x. rewrite Hsp, Hin. split; [by intros [?%elem_of_nil|?]|auto]. }
  destruct (clear_all_spec starts 18 ltac:(lia) m1) as [Em2 Hb2]. fold STALE in Em2, Hb2. set (m2 := clear_all m1 starts STALE) in *.
  assert (∀ x, the m2 x = the m1 x) as Et2. { intros x. unfold the. by rewrite Em2. }
  assert (staling r m array sorted starts m2 (Walk (zlen array) 0 (generation r s)) []) as Hst.
  { apply staling_start; try done.
    - intros x. rewrite Et2. apply Hc1.
    - intros x Hx. rewrite Et2. by apply He1.
    - intros x i Hi. rewrite Hb2. destruct (Z.eqb_spec 18 i) as [<-|Hne8]; [|by rewrite andb_false_r, andb_true_r, Hb1].
      rewrite (Hu' x 18) by lia. rewrite andb_true_r. destruct (bit m1 x 18) eqn:E8; [|done]. rewrite bool_decide_true; [done|]. rewrite Hsp. by apply Hw1.
    - intros x. rewrite Hb2, andb_false_r, andb_true_r, H91, Hu' by lia. split; [by intros [?|?]|auto]. }
  apply wp_bind. eapply wp_mono; [|apply (walk_loop_wp r Hh m array sorted starts Hnd Hp Hperm Hsorted Hstarts); [exact Hst|intros x; by rewrite elem_of_reverse]].
  intros [m3 w3] (stack & Hst3 & Hend). cbn beta iota.
  assert (∀ a, a ∈ array → bit m3 a 18 = true ↔ strictly_below r array a) as Hexact.
  { intros a Ha. apply (walk_exact r Hh m Hc array sorted starts Hnd Hp Hperm Hsorted Hstarts m3 w3 stack a Hst3); [|done]. destruct Hend as [(-> & H1 & _)|?]; [left|by right]. split; [done|].
    intros x Hx. apply H1. by apply elem_of_reverse. }
  destruct (clear_all_spec array 19 ltac:(lia) m3) as [Em4 Hb4]. fold RESULT in Em4, Hb4. set (m4 := clear_all m3 array RESULT) in *.
  assert (∀ x, the m4 x = the m3 x) as Et4. { intros x. unfold the. by rewrite Em4. }
  assert (∀ x, bit m4 x 18 = bit m3 x 18) as Hb48. { intros x. by rewrite Hb4, andb_false_r, andb_true_r. }
  apply wp_bind. eapply wp_mono; [|apply clear_commit_marks_many_ok].
  - intros m5 [Em5 Hf5]. cbn [wp]. split.
    + assert (∀ x, the m5 x = the m3 x) as Et5. { intros x. rewrite <-Et4. unfold the. by rewrite Em5. } split.
      * intros x. rewrite Et5. apply (staling_coherent _ _ _ _ _ _ _ _ Hst3).
      * intros x Hx. rewrite Et5. by apply (staling_extends _ _ _ _ _ _ _ _ Hst3).
      * intros x. apply flags_bits. intros i Hi. rewrite (bit_ldiff m4 m5 x STALE i (Hf5 x)), Hb4. unfold STALE. rewrite testbit_shiftl_1 by lia.
        destruct (Z.eqb_spec 18 i) as [<-|H8]; [by rewrite andb_false_r, Hu' by lia|]. rewrite andb_true_r. destruct (Z.eqb_spec 19 i) as [<-|H9].
        -- rewrite andb_true_r. rewrite (Hu' x 19) by lia. destruct (bit m3 x 19) eqn:E9; [|done]. by rewrite bool_decide_true by by apply (staling_given _ _ _ _ _ _ _ _ Hst3).
        -- rewrite andb_false_r, andb_true_r. by apply (staling_others _ _ _ _ _ _ _ _ Hst3).
    + eexists. split; [reflexivity|]. split; [apply sublist_filter|]. intros a. rewrite list_elem_of_filter, has_STALE, Hb48. split.
      * intros [E Ha]. split; [done|]. intros Hsb. apply (Hexact a Ha) in Hsb. congruence.
      * intros [Ha Hn]. split; [|done]. destruct (bit m3 a 18) eqn:E; [|done]. destruct Hn. by apply (Hexact a Ha).
  - rewrite has_STALE, Hb48. destruct (bit m3 0 18) eqn:E; [|done]. destruct (staling_sound _ _ _ _ _ _ _ _ Hst3 0 E) as (a & _ & Ht). apply tc_last in Ht as (z & _ & He). by destruct (history_parents _ Hh z 0 He).
  - intros x. rewrite has_STALE, Hb48. intros Hx. destruct (staling_linked _ _ _ _ _ _ _ _ Hst3 x Hx) as (y & H1 & H2 & H3). exists y. split_and!; [done|by rewrite has_STALE, Hb48|].
    eapply linked_extends; [apply (staling_coherent _ _ _ _ _ _ _ _ Hst3)| | |done]; [by intros z _; apply Et4|intros z; by rewrite Hb48].
Qed.
Lemma remove_redundant_wp m array : coherent r m → unmarked m → NoDup array → array ≠ [] → (∀ c, c ∈ array → parsed (the m c) = true) →
  returns (remove_redundant r m array) (λ '(m', o), restored r m m' ∧ match o with Some l => reduction r array l | None => unreadable_below r array end).
Proof using Hh QsortLaws0.
  intros. unfold remove_redundant. destruct (_ && _); [|by apply remove_redundant_no_gen_wp]. eapply wp_mono; [|by apply remove_redundant_with_gen_wp].
  intros [m' o] (? & l & -> & ?). done.
Qed.
End remove.
