(* ===== verification/CommitSearch.v ===== *)
(** * Depth-first search for reachable commits

    [can_all_from_reach_with_flag] answers whether commits reach a flagged one:
    a commit that the search has left is marked RESULT if and only if it does. *)
From stdpp Require Import prelude gmap sorting relations.
From S2P Require Import Prelude Order PrioQueue Commit CommitReach CommitPaint CommitBases CommitRedundant.
Import PrioQueue Commit CommitReach.

Section search.
Context (r : repository) (Hh : history_ok r).
Context (m0 : memory) (to roots : list Z) (min_generation : Z).
Context (Hto : ∀ t, t ∈ to → readable r t ∧ min_generation <= generation r t).

(** [c] has one of the flagged commits as an ancestor, or is one. *)
Definition leads c : Prop := ∃ t, t ∈ to ∧ reaches r c t.
Definition yes (m : memory) (c : Z) : Prop := bit m c 17 = true ∨ bit m c 19 = true.
(** The stack is a path, from the top down to where it started. *)
Fixpoint path (stack : list Z) : Prop :=
  match stack with
  | c :: (d :: _) as rest => edge r d c ∧ path rest
  | _ => True
  end.
Definition seen_step (m : memory) (a b : Z) : Prop := b ∈ parents (the m a) ∧ bit m b 16 = true.
Record searching (m : memory) (stack : list Z) : Prop := {
  searching_coherent : coherent r m;
  searching_extends : extends m0 m;
  searching_others c i : i ≠ 16 → i ≠ 19 → bit m c i = bit m0 c i;
  searching_flag c : bit m c 17 = true ↔ c ∈ to;
  searching_sound c : bit m c 19 = true → leads c ∧ bit m c 16 = true;
  searching_done c : bit m c 16 = true → c ∈ stack ∨ (leads c → yes m c);
  searching_stack c : c ∈ stack → bit m c 16 = true ∧ parsed (the m c) = true;
  searching_path : path stack;
  searching_linked c : bit m c 16 = true → ∃ x, x ∈ roots ∧ bit m x 16 = true ∧ rtc (seen_step m) x c;
}.
Lemma seen_mono m m' x c : coherent r m → extends m m' → (∀ a, bit m a 16 = true → bit m' a 16 = true) → rtc (seen_step m) x c → rtc (seen_step m') x c.
Proof.
  intros Hc He Hb. apply rtc_subrel. intros a b [H1 H2]. split; [|by apply Hb].
  rewrite He; [done|]. specialize (Hc a). destruct (parsed (the m a)); [done|]. destruct Hc as [Hc _]. rewrite Hc in H1. by apply elem_of_nil in H1.
Qed.
Lemma leads_edge c p : edge r c p → leads p → leads c.
Proof. intros He (t & Ht & Hr). exists t. split; [done|]. by eapply rtc_l. Qed.
Lemma leads_cut c : ¬ readable r c ∨ generation r c < min_generation → leads c → c ∈ to.
Proof using Hh Hto.
  intros Hc (t & Ht & Hr). destruct Hc as [Hc|Hc].
  - apply rtc_inv in Hr as [->|(p & (d & Hd & _) & _)]; [done|]. destruct Hc. by exists d.
  - destruct (Hto t Ht) as [H1 H2]. pose proof (reaches_generation r c t Hh Hr H1). lia.
Qed.
Lemma path_reaches stack : ∀ c d, path (c :: stack) → d ∈ c :: stack → reaches r d c.
Proof.
  induction stack as [|x stack IH]; intros c d Hp Hd; [apply list_elem_of_singleton in Hd as ->; apply rtc_refl|].
  apply elem_of_cons in Hd as [->|Hd]; [apply rtc_refl|]. destruct Hp as [He Hp]. eapply rtc_r; [by apply IH|done].
Qed.
Lemma path_tail c stack : path (c :: stack) → path stack.
Proof. destruct stack; [done|]. by intros [_ ?]. Qed.
Lemma has_yes m c : has m c (Z.lor PARENT2 RESULT) = true ↔ yes m c.
Proof.
  unfold has, yes. rewrite negb_true_iff, Z.eqb_neq, land_zero_bits. unfold PARENT2, RESULT. setoid_rewrite Z.lor_spec. split.
  - intros H. destruct (bit m c 17) eqn:E1; [by left|]. destruct (bit m c 19) eqn:E2; [by right|]. destruct H. intros i Hi. rewrite !testbit_shiftl_1 by lia.
    intros [E%Z.eqb_eq|E%Z.eqb_eq]%orb_true_iff; by subst i.
  - intros [E|E] H; [specialize (H 17)|specialize (H 19)]; rewrite !testbit_shiftl_1 in H by lia; unfold bit in E; rewrite H in E by (done || lia); done.
Qed.

(** RESULT is passed on to a commit of the stack that leads there. *)
Lemma bit_or_RESULT m c x i : bit (or_flags m c RESULT) x i = bit m x i || (bool_decide (c = x) && (19 =? i)).
Proof. rewrite bit_or. unfold RESULT. by rewrite testbit_shiftl_1. Qed.
Lemma bit_or_PARENT1 m c x i : bit (or_flags m c PARENT1) x i = bit m x i || (bool_decide (c = x) && (16 =? i)).
Proof. rewrite bit_or. unfold PARENT1. by rewrite testbit_shiftl_1. Qed.
Lemma searching_result m stack c : searching m stack → leads c → bit m c 16 = true → searching (or_flags m c RESULT) stack.
Proof.
  intros [] Hl H16. assert (∀ x i, i ≠ 19 → bit (or_flags m c RESULT) x i = bit m x i) as Hb.
  { intros x i Hi. rewrite bit_or_RESULT. destruct (Z.eqb_spec 19 i); [done|]. by rewrite andb_false_r, orb_false_r. }
  split; try done.
  - intros x i H1 H2. rewrite Hb by done. auto.
  - intros x. rewrite Hb by done. auto.
  - intros x. rewrite (Hb x 16) by done. rewrite bit_or_RESULT, orb_true_iff, andb_true_iff, bool_decide_eq_true. intros [?|[-> _]]; auto.
  - intros x. rewrite Hb by done. intros Hx. destruct (searching_done0 x Hx) as [?|Hd]; [by left|right]. intros Hlx. destruct (Hd Hlx) as [?|E]; [left; by rewrite Hb|right]. by rewrite bit_or_RESULT, E.
  - intros x Hx. rewrite Hb by done. auto.
  - intros x. rewrite Hb by done. intros Hx. destruct (searching_linked0 x Hx) as (y & H1 & H2 & H3). exists y. rewrite Hb by done. split_and!; [done|done|].
    eapply seen_mono; [exact searching_coherent0|done| |done]. intros a. by rewrite Hb.
Qed.
(** A commit is marked as seen; it must be on the stack, or be decided. *)
Lemma searching_seen m stack stack' p : searching m stack → (∀ x, x ∈ stack → x ∈ stack') → path stack' → (∀ x, x ∈ stack' → x = p ∨ x ∈ stack) →
  (p ∈ stack' → parsed (the m p) = true) → (p ∈ stack' ∨ (leads p → yes m p)) → (p ∈ roots ∨ ∃ c, c ∈ stack ∧ p ∈ parents (the m c)) →
  searching (or_flags m p PARENT1) stack'.
Proof.
  intros [] Hin Hpath Hin' Hp Hd Hl. assert (∀ x i, i ≠ 16 → bit (or_flags m p PARENT1) x i = bit m x i) as Hb.
  { intros x i Hi. rewrite bit_or_PARENT1. destruct (Z.eqb_spec 16 i); [done|]. by rewrite andb_false_r, orb_false_r. }
  assert (∀ x, yes m x → yes (or_flags m p PARENT1) x) as Hy. { intros x. unfold yes. by rewrite !Hb. }
  assert (∀ x, bit m x 16 = true → bit (or_flags m p PARENT1) x 16 = true) as Hm. { intros x E. by rewrite bit_or_PARENT1, E. }
  split; try done.
  - intros x i H1 H2. rewrite Hb by done. auto.
  - intros x. rewrite Hb by done. auto.
  - intros x. rewrite (Hb x 19) by done. intros Hx. destruct (searching_sound0 x Hx). auto.
  - intros x. rewrite bit_or_PARENT1, andb_true_r, orb_true_iff, bool_decide_eq_true. intros [Hx|<-].
    + destruct (searching_done0 x Hx) as [?|?]; [left; by apply Hin|right; auto].
    + destruct Hd as [?|?]; [by left|right; auto].
  - intros x Hx. destruct (Hin' x Hx) as [->|Hx']; [split; [by rewrite bit_or_PARENT1, bool_decide_true, orb_true_r|by apply Hp]|].
    destruct (searching_stack0 x Hx'). split; [by apply Hm|done].
  - assert (bit (or_flags m p PARENT1) p 16 = true) as Hp16 by by rewrite bit_or_PARENT1, bool_decide_true, orb_true_r.
    assert (∀ x y, rtc (seen_step m) x y → rtc (seen_step (or_flags m p PARENT1)) x y) as Hmono by (intros x y; by apply seen_mono).
    intros x. rewrite bit_or_PARENT1, andb_true_r, orb_true_iff, bool_decide_eq_true. intros [Hx|<-].
    + destruct (searching_linked0 x Hx) as (y & H1 & H2 & H3). exists y. split_and!; [done|by apply Hm|by apply Hmono].
    + destruct Hl as [Hr|(c & Hc & Hpc)]; [exists p; split_and!; [done|done|apply rtc_refl]|]. destruct (searching_stack0 c Hc) as [Hc16 _].
      destruct (searching_linked0 c Hc16) as (y & H1 & H2 & H3). exists y. split_and!; [done|by apply Hm|]. eapply rtc_r; [by apply Hmono|]. by split.
Qed.
Lemma searching_parse m stack c : searching m stack → ∃ ret m', repo_parse_commit r m c = (ret, m') ∧ searching m' stack ∧ mem_flags m' = mem_flags m ∧ extends m m' ∧
  ((ret = 0 ∧ readable r c ∧ parsed (the m' c) = true) ∨ (ret = -1 ∧ store r !! c = None)).
Proof using Hh Hto.
  intros H. destruct (parse_spec r m c Hh (searching_coherent _ _ H)) as (ret & m' & E & Hc & Ef & He & _ & Hret). exists ret, m'.
  assert (∀ x i, bit m' x i = bit m x i) as Hb. { intros x i. by apply bit_same_flags. }
  split_and!; try done; [|naive_solver]. destruct H. split; try done; try (intros; unfold yes in *; rewrite ?Hb in *; eauto; fail).
  - by eapply extends_trans.
  - intros x Hx. rewrite Hb. destruct (searching_stack0 x Hx). by rewrite He.
  - intros x. rewrite Hb. intros Hx. destruct (searching_linked0 x Hx) as (y & H1 & H2 & H3). exists y. rewrite Hb. split_and!; [done|done|].
    eapply seen_mono; [exact searching_coherent0|done| |done]. intros a. by rewrite Hb.
Qed.

Lemma parse_or m c p f : repo_parse_commit r (or_flags m p f) c = let '(ret, m') := repo_parse_commit r m c in (ret, or_flags m' p f).
Proof. unfold repo_parse_commit. destruct (c =? 0); [done|]. change (the (or_flags m p f) c) with (the m c). destruct (parsed (the m c)); [done|]. by destruct (store r !! c). Qed.
Lemma yes_leads m stack c : searching m stack → yes m c → leads c.
Proof. intros H [E|E]; [|by apply (searching_sound _ _ H)]. exists c. split; [by apply (searching_flag _ _ H)|apply rtc_refl]. Qed.
Lemma reach_parents_spec c rest ps : ∀ m, searching m (c :: rest) → (∀ p, p ∈ ps → edge r c p) →
  ∃ m' o, reach_parents r PARENT2 PARENT1 0 min_generation m c ps = (m', o) ∧ grows m m' ∧ (∀ x i, x ≠ c → i ≠ 16 → bit m' x i = bit m x i) ∧
    match o with
    | Some p => searching m' (p :: c :: rest) ∧ edge r c p ∧ bit m p 16 = false
    | None => searching m' (c :: rest) ∧ ∀ p, p ∈ ps → bit m' p 16 = true ∧ (yes m' p → bit m' c 19 = true)
    end.
Proof using Hh Hto.
  induction ps as [|p ps IH]; intros m H Hps; cbn [reach_parents].
  { exists m, None. split_and!; try done. by intros p ?%elem_of_nil. }
  assert (edge r c p) as He by (apply Hps; by left). assert (∀ q, q ∈ ps → edge r c q) as Hps' by (intros q Hq; apply Hps; by right).
  assert (p ≠ c) as Hne. { intros ->. eapply (history_acyclic _ Hh c). by apply tc_once. }
  set (m1 := if has m p (Z.lor PARENT2 RESULT) then or_flags m c RESULT else m).
  assert (searching m1 (c :: rest) ∧ grows m m1 ∧ (yes m1 p → bit m1 c 19 = true) ∧ (∀ x, bit m1 x 16 = bit m x 16) ∧ (∀ x i, x ≠ c → bit m1 x i = bit m x i)) as (H1 & Hg1 & Hy1 & Hb1 & Hs1).
  { unfold m1. destruct (has m p (Z.lor PARENT2 RESULT)) eqn:E.
    - apply has_yes in E. split_and!; [|apply grows_or| | |].
      + apply searching_result; [done|by eapply leads_edge, yes_leads|]. apply (searching_stack _ _ H). by left.
      + intros _. by rewrite bit_or_RESULT, bool_decide_true, orb_true_r.
      + intros x. by rewrite bit_or_RESULT, andb_false_r, orb_false_r.
      + intros x i Hx. by rewrite bit_or_RESULT, bool_decide_false, orb_false_r.
    - split_and!; try done. intros Hy. apply has_yes in Hy. congruence. }
  clearbody m1. rewrite has_PARENT1.
  (* what remains to be scanned, from a memory where [p] is marked as seen *)
  assert (∀ m2, searching m2 (c :: rest) → grows m1 m2 → (∀ x i, x ≠ c → i ≠ 16 → bit m2 x i = bit m1 x i) → (∀ x, bit m1 x 16 = false → bit m2 x 16 = true → x = p) → bit m2 p 16 = true →
    ∃ m' o, reach_parents r PARENT2 PARENT1 0 min_generation m2 c ps = (m', o) ∧ grows m m' ∧ (∀ x i, x ≠ c → i ≠ 16 → bit m' x i = bit m x i) ∧
    match o with
    | Some p => searching m' (p :: c :: rest) ∧ edge r c p ∧ bit m p 16 = false
    | None => searching m' (c :: rest) ∧ ∀ q, q ∈ p :: ps → bit m' q 16 = true ∧ (yes m' q → bit m' c 19 = true)
    end) as Hgo.
  { intros m2 H2 Hg2 Hs2 Hn2 Hp2. destruct (IH m2 H2 Hps') as (m' & o & E & Hg' & Hs' & Ho). exists m', o. split_and!; [done|eapply grows_trans; [done|by eapply grows_trans]|intros x i Hx Hi; by rewrite Hs', Hs2, Hs1|].
    destruct o as [q|].
    - destruct Ho as (Ho1 & Ho2 & Ho3). split_and!; [done|done|]. destruct (bit m q 16) eqn:Eq; [|done]. rewrite <-Hb1 in Eq. apply Hg2 in Eq. congruence.
    - destruct Ho as [Ho1 Ho2]. split; [done|]. intros q [->|Hq]%elem_of_cons; [|by apply Ho2]. split; [by apply Hg'|]. intros Hy. apply Hg', Hg2, Hy1.
      unfold yes in *. rewrite !Hs', !Hs2 in Hy by done. done. }
  destruct (bit m1 p 16) eqn:E16; [apply Hgo; try done; intros x; congruence|].
  rewrite parse_or. destruct (searching_parse m1 _ p H1) as (ret & m2 & E2 & H2 & Ef2 & He2 & Hret). rewrite E2. clear E2.
  assert (grows m1 (or_flags m2 p PARENT1)) as Hg2. { eapply grows_trans; [by apply extends_grows|apply grows_or]. }
  assert (∀ x i, bit (or_flags m2 p PARENT1) x i = bit m1 x i || (bool_decide (p = x) && (16 =? i))) as Hb2. { intros x i. by rewrite bit_or_PARENT1, (bit_same_flags m1 m2). }
  assert (∀ x i, x ≠ c → i ≠ 16 → bit (or_flags m2 p PARENT1) x i = bit m1 x i) as Hs2. { intros x i _ Hi. rewrite Hb2. destruct (Z.eqb_spec 16 i); [done|]. by rewrite andb_false_r, orb_false_r. }
  change (the (or_flags m2 p PARENT1) p) with (the m2 p). change (commit_graph_generation (or_flags m2 p PARENT1) p) with (commit_graph_generation m2 p).
  destruct (negb (ret =? 0) || (date (the m2 p) <? 0) || (commit_graph_generation m2 p <? min_generation)) eqn:Ecut.
  - apply Hgo; [|done|done| |by rewrite Hb2, bool_decide_true, orb_true_r].
    + eapply (searching_seen m2); [exact H2|done|apply (searching_path _ _ H2)|auto|intros Hp; by apply (searching_stack _ _ H2)| |right; exists c; split; [by left|]]; [right|]; [|apply (coherent_parents r); [apply H2|apply (searching_stack _ _ H2); by left|done]]. intros Hl. left. apply (searching_flag _ _ H2), leads_cut; [|done].
      destruct Hret as [(-> & Hrd & Hp2)|[-> Hno]]; [right|left; intros [d Hd]; congruence]. destruct (coherent_parsed r m2 p (searching_coherent _ _ H2) Hp2) as (d & Hd & Et).
      pose proof (history_date _ Hh p d Hd). rewrite Et in Ecut. cbn [date] in Ecut. rewrite (coherent_generation r m2 p (searching_coherent _ _ H2) Hp2) in Ecut. cbn [Z.eqb negb] in Ecut. lia.
    + intros x Ex. rewrite Hb2, Ex. cbn [orb]. by intros [->%bool_decide_eq_true _]%andb_true_iff.
  - exists (or_flags m2 p PARENT1), (Some p). split_and!; [done|by eapply grows_trans|intros x i Hx Hi; by rewrite Hs2, Hs1| |done|by rewrite <-Hb1].
    destruct Hret as [(-> & Hrd & Hp2)|[-> _]]; [|done].
    eapply (searching_seen m2); [exact H2|intros x Hx; by right|split; [done|apply (searching_path _ _ H2)]|intros x [->|Hx]%elem_of_cons; auto|done|left; by left|right; exists c; split; [by left|]]. apply (coherent_parents r); [apply H2|apply (searching_stack _ _ H2); by left|done].
Qed.

(** The search from the top of the stack. *)
Lemma searching_pop m c rest : searching m (c :: rest) → (leads c → yes m c) → searching m rest.
Proof.
  intros [] Hc. split; try done.
  - intros x Hx. destruct (searching_done0 x Hx) as [[->|?]%elem_of_cons|?]; [by right|by left|by right].
  - intros x Hx. apply searching_stack0. by right.
  - by eapply path_tail.
Qed.
Lemma reach_stack_wp fuel : ∀ m stack, searching m stack → (2 * unset (store r) m 16 + length stack < fuel)%nat →
  returns (reach_stack r PARENT2 PARENT1 0 min_generation fuel m stack) (λ m', searching m' [] ∧ grows m m').
Proof using Hh Hto.
  induction fuel as [|fuel IH]; intros m stack H Hf; [lia|]. cbn [reach_stack]. destruct stack as [|c rest]; [by cbn|].
  destruct (searching_stack _ _ H c (list_elem_of_here _ _)) as [H16 Hcp].
  destruct (has m c (Z.lor PARENT2 RESULT)) eqn:Ey.
  - apply has_yes in Ey. assert (searching (match rest with [] => m | d :: _ => or_flags m d RESULT end) rest) as H'.
    { pose proof (searching_pop m c rest H (λ _, Ey)) as Hpop. destruct rest as [|d rest]; [done|]. apply searching_result; [done| |apply (searching_stack _ _ Hpop); by left].
      destruct (searching_path _ _ H) as [He _]. eapply leads_edge; [done|]. by eapply yes_leads. }
    set (m1 := match rest with [] => m | d :: _ => or_flags m d RESULT end) in *.
    assert (grows m m1) as Hg1. { unfold m1. destruct rest; [done|apply grows_or]. }
    eapply wp_mono; [|apply IH; [exact H'|]]. 2: { pose proof (unset_mono (store r) m m1 16 Hg1). cbn [length] in Hf. lia. }
    intros m' [? ?]. split; [done|by eapply grows_trans].
  - assert (¬ yes m c) as Hny. { intros Hy. apply has_yes in Hy. congruence. }
    pose proof (searching_coherent _ _ H) as Hco. destruct (reach_parents_spec c rest (parents (the m c)) m H) as (m1 & o & E & Hg1 & Hs1 & Ho); [intros p; by apply coherent_edge|].
    rewrite E. destruct o as [p|].
    + destruct Ho as (H1 & He & Hp16). eapply wp_mono; [|apply IH; [exact H1|]].
      2: { assert (unset (store r) m1 16 < unset (store r) m 16)%nat; [|unfold commit_list_insert; cbn [length] in *; lia]. eapply (unset_lt _ _ _ _ p); [done|by eapply edge_ids|done|].
           apply (searching_stack _ _ H1). by left. }
      intros m' [? ?]. split; [done|by eapply grows_trans].
    + destruct Ho as [H1 Hall]. eapply wp_mono; [|apply IH].
      2: { eapply searching_pop; [exact H1|]. intros (t & Ht & Hr). apply rtc_inv in Hr as [->|(p & He & Hr)]; [left; by apply (searching_flag _ _ H1)|].
           pose proof (coherent_parents r m c p Hco Hcp He) as Hp. destruct (Hall p Hp) as [Hp16 Hyp]. right. apply Hyp.
           destruct (searching_done _ _ H1 p Hp16) as [Hin|Hd]; [|apply Hd; by exists t].
           exfalso. eapply (acyclic_strict r c p Hh); [by apply tc_once|]. eapply (path_reaches rest c p); [apply (searching_path _ _ H)|done]. }
      2: { pose proof (unset_mono (store r) m m1 16 Hg1). cbn [length] in Hf. lia. }
      intros m' [? ?]. split; [done|by eapply grows_trans].
Qed.
End search.

Section reach.
Context (r : repository) (Hh : history_ok r).
Context `{Q : !Qsort} `{!QsortLaws Q}.

Lemma reach_each_wp m0 to roots g l : (∀ t, t ∈ to → readable r t ∧ g <= generation r t) → ∀ m, searching r m0 to roots m [] →
  (∀ c, c ∈ l → c ∈ roots ∧ parsed (the m c) = true) →
  returns (reach_each r PARENT2 PARENT1 0 g m l) (λ '(m', ok), searching r m0 to roots m' [] ∧
    if ok : bool then ∀ c, c ∈ l → leads r to c else ∃ c, c ∈ l ∧ ¬ leads r to c).
Proof using Hh.
  intros Hto. induction l as [|c l IH]; intros m H Hl; cbn [reach_each]; [cbn; split; [done|by intros c ?%elem_of_nil]|].
  destruct (Hl c (list_elem_of_here _ _)) as [Hcr Hcp]. apply wp_bind. eapply wp_mono; [|apply (reach_stack_wp r Hh m0 to roots g Hto)].
  2: { apply (searching_seen r m0 to roots m []); [done|by intros x ?%elem_of_nil|done|intros x ->%list_elem_of_singleton; by left|done|left; by left|by left]. }
  2: { assert (unset (store r) (or_flags m c PARENT1) 16 <= size (ids (store r)))%nat; [|cbn [length]; lia]. apply subseteq_size. intros x. rewrite elem_of_filter. by intros [_ ?]. }
  intros m1 [H1 Hg1]. cbn beta. assert (grows m m1) as Hg. { eapply grows_trans; [apply grows_or|done]. }
  destruct (has m1 c (Z.lor PARENT2 RESULT)) eqn:Ey.
  - apply has_yes in Ey. eapply wp_mono; [|apply IH; [done|]].
    2: { intros x Hx. destruct (Hl x) as [? Hxp]; [by right|]. split; [done|]. by rewrite (proj1 Hg x Hxp). }
    intros [m' ok] [H' Hok]. split; [done|]. destruct ok.
    + intros x [->|Hx]%elem_of_cons; [exact (yes_leads r m0 to roots m1 [] _ H1 Ey)|by apply Hok].
    + destruct Hok as (x & ? & ?). exists x. split; [by right|done].
  - cbn [wp]. split; [done|]. exists c. split; [by left|]. intros Hlead. assert (bit m1 c 16 = true) as H16. { apply Hg1. by rewrite bit_or_PARENT1, bool_decide_true, orb_true_r. }
    destruct (searching_done _ _ _ _ _ _ H1 c H16) as [Hn|Hd]; [by apply elem_of_nil in Hn|]. apply Hd, has_yes in Hlead. congruence.
Qed.
Lemma reach_list_spec from g : ∀ m, coherent r m → (∀ c, bit m c 16 = false) → (∀ c, c ∈ from → readable r c ∧ g <= generation r c) →
  ∃ m', reach_list r PARENT1 g m from = (m', from, true) ∧ coherent r m' ∧ extends m m' ∧ mem_flags m' = mem_flags m ∧ ∀ c, c ∈ from → parsed (the m' c) = true.
Proof using Hh.
  induction from as [|c from IH]; intros m Hc Hb Hf; cbn [reach_list]; [exists m; split_and!; try done; by intros c ?%elem_of_nil|].
  rewrite has_PARENT1, Hb. destruct (Hf c (list_elem_of_here _ _)) as [[d Hd] Hg].
  destruct (parse_spec r m c Hh Hc) as (ret & m1 & E & Hc1 & Ef & He & _ & [(-> & _ & Hp1)|(_ & Hno & _)]); [|congruence]. rewrite E. cbn [Z.eqb negb orb].
  rewrite (coherent_generation r m1 c Hc1 Hp1). destruct (Z.ltb_spec (generation r c) g); [lia|].
  destruct (IH m1 Hc1) as (m' & E' & Hc' & He' & Ef' & Hp'); [intros x; by rewrite (bit_same_flags m m1)|intros x Hx; apply Hf; by right|]. rewrite E'.
  exists m'. split_and!; [done|done|by eapply extends_trans|by rewrite Ef'|]. intros x [->|Hx]%elem_of_cons; [by rewrite He'|by apply Hp'].
Qed.
Lemma has_seen m c : has m c (Z.lor RESULT PARENT1) = bit m c 19 || bit m c 16.
Proof.
  apply eq_true_iff_eq. unfold has. rewrite negb_true_iff, Z.eqb_neq, land_zero_bits, orb_true_iff. unfold PARENT1, RESULT. setoid_rewrite Z.lor_spec. split.
  - intros H. destruct (bit m c 19) eqn:E1; [by left|]. destruct (bit m c 16) eqn:E2; [by right|]. destruct H. intros i Hi. rewrite !testbit_shiftl_1 by lia.
    intros [E%Z.eqb_eq|E%Z.eqb_eq]%orb_true_iff; by subst i.
  - intros [E|E] H; [specialize (H 19)|specialize (H 16)]; rewrite !testbit_shiftl_1 in H by lia; unfold bit in E; rewrite H in E by (done || lia); done.
Qed.
(** The answer; the flags are as before. *)
Lemma can_all_from_reach_with_flag_wp m from to g : coherent r m → (∀ c i, i = 16 ∨ i = 19 → bit m c i = false) → (∀ c, bit m c 17 = true ↔ c ∈ to) →
  (∀ c, c ∈ from ∨ c ∈ to → readable r c ∧ g <= generation r c) →
  returns (can_all_from_reach_with_flag r PARENT2 PARENT1 0 g m from) (λ '(res, m'), restored r m m' ∧
    if res : bool then ∀ f, f ∈ from → leads r to f else ∃ f, f ∈ from ∧ ¬ leads r to f).
Proof using Hh QsortLaws0.
  intros Hc Hb Hb17 Hft. unfold can_all_from_reach_with_flag. destruct (reach_list_spec from g m Hc) as (m1 & E1 & Hc1 & He1 & Ef1 & Hp1); [intros c; apply Hb; auto|auto|]. rewrite E1.
  assert (∀ c i, bit m1 c i = bit m c i) as Hb1. { intros c i. by apply bit_same_flags. }
  set (l := sort_commits m1 from). assert (l ≡ₚ from) as Hl by apply sort_commits_perm.
  assert (searching r m1 to l m1 []) as H1.
  { split; try done; try (intros c; rewrite ?Hb1, ?Hb by auto; done). by intros c ?%elem_of_nil. }
  apply wp_bind. eapply wp_mono; [|apply (reach_each_wp m1 to l g l); [intros t Ht; apply Hft; auto|done|]].
  2: { intros c Hx. split; [done|]. apply Hp1. by rewrite <-Hl. }
  intros [m2 ok] [H2 Hok]. cbn beta iota. apply wp_bind. eapply wp_mono; [|apply clear_commit_marks_many_ok].
  - intros m3 [Em3 Hf3]. cbn [wp]. destruct (clear_all_spec from 16 ltac:(lia) m3) as [Em4 Hb4]. fold PARENT1 in Em4, Hb4. split.
    + assert (∀ c, the (clear_all m3 from PARENT1) c = the m2 c) as Et. { intros c. unfold the. by rewrite Em4, Em3. } split.
      * intros c. rewrite Et. apply (searching_coherent _ _ _ _ _ _ H2).
      * intros c Hx. rewrite Et. rewrite (searching_extends _ _ _ _ _ _ H2); [by apply He1|by rewrite He1].
      * intros c. apply flags_bits. intros i Hi. rewrite Hb4, (bit_ldiff m2 m3 c _ i (Hf3 c)), Z.lor_spec. unfold RESULT. rewrite testbit_shiftl_1 by lia. unfold PARENT1. rewrite testbit_shiftl_1 by lia.
        destruct (Z.eqb_spec 16 i) as [<-|H16]; [rewrite orb_true_r, andb_false_r, Hb by auto; done|]. rewrite !andb_false_r, andb_true_r, orb_false_r.
        destruct (Z.eqb_spec 19 i) as [<-|H19]; [by rewrite andb_false_r, Hb by auto|]. by rewrite andb_true_r, (searching_others _ _ _ _ _ _ H2), Hb1.
    + destruct ok; [intros f Hx; apply Hok; by rewrite Hl|]. destruct Hok as (f & Hx & ?). exists f. split; [by rewrite <-Hl|done].
  - rewrite has_seen. assert (bit m2 0 16 = false) as E16.
    { destruct (bit m2 0 16) eqn:E; [|done]. destruct (searching_linked _ _ _ _ _ _ H2 0 E) as (x & Hx & _ & Hr). exfalso. apply rtc_inv_r in Hr as [->|(y & _ & [Hy _])].
      - assert (parsed (the m1 0) = true) as Hz by (apply Hp1; by rewrite <-Hl). destruct (coherent_readable r m1 0 Hc1 Hz) as [d Hd]. by rewrite (history_null _ Hh) in Hd.
      - apply (coherent_edge r) in Hy; [|apply (searching_coherent _ _ _ _ _ _ H2)]. by apply (history_parents _ Hh) in Hy. }
    rewrite E16, orb_false_r. destruct (bit m2 0 19) eqn:E; [|done]. apply (searching_sound _ _ _ _ _ _ H2) in E as [_ ?]. congruence.
  - intros c. rewrite has_seen. intros Hx. assert (bit m2 c 16 = true) as H16. { apply orb_true_iff in Hx as [Hx|?]; [|done]. by apply (searching_sound _ _ _ _ _ _ H2). }
    destruct (searching_linked _ _ _ _ _ _ H2 c H16) as (x & H3 & H4 & H5). exists x. split_and!; [done|by rewrite has_seen, H4, orb_true_r|].
    eapply rtc_subrel; [|exact H5]. intros a b [Ha Hb']. split; [done|]. by rewrite has_seen, Hb', orb_true_r.
Qed.

Lemma reach_bounds_spec cs flag : flag = 0 ∨ flag = PARENT2 → ∀ m g, coherent r m → (∀ c, c ∈ cs → readable r c) →
  ∃ m' g', reach_bounds r m cs flag 0 g = (m', 0, g') ∧ coherent r m' ∧ extends m m' ∧ g' <= g ∧ (∀ c, c ∈ cs → g' <= generation r c) ∧
    ∀ c i, bit m' c i = bit m c i || (bool_decide (c ∈ cs) && (17 =? i) && negb (flag =? 0)).
Proof using Hh.
  intros Hflag. induction cs as [|c cs IH]; intros m g Hc Hr; cbn [reach_bounds].
  { exists m, g. split_and!; try done; [by intros c ?%elem_of_nil|]. intros c i. rewrite bool_decide_false by apply not_elem_of_nil. by rewrite orb_false_r. }
  destruct (Hr c (list_elem_of_here _ _)) as [d Hd].
  destruct (parse_spec r m c Hh Hc) as (ret & m1 & E & Hc1 & Ef & He & _ & [(-> & _ & Hp1)|(_ & Hno & _)]); [|congruence]. rewrite E. change (0 =? 0) with true. cbn [andb].
  destruct (coherent_parsed r m1 c Hc1 Hp1) as (d' & Hd' & Et). pose proof (history_date _ Hh c d' Hd') as Hdate. rewrite Et. cbn [date]. destruct (Z.ltb_spec (d_date d') 0); [lia|].
  rewrite (coherent_generation r m1 c Hc1 Hp1). set (m2 := if flag =? 0 then m1 else or_flags m1 c flag). set (g1 := if generation r c <? g then generation r c else g).
  assert (g1 <= g ∧ g1 <= generation r c) as [? ?] by (unfold g1; destruct (Z.ltb_spec (generation r c) g); lia).
  assert (mem_commits m2 = mem_commits m1) as Em2 by (unfold m2; by destruct (flag =? 0)). assert (∀ x, the m2 x = the m1 x) as Et2 by (intros x; unfold the; by rewrite Em2).
  destruct (IH m2 g1) as (m' & g' & E' & Hc' & He' & Hg' & Hall & Hb'); [intros x; rewrite Et2; apply Hc1|intros x Hx; apply Hr; by right|].
  exists m', g'. rewrite E'. split_and!; [done|done| |lia| |].
  - eapply extends_trans; [exact He|]. intros x Hx. rewrite He' by (by rewrite Et2). apply Et2.
  - intros x [->|Hx]%elem_of_cons; [lia|by apply Hall].
  - intros x i. rewrite Hb'. assert (bit m2 x i = bit m x i || (bool_decide (c = x) && (17 =? i) && negb (flag =? 0))) as ->.
    { rewrite <-(bit_same_flags m m1 x i Ef). unfold m2. destruct Hflag as [->| ->]; [by rewrite andb_false_r, orb_false_r|]. change (PARENT2 =? 0) with false. cbn iota. rewrite bit_or. unfold PARENT2. by rewrite testbit_shiftl_1, andb_true_r. }
    rewrite <-orb_assoc. f_equal. destruct (17 =? i), (negb (flag =? 0)); rewrite ?andb_true_r, ?andb_false_r; try done.
    apply eq_true_iff_eq. rewrite orb_true_iff, !bool_decide_eq_true, elem_of_cons. naive_solver.
Qed.
Lemma clear_none m cs mark : (∀ c, has m c mark = false) → returns (clear_commit_marks_many m cs mark) (λ m', mem_commits m' = mem_commits m ∧ ∀ c, flags m' c = flags m c).
Proof.
  intros H. eapply wp_mono; [|apply clear_commit_marks_many_ok; [done|intros c; by rewrite H]]. intros m' [E Hf]. split; [done|]. intros c. rewrite Hf. apply ldiff_not_marked.
  specialize (H c). unfold has in H. apply negb_false_iff in H. lia.
Qed.
Lemma can_all_from_reach_wp m from to : coherent r m → unmarked m → (∀ c, c ∈ from ∨ c ∈ to → readable r c) →
  returns (can_all_from_reach r m from to false) (λ '(res, m'), restored r m m' ∧
    if res : bool then ∀ f, f ∈ from → leads r to f else ∃ f, f ∈ from ∧ ¬ leads r to f).
Proof using Hh QsortLaws0.
  intros Hc Hu Hft. unfold can_all_from_reach. cbn [obind]. pose proof (λ c i, proj1 (has_all_flags_false m c) (Hu c) i) as Hu'.
  destruct (reach_bounds_spec from 0 (or_introl eq_refl) m GENERATION_NUMBER_INFINITY Hc) as (m1 & g1 & E1 & Hc1 & He1 & Hg1 & Hall1 & Hb1); [auto|]. rewrite E1.
  destruct (reach_bounds_spec to PARENT2 (or_intror eq_refl) m1 g1 Hc1) as (m2 & g2 & E2 & Hc2 & He2 & Hg2 & Hall2 & Hb2); [auto|]. rewrite E2.
  assert (∀ c i, bit m2 c i = bit m c i || (bool_decide (c ∈ to) && (17 =? i))) as Hb.
  { intros c i. rewrite Hb2, Hb1. change (negb (0 =? 0)) with false. change (negb (PARENT2 =? 0)) with true. by rewrite andb_false_r, orb_false_r, andb_true_r. }
  apply wp_bind. eapply wp_mono; [|apply (can_all_from_reach_with_flag_wp m2 from to g2 Hc2)].
  - intros [res m3] [Hr3 Hres]. cbn beta iota. assert (∀ c i, bit m3 c i = bit m2 c i) as Hb3. { intros c i. unfold bit. by rewrite (restored_flags _ _ _ Hr3). }
    apply wp_bind. eapply wp_mono; [|apply (clear_none m3 from PARENT1)]. 2: { intros c. rewrite has_PARENT1, Hb3, Hb, Hu' by lia. by rewrite andb_false_r. }
    intros m4 [Em4 Hf4]. cbn beta. apply wp_bind. eapply wp_mono; [|apply clear_commit_marks_many_ok].
    + intros m5 [Em5 Hf5]. cbn [wp]. split; [|done]. assert (∀ c, the m5 c = the m3 c) as Et. { intros c. unfold the. by rewrite Em5, Em4. } split.
      * intros c. rewrite Et. apply (restored_coherent _ _ _ Hr3).
      * intros c Hx. rewrite Et. assert (the m2 c = the m c) as E by (rewrite He2 by (by rewrite He1); by apply He1). rewrite (restored_extends _ _ _ Hr3); [done|by rewrite E].
      * intros c. apply flags_bits. intros i Hi. rewrite (bit_ldiff m4 m5 c _ i (Hf5 c)). assert (bit m4 c i = bit m2 c i) as -> by (rewrite <-Hb3; unfold bit; by rewrite Hf4).
        rewrite Hb. unfold PARENT2. rewrite testbit_shiftl_1 by lia. destruct (Z.eqb_spec 17 i) as [<-|]; [by rewrite andb_false_r, Hu' by lia|]. by rewrite andb_false_r, orb_false_r, andb_true_r.
    + assert (has m4 0 PARENT2 = bit m2 0 17) as ->. { rewrite has_PARENT2, <-Hb3. unfold bit. by rewrite Hf4. }
      rewrite Hb, Hu' by lia. rewrite andb_true_r. apply bool_decide_eq_false. intros Ht. destruct (Hft 0 (or_intror Ht)) as [d Hd]. by rewrite (history_null _ Hh) in Hd.
    + intros c. assert (has m4 c PARENT2 = bit m2 c 17) as E. { rewrite has_PARENT2, <-Hb3. unfold bit. by rewrite Hf4. } rewrite E. intros Hx. exists c. rewrite E. split_and!; [|done|apply rtc_refl].
      rewrite Hb, Hu' in Hx by lia. rewrite andb_true_r in Hx. by apply bool_decide_eq_true in Hx.
  - intros c i Hi. rewrite Hb, Hu' by lia. destruct Hi as [->| ->]; by rewrite andb_false_r.
  - intros c. rewrite Hb, Hu', andb_true_r by lia. apply bool_decide_eq_true.
  - intros c Hx. split; [by apply Hft|]. destruct Hx as [Hx|Hx]; [pose proof (Hall1 c Hx); lia|by apply Hall2].
Qed.

(** ** Descendants *)
Lemma descendant_loop_wp commit wc : ∀ m, coherent r m → unmarked m →
  returns (descendant_loop r m commit wc) (λ '(ret, m'), restored r m m' ∧
    ((ret = 1 ∧ leads r wc commit) ∨ (ret = 0 ∧ ¬ leads r wc commit) ∨ (ret = -1 ∧ ∃ c, (reaches r commit c ∨ ∃ w, w ∈ wc ∧ reaches r w c) ∧ store r !! c = None))).
Proof using Hh.
  induction wc as [|w wc IH]; intros m Hc Hu; cbn [descendant_loop].
  { cbn. split; [by apply restored_refl|]. right; left. split; [done|]. by intros (t & ?%elem_of_nil & _). }
  apply wp_bind. eapply wp_mono; [|by apply (in_merge_bases_many_wp r Hh)]. intros [ret m1] [Hr1 Hret]. cbn beta iota.
  assert (side2 r [commit] w ↔ reaches r commit w) as Hs. { unfold side2. setoid_rewrite list_elem_of_singleton. naive_solver. }
  destruct Hret as [[-> Hy]|[[-> Hn]|[-> (c & Hx & Hno)]]]; cbn [Z.eqb negb].
  - cbn [wp]. split; [done|]. left. split; [done|]. exists w. split; [by left|by apply Hs].
  - eapply wp_mono; [|apply IH; [apply Hr1|by eapply restored_unmarked]]. intros [ret m'] [Hr' Hret]. split; [by eapply restored_trans|].
    destruct Hret as [[-> (t & Ht & Hr)]|[[-> Hn']|[-> (c & Hx & Hno)]]].
    + left. split; [done|]. exists t. split; [by right|done].
    + right; left. split; [done|]. intros (t & [->|Ht]%elem_of_cons & Hr); [by apply Hn, Hs|]. apply Hn'. by exists t.
    + right; right. split; [done|]. exists c. split; [|done]. destruct Hx as [?|(x & ? & ?)]; [by left|right]. exists x. split; [by right|done].
  - change (negb (-1 =? 0)) with true. cbn [wp]. split; [done|]. right; right. split; [done|]. exists c. split; [|done].
    destruct Hx as [Hx|(t & ->%list_elem_of_singleton & Hx)]; [right; exists w; split; [by left|done]|by left].
Qed.
Lemma is_descendant_of_wp m commit wc : coherent r m → unmarked m → wc ≠ [] → readable r commit → (∀ w, w ∈ wc → readable r w) →
  returns (repo_is_descendant_of r m commit wc) (λ '(ret, m'), restored r m m' ∧
    ((ret = 1 ∧ leads r wc commit) ∨ (ret = 0 ∧ ¬ leads r wc commit) ∨ (ret = -1 ∧ ∃ c, (reaches r commit c ∨ ∃ w, w ∈ wc ∧ reaches r w c) ∧ store r !! c = None))).
Proof using Hh QsortLaws0.
  intros Hc Hu Hne Hr Hw. unfold repo_is_descendant_of. destruct wc as [|w ws] eqn:Ew; [done|]. rewrite <-Ew in *. clear Ew w ws.
  destruct (generation_numbers_enabled r); [|by apply descendant_loop_wp].
  apply wp_bind. eapply wp_mono; [|apply can_all_from_reach_wp]; try done; [|intros c [->%list_elem_of_singleton|Hx]; auto].
  intros [[|] m'] [Hr' Hres]; cbn [wp]; (split; [done|]); [left|right; left]; (split; [done|]).
  - apply Hres. by left.
  - destruct Hres as (f & ->%list_elem_of_singleton & ?). done.
Qed.
End reach.
