(* ===== verification/CommitGeneration.v ===== *)
(** * Computing generation numbers (commit-graph.c)

    [ensure_generations_valid] gives a generation number to every commit that is
    reachable from some commits and has none, parents first, with a stack.  The
    number is one more than the largest of the parents (version 1, topological
    levels), or the date where that is larger (version 2, corrected commit
    dates). *)
From stdpp Require Import prelude gmap relations.
From S2P Require Import Prelude Order PrioQueue Commit CommitReach CommitPaint CommitBases CommitSearch.
Import PrioQueue Commit CommitReach.

Module CommitGeneration.

Definition GENERATION_NUMBER_V1_MAX : Z := 0x3FFFFFFF.

Definition get_generation_from_graph_data (m : memory) (c : Z) : Z := graph_generation (the m c).
Definition set_generation_in_graph_data (m : memory) (c t : Z) : memory :=
  let x := the m c in Memory (mem_flags m) (<[c := Commit (parsed x) (date x) (parents x) t]> (mem_commits m)).

Definition compute_generation_from_max (m : memory) (c max_gen generation_version : Z) : outcome Z :=
  if generation_version =? 1 then
    let max_gen := if GENERATION_NUMBER_V1_MAX - 1 <? max_gen then GENERATION_NUMBER_V1_MAX - 1 else max_gen in
    Ret (max_gen + 1)
  else if generation_version =? 2 then
    let max_gen := if negb (date (the m c) =? 0) && (max_gen <? date (the m c)) then date (the m c) - 1 else max_gen in
    Ret (u64 (max_gen + 1))
  else Die.

Section generation.
Context (r : repository) (generation_version : Z).
Implicit Types (m : memory).

(** [for (parent = current->parents; ...)]: a parent without a number, or the
    largest number of the parents, in a 32-bit variable. *)
Fixpoint parents_max m (ps : list Z) (max_gen : Z) : memory * option Z * Z :=
  match ps with
  | [] => (m, None, max_gen)
  | p :: ps =>
      let m := (repo_parse_commit r m p).2 in
      let gen := get_generation_from_graph_data m p in
      if gen =? GENERATION_NUMBER_ZERO then (m, Some p, max_gen)
      else parents_max m ps (if max_gen <? gen then u32 gen else max_gen)
  end.
(** [while (list)]. *)
Fixpoint compute_list (fuel : nat) m (l : list Z) : outcome memory :=
  match fuel with
  | O => NoFuel
  | S fuel =>
      match l with
      | [] => Ret m
      | current :: rest =>
          let '(m, todo, max_gen) := parents_max m (parents (the m current)) 0 in
          match todo with
          | Some p => compute_list fuel m (commit_list_insert p l)
          | None =>
              let! gen := compute_generation_from_max m current max_gen generation_version in
              compute_list fuel (set_generation_in_graph_data m current gen) rest
          end
      end
  end.
(** [for (i = 0; i < info->commits->nr; i++)]. *)
Fixpoint compute_reachable_generation_numbers (fuel : nat) m (commits : list Z) : outcome memory :=
  match commits with
  | [] => Ret m
  | c :: commits =>
      let m := (repo_parse_commit r m c).2 in
      let gen := get_generation_from_graph_data m c in
      if negb (gen =? GENERATION_NUMBER_ZERO) && negb (gen =? GENERATION_NUMBER_INFINITY) then compute_reachable_generation_numbers fuel m commits
      else
        let! m := compute_list fuel m [c] in
        compute_reachable_generation_numbers fuel m commits
  end.
Definition ensure_generations_valid m (commits : list Z) : outcome memory :=
  compute_reachable_generation_numbers (2 * (length commits + size (ids (store r)))) m commits.
End generation.

(** ** The numbers grow towards the children *)
Lemma size_named commits st : (size (list_to_set commits ∪ ids st : gset Z) <= length commits + size (ids st))%nat.
Proof.
  rewrite size_union_alt. assert (ids st ∖ list_to_set commits ⊆ ids st) as Hsub%subseteq_size by set_solver.
  assert (size (list_to_set commits : gset Z) <= length commits)%nat; [|lia]. clear. induction commits as [|c cs IH]; [done|]. cbn [list_to_set length]. rewrite size_union_alt, size_singleton.
  assert (list_to_set cs ∖ {[c]} ⊆ (list_to_set cs : gset Z)) as Hsub%subseteq_size by set_solver. lia.
Qed.
Section valid.
Context (r : repository) (v : Z) (Hv : v = 1 ∨ v = 2).
Context (Hacyclic : ∀ c, ¬ tc (edge r) c c).
Context (Hnull : store r !! 0 = None).
Context (B : Z) (HB : 0 <= B).
Context (Hdata : ∀ c d, store r !! c = Some d → 0 <= d_date d < GENERATION_NUMBER_INFINITY ∧ (v = 2 → d_date d <= B)).
Implicit Types (m : memory).

(** Dates (at most [B] where they matter) and parents in memory are those of
    the store; nothing is said of generation numbers. *)
Definition facts m : Prop := ∀ c, (0 <= date (the m c) < GENERATION_NUMBER_INFINITY ∧ (v = 2 → date (the m c) <= B)) ∧
  if parsed (the m c) then ∃ d, store r !! c = Some d ∧ parents (the m c) = d_parents d else parents (the m c) = [].
(** The number a commit has once it is parsed; 0 for none. *)
Definition number m c : Z :=
  if parsed (the m c) then graph_generation (the m c)
  else match store r !! c with Some d => d_generation d | None => graph_generation (the m c) end.
(** As far as 32 bits (or the largest level) go. *)
Definition limit : Z := if v =? 1 then GENERATION_NUMBER_V1_MAX else 2 ^ 32.
Definition increasing m : Prop := ∀ c, number m c ≠ 0 → 0 < number m c < GENERATION_NUMBER_INFINITY ∧
  ∀ p, edge r c p → number m p ≠ 0 ∧ ((∀ q, edge r c q → number m q < limit) → number m p < number m c).
Definition settled m c : Prop := parsed (the m c) = true ∨ store r !! c = None.

Lemma facts_edge m c p : facts m → p ∈ parents (the m c) → edge r c p.
Proof.
  intros H Hp. destruct (H c) as [_ Hc]. destruct (parsed (the m c)); [|rewrite Hc in Hp; by apply elem_of_nil in Hp].
  destruct Hc as (d & Hd & Hps). exists d. by rewrite <-Hps.
Qed.
Lemma facts_parents m c p : facts m → settled m c → edge r c p → p ∈ parents (the m c).
Proof. intros H [Hs|Hs] (d & Hd & Hp); [|congruence]. destruct (H c) as [_ Hc]. rewrite Hs in Hc. destruct Hc as (d' & Hd' & ->). by simplify_eq. Qed.
(** What parsing does to memory. *)
Definition reading m m' : Prop := facts m' ∧ mem_flags m' = mem_flags m ∧ (∀ c, number m' c = number m c) ∧ (∀ c, settled m c → settled m' c) ∧
  (∀ c, settled m c → the m' c = the m c).
Lemma reading_refl m : facts m → reading m m.
Proof. by split. Qed.
Lemma reading_trans m m' m'' : reading m m' → reading m' m'' → reading m m''.
Proof.
  intros (H1 & H2 & H3 & H4 & H5) (H6 & H7 & H8 & H9 & H10). split_and!; [done|by rewrite H7|intros c; by rewrite H8|auto|]. intros c Hc. rewrite H10; auto.
Qed.
Lemma parse_reading m c : facts m → reading m (repo_parse_commit r m c).2 ∧ settled (repo_parse_commit r m c).2 c ∧ get_generation_from_graph_data (repo_parse_commit r m c).2 c = number m c.
Proof using Hnull Hdata.
  intros H. unfold repo_parse_commit, get_generation_from_graph_data. destruct (Z.eqb_spec c 0) as [->|Hne]; cbn [snd].
  { split_and!; [by apply reading_refl|by right|]. unfold number. rewrite Hnull. by destruct (parsed (the m 0)). }
  destruct (parsed (the m c)) eqn:Ep; cbn [snd]; [split_and!; [by apply reading_refl|by left|unfold number; by rewrite Ep]|].
  destruct (store r !! c) as [d|] eqn:Ed; cbn [snd]; [|split_and!; [by apply reading_refl|by right|unfold number; by rewrite Ep, Ed]].
  set (m' := Memory _ _). assert (the m' c = Commit true (d_date d) (d_parents d) (d_generation d)) as Ht. { unfold the, m'. cbn. by rewrite lookup_insert_eq. }
  assert (∀ x, x ≠ c → the m' x = the m x) as Hx. { intros x Hx. unfold the, m'. cbn. by rewrite lookup_insert_ne. }
  assert (∀ x, settled m x → x ≠ c) as Hsc. { intros x [?|?] ->; congruence. }
  split_and!; [split_and!|left; by rewrite Ht|].
  - intros x. destruct (decide (x = c)) as [->|Hxc]; [|rewrite Hx by done; apply H]. rewrite Ht. cbn. split; [by eapply Hdata|]. by exists d.
  - done.
  - intros x. unfold number. destruct (decide (x = c)) as [->|Hxc]; [by rewrite Ht, Ep, Ed|by rewrite Hx].
  - intros x Hs. pose proof (Hsc x Hs) as Hxc. destruct Hs as [?|?]; [left; by rewrite Hx|by right].
  - intros x Hs. apply Hx. by apply Hsc.
  - rewrite Ht. unfold number. by rewrite Ep, Ed.
Qed.
Lemma parents_max_spec ps : ∀ m M, facts m → 0 <= M < 2 ^ 32 → ∃ m' todo M', parents_max r m ps M = (m', todo, M') ∧ reading m m' ∧ 0 <= M' < 2 ^ 32 ∧
  match todo with
  | Some p => p ∈ ps ∧ number m p = 0 ∧ settled m' p
  | None => (∀ p, p ∈ ps → number m p ≠ 0) ∧ ((∀ q, q ∈ ps → number m q < 2 ^ 32) → M <= M' ∧ ∀ p, p ∈ ps → number m p <= M') ∧
      (∀ b, M <= b → (∀ q, q ∈ ps → 0 <= number m q <= b) → M' <= b)
  end.
Proof using Hnull Hdata.
  induction ps as [|p ps IH]; intros m M H HM; cbn [parents_max].
  { exists m, None, M. split_and!; [done|by apply reading_refl|lia|lia|by intros p ?%elem_of_nil| |by intros]. intros _. split; [lia|]. by intros p ?%elem_of_nil. }
  destruct (parse_reading m p H) as (Hr & Hs & Eg). set (m1 := (repo_parse_commit r m p).2) in *. rewrite Eg. unfold GENERATION_NUMBER_ZERO. destruct (Z.eqb_spec (number m p) 0) as [E0|E0].
  { exists m1, (Some p), M. split_and!; [done|done|lia|lia|by left|done|done]. }
  set (M1 := if M <? number m p then u32 (number m p) else M). assert (0 <= M1 < 2 ^ 32) as HM1. { unfold M1, u32. destruct (_ <? _); [apply Z.mod_pos_bound; lia|done]. }
  destruct Hr as (Hf1 & Hr'). destruct (IH m1 M1 Hf1 HM1) as (m' & todo & M' & E & Hr2 & HM' & Ht). assert (∀ x, number m1 x = number m x) as En by apply Hr'.
  exists m', todo, M'. split_and!; [done|by eapply reading_trans; [by split|]|lia|lia|]. destruct todo as [q|].
  - destruct Ht as (H1 & H2 & H3). split_and!; [by right|by rewrite <-En|done].
  - destruct Ht as (H1 & H2 & Hb). split_and!.
    + intros q [->|Hq]%elem_of_cons; [done|]. rewrite <-En. by apply H1.
    + intros Hlim. destruct H2 as [H2 H3]. { intros q Hq. rewrite En. apply Hlim. by right. }
      pose proof (Hlim p (list_elem_of_here _ _)) as Hp. assert (M <= M1 ∧ number m p <= M1) as [? ?].
      { unfold M1, u32. destruct (Z.ltb_spec M (number m p)); [|lia]. rewrite Z.mod_small; lia. }
      split; [lia|]. intros q [->|Hq]%elem_of_cons; [lia|]. rewrite <-En. by apply H3.
    + intros b HMb Hq. apply Hb; [|intros q Hq'; rewrite En; apply Hq; by right]. pose proof (Hq p (list_elem_of_here _ _)) as Hp. unfold M1, u32. destruct (M <? number m p); [|done].
      pose proof (Z.mod_le (number m p) (2 ^ 32)). lia.
Qed.
Lemma compute_generation_spec m c M : facts m → 0 <= M < 2 ^ 32 → ∃ g, compute_generation_from_max m c M v = Ret g ∧ 0 < g < GENERATION_NUMBER_INFINITY ∧ (∀ x, x <= M → x < limit → x < g) ∧ g <= Z.max (M + 1) B.
Proof using Hv HB.
  clear Hdata. intros H HM. destruct (H c) as [[Hd HdB] _]. unfold compute_generation_from_max, limit. assert (GENERATION_NUMBER_INFINITY = 2 ^ 63 - 1) as EI by done. rewrite EI in Hd |- *. destruct Hv as [->| ->]; cbn [Z.eqb Pos.eqb].
  - eexists. split; [reflexivity|]. unfold GENERATION_NUMBER_V1_MAX. destruct (Z.ltb_spec (0x3FFFFFFF - 1) M); split_and!; lia.
  - eexists. split; [reflexivity|]. specialize (HdB eq_refl). unfold u64. set (d := date (the m c)) in *. destruct (Z.eqb_spec d 0), (Z.ltb_spec M d); cbn [negb andb]; rewrite Z.mod_small by lia; split_and!; lia.
Qed.
Lemma set_generation_the m c g x : the (set_generation_in_graph_data m c g) x = if decide (c = x) then Commit (parsed (the m x)) (date (the m x)) (parents (the m x)) g else the m x.
Proof. unfold the, set_generation_in_graph_data. cbn. case_decide as E; [subst; by rewrite lookup_insert_eq|by rewrite lookup_insert_ne]. Qed.
(** While the numbers are computed; [l] leads from a commit without a number to
    the one it has to wait for. *)
Definition zeros (U : gset Z) m : nat := size (filter (λ c, number m c = 0) U).
Record computing (U : gset Z) (Z0 : nat) m (l : list Z) : Prop := {
  computing_facts : facts m;
  computing_increasing : increasing m;
  computing_list c : c ∈ l → number m c = 0 ∧ settled m c ∧ c ∈ U;
  computing_path : path r l;
  computing_bound c : number m c + Z.of_nat (zeros U m) <= B + Z.of_nat Z0;
  computing_zeros : (zeros U m <= Z0)%nat;
}.
Lemma path_NoDup l : path r l → NoDup l.
Proof using Hacyclic.
  induction l as [|c l IH]; intros Hp; [constructor|]. constructor; [|apply IH; by eapply path_tail]. intros Hc. destruct l as [|d l]; [by apply elem_of_nil in Hc|].
  destruct Hp as [He Hp]. eapply (Hacyclic c). eapply tc_rtc_l; [by eapply path_reaches|by apply tc_once].
Qed.
Lemma computing_length U Z0 m l : computing U Z0 m l → (length l <= zeros U m)%nat.
Proof using Hacyclic.
  intros H. pose proof (path_NoDup l (computing_path _ _ _ _ H)) as Hnd. rewrite <-(size_list_to_set (C := gset Z) l Hnd). apply subseteq_size. intros c Hc. apply elem_of_list_to_set in Hc.
  destruct (computing_list _ _ _ _ H c Hc) as (H1 & _ & H3). apply elem_of_filter. done.
Qed.
Lemma computing_reading U Z0 m m' l : computing U Z0 m l → reading m m' → computing U Z0 m' l.
Proof.
  intros [] (H1 & _ & H3 & H4 & _). assert (zeros U m' = zeros U m) as Ez. { unfold zeros. f_equal. apply set_eq. intros x. by rewrite !elem_of_filter, H3. }
  split; [done| | |done|intros c; by rewrite H3, Ez|by rewrite Ez].
  - intros c. rewrite H3. intros Hc. destruct (computing_increasing0 c Hc) as [Ha Hb]. split; [done|]. intros p Hp. destruct (Hb p Hp) as [Hc1 Hc2]. rewrite H3. split; [done|].
    intros Hq. apply Hc2. intros q Hq'. rewrite <-H3. by apply Hq.
  - intros c Hc. destruct (computing_list0 c Hc) as (Ha & Hb & Hd). rewrite H3. auto.
Qed.
Lemma number_set m c g x : settled m c → number (set_generation_in_graph_data m c g) x = if decide (c = x) then g else number m x.
Proof.
  intros Hs. unfold number. rewrite set_generation_the. case_decide as E; [subst|done]. cbn. destruct Hs as [->| ->]; [done|]. by destruct (parsed _).
Qed.
Lemma settled_set m c g x : settled (set_generation_in_graph_data m c g) x ↔ settled m x.
Proof. unfold settled. rewrite set_generation_the. by case_decide. Qed.
Lemma computing_pop U Z0 m c rest g : computing U Z0 m (c :: rest) → 0 < g < GENERATION_NUMBER_INFINITY →
  (∀ p, edge r c p → number m p ≠ 0 ∧ ((∀ q, edge r c q → number m q < limit) → number m p < g)) → g + Z.of_nat (zeros U m) <= B + Z.of_nat Z0 + 1 →
  computing U Z0 (set_generation_in_graph_data m c g) rest ∧ (zeros U (set_generation_in_graph_data m c g) < zeros U m)%nat ∧
  number (set_generation_in_graph_data m c g) c = g ∧ ∀ x, x ≠ c → number (set_generation_in_graph_data m c g) x = number m x.
Proof using Hacyclic.
  intros H Hg Hp HgB. destruct (computing_list _ _ _ _ H c (list_elem_of_here _ _)) as (Hc0 & Hcs & HcU). set (m' := set_generation_in_graph_data m c g).
  assert (number m' c = g) as Nc. { unfold m'. by rewrite number_set, decide_True. }
  assert (∀ x, x ≠ c → number m' x = number m x) as Nx. { intros x Hx. unfold m'. by rewrite number_set, decide_False. }
  pose proof (path_NoDup _ (computing_path _ _ _ _ H)) as Hnd. apply NoDup_cons in Hnd as [Hnin _].
  assert (∀ p, edge r c p → p ≠ c) as Hpc. { intros p He ->. by eapply (Hacyclic c), tc_once. }
  assert (zeros U m' < zeros U m)%nat as Hz.
  { apply subset_size. split.
    - intros x. rewrite !elem_of_filter. intros [Ex Hx]. split; [|done]. destruct (decide (x = c)) as [->|]; [done|]. by rewrite Nx in Ex.
    - intros Hs. specialize (Hs c). rewrite !elem_of_filter in Hs. destruct Hs as [Hs _]; [done|]. lia. }
  split_and!; [split|done|done|done].
  - intros x. unfold m'. rewrite set_generation_the. destruct (computing_facts _ _ _ _ H x). by case_decide.
  - intros x Hx. destruct (decide (x = c)) as [->|Hxc].
    + rewrite Nc. split; [done|]. intros p He. destruct (Hp p He) as [H1 H2]. rewrite Nx by auto. split; [done|]. intros Hq. apply H2. intros q He'. rewrite <-Nx by auto. by apply Hq.
    + rewrite Nx in Hx by done. destruct (computing_increasing _ _ _ _ H x Hx) as [H1 H2]. rewrite Nx by done. split; [done|]. intros p He.
      assert (∀ q, edge r x q → q ≠ c) as Hqc. { intros q He' ->. destruct (H2 c He') as [? _]. done. }
      destruct (H2 p He) as [H3 H4]. rewrite Nx by auto. split; [done|]. intros Hq. apply H4. intros q He'. rewrite <-Nx by auto. by apply Hq.
  - intros x Hx. destruct (computing_list _ _ _ _ H x) as (H1 & H2 & H3); [by right|]. assert (x ≠ c) by (intros ->; done). rewrite Nx by done. split_and!; [done|by apply settled_set|done].
  - eapply path_tail, (computing_path _ _ _ _ H).
  - intros x. destruct (decide (x = c)) as [->|Hxc]; [rewrite Nc; lia|]. rewrite Nx by done. pose proof (computing_bound _ _ _ _ H x). lia.
  - pose proof (computing_zeros _ _ _ _ H). lia.
Qed.
Lemma compute_list_wp U Z0 fuel : (∀ c, c ∈ ids (store r) → c ∈ U) → ∀ m l, computing U Z0 m l → (2 * zeros U m + 1 <= fuel + length l)%nat →
  returns (compute_list r v fuel m l) (λ m', computing U Z0 m' [] ∧ mem_flags m' = mem_flags m ∧ (∀ c, c ∈ l → number m' c ≠ 0) ∧
    (∀ c, number m c ≠ 0 → number m' c = number m c) ∧ ∀ c, settled m c → settled m' c).
Proof using Hacyclic Hnull Hdata Hv HB.
  intros HU. induction fuel as [|fuel IH]; intros m l H Hf.
  { pose proof (computing_length _ _ _ _ H). lia. }
  cbn [compute_list]. destruct l as [|c rest]; [cbn; split_and!; [done|done|by intros c ?%elem_of_nil|done|done]|].
  destruct (computing_list _ _ _ _ H c (list_elem_of_here _ _)) as (Hc0 & Hcs & HcU). pose proof (computing_facts _ _ _ _ H) as Hfacts.
  destruct (parents_max_spec (parents (the m c)) m 0 Hfacts ltac:(lia)) as (m1 & todo & M & E & Hr & HM & Ht). rewrite E. clear E.
  pose proof (computing_reading _ _ _ _ _ H Hr) as H1. destruct Hr as (Hf1 & Efl & En & Hst & Hthe).
  assert (zeros U m1 = zeros U m) as Ez. { unfold zeros. f_equal. apply set_eq. intros x. by rewrite !elem_of_filter, En. }
  destruct todo as [p|].
  - destruct Ht as (Hp & Hp0 & Hps). pose proof (facts_edge m c p Hfacts Hp) as He. eapply wp_mono; [|apply IH].
    2: { split; [apply H1|apply H1| |split; [done|apply (computing_path _ _ _ _ H1)]|apply H1|apply H1]. intros x [->|Hx]%elem_of_cons; [|by apply (computing_list _ _ _ _ H1)]. rewrite En. split_and!; [done|done|]. by eapply HU, edge_ids. }
    2: { unfold commit_list_insert. cbn [length] in *. lia. }
    intros m' (G1 & G2 & G3 & G4 & G5). split_and!; [done|by rewrite G2|intros x Hx; apply G3; by right| |auto]. intros x Hx. rewrite G4; [apply En|by rewrite En].
  - destruct Ht as (Hnz & Hmax & HMb). destruct (compute_generation_spec m1 c M Hf1 HM) as (g & Eg & Hg & Hlt & HgB). rewrite Eg. cbn [obind].
    pose proof (computing_zeros _ _ _ _ H) as Hzz.
    assert (M <= B + Z.of_nat Z0 - Z.of_nat (zeros U m)) as HMB.
    { apply HMb; [pose proof (computing_bound _ _ _ _ H c); lia|]. intros q Hq. pose proof (computing_bound _ _ _ _ H q). destruct (computing_increasing _ _ _ _ H q) as [? _]; [by apply Hnz|lia]. }
    destruct (computing_pop U Z0 m1 c rest g H1 Hg) as (H2 & Hz & Nc & Nx).
    { intros p He. pose proof (facts_parents m c p Hfacts Hcs He) as Hp. rewrite En. split; [by apply Hnz|]. intros Hq.
      assert (limit <= 2 ^ 32) as Hlim. { unfold limit, GENERATION_NUMBER_V1_MAX. destruct (v =? 1); lia. }
      destruct Hmax as [_ Hmax]. { intros q Hq'. rewrite <-En. pose proof (Hq q (facts_edge m c q Hfacts Hq')). lia. }
      apply Hlt; [by apply Hmax|]. rewrite <-En. by apply Hq. }
    { rewrite Ez. lia. }
    eapply wp_mono; [|apply IH; [done|]]. 2: { cbn [length] in Hf. lia. }
    intros m' (G1 & G2 & G3 & G4 & G5). split_and!; [done|by rewrite G2| | |].
    + intros x [->|Hx]%elem_of_cons; [|by apply G3]. rewrite G4 by lia. lia.
    + intros x Hx. assert (x ≠ c) by (intros ->; done). rewrite G4; [by rewrite Nx, En|]. by rewrite Nx, En.
    + intros x Hx. apply G5, settled_set. auto.
Qed.
Lemma compute_numbers_wp U Z0 fuel commits : (∀ c, c ∈ ids (store r) → c ∈ U) → (2 * size U <= fuel)%nat → ∀ m, (∀ c, c ∈ commits → c ∈ U) → computing U Z0 m [] →
  returns (compute_reachable_generation_numbers r v fuel m commits) (λ m',
    computing U Z0 m' [] ∧ mem_flags m' = mem_flags m ∧ (∀ c x, c ∈ commits → reaches r c x → number m' x ≠ 0) ∧ (∀ c, number m c ≠ 0 → number m' c = number m c) ∧
    (∀ c, settled m c → settled m' c) ∧ ∀ c, c ∈ commits → settled m' c).
Proof using Hacyclic Hnull Hdata Hv HB.
  intros HU Hfuel. induction commits as [|c commits IH]; intros m Hcs H; cbn [compute_reachable_generation_numbers].
  { cbn. split_and!; try done; [by intros c x ?%elem_of_nil|by intros c ?%elem_of_nil]. }
  destruct (parse_reading m c (computing_facts _ _ _ _ H)) as (Hr & Hs & Eg). set (m1 := (repo_parse_commit r m c).2) in *. rewrite Eg.
  pose proof (computing_reading _ _ _ _ _ H Hr) as H1. destruct Hr as (Hf1 & Efl & En & Hst & _).
  assert (∀ m2, computing U Z0 m2 [] → mem_flags m2 = mem_flags m → number m2 c ≠ 0 → (∀ x, number m x ≠ 0 → number m2 x = number m x) → (∀ x, settled m1 x → settled m2 x) →
    returns (compute_reachable_generation_numbers r v fuel m2 commits) (λ m', computing U Z0 m' [] ∧ mem_flags m' = mem_flags m ∧ (∀ x y, x ∈ c :: commits → reaches r x y → number m' y ≠ 0) ∧
      (∀ x, number m x ≠ 0 → number m' x = number m x) ∧ (∀ x, settled m x → settled m' x) ∧ ∀ x, x ∈ c :: commits → settled m' x)) as Hgo.
  { intros m2 H2 E2 Hc2 Hn2 Hs2. eapply wp_mono; [|apply (IH m2); [intros x Hx; apply Hcs; by right|exact H2]]. intros m' (G1 & G3 & G4 & G5 & G6 & G7). split_and!; [done|by rewrite G3| | |auto|].
    - intros x y [->|Hx]%elem_of_cons Hxy; [|by eapply G4]. assert (number m' c ≠ 0) as Hc' by (by rewrite G5). pose proof (computing_increasing _ _ _ _ G1) as G2. clear -G2 Hxy Hc'. revert Hc'.
      induction Hxy as [|x z y He Hzy IHz]; [done|]. intros Hx. apply IHz. destruct (G2 x Hx) as [_ Hp]. by apply Hp.
    - intros x Hx. rewrite G5; [by apply Hn2|by rewrite Hn2].
    - intros x [->|Hx]%elem_of_cons; [by apply G6, Hs2|by apply G7]. }
  destruct (negb (number m c =? GENERATION_NUMBER_ZERO) && negb (number m c =? GENERATION_NUMBER_INFINITY)) eqn:Eb.
  - apply Hgo; try done. rewrite En. unfold GENERATION_NUMBER_ZERO in Eb. lia.
  - assert (number m c = 0) as Hc0. { destruct (decide (number m c = 0)); [done|]. destruct (computing_increasing _ _ _ _ H c) as [? _]; [done|]. unfold GENERATION_NUMBER_ZERO in Eb. lia. }
    apply wp_bind. eapply wp_mono; [|apply (compute_list_wp U Z0 _ HU)].
    + intros m2 (G1 & G2 & G3 & G4 & G5). apply Hgo; [done|by rewrite G2|apply G3; by left| |done]. intros x Hx. rewrite G4; [apply En|by rewrite En].
    + split; [apply H1|apply H1| |done|apply H1|apply H1]. intros x ->%list_elem_of_singleton. split_and!; [by rewrite En|done|apply Hcs; by left].
    + cbn [length]. assert (zeros U m1 <= size U)%nat; [|lia]. apply subseteq_size. intros x. rewrite elem_of_filter. by intros [_ ?].
Qed.
(** Every commit reachable from the given ones gets a number, larger than those
    of its parents unless one of these is beyond the limit. *)
Lemma ensure_generations_valid_wp m commits : facts m → increasing m → (∀ c, number m c <= B) → returns (ensure_generations_valid r v m commits) (λ m',
  facts m' ∧ increasing m' ∧ (∀ c, number m' c <= B + Z.of_nat (length commits + size (ids (store r)))) ∧ mem_flags m' = mem_flags m ∧
  (∀ c x, c ∈ commits → reaches r c x → number m' x ≠ 0) ∧ (∀ c, number m c ≠ 0 → number m' c = number m c) ∧
  (∀ c, settled m c → settled m' c) ∧ ∀ c, c ∈ commits → settled m' c).
Proof using Hacyclic Hnull Hdata Hv HB.
  intros Hf Hi Hb. unfold ensure_generations_valid. set (U := list_to_set commits ∪ ids (store r) : gset Z).
  pose proof (size_named commits (store r)) as HU. fold U in HU.
  assert (zeros U m <= size U)%nat as Hz. { apply subseteq_size. intros x. rewrite elem_of_filter. by intros [_ ?]. }
  eapply wp_mono; [|apply (compute_numbers_wp U (zeros U m)); [unfold U; set_solver|lia|unfold U; set_solver|]].
  - intros m' (G1 & G2 & G3 & G4 & G5 & G6). split_and!; [apply G1|apply G1| |done|done|done|done|done]. intros c. pose proof (computing_bound _ _ _ _ G1 c). lia.
  - split; [done|done|by intros x ?%elem_of_nil|done| |done]. intros c. pose proof (Hb c). lia.
Qed.
End valid.
End CommitGeneration.
