(* ===== verification/CommitCounts.v ===== *)
(** * Counting commits ahead and behind (commit-reach.c)

    [ahead_behind] walks down from several commits at once and keeps, for each
    commit in its queue, a bitmap of the starting points that reach it.  Because
    commits come out of the queue after all their children, the bitmap is
    complete by then. *)
From stdpp Require Import prelude gmap relations.
From S2P Require Import Prelude Order Ewah EwahSpec EwahBits Bitmap BitmapSpec PrioQueue Commit CommitReach CommitPaint CommitBases CommitSearch CommitGeneration.
Import PrioQueue Commit CommitReach CommitGeneration Ewah EwahBits Bitmap BitmapSpec.

Module CommitCounts.

Record ahead_behind_count := Count { tip_index : Z; base_index : Z; ahead : Z; behind : Z }.

(** [bit_arrays]: the bitmap of each commit that has one. *)
Abbreviation slab := (gmap Z bitmap).
Definition get_bit_array (s : slab) (c width : Z) : bitmap := default (bitmap_word_alloc width) (s !! c).
Definition free_bit_array (s : slab) (c : Z) : slab := delete c s.

Abbreviation cmp := compare_commits_by_gen_then_commit_date.
Definition insert_no_dup (m : memory) (q : queue) (c : Z) : outcome (memory * queue) :=
  if has m c PARENT2 then Ret (m, q)
  else
    let! q := prio_queue_put (with_compare q (cmp m)) c in
    Ret (or_flags m c PARENT2, q).

(** [for (size_t i = 0; i < commits_nr; i++)]. *)
Fixpoint start_loop (m : memory) (q : queue) (s : slab) (width i : Z) (commits : list Z) : outcome (memory * queue * slab) :=
  match commits with
  | [] => Ret (m, q, s)
  | c :: commits =>
      let! b := bitmap_set (get_bit_array s c width) i in
      let! (m, q) := insert_no_dup m q c in
      start_loop m q (<[c := b]> s) width (i + 1) commits
  end.
(** [for (size_t i = 0; i < counts_nr; i++)]. *)
Fixpoint count_loop (b : bitmap) (counts : list ahead_behind_count) : outcome (list ahead_behind_count) :=
  match counts with
  | [] => Ret []
  | k :: counts =>
      let! reach_from_tip := bitmap_get b (tip_index k) in
      let! reach_from_base := bitmap_get b (base_index k) in
      let k := if xorb reach_from_tip reach_from_base then
                 if reach_from_base : bool then Count (tip_index k) (base_index k) (ahead k) (u32 (behind k + 1))
                 else Count (tip_index k) (base_index k) (u32 (ahead k + 1)) (behind k)
               else k in
      let! counts := count_loop b counts in
      Ret (k :: counts)
  end.
Section ahead_behind.
Context (r : repository) (generation_version : Z).

(** [for (p = c->parents; p; p = p->next)]. *)
Fixpoint parents_loop (m : memory) (q : queue) (s : slab) (bitmap_c : bitmap) (width commits_nr : Z) (ps : list Z) : outcome (memory * queue * slab) :=
  match ps with
  | [] => Ret (m, q, s)
  | p :: ps =>
      let m := (repo_parse_commit r m p).2 in
      let! bitmap_p := bitmap_or (get_bit_array s p width) bitmap_c in
      let m := if bitmap_popcount bitmap_p =? commits_nr then or_flags m p STALE else m in
      let! (m, q) := insert_no_dup m q p in
      parents_loop m q (<[p := bitmap_p]> s) bitmap_c width commits_nr ps
  end.
(** [while (queue_has_nonstale(&queue))]. *)
Fixpoint count_walk (fuel : nat) (m : memory) (q : queue) (s : slab) (width commits_nr : Z) (counts : list ahead_behind_count)
  : outcome (memory * list ahead_behind_count) :=
  match fuel with
  | O => NoFuel
  | S fuel =>
      if queue_has_nonstale m q then
        let! (top, q) := prio_queue_get (with_compare q (cmp m)) in
        match top with
        | None => UB
        | Some c =>
            let bitmap_c := get_bit_array s c width in
            let! counts := count_loop bitmap_c counts in
            let! (m, q, s) := parents_loop m q (<[c := bitmap_c]> s) bitmap_c width commits_nr (parents (the m c)) in
            count_walk fuel m q (free_bit_array s c) width commits_nr counts
        end
      else Ret (m, counts)
  end.
(** [repo_clear_commit_marks]: in every commit there is. *)
Definition repo_clear_commit_marks (m : memory) (fl : Z) : memory :=
  Memory ((λ f, Z.ldiff f fl) <$> mem_flags m) (mem_commits m).
Definition ahead_behind (m : memory) (commits : list Z) (counts : list ahead_behind_count) : outcome (memory * list ahead_behind_count) :=
  let width := (zlen commits + BITS_IN_EWORD - 1) / BITS_IN_EWORD in
  if (zlen commits =? 0) || (zlen counts =? 0) then Ret (m, counts)
  else
    let counts := (λ k, Count (tip_index k) (base_index k) 0 0) <$> counts in
    let! m := ensure_generations_valid r generation_version m commits in
    let! (m, q, s) := start_loop m (Prio_queue (Some (cmp m)) 0 0 []) ∅ width 0 commits in
    let! (m, counts) := count_walk (length commits + size (ids (store r)) + 2) m q s width (zlen commits) counts in
    Ret (repo_clear_commit_marks m (Z.lor PARENT2 STALE), counts).
End ahead_behind.

(** ** Bitmaps of a fixed width *)
Lemma bitmap_grow_same m n : n <= word_alloc m → bitmap_grow m n = m.
Proof.
  intros H. unfold bitmap_grow, alloc_grow. destruct (Z.ltb_spec (word_alloc m) n); [lia|]. rewrite Z.sub_diag, zrep_0, app_nil_r. by destruct m.
Qed.
(** [b] has [width] words and just the bits of [P]. *)
Definition bits_of (width : Z) (P : Z → Prop) (b : bitmap) : Prop :=
  words_ok (words b) ∧ zlen (words b) = width ∧ ∀ i, 0 <= i → wbit (words b) i = true ↔ P i.
Lemma bits_of_alloc width : 0 <= width → bits_of width (λ _, False) (bitmap_word_alloc width).
Proof.
  intros H. unfold bits_of, bitmap_word_alloc. cbn [words]. split_and!; [by apply Forall_replicate|by apply zlen_zrep|]. intros i Hi. by rewrite wbit_zrep0.
Qed.
Lemma bits_of_set width P b i : bits_of width P b → 0 <= i → i / 64 < width → returns (bitmap_set b i) (bits_of width (λ j, P j ∨ j = i)).
Proof.
  intros (H1 & H2 & H3) Hi Hw. pose proof (bitmap_set_wp b i H1 Hi) as W. apply returns_eq in W as (b' & E & H4 & H5). rewrite E. cbn [wp].
  split_and!; [done| |intros j Hj; rewrite H5, orb_true_iff, H3 by done; split; (intros [?|?]; [by left|right; lia])].
  unfold bitmap_set, EWAH_BLOCK, BITS_IN_EWORD in E. rewrite bitmap_grow_same in E by (unfold word_alloc; lia). apply obind_Ret_inv in E as (w & _ & E). apply obind_Ret_inv in E as (ws & E & [= <-]).
  apply wr_inv in E as [_ ->]. cbn [words]. by rewrite zlen_insert.
Qed.
Lemma bits_of_or width P P' a b : bits_of width P a → bits_of width P' b → returns (bitmap_or a b) (bits_of width (λ j, P j ∨ P' j)).
Proof.
  intros (H1 & H2 & H3) (H4 & H5 & H6). pose proof (bitmap_or_wp a b H1 H4) as W. apply returns_eq in W as (c & E & H7 & H8). rewrite E. cbn [wp].
  split_and!; [done| |intros j Hj; by rewrite H8, orb_true_iff, H3, H6]. unfold bitmap_or in E. rewrite bitmap_grow_same in E by (unfold word_alloc; lia).
  pose proof (or_loop_wp (words b) [] (words a) H1 H4 ltac:(lia)) as W. apply returns_eq in W as (ws & E' & self' & -> & Hl & _). change (zlen (@nil Z)) with 0 in E'. cbn [app] in E'. rewrite E' in E. cbn [obind] in E. injection E as <-. cbn [words app]. lia.
Qed.
Lemma bits_of_iff width P P' b : (∀ i, 0 <= i → P i ↔ P' i) → bits_of width P b → bits_of width P' b.
Proof. intros H (H1 & H2 & H3). split_and!; [done|done|]. intros i Hi. rewrite H3 by done. by apply H. Qed.
(** When all bits are below [n], there are [n] of them only if they are all. *)
Lemma popcount_full width P b n : bits_of width P b → (∀ i, 0 <= i → P i → i < n) → 0 <= n → 64 * width < 2 ^ 64 → bitmap_popcount b = n → ∀ i, 0 <= i < n → P i.
Proof.
  intros (H1 & H2 & H3) Hn Hn0 Hw Hp i Hi. rewrite bitmap_popcount_count in Hp by (done || lia).
  assert (positions (words b) ⊆+ (Z.of_nat <$> seq 0 (Z.to_nat n))) as Hs.
  { apply NoDup_submseteq.
    - unfold positions. apply NoDup_filter, NoDup_fmap_2; [apply _|apply NoDup_seq].
    - intros x Hx. unfold positions in Hx. apply list_elem_of_filter in Hx as [Hb Hx]. apply list_elem_of_fmap in Hx as (k & -> & Hk). apply elem_of_seq in Hk.
      assert (Z.of_nat k < n) by (apply Hn; [lia|]; apply H3; [lia|done]). apply list_elem_of_fmap. exists k. split; [done|]. apply elem_of_seq. lia. }
  apply submseteq_length_Permutation in Hs; [|rewrite length_fmap, length_seq; unfold zlen in Hp; lia].
  assert (i ∈ positions (words b)) as Hin. { rewrite Hs. apply list_elem_of_fmap. exists (Z.to_nat i). split; [lia|]. apply elem_of_seq. lia. }
  unfold positions in Hin. apply list_elem_of_filter in Hin as [Hb _]. apply H3; [lia|done].
Qed.

(** ** The walk *)
Section counting.
Context (r : repository) (v B : Z) (Hnull : store r !! 0 = None).
Context (Hdata : ∀ c d, store r !! c = Some d → 0 <= d_date d < GENERATION_NUMBER_INFINITY ∧ (v = 2 → d_date d <= B)).
Context (commits : list Z) (m0 : memory) (N : Z → Z).

(** [c] is reachable from the [i]-th starting point, or from some. *)
Definition from (i c : Z) : Prop := ∃ x, znth commits i = Some x ∧ reaches r x c.
Definition live (c : Z) : Prop := ∃ i, from i c.
Context (Hread : ∀ c, live c → readable r c) (HN : ∀ c, live c → N c ≠ 0) (Hdec : ∀ c p, live c → edge r c p → N p < N c).
Context (Hn : 0 < zlen commits < 2 ^ 57).
Abbreviation n := (zlen commits).
Abbreviation width := ((zlen commits + BITS_IN_EWORD - 1) / BITS_IN_EWORD).

Lemma from_edge i c p : from i c → edge r c p → from i p.
Proof. intros (x & Hx & Hr) He. exists x. split; [done|]. by eapply rtc_r. Qed.
Lemma live_edge c p : live c → edge r c p → live p.
Proof. intros (i & Hi) He. exists i. by eapply from_edge. Qed.
Lemma from_bound i c : from i c → 0 <= i < n.
Proof. intros (x & Hx & _). by eapply znth_Some_lt. Qed.
Lemma live_reaches c d : live c → reaches r c d → live d ∧ N d <= N c.
Proof using Hdec.
  intros Hc Hr. induction Hr as [|c y d He Hr IH]; [done|]. pose proof (live_edge _ _ Hc He) as Hy. destruct (IH Hy) as [? ?]. pose proof (Hdec c y Hc He). split; [done|lia].
Qed.

Record memory_ok (m : memory) : Prop := {
  memory_facts : facts r v B m;
  memory_numbers c : number r m c = N c;
  memory_others c i : i ≠ 17 → i ≠ 18 → bit m c i = bit m0 c i;
}.
Lemma memory_generation m c : memory_ok m → live c → parsed (the m c) = true → commit_graph_generation m c = N c.
Proof using HN.
  intros H Hc Hp. pose proof (memory_numbers _ H c) as E. unfold number in E. rewrite Hp in E. unfold commit_graph_generation. rewrite E. pose proof (HN c Hc). by destruct (Z.eqb_spec (N c) 0).
Qed.
Lemma memory_parse m p : memory_ok m → live p → let m' := (repo_parse_commit r m p).2 in
  memory_ok m' ∧ mem_flags m' = mem_flags m ∧ extends m m' ∧ parsed (the m' p) = true.
Proof using Hnull Hdata Hread.
  intros H Hp. cbn zeta. destruct (parse_reading r v Hnull B Hdata m p (memory_facts _ H)) as ((H1 & H2 & H3 & H4 & H5) & Hs & _). split_and!.
  - split; [done|intros c; rewrite H3; apply H|]. intros c i Hi Hj. rewrite (bit_same_flags m) by done. by apply (memory_others _ H).
  - done.
  - intros c Hc. apply H5. by left.
  - destruct Hs as [?|Hs]; [done|]. destruct (Hread p Hp) as [d Hd]. congruence.
Qed.
Lemma memory_or m c f : memory_ok m → (∀ i, Z.testbit f i = true → i = 17 ∨ i = 18) → memory_ok (or_flags m c f).
Proof.
  intros [] Hf. split; [done|done|]. intros x i H1 H2. rewrite bit_or, memory_others0 by done. destruct (Z.testbit f i) eqn:E; [destruct (Hf i E); done|]. by rewrite andb_false_r, orb_false_r.
Qed.

(** The starting points that reach [c] itself or through a commit of [popped]. *)
Definition src (popped : list Z) (c i : Z) : Prop := znth commits i = Some c ∨ ∃ d, d ∈ popped ∧ edge r d c ∧ from i d.
Lemma src_from popped c i : src popped c i → from i c.
Proof. intros [H|(d & _ & He & Hf)]; [exists c; split; [done|apply rtc_refl]|by eapply from_edge]. Qed.

(** While the parents of [c] are visited, those of [seen] have been.  The
    commits that have been taken out of the queue are [popped] and [c]. *)
Record visiting (m : memory) (q : queue) (s : slab) (popped seen : list Z) (c : Z) : Prop := {
  visiting_memory : memory_ok m;
  visiting_queue : queue_ok cmp m q;
  visiting_NoDup : NoDup (queued q);
  visiting_marks x : bit m x 17 = true ↔ x ∈ queued q ∨ x ∈ c :: popped;
  visiting_disjoint x : x ∈ queued q → x ∉ c :: popped;
  visiting_live x : bit m x 17 = true → live x;
  visiting_roots x : x ∈ commits → bit m x 17 = true;
  visiting_closed d p : d ∈ popped → edge r d p → bit m p 17 = true;
  visiting_order y d : d ∈ c :: popped → live y → edge r y d → y ∈ popped;
  visiting_stale x : bit m x 18 = true → ∀ i, 0 <= i < n → from i x;
  visiting_slab x : x ∈ queued q → ∃ b, s !! x = Some b ∧ bits_of width (λ i, src popped x i ∨ (x ∈ seen ∧ from i c)) b;
  visiting_free x : x ∉ queued q → x ≠ c → s !! x = None;
  visiting_seen x : x ∈ seen → edge r c x ∧ bit m x 17 = true;
  visiting_c : c ∉ popped ∧ live c;
}.
Lemma bit_or_PARENT2 m c x i : bit (or_flags m c PARENT2) x i = bit m x i || (bool_decide (c = x) && (17 =? i)).
Proof. rewrite bit_or. unfold PARENT2. by rewrite testbit_shiftl_1. Qed.
Lemma insert_no_dup_wp m q p : queue_ok cmp m q → parsed (the m p) = true → NoDup (queued q) → (p ∈ queued q → bit m p 17 = true) →
  returns (insert_no_dup m q p) (λ '(m', q'), queue_ok cmp m' q' ∧ mem_commits m' = mem_commits m ∧ (∀ x i, bit m' x i = bit m x i || (bool_decide (p = x) && (17 =? i))) ∧
    NoDup (queued q') ∧ ∀ x, x ∈ queued q' ↔ x ∈ queued q ∨ (x = p ∧ bit m p 17 = false)).
Proof.
  intros Hq Hp Hnd Hin. unfold insert_no_dup. rewrite has_PARENT2. destruct (bit m p 17) eqn:E.
  - cbn [wp]. split_and!; [done|done| |done|].
    + intros x i. destruct (Z.eqb_spec 17 i) as [<-|]; [|by rewrite andb_false_r, orb_false_r]. rewrite andb_true_r. destruct (decide (p = x)) as [<-|]; [by rewrite E|]. by rewrite bool_decide_false, orb_false_r.
    + intros x. naive_solver.
  - apply wp_bind. eapply wp_mono; [|by apply (queue_put_wp cmp m q p)]. intros q' [Hq' Eq]. cbn [wp]. split_and!.
    + by apply (queue_ok_extends cmp m).
    + done.
    + intros x i. apply bit_or_PARENT2.
    + rewrite Eq. constructor; [|done]. intros Hx. by specialize (Hin Hx).
    + intros x. rewrite Eq, elem_of_cons. naive_solver.
Qed.
Lemma visiting_step m q s popped seen c p bc : visiting m q s popped seen c → edge r c p → bits_of width (λ i, from i c) bc →
  returns (parents_loop r m q s bc width n [p]) (λ '(m', q', s'), visiting m' q' s' popped (p :: seen) c).
Proof using Hnull Hdata Hread HN Hdec Hn.
  intros H He Hbc. destruct (visiting_c _ _ _ _ _ _ H) as [Hcp Hcl]. pose proof (live_edge c p Hcl He) as Hpl. cbn [parents_loop].
  destruct (memory_parse m p (visiting_memory _ _ _ _ _ _ H) Hpl) as (Hm1 & Ef1 & He1 & Hp1). set (m1 := (repo_parse_commit r m p).2) in *.
  assert (∀ x i, bit m1 x i = bit m x i) as Hb1. { intros x i. by apply bit_same_flags. }
  assert (p ≠ c) as Hpc. { intros ->. pose proof (Hdec c c Hcl He). lia. }
  assert (p ∉ c :: popped) as Hpp. { intros [->|Hx]%elem_of_cons; [done|]. apply Hcp. apply (visiting_order _ _ _ _ _ _ H c p); [by right|done|done]. }
  assert (0 <= width) as Hw0. { unfold BITS_IN_EWORD. apply Z.div_pos; lia. }
  assert (bits_of width (λ i, src popped p i ∨ (p ∈ seen ∧ from i c)) (get_bit_array s p width)) as Hbp.
  { unfold get_bit_array. destruct (decide (p ∈ queued q)) as [Hq|Hq].
    - destruct (visiting_slab _ _ _ _ _ _ H p Hq) as (b & -> & Hb). done.
    - rewrite (visiting_free _ _ _ _ _ _ H p Hq Hpc). cbn [default]. eapply bits_of_iff; [|by apply bits_of_alloc].
      assert (bit m p 17 ≠ true) as Hn17. { intros E. apply (visiting_marks _ _ _ _ _ _ H) in E as [?|?]; done. }
      intros i Hi. split; [done|]. intros [[Hx|(d & Hd & Hde & _)]|[Hs _]]; apply Hn17; [by apply (visiting_roots _ _ _ _ _ _ H), (znth_elem_of _ i)|by eapply (visiting_closed _ _ _ _ _ _ H)|by apply (visiting_seen _ _ _ _ _ _ H)]. }
  apply wp_bind. eapply wp_mono; [|by apply (bits_of_or width _ _ _ _ Hbp Hbc)]. intros bp Hb. cbn beta.
  assert (∀ i, 0 <= i → (src popped p i ∨ p ∈ seen ∧ from i c) ∨ from i c → from i p) as Hfp.
  { intros i _ [[Hs|[_ Hs]]|Hs]; [by eapply src_from|by eapply from_edge|by eapply from_edge]. }
  set (m2 := if bitmap_popcount bp =? n then or_flags m1 p STALE else m1).
  assert (memory_ok m2 ∧ mem_commits m2 = mem_commits m1 ∧ (∀ x, bit m2 x 17 = bit m x 17) ∧ ∀ x, bit m2 x 18 = true → bit m x 18 = true ∨ (x = p ∧ bitmap_popcount bp = n)) as (Hm2 & Em2 & Hb17 & Hb18).
  { unfold m2. destruct (Z.eqb_spec (bitmap_popcount bp) n) as [Ep|Ep].
    - split_and!; [apply memory_or; [done|]|done| |].
      + intros i. unfold STALE. rewrite testbit_shiftl_1 by lia. intros E%Z.eqb_eq. by right.
      + intros x. rewrite bit_or. unfold STALE. rewrite testbit_shiftl_1 by lia. change (18 =? 17) with false. by rewrite andb_false_r, orb_false_r, Hb1.
      + intros x. rewrite bit_or. unfold STALE. rewrite testbit_shiftl_1 by lia. change (18 =? 18) with true. rewrite andb_true_r, orb_true_iff, bool_decide_eq_true, Hb1. intros [?| <-]; auto.
    - split_and!; [done|done|done|]. intros x. rewrite Hb1. auto. }
  assert (∀ x, the m2 x = the m1 x) as Et2. { intros x. unfold the. by rewrite Em2. }
  apply wp_bind. eapply wp_mono; [|apply (insert_no_dup_wp m2 q p)].
  2: { apply (queue_ok_extends cmp m); [apply (visiting_queue _ _ _ _ _ _ H)|]. intros x Hx. rewrite Et2. by apply He1. }
  2: { by rewrite Et2. }
  2: { apply (visiting_NoDup _ _ _ _ _ _ H). }
  2: { intros Hq. rewrite Hb17. apply (visiting_marks _ _ _ _ _ _ H). by left. }
  intros [m3 q3] (Hq3 & Em3 & Hb3 & Hnd3 & Hin3). cbn [wp].
  assert (∀ x, bit m3 x 17 = true ↔ bit m x 17 = true ∨ p = x) as Hb17'. { intros x. rewrite Hb3, Hb17. change (17 =? 17) with true. rewrite andb_true_r, orb_true_iff, bool_decide_eq_true. done. }
  assert (∀ x, bit m3 x 18 = bit m2 x 18) as Hb18'. { intros x. rewrite Hb3. change (17 =? 18) with false. by rewrite andb_false_r, orb_false_r. }
  assert (∀ x, x ∈ queued q3 ↔ x ∈ queued q ∨ x = p) as Hin3'.
  { intros x. rewrite Hin3, Hb17. split; [naive_solver|]. intros [?| ->]; [by left|]. destruct (bit m p 17) eqn:E; [left|by right]. by apply (visiting_marks _ _ _ _ _ _ H) in E as [?|?]. }
  split; try done.
  - split.
    + intros x. unfold the. rewrite Em3. apply (memory_facts _ Hm2 x).
    + intros x. rewrite <-(memory_numbers _ Hm2 x). unfold number, the. by rewrite Em3.
    + intros x i H17 H18. rewrite Hb3. destruct (Z.eqb_spec 17 i); [done|]. rewrite andb_false_r, orb_false_r. by apply (memory_others _ Hm2).
  - intros x. rewrite Hb17', (visiting_marks _ _ _ _ _ _ H), Hin3'. naive_solver.
  - intros x Hx. apply Hin3' in Hx as [Hx| ->]; [by apply (visiting_disjoint _ _ _ _ _ _ H)|done].
  - intros x Hx. apply Hb17' in Hx as [Hx| <-]; [by apply (visiting_live _ _ _ _ _ _ H)|done].
  - intros x Hx. apply Hb17'. left. by apply (visiting_roots _ _ _ _ _ _ H).
  - intros d x Hd Hx. apply Hb17'. left. by eapply (visiting_closed _ _ _ _ _ _ H).
  - apply (visiting_order _ _ _ _ _ _ H).
  - intros x Hx i Hi. rewrite Hb18' in Hx. destruct (Hb18 x Hx) as [Hx'|[-> Ep]]; [by apply (visiting_stale _ _ _ _ _ _ H)|]. apply Hfp; [lia|].
    eapply (popcount_full width _ bp n Hb); [|lia| |done|done].
    + intros j Hj Hf. by apply (from_bound j p), Hfp.
    + unfold BITS_IN_EWORD. pose proof (Z.mul_div_le (n + 64 - 1) 64 ltac:(lia)). lia.
  - intros x Hx. destruct (decide (x = p)) as [->|Hxp].
    + exists bp. rewrite lookup_insert_eq. split; [done|]. eapply bits_of_iff; [|exact Hb]. intros i Hi. split; [|set_solver]. intros [[?|[? ?]]|?]; [by left|right; split; [by right|done]|right; split; [by left|done]].
    + apply Hin3' in Hx as [Hx|?]; [|done]. destruct (visiting_slab _ _ _ _ _ _ H x Hx) as (b & Hs & Hbx). exists b. rewrite lookup_insert_ne by done. split; [done|].
      eapply bits_of_iff; [|exact Hbx]. intros i Hi. rewrite elem_of_cons. naive_solver.
  - intros x Hx Hxc. rewrite Hin3' in Hx. rewrite lookup_insert_ne by naive_solver. apply (visiting_free _ _ _ _ _ _ H); naive_solver.
  - intros x [->|Hx]%elem_of_cons; [split; [done|apply Hb17'; by right]|]. destruct (visiting_seen _ _ _ _ _ _ H x Hx). split; [done|apply Hb17'; by left].
Qed.
Lemma parents_loop_cons m q s bc w k p ps : parents_loop r m q s bc w k (p :: ps) =
  let! (m', q', s') := parents_loop r m q s bc w k [p] in parents_loop r m' q' s' bc w k ps.
Proof.
  cbn [parents_loop]. destruct (bitmap_or _ _); [|done..]. cbn [obind]. by destruct (insert_no_dup _ _ _) as [[]| | |].
Qed.
Lemma visiting_parents popped c bc ps : bits_of width (λ i, from i c) bc → ∀ m q s seen, visiting m q s popped seen c → (∀ p, p ∈ ps → edge r c p) →
  returns (parents_loop r m q s bc width n ps) (λ '(m', q', s'), ∃ seen', (∀ p, p ∈ ps → p ∈ seen') ∧ seen ⊆ seen' ∧ visiting m' q' s' popped seen' c).
Proof using Hnull Hdata Hread HN Hdec Hn.
  intros Hb. induction ps as [|p ps IH]; intros m q s seen H Hps.
  { cbn [parents_loop wp]. exists seen. split_and!; [by intros p ?%elem_of_nil|done|done]. }
  rewrite parents_loop_cons. apply wp_bind. eapply wp_mono; [|apply (visiting_step m q s popped seen c p bc H); [apply Hps; by left|done]].
  intros [[m1 q1] s1] H1. eapply wp_mono; [|apply (IH m1 q1 s1 _ H1); intros x Hx; apply Hps; by right]. intros [[m2 q2] s2] (seen' & Hs1 & Hs2 & H2).
  exists seen'. split_and!; [|set_solver|done]. intros x [->|Hx]%elem_of_cons; [apply Hs2; by left|by apply Hs1].
Qed.
(** Between two rounds of the loop. *)
Record walking (m : memory) (q : queue) (s : slab) (popped : list Z) : Prop := {
  walking_memory : memory_ok m;
  walking_queue : queue_ok cmp m q;
  walking_NoDup : NoDup (queued q);
  walking_popped : NoDup popped;
  walking_marks x : bit m x 17 = true ↔ x ∈ queued q ∨ x ∈ popped;
  walking_disjoint x : x ∈ queued q → x ∉ popped;
  walking_live x : bit m x 17 = true → live x;
  walking_roots x : x ∈ commits → bit m x 17 = true;
  walking_closed d p : d ∈ popped → edge r d p → bit m p 17 = true;
  walking_order y d : d ∈ popped → live y → edge r y d → y ∈ popped;
  walking_stale x : bit m x 18 = true → ∀ i, 0 <= i < n → from i x;
  walking_slab x : x ∈ queued q → ∃ b, s !! x = Some b ∧ bits_of width (src popped x) b;
  walking_free x : x ∉ queued q → s !! x = None;
}.
(** A commit that has not been visited is below one in the queue. *)
Lemma walking_frontier m q s popped i c : walking m q s popped → from i c → c ∈ popped ∨ ∃ z, z ∈ queued q ∧ reaches r z c.
Proof.
  intros H (x & Hx & Hr). assert (x ∈ commits) as Hxc by (by eapply znth_elem_of). apply (walking_roots _ _ _ _ H) in Hxc.
  assert (∀ y, bit m y 17 = true → y ∈ popped ∨ ∃ z, z ∈ queued q ∧ reaches r z y) as Hm.
  { intros y Hy. apply (walking_marks _ _ _ _ H) in Hy as [Hy|Hy]; [right; exists y; split; [done|apply rtc_refl]|by left]. }
  revert c Hr. apply (rtc_ind_r (λ c, c ∈ popped ∨ ∃ z, z ∈ queued q ∧ reaches r z c) x); [by apply Hm|].
  intros y c _ He [Hy|(z & Hz & Hzy)]; [|right; exists z; split; [done|by eapply rtc_r]]. by eapply Hm, (walking_closed _ _ _ _ H y c).
Qed.
(** The next commit comes after all its children. *)
Lemma walking_next m q s popped c y : walking m q s popped → c ∈ queued q → (∀ x, x ∈ queued q → cmp m c x <= 0) → live y → edge r y c → y ∈ popped.
Proof using HN Hdec.
  intros H Hc Hmin [i Hi] He. destruct (walking_frontier _ _ _ _ _ _ H Hi) as [?|(z & Hz & Hzy)]; [done|exfalso].
  assert (∀ x, x ∈ queued q → live x ∧ commit_graph_generation m x = N x) as Hg.
  { intros x Hx. assert (live x) as Hl. { apply (walking_live _ _ _ _ H), (walking_marks _ _ _ _ H). by left. } split; [done|].
    apply memory_generation; [apply (walking_memory _ _ _ _ H)|done|]. by apply (walking_queue _ _ _ _ H). }
  destruct (Hg c Hc) as [_ Ec]. destruct (Hg z Hz) as [Hlz Ez]. pose proof (by_gen_generation m c z (Hmin z Hz)) as Hle. rewrite Ec, Ez in Hle.
  destruct (live_reaches z y Hlz Hzy) as [_ ?]. pose proof (Hdec y c (ex_intro _ i Hi) He). lia.
Qed.
Lemma counting_pop m q q' s popped c : walking m q s popped → queue_ok cmp m q' → queued q ≡ₚ c :: queued q' → (∀ x, x ∈ queued q → cmp m c x <= 0) →
  let bc := get_bit_array s c width in bits_of width (λ i, from i c) bc ∧ visiting m q' (<[c := bc]> s) popped [] c.
Proof using HN Hdec Hn.
  intros H Hq' Eq Hmin bc. assert (c ∈ queued q) as Hc. { rewrite Eq. by left. }
  pose proof (walking_NoDup _ _ _ _ H) as Hnd. rewrite Eq, NoDup_cons in Hnd. destruct Hnd as [Hcq Hnd].
  assert (∀ x, x ∈ queued q ↔ x = c ∨ x ∈ queued q') as Hin. { intros x. by rewrite Eq, elem_of_cons. }
  assert (∀ y, live y → edge r y c → y ∈ popped) as Hnext. { intros y. by eapply walking_next. }
  destruct (walking_slab _ _ _ _ H c Hc) as (b & Hs & Hb). unfold bc, get_bit_array. rewrite Hs. cbn [default]. split.
  - eapply bits_of_iff; [|exact Hb]. intros i Hi. split; [apply src_from|]. intros (x & Hx & Hr). apply rtc_inv_r in Hr as [->|(d & Hxd & He)]; [by left|].
    assert (from i d) as Hd by (by exists x). right. exists d. split_and!; [|done|done]. apply Hnext; [by exists i|done].
  - split; try apply H; try done.
    + intros x. rewrite (walking_marks _ _ _ _ H), Hin, elem_of_cons. tauto.
    + intros x Hx. rewrite elem_of_cons. intros [->|Hp]; [done|]. eapply (walking_disjoint _ _ _ _ H x); [|done]. apply Hin. by right.
    + intros y d [->|Hd]%elem_of_cons Hy He; [by apply Hnext|by eapply (walking_order _ _ _ _ H)].
    + intros x Hx. rewrite lookup_insert_ne by (intros ->; done). destruct (walking_slab _ _ _ _ H x) as (bx & Hsx & Hbx); [apply Hin; by right|]. exists bx. split; [done|].
      eapply bits_of_iff; [|exact Hbx]. intros i _. split; [by left|]. intros [?|[?%elem_of_nil _]]; done.
    + intros x Hx Hxc. rewrite lookup_insert_ne by done. apply (walking_free _ _ _ _ H). rewrite Hin. tauto.
    + by intros x ?%elem_of_nil.
    + split; [by apply (walking_disjoint _ _ _ _ H)|]. apply (walking_live _ _ _ _ H), (walking_marks _ _ _ _ H). by left.
Qed.
Lemma visiting_end m q s popped seen c : visiting m q s popped seen c → NoDup popped → (∀ p, edge r c p → p ∈ seen) → walking m q (free_bit_array s c) (c :: popped).
Proof.
  intros H Hnd Hseen. destruct (visiting_c _ _ _ _ _ _ H) as [Hcp Hcl]. split; try apply H.
  - by constructor.
  - intros d p [->|Hd]%elem_of_cons He; [by apply (visiting_seen _ _ _ _ _ _ H), Hseen|by eapply (visiting_closed _ _ _ _ _ _ H)].
  - intros y d Hd Hy He. right. by eapply (visiting_order _ _ _ _ _ _ H).
  - intros x Hx. assert (x ≠ c) as Hxc. { intros ->. by eapply (visiting_disjoint _ _ _ _ _ _ H), list_elem_of_here. }
    destruct (visiting_slab _ _ _ _ _ _ H x Hx) as (b & Hs & Hb). exists b. unfold free_bit_array. rewrite lookup_delete_ne by done. split; [done|].
    eapply bits_of_iff; [|exact Hb]. intros i Hi. unfold src. setoid_rewrite elem_of_cons. split.
    + intros [[?|(d & ? & ? & ?)]|[Hxs ?]]; [by left|right; eauto|]. right. exists c. split_and!; [by left|by apply (visiting_seen _ _ _ _ _ _ H)|done].
    + intros [?|(d & [->|?] & ? & ?)]; [by left; left|right; split; [by apply Hseen|done]|left; right; eauto].
  - intros x Hx. unfold free_bit_array. destruct (decide (x = c)) as [->|]; [by rewrite lookup_delete_eq|]. rewrite lookup_delete_ne by done. by apply (visiting_free _ _ _ _ _ _ H).
Qed.
(** The commits of [popped] that [i] reaches and [j] does not, each once. *)
Definition tally (popped : list Z) (i j : Z) (l : list Z) : Prop := NoDup l ∧ ∀ c, c ∈ l ↔ c ∈ popped ∧ from i c ∧ ¬ from j c.
Definition counted (popped : list Z) (k0 k : ahead_behind_count) : Prop := tip_index k = tip_index k0 ∧ base_index k = base_index k0 ∧
  ∃ la lb, tally popped (tip_index k0) (base_index k0) la ∧ tally popped (base_index k0) (tip_index k0) lb ∧ ahead k = u32 (zlen la) ∧ behind k = u32 (zlen lb).
Lemma tally_skip popped i j l c : tally popped i j l → ¬ (from i c ∧ ¬ from j c) → tally (c :: popped) i j l.
Proof. intros [H1 H2] Hn'. split; [done|]. intros x. rewrite H2, elem_of_cons. split; [tauto|]. intros [[->|?] ?]; [done|tauto]. Qed.
Lemma tally_add popped i j l c : tally popped i j l → c ∉ popped → from i c → ¬ from j c → tally (c :: popped) i j (c :: l).
Proof.
  intros [H1 H2] Hc Hi Hj. split; [constructor; [|done]; rewrite H2; tauto|]. intros x. rewrite !elem_of_cons, H2. split; [|tauto]. intros [->|?]; [auto|tauto].
Qed.
Lemma u32_succ l (c : Z) : u32 (u32 (zlen l) + 1) = u32 (zlen (c :: l)).
Proof. unfold u32. rewrite zlen_cons, Zplus_mod_idemp_l. f_equal. lia. Qed.
Lemma count_loop_wp popped c bc : bits_of width (λ i, from i c) bc → c ∉ popped → ∀ k0s ks, Forall (λ k, 0 <= tip_index k ∧ 0 <= base_index k) k0s → Forall2 (counted popped) k0s ks →
  returns (count_loop bc ks) (λ ks', Forall2 (counted (c :: popped)) k0s ks').
Proof.
  intros (_ & _ & Hb) Hc k0s ks Hi Hk. induction Hk as [|k0 k k0s ks (Et & Eb & la & lb & Ha & Hbh & Ea & Ebh) Hk IH]; [by cbn|].
  apply Forall_cons in Hi as [[Hi1 Hi2] Hi]. cbn [count_loop]. rewrite !bitmap_get_eq by lia. cbn [obind]. apply wp_bind. eapply wp_mono; [|by apply IH]. intros ks' Hks. cbn [wp].
  constructor; [|done]. pose proof (Hb (tip_index k) ltac:(lia)) as Bt. pose proof (Hb (base_index k) ltac:(lia)) as Bb. rewrite Et, Eb in *.
  destruct (wbit (words bc) (tip_index k0)), (wbit (words bc) (base_index k0)); cbn [xorb].
  - split_and!; [done|done|]. exists la, lb. split_and!; try done; apply tally_skip; naive_solver.
  - split_and!; [done|done|]. exists (c :: la), lb. split_and!; [apply tally_add; naive_solver|apply tally_skip; naive_solver| |done]. cbn [ahead]. rewrite Ea. apply u32_succ.
  - split_and!; [done|done|]. exists la, (c :: lb). split_and!; [apply tally_skip; naive_solver|apply tally_add; naive_solver|done|]. cbn [behind]. rewrite Ebh. apply u32_succ.
  - split_and!; [done|done|]. exists la, lb. split_and!; try done; apply tally_skip; naive_solver.
Qed.
(** All the commits that one of [i] and [j] reaches and the other does not. *)
Definition exactly (i j : Z) (l : list Z) : Prop := NoDup l ∧ ∀ c, c ∈ l ↔ from i c ∧ ¬ from j c.
Definition count_ok (k0 k : ahead_behind_count) : Prop := tip_index k = tip_index k0 ∧ base_index k = base_index k0 ∧
  ∃ la lb, exactly (tip_index k0) (base_index k0) la ∧ exactly (base_index k0) (tip_index k0) lb ∧ ahead k = u32 (zlen la) ∧ behind k = u32 (zlen lb).
Lemma tally_exactly m q s popped i j l : walking m q s popped → (∀ x, x ∈ queued q → bit m x 18 = true) → 0 <= j < n → tally popped i j l → exactly i j l.
Proof.
  intros H Hs Hj [H1 H2]. split; [done|]. intros c. rewrite H2. split; [tauto|]. intros [Hi Hnj]. split; [|done]. destruct (walking_frontier _ _ _ _ _ _ H Hi) as [?|(z & Hz & Hr)]; [done|].
  destruct Hnj. destruct (walking_stale _ _ _ _ H z (Hs z Hz) j Hj) as (x & Hx & Hxz). exists x. split; [done|]. by eapply rtc_trans.
Qed.
Lemma live_ids c : live c → c ∈ (list_to_set commits ∪ ids (store r) : gset Z).
Proof.
  intros (i & x & Hx & Hr). apply elem_of_union. apply rtc_inv_r in Hr as [->|(d & _ & He)]; [left; apply elem_of_list_to_set; by eapply znth_elem_of|right; by eapply edge_ids].
Qed.
Lemma walking_size m q s popped : walking m q s popped → (length popped <= length commits + size (ids (store r)))%nat.
Proof.
  intros H. rewrite <-(size_list_to_set (C := gset Z) popped) by apply (walking_popped _ _ _ _ H).
  etrans; [apply (subseteq_size _ (list_to_set commits ∪ ids (store r)))|].
  - intros c Hc%elem_of_list_to_set. apply live_ids, (walking_live _ _ _ _ H), (walking_marks _ _ _ _ H). by right.
  - apply size_named.
Qed.
Lemma count_walk_wp k0s : Forall (λ k, 0 <= tip_index k < n ∧ 0 <= base_index k < n) k0s → ∀ fuel m q s popped ks, walking m q s popped →
  (length commits + size (ids (store r)) + 2 <= fuel + length popped)%nat → Forall2 (counted popped) k0s ks →
  returns (count_walk r fuel m q s width n ks) (λ '(m', ks'), memory_ok m' ∧ Forall2 count_ok k0s ks').
Proof using Hnull Hdata Hread HN Hdec Hn.
  intros Hi. induction fuel as [|fuel IH]; intros m q s popped ks H Hf Hk. { pose proof (walking_size _ _ _ _ H). lia. }
  cbn [count_walk]. destruct (queue_has_nonstale m q) eqn:En.
  2: { cbn [wp]. split; [apply (walking_memory _ _ _ _ H)|]. rewrite nonstale_spec in En. clear -Hi Hk H En Hn. induction Hk as [|k0 k k0s ks (Et & Eb & la & lb & Ha & Hbh & Ea & Ebh) Hk IH]; [done|].
       apply Forall_cons in Hi as [[Hi1 Hi2] Hi]. constructor; [|by apply IH]. split_and!; [done|done|]. exists la, lb. split_and!; [| |done|done]; by eapply tally_exactly. }
  apply wp_bind. eapply wp_mono; [|apply (queue_get_wp cmp m q (walking_queue _ _ _ _ H))]. intros [[c|] q'].
  2: { intros E. exfalso. assert (queue_has_nonstale m q = false) as E'; [|congruence]. apply nonstale_spec. rewrite E. by intros c ?%elem_of_nil. }
  intros (Hq' & Eq & Hmin). destruct (counting_pop m q q' s popped c H Hq' Eq Hmin) as [Hb Hv]. set (bc := get_bit_array s c width) in *.
  destruct (visiting_c _ _ _ _ _ _ Hv) as [Hcp Hcl]. apply wp_bind. eapply wp_mono; [|apply (count_loop_wp popped c bc Hb Hcp k0s ks); [|done]].
  2: { eapply Forall_impl; [exact Hi|]. cbn beta. lia. }
  intros ks' Hks. assert (parsed (the m c) = true) as Hp. { apply (walking_queue _ _ _ _ H). rewrite Eq. by left. } pose proof (memory_facts _ (walking_memory _ _ _ _ H)) as Hfacts.
  apply wp_bind. eapply wp_mono; [|apply (visiting_parents popped c bc (parents (the m c)) Hb m q' _ [] Hv)]. 2: { intros p Hp'. by eapply facts_edge. }
  intros [[m1 q1] s1] (seen & Hs1 & _ & Hv1). apply (IH m1 q1 _ (c :: popped)); [|cbn [length]; lia|done].
  apply (visiting_end _ _ _ _ seen); [done|apply (walking_popped _ _ _ _ H)|]. intros p He. apply Hs1. eapply facts_parents; [done|by left|done].
Qed.
(** ** Starting *)
Record starting (m : memory) (q : queue) (s : slab) (dn : list Z) : Prop := {
  starting_memory : memory_ok m;
  starting_commits : mem_commits m = mem_commits m0;
  starting_queue : queue_ok cmp m q;
  starting_NoDup : NoDup (queued q);
  starting_queued x : x ∈ queued q ↔ x ∈ dn;
  starting_marks x : bit m x 17 = true ↔ x ∈ dn;
  starting_stale x : bit m x 18 = false;
  starting_slab x : x ∈ dn → ∃ b, s !! x = Some b ∧ bits_of width (λ i, znth dn i = Some x) b;
  starting_free x : x ∉ dn → s !! x = None;
}.
Lemma znth_snoc (l : list Z) c i x : 0 <= i → znth (l ++ [c]) i = Some x ↔ znth l i = Some x ∨ (i = zlen l ∧ c = x).
Proof.
  intros Hi. unfold znth. destruct (Z.leb_spec 0 i); [|lia]. rewrite lookup_app_Some, list_lookup_singleton_Some. unfold zlen. split.
  - intros [?|(? & ? & ?)]; [by left|right; split; [lia|done]].
  - intros [?|[? ?]]; [by left|right; split_and!; [lia|lia|done]].
Qed.
Lemma starting_step m q s dn c rest : commits = dn ++ c :: rest → parsed (the m0 c) = true → starting m q s dn →
  returns (start_loop m q s width (zlen dn) [c]) (λ '(m', q', s'), starting m' q' s' (dn ++ [c])).
Proof using Hn Hdata.
  intros Ec Hp H. cbn [start_loop]. assert (0 <= zlen dn < n) as Hd. { rewrite Ec, zlen_app, zlen_cons. zlen_pos; lia. }
  assert (bits_of width (λ i, znth dn i = Some c) (get_bit_array s c width)) as Hb.
  { unfold get_bit_array. destruct (decide (c ∈ dn)) as [Hc|Hc]; [by destruct (starting_slab _ _ _ _ H c Hc) as (b & -> & Hb)|].
    rewrite (starting_free _ _ _ _ H c Hc). cbn [default]. eapply bits_of_iff; [|apply bits_of_alloc; unfold BITS_IN_EWORD; apply Z.div_pos; lia].
    intros i _. split; [done|]. intros Hx. apply Hc. by eapply znth_elem_of. }
  apply wp_bind. eapply wp_mono; [|apply (bits_of_set width _ _ (zlen dn) Hb); [lia|unfold BITS_IN_EWORD; Z.to_euclidean_division_equations; lia]]. intros b Hb'. cbn beta.
  apply wp_bind. eapply wp_mono; [|apply (insert_no_dup_wp m q c)]; [|apply H|unfold the; by rewrite (starting_commits _ _ _ _ H)|apply H|intros Hq; by apply (starting_marks _ _ _ _ H), (starting_queued _ _ _ _ H)].
  intros [m1 q1] (Hq1 & Em1 & Hb1 & Hnd1 & Hin1). cbn [wp]. assert (∀ x, x ∈ dn ++ [c] ↔ x ∈ dn ∨ x = c) as Hx. { intros x. by rewrite elem_of_app, list_elem_of_singleton. }
  split; [split| |done|done| | | | |].
  - intros x. unfold the. rewrite Em1. apply (memory_facts _ (starting_memory _ _ _ _ H) x).
  - intros x. rewrite <-(memory_numbers _ (starting_memory _ _ _ _ H) x). unfold number, the. by rewrite Em1.
  - intros x i H17 H18. rewrite Hb1. destruct (Z.eqb_spec 17 i); [done|]. rewrite andb_false_r, orb_false_r. by apply (memory_others _ (starting_memory _ _ _ _ H)).
  - rewrite Em1. apply H.
  - intros x. rewrite Hin1, Hx, (starting_queued _ _ _ _ H). split; [naive_solver|]. intros [?| ->]; [by left|]. destruct (bit m c 17) eqn:E; [left; by apply (starting_marks _ _ _ _ H)|by right].
  - intros x. rewrite Hb1, Hx. change (17 =? 17) with true. rewrite andb_true_r, orb_true_iff, bool_decide_eq_true, (starting_marks _ _ _ _ H). naive_solver.
  - intros x. rewrite Hb1, (starting_stale _ _ _ _ H). change (17 =? 18) with false. by rewrite andb_false_r.
  - intros x Hxc. destruct (decide (x = c)) as [->|Hne].
    + exists b. rewrite lookup_insert_eq. split; [done|]. eapply bits_of_iff; [|exact Hb']. intros i Hi. rewrite znth_snoc by done. naive_solver.
    + apply Hx in Hxc as [Hxc|?]; [|done]. destruct (starting_slab _ _ _ _ H x Hxc) as (bx & Hs & Hbx). exists bx. rewrite lookup_insert_ne by done. split; [done|].
      eapply bits_of_iff; [|exact Hbx]. intros i Hi. rewrite znth_snoc by done. naive_solver.
  - intros x Hxc. rewrite Hx in Hxc. rewrite lookup_insert_ne by naive_solver. apply (starting_free _ _ _ _ H). tauto.
Qed.
Lemma start_loop_cons m q s w i c cs : start_loop m q s w i (c :: cs) = let! (m', q', s') := start_loop m q s w i [c] in start_loop m' q' s' w (i + 1) cs.
Proof. cbn [start_loop]. destruct (bitmap_set _ _); [|done..]. cbn [obind]. by destruct (insert_no_dup _ _ _) as [[]| | |]. Qed.
Lemma starting_loop_wp : (∀ c, c ∈ commits → parsed (the m0 c) = true) → ∀ rest dn m q s, commits = dn ++ rest → starting m q s dn →
  returns (start_loop m q s width (zlen dn) rest) (λ '(m', q', s'), starting m' q' s' commits).
Proof using Hnull Hdata Hread HN Hdec Hn.
  intros Hp. induction rest as [|c rest IH]; intros dn m q s Ec H. { rewrite app_nil_r in Ec. cbn [start_loop wp]. by subst dn. }
  rewrite start_loop_cons. apply wp_bind. eapply wp_mono; [|apply (starting_step m q s dn c rest Ec); [apply Hp; rewrite Ec; set_solver|done]].
  intros [[m1 q1] s1] H1. replace (zlen dn + 1) with (zlen (dn ++ [c])) by (rewrite zlen_app; done). apply IH; [by rewrite <-app_assoc|done].
Qed.
Lemma starting_walking m q s : starting m q s commits → walking m q s [].
Proof.
  intros H. split; try apply H.
  - constructor.
  - intros x. rewrite (starting_marks _ _ _ _ H), (starting_queued _ _ _ _ H). split; [by left|]. intros [?|?%elem_of_nil]; done.
  - by intros x _ ?%elem_of_nil.
  - intros x Hx%(starting_marks _ _ _ _ H). apply list_elem_of_lookup in Hx as [i Hi]. exists (Z.of_nat i), x. split; [|apply rtc_refl]. unfold znth. destruct (Z.leb_spec 0 (Z.of_nat i)); [|lia]. by rewrite Nat2Z.id.
  - by intros d p ?%elem_of_nil.
  - by intros y d ?%elem_of_nil.
  - intros x Hx. by rewrite (starting_stale _ _ _ _ H) in Hx.
  - intros x Hx%(starting_queued _ _ _ _ H). destruct (starting_slab _ _ _ _ H x Hx) as (b & Hs & Hb). exists b. split; [done|]. eapply bits_of_iff; [|exact Hb].
    intros i _. split; [by left|]. intros [?|(d & ?%elem_of_nil & _)]; done.
  - intros x Hx. apply (starting_free _ _ _ _ H). by rewrite <-(starting_queued _ _ _ _ H).
Qed.
Lemma walk_all_wp k0s : (∀ c, c ∈ commits → parsed (the m0 c) = true) → memory_ok m0 → (∀ c, bit m0 c 17 = false ∧ bit m0 c 18 = false) →
  Forall (λ k, 0 <= tip_index k < n ∧ 0 <= base_index k < n) k0s →
  returns (let! (m, q, s) := start_loop m0 (Prio_queue (Some (cmp m0)) 0 0 []) ∅ width 0 commits in
    count_walk r (length commits + size (ids (store r)) + 2) m q s width n ((λ k, Count (tip_index k) (base_index k) 0 0) <$> k0s))
    (λ '(m', ks'), memory_ok m' ∧ Forall2 count_ok k0s ks').
Proof using Hnull Hdata Hread HN Hdec Hn.
  intros Hp Hm Hb Hi. apply wp_bind. eapply wp_mono; [|apply (starting_loop_wp Hp commits [] m0); [done|]].
  - intros [[m q] s] H%starting_walking. apply (count_walk_wp k0s Hi _ m q s []); [done|cbn; lia|]. clear Hi. induction k0s as [|k ks IH]; constructor; [|done].
    assert (∀ i j, tally [] i j []) as Ht. { intros i j. split; [constructor|]. intros c. split; [intros ?%elem_of_nil|intros [?%elem_of_nil _]]; done. } split_and!; [done|done|]. by exists [], [].
  - split; [done|done|apply queue_ok_empty|constructor|done| | | |].
    + intros x. destruct (Hb x) as [-> _]. split; [done|by intros ?%elem_of_nil].
    + intros x. apply Hb.
    + by intros x ?%elem_of_nil.
    + intros x _. apply lookup_empty.
Qed.
End counting.

(** ** The whole function *)
Lemma clear_marks_restored m0 m c : (∀ i, i ≠ 17 → i ≠ 18 → bit m c i = bit m0 c i) → bit m0 c 17 = false → bit m0 c 18 = false →
  flags (repo_clear_commit_marks m (Z.lor PARENT2 STALE)) c = flags m0 c.
Proof.
  intros H H17 H18. assert (flags (repo_clear_commit_marks m (Z.lor PARENT2 STALE)) c = Z.ldiff (flags m c) (Z.lor PARENT2 STALE)) as ->.
  { unfold flags, repo_clear_commit_marks. cbn. rewrite lookup_fmap. by destruct (mem_flags m !! c). }
  apply Z.bits_inj'. intros i Hi. rewrite Z.ldiff_spec. unfold PARENT2, STALE. rewrite Z.lor_spec, !testbit_shiftl_1 by lia. unfold bit in *.
  destruct (Z.eqb_spec 17 i) as [<-|]; [by rewrite H17, andb_false_r|]. destruct (Z.eqb_spec 18 i) as [<-|]; [by rewrite H18, andb_false_r|]. by rewrite andb_true_r, H.
Qed.
Lemma ahead_behind_wp r v B m commits counts : v = 1 ∨ v = 2 → (∀ c, ¬ tc (edge r) c c) → store r !! 0 = None → 0 <= B →
  (∀ c d, store r !! c = Some d → 0 <= d_date d < GENERATION_NUMBER_INFINITY ∧ (v = 2 → d_date d <= B)) →
  facts r v B m → increasing r v m → (∀ c, number r m c <= B) → B + Z.of_nat (length commits + size (ids (store r))) < limit v →
  (∀ c, bit m c 17 = false ∧ bit m c 18 = false) → (∀ c x, c ∈ commits → reaches r c x → readable r x) → 0 < zlen commits < 2 ^ 57 →
  Forall (λ k, 0 <= tip_index k < zlen commits ∧ 0 <= base_index k < zlen commits) counts →
  returns (ahead_behind r v m commits counts) (λ '(m', ks), (∀ c, flags m' c = flags m c) ∧ Forall2 (count_ok r commits) counts ks).
Proof.
  intros Hv Hac Hnull HB Hdata Hf Hi Hnb Hlim Hb Hread Hn Hk. unfold ahead_behind. destruct (Z.eqb_spec (zlen commits) 0); [lia|]. destruct (Z.eqb_spec (zlen counts) 0) as [E|_]; cbn [orb].
  { destruct counts as [|k ks]; [by cbn [wp]|]. rewrite zlen_cons in E. zlen_pos; lia. }
  apply wp_bind. eapply wp_mono; [|by apply (ensure_generations_valid_wp r v Hv Hac Hnull B HB Hdata m commits)].
  intros m1 (Hf1 & Hi1 & Hb1 & Ef & Hnz & _ & _ & Hset).
  assert (∀ c, live r commits c → ∃ x, x ∈ commits ∧ reaches r x c) as Hlive. { intros c (i & x & Hx & Hr). exists x. split; [by eapply znth_elem_of|done]. }
  pose proof (walk_all_wp r v B Hnull Hdata commits m1 (number r m1)) as W.
  assert (∀ c, live r commits c → readable r c) as A1. { intros c (x & Hx & Hr)%Hlive. by eapply Hread. }
  assert (∀ c, live r commits c → number r m1 c ≠ 0) as A2. { intros c (x & Hx & Hr)%Hlive. by eapply Hnz. }
  assert (∀ c p, live r commits c → edge r c p → number r m1 p < number r m1 c) as A3.
  { intros c p Hc He. destruct (Hi1 c (A2 c Hc)) as [_ H]. apply H; [done|]. intros q _. pose proof (Hb1 q). lia. }
  specialize (W A1 A2 A3 Hn counts).
  assert (∀ c, flags m1 c = flags m c) as Efl. { intros c. unfold flags. by rewrite Ef. }
  assert (∀ c i, bit m1 c i = bit m c i) as Eb. { intros c i. unfold bit. by rewrite Efl. }
  ospecialize (W _ _ _ _).
  { intros c Hc. destruct (Hset c Hc) as [?|Hs]; [done|]. destruct (Hread c c Hc ltac:(apply rtc_refl)) as [d Hd]. congruence. }
  { by split. }
  { intros c. by rewrite !Eb. }
  { done. }
  revert W. set (start := start_loop _ _ _ _ _ _). destruct start as [[[m2 q] s]| | |]; cbn [obind wp]; try done. intros W. apply wp_bind. eapply wp_mono; [|exact W].
  intros [m3 ks] [Hm Hks]. cbn [wp]. split; [|done]. intros c. rewrite <-Efl. apply clear_marks_restored; [intros i; apply (memory_others _ _ _ _ _ _ Hm)|rewrite Eb; apply Hb|rewrite Eb; apply Hb].
Qed.
End CommitCounts.
