(* ===== verification/CommitTheorems.v ===== *)
(** * Reachability between commits: the theorems *)
From stdpp Require Import prelude gmap sorting relations.
From S2P Require Import Prelude Order PrioQueue Commit CommitReach CommitPaint CommitBases CommitRedundant CommitSearch CommitGeneration CommitCounts.
Import PrioQueue Commit CommitReach CommitGeneration CommitCounts.

Module CommitTheorems.

(** A merge base: a common ancestor that is not an ancestor of another one. *)
Definition merge_base (r : repository) (one : Z) (twos : list Z) (c : Z) : Prop :=
  side1 r one c ∧ side2 r twos c ∧ ¬ below r one twos c.

Section merge_bases.
Context (r : repository) (Hh : history_ok r).
Context `{Q : !Qsort} `{!QsortLaws Q}.
Context (one : Z) (twos : list Z).
Abbreviation base := (merge_base r one twos).
Abbreviation common := (λ c, side1 r one c ∧ side2 r twos c).

Lemma common_em c : common c ∨ ¬ common c.
Proof using Hh.
  destruct (reaches_em r Hh one c) as [H1|H1]; [|right; tauto]. destruct (em_list (λ t, reaches r t c) twos) as [H2|H2]; [intros t; by apply reaches_em|left; by split|].
  right. by intros [_ ?].
Qed.
Lemma base_independent c : base c ↔ independent r common c.
Proof. unfold merge_base, independent, below. naive_solver. Qed.
Lemma base_above c : common c → ∃ w, base w ∧ reaches r w c.
Proof using Hh. intros H. destruct (independent_above r Hh common common_em c H) as (w & Hw & Hr). exists w. split; [by apply base_independent|done]. Qed.
(** A list between the merge bases and the common ancestors loses exactly the
    commits that are no merge bases when it is reduced. *)
Lemma reduction_bases res l : (∀ c, c ∈ res → common c) → (∀ c, base c → c ∈ res) → reduction r res l → ∀ c, c ∈ l ↔ base c.
Proof using Hh.
  intros Hsound Hcomp [_ Hl] c. rewrite Hl. split.
  - intros [Hc Hn]. destruct (Hsound c Hc) as [H1 H2]. split_and!; [done|done|]. intros (w & Hw1 & Hw2 & Ht). apply Hn. destruct (base_above w (conj Hw1 Hw2)) as (v & Hv & Hr).
    exists v. split; [by apply Hcomp|]. by eapply tc_rtc_l.
  - intros Hb. split; [by apply Hcomp|]. intros (w & Hw & Ht). destruct Hb as (_ & _ & Hb). apply Hb. exists w. by destruct (Hsound w Hw).
Qed.
Lemma single_bases res : (∀ c, c ∈ res → common c) → (∀ c, base c → c ∈ res) → zlen res <= 1 → ∀ c, c ∈ res ↔ base c.
Proof using Hh.
  intros Hsound Hcomp Hl c. split; [|apply Hcomp]. intros Hc. destruct (base_above c (Hsound c Hc)) as (w & Hw & _). pose proof (Hcomp w Hw) as Hw'.
  destruct res as [|x [|y res]]; [by apply elem_of_nil in Hc| |rewrite !zlen_cons in Hl; zlen_pos; lia]. apply list_elem_of_singleton in Hc, Hw'. congruence.
Qed.
Lemma base_in_twos : one ∈ twos → ∀ c, c ∈ [one] ↔ base c.
Proof using Hh.
  intros Ho c. rewrite list_elem_of_singleton. split.
  - intros ->. split_and!; [apply rtc_refl|exists one; split; [done|apply rtc_refl]|by apply not_below_one].
  - intros (H1 & _ & Hb). apply rtc_tc in H1 as [?|H1]; [done|]. destruct Hb. exists one. split_and!; [apply rtc_refl|exists one; split; [done|apply rtc_refl]|done].
Qed.

Lemma collect_nonstale_spec m l : ∀ result, newest_first m result → newest_first m (collect_nonstale m l result) ∧
  collect_nonstale m l result ≡ₚ filter (λ c, bit m c 18 = false) l ++ result.
Proof.
  induction l as [|c l IH]; intros result Hs; cbn [collect_nonstale]; [done|]. rewrite has_STALE. destruct (bit m c 18) eqn:E.
  - rewrite filter_cons_False by congruence. by apply IH.
  - rewrite filter_cons_True by done. destruct (IH (commit_list_insert_by_date m c result)) as [H1 H2]; [by apply insert_by_date_sorted|]. split; [done|].
    rewrite H2, insert_by_date_perm. symmetry. apply (Permutation_middle (filter _ l) result c).
Qed.
Lemma insert_all_spec m cs : ∀ result, newest_first m result → newest_first m (insert_all_by_date m cs result) ∧ insert_all_by_date m cs result ≡ₚ cs ++ result.
Proof.
  induction cs as [|c cs IH]; intros result Hs; [done|]. cbn [insert_all_by_date foldl]. fold (insert_all_by_date m cs (commit_list_insert_by_date m c result)).
  destruct (IH (commit_list_insert_by_date m c result)) as [H1 H2]; [by apply insert_by_date_sorted|]. split; [done|]. rewrite H2, insert_by_date_perm. symmetry. apply (Permutation_middle cs result c).
Qed.
Lemma parse_twos_spec ts : ∀ m, coherent r m → 0 ∉ ts → ∃ o m', parse_twos r m ts = (o, m') ∧ restored r m m' ∧
  match o with None => ∀ c, c ∈ ts → parsed (the m' c) = true | Some ret => ret = -1 ∧ ∃ c, c ∈ ts ∧ store r !! c = None end.
Proof using Hh.
  induction ts as [|t ts IH]; intros m Hc H0; cbn [parse_twos]; [exists None, m; split_and!; [done|by apply restored_refl|by intros c ?%elem_of_nil]|].
  apply not_elem_of_cons in H0 as [Ht0 H0]. destruct (Z.eqb_spec t 0); [congruence|].
  destruct (parse_spec r m t Hh Hc) as (ret & m1 & E & Hc1 & Ef & He & _ & [(-> & Hrd & Hp1)|(-> & Hno & _ & ->)]); rewrite E; cbn [Z.eqb negb].
  - destruct (IH m1 Hc1 H0) as (o & m' & E' & Hr & Ho). exists o, m'. assert (restored r m m1) as Hr1. { split; [done|done|]. intros c. unfold flags. by rewrite Ef. }
    split_and!; [done|by eapply restored_trans|]. destruct o; [destruct Ho as (-> & c & ? & ?); split; [done|]; exists c; split; [by right|done]|]. intros c [->|Hx]%elem_of_cons; [by eapply restored_parsed|by apply Ho].
  - exists (Some (-1)), m. split_and!; [done|by apply restored_refl|done|]. exists t. split; [by left|done].
Qed.

(** [merge_bases_many] when the first commit is not among the others. *)
Lemma merge_bases_many_wp m : coherent r m → unmarked m → 0 ∉ one :: twos → twos ≠ [] → one ∉ twos →
  returns (merge_bases_many r m one twos []) (λ '(ret, m', res),
    (ret = -1 ∧ incomplete r one twos) ∨
    (ret = 0 ∧ ∃ m1, restored r m m1 ∧ (∃ res', painting r one twos m1 m' res') ∧ NoDup res ∧ newest_first m' res ∧
      (∀ c, c ∈ res → common c ∧ parsed (the m' c) = true) ∧ ∀ c, base c → c ∈ res)).
Proof using Hh.
  intros Hc Hu H0 Hne Hno. unfold merge_bases_many. apply not_elem_of_cons in H0 as [Ho0 H0].
  replace (existsb (Z.eqb one) twos) with false.
  2: { symmetry. apply not_true_iff_false. rewrite existsb_exists. intros (x & Hx & E). apply Hno. apply list_elem_of_In in Hx. by replace one with x by lia. }
  destruct (Z.eqb_spec one 0); [congruence|].
  destruct (parse_spec r m one Hh Hc) as (ret & m1 & E & Hc1 & Ef & He & _ & [(-> & Hrd & Hp1)|(-> & Hnone & _ & ->)]); rewrite E; cbn [Z.eqb negb].
  2: { cbn [wp]. left. split; [done|]. exists one. split; [left; apply rtc_refl|done]. }
  destruct (parse_twos_spec twos m1 Hc1 H0) as (o & m2 & E2 & Hr2 & Hot). rewrite E2. destruct o as [ret|].
  { cbn [wp]. left. destruct Hot as (-> & c & Hct & Hs). split; [done|]. exists c. split; [right; exists c; split; [done|apply rtc_refl]|done]. }
  assert (restored r m m2) as Hr. { eapply restored_trans; [|done]. split; [done|done|]. intros c. unfold flags. by rewrite Ef. }
  apply wp_bind. eapply wp_mono; [|apply (paint_down_to_common_wp r Hh one twos m2); [apply Hr2|by eapply restored_unmarked| |done]].
  2: { intros c [->|Hct]%elem_of_cons; [by eapply (restored_parsed r m1 m2)|by apply Hot]. }
  intros [[ret m3] l] [(-> & HP & Hcomp)|(-> & -> & Hinc & HP)]; cbn beta iota; cbn [Z.eqb negb wp].
  2: { left. done. }
  right. split; [done|]. exists m2. destruct (collect_nonstale_spec m3 l [] ltac:(constructor)) as [Hs Hpm]. rewrite app_nil_r in Hpm.
  split_and!; [done|by exists l| |done| |].
  - rewrite Hpm. apply NoDup_filter, (painting_NoDup _ _ _ _ _ _ HP).
  - intros c Hcl. rewrite Hpm, list_elem_of_filter in Hcl. destruct Hcl as [_ Hcl]. destruct (painting_res_both _ _ _ _ _ _ HP c Hcl) as [E1 E2'].
    split; [split; [by apply (painting_1 _ _ _ _ _ _ HP)|by apply (painting_2 _ _ _ _ _ _ HP)]|]. apply (painting_parsed _ _ _ _ _ _ HP), has_all_flags. by left.
  - intros c Hb. rewrite Hpm, list_elem_of_filter. destruct Hb as (H1 & H2 & H3). destruct (Hcomp c (or_introl eq_refl) H3) as (_ & _ & H4). split; [|by apply (painting_res _ _ _ _ _ _ HP), H4].
    destruct (bit m3 c 18) eqn:E8; [|done]. by destruct (painting_stale _ _ _ _ _ _ HP c E8) as (_ & _ & ?).
Qed.

Lemma get_merge_bases_wp m : coherent r m → unmarked m → 0 ∉ one :: twos → twos ≠ [] →
  returns (repo_get_merge_bases_many r m one twos []) (λ '(ret, m', res),
    (ret = 0 ∧ restored r m m' ∧ NoDup res ∧ newest_first m' res ∧ ∀ c, c ∈ res ↔ base c) ∨ (ret = -1 ∧ incomplete r one twos)).
Proof using Hh QsortLaws0.
  intros Hc Hu H0 Hne. unfold repo_get_merge_bases_many, get_merge_bases_many_0. destruct (decide (one ∈ twos)) as [Hin|Hno].
  - assert (existsb (Z.eqb one) twos = true) as Ex. { apply existsb_exists. exists one. split; [by apply list_elem_of_In|lia]. }
    unfold merge_bases_many. rewrite Ex. cbn [obind]. change (0 <? 0) with false. cbv iota. cbn [wp]. left. split_and!; [done|by apply restored_refl|apply NoDup_singleton|repeat constructor|].
    by apply base_in_twos.
  - assert (existsb (Z.eqb one) twos = false) as Ex.
    { apply not_true_iff_false. rewrite existsb_exists. intros (x & Hx & E). apply Hno. apply list_elem_of_In in Hx. by replace one with x by lia. }
    apply wp_bind. eapply wp_mono; [|by apply merge_bases_many_wp]. intros [[ret m1] res] [[-> Hinc]|(-> & m2 & Hr2 & [res' HP] & Hnd & Hs & Hsound & Hcomp)]; cbn beta iota.
    { change (-1 <? 0) with true. cbv iota. cbn [wp]. by right. }
    change (0 <? 0) with false. cbv iota. rewrite Ex.
    destruct (clear_painting_ret r Hh m1 m2 one twos res' (restored_coherent _ _ _ Hr2) (restored_unmarked _ _ _ Hr2 Hu) HP) as (mx & m3 & Ex1 & Ex2 & Hr3).
    assert (restored r m m3) as Hrm by (by eapply restored_trans).
    assert (∀ c, c ∈ res → the m3 c = the m1 c) as Et.
    { intros c Hcr. destruct (Hsound c Hcr) as [_ Hp]. unfold the. by rewrite (clear_many_commits _ _ _ _ Ex2), (clear_many_commits _ _ _ _ Ex1). }
    destruct (Z.leb_spec (zlen res) 1) as [Hl|Hl].
    + rewrite Ex1. cbn [obind]. rewrite Ex2. cbn [obind wp]. left. split_and!; [done|done|done|by eapply newest_first_ext|]. apply single_bases; [intros c Hcr; by apply Hsound|done|done].
    + rewrite Ex1. cbn [obind]. rewrite Ex2. cbn [obind]. apply wp_bind. eapply wp_mono; [|apply (remove_redundant_wp r Hh)]; try done.
      * intros [m4 [l|]] [Hr4 Hl4]; cbn [wp].
        -- left. destruct (insert_all_spec m4 l []) as [Hs4 Hp4]; [constructor|]. rewrite app_nil_r in Hp4. split_and!; [done|by eapply restored_trans| |done|].
           ++ rewrite Hp4. eapply sublist_NoDup; [done|apply Hl4].
           ++ intros c. rewrite Hp4. apply (reduction_bases res); [intros x Hx; by apply Hsound|done|done].
        -- right. split; [done|]. destruct Hl4 as (a & c & Ha & Hrc & Hsc). exists c. split; [|done]. left. destruct (Hsound a Ha) as [[H1 _] _]. by eapply rtc_trans.
      * apply Hr3.
      * by eapply restored_unmarked.
      * intros ->. change (zlen (@nil Z)) with 0 in Hl. lia.
      * intros c Hcr. rewrite Et by done. by apply Hsound.
Qed.
End merge_bases.

(** ** Heads without duplicates *)
Section heads.
Context (r : repository) (Hh : history_ok r).
Context `{Q : !Qsort} `{!QsortLaws Q}.

Lemma mark_heads_spec heads : ∀ m, let m' := foldl (λ m c, if has m c STALE then m else or_flags m c STALE) m heads in
  mem_commits m' = mem_commits m ∧ ∀ x i, bit m' x i = bit m x i || (bool_decide (x ∈ heads) && (18 =? i)).
Proof.
  induction heads as [|c heads IH]; intros m; cbn [foldl].
  { split; [done|]. intros x i. rewrite bool_decide_false by apply not_elem_of_nil. by rewrite orb_false_r. }
  rewrite has_STALE. set (m1 := if bit m c 18 then m else or_flags m c STALE).
  assert (mem_commits m1 = mem_commits m ∧ ∀ x i, bit m1 x i = bit m x i || (bool_decide (c = x) && (18 =? i))) as [E1 Hb1].
  { unfold m1. destruct (bit m c 18) eqn:E; (split; [done|]); intros x i; [|apply bit_or_STALE]. destruct (Z.eqb_spec 18 i) as [<-|]; [|by rewrite andb_false_r, orb_false_r].
    rewrite andb_true_r. destruct (decide (c = x)) as [<-|]; [by rewrite E|]. by rewrite bool_decide_false, orb_false_r. }
  destruct (IH m1) as [E2 Hb2]. cbn zeta in *. split; [by rewrite E2|]. intros x i. rewrite Hb2, Hb1, <-orb_assoc. f_equal. destruct (18 =? i); [|by rewrite !andb_false_r]. rewrite !andb_true_r.
  apply eq_true_iff_eq. rewrite orb_true_iff, !bool_decide_eq_true, elem_of_cons. naive_solver.
Qed.
Lemma uniquify_spec heads : ∀ m, ∃ array m', uniquify m heads = (array, m') ∧ mem_commits m' = mem_commits m ∧ NoDup array ∧
  (∀ x, x ∈ array ↔ x ∈ heads ∧ bit m x 18 = true) ∧ ∀ x i, bit m' x i = bit m x i && negb (bool_decide (x ∈ heads) && (18 =? i)).
Proof.
  induction heads as [|c heads IH]; intros m; cbn [uniquify].
  { exists [], m. split_and!; [done|done|constructor|intros x; split; [by intros ?%elem_of_nil|by intros [?%elem_of_nil _]]|].
    intros x i. rewrite bool_decide_false by apply not_elem_of_nil. by rewrite andb_true_r. }
  rewrite has_STALE. destruct (bit m c 18) eqn:E.
  - destruct (IH (clear_flags m c STALE)) as (array & m' & E' & Em & Hnd & Hin & Hb). rewrite E'.
    assert (∀ x i, bit (clear_flags m c STALE) x i = bit m x i && negb (bool_decide (c = x) && (18 =? i))) as Hbc. { intros x i. rewrite bit_clear. unfold STALE. by rewrite testbit_shiftl_1. }
    exists (c :: array), m'. split_and!; [done|done| | |].
    + constructor; [|done]. rewrite Hin, Hbc, bool_decide_true, E by done. by intros [_ ?].
    + intros x. rewrite !elem_of_cons, Hin, Hbc, andb_true_r, andb_true_iff, negb_true_iff, bool_decide_eq_false. destruct (decide (x = c)) as [->|Hne]; [naive_solver|]. split; [naive_solver|].
      intros [[?|?] ?]; [done|]. right. split_and!; [done|done|congruence].
    + intros x i. rewrite Hb, Hbc, <-andb_assoc, <-negb_orb. do 2 f_equal. destruct (18 =? i); [|by rewrite !andb_false_r]. rewrite !andb_true_r.
      apply eq_true_iff_eq. rewrite orb_true_iff, !bool_decide_eq_true, elem_of_cons. naive_solver.
  - destruct (IH m) as (array & m' & E' & Em & Hnd & Hin & Hb). exists array, m'. split_and!; [done|done|done| |].
    + intros x. rewrite Hin, elem_of_cons. split; [naive_solver|]. intros [[->|?] ?]; [congruence|done].
    + intros x i. rewrite Hb. destruct (Z.eqb_spec 18 i) as [<-|]; [|by rewrite !andb_false_r]. rewrite !andb_true_r. destruct (decide (x = c)) as [->|Hne]; [by rewrite E|].
      do 2 f_equal. apply bool_decide_ext. rewrite elem_of_cons. naive_solver.
Qed.
Lemma reduce_heads_wp m heads : coherent r m → unmarked m → heads ≠ [] → (∀ c, c ∈ heads → parsed (the m c) = true) →
  returns (reduce_heads r m heads) (λ '(m', l), restored r m m' ∧
    ((NoDup l ∧ ∀ c, c ∈ l ↔ independent r (λ c, c ∈ heads) c) ∨ (l = [] ∧ unreadable_below r heads))).
Proof using Hh QsortLaws0.
  intros Hc Hu Hne Hp. unfold reduce_heads. destruct heads as [|h hs] eqn:Eh; [done|]. rewrite <-Eh in *. clear Eh h hs. cbn zeta.
  destruct (clear_all_spec heads 18 ltac:(lia) m) as [E1 Hb1]. fold STALE in E1, Hb1. set (m1 := clear_all m heads STALE) in *.
  destruct (mark_heads_spec heads m1) as [E2 Hb2]. cbn zeta in E2, Hb2. set (m2 := foldl _ m1 heads) in *.
  destruct (uniquify_spec heads m2) as (array & m3 & E3 & Em3 & Hnd & Hin & Hb3). rewrite E3.
  assert (∀ c, the m3 c = the m c) as Et. { intros c. unfold the. by rewrite Em3, E2, E1. }
  pose proof (λ c i, proj1 (has_all_flags_false m c) (Hu c) i) as Hu'.
  assert (restored r m m3) as Hr3.
  { split; [intros c; rewrite Et; apply Hc|intros c _; apply Et|]. intros c. apply flags_bits. intros i Hi. rewrite Hb3, Hb2, Hb1. destruct (Z.eqb_spec 18 i) as [<-|]; [|by rewrite !andb_false_r, orb_false_r, !andb_true_r].
    rewrite !andb_true_r, Hu' by lia. cbn [andb orb]. by destruct (bool_decide _). }
  assert (∀ c, c ∈ array ↔ c ∈ heads) as Ha. { intros c. rewrite Hin. split; [by intros [? _]|]. intros Hx. split; [done|]. by rewrite Hb2, (bool_decide_true _ Hx), orb_true_r. }
  apply wp_bind. eapply wp_mono; [|apply (remove_redundant_wp r Hh)]; try done.
  - intros [m4 [l|]] [Hr4 Hl]; cbn [wp]; (split; [by eapply restored_trans|]).
    + left. destruct Hl as [Hsub Hl]. split; [by eapply sublist_NoDup|]. intros c. rewrite Hl. unfold independent. setoid_rewrite Ha. done.
    + right. split; [done|]. destruct Hl as (a & c & H1 & H2 & H3). exists a, c. split_and!; [by apply Ha|done|done].
  - apply Hr3.
  - by eapply restored_unmarked.
  - intros ->. destruct heads as [|h hs]; [done|]. assert (h ∈ []) as Hn by (apply Ha; by left). by apply elem_of_nil in Hn.
  - intros c Hx. rewrite Et. by apply Hp, Ha.
Qed.
End heads.

(** ** Histories whose commits are numbered from the oldest *)
Definition history_check (r : repository) : bool :=
  bool_decide (store r !! 0 = None) &&
  forallb (λ '(c, d), (0 <=? d_date d) && (0 <? generation r c) && (generation r c <=? GENERATION_NUMBER_INFINITY) &&
    forallb (λ p, (0 <? p) && (p <? c) && (bool_decide (store r !! p = None) || (generation r p <=? generation r c))) (d_parents d)) (map_to_list (store r)).
Lemma history_check_ok r : history_check r = true → history_ok r.
Proof.
  unfold history_check. intros [H0%bool_decide_eq_true H]%andb_true_iff. rewrite forallb_forall in H.
  assert (∀ c d, store r !! c = Some d → 0 <= d_date d ∧ 0 < generation r c <= GENERATION_NUMBER_INFINITY ∧ ∀ p, p ∈ d_parents d → 0 < p < c ∧ (store r !! p = None ∨ generation r p <= generation r c)) as Hs.
  { intros c d Hd. specialize (H (c, d)). rewrite !andb_true_iff, forallb_forall in H. destruct H as [[[H1 H2] H3] H4]; [by apply list_elem_of_In, elem_of_map_to_list|].
    split_and!; [lia..|]. intros p Hp. specialize (H4 p). rewrite !andb_true_iff, orb_true_iff, bool_decide_eq_true in H4. destruct H4 as [[H5 H6] H7]; [by apply list_elem_of_In|]. split; [lia|].
    destruct H7 as [?|?]; [by left|right; lia]. }
  assert (∀ c p, edge r c p → 0 < p < c) as He. { intros c p (d & Hd & Hp). destruct (Hs c d Hd) as (_ & _ & H1). by apply H1. }
  split; try done.
  - intros c p E. apply He in E. lia.
  - intros c Ht. enough (∀ x y, tc (edge r) x y → y < x) as Hlt by (apply Hlt in Ht; lia). intros x y Hxy. induction Hxy as [x y E|x y z E _ IH]; apply He in E; lia.
  - intros c p (d & Hd & Hp) [dp Hdp]. destruct (Hs c d Hd) as (_ & _ & H1). destruct (H1 p Hp) as [_ [Hn|?]]; [congruence|done].
  - intros c. destruct (store r !! c) as [d|] eqn:Hd; [by apply (Hs c d Hd)|]. unfold generation. by rewrite Hd.
  - intros c d Hd. by apply (Hs c d Hd).
Qed.
Definition fresh : memory := Memory ∅ ∅.
Lemma fresh_coherent r : coherent r fresh.
Proof. intros c. unfold the, fresh. cbn. rewrite lookup_empty. cbn. split; [done|by left]. Qed.
Lemma fresh_unmarked : unmarked fresh.
Proof. intros c. unfold has, flags, fresh. cbn. by rewrite lookup_empty. Qed.
Lemma parse_all_ok r cs : history_ok r → ∀ m, coherent r m → coherent r (parse_all r m cs) ∧ mem_flags (parse_all r m cs) = mem_flags m.
Proof.
  intros Hh. induction cs as [|c cs IH]; intros m Hc; cbn [parse_all]; [done|]. destruct (parse_spec r m c Hh Hc) as (ret & m' & E & Hc' & Ef & _). rewrite E. cbn [snd].
  destruct (IH m' Hc') as [H1 H2]. split; [done|]. by rewrite H2.
Qed.
(** A criss-cross: 4 and 5 both merge 2 and 3; 2 claims to be newer than it is. *)
Definition criss_cross (gens : bool) : repository :=
  let g n := if gens then n else 0 in
  Repository (list_to_map [(1, Commit_data 1 [] (g 1)); (2, Commit_data 9 [1] (g 2)); (3, Commit_data 3 [1] (g 2)); (4, Commit_data 4 [2; 3] (g 3));
    (5, Commit_data 5 [3; 2] (g 3)); (6, Commit_data 6 [4] (g 4))]) gens gens.
Example criss_cross_ok : history_check (criss_cross true) = true ∧ history_check (criss_cross false) = true.
Proof. by vm_compute. Qed.
#[local] Instance sample_qsort : Qsort := insertion_qsort.
#[local] Instance sample_qsort_laws : QsortLaws sample_qsort := insertion_qsort_laws.
Example criss_cross_bases :
  (let! (ret, _, res) := repo_get_merge_bases (criss_cross true) fresh 6 5 [] in Ret (ret, res)) = Ret (0, [2; 3]) ∧
  (let! (ret, _, res) := repo_get_merge_bases (criss_cross false) fresh 6 5 [] in Ret (ret, res)) = Ret (0, [2; 3]) ∧
  (let! (ret, m) := repo_in_merge_bases (criss_cross true) fresh 3 6 in let! (ret', m) := repo_in_merge_bases (criss_cross true) m 5 6 in Ret (ret, ret')) = Ret (1, 0).
Proof. by vm_compute. Qed.

(** ** The properties *)

(** C7. Merge bases: for any history (acyclic, with generation numbers that do
    not grow towards the parents, and any dates), [repo_get_merge_bases_many]
    returns exactly the best common ancestors: the commits reachable from [one]
    and from one of [twos] that no other such commit reaches, each once, newest
    first.  Every flag is as it was.  It fails only if a commit of the history in
    question cannot be read. *)
Theorem merge_bases_exact (r : repository) (Q : Qsort) (m : memory) (one : Z) (twos : list Z) :
  history_ok r → QsortLaws Q → coherent r m → unmarked m → 0 ∉ one :: twos → twos ≠ [] →
  ∃ ret m' res, repo_get_merge_bases_many r m one twos [] = Ret (ret, m', res) ∧
    ((ret = 0 ∧ restored r m m' ∧ NoDup res ∧ newest_first m' res ∧ ∀ c, c ∈ res ↔ merge_base r one twos c) ∨ (ret = -1 ∧ incomplete r one twos)).
Proof.
  intros Hh HQ Hc Hu H0 Hne. pose proof (get_merge_bases_wp r Hh one twos m Hc Hu H0 Hne) as W. apply returns_eq in W as ([[ret m'] res] & E & W). by exists ret, m', res.
Qed.
Lemma merge_bases_exact_witness : ∃ ret m' res, repo_get_merge_bases_many (criss_cross true) fresh 6 [5] [] = Ret (ret, m', res) ∧
  ((ret = 0 ∧ restored (criss_cross true) fresh m' ∧ NoDup res ∧ newest_first m' res ∧ ∀ c, c ∈ res ↔ merge_base (criss_cross true) 6 [5] c) ∨ (ret = -1 ∧ incomplete (criss_cross true) 6 [5])).
Proof. apply (merge_bases_exact (criss_cross true) sample_qsort fresh 6 [5]); [by apply history_check_ok|apply _|apply fresh_coherent|apply fresh_unmarked|set_solver|done]. Defined.

(** C8. Ancestry: [repo_in_merge_bases] returns 1 if [commit] is reachable from
    [reference] and 0 if not, whichever algorithm it uses (the depth-first search
    when generation numbers are there, painting when they are not), and leaves
    every flag as it was.  It returns -1 only if a commit cannot be read. *)
Theorem in_merge_bases_exact (r : repository) (Q : Qsort) (m : memory) (commit reference : Z) :
  history_ok r → QsortLaws Q → coherent r m → unmarked m → readable r commit → readable r reference →
  ∃ ret m', repo_in_merge_bases r m commit reference = Ret (ret, m') ∧ restored r m m' ∧
    ((ret = 1 ∧ reaches r reference commit) ∨ (ret = 0 ∧ ¬ reaches r reference commit) ∨
     (ret = -1 ∧ ∃ c, (reaches r reference c ∨ reaches r commit c) ∧ store r !! c = None)).
Proof.
  intros Hh HQ Hc Hu H1 H2. pose proof (is_descendant_of_wp r Hh m reference [commit] Hc Hu) as W.
  apply returns_eq in W as ([ret m'] & E & Hr & Hret); [|done|done|by intros w ->%list_elem_of_singleton]. exists ret, m'. split_and!; [done|done|].
  assert (leads r [commit] reference ↔ reaches r reference commit) as Hl. { unfold leads. setoid_rewrite list_elem_of_singleton. naive_solver. }
  rewrite !Hl in Hret. setoid_rewrite list_elem_of_singleton in Hret. destruct Hret as [?|[?|[-> (c & Hx & Hs)]]]; [by left|by right; left|right; right].
  split; [done|]. exists c. split; [|done]. destruct Hx as [?|(w & -> & ?)]; auto.
Qed.
Lemma in_merge_bases_exact_witness : ∃ ret m', repo_in_merge_bases (criss_cross true) fresh 3 6 = Ret (ret, m') ∧ restored (criss_cross true) fresh m' ∧
    ((ret = 1 ∧ reaches (criss_cross true) 6 3) ∨ (ret = 0 ∧ ¬ reaches (criss_cross true) 6 3) ∨
     (ret = -1 ∧ ∃ c, (reaches (criss_cross true) 6 c ∨ reaches (criss_cross true) 3 c) ∧ store (criss_cross true) !! c = None)).
Proof.
  apply (in_merge_bases_exact (criss_cross true) sample_qsort fresh 3 6); [by apply history_check_ok|apply _|apply fresh_coherent|apply fresh_unmarked|by eexists|by eexists].
Defined.

(** C9. Independent heads: [reduce_heads] returns, without duplicates, exactly
    the given commits that are not reachable from another of them, with both of
    its algorithms; every flag is as it was.  An empty list instead means that a
    commit cannot be read. *)
Theorem reduce_heads_independent (r : repository) (Q : Qsort) (m : memory) (heads : list Z) :
  history_ok r → QsortLaws Q → coherent r m → unmarked m → heads ≠ [] → (∀ c, c ∈ heads → parsed (the m c) = true) →
  ∃ m' l, reduce_heads r m heads = Ret (m', l) ∧ restored r m m' ∧
    ((NoDup l ∧ ∀ c, c ∈ l ↔ c ∈ heads ∧ ¬ ∃ w, w ∈ heads ∧ tc (edge r) w c) ∨ (l = [] ∧ unreadable_below r heads)).
Proof.
  intros Hh HQ Hc Hu Hne Hp. pose proof (reduce_heads_wp r Hh m heads Hc Hu Hne Hp) as W. apply returns_eq in W as ([m' l] & E & W). by exists m', l.
Qed.
Definition loaded : memory := parse_all (criss_cross false) fresh [1; 2; 3; 4; 5; 6].
Lemma reduce_heads_independent_witness : ∃ m' l, reduce_heads (criss_cross false) loaded [1; 5; 2; 6; 5] = Ret (m', l) ∧ restored (criss_cross false) loaded m' ∧
    ((NoDup l ∧ ∀ c, c ∈ l ↔ c ∈ [1; 5; 2; 6; 5] ∧ ¬ ∃ w, w ∈ [1; 5; 2; 6; 5] ∧ tc (edge (criss_cross false)) w c) ∨ (l = [] ∧ unreadable_below (criss_cross false) [1; 5; 2; 6; 5])).
Proof.
  apply (reduce_heads_independent (criss_cross false) sample_qsort loaded [1; 5; 2; 6; 5]); [by apply history_check_ok|apply _| | |done|].
  - apply parse_all_ok; [by apply history_check_ok|apply fresh_coherent].
  - eapply unmarked_flags; [|apply fresh_unmarked]. apply (parse_all_ok (criss_cross false)); [by apply history_check_ok|apply fresh_coherent].
  - intros c Hc. repeat (apply elem_of_cons in Hc as [->|Hc]; [reflexivity|]). by apply elem_of_nil in Hc.
Defined.

(** ** Generation numbers *)

(** No commit is its own ancestor; dates are at most [B] where they count. *)
Definition dated (r : repository) (v B : Z) : Prop :=
  (∀ c, ¬ tc (edge r) c c) ∧ store r !! 0 = None ∧ 0 <= B ∧ ∀ c d, store r !! c = Some d → 0 <= d_date d < GENERATION_NUMBER_INFINITY ∧ (v = 2 → d_date d <= B).
(** The numbers there are already. *)
Definition numbered (r : repository) (v B : Z) (m : memory) : Prop := facts r v B m ∧ increasing r v m ∧ ∀ c, number r m c <= B.
Lemma fresh_numbered r v B : 0 <= B → (∀ c d, store r !! c = Some d → d_generation d = 0) → numbered r v B fresh.
Proof.
  intros HB H. assert (∀ c, the fresh c = Commit false 0 [] 0) as Ht. { intros c. unfold the, fresh. cbn. by rewrite lookup_empty. }
  assert (∀ c, number r fresh c = 0) as Hn. { intros c. unfold number. rewrite Ht. cbn. destruct (store r !! c) eqn:E; [by eapply H|done]. }
  split_and!; [|intros c Hc; by rewrite Hn in Hc|intros c; by rewrite Hn]. intros c. rewrite Ht. cbn. assert (GENERATION_NUMBER_INFINITY = 2 ^ 63 - 1) as -> by done. split_and!; lia || done.
Qed.
Lemma criss_cross_numbered : dated (criss_cross false) 2 9 ∧ numbered (criss_cross false) 2 9 fresh.
Proof.
  assert (∀ c d, store (criss_cross false) !! c = Some d → 0 <= d_date d <= 9 ∧ d_generation d = 0) as H.
  { apply (map_Forall_lookup (λ (_ : Z) d, 0 <= d_date d <= 9 ∧ d_generation d = 0)). apply (bool_decide_unpack _). by vm_compute. }
  split; [|apply fresh_numbered; [done|intros c d Hd; by eapply H]]. assert (history_ok (criss_cross false)) as Hh by (by apply history_check_ok).
  split_and!; [apply Hh|done|done|]. intros c d Hd. destruct (H c d Hd). assert (GENERATION_NUMBER_INFINITY = 2 ^ 63 - 1) as -> by done. lia.
Qed.

(** C11. Generation numbers: after [ensure_generations_valid], every commit
    reachable from the given ones has a generation number, larger than the
    number of each of its parents, in both versions of the numbers (levels and
    corrected dates); the flags are as they were, and numbers that were there
    have not changed.  The dates and numbers must stay below [limit], which is
    2^32 for corrected dates. *)
Theorem generation_numbers_increase (r : repository) (v B : Z) (m : memory) (commits : list Z) :
  v = 1 ∨ v = 2 → dated r v B → numbered r v B m → B + Z.of_nat (length commits + size (ids (store r))) < limit v →
  ∃ m', ensure_generations_valid r v m commits = Ret m' ∧ mem_flags m' = mem_flags m ∧ (∀ c, number r m c ≠ 0 → number r m' c = number r m c) ∧
    ∀ c x, c ∈ commits → reaches r c x → 0 < number r m' x < GENERATION_NUMBER_INFINITY ∧ ∀ p, edge r x p → number r m' p < number r m' x.
Proof.
  intros Hv (H1 & H2 & H3 & H4) (H5 & H6 & H7) Hlim. pose proof (ensure_generations_valid_wp r v Hv H1 H2 B H3 H4 m commits H5 H6 H7) as W.
  apply returns_eq in W as (m' & E & _ & Hi & Hb & Ef & Hnz & Hold & _). exists m'. split_and!; [done|done|done|]. intros c x Hc Hr. destruct (Hi x (Hnz c x Hc Hr)) as [? Hp].
  split; [done|]. intros p He. apply Hp; [done|]. intros q _. pose proof (Hb q). lia.
Qed.
Lemma generation_numbers_increase_witness : ∃ m', ensure_generations_valid (criss_cross false) 2 fresh [6; 5] = Ret m' ∧ mem_flags m' = mem_flags fresh ∧
  (∀ c, number (criss_cross false) fresh c ≠ 0 → number (criss_cross false) m' c = number (criss_cross false) fresh c) ∧
  ∀ c x, c ∈ [6; 5] → reaches (criss_cross false) c x → 0 < number (criss_cross false) m' x < GENERATION_NUMBER_INFINITY ∧ ∀ p, edge (criss_cross false) x p → number (criss_cross false) m' p < number (criss_cross false) m' x.
Proof. apply (generation_numbers_increase (criss_cross false) 2 9 fresh [6; 5]); [by right|apply criss_cross_numbered|apply criss_cross_numbered|by vm_compute]. Defined.

(** C12. The 32-bit maximum: in any repository, let [c] be a commit without a
    number whose only parent [p] has a corrected date [g] of 2^32 or more, and
    which is itself dated before [g].  The maximum over the parents is kept in 32
    bits, so that [ensure_generations_valid] gives [c] the larger of its date and
    [g mod 2^32 + 1], which is less than the number of its parent; with these
    numbers [p] is not found to be an ancestor of [c]. *)
Theorem generation_numbers_truncated (r : repository) (m : memory) (c p g : Z) (ignore_missing : bool) :
  c ≠ 0 → c ≠ p → p ≠ 0 → parsed (the m c) = true → parents (the m c) = [p] → graph_generation (the m c) = 0 → 0 <= date (the m c) < g →
  parsed (the m p) = true → graph_generation (the m p) = g → 2 ^ 32 <= g < GENERATION_NUMBER_INFINITY →
  let n := Z.max (date (the m c)) (g mod 2 ^ 32 + 1) in let m' := set_generation_in_graph_data m c n in
  ensure_generations_valid r 2 m [c] = Ret m' ∧ n < g ∧ repo_in_merge_bases_many r m' p [c] ignore_missing = Ret (0, m').
Proof.
  intros Hc Hcp Hp Pc Ec Gc Hd Pp Ep Hg. cbn zeta. change GENERATION_NUMBER_INFINITY with (2 ^ 63 - 1) in Hg. set (n := Z.max (date (the m c)) (g mod 2 ^ 32 + 1)). set (m' := set_generation_in_graph_data m c n).
  pose proof (Z.mod_pos_bound g (2 ^ 32) ltac:(lia)) as Hmod. assert (n < g) as Hn by (unfold n; pose proof (Z.div_mod g (2 ^ 32) ltac:(lia)); nia). split_and!; [|done|].
  - assert (∀ x, x ≠ 0 → parsed (the m x) = true → repo_parse_commit r m x = (0, m)) as Hparse by (intros x Hx Px; unfold repo_parse_commit; by rewrite (proj2 (Z.eqb_neq x 0) Hx), Px).
    assert (compute_generation_from_max m c (u32 g) 2 = Ret n) as Eg.
    { unfold compute_generation_from_max, u32. cbn [Z.eqb Pos.eqb]. destruct (Z.eqb_spec (date (the m c)) 0), (Z.ltb_spec (g mod 2 ^ 32) (date (the m c))); cbn [negb andb]; unfold u64; rewrite Z.mod_small by lia; f_equal; unfold n; lia. }
    unfold ensure_generations_valid. cbn [length compute_reachable_generation_numbers]. rewrite Hparse by done. cbn [snd]. unfold get_generation_from_graph_data. rewrite Gc. cbn [Z.eqb negb andb GENERATION_NUMBER_ZERO].
    destruct (2 * (1 + size (ids (store r))))%nat as [|[|fuel]] eqn:Ef; [lia|lia|]. cbn [compute_list]. rewrite Ec. cbn [parents_max]. rewrite Hparse by done. cbn [snd]. unfold get_generation_from_graph_data. rewrite Ep, (proj2 (Z.eqb_neq g GENERATION_NUMBER_ZERO)), (proj2 (Z.ltb_lt 0 g)) by (unfold GENERATION_NUMBER_ZERO; lia).
    rewrite Eg. done.
  - assert (the m' c = Commit true (date (the m c)) [p] n) as Tc by (unfold m'; rewrite set_generation_the, decide_True by done; by rewrite Pc, Ec). assert (the m' p = the m p) as Tp by (unfold m'; by rewrite set_generation_the, decide_False by done).
    assert (0 < n) by (unfold n; lia). unfold repo_in_merge_bases_many, repo_parse_commit. rewrite (proj2 (Z.eqb_neq p 0) Hp), Tp, Pp. cbn [Z.eqb negb parse_references]. unfold repo_parse_commit. rewrite (proj2 (Z.eqb_neq c 0) Hc), Tc. cbn [parsed Z.eqb negb].
    unfold commit_graph_generation. rewrite Tc, Tp, Ep. cbn [graph_generation]. rewrite (proj2 (Z.eqb_neq n 0)), (proj2 (Z.eqb_neq g 0)), (proj2 (Z.ltb_lt GENERATION_NUMBER_ZERO n)), (proj2 (Z.ltb_lt n g)) by (unfold GENERATION_NUMBER_ZERO; lia). done.
Qed.
(** Commit 1, dated after 2^32 and numbered, and its child 2. *)
Definition late : memory := Memory ∅ (list_to_map [(1, Commit true (2 ^ 32 + 100) [] (2 ^ 32 + 100)); (2, Commit true 5 [1] 0)]).
Lemma generation_numbers_truncated_witness : let r := Repository ∅ true true in let n := Z.max (date (the late 2)) ((2 ^ 32 + 100) mod 2 ^ 32 + 1) in
  let m' := set_generation_in_graph_data late 2 n in n = 101 ∧
  ensure_generations_valid r 2 late [2] = Ret m' ∧ n < 2 ^ 32 + 100 ∧ repo_in_merge_bases_many r m' 1 [2] false = Ret (0, m').
Proof. split; [reflexivity|]. apply (generation_numbers_truncated (Repository ∅ true true) late 2 1 (2 ^ 32 + 100) false); by vm_compute. Defined.

(** C10. Ahead and behind: for every comparison, [ahead_behind] counts exactly
    the commits that are reachable from the tip and not from the base, and those
    reachable from the base and not from the tip, modulo 2^32, whatever the shape
    of the history, although it stops when every commit it still has in its queue
    is reachable from all of the commits.  It leaves the flags as they were.  All
    commits that can be reached must be readable, and the generation numbers that
    order the queue must be sure to stay below [limit]: with corrected dates, no
    date and no number may come closer to 2^32 than there are commits (beyond it
    a child may be numbered below its parent, and the counts be wrong); with
    topological levels, no level may come that close to the largest one, and the
    dates do not matter. *)
Theorem ahead_behind_exact (r : repository) (v B : Z) (m : memory) (commits : list Z) (counts : list ahead_behind_count) :
  v = 1 ∨ v = 2 → dated r v B → numbered r v B m → B + Z.of_nat (length commits + size (ids (store r))) < limit v → unmarked m →
  (∀ c x, c ∈ commits → reaches r c x → readable r x) → 0 < zlen commits < 2 ^ 57 →
  Forall (λ k, 0 <= tip_index k < zlen commits ∧ 0 <= base_index k < zlen commits) counts →
  ∃ m' ks, ahead_behind r v m commits counts = Ret (m', ks) ∧ (∀ c, flags m' c = flags m c) ∧ Forall2 (count_ok r commits) counts ks.
Proof.
  intros Hv (H1 & H2 & H3 & H4) (H5 & H6 & H7) Hlim Hu Hr Hn Hk. pose proof (ahead_behind_wp r v B m commits counts Hv H1 H2 H3 H4 H5 H6 H7 Hlim) as W.
  ospecialize (W _ Hr Hn Hk). { intros c. specialize (Hu c). rewrite has_all_flags_false in Hu. by rewrite !Hu. }
  apply returns_eq in W as ([m' ks] & E & Hf & Hks). by exists m', ks.
Qed.
Lemma ahead_behind_exact_witness : ∃ m' ks, ahead_behind (criss_cross false) 2 fresh [6; 5] [Count 0 1 7 7] = Ret (m', ks) ∧ (∀ c, flags m' c = flags fresh c) ∧
  Forall2 (count_ok (criss_cross false) [6; 5]) [Count 0 1 7 7] ks.
Proof.
  apply (ahead_behind_exact (criss_cross false) 2 9 fresh [6; 5] [Count 0 1 7 7]); [by right|apply criss_cross_numbered|apply criss_cross_numbered|by vm_compute|apply fresh_unmarked| |done|by repeat constructor].
  assert (∀ c d, store (criss_cross false) !! c = Some d → ∀ p, p ∈ d_parents d → readable (criss_cross false) p) as Hc.
  { intros c d Hd p Hp. assert (map_Forall (λ (_ : Z) d, Forall (λ p, is_Some (store (criss_cross false) !! p)) (d_parents d)) (store (criss_cross false))) as H.
    { apply (bool_decide_unpack _). by vm_compute. } specialize (H c d Hd). rewrite Forall_forall in H. by apply H. }
  intros c x Hx Hr. assert (readable (criss_cross false) c) as Hrc. { repeat (apply elem_of_cons in Hx as [->|Hx]; [by eexists|]). by apply elem_of_nil in Hx. }
  clear Hx. induction Hr as [|c y x (d & Hd & Hp) Hr IH]; [done|]. apply IH. by eapply Hc.
Defined.
Example ahead_behind_criss_cross :
  (let! (_, ks) := ahead_behind (criss_cross false) 2 fresh [6; 5] [Count 0 1 7 7; Count 1 0 0 0; Count 0 0 3 3] in Ret ks) = Ret [Count 0 1 2 1; Count 1 0 1 2; Count 0 0 0 0].
Proof. by vm_compute. Qed.
End CommitTheorems.
