(* ===== verification/LineLog.v ===== *)
(** * Following ranges of lines through history (line-log.c)

    [git log -L] keeps sets of ranges of lines for each file and maps them from
    a commit to its parent: hunks of the diff that touch a range are replaced by
    their other side, and the rest is shifted.  A range set is the list of its
    ranges.  The diff comes from [xdl_diff], through [xdi_diff] and the callback
    for hunks.  Numbers of lines are [long] and far below its limits. *)
From stdpp Require Import prelude sorting.
From S2P Require Import Prelude Order XdlUtils XdlDiff XdlPrepare XdlScript XdlEmit.
Import XdlUtils XdlDiff XdlPrepare XdlScript XdlEmit.

Module LineLog.

Record range := Range { start : Z; end_ : Z }.
Abbreviation range_set := (list range).

(** ** Range sets *)
Definition range_set_append_unsafe (rs : range_set) (a b : Z) : outcome range_set :=
  oassert (a <=? b) (Ret (rs ++ [Range a b])).
Definition range_set_append (rs : range_set) (a b : Z) : outcome range_set :=
  oassert (match last rs with None => true | Some r => end_ r <=? a end) (range_set_append_unsafe rs a b).
Definition range_cmp (r s : range) : Z :=
  if start r =? start s then 0 else if start r <? start s then -1 else 1.
(** [for (i = 1; i < rs->nr; i++)], behind [prev]. *)
Fixpoint check_loop (prev : range) (rs : range_set) : outcome unit :=
  match rs with
  | [] => Ret ()
  | r :: rs => oassert (end_ prev <? start r) (oassert (start r <? end_ r) (check_loop r rs))
  end.
Definition range_set_check_invariants (rs : range_set) : outcome unit :=
  match rs with
  | [] => Ret ()
  | r :: rs => oassert (start r <? end_ r) (check_loop r rs)
  end.

(** [for (i = 0; i < rs->nr; i++)], in place: [n] ranges are left from [i] on,
    [o] have been written. *)
Fixpoint merge_loop (n : nat) (ranges : list range) (i o : Z) : outcome (list range * Z) :=
  match n with
  | O => Ret (ranges, o)
  | S n =>
      let! r := rd ranges i in
      if start r =? end_ r then merge_loop n ranges (i + 1) o
      else
        let! prev := if 0 <? o then let! p := rd ranges (o - 1) in Ret (Some p) else Ret None in
        match prev with
        | Some p =>
            if start r <=? end_ p then
              let! ranges := if end_ p <? end_ r then wr ranges (o - 1) (Range (start p) (end_ r)) else Ret ranges in
              merge_loop n ranges (i + 1) o
            else
              let! ranges := wr ranges o r in
              merge_loop n ranges (i + 1) (o + 1)
        | None =>
            let! ranges := wr ranges o r in
            merge_loop n ranges (i + 1) (o + 1)
        end
  end.
Definition sort_and_merge_range_set `{!Qsort} (rs : range_set) : outcome range_set :=
  let sorted := if 1 <? zlen rs then qsort range_cmp rs else rs in
  let! (ranges, o) := merge_loop (length rs) sorted 0 0 in
  oassert (o <=? zlen rs) (let rs := ztake o ranges in
  let! _ := range_set_check_invariants rs in
  Ret rs).

(** ** Union *)

(** The new range goes behind the last one or into it. *)
Definition union_add (out : range_set) (new_range : range) : range_set :=
  if start new_range =? end_ new_range then out
  else
    match last out with
    | None => out ++ [new_range]
    | Some l =>
        if end_ l <? start new_range then out ++ [new_range]
        else if end_ l <? end_ new_range then <[pred (length out) := Range (start l) (end_ new_range)]> out
        else out
    end.
(** Whether the next range comes from the first set. *)
Definition union_first (ra rb : range) : bool :=
  if start ra <? start rb then true else if start rb <? start ra then false else end_ ra <? end_ rb.
(** [while (i < a->nr || j < b->nr)]: the ranges from [i] and from [j] on. *)
Fixpoint union_loop (fuel : nat) (a b out : range_set) : outcome range_set :=
  match fuel with
  | O => NoFuel
  | S fuel =>
      match a, b with
      | ra :: a', rb :: b' => if union_first ra rb then union_loop fuel a' b (union_add out ra) else union_loop fuel a b' (union_add out rb)
      | ra :: a', [] => union_loop fuel a' b (union_add out ra)
      | [], rb :: b' => union_loop fuel a b' (union_add out rb)
      | [], [] => Ret out
      end
  end.
Definition range_set_union (a b : range_set) : outcome range_set := union_loop (S (length a + length b)) a b [].

(** ** Difference *)

(** [while (j < b->nr && start >= b->ranges[j].end)]. *)
Fixpoint skip_before (from : Z) (b : range_set) : range_set :=
  match b with
  | rb :: b' => if end_ rb <=? from then skip_before from b' else b
  | [] => []
  end.
(** [while (start < end)]: the rest of [b] and the output. *)
Fixpoint difference_range (fuel : nat) (from to : Z) (b out : range_set) : outcome (range_set * range_set) :=
  match fuel with
  | O => NoFuel
  | S fuel =>
      if from <? to then
        let b := skip_before from b in
        match b with
        | [] => let! out := range_set_append out from to in Ret (b, out)
        | rb :: _ =>
            if to <? start rb then let! out := range_set_append out from to in Ret (b, out)
            else if start rb <=? from then difference_range fuel (end_ rb) to b out
            else if start rb <? to then
              let! out := if from <? start rb then range_set_append out from (start rb) else Ret out in
              difference_range fuel (end_ rb) to b out
            else difference_range fuel from to b out
        end
      else Ret (b, out)
  end.
(** [for (i = 0; i < a->nr; i++)]. *)
Fixpoint difference_loop (fuel : nat) (a b out : range_set) : outcome range_set :=
  match a with
  | [] => Ret out
  | ra :: a =>
      let! (b, out) := difference_range fuel (start ra) (end_ ra) b out in
      difference_loop fuel a b out
  end.
Definition range_set_difference (a b : range_set) : outcome range_set := difference_loop (length b + 2) a b [].

(** ** Across a diff *)
Record diff_ranges := Diff_ranges { parent : range_set; target : range_set }.

Definition ranges_overlap (a b : range) : bool := negb ((end_ a <=? start b) || (end_ b <=? start a)).
(** [while (diff->target.ranges[i].start > rs->ranges[j].end)]; [None] is the
    return. *)
Fixpoint touch_skip (t : range) (rs : range_set) : outcome (option range_set) :=
  match rs with
  | [] => UB
  | r :: rs' => if end_ r <? start t then match rs' with [] => Ret None | _ => touch_skip t rs' end else Ret (Some rs)
  end.
(** [for (i = 0; i < diff->target.nr; i++)]. *)
Fixpoint touched_loop (ps ts rs : range_set) (out : diff_ranges) : outcome diff_ranges :=
  match ts with
  | [] => Ret out
  | t :: ts =>
      let! next := touch_skip t rs in
      match next with
      | None => Ret out
      | Some [] => UB
      | Some ((r :: _) as rs) =>
          match ps with
          | [] => UB
          | p :: ps =>
              let! out := if ranges_overlap t r then
                            let! op := range_set_append (parent out) (start p) (end_ p) in
                            let! ot := range_set_append (target out) (start t) (end_ t) in
                            Ret (Diff_ranges op ot)
                          else Ret out in
              touched_loop ps ts rs out
          end
      end
  end.
Definition diff_ranges_filter_touched (diff : diff_ranges) (rs : range_set) : outcome diff_ranges :=
  touched_loop (parent diff) (target diff) rs (Diff_ranges [] []).

(** [while (j < diff->target.nr && src[i].start >= target[j].start)]. *)
Fixpoint shift_skip (from : Z) (ps ts : range_set) (offset : Z) : outcome (range_set * range_set * Z) :=
  match ts with
  | [] => Ret (ps, ts, offset)
  | t :: ts' =>
      if start t <=? from then
        match ps with
        | [] => UB
        | p :: ps' => shift_skip from ps' ts' (offset + ((end_ p - start p) - (end_ t - start t)))
        end
      else Ret (ps, ts, offset)
  end.
(** [for (i = 0; i < rs->nr; i++)]. *)
Fixpoint shift_loop (src ps ts : range_set) (offset : Z) (out : range_set) : outcome range_set :=
  match src with
  | [] => Ret out
  | s :: src =>
      let! (ps, ts, offset) := shift_skip (start s) ps ts offset in
      let! out := range_set_append out (start s + offset) (end_ s + offset) in
      shift_loop src ps ts offset out
  end.
Definition range_set_shift_diff (rs : range_set) (diff : diff_ranges) : outcome range_set :=
  shift_loop rs (parent diff) (target diff) 0 [].

Definition range_set_map_across_diff (rs : range_set) (diff : diff_ranges) : outcome (range_set * diff_ranges) :=
  let! touched := diff_ranges_filter_touched diff rs in
  let! tmp1 := range_set_difference rs (target touched) in
  let! tmp2 := range_set_shift_diff tmp1 diff in
  let! out := range_set_union tmp2 (parent touched) in
  Ret (out, touched).

(** ** The diff *)
Definition MAX_XDIFF_SIZE : Z := 1024 * 1024 * 1023.

(** [while (blk + trimmed <= smaller && !memcmp(ap - blk, bp - blk, blk))]: the
    number of bytes of the common tail. *)
Fixpoint trim_blocks (fuel : nat) (a b : list Z) (trimmed : Z) : outcome Z :=
  match fuel with
  | O => NoFuel
  | S fuel =>
      if 1024 + trimmed <=? Z.min (zlen a) (zlen b) then
        let! x := rd_range a (zlen a - trimmed - 1024) 1024 in
        let! y := rd_range b (zlen b - trimmed - 1024) 1024 in
        if bool_decide (x = y) then trim_blocks fuel a b (trimmed + 1024) else Ret trimmed
      else Ret trimmed
  end.
(** [while (recovered < trimmed)]: up to the end of the line. *)
Fixpoint trim_recover (tail : list Z) (recovered : Z) : Z :=
  match tail with
  | [] => recovered
  | c :: tail => if c =? 10 then recovered + 1 else trim_recover tail (recovered + 1)
  end.
Definition trim_common_tail (a b : list Z) : outcome (list Z * list Z) :=
  let! trimmed := trim_blocks (S (length a)) a b 0 in
  let recovered := trim_recover (zdrop (zlen a - trimmed) a) 0 in
  Ret (ztake (zlen a - (trimmed - recovered)) a, ztake (zlen b - (trimmed - recovered)) b).

(** [xdi_diff] with a [hunk_func] and no context: the arguments of its calls;
    [None] is -1. *)
Definition xdi_diff (malloc : Z → list Z) (mf1 mf2 : list Z) : outcome (option (list (Z * Z * Z * Z))) :=
  if (MAX_XDIFF_SIZE <? zlen mf1) || (MAX_XDIFF_SIZE <? zlen mf2) then Ret None
  else
    let! (a, b) := trim_common_tail mf1 mf2 in
    let! r := xdl_diff_script malloc a b 0 [] in
    match r with
    | None => Ret None
    | Some (_, _, xscr) =>
        let! hunks := xdl_call_hunk_func (Xdemitconf 0 0 0 None false) (S (length xscr)) xscr in
        Ret (Some hunks)
    end.

Definition collect_diff_cb (d : diff_ranges) (hunk : Z * Z * Z * Z) : outcome diff_ranges :=
  let '(start_a, count_a, start_b, count_b) := hunk in
  let! p := if 0 <=? count_a then range_set_append (parent d) start_a (start_a + count_a) else Ret (parent d) in
  let! t := if 0 <=? count_b then range_set_append (target d) start_b (start_b + count_b) else Ret (target d) in
  Ret (Diff_ranges p t).
(** The calls of the callback one after the other. *)
Fixpoint collect_loop (d : diff_ranges) (hunks : list (Z * Z * Z * Z)) : outcome diff_ranges :=
  match hunks with
  | [] => Ret d
  | h :: hunks => let! d := collect_diff_cb d h in collect_loop d hunks
  end.
Definition collect_diff (malloc : Z → list Z) (parent_file target_file : list Z) : outcome (option diff_ranges) :=
  let! r := xdi_diff malloc parent_file target_file in
  match r with
  | None => Ret None
  | Some hunks => let! d := collect_loop (Diff_ranges [] []) hunks in Ret (Some d)
  end.

(** ** Ranges of several files *)
Record line_log_data := Line_log_data { path : list Z; ranges : range_set }.

(** The position of [path], and the last file in front of it. *)
Fixpoint search_line_log_data (l : list line_log_data) (p : list Z) (at_ : nat) (insertion_point : option nat) : option nat * option nat :=
  match l with
  | [] => (None, insertion_point)
  | d :: l =>
      let cmp := memcmp (path d) p in
      if cmp =? 0 then (Some at_, insertion_point)
      else search_line_log_data l p (S at_) (if cmp <? 0 then Some at_ else insertion_point)
  end.
Definition line_log_data_insert (l : list line_log_data) (p : list Z) (begin end_ : Z) : outcome (list line_log_data) :=
  match search_line_log_data l p 0 None with
  | (Some k, _) =>
      match l !! k with
      | None => UB
      | Some d => let! rs := range_set_append_unsafe (ranges d) begin end_ in Ret (<[k := Line_log_data (path d) rs]> l)
      end
  | (None, ip) =>
      let! rs := range_set_append [] begin end_ in
      let d := Line_log_data p rs in
      Ret (match ip with Some k => take (S k) l ++ d :: drop (S k) l | None => d :: l end)
  end.
(** [while (a || b)]. *)
Fixpoint line_log_data_merge (fuel : nat) (a b : list line_log_data) : outcome (list line_log_data) :=
  match fuel with
  | O => NoFuel
  | S fuel =>
      match a, b with
      | [], [] => Ret []
      | da :: a', [] => let! l := line_log_data_merge fuel a' b in Ret (Line_log_data (path da) (ranges da) :: l)
      | [], db :: b' => let! l := line_log_data_merge fuel a b' in Ret (Line_log_data (path db) (ranges db) :: l)
      | da :: a', db :: b' =>
          let cmp := memcmp (path da) (path db) in
          if cmp <? 0 then let! l := line_log_data_merge fuel a' b in Ret (Line_log_data (path da) (ranges da) :: l)
          else if cmp =? 0 then
            let! rs := range_set_union (ranges da) (ranges db) in
            let! l := line_log_data_merge fuel a' b' in Ret (Line_log_data (path da) rs :: l)
          else let! l := line_log_data_merge fuel a b' in Ret (Line_log_data (path db) (ranges db) :: l)
      end
  end.

Example union_small : range_set_union [Range 0 3; Range 7 9] [Range 3 5; Range 6 6; Range 8 12] = Ret [Range 0 5; Range 7 12].
Proof. reflexivity. Qed.
Example difference_small : range_set_difference [Range 0 6; Range 7 12] [Range 2 3; Range 5 8; Range 9 9] = Ret [Range 0 2; Range 3 5; Range 8 9; Range 9 12].
Proof. reflexivity. Qed.
End LineLog.
