(* ===== verification/LineLogSpec.v ===== *)
(** * Range sets as sets of lines

    What the operations of [LineLog] do to the set of lines that a range set
    stands for, and which invariants the lists of ranges keep. *)
From stdpp Require Import prelude sorting.
From S2P Require Import Prelude Order LineLog.
Import LineLog.

Module LineLogSpec.
Implicit Types (r : range) (rs a b out : list range).

Definition in_range r (n : Z) : Prop := start r <= n < end_ r.
Definition covers rs (n : Z) : Prop := ∃ r, r ∈ rs ∧ in_range r n.
(** In order from [p] on, as [range_set_append] keeps them. *)
Fixpoint laid (p : Z) rs : Prop :=
  match rs with
  | [] => True
  | r :: rs => p <= start r ∧ start r <= end_ r ∧ laid (end_ r) rs
  end.
(** Behind [p], none empty and none touching: what
    [range_set_check_invariants] checks. *)
Fixpoint canon (p : Z) rs : Prop :=
  match rs with
  | [] => True
  | r :: rs => p < start r ∧ start r < end_ r ∧ canon (end_ r) rs
  end.
Definition canonical rs : Prop := ∃ p, canon p rs.

Lemma covers_nil n : covers [] n ↔ False.
Proof. split; [|done]. by intros (r & ?%elem_of_nil & _). Qed.
Lemma covers_cons r rs n : covers (r :: rs) n ↔ in_range r n ∨ covers rs n.
Proof. unfold covers. setoid_rewrite elem_of_cons. naive_solver. Qed.
Lemma covers_app a b n : covers (a ++ b) n ↔ covers a n ∨ covers b n.
Proof. unfold covers. setoid_rewrite elem_of_app. naive_solver. Qed.
Lemma covers_perm a b n : a ≡ₚ b → covers a n ↔ covers b n.
Proof. intros H. unfold covers. by setoid_rewrite H. Qed.
Lemma canon_laid p q rs : q <= p + 1 → canon p rs → laid q rs.
Proof. revert p q. induction rs as [|r rs IH]; [done|]. cbn. intros p q Hq (H1 & H2 & H3). split_and!; [lia|lia|]. eapply IH; [|done]. lia. Qed.
Lemma canon_weaken p q rs : q <= p → canon p rs → canon q rs.
Proof. destruct rs as [|r rs]; [done|]. cbn. intros Hq (H1 & H2 & H3). split_and!; [lia|done|done]. Qed.
Lemma laid_weaken p q rs : q <= p → laid p rs → laid q rs.
Proof. destruct rs as [|r rs]; [done|]. cbn. intros Hq (H1 & H2 & H3). split_and!; [lia|done|done]. Qed.
Lemma laid_elem p rs r : laid p rs → r ∈ rs → p <= start r ∧ start r <= end_ r.
Proof.
  revert p. induction rs as [|x rs IH]; intros p H Hr; [by apply elem_of_nil in Hr|]. cbn in H. destruct H as (H1 & H2 & H3). apply elem_of_cons in Hr as [->|Hr]; [lia|].
  destruct (IH _ H3 Hr). lia.
Qed.
Lemma laid_starts p rs : laid p rs → StronglySorted (λ x y, start x <= start y) rs.
Proof.
  revert p. induction rs as [|r rs IH]; intros p; [constructor|]. cbn. intros (H1 & H2 & H3). constructor; [by eapply IH|]. apply Forall_forall. intros x Hx.
  destruct (laid_elem _ _ _ H3 Hx). lia.
Qed.
Lemma canon_last p rs l : canon p rs → last rs = Some l → p < start l ∧ start l < end_ l.
Proof.
  revert p. induction rs as [|x rs IH]; intros p; [done|]. cbn [canon]. intros (H1 & H2 & H3). destruct rs as [|y rs]; [by intros [= <-]|]. intros E. destruct (IH _ H3 E). lia.
Qed.
Lemma canon_snoc p rs r : canon p (rs ++ [r]) ↔ canon p rs ∧ p < start r ∧ start r < end_ r ∧ match last rs with None => True | Some l => end_ l < start r end.
Proof.
  revert p. induction rs as [|x rs IH]; intros p; [cbn; tauto|]. cbn [app canon]. rewrite IH. destruct rs as [|y rs]; [cbn; intuition lia|].
  change (last (x :: y :: rs)) with (last (y :: rs)). destruct (last (y :: rs)) as [l|] eqn:E.
  - split; [intros (? & ? & ? & ? & ? & ?); split_and!; try done; lia|]. intros ((? & ? & Hc) & ? & ? & ?). destruct (canon_last _ _ _ Hc E). split_and!; try done; lia.
  - by apply last_None in E.
Qed.
Lemma canon_starts p rs r : canon p rs → r ∈ rs → p < start r ∧ start r < end_ r.
Proof.
  revert p. induction rs as [|x rs IH]; intros p H Hr; [by apply elem_of_nil in Hr|]. cbn in H. destruct H as (H1 & H2 & H3). apply elem_of_cons in Hr as [->|Hr]; [lia|].
  destruct (IH _ H3 Hr). lia.
Qed.
Lemma check_invariants_ok p rs : canon p rs → range_set_check_invariants rs = Ret ().
Proof.
  destruct rs as [|r rs]; [done|]. cbn [canon range_set_check_invariants]. intros (_ & H2 & H3). unfold oassert at 1. destruct (Z.ltb_spec (start r) (end_ r)); [|lia]. clear H2.
  revert r H H3. induction rs as [|x rs IH]; intros r Hr; [done|]. cbn [canon check_loop]. intros (H1 & H2 & H3). unfold oassert. destruct (Z.ltb_spec (end_ r) (start x)); [|lia].
  destruct (Z.ltb_spec (start x) (end_ x)); [|lia]. by apply IH.
Qed.

(** ** Adding ranges in the order of their starts *)
Lemma union_add_spec p out r : canon p out → p < start r → start r <= end_ r → (∀ l, last out = Some l → start l <= start r) →
  canon p (union_add out r) ∧ (∀ n, covers (union_add out r) n ↔ covers out n ∨ in_range r n) ∧ (∀ l, last (union_add out r) = Some l → start l <= start r).
Proof.
  intros Hc Hp Hr Hl. unfold union_add. destruct (Z.eqb_spec (start r) (end_ r)) as [E|Hne].
  { split_and!; [done| |done]. intros n. unfold in_range at 1. split; [by left|]. intros [?|?]; [done|lia]. }
  destruct out as [|l out _] using rev_ind; cbn [last].
  { split_and!; [by cbn; split_and!; [lia|lia|]| |by intros ? [= <-]]. intros n. cbn [app]. rewrite covers_cons, covers_nil. naive_solver. }
  rewrite last_snoc in Hl |- *. specialize (Hl l eq_refl). destruct (Z.ltb_spec (end_ l) (start r)).
  { split_and!; [rewrite canon_snoc, last_snoc; split_and!; [done|lia|lia|lia]| |rewrite last_snoc; by intros ? [= <-]]. intros n. rewrite !covers_app, !covers_cons, !covers_nil. naive_solver. }
  rewrite canon_snoc in Hc. destruct Hc as (Hc & Hpl & Hle & Hlast). destruct (Z.ltb_spec (end_ l) (end_ r)).
  - rewrite length_app. cbn [length]. replace (pred (length out + 1)) with (length out + 0)%nat by lia. rewrite insert_app_r. cbn [insert list_insert].
    split_and!; [rewrite canon_snoc; cbn [start end_]; split_and!; [done|lia|lia|done]| |rewrite last_snoc; by intros ? [= <-]].
    intros n. rewrite !covers_app, !covers_cons, !covers_nil. unfold in_range. cbn [start end_]. split; [intros [?|[?|?]]; [auto|destruct (decide (n < end_ l)); [naive_solver lia|right; lia]|done]|]. intros [[?|[?|?]]|?]; [auto|right; left; lia|done|right; left; lia].
  - split_and!; [by rewrite canon_snoc| |rewrite last_snoc; by intros ? [= <-]]. intros n. rewrite !covers_app, !covers_cons, !covers_nil. unfold in_range. split; [tauto|]. intros [?|?]; [done|]. right. left. lia.
Qed.
Lemma fold_union_spec p l : ∀ out, canon p out → Forall (λ r, p < start r ∧ start r <= end_ r) l → StronglySorted (λ x y, start x <= start y) l →
  (∀ x r, last out = Some x → r ∈ l → start x <= start r) → canon p (foldl union_add out l) ∧ ∀ n, covers (foldl union_add out l) n ↔ covers out n ∨ covers l n.
Proof.
  induction l as [|r l IH]; intros out Hc Hl Hs Hlast; cbn [foldl]; [split; [done|]; intros n; rewrite covers_nil; tauto|].
  apply Forall_cons in Hl as [[Hp Hr] Hl]. apply StronglySorted_inv in Hs as [Hs Hsr]. destruct (union_add_spec p out r Hc Hp Hr) as (H1 & H2 & H3). { intros x Hx. apply (Hlast x r Hx). by left. }
  destruct (IH (union_add out r) H1 Hl Hs) as [H4 H5].
  { intros x y Hx Hy. specialize (H3 x Hx). rewrite Forall_forall in Hsr. specialize (Hsr y Hy). lia. }
  split; [done|]. intros n. rewrite H5, H2, covers_cons. tauto.
Qed.

(** ** [range_set_union] *)
Lemma union_loop_fold fuel : ∀ a b out, (length a + length b < fuel)%nat → StronglySorted (λ x y, start x <= start y) a → StronglySorted (λ x y, start x <= start y) b →
  ∃ l, union_loop fuel a b out = Ret (foldl union_add out l) ∧ l ≡ₚ a ++ b ∧ StronglySorted (λ x y, start x <= start y) l.
Proof.
  induction fuel as [|fuel IH]; intros a b out Hf Ha Hb; [lia|]. destruct a as [|ra a], b as [|rb b]; cbn [union_loop length] in *.
  - exists []. split_and!; [done|done|constructor].
  - pose proof Hb as Hb'. apply StronglySorted_inv in Hb' as [Hb' Hrb]. destruct (IH [] b (union_add out rb)) as (l & E & Hp & Hs); [cbn; lia|done|done|]. exists (rb :: l). cbn [app] in *. split_and!; [done|by rewrite Hp|].
    constructor; [done|]. by rewrite Hp.
  - pose proof Ha as Ha'. apply StronglySorted_inv in Ha' as [Ha' Hra]. destruct (IH a [] (union_add out ra)) as (l & E & Hp & Hs); [cbn; lia|done|done|]. exists (ra :: l). rewrite app_nil_r in *. split_and!; [done|by rewrite Hp|].
    constructor; [done|]. by rewrite Hp.
  - pose proof Ha as Ha'. pose proof Hb as Hb'. apply StronglySorted_inv in Ha' as [Ha' Hra]. apply StronglySorted_inv in Hb' as [Hb' Hrb]. destruct (union_first ra rb) eqn:Ef; unfold union_first in Ef.
    + destruct (IH a (rb :: b) (union_add out ra)) as (l & E & Hp & Hs); [cbn; lia|done|done|]. exists (ra :: l). split_and!; [done|by rewrite Hp|]. constructor; [done|]. rewrite Hp, Forall_app, Forall_cons.
      assert (start ra <= start rb) by (destruct (Z.ltb_spec (start ra) (start rb)); [lia|]; destruct (Z.ltb_spec (start rb) (start ra)); [done|lia]).
      split_and!; [done|done|]. eapply Forall_impl; [exact Hrb|]. cbn beta. lia.
    + destruct (IH (ra :: a) b (union_add out rb)) as (l & E & Hp & Hs); [cbn; lia|done|done|]. exists (rb :: l). split_and!; [done|rewrite Hp; apply Permutation_middle|]. constructor; [done|]. rewrite Hp, Forall_app, Forall_cons.
      assert (start rb <= start ra) by (destruct (Z.ltb_spec (start ra) (start rb)); [done|]; destruct (Z.ltb_spec (start rb) (start ra)); lia).
      split_and!; [done| |done]. eapply Forall_impl; [exact Hra|]. cbn beta. lia.
Qed.
Lemma laid_above p rs : laid p rs → Forall (λ r, p - 1 < start r ∧ start r <= end_ r) rs.
Proof. intros H. apply Forall_forall. intros r Hr. destruct (laid_elem _ _ _ H Hr). lia. Qed.
Lemma range_set_union_wp p a b : laid p a → laid p b → returns (range_set_union a b) (λ out, canon (p - 1) out ∧ ∀ n, covers out n ↔ covers a n ∨ covers b n).
Proof.
  intros Ha Hb. unfold range_set_union. destruct (union_loop_fold (S (length a + length b)) a b []) as (l & -> & Hp & Hs); [lia|by eapply laid_starts|by eapply laid_starts|]. cbn [wp].
  destruct (fold_union_spec (p - 1) l []) as [H1 H2]; [done|rewrite Hp; apply Forall_app; split; by apply laid_above|done|done|]. split; [done|]. intros n. rewrite H2, covers_nil, (covers_perm l (a ++ b) n Hp), covers_app. tauto.
Qed.

(** ** [sort_and_merge_range_set] *)
Lemma zdrop_insert_low (l : list range) i k v : 0 <= k < i → zdrop i (<[Z.to_nat k := v]> l) = zdrop i l.
Proof. intros H. unfold zdrop. apply drop_insert_lt. lia. Qed.
Lemma ztake_insert_last (l : list range) o v : 0 < o <= zlen l → ztake o (<[Z.to_nat (o - 1) := v]> l) = <[pred (length (ztake o l)) := v]> (ztake o l).
Proof.
  intros H. unfold ztake. rewrite take_insert_lt by lia. f_equal. rewrite length_take. unfold zlen in H. lia.
Qed.
Lemma last_ztake (l : list range) o x : 0 < o → znth l (o - 1) = Some x → last (ztake o l) = Some x.
Proof. intros Ho Hx. replace o with (o - 1 + 1) by lia. rewrite (ztake_succ l (o - 1) x) by (done || lia). apply last_snoc. Qed.
Lemma merge_ranges_wp n : ∀ ranges i o, 0 <= o <= i → zlen ranges = i + Z.of_nat n →
  returns (merge_loop n ranges i o) (λ '(ranges', o'), 0 <= o' <= zlen ranges ∧ zlen ranges' = zlen ranges ∧ ztake o' ranges' = foldl union_add (ztake o ranges) (zdrop i ranges)).
Proof.
  induction n as [|n IH]; intros ranges i o Ho Hl; cbn [merge_loop]. { cbn [wp]. rewrite zdrop_all by lia. cbn [foldl]. split_and!; [lia|lia|done|done]. }
  destruct (znth_is_Some ranges i) as [r Hr]; [lia|]. rewrite (rd_znth _ _ _ Hr). cbn [obind]. rewrite (zdrop_cons ranges i r) by (done || lia). cbn [foldl].
  assert (∀ ranges' o', 0 <= o' <= i + 1 → zlen ranges' = zlen ranges → zdrop (i + 1) ranges' = zdrop (i + 1) ranges → ztake o' ranges' = union_add (ztake o ranges) r →
    returns (merge_loop n ranges' (i + 1) o') (λ '(ranges'', o''), 0 <= o'' <= zlen ranges ∧ zlen ranges'' = zlen ranges ∧ ztake o'' ranges'' = foldl union_add (union_add (ztake o ranges) r) (zdrop (i + 1) ranges))) as Hgo.
  { intros ranges' o' Ho' El Ed Et. eapply wp_mono; [|apply (IH ranges' (i + 1) o' Ho'); lia]. intros [ranges'' o''] (H1 & H2 & H3). rewrite El, Ed, Et in *. done. }
  assert (∀ k v, 0 <= k <= i → zlen (<[Z.to_nat k := v]> ranges) = zlen ranges ∧ zdrop (i + 1) (<[Z.to_nat k := v]> ranges) = zdrop (i + 1) ranges) as Hk.
  { intros k v Hk. split; [apply zlen_insert|]. by apply zdrop_insert_low; lia. }
  unfold union_add in *. destruct (Z.eqb_spec (start r) (end_ r)) as [E|E]; [by apply Hgo; [lia|..]|].
  destruct (Z.ltb_spec 0 o) as [Hpos|Hz]; cbn [obind].
  - destruct (znth_is_Some ranges (o - 1)) as [x Hx]; [lia|]. rewrite (rd_znth _ _ _ Hx). cbn [obind]. rewrite (last_ztake ranges o x) in * by done.
    destruct (Z.leb_spec (start r) (end_ x)), (Z.ltb_spec (end_ x) (start r)); try lia.
    + destruct (Z.ltb_spec (end_ x) (end_ r)); [|by cbn [obind]; apply Hgo; [lia|..]]. rewrite wr_ok by lia. cbn [obind]. destruct (Hk (o - 1) (Range (start x) (end_ r))) as [K1 K2]; [lia|].
      apply Hgo; [lia|done|done|]. apply ztake_insert_last. lia.
    + rewrite wr_ok by lia. cbn [obind]. destruct (Hk o r) as [K1 K2]; [lia|]. apply Hgo; [lia|done|done|]. apply ztake_insert_snoc. lia.
  - replace o with 0 in * by lia. rewrite ztake_0 in *. cbn [last] in *. rewrite wr_ok by lia. cbn [obind]. destruct (Hk 0 r) as [K1 K2]; [lia|]. apply Hgo; [lia|done|done|]. apply (ztake_insert_snoc ranges 0 r). lia.
Qed.
Lemma StronglySorted_impl {A} (R R' : relation A) (l : list A) : (∀ x y, R x y → R' x y) → StronglySorted R l → StronglySorted R' l.
Proof. intros H. induction 1 as [|x l Hs IH Hx]; constructor; [done|]. eapply Forall_impl; [exact Hx|]. auto. Qed.
#[export] Instance range_cmp_order : CmpOrder range_cmp.
Proof.
  split; unfold range_cmp; [intros x y|intros x y z]; repeat match goal with |- context [?u =? ?v] => destruct (Z.eqb_spec u v) | |- context [?u <? ?v] => destruct (Z.ltb_spec u v) end; lia.
Qed.
Lemma sort_and_merge_wp `{Q : !Qsort} `{!QsortLaws Q} p rs : Forall (λ r, p < start r ∧ start r <= end_ r) rs →
  returns (sort_and_merge_range_set rs) (λ out, canon p out ∧ ∀ n, covers out n ↔ covers rs n).
Proof.
  intros Hrs. unfold sort_and_merge_range_set. set (sorted := if 1 <? zlen rs then qsort range_cmp rs else rs).
  assert (sorted ≡ₚ rs ∧ StronglySorted (λ x y, start x <= start y) sorted) as [Hp Hs].
  { unfold sorted. destruct (Z.ltb_spec 1 (zlen rs)).
    - split; [apply qsort_perm|]. eapply StronglySorted_impl; [|apply (qsort_sorted range_cmp)]. intros x y. unfold range_cmp. repeat case_match; lia.
    - split; [done|]. destruct rs as [|x [|y rs']]; [constructor|repeat constructor|]. rewrite !zlen_cons in H. zlen_pos; lia. }
  assert (zlen sorted = zlen rs) as El. { unfold zlen. by rewrite Hp. }
  apply wp_bind. eapply wp_mono; [|apply (merge_ranges_wp (length rs) sorted 0 0); [lia|rewrite El; unfold zlen; lia]]. intros [ranges o] (Ho & Hl & E).
  rewrite El in *. unfold oassert. destruct (Z.leb_spec o (zlen rs)); [|lia]. rewrite E, ztake_0, zdrop_0. destruct (fold_union_spec p sorted []) as [H1 H2]; [done|by rewrite Hp|done|done|].
  rewrite (check_invariants_ok p) by done. cbn [obind wp]. split; [done|]. intros n. rewrite H2, covers_nil, (covers_perm sorted rs n Hp). tauto.
Qed.

(** ** [range_set_difference] *)
Lemma append_ok out x y : (∀ l, last out = Some l → end_ l <= x) → x <= y → range_set_append out x y = Ret (out ++ [Range x y]).
Proof.
  intros Hl Hxy. unfold range_set_append, range_set_append_unsafe, oassert. replace (match last out with None => true | Some r => end_ r <=? x end) with true.
  - by destruct (Z.leb_spec x y); [|lia].
  - destruct (last out) as [l|]; [|done]. specialize (Hl l eq_refl). lia.
Qed.
Lemma skip_before_spec from b : ∃ pre, b = pre ++ skip_before from b ∧ Forall (λ r, end_ r <= from) pre ∧ match skip_before from b with rb :: _ => from < end_ rb | [] => True end.
Proof.
  induction b as [|rb b (pre & E & Hpre & Hh)]; cbn [skip_before]; [by exists []|]. destruct (Z.leb_spec (end_ rb) from).
  - exists (rb :: pre). split_and!; [cbn; by f_equal|by constructor|done].
  - by exists [].
Qed.
Lemma skip_before_length from b : (length (skip_before from b) <= length b)%nat.
Proof. destruct (skip_before_spec from b) as (pre & E & _). rewrite E at 2. rewrite length_app. lia. Qed.
Lemma overlap_false x y : ranges_overlap x y = false ↔ end_ x <= start y ∨ end_ y <= start x.
Proof. unfold ranges_overlap. rewrite negb_false_iff, orb_true_iff. lia. Qed.
Lemma laid_app p x y : laid p (x ++ y) ↔ laid p x ∧ laid (match last x with Some l => end_ l | None => p end) y.
Proof.
  revert p. induction x as [|r x IH]; intros p; [cbn; tauto|]. cbn [app laid]. rewrite IH. destruct x as [|r' x]; [cbn; tauto|]. change (last (r :: r' :: x)) with (last (r' :: x)).
  destruct (last (r' :: x)) eqn:E; [tauto|by apply last_None in E].
Qed.
Lemma laid_after p x y : laid p (x ++ y) → ∃ q, laid q y ∧ p <= q ∧ ∀ r, r ∈ x → end_ r <= q.
Proof.
  revert p. induction x as [|r x IH]; intros p; cbn [app laid]; [intros H; exists p; split_and!; [done|lia|by intros r ?%elem_of_nil]|].
  intros (H1 & H2 & H3). destruct (IH _ H3) as (q & Hq & Hle & Hx). exists q. split_and!; [done|lia|]. intros r' [->|Hr]%elem_of_cons; [done|by apply Hx].
Qed.

(** The pieces of the lines from [from] to [to] that [b] leaves. *)
Definition pieces (from to : Z) b (new : list range) : Prop :=
  laid from new ∧ (∀ r, r ∈ new → from <= start r ∧ start r < end_ r ∧ end_ r <= to ∧ ∀ rb, rb ∈ b → ranges_overlap rb r = false) ∧ ∀ n, covers new n ↔ from <= n < to ∧ ¬ covers b n.
Lemma pieces_nil from to b : to <= from → pieces from to b [].
Proof. intros H. split_and!; [done|by intros r ?%elem_of_nil|]. intros n. rewrite covers_nil. split; [done|lia]. Qed.
Lemma pieces_free from to b : from < to → (∀ rb, rb ∈ b → end_ rb <= from ∨ to <= start rb) → pieces from to b [Range from to].
Proof.
  intros H Hb. split_and!; [cbn; split_and!; lia || done| |].
  - intros r ->%list_elem_of_singleton. cbn. split_and!; [lia|lia|lia|]. intros rb Hrb. apply overlap_false. cbn. destruct (Hb rb Hrb); auto.
  - intros n. rewrite covers_cons, covers_nil. unfold in_range. cbn. split; [|tauto]. intros [Hn|[]]. split; [done|]. intros (rb & Hrb & Hx). unfold in_range in Hx. destruct (Hb rb Hrb); lia.
Qed.
(** A gap in front of a range that is taken out, and what comes behind it. *)
Lemma pieces_skip from to b pre rb b'' g new : b = pre ++ rb :: b'' → laid g b → Forall (λ r, end_ r <= from) pre → from < end_ rb → start rb <= from → pieces (end_ rb) to (rb :: b'') new → pieces from to b new.
Proof.
  intros -> Hb Hpre He Hs (H1 & H2 & H3). rewrite Forall_forall in Hpre. split_and!; [eapply laid_weaken; [|done]; lia| |].
  - intros r Hr. destruct (H2 r Hr) as (? & ? & ? & Ho). split_and!; [lia|lia|lia|]. intros x [Hx|Hx]%elem_of_app; [|by apply Ho]. specialize (Hpre x Hx). apply overlap_false. left. lia.
  - intros n. rewrite H3, covers_app. split.
    + intros [Hn Hc]. split; [lia|]. intros [(x & Hx & Hi)|?]; [|done]. specialize (Hpre x Hx). unfold in_range in Hi. lia.
    + intros [Hn Hc]. split; [|tauto]. destruct (decide (n < end_ rb)); [|lia]. exfalso. apply Hc. right. apply covers_cons. left. unfold in_range. lia.
Qed.
Lemma pieces_gap from to b pre rb b'' g new : b = pre ++ rb :: b'' → laid g b → Forall (λ r, end_ r <= from) pre → from < start rb → start rb < to → pieces (end_ rb) to (rb :: b'') new → pieces from to b (Range from (start rb) :: new).
Proof.
  intros -> Hb Hpre Hs Hto (H1 & H2 & H3). rewrite Forall_forall in Hpre. destruct (laid_after _ _ _ Hb) as (q & Hq & _ & _). cbn in Hq. destruct Hq as (_ & Hrb & Hq).
  assert (∀ x, x ∈ pre ++ rb :: b'' → end_ x <= from ∨ start rb <= start x) as Hx.
  { intros x [Hx|[->|Hx]%elem_of_cons]%elem_of_app; [left; by apply Hpre|right; lia|right]. destruct (laid_elem _ _ _ Hq Hx). lia. }
  split_and!.
  - cbn. split_and!; [lia|lia|]. eapply laid_weaken; [|done]. lia.
  - intros r [->|Hr]%elem_of_cons; [cbn; split_and!; [lia|lia|lia|]; intros x Hx'; apply overlap_false; cbn; destruct (Hx x Hx'); [left; lia|right; lia]|].
    destruct (H2 r Hr) as (? & ? & ? & Ho). split_and!; [lia|lia|lia|]. intros x [Hx'|Hx']%elem_of_app; [|by apply Ho]. specialize (Hpre x Hx'). apply overlap_false. left. lia.
  - intros n. rewrite covers_cons, H3. unfold in_range at 1. cbn. split.
    + intros [Hn|[Hn Hc]].
      * split; [lia|]. intros (x & Hx' & Hi). unfold in_range in Hi. destruct (Hx x Hx'); lia.
      * split; [lia|]. rewrite covers_app. intros [(x & Hx' & Hi)|?]; [|done]. specialize (Hpre x Hx'). unfold in_range in Hi. lia.
    + intros [Hn Hc]. rewrite covers_app, covers_cons in Hc. unfold in_range at 1 in Hc. destruct (decide (n < start rb)); [left; lia|]. right. split; [lia|]. rewrite covers_cons. unfold in_range at 1. tauto.
Qed.
Lemma difference_range_wp fuel : ∀ from to b out g, laid g b → (∀ l, last out = Some l → end_ l <= from) → (∀ rb, rb ∈ b → start rb ≠ to) → (length (skip_before from b) < fuel)%nat →
  returns (difference_range fuel from to b out) (λ '(b', out'), (∃ pre, b = pre ++ b' ∧ Forall (λ rb, end_ rb <= to) pre) ∧ ∃ new, out' = out ++ new ∧ pieces from to b new).
Proof.
  induction fuel as [|fuel IH]; intros from to b out g Hb Hl Hne Hf; [lia|]. cbn [difference_range]. destruct (Z.ltb_spec from to) as [Hlt|Hge].
  2: { cbn [wp]. split; [by exists []|]. exists []. rewrite app_nil_r. split; [done|]. by apply pieces_nil. }
  destruct (skip_before_spec from b) as (pre & E & Hpre & Hh). assert (Forall (λ rb, end_ rb <= to) pre) as Hpre'. { eapply Forall_impl; [exact Hpre|]. cbn beta. lia. }
  destruct (skip_before from b) as [|rb b''] eqn:Es.
  { rewrite app_nil_r in E. rewrite append_ok by (done || lia). cbn [obind wp]. split; [exists pre; by rewrite app_nil_r|]. exists [Range from to]. split; [done|]. apply pieces_free; [done|].
    intros x Hx. left. rewrite E in Hx. by rewrite Forall_forall in Hpre; apply Hpre. }
  pose proof Hb as Hb'. rewrite E in Hb'. destruct (laid_after _ _ _ Hb') as (q & Hq & _ & _). pose proof Hq as (_ & Hrb & Hq').
  assert (∀ out1, (∀ l, last out1 = Some l → end_ l <= end_ rb) → returns (difference_range fuel (end_ rb) to (rb :: b'') out1) (λ '(b', out'),
    (∃ pre, b = pre ++ b' ∧ Forall (λ rb, end_ rb <= to) pre) ∧ ∃ new, out' = out1 ++ new ∧ pieces (end_ rb) to (rb :: b'') new)) as Hrec.
  { intros out1 Hl1. eapply wp_mono; [|apply (IH (end_ rb) to (rb :: b'') out1 q Hq Hl1)].
    - intros [b' out'] ((pre' & E' & Hp') & Hnew). split; [|done]. exists (pre ++ pre'). split; [by rewrite E, E', app_assoc|by apply Forall_app].
    - intros x Hx. apply Hne. rewrite E. apply elem_of_app. by right.
    - cbn [skip_before length] in *. destruct (Z.leb_spec (end_ rb) (end_ rb)); [|lia]. pose proof (skip_before_length (end_ rb) b''). lia. }
  destruct (Z.ltb_spec to (start rb)) as [Hto|Hto].
  { rewrite append_ok by (done || lia). cbn [obind wp]. split; [by exists pre|]. exists [Range from to]. split; [done|]. apply pieces_free; [done|]. rewrite Forall_forall in Hpre.
    intros x Hx. rewrite E in Hx. apply elem_of_app in Hx as [Hx|[->|Hx]%elem_of_cons]; [left; by apply Hpre|right; lia|right]. destruct (laid_elem _ _ _ Hq' Hx). lia. }
  destruct (Z.leb_spec (start rb) from) as [Hs|Hs].
  { eapply wp_mono; [|apply (Hrec out)]. 2: { intros l Hl'. specialize (Hl l Hl'). lia. } intros [b' out'] (H1 & new & -> & H2). split; [done|]. exists new. split; [done|]. by eapply pieces_skip. }
  destruct (Z.ltb_spec (start rb) to) as [Hst|Hst].
  2: { exfalso. apply (Hne rb); [rewrite E; apply elem_of_app; right; by left|lia]. }
  destruct (Z.ltb_spec from (start rb)); [|lia]. rewrite append_ok by (done || lia). cbn [obind]. eapply wp_mono; [|apply Hrec]. 2: { rewrite last_snoc. intros l [= <-]. cbn. lia. }
  intros [b' out'] (H1 & new & -> & H2). split; [done|]. exists (Range from (start rb) :: new). split; [by rewrite <-app_assoc|]. by eapply pieces_gap.
Qed.
(** The parts of [a] that [b] leaves. *)
Definition parts (p : Z) a b (new : list range) : Prop :=
  laid p new ∧ (∀ r, r ∈ new → start r < end_ r ∧ (∃ ra, ra ∈ a ∧ start ra <= start r ∧ end_ r <= end_ ra) ∧ ∀ rb, rb ∈ b → ranges_overlap rb r = false) ∧
  ∀ n, covers new n ↔ covers a n ∧ ¬ covers b n.
Lemma difference_loop_wp fuel a : ∀ p b out g, laid p a → laid g b → (∀ l, last out = Some l → end_ l <= p) → (∀ ra rb, ra ∈ a → rb ∈ b → start rb ≠ end_ ra) → (length b < fuel)%nat →
  returns (difference_loop fuel a b out) (λ out', ∃ new, out' = out ++ new ∧ parts p a b new).
Proof.
  induction a as [|ra a IH]; intros p b out g Ha Hb Hl Hne Hf; cbn [difference_loop].
  { cbn [wp]. exists []. rewrite app_nil_r. split; [done|]. split_and!; [done|by intros r ?%elem_of_nil|]. intros n. rewrite !covers_nil. tauto. }
  destruct Ha as (Hp & Hra & Ha). apply wp_bind. eapply wp_mono; [|apply (difference_range_wp fuel (start ra) (end_ ra) b out g Hb)].
  2: { intros l Hl'. specialize (Hl l Hl'). lia. }
  2: { intros rb Hrb. apply Hne; [by left|done]. }
  2: { pose proof (skip_before_length (start ra) b). lia. }
  intros [b' out'] ((pre & E & Hpre) & new & -> & (N1 & N2 & N3)). rewrite Forall_forall in Hpre.
  pose proof Hb as Hb'. rewrite E in Hb'. destruct (laid_after _ _ _ Hb') as (g' & Hg' & _).
  eapply wp_mono; [|apply (IH (end_ ra) b' (out ++ new) g' Ha Hg')].
  2: { intros l Hl'. destruct new as [|x new _] using rev_ind; [rewrite app_nil_r in Hl'; specialize (Hl l Hl'); lia|]. rewrite app_assoc, last_snoc in Hl'. injection Hl' as ->. destruct (N2 l) as (_ & _ & ? & _); [set_solver|done]. }
  2: { intros x rb Hx Hrb. apply Hne; [by right|]. rewrite E. apply elem_of_app. by right. }
  2: { rewrite E, length_app in Hf. lia. }
  intros out'' (new' & -> & (M1 & M2 & M3)). exists (new ++ new'). split; [by rewrite app_assoc|].
  assert (∀ x, x ∈ a → end_ ra <= start x) as Hafter. { intros x Hx. by destruct (laid_elem _ _ _ Ha Hx). }
  split_and!.
  - apply laid_app. split; [eapply laid_weaken; [|done]; lia|]. destruct new as [|x new _] using rev_ind; [cbn; eapply laid_weaken; [|done]; lia|]. rewrite last_snoc. eapply laid_weaken; [|done]. destruct (N2 x) as (_ & _ & ? & _); [set_solver|done].
  - intros r [Hr|Hr]%elem_of_app.
    + destruct (N2 r Hr) as (? & ? & ? & ?). split_and!; [done| |done]. exists ra. split_and!; [by left|done|done].
    + destruct (M2 r Hr) as (? & (x & Hx & ? & ?) & Ho). split_and!; [done|exists x; split_and!; [by right|done|done]|]. intros rb Hrb. rewrite E in Hrb. apply elem_of_app in Hrb as [Hrb|Hrb]; [|by apply Ho].
      specialize (Hpre rb Hrb). specialize (Hafter x Hx). apply overlap_false. left. lia.
  - intros n. rewrite covers_app, N3, M3, covers_cons. unfold in_range. split.
    + intros [[? ?]|[(x & Hx & Hi) Hn']]; [tauto|]. specialize (Hafter x Hx). unfold in_range in Hi. split; [right; by exists x|]. rewrite E, covers_app. intros [(rb & Hrb & Hi')|?]; [|done].
      specialize (Hpre rb Hrb). unfold in_range in Hi'. lia.
    + intros [[?|?] Hn']; [tauto|]. right. split; [done|]. rewrite E, covers_app in Hn'. tauto.
Qed.
Lemma range_set_difference_wp p a b g : laid p a → laid g b → (∀ ra rb, ra ∈ a → rb ∈ b → start rb ≠ end_ ra) → returns (range_set_difference a b) (parts p a b).
Proof.
  intros Ha Hb Hne. unfold range_set_difference. eapply wp_mono; [|apply (difference_loop_wp (length b + 2) a p b [] g Ha Hb)]; [|by intros ? ?|done|lia]. by intros out (new & -> & H).
Qed.
(** A range of [b] that starts where the lines to look at end. *)
Lemma difference_range_stuck fuel : ∀ from to b out rb b', skip_before from b = rb :: b' → from < to → start rb = to → difference_range fuel from to b out = NoFuel.
Proof.
  induction fuel as [|fuel IH]; intros from to b out rb b' Es Hlt Hs; [done|]. cbn [difference_range]. destruct (Z.ltb_spec from to); [|lia]. rewrite Es. destruct (Z.ltb_spec to (start rb)); [lia|].
  destruct (Z.leb_spec (start rb) from); [lia|]. destruct (Z.ltb_spec (start rb) to); [lia|]. eapply (IH from to (rb :: b') out rb b'); [|done|done].
  destruct (skip_before_spec from b) as (pre & _ & _ & Hh). rewrite Es in Hh. cbn [skip_before]. destruct (Z.leb_spec (end_ rb) from); [lia|done].
Qed.

(** ** [diff_ranges_filter_touched] *)

(** The hunk overlaps the first range that reaches it. *)
Fixpoint touches rs (t : range) : bool :=
  match rs with
  | [] => false
  | r :: rs => if end_ r <? start t then touches rs t else ranges_overlap t r
  end.
Lemma touch_skip_spec t rs : rs ≠ [] → (touch_skip t rs = Ret None ∧ ∀ t', start t <= start t' → touches rs t' = false) ∨
  ∃ r rs', touch_skip t rs = Ret (Some (r :: rs')) ∧ touches rs t = ranges_overlap t r ∧ ∀ t', start t <= start t' → touches rs t' = touches (r :: rs') t'.
Proof.
  induction rs as [|r rs IH]; intros Hne; [done|]. cbn [touch_skip touches]. destruct (Z.ltb_spec (end_ r) (start t)) as [Hlt|Hge].
  - assert (∀ t', start t <= start t' → (end_ r <? start t') = true) as Hs by (intros; lia). destruct rs as [|r' rs]; [left; split; [done|]; intros t' Ht; by rewrite Hs|].
    destruct IH as [[E H]|(x & rs' & E & H1 & H2)]; [done|left|right].
    + split; [done|]. intros t' Ht. rewrite Hs by done. by apply H.
    + exists x, rs'. split_and!; [done|done|]. intros t' Ht. rewrite Hs by done. by apply H2.
  - right. exists r, rs. split_and!; [done|done|]. intros t' _. done.
Qed.
Definition touched_hunks rs ps ts : list (range * range) := filter (λ h, touches rs h.2 = true) (zip ps ts).
Lemma touched_hunks_cons rs p ps t ts : touched_hunks rs (p :: ps) (t :: ts) = if touches rs t then (p, t) :: touched_hunks rs ps ts else touched_hunks rs ps ts.
Proof. unfold touched_hunks. cbn [zip zip_with]. rewrite filter_cons. cbn [snd]. destruct (touches rs t) eqn:E; by case_decide. Qed.
Lemma touched_loop_wp ts : ∀ ps rs op ot gp gt, rs ≠ [] → length ps = length ts → laid gp ps → laid gt ts → (∀ l, last op = Some l → end_ l <= gp) → (∀ l, last ot = Some l → end_ l <= gt) →
  touched_loop ps ts rs (Diff_ranges op ot) = Ret (Diff_ranges (op ++ (touched_hunks rs ps ts).*1) (ot ++ (touched_hunks rs ps ts).*2)).
Proof.
  induction ts as [|t ts IH]; intros ps rs op ot gp gt Hne Hl Hp Ht Hop Hot; destruct ps as [|p ps]; try done; cbn [touched_loop]. { unfold touched_hunks. cbn. by rewrite !app_nil_r. }
  cbn [length] in Hl. destruct Hp as (Hp1 & Hp2 & Hp), Ht as (Ht1 & Ht2 & Ht). assert (∀ h, h ∈ zip ps ts → start t <= start h.2) as Hlater.
  { intros [x y] Hh. apply elem_of_zip_r in Hh. destruct (laid_elem _ _ _ Ht Hh). cbn. lia. }
  destruct (touch_skip_spec t rs Hne) as [[E Hno]|(r & rs' & E & Htr & Hsame)]; rewrite E; cbn [obind].
  { replace (touched_hunks rs (p :: ps) (t :: ts)) with (@nil (range * range)); [by rewrite !app_nil_r|]. symmetry. rewrite touched_hunks_cons, Hno by lia. unfold touched_hunks.
    apply filter_none_in. intros h Hh. rewrite Hno; [done|by apply Hlater]. }
  assert (touched_hunks rs ps ts = touched_hunks (r :: rs') ps ts) as Eh. { unfold touched_hunks. apply filter_ext_in. intros h Hh. by rewrite Hsame by (by apply Hlater). }
  rewrite touched_hunks_cons, Htr, Eh. destruct (ranges_overlap t r).
  - rewrite append_ok; [|intros l Hl'; cbn [parent] in Hl'; specialize (Hop l Hl'); lia|done]. cbn [obind]. rewrite append_ok; [|intros l Hl'; cbn [target] in Hl'; specialize (Hot l Hl'); lia|done]. cbn [obind parent target].
    rewrite (IH ps (r :: rs') _ _ (end_ p) (end_ t)); [|done|lia|done|done|rewrite last_snoc; by intros ? [= <-]|rewrite last_snoc; by intros ? [= <-]]. cbn [fmap list_fmap fst snd]. rewrite <-!app_assoc. cbn [app]. by destruct p, t.
  - cbn [obind]. apply (IH ps (r :: rs') _ _ (end_ p) (end_ t)); [done|lia|done|done|intros l Hl'; specialize (Hop l Hl'); lia|intros l Hl'; specialize (Hot l Hl'); lia].
Qed.
Lemma laid_sublist p x y : sublist x y → laid p y → laid p x.
Proof.
  intros H. revert p. induction H as [|r x y H IH|r x y H IH]; intros p; cbn [laid]; [done|intros (? & ? & ?); split_and!; [done|done|by apply IH]|].
  intros (? & ? & ?). apply IH. eapply laid_weaken; [|done]. lia.
Qed.
Lemma sublist_zip_fst {A B} (f : A * B → Prop) `{∀ h, Decision (f h)} (x : list A) (y : list B) : sublist (filter f (zip x y)).*1 x.
Proof.
  revert y. induction x as [|a x IH]; intros [|b y]; cbn [zip zip_with]; try apply sublist_nil_l. rewrite filter_cons. case_decide; cbn; [by apply sublist_skip|by apply sublist_cons].
Qed.
Lemma sublist_zip_snd {A B} (f : A * B → Prop) `{∀ h, Decision (f h)} (x : list A) (y : list B) : sublist (filter f (zip x y)).*2 y.
Proof.
  revert y. induction x as [|a x IH]; intros [|b y]; cbn [zip zip_with]; try apply sublist_nil_l. rewrite filter_cons. case_decide; cbn; [by apply sublist_skip|by apply sublist_cons].
Qed.
(** A hunk that starts at the end of a range does not touch. *)
Lemma touches_end p rs t r : laid p rs → r ∈ rs → start r < end_ r → start t = end_ r → touches rs t = false.
Proof.
  revert p. induction rs as [|x rs IH]; intros p Hl Hr Hne Et; [done|]. cbn [laid touches] in *. destruct Hl as (H1 & H2 & H3). apply elem_of_cons in Hr as [->|Hr].
  - destruct (Z.ltb_spec (end_ x) (start t)); [lia|]. apply overlap_false. right. lia.
  - destruct (laid_elem _ _ _ H3 Hr). destruct (Z.ltb_spec (end_ x) (start t)); [by eapply IH|lia].
Qed.
Lemma touches_overlap rs t : touches rs t = true → ∃ r, r ∈ rs ∧ ranges_overlap t r = true.
Proof. induction rs as [|r rs IH]; [done|]. cbn [touches]. destruct (end_ r <? start t); [intros H; destruct (IH H) as (x & ? & ?); exists x; split; [by right|done]|]. intros H. exists r. split; [by left|done]. Qed.
(** Otherwise it touches when it overlaps any range. *)
Lemma overlap_touches rs t r : r ∈ rs → ranges_overlap t r = true → (∀ x, x ∈ rs → end_ x = start t → False) → StronglySorted (λ x y, start x <= start y) rs → touches rs t = true.
Proof.
  induction rs as [|x rs IH]; intros Hr Ho Hno Hs; [by apply elem_of_nil in Hr|]. cbn [touches]. apply StronglySorted_inv in Hs as [Hs Hx]. apply not_false_iff_true. intros E. apply not_false_iff_true in Ho. apply Ho. clear Ho.
  destruct (Z.ltb_spec (end_ x) (start t)).
  - apply elem_of_cons in Hr as [->|Hr]; [apply overlap_false; lia|]. apply not_true_iff_false. intros Ho. rewrite (IH Hr Ho) in E; [done|intros y Hy; apply Hno; by right|done].
  - assert (end_ x ≠ start t) by (intros Ex; by apply (Hno x (list_elem_of_here _ _))). apply overlap_false in E as [E|E]; [|lia]. apply overlap_false. left.
    apply elem_of_cons in Hr as [->|Hr]; [done|]. rewrite Forall_forall in Hx. specialize (Hx r Hr). lia.
Qed.

(** ** [range_set_shift_diff] *)

(** How far the lines from [x] on have moved. *)
Fixpoint offset_at ps ts (x : Z) : Z :=
  match ps, ts with
  | p :: ps, t :: ts => if start t <=? x then (end_ p - start p) - (end_ t - start t) + offset_at ps ts x else 0
  | _, _ => 0
  end.
Lemma offset_0 ps ts x : (∀ t, t ∈ ts → x < start t) → offset_at ps ts x = 0.
Proof. intros H. destruct ps as [|p ps], ts as [|t ts]; try done. cbn. specialize (H t (list_elem_of_here _ _)). destruct (Z.leb_spec (start t) x); [lia|done]. Qed.
Lemma shift_skip_spec from ts : ∀ ps off, length ps = length ts → ∃ ps' ts' off', shift_skip from ps ts off = Ret (ps', ts', off') ∧ length ps' = length ts' ∧
  off' = off + offset_at ps ts from ∧ ∀ x, from <= x → off + offset_at ps ts x = off' + offset_at ps' ts' x.
Proof.
  induction ts as [|t ts IH]; intros ps off Hl; destruct ps as [|p ps]; try done; cbn [shift_skip offset_at].
  { eexists [], [], off. split_and!; [done|done|lia|done]. }
  destruct (Z.leb_spec (start t) from) as [Hle|Hgt].
  - destruct (IH ps (off + ((end_ p - start p) - (end_ t - start t))) ltac:(cbn in Hl; lia)) as (ps' & ts' & off' & E & H1 & H2 & H3). exists ps', ts', off'. split_and!; [done|done|lia|].
    intros x Hx. destruct (Z.leb_spec (start t) x); [|lia]. specialize (H3 x Hx). lia.
  - exists (p :: ps), (t :: ts), off. split_and!; [done|done|lia|done].
Qed.
Definition shifted ps ts r : range := Range (start r + offset_at ps ts (start r)) (end_ r + offset_at ps ts (start r)).
Lemma shift_ranges_wp src : ∀ ps ts off out q, length ps = length ts → StronglySorted (λ x y, start x <= start y) src → laid q ((λ r, Range (start r + (off + offset_at ps ts (start r))) (end_ r + (off + offset_at ps ts (start r)))) <$> src) →
  (∀ l, last out = Some l → end_ l <= q) → shift_loop src ps ts off out = Ret (out ++ ((λ r, Range (start r + (off + offset_at ps ts (start r))) (end_ r + (off + offset_at ps ts (start r)))) <$> src)).
Proof.
  induction src as [|s src IH]; intros ps ts off out q Hl Hs Hq Hlast; cbn [shift_loop]; [by rewrite app_nil_r|]. apply StronglySorted_inv in Hs as [Hs Hsx]. rewrite Forall_forall in Hsx.
  destruct (shift_skip_spec (start s) ts ps off Hl) as (ps' & ts' & off' & E & Hl' & Eo & Hx). rewrite E. cbn [obind]. cbn [fmap list_fmap laid start end_] in Hq. destruct Hq as (Hq1 & Hq2 & Hq3).
  rewrite <-Eo in *. rewrite append_ok; [|intros l Hl2; specialize (Hlast l Hl2); lia|lia]. cbn [obind].
  assert ((λ r, Range (start r + (off' + offset_at ps' ts' (start r))) (end_ r + (off' + offset_at ps' ts' (start r)))) <$> src =
          (λ r, Range (start r + (off + offset_at ps ts (start r))) (end_ r + (off + offset_at ps ts (start r)))) <$> src) as Ef.
  { apply fmap_ext_in. intros r Hr. by rewrite (Hx (start r)) by (by apply Hsx). }
  rewrite (IH ps' ts' off' _ (end_ s + off')); [|done|done|by rewrite Ef|rewrite last_snoc; by intros ? [= <-]]. rewrite Ef, <-app_assoc. cbn [fmap list_fmap app]. by rewrite Eo.
Qed.
Lemma shift_diff_wp rs d q : length (parent d) = length (target d) → StronglySorted (λ x y, start x <= start y) rs → laid q (shifted (parent d) (target d) <$> rs) →
  range_set_shift_diff rs d = Ret (shifted (parent d) (target d) <$> rs).
Proof. intros Hl Hs Hq. unfold range_set_shift_diff. by apply (shift_ranges_wp rs (parent d) (target d) 0 [] q). Qed.

(** A diff: the hunks of the two sides in order, from line [p1] and [p2] on, the
    same number of lines in front of both. *)
Fixpoint hunks_ok (p1 p2 : Z) ps ts : Prop :=
  match ps, ts with
  | [], [] => True
  | p :: ps, t :: ts => p1 <= start p ∧ start p - p1 = start t - p2 ∧ start p <= end_ p ∧ start t <= end_ t ∧ hunks_ok (end_ p) (end_ t) ps ts
  | _, _ => False
  end.
Lemma hunks_laid p1 p2 ps ts : hunks_ok p1 p2 ps ts → laid p1 ps ∧ laid p2 ts ∧ length ps = length ts.
Proof.
  revert p1 p2 ts. induction ps as [|p ps IH]; intros p1 p2 [|t ts]; cbn [hunks_ok laid length]; try done. intros (H1 & H2 & H3 & H4 & H5). destruct (IH _ _ _ H5) as (? & ? & ?). split_and!; try done; lia.
Qed.
Lemma offset_lower ps ts e y : ∀ g g', laid g' ps → laid g ts → length ps = length ts → e <= g → e <= y → (∀ t, t ∈ ts → start t <= y → end_ t <= y) → e - y <= offset_at ps ts y.
Proof.
  revert e ps. induction ts as [|t ts IH]; intros e ps g g' Hp Ht Hl Heg Hey Hin; destruct ps as [|p ps]; cbn [offset_at laid length] in *; try lia.
  destruct Hp as (? & ? & Hp), Ht as (? & ? & Ht). destruct (Z.leb_spec (start t) y); [|lia]. pose proof (Hin t (list_elem_of_here _ _) ltac:(done)).
  pose proof (IH (end_ t) ps (end_ t) _ Hp Ht ltac:(lia) ltac:(lia) ltac:(lia) ltac:(intros x Hx; apply Hin; by right)). lia.
Qed.
(** Lines keep their order when no hunk lies within the first range or around
    the second. *)
Lemma offset_gap ps ts x e y : ∀ g g', laid g' ps → laid g ts → length ps = length ts → x <= e <= y → (∀ t, t ∈ ts → start t <= x ∨ e <= start t) → (∀ t, t ∈ ts → start t <= y → end_ t <= y) →
  e + offset_at ps ts x <= y + offset_at ps ts y.
Proof.
  revert ps. induction ts as [|t ts IH]; intros ps g g' Hp Ht Hl Hxe Hc Hin; destruct ps as [|p ps]; cbn [offset_at laid length] in *; try lia.
  destruct Hp as (? & ? & Hp), Ht as (? & ? & Ht). destruct (Z.leb_spec (start t) x).
  - destruct (Z.leb_spec (start t) y); [|lia]. pose proof (IH ps (end_ t) _ Hp Ht ltac:(lia) Hxe ltac:(intros z Hz; apply Hc; by right) ltac:(intros z Hz; apply Hin; by right)). lia.
  - destruct (Hc t (list_elem_of_here _ _)); [lia|]. pose proof (offset_lower (p :: ps) (t :: ts) e y e (start p)) as L. cbn [offset_at laid length] in L.
    pose proof (L ltac:(split_and!; lia || done) ltac:(split_and!; lia || done) ltac:(lia) ltac:(lia) ltac:(lia) Hin). lia.
Qed.
Lemma offset_const ps ts x m : ∀ g, laid g ts → x <= m → (∀ t, t ∈ ts → start t <= x ∨ m < start t) → offset_at ps ts m = offset_at ps ts x.
Proof.
  revert ps. induction ts as [|t ts IH]; intros ps g Ht Hxm Hc; destruct ps as [|p ps]; cbn [offset_at laid] in *; try done. destruct Ht as (_ & _ & Ht).
  destruct (Hc t (list_elem_of_here _ _)); destruct (Z.leb_spec (start t) m), (Z.leb_spec (start t) x); try lia. f_equal. eapply IH; [done|done|]. intros z Hz. apply Hc. by right.
Qed.
(** ** Ranges that no hunk overlaps *)
Section clear.
Context (ps ts : list range) (Hh : hunks_ok 0 0 ps ts).
Definition clear_of (s : range) : Prop := start s < end_ s ∧ ∀ t, t ∈ ts → ranges_overlap t s = false.

Lemma clear_hunk s t : clear_of s → t ∈ ts → (start t <= start s ∧ end_ t <= start s) ∨ end_ s <= start t.
Proof using Hh.
  intros [Hs Hc] Ht. specialize (Hc t Ht). apply overlap_false in Hc as [Hc|Hc]; [left|by right]. destruct (hunks_laid _ _ _ _ Hh) as (_ & Hl & _). destruct (laid_elem _ _ _ Hl Ht). lia.
Qed.
Lemma shifted_laid src : ∀ x e, laid e src → Forall clear_of src → x <= e → (∀ t, t ∈ ts → start t <= x ∨ e <= start t) → laid (e + offset_at ps ts x) (shifted ps ts <$> src).
Proof using Hh.
  destruct (hunks_laid _ _ _ _ Hh) as (Hp & Ht & Hl). induction src as [|s src IH]; intros x e Hs Hc Hxe Hx; cbn [fmap list_fmap laid shifted start end_]; [done|].
  destruct Hs as (H1 & H2 & H3). apply Forall_cons in Hc as [Hcs Hc]. split_and!; [|lia|apply IH; [done|done|done|]].
  - apply (offset_gap ps ts x e (start s) 0 0); [done|done|done|lia|done|]. intros t Ht' Hst. destruct (clear_hunk s t Hcs Ht') as [?|?]; [tauto|]. destruct Hcs. lia.
  - intros t Ht'. destruct (clear_hunk s t Hcs Ht') as [?|?]; [left; tauto|by right].
Qed.
Lemma shifted_laid_0 src : laid 0 src → Forall clear_of src → laid 0 (shifted ps ts <$> src).
Proof using Hh.
  intros Hs Hc. destruct (hunks_laid _ _ _ _ Hh) as (_ & Ht & _). assert (∀ t, t ∈ ts → 0 <= start t) as H0. { intros t Ht'. by destruct (laid_elem _ _ _ Ht Ht'). }
  pose proof (shifted_laid src (-1) 0 Hs Hc ltac:(lia) ltac:(intros t Ht'; right; by apply H0)) as H. rewrite offset_0 in H; [done|]. intros t Ht'. specialize (H0 t Ht'). lia.
Qed.
Lemma covers_shifted src n : Forall clear_of src → covers (shifted ps ts <$> src) n ↔ ∃ m, covers src m ∧ n = m + offset_at ps ts m.
Proof using Hh.
  intros Hc. rewrite Forall_forall in Hc. destruct (hunks_laid _ _ _ _ Hh) as (_ & Ht & _).
  assert (∀ s m, s ∈ src → in_range s m → offset_at ps ts m = offset_at ps ts (start s)) as Ho.
  { intros s m Hs Hi. unfold in_range in Hi. eapply offset_const; [done|lia|]. intros t Ht'. destruct (clear_hunk s t (Hc s Hs) Ht') as [?|?]; [left; tauto|right; lia]. }
  split.
  - intros (r & Hr & Hi). apply list_elem_of_fmap in Hr as (s & -> & Hs). unfold in_range in Hi. cbn in Hi. exists (n - offset_at ps ts (start s)). assert (in_range s (n - offset_at ps ts (start s))) as Hm by (unfold in_range; lia).
    split; [by exists s|]. rewrite (Ho s _ Hs Hm). lia.
  - intros (m & (s & Hs & Hi) & ->). exists (shifted ps ts s). split; [apply list_elem_of_fmap; by exists s|]. rewrite (Ho s m Hs Hi). unfold in_range in *. cbn. lia.
Qed.
End clear.

(** ** [range_set_map_across_diff] *)
Section mapping.
Context (rs : list range) (Hrs : canon (-1) rs) (Hne : rs ≠ []).
Context (d : diff_ranges) (Hh : hunks_ok 0 0 (parent d) (target d)).
(** No hunk starts where a range ends and overlaps another range. *)
Definition apart : Prop := ∀ t x r, t ∈ target d → x ∈ rs → r ∈ rs → end_ x = start t → ranges_overlap t r = false.
Definition overlapped : list (range * range) := filter (λ h, existsb (ranges_overlap h.2) rs = true) (zip (parent d) (target d)).
(** The line of the parent for a line that is not in a hunk. *)
Definition image (m : Z) : Z := m + offset_at (parent d) (target d) m.

Lemma touches_iff t : apart → t ∈ target d → touches rs t = existsb (ranges_overlap t) rs.
Proof using Hrs.
  intros Hap Ht. apply eq_true_iff_eq. rewrite existsb_exists. setoid_rewrite <-list_elem_of_In. split; [apply touches_overlap|]. intros (r & Hr & Ho).
  apply (overlap_touches rs t r Hr Ho); [|eapply laid_starts, (canon_laid (-1) 0); [lia|done]]. intros x Hx E. rewrite (Hap t x r Ht Hx Hr E) in Ho. done.
Qed.
Lemma target_touched t rs' : t ∈ target d → touches rs' t = true → t ∈ (touched_hunks rs' (parent d) (target d)).*2.
Proof using Hh.
  intros Ht Hto. destruct (hunks_laid _ _ _ _ Hh) as (_ & _ & Hl). apply list_elem_of_lookup in Ht as [i Hi]. destruct (lookup_lt_is_Some_2 (parent d) i) as [p Hp]; [rewrite Hl; by eapply lookup_lt_Some|].
  apply list_elem_of_fmap. exists (p, t). split; [done|]. apply list_elem_of_filter. split; [done|]. apply (list_elem_of_lookup_2 _ i). by apply lookup_zip_Some.
Qed.
Lemma touched_target t rs' : t ∈ (touched_hunks rs' (parent d) (target d)).*2 → t ∈ target d ∧ touches rs' t = true.
Proof. intros ([p t'] & -> & Hh')%list_elem_of_fmap. apply list_elem_of_filter in Hh' as [H1 H2]. split; [by eapply elem_of_zip_r|done]. Qed.
Lemma map_across_diff_wp : apart → returns (range_set_map_across_diff rs d) (λ '(out, touched), touched = Diff_ranges overlapped.*1 overlapped.*2 ∧ canon (-1) out ∧
  ∀ n, covers out n ↔ (∃ m, covers rs m ∧ ¬ covers (target d) m ∧ n = image m) ∨ covers overlapped.*1 n).
Proof using Hrs Hne Hh.
  intros Hap. destruct (hunks_laid _ _ _ _ Hh) as (Hp & Ht & Hl). assert (laid 0 rs) as Hlr. { eapply canon_laid; [|done]. lia. }
  unfold range_set_map_across_diff, diff_ranges_filter_touched. rewrite (touched_loop_wp (target d) (parent d) rs [] [] 0 0) by done. cbn [obind app parent target].
  set (hs := touched_hunks rs (parent d) (target d)).
  assert (hs = overlapped) as Eh. { unfold hs, touched_hunks, overlapped. apply filter_ext_in. intros h Hh'. rewrite touches_iff; [done|done|]. destruct h as [x y]. by eapply elem_of_zip_r. }
  assert (laid 0 hs.*1) as L1 by (by eapply laid_sublist; [apply sublist_zip_fst|]). assert (laid 0 hs.*2) as L2 by (by eapply laid_sublist; [apply sublist_zip_snd|]).
  apply wp_bind. eapply wp_mono; [|apply (range_set_difference_wp 0 rs hs.*2 0 Hlr L2)].
  2: { intros ra rb Hra Hrb E. apply touched_target in Hrb as [_ Hto]. rewrite (touches_end 0 rs rb ra) in Hto; [done|done|done|by eapply canon_starts|done]. }
  intros tmp1 (P1 & P2 & P3). assert (Forall (clear_of (target d)) tmp1) as Hc.
  { apply Forall_forall. intros s Hs. destruct (P2 s Hs) as (Hs1 & (ra & Hra & Hs2 & Hs3) & Hs4). split; [done|]. intros t Ht'. destruct (touches rs t) eqn:Eto; [by apply Hs4, target_touched|].
    rewrite touches_iff in Eto by done. assert (ranges_overlap t ra = false) as Ho. { apply not_true_iff_false. intros Ho. apply not_true_iff_false in Eto. apply Eto, existsb_exists. exists ra. split; [by apply list_elem_of_In|done]. }
    apply overlap_false in Ho. apply overlap_false. lia. }
  rewrite (shift_diff_wp tmp1 d 0); [|done|by eapply laid_starts|by apply shifted_laid_0]. cbn [obind]. apply wp_bind. eapply wp_mono; [|apply (range_set_union_wp 0); [by apply shifted_laid_0|done]].
  intros out [H1 H2]. cbn [wp]. split_and!; [by rewrite Eh|done|]. intros n. rewrite H2, (covers_shifted (parent d) (target d) Hh) by done. rewrite Eh. apply or_iff_compat_r. apply exist_proper. intros m. rewrite P3. unfold image. split.
  - intros [[Hm Hnt] E]. split_and!; [done| |done]. intros (t & Ht' & Hi). apply Hnt. exists t. split; [|done]. apply target_touched; [done|]. rewrite touches_iff by done. destruct Hm as (r & Hr & Hi').
    apply existsb_exists. exists r. split; [by apply list_elem_of_In|]. unfold ranges_overlap, in_range in *. lia.
  - intros (Hm & Hnt & E). split; [split; [done|]|done]. intros (t & Ht' & Hi). apply Hnt. exists t. split; [|done]. by apply touched_target in Ht' as [? _].
Qed.
End mapping.
End LineLogSpec.
