(* ===== verification/LineLogTheorems.v ===== *)
(** * Following lines through history: the diff, several files, the theorems *)
From stdpp Require Import prelude sorting.
From S2P Require Import Prelude Order XdlUtils XdlSplit XdlDiff XdlPrepare XdlCompact XdlMyers XdlScript XdlEmit LineLog LineLogSpec.
Import XdlUtils XdlDiff XdlPrepare XdlCompact XdlMyers XdlScript XdlEmit LineLog LineLogSpec.

Module LineLogTheorems.

(** ** The common tail *)
Lemma lines_from_app cur a t : last (cur ++ a) = Some 10 → a ≠ [] → lines_from cur (a ++ t) = lines_from cur a ++ lines_from [] t.
Proof.
  revert cur. induction a as [|c a IH]; intros cur Hl Hne; [done|]. cbn [app lines_from]. destruct (Z.eqb_spec c 10) as [->|Hc].
  - destruct a as [|c' a]; [done|]. cbn [app]. f_equal. apply (IH []); [|done]. rewrite last_app in Hl. change (last (10 :: c' :: a)) with (last (c' :: a)) in Hl. cbn [app].
    destruct (last (c' :: a)) eqn:E; [done|by apply last_None in E].
  - destruct a as [|c' a]; [rewrite last_snoc in Hl; congruence|]. apply IH; [by rewrite <-app_assoc|done].
Qed.
Lemma split_lines_app a t : t = [] ∨ last a = Some 10 → split_lines (a ++ t) = split_lines a ++ split_lines t.
Proof.
  intros [->|H]; [by rewrite !app_nil_r|]. unfold split_lines. apply lines_from_app; [done|]. by intros ->.
Qed.
Definition tail_of (a : list Z) (k : Z) : list Z := zdrop (zlen a - k) a.
Lemma trim_blocks_wp fuel a b : ∀ trimmed, 0 <= trimmed <= Z.min (zlen a) (zlen b) → tail_of a trimmed = tail_of b trimmed → zlen a - trimmed < Z.of_nat fuel →
  returns (trim_blocks fuel a b trimmed) (λ k, 0 <= k <= Z.min (zlen a) (zlen b) ∧ tail_of a k = tail_of b k).
Proof.
  induction fuel as [|fuel IH]; intros k Hk Ht Hf; [lia|]. cbn [trim_blocks]. destruct (Z.leb_spec (1024 + k) (Z.min (zlen a) (zlen b))); [|by cbn [wp]].
  assert (∀ l, 1024 + k <= zlen l → l = ztake (zlen l - k - 1024) l ++ zslice (zlen l - k - 1024) 1024 l ++ tail_of l k) as Hsp.
  { intros l Hl. unfold tail_of, zslice. rewrite <-(ztake_zdrop (zlen l - k - 1024) l) at 1. f_equal. rewrite <-(ztake_zdrop 1024 (zdrop (zlen l - k - 1024) l)) at 1. f_equal. rewrite zdrop_zdrop by lia. f_equal. lia. }
  assert (∀ l, 1024 + k <= zlen l → rd_range l (zlen l - k - 1024) 1024 = Ret (zslice (zlen l - k - 1024) 1024 l) ∧ tail_of l (k + 1024) = zslice (zlen l - k - 1024) 1024 l ++ tail_of l k) as Hrd.
  { intros l Hl. assert (zlen (zslice (zlen l - k - 1024) 1024 l) = 1024) as E1 by (apply zlen_zslice; lia). split.
    - apply (rd_range_at l (ztake (zlen l - k - 1024) l) _ (tail_of l k)); [by apply Hsp|rewrite zlen_ztake; lia|lia].
    - unfold tail_of at 1. replace (zlen l - (k + 1024)) with (zlen l - k - 1024) by lia. rewrite (Hsp l Hl) at 2. apply zdrop_app_len'. rewrite zlen_ztake; lia. }
  destruct (Hrd a ltac:(lia)) as [-> Ta], (Hrd b ltac:(lia)) as [-> Tb]. cbn [obind]. case_bool_decide as E; [|by cbn [wp]]. apply IH; [lia| |lia]. by rewrite Ta, Tb, E, Ht.
Qed.
Lemma trim_recover_spec tail : ∀ k, let k' := trim_recover tail k in k <= k' <= k + zlen tail ∧ (k' = k + zlen tail ∨ (k < k' ∧ znth tail (k' - 1 - k) = Some 10)).
Proof.
  induction tail as [|c tail IH]; intros k; cbn [trim_recover]; [change (zlen (@nil Z)) with 0; lia|]. rewrite zlen_cons. zlen_pos. destruct (Z.eqb_spec c 10) as [->|].
  - split; [lia|]. right. split; [lia|]. replace (k + 1 - 1 - k) with 0 by lia. done.
  - specialize (IH (k + 1)). cbn zeta in *. destruct IH as [H1 H2]. split; [lia|]. destruct H2 as [?|[H2 H3]]; [left; lia|right]. split; [lia|]. rewrite znth_cons by lia. rewrite <-H3. f_equal. lia.
Qed.
Lemma trim_common_tail_wp a b : returns (trim_common_tail a b) (λ '(a', b'), ∃ t, a = a' ++ t ∧ b = b' ++ t ∧ (t = [] ∨ (last a' = Some 10 ∧ last b' = Some 10))).
Proof.
  unfold trim_common_tail. apply wp_bind. eapply wp_mono; [|apply (trim_blocks_wp (S (length a)) a b 0)]; [|pose proof (zlen_nonneg a); pose proof (zlen_nonneg b); lia|unfold tail_of; by rewrite !Z.sub_0_r, !zdrop_all by lia|unfold zlen; lia].
  intros k [Hk Ht]. cbn [wp]. fold (tail_of a k). set (tl := tail_of a k) in *. assert (zlen tl = k) as El. { unfold tl, tail_of. rewrite zlen_zdrop by lia. lia. }
  pose proof (trim_recover_spec tl 0) as [H1 H2]. set (rec := trim_recover tl 0) in *. assert (∀ l, 0 <= k <= zlen l → tail_of l k = tl →
    l = ztake (zlen l - (k - rec)) l ++ zdrop rec tl ∧ (zdrop rec tl = [] ∨ last (ztake (zlen l - (k - rec)) l) = Some 10)) as Hl.
  { intros l Hl E. assert (l = ztake (zlen l - k) l ++ tl) as Es. { rewrite <-E. unfold tail_of. by rewrite ztake_zdrop. }
    assert (zlen (ztake (zlen l - k) l) = zlen l - k) as Ez by (rewrite zlen_ztake; lia). assert (ztake (zlen l - (k - rec)) l = ztake (zlen l - k) l ++ ztake rec tl) as Et.
    { rewrite Es at 1 2. rewrite <-(ztake_zdrop rec tl) at 2. rewrite app_assoc. apply ztake_app_len'. rewrite !zlen_app, Ez, El. rewrite zlen_ztake by lia. lia. }
    split; [rewrite Et, <-app_assoc, ztake_zdrop; done|]. destruct H2 as [H2|[H2 H3]]; [left; apply zdrop_all; lia|right]. rewrite Et. replace rec with (rec - 1 + 1) by lia. rewrite Z.sub_0_r in H3. rewrite (ztake_succ tl (rec - 1) 10) by (done || lia).
    by rewrite app_assoc, last_snoc. }
  destruct (Hl a ltac:(lia) eq_refl) as [Ea Ha], (Hl b ltac:(lia) (eq_sym Ht)) as [Eb Hb]. exists (zdrop rec tl). split_and!; [done|done|]. destruct Ha; [by left|]. destruct Hb; [by left|by right].
Qed.

(** ** The hunks of a script *)
Definition side1 (c : xdchange_t) : range := Range (i1 c) (i1 c + chg1 c).
Definition side2 (c : xdchange_t) : range := Range (i2 c) (i2 c + chg2 c).
Lemma call_hunk_func_ok n1 n2 fuel xscr : ∀ g p1 p2, script_ok g p1 p2 n1 n2 xscr → Forall (λ c, ignore c = false) xscr → (length xscr < fuel)%nat →
  xdl_call_hunk_func (Xdemitconf 0 0 0 None false) fuel xscr = Ret ((λ c, (i1 c, chg1 c, i2 c, chg2 c)) <$> xscr).
Proof.
  revert xscr. induction fuel as [|fuel IH]; intros xscr g p1 p2 Hs Hi Hf; [lia|]. destruct xscr as [|c xscr]; [done|]. cbn [xdl_call_hunk_func]. apply Forall_cons in Hi as [Hc Hi]. cbn [script_ok] in Hs. destruct Hs as (H1 & H2 & H3 & H4 & H5 & Hs).
  assert (xdl_get_hunk (c :: xscr) (Xdemitconf 0 0 0 None false) = (c :: xscr, c :: xscr)) as ->.
  { unfold xdl_get_hunk. cbn [skip_ignorable]. rewrite Hc. f_equal. destruct xscr as [|c' xscr]; [done|]. cbn [hunk_loop ctxlen interhunkctxlen]. change (2 * 0 + 0) with 0. unfold distance. cbn [script_ok] in Hs. destruct (Z.ltb_spec 0 (i1 c' - (i1 c + chg1 c))); [done|lia]. }
  rewrite (IH xscr 1 _ _ Hs Hi ltac:(cbn in Hf; lia)). cbn [obind fmap list_fmap]. by replace (i1 c + chg1 c - i1 c) with (chg1 c) by lia; replace (i2 c + chg2 c - i2 c) with (chg2 c) by lia.
Qed.
Lemma collect_loop_ok n1 n2 xscr : ∀ g p1 p2 d, script_ok g p1 p2 n1 n2 xscr → 0 <= g → (∀ l, last (parent d) = Some l → end_ l <= p1) → (∀ l, last (target d) = Some l → end_ l <= p2) →
  collect_loop d ((λ c, (i1 c, chg1 c, i2 c, chg2 c)) <$> xscr) = Ret (Diff_ranges (parent d ++ (side1 <$> xscr)) (target d ++ (side2 <$> xscr))).
Proof.
  induction xscr as [|c xscr IH]; intros g p1 p2 d Hs Hg Hp Ht; cbn [fmap list_fmap collect_loop]; [rewrite !app_nil_r; by destruct d|]. cbn [script_ok] in Hs. destruct Hs as (H1 & H2 & H3 & H4 & H5 & Hs).
  unfold collect_diff_cb. destruct (Z.leb_spec 0 (chg1 c)); [|lia]. destruct (Z.leb_spec 0 (chg2 c)); [|lia]. rewrite append_ok; [|intros l Hl; specialize (Hp l Hl); lia|lia]. cbn [obind].
  rewrite append_ok; [|intros l Hl; specialize (Ht l Hl); lia|lia]. cbn [obind]. rewrite (IH 1 (i1 c + chg1 c) (i2 c + chg2 c)); [|done|lia|cbn [parent]; rewrite last_snoc; by intros ? [= <-]|cbn [target]; rewrite last_snoc; by intros ? [= <-]].
  cbn [parent target]. by rewrite <-!app_assoc.
Qed.
Lemma script_hunks n1 n2 xscr : ∀ g p1 p2, 0 <= g → script_ok g p1 p2 n1 n2 xscr → hunks_ok p1 p2 (side1 <$> xscr) (side2 <$> xscr).
Proof.
  induction xscr as [|c xscr IH]; intros g p1 p2 Hg; cbn [fmap list_fmap hunks_ok script_ok side1 side2 start end_]; [done|]. intros (H1 & H2 & H3 & H4 & H5 & Hs). split_and!; [lia|lia|lia|lia|]. by apply (IH 1).
Qed.
(** With more common lines behind. *)
Lemma script_ok_more n1 n2 xscr k : 0 <= k → ∀ g p1 p2, script_ok g p1 p2 n1 n2 xscr → script_ok g p1 p2 (n1 + k) (n2 + k) xscr.
Proof. intros Hk. induction xscr as [|c xscr IH]; intros g p1 p2; cbn [script_ok]; [lia|]. intros (? & ? & ? & ? & ? & ?). split_and!; try done. by apply IH. Qed.
Lemma script_within n1 n2 xscr : ∀ g p1 p2, 0 <= g → script_ok g p1 p2 n1 n2 xscr → p1 <= n1 ∧ p2 <= n2.
Proof. induction xscr as [|c xscr IH]; intros g p1 p2 Hg; cbn [script_ok]; [lia|]. intros (? & ? & ? & ? & ? & Hs). destruct (IH 1 _ _ ltac:(lia) Hs). lia. Qed.
Lemma zslice_app_l {A} (l t : list A) from len : 0 <= from → 0 <= len → from + len <= zlen l → zslice from len (l ++ t) = zslice from len l.
Proof.
  intros H1 H2 H3. unfold zslice. rewrite zdrop_app_le by lia. unfold ztake. apply take_app_le. unfold zdrop. rewrite length_drop. unfold zlen in H3. lia.
Qed.
Lemma apply_more {A} (l1 l2 t : list A) xscr : ∀ g p1 p2, 0 <= p1 → 0 <= p2 → 0 <= g → script_ok g p1 p2 (zlen l1) (zlen l2) xscr → apply_from (l1 ++ t) (l2 ++ t) p1 xscr = apply_from l1 l2 p1 xscr ++ t.
Proof.
  induction xscr as [|c xscr IH]; intros g p1 p2 Hp1 Hp2 Hg; cbn [apply_from script_ok]; [intros [? ?]; rewrite zdrop_app_le by lia; done|]. intros (H1 & H2 & H3 & H4 & H5 & Hs). destruct (script_within _ _ _ 1 _ _ ltac:(lia) Hs).
  rewrite !zslice_app_l by lia. rewrite (IH 1 _ (i2 c + chg2 c)) by (done || lia). by rewrite <-!app_assoc.
Qed.
(** A line outside the hunks is the same line of the other file. *)
Lemma apply_image {A} (l1 l2 : list A) xscr : ∀ g p1 p2, 0 <= p1 → 0 <= p2 → 0 <= g → script_ok g p1 p2 (zlen l1) (zlen l2) xscr → apply_from l1 l2 p1 xscr = zdrop p2 l2 →
  ∀ m, p2 <= m < zlen l2 → ¬ covers (side2 <$> xscr) m → znth l1 (m - p2 + p1 + offset_at (side1 <$> xscr) (side2 <$> xscr) m) = znth l2 m.
Proof.
  induction xscr as [|c xscr IH]; intros g p1 p2 Hp1 Hp2 Hg; cbn [apply_from script_ok fmap list_fmap offset_at].
  { intros Hs E m Hm _. rewrite Z.add_0_r. replace (znth l2 m) with (znth (zdrop p2 l2) (m - p2)) by (rewrite znth_zdrop by lia; f_equal; lia). rewrite <-E, znth_zdrop by lia. f_equal. lia. }
  intros (H1 & H2 & H3 & H4 & H5 & Hs) E m Hm Hc. destruct (script_within _ _ _ 1 _ _ ltac:(lia) Hs) as [B1 B2]. rewrite covers_cons in Hc. unfold in_range in Hc. cbn [side2 side1 start end_] in *.
  assert (zlen (zslice p1 (i1 c - p1) l1) = i1 c - p1) as Z1 by (apply zlen_zslice; lia). assert (zlen (zslice (i2 c) (chg2 c) l2) = chg2 c) as Z2 by (apply zlen_zslice; lia).
  destruct (Z.leb_spec (i2 c) m) as [Hle|Hgt].
  - replace (m - p2 + p1 + (i1 c + chg1 c - i1 c - (i2 c + chg2 c - i2 c) + offset_at (side1 <$> xscr) (side2 <$> xscr) m)) with (m - (i2 c + chg2 c) + (i1 c + chg1 c) + offset_at (side1 <$> xscr) (side2 <$> xscr) m) by lia.
    apply (IH 1); [lia|lia|lia|done| |lia|tauto]. pose proof (f_equal (zdrop (i2 c + chg2 c - p2)) E) as E'. rewrite zdrop_zdrop in E' by lia. rewrite app_assoc in E'. rewrite zdrop_app_len' in E' by (rewrite zlen_app; lia). rewrite E'. f_equal. lia.
  - rewrite Z.add_0_r. replace (znth l2 m) with (znth (zdrop p2 l2) (m - p2)) by (rewrite znth_zdrop by lia; f_equal; lia). rewrite <-E, znth_app_l by lia. unfold zslice. rewrite znth_ztake, znth_zdrop by lia. f_equal. lia.
Qed.
Lemma collect_diff_wp malloc pf tf : malloc_ok malloc → zlen pf < 2 ^ 29 - 4 → zlen tf < 2 ^ 29 - 4 → returns (collect_diff malloc pf tf) (λ r, ∃ d, r = Some d ∧ hunks_ok 0 0 (parent d) (target d) ∧
  ∀ m, 0 <= m < zlen (split_lines tf) → ¬ covers (target d) m → znth (split_lines pf) (image d m) = znth (split_lines tf) m).
Proof.
  intros Hmal Hp Ht. unfold collect_diff, xdi_diff. assert (MAX_XDIFF_SIZE = 2 ^ 30 - 2 ^ 20) as EM by done. destruct (Z.ltb_spec MAX_XDIFF_SIZE (zlen pf)); [lia|]. destruct (Z.ltb_spec MAX_XDIFF_SIZE (zlen tf)); [lia|]. cbn [orb].
  apply wp_bind, wp_bind. eapply wp_mono; [|apply trim_common_tail_wp]. intros [a b] (t & Ea & Eb & Htl). assert (zlen a <= zlen pf ∧ zlen b <= zlen tf) as [La Lb]. { rewrite Ea, Eb, !zlen_app. zlen_pos; lia. }
  pose proof (diff_script_wp malloc a b 0 [] Hmal ltac:(lia) ltac:(lia) ltac:(left; reflexivity)) as W. apply wp_bind. eapply wp_mono; [|exact W]. clear W. intros [[[x1 x2] xscr]|]; [|intros Hx; by vm_compute in Hx].
  intros Hs. pose proof (script_exact a b 0 x1 x2 xscr eq_refl Hs) as Hap. destruct Hs as [_ [N1 N2] Hso _ Hall]. rewrite N1, N2 in Hso.
  rewrite (call_hunk_func_ok _ _ (S (length xscr)) xscr 0 0 0 Hso Hall ltac:(lia)). cbn [obind wp]. rewrite (collect_loop_ok _ _ xscr 0 0 0 _ Hso ltac:(lia)) by done. cbn [obind wp parent target app].
  eexists. split; [done|]. split; [by eapply (script_hunks _ _ xscr 0)|]. intros m Hm Hc. cbn [parent target] in *. unfold image. cbn [parent target].
  assert (split_lines pf = split_lines a ++ split_lines t ∧ split_lines tf = split_lines b ++ split_lines t) as [E1 E2]. { rewrite Ea, Eb. split; apply split_lines_app; destruct Htl as [?|[? ?]]; auto. }
  rewrite E1, E2 in *. pose proof (apply_image (split_lines a ++ split_lines t) (split_lines b ++ split_lines t) xscr 0 0 0 ltac:(lia) ltac:(lia) ltac:(lia)) as Him. rewrite <-(Him ltac:(rewrite !zlen_app; apply script_ok_more; [zlen_pos; lia|done])); [f_equal; lia| |done|done].
  rewrite zdrop_0. rewrite (apply_more _ _ _ _ 0 0 0) by (done || lia). f_equal. exact Hap.
Qed.

(** ** Several files *)
Implicit Types (l : list line_log_data).
Definition by_path l : Prop := StronglySorted (λ x y, memcmp (path x) (path y) < 0) l.
(** Line [n] of the file [p] is followed. *)
Definition followed l (p : list Z) (n : Z) : Prop := ∃ d, d ∈ l ∧ path d = p ∧ covers (ranges d) n.
Lemma followed_cons d l p n : followed (d :: l) p n ↔ (path d = p ∧ covers (ranges d) n) ∨ followed l p n.
Proof.
  unfold followed. setoid_rewrite elem_of_cons. split.
  - intros (x & [->|Hx] & Hp & Hc); [by left|right; by exists x].
  - intros [[Hp Hc]|(x & Hx & Hp & Hc)]; [exists d|exists x]; auto.
Qed.
Lemma followed_nil p n : followed [] p n ↔ False.
Proof. split; [|done]. by intros (d & ?%elem_of_nil & _). Qed.
Lemma followed_app l l' p n : followed (l ++ l') p n ↔ followed l p n ∨ followed l' p n.
Proof.
  unfold followed. setoid_rewrite elem_of_app. split.
  - intros (x & [Hx|Hx] & Hp & Hc); [left|right]; by exists x.
  - intros [(x & Hx & Hp & Hc)|(x & Hx & Hp & Hc)]; exists x; auto.
Qed.
(** The merge of two lists takes every path of both. *)
Lemma line_log_data_merge_wp fuel : ∀ a b, (length a + length b < fuel)%nat → by_path a → by_path b → Forall (λ d, canon (-1) (ranges d)) a → Forall (λ d, canon (-1) (ranges d)) b →
  returns (line_log_data_merge fuel a b) (λ l, by_path l ∧ Forall (λ d, canon (-1) (ranges d)) l ∧ (∀ d, d ∈ l → ∃ d', d' ∈ a ++ b ∧ path d' = path d) ∧ ∀ p n, followed l p n ↔ followed a p n ∨ followed b p n).
Proof.
  induction fuel as [|fuel IH]; intros a b Hf Ha Hb Ca Cb; [lia|]. cbn [line_log_data_merge].
  (* one of the lists goes on with the smaller path *)
  assert (∀ d rs a' b', (length a' + length b' < fuel)%nat → by_path a' → by_path b' → Forall (λ d, canon (-1) (ranges d)) a' → Forall (λ d, canon (-1) (ranges d)) b' → canon (-1) rs →
    (∀ x, x ∈ a' ++ b' → memcmp (path d) (path x) < 0) → (∀ x, x ∈ a' ++ b' → x ∈ a ++ b) → d ∈ a ++ b → (∀ p n, followed a p n ∨ followed b p n ↔ (path d = p ∧ covers rs n) ∨ followed a' p n ∨ followed b' p n) →
    returns (let! l := line_log_data_merge fuel a' b' in Ret (Line_log_data (path d) rs :: l)) (λ l, by_path l ∧ Forall (λ d, canon (-1) (ranges d)) l ∧ (∀ d, d ∈ l → ∃ d', d' ∈ a ++ b ∧ path d' = path d) ∧ ∀ p n, followed l p n ↔ followed a p n ∨ followed b p n)) as Hgo.
  { intros d rs a' b' Hf' Ha' Hb' Ca' Cb' Hrs Hlt Hsub Hd Hiff. apply wp_bind. eapply wp_mono; [|by apply (IH a' b')]. intros l (L1 & L2 & L3 & L4). cbn [wp]. split_and!.
    - constructor; [done|]. apply Forall_forall. intros x Hx. cbn [path]. destruct (L3 x Hx) as (x' & Hx' & <-). by apply Hlt.
    - by constructor.
    - intros x [->|Hx]%elem_of_cons; [by exists d|]. destruct (L3 x Hx) as (x' & Hx' & E). exists x'. split; [by apply Hsub|done].
    - intros p n. rewrite followed_cons, L4. cbn [path ranges]. symmetry. apply Hiff. }
  destruct a as [|da a], b as [|db b]; cbn [length] in *.
  - cbn [wp]. split_and!; [constructor|constructor|by intros d ?%elem_of_nil|]. intros p n. rewrite !followed_nil. tauto.
  - apply StronglySorted_inv in Hb as [Hb Hdb]. apply Forall_cons in Cb as [Cdb Cb]. rewrite Forall_forall in Hdb. apply Hgo; [cbn; lia|done|done|done|done|done|intros x Hx; by apply Hdb|intros x Hx; by right|by left|]. intros p n. rewrite followed_cons, followed_nil. tauto.
  - apply StronglySorted_inv in Ha as [Ha Hda]. apply Forall_cons in Ca as [Cda Ca]. rewrite Forall_forall in Hda. apply Hgo; [cbn; lia|done|done|done|done|done|intros x; rewrite app_nil_r; apply Hda|intros x; rewrite !app_nil_r; by right|by left|]. intros p n. rewrite followed_cons, followed_nil. tauto.
  - pose proof Ha as Ha'. pose proof Hb as Hb'. apply StronglySorted_inv in Ha' as [Ha' Hda]. apply StronglySorted_inv in Hb' as [Hb' Hdb]. pose proof Ca as Ca'. pose proof Cb as Cb'. apply Forall_cons in Ca' as [Cda Ca']. apply Forall_cons in Cb' as [Cdb Cb'].
    rewrite Forall_forall in Hda, Hdb. destruct (Z.ltb_spec (memcmp (path da) (path db)) 0) as [Hlt|Hge]; [|destruct (Z.eqb_spec (memcmp (path da) (path db)) 0) as [Heq|Hne]].
    + apply Hgo; [cbn; lia|done|done|done|done|done| |intros x Hx; by right|by left|intros p n; rewrite (followed_cons da); tauto]. intros x [Hx|[->|Hx]%elem_of_cons]%elem_of_app; [by apply Hda|done|]. apply (cmp_lt_trans memcmp _ (path db)); [exact Hlt|by apply Hdb].
    + apply cmp_eq in Heq. apply wp_bind. eapply wp_mono; [|apply (range_set_union_wp 0 (ranges da) (ranges db)); by eapply (canon_laid (-1))]. intros rs [R1 R2]. apply Hgo; [lia|done|done|done|done|done| |intros x [Hx|Hx]%elem_of_app; apply elem_of_app; [left|right]; by right|by left|].
      * intros x [Hx|Hx]%elem_of_app; [by apply Hda|]. rewrite Heq. by apply Hdb.
      * intros p n. rewrite !followed_cons, R2, Heq. tauto.
    + apply Hgo; [cbn; lia|done|done|done|done|done| |intros x [Hx|Hx]%elem_of_app; apply elem_of_app; [by left|right; by right]|apply elem_of_app; right; by left|intros p n; rewrite (followed_cons db); tauto]. assert (memcmp (path db) (path da) < 0) as Hlt by (apply cmp_flip; lia).
      intros x [[->|Hx]%elem_of_cons|Hx]%elem_of_app; [done| |by apply Hdb]. apply (cmp_lt_trans memcmp _ (path da)); [exact Hlt|by apply Hda].
Qed.
Lemma by_path_fmap l : by_path l ↔ StronglySorted (λ x y, memcmp x y < 0) (path <$> l).
Proof.
  unfold by_path. induction l as [|d l IH]; cbn [fmap list_fmap]; [split; constructor|]. split; intros [H1 H2]%StronglySorted_inv; constructor; try by apply IH.
  - by apply Forall_fmap.
  - by apply Forall_fmap in H2.
Qed.
Lemma by_path_insert l1 d l2 : by_path (l1 ++ l2) → Forall (λ x, memcmp (path x) (path d) < 0) l1 → Forall (λ x, memcmp (path d) (path x) < 0) l2 → by_path (l1 ++ d :: l2).
Proof.
  intros Hs H1 H2. induction l1 as [|x l1 IH]; cbn [app] in *; [by constructor|]. apply StronglySorted_inv in Hs as [Hs Hx]. apply Forall_cons in H1 as [H1x H1]. constructor; [by apply IH|].
  apply Forall_app in Hx as [Hx1 Hx2]. apply Forall_app. split; [done|]. by constructor.
Qed.
Lemma search_spec p l : by_path l → ∀ at_ ip, (∃ l1 d l2 ip', l = l1 ++ d :: l2 ∧ path d = p ∧ search_line_log_data l p at_ ip = (Some (at_ + length l1)%nat, ip')) ∨
  (∃ l1 l2, l = l1 ++ l2 ∧ Forall (λ x, memcmp (path x) p < 0) l1 ∧ Forall (λ x, memcmp p (path x) < 0) l2 ∧
    search_line_log_data l p at_ ip = (None, match l1 with [] => ip | _ => Some (at_ + pred (length l1))%nat end)).
Proof.
  induction l as [|d l IH]; intros Hs at_ ip; cbn [search_line_log_data]. { right. exists [], []. split_and!; done. }
  apply StronglySorted_inv in Hs as [Hs Hd]. destruct (Z.eqb_spec (memcmp (path d) p) 0) as [E|E].
  { apply cmp_eq in E. left. exists [], d, l, ip. split_and!; [done|done|]. by rewrite Nat.add_0_r. }
  destruct (IH Hs (S at_) (if memcmp (path d) p <? 0 then Some at_ else ip)) as [(l1 & x & l2 & ip' & -> & Ex & Es)|(l1 & l2 & -> & H1 & H2 & Es)]; rewrite Es.
  - left. exists (d :: l1), x, l2, ip'. split_and!; [done|done|]. cbn [length]. do 2 f_equal. lia.
  - right. destruct (Z.ltb_spec (memcmp (path d) p) 0) as [Hlt|Hge].
    + exists (d :: l1), l2. split_and!; [done|by constructor|done|]. cbn [length pred]. destruct l1; cbn [length pred]; do 2 f_equal; lia.
    + assert (memcmp p (path d) < 0) as Hlt by (apply cmp_flip; lia). assert (l1 = []) as ->.
      { destruct l1 as [|x l1]; [done|]. exfalso. apply Forall_cons in H1 as [H1 _]. apply Forall_cons in Hd as [Hd _]. pose proof (cmp_lt_trans memcmp _ _ _ Hlt Hd) as Hx. apply cmp_flip in H1. lia. }
      exists [], (d :: l2). split_and!; [done|done|by constructor|done].
Qed.
Lemma line_log_data_insert_wp l p x y : by_path l → x <= y → returns (line_log_data_insert l p x y) (λ l', by_path l' ∧ ∀ p' n, followed l' p' n ↔ followed l p' n ∨ (p = p' ∧ x <= n < y)).
Proof.
  intros Hs Hxy. assert (∀ n, covers [Range x y] n ↔ x <= n < y) as Hc. { intros n. rewrite covers_cons, covers_nil. unfold in_range. cbn. tauto. }
  unfold line_log_data_insert. destruct (search_spec p l Hs 0 None) as [(l1 & d & l2 & ip & -> & <- & ->)|(l1 & l2 & -> & H1 & H2 & ->)].
  - cbn [Nat.add]. rewrite lookup_app_r, Nat.sub_diag by done. cbn [lookup list_lookup]. unfold range_set_append_unsafe, oassert. destruct (Z.leb_spec x y); [|lia]. cbn [obind wp].
    replace (length l1) with (length l1 + 0)%nat by lia. rewrite insert_app_r. cbn [insert list_insert]. split.
    + apply by_path_fmap. rewrite fmap_app. cbn [fmap list_fmap path]. apply by_path_fmap in Hs. rewrite fmap_app in Hs. done.
    + intros p' n. rewrite !followed_app, !followed_cons. cbn [path ranges]. rewrite covers_app, Hc. tauto.
  - rewrite append_ok by done. cbn [obind wp app]. set (d := Line_log_data p [Range x y]).
    assert (match match l1 with [] => None | _ => Some (0 + pred (length l1))%nat end with Some k => take (S k) (l1 ++ l2) ++ d :: drop (S k) (l1 ++ l2) | None => d :: l1 ++ l2 end = l1 ++ d :: l2) as ->.
    { destruct l1 as [|z l1]; [done|]. cbn [length pred Nat.add]. replace (S (length l1)) with (length (z :: l1)) by done. by rewrite take_app_length, drop_app_length. }
    split; [by apply by_path_insert|]. intros p' n. rewrite !followed_app, followed_cons. cbn [path ranges d]. rewrite Hc. tauto.
Qed.

(** ** The properties *)
#[local] Instance sample_qsort : Qsort := insertion_qsort.
#[local] Instance sample_qsort_laws : QsortLaws sample_qsort := insertion_qsort_laws.

(** C13. Following lines to the parent, for any two files: the diff that
    [collect_diff] takes has its hunks in order, and a line outside the hunks is
    the same line of the parent, at its image.  Mapped across this diff, a set of
    ranges (not empty, as the callers check) becomes exactly the images of its
    lines outside the hunks and the parent's side of the hunks that overlap one
    of the ranges, again in canonical form, and these hunks are reported.  This
    needs that no hunk starts where one range ends and overlaps another. *)
Theorem line_log_follows (malloc : Z → list Z) (pf tf : list Z) (rs : list range) : malloc_ok malloc → zlen pf < 2 ^ 29 - 4 → zlen tf < 2 ^ 29 - 4 → canon (-1) rs → rs ≠ [] →
  ∃ d, collect_diff malloc pf tf = Ret (Some d) ∧
    (∀ m, 0 <= m < zlen (split_lines tf) → ¬ covers (target d) m → znth (split_lines pf) (image d m) = znth (split_lines tf) m) ∧
    (apart rs d → ∃ out, range_set_map_across_diff rs d = Ret (out, Diff_ranges (overlapped rs d).*1 (overlapped rs d).*2) ∧ canon (-1) out ∧
      ∀ n, covers out n ↔ (∃ m, covers rs m ∧ ¬ covers (target d) m ∧ n = image d m) ∨ covers (overlapped rs d).*1 n).
Proof.
  intros Hmal Hp Ht Hrs Hne. pose proof (collect_diff_wp malloc pf tf Hmal Hp Ht) as W. apply returns_eq in W as (r & E & d & -> & Hh & Him). exists d. split_and!; [done|done|]. intros Hap.
  pose proof (map_across_diff_wp rs Hrs Hne d Hh Hap) as W. apply returns_eq in W as ([out touched] & Em & -> & Hc & Hn). by exists out.
Qed.
(** The parent has lines a to e; line c is changed and two lines are added behind. *)
Definition old_file : list Z := text [[97]; [98]; [99]; [100]; [101]].
Definition new_file : list Z := text [[97]; [98]; [120]; [100]; [101]; [121]; [122]].
Lemma line_log_follows_witness : ∃ d, collect_diff (λ n, zrep n 7) old_file new_file = Ret (Some d) ∧
    (∀ m, 0 <= m < zlen (split_lines new_file) → ¬ covers (target d) m → znth (split_lines old_file) (image d m) = znth (split_lines new_file) m) ∧
    (apart [Range 1 4; Range 6 7] d → ∃ out, range_set_map_across_diff [Range 1 4; Range 6 7] d = Ret (out, Diff_ranges (overlapped [Range 1 4; Range 6 7] d).*1 (overlapped [Range 1 4; Range 6 7] d).*2) ∧ canon (-1) out ∧
      ∀ n, covers out n ↔ (∃ m, covers [Range 1 4; Range 6 7] m ∧ ¬ covers (target d) m ∧ n = image d m) ∨ covers (overlapped [Range 1 4; Range 6 7] d).*1 n).
Proof. apply (line_log_follows (λ n, zrep n 7) old_file new_file [Range 1 4; Range 6 7]); [intros n Hn; by apply zlen_zrep|by vm_compute|by vm_compute|by vm_compute|done]. Defined.
Example line_log_small : collect_diff (λ n, zrep n 7) old_file new_file = Ret (Some (Diff_ranges [Range 2 3; Range 5 5] [Range 2 3; Range 5 7])) ∧
  apart [Range 1 4; Range 6 7] (Diff_ranges [Range 2 3; Range 5 5] [Range 2 3; Range 5 7]) ∧
  range_set_map_across_diff [Range 1 4; Range 6 7] (Diff_ranges [Range 2 3; Range 5 5] [Range 2 3; Range 5 7]) = Ret ([Range 1 4], Diff_ranges [Range 2 3; Range 5 5] [Range 2 3; Range 5 7]).
Proof.
  split_and!; [by vm_compute| |by vm_compute]. intros t x r Ht Hx Hr. cbn in Ht. repeat (apply elem_of_cons in Ht as [->|Ht]; [repeat (apply elem_of_cons in Hx as [->|Hx]; [done|]); by apply elem_of_nil in Hx|]). by apply elem_of_nil in Ht.
Qed.

(** C14. Range sets are sets of lines: [range_set_union] is the union of two sets
    whose ranges are in order, and [sort_and_merge_range_set] changes nothing in
    the set of any ranges, both with a result in canonical form (sorted, no range
    empty, none touching), so that the assertions hold.  [range_set_difference]
    is the difference, provided that no range of the second set starts where one
    of the first ends; its result is in order ([laid]), but ranges in it may
    touch. *)
Theorem range_sets_are_sets (Q : Qsort) (p : Z) (a b : list range) : QsortLaws Q → laid p a → laid p b →
  (∃ out, range_set_union a b = Ret out ∧ canon (p - 1) out ∧ ∀ n, covers out n ↔ covers a n ∨ covers b n) ∧
  (∀ rs, Forall (λ r, p < start r ∧ start r <= end_ r) rs → ∃ out, sort_and_merge_range_set rs = Ret out ∧ canon p out ∧ ∀ n, covers out n ↔ covers rs n) ∧
  ((∀ ra rb, ra ∈ a → rb ∈ b → start rb ≠ end_ ra) → ∃ out, range_set_difference a b = Ret out ∧ laid p out ∧ ∀ n, covers out n ↔ covers a n ∧ ¬ covers b n).
Proof.
  intros HQ Ha Hb. split_and!.
  - pose proof (range_set_union_wp p a b Ha Hb) as W. apply returns_eq in W as (out & E & H). by exists out.
  - intros rs Hrs. pose proof (sort_and_merge_wp p rs Hrs) as W. apply returns_eq in W as (out & E & H). by exists out.
  - intros Hne. pose proof (range_set_difference_wp p a b p Ha Hb Hne) as W. apply returns_eq in W as (out & E & H1 & _ & H2). by exists out.
Qed.
Lemma range_sets_are_sets_witness :
  (∃ out, range_set_union [Range 0 3; Range 7 9] [Range 2 8] = Ret out ∧ canon (-1 - 1) out ∧ ∀ n, covers out n ↔ covers [Range 0 3; Range 7 9] n ∨ covers [Range 2 8] n) ∧
  (∃ out, sort_and_merge_range_set [Range 7 9; Range 0 3; Range 3 3; Range 2 8] = Ret out ∧ canon (-1) out ∧ ∀ n, covers out n ↔ covers [Range 7 9; Range 0 3; Range 3 3; Range 2 8] n) ∧
  (∃ out, range_set_difference [Range 0 3; Range 7 9] [Range 2 8] = Ret out ∧ laid (-1) out ∧ ∀ n, covers out n ↔ covers [Range 0 3; Range 7 9] n ∧ ¬ covers [Range 2 8] n).
Proof.
  destruct (range_sets_are_sets sample_qsort (-1) [Range 0 3; Range 7 9] [Range 2 8]) as (H1 & H2 & H3); [apply _|by vm_compute|by vm_compute|]. split_and!; [exact H1|apply H2; by repeat constructor|]. apply H3.
  intros ra rb Ha ->%list_elem_of_singleton. repeat (apply elem_of_cons in Ha as [->|Ha]; [done|]). by apply elem_of_nil in Ha.
Defined.

(** C15. The boundary the code misses.  [range_set_difference] never returns for
    lines that end where the next range to remove starts.  And a hunk that starts
    where one range ends and reaches into the next range is never found to touch
    the ranges: with the ranges [x, y) and [s, e) and a hunk from [y] to [t > s]
    in place of the parent's lines [q, u), following the lines to the parent fails
    an assertion when the parent's side has fewer lines than the hunk has from [s]
    on, and otherwise reports no hunk and shifts the second range as if its lines
    were not the hunk's. *)
Theorem line_log_boundary (x y s e t q u : Z) : 0 <= x < y → y < s < e → s < t → q <= u →
  let d := Diff_ranges [Range q u] [Range y t] in let off := (u - q) - (t - y) in
  (∀ fuel b out, difference_loop fuel [Range x y] (Range y t :: b) out = NoFuel) ∧ ranges_overlap (Range y t) (Range s e) = true ∧
  (u - q < t - s → range_set_map_across_diff [Range x y; Range s e] d = Die) ∧
  (t - s <= u - q → ∃ out, range_set_map_across_diff [Range x y; Range s e] d = Ret (out, Diff_ranges [] []) ∧ ∀ n, covers out n ↔ x <= n < y ∨ s + off <= n < e + off).
Proof.
  intros Hx Hs Ht Hq. cbn zeta.
  assert (diff_ranges_filter_touched (Diff_ranges [Range q u] [Range y t]) [Range x y; Range s e] = Ret (Diff_ranges [] [])) as Etouch.
  { unfold diff_ranges_filter_touched. cbn [parent target touched_loop touch_skip start end_]. destruct (Z.ltb_spec y y); [lia|]. cbn [obind]. unfold ranges_overlap. cbn [start end_]. destruct (Z.leb_spec t x); [lia|]. destruct (Z.leb_spec y y); [|lia]. done. }
  assert (range_set_difference [Range x y; Range s e] [] = Ret [Range x y; Range s e]) as Ediff.
  { unfold range_set_difference. cbn [length Nat.add difference_loop difference_range start end_ skip_before]. destruct (Z.ltb_spec x y); [|lia]. rewrite append_ok by (done || lia). cbn [obind]. destruct (Z.ltb_spec s e); [|lia]. rewrite append_ok; [done| |lia]. intros l [= <-]. cbn. lia. }
  assert (range_set_shift_diff [Range x y; Range s e] (Diff_ranges [Range q u] [Range y t]) = range_set_append [Range x y] (s + ((u - q) - (t - y))) (e + ((u - q) - (t - y)))) as Eshift.
  { unfold range_set_shift_diff. cbn [shift_loop parent target shift_skip start end_]. destruct (Z.leb_spec y x); [lia|]. cbn [obind]. rewrite append_ok by (done || lia). cbn [obind app shift_skip start]. destruct (Z.leb_spec y s); [|lia]. cbn [obind end_ start]. rewrite !Z.add_0_r, Z.add_0_l. by destruct (range_set_append _ _ _). }
  split_and!.
  - intros fuel b out. cbn [difference_loop start end_]. rewrite (difference_range_stuck fuel x y (Range y t :: b) out (Range y t) b); [done| |lia|done]. cbn. destruct (Z.leb_spec t x); [lia|done].
  - unfold ranges_overlap. cbn [start end_]. destruct (Z.leb_spec t s); [lia|]. destruct (Z.leb_spec e y); [lia|]. done.
  - intros Hlt. unfold range_set_map_across_diff. rewrite Etouch. cbn [obind target]. rewrite Ediff. cbn [obind]. rewrite Eshift. unfold range_set_append, oassert. cbn [last end_]. destruct (Z.leb_spec y (s + (u - q - (t - y)))); [lia|done].
  - intros Hge. unfold range_set_map_across_diff. rewrite Etouch. cbn [obind target parent]. rewrite Ediff. cbn [obind]. rewrite Eshift, append_ok; [|intros l [= <-]; cbn; lia|lia]. cbn [obind app].
    pose proof (range_set_union_wp 0 [Range x y; Range (s + (u - q - (t - y))) (e + (u - q - (t - y)))] []) as W. ospecialize (W _ _); [cbn; lia|done|]. apply returns_eq in W as (out & -> & _ & Hc). cbn [obind]. exists out. split; [done|].
    intros n. rewrite Hc, !covers_cons, !covers_nil. unfold in_range. cbn [start end_]. tauto.
Qed.
(** A commit that adds three lines behind the fifth, and one that replaces the
    three there. *)
Lemma line_log_boundary_witness : range_set_map_across_diff [Range 0 5; Range 6 7] (Diff_ranges [Range 5 5] [Range 5 8]) = Die ∧
  ∃ out, range_set_map_across_diff [Range 0 5; Range 6 7] (Diff_ranges [Range 5 8] [Range 5 8]) = Ret (out, Diff_ranges [] []) ∧ ∀ n, covers out n ↔ 0 <= n < 5 ∨ 6 <= n < 7.
Proof.
  split; [apply (line_log_boundary 0 5 6 7 8 5 5); lia|]. destruct (line_log_boundary 0 5 6 7 8 5 8 ltac:(lia) ltac:(lia) ltac:(lia) ltac:(lia)) as (_ & _ & _ & H). apply H. lia.
Defined.
Example line_log_assertion : (let! r := collect_diff (λ n, zrep n 7) old_file (old_file ++ text [[120]; [121]; [122]]) in
   match r with Some d => range_set_map_across_diff [Range 0 5; Range 6 7] d | None => Ret ([], Diff_ranges [] []) end) = Die.
Proof. by vm_compute. Qed.
End LineLogTheorems.
